(* ===== verification/_CoqProject ===== *)
-Q . S2P
Prelude.v
GoStd.v
Text.v
Wire.v
Compress.v
BlockV3.v
Block.v
Framing.v
EpochCache.v
Index.v
SyncBarrier.v
Segment.v
SegmentIndex.v
SegmentSearch.v
SegmentReopen.v
Log.v
LogAppend.v
LogRead.v
SegmentRewrite.v
LogTruncate.v
LogWait.v
LogEpochs.v
Retention.v
KeyDigest.v
Compaction.v
CompactRecord.v
CompactSegment.v
BlockCopy.v
CompactLog.v
CompactPass.v
CompactLimits.v
SegmentJoin.v
Cleaning.v
ReadSource.v
ReadTail.v
ReadCommitted.v
PrefixRead.v
PrefixDrain.v
Reader.v
Repair.v
