(* ===== verification/Prelude.v ===== *)
(** * commitlog: a verified model of a segmented, compressed, replicated log

    This library models the Go package [commitlog] and proves it correct: the
    bytes of a record and of a message set, the two block formats that hold them
    compressed, the files of a segment and of its offset index, what an open
    recovers of them after a crash, the log above the segments with its appends,
    truncations, waits and leader epochs, the barrier that makes records durable,
    retention, compaction and joining of segments, the readers, the recovery of
    the tail, and replication by frames and by blocks.

    ** The program

    A log is a directory of segments.  A segment is an append-only log file
    and an index file.  The logical content of a segment is a sequence of
    frames, each a 32-byte header (offset, timestamp, leader epoch, size,
    checksum) and a record (checksum, attributes, key, value, headers).  A raw
    segment stores the frames as they are.  A block segment stores them in
    blocks, each compressed on its own: version-2 blocks hold a message set,
    version-3 blocks hold records under one header with the identity of their
    producer, and read as the frames that set would have had.  A table of
    blocks maps logical positions to the file; it is rebuilt by walking the
    file, or read from a side file when that accounts for the log exactly.
    The index maps offsets to logical positions, one entry per record in a raw
    segment and one per block otherwise; it is a memory-mapped file that is
    grown ahead of its content, and a log that is ahead of its index is
    reconciled on opening.

    The last segment of the log is active; appends go there and roll it when it
    is full or old.  Records up to the high watermark are committed.  A cleaning
    pass deletes old segments, compacts the sealed ones by key with the help of
    key digests kept beside them, and joins small ones, while appends and readers
    go on.  Readers go from segment to segment and find their place again when
    one was replaced.  A follower reads frames or stored blocks of its leader
    and appends them.

    ** The files

    Bytes and formats:
    - [Prelude]: machine integers, slices with Go's bounds, [outcome] (a
      value, an error, a panic) with its monad, tactics and shared lemmas.
    - [GoStd], [Text]: what the code uses of Go's library: big-endian and
      varint encodings, CRC-32 by its table, [sort.Search] and sorting of
      strings, [strconv], [bufio.ScanWords].
    - [Wire]: encoder.go, message.go, message_set.go.  [encode] runs the two
      passes of the packet encoder; [SerializedMessage] and [messageSet] hold
      the accessors; [newMessageSetFromProto] and [entriesForMessageSet] frame
      and walk a set; [parseHeadersAfterValue] is the checked header parse.
    - [Compress]: compress/codec.go.  The three compression libraries are the
      class [CodecLib]; that decompressing undoes compressing, as they
      document, is the class [CodecLaws].  [half_lib] is an instance.
    - [BlockV3]: blockv3/blockv3.go, whole.
    - [Block]: block.go, block_table.go and the reading half of
      block_table_local.go.
    - [Framing]: blockv3_read.go, and of append_batch.go what builds and
      checks a batch.

    The files of a segment (segment.go, index.go, segment_store.go):
    - [Index]: index.go.  The state is the file's bytes, the length of the
      mapping, the recorded size, the position and whether it is closed.
    - [Segment]: a local segment opened, appended to, read, split, sealed,
      closed and waited for, with the block cache of block.go.
    - [SegmentIndex], [SegmentReopen]: [setupIndex], [reconcileIndexTail] and
      what they call, for raw segments and for segments of blocks.
    - [SegmentSearch]: the seeks and [segmentScanner]; [holds s fs] says that a
      segment stores exactly the frames [fs].
    - [SegmentRewrite]: working copies, [Replace], [Finalize], [Delete].

    The log (commitlog.go, append_batch.go, util.go):
    - [EpochCache]: leader_epoch_cache.go.  The state is the list of entries
      and the content of the checkpoint file.
    - [Log]: the state [commitLog], the roll, the appends in their four forms;
      [inv l fss] says that the segments of [l] store the frames [fss].
    - [LogAppend], [LogRead], [LogTruncate], [LogWait], [LogEpochs]: the appends
      against a list of records, [ReadMessageSet] and the lookups by time, both
      truncations, waiting for the watermark, the epoch queries.
    - [SyncBarrier]: [Sync], [SyncAll] and [forEachSegment] of commitlog.go
      and [sync] of segment.go, as threads of a step function.
    - [Repair]: [RepairTail] and [RecoverTail].
    - [BlockCopy]: block_replication.go.

    Maintenance (clean.go and the cleaners):
    - [Retention]: delete_cleaner.go, over the class [Retained].
    - [KeyDigest]: keydigest.go.
    - [Compaction], [CompactRecord], [CompactSegment], [CompactLog]:
      compact_cleaner.go: what a pass drops, what it makes of a record, how it
      rewrites a segment, and the pass itself; [CompactPass] proves it,
      [CompactLimits] says where it departs from its documentation.
    - [SegmentJoin]: clean_join.go, and [consolidateSegments].
    - [Cleaning]: the pass of clean.go over all of these, beside appends.

    Readers (reader.go, buf_reader.go, read_options.go, prefix_read.go,
    prefix_source.go):
    - [ReadSource]: the sequential readers; everything else that happens to the
      log is an argument that runs between their accesses.
    - [ReadTail], [ReadCommitted]: what they read while the log grows.
    - [PrefixRead], [PrefixDrain]: reads of a key prefix.
    - [Reader]: [NewReader] and [ReadMessage] over both.

    Definitions keep the names of the code.  A method of a type is a function
    of the record that models it and returns the record it leaves.  Go's [int],
    [int64] and the like are [Z] with the wrap-around of the width written as
    [sint] and [uint] wherever a value is stored at a width; file positions,
    which a file cannot bring near 2^63, are not wrapped.  A nil slice is
    [None].  A slice expression out of range is [Panic].  The order in which
    Go visits a map is an argument.  The failures of the operating system are
    arguments too: [faults] for the index's truncate, unmap and map, [wfault]
    for the bytes of a write that landed before it failed, [io], [cut_io] and
    functions or booleans for the rest.  An operation that runs under a lock is
    one step; where the code lets others in, their effect is an argument.

    ** What is proved

    - Formats.  Records, version-3 blocks, headers and block tables read back
      as they were written ([record_roundtrip], [v3_block_roundtrip],
      [v3_header_canonical], [block_table_roundtrip], [digest_sidecar]); the
      encoder meets a reference serialization whatever the map orders
      ([encode_correct]); decoders that run on unverified bytes do not panic and
      accept only consistent data ([parse_headers_checked],
      [v3_decode_checked], [block_table_sound]); one damaged byte is noticed
      ([header_corruption_detected], [record_corruption_detected],
      [block_table_corruption_detected], [v3_corruption_detected]).
    - One logical content.  A message set is tiled by its entries
      ([message_set_entries]); a version-3 block reads as such a set
      ([v3_framing_readable], [v3_identity_visible]), with the records the
      version-2 path stores for the same batch, byte for byte where that path
      visits the headers in the order of their keys ([batch_formats_agree]); the
      edits a log makes to a stored block change its header fields and nothing
      else ([v3_rewrite_keeps_records], [v3_identity_edits]).
    - The segment.  Appends and reads refine a byte string
      ([segment_is_byte_string]).  An open after a crash recovers exactly the
      whole blocks or frames and their index ([segment_reopens_after_crash],
      [block_segment_reopens], [raw_segment_reopens]), refuses damage
      ([segment_refuses_damage]) and, unless the index reaches past the log,
      cuts nothing that was committed ([committed_tail_not_discarded]).  A seek
      finds the first record that fits, by time where timestamps do not decrease
      ([seek_finds_first]).
    - The index.  Writes are atomic against every failure
      ([index_write_atomic]), the search finds the first entry
      ([index_search_first]), an open finds the end
      ([index_recovers_position]).
    - The log as a list of records.  Appends of every form put their records
      behind the others ([append_refines], [append_set_accepts],
      [preframed_refines], [batch_append_formats]); reads return runs of them
      ([read_message_set]), and lookups by time their ends where timestamps do not
      decrease ([lookups_by_time]); truncations cut it where they say
      ([truncate_refines], [truncate_before_concurrent]); every sequence of
      steps keeps the log well formed and leaves no waiting reader untold
      ([log_well_formed], [no_reader_stranded]).
    - Replication.  A follower that asks for what it lacks, as frames or as
      stored blocks, ends up with the leader's records
      ([replication_converges], [block_replication_converges]); a read of blocks
      has no gap ([read_blocks_exact]).
    - Leader epochs.  The history stays ordered and durable
      ([epoch_history_ordered], [epoch_history_durable]), the probe obeys the
      ceiling rule and the trims change it as they should
      ([epoch_probe_ceiling], [epoch_trims_probe]); the log's answers are those
      of its records ([epoch_answers_exact]).
    - Durability and recovery.  [Sync] that returned nil has made its records
      durable under every interleaving with appends, rolls and other calls of
      [Sync] ([sync_is_durable]), and it ends ([sync_completes]).  Recovery keeps
      exactly the records in front of the first damaged one
      ([recover_tail_exact]).
    - Maintenance.  Retention removes the oldest segments and no more than the
      limits ask for ([clean_removes_oldest], [total_limit_exact]).  A
      compaction pass, wherever its budget or a rewrite that fails before it
      replaces anything ends it, keeps the value of every key
      ([compact_keeps_values]), is exact when it runs to the end
      ([compact_exact]), leaves a log the next pass can start from
      ([pass_stays_ready]) and claims a true floor ([floor_sound]).  Joins keep
      every record ([plan_bounds], [join_keeps]).  A whole pass keeps these
      while appends go on ([clean_pass], [clean_concurrent]).  These theorems ask
      for true digest files, for age protection in the order of writes, for
      writes, removals and renames that succeed once a copy is begun, and where
      stamps matter for stripping of raw segments below the ceiling; the
      departures below show why.
    - Readers.  Beside appends, at most one between two accesses of the reader,
      a reader returns the records from its offset on, in order, none twice and
      none missing ([tail_reader_exact]); beside any appends and a rising
      watermark, in a log without holes from the watermark on, a committed one
      does and returns none above the watermark ([committed_reader_exact]); a
      filtered read whose bound stays put returns what it wants of the sealed
      segments ([prefix_source_exact]) by either route ([prefix_routes_agree]).
    - Departures.  These theorems state, on the same definitions, where the
      code does not keep what it promises: [nil_header_value_unreadable],
      [short_write_displaces_next_append], [raw_recovery_trusts_header],
      [raw_recovery_can_spin], [overshoot_cuts_committed],
      [lost_block_unopenable], [falling_time_missed], [epoch_probe_wraps],
      [sync_races_syncall], [sync_stale_after_truncate],
      [truncate_undoes_sync], [failed_roll_spins], [latest_ignores_rolled],
      [latest_names_hole],
      [truncate_seals_active], [truncate_strands_reader],
      [truncated_epoch_remains], [trimmed_epoch_shifted],
      [local_limit_leaves_hole], [undecided_shadows], [floor_overclaims],
      [stamp_overclaims], [age_brings_back], [stale_digest_loses],
      [join_outgrows_index], [above_watermark_forgotten],
      [watermark_hole_overrun],
      [unset_watermark_unbounded], [watermark_gap_skipped],
      [rolled_record_skipped], [full_segment_never_parks],
      [repair_cuts_on_any_error].

    ** Fuel and bounds

    Loops that advance through a byte string take its length as fuel, which
    the lemmas about them show to be enough; [sort.Search] is bounded by the
    number of elements.  Walks over the frames of a segment can fail to end on
    damaged input, so they take any fuel and return [None] when it runs out: the
    theorems hold from one more than the number of frames of a segment up, and
    [raw_recovery_can_spin] says that for one input no fuel is enough.  The
    readers, which also retry, are given fuel that is [ample], 2^27: a segment
    is under 2 GiB and a frame is longer than 32 bytes, so it covers every walk.
    Loops over records (a reader's calls, the scan of a repair, the turns of a
    follower) have a counter of their own, and the theorems say which is enough.
    Hypotheses that bound sizes (records, sets and segments under 2 GiB, offsets
    less than 2^31 above the base of their segment, tables and payloads under
    4 GiB) are the widths of the fields that hold them.

    ** What is not modelled

    - Opening and closing a log directory: [New], [open] and the repair of
      overlapping segments, [Close], [Delete], the options and the maintenance
      loops.  They order directory listings, locks and goroutines; the segments
      they open are those of [SegmentReopen].
    - Segments in object stores: tier.go (but for the chain that retention
      reads), tier_move.go, tier_state.go, copy_tier.go, the stores of
      segment_store.go, index_cache.go, manifest.go and descriptor.go.  All
      segments of the model are local, so the branches for remote ones are left
      out of the operations as well.
    - inspect.go: reports on a directory, which change nothing.
    - The operating-system layer: locks, directory fsync, atomic replacement,
      memory mapping; its outcomes are arguments.
    - Logging and metrics. *)

From Stdlib Require Import ZArith Lia.
From stdpp Require Import base list gmap strings numbers sorting.
From coqutil Require Import Byte.

#[global] Set Default Goal Selector "!".

Open Scope Z_scope.

Abbreviation bytes := (list byte).

(** ** Errors and panics *)

(** The error values the modelled code returns.  One constructor per exported
    or package sentinel; [ErrText] is an error built with [errors.New] or
    [fmt.Errorf] that wraps no sentinel. *)
Inductive error : Set :=
| ErrText (msg : string)
| ErrInvalidStringLength
| ErrInvalidByteSliceLength
| ErrSegmentUnreadable (msg : string)
| ErrBlockFormat
| ErrBlockTableFormat (msg : string)
| ErrV3Format
| ErrV3Corrupt (msg : string)
| ErrUnknownLeaderEpoch
| ErrMessageSetRefused (msg : string)
| ErrCommitLogReadonly
| ErrSegmentClosed
| ErrSegmentExists
| ErrIndexCorrupt
| ErrEOF
| ErrEntryNotFound
| ErrSegmentNotFound
| ErrSegmentReplaced
| ErrCorruptFrameHeader
| ErrCorruptRecord
| ErrInvalidOptions (msg : string)
| ErrCommitLogClosed
| ErrCommitLogDeleted
| ErrLogDiscarded
| ErrTimestampBeforeLog.

(** What a Go call does: return a value, return an error, or panic (an index
    or a slice bound out of range). *)
Inductive outcome (A : Type) : Type :=
| Ok (a : A)
| Fail (e : error)
| Panic.
Arguments Ok {A} a.
Arguments Fail {A} e.
Arguments Panic {A}.

#[global] Instance outcome_ret : MRet outcome := λ A a, Ok a.
#[global] Instance outcome_bind : MBind outcome := λ A B f m,
  match m with
  | Ok a => f a
  | Fail e => Fail e
  | Panic => Panic
  end.

Definition panics {A} (o : outcome A) : Prop := o = Panic.

Definition is_ok {A} (o : outcome A) : bool :=
  match o with Ok _ => true | _ => false end.

Lemma bind_Ok {A B} (a : A) (f : A → outcome B) : (Ok a ≫= f) = f a.
Proof. reflexivity. Qed.

Lemma bind_not_Panic {A B} (m : outcome A) (f : A → outcome B) :
  m ≠ Panic → (∀ a, m = Ok a → f a ≠ Panic) → (m ≫= f) ≠ Panic.
Proof. destruct m; simpl; intros Hm Hf; [by apply Hf | discriminate | done]. Qed.

Lemma bind_Ok_inv {A B} (m : outcome A) (f : A → outcome B) b :
  (m ≫= f) = Ok b → ∃ a, m = Ok a ∧ f a = Ok b.
Proof. destruct m; simpl; intros H; try discriminate. by eexists. Qed.

(** ** Lengths and machine integers *)

Definition zlen {A} (l : list A) : Z := Z.of_nat (length l).

Lemma zlen_nonneg {A} (l : list A) : 0 ≤ zlen l.
Proof. unfold zlen. lia. Qed.

Lemma zlen_app {A} (l k : list A) : zlen (l ++ k) = zlen l + zlen k.
Proof. unfold zlen. rewrite length_app. lia. Qed.

Lemma zlen_nil {A} : zlen (@nil A) = 0.
Proof. reflexivity. Qed.

Lemma zlen_cons {A} (x : A) l : zlen (x :: l) = 1 + zlen l.
Proof. unfold zlen. simpl. lia. Qed.

Lemma zlen_concat_lower {A B} (f : A → list B) l :
  (∀ x, 0 < zlen (f x)) → zlen l ≤ zlen (concat (f <$> l)).
Proof.
  intros Hf. induction l as [|x l IH]; [done|].
  rewrite zlen_cons. cbn [fmap list_fmap concat]. rewrite zlen_app.
  specialize (Hf x). lia.
Qed.

Lemma to_nat_zlen {A} (l : list A) : Z.to_nat (zlen l) = length l.
Proof. unfold zlen. lia. Qed.

Lemma zlen_drop {A} (l : list A) n :
  0 ≤ n ≤ zlen l → zlen (drop (Z.to_nat n) l) = zlen l - n.
Proof. unfold zlen. intros. rewrite length_drop. lia. Qed.

Lemma zlen_take {A} (l : list A) n :
  0 ≤ n ≤ zlen l → zlen (take (Z.to_nat n) l) = n.
Proof. unfold zlen. intros. rewrite length_take. lia. Qed.

(** Conversion to an unsigned or a signed integer of [w] bits, as Go's
    [uintW(z)] and [intW(z)] conversions and wrap-around arithmetic do. *)
Definition uint (w z : Z) : Z := z mod 2 ^ w.
Definition sint (w z : Z) : Z := (z + 2 ^ (w - 1)) mod 2 ^ w - 2 ^ (w - 1).

Definition in_uint (w z : Z) : Prop := 0 ≤ z < 2 ^ w.
Definition in_sint (w z : Z) : Prop := - 2 ^ (w - 1) ≤ z < 2 ^ (w - 1).

Lemma uint_small w z : in_uint w z → uint w z = z.
Proof. intros H. by apply Z.mod_small. Qed.

Lemma uint_range w z : 0 ≤ w → in_uint w (uint w z).
Proof. intros Hw. apply Z.mod_pos_bound. lia. Qed.

Lemma pow2_half w : 0 < w → 2 ^ w = 2 * 2 ^ (w - 1).
Proof. intros Hw. rewrite <- Z.pow_succ_r by lia. f_equal. lia. Qed.

Lemma sint_small w z : 0 < w → in_sint w z → sint w z = z.
Proof.
  unfold sint, in_sint. intros Hw H. pose proof (pow2_half w Hw).
  rewrite Z.mod_small by lia. lia.
Qed.

Lemma sint_uint w z : 0 < w → in_sint w z → sint w (uint w z) = z.
Proof.
  intros Hw H. unfold uint, sint. rewrite Z.add_mod_idemp_l by lia.
  by apply sint_small.
Qed.

Lemma uint_uint w z : 0 ≤ w → uint w (uint w z) = uint w z.
Proof. intros Hw. apply uint_small, uint_range, Hw. Qed.

Lemma sint_uint_uint w z : 0 < w → in_sint w z → sint w (uint w (uint w z)) = z.
Proof. intros Hw H. rewrite uint_uint by lia. by apply sint_uint. Qed.

Lemma sint_range w z : 0 < w → in_sint w (sint w z).
Proof.
  intros Hw. unfold sint, in_sint. pose proof (pow2_half w Hw).
  pose proof (Z.mod_pos_bound (z + 2 ^ (w - 1)) (2 ^ w)). lia.
Qed.

Lemma sint_nonneg w z : 0 < w → 0 ≤ z < 2 ^ (w - 1) → sint w z = z.
Proof. intros ??. apply sint_small; [lia|]. unfold in_sint. lia. Qed.

Lemma uint_sint w z : 0 < w → in_uint w z → uint w (sint w z) = z.
Proof.
  intros Hw H. unfold uint, sint.
  rewrite Zminus_mod, Z.mod_mod, <- Zminus_mod by lia.
  replace (z + 2 ^ (w - 1) - 2 ^ (w - 1)) with z by lia.
  by apply Z.mod_small.
Qed.

#[global] Arguments zlen : simpl never.
#[global] Arguments uint : simpl never.
#[global] Arguments sint : simpl never.

(** ** Slices *)

(** [b[lo:hi]] with the capacity equal to the length: the strictest reading of
    the bounds check, so a definition that does not panic here does not panic
    on a slice with spare capacity either. *)
Definition slice {A} (b : list A) (lo hi : Z) : outcome (list A) :=
  if (0 <=? lo) && (lo <=? hi) && (hi <=? zlen b)
  then Ok (take (Z.to_nat (hi - lo)) (drop (Z.to_nat lo) b))
  else Panic.

(** [b[lo:]]. *)
Definition slice_from {A} (b : list A) (lo : Z) : outcome (list A) :=
  slice b lo (zlen b).

(** [b[:hi]]. *)
Definition slice_to {A} (b : list A) (hi : Z) : outcome (list A) :=
  slice b 0 hi.

(** [b[i]]. *)
Definition index {A} (b : list A) (i : Z) : outcome A :=
  if 0 <=? i then
    match b !! Z.to_nat i with Some x => Ok x | None => Panic end
  else Panic.

Lemma slice_ok {A} (b : list A) lo hi :
  0 ≤ lo ≤ hi → hi ≤ zlen b →
  slice b lo hi = Ok (take (Z.to_nat (hi - lo)) (drop (Z.to_nat lo) b)).
Proof.
  intros ??. unfold slice.
  rewrite !(proj2 (Z.leb_le _ _)) by lia. done.
Qed.

Lemma slice_not_Panic {A} (b : list A) lo hi :
  0 ≤ lo ≤ hi → hi ≤ zlen b → slice b lo hi ≠ Panic.
Proof. intros. by rewrite slice_ok. Qed.

Lemma slice_Ok_inv {A} (b r : list A) lo hi :
  slice b lo hi = Ok r →
  0 ≤ lo ≤ hi ∧ hi ≤ zlen b ∧
  r = take (Z.to_nat (hi - lo)) (drop (Z.to_nat lo) b) ∧ zlen r = hi - lo.
Proof.
  unfold slice. intros H.
  destruct (0 <=? lo) eqn:E1, (lo <=? hi) eqn:E2, (hi <=? zlen b) eqn:E3;
    simpl in H; try discriminate.
  apply Z.leb_le in E1, E2, E3. injection H as <-.
  split_and!; try lia; [done|].
  unfold zlen in *. rewrite length_take, length_drop. lia.
Qed.

Lemma slice_app_mid {A} (p m s : list A) lo hi :
  lo = zlen p → hi = zlen p + zlen m → slice (p ++ m ++ s) lo hi = Ok m.
Proof.
  intros -> ->. rewrite slice_ok.
  - f_equal. rewrite to_nat_zlen, drop_app_length.
    replace (zlen p + zlen m - zlen p) with (zlen m) by lia.
    by rewrite to_nat_zlen, take_app_length.
  - unfold zlen. lia.
  - rewrite !zlen_app. unfold zlen. lia.
Qed.

Lemma slice_from_app {A} (p s : list A) lo :
  lo = zlen p → slice_from (p ++ s) lo = Ok s.
Proof.
  intros ->. unfold slice_from. rewrite <- (app_nil_r s) at 1.
  apply slice_app_mid; [done|]. by rewrite zlen_app.
Qed.

Lemma slice_to_app {A} (p s : list A) hi :
  hi = zlen p → slice_to (p ++ s) hi = Ok p.
Proof. intros ->. by apply (slice_app_mid [] p s). Qed.

Lemma index_app_mid {A} (p s : list A) x i :
  i = zlen p → index (p ++ x :: s) i = Ok x.
Proof.
  intros ->. unfold index. rewrite (proj2 (Z.leb_le _ _)) by apply zlen_nonneg.
  rewrite to_nat_zlen, lookup_app_r by lia. by rewrite Nat.sub_diag.
Qed.

Lemma index_not_Panic {A} (b : list A) i : 0 ≤ i < zlen b → index b i ≠ Panic.
Proof.
  intros H. unfold index. rewrite (proj2 (Z.leb_le _ _)) by lia.
  destruct (lookup_lt_is_Some_2 b (Z.to_nat i)) as [x ->]; [|done].
  unfold zlen in H. lia.
Qed.

(** A replaced byte falls into one of the two parts. *)
Lemma insert_app_cases {A} (p q : list A) i x y :
  (p ++ q) !! i = Some y →
  (p !! i = Some y ∧ <[i:=x]> (p ++ q) = <[i:=x]> p ++ q) ∨
  (q !! (i - length p)%nat = Some y ∧
   <[i:=x]> (p ++ q) = p ++ <[(i - length p)%nat:=x]> q).
Proof.
  intros H. destruct (Nat.lt_ge_cases i (length p)).
  - left. rewrite lookup_app_l in H by done. by rewrite insert_app_l.
  - right. rewrite lookup_app_r in H by done. by rewrite insert_app_r_alt.
Qed.

#[global] Arguments slice : simpl never.
#[global] Arguments slice_from : simpl never.
#[global] Arguments slice_to : simpl never.
#[global] Arguments index : simpl never.

(** ** Sorted lists split by a predicate *)

Section split.
Context {A : Type} (R : relation A) (P : A → Prop) `{∀ x, Decision (P x)}.

Lemma filter_none (l : list A) : Forall (λ x, ¬ P x) l → filter P l = [].
Proof. induction 1 as [|x l Hx _ IH]; [done|]. by rewrite filter_cons_False. Qed.

Lemma filter_all (l : list A) : Forall P l → filter P l = l.
Proof. induction 1 as [|x l Hx _ IH]; [done|]. rewrite filter_cons_True by done. by f_equal. Qed.

Lemma Forall_filter (Q : A → Prop) (l : list A) : Forall Q l → Forall Q (filter P l).
Proof. rewrite !Forall_forall. intros HQ x [_ Hx]%list_elem_of_filter. auto. Qed.

(** A downward closed predicate holds of a prefix of a sorted list. *)
Lemma down_split (l : list A) :
  StronglySorted R l → (∀ x y, R x y → P y → P x) →
  l = filter P l ++ filter (λ x, ¬ P x) l.
Proof.
  intros Hs Hd. induction Hs as [|x l Hs IH Hx]; [done|].
  destruct (decide (P x)) as [HP|HP].
  - rewrite filter_cons_True, filter_cons_False by (by try intros ?). simpl. by f_equal.
  - assert (Hn : Forall (λ y, ¬ P y) l).
    { eapply Forall_impl; [exact Hx|]. simpl. eauto. }
    rewrite filter_none by (by constructor). simpl.
    rewrite filter_cons_True by done. f_equal.
    clear -Hn. induction Hn as [|y l Hy _ IH]; [done|].
    rewrite filter_cons_True by done. by f_equal.
Qed.

Lemma sorted_lookup (l : list A) i j x y :
  StronglySorted R l → (i < j)%nat → l !! i = Some x → l !! j = Some y → R x y.
Proof.
  intros Hs. revert i j. induction Hs as [|z l Hs IH Hz]; intros i j Hij Hi Hj; [done|].
  destruct i as [|i], j as [|j]; try lia.
  - injection Hi as ->. rewrite Forall_lookup in Hz. by eapply Hz.
  - eapply (IH i j); [lia|done..].
Qed.
End split.

(** ** Lists of lists *)

Lemma elem_of_concat {A} (x : A) (ls : list (list A)) : x ∈ concat ls ↔ ∃ j l, ls !! j = Some l ∧ x ∈ l.
Proof.
  rewrite list_elem_of_In, in_concat. setoid_rewrite <- list_elem_of_In. split.
  - intros (l & Hl & Hx). apply list_elem_of_lookup in Hl as [j Hj]. by exists j, l.
  - intros (j & l & Hj & Hx). exists l. split; [by eapply list_elem_of_lookup_2|done].
Qed.

Lemma concat_lookup {A} (ls : list (list A)) i l :
  ls !! i = Some l → concat ls = concat (take i ls) ++ l ++ concat (drop (S i) ls).
Proof. intros E. rewrite <- (take_drop_middle _ _ _ E) at 1. by rewrite concat_app. Qed.

Lemma take_zlen {A} k (l : list A) : take (Z.to_nat (zlen (take k l))) l = take k l.
Proof.
  unfold zlen. rewrite Nat2Z.id, length_take. destruct (Nat.le_ge_cases k (length l)); [by rewrite Nat.min_l|].
  by rewrite Nat.min_r, !take_ge.
Qed.

(** ** Decidable equality and countability of bytes *)

#[global] Instance byte_eq_dec : EqDecision byte := Byte.byte_eq_dec.

#[global] Program Instance byte_countable : Countable byte :=
  inj_countable Byte.to_N (λ n, Byte.of_N n) _.
Next Obligation. intros b. apply Byte.of_to_N. Qed.

#[global] Instance error_eq_dec : EqDecision error.
Proof. solve_decision. Defined.

#[global] Instance outcome_eq_dec {A} `{EqDecision A} : EqDecision (outcome A).
Proof. solve_decision. Defined.

(** ** Automation *)

Create HintDb commitlog discriminated.
Create Rewrite HintDb zlen.

#[export] Hint Rewrite @zlen_app @zlen_nil @zlen_cons @to_nat_zlen
  @length_app @length_cons @length_nil : zlen.

#[export] Hint Resolve zlen_nonneg slice_not_Panic index_not_Panic : commitlog.

(** Case analysis on the scrutinee of the first [match]/[if] of the goal,
    keeping the equation. *)
Ltac dmatch :=
  match goal with
  | |- context [match ?x with _ => _ end] => destruct x eqn:?
  end.

(** Reflect boolean comparisons on [Z] found in hypotheses. *)
Ltac reflect_hyps :=
  repeat match goal with
  | H : (_ && _)%bool = true |- _ => apply andb_prop in H as [? ?]
  | H : (_ || _)%bool = false |- _ => apply orb_false_elim in H as [? ?]
  | H : (_ <=? _) = true |- _ => apply Z.leb_le in H
  | H : (_ <=? _) = false |- _ => apply Z.leb_gt in H
  | H : (_ <? _) = true |- _ => apply Z.ltb_lt in H
  | H : (_ <? _) = false |- _ => apply Z.ltb_ge in H
  | H : (_ =? _) = true |- _ => apply Z.eqb_eq in H
  | H : (_ =? _) = false |- _ => apply Z.eqb_neq in H
  | H : (_ >? _) = true |- _ => rewrite Z.gtb_ltb in H
  | H : (_ >? _) = false |- _ => rewrite Z.gtb_ltb in H
  | H : negb _ = true |- _ => apply negb_true_iff in H
  | H : negb _ = false |- _ => apply negb_false_iff in H
  end.

(** Length arithmetic: normalise [zlen]/[length] of appends and call [lia]. *)
Ltac zlen_lia := autorewrite with zlen in *; unfold zlen in *; simpl in *; lia.

(** Every [zlen] in sight is nonnegative. *)
Ltac pose_zlen :=
  repeat match goal with
  | |- context [zlen ?l] =>
      lazymatch goal with H : 0 ≤ zlen l |- _ => fail | _ => pose proof (zlen_nonneg l) end
  | _ : context [zlen ?l] |- _ =>
      lazymatch goal with H : 0 ≤ zlen l |- _ => fail | _ => pose proof (zlen_nonneg l) end
  end.

Ltac len := unfold in_uint, in_sint in *; rewrite ?zlen_app, ?zlen_nil in *; pose_zlen; lia.
