(* ===== verification/GoStd.v ===== *)
(** * The Go standard library, as far as the log uses it

    [encoding/binary] (big-endian fixed widths, varints), [hash/crc32] and
    [sort.Search].  Every definition is executable; the lemmas are the round
    trips and the characterisations the component files build on. *)

From Stdlib Require Import ZArith Lia.
From stdpp Require Import base list numbers sorting gmap.
From coqutil Require Import Byte.
From S2P Require Import Prelude.

Open Scope Z_scope.

(** ** binary.BigEndian *)

Module BigEndian.

(** The [n] bytes of [z], most significant first. *)
Fixpoint put (n : nat) (z : Z) : bytes :=
  match n with
  | O => []
  | S n' => byte.of_Z (z / 2 ^ (8 * Z.of_nat n')) :: put n' z
  end.

Definition get (b : bytes) : Z :=
  foldl (λ acc x, acc * 256 + byte.unsigned x) 0 b.

(** [encoding.UintN(b)]: reads the first [n] bytes, panics on fewer. *)
Definition read (n : nat) (b : bytes) : outcome Z :=
  if (n <=? length b)%nat then Ok (get (take n b)) else Panic.

(** [encoding.PutUintN(b[off:], v)]. *)
Definition put_at (n : nat) (b : bytes) (off : Z) (v : Z) : outcome bytes :=
  if (0 <=? off) && (off + Z.of_nat n <=? zlen b)
  then Ok (take (Z.to_nat off) b ++ put n v ++ drop (Z.to_nat off + n) b)
  else Panic.

Lemma length_put n z : length (put n z) = n.
Proof. induction n; simpl; congruence. Qed.

Lemma zlen_put n z : zlen (put n z) = Z.of_nat n.
Proof. unfold zlen. by rewrite length_put. Qed.

Lemma get_acc b acc :
  foldl (λ a x, a * 256 + byte.unsigned x) acc b = acc * 2 ^ (8 * zlen b) + get b.
Proof.
  revert acc. unfold get. induction b as [|x b IH]; intros acc; cbn [foldl].
  - change (zlen (@nil byte)) with 0. rewrite Z.mul_0_r. lia.
  - rewrite IH, (IH (0 * 256 + byte.unsigned x)), zlen_cons.
    replace (8 * (1 + zlen b)) with (8 + 8 * zlen b) by lia.
    rewrite Z.pow_add_r by (pose proof (zlen_nonneg b); lia). nia.
Qed.

Lemma get_cons x b : get (x :: b) = byte.unsigned x * 2 ^ (8 * zlen b) + get b.
Proof. unfold get at 1. cbn [foldl]. by rewrite get_acc, Z.mul_0_l. Qed.

Lemma get_range b : 0 ≤ get b < 2 ^ (8 * zlen b).
Proof.
  induction b as [|x b IH]; [done|].
  rewrite get_cons, zlen_cons. pose proof (byte.unsigned_range x).
  replace (8 * (1 + zlen b)) with (8 + 8 * zlen b) by lia.
  rewrite Z.pow_add_r by (pose proof (zlen_nonneg b); lia). nia.
Qed.

Lemma get_put n z : get (put n z) = z mod 2 ^ (8 * Z.of_nat n).
Proof.
  induction n as [|n IH]; simpl put.
  - by rewrite Z.mod_1_r.
  - rewrite get_cons, IH, zlen_put, byte.unsigned_of_Z. unfold byte.wrap.
    set (m := 2 ^ (8 * Z.of_nat n)). assert (0 < m) by (unfold m; lia).
    replace (2 ^ (8 * Z.of_nat (S n))) with (m * 2 ^ 8).
    + rewrite Z.rem_mul_r by lia. lia.
    + unfold m. rewrite <- Z.pow_add_r by lia. f_equal. lia.
Qed.

Lemma mod_mul_div z a b : 0 < a → 0 < b → z mod (a * b) / a = (z / a) mod b.
Proof.
  intros. rewrite Z.rem_mul_r, (Z.mul_comm a), Z.div_add by lia.
  rewrite Z.div_small by (apply Z.mod_pos_bound; lia). lia.
Qed.

Lemma mod_mod_mul z a b : 0 < a → 0 < b → (z mod (a * b)) mod a = z mod a.
Proof.
  intros. rewrite Z.rem_mul_r, (Z.mul_comm a), Z.mod_add by lia.
  apply Z.mod_mod. lia.
Qed.

Lemma put_mod n z : put n z = put n (z mod 2 ^ (8 * Z.of_nat n)).
Proof.
  assert (G : ∀ k, (n ≤ k)%nat →
    put n z = put n (z mod 2 ^ (8 * Z.of_nat k))); [|by apply G].
  induction n as [|n IH]; intros k Hk; [done|]. simpl. f_equal; [|apply IH; lia].
  apply byte.unsigned_inj. rewrite !byte.unsigned_of_Z. unfold byte.wrap.
  replace (8 * Z.of_nat k) with (8 * Z.of_nat n + 8 * Z.of_nat (k - n)) by lia.
  rewrite Z.pow_add_r, mod_mul_div by lia.
  replace (8 * Z.of_nat (k - n)) with (8 + 8 * Z.of_nat (k - n - 1)) by lia.
  rewrite Z.pow_add_r by lia. symmetry. apply mod_mod_mul; lia.
Qed.

Lemma put_get b : put (length b) (get b) = b.
Proof.
  induction b as [|x b IH]; [done|]. simpl. rewrite get_cons.
  assert (0 < 2 ^ (8 * zlen b)) by (pose proof (zlen_nonneg b); lia).
  f_equal.
  - fold (zlen b). rewrite Z.div_add_l, Z.div_small by (try apply get_range; lia).
    rewrite Z.add_0_r. apply byte.of_Z_unsigned.
  - rewrite put_mod. fold (zlen b).
    rewrite Z.add_comm, Z.mod_add, Z.mod_small by (try apply get_range; lia).
    exact IH.
Qed.

Lemma read_app n b s : length b = n → read n (b ++ s) = Ok (get b).
Proof.
  intros <-. unfold read. rewrite length_app, (proj2 (Nat.leb_le _ _)) by lia.
  by rewrite take_app_length.
Qed.

Lemma read_put n z s : read n (put n z ++ s) = Ok (z mod 2 ^ (8 * Z.of_nat n)).
Proof. rewrite read_app by apply length_put. by rewrite get_put. Qed.

Lemma read_put2 z s : read 2 (put 2 z ++ s) = Ok (uint 16 z).
Proof. apply read_put. Qed.

Lemma read_put4 z s : read 4 (put 4 z ++ s) = Ok (uint 32 z).
Proof. apply read_put. Qed.

Lemma read_put8 z s : read 8 (put 8 z ++ s) = Ok (uint 64 z).
Proof. apply read_put. Qed.

Lemma read_not_Panic n b : (n ≤ length b)%nat → read n b ≠ Panic.
Proof. intros. unfold read. by rewrite (proj2 (Nat.leb_le _ _)). Qed.

Lemma read_range n b z : read n b = Ok z → 0 ≤ z < 2 ^ (8 * Z.of_nat n).
Proof.
  unfold read. destruct (n <=? length b)%nat eqn:E; [|discriminate].
  apply Nat.leb_le in E. injection 1 as <-.
  pose proof (get_range (take n b)) as H. unfold zlen in H.
  rewrite length_take, Nat.min_l in H by lia. exact H.
Qed.

Lemma put_at_app n p m s off v :
  off = zlen p → length m = n →
  put_at n (p ++ m ++ s) off v = Ok (p ++ put n v ++ s).
Proof.
  intros -> <-. unfold put_at.
  rewrite !(proj2 (Z.leb_le _ _)) by zlen_lia. simpl.
  rewrite to_nat_zlen, take_app_length. do 3 f_equal.
  rewrite app_assoc, <- length_app. apply drop_app_length.
Qed.

(** A field that is decoded is the field that was written, at any width. *)
Lemma get_put_uint n z : in_uint (8 * Z.of_nat n) z → get (put n z) = z.
Proof. intros H. rewrite get_put. by apply Z.mod_small. Qed.

(** Converting to the signed type of the same width does not change the bytes. *)
Lemma put_sint n z : (0 < n)%nat → put n (sint (8 * Z.of_nat n) z) = put n z.
Proof.
  intros Hn. rewrite (put_mod n z), (put_mod n (sint _ z)). f_equal.
  unfold sint. set (w := 8 * Z.of_nat n). assert (0 < 2 ^ w) by (unfold w; lia).
  rewrite Zminus_mod, Z.mod_mod, <- Zminus_mod by lia. f_equal. lia.
Qed.

Lemma put_uint n z : put n (uint (8 * Z.of_nat n) z) = put n z.
Proof. symmetry. apply put_mod. Qed.

Lemma put2_uint z : put 2 (uint 16 z) = put 2 z.
Proof. apply (put_uint 2). Qed.
Lemma put4_uint z : put 4 (uint 32 z) = put 4 z.
Proof. apply (put_uint 4). Qed.
Lemma put8_uint z : put 8 (uint 64 z) = put 8 z.
Proof. apply (put_uint 8). Qed.

Lemma get_inj a b : length a = length b → get a = get b → a = b.
Proof. intros Hl Hg. rewrite <- (put_get a), <- (put_get b). congruence. Qed.

End BigEndian.

#[global] Opaque BigEndian.put BigEndian.get BigEndian.read BigEndian.put_at.

#[export] Hint Rewrite BigEndian.length_put BigEndian.zlen_put : zlen.
#[export] Hint Resolve BigEndian.read_not_Panic : commitlog.

Lemma unsigned_of_Z_small z : in_uint 8 z → byte.unsigned (byte.of_Z z) = z.
Proof. intros H. rewrite byte.unsigned_of_Z. by apply Z.mod_small. Qed.

(** Discharge the routine side conditions of the cursor lemmas. *)
Ltac side :=
  first [ done
        | unfold in_uint, in_sint in *; autorewrite with zlen in *;
          change (8 * Z.of_nat 2) with 16 in *; change (8 * Z.of_nat 4) with 32 in *;
          lia ].

(** ** binary.AppendUvarint, Uvarint and the zigzag pair *)

Module Varint.

(** [binary.AppendUvarint(nil, x)].  Nine continuation bytes are as many as a
    64-bit value can need ([append_loop_fuel] below), so the fuel is not a
    restriction on [uint64]. *)
Fixpoint append_loop (fuel : nat) (x : Z) : bytes :=
  match fuel with
  | O => [byte.of_Z x]
  | S f =>
      if 128 <=? x
      then byte.of_Z (Z.lor x 128) :: append_loop f (Z.shiftr x 7)
      else [byte.of_Z x]
  end.

Definition append_uvarint (x : Z) : bytes := append_loop 9 x.

(** [binary.Uvarint]: the value and the number of bytes read; zero or negative
    when the buffer is too short or the value overflows 64 bits. *)
Fixpoint uvarint_loop (buf : bytes) (i x s : Z) : Z * Z :=
  match buf with
  | [] => (0, 0)
  | b :: rest =>
      if i =? 10 then (0, - (i + 1))
      else if byte.unsigned b <? 128 then
        if (i =? 9) && (1 <? byte.unsigned b) then (0, - (i + 1))
        else (Z.lor x (uint 64 (Z.shiftl (byte.unsigned b) s)), i + 1)
      else uvarint_loop rest (i + 1)
             (Z.lor x (uint 64 (Z.shiftl (Z.land (byte.unsigned b) 127) s))) (s + 7)
  end.

Definition uvarint (buf : bytes) : Z * Z := uvarint_loop buf 0 0 0.

(** [binary.AppendVarint(nil, x)]. *)
Definition append_varint (x : Z) : bytes :=
  let ux := uint 64 (Z.shiftl (uint 64 x) 1) in
  append_uvarint (if x <? 0 then 2 ^ 64 - 1 - ux else ux).

(** [binary.Varint]. *)
Definition varint (buf : bytes) : Z * Z :=
  let '(ux, n) := uvarint buf in
  let x := sint 64 (Z.shiftr ux 1) in
  ((if Z.odd ux then - x - 1 else x), n).

(** Joining a low part with a shifted high part is an addition. *)
Lemma lor_shiftl x v s :
  0 ≤ s → 0 ≤ x < 2 ^ s → 0 ≤ v → Z.lor x (Z.shiftl v s) = x + v * 2 ^ s.
Proof.
  intros Hs Hx Hv. rewrite <- Z.shiftl_mul_pow2 by lia.
  assert (L : Z.land x (Z.shiftl v s) = 0).
  { apply Z.bits_inj'. intros i Hi. rewrite Z.land_spec, Z.bits_0.
    destruct (Z.lt_ge_cases i s).
    - rewrite Z.shiftl_spec_low by lia. by rewrite andb_false_r.
    - rewrite <- (Z.mod_small x (2 ^ s)), Z.mod_pow2_bits_high by lia. done. }
  by rewrite <- Z.lxor_lor, Z.add_nocarry_lxor by done.
Qed.

Lemma lor_128 x : byte.unsigned (byte.of_Z (Z.lor x 128)) = x mod 128 + 128.
Proof.
  rewrite byte.unsigned_of_Z. unfold byte.wrap.
  rewrite <- Z.land_ones, Z.land_lor_distr_l, Z.land_ones by lia.
  change (Z.land 128 (Z.ones 8)) with 128. change (2 ^ 8) with (128 * 2).
  rewrite Z.rem_mul_r by lia.
  pose proof (Z.mod_pos_bound x 128). pose proof (Z.mod_pos_bound (x / 128) 2).
  assert (E : (x / 128) mod 2 = 0 ∨ (x / 128) mod 2 = 1) by lia.
  assert (F : ∀ r, 0 ≤ r < 128 →
    Z.lor (r + 128 * 0) 128 = r + 128 ∧ Z.lor (r + 128 * 1) 128 = r + 128).
  { intros r Hr. change 128 with (2 ^ 7) in *.
    assert (S : Z.lor r (2 ^ 7) = r + 2 ^ 7).
    { change (2 ^ 7) with (Z.shiftl 1 7) at 1. rewrite lor_shiftl by lia. lia. }
    rewrite !Z.mul_0_r, Z.mul_1_r, Z.add_0_r. split; [done|].
    rewrite <- S, <- Z.lor_assoc, Z.lor_diag. done. }
  destruct (F (x mod 128) ltac:(lia)) as [F0 F1].
  destruct E as [-> | ->]; assumption.
Qed.

Lemma land_127 y : Z.land y 127 = y mod 128.
Proof. change 127 with (Z.ones 7). by rewrite Z.land_ones. Qed.

Lemma uvarint_loop_append fuel v i x s rest :
  s = 7 * i → 0 ≤ i → i + Z.of_nat fuel = 9 →
  0 ≤ x < 2 ^ s → 0 ≤ v → v * 2 ^ s < 2 ^ 64 →
  uvarint_loop (append_loop fuel v ++ rest) i x s =
    (x + v * 2 ^ s, i + zlen (append_loop fuel v)).
Proof.
  revert v i x s. induction fuel as [|f IH]; intros v i x s Hs Hi Hf Hx Hv Hb.
  - assert (i = 9) by lia. subst i. subst s. simpl app. cbn [uvarint_loop].
    assert (v < 2) by (change (2 ^ (7 * 9)) with (2 ^ 63) in *; lia).
    rewrite byte.unsigned_of_Z. unfold byte.wrap. rewrite (Z.mod_small v) by lia.
    simpl (9 =? 10). rewrite (proj2 (Z.ltb_lt v 128)) by lia.
    rewrite (proj2 (Z.ltb_ge 1 v)) by lia. simpl andb. cbv iota.
    rewrite uint_small.
    + rewrite lor_shiftl by lia. done.
    + unfold in_uint. rewrite Z.shiftl_mul_pow2 by lia. lia.
  - cbn [append_loop]. assert (0 < 2 ^ s) by lia.
    destruct (128 <=? v) eqn:E; reflect_hyps.
    + cbn [app uvarint_loop]. rewrite lor_128.
      pose proof (Z.mod_pos_bound v 128). pose proof (Z.div_mod v 128).
      rewrite (proj2 (Z.eqb_neq i 10)) by lia.
      rewrite (proj2 (Z.ltb_ge _ 128)) by lia.
      rewrite land_127. replace (v mod 128 + 128) with (v mod 128 + 1 * 128) by lia.
      rewrite Z.mod_add, Z.mod_mod by lia.
      assert (Hm : 0 ≤ v mod 128 * 2 ^ s < 2 ^ 64).
      { assert (v mod 128 * 2 ^ s ≤ v * 2 ^ s) by
          (apply Z.mul_le_mono_nonneg_r; lia).
        assert (0 ≤ v mod 128 * 2 ^ s) by (apply Z.mul_nonneg_nonneg; lia). lia. }
      rewrite uint_small by
        (unfold in_uint; rewrite Z.shiftl_mul_pow2 by lia; exact Hm).
      rewrite lor_shiftl, Z.shiftr_div_pow2 by lia. change (2 ^ 7) with 128.
      assert (Hp : 2 ^ (s + 7) = 128 * 2 ^ s) by (rewrite Z.pow_add_r by lia; lia).
      assert (Hq : 0 ≤ v / 128) by (apply Z.div_pos; lia).
      assert (Hv' : v = 128 * (v / 128) + v mod 128) by (apply Z.div_mod; lia).
      assert (Hx' : 0 ≤ x + v mod 128 * 2 ^ s < 128 * 2 ^ s).
      { assert (v mod 128 * 2 ^ s ≤ 127 * 2 ^ s) by
          (apply Z.mul_le_mono_nonneg_r; lia). lia. }
      assert (Hb' : v / 128 * (128 * 2 ^ s) < 2 ^ 64).
      { assert (v / 128 * 128 * 2 ^ s ≤ v * 2 ^ s) by
          (apply Z.mul_le_mono_nonneg_r; lia). lia. }
      rewrite IH by lia.
      rewrite zlen_cons, Hp. f_equal; [|lia].
      rewrite Hv' at 3. lia.
    + cbn [app uvarint_loop]. rewrite byte.unsigned_of_Z. unfold byte.wrap.
      rewrite (Z.mod_small v) by lia.
      rewrite (proj2 (Z.eqb_neq i 10)), (proj2 (Z.ltb_lt v 128)) by lia.
      rewrite (proj2 (Z.eqb_neq i 9)) by lia. simpl andb. cbv iota.
      rewrite uint_small by
        (unfold in_uint; rewrite Z.shiftl_mul_pow2 by lia;
         split; [apply Z.mul_nonneg_nonneg|]; lia).
      by rewrite lor_shiftl by lia.
Qed.

(** [Uvarint] reads back what [AppendUvarint] wrote, whatever follows. *)
Lemma uvarint_append x rest :
  in_uint 64 x →
  uvarint (append_uvarint x ++ rest) = (x, zlen (append_uvarint x)).
Proof.
  intros [? ?]. unfold uvarint, append_uvarint.
  rewrite uvarint_loop_append by lia. f_equal; lia.
Qed.

Lemma append_loop_fuel k f x :
  0 ≤ x < 2 ^ (7 * (Z.of_nat f + 1)) → append_loop (f + k) x = append_loop f x.
Proof.
  revert x. induction f as [|f IH]; intros x Hx.
  - destruct k; [done|]. simpl. rewrite (proj2 (Z.leb_gt 128 x)); [done|].
    change (2 ^ (7 * (Z.of_nat 0 + 1))) with 128 in Hx. lia.
  - simpl. destruct (128 <=? x) eqn:E; [|done]. f_equal. apply IH.
    rewrite Z.shiftr_div_pow2 by lia. split; [apply Z.div_pos; lia|].
    apply Z.div_lt_upper_bound; [lia|]. rewrite <- Z.pow_add_r by lia.
    replace (7 + 7 * (Z.of_nat f + 1)) with (7 * (Z.of_nat (S f) + 1)) by lia. lia.
Qed.

Lemma append_loop_pos f x : 0 < zlen (append_loop f x).
Proof.
  destruct f as [|f]; simpl; [done|].
  destruct (128 <=? x); [|done]. rewrite zlen_cons.
  pose proof (zlen_nonneg (append_loop f (Z.shiftr x 7))). lia.
Qed.

Lemma append_uvarint_pos x : 0 < zlen (append_uvarint x).
Proof. apply append_loop_pos. Qed.

Lemma append_loop_len n x : zlen (append_loop n x) ≤ Z.of_nat n + 1.
Proof.
  revert x. induction n as [|n IH]; intros x; cbn [append_loop]; [done|].
  destruct (128 <=? x); rewrite zlen_cons, ?zlen_nil; [|lia]. specialize (IH (Z.shiftr x 7)). lia.
Qed.

Lemma append_uvarint_len x : zlen (append_uvarint x) ≤ 10.
Proof. apply (append_loop_len 9). Qed.

Lemma append_varint_len x : zlen (append_varint x) ≤ 10.
Proof. unfold append_varint. apply append_uvarint_len. Qed.

(** [Varint] reads back what [AppendVarint] wrote, whatever follows. *)
Lemma append_varint_pos x : 0 < zlen (append_varint x).
Proof. apply append_uvarint_pos. Qed.

Lemma varint_append x rest :
  in_sint 64 x →
  varint (append_varint x ++ rest) = (x, zlen (append_varint x)).
Proof.
  intros Hx. unfold in_sint in Hx. change (2 ^ (64 - 1)) with (2 ^ 63) in Hx.
  unfold varint, append_varint.
  set (ux := if x <? 0 then _ else _).
  assert (Hux : ux = if x <? 0 then - 2 * x - 1 else 2 * x).
  { subst ux. rewrite Z.shiftl_mul_pow2 by lia. unfold uint.
    destruct (x <? 0) eqn:E; reflect_hyps.
    - rewrite <- (Z.mod_unique x (2 ^ 64) (-1) (x + 2 ^ 64)) by lia.
      rewrite <- (Z.mod_unique ((x + 2 ^ 64) * 2 ^ 1) (2 ^ 64) 1 (2 * x + 2 ^ 64)) by lia.
      lia.
    - rewrite (Z.mod_small x) by lia. rewrite Z.mod_small by lia. lia. }
  clearbody ux. rewrite uvarint_append by
    (unfold in_uint; destruct (x <? 0) eqn:E; reflect_hyps; lia).
  f_equal. rewrite Z.shiftr_div_pow2 by lia. change (2 ^ 1) with 2.
  destruct (x <? 0) eqn:E; reflect_hyps; subst ux.
  - replace (-2 * x - 1) with (1 + 2 * (- x - 1)) by lia.
    rewrite Z.odd_add_mul_2. simpl Z.odd. cbv iota.
    replace ((1 + 2 * (- x - 1)) / 2) with (- x - 1) by (Z.div_mod_to_equations; lia).
    rewrite sint_small by (unfold in_sint; lia). lia.
  - replace (2 * x) with (0 + 2 * x) by lia. rewrite Z.odd_add_mul_2. simpl Z.odd.
    replace ((0 + 2 * x) / 2) with x by (Z.div_mod_to_equations; lia).
    by rewrite sint_small by (unfold in_sint; lia).
Qed.

(** A successful read consumes at least one byte and stays inside the buffer. *)
Lemma uvarint_loop_bound buf i x s v n :
  0 ≤ i → uvarint_loop buf i x s = (v, n) → 0 < n → i < n ≤ i + zlen buf.
Proof.
  revert i x s. induction buf as [|b buf IH]; intros i x s Hi H Hn; simpl in H.
  - injection H as <- <-. lia.
  - rewrite zlen_cons. pose proof (zlen_nonneg buf).
    destruct (i =? 10); [injection H as <- <-; lia|].
    destruct (byte.unsigned b <? 128).
    + destruct ((i =? 9) && (1 <? byte.unsigned b)); injection H as <- <-; lia.
    + apply IH in H; lia.
Qed.

Lemma lor_range w a b : 0 ≤ w → in_uint w a → in_uint w b → in_uint w (Z.lor a b).
Proof.
  unfold in_uint. intros Hw [Ha1 Ha2] [Hb1 Hb2].
  assert (H0 : 0 ≤ Z.lor a b) by (apply Z.lor_nonneg; lia). split; [done|].
  destruct (Z.eq_dec (Z.lor a b) 0) as [->|Hne]; [lia|].
  apply Z.log2_lt_pow2; [lia|]. rewrite Z.log2_lor by lia.
  destruct (Z.eq_dec a 0) as [->|], (Z.eq_dec b 0) as [->|]; [by rewrite Z.lor_0_l in Hne|..];
    rewrite ?(Z.log2_nonpos 0) by lia.
  - rewrite Z.max_r by apply Z.log2_nonneg. apply Z.log2_lt_pow2; lia.
  - rewrite Z.max_l by apply Z.log2_nonneg. apply Z.log2_lt_pow2; lia.
  - apply Z.max_lub_lt; apply Z.log2_lt_pow2; lia.
Qed.

Lemma uvarint_loop_range buf i x s v n :
  in_uint 64 x → uvarint_loop buf i x s = (v, n) → in_uint 64 v.
Proof.
  revert i x s. induction buf as [|b buf IH]; intros i x s Hx H; simpl in H.
  { by injection H as <- <-. }
  destruct (i =? 10); [by injection H as <- <-|].
  destruct (byte.unsigned b <? 128); [destruct (_ && _); injection H as <- <-; [done|]|].
  - apply lor_range; [lia|done|]. by apply uint_range.
  - eapply IH, H. apply lor_range; [lia|done|]. by apply uint_range.
Qed.

Lemma uvarint_range buf v n : uvarint buf = (v, n) → in_uint 64 v.
Proof. by apply uvarint_loop_range. Qed.

Lemma uvarint_bound buf v n : uvarint buf = (v, n) → 0 < n → n ≤ zlen buf.
Proof. intros H Hn. apply uvarint_loop_bound in H; lia. Qed.

Lemma varint_bound buf v n : varint buf = (v, n) → 0 < n → n ≤ zlen buf.
Proof.
  unfold varint. destruct (uvarint buf) as [ux k] eqn:E. intros [= <- <-] Hk.
  by apply uvarint_bound in E.
Qed.

#[global] Opaque append_uvarint uvarint append_varint varint.

End Varint.

(** ** hash/crc32 *)

Module Crc32.

(** Reversed polynomials of the two tables the log uses. *)
Definition Castagnoli : Z := 0x82f63b78.
Definition IEEE : Z := 0xedb88320.

(** One bit and one byte of the reflected CRC register. *)
Definition crc_bit (poly s : Z) : Z :=
  if Z.odd s then Z.lxor (Z.shiftr s 1) poly else Z.shiftr s 1.

Definition crc_byte (poly s : Z) (b : byte) : Z :=
  Nat.iter 8 (crc_bit poly) (Z.lxor s (byte.unsigned b)).

Definition update (poly s : Z) (l : bytes) : Z := foldl (crc_byte poly) s l.

(** [crc32.Checksum(l, table)]. *)
Definition Checksum (poly : Z) (l : bytes) : Z :=
  Z.lxor (update poly (2 ^ 32 - 1) l) (2 ^ 32 - 1).

(** The check values of the two catalogued CRCs over the digits 1..9. *)
Definition digits19 : bytes := byte.of_Z <$> [49; 50; 51; 52; 53; 54; 55; 56; 57].

Example checksum_castagnoli_vector : Checksum Castagnoli digits19 = 0xE3069283.
Proof. vm_compute. reflexivity. Qed.

Example checksum_ieee_vector : Checksum IEEE digits19 = 0xCBF43926.
Proof. vm_compute. reflexivity. Qed.

(** *** Single-byte errors are always detected

    The register step is injective in the register for a fixed input byte and
    injective in the byte for a fixed register, because the polynomial's top
    bit is set.  So two inputs that differ in exactly one byte leave different
    registers behind. *)

Section Injective.
Context (poly : Z) (Hpoly : in_uint 32 poly) (Htop : Z.testbit poly 31 = true).

Lemma lxor_range a b : in_uint 32 a → in_uint 32 b → in_uint 32 (Z.lxor a b).
Proof using Type.
  intros Ha Hb. unfold in_uint in *.
  assert (E : Z.lxor a b = Z.lxor a b mod 2 ^ 32).
  { apply Z.bits_inj'. intros i Hi. destruct (Z.lt_ge_cases i 32).
    - by rewrite Z.mod_pow2_bits_low by lia.
    - rewrite Z.mod_pow2_bits_high, Z.lxor_spec by lia.
      rewrite <- (Z.mod_small a (2 ^ 32)), <- (Z.mod_small b (2 ^ 32)) by lia.
      by rewrite !Z.mod_pow2_bits_high by lia. }
  rewrite E. apply Z.mod_pos_bound. lia.
Qed.

Lemma crc_bit_range s : in_uint 32 s → in_uint 32 (crc_bit poly s).
Proof using Hpoly.
  intros Hs. unfold crc_bit.
  assert (in_uint 32 (Z.shiftr s 1)).
  { unfold in_uint in *. rewrite Z.shiftr_div_pow2 by lia.
    split; [apply Z.div_pos; lia | apply Z.div_lt_upper_bound; lia]. }
  destruct (Z.odd s); [by apply lxor_range | done].
Qed.

Lemma testbit_31_shiftr s : in_uint 32 s → Z.testbit (Z.shiftr s 1) 31 = false.
Proof using Type.
  intros Hs. unfold in_uint in Hs. rewrite Z.shiftr_spec by lia.
  rewrite <- (Z.mod_small s (2 ^ 32)) by lia. apply Z.mod_pow2_bits_high. lia.
Qed.

Lemma crc_bit_inj s t :
  in_uint 32 s → in_uint 32 t → crc_bit poly s = crc_bit poly t → s = t.
Proof using Htop.
  intros Hs Ht E. unfold crc_bit in E.
  assert (Hd : ∀ u, u = 2 * Z.shiftr u 1 + Z.b2z (Z.odd u)).
  { intros u. rewrite <- Z.div2_spec. apply Z.div2_odd. }
  pose proof (testbit_31_shiftr s Hs). pose proof (testbit_31_shiftr t Ht).
  assert (Hc : ∀ a b, Z.lxor a poly = b →
    Z.testbit a 31 = false → Z.testbit b 31 = false → False).
  { intros a b <- Ha. rewrite Z.lxor_spec, Ha, Htop. discriminate. }
  rewrite (Hd s), (Hd t). destruct (Z.odd s), (Z.odd t).
  - apply (f_equal (λ z, Z.lxor z poly)) in E.
    rewrite !Z.lxor_assoc, Z.lxor_nilpotent, !Z.lxor_0_r in E. by rewrite E.
  - by destruct (Hc _ _ E).
  - symmetry in E. by destruct (Hc _ _ E).
  - by rewrite E.
Qed.

Lemma iter_bit_range n s : in_uint 32 s → in_uint 32 (Nat.iter n (crc_bit poly) s).
Proof using Hpoly. intros Hs. induction n; simpl; [done|]. by apply crc_bit_range. Qed.

Lemma iter_bit_inj n s t :
  in_uint 32 s → in_uint 32 t →
  Nat.iter n (crc_bit poly) s = Nat.iter n (crc_bit poly) t → s = t.
Proof using Hpoly Htop.
  intros Hs Ht. induction n as [|n IH]; simpl; [done|].
  intros E. apply IH. apply crc_bit_inj in E; auto using iter_bit_range.
Qed.

Lemma byte_in_uint b : in_uint 32 (byte.unsigned b).
Proof using Type. pose proof (byte.unsigned_range b). unfold in_uint. lia. Qed.

Lemma crc_byte_range s b : in_uint 32 s → in_uint 32 (crc_byte poly s b).
Proof using Hpoly.
  intros Hs. apply iter_bit_range, lxor_range; auto using byte_in_uint.
Qed.

Lemma crc_byte_inj_state s t b :
  in_uint 32 s → in_uint 32 t → crc_byte poly s b = crc_byte poly t b → s = t.
Proof using Hpoly Htop.
  intros Hs Ht E.
  apply iter_bit_inj in E; auto using lxor_range, byte_in_uint.
  apply (f_equal (λ z, Z.lxor z (byte.unsigned b))) in E.
  by rewrite !Z.lxor_assoc, Z.lxor_nilpotent, !Z.lxor_0_r in E.
Qed.

Lemma crc_byte_inj_byte s a b :
  in_uint 32 s → crc_byte poly s a = crc_byte poly s b → a = b.
Proof using Hpoly Htop.
  intros Hs E. apply byte.unsigned_inj.
  apply iter_bit_inj in E; auto using lxor_range, byte_in_uint.
  apply (f_equal (Z.lxor s)) in E.
  by rewrite <- !Z.lxor_assoc, Z.lxor_nilpotent, !Z.lxor_0_l in E.
Qed.

Lemma update_range l s : in_uint 32 s → in_uint 32 (update poly s l).
Proof using Hpoly.
  revert s. induction l as [|b l IH]; intros s Hs; simpl; [done|].
  by apply IH, crc_byte_range.
Qed.

Lemma update_inj_state l s t :
  in_uint 32 s → in_uint 32 t → update poly s l = update poly t l → s = t.
Proof using Hpoly Htop.
  revert s t. induction l as [|b l IH]; intros s t Hs Ht; simpl; [done|].
  intros E. apply IH in E; auto using crc_byte_range.
  by apply crc_byte_inj_state in E.
Qed.

Lemma Checksum_range l : in_uint 32 (Checksum poly l).
Proof using Hpoly.
  apply lxor_range; [|split; lia]. apply update_range. split; lia.
Qed.

(** Replacing one byte by another always changes the checksum. *)
Lemma Checksum_one_byte p a b s :
  a ≠ b → Checksum poly (p ++ a :: s) ≠ Checksum poly (p ++ b :: s).
Proof using Hpoly Htop.
  intros Hab E. apply Hab. unfold Checksum in E.
  apply (f_equal (λ z, Z.lxor z (2 ^ 32 - 1))) in E.
  rewrite !Z.lxor_assoc, Z.lxor_nilpotent, !Z.lxor_0_r in E.
  unfold update in E. rewrite !foldl_app in E. simpl in E.
  assert (R : in_uint 32 (foldl (crc_byte poly) (2 ^ 32 - 1) p)).
  { apply (update_range p). split; lia. }
  apply (update_inj_state s) in E; auto using crc_byte_range.
  by apply crc_byte_inj_byte in E.
Qed.
End Injective.

Lemma Castagnoli_ok : in_uint 32 Castagnoli ∧ Z.testbit Castagnoli 31 = true.
Proof. unfold in_uint, Castagnoli. split; [lia | reflexivity]. Qed.

Lemma IEEE_ok : in_uint 32 IEEE ∧ Z.testbit IEEE 31 = true.
Proof. unfold in_uint, IEEE. split; [lia | reflexivity]. Qed.

(** [seals poly c body]: the four bytes [c] are the checksum of [body].
    Replacing one byte of either side breaks the seal. *)
Definition seals (poly : Z) (c body : bytes) : Prop :=
  Checksum poly body = BigEndian.get c.

Lemma seal_body poly c body i x y :
  in_uint 32 poly ∧ Z.testbit poly 31 = true →
  seals poly c body → body !! i = Some y → x ≠ y → ¬ seals poly c (<[i:=x]> body).
Proof.
  unfold seals. intros [Hp Ht] <- Hi Hne.
  rewrite insert_take_drop by (by eapply lookup_lt_Some).
  rewrite <- (take_drop_middle body i y Hi) at 3.
  by apply Checksum_one_byte.
Qed.

Lemma seal_crc poly c body i x y :
  seals poly c body → c !! i = Some y → x ≠ y → ¬ seals poly (<[i:=x]> c) body.
Proof.
  unfold seals. intros -> Hi Hne E. apply BigEndian.get_inj in E;
    [|by rewrite length_insert].
  apply (f_equal (lookup i)) in E. rewrite Hi, list_lookup_insert_eq in E;
    [congruence | by eapply lookup_lt_Some].
Qed.

Lemma castagnoli_range l : in_uint 32 (Checksum Castagnoli l).
Proof. apply Checksum_range, Castagnoli_ok. Qed.

Lemma ieee_range l : in_uint 32 (Checksum IEEE l).
Proof. apply Checksum_range, IEEE_ok. Qed.

End Crc32.

#[export] Hint Resolve Crc32.castagnoli_range Crc32.ieee_range : commitlog.
#[global] Opaque Crc32.Checksum.

(** ** sort.Search *)

Module Sort.

(** The binary search loop on [\[i, j)]; [fuel] bounds the halvings. *)
Fixpoint search_loop (fuel : nat) (f : Z → bool) (i j : Z) : Z :=
  match fuel with
  | O => i
  | S k =>
      if i <? j then
        let h := (i + j) / 2 in
        if f h then search_loop k f i h else search_loop k f (h + 1) j
      else i
  end.

(** [sort.Search(n, f)]. *)
Definition Search (n : Z) (f : Z → bool) : Z := search_loop (Z.to_nat n) f 0 n.

(** [sort.Search] whose predicate may fail: a failure is remembered, the last
    one standing, and answers true. *)
Fixpoint search_err_loop (fuel : nat) (f : Z → outcome bool) (i j : Z) (serr : option error)
    : outcome (Z * option error) :=
  match fuel with
  | O => Ok (i, serr)
  | S k =>
      if i <? j then
        let h := (i + j) / 2 in
        match f h with
        | Ok true => search_err_loop k f i h serr
        | Ok false => search_err_loop k f (h + 1) j serr
        | Fail e => search_err_loop k f i h (Some e)
        | Panic => Panic
        end
      else Ok (i, serr)
  end.

Definition SearchErr (n : Z) (f : Z → outcome bool) : outcome (Z * option error) :=
  search_err_loop (Z.to_nat n) f 0 n None.

Lemma search_err_loop_total fuel f g i j serr :
  0 ≤ i → (∀ k, 0 ≤ k < j → f k = Ok (g k)) →
  search_err_loop fuel f i j serr = Ok (search_loop fuel g i j, serr).
Proof.
  revert i j. induction fuel as [|fuel IH]; intros i j Hi Hf; [done|]. simpl.
  destruct (i <? j) eqn:E; [|done]. reflect_hyps.
  assert (i ≤ (i + j) / 2 < j).
  { split; [apply Z.div_le_lower_bound; lia | apply Z.div_lt_upper_bound; lia]. }
  rewrite Hf by lia. destruct (g ((i + j) / 2)); apply IH; try lia; intros; apply Hf; lia.
Qed.

Lemma SearchErr_total n f g :
  (∀ k, 0 ≤ k < n → f k = Ok (g k)) → SearchErr n f = Ok (Search n g, None).
Proof. intros. by apply search_err_loop_total. Qed.

Lemma search_loop_spec fuel f i j :
  0 ≤ i ≤ j → j - i ≤ Z.of_nat fuel →
  let r := search_loop fuel f i j in
  i ≤ r ≤ j ∧ (r < j → f r = true) ∧ (i < r → f (r - 1) = false).
Proof.
  revert i j. induction fuel as [|k IH]; intros i j Hij Hf; cbv zeta; simpl.
  - assert (i = j) by lia. subst. lia.
  - destruct (i <? j) eqn:E; reflect_hyps.
    2: { assert (i = j) by lia. subst. lia. }
    assert (Hh : i ≤ (i + j) / 2 < j).
    { split; [apply Z.div_le_lower_bound; lia | apply Z.div_lt_upper_bound; lia]. }
    set (h := (i + j) / 2) in *. destruct (f h) eqn:Fh.
    + destruct (IH i h ltac:(lia) ltac:(lia)) as (R & T & F).
      split; [lia|]. split; [|done]. intros Hr.
      destruct (Z.eq_dec (search_loop k f i h) h) as [->|]; [done|]. apply T. lia.
    + destruct (IH (h + 1) j ltac:(lia) ltac:(lia)) as (R & T & F).
      split; [lia|]. split; [done|]. intros Hr.
      destruct (Z.eq_dec (search_loop k f (h + 1) j) (h + 1)) as [->|]; [|apply F; lia].
      by replace (h + 1 - 1) with h by lia.
Qed.

(** Whatever [f] is, the answer is in range, satisfies [f] unless it is [n],
    and its predecessor does not satisfy [f]. *)
Lemma Search_spec n f :
  0 ≤ n →
  0 ≤ Search n f ≤ n ∧ (Search n f < n → f (Search n f) = true) ∧
  (0 < Search n f → f (Search n f - 1) = false).
Proof. intros Hn. unfold Search. apply search_loop_spec; lia. Qed.

(** For a monotone predicate it is the least index that satisfies it. *)
Lemma Search_monotone n f :
  0 ≤ n → (∀ i j, 0 ≤ i ≤ j → j < n → f i = true → f j = true) →
  ∀ i, 0 ≤ i < n → f i = true ↔ Search n f ≤ i.
Proof.
  intros Hn Hm i Hi. destruct (Search_spec n f Hn) as (R & T & F). split.
  - intros Hf. destruct (Z.le_gt_cases (Search n f) i) as [|Hlt]; [done|].
    rewrite (Hm i (Search n f - 1)) in F by (done || lia).
    discriminate F. lia.
  - intros Hle. apply (Hm (Search n f)); [lia|lia|]. apply T. lia.
Qed.

(** Searching a list for the first element of an upward closed predicate. *)
Lemma Search_list {A} (R : relation A) (P : A → bool) l :
  StronglySorted R l → (∀ x y, R x y → P x = true → P y = true) →
  let i := Search (zlen l) (λ i, match l !! Z.to_nat i with Some x => P x | None => false end) in
  0 ≤ i ≤ zlen l ∧ drop (Z.to_nat i) l = filter (λ x, P x = true) l.
Proof.
  intros Hs Hu. set (f := λ i, _). intros i.
  destruct (Search_spec (zlen l) f (zlen_nonneg l)) as (Hr & HT & HF).
  assert (Hm : ∀ a b x y, (a < b)%nat → l !! a = Some x → l !! b = Some y →
    P x = true → P y = true).
  { intros a b x y Hab Ha Hb. apply Hu. eapply sorted_lookup; eauto. }
  fold i in Hr, HT, HF. split; [done|].
  assert (Hi : (Z.to_nat i ≤ length l)%nat) by (unfold zlen in Hr; lia).
  rewrite <- (take_drop (Z.to_nat i) l) at 2. rewrite filter_app, filter_none, filter_all;
    [done| |].
  - apply Forall_lookup. intros k x Hk. rewrite lookup_drop in Hk.
    assert (Hlt : i < zlen l) by (apply lookup_lt_Some in Hk; unfold zlen; lia).
    specialize (HT Hlt). unfold f in HT. destruct (l !! Z.to_nat i) as [y|] eqn:E; [|done].
    destruct (decide (k = 0%nat)) as [->|]; [rewrite Nat.add_0_r in Hk; congruence|].
    eapply (Hm (Z.to_nat i)); [|done..]. lia.
  - apply Forall_lookup. intros k x Hk Hx.
    assert (k < Z.to_nat i)%nat by (apply lookup_lt_Some in Hk; rewrite length_take in Hk; lia).
    rewrite lookup_take_lt in Hk by done. specialize (HF ltac:(lia)). unfold f in HF.
    destruct (lookup_lt_is_Some_2 l (Z.to_nat (i - 1))) as [y Hy]; [lia|]. rewrite Hy in HF.
    destruct (decide (k = Z.to_nat (i - 1))) as [->|]; [congruence|].
    rewrite (Hm k (Z.to_nat (i - 1)) x y) in HF; [done|lia|done..].
Qed.

End Sort.

(** ** Fields at fixed offsets *)

(** [encoding.UintN(b[off:])], with [n] the width in bytes, and [b[i]]. *)
Definition uint_at (n : nat) (b : bytes) (off : Z) : outcome Z :=
  r ← slice_from b off; BigEndian.read n r.

Definition byte_at (b : bytes) (i : Z) : outcome Z :=
  x ← index b i; Ok (byte.unsigned x).

Lemma uint_at_total n b off :
  0 ≤ off → off + Z.of_nat n ≤ zlen b →
  ∃ v, uint_at n b off = Ok v ∧ in_uint (8 * Z.of_nat n) v.
Proof.
  intros H1 H2. unfold uint_at, slice_from. rewrite slice_ok by lia. simpl.
  set (r := take _ _).
  assert (Hr : (n ≤ length r)%nat).
  { unfold r. rewrite length_take, length_drop. unfold zlen in *. lia. }
  destruct (BigEndian.read n r) as [v| |] eqn:E.
  - exists v. split; [done|]. by apply BigEndian.read_range in E.
  - rewrite <- (take_drop n r), BigEndian.read_app in E; [done|].
    rewrite length_take. lia.
  - by apply BigEndian.read_not_Panic in E.
Qed.

Lemma byte_at_app p x s i : i = zlen p → byte_at (p ++ x :: s) i = Ok (byte.unsigned x).
Proof. intros ->. unfold byte_at. by rewrite index_app_mid. Qed.

Lemma byte_at_app1 p x s i :
  i = zlen p → byte_at (p ++ [x] ++ s) i = Ok (byte.unsigned x).
Proof. apply byte_at_app. Qed.

Lemma byte_at_lookup b i x :
  0 ≤ i → b !! Z.to_nat i = Some x → byte_at b i = Ok (byte.unsigned x).
Proof.
  intros Hi Hx. unfold byte_at, index. by rewrite (proj2 (Z.leb_le _ _)), Hx by lia.
Qed.

Lemma byte_at_total b i :
  0 ≤ i < zlen b → ∃ v, byte_at b i = Ok v ∧ in_uint 8 v.
Proof.
  intros H. unfold byte_at, index. rewrite (proj2 (Z.leb_le _ _)) by lia.
  destruct (lookup_lt_is_Some_2 b (Z.to_nat i)) as [x ->]; [unfold zlen in H; lia|].
  simpl. eexists. split; [done|]. apply byte.unsigned_range.
Qed.

(** ** Fixed-width field layouts

    A header that is a sequence of big-endian fields of given widths.  Reading
    or writing a field at the offset its predecessors add up to is reading or
    writing one element of the list of values. *)

Module Layout.

Fixpoint put_fields (ws : list nat) (vs : list Z) : bytes :=
  match ws, vs with
  | w :: ws, v :: vs => BigEndian.put w v ++ put_fields ws vs
  | _, _ => []
  end.

Fixpoint get_fields (ws : list nat) (b : bytes) : list Z :=
  match ws with
  | [] => []
  | w :: ws => BigEndian.get (take w b) :: get_fields ws (drop w b)
  end.

Definition width (ws : list nat) : nat := foldr Nat.add O ws.

Definition fits (w : nat) (v : Z) : Prop := in_uint (8 * Z.of_nat w) v.

Lemma length_put_fields ws vs :
  length ws = length vs → length (put_fields ws vs) = width ws.
Proof.
  revert vs. induction ws as [|w ws IH]; intros [|v vs] H; try done.
  simpl. rewrite length_app, BigEndian.length_put, IH; [done | by injection H].
Qed.

Lemma length_get_fields ws b : length (get_fields ws b) = length ws.
Proof. revert b. induction ws; intros b; simpl; congruence. Qed.

Lemma get_fields_fit ws b :
  (width ws ≤ length b)%nat → Forall2 fits ws (get_fields ws b).
Proof.
  revert b. induction ws as [|w ws IH]; intros b H; simpl in *; [constructor|].
  constructor.
  - unfold fits, in_uint. pose proof (BigEndian.get_range (take w b)) as R.
    unfold zlen in R. rewrite length_take, Nat.min_l in R by lia. exact R.
  - apply IH. rewrite length_drop. lia.
Qed.

(** Any bytes long enough are the layout of their own fields. *)
Lemma put_get_fields ws b :
  (width ws ≤ length b)%nat → b = put_fields ws (get_fields ws b) ++ drop (width ws) b.
Proof.
  revert b. induction ws as [|w ws IH]; intros b H; simpl in *; [by rewrite drop_0|].
  assert (Hl : length (take w b) = w) by (rewrite length_take; lia).
  rewrite <- Hl at 1. rewrite BigEndian.put_get, <- app_assoc, <- drop_drop.
  rewrite <- IH by (rewrite length_drop; lia). by rewrite take_drop.
Qed.

Lemma put_fields_split ws vs i w v :
  ws !! i = Some w → vs !! i = Some v →
  put_fields ws vs = put_fields (take i ws) (take i vs) ++ BigEndian.put w v ++
                     put_fields (drop (S i) ws) (drop (S i) vs).
Proof.
  revert ws vs. induction i as [|i IH]; intros [|w' ws] [|v' vs] Hw Hv; try done.
  - simpl in *. by simplify_eq.
  - simpl in *. by rewrite (IH _ _ Hw Hv), <- app_assoc.
Qed.

Lemma put_fields_app ws vs ws' vs' :
  length ws = length vs →
  put_fields (ws ++ ws') (vs ++ vs') = put_fields ws vs ++ put_fields ws' vs'.
Proof.
  revert vs. induction ws as [|w ws IH]; intros [|v vs] H; try done.
  simpl. rewrite IH by (by injection H). by rewrite app_assoc.
Qed.

Lemma zlen_prefix ws vs i :
  length ws = length vs →
  zlen (put_fields (take i ws) (take i vs)) = Z.of_nat (width (take i ws)).
Proof.
  intros H. unfold zlen. rewrite length_put_fields; [done|]. rewrite !length_take. lia.
Qed.

Lemma uint_at_field ws vs i w v off s :
  length ws = length vs → ws !! i = Some w → vs !! i = Some v → fits w v →
  off = Z.of_nat (width (take i ws)) → uint_at w (put_fields ws vs ++ s) off = Ok v.
Proof.
  intros Hl Hw Hv Hf ->. unfold uint_at.
  rewrite (put_fields_split _ _ _ _ _ Hw Hv), <- !app_assoc.
  rewrite slice_from_app by (by rewrite zlen_prefix). simpl. rewrite BigEndian.read_put.
  f_equal. by apply Z.mod_small.
Qed.

Lemma index_field ws vs i v off s :
  length ws = length vs → ws !! i = Some 1%nat → vs !! i = Some v → fits 1 v →
  off = Z.of_nat (width (take i ws)) →
  (x ← index (put_fields ws vs ++ s) off; Ok (byte.unsigned x)) = Ok v.
Proof.
  intros Hl Hw Hv Hf ->. rewrite (put_fields_split _ _ _ _ _ Hw Hv), <- !app_assoc.
  pose proof (BigEndian.length_put 1 v) as Hp. pose proof (BigEndian.get_put_uint 1 v Hf) as Hg.
  destruct (BigEndian.put 1 v) as [|x [|]]; try done. simpl app.
  rewrite index_app_mid by (by rewrite zlen_prefix). simpl. f_equal.
  rewrite BigEndian.get_cons in Hg. change (zlen []) with 0 in Hg.
  change (BigEndian.get []) with 0 in Hg. lia.
Qed.

Lemma insert_split_take {A} (l : list A) i x :
  take i (<[i:=x]> l) = take i l ∧ drop (S i) (<[i:=x]> l) = drop (S i) l.
Proof.
  split; [by rewrite take_insert_ge by lia | by rewrite drop_insert_lt by lia].
Qed.

Lemma put_at_field ws vs i w v off s :
  length ws = length vs → ws !! i = Some w →
  off = Z.of_nat (width (take i ws)) →
  BigEndian.put_at w (put_fields ws vs ++ s) off v =
    Ok (put_fields ws (<[i:=v]> vs) ++ s).
Proof.
  intros Hl Hw ->.
  destruct (lookup_lt_is_Some_2 vs i) as [v0 Hv].
  { rewrite <- Hl. by eapply lookup_lt_Some. }
  rewrite (put_fields_split _ _ _ _ _ Hw Hv), <- !app_assoc.
  rewrite BigEndian.put_at_app by (rewrite ?zlen_prefix, ?BigEndian.length_put; done).
  rewrite (put_fields_split ws (<[i:=v]> vs) i w v Hw), <- !app_assoc.
  2: { apply list_lookup_insert_eq. by eapply lookup_lt_Some. }
  by destruct (insert_split_take vs i v) as [-> ->].
Qed.

End Layout.

(** ** bytes.Compare and sort.Strings *)

Module BytesOrd.

Fixpoint Compare (a b : bytes) : comparison :=
  match a, b with
  | [], [] => Eq
  | [], _ :: _ => Lt
  | _ :: _, [] => Gt
  | x :: a, y :: b =>
      match Z.compare (byte.unsigned x) (byte.unsigned y) with
      | Eq => Compare a b
      | c => c
      end
  end.

Definition le (a b : bytes) : Prop := Compare a b ≠ Gt.

#[export] Instance le_dec : RelDecision le.
Proof. intros a b. unfold le, Decision. destruct (Compare a b); auto; by left. Defined.

(** The keys of a Go map, sorted. *)
Definition sorted_keys {V} (m : gmap bytes V) : list bytes :=
  merge_sort le (map_to_list m).*1.

Lemma Compare_antisym a b : Compare b a = CompOpp (Compare a b).
Proof.
  revert b. induction a as [|x a IH]; intros [|y b]; try done. simpl.
  rewrite (Z.compare_antisym (byte.unsigned x)).
  destruct (Z.compare (byte.unsigned x) (byte.unsigned y)); simpl; auto.
Qed.

Lemma Compare_eq a b : Compare a b = Eq ↔ a = b.
Proof.
  revert b. induction a as [|x a IH]; intros [|y b]; try done. simpl.
  destruct (Z.compare_spec (byte.unsigned x) (byte.unsigned y)) as [E|E|E].
  - apply byte.unsigned_inj in E. subst y. rewrite IH. split; [by intros -> | by intros [= ->]].
  - split; [done|]. intros [= -> _]. lia.
  - split; [done|]. intros [= -> _]. lia.
Qed.

Lemma Compare_lt_trans a b c : Compare a b = Lt → Compare b c = Lt → Compare a c = Lt.
Proof.
  revert b c. induction a as [|x a IH]; intros [|y b] [|z c]; try done. simpl.
  destruct (Z.compare_spec (byte.unsigned x) (byte.unsigned y)) as [E1|E1|E1]; try done;
  destruct (Z.compare_spec (byte.unsigned y) (byte.unsigned z)) as [E2|E2|E2]; try done;
  destruct (Z.compare_spec (byte.unsigned x) (byte.unsigned z)) as [E3|E3|E3];
    try done; try lia; apply IH.
Qed.

#[export] Instance le_total : Total le.
Proof.
  intros a b. unfold le. rewrite (Compare_antisym a b).
  destruct (Compare a b); simpl; auto.
Qed.

#[export] Instance le_trans : Transitive le.
Proof.
  intros a b c. unfold le. intros H1 H2.
  destruct (Compare a b) eqn:E1; [apply Compare_eq in E1; by subst| |done].
  destruct (Compare b c) eqn:E2; [apply Compare_eq in E2; by subst; rewrite E1| |done].
  by rewrite (Compare_lt_trans _ _ _ E1 E2).
Qed.

#[export] Instance le_antisymm : AntiSymm (=) le.
Proof.
  intros a b. unfold le. rewrite (Compare_antisym a b). intros H1 H2.
  apply Compare_eq. by destruct (Compare a b).
Qed.

Lemma sorted_keys_perm {V} (m : gmap bytes V) : sorted_keys m ≡ₚ (map_to_list m).*1.
Proof. apply merge_sort_Permutation. Qed.

Lemma sorted_keys_sorted {V} (m : gmap bytes V) : Sorted le (sorted_keys m).
Proof. apply Sorted_merge_sort, _. Qed.

Lemma elem_of_sorted_keys {V} (m : gmap bytes V) k : k ∈ sorted_keys m ↔ is_Some (m !! k).
Proof.
  rewrite sorted_keys_perm, list_elem_of_fmap. split.
  - intros ([k' v] & -> & H). apply elem_of_map_to_list in H. by eexists.
  - intros [v H]. exists (k, v). by rewrite elem_of_map_to_list.
Qed.

Lemma sorted_keys_NoDup {V} (m : gmap bytes V) : NoDup (sorted_keys m).
Proof. rewrite sorted_keys_perm. apply NoDup_fst_map_to_list. Qed.

Lemma length_sorted_keys {V} (m : gmap bytes V) : length (sorted_keys m) = size m.
Proof. by rewrite sorted_keys_perm, length_fmap, length_map_to_list. Qed.

End BytesOrd.
