(* ===== verification/Text.v ===== *)
(** * Decimal text: fmt's %d, strconv and bufio.ScanWords

    The checkpoint files of the log are text.  Numbers are decimal, parsed with
    the range checks of strconv; words are split the way [bufio.ScanWords]
    splits them, on the bytes of every Unicode space.  The 64 KiB limit of a
    scanner's token is not modelled: no number is that long. *)

From Stdlib Require Import ZArith Lia.
From stdpp Require Import base list numbers strings.
From coqutil Require Import Byte.
From S2P Require Import Prelude GoStd.

Open Scope Z_scope.

Module Strconv.

(** ["%d"] of a nonnegative number: the digits, most significant first.  The
    fuel bounds the number of digits. *)
Fixpoint digits_loop (fuel : nat) (n : Z) (acc : bytes) : bytes :=
  match fuel with
  | O => acc
  | S f =>
      let acc := byte.of_Z (48 + n mod 10) :: acc in
      if n <? 10 then acc else digits_loop f (n / 10) acc
  end.

(** A 64-bit number has at most twenty digits. *)
Definition digits (n : Z) : bytes := digits_loop 20 n [].

(** ["%d"] of an [int64] or a [uint64]. *)
Definition format (z : Z) : bytes :=
  if z <? 0 then byte.of_Z 45 :: digits (- z) else digits z.

(** [strconv.ParseUint(s, 10, 64)]: [None] is its error. *)
Fixpoint parse_digits (s : bytes) (n : Z) : option Z :=
  match s with
  | [] => Some n
  | b :: s =>
      let d := byte.unsigned b - 48 in
      if (0 <=? d) && (d <=? 9) then
        let n := n * 10 + d in
        if 2 ^ 64 <=? n then None else parse_digits s n
      else None
  end.

Definition ParseUint (s : bytes) : option Z :=
  match s with [] => None | _ => parse_digits s 0 end.

(** [strconv.ParseInt(s, 10, 64)] and, [int] being 64 bits wide,
    [strconv.Atoi]. *)
Definition ParseInt (s : bytes) : option Z :=
  match s with
  | [] => None
  | b :: s' =>
      let '(neg, s) :=
        if byte.unsigned b =? 43 then (false, s')
        else if byte.unsigned b =? 45 then (true, s') else (false, s) in
      un ← ParseUint s;
      if negb neg && (2 ^ 63 <=? un) then None
      else if neg && (2 ^ 63 <? un) then None
      else Some (if neg then - un else un)
  end.

Definition Atoi : bytes → option Z := ParseInt.

Definition is_digit (b : byte) : Prop := 48 ≤ byte.unsigned b ≤ 57.

Lemma digit_of_Z d : 0 ≤ d < 10 → byte.unsigned (byte.of_Z (48 + d)) = 48 + d.
Proof. intros. apply unsigned_of_Z_small. unfold in_uint. lia. Qed.

Lemma digits_loop_digits f n acc :
  0 ≤ n → Forall is_digit acc → Forall is_digit (digits_loop f n acc).
Proof.
  revert n acc. induction f as [|f IH]; intros n acc Hn Ha; [done|]. cbn [digits_loop].
  assert (Ha' : Forall is_digit (byte.of_Z (48 + n mod 10) :: acc)).
  { constructor; [|done]. pose proof (Z.mod_pos_bound n 10).
    unfold is_digit. rewrite digit_of_Z; lia. }
  destruct (n <? 10); [done|]. apply IH; [|done]. apply Z.div_pos; lia.
Qed.

Lemma digits_loop_app f n acc :
  digits_loop f n acc = digits_loop f n [] ++ acc.
Proof.
  revert n acc. induction f as [|f IH]; intros n acc; [done|]. cbn [digits_loop].
  destruct (n <? 10); [done|]. rewrite IH, (IH _ [_]), <- app_assoc. done.
Qed.

Lemma digits_loop_nonempty f n acc : (0 < f)%nat → digits_loop f n acc ≠ [].
Proof.
  destruct f as [|f]; [lia|]. intros _. cbn [digits_loop]. destruct (n <? 10); [done|].
  rewrite digits_loop_app. by destruct (digits_loop f (n / 10) []).
Qed.

Lemma parse_digits_app s t n m :
  parse_digits s n = Some m → parse_digits (s ++ t) n = parse_digits t m.
Proof.
  revert n. induction s as [|b s IH]; intros n H; simpl in H |- *.
  { by injection H as ->. }
  destruct (_ && _); [|done]. destruct (2 ^ 64 <=? _); [done|]. by apply IH.
Qed.

Lemma parse_digits_loop f n :
  0 ≤ n < 2 ^ 64 → n < 10 ^ Z.of_nat f → parse_digits (digits_loop f n []) 0 = Some n.
Proof.
  revert n. induction f as [|f IH]; intros n Hn Hf.
  { simpl in Hf. assert (n = 0) as -> by lia. done. }
  cbn [digits_loop].
  assert (Hd : 0 ≤ n mod 10 < 10) by (apply Z.mod_pos_bound; lia).
  assert (Hlast : ∀ m, n = 10 * m + n mod 10 →
    parse_digits [byte.of_Z (48 + n mod 10)] m = Some n).
  { intros m Hm. cbn [parse_digits]. rewrite digit_of_Z by done.
    replace (48 + n mod 10 - 48) with (n mod 10) by lia.
    rewrite !(proj2 (Z.leb_le _ _)) by lia. cbn [andb].
    replace (m * 10 + n mod 10) with n by lia. by rewrite (proj2 (Z.leb_gt _ _)) by lia. }
  pose proof (Z.div_mod n 10 ltac:(lia)) as Hdm.
  destruct (n <? 10) eqn:E; reflect_hyps.
  - apply Hlast. rewrite Z.mod_small by lia. lia.
  - rewrite digits_loop_app. rewrite (parse_digits_app _ _ _ (n / 10)).
    + apply Hlast. lia.
    + apply IH; [split; [apply Z.div_pos; lia | apply Z.div_lt_upper_bound; lia]|].
      rewrite Nat2Z.inj_succ, Z.pow_succ_r in Hf by lia. apply Z.div_lt_upper_bound; lia.
Qed.

Lemma ParseUint_digits n : in_uint 64 n → ParseUint (digits n) = Some n.
Proof.
  intros Hn. unfold ParseUint. pose proof (digits_loop_nonempty 20 n []) as Hne.
  fold (digits n) in Hne. destruct (digits n) as [|b s] eqn:E; [by destruct Hne; [lia|]|].
  rewrite <- E. apply parse_digits_loop; [done|].
  unfold in_uint in Hn. change (10 ^ Z.of_nat 20) with 100000000000000000000. lia.
Qed.

Lemma digits_first n : 0 ≤ n → ∃ b s, digits n = b :: s ∧ is_digit b.
Proof.
  intros Hn. pose proof (digits_loop_digits 20 n [] Hn (Forall_nil_2 _)) as Hd.
  pose proof (digits_loop_nonempty 20 n []) as Hne. fold (digits n) in Hd, Hne.
  destruct (digits n) as [|b s]; [by destruct Hne; [lia|]|].
  exists b, s. split; [done|]. by apply Forall_cons in Hd as [? _].
Qed.

Lemma ParseInt_format z : in_sint 64 z → ParseInt (format z) = Some z.
Proof.
  unfold in_sint. change (2 ^ (64 - 1)) with (2 ^ 63). intros Hz.
  unfold format. destruct (z <? 0) eqn:E; reflect_hyps.
  - unfold ParseInt. change (byte.unsigned (byte.of_Z 45)) with 45.
    change (45 =? 43) with false. change (45 =? 45) with true. cbv beta iota.
    rewrite ParseUint_digits by (unfold in_uint; lia). simpl.
    rewrite (proj2 (Z.ltb_ge _ _)) by lia. f_equal. lia.
  - destruct (digits_first z) as (b & s & Hd & Hb); [lia|]. unfold ParseInt. rewrite Hd.
    unfold is_digit in Hb. rewrite !(proj2 (Z.eqb_neq (byte.unsigned b) _)) by lia.
    rewrite <- Hd, ParseUint_digits by (unfold in_uint; lia). simpl.
    by rewrite (proj2 (Z.leb_gt _ _)) by lia.
Qed.

Lemma ParseUint_format z : in_uint 64 z → ParseUint (format z) = Some z.
Proof.
  intros Hz. unfold format. rewrite (proj2 (Z.ltb_ge _ _)) by apply Hz.
  by apply ParseUint_digits.
Qed.

End Strconv.

(** ** bufio.ScanWords *)

Module Bufio.

(** The number of bytes of the Unicode space [b] begins with, [0] for none.
    UTF-8 is self-synchronising, so a prefix match is what decoding rune by
    rune finds. *)
Definition space_width (b : bytes) : nat :=
  match map byte.unsigned b with
  | (9 | 10 | 11 | 12 | 13 | 32) :: _ => 1%nat
  | 0xC2 :: (0x85 | 0xA0) :: _ => 2%nat
  | 0xE1 :: 0x9A :: 0x80 :: _ => 3%nat
  | 0xE2 :: 0x80 :: c :: _ =>
      if ((0x80 <=? c) && (c <=? 0x8A)) || (c =? 0xA8) || (c =? 0xA9) || (c =? 0xAF)
      then 3%nat else 0%nat
  | 0xE2 :: 0x81 :: 0x9F :: _ => 3%nat
  | 0xE3 :: 0x80 :: 0x80 :: _ => 3%nat
  | _ => 0%nat
  end.

(** The words of [b]: [cur] is the word being read, [skip] the bytes left of
    the space being skipped. *)
Fixpoint words_from (b : bytes) (skip : nat) (cur : bytes) : list bytes :=
  let flush := match cur with [] => [] | _ => [cur] end in
  match b with
  | [] => flush
  | x :: rest =>
      match skip with
      | S k => words_from rest k cur
      | O =>
          match space_width b with
          | S k => flush ++ words_from rest k []
          | O => words_from rest O (cur ++ [x])
          end
      end
  end.

Definition ScanWords (b : bytes) : list bytes := words_from b O [].

(** Bytes a formatted number is made of. *)
Definition plain (x : byte) : Prop := Strconv.is_digit x ∨ byte.unsigned x = 45.

Lemma space_width_plain x b : plain x → space_width (x :: b) = O.
Proof.
  intros Hx. unfold space_width. cbn [map].
  assert (H : byte.unsigned x = 45 ∨ byte.unsigned x = 48 ∨ byte.unsigned x = 49 ∨
    byte.unsigned x = 50 ∨ byte.unsigned x = 51 ∨ byte.unsigned x = 52 ∨
    byte.unsigned x = 53 ∨ byte.unsigned x = 54 ∨ byte.unsigned x = 55 ∨
    byte.unsigned x = 56 ∨ byte.unsigned x = 57).
  { unfold plain, Strconv.is_digit in Hx. lia. }
  destruct H as [H|[H|[H|[H|[H|[H|[H|[H|[H|[H|H]]]]]]]]]]; by rewrite H.
Qed.

(** A word of plain bytes up to a one-byte space is one token. *)
Lemma words_plain w sp b cur :
  Forall plain w → (∀ t, space_width (sp :: t) = 1%nat) → cur ++ w ≠ [] →
  words_from (w ++ sp :: b) O cur = (cur ++ w) :: words_from b O [].
Proof.
  revert cur. induction w as [|x w IH]; intros cur Hw Hsp Hne.
  - rewrite app_nil_r in *. cbn [app words_from]. rewrite Hsp. by destruct cur.
  - apply Forall_cons in Hw as [Hx Hw]. cbn [app words_from].
    rewrite (space_width_plain x) by done.
    rewrite IH; [by rewrite <- app_assoc|done|done|]. by destruct cur.
Qed.

Lemma format_plain z : Forall plain (Strconv.format z) ∧ Strconv.format z ≠ [].
Proof.
  assert (D : ∀ n, 0 ≤ n → Forall plain (Strconv.digits n)).
  { intros n Hn. eapply Forall_impl; [by apply Strconv.digits_loop_digits|].
    intros x Hx. by left. }
  unfold Strconv.format. destruct (z <? 0) eqn:E; reflect_hyps.
  - split; [|done]. constructor; [by right|]. apply D. lia.
  - split; [by apply D|]. destruct (Strconv.digits_first z) as (b & s & -> & _); [lia|done].
Qed.

Lemma words_format z sp b :
  (∀ t, space_width (sp :: t) = 1%nat) →
  words_from (Strconv.format z ++ sp :: b) O [] = Strconv.format z :: words_from b O [].
Proof. intros Hsp. destruct (format_plain z). by apply words_plain. Qed.

End Bufio.

#[global] Opaque Strconv.digits Strconv.format.
