(* ===== verification/Wire.v ===== *)
(** * The record wire format: encoder.go, message.go, message_set.go

    [packetEncoder] is the interface of encoder.go with its two
    implementations; [Encode] is written once against the interface, as in the
    source, and run twice by [encode] (a sizing pass, then a filling pass).
    A Go map is iterated in an unspecified order, possibly a different one per
    pass, so [Encode] takes the order of the headers as an argument and the
    theorems quantify over it. *)

From Stdlib Require Import ZArith Lia.
From stdpp Require Import base list gmap numbers strings sorting.
From coqutil Require Import Byte.
From S2P Require Import Prelude GoStd.

Open Scope Z_scope.

Definition MaxInt32 : Z := 2 ^ 31 - 1.
Definition MaxInt16 : Z := 2 ^ 15 - 1.

(** ** Encoders *)

(** encoder.go's [packetEncoder].  [Push] and [Pop] carry the one
    [pushEncoder] the package has, message.go's [crcField]. *)
Class packetEncoder (E : Type) := {
  PutInt8 : Z → E → outcome E;
  PutInt16 : Z → E → outcome E;
  PutBytes : option bytes → E → outcome E;
  PutString : bytes → E → outcome E;
  Push : E → outcome E;
  Pop : E → outcome E;
}.

(** [crcField]: where the checksum goes, the room it takes, and the fill. *)
Record crcField := { StartOffset : Z }.

Definition ReserveSize : Z := 4.

Definition SaveOffset (off : Z) : crcField := {| StartOffset := off |}.

Definition Fill (f : crcField) (curOffset : Z) (buf : bytes) : outcome bytes :=
  covered ← slice buf (StartOffset f + 4) curOffset;
  BigEndian.put_at 4 buf (StartOffset f) (Crc32.Checksum Crc32.Castagnoli covered).

Record lenEncoder := { Length : Z }.

Definition len_add (n : Z) (e : lenEncoder) : lenEncoder :=
  {| Length := Length e + n |}.

Definition len_PutBytes (x : option bytes) (e : lenEncoder) : outcome lenEncoder :=
  let e := len_add 4 e in
  match x with
  | None => Ok e
  | Some x => if MaxInt32 <? zlen x then Fail ErrInvalidByteSliceLength
              else Ok (len_add (zlen x) e)
  end.

Definition len_PutString (x : bytes) (e : lenEncoder) : outcome lenEncoder :=
  let e := len_add 2 e in
  if MaxInt16 <? zlen x then Fail ErrInvalidStringLength
  else Ok (len_add (zlen x) e).

#[export] Instance lenEncoder_packetEncoder : packetEncoder lenEncoder := {
  PutInt8 _ e := Ok (len_add 1 e);
  PutInt16 _ e := Ok (len_add 2 e);
  PutBytes := len_PutBytes;
  PutString := len_PutString;
  Push e := Ok (len_add ReserveSize e);
  Pop e := Ok e;
}.

Record byteEncoder := { be_b : bytes; be_off : Z; be_stack : list crcField }.

Definition newByteEncoder (buf : bytes) : byteEncoder :=
  {| be_b := buf; be_off := 0; be_stack := [] |}.

(** [e.b\[e.off\] = byte(in); e.off++]. *)
Definition byte_PutInt8 (v : Z) (e : byteEncoder) : outcome byteEncoder :=
  buf ← BigEndian.put_at 1 (be_b e) (be_off e) v;
  Ok {| be_b := buf; be_off := be_off e + 1; be_stack := be_stack e |}.

Definition byte_PutInt16 (v : Z) (e : byteEncoder) : outcome byteEncoder :=
  buf ← BigEndian.put_at 2 (be_b e) (be_off e) v;
  Ok {| be_b := buf; be_off := be_off e + 2; be_stack := be_stack e |}.

Definition putInt32 (v : Z) (e : byteEncoder) : outcome byteEncoder :=
  buf ← BigEndian.put_at 4 (be_b e) (be_off e) v;
  Ok {| be_b := buf; be_off := be_off e + 4; be_stack := be_stack e |}.

(** [copy(e.b\[e.off:\], in); e.off += len(in)]: the slice expression panics
    past the end, the copy itself silently stops at it. *)
Definition copy_in (x : bytes) (e : byteEncoder) : outcome byteEncoder :=
  dst ← slice_from (be_b e) (be_off e);
  Ok {| be_b := take (Z.to_nat (be_off e)) (be_b e) ++
             take (length dst) x ++ drop (length x) dst;
        be_off := be_off e + zlen x; be_stack := be_stack e |}.

Definition byte_PutBytes (x : option bytes) (e : byteEncoder) : outcome byteEncoder :=
  match x with
  | None => putInt32 (-1) e
  | Some x => e ← putInt32 (sint 32 (zlen x)) e; copy_in x e
  end.

Definition byte_PutString (x : bytes) (e : byteEncoder) : outcome byteEncoder :=
  e ← byte_PutInt16 (sint 16 (zlen x)) e; copy_in x e.

Definition byte_Push (e : byteEncoder) : outcome byteEncoder :=
  Ok {| be_b := be_b e; be_off := be_off e + ReserveSize;
        be_stack := be_stack e ++ [SaveOffset (be_off e)] |}.

Definition byte_Pop (e : byteEncoder) : outcome byteEncoder :=
  match last (be_stack e) with
  | None => Panic
  | Some pe =>
      buf ← Fill pe (be_off e) (be_b e);
      Ok {| be_b := buf; be_off := be_off e;
            be_stack := take (length (be_stack e) - 1) (be_stack e) |}
  end.

#[export] Instance byteEncoder_packetEncoder : packetEncoder byteEncoder := {
  PutInt8 := byte_PutInt8;
  PutInt16 := byte_PutInt16;
  PutBytes := byte_PutBytes;
  PutString := byte_PutString;
  Push := byte_Push;
  Pop := byte_Pop;
}.

(** ** Messages *)

Definition AttrControl : Z := 0x01.
Definition AttrTombstone : Z := 0x02.

Record Message := {
  MagicByte : Z;
  Attributes : Z;
  Key : option bytes;
  Value : option bytes;
  Headers : gmap bytes (option bytes);
  Timestamp : Z;
  LeaderEpoch : Z;
}.

(** A header list: the map's entries in the order one [range] visits them. *)
Abbreviation headerOrder := (list (bytes * option bytes)).

Fixpoint Encode_headers {E} `{packetEncoder E} (hs : headerOrder) (e : E) : outcome E :=
  match hs with
  | [] => Ok e
  | (k, v) :: hs => e ← PutString k e; e ← PutBytes v e; Encode_headers hs e
  end.

Definition Encode {E} `{packetEncoder E} (m : Message) (hs : headerOrder) (e : E)
    : outcome E :=
  e ← Push e;
  e ← PutInt8 (MagicByte m) e;
  e ← PutInt8 (Attributes m) e;
  e ← PutBytes (Key m) e;
  e ← PutBytes (Value m) e;
  e ← PutInt16 (sint 16 (Z.of_nat (size (Headers m)))) e;
  e ← Encode_headers hs e;
  Pop e.

(** [encode]: size with the first pass' header order, fill with the second's. *)
Definition encode (m : Message) (hs1 hs2 : headerOrder) : outcome bytes :=
  lenEnc ← Encode m hs1 {| Length := 0 |};
  byteEnc ← Encode m hs2 (newByteEncoder (replicate (Z.to_nat (Length lenEnc)) Byte.x00));
  Ok (be_b byteEnc).

(** ** SerializedMessage accessors *)

Module SerializedMessage.

Definition Crc (m : bytes) : outcome Z := BigEndian.read 4 m.

Definition crcMatches (m : bytes) : outcome bool :=
  if zlen m <? 4 then Ok false
  else
    c ← Crc m;
    rest ← slice_from m 4;
    Ok (c =? Crc32.Checksum Crc32.Castagnoli rest).

Definition MagicByte (m : bytes) : outcome Z :=
  x ← index m 4; Ok (sint 8 (byte.unsigned x)).

Definition Attributes (m : bytes) : outcome Z :=
  x ← index m 5; Ok (sint 8 (byte.unsigned x)).

(** Start, end and size of the length-prefixed field at [start], in int32
    arithmetic; size -1 is an absent field. *)
Definition fieldOffsets (m : bytes) (start : Z) : outcome (Z * Z * Z) :=
  rest ← slice_from m start;
  raw ← BigEndian.read 4 rest;
  let size := sint 32 raw in
  let end_ := sint 32 (start + 4) in
  let end_ := if size =? -1 then end_ else sint 32 (end_ + size) in
  Ok (start, end_, size).

Definition keyOffsets (m : bytes) : outcome (Z * Z * Z) := fieldOffsets m 6.

Definition valueOffsets (m : bytes) : outcome (Z * Z * Z) :=
  '(_, keyEnd, _) ← keyOffsets m; fieldOffsets m keyEnd.

Definition field (m : bytes) (o : Z * Z * Z) : outcome (option bytes) :=
  let '(start, end_, size) := o in
  if size =? -1 then Ok None
  else x ← slice m (sint 32 (start + 4)) end_; Ok (Some x).

Definition Key (m : bytes) : outcome (option bytes) :=
  o ← keyOffsets m; field m o.

Definition Value (m : bytes) : outcome (option bytes) :=
  o ← valueOffsets m; field m o.

(** The loop of [Headers]: [k] iterations left, [n] the int32 cursor. *)
Fixpoint Headers_loop (m : bytes) (k : nat) (n : Z) (acc : gmap bytes bytes)
    : outcome (gmap bytes bytes) :=
  match k with
  | O => Ok acc
  | S k =>
      r ← slice_from m n;
      keySize ← BigEndian.read 2 r;
      let n := sint 32 (n + 2) in
      key ← slice m n (sint 32 (n + keySize));
      let n := sint 32 (n + keySize) in
      r ← slice_from m n;
      valueSize ← BigEndian.read 4 r;
      let n := sint 32 (n + 4) in
      value ← slice m n (sint 32 (n + sint 32 valueSize));
      let n := sint 32 (n + sint 32 valueSize) in
      Headers_loop m k n (<[key := value]> acc)
  end.

Definition Headers (m : bytes) : outcome (gmap bytes bytes) :=
  '(_, valueEnd, _) ← valueOffsets m;
  r ← slice_from m valueEnd;
  numHeaders ← BigEndian.read 2 r;
  Headers_loop m (Z.to_nat numHeaders) (sint 32 (valueEnd + 2)) ∅.

End SerializedMessage.

(** ** Frames *)

Definition offsetPos : Z := 0.
Definition timestampPos : Z := 8.
Definition leaderEpochPos : Z := 16.
Definition sizePos : Z := 24.
Definition headerCrcPos : Z := 28.
Definition msgSetHeaderLen : Z := 32.

(** index.go's [entry]. *)
Record entry := {
  e_Offset : Z;
  e_Timestamp : Z;
  e_LeaderEpoch : Z;
  e_Position : Z;
  e_Size : Z;
}.

Definition headerCrc (hdr : bytes) : outcome Z :=
  h ← slice_to hdr headerCrcPos; Ok (Crc32.Checksum Crc32.Castagnoli h).

Definition storedHeaderCrc (hdr : bytes) : outcome Z :=
  r ← slice_from hdr headerCrcPos; BigEndian.read 4 r.

Module messageSet.

Definition field_at (ms : bytes) (pos : Z) (n : nat) : outcome Z :=
  r ← slice ms pos (pos + Z.of_nat n); BigEndian.read n r.

Definition Offset (ms : bytes) : outcome Z :=
  v ← field_at ms offsetPos 8; Ok (sint 64 v).
Definition Timestamp (ms : bytes) : outcome Z :=
  v ← field_at ms timestampPos 8; Ok (sint 64 v).
Definition LeaderEpoch (ms : bytes) : outcome Z := field_at ms leaderEpochPos 8.
Definition Size (ms : bytes) : outcome Z :=
  v ← field_at ms sizePos 4; Ok (sint 32 v).

Definition Message (ms : bytes) : outcome (option bytes) :=
  if zlen ms <=? msgSetHeaderLen then Ok None
  else
    size ← Size ms;
    r ← slice ms msgSetHeaderLen (sint 32 (msgSetHeaderLen + size));
    Ok (Some r).

End messageSet.

(** The loop of [entriesForMessageSet].  Each turn drops at least a header, so
    [length ms] turns are enough. *)
Fixpoint entries_loop (fuel : nat) (basePos n : Z) (ms : bytes) (acc : list entry)
    : outcome (list entry) :=
  match fuel with
  | O => Ok acc
  | S fuel =>
      if zlen ms <? msgSetHeaderLen then Ok acc
      else
        offset ← messageSet.Offset ms;
        timestamp ← messageSet.Timestamp ms;
        leaderEpoch ← messageSet.LeaderEpoch ms;
        size ← messageSet.Size ms;
        if (size <? 0) || (zlen ms - msgSetHeaderLen <? size) then Ok acc
        else
          let e := {| e_Offset := offset; e_Timestamp := timestamp;
                      e_LeaderEpoch := leaderEpoch;
                      e_Position := basePos + n;
                      e_Size := sint 32 (size + msgSetHeaderLen) |} in
          rest ← slice_from ms (sint 32 (msgSetHeaderLen + size));
          entries_loop fuel basePos (n + msgSetHeaderLen + size) rest (acc ++ [e])
  end.

Definition entriesForMessageSet (basePos : Z) (ms : bytes) : outcome (list entry) :=
  if zlen ms <=? msgSetHeaderLen then Ok []
  else entries_loop (length ms) basePos 0 ms [].

(** The frame header written for a record, its own checksum included. *)
Definition frame_header (offset timestamp leaderEpoch size : Z) : bytes :=
  let h := BigEndian.put 8 (uint 64 offset) ++ BigEndian.put 8 (uint 64 timestamp) ++
           BigEndian.put 8 leaderEpoch ++ BigEndian.put 4 (uint 32 size) in
  h ++ BigEndian.put 4 (Crc32.Checksum Crc32.Castagnoli h).

Fixpoint messageSet_loop (baseOffset basePos i : Z) (buf : bytes)
    (msgs : list (Message * headerOrder * headerOrder)) (entries : list entry)
    : outcome (bytes * list entry) :=
  match msgs with
  | [] => Ok (buf, entries)
  | (m, hs1, hs2) :: msgs =>
      data ← encode m hs1 hs2;
      let size := sint 32 (zlen data) in
      let relPos := zlen buf in
      let offset := sint 64 (i + baseOffset) in
      let buf := buf ++ frame_header offset (Timestamp m) (LeaderEpoch m) size ++ data in
      let e := {| e_Offset := offset; e_Timestamp := Timestamp m;
                  e_LeaderEpoch := LeaderEpoch m;
                  e_Position := basePos + relPos;
                  e_Size := sint 32 (size + msgSetHeaderLen) |} in
      messageSet_loop baseOffset basePos (i + 1) buf msgs (entries ++ [e])
  end.

(** [newMessageSetFromProto]; each message comes with the two header orders
    its encoding passes observe. *)
Definition newMessageSetFromProto (baseOffset basePos : Z)
    (msgs : list (Message * headerOrder * headerOrder)) : outcome (bytes * list entry) :=
  messageSet_loop baseOffset basePos 0 [] msgs [].

(** ** The checked payload walk *)

Record payloadCursor := { pc_buf : bytes; pc_n : Z; pc_err : bool }.

Definition pc_take (c : payloadCursor) (n : Z) : outcome (option bytes * payloadCursor) :=
  if pc_err c then Ok (None, c)
  else if (n <? 0) || (sint 64 (pc_n c + n) <? pc_n c) ||
          (zlen (pc_buf c) <? sint 64 (pc_n c + n))
  then Ok (None, {| pc_buf := pc_buf c; pc_n := pc_n c; pc_err := true |})
  else
    r ← slice (pc_buf c) (pc_n c) (sint 64 (pc_n c + n));
    Ok (Some r, {| pc_buf := pc_buf c; pc_n := sint 64 (pc_n c + n); pc_err := false |}).

(** [c.uint16()] and [c.uint32()]. *)
Definition pc_uint (w : nat) (c : payloadCursor) : outcome (Z * payloadCursor) :=
  '(r, c) ← pc_take c (Z.of_nat w);
  match r with
  | None => Ok (0, c)
  | Some r => v ← BigEndian.read w r; Ok (v, c)
  end.

(** One turn of the key/value loop: skip a length-prefixed field. *)
Definition pc_skip_field (c : payloadCursor) : outcome payloadCursor :=
  '(raw, c) ← pc_uint 4 c;
  let size := sint 32 raw in
  if size =? -1 then Ok c
  else if size <? 0 then Fail (ErrText "declares a length"%string)
  else '(_, c) ← pc_take c size; Ok c.

Fixpoint pc_headers (k : nat) (c : payloadCursor) (acc : gmap bytes bytes)
    : outcome (gmap bytes bytes * payloadCursor) :=
  match k with
  | O => Ok (acc, c)
  | S k =>
      '(kl, c) ← pc_uint 2 c;
      '(key, c) ← pc_take c kl;
      '(vl, c) ← pc_uint 4 c;
      '(value, c) ← pc_take c vl;
      if pc_err c then Ok (acc, c)
      else pc_headers k c (<[default [] key := default [] value]> acc)
  end.

Definition parseHeadersAfterValue (buf : bytes) : outcome (gmap bytes bytes) :=
  c ← pc_skip_field {| pc_buf := buf; pc_n := 6; pc_err := false |};
  c ← pc_skip_field c;
  '(numHeaders, c) ← pc_uint 2 c;
  '(headers, c) ← pc_headers (Z.to_nat numHeaders) c ∅;
  if pc_err c then Fail (ErrText "wants bytes past the record"%string) else Ok headers.

(** ** Reference serialization *)

Definition field_bytes (x : option bytes) : bytes :=
  match x with
  | None => BigEndian.put 4 (-1)
  | Some x => BigEndian.put 4 (zlen x) ++ x
  end.

Definition header_bytes (h : bytes * option bytes) : bytes :=
  BigEndian.put 2 (zlen h.1) ++ h.1 ++ field_bytes h.2.

Definition headers_bytes (hs : headerOrder) : bytes := concat (header_bytes <$> hs).

Definition record_body (m : Message) (hs : headerOrder) : bytes :=
  BigEndian.put 1 (MagicByte m) ++ BigEndian.put 1 (Attributes m) ++
  field_bytes (Key m) ++ field_bytes (Value m) ++
  BigEndian.put 2 (Z.of_nat (size (Headers m))) ++ headers_bytes hs.

Definition record_bytes (m : Message) (hs : headerOrder) : bytes :=
  BigEndian.put 4 (Crc32.Checksum Crc32.Castagnoli (record_body m hs)) ++
  record_body m hs.

(** What the sizing pass accepts. *)
Definition fits (x : option bytes) : bool :=
  match x with None => true | Some x => zlen x <=? MaxInt32 end.

Definition header_fits (h : bytes * option bytes) : bool :=
  (zlen h.1 <=? MaxInt16) && fits h.2.

Definition encodable (m : Message) (hs : headerOrder) : bool :=
  fits (Key m) && fits (Value m) && forallb header_fits hs.

(** *** The sizing pass *)

Lemma len_PutBytes_ok x l :
  fits x = true →
  len_PutBytes x {| Length := l |} = Ok {| Length := l + zlen (field_bytes x) |}.
Proof.
  destruct x as [x|]; simpl; intros H; unfold len_PutBytes, len_add; simpl.
  - reflect_hyps. rewrite (proj2 (Z.ltb_ge _ _)) by lia.
    do 2 f_equal. rewrite zlen_app, BigEndian.zlen_put. lia.
  - done.
Qed.

Lemma len_PutBytes_fail x e :
  fits x = false → len_PutBytes x e = Fail ErrInvalidByteSliceLength.
Proof.
  destruct x as [x|]; simpl; [|done]. intros H. reflect_hyps.
  unfold len_PutBytes. by rewrite (proj2 (Z.ltb_lt _ _)) by lia.
Qed.

Lemma headers_bytes_cons k v hs :
  headers_bytes ((k, v) :: hs) =
    BigEndian.put 2 (zlen k) ++ k ++ field_bytes v ++ headers_bytes hs.
Proof. unfold headers_bytes, header_bytes. simpl. by rewrite <- !app_assoc. Qed.

Lemma header_fits_cons k v hs :
  forallb header_fits ((k, v) :: hs) = true →
  zlen k ≤ MaxInt16 ∧ fits v = true ∧ forallb header_fits hs = true.
Proof.
  simpl. intros [[Hk Hv]%andb_prop Hs]%andb_prop. by apply Z.leb_le in Hk.
Qed.

Lemma len_headers_ok hs l :
  forallb header_fits hs = true →
  Encode_headers hs {| Length := l |} = Ok {| Length := l + zlen (headers_bytes hs) |}.
Proof.
  revert l. induction hs as [|[k v] hs IH]; intros l H; simpl.
  - change (zlen (headers_bytes [])) with 0. by rewrite Z.add_0_r.
  - apply header_fits_cons in H as (? & ? & ?).
    unfold len_PutString. rewrite (proj2 (Z.ltb_ge _ _)) by lia. simpl.
    unfold len_add. simpl. rewrite len_PutBytes_ok by done. simpl.
    rewrite IH, headers_bytes_cons by done. do 2 f_equal.
    autorewrite with zlen. lia.
Qed.

Lemma len_headers_fail hs (e : lenEncoder) :
  forallb header_fits hs = false → ∃ err, Encode_headers hs e = Fail err.
Proof.
  revert e. induction hs as [|[k v] hs IH]; intros e H; simpl in *; [done|].
  unfold len_PutString. destruct (MaxInt16 <? zlen k) eqn:E; simpl; [by eexists|].
  reflect_hyps. unfold header_fits in H. simpl in H.
  rewrite (proj2 (Z.leb_le _ _)) in H by lia. simpl in H.
  destruct (fits v) eqn:Fv; simpl in H.
  - unfold len_add. rewrite len_PutBytes_ok by done. simpl. by apply IH.
  - rewrite len_PutBytes_fail by done. simpl. by eexists.
Qed.

Lemma len_pass_ok m hs :
  encodable m hs = true →
  Encode m hs {| Length := 0 |} = Ok {| Length := zlen (record_bytes m hs) |}.
Proof.
  intros H. unfold encodable in H. reflect_hyps. unfold Encode. simpl.
  unfold len_add. simpl. rewrite len_PutBytes_ok by done. simpl.
  rewrite len_PutBytes_ok by done. simpl. rewrite len_headers_ok by done. simpl.
  do 2 f_equal. unfold record_bytes, record_body, ReserveSize.
  autorewrite with zlen. lia.
Qed.

Lemma len_pass_fail m hs :
  encodable m hs = false → ∃ err, Encode m hs {| Length := 0 |} = Fail err.
Proof.
  intros H. unfold encodable in H. unfold Encode. simpl. unfold len_add. simpl.
  destruct (fits (Key m)) eqn:F1.
  2: { rewrite len_PutBytes_fail by done. by eexists. }
  rewrite len_PutBytes_ok by done. simpl.
  destruct (fits (Value m)) eqn:F2.
  2: { rewrite len_PutBytes_fail by done. by eexists. }
  rewrite len_PutBytes_ok by done. simpl.
  simpl in H. edestruct (len_headers_fail hs) as [err E]; [done|].
  rewrite E. by eexists.
Qed.

(** *** The filling pass

    [filled e d n st]: the encoder has written [d] and has room for [n] more
    bytes; every put that fits extends [d] by its encoding. *)
Definition filled (e : byteEncoder) (d : bytes) (n : nat) (st : list crcField) : Prop :=
  ∃ r, be_b e = d ++ r ∧ length r = n ∧ be_off e = zlen d ∧ be_stack e = st.

Lemma filled_room e d n k st :
  filled e d (k + n) st →
  ∃ x r, be_b e = d ++ x ++ r ∧ length x = k ∧ length r = n ∧
         be_off e = zlen d ∧ be_stack e = st.
Proof.
  intros (r & Hb & Hl & Ho & Hs). exists (take k r), (drop k r).
  rewrite take_drop, length_take, length_drop. split_and!; try done; lia.
Qed.

Lemma filled_put w v e d n st :
  filled e d (w + n) st →
  ∃ buf, BigEndian.put_at w (be_b e) (be_off e) v = Ok buf ∧
    filled {| be_b := buf; be_off := be_off e + Z.of_nat w; be_stack := be_stack e |}
           (d ++ BigEndian.put w v) n st.
Proof.
  intros (x & r & Hb & Hx & Hr & Ho & Hs)%filled_room.
  rewrite Hb, BigEndian.put_at_app by done. eexists. split; [done|].
  exists r. simpl. rewrite <- app_assoc. split_and!; try done.
  rewrite zlen_app, BigEndian.zlen_put. lia.
Qed.

Lemma filled_int8 v e d n st :
  filled e d (1 + n) st →
  ∃ e', byte_PutInt8 v e = Ok e' ∧ filled e' (d ++ BigEndian.put 1 v) n st.
Proof.
  intros (buf & E & F)%(filled_put 1 v). unfold byte_PutInt8. rewrite E. by eexists.
Qed.

Lemma filled_int16 v e d n st :
  filled e d (2 + n) st →
  ∃ e', byte_PutInt16 (sint 16 v) e = Ok e' ∧ filled e' (d ++ BigEndian.put 2 v) n st.
Proof.
  intros (buf & E & F)%(filled_put 2 (sint 16 v)). unfold byte_PutInt16. rewrite E.
  change 16 with (8 * Z.of_nat 2) in F. rewrite BigEndian.put_sint in F by lia.
  by eexists.
Qed.

Lemma filled_copy x e d n st :
  filled e d (length x + n) st →
  ∃ e', copy_in x e = Ok e' ∧ filled e' (d ++ x) n st.
Proof.
  intros (y & r & Hb & Hx & Hr & Ho & Hs)%filled_room.
  unfold copy_in. rewrite Hb, slice_from_app by done. simpl.
  eexists. split; [done|]. exists r. simpl.
  rewrite Ho, to_nat_zlen, take_app_length.
  rewrite (take_ge x) by (rewrite length_app; lia).
  rewrite <- Hx, drop_app_length, <- app_assoc.
  split_and!; try done. rewrite zlen_app. lia.
Qed.

Lemma filled_bytes x e d n st :
  fits x = true → filled e d (length (field_bytes x) + n) st →
  ∃ e', byte_PutBytes x e = Ok e' ∧ filled e' (d ++ field_bytes x) n st.
Proof.
  unfold byte_PutBytes, putInt32. destruct x as [x|]; simpl; intros Hf H.
  - rewrite length_app, BigEndian.length_put, <- Nat.add_assoc in H.
    apply (filled_put 4 (sint 32 (zlen x))) in H as (buf & -> & H). simpl.
    change 32 with (8 * Z.of_nat 4) in H.
    rewrite BigEndian.put_sint in H by lia. change (Z.of_nat 4) with 4 in H.
    apply filled_copy in H as (e' & -> & H). eexists. split; [done|].
    by rewrite <- app_assoc in H.
  - apply (filled_put 4 (-1)) in H as (buf & -> & H). simpl. by eexists.
Qed.

Lemma filled_string x e d n st :
  filled e d (2 + length x + n) st →
  ∃ e', byte_PutString x e = Ok e' ∧ filled e' (d ++ BigEndian.put 2 (zlen x) ++ x) n st.
Proof.
  unfold byte_PutString. intros H. rewrite <- Nat.add_assoc in H.
  apply (filled_int16 (zlen x)) in H as (e1 & -> & H). simpl.
  apply filled_copy in H as (e' & -> & H). eexists. split; [done|].
  by rewrite <- app_assoc in H.
Qed.

Lemma filled_headers hs e d n st :
  forallb header_fits hs = true → filled e d (length (headers_bytes hs) + n) st →
  ∃ e', Encode_headers hs e = Ok e' ∧ filled e' (d ++ headers_bytes hs) n st.
Proof.
  revert e d. induction hs as [|[k v] hs IH]; intros e d Hf H; simpl.
  - unfold headers_bytes in *. simpl in *. rewrite app_nil_r. by eexists.
  - rewrite headers_bytes_cons in H |- *.
    rewrite !length_app, BigEndian.length_put in H.
    apply header_fits_cons in Hf as (? & ? & ?).
    replace (_ + _ + n)%nat with (2 + length k +
      (length (field_bytes v) + (length (headers_bytes hs) + n)))%nat in H by lia.
    apply filled_string in H as (e1 & -> & H). simpl.
    apply filled_bytes in H as (e2 & -> & H); [|done]. simpl.
    apply IH in H as (e3 & -> & H); [|done]. eexists. split; [done|].
    by rewrite <- !app_assoc in H.
Qed.

Lemma filled_push e n :
  filled e [] (4 + n) [] →
  ∃ e' x, byte_Push e = Ok e' ∧ length x = 4%nat ∧
    filled e' x n [{| StartOffset := 0 |}].
Proof.
  intros (x & r & Hb & Hx & Hr & Ho & Hs)%filled_room.
  unfold byte_Push. rewrite Hs, Ho. eexists. exists x.
  split; [done|]. split; [done|]. exists r. simpl in *.
  split_and!; try done. unfold ReserveSize, zlen. rewrite Hx. done.
Qed.

Lemma filled_pop e x body :
  length x = 4%nat → filled e (x ++ body) 0 [{| StartOffset := 0 |}] →
  ∃ e', byte_Pop e = Ok e' ∧
    be_b e' = BigEndian.put 4 (Crc32.Checksum Crc32.Castagnoli body) ++ body.
Proof.
  intros Hx (r & Hb & Hr & Ho & Hs). apply nil_length_inv in Hr. subst r.
  unfold byte_Pop. rewrite Hs. simpl. unfold Fill. simpl.
  rewrite Hb, Ho, app_nil_r.
  assert (E : slice (x ++ body) 4 (zlen (x ++ body)) = Ok body).
  { apply slice_from_app. unfold zlen. by rewrite Hx. }
  change (0 + 4) with 4. rewrite E. simpl.
  rewrite (BigEndian.put_at_app 4 [] x body 0) by done. simpl. by eexists.
Qed.

Lemma fill_pass_ok m hs :
  encodable m hs = true →
  ∃ e', Encode m hs (newByteEncoder (replicate (length (record_bytes m hs)) Byte.x00))
          = Ok e' ∧ be_b e' = record_bytes m hs.
Proof.
  intros H. unfold encodable in H. reflect_hyps. unfold Encode.
  assert (F : filled (newByteEncoder (replicate (length (record_bytes m hs)) Byte.x00))
    [] (length (record_bytes m hs)) []).
  { exists (replicate (length (record_bytes m hs)) Byte.x00).
    by rewrite length_replicate. }
  unfold record_bytes in F at 2. rewrite length_app, BigEndian.length_put in F.
  apply filled_push in F as (e0 & x & E0 & Hx & F).
  unfold record_body in F. rewrite !length_app, !BigEndian.length_put in F.
  apply (filled_int8 (MagicByte m)) in F as (e1 & E1 & F).
  apply (filled_int8 (Attributes m)) in F as (e2 & E2 & F).
  apply filled_bytes in F as (e3 & E3 & F); [|done].
  apply filled_bytes in F as (e4 & E4 & F); [|done].
  apply (filled_int16 (Z.of_nat (size (Headers m)))) in F as (e5 & E5 & F).
  rewrite <- (Nat.add_0_r (length (headers_bytes hs))) in F.
  apply filled_headers in F as (e6 & E6 & F); [|done].
  cbn [PutInt8 PutInt16 PutBytes PutString Push Pop byteEncoder_packetEncoder].
  rewrite E0; cbn [mbind outcome_bind]. rewrite E1; cbn [mbind outcome_bind].
  rewrite E2; cbn [mbind outcome_bind]. rewrite E3; cbn [mbind outcome_bind].
  rewrite E4; cbn [mbind outcome_bind]. rewrite E5; cbn [mbind outcome_bind].
  rewrite E6; cbn [mbind outcome_bind].
  rewrite <- !app_assoc in F. apply filled_pop in F; done.
Qed.

(** *** Header orders do not matter to the size *)

Lemma headers_bytes_perm hs1 hs2 :
  hs1 ≡ₚ hs2 → length (headers_bytes hs1) = length (headers_bytes hs2).
Proof.
  induction 1 as [|[k v] a c _ IH|[k1 v1] [k2 v2] a|a c d _ IH1 _ IH2]; try done.
  - rewrite !headers_bytes_cons, !length_app. lia.
  - rewrite !headers_bytes_cons, !length_app, !BigEndian.length_put. lia.
  - congruence.
Qed.

Lemma encodable_perm m hs1 hs2 : hs1 ≡ₚ hs2 → encodable m hs1 = encodable m hs2.
Proof.
  intros H. unfold encodable. f_equal. apply eq_iff_eq_true.
  rewrite !forallb_forall. setoid_rewrite <- list_elem_of_In. by setoid_rewrite H.
Qed.

Lemma record_bytes_perm m hs1 hs2 :
  hs1 ≡ₚ hs2 → length (record_bytes m hs1) = length (record_bytes m hs2).
Proof.
  intros H. unfold record_bytes, record_body.
  rewrite !length_app, !BigEndian.length_put, (headers_bytes_perm _ _ H). done.
Qed.

Lemma encode_ok m hs1 hs2 :
  hs1 ≡ₚ hs2 → encodable m hs2 = true → encode m hs1 hs2 = Ok (record_bytes m hs2).
Proof.
  intros Hp He. unfold encode.
  rewrite len_pass_ok by (by rewrite (encodable_perm _ _ _ Hp)). simpl.
  rewrite to_nat_zlen, (record_bytes_perm _ _ _ Hp).
  destruct (fill_pass_ok m hs2 He) as (e & -> & Hb). simpl. by rewrite Hb.
Qed.

(** *** The checked walk: what one step does *)

Lemma pc_take_step c n :
  0 ≤ pc_n c < 2 ^ 63 → in_sint 64 n →
  ∃ r c', pc_take c n = Ok (r, c') ∧ pc_buf c' = pc_buf c ∧ 0 ≤ pc_n c' < 2 ^ 63 ∧
    match r with
    | None => pc_err c' = true
    | Some r => pc_err c = false ∧ pc_err c' = false ∧ 0 ≤ n ∧
        pc_n c' = pc_n c + n ∧ pc_n c' ≤ zlen (pc_buf c) ∧ zlen r = n ∧
        slice (pc_buf c) (pc_n c) (pc_n c') = Ok r
    end.
Proof.
  intros Hc Hn. unfold pc_take. destruct (pc_err c) eqn:Ee.
  { by eexists _, _. }
  destruct ((n <? 0) || _ || _) eqn:E.
  { by eexists _, _. }
  reflect_hyps. set (s := sint 64 (pc_n c + n)) in *.
  assert (Hs : s = pc_n c + n).
  { unfold in_sint in Hn. change (2 ^ (64 - 1)) with (2 ^ 63) in Hn.
    destruct (Z.lt_ge_cases (pc_n c + n) (2 ^ 63)) as [|Hge].
    - apply sint_nonneg; [lia|]. change (64 - 1) with 63. lia.
    - exfalso. unfold s, sint in *. change (64 - 1) with 63 in *.
      rewrite <- (Z.mod_unique (pc_n c + n + 2 ^ 63) (2 ^ 64) 1
        (pc_n c + n - 2 ^ 63)) in * by lia. lia. }
  rewrite slice_ok by lia. simpl.
  eexists _, _. split; [done|]. simpl. split; [done|].
  assert (Hr : in_sint 64 s) by (apply sint_range; lia).
  unfold in_sint in Hr. change (64 - 1) with 63 in Hr.
  split; [lia|]. rewrite slice_ok by lia.
  split_and!; try done; try lia.
  unfold zlen in *. rewrite length_take, length_drop. lia.
Qed.

Lemma slice_sub_read w (buf r : bytes) lo hi :
  slice buf lo hi = Ok r → hi = lo + Z.of_nat w →
  ∃ rest, slice_from buf lo = Ok rest ∧ BigEndian.read w rest = BigEndian.read w r ∧
          length r = w.
Proof.
  intros H ->. apply slice_Ok_inv in H as (Hlo & Hhi & Hr & Hl).
  unfold slice_from. rewrite slice_ok by lia. eexists. split; [done|].
  assert (Hw : length r = w) by (unfold zlen in Hl; lia). split; [|done].
  replace (Z.to_nat (lo + Z.of_nat w - lo)) with w in Hr by lia.
  rewrite take_ge by (rewrite length_drop; unfold zlen; lia).
  set (d := drop (Z.to_nat lo) buf) in *.
  rewrite <- (take_drop w d). rewrite <- Hr. rewrite (BigEndian.read_app w r) by done.
  rewrite <- (app_nil_r r) at 2. by rewrite BigEndian.read_app.
Qed.

Lemma pc_uint_step w c :
  (0 < w ≤ 4)%nat → 0 ≤ pc_n c < 2 ^ 63 →
  ∃ v c', pc_uint w c = Ok (v, c') ∧ pc_buf c' = pc_buf c ∧ 0 ≤ pc_n c' < 2 ^ 63 ∧
    0 ≤ v < 2 ^ 32 ∧
    (pc_err c' = false →
       pc_err c = false ∧ pc_n c' = pc_n c + Z.of_nat w ∧ pc_n c' ≤ zlen (pc_buf c) ∧
       ∃ rest, slice_from (pc_buf c) (pc_n c) = Ok rest ∧ BigEndian.read w rest = Ok v).
Proof.
  intros Hw Hc. unfold pc_uint.
  destruct (pc_take_step c (Z.of_nat w)) as (r & c' & -> & Hb & Hc' & Hr);
    [done | unfold in_sint; lia |].
  simpl. destruct r as [r|].
  - destruct Hr as (E1 & E2 & _ & Hn & Hz & Hl & Hs).
    destruct (slice_sub_read w _ _ _ _ Hs) as (rest & R1 & R2 & R3); [lia|].
    destruct (BigEndian.read w r) as [v| |] eqn:Ev.
    2,3: exfalso; revert Ev; rewrite <- (app_nil_r r), BigEndian.read_app by done; done.
    simpl. eexists _, _. split; [done|]. split; [done|]. split; [done|].
    apply BigEndian.read_range in Ev as Hv.
    assert (2 ^ (8 * Z.of_nat w) ≤ 2 ^ 32) by (apply Z.pow_le_mono_r; lia).
    split; [lia|]. intros _. split_and!; try done. eauto.
  - eexists _, _. split; [done|]. split; [done|]. split; [done|]. split; [lia|].
    congruence.
Qed.

Lemma pc_take_uint_step c n :
  0 ≤ pc_n c < 2 ^ 63 → 0 ≤ n < 2 ^ 32 →
  ∃ r c', pc_take c n = Ok (r, c') ∧ pc_buf c' = pc_buf c ∧ 0 ≤ pc_n c' < 2 ^ 63 ∧
    (pc_err c' = false →
       pc_err c = false ∧ pc_n c' = pc_n c + n ∧ pc_n c' ≤ zlen (pc_buf c) ∧
       slice (pc_buf c) (pc_n c) (pc_n c') = Ok (default [] r)).
Proof.
  intros Hc Hn.
  destruct (pc_take_step c n) as (r & c' & E & Hb & Hc' & Hr);
    [done | unfold in_sint; lia |].
  eexists _, _. split; [done|]. split; [done|]. split; [done|]. intros He.
  destruct r as [r|]; [|congruence]. by destruct Hr as (? & ? & ? & ? & ? & ? & ?).
Qed.

(** A skipped field is the field [fieldOffsets] describes. *)
Lemma pc_skip_field_step c :
  0 ≤ pc_n c < 2 ^ 63 →
  pc_skip_field c ≠ Panic ∧
  ∀ c', pc_skip_field c = Ok c' →
    pc_buf c' = pc_buf c ∧ 0 ≤ pc_n c' < 2 ^ 63 ∧
    (pc_err c' = false → zlen (pc_buf c) < 2 ^ 31 →
       pc_err c = false ∧ pc_n c' ≤ zlen (pc_buf c) ∧
       ∃ sz, SerializedMessage.fieldOffsets (pc_buf c) (pc_n c) =
             Ok (pc_n c, pc_n c', sz)).
Proof.
  intros Hc. unfold pc_skip_field.
  destruct (pc_uint_step 4 c) as (v & c1 & -> & Hb1 & Hc1 & Hv & H1); [lia|done|].
  simpl. set (size := sint 32 v). assert (Hr : in_sint 32 size) by (apply sint_range; lia).
  unfold in_sint in Hr. change (2 ^ (32 - 1)) with (2 ^ 31) in Hr.
  assert (Hsm : ∀ z, 0 ≤ z < 2 ^ 31 → sint 32 z = z).
  { intros z Hz. apply sint_nonneg; [lia|]. change (32 - 1) with 31. lia. }
  destruct (size =? -1) eqn:E1; reflect_hyps.
  { split; [done|]. intros c' [= <-]. split; [done|]. split; [done|].
    intros He Hz. destruct (H1 He) as (? & Hn & ? & rest & R1 & R2).
    split; [done|]. split; [done|]. unfold SerializedMessage.fieldOffsets.
    rewrite R1. simpl. rewrite R2. simpl. fold size. rewrite E1. simpl.
    rewrite Hsm, Hn by lia. by eexists. }
  destruct (size <? 0) eqn:E2; reflect_hyps; [done|].
  destruct (pc_take_uint_step c1 size) as (r & c2 & -> & Hb2 & Hc2 & H2); [done|lia|].
  simpl. split; [done|]. intros c' [= <-]. split; [congruence|]. split; [done|].
  intros He Hz. destruct (H2 He) as (He1 & Hn2 & Hz2 & _).
  destruct (H1 He1) as (? & Hn & ? & rest & R1 & R2).
  split; [done|]. split; [congruence|]. unfold SerializedMessage.fieldOffsets.
  rewrite R1. simpl. rewrite R2. simpl. fold size.
  rewrite (proj2 (Z.eqb_neq _ _)) by done. rewrite Hb1 in Hz2.
  rewrite (Hsm (pc_n c + 4)), Hsm by lia. rewrite Hn2, Hn. by eexists.
Qed.

Lemma pc_headers_step k c acc :
  0 ≤ pc_n c < 2 ^ 63 →
  ∃ h c', pc_headers k c acc = Ok (h, c') ∧
    (pc_err c' = false → zlen (pc_buf c) < 2 ^ 31 →
       pc_err c = false ∧
       (pc_n c ≤ zlen (pc_buf c) →
        SerializedMessage.Headers_loop (pc_buf c) k (pc_n c) acc = Ok h)).
Proof.
  revert c acc. induction k as [|k IH]; intros c acc Hc; simpl.
  { eexists _, _. by split. }
  destruct (pc_uint_step 2 c) as (kl & c1 & -> & B1 & N1 & V1 & H1); [lia|done|]. simpl.
  destruct (pc_take_uint_step c1 kl) as (key & c2 & -> & B2 & N2 & H2); [done|lia|]. simpl.
  destruct (pc_uint_step 4 c2) as (vl & c3 & -> & B3 & N3 & V3 & H3); [lia|done|]. simpl.
  destruct (pc_take_uint_step c3 vl) as (val & c4 & -> & B4 & N4 & H4); [done|lia|]. simpl.
  destruct (pc_err c4) eqn:E4.
  { eexists _, _. split; [done|]. congruence. }
  destruct (IH c4 (<[default [] key:=default [] val]> acc) N4) as (h & c' & -> & HI).
  eexists _, _. split; [done|]. intros He Hz.
  destruct (H4 eq_refl) as (E3 & M4 & Z4 & S4). destruct (H3 E3) as (E2 & M3 & Z3 & r3 & R3 & R3').
  destruct (H2 E2) as (E1 & M2 & Z2 & S2). destruct (H1 E1) as (E0 & M1 & Z1 & r1 & R1 & R1').
  split; [done|]. intros Hn.
  assert (B : pc_buf c4 = pc_buf c) by congruence.
  rewrite B in HI. destruct (HI He Hz) as [_ HL]. rewrite B3, B2, B1 in *.
  assert (Hsm : ∀ z, 0 ≤ z < 2 ^ 31 → sint 32 z = z).
  { intros z Hz'. apply sint_nonneg; [lia|]. change (32 - 1) with 31. lia. }
  change (Z.of_nat 2) with 2 in *. change (Z.of_nat 4) with 4 in *.
  rewrite R1. simpl. rewrite R1'. simpl.
  rewrite (Hsm (pc_n c + 2)), (Hsm (pc_n c + 2 + kl)) by lia.
  rewrite <- M1, <- M2, S2. simpl. rewrite R3. simpl. rewrite R3'. simpl.
  rewrite (Hsm (pc_n c2 + 4)), (Hsm vl), (Hsm (pc_n c2 + 4 + vl)) by lia.
  rewrite <- M3, <- M4, S4. simpl. apply HL. lia.
Qed.

Lemma parse_step buf :
  parseHeadersAfterValue buf ≠ Panic ∧
  ∀ h, parseHeadersAfterValue buf = Ok h → zlen buf < 2 ^ 31 →
    SerializedMessage.Headers buf = Ok h.
Proof.
  unfold parseHeadersAfterValue. set (c0 := {| pc_n := 6 |}).
  destruct (pc_skip_field_step c0) as [P1 S1]; [simpl; lia|].
  destruct (pc_skip_field c0) as [c1| |]; simpl; [|done|done].
  destruct (S1 c1 eq_refl) as (B1 & N1 & F1).
  destruct (pc_skip_field_step c1 N1) as [P2 S2].
  destruct (pc_skip_field c1) as [c2| |]; simpl; [|done|done].
  destruct (S2 c2 eq_refl) as (B2 & N2 & F2).
  destruct (pc_uint_step 2 c2) as (nh & c3 & -> & B3 & N3 & V3 & H3); [lia|done|]. simpl.
  destruct (pc_headers_step (Z.to_nat nh) c3 ∅ N3) as (h & c4 & -> & H4). simpl.
  destruct (pc_err c4) eqn:E4; split; try done. intros h' [= <-] Hz.
  assert (B : pc_buf c3 = buf) by (rewrite B3, B2, B1; done).
  rewrite B in H4. destruct (H4 eq_refl Hz) as [E3 HL].
  destruct (H3 E3) as (E2 & M3 & Z3 & r3 & R3 & R3').
  rewrite B1 in *. rewrite B2 in *. simpl pc_buf in *.
  destruct (F2 E2 Hz) as (E1 & Z2 & sz2 & O2). destruct (F1 E1 Hz) as (E0 & Z1 & sz1 & O1).
  unfold SerializedMessage.Headers, SerializedMessage.valueOffsets,
    SerializedMessage.keyOffsets. simpl pc_n in O1. rewrite O1. simpl.
  rewrite O2. simpl. rewrite R3. simpl. rewrite R3'. simpl.
  rewrite sint_nonneg by (try change (32 - 1) with 31; lia).
  change (Z.of_nat 2) with 2 in *. rewrite <- M3. apply HL. lia.
Qed.

(** *** Reading back an encoded record *)

Lemma sint32_small z : 0 ≤ z < 2 ^ 31 → sint 32 z = z.
Proof. intros Hz. apply sint_nonneg; [lia|]. change (32 - 1) with 31. lia. Qed.

Definition field_size (x : option bytes) : Z :=
  match x with None => -1 | Some x => zlen x end.

Lemma fieldOffsets_app p x s :
  zlen (p ++ field_bytes x ++ s) < 2 ^ 31 →
  SerializedMessage.fieldOffsets (p ++ field_bytes x ++ s) (zlen p) =
    Ok (zlen p, zlen p + zlen (field_bytes x), field_size x).
Proof.
  intros Hz. rewrite !zlen_app in Hz.
  pose proof (zlen_nonneg p). pose proof (zlen_nonneg s).
  unfold SerializedMessage.fieldOffsets. rewrite slice_from_app by done. simpl.
  destruct x as [x|]; simpl in *.
  - rewrite zlen_app, BigEndian.zlen_put in Hz. pose proof (zlen_nonneg x).
    rewrite <- app_assoc, BigEndian.read_put4. simpl.
    rewrite uint_small, (sint32_small (zlen x)) by (unfold in_uint; lia).
    rewrite (proj2 (Z.eqb_neq _ _)), (sint32_small (zlen p + 4)), sint32_small by lia.
    rewrite zlen_app, BigEndian.zlen_put. do 3 f_equal. lia.
  - rewrite BigEndian.zlen_put in Hz. rewrite BigEndian.read_put4. simpl.
    change (sint 32 (uint 32 (-1))) with (-1). simpl.
    rewrite sint32_small by lia. done.
Qed.

Lemma field_app p x s :
  zlen (p ++ field_bytes x ++ s) < 2 ^ 31 →
  SerializedMessage.field (p ++ field_bytes x ++ s)
    (zlen p, zlen p + zlen (field_bytes x), field_size x) = Ok x.
Proof.
  intros Hz. rewrite !zlen_app in Hz.
  pose proof (zlen_nonneg p). pose proof (zlen_nonneg s).
  unfold SerializedMessage.field. destruct x as [x|]; simpl in *; [|done].
  rewrite zlen_app, BigEndian.zlen_put in Hz. pose proof (zlen_nonneg x).
  rewrite (proj2 (Z.eqb_neq _ _)), sint32_small by lia.
  rewrite <- app_assoc, (app_assoc p), slice_app_mid; [done| |];
    rewrite !zlen_app, BigEndian.zlen_put; lia.
Qed.

(** Inserting headers in the order they are read. *)
Definition insert_all (acc : gmap bytes bytes) (hs : headerOrder) : gmap bytes bytes :=
  foldl (λ a h, <[h.1 := default [] h.2]> a) acc hs.

Lemma Headers_loop_app p hs s acc :
  Forall (λ h, is_Some h.2 ∧ zlen h.1 < 2 ^ 15) hs →
  zlen (p ++ headers_bytes hs ++ s) < 2 ^ 31 →
  SerializedMessage.Headers_loop (p ++ headers_bytes hs ++ s) (length hs) (zlen p) acc
    = Ok (insert_all acc hs).
Proof.
  revert p acc. induction hs as [|[k v] hs IH]; intros p acc Hf Hz; [done|].
  apply Forall_cons in Hf as [[[v' Hv] Hk] Hf]. simpl in Hv, Hk. subst v.
  simpl length. cbn [SerializedMessage.Headers_loop].
  rewrite headers_bytes_cons in Hz |- *. simpl field_bytes in *.
  rewrite !zlen_app, !BigEndian.zlen_put in Hz.
  pose proof (zlen_nonneg p). pose proof (zlen_nonneg s). pose proof (zlen_nonneg k).
  pose proof (zlen_nonneg v'). pose proof (zlen_nonneg (headers_bytes hs)).
  rewrite <- !app_assoc. rewrite slice_from_app by done. simpl.
  rewrite BigEndian.read_put2. simpl. rewrite uint_small by (unfold in_uint; lia).
  rewrite (sint32_small (zlen p + 2)), (sint32_small (zlen p + 2 + zlen k)) by lia.
  rewrite (app_assoc p), slice_app_mid by
    (rewrite !zlen_app, BigEndian.zlen_put; lia). simpl.
  rewrite (app_assoc (p ++ _)), slice_from_app by
    (rewrite !zlen_app, BigEndian.zlen_put; lia). simpl.
  rewrite BigEndian.read_put4. simpl. rewrite uint_small by (unfold in_uint; lia).
  rewrite (sint32_small (zlen v')), (sint32_small (zlen p + 2 + zlen k + 4)) by lia.
  rewrite sint32_small by lia.
  rewrite (app_assoc ((p ++ _) ++ _)), slice_app_mid by
    (rewrite !zlen_app, !BigEndian.zlen_put; lia). simpl.
  rewrite (app_assoc (((p ++ _) ++ _) ++ _)).
  replace (zlen p + 2 + zlen k + 4 + zlen v') with
    (zlen ((((p ++ BigEndian.put 2 (zlen k)) ++ k) ++ BigEndian.put 4 (zlen v')) ++ v'))
    by (rewrite !zlen_app, !BigEndian.zlen_put; lia).
  apply IH; [done|]. rewrite !zlen_app, !BigEndian.zlen_put. lia.
Qed.

Lemma fmap_insert_all acc hs :
  Forall (λ h, is_Some h.2) hs →
  Some <$> insert_all acc hs =
    foldl (λ (a : gmap bytes (option bytes)) h, <[h.1 := h.2]> a) (Some <$> acc) hs.
Proof.
  revert acc. induction hs as [|[k v] hs IH]; intros acc Hf; [done|].
  apply Forall_cons in Hf as [[v' Hv] Hf]. simpl in Hv. subst v. simpl.
  change (insert_all acc ((k, Some v') :: hs)) with (insert_all (<[k:=v']> acc) hs).
  rewrite IH by done. by rewrite fmap_insert.
Qed.

Lemma foldl_insert_map (hs : headerOrder) (H : gmap bytes (option bytes)) :
  hs ≡ₚ map_to_list H →
  foldl (λ (a : gmap bytes (option bytes)) h, <[h.1 := h.2]> a) ∅ hs = H.
Proof.
  intros Hp.
  assert (E : ∀ l (a : gmap bytes (option bytes)),
    foldl (λ a h, <[h.1 := h.2]> a) a l = list_to_map (reverse l) ∪ a).
  { induction l as [|[k v] l IH]; intros a; cbn [foldl].
    - rewrite reverse_nil. simpl. by rewrite (left_id_L ∅ (∪)).
    - rewrite IH, reverse_cons, list_to_map_app. simpl.
      rewrite <- (assoc_L (∪)). f_equal. by rewrite insert_empty, insert_union_singleton_l. }
  rewrite E, (right_id_L ∅ (∪)).
  rewrite <- (list_to_map_to_list H). apply list_to_map_proper.
  - rewrite fmap_reverse, reverse_Permutation, Hp. apply NoDup_fst_map_to_list.
  - by rewrite reverse_Permutation.
Qed.

Lemma length_order (hs : headerOrder) (H : gmap bytes (option bytes)) :
  hs ≡ₚ map_to_list H → length hs = size H.
Proof. intros ->. apply length_map_to_list. Qed.

(** What a record must satisfy to be read back: in-range flags, header values
    present, fewer than 2^16 headers, and less than 2 GiB. *)
Definition readable (m : Message) (hs : headerOrder) : Prop :=
  hs ≡ₚ map_to_list (Headers m) ∧
  in_sint 8 (MagicByte m) ∧ in_sint 8 (Attributes m) ∧
  encodable m hs = true ∧
  Forall (λ h, is_Some h.2) hs ∧
  Z.of_nat (size (Headers m)) < 2 ^ 16 ∧
  zlen (record_bytes m hs) < 2 ^ 31.

Lemma int8_app p v s :
  in_sint 8 v → 
  (x ← index (p ++ BigEndian.put 1 v ++ s) (zlen p); Ok (sint 8 (byte.unsigned x))) = Ok v.
Proof.
  intros Hv. pose proof (BigEndian.length_put 1 v) as Hl.
  pose proof (BigEndian.get_put 1 v) as Hg.
  destruct (BigEndian.put 1 v) as [|x [|]]; try done. simpl app.
  rewrite index_app_mid by done. simpl. rewrite BigEndian.get_cons in Hg.
  rewrite <- (sint_uint 8 v) by (done || lia). do 2 f_equal.
  unfold uint. change (8 * Z.of_nat 1) with 8 in Hg. rewrite <- Hg.
  change (BigEndian.get []) with 0. change (2 ^ (8 * zlen [])) with 1. lia.
Qed.

Lemma crcMatches_record body :
  SerializedMessage.crcMatches
    (BigEndian.put 4 (Crc32.Checksum Crc32.Castagnoli body) ++ body) = Ok true.
Proof.
  unfold SerializedMessage.crcMatches, SerializedMessage.Crc.
  rewrite (proj2 (Z.ltb_ge _ _)) by
    (rewrite zlen_app, BigEndian.zlen_put; pose proof (zlen_nonneg body); lia).
  rewrite BigEndian.read_put4. simpl.
  rewrite slice_from_app by (by rewrite BigEndian.zlen_put). simpl.
  rewrite uint_small by auto with commitlog. by rewrite Z.eqb_refl.
Qed.

Lemma record_flags m hs :
  readable m hs →
  SerializedMessage.MagicByte (record_bytes m hs) = Ok (MagicByte m) ∧
  SerializedMessage.Attributes (record_bytes m hs) = Ok (Attributes m).
Proof.
  intros (_ & Hm & Ha & _). unfold record_bytes, record_body.
  set (c := BigEndian.put 4 _). assert (Hc : zlen c = 4) by apply BigEndian.zlen_put.
  split.
  - unfold SerializedMessage.MagicByte. rewrite <- Hc at 1. by apply int8_app.
  - unfold SerializedMessage.Attributes. rewrite app_assoc.
    replace 5 with (zlen (c ++ BigEndian.put 1 (MagicByte m))) by
      (rewrite zlen_app, BigEndian.zlen_put; lia).
    by apply int8_app.
Qed.

Lemma record_fields m hs :
  readable m hs →
  ∃ p s, zlen p = 6 ∧
    record_bytes m hs = p ++ field_bytes (Key m) ++ field_bytes (Value m) ++
      BigEndian.put 2 (Z.of_nat (size (Headers m))) ++ headers_bytes hs ++ s ∧ s = [].
Proof.
  intros _. unfold record_bytes, record_body.
  exists (BigEndian.put 4 (Crc32.Checksum Crc32.Castagnoli (record_body m hs)) ++
     BigEndian.put 1 (MagicByte m) ++ BigEndian.put 1 (Attributes m)), [].
  split_and!; [|by rewrite app_nil_r, <- !app_assoc|done].
  by rewrite !zlen_app, !BigEndian.zlen_put.
Qed.

Lemma record_keyOffsets m hs :
  readable m hs →
  SerializedMessage.keyOffsets (record_bytes m hs) =
    Ok (6, 6 + zlen (field_bytes (Key m)), field_size (Key m)) ∧
  SerializedMessage.valueOffsets (record_bytes m hs) =
    Ok (6 + zlen (field_bytes (Key m)),
        6 + zlen (field_bytes (Key m)) + zlen (field_bytes (Value m)),
        field_size (Value m)).
Proof.
  intros R. pose proof R as (_ & _ & _ & _ & _ & _ & Hz).
  destruct (record_fields m hs R) as (p & s & Hp & E & ->). rewrite E in *.
  unfold SerializedMessage.valueOffsets, SerializedMessage.keyOffsets.
  rewrite <- Hp. rewrite fieldOffsets_app by done. split; [done|]. simpl.
  rewrite <- zlen_app, app_assoc in *. by rewrite fieldOffsets_app.
Qed.

Lemma record_key_value m hs :
  readable m hs →
  SerializedMessage.Key (record_bytes m hs) = Ok (Key m) ∧
  SerializedMessage.Value (record_bytes m hs) = Ok (Value m).
Proof.
  intros R. pose proof R as (_ & _ & _ & _ & _ & _ & Hz).
  unfold SerializedMessage.Key, SerializedMessage.Value.
  destruct (record_keyOffsets m hs R) as [-> ->]. simpl.
  destruct (record_fields m hs R) as (p & s & Hp & E & ->). rewrite E in *.
  rewrite <- Hp. split; [by apply field_app|].
  rewrite <- zlen_app, app_assoc in *. by apply field_app.
Qed.

Lemma headers_short m hs :
  readable m hs → Forall (λ h, is_Some h.2 ∧ zlen h.1 < 2 ^ 15) hs.
Proof.
  intros (_ & _ & _ & He & Hs & _). unfold encodable in He. apply andb_prop in He as [_ He].
  rewrite forallb_forall in He. rewrite Forall_forall in *. intros [k v] Hin.
  split; [by apply Hs|]. apply list_elem_of_In, He in Hin.
  unfold header_fits in Hin. reflect_hyps. unfold MaxInt16 in *. simpl in *. lia.
Qed.

Lemma record_headers m hs :
  readable m hs →
  ∃ h, SerializedMessage.Headers (record_bytes m hs) = Ok h ∧ Some <$> h = Headers m.
Proof.
  intros R. pose proof R as (Hp & _ & _ & He & Hs & Hn & Hz).
  exists (insert_all ∅ hs). split.
  2: { rewrite fmap_insert_all, fmap_empty by done. by apply foldl_insert_map. }
  unfold SerializedMessage.Headers. destruct (record_keyOffsets m hs R) as [_ ->]. simpl.
  destruct (record_fields m hs R) as (p & s & Hq & E & ->). rewrite E in *.
  rewrite !zlen_app, BigEndian.zlen_put in Hz.
  pose proof (zlen_nonneg (field_bytes (Key m))).
  pose proof (zlen_nonneg (field_bytes (Value m))).
  pose proof (zlen_nonneg (headers_bytes hs)).
  rewrite app_assoc, app_assoc.
  rewrite slice_from_app by (rewrite !zlen_app; lia). simpl.
  rewrite BigEndian.read_put2. simpl. rewrite uint_small by (unfold in_uint; lia).
  rewrite Nat2Z.id, <- (length_order hs) by done.
  rewrite sint32_small by (rewrite zlen_nil in Hz; lia).
  set (q := (p ++ _) ++ _). rewrite app_assoc.
  replace (6 + _ + _ + 2) with (zlen (q ++ BigEndian.put 2 (Z.of_nat (length hs)))).
  2: { unfold q. rewrite !zlen_app, BigEndian.zlen_put. lia. }
  apply Headers_loop_app.
  - by apply (headers_short m).
  - unfold q. rewrite !zlen_app, BigEndian.zlen_put. rewrite zlen_nil in *. lia.
Qed.

(** *** Frame headers *)

Lemma field_at_app p n v s pos :
  pos = zlen p →
  messageSet.field_at (p ++ BigEndian.put n v ++ s) pos n =
    Ok (v mod 2 ^ (8 * Z.of_nat n)).
Proof.
  intros ->.
  unfold messageSet.field_at. rewrite slice_app_mid by (rewrite ?BigEndian.zlen_put; done).
  simpl. rewrite <- (app_nil_r (BigEndian.put n v)). by rewrite BigEndian.read_put.
Qed.

Lemma field_at_hd n v s :
  messageSet.field_at (BigEndian.put n v ++ s) 0 n = Ok (v mod 2 ^ (8 * Z.of_nat n)).
Proof. by apply (field_at_app [] n v s 0). Qed.

Lemma zlen_frame_header o t e s : zlen (frame_header o t e s) = 32.
Proof. unfold frame_header. by rewrite !zlen_app, !BigEndian.zlen_put. Qed.

Lemma frame_header_fields o t e s rest :
  in_sint 64 o → in_sint 64 t → in_uint 64 e → in_sint 32 s →
  let ms := frame_header o t e s ++ rest in
  messageSet.Offset ms = Ok o ∧ messageSet.Timestamp ms = Ok t ∧
  messageSet.LeaderEpoch ms = Ok e ∧ messageSet.Size ms = Ok s.
Proof.
  intros Ho Ht He Hs. cbv zeta. unfold frame_header.
  set (c := BigEndian.put 4 (Crc32.Checksum _ _)). rewrite <- !app_assoc.
  unfold messageSet.Offset, messageSet.Timestamp, messageSet.LeaderEpoch, messageSet.Size.
  split_and!.
  - rewrite field_at_hd. simpl.
    f_equal. by apply (sint_uint_uint 64).
  - rewrite (field_at_app _ 8 (uint 64 t)) by (by rewrite BigEndian.zlen_put). simpl.
    f_equal. by apply (sint_uint_uint 64).
  - rewrite app_assoc, (field_at_app _ 8 e) by
      (by rewrite zlen_app, !BigEndian.zlen_put).
    f_equal. by apply Z.mod_small.
  - rewrite app_assoc, app_assoc, (field_at_app _ 4 (uint 32 s)) by
      (by rewrite !zlen_app, !BigEndian.zlen_put).
    simpl. f_equal. by apply (sint_uint_uint 32).
Qed.

Lemma frame_header_crc o t e s rest :
  headerCrc (frame_header o t e s ++ rest) = storedHeaderCrc (frame_header o t e s ++ rest).
Proof.
  unfold headerCrc, storedHeaderCrc, frame_header. set (h := BigEndian.put 8 _ ++ _).
  assert (Hh : zlen h = 28) by (unfold h; by rewrite !zlen_app, !BigEndian.zlen_put).
  rewrite <- app_assoc. rewrite slice_from_app by done. simpl.
  rewrite BigEndian.read_put4, uint_small by auto with commitlog.
  by rewrite slice_to_app.
Qed.

(** *** Message sets *)

(** The record an [encode] that returned produced. *)
Lemma encode_inv m hs1 hs2 data :
  hs1 ≡ₚ hs2 → encode m hs1 hs2 = Ok data →
  encodable m hs2 = true ∧ data = record_bytes m hs2.
Proof.
  intros Hp H. destruct (encodable m hs2) eqn:E.
  - rewrite encode_ok in H by done. by injection H as <-.
  - unfold encode in H. destruct (len_pass_fail m hs1) as [err Ef].
    { by rewrite (encodable_perm _ _ _ Hp). }
    rewrite Ef in H. discriminate.
Qed.

Lemma record_bytes_pos m hs : 16 ≤ zlen (record_bytes m hs).
Proof.
  assert (F : ∀ x, 4 ≤ zlen (field_bytes x)).
  { intros [x|]; simpl; rewrite ?zlen_app, BigEndian.zlen_put; [|lia].
    pose proof (zlen_nonneg x). lia. }
  unfold record_bytes, record_body. rewrite !zlen_app, !BigEndian.zlen_put.
  pose proof (F (Key m)). pose proof (F (Value m)).
  pose proof (zlen_nonneg (headers_bytes hs)). lia.
Qed.

Definition frame_entry (o t e pos : Z) (data : bytes) : entry :=
  {| e_Offset := o; e_Timestamp := t; e_LeaderEpoch := e; e_Position := pos;
     e_Size := zlen data + msgSetHeaderLen |}.

Lemma entries_loop_frame fuel basePos n o t e data rest acc :
  in_sint 64 o → in_sint 64 t → in_uint 64 e → zlen data + 32 < 2 ^ 31 →
  entries_loop (S fuel) basePos n (frame_header o t e (zlen data) ++ data ++ rest) acc =
  entries_loop fuel basePos (n + 32 + zlen data) rest
    (acc ++ [frame_entry o t e (basePos + n) data]).
Proof.
  intros Ho Ht He Hz. pose proof (zlen_nonneg data). pose proof (zlen_nonneg rest).
  assert (Hs : in_sint 32 (zlen data)).
  { unfold in_sint. change (32 - 1) with 31. lia. }
  destruct (frame_header_fields o t e (zlen data) (data ++ rest)) as (E1 & E2 & E3 & E4);
    try done.
  cbn [entries_loop]. rewrite !zlen_app, zlen_frame_header. unfold msgSetHeaderLen.
  rewrite (proj2 (Z.ltb_ge _ _)) by lia. rewrite E1, E2, E3, E4. cbn [mbind outcome_bind].
  rewrite (proj2 (Z.ltb_ge _ 0)), (proj2 (Z.ltb_ge _ _)) by lia. cbn [orb].
  rewrite !sint32_small by lia. rewrite app_assoc, slice_from_app.
  2: { rewrite zlen_app, zlen_frame_header. done. }
  done.
Qed.

(** A batch as the appender passes it: header orders are orders of the map,
    and the framing fields fit their types. *)
Definition batch_ok (msgs : list (Message * headerOrder * headerOrder)) : Prop :=
  Forall (λ '(m, hs1, hs2), hs1 ≡ₚ map_to_list (Headers m) ∧
    hs2 ≡ₚ map_to_list (Headers m) ∧
    in_sint 64 (Timestamp m) ∧ in_uint 64 (LeaderEpoch m)) msgs.

(** Entries that lie end to end from [pos], with consecutive offsets from [o]. *)
Fixpoint tiled (o pos : Z) (es : list entry) : Prop :=
  match es with
  | [] => True
  | e :: es => e_Offset e = sint 64 o ∧ e_Position e = pos ∧ tiled (o + 1) (pos + e_Size e) es
  end.

Definition total_size (es : list entry) : Z := foldr (λ e z, e_Size e + z) 0 es.

Lemma messageSet_loop_spec baseOffset basePos i buf msgs es ms es' :
  batch_ok msgs → messageSet_loop baseOffset basePos i buf msgs es = Ok (ms, es') →
  zlen ms < 2 ^ 31 →
  ∃ tail new, ms = buf ++ tail ∧ es' = es ++ new ∧ length new = length msgs ∧
    (msgs ≠ [] → 32 < zlen tail) ∧
    total_size new = zlen tail ∧ tiled (i + baseOffset) (basePos + zlen buf) new ∧
    ∀ fuel acc, (length tail ≤ fuel)%nat →
      entries_loop fuel basePos (zlen buf) tail acc = Ok (acc ++ new).
Proof.
  revert i buf es. induction msgs as [|[[m hs1] hs2] msgs IH]; intros i buf es Hb H Hz.
  - simpl in H. injection H as <- <-. exists [], []. rewrite !app_nil_r.
    split_and!; try done. intros [|f] acc _; simpl; by rewrite ?app_nil_r.
  - apply Forall_cons in Hb as [(P1 & P2 & Ht & He) Hb]. cbn [messageSet_loop] in H.
    apply bind_Ok_inv in H as (data & Ed & H).
    apply encode_inv in Ed as [_ Ed]; [|by rewrite P1, P2].
    pose proof (record_bytes_pos m hs2) as Hpos. rewrite <- Ed in Hpos.
    set (o := sint 64 (i + baseOffset)) in *.
    assert (Ho : in_sint 64 o) by (apply sint_range; lia).
    assert (Hd : zlen data + 32 < 2 ^ 31 ∧ zlen buf + zlen data + 32 < 2 ^ 31).
    { apply IH in H as (tail & new & -> & _); [|done|done].
      rewrite !zlen_app, zlen_frame_header in Hz.
      pose proof (zlen_nonneg tail). pose proof (zlen_nonneg buf). lia. }
    rewrite (sint32_small (zlen data)) in H by (unfold zlen in *; lia).
    rewrite sint32_small in H by (unfold msgSetHeaderLen; lia).
    apply IH in H as (tail & new & -> & -> & Hl & _ & Hs & Ht' & Hloop); [|done|done].
    set (hdr := frame_header o (Timestamp m) (LeaderEpoch m) (zlen data)) in *.
    exists (hdr ++ data ++ tail), (frame_entry o (Timestamp m) (LeaderEpoch m)
      (basePos + zlen buf) data :: new).
    assert (Hh : zlen hdr = 32) by apply zlen_frame_header.
    pose proof (zlen_nonneg tail).
    rewrite <- !app_assoc. split_and!; try done.
    + simpl. by rewrite Hl.
    + intros _. rewrite !zlen_app. lia.
    + simpl. rewrite Hs, !zlen_app. unfold msgSetHeaderLen. lia.
    + simpl. split; [done|]. split; [done|].
      replace (basePos + zlen buf + _) with (basePos + zlen (buf ++ hdr ++ data));
        [|rewrite !zlen_app; unfold msgSetHeaderLen; lia].
      by replace (i + baseOffset + 1) with (i + 1 + baseOffset) by lia.
    + intros fuel acc Hf. rewrite !length_app in Hf.
      assert (length hdr = 32%nat) by (unfold zlen in Hh; lia).
      destruct fuel as [|fuel]; [lia|]. unfold hdr.
      rewrite entries_loop_frame by (done || lia).
      specialize (Hloop fuel (acc ++ [frame_entry o (Timestamp m) (LeaderEpoch m)
        (basePos + zlen buf) data])).
      rewrite !zlen_app, Hh, Z.add_assoc in Hloop. rewrite Hloop by lia.
      by rewrite <- app_assoc.
Qed.

Lemma entries_loop_safe fuel basePos n ms acc :
  zlen ms < 2 ^ 31 → entries_loop fuel basePos n ms acc ≠ Panic.
Proof.
  revert n ms acc. induction fuel as [|fuel IH]; intros n ms acc Hz; simpl; [done|].
  destruct (zlen ms <? msgSetHeaderLen) eqn:E; [done|]. reflect_hyps.
  unfold msgSetHeaderLen in *.
  assert (F : ∀ pos w, 0 ≤ pos → pos + Z.of_nat w ≤ 32 →
    ∃ v, messageSet.field_at ms pos w = Ok v).
  { intros pos w H1 H2. unfold messageSet.field_at. rewrite slice_ok by lia. simpl.
    set (r := take _ _).
    assert (Hr : length r = w).
    { unfold r. rewrite length_take, length_drop. unfold zlen in *. lia. }
    rewrite <- (app_nil_r r), BigEndian.read_app by done. by eexists. }
  unfold messageSet.Offset, messageSet.Timestamp, messageSet.LeaderEpoch, messageSet.Size.
  destruct (F offsetPos 8%nat) as [v1 ->]; [done..|].
  destruct (F timestampPos 8%nat) as [v2 ->]; [done..|].
  destruct (F leaderEpochPos 8%nat) as [v3 ->]; [done..|].
  destruct (F sizePos 4%nat) as [v4 ->]; [done..|]. simpl.
  destruct (_ || _) eqn:E2; [done|]. reflect_hyps.
  rewrite (sint32_small (32 + sint 32 v4)) by lia.
  apply bind_not_Panic; [apply slice_not_Panic; lia|].
  intros rest Hr. apply IH. unfold slice_from in Hr.
  apply slice_Ok_inv in Hr as (? & ? & ? & Hl). lia.
Qed.

(** *** The checked walk on an encoded record *)

Definition pc_at (buf : bytes) (n : Z) : payloadCursor :=
  {| pc_buf := buf; pc_n := n; pc_err := false |}.

Lemma pc_take_app p x s q n :
  q = zlen p → n = zlen x → zlen (p ++ x ++ s) < 2 ^ 31 →
  pc_take (pc_at (p ++ x ++ s) q) n = Ok (Some x, pc_at (p ++ x ++ s) (q + n)).
Proof.
  intros -> -> Hz. pose proof Hz as Hz'. rewrite !zlen_app in Hz'.
  pose proof (zlen_nonneg p). pose proof (zlen_nonneg x). pose proof (zlen_nonneg s).
  unfold pc_take. simpl. rewrite sint_nonneg by (try change (64 - 1) with 63; lia).
  rewrite !(proj2 (Z.ltb_ge _ _)) by (rewrite ?zlen_app; lia). simpl.
  by rewrite slice_app_mid.
Qed.

Lemma pc_uint_app w p v s q :
  q = zlen p → 0 ≤ v < 2 ^ (8 * Z.of_nat w) → zlen (p ++ BigEndian.put w v ++ s) < 2 ^ 31 →
  pc_uint w (pc_at (p ++ BigEndian.put w v ++ s) q) =
    Ok (v, pc_at (p ++ BigEndian.put w v ++ s) (q + Z.of_nat w)).
Proof.
  intros Hq Hv Hz. unfold pc_uint.
  rewrite pc_take_app by (rewrite ?BigEndian.zlen_put; done). simpl.
  rewrite <- (app_nil_r (BigEndian.put w v)) at 1. rewrite BigEndian.read_put. simpl.
  by rewrite Z.mod_small.
Qed.

Lemma pc_skip_field_app p x s q :
  q = zlen p → zlen (p ++ field_bytes x ++ s) < 2 ^ 31 →
  pc_skip_field (pc_at (p ++ field_bytes x ++ s) q) =
    Ok (pc_at (p ++ field_bytes x ++ s) (q + zlen (field_bytes x))).
Proof.
  intros Hq Hz. unfold pc_skip_field. destruct x as [x|]; simpl field_bytes in *.
  - rewrite <- app_assoc in *. pose proof Hz as Hz'. rewrite !zlen_app in Hz'.
    pose proof (zlen_nonneg p). pose proof (zlen_nonneg x). pose proof (zlen_nonneg s).
    rewrite BigEndian.zlen_put in Hz'.
    rewrite pc_uint_app by side. simpl.
    rewrite sint32_small by lia.
    rewrite (proj2 (Z.eqb_neq _ _)), (proj2 (Z.ltb_ge _ _)) by lia.
    rewrite app_assoc in Hz |- *.
    rewrite pc_take_app by side. simpl.
    do 2 f_equal. rewrite zlen_app, BigEndian.zlen_put. lia.
  - rewrite BigEndian.put_mod in *. change (-1 mod 2 ^ (8 * Z.of_nat 4)) with (2 ^ 32 - 1) in *.
    rewrite pc_uint_app by side. simpl.
    change (sint 32 (2 ^ 32 - 1)) with (-1). simpl. by rewrite BigEndian.zlen_put.
Qed.

Lemma pc_headers_app p hs s acc q :
  q = zlen p → Forall (λ h, is_Some h.2 ∧ zlen h.1 < 2 ^ 15) hs →
  zlen (p ++ headers_bytes hs ++ s) < 2 ^ 31 →
  pc_headers (length hs) (pc_at (p ++ headers_bytes hs ++ s) q) acc =
    Ok (insert_all acc hs, pc_at (p ++ headers_bytes hs ++ s) (q + zlen (headers_bytes hs))).
Proof.
  revert p acc q. induction hs as [|[k v] hs IH]; intros p acc q -> Hf Hz.
  { simpl. change (headers_bytes []) with (@nil byte). by rewrite zlen_nil, Z.add_0_r. }
  apply Forall_cons in Hf as [[[v' Hv] Hk] Hf]. simpl in Hv, Hk. subst v.
  rewrite headers_bytes_cons in Hz |- *. simpl field_bytes in *.
  rewrite <- !app_assoc in *. pose proof Hz as Hz'.
  rewrite !zlen_app, !BigEndian.zlen_put in Hz'.
  pose proof (zlen_nonneg p). pose proof (zlen_nonneg s). pose proof (zlen_nonneg k).
  pose proof (zlen_nonneg v'). pose proof (zlen_nonneg (headers_bytes hs)).
  cbn [length pc_headers].
  rewrite pc_uint_app by side. simpl.
  rewrite (app_assoc p) in Hz |- *.
  rewrite pc_take_app by side. simpl.
  rewrite (app_assoc (p ++ _)) in Hz |- *.
  rewrite pc_uint_app by side. simpl.
  rewrite (app_assoc ((p ++ _) ++ _)) in Hz |- *.
  rewrite pc_take_app by side. simpl.
  rewrite (app_assoc (((p ++ _) ++ _) ++ _)) in Hz |- *.
  rewrite IH by side.
  do 3 f_equal. rewrite !zlen_app, !BigEndian.zlen_put. lia.
Qed.

Lemma parse_record m hs :
  readable m hs → parseHeadersAfterValue (record_bytes m hs) = Ok (insert_all ∅ hs).
Proof.
  intros R. pose proof R as (Hp & _ & _ & _ & _ & Hn & Hz).
  destruct (record_fields m hs R) as (p & s & Hq & E & _). rewrite E in *.
  unfold parseHeadersAfterValue. fold (pc_at (p ++ field_bytes (Key m) ++
    field_bytes (Value m) ++ BigEndian.put 2 (Z.of_nat (size (Headers m))) ++
    headers_bytes hs ++ s) 6).
  rewrite pc_skip_field_app by done. simpl.
  rewrite (app_assoc p) in Hz |- *.
  rewrite pc_skip_field_app by side. simpl.
  rewrite (app_assoc (p ++ _)) in Hz |- *.
  rewrite pc_uint_app by side. simpl.
  rewrite Nat2Z.id, <- (length_order hs) in * by done.
  rewrite (app_assoc ((p ++ _) ++ _)) in Hz |- *.
  rewrite pc_headers_app by (eauto using headers_short || side).
  done.
Qed.

(** *** Corruption *)

Abbreviation seals := (Crc32.seals Crc32.Castagnoli).

Lemma headerCrc_split (body c : bytes) :
  zlen body = 28 → length c = 4%nat →
  headerCrc (body ++ c) = storedHeaderCrc (body ++ c) ↔ seals c body.
Proof.
  intros Hb Hc. unfold headerCrc, storedHeaderCrc, Crc32.seals.
  rewrite slice_to_app, slice_from_app by done. simpl.
  rewrite <- (app_nil_r c) at 1. rewrite BigEndian.read_app by done.
  split; [by intros [= ->] | by intros ->].
Qed.

Lemma crcMatches_split (c body : bytes) :
  length c = 4%nat →
  ∃ v, SerializedMessage.crcMatches (c ++ body) = Ok v ∧ (v = true ↔ seals c body).
Proof.
  intros Hc. assert (Hz : zlen c = 4) by (unfold zlen; lia).
  unfold SerializedMessage.crcMatches, SerializedMessage.Crc.
  rewrite (proj2 (Z.ltb_ge _ _)) by (rewrite zlen_app; pose proof (zlen_nonneg body); lia).
  rewrite BigEndian.read_app by done. simpl. rewrite slice_from_app by done. simpl.
  eexists. split; [done|]. unfold Crc32.seals. rewrite Z.eqb_eq. split; congruence.
Qed.

(** *** A record with one nil header value *)

(** Everything of such a record up to its only header. *)
Definition nil_header_record (p : bytes) (m : Message) (k : bytes) : bytes :=
  p ++ field_bytes (Key m) ++ field_bytes (Value m) ++ BigEndian.put 2 1 ++
  BigEndian.put 2 (zlen k) ++ k ++ BigEndian.put 4 (2 ^ 32 - 1) ++ [].

Lemma nil_record_shape m k :
  Headers m = {[k := None]} →
  ∃ p, zlen p = 6 ∧ record_bytes m [(k, None)] = nil_header_record p m k.
Proof.
  intros Hh.
  assert (Eb : record_body m [(k, None)] = BigEndian.put 1 (MagicByte m) ++
    nil_header_record (BigEndian.put 1 (Attributes m)) m k).
  { unfold record_body, nil_header_record. rewrite Hh, map_size_singleton.
    rewrite headers_bytes_cons. simpl. by rewrite (BigEndian.put_mod 4 (-1)). }
  exists (BigEndian.put 4 (Crc32.Checksum Crc32.Castagnoli (record_body m [(k, None)])) ++
     BigEndian.put 1 (MagicByte m) ++ BigEndian.put 1 (Attributes m)).
  split; [by rewrite !zlen_app, !BigEndian.zlen_put|].
  unfold record_bytes. rewrite Eb at 2. unfold nil_header_record. by rewrite <- !app_assoc.
Qed.

Lemma nil_record_Headers p m k :
  zlen p = 6 → zlen k ≤ MaxInt16 → zlen (nil_header_record p m k) < 2 ^ 31 →
  SerializedMessage.Headers (nil_header_record p m k) = Panic.
Proof.
  intros Hp Hk Hz. unfold nil_header_record in *. assert (0 ≤ zlen k) by apply zlen_nonneg.
  pose proof (zlen_nonneg (field_bytes (Key m))) as Z1.
  pose proof (zlen_nonneg (field_bytes (Value m))) as Z2. unfold MaxInt16 in Hk.
  pose proof Hz as Hz'. autorewrite with zlen in Hz'.
  unfold SerializedMessage.Headers, SerializedMessage.valueOffsets,
    SerializedMessage.keyOffsets.
  rewrite <- Hp, fieldOffsets_app by done. cbn [mbind outcome_bind].
  rewrite (app_assoc p), <- zlen_app in *.
  rewrite fieldOffsets_app by done. cbn [mbind outcome_bind].
  rewrite app_assoc, <- zlen_app in *. set (q := (p ++ _) ++ _) in *.
  assert (Hq : zlen q = zlen p + zlen (field_bytes (Key m)) + zlen (field_bytes (Value m)))
    by (unfold q; by rewrite !zlen_app).
  rewrite slice_from_app by done. cbn [mbind outcome_bind]. rewrite BigEndian.read_put2. cbn [mbind outcome_bind].
  change (Z.to_nat (uint 16 1)) with 1%nat. cbn [SerializedMessage.Headers_loop].
  rewrite (sint32_small (zlen q + 2)) by lia. rewrite (app_assoc q).
  rewrite slice_from_app by (autorewrite with zlen; lia). cbn [mbind outcome_bind].
  rewrite BigEndian.read_put2. cbn [mbind outcome_bind]. rewrite uint_small by (unfold in_uint; lia).
  rewrite (sint32_small (zlen q + 2 + 2)) by lia.
  rewrite (sint32_small (zlen q + 2 + 2 + zlen k)) by lia. rewrite (app_assoc (q ++ _)).
  rewrite slice_app_mid by (autorewrite with zlen; lia). cbn [mbind outcome_bind].
  rewrite (app_assoc ((q ++ _) ++ _)).
  rewrite slice_from_app by (autorewrite with zlen; lia). cbn [mbind outcome_bind].
  rewrite BigEndian.read_put4. cbn [mbind outcome_bind].
  change (sint 32 (uint 32 (2 ^ 32 - 1))) with (-1).
  rewrite (sint32_small (zlen q + 2 + 2 + zlen k + 4)) by lia.
  rewrite sint32_small by lia. unfold slice.
  rewrite (proj2 (Z.leb_gt (_ + 4) (_ + -1))) by lia. by rewrite andb_false_r.
Qed.

Lemma nil_record_parse p m k :
  zlen p = 6 → zlen k ≤ MaxInt16 → zlen (nil_header_record p m k) < 2 ^ 31 →
  ∃ e, parseHeadersAfterValue (nil_header_record p m k) = Fail e.
Proof.
  intros Hp Hk Hz. unfold nil_header_record in *. assert (0 ≤ zlen k) by apply zlen_nonneg.
  unfold MaxInt16 in Hk. pose proof Hz as Hz'. autorewrite with zlen in Hz'.
  pose proof (zlen_nonneg (field_bytes (Key m))) as Z1.
  pose proof (zlen_nonneg (field_bytes (Value m))) as Z2.
  unfold parseHeadersAfterValue. fold (pc_at (p ++ field_bytes (Key m) ++
    field_bytes (Value m) ++ BigEndian.put 2 1 ++ BigEndian.put 2 (zlen k) ++ k ++
    BigEndian.put 4 (2 ^ 32 - 1) ++ []) 6).
  rewrite pc_skip_field_app by done. simpl. rewrite (app_assoc p) in Hz |- *.
  rewrite pc_skip_field_app by side. simpl. rewrite (app_assoc (p ++ _)) in Hz |- *.
  rewrite pc_uint_app by side. simpl. change (Z.to_nat 1) with 1%nat.
  rewrite (app_assoc ((p ++ _) ++ _)) in Hz |- *. cbn [pc_headers].
  rewrite pc_uint_app by side. simpl.
  rewrite (app_assoc (((p ++ _) ++ _) ++ _)) in Hz |- *.
  rewrite pc_take_app by side. simpl.
  rewrite (app_assoc ((((p ++ _) ++ _) ++ _) ++ _)) in Hz |- *.
  rewrite pc_uint_app by side. simpl. unfold pc_take. simpl.
  rewrite sint_nonneg by (try change (64 - 1) with 63; lia).
  rewrite (proj2 (Z.ltb_lt (zlen _) _)) by (autorewrite with zlen; lia).
  rewrite orb_true_r. simpl. by eexists.
Qed.

(** ** Theorems *)

(** [encode] sizes a message in one pass and fills the buffer in another,
    and Go may visit the header map in a different order each time.  Whatever
    the two orders are, a message whose fields fit the format is encoded as
    the reference serialization in the second pass' order, with no byte left
    over and no out-of-range write; any other message is refused with an
    error.  It never panics. *)
Theorem encode_correct m hs1 hs2
    (H1 : hs1 ≡ₚ map_to_list (Headers m)) (H2 : hs2 ≡ₚ map_to_list (Headers m)) :
  if encodable m hs2 then encode m hs1 hs2 = Ok (record_bytes m hs2)
  else ∃ e, encode m hs1 hs2 = Fail e.
Proof.
  assert (Hp : hs1 ≡ₚ hs2) by (by rewrite H1, H2).
  destruct (encodable m hs2) eqn:E; [by apply encode_ok|].
  rewrite <- (encodable_perm m hs1 hs2) in E by done.
  destruct (len_pass_fail m hs1 E) as [err F]. exists err. unfold encode. by rewrite F.
Qed.

(** The record reads as the message, header values present. *)
Definition reads_as (m : Message) (data : bytes) : Prop :=
  SerializedMessage.crcMatches data = Ok true ∧
  SerializedMessage.MagicByte data = Ok (MagicByte m) ∧ SerializedMessage.Attributes data = Ok (Attributes m) ∧
  SerializedMessage.Key data = Ok (Key m) ∧ SerializedMessage.Value data = Ok (Value m) ∧
  ∃ h, SerializedMessage.Headers data = Ok h ∧ Some <$> h = Headers m.

Lemma record_reads_as m hs : readable m hs → reads_as m (record_bytes m hs).
Proof.
  intros Hr. destruct (record_flags m hs Hr), (record_key_value m hs Hr). unfold reads_as.
  split_and!; try done; [apply crcMatches_record|by apply record_headers].
Qed.

Lemma readable_perm m hs hs' : hs ≡ₚ hs' → readable m hs → readable m hs'.
Proof.
  intros Hp (H1 & H2 & H3 & H4 & H5 & H6 & H7). unfold readable, zlen in *.
  rewrite <- (encodable_perm m hs hs' Hp), <- (record_bytes_perm m hs hs' Hp), <- Hp. done.
Qed.

(** C35: Encoding a message and reading the record back with the
    [SerializedMessage] accessors gives the message: flags, key, value (absent
    and empty kept apart), the whole header map, and a matching checksum; the
    checked metadata parse returns the same header map. *)
Theorem record_roundtrip m hs1 hs2
    (H1 : hs1 ≡ₚ map_to_list (Headers m)) (H2 : readable m hs2) :
  ∃ data h, encode m hs1 hs2 = Ok data ∧
    SerializedMessage.crcMatches data = Ok true ∧
    SerializedMessage.MagicByte data = Ok (MagicByte m) ∧
    SerializedMessage.Attributes data = Ok (Attributes m) ∧
    SerializedMessage.Key data = Ok (Key m) ∧
    SerializedMessage.Value data = Ok (Value m) ∧
    SerializedMessage.Headers data = Ok h ∧
    parseHeadersAfterValue data = Ok h ∧ Some <$> h = Headers m.
Proof.
  pose proof H2 as (Hp & _ & _ & He & _ & _ & Hz).
  destruct (record_flags m hs2 H2), (record_key_value m hs2 H2).
  destruct (record_headers m hs2 H2) as (h & Hh & Hm).
  exists (record_bytes m hs2), h. split_and!; try done.
  - apply encode_ok; [by rewrite H1, Hp|done].
  - apply crcMatches_record.
  - pose proof (parse_record m hs2 H2) as P. rewrite P.
    apply parse_step in P; [|done]. congruence.
Qed.

(** [parseHeadersAfterValue] runs on bytes no checksum has vouched for.
    On any byte string at all it does not panic, and when it returns headers
    for a record under 2 GiB, the unchecked [Headers] accessor returns the
    same map on it. *)
Theorem parse_headers_checked buf :
  parseHeadersAfterValue buf ≠ Panic ∧
  ∀ h, parseHeadersAfterValue buf = Ok h → zlen buf < 2 ^ 31 →
    SerializedMessage.Headers buf = Ok h.
Proof. apply parse_step. Qed.

(** The entries [newMessageSetFromProto] hands the appender are exactly the
    ones [entriesForMessageSet] recovers from the bytes it produced; they lie
    end to end from the base position, account for every byte of the set and
    carry consecutive offsets. *)
Theorem message_set_entries baseOffset basePos msgs ms es
    (Hb : batch_ok msgs)
    (H : newMessageSetFromProto baseOffset basePos msgs = Ok (ms, es))
    (Hz : zlen ms < 2 ^ 31) :
  entriesForMessageSet basePos ms = Ok es ∧ length es = length msgs ∧
  tiled baseOffset basePos es ∧ total_size es = zlen ms.
Proof.
  unfold newMessageSetFromProto in H.
  destruct (messageSet_loop_spec _ _ _ _ _ _ _ _ Hb H Hz)
    as (tail & new & -> & -> & Hl & Hne & Hs & Ht & Hloop).
  simpl app in *. split_and!; try done.
  - unfold entriesForMessageSet. destruct msgs as [|x msgs].
    + destruct new; [|discriminate]. simpl in Hs. rewrite <- Hs. done.
    + rewrite (proj2 (Z.leb_gt _ _)) by (apply Hne; done). by apply Hloop.
  - by rewrite Z.add_0_r in Ht.
Qed.

(** [entriesForMessageSet] walks sizes taken from the bytes themselves; on
    any message set under 2 GiB, torn or corrupt, it does not panic. *)
Theorem entriesForMessageSet_safe basePos ms :
  (zlen ms <? 2 ^ 31) = true → entriesForMessageSet basePos ms ≠ Panic.
Proof.
  intros Hz%Z.ltb_lt. unfold entriesForMessageSet.
  destruct (zlen ms <=? msgSetHeaderLen); [done|]. by apply entries_loop_safe.
Qed.

(** A frame header whose checksum matches stops matching when any one of
    its 32 bytes (identity fields or the checksum itself) is replaced by a
    different byte: a record's identity cannot be altered by a single-byte
    error without being noticed. *)
Theorem header_corruption_detected hdr i x y
    (Hl : length hdr = 32%nat) (Hok : headerCrc hdr = storedHeaderCrc hdr)
    (Hi : hdr !! i = Some y) (Hne : x ≠ y) :
  headerCrc (<[i:=x]> hdr) ≠ storedHeaderCrc (<[i:=x]> hdr).
Proof.
  rewrite <- (take_drop 28 hdr) in Hok, Hi |- *.
  assert (zlen (take 28 hdr) = 28) by (unfold zlen; rewrite length_take; lia).
  assert (length (drop 28 hdr) = 4%nat) by (rewrite length_drop; lia).
  apply headerCrc_split in Hok; [|done..].
  destruct (insert_app_cases _ _ _ x _ Hi) as [[Hi' ->]|[Hi' ->]].
  - rewrite headerCrc_split by (unfold zlen in *; by rewrite ?length_insert).
    eapply Crc32.seal_body; eauto using Crc32.Castagnoli_ok.
  - rewrite headerCrc_split by (by rewrite ?length_insert). eapply Crc32.seal_crc; eauto.
Qed.

(** A stored record whose checksum matches stops matching when any one of
    its bytes, the checksum included, is replaced by a different byte. *)
Theorem record_corruption_detected m i x y
    (Hok : SerializedMessage.crcMatches m = Ok true)
    (Hi : m !! i = Some y) (Hne : x ≠ y) :
  SerializedMessage.crcMatches (<[i:=x]> m) = Ok false.
Proof.
  assert (Hl : (4 ≤ length m)%nat).
  { unfold SerializedMessage.crcMatches in Hok.
    destruct (zlen m <? 4) eqn:E; [discriminate|]. reflect_hyps. unfold zlen in E. lia. }
  rewrite <- (take_drop 4 m) in Hok, Hi |- *.
  assert (length (take 4 m) = 4%nat) by (rewrite length_take; lia).
  destruct (crcMatches_split (take 4 m) (drop 4 m)) as (v & E & Hs); [done|].
  rewrite E in Hok. injection Hok as ->.
  destruct (insert_app_cases _ _ _ x _ Hi) as [[Hi' ->]|[Hi' ->]].
  - destruct (crcMatches_split (<[i:=x]> (take 4 m)) (drop 4 m)) as ([] & -> & Hs');
      [by rewrite length_insert | | done].
    exfalso. eapply Crc32.seal_crc; [by apply Hs | done | done | by apply Hs'].
  - destruct (crcMatches_split (take 4 m) (<[(i - length (take 4 m))%nat:=x]> (drop 4 m)))
      as ([] & -> & Hs'); [done | | done].
    exfalso. eapply Crc32.seal_body; [apply Crc32.Castagnoli_ok | by apply Hs | done | done | by apply Hs'].
Qed.

(** [PutBytes] writes an absent value as length -1, but [Headers] reads a
    header's value length as unsigned and slices with it.  A message with one
    nil header value is therefore accepted and written with a valid checksum,
    and reading its headers back panics; the checked parse refuses it. *)
Theorem nil_header_value_unreadable m k
    (Hh : Headers m = {[k := None]}) (Hk : zlen k ≤ MaxInt16)
    (Hkey : fits (Key m) = true) (Hval : fits (Value m) = true)
    (Hz : zlen (record_bytes m [(k, None)]) < 2 ^ 31) :
  ∃ data, encode m [(k, None)] [(k, None)] = Ok data ∧
    SerializedMessage.crcMatches data = Ok true ∧
    SerializedMessage.Headers data = Panic ∧
    ∃ e, parseHeadersAfterValue data = Fail e.
Proof.
  exists (record_bytes m [(k, None)]). split; [|split; [apply crcMatches_record|]].
  { apply encode_ok; [done|]. unfold encodable. rewrite Hkey, Hval. simpl.
    unfold header_fits. simpl. by rewrite (proj2 (Z.leb_le _ _)). }
  destruct (nil_record_shape m k Hh) as (p & Hp & E). rewrite E in *.
  split; [by apply nil_record_Headers | by apply nil_record_parse].
Qed.

(** *** Witnesses *)

Definition ascii_bytes (l : list Z) : bytes := byte.of_Z <$> l.

(** A tombstone with a key, an empty value and one header. *)
Definition sample_message : Message := {|
  MagicByte := 0; Attributes := AttrTombstone;
  Key := Some (ascii_bytes [107; 49]); Value := Some [];
  Headers := {[ascii_bytes [104] := Some (ascii_bytes [120; 121])]};
  Timestamp := 1700000000; LeaderEpoch := 3 |}.

Definition sample_order : headerOrder := [(ascii_bytes [104], Some (ascii_bytes [120; 121]))].

Lemma sample_order_perm : sample_order ≡ₚ map_to_list (Headers sample_message).
Proof. unfold sample_message. simpl. by rewrite map_to_list_singleton. Qed.

Lemma sample_readable : readable sample_message sample_order.
Proof.
  unfold readable. split; [apply sample_order_perm|].
  split; [split; vm_compute; congruence|]. split; [split; vm_compute; congruence|].
  split; [vm_compute; reflexivity|]. split; [by repeat constructor|].
  split; vm_compute; reflexivity.
Qed.

Lemma encode_correct_witness :
  encode sample_message sample_order sample_order =
    Ok (record_bytes sample_message sample_order).
Proof.
  exact (encode_correct sample_message sample_order sample_order
    sample_order_perm sample_order_perm).
Defined.

Lemma record_roundtrip_witness :
  ∃ data h, encode sample_message sample_order sample_order = Ok data ∧
    SerializedMessage.Key data = Ok (Some (ascii_bytes [107; 49])) ∧
    SerializedMessage.Headers data = Ok h ∧ Some <$> h = Headers sample_message.
Proof.
  destruct (record_roundtrip sample_message sample_order sample_order
    sample_order_perm sample_readable) as (data & h & E & _ & _ & _ & K & _ & Hh & _ & Hm).
  exists data, h. repeat split; assumption.
Defined.

Definition sample_batch : list (Message * headerOrder * headerOrder) :=
  [(sample_message, sample_order, sample_order);
   (sample_message, sample_order, sample_order)].

Lemma sample_batch_ok : batch_ok sample_batch.
Proof.
  repeat (apply Forall_cons; split); [..|by apply Forall_nil];
    (split_and!; [apply sample_order_perm..|by vm_compute|by vm_compute]).
Qed.

Lemma message_set_entries_witness :
  ∃ ms es, newMessageSetFromProto 10 640 sample_batch = Ok (ms, es) ∧
    entriesForMessageSet 640 ms = Ok es ∧ length es = 2%nat.
Proof.
  eexists _, _. split; [vm_compute; reflexivity|].
  destruct (message_set_entries 10 640 sample_batch _ _ sample_batch_ok
    ltac:(vm_compute; reflexivity) ltac:(vm_compute; reflexivity)) as (E & L & _).
  split; [exact E | exact L].
Defined.

Lemma header_corruption_detected_witness :
  headerCrc (<[7%nat:=byte.of_Z 7]> (frame_header 0 5 1 20)) ≠
  storedHeaderCrc (<[7%nat:=byte.of_Z 7]> (frame_header 0 5 1 20)).
Proof.
  apply (header_corruption_detected (frame_header 0 5 1 20) 7 (byte.of_Z 7) (byte.of_Z 0)).
  - vm_compute. reflexivity.
  - vm_compute. reflexivity.
  - vm_compute. reflexivity.
  - vm_compute. discriminate.
Defined.

Lemma record_corruption_detected_witness :
  SerializedMessage.crcMatches
    (<[9%nat:=byte.of_Z 3]> (record_bytes sample_message sample_order)) = Ok false.
Proof.
  apply (record_corruption_detected _ 9 (byte.of_Z 3) (byte.of_Z 2)).
  - apply crcMatches_record.
  - vm_compute. reflexivity.
  - vm_compute. discriminate.
Defined.

(** The same message with its header value nil. *)
Definition nil_header_message : Message := {|
  MagicByte := 0; Attributes := 0; Key := None; Value := Some [];
  Headers := {[ascii_bytes [104] := None]}; Timestamp := 1; LeaderEpoch := 0 |}.

Lemma nil_header_value_unreadable_witness :
  ∃ data, encode nil_header_message [(ascii_bytes [104], None)]
            [(ascii_bytes [104], None)] = Ok data ∧
    SerializedMessage.Headers data = Panic.
Proof.
  destruct (nil_header_value_unreadable nil_header_message (ascii_bytes [104]))
    as (data & E & _ & P & _).
  - reflexivity.
  - vm_compute. congruence.
  - reflexivity.
  - reflexivity.
  - vm_compute. reflexivity.
  - exists data. split; assumption.
Defined.
