(* ===== verification/Compress.v ===== *)
(** * Block codecs: compress/codec.go

    The compressors themselves (golang/snappy, klauspost/compress) are not part
    of the repository: they are the operations of the [CodecLib] interface, and
    [CodecLaws] is the one fact about them the log relies on, that decoding an
    encoding returns the input.  Everything else is codec.go's own dispatch. *)

From Stdlib Require Import ZArith Lia.
From stdpp Require Import base list numbers strings.
From coqutil Require Import Byte.
From S2P Require Import Prelude GoStd.

Open Scope Z_scope.

(** [Codec] is a byte; the four known values. *)
Definition CNone : Z := 0.
Definition CSnappy : Z := 1.
Definition CS2 : Z := 2.
Definition CZstd : Z := 3.

(** The third-party encoders and decoders. *)
Class CodecLib := {
  gsnappy_Encode : bytes → bytes;
  gsnappy_Decode : bytes → option bytes;
  s2_Encode : bytes → bytes;
  s2_Decode : bytes → option bytes;
  zstd_EncodeAll : bytes → bytes;
  zstd_DecodeAll : bytes → option bytes;
}.

(** Documented behaviour: each decoder inverts its encoder. *)
Class CodecLaws (L : CodecLib) : Prop := {
  gsnappy_ok src : gsnappy_Decode (gsnappy_Encode src) = Some src;
  s2_ok src : s2_Decode (s2_Encode src) = Some src;
  zstd_ok src : zstd_DecodeAll (zstd_EncodeAll src) = Some src;
}.

Definition Valid (c : Z) : bool := c <=? CZstd.

Definition Compress `{CodecLib} (c : Z) (src : bytes) : bytes :=
  if c =? CSnappy then gsnappy_Encode src
  else if c =? CS2 then s2_Encode src
  else if c =? CZstd then zstd_EncodeAll src
  else src.

Definition lib_result (msg : string) (r : option bytes) : outcome bytes :=
  match r with Some b => Ok b | None => Fail (ErrText msg) end.

(** The result only: the recycled destination buffer does not show. *)
Definition DecompressInto `{CodecLib} (c : Z) (src : bytes) : outcome bytes :=
  if c =? CSnappy then lib_result "snappy" (gsnappy_Decode src)
  else if c =? CS2 then lib_result "s2" (s2_Decode src)
  else if c =? CZstd then lib_result "zstd" (zstd_DecodeAll src)
  else if c =? CNone then Ok src
  else Fail (ErrText "compress: unknown codec").

Definition Decompress `{CodecLib} (c : Z) (src : bytes) : outcome bytes :=
  DecompressInto c src.

(** [Codec.String] for a known codec; [None] is the formatted fallback. *)
Definition codec_String (c : Z) : option string :=
  if c =? CNone then Some "none"%string
  else if c =? CSnappy then Some "snappy"%string
  else if c =? CS2 then Some "s2"%string
  else if c =? CZstd then Some "zstd"%string
  else None.

Definition codec_Parse (s : string) : outcome Z :=
  if decide (s = ""%string ∨ s = "none"%string) then Ok CNone
  else if decide (s = "snappy"%string) then Ok CSnappy
  else if decide (s = "s2"%string) then Ok CS2
  else if decide (s = "zstd"%string) then Ok CZstd
  else Fail (ErrText "compress: unknown codec").

(** ** Lemmas *)

Lemma Valid_cases c :
  0 ≤ c → Valid c = true → c = CNone ∨ c = CSnappy ∨ c = CS2 ∨ c = CZstd.
Proof. unfold Valid, CNone, CSnappy, CS2, CZstd. intros ? H. reflect_hyps. lia. Qed.

Lemma decompress_compress `{CodecLaws} c src :
  0 ≤ c → Valid c = true → DecompressInto c (Compress c src) = Ok src.
Proof.
  intros Hc Hv. destruct (Valid_cases c Hc Hv) as [-> | [-> | [-> | ->]]];
    unfold DecompressInto, Compress; simpl; try done.
  - by rewrite gsnappy_ok.
  - by rewrite s2_ok.
  - by rewrite zstd_ok.
Qed.

Lemma DecompressInto_not_Panic `{CodecLib} c src : DecompressInto c src ≠ Panic.
Proof.
  unfold DecompressInto, lib_result.
  destruct (c =? CSnappy); [by destruct (gsnappy_Decode src)|].
  destruct (c =? CS2); [by destruct (s2_Decode src)|].
  destruct (c =? CZstd); [by destruct (zstd_DecodeAll src)|].
  by destruct (c =? CNone).
Qed.

(** A codec is known exactly when it has a name, and its name parses back. *)
Lemma codec_name_roundtrip c s :
  codec_String c = Some s → codec_Parse s = Ok c ∧ Valid c = true.
Proof.
  unfold codec_String. intros H.
  destruct (c =? CNone) eqn:E0; [reflect_hyps; subst; by injection H as <-|].
  destruct (c =? CSnappy) eqn:E1; [reflect_hyps; subst; by injection H as <-|].
  destruct (c =? CS2) eqn:E2; [reflect_hyps; subst; by injection H as <-|].
  destruct (c =? CZstd) eqn:E3; [reflect_hyps; subst; by injection H as <-|].
  discriminate.
Qed.

(** ** A concrete library, for the witnesses

    An input that repeats its first half is stored as that half behind a tag;
    every other input is stored whole. *)
Definition half_encode (src : bytes) : bytes :=
  let h := take (length src / 2) src in
  if bool_decide (src = h ++ h) then byte.of_Z 1 :: h else byte.of_Z 0 :: src.

Definition half_decode (b : bytes) : option bytes :=
  match b with
  | [] => None
  | t :: rest => Some (if byte.unsigned t =? 0 then rest else rest ++ rest)
  end.

Definition half_lib : CodecLib := {|
  gsnappy_Encode := half_encode; gsnappy_Decode := half_decode;
  s2_Encode := half_encode; s2_Decode := half_decode;
  zstd_EncodeAll := half_encode; zstd_DecodeAll := half_decode;
|}.

Lemma half_decode_encode src : half_decode (half_encode src) = Some src.
Proof.
  unfold half_encode. case_bool_decide as E; unfold half_decode.
  - replace (byte.unsigned (byte.of_Z 1) =? 0) with false by (vm_compute; done).
    by rewrite <- E.
  - by replace (byte.unsigned (byte.of_Z 0) =? 0) with true by (vm_compute; done).
Qed.

Lemma half_laws : CodecLaws half_lib.
Proof. split; apply half_decode_encode. Qed.
