(* ===== verification/BlockV3.v ===== *)
(** * Version-3 blocks: blockv3/blockv3.go

    The 76-byte header and its in-place rewrites, the delta-encoded records
    behind it, and whole blocks over a compressed payload. *)

From Stdlib Require Import ZArith Lia.
From stdpp Require Import base list numbers strings gmap sorting.
From coqutil Require Import Byte.
From S2P Require Import Prelude GoStd Compress.

Open Scope Z_scope.

Module blockv3.

Definition Magic : Z := 0xC1.
Definition Version : Z := 3.
Definition HeaderLen : Z := 76.

Definition FlagControl : Z := Z.shiftl 1 0.
Definition FlagTransactional : Z := Z.shiftl 1 1.
Definition FlagStripped : Z := Z.shiftl 1 2.
Definition AttrTombstone : Z := 0x02.

Definition offMagic : Z := 0.
Definition offVersion : Z := 1.
Definition offCodec : Z := 2.
Definition offFlags : Z := 3.
Definition offBaseOffset : Z := 4.
Definition offLeaderEpoch : Z := 12.
Definition offBaseTimestamp : Z := 20.
Definition offProducerID : Z := 28.
Definition offProducerEpoch : Z := 36.
Definition offBaseSequence : Z := 40.
Definition offTxNonce : Z := 44.
Definition offRecords : Z := 52.
Definition offLastOffsetDelta : Z := 56.
Definition offUncompressedLen : Z := 60.
Definition offCompressedLen : Z := 64.
Definition offPayloadCRC : Z := 68.
Definition offHeaderCRC : Z := 72.

Record Header := {
  Codec : Z;
  Flags : Z;
  BaseOffset : Z;
  LeaderEpoch : Z;
  BaseTimestamp : Z;
  ProducerID : Z;
  ProducerEpoch : Z;
  BaseSequence : Z;
  TxNonce : Z;
  Records : Z;
  LastOffsetDelta : Z;
  UncompressedLen : Z;
  CompressedLen : Z;
  PayloadCRC : Z;
}.

(** One record.  A nil field is [None]; a nil map and an empty one are both
    [∅], which no code of the package tells apart. *)
Record Rec := {
  Attributes : byte;
  OffsetDelta : Z;
  Key : option bytes;
  Value : option bytes;
  Headers : gmap bytes (option bytes);
}.

(** ** Headers *)

(** A run of stores [b[off:off+n] = v], big-endian, in program order. *)
Fixpoint stores (ws : list (nat * Z * Z)) (b : bytes) : outcome bytes :=
  match ws with
  | [] => Ok b
  | (n, off, v) :: ws => b ← BigEndian.put_at n b off v; stores ws b
  end.

Definition headerCRC (b : bytes) : outcome Z :=
  body ← slice_to b offHeaderCRC; Ok (Crc32.Checksum Crc32.Castagnoli body).

Definition sealHeader (b : bytes) : outcome bytes :=
  c ← headerCRC b; BigEndian.put_at 4 b offHeaderCRC c.

Definition EncodeHeader (dst : bytes) (h : Header) : outcome bytes :=
  let b := replicate (Z.to_nat HeaderLen) (byte.of_Z 0) in
  b ← stores
    [(1%nat, offMagic, Magic);
     (1%nat, offVersion, Version);
     (1%nat, offCodec, Codec h);
     (1%nat, offFlags, Flags h);
     (8%nat, offBaseOffset, uint 64 (BaseOffset h));
     (8%nat, offLeaderEpoch, LeaderEpoch h);
     (8%nat, offBaseTimestamp, uint 64 (BaseTimestamp h));
     (8%nat, offProducerID, uint 64 (ProducerID h));
     (4%nat, offProducerEpoch, uint 32 (ProducerEpoch h));
     (4%nat, offBaseSequence, uint 32 (BaseSequence h));
     (8%nat, offTxNonce, TxNonce h);
     (4%nat, offRecords, Records h);
     (4%nat, offLastOffsetDelta, LastOffsetDelta h);
     (4%nat, offUncompressedLen, UncompressedLen h);
     (4%nat, offCompressedLen, CompressedLen h);
     (4%nat, offPayloadCRC, PayloadCRC h)] b;
  b ← sealHeader b;
  Ok (dst ++ b).

Definition DecodeHeader (b : bytes) : outcome Header :=
  if zlen b <? HeaderLen then Fail (ErrV3Corrupt "short header")
  else
    magic ← byte_at b offMagic;
    if negb (magic =? Magic) then Fail ErrV3Format
    else
      version ← byte_at b offVersion;
      if negb (version =? Version) then Fail ErrV3Format
      else
        want ← uint_at 4 b offHeaderCRC;
        got ← headerCRC b;
        if negb (want =? got) then Fail (ErrV3Corrupt "header CRC")
        else
          codec ← byte_at b offCodec;
          if negb (Valid codec) then Fail (ErrV3Corrupt "codec")
          else
            flags ← byte_at b offFlags;
            baseOffset ← uint_at 8 b offBaseOffset;
            leaderEpoch ← uint_at 8 b offLeaderEpoch;
            baseTimestamp ← uint_at 8 b offBaseTimestamp;
            producerID ← uint_at 8 b offProducerID;
            producerEpoch ← uint_at 4 b offProducerEpoch;
            baseSequence ← uint_at 4 b offBaseSequence;
            txNonce ← uint_at 8 b offTxNonce;
            records ← uint_at 4 b offRecords;
            lastOffsetDelta ← uint_at 4 b offLastOffsetDelta;
            uncompressedLen ← uint_at 4 b offUncompressedLen;
            compressedLen ← uint_at 4 b offCompressedLen;
            payloadCRC ← uint_at 4 b offPayloadCRC;
            let h := {| Codec := codec; Flags := flags;
                        BaseOffset := sint 64 baseOffset;
                        LeaderEpoch := leaderEpoch;
                        BaseTimestamp := sint 64 baseTimestamp;
                        ProducerID := sint 64 producerID;
                        ProducerEpoch := sint 32 producerEpoch;
                        BaseSequence := sint 32 baseSequence;
                        TxNonce := txNonce; Records := records;
                        LastOffsetDelta := lastOffsetDelta;
                        UncompressedLen := uncompressedLen;
                        CompressedLen := compressedLen;
                        PayloadCRC := payloadCRC |} in
            if Records h =? 0 then Fail (ErrV3Corrupt "header claims no records")
            else Ok h.

(** The in-place edits return the block as they leave it. *)
Definition Rewrite (block : bytes) (baseOffset leaderEpoch baseTimestamp : Z)
    : outcome bytes :=
  _ ← DecodeHeader block;
  block ← stores
    [(8%nat, offBaseOffset, uint 64 baseOffset);
     (8%nat, offLeaderEpoch, leaderEpoch);
     (8%nat, offBaseTimestamp, uint 64 baseTimestamp)] block;
  sealHeader block.

Definition Restamp (block : bytes) (producerID producerEpoch baseSequence nonce : Z)
    : outcome bytes :=
  _ ← DecodeHeader block;
  block ← stores
    [(8%nat, offProducerID, uint 64 producerID);
     (4%nat, offProducerEpoch, uint 32 producerEpoch);
     (4%nat, offBaseSequence, uint 32 baseSequence);
     (8%nat, offTxNonce, nonce)] block;
  flags ← byte_at block offFlags;
  let flags := Z.ldiff flags (Z.lor FlagTransactional FlagStripped) in
  let flags := if negb (nonce =? 0) then Z.lor flags FlagTransactional else flags in
  block ← stores [(1%nat, offFlags, flags)] block;
  sealHeader block.

(** The zeroing loop of [Strip]: [i] from [offProducerID], [k] turns left. *)
Fixpoint zero_from (k : nat) (i : Z) (block : bytes) : outcome bytes :=
  match k with
  | O => Ok block
  | S k => block ← BigEndian.put_at 1 block i 0; zero_from k (i + 1) block
  end.

Definition Strip (block : bytes) : outcome bytes :=
  _ ← DecodeHeader block;
  block ← zero_from (Z.to_nat (offRecords - offProducerID)) offProducerID block;
  flags ← byte_at block offFlags;
  block ← stores [(1%nat, offFlags, Z.lor (Z.ldiff flags FlagTransactional) FlagStripped)] block;
  sealHeader block.

Definition VerifyPayload (block : bytes) : outcome Header :=
  h ← DecodeHeader block;
  let want := HeaderLen + CompressedLen h in
  if negb (zlen block =? want) then Fail (ErrV3Corrupt "block length")
  else
    payload ← slice_from block HeaderLen;
    if negb (Crc32.Checksum Crc32.Castagnoli payload =? PayloadCRC h)
    then Fail (ErrV3Corrupt "payload CRC")
    else Ok h.

(** ** Records *)

Definition appendBytes (b : option bytes) : bytes :=
  match b with
  | None => Varint.append_varint (-1)
  | Some b => Varint.append_varint (zlen b) ++ b
  end.

(** [string(k)] and a possibly nil value, each behind its length. *)
Definition appendHeader (hs : gmap bytes (option bytes)) (k : bytes) : bytes :=
  let v := default [] (mjoin (hs !! k)) in
  Varint.append_uvarint (zlen k) ++ k ++ Varint.append_uvarint (zlen v) ++ v.

Definition encodeRecord (r : Rec) : bytes :=
  [Attributes r] ++ Varint.append_uvarint (OffsetDelta r) ++
  appendBytes (Key r) ++ appendBytes (Value r) ++
  Varint.append_uvarint (Z.of_nat (size (Headers r))) ++
  concat (appendHeader (Headers r) <$> BytesOrd.sorted_keys (Headers r)).

Definition frame (r : Rec) : bytes :=
  let scratch := encodeRecord r in Varint.append_uvarint (zlen scratch) ++ scratch.

Definition EncodeRecords (dst : bytes) (recs : list Rec) : bytes :=
  dst ++ concat (frame <$> recs).

Record cursor := { buf : bytes; pos : Z; err : option error }.

Definition fail (c : cursor) (e : error) : cursor :=
  match err c with
  | None => {| buf := buf c; pos := pos c; err := Some e |}
  | Some _ => c
  end.

Definition advance (c : cursor) (n : Z) : cursor :=
  {| buf := buf c; pos := pos c + n; err := err c |}.

Definition cursor_byte (c : cursor) : outcome (byte * cursor) :=
  if bool_decide (err c ≠ None) || (zlen (buf c) <=? pos c)
  then Ok (byte.of_Z 0, fail c (ErrText "short read"))
  else b ← index (buf c) (pos c); Ok (b, advance c 1).

(** [cursor.uvarint] and [cursor.varint] differ only in the decoder. *)
Definition cursor_int (decode : bytes → Z * Z) (msg : string) (c : cursor)
    : outcome (Z * cursor) :=
  if bool_decide (err c ≠ None) then Ok (0, c)
  else
    rest ← slice_from (buf c) (pos c);
    let '(v, n) := decode rest in
    if n <=? 0 then Ok (0, fail c (ErrText msg)) else Ok (v, advance c n).

Definition cursor_uvarint : cursor → outcome (Z * cursor) :=
  cursor_int Varint.uvarint "bad uvarint".
Definition cursor_varint : cursor → outcome (Z * cursor) :=
  cursor_int Varint.varint "bad varint".

Definition cursor_bytes (c : cursor) (n : Z) : outcome (option bytes * cursor) :=
  if bool_decide (err c ≠ None) then Ok (None, c)
  else if uint 64 (zlen (buf c) - pos c) <? n
  then Ok (None, fail c (ErrText "length exceeds the bytes left"))
  else
    b ← slice (buf c) (pos c) (pos c + sint 64 n);
    Ok (Some b, advance c (sint 64 n)).

Definition cursor_field (c : cursor) : outcome (option bytes * cursor) :=
  '(n, c) ← cursor_varint c;
  if bool_decide (err c ≠ None) then Ok (None, c)
  else if n =? -1 then Ok (None, c)
  else if n <? -1 then Ok (None, fail c (ErrText "field length"))
  else cursor_bytes c (uint 64 n).

(** The header loop: [k] turns left; a failed read ends it. *)
Fixpoint decode_headers (k : nat) (c : cursor) (hs : gmap bytes (option bytes))
    : outcome (gmap bytes (option bytes) * cursor) :=
  match k with
  | O => Ok (hs, c)
  | S k =>
      if bool_decide (err c ≠ None) then Ok (hs, c)
      else
        '(n, c) ← cursor_uvarint c;
        '(key, c) ← cursor_bytes c n;
        '(n, c) ← cursor_uvarint c;
        '(v, c) ← cursor_bytes c n;
        decode_headers k c (<[default [] key := v]> hs)
  end.

Definition decodeRecord (body : bytes) : outcome Rec :=
  let c := {| buf := body; pos := 0; err := None |} in
  '(attributes, c) ← cursor_byte c;
  '(offsetDelta, c) ← cursor_uvarint c;
  '(key, c) ← cursor_field c;
  '(value, c) ← cursor_field c;
  '(n, c) ← cursor_uvarint c;
  '(hs, c) ← decode_headers (Z.to_nat n) c ∅;
  match err c with
  | Some e => Fail e
  | None =>
      if negb (pos c =? zlen body) then Fail (ErrText "bytes past the record's fields")
      else Ok {| Attributes := attributes; OffsetDelta := uint 32 offsetDelta;
                 Key := key; Value := value; Headers := hs |}
  end.

(** The record loop: [k] records left. *)
Fixpoint decode_loop (k : nat) (c : cursor) (recs : list Rec)
    : outcome (list Rec * cursor) :=
  match k with
  | O => Ok (recs, c)
  | S k =>
      '(n, c) ← cursor_uvarint c;
      '(body, c) ← cursor_bytes c n;
      match err c with
      | Some _ => Fail (ErrV3Corrupt "record")
      | None =>
          match decodeRecord (default [] body) with
          | Panic => Panic
          | Fail _ => Fail (ErrV3Corrupt "record")
          | Ok r => decode_loop k c (recs ++ [r])
          end
      end
  end.

Definition DecodeRecords (payload : bytes) (n : Z) : outcome (list Rec) :=
  '(recs, c) ← decode_loop (Z.to_nat n) {| buf := payload; pos := 0; err := None |} [];
  if negb (pos c =? zlen payload) then Fail (ErrV3Corrupt "bytes after the last record")
  else Ok recs.

(** ** Whole blocks *)

Definition set_payload (h : Header) (codec records lastOffsetDelta : Z)
    (logical payload : bytes) : Header :=
  {| Codec := codec; Flags := Flags h; BaseOffset := BaseOffset h;
     LeaderEpoch := LeaderEpoch h; BaseTimestamp := BaseTimestamp h;
     ProducerID := ProducerID h; ProducerEpoch := ProducerEpoch h;
     BaseSequence := BaseSequence h; TxNonce := TxNonce h;
     Records := uint 32 records; LastOffsetDelta := lastOffsetDelta;
     UncompressedLen := uint 32 (zlen logical); CompressedLen := uint 32 (zlen payload);
     PayloadCRC := Crc32.Checksum Crc32.Castagnoli payload |}.

Definition EncodeBlock `{CodecLib} (h : Header) (recs : list Rec) : outcome bytes :=
  match last recs with
  | None => Fail (ErrText "blockv3: a block holds at least one record")
  | Some l =>
      let logical := EncodeRecords [] recs in
      let '(codec, payload) :=
        if negb (Codec h =? CNone) then
          let c := Compress (Codec h) logical in
          if zlen c <? zlen logical then (Codec h, c) else (CNone, logical)
        else (Codec h, logical) in
      let h := set_payload h codec (zlen recs) (OffsetDelta l) logical payload in
      out ← EncodeHeader [] h;
      Ok (out ++ payload)
  end.

Definition DecodeBlock `{CodecLib} (block : bytes) : outcome (Header * list Rec) :=
  h ← VerifyPayload block;
  payload ← slice_from block HeaderLen;
  payload ← (if negb (Codec h =? CNone) then
               match DecompressInto (Codec h) payload with
               | Fail _ => Fail (ErrV3Corrupt "decompress")
               | r => r
               end
             else Ok payload);
  if negb (zlen payload =? UncompressedLen h) then Fail (ErrV3Corrupt "payload length")
  else
    recs ← DecodeRecords payload (Records h);
    l ← index recs (zlen recs - 1);
    if negb (OffsetDelta l =? LastOffsetDelta h) then Fail (ErrV3Corrupt "last offset delta")
    else Ok (h, recs).

(** ** The header layout *)

(** The sixteen fields before the header CRC. *)
Definition widths : list nat := [1; 1; 1; 1; 8; 8; 8; 8; 4; 4; 8; 4; 4; 4; 4; 4]%nat.

Definition fields (h : Header) : list Z :=
  [Magic; Version; Codec h; Flags h; uint 64 (BaseOffset h); LeaderEpoch h;
   uint 64 (BaseTimestamp h); uint 64 (ProducerID h); uint 32 (ProducerEpoch h);
   uint 32 (BaseSequence h); TxNonce h; Records h; LastOffsetDelta h;
   UncompressedLen h; CompressedLen h; PayloadCRC h].

(** The CRC of a field layout, and a sealed header. *)
Definition crc_of (vs : list Z) : Z :=
  Crc32.Checksum Crc32.Castagnoli (Layout.put_fields widths vs).

Definition sealed (vs : list Z) : bytes :=
  Layout.put_fields widths vs ++ BigEndian.put 4 (crc_of vs).

(** A header of values that fit their fields, as [DecodeHeader] accepts it. *)
Definition hdr_ok (h : Header) : Prop :=
  0 ≤ Codec h ∧ Valid (Codec h) = true ∧ in_uint 8 (Flags h) ∧
  in_sint 64 (BaseOffset h) ∧ in_uint 64 (LeaderEpoch h) ∧
  in_sint 64 (BaseTimestamp h) ∧ in_sint 64 (ProducerID h) ∧
  in_sint 32 (ProducerEpoch h) ∧ in_sint 32 (BaseSequence h) ∧
  in_uint 64 (TxNonce h) ∧ 0 < Records h < 2 ^ 32 ∧ in_uint 32 (LastOffsetDelta h) ∧
  in_uint 32 (UncompressedLen h) ∧ in_uint 32 (CompressedLen h) ∧
  in_uint 32 (PayloadCRC h).

Lemma length_fields h : length widths = length (fields h).
Proof. reflexivity. Qed.

Lemma zlen_layout vs : length vs = 16%nat → zlen (Layout.put_fields widths vs) = 72.
Proof. intros H. unfold zlen. rewrite Layout.length_put_fields; done. Qed.

Lemma zlen_sealed vs : length vs = 16%nat → zlen (sealed vs) = HeaderLen.
Proof. intros H. unfold sealed. rewrite zlen_app, zlen_layout, BigEndian.zlen_put; done. Qed.

Lemma stores_field ws vs i n off v st s :
  length ws = length vs → ws !! i = Some n → off = Z.of_nat (Layout.width (take i ws)) →
  stores ((n, off, v) :: st) (Layout.put_fields ws vs ++ s) =
  stores st (Layout.put_fields ws (<[i:=v]> vs) ++ s).
Proof. intros. cbn [stores]. by rewrite (Layout.put_at_field _ _ i). Qed.

Lemma stores_nil b : stores [] b = Ok b.
Proof. reflexivity. Qed.

Lemma headerCRC_layout vs s :
  length vs = 16%nat → headerCRC (Layout.put_fields widths vs ++ s) = Ok (crc_of vs).
Proof.
  intros H. unfold headerCRC. rewrite slice_to_app; [done|]. by rewrite zlen_layout.
Qed.

Lemma sealHeader_layout vs c s :
  length vs = 16%nat → length c = 4%nat →
  sealHeader (Layout.put_fields widths vs ++ c ++ s) = Ok (sealed vs ++ s).
Proof.
  intros Hv Hc. unfold sealHeader. rewrite headerCRC_layout by done.
  cbn [mbind outcome_bind]. rewrite BigEndian.put_at_app; [|by rewrite zlen_layout|done].
  unfold sealed. by rewrite <- app_assoc.
Qed.

Lemma zero_header :
  replicate (Z.to_nat HeaderLen) (byte.of_Z 0) =
  Layout.put_fields widths (replicate 16 0) ++ BigEndian.put 4 0.
Proof. vm_compute. reflexivity. Qed.

Lemma EncodeHeader_sealed dst h : EncodeHeader dst h = Ok (dst ++ sealed (fields h)).
Proof.
  unfold EncodeHeader.
  rewrite zero_header.
  rewrite (stores_field widths _ 0), (stores_field widths _ 1), (stores_field widths _ 2),
    (stores_field widths _ 3), (stores_field widths _ 4), (stores_field widths _ 5),
    (stores_field widths _ 6), (stores_field widths _ 7), (stores_field widths _ 8),
    (stores_field widths _ 9), (stores_field widths _ 10), (stores_field widths _ 11),
    (stores_field widths _ 12), (stores_field widths _ 13), (stores_field widths _ 14),
    (stores_field widths _ 15) by done.
  rewrite stores_nil, bind_Ok, <- (app_nil_r (BigEndian.put 4 0)).
  match goal with
  | |- context [Layout.put_fields widths ?l] => replace l with (fields h) by reflexivity
  end.
  by rewrite sealHeader_layout, bind_Ok, app_nil_r by done.
Qed.

Lemma field_at vs i n off s v :
  length vs = 16%nat → Forall2 Layout.fits widths vs → widths !! i = Some n →
  vs !! i = Some v → off = Z.of_nat (Layout.width (take i widths)) →
  uint_at n (Layout.put_fields widths vs ++ s) off = Ok v.
Proof.
  intros Hl Hf Hw Hv ->. apply (Layout.uint_at_field _ _ i); try done.
  by eapply Forall2_lookup_lr in Hf.
Qed.

Lemma flag_at vs i off s v :
  length vs = 16%nat → Forall2 Layout.fits widths vs → widths !! i = Some 1%nat →
  vs !! i = Some v → off = Z.of_nat (Layout.width (take i widths)) →
  byte_at (Layout.put_fields widths vs ++ s) off = Ok v.
Proof.
  intros Hl Hf Hw Hv ->. apply (Layout.index_field _ _ i); try done.
  by eapply Forall2_lookup_lr in Hf.
Qed.

Lemma crc_at vs c s :
  length vs = 16%nat → length c = 4%nat →
  uint_at 4 (Layout.put_fields widths vs ++ c ++ s) offHeaderCRC = Ok (BigEndian.get c).
Proof.
  intros Hl Hc. unfold uint_at. rewrite slice_from_app, bind_Ok by (by rewrite zlen_layout).
  by apply BigEndian.read_app.
Qed.

(** What [DecodeHeader] does with any sixteen fields, any four bytes where the
    CRC belongs and anything behind them. *)
Lemma DecodeHeader_fields m v cd fl bo le bt pi pe bs tn rc ld ul cl pc c s :
  let vs := [m; v; cd; fl; bo; le; bt; pi; pe; bs; tn; rc; ld; ul; cl; pc] in
  Forall2 Layout.fits widths vs → length c = 4%nat →
  DecodeHeader (Layout.put_fields widths vs ++ c ++ s) =
  if negb (m =? Magic) then Fail ErrV3Format
  else if negb (v =? Version) then Fail ErrV3Format
  else if negb (BigEndian.get c =? crc_of vs) then Fail (ErrV3Corrupt "header CRC")
  else if negb (Valid cd) then Fail (ErrV3Corrupt "codec")
  else if rc =? 0 then Fail (ErrV3Corrupt "header claims no records")
  else Ok {| Codec := cd; Flags := fl; BaseOffset := sint 64 bo; LeaderEpoch := le;
             BaseTimestamp := sint 64 bt; ProducerID := sint 64 pi;
             ProducerEpoch := sint 32 pe; BaseSequence := sint 32 bs; TxNonce := tn;
             Records := rc; LastOffsetDelta := ld; UncompressedLen := ul;
             CompressedLen := cl; PayloadCRC := pc |}.
Proof.
  intros vs Hf Hc. unfold DecodeHeader.
  assert (Hl : length vs = 16%nat) by done.
  rewrite (proj2 (Z.ltb_ge _ _)).
  2: { rewrite !zlen_app, zlen_layout by done. pose proof (zlen_nonneg s).
       unfold zlen at 1, HeaderLen. rewrite Hc. lia. }
  rewrite (flag_at _ 0 offMagic _ m), bind_Ok by done.
  destruct (negb (m =? Magic)); [done|].
  rewrite (flag_at _ 1 offVersion _ v), bind_Ok by done.
  destruct (negb (v =? Version)); [done|].
  rewrite (crc_at _ _ _ Hl Hc), bind_Ok, headerCRC_layout, bind_Ok by done.
  destruct (negb (BigEndian.get c =? crc_of vs)); [done|].
  rewrite (flag_at _ 2 offCodec _ cd), bind_Ok by done.
  destruct (negb (Valid cd)); [done|].
  rewrite (flag_at _ 3 offFlags _ fl), bind_Ok by done.
  rewrite (field_at _ 4 _ offBaseOffset _ bo), bind_Ok by done.
  rewrite (field_at _ 5 _ offLeaderEpoch _ le), bind_Ok by done.
  rewrite (field_at _ 6 _ offBaseTimestamp _ bt), bind_Ok by done.
  rewrite (field_at _ 7 _ offProducerID _ pi), bind_Ok by done.
  rewrite (field_at _ 8 _ offProducerEpoch _ pe), bind_Ok by done.
  rewrite (field_at _ 9 _ offBaseSequence _ bs), bind_Ok by done.
  rewrite (field_at _ 10 _ offTxNonce _ tn), bind_Ok by done.
  rewrite (field_at _ 11 _ offRecords _ rc), bind_Ok by done.
  rewrite (field_at _ 12 _ offLastOffsetDelta _ ld), bind_Ok by done.
  rewrite (field_at _ 13 _ offUncompressedLen _ ul), bind_Ok by done.
  rewrite (field_at _ 14 _ offCompressedLen _ cl), bind_Ok by done.
  by rewrite (field_at _ 15 _ offPayloadCRC _ pc), bind_Ok by done.
Qed.

Lemma fields_fit h : hdr_ok h → Forall2 Layout.fits widths (fields h).
Proof.
  intros (Hc & Hv & ? & ? & ? & ? & ? & ? & ? & ? & ? & ? & ? & ? & ?).
  assert (in_uint 8 (Codec h)).
  { destruct (Valid_cases _ Hc Hv) as [-> | [-> | [-> | ->]]]; by vm_compute. }
  assert (in_uint 32 (Records h)) by (unfold in_uint; lia).
  unfold widths, fields. repeat (apply Forall2_cons; split); try apply Forall2_nil;
    try done; by apply uint_range.
Qed.

Lemma decode_sealed h s : hdr_ok h → DecodeHeader (sealed (fields h) ++ s) = Ok h.
Proof.
  intros Hok. pose proof (fields_fit h Hok) as Hf.
  destruct Hok as (Hc & Hv & ? & ? & ? & ? & ? & ? & ? & ? & ? & ? & ? & ? & ?).
  unfold sealed. rewrite <- app_assoc. unfold fields at 1.
  rewrite DecodeHeader_fields; [|exact Hf|apply BigEndian.length_put]. fold (fields h).
  rewrite BigEndian.get_put_uint by apply Crc32.castagnoli_range.
  rewrite !Z.eqb_refl, Hv, !sint_uint by done.
  cbn [negb]. rewrite (proj2 (Z.eqb_neq (Records h) 0)) by lia. by destruct h.
Qed.

Lemma header_split b :
  HeaderLen ≤ zlen b → ∃ vs c s,
  b = Layout.put_fields widths vs ++ c ++ s ∧ length vs = 16%nat ∧
  Forall2 Layout.fits widths vs ∧ length c = 4%nat.
Proof.
  unfold HeaderLen. intros H.
  assert (Hw : (Layout.width widths ≤ length b)%nat) by (unfold zlen in H; cbn; lia).
  exists (Layout.get_fields widths b), (take 4 (drop 72 b)), (drop 4 (drop 72 b)).
  rewrite take_drop. split; [by apply (Layout.put_get_fields widths)|].
  split; [apply Layout.length_get_fields|]. split; [by apply Layout.get_fields_fit|].
  rewrite length_take, length_drop. unfold zlen in H. lia.
Qed.

Lemma DecodeHeader_short b :
  zlen b < HeaderLen → DecodeHeader b = Fail (ErrV3Corrupt "short header").
Proof. intros H. unfold DecodeHeader. by rewrite (proj2 (Z.ltb_lt _ _)). Qed.

(** Sixteen values, named. *)
Lemma sixteen (vs : list Z) :
  length vs = 16%nat → ∃ m v cd fl bo le bt pi pe bs tn rc ld ul cl pc,
  vs = [m; v; cd; fl; bo; le; bt; pi; pe; bs; tn; rc; ld; ul; cl; pc].
Proof. intros H. do 17 (destruct vs as [|? vs]; try done). by repeat eexists. Qed.

Lemma DecodeHeader_not_Panic b : DecodeHeader b ≠ Panic.
Proof.
  destruct (Z.lt_ge_cases (zlen b) HeaderLen) as [H|H]; [by rewrite DecodeHeader_short|].
  apply header_split in H as (vs & c & s & -> & Hl & Hf & Hc).
  apply sixteen in Hl as (m&v&cd&fl&bo&le&bt&pi&pe&bs&tn&rc&ld&ul&cl&pc & ->).
  rewrite DecodeHeader_fields by done. by repeat case_match.
Qed.

(** The header encoding is canonical: what [DecodeHeader] accepts is what
    [EncodeHeader] writes for the header it returns. *)
Lemma DecodeHeader_inv b h :
  DecodeHeader b = Ok h → hdr_ok h ∧ ∃ s, b = sealed (fields h) ++ s.
Proof.
  destruct (Z.lt_ge_cases (zlen b) HeaderLen) as [H|H]; [by rewrite DecodeHeader_short|].
  apply header_split in H as (vs & c & s & -> & Hl & Hf & Hc).
  apply sixteen in Hl as (m&v&cd&fl&bo&le&bt&pi&pe&bs&tn&rc&ld&ul&cl&pc & ->).
  rewrite DecodeHeader_fields by done. set (vs := [_; _; _; _; _; _; _; _; _; _; _; _; _; _; _; _]).
  intros E.
  destruct (negb (m =? Magic)) eqn:E1; [done|]. destruct (negb (v =? Version)) eqn:E2; [done|].
  destruct (negb (_ =? crc_of vs)) eqn:E3; [done|]. destruct (negb (Valid cd)) eqn:E4; [done|].
  destruct (rc =? 0) eqn:E5; [done|]. reflect_hyps. injection E as <-. subst m v.
  repeat match goal with H : Forall2 _ _ _ |- _ => inversion_clear H end.
  unfold Layout.fits in *.
  repeat match goal with
  | H : in_uint (8 * Z.of_nat ?n) ?x |- _ =>
      let w := eval vm_compute in (8 * Z.of_nat n) in change (in_uint w x) in H
  end.
  split.
  { unfold hdr_ok; cbn [Codec Flags BaseOffset LeaderEpoch BaseTimestamp ProducerID
      ProducerEpoch BaseSequence TxNonce Records LastOffsetDelta UncompressedLen
      CompressedLen PayloadCRC].
    unfold in_uint in *.
    split_and!; try assumption; try (apply sint_range; lia); lia. }
  exists s. rewrite app_assoc. f_equal. unfold sealed.
  replace (fields _) with vs.
  - f_equal. rewrite <- E3, <- Hc. symmetry. apply BigEndian.put_get.
  - unfold fields; cbn. by rewrite !uint_sint by done.
Qed.

(** ** In-place edits *)

(** The header each edit leaves. *)
Definition rewritten (h : Header) (baseOffset leaderEpoch baseTimestamp : Z) : Header :=
  {| Codec := Codec h; Flags := Flags h; BaseOffset := baseOffset;
     LeaderEpoch := leaderEpoch; BaseTimestamp := baseTimestamp;
     ProducerID := ProducerID h; ProducerEpoch := ProducerEpoch h;
     BaseSequence := BaseSequence h; TxNonce := TxNonce h; Records := Records h;
     LastOffsetDelta := LastOffsetDelta h; UncompressedLen := UncompressedLen h;
     CompressedLen := CompressedLen h; PayloadCRC := PayloadCRC h |}.

Definition identified (h : Header) (flags producerID producerEpoch baseSequence nonce : Z)
    : Header :=
  {| Codec := Codec h; Flags := flags; BaseOffset := BaseOffset h;
     LeaderEpoch := LeaderEpoch h; BaseTimestamp := BaseTimestamp h;
     ProducerID := producerID; ProducerEpoch := producerEpoch;
     BaseSequence := baseSequence; TxNonce := nonce; Records := Records h;
     LastOffsetDelta := LastOffsetDelta h; UncompressedLen := UncompressedLen h;
     CompressedLen := CompressedLen h; PayloadCRC := PayloadCRC h |}.

Definition restamped_flags (flags nonce : Z) : Z :=
  let flags := Z.ldiff flags (Z.lor FlagTransactional FlagStripped) in
  if negb (nonce =? 0) then Z.lor flags FlagTransactional else flags.

Definition stripped_flags (flags : Z) : Z :=
  Z.lor (Z.ldiff flags FlagTransactional) FlagStripped.

Lemma Rewrite_sealed h s bo le bt :
  hdr_ok h →
  Rewrite (sealed (fields h) ++ s) bo le bt = Ok (sealed (fields (rewritten h bo le bt)) ++ s).
Proof.
  intros Hok. unfold Rewrite. rewrite decode_sealed, bind_Ok by done.
  unfold sealed at 1. rewrite <- app_assoc.
  rewrite (stores_field widths _ 4), (stores_field widths _ 5), (stores_field widths _ 6) by done.
  rewrite stores_nil, bind_Ok.
  match goal with
  | |- context [sealHeader (Layout.put_fields widths ?l ++ _)] =>
      replace l with (fields (rewritten h bo le bt)) by reflexivity
  end.
  by apply sealHeader_layout.
Qed.

Lemma flags_field h s :
  hdr_ok h → byte_at (Layout.put_fields widths (fields h) ++ s) offFlags = Ok (Flags h).
Proof. intros Hok. apply (flag_at _ 3); try done. by apply fields_fit. Qed.

Lemma set_flags_sealed h f c s :
  hdr_ok h → length c = 4%nat →
  (block ← stores [(1%nat, offFlags, f (Flags h))] (Layout.put_fields widths (fields h) ++ c ++ s);
   sealHeader block) =
  Ok (sealed (fields (identified h (f (Flags h)) (ProducerID h) (ProducerEpoch h)
                                 (BaseSequence h) (TxNonce h))) ++ s).
Proof.
  intros Hok Hc. rewrite (stores_field widths _ 3), stores_nil, bind_Ok by done.
  match goal with
  | |- context [sealHeader (Layout.put_fields widths ?l ++ _)] =>
      replace l with (fields (identified h (f (Flags h)) (ProducerID h) (ProducerEpoch h)
                                 (BaseSequence h) (TxNonce h))) by reflexivity
  end.
  by apply sealHeader_layout.
Qed.

(** Valid header values with another identity. *)
Definition identity_ok (pid pe bs nonce : Z) : Prop :=
  in_sint 64 pid ∧ in_sint 32 pe ∧ in_sint 32 bs ∧ in_uint 64 nonce.

Lemma identified_ok h f pid pe bs nonce :
  hdr_ok h → in_uint 8 f → identity_ok pid pe bs nonce →
  hdr_ok (identified h f pid pe bs nonce).
Proof. unfold hdr_ok, identity_ok. simpl. tauto. Qed.

Lemma rewritten_ok h bo le bt :
  hdr_ok h → in_sint 64 bo → in_uint 64 le → in_sint 64 bt → hdr_ok (rewritten h bo le bt).
Proof. unfold hdr_ok. simpl. tauto. Qed.

Lemma Restamp_sealed h s pid pe bs nonce :
  hdr_ok h → identity_ok pid pe bs nonce →
  Restamp (sealed (fields h) ++ s) pid pe bs nonce =
  Ok (sealed (fields (identified h (restamped_flags (Flags h) nonce) pid pe bs nonce)) ++ s).
Proof.
  intros Hok Hid. unfold Restamp. rewrite decode_sealed, bind_Ok by done.
  unfold sealed at 1. rewrite <- app_assoc.
  rewrite (stores_field widths _ 7), (stores_field widths _ 8), (stores_field widths _ 9),
    (stores_field widths _ 10), stores_nil, bind_Ok by done.
  set (h1 := identified h (Flags h) pid pe bs nonce).
  match goal with
  | |- context [Layout.put_fields widths ?l] =>
      replace l with (fields h1) by reflexivity
  end.
  assert (hdr_ok h1) by (apply identified_ok; [done| |done]; apply Hok).
  rewrite flags_field, bind_Ok by done.
  by rewrite (set_flags_sealed h1 (λ f, restamped_flags f nonce)).
Qed.

Lemma zero_from_app k p m s i :
  i = zlen p → length m = k →
  zero_from k i (p ++ m ++ s) = Ok (p ++ replicate k (byte.of_Z 0) ++ s).
Proof.
  revert p m i. induction k as [|k IH]; intros p m i -> Hm.
  { by apply nil_length_inv in Hm as ->. }
  destruct m as [|x m]; [done|]. cbn [zero_from].
  change (p ++ (x :: m) ++ s) with (p ++ [x] ++ m ++ s).
  rewrite BigEndian.put_at_app, bind_Ok by done.
  rewrite app_assoc, (IH _ m); [|rewrite zlen_app, BigEndian.zlen_put; lia | by injection Hm].
  by rewrite <- app_assoc.
Qed.

Lemma zero_fields c s f1 f2 f3 f4 a b :
  length a = 7%nat → length b = 5%nat →
  zero_from 24 28 (Layout.put_fields widths (a ++ [f1; f2; f3; f4] ++ b) ++ c ++ s) =
  Ok (Layout.put_fields widths (a ++ [0; 0; 0; 0] ++ b) ++ c ++ s).
Proof.
  intros Ha Hb.
  replace widths with (take 7 widths ++ [8; 4; 4; 8]%nat ++ drop 11 widths) by done.
  rewrite !Layout.put_fields_app by done. rewrite <- !app_assoc.
  rewrite zero_from_app; [done | |].
  - unfold zlen. by rewrite Layout.length_put_fields.
  - by rewrite Layout.length_put_fields.
Qed.

Lemma Strip_sealed h s :
  hdr_ok h →
  Strip (sealed (fields h) ++ s) =
  Ok (sealed (fields (identified h (stripped_flags (Flags h)) 0 0 0 0)) ++ s).
Proof.
  intros Hok. unfold Strip. rewrite decode_sealed, bind_Ok by done.
  unfold sealed at 1. rewrite <- app_assoc.
  change (Z.to_nat (offRecords - offProducerID)) with 24%nat.
  change offProducerID with 28.
  pose proof (zero_fields (BigEndian.put 4 (crc_of (fields h))) s (uint 64 (ProducerID h))
    (uint 32 (ProducerEpoch h)) (uint 32 (BaseSequence h)) (TxNonce h)
    (take 7 (fields h)) (drop 11 (fields h)) eq_refl eq_refl) as E.
  change (take 7 (fields h) ++ [_; _; _; TxNonce h] ++ drop 11 (fields h)) with (fields h) in E.
  rewrite E, bind_Ok. clear E.
  set (h1 := identified h (Flags h) 0 0 0 0).
  replace (take 7 (fields h) ++ _ ++ drop 11 (fields h)) with (fields h1) by reflexivity.
  assert (hdr_ok h1) by (apply identified_ok; [done|apply Hok|by vm_compute]).
  rewrite flags_field, bind_Ok by done.
  by rewrite (set_flags_sealed h1 stripped_flags).
Qed.

(** ** The cursor *)

(** A cursor that has read [p] and has [s] left. *)
Definition good (p s : bytes) : cursor :=
  {| buf := p ++ s; pos := zlen p; err := None |}.

Lemma buf_good p s : buf (good p s) = p ++ s.
Proof. reflexivity. Qed.

Lemma pos_good p s : pos (good p s) = zlen p.
Proof. reflexivity. Qed.

Lemma err_good p s : err (good p s) = None.
Proof. reflexivity. Qed.

Lemma good_advance p x s n : n = zlen x → advance (good p (x ++ s)) n = good (p ++ x) s.
Proof. intros ->. unfold advance, good. simpl. by rewrite zlen_app, <- app_assoc. Qed.

Lemma cursor_byte_app p x s : cursor_byte (good p ([x] ++ s)) = Ok (x, good (p ++ [x]) s).
Proof.
  unfold cursor_byte. rewrite bool_decide_eq_false_2 by (by intros []). cbn [orb].
  rewrite (proj2 (Z.leb_gt _ _)).
  2: { unfold good. cbn [buf pos]. rewrite !zlen_app. pose proof (zlen_nonneg s).
       change (zlen [x]) with 1. lia. }
  rewrite buf_good, pos_good. change ([x] ++ s) with (x :: s). rewrite index_app_mid, bind_Ok by done.
  by rewrite <- (good_advance p [x] s 1).
Qed.

Lemma cursor_int_app decode msg p x s v :
  decode (x ++ s) = (v, zlen x) → 0 < zlen x →
  cursor_int decode msg (good p (x ++ s)) = Ok (v, good (p ++ x) s).
Proof.
  intros Hd Hp. unfold cursor_int. rewrite bool_decide_eq_false_2 by (by intros []).
  rewrite buf_good, pos_good, slice_from_app, bind_Ok, Hd by done.
  rewrite (proj2 (Z.leb_gt _ _)) by lia. by rewrite good_advance.
Qed.

Lemma cursor_uvarint_app p x s :
  in_uint 64 x →
  cursor_uvarint (good p (Varint.append_uvarint x ++ s)) =
    Ok (x, good (p ++ Varint.append_uvarint x) s).
Proof.
  intros Hx. apply cursor_int_app; [by apply Varint.uvarint_append|].
  apply Varint.append_uvarint_pos.
Qed.

Lemma cursor_bytes_app p m s :
  zlen (m ++ s) < 2 ^ 63 →
  cursor_bytes (good p (m ++ s)) (zlen m) = Ok (Some m, good (p ++ m) s).
Proof.
  intros Hl. unfold cursor_bytes. rewrite bool_decide_eq_false_2 by (by intros []).
  pose proof (zlen_nonneg m). pose proof (zlen_nonneg s). rewrite zlen_app in Hl.
  rewrite buf_good, pos_good, !zlen_app, uint_small by (unfold in_uint; lia).
  rewrite (proj2 (Z.ltb_ge _ _)) by lia. rewrite sint_nonneg by lia.
  rewrite slice_app_mid, bind_Ok by done. by rewrite good_advance.
Qed.

Lemma cursor_field_app p f s :
  zlen (appendBytes f ++ s) < 2 ^ 63 →
  cursor_field (good p (appendBytes f ++ s)) = Ok (f, good (p ++ appendBytes f) s).
Proof.
  intros Hl. unfold cursor_field, cursor_varint. destruct f as [f|]; cbn [appendBytes] in *.
  - assert (zlen f < 2 ^ 63 ∧ zlen (f ++ s) < 2 ^ 63) as [Hf Hfs].
    { rewrite <- !app_assoc, zlen_app, zlen_app in Hl. rewrite zlen_app.
      pose proof (zlen_nonneg s). pose proof (zlen_nonneg (Varint.append_varint (zlen f))).
      pose proof (zlen_nonneg f). lia. }
    pose proof (zlen_nonneg f). rewrite <- app_assoc.
    rewrite (cursor_int_app _ _ _ _ _ (zlen f)), bind_Ok.
    + rewrite bool_decide_eq_false_2 by (by intros []).
      rewrite (proj2 (Z.eqb_neq _ _)), (proj2 (Z.ltb_ge _ _)) by lia.
      rewrite uint_small by (unfold in_uint; lia). rewrite cursor_bytes_app by done.
      by rewrite app_assoc.
    + apply Varint.varint_append. unfold in_sint. lia.
    + apply Varint.append_varint_pos.
  - rewrite (cursor_int_app _ _ _ _ _ (-1)), bind_Ok.
    + by rewrite bool_decide_eq_false_2 by (by intros []).
    + apply Varint.varint_append. by vm_compute.
    + apply Varint.append_varint_pos.
Qed.

(** ** Record round trips *)

(** A nil header value is written, and read back, as an empty one. *)
Definition norm_value (v : option bytes) : option bytes := Some (default [] v).

Definition norm (r : Rec) : Rec :=
  {| Attributes := Attributes r; OffsetDelta := OffsetDelta r; Key := Key r;
     Value := Value r; Headers := norm_value <$> Headers r |}.

Definition put_header (hs acc : gmap bytes (option bytes)) (k : bytes) :=
  <[k := norm_value (mjoin (hs !! k))]> acc.

Lemma decode_headers_app hs ks p s acc :
  zlen (concat (appendHeader hs <$> ks) ++ s) < 2 ^ 63 →
  decode_headers (length ks) (good p (concat (appendHeader hs <$> ks) ++ s)) acc =
  Ok (foldl (put_header hs) acc ks, good (p ++ concat (appendHeader hs <$> ks)) s).
Proof.
  revert p acc. induction ks as [|k ks IH]; intros p acc Hl.
  { simpl. by rewrite app_nil_r. }
  cbn [decode_headers length fmap list_fmap concat foldl] in *.
  rewrite bool_decide_eq_false_2 by (by intros []).
  set (t := concat _) in *. unfold appendHeader in *.
  set (v := default [] (mjoin (hs !! k))) in *. rewrite <- !app_assoc in Hl |- *.
  rewrite !zlen_app in Hl.
  rewrite cursor_uvarint_app, bind_Ok by len.
  rewrite cursor_bytes_app, bind_Ok by len.
  rewrite cursor_uvarint_app, bind_Ok by len.
  rewrite cursor_bytes_app, bind_Ok by len.
  rewrite IH by len. by rewrite <- !app_assoc.
Qed.

Lemma foldl_put_header hs ks acc k :
  foldl (put_header hs) acc ks !! k =
  if bool_decide (k ∈ ks) then Some (norm_value (mjoin (hs !! k))) else acc !! k.
Proof.
  revert acc. induction ks as [|k' ks IH]; intros acc; [done|].
  cbn [foldl]. rewrite IH. unfold put_header. destruct (decide (k ∈ ks)).
  { by rewrite !bool_decide_eq_true_2 by set_solver. }
  rewrite bool_decide_eq_false_2 by done. destruct (decide (k = k')) as [->|Hne].
  - by rewrite lookup_insert_eq, bool_decide_eq_true_2 by set_solver.
  - rewrite lookup_insert_ne by done. rewrite bool_decide_eq_false_2; [done|].
    by intros [?|?]%elem_of_cons.
Qed.

Lemma put_headers_all hs :
  foldl (put_header hs) ∅ (BytesOrd.sorted_keys hs) = norm_value <$> hs.
Proof.
  apply map_eq. intros k. rewrite foldl_put_header, lookup_fmap.
  case_bool_decide as E; rewrite BytesOrd.elem_of_sorted_keys in E.
  - by destruct E as [v ->].
  - rewrite <- eq_None_not_Some in E. by rewrite E.
Qed.

Lemma appendHeader_pos hs k : 0 < zlen (appendHeader hs k).
Proof.
  unfold appendHeader. pose proof (Varint.append_uvarint_pos (zlen k)). len.
Qed.

Lemma encodeRecord_size r : Z.of_nat (size (Headers r)) ≤ zlen (encodeRecord r).
Proof.
  unfold encodeRecord. rewrite <- BytesOrd.length_sorted_keys.
  pose proof (zlen_concat_lower (appendHeader (Headers r))
    (BytesOrd.sorted_keys (Headers r)) (appendHeader_pos _)).
  fold (zlen (BytesOrd.sorted_keys (Headers r))). len.
Qed.

Lemma decodeRecord_encode r :
  in_uint 32 (OffsetDelta r) → zlen (encodeRecord r) < 2 ^ 63 →
  decodeRecord (encodeRecord r) = Ok (norm r).
Proof.
  intros Ho Hl. pose proof (encodeRecord_size r) as Hsz. unfold decodeRecord.
  change {| buf := encodeRecord r; pos := 0; err := None |} with (good [] (encodeRecord r)).
  remember (zlen (encodeRecord r)) as n eqn:Hn. unfold encodeRecord in *.
  set (ks := BytesOrd.sorted_keys (Headers r)) in *.
  rewrite cursor_byte_app, bind_Ok.
  rewrite cursor_uvarint_app, bind_Ok by len.
  rewrite cursor_field_app, bind_Ok by len.
  rewrite cursor_field_app, bind_Ok by len.
  rewrite cursor_uvarint_app, bind_Ok by len.
  rewrite Nat2Z.id, <- BytesOrd.length_sorted_keys. fold ks.
  rewrite <- (app_nil_r (concat _)), decode_headers_app, bind_Ok by len.
  rewrite err_good, pos_good, (proj2 (Z.eqb_eq _ _)).
  - cbn [negb]. rewrite uint_small by done. unfold ks. by rewrite put_headers_all.
  - rewrite Hn, <- BytesOrd.length_sorted_keys. fold ks. f_equal. by rewrite <- !app_assoc.
Qed.

Lemma frame_pos r : 0 < zlen (frame r).
Proof.
  unfold frame. pose proof (Varint.append_uvarint_pos (zlen (encodeRecord r))). len.
Qed.

Lemma decode_loop_app recs p s acc :
  Forall (λ r, in_uint 32 (OffsetDelta r)) recs →
  zlen (concat (frame <$> recs) ++ s) < 2 ^ 63 →
  decode_loop (length recs) (good p (concat (frame <$> recs) ++ s)) acc =
  Ok (acc ++ (norm <$> recs), good (p ++ concat (frame <$> recs)) s).
Proof.
  intros Ho. revert p acc. induction Ho as [|r recs Hr _ IH]; intros p acc Hl.
  { simpl. by rewrite !app_nil_r. }
  cbn [decode_loop length fmap list_fmap concat] in *.
  set (t := concat _) in *. unfold frame in *. rewrite <- !app_assoc in Hl |- *.
  rewrite cursor_uvarint_app, bind_Ok by len.
  rewrite cursor_bytes_app, bind_Ok by len.
  rewrite err_good. change (default [] (Some (encodeRecord r))) with (encodeRecord r).
  rewrite decodeRecord_encode by (done || len).
  rewrite IH by len. by rewrite <- !app_assoc.
Qed.

Lemma DecodeRecords_encode recs :
  Forall (λ r, in_uint 32 (OffsetDelta r)) recs → zlen (EncodeRecords [] recs) < 2 ^ 63 →
  DecodeRecords (EncodeRecords [] recs) (zlen recs) = Ok (norm <$> recs).
Proof.
  intros Ho Hl. unfold DecodeRecords, EncodeRecords in *. rewrite app_nil_l in *.
  rewrite to_nat_zlen. set (b := concat (frame <$> recs)) in *.
  change {| buf := b; pos := 0; err := None |} with (good [] b).
  rewrite <- (app_nil_r b) at 1. unfold b at 1. rewrite decode_loop_app, bind_Ok.
  - by rewrite pos_good, app_nil_l, Z.eqb_refl.
  - done.
  - by rewrite app_nil_r.
Qed.

(** ** Safety on arbitrary bytes *)

(** A cursor inside a buffer of a length Go can have. *)
Definition wf (c : cursor) : Prop := 0 ≤ pos c ≤ zlen (buf c) ∧ zlen (buf c) < 2 ^ 63.

(** A read that returns, leaves a well-formed cursor, and whose value has [P]. *)
Definition runs {A} (P : A → Prop) (o : outcome (A * cursor)) : Prop :=
  ∃ a c, o = Ok (a, c) ∧ wf c ∧ P a.

Lemma runs_bind {A B} (P : A → Prop) m (k : A * cursor → outcome B) :
  runs P m → (∀ a c, wf c → P a → k (a, c) ≠ Panic) → (m ≫= k) ≠ Panic.
Proof. intros (a & c & -> & Hc & Ha) Hk. by apply Hk. Qed.

Lemma runs_bind_runs {A B} (P : A → Prop) (Q : B → Prop) m k :
  runs P m → (∀ a c, wf c → P a → runs Q (k (a, c))) → runs Q (m ≫= k).
Proof. intros (a & c & -> & Hc & Ha) Hk. by apply Hk. Qed.

Lemma runs_ret {A} (P : A → Prop) a c : wf c → P a → runs P (Ok (a, c)).
Proof. intros. by exists a, c. Qed.

Lemma wf_fail c e : wf c → wf (fail c e).
Proof. unfold wf, fail. by destruct (err c). Qed.

#[local] Hint Resolve runs_ret wf_fail : core.

Lemma cursor_byte_runs c : wf c → runs (λ _, True) (cursor_byte c).
Proof.
  intros Hc. unfold cursor_byte. destruct (_ || _) eqn:E; [auto|].
  apply orb_false_elim in E as [_ E]. reflect_hyps. destruct Hc as [H1 H2].
  pose proof (index_not_Panic (buf c) (pos c)) as Hi.
  unfold index in *. destruct (0 <=? pos c); [|exfalso; apply Hi; [lia|done]].
  destruct (buf c !! Z.to_nat (pos c)); [|exfalso; apply Hi; [lia|done]].
  apply runs_ret; [|done]. unfold wf, advance. simpl. lia.
Qed.

Lemma cursor_int_runs P decode msg c :
  wf c → P 0 →
  (∀ b v n, decode b = (v, n) → 0 < n → n ≤ zlen b ∧ P v) →
  runs P (cursor_int decode msg c).
Proof.
  intros Hc H0 Hd. unfold cursor_int. case_bool_decide; [auto|].
  destruct Hc as [H1 H2]. unfold slice_from. rewrite slice_ok, bind_Ok by lia.
  set (r := take _ _). destruct (decode r) as [v n] eqn:E.
  destruct (n <=? 0) eqn:En; reflect_hyps; [apply runs_ret; [apply wf_fail; by split|done]|].
  destruct (Hd _ _ _ E En) as [Hn Hv]. apply runs_ret; [|done].
  assert (zlen r ≤ zlen (buf c) - pos c).
  { unfold r, zlen in *. rewrite length_take, length_drop. lia. }
  unfold wf, advance. simpl. lia.
Qed.

Lemma cursor_uvarint_runs c : wf c → runs (in_uint 64) (cursor_uvarint c).
Proof.
  intros Hc. apply cursor_int_runs; [done|by vm_compute|]. intros b v n E Hn.
  split; [by eapply Varint.uvarint_bound | by eapply Varint.uvarint_range].
Qed.

Lemma cursor_bytes_runs c n :
  wf c → in_uint 64 n → runs (λ b, zlen (default [] b) < 2 ^ 63) (cursor_bytes c n).
Proof.
  intros Hc Hn. unfold cursor_bytes. case_bool_decide; [by apply runs_ret|].
  destruct Hc as [H1 H2]. pose proof (zlen_nonneg (buf c)).
  rewrite uint_small by (unfold in_uint; lia).
  destruct (_ <? n) eqn:E; reflect_hyps; [apply runs_ret; [apply wf_fail; by split|done]|].
  unfold in_uint in Hn. rewrite sint_nonneg by lia. rewrite slice_ok, bind_Ok by lia.
  apply runs_ret; [unfold wf, advance; simpl; lia|]. simpl.
  unfold zlen in *. rewrite length_take, length_drop. lia.
Qed.

Lemma cursor_field_runs c : wf c → runs (λ _, True) (cursor_field c).
Proof.
  intros Hc. unfold cursor_field. apply (runs_bind_runs (λ _, True)).
  { apply cursor_int_runs; [done..|]. intros b v n E Hn.
    split; [by eapply Varint.varint_bound | done]. }
  intros n c' Hc' _. case_bool_decide; [auto|]. destruct (n =? -1); [auto|].
  destruct (n <? -1); [auto|].
  destruct (cursor_bytes_runs c' (uint 64 n)) as (b & c2 & -> & Hc2 & _); [done| |auto].
  by apply uint_range.
Qed.

Lemma decode_headers_runs k c hs : wf c → runs (λ _, True) (decode_headers k c hs).
Proof.
  revert c hs. induction k as [|k IH]; intros c hs Hc; cbn [decode_headers]; [auto|].
  case_bool_decide; [auto|].
  eapply runs_bind_runs; [by apply cursor_uvarint_runs|]. intros n1 c1 Hc1 Hn1.
  eapply runs_bind_runs; [by apply cursor_bytes_runs|]. intros b1 c2 Hc2 _.
  eapply runs_bind_runs; [by apply cursor_uvarint_runs|]. intros n2 c3 Hc3 Hn2.
  eapply runs_bind_runs; [by apply cursor_bytes_runs|]. intros b2 c4 Hc4 _. by apply IH.
Qed.

Lemma decodeRecord_not_Panic body : zlen body < 2 ^ 63 → decodeRecord body ≠ Panic.
Proof.
  intros Hl. pose proof (zlen_nonneg body). unfold decodeRecord.
  eapply runs_bind; [apply cursor_byte_runs; split; simpl; lia|]. intros a c Hc _.
  eapply runs_bind; [by apply cursor_uvarint_runs|]. intros o c1 Hc1 _.
  eapply runs_bind; [by apply cursor_field_runs|]. intros key c2 Hc2 _.
  eapply runs_bind; [by apply cursor_field_runs|]. intros val c3 Hc3 _.
  eapply runs_bind; [by apply cursor_uvarint_runs|]. intros n c4 Hc4 _.
  eapply runs_bind; [by apply decode_headers_runs|]. intros hs c5 Hc5 _.
  destruct (err c5); [done|]. by destruct (negb _).
Qed.

Lemma decode_loop_safe k c recs :
  wf c → decode_loop k c recs ≠ Panic ∧
  ∀ recs' c', decode_loop k c recs = Ok (recs', c') → length recs' = (length recs + k)%nat.
Proof.
  revert c recs. induction k as [|k IH]; intros c recs Hc; cbn [decode_loop].
  { split; [done|]. intros ?? [= <- <-]. lia. }
  destruct (cursor_uvarint_runs c Hc) as (n & c1 & -> & Hc1 & Hn). rewrite bind_Ok.
  destruct (cursor_bytes_runs c1 n Hc1 Hn) as (b & c2 & -> & Hc2 & Hb). rewrite bind_Ok.
  destruct (err c2); [done|].
  pose proof (decodeRecord_not_Panic _ Hb) as Hp.
  destruct (decodeRecord _) as [r| |]; [|done|done].
  destruct (IH c2 (recs ++ [r]) Hc2) as [IH1 IH2]. split; [done|].
  intros recs' c' E. rewrite (IH2 _ _ E), length_app. simpl. lia.
Qed.

Lemma DecodeRecords_safe payload n :
  zlen payload < 2 ^ 63 → DecodeRecords payload n ≠ Panic ∧
  ∀ recs, DecodeRecords payload n = Ok recs → length recs = Z.to_nat n.
Proof.
  intros Hl. pose proof (zlen_nonneg payload). unfold DecodeRecords.
  destruct (decode_loop_safe (Z.to_nat n) {| buf := payload; pos := 0; err := None |} [])
    as [H1 H2]; [split; simpl; lia|].
  destruct (decode_loop _ _ _) as [[recs c]| |]; [|done|done]. rewrite bind_Ok.
  destruct (negb _); [done|]. split; [done|]. intros ? [= <-]. by rewrite (H2 _ _ eq_refl).
Qed.

Lemma VerifyPayload_safe block : VerifyPayload block ≠ Panic.
Proof.
  unfold VerifyPayload. pose proof (DecodeHeader_not_Panic block) as Hp.
  destruct (DecodeHeader block) as [h| |] eqn:E; [|done|done]. rewrite bind_Ok.
  destruct (negb (zlen block =? _)) eqn:E1; [done|]. reflect_hyps.
  apply DecodeHeader_inv in E as ((_&_&_&_&_&_&_&_&_&_&_&_&_& Hc & _) & _).
  unfold in_uint, HeaderLen in *. unfold slice_from. rewrite slice_ok, bind_Ok by lia.
  by destruct (negb _).
Qed.

(** *** A decoded header value is never nil *)

Definition present (hs : gmap bytes (option bytes)) : Prop := map_Forall (λ _ v, is_Some v) hs.

Lemma cursor_bytes_present c n b c' :
  cursor_bytes c n = Ok (b, c') → err c' = None → err c = None ∧ is_Some b.
Proof.
  unfold cursor_bytes. case_bool_decide as E.
  { intros [= <- <-] H. by rewrite H in E. }
  destruct (_ <? n).
  { intros [= <- <-]. unfold fail. by rewrite E. }
  intros H. apply bind_Ok_inv in H as (x & _ & [= <- <-]). intros _. by split.
Qed.

Lemma decode_headers_present k c hs hs' c' :
  decode_headers k c hs = Ok (hs', c') → err c' = None → present hs → present hs'.
Proof.
  revert c hs. induction k as [|k IH]; intros c hs H He Hp; cbn [decode_headers] in H.
  { by injection H as <- <-. }
  case_bool_decide; [by injection H as <- <-|].
  apply bind_Ok_inv in H as ([n1 c1] & _ & H). apply bind_Ok_inv in H as ([b1 c2] & _ & H).
  apply bind_Ok_inv in H as ([n2 c3] & _ & H). apply bind_Ok_inv in H as ([b2 c4] & Hb & H).
  destruct (err c4) as [e|] eqn:E4.
  - destruct k as [|k]; cbn [decode_headers] in H;
      [|rewrite bool_decide_eq_true_2 in H by (by rewrite E4)];
      injection H as <- <-; congruence.
  - apply cursor_bytes_present in Hb as [_ Hb]; [|done].
    eapply IH; [exact H|done|]. by apply map_Forall_insert_2.
Qed.

Lemma decodeRecord_present body r : decodeRecord body = Ok r → present (Headers r).
Proof.
  unfold decodeRecord. intros H.
  apply bind_Ok_inv in H as ([a c1] & _ & H). apply bind_Ok_inv in H as ([o c2] & _ & H).
  apply bind_Ok_inv in H as ([key c3] & _ & H). apply bind_Ok_inv in H as ([val c4] & _ & H).
  apply bind_Ok_inv in H as ([n c5] & _ & H). apply bind_Ok_inv in H as ([hs c6] & Hh & H).
  destruct (err c6) eqn:E; [done|]. destruct (negb _); [done|]. injection H as <-.
  eapply decode_headers_present; [exact Hh|done|]. apply map_Forall_empty.
Qed.

Lemma decode_loop_present k c recs recs' c' :
  decode_loop k c recs = Ok (recs', c') →
  Forall (λ r, present (Headers r)) recs → Forall (λ r, present (Headers r)) recs'.
Proof.
  revert c recs. induction k as [|k IH]; intros c recs H Hp; cbn [decode_loop] in H.
  { by injection H as <- <-. }
  apply bind_Ok_inv in H as ([n c1] & _ & H). apply bind_Ok_inv in H as ([b c2] & _ & H).
  destruct (err c2); [done|]. destruct (decodeRecord _) as [r| |] eqn:Er; [|done|done].
  eapply IH; [exact H|]. apply Forall_app. split; [done|].
  apply Forall_singleton. by eapply decodeRecord_present.
Qed.

Lemma DecodeRecords_present payload n recs :
  DecodeRecords payload n = Ok recs → Forall (λ r, present (Headers r)) recs.
Proof.
  unfold DecodeRecords. intros H. apply bind_Ok_inv in H as ([recs' c] & Hl & H).
  destruct (negb _); [done|]. injection H as <-.
  eapply decode_loop_present; [exact Hl|by apply Forall_nil].
Qed.

(** ** Whole blocks, by their parts *)

(** The fields of a header a payload is checked against. *)
Definition same_payload (h h' : Header) : Prop :=
  Codec h' = Codec h ∧ Records h' = Records h ∧ LastOffsetDelta h' = LastOffsetDelta h ∧
  UncompressedLen h' = UncompressedLen h ∧ CompressedLen h' = CompressedLen h ∧
  PayloadCRC h' = PayloadCRC h.

(** What [DecodeBlock] does behind an accepted header. *)
Definition decode_payload `{CodecLib} (h : Header) (payload : bytes) : outcome (list Rec) :=
  payload ← (if negb (Codec h =? CNone) then
               match DecompressInto (Codec h) payload with
               | Fail _ => Fail (ErrV3Corrupt "decompress")
               | r => r
               end
             else Ok payload);
  if negb (zlen payload =? UncompressedLen h) then Fail (ErrV3Corrupt "payload length")
  else
    recs ← DecodeRecords payload (Records h);
    l ← index recs (zlen recs - 1);
    if negb (OffsetDelta l =? LastOffsetDelta h) then Fail (ErrV3Corrupt "last offset delta")
    else Ok recs.

Lemma VerifyPayload_sealed h p :
  hdr_ok h →
  VerifyPayload (sealed (fields h) ++ p) =
  if negb (zlen p =? CompressedLen h) then Fail (ErrV3Corrupt "block length")
  else if negb (Crc32.Checksum Crc32.Castagnoli p =? PayloadCRC h)
  then Fail (ErrV3Corrupt "payload CRC") else Ok h.
Proof.
  intros Hok. unfold VerifyPayload. rewrite decode_sealed, bind_Ok by done.
  rewrite zlen_app, zlen_sealed by done.
  replace (HeaderLen + zlen p =? HeaderLen + CompressedLen h) with (zlen p =? CompressedLen h).
  2: { unfold HeaderLen. destruct (zlen p =? _) eqn:E; reflect_hyps; symmetry;
       [apply Z.eqb_eq | apply Z.eqb_neq]; lia. }
  destruct (negb (zlen p =? _)); [done|].
  by rewrite slice_from_app, bind_Ok by (by rewrite zlen_sealed).
Qed.

Lemma DecodeBlock_sealed `{CodecLib} h p :
  hdr_ok h →
  DecodeBlock (sealed (fields h) ++ p) =
  (_ ← VerifyPayload (sealed (fields h) ++ p); recs ← decode_payload h p; Ok (h, recs)).
Proof.
  intros Hok. unfold DecodeBlock. rewrite VerifyPayload_sealed by done.
  destruct (negb (zlen p =? _)); [done|]. destruct (negb (_ =? PayloadCRC h)); [done|].
  rewrite !bind_Ok, slice_from_app, bind_Ok by (by rewrite zlen_sealed).
  unfold decode_payload.
  destruct (if negb (Codec h =? CNone) then _ else _) as [payload| |]; [|done|done].
  rewrite !bind_Ok. destruct (negb _); [done|].
  destruct (DecodeRecords payload (Records h)) as [recs| |]; [|done|done]. rewrite !bind_Ok.
  destruct (index recs _) as [l| |]; [|done|done]. rewrite !bind_Ok. by destruct (negb _).
Qed.

Lemma VerifyPayload_inv block h :
  VerifyPayload block = Ok h →
  hdr_ok h ∧ ∃ p, block = sealed (fields h) ++ p ∧ zlen p = CompressedLen h ∧
                  Crc32.Checksum Crc32.Castagnoli p = PayloadCRC h.
Proof.
  intros E. assert (∃ h', DecodeHeader block = Ok h') as [h' Hd].
  { unfold VerifyPayload in E. apply bind_Ok_inv in E as (h' & Hd & _). eauto. }
  apply DecodeHeader_inv in Hd as [Hok [p ->]]. rewrite VerifyPayload_sealed in E by done.
  destruct (negb (zlen p =? _)) eqn:E1; [done|].
  destruct (negb (_ =? PayloadCRC h')) eqn:E2; [done|]. reflect_hyps.
  injection E as ->. split; [done|]. by exists p.
Qed.

Lemma DecodeBlock_inv `{CodecLib} block h recs :
  DecodeBlock block = Ok (h, recs) →
  hdr_ok h ∧ ∃ p, block = sealed (fields h) ++ p ∧ zlen p = CompressedLen h ∧
                  Crc32.Checksum Crc32.Castagnoli p = PayloadCRC h ∧
                  decode_payload h p = Ok recs.
Proof.
  intros E. pose proof E as E0. unfold DecodeBlock in E0.
  apply bind_Ok_inv in E0 as (h' & Hv & _). pose proof Hv as Hv'.
  apply VerifyPayload_inv in Hv' as [Hok (p & -> & Hl & Hc)].
  rewrite DecodeBlock_sealed, Hv, bind_Ok in E by done.
  apply bind_Ok_inv in E as (recs' & Hp & [= -> ->]). split; [done|]. by exists p.
Qed.

Lemma DecodeBlock_ok `{CodecLib} h p recs :
  hdr_ok h → zlen p = CompressedLen h →
  Crc32.Checksum Crc32.Castagnoli p = PayloadCRC h → decode_payload h p = Ok recs →
  DecodeBlock (sealed (fields h) ++ p) = Ok (h, recs).
Proof.
  intros Hok Hl Hc Hp. rewrite DecodeBlock_sealed, VerifyPayload_sealed by done.
  by rewrite Hl, Hc, !Z.eqb_refl, Hp.
Qed.

(** Re-heading a block: the records only depend on the payload fields. *)
Lemma DecodeBlock_reheaded `{CodecLib} h h' p recs :
  hdr_ok h → hdr_ok h' → same_payload h h' →
  DecodeBlock (sealed (fields h) ++ p) = Ok (h, recs) →
  DecodeBlock (sealed (fields h') ++ p) = Ok (h', recs).
Proof.
  intros Hok Hok' (E1 & E2 & E3 & E4 & E5 & E6) E.
  rewrite DecodeBlock_sealed, VerifyPayload_sealed in E |- * by done.
  unfold decode_payload in *. rewrite E1, E2, E3, E4, E5, E6.
  destruct (negb (zlen p =? _)); [done|]. destruct (negb (_ =? PayloadCRC h)); [done|].
  rewrite !bind_Ok in E |- *. apply bind_Ok_inv in E as (recs' & -> & [= ->]). done.
Qed.

Lemma drop_sealed h p : drop (Z.to_nat HeaderLen) (sealed (fields h) ++ p) = p.
Proof.
  rewrite <- (zlen_sealed (fields h)) by done. by rewrite to_nat_zlen, drop_app_length.
Qed.

Lemma last_index {A} (l : list A) x : last l = Some x → index l (zlen l - 1) = Ok x.
Proof.
  intros H. apply last_Some in H as [l' ->]. apply index_app_mid.
  rewrite zlen_app. change (zlen [x]) with 1. lia.
Qed.

Lemma length_sealed h : length (sealed (fields h)) = 76%nat.
Proof.
  pose proof (zlen_sealed (fields h) eq_refl) as H. unfold zlen, HeaderLen in H. lia.
Qed.

Lemma sealed_one_byte vs vs' i x y :
  length vs = 16%nat → length vs' = 16%nat →
  sealed vs !! i = Some y → x ≠ y → <[i:=x]> (sealed vs) ≠ sealed vs'.
Proof.
  intros Hl Hl' Hi Hne E. unfold sealed in *.
  assert (S : ∀ l, Crc32.seals Crc32.Castagnoli (BigEndian.put 4 (crc_of l))
                               (Layout.put_fields widths l)).
  { intros l. unfold Crc32.seals. symmetry.
    apply BigEndian.get_put_uint, Crc32.castagnoli_range. }
  destruct (insert_app_cases _ _ _ x _ Hi) as [[Hi' Ei]|[Hi' Ei]]; rewrite Ei in E;
    (apply app_inj_1 in E as [E1 E2];
      [|by rewrite ?length_insert, !Layout.length_put_fields]);
    pose proof (S vs') as S'; rewrite <- E1, <- E2 in S'; revert S'.
  - by eapply Crc32.seal_body; [apply Crc32.Castagnoli_ok|..].
  - by eapply Crc32.seal_crc.
Qed.

Lemma decode_payload_safe `{CodecLib} h p :
  hdr_ok h → decode_payload h p ≠ Panic ∧
  ∀ recs, decode_payload h p = Ok recs →
    zlen recs = Records h ∧ ∃ l, last recs = Some l ∧ OffsetDelta l = LastOffsetDelta h.
Proof.
  intros Hok. unfold decode_payload.
  assert (Hr : 0 < Records h < 2 ^ 32) by apply Hok.
  assert (Hu : in_uint 32 (UncompressedLen h)) by apply Hok.
  set (r := if negb (Codec h =? CNone) then _ else _).
  assert (Hnp : r ≠ Panic).
  { unfold r. destruct (negb _); [|done]. pose proof (DecompressInto_not_Panic (Codec h) p).
    by destruct (DecompressInto _ _). }
  destruct r as [logical| |]; [|done|done]. rewrite bind_Ok.
  destruct (negb (zlen logical =? _)) eqn:E; [done|]. reflect_hyps.
  destruct (DecodeRecords_safe logical (Records h)) as [H1 H2]; [unfold in_uint in Hu; lia|].
  destruct (DecodeRecords _ _) as [recs| |]; [|done|done]. rewrite bind_Ok.
  specialize (H2 _ eq_refl).
  destruct (last recs) as [l|] eqn:El.
  2: { apply last_None in El. subst recs. simpl in H2. lia. }
  rewrite (last_index _ l El), bind_Ok.
  destruct (negb (OffsetDelta l =? _)) eqn:E2; [done|]. reflect_hyps.
  split; [done|]. intros ? [= <-]. split; [unfold zlen; lia|]. eauto.
Qed.

Lemma DecodeBlock_present `{CodecLib} block h recs :
  DecodeBlock block = Ok (h, recs) → Forall (λ r, present (Headers r)) recs.
Proof.
  intros E. apply DecodeBlock_inv in E as [_ (p & _ & _ & _ & Hp)]. unfold decode_payload in Hp.
  apply bind_Ok_inv in Hp as (logical & _ & Hp). destruct (negb _); [done|].
  apply bind_Ok_inv in Hp as (recs' & Hr & Hp). apply bind_Ok_inv in Hp as (l & _ & Hp).
  destruct (negb _); [done|]. injection Hp as <-. by eapply DecodeRecords_present.
Qed.

(** What [EncodeBlock] stores. *)
Definition stored `{CodecLib} (codec : Z) (logical : bytes) : Z * bytes :=
  if negb (codec =? CNone) then
    let c := Compress codec logical in
    if zlen c <? zlen logical then (codec, c) else (CNone, logical)
  else (codec, logical).

Lemma stored_spec `{CodecLaws} codec logical c payload :
  0 ≤ codec → Valid codec = true → stored codec logical = (c, payload) →
  (c = codec ∨ c = CNone) ∧ 0 ≤ c ∧ Valid c = true ∧ zlen payload ≤ zlen logical ∧
  (if negb (c =? CNone) then DecompressInto c payload else Ok payload) = Ok logical.
Proof.
  intros H0 Hv. unfold stored. destruct (codec =? CNone) eqn:E; cbn [negb].
  { intros [= <- <-]. rewrite E. cbn [negb]. split_and!; auto; lia. }
  destruct (_ <? _) eqn:El; reflect_hyps; intros [= <- <-].
  - rewrite (proj2 (Z.eqb_neq _ _)) by done. cbn [negb].
    rewrite decompress_compress by done. split_and!; auto; lia.
  - split_and!; try done; by right.
Qed.

(** The fields [EncodeBlock] takes from its argument as given. *)
Definition stamp_ok (h : Header) : Prop :=
  0 ≤ Codec h ∧ Valid (Codec h) = true ∧ in_uint 8 (Flags h) ∧
  in_sint 64 (BaseOffset h) ∧ in_uint 64 (LeaderEpoch h) ∧
  in_sint 64 (BaseTimestamp h) ∧ in_sint 64 (ProducerID h) ∧
  in_sint 32 (ProducerEpoch h) ∧ in_sint 32 (BaseSequence h) ∧ in_uint 64 (TxNonce h).

Definition same_stamp (h h' : Header) : Prop :=
  Flags h' = Flags h ∧ BaseOffset h' = BaseOffset h ∧ LeaderEpoch h' = LeaderEpoch h ∧
  BaseTimestamp h' = BaseTimestamp h ∧ ProducerID h' = ProducerID h ∧
  ProducerEpoch h' = ProducerEpoch h ∧ BaseSequence h' = BaseSequence h ∧
  TxNonce h' = TxNonce h.

Lemma EncodeBlock_sealed `{CodecLib} h recs l codec payload :
  last recs = Some l → stored (Codec h) (EncodeRecords [] recs) = (codec, payload) →
  EncodeBlock h recs =
  Ok (sealed (fields (set_payload h codec (zlen recs) (OffsetDelta l)
                        (EncodeRecords [] recs) payload)) ++ payload).
Proof.
  intros Hl Hs. unfold EncodeBlock. rewrite Hl.
  change (if negb (Codec h =? CNone) then _ else _)
    with (stored (Codec h) (EncodeRecords [] recs)).
  by rewrite Hs, EncodeHeader_sealed.
Qed.

Lemma zlen_recs_le recs : zlen recs ≤ zlen (EncodeRecords [] recs).
Proof. unfold EncodeRecords. apply zlen_concat_lower, frame_pos. Qed.

Lemma set_payload_ok h codec recs l logical payload :
  stamp_ok h → 0 ≤ codec → Valid codec = true → 0 < recs < 2 ^ 32 → in_uint 32 l →
  hdr_ok (set_payload h codec recs l logical payload).
Proof.
  intros (_ & _ & Hs) Hc Hv Hr Hl. unfold hdr_ok, set_payload. simpl.
  rewrite uint_small by (unfold in_uint; lia).
  pose proof (uint_range 32 (zlen logical)). pose proof (uint_range 32 (zlen payload)).
  pose proof (Crc32.castagnoli_range payload). destruct Hs as (?&?&?&?&?&?&?&?).
  split_and!; try done; try lia; eauto with lia.
Qed.

Lemma decode_payload_stored `{CodecLaws} h recs l codec payload :
  last recs = Some l → Forall (λ r, in_uint 32 (OffsetDelta r)) recs →
  zlen (EncodeRecords [] recs) < 2 ^ 32 →
  (if negb (codec =? CNone) then DecompressInto codec payload else Ok payload) =
    Ok (EncodeRecords [] recs) →
  decode_payload (set_payload h codec (zlen recs) (OffsetDelta l) (EncodeRecords [] recs) payload)
    payload = Ok (norm <$> recs).
Proof.
  intros El Hd Hl Hdec. pose proof (zlen_recs_le recs).
  unfold decode_payload. cbn [Codec UncompressedLen Records LastOffsetDelta set_payload].
  replace (if negb (codec =? CNone) then _ else _) with (Ok (EncodeRecords [] recs)).
  2: { rewrite <- Hdec. destruct (negb _); [|done]. by rewrite Hdec. }
  rewrite bind_Ok, uint_small, Z.eqb_refl by len. cbn [negb]. rewrite uint_small by len.
  rewrite DecodeRecords_encode, bind_Ok by (done || lia).
  rewrite (last_index _ (norm l)), bind_Ok by (by rewrite fmap_last, El).
  by rewrite Z.eqb_refl.
Qed.

(** C37: Encoding a block and decoding it gives the records back, whatever the
    codec, with every header field the caller chose as given: only a nil header
    value of a record comes back as an empty one, and a codec that does not
    shrink the payload is replaced by none.  The records are decodable from the
    block alone. *)
Theorem v3_block_roundtrip `{CodecLaws} h recs :
  stamp_ok h → recs ≠ [] → Forall (λ r, in_uint 32 (OffsetDelta r)) recs →
  zlen (EncodeRecords [] recs) < 2 ^ 32 →
  ∃ block h', EncodeBlock h recs = Ok block ∧ DecodeBlock block = Ok (h', norm <$> recs) ∧
    same_stamp h h' ∧ (Codec h' = Codec h ∨ Codec h' = CNone) ∧
    Records h' = zlen recs ∧ zlen block ≤ HeaderLen + zlen (EncodeRecords [] recs).
Proof.
  intros Hs Hne Hd Hl.
  destruct (last recs) as [l|] eqn:El; [|by apply last_None in El].
  destruct (stored (Codec h) (EncodeRecords [] recs)) as [codec payload] eqn:Est.
  pose proof Est as Est'. apply stored_spec in Est' as (Hcc & Hc0 & Hcv & Hpl & Hdec);
    [|apply Hs|apply Hs].
  pose proof (zlen_recs_le recs). pose proof (zlen_nonneg payload).
  assert (0 < zlen recs) by (destruct recs; [done|rewrite zlen_cons; len]).
  set (h' := set_payload h codec (zlen recs) (OffsetDelta l) (EncodeRecords [] recs) payload).
  assert (Hld : in_uint 32 (OffsetDelta l)).
  { eapply Forall_forall in Hd; [exact Hd|]. apply last_Some_elem_of, El. }
  exists (sealed (fields h') ++ payload), h'. split; [by apply EncodeBlock_sealed|].
  split; [apply DecodeBlock_ok|].
  - apply set_payload_ok; [done..|lia|done].
  - unfold h'. simpl. by rewrite uint_small by len.
  - done.
  - by apply decode_payload_stored.
  - split; [done|]. split; [done|]. split; [|rewrite zlen_app, zlen_sealed; [lia|done]].
    unfold h'. simpl. by rewrite uint_small by len.
Qed.

(** The header encoding is a bijection on the headers it accepts: decoding
    what [EncodeHeader] appended returns the header, no byte string makes
    [DecodeHeader] panic, and one it accepts begins with exactly the bytes
    [EncodeHeader] would write for the header it returns. *)
Theorem v3_header_canonical b :
  (∀ h dst, hdr_ok h → ∃ e, EncodeHeader dst h = Ok (dst ++ e) ∧
     zlen e = HeaderLen ∧ DecodeHeader (e ++ b) = Ok h) ∧
  DecodeHeader b ≠ Panic ∧
  (∀ h, DecodeHeader b = Ok h →
     hdr_ok h ∧ EncodeHeader [] h = Ok (take (Z.to_nat HeaderLen) b)).
Proof.
  split; [|split; [apply DecodeHeader_not_Panic|]].
  - intros h dst Hok. exists (sealed (fields h)). split; [apply EncodeHeader_sealed|].
    split; [by apply zlen_sealed | by apply decode_sealed].
  - intros h Hd. apply DecodeHeader_inv in Hd as [Hok [s ->]]. split; [done|].
    rewrite EncodeHeader_sealed, <- (zlen_sealed (fields h)) by done.
    by rewrite to_nat_zlen, take_app_length.
Qed.

(** Assigning offsets rewrites the header alone.  [Rewrite] on any block
    that decodes returns a block of the same payload bytes, which decodes to
    the same records under the same header but for the three fields the
    appending log owns. *)
Theorem v3_rewrite_keeps_records `{CodecLib} block h recs bo le bt :
  DecodeBlock block = Ok (h, recs) → in_sint 64 bo → in_uint 64 le → in_sint 64 bt →
  ∃ block', Rewrite block bo le bt = Ok block' ∧
    DecodeBlock block' = Ok (rewritten h bo le bt, recs) ∧
    drop (Z.to_nat HeaderLen) block' = drop (Z.to_nat HeaderLen) block.
Proof.
  intros Hd Hbo Hle Hbt. pose proof Hd as Hd'.
  apply DecodeBlock_inv in Hd' as [Hok (p & -> & _)].
  exists (sealed (fields (rewritten h bo le bt)) ++ p). split; [by apply Rewrite_sealed|].
  split; [|by rewrite !drop_sealed].
  by apply (DecodeBlock_reheaded h); [|apply rewritten_ok|split_and!|].
Qed.

(** The flags the identity edits leave, bit by bit. *)
Lemma restamped_flags_bits flags nonce i :
  Z.testbit (restamped_flags flags nonce) i =
  if 1 =? i then negb (nonce =? 0) else if 2 =? i then false else Z.testbit flags i.
Proof.
  unfold restamped_flags, FlagTransactional, FlagStripped. rewrite !Z.shiftl_1_l.
  destruct (nonce =? 0); cbn [negb]; rewrite ?Z.lor_spec, Z.ldiff_spec, Z.lor_spec;
    rewrite !Z.pow2_bits_eqb by lia;
    destruct (1 =? i) eqn:E1, (2 =? i) eqn:E2, (Z.testbit flags i); reflect_hyps;
    first [done | lia].
Qed.

Lemma stripped_flags_bits flags i :
  Z.testbit (stripped_flags flags) i =
  if 1 =? i then false else if 2 =? i then true else Z.testbit flags i.
Proof.
  unfold stripped_flags, FlagTransactional, FlagStripped. rewrite !Z.shiftl_1_l.
  rewrite Z.lor_spec, Z.ldiff_spec, !Z.pow2_bits_eqb by lia.
  destruct (1 =? i) eqn:E1, (2 =? i) eqn:E2, (Z.testbit flags i); reflect_hyps;
    first [done | lia].
Qed.

Lemma byte_bits z : in_uint 8 z ↔ z = z mod 2 ^ 8.
Proof.
  unfold in_uint. split; [intros; by rewrite Z.mod_small|].
  intros ->. apply Z.mod_pos_bound. lia.
Qed.

(** Bits below the eighth edited, the rest kept: still a byte. *)
Lemma bits_in_uint8 f g :
  in_uint 8 f → (∀ i, 8 ≤ i → Z.testbit g i = Z.testbit f i) → in_uint 8 g.
Proof.
  intros Hf Hg. apply byte_bits. apply Z.bits_inj'. intros i Hi.
  destruct (Z.lt_ge_cases i 8).
  - by rewrite Z.mod_pow2_bits_low by lia.
  - rewrite Z.mod_pow2_bits_high, Hg by lia. rewrite (proj1 (byte_bits f) Hf).
    by rewrite Z.mod_pow2_bits_high by lia.
Qed.

Lemma restamped_flags_range flags nonce :
  in_uint 8 flags → in_uint 8 (restamped_flags flags nonce).
Proof.
  intros H. apply (bits_in_uint8 flags); [done|]. intros i Hi.
  rewrite restamped_flags_bits, !(proj2 (Z.eqb_neq _ i)) by lia. done.
Qed.

Lemma stripped_flags_range flags : in_uint 8 flags → in_uint 8 (stripped_flags flags).
Proof.
  intros H. apply (bits_in_uint8 flags); [done|]. intros i Hi.
  rewrite stripped_flags_bits, !(proj2 (Z.eqb_neq _ i)) by lia. done.
Qed.

Lemma strip_restamped_flags flags nonce :
  stripped_flags (restamped_flags flags nonce) = stripped_flags flags.
Proof.
  apply Z.bits_inj. intros i. rewrite !stripped_flags_bits, restamped_flags_bits.
  by destruct (1 =? i), (2 =? i).
Qed.

(** The identity edits.  On any block that decodes, [Restamp] leaves the
    given producer identity, the transactional flag set exactly when the nonce
    is not zero and the stripped flag clear; [Strip] leaves no identity, the
    stripped flag set and the transactional flag clear; neither touches another
    flag, another header field or a record; and stripping a restamped block
    gives the very bytes stripping the block gives. *)
Theorem v3_identity_edits `{CodecLib} block h recs pid pe bs nonce :
  DecodeBlock block = Ok (h, recs) → identity_ok pid pe bs nonce →
  ∃ b1 b2 f1 f2,
    Restamp block pid pe bs nonce = Ok b1 ∧ Strip block = Ok b2 ∧ Strip b1 = Ok b2 ∧
    DecodeBlock b1 = Ok (identified h f1 pid pe bs nonce, recs) ∧
    DecodeBlock b2 = Ok (identified h f2 0 0 0 0, recs) ∧
    (∀ i, Z.testbit f1 i = if 1 =? i then negb (nonce =? 0)
                           else if 2 =? i then false else Z.testbit (Flags h) i) ∧
    (∀ i, Z.testbit f2 i = if 1 =? i then false
                           else if 2 =? i then true else Z.testbit (Flags h) i).
Proof.
  intros Hd Hid. pose proof Hd as Hd'.
  apply DecodeBlock_inv in Hd' as [Hok (p & -> & _)].
  assert (Hf : in_uint 8 (Flags h)) by apply Hok.
  set (h1 := identified h (restamped_flags (Flags h) nonce) pid pe bs nonce).
  set (h2 := identified h (stripped_flags (Flags h)) 0 0 0 0).
  assert (hdr_ok h1) by (apply identified_ok; auto using restamped_flags_range).
  assert (hdr_ok h2).
  { apply identified_ok; auto using stripped_flags_range. by vm_compute. }
  exists (sealed (fields h1) ++ p), (sealed (fields h2) ++ p).
  exists (restamped_flags (Flags h) nonce), (stripped_flags (Flags h)).
  split; [by apply Restamp_sealed|]. split; [by apply Strip_sealed|].
  split. { rewrite Strip_sealed by done. simpl Flags. by rewrite strip_restamped_flags. }
  split; [by apply (DecodeBlock_reheaded h); [| |split_and!|]|].
  split; [by apply (DecodeBlock_reheaded h); [| |split_and!|]|].
  split; [apply restamped_flags_bits | apply stripped_flags_bits].
Qed.

Lemma DecodeBlock_safe `{CodecLib} block : DecodeBlock block ≠ Panic.
Proof.
  intros E. pose proof (VerifyPayload_safe block) as Hv.
  destruct (VerifyPayload block) as [h| |] eqn:Ev;
    [|by unfold DecodeBlock in E; rewrite Ev in E|done].
  apply VerifyPayload_inv in Ev as [Hok (p & -> & Hl & Hc)].
  rewrite DecodeBlock_sealed, VerifyPayload_sealed, Hl, Hc, !Z.eqb_refl in E by done.
  cbn [negb] in E. rewrite bind_Ok in E. revert E.
  apply bind_not_Panic; [by apply decode_payload_safe|done].
Qed.

Lemma DecodeBlock_count `{CodecLib} block h recs :
  DecodeBlock block = Ok (h, recs) → zlen recs < 2 ^ 32.
Proof.
  intros E. apply DecodeBlock_inv in E as [Hok (p & _ & _ & _ & Hp)].
  apply decode_payload_safe in Hp as [-> _]; [|done]. apply Hok.
Qed.

(** No byte string makes the decoder panic, and what it accepts has been
    checked: the payload's length and CRC are the header's, the header holds at
    least one record, as many records come back as it claims and the last one's
    offset delta is the header's. *)
Theorem v3_decode_checked `{CodecLib} block :
  DecodeBlock block ≠ Panic ∧
  ∀ h recs, DecodeBlock block = Ok (h, recs) →
    zlen block = HeaderLen + CompressedLen h ∧
    Crc32.Checksum Crc32.Castagnoli (drop (Z.to_nat HeaderLen) block) = PayloadCRC h ∧
    zlen recs = Records h ∧ 0 < Records h ∧
    ∃ l, last recs = Some l ∧ OffsetDelta l = LastOffsetDelta h.
Proof.
  split; [apply DecodeBlock_safe|].
  intros h recs E. apply DecodeBlock_inv in E as [Hok (p & -> & Hl & Hc & Hp)].
  rewrite zlen_app, zlen_sealed, drop_sealed by done.
  apply decode_payload_safe in Hp as [Hlen Hlast]; [|done].
  assert (0 < Records h) by apply Hok. split_and!; try done; lia.
Qed.

(** Any single byte of a block may be damaged, header or payload, and the
    block is refused: [VerifyPayload] answers an error for a block it accepted
    once one byte is replaced by another value. *)
Theorem v3_corruption_detected block h i x y :
  VerifyPayload block = Ok h → block !! i = Some y → x ≠ y →
  ∃ e, VerifyPayload (<[i:=x]> block) = Fail e.
Proof.
  intros Hv Hi Hne. pose proof (VerifyPayload_safe (<[i:=x]> block)) as Hs.
  destruct (VerifyPayload (<[i:=x]> block)) as [h'|e|] eqn:Hv'; [exfalso|by exists e|done].
  clear Hs.
  apply VerifyPayload_inv in Hv as [Hok (p & -> & Hl & Hc)].
  apply VerifyPayload_inv in Hv' as [Hok' (p' & E & Hl' & Hc')].
  destruct (insert_app_cases _ _ _ x _ Hi) as [[Hi' Ei]|[Hi' Ei]]; rewrite Ei in E.
  - apply app_inj_1 in E as [E _].
    2: { rewrite length_insert. by rewrite !length_sealed. }
    by apply (sealed_one_byte (fields h) (fields h') _ _ _ eq_refl eq_refl Hi' Hne).
  - apply app_inj_1 in E as [E <-]; [|by rewrite !length_sealed].
    assert (h' = h) as ->.
    { pose proof (decode_sealed h [] Hok) as D. rewrite E, decode_sealed in D by done.
      by injection D. }
    rewrite <- Hc in Hc'. revert Hc'.
    set (j := (i - length (sealed (fields h)))%nat) in *.
    rewrite insert_take_drop by (by eapply lookup_lt_Some).
    rewrite <- (take_drop_middle p j y Hi') at 3.
    by apply Crc32.Checksum_one_byte; [apply Crc32.Castagnoli_ok..|].
Qed.

(** *** Witnesses *)

Definition sample_bytes (l : list Z) : bytes := byte.of_Z <$> l.

Definition sample_header : Header :=
  {| Codec := CZstd; Flags := FlagTransactional; BaseOffset := 4100; LeaderEpoch := 7;
     BaseTimestamp := 1700000000; ProducerID := 12; ProducerEpoch := 3; BaseSequence := 90;
     TxNonce := 5; Records := 0; LastOffsetDelta := 0; UncompressedLen := 0;
     CompressedLen := 0; PayloadCRC := 0 |}.

Definition sample_recs : list Rec := [
  {| Attributes := byte.of_Z 0; OffsetDelta := 0; Key := Some (sample_bytes [107; 49]);
     Value := Some []; Headers := {[ sample_bytes [104] := None ]} |};
  {| Attributes := byte.of_Z 2; OffsetDelta := 3; Key := Some (sample_bytes [107; 50]);
     Value := None; Headers := ∅ |} ].

Definition sample_block : bytes :=
  match @EncodeBlock half_lib sample_header sample_recs with Ok b => b | _ => [] end.

Definition sample_decoded : Header * list Rec :=
  match @DecodeBlock half_lib sample_block with Ok r => r | _ => (sample_header, []) end.

Lemma sample_decodes : @DecodeBlock half_lib sample_block = Ok sample_decoded.
Proof. vm_compute. reflexivity. Qed.

Lemma v3_block_roundtrip_witness :
  ∃ block h', @EncodeBlock half_lib sample_header sample_recs = Ok block ∧
    @DecodeBlock half_lib block = Ok (h', norm <$> sample_recs) ∧
    same_stamp sample_header h' ∧ (Codec h' = CZstd ∨ Codec h' = CNone) ∧
    Records h' = 2 ∧ zlen block ≤ HeaderLen + zlen (EncodeRecords [] sample_recs).
Proof.
  apply (@v3_block_roundtrip half_lib half_laws sample_header sample_recs).
  - unfold stamp_ok, in_uint, in_sint. split_and!; by vm_compute.
  - done.
  - repeat (apply Forall_cons; split); [by vm_compute..|done].
  - by vm_compute.
Defined.

Lemma v3_rewrite_keeps_records_witness :
  ∃ block', Rewrite sample_block 9000 8 1700000001 = Ok block' ∧
    @DecodeBlock half_lib block' =
      Ok (rewritten sample_decoded.1 9000 8 1700000001, sample_decoded.2) ∧
    drop (Z.to_nat HeaderLen) block' = drop (Z.to_nat HeaderLen) sample_block.
Proof.
  apply (@v3_rewrite_keeps_records half_lib sample_block sample_decoded.1 sample_decoded.2).
  - rewrite sample_decodes. by destruct sample_decoded.
  - by vm_compute.
  - by vm_compute.
  - by vm_compute.
Defined.

Lemma v3_identity_edits_witness :
  ∃ b1 b2 f1 f2,
    Restamp sample_block 44 1 0 0 = Ok b1 ∧ Strip sample_block = Ok b2 ∧ Strip b1 = Ok b2 ∧
    @DecodeBlock half_lib b1 =
      Ok (identified sample_decoded.1 f1 44 1 0 0, sample_decoded.2) ∧
    @DecodeBlock half_lib b2 = Ok (identified sample_decoded.1 f2 0 0 0 0, sample_decoded.2) ∧
    (∀ i, Z.testbit f1 i = if 1 =? i then negb (0 =? 0)
                           else if 2 =? i then false else Z.testbit (Flags sample_decoded.1) i) ∧
    (∀ i, Z.testbit f2 i = if 1 =? i then false
                           else if 2 =? i then true else Z.testbit (Flags sample_decoded.1) i).
Proof.
  apply (@v3_identity_edits half_lib sample_block sample_decoded.1 sample_decoded.2).
  - rewrite sample_decodes. by destruct sample_decoded.
  - by vm_compute.
Defined.

Lemma v3_corruption_detected_witness :
  ∃ e, VerifyPayload (<[80%nat:=byte.of_Z 255]> sample_block) = Fail e.
Proof.
  apply (v3_corruption_detected sample_block sample_decoded.1 80 (byte.of_Z 255)
           (default (byte.of_Z 0) (sample_block !! 80%nat))).
  - vm_compute. reflexivity.
  - vm_compute. reflexivity.
  - vm_compute. discriminate.
Defined.

End blockv3.
