(* ===== verification/Block.v ===== *)
(** * Blocks and block tables: block.go, block_table.go, block_table_local.go *)

From Stdlib Require Import ZArith Lia.
From stdpp Require Import base list numbers strings.
From coqutil Require Import Byte.
From S2P Require Import Prelude GoStd Compress BlockV3.

Open Scope Z_scope.

Definition blockMagic : Z := 0xC1.
Definition BlockFormatVersion : Z := 2.
Definition blockHeaderLen : Z := 15.

Record blockRef := {
  logicalStart : Z;
  logicalLen : Z;
  physStart : Z;
  physLen : Z;
  codec : Z;
  records : Z;
  version : Z;
  flags : Z;
}.

#[export] Instance blockRef_eq_dec : EqDecision blockRef.
Proof. solve_decision. Defined.

Definition mergeable (b : blockRef) : bool :=
  negb (version b =? blockv3.Version) ||
  (negb (Z.land (flags b) blockv3.FlagStripped =? 0) && (Z.land (flags b) blockv3.FlagControl =? 0)).

Definition headerLen (b : blockRef) : Z :=
  if version b =? blockv3.Version then blockv3.HeaderLen else blockHeaderLen.

Definition payloadStart (b : blockRef) : Z := physStart b + headerLen b.
Definition payloadLen (b : blockRef) : Z := physLen b - headerLen b.

(** ** Version-2 block headers *)

Definition encodeBlockHeader (codec uncompressedLen compressedLen records : Z) : bytes :=
  [byte.of_Z blockMagic; byte.of_Z BlockFormatVersion; byte.of_Z codec] ++
  BigEndian.put 4 uncompressedLen ++ BigEndian.put 4 compressedLen ++
  BigEndian.put 4 records.

(** [encoding.Uint32(b[at:])]. *)
Definition uint32_at (b : bytes) (at_ : Z) : outcome Z :=
  uint_at 4 b at_.

Definition parseBlockHeader (hdr : bytes) : outcome (Z * Z * Z * Z) :=
  if zlen hdr <? blockHeaderLen then Fail (ErrSegmentUnreadable "short block header")
  else
    magic ← byte_at hdr 0;
    if negb (magic =? blockMagic) then Fail (ErrSegmentUnreadable "bad block magic")
    else
      v ← byte_at hdr 1;
      if negb (v =? BlockFormatVersion) then Fail ErrBlockFormat
      else
        c ← byte_at hdr 2;
        if negb (Valid c) then Fail (ErrSegmentUnreadable "unknown block codec")
        else
          r ← uint32_at hdr 11;
          if r =? 0 then Fail (ErrSegmentUnreadable "block header claims no records")
          else
            u ← uint32_at hdr 3;
            p ← uint32_at hdr 7;
            Ok (c, u, p, r).

(** ** Block tables *)

Definition blockTableMagic : Z := 0x42.
Definition blockTableVersion : Z := 4.
Definition blockTableHeaderLen : Z := 1 + 1 + 4.
Definition blockTableEntryLen : Z := 4 + 4 + 1 + 4 + 1 + 1.
Definition blockTableEntryLenV2 : Z := 4 + 4 + 1 + 4.

Definition maxBlockTableBytes (phys : Z) : Z :=
  blockTableHeaderLen + (phys / blockHeaderLen) * blockTableEntryLen + 4.

(** The layout: version 4 as soon as one block is not a version-2 block. *)
Definition table_version (blocks : list blockRef) : Z :=
  if existsb (λ b, negb (version b =? BlockFormatVersion)) blocks
  then blockTableVersion else 2.

Definition encode_entry (tv : Z) (b : blockRef) : bytes :=
  BigEndian.put 4 (logicalLen b) ++ BigEndian.put 4 (physLen b) ++
  [byte.of_Z (codec b)] ++ BigEndian.put 4 (records b) ++
  (if tv =? blockTableVersion then [byte.of_Z (version b); byte.of_Z (flags b)] else []).

Definition encodeBlockTable (blocks : list blockRef) : bytes :=
  let tv := table_version blocks in
  let body := [byte.of_Z blockTableMagic; byte.of_Z tv] ++
              BigEndian.put 4 (zlen blocks) ++ concat (encode_entry tv <$> blocks) in
  body ++ BigEndian.put 4 (Crc32.Checksum Crc32.IEEE body).

(** The loop of [decodeBlockTable]: [k] entries left, the running sums
    [logical] and [phys], the cursor [at_]. *)
Fixpoint decode_entries (body : bytes) (entryLen : Z) (k : nat) (logical phys at_ : Z)
    (blocks : list blockRef) : outcome (list blockRef) :=
  match k with
  | O => Ok blocks
  | S k =>
      uLen ← uint32_at body at_;
      pLen ← uint32_at body (at_ + 4);
      c ← byte_at body (at_ + 8);
      r ← uint32_at body (at_ + 9);
      '(v, f) ← (if entryLen =? blockTableEntryLen
                 then v ← byte_at body (at_ + 13); f ← byte_at body (at_ + 14); Ok (v, f)
                 else Ok (BlockFormatVersion, 0));
      if pLen <? blockHeaderLen then Fail (ErrBlockTableFormat "shorter than a header")
      else if r =? 0 then Fail (ErrBlockTableFormat "claims no records")
      else if negb (v =? BlockFormatVersion) && negb (v =? blockv3.Version)
      then Fail (ErrBlockTableFormat "format version")
      else
        let b := {| logicalStart := logical; logicalLen := uLen; physStart := phys;
                    physLen := pLen; codec := c; records := r; version := v;
                    flags := f |} in
        decode_entries body entryLen k (logical + uLen) (phys + pLen) (at_ + entryLen)
          (blocks ++ [b])
  end.

Definition decodeBlockTable (buf : bytes) : outcome (list blockRef) :=
  if zlen buf <? blockTableHeaderLen + 4 then Fail (ErrBlockTableFormat "short")
  else
    magic ← byte_at buf 0;
    if negb (magic =? blockTableMagic) then Fail (ErrBlockTableFormat "magic")
    else
      tv ← byte_at buf 1;
      entryLen ← (if tv =? blockTableVersion then Ok blockTableEntryLen
                  else if tv =? 2 then Ok blockTableEntryLenV2
                  else Fail (ErrBlockTableFormat "version"));
      n ← uint32_at buf 2;
      let want := blockTableHeaderLen + n * entryLen + 4 in
      if negb (zlen buf =? want) then Fail (ErrBlockTableFormat "length")
      else
        body ← slice_to buf (want - 4);
        exp ← uint32_at buf (want - 4);
        if negb (Crc32.Checksum Crc32.IEEE body =? exp)
        then Fail (ErrBlockTableFormat "crc")
        else decode_entries body entryLen (Z.to_nat n) 0 0 blockTableHeaderLen [].

Definition blockTableExtent (blocks : list blockRef) : Z * Z :=
  match last blocks with
  | None => (0, 0)
  | Some b => (logicalStart b + logicalLen b, physStart b + physLen b)
  end.

Definition sumBlockRecords (blocks : list blockRef) : Z :=
  foldl (λ n b, n + records b) 0 blocks.

(** [loadLocalBlockTable]: [data] is the sidecar's content, [None] when it
    cannot be read; [physSize] the size of the segment's log. *)
Definition loadLocalBlockTable (data : option bytes) (physSize : Z)
    : outcome (option (list blockRef * Z)) :=
  match data with
  | None => Ok None
  | Some data =>
      match decodeBlockTable data with
      | Panic => Panic
      | Fail _ => Ok None
      | Ok blocks =>
          let '(logical, phys) := blockTableExtent blocks in
          if negb (phys =? physSize) then Ok None else Ok (Some (blocks, logical))
      end
  end.

(** ** Field access *)

Lemma uint32_at_app p v s at_ :
  at_ = zlen p → uint32_at (p ++ BigEndian.put 4 v ++ s) at_ = Ok (uint 32 v).
Proof.
  intros ->. unfold uint32_at, uint_at. rewrite slice_from_app by done. simpl.
  by rewrite BigEndian.read_put4.
Qed.

Lemma uint32_at_total b at_ :
  0 ≤ at_ → at_ + 4 ≤ zlen b → ∃ v, uint32_at b at_ = Ok v ∧ in_uint 32 v.
Proof. intros. by apply uint_at_total. Qed.

(** ** Block headers *)

Lemma parseBlockHeader_shape hdr :
  parseBlockHeader hdr ≠ Panic ∧
  (parseBlockHeader hdr = Fail ErrBlockFormat ↔
     blockHeaderLen ≤ zlen hdr ∧ byte_at hdr 0 = Ok blockMagic ∧
     ∃ v, byte_at hdr 1 = Ok v ∧ v ≠ BlockFormatVersion).
Proof.
  unfold parseBlockHeader, blockHeaderLen.
  destruct (zlen hdr <? 15) eqn:E; reflect_hyps.
  { split; [done|]. split; [done|]. lia. }
  destruct (byte_at_total hdr 0) as (m & -> & _); [lia|]. cbn [mbind outcome_bind].
  destruct (m =? blockMagic) eqn:Em; reflect_hyps; simpl.
  2: { split; [done|]. split; [done|]. intros (_ & [= ->] & _). done. }
  subst m. destruct (byte_at_total hdr 1) as (v & -> & _); [lia|]. simpl.
  destruct (v =? BlockFormatVersion) eqn:Ev; reflect_hyps; simpl.
  2: { split; [done|]. split; [|done]. eauto. }
  subst v.
  destruct (byte_at_total hdr 2) as (c & -> & _); [lia|]. simpl.
  destruct (uint32_at_total hdr 11) as (r & -> & _); [lia|lia|].
  destruct (uint32_at_total hdr 3) as (u & -> & _); [lia|lia|].
  destruct (uint32_at_total hdr 7) as (p & -> & _); [lia|lia|]. simpl.
  destruct (Valid c); simpl; [destruct (r =? 0); simpl|]; (split; [done|]);
    (split; [done|]); intros (_ & _ & v & [= <-] & Hv); done.
Qed.

Lemma parse_encode_header c u p r rest :
  0 ≤ c → Valid c = true → in_uint 32 u → in_uint 32 p → 0 < r < 2 ^ 32 →
  parseBlockHeader (encodeBlockHeader c u p r ++ rest) = Ok (c, u, p, r).
Proof.
  intros Hc Hv Hu Hp Hr. unfold encodeBlockHeader, parseBlockHeader, blockHeaderLen.
  assert (Hc8 : in_uint 8 c).
  { destruct (Valid_cases c Hc Hv) as [-> | [-> | [-> | ->]]]; by vm_compute. }
  pose proof (zlen_nonneg rest). rewrite <- !app_assoc.
  set (h := [_; _; _]). assert (Hh : zlen h = 3) by done.
  rewrite (proj2 (Z.ltb_ge _ _)) by (autorewrite with zlen; lia).
  rewrite (byte_at_lookup _ 0 (byte.of_Z blockMagic)) by done. cbn [mbind outcome_bind].
  replace (byte.unsigned (byte.of_Z blockMagic)) with blockMagic by done. simpl negb.
  rewrite (byte_at_lookup _ 1 (byte.of_Z BlockFormatVersion)) by done. cbn [mbind outcome_bind].
  replace (byte.unsigned (byte.of_Z BlockFormatVersion)) with BlockFormatVersion by done.
  simpl negb. rewrite (byte_at_lookup _ 2 (byte.of_Z c)) by done. cbn [mbind outcome_bind].
  rewrite unsigned_of_Z_small, Hv by done. simpl negb.
  rewrite (app_assoc h), (app_assoc (h ++ _)).
  rewrite (uint32_at_app ((h ++ _) ++ _) _ _ 11) by (autorewrite with zlen; lia).
  cbn [mbind outcome_bind]. rewrite uint_small by (unfold in_uint; lia).
  rewrite (proj2 (Z.eqb_neq _ _)) by lia.
  rewrite <- !app_assoc. rewrite (uint32_at_app h _ _ 3) by done. cbn [mbind outcome_bind].
  rewrite (app_assoc h), (uint32_at_app (h ++ _) _ _ 7) by (autorewrite with zlen; lia).
  cbn [mbind outcome_bind]. by rewrite !uint_small.
Qed.

(** ** Block tables *)

(** Blocks whose starts are the running sums of the lengths before them. *)
Fixpoint contiguous (l p : Z) (blocks : list blockRef) : Prop :=
  match blocks with
  | [] => True
  | b :: bs => logicalStart b = l ∧ physStart b = p ∧
               contiguous (l + logicalLen b) (p + physLen b) bs
  end.

(** What a block of a table satisfies: lengths that fit their fields, room for
    a header, at least one record, and a format this build reads. *)
Definition ref_ok (b : blockRef) : Prop :=
  in_uint 32 (logicalLen b) ∧ blockHeaderLen ≤ physLen b < 2 ^ 32 ∧
  in_uint 8 (codec b) ∧ 0 < records b < 2 ^ 32 ∧
  (version b = BlockFormatVersion ∨ version b = blockv3.Version) ∧ in_uint 8 (flags b).

(** A version-2 block has no flags. *)
Definition flags_ok (b : blockRef) : Prop := version b = BlockFormatVersion → flags b = 0.

Definition sum_phys (blocks : list blockRef) : Z := foldr (λ b z, physLen b + z) 0 blocks.
Definition sum_logical (blocks : list blockRef) : Z :=
  foldr (λ b z, logicalLen b + z) 0 blocks.

Lemma extent_sums l p blocks :
  contiguous l p blocks → blocks ≠ [] →
  blockTableExtent blocks = (l + sum_logical blocks, p + sum_phys blocks).
Proof.
  unfold blockTableExtent. revert l p.
  induction blocks as [|b bs IH]; intros l p Hc Hne; [done|].
  destruct Hc as (<- & <- & Hc). destruct bs as [|b' bs].
  - simpl. f_equal; lia.
  - rewrite last_cons_cons. rewrite (IH _ _ Hc) by done. simpl. f_equal; lia.
Qed.

Lemma blockTableExtent_sums blocks :
  contiguous 0 0 blocks → blockTableExtent blocks = (sum_logical blocks, sum_phys blocks).
Proof.
  intros Hc. destruct blocks as [|b bs]; [done|]. by rewrite (extent_sums 0 0).
Qed.

Lemma sum_phys_lower blocks :
  Forall ref_ok blocks → blockHeaderLen * zlen blocks ≤ sum_phys blocks.
Proof.
  unfold blockHeaderLen. induction 1 as [|b bs Hb _ IH]; [done|].
  destruct Hb as (_ & Hp & _). unfold blockHeaderLen in Hp. rewrite zlen_cons. simpl. lia.
Qed.

Definition entry_len (tv : Z) : Z :=
  if tv =? blockTableVersion then blockTableEntryLen else blockTableEntryLenV2.

Lemma zlen_encode_entry tv b : zlen (encode_entry tv b) = entry_len tv.
Proof.
  unfold encode_entry, entry_len. destruct (tv =? blockTableVersion);
    rewrite !zlen_app, !BigEndian.zlen_put; done.
Qed.

(** One turn of the decoder on an entry the encoder wrote. *)
Lemma decode_entries_step tv p b s k l ph acc at_ :
  ref_ok b → (tv ≠ blockTableVersion → version b = BlockFormatVersion ∧ flags b = 0) →
  at_ = zlen p →
  decode_entries (p ++ encode_entry tv b ++ s) (entry_len tv) (S k) l ph at_ acc =
  decode_entries (p ++ encode_entry tv b ++ s) (entry_len tv) k (l + logicalLen b)
    (ph + physLen b) (at_ + entry_len tv)
    (acc ++ [{| logicalStart := l; logicalLen := logicalLen b; physStart := ph;
                physLen := physLen b; codec := codec b; records := records b;
                version := version b; flags := flags b |}]).
Proof.
  intros (Hl & Hp & Hc & Hr & Hv & Hf) H2 ->. unfold blockHeaderLen in Hp.
  set (whole := p ++ encode_entry tv b ++ s).
  set (vf := if tv =? blockTableVersion then [byte.of_Z (version b); byte.of_Z (flags b)]
             else []).
  assert (W : whole = p ++ BigEndian.put 4 (logicalLen b) ++ BigEndian.put 4 (physLen b) ++
    [byte.of_Z (codec b)] ++ BigEndian.put 4 (records b) ++ vf ++ s).
  { unfold whole, encode_entry, vf. by rewrite <- !app_assoc. }
  assert (U1 : uint32_at whole (zlen p) = Ok (logicalLen b)).
  { rewrite W, uint32_at_app by done. by rewrite uint_small. }
  assert (U2 : uint32_at whole (zlen p + 4) = Ok (physLen b)).
  { rewrite W, (app_assoc p), uint32_at_app by side.
    rewrite uint_small by (unfold in_uint; lia). done. }
  assert (B : byte_at whole (zlen p + 8) = Ok (codec b)).
  { rewrite W, (app_assoc p), (app_assoc (p ++ _)).
    rewrite byte_at_app1 by (autorewrite with zlen; lia). by rewrite unsigned_of_Z_small. }
  assert (U3 : uint32_at whole (zlen p + 9) = Ok (records b)).
  { rewrite W, (app_assoc p), (app_assoc (p ++ _)), (app_assoc ((p ++ _) ++ _)).
    rewrite uint32_at_app by (autorewrite with zlen; lia).
    rewrite uint_small by (unfold in_uint; lia). done. }
  assert (V : (if entry_len tv =? blockTableEntryLen
     then v ← byte_at whole (zlen p + 13); f ← byte_at whole (zlen p + 14); Ok (v, f)
     else Ok (BlockFormatVersion, 0)) = Ok (version b, flags b)).
  { rewrite W, (app_assoc p), (app_assoc (p ++ _)), (app_assoc ((p ++ _) ++ _)),
      (app_assoc (((p ++ _) ++ _) ++ _)).
    set (q := (((p ++ _) ++ _) ++ _) ++ _).
    assert (Hq : zlen q = zlen p + 13) by (unfold q; autorewrite with zlen; lia).
    unfold entry_len, vf. destruct (tv =? blockTableVersion) eqn:E; reflect_hyps; simpl.
    - rewrite (byte_at_app q _ _ (zlen p + 13)) by lia. cbn [mbind outcome_bind].
      rewrite (cons_middle (byte.of_Z (version b))), (app_assoc q).
      rewrite (byte_at_app (q ++ _) _ _ (zlen p + 14)) by (autorewrite with zlen; lia).
      cbn [mbind outcome_bind]. rewrite !unsigned_of_Z_small; [done|done|].
      destruct Hv as [-> | ->]; by vm_compute.
    - by destruct (H2 E) as [-> ->]. }
  clearbody whole. cbn [decode_entries].
  rewrite U1. cbn [mbind outcome_bind]. rewrite U2. cbn [mbind outcome_bind].
  rewrite B. cbn [mbind outcome_bind]. rewrite U3. cbn [mbind outcome_bind].
  rewrite V. cbn [mbind outcome_bind].
  rewrite (proj2 (Z.ltb_ge _ _)) by (unfold blockHeaderLen; lia).
  rewrite (proj2 (Z.eqb_neq _ 0)) by lia.
  by destruct Hv as [-> | ->].
Qed.

Lemma decode_encode_entries tv blocks p l ph acc :
  Forall ref_ok blocks → contiguous l ph blocks →
  (tv ≠ blockTableVersion →
     Forall (λ b, version b = BlockFormatVersion ∧ flags b = 0) blocks) →
  decode_entries (p ++ concat (encode_entry tv <$> blocks)) (entry_len tv)
    (length blocks) l ph (zlen p) acc = Ok (acc ++ blocks).
Proof.
  revert p l ph acc. induction blocks as [|b bs IH]; intros p l ph acc Hok Hc H2.
  - simpl. by rewrite app_nil_r.
  - apply Forall_cons in Hok as [Hb Hok]. destruct Hc as (El & Ep & Hc).
    assert (H2b : tv ≠ blockTableVersion → version b = BlockFormatVersion ∧ flags b = 0).
    { intros Hne. by apply H2, Forall_cons in Hne as [? _]. }
    cbn [length fmap list_fmap concat]. rewrite decode_entries_step by done.
    rewrite app_assoc.
    replace (zlen p + entry_len tv) with (zlen (p ++ encode_entry tv b))
      by (by rewrite zlen_app, zlen_encode_entry).
    rewrite IH; [|done|done|].
    + rewrite <- app_assoc. simpl. do 3 f_equal. subst. by destruct b.
    + intros Hne. by apply H2, Forall_cons in Hne as [_ ?].
Qed.

(** Whatever bytes it is given, the loop does not panic, and what it returns is
    a contiguous run of well-formed blocks. *)
Lemma decode_entries_sound tv body k l ph at_ acc :
  0 ≤ at_ → at_ + Z.of_nat k * entry_len tv ≤ zlen body →
  decode_entries body (entry_len tv) k l ph at_ acc ≠ Panic ∧
  ∀ blocks, decode_entries body (entry_len tv) k l ph at_ acc = Ok blocks →
    ∃ new, blocks = acc ++ new ∧ length new = k ∧ contiguous l ph new ∧ Forall ref_ok new.
Proof.
  assert (HL : 13 ≤ entry_len tv ∧ ((entry_len tv =? blockTableEntryLen) = true →
    entry_len tv = 15)).
  { unfold entry_len. destruct (tv =? blockTableVersion); by vm_compute. }
  revert l ph at_ acc. induction k as [|k IH]; intros l ph at_ acc Ha Hz.
  { simpl. split; [done|]. intros blocks [= <-]. exists []. by rewrite app_nil_r. }
  cbn [decode_entries].
  destruct (uint32_at_total body at_) as (u & -> & Hu); [lia|nia|]. cbn [mbind outcome_bind].
  destruct (uint32_at_total body (at_ + 4)) as (pl & -> & Hp); [lia|nia|].
  cbn [mbind outcome_bind].
  destruct (byte_at_total body (at_ + 8)) as (c & -> & Hc); [nia|]. cbn [mbind outcome_bind].
  destruct (uint32_at_total body (at_ + 9)) as (r & -> & Hr); [lia|nia|].
  cbn [mbind outcome_bind].
  assert (V : ∃ v f, (if entry_len tv =? blockTableEntryLen
     then v ← byte_at body (at_ + 13); f ← byte_at body (at_ + 14); Ok (v, f)
     else Ok (BlockFormatVersion, 0)) = Ok (v, f) ∧ in_uint 8 f).
  { destruct (entry_len tv =? blockTableEntryLen) eqn:E.
    - rewrite (proj2 HL eq_refl) in *.
      destruct (byte_at_total body (at_ + 13)) as (v & -> & _); [lia|].
      destruct (byte_at_total body (at_ + 14)) as (f & -> & Hf); [lia|]. simpl. eauto.
    - exists BlockFormatVersion, 0. split; [done|]. by vm_compute. }
  destruct V as (v & f & -> & Hf). cbn [mbind outcome_bind].
  destruct (pl <? blockHeaderLen) eqn:E1; [done|].
  destruct (r =? 0) eqn:E2; [done|].
  destruct (negb (v =? BlockFormatVersion) && negb (v =? blockv3.Version)) eqn:E3; [done|].
  reflect_hyps. unfold in_uint in *.
  edestruct (IH (l + u) (ph + pl) (at_ + entry_len tv)) as [NP S]; [lia|nia|].
  split; [exact NP|].
  intros blocks Hb. apply S in Hb as (new & -> & Hl & Hcon & Hok).
  eexists (_ :: new). rewrite <- app_assoc. split; [done|].
  split; [by simpl; rewrite Hl|]. split; [done|]. constructor; [|done].
  unfold ref_ok, in_uint. simpl. split_and!; lia.
Qed.

(** The checks in front of the loop, as one condition on the bytes. *)
Lemma decodeBlockTable_body buf :
  decodeBlockTable buf ≠ Panic ∧
  ∀ blocks, decodeBlockTable buf = Ok blocks →
    ∃ body c tv, buf = body ++ c ∧ length c = 4%nat ∧
      (tv = blockTableVersion ∨ tv = 2) ∧
      zlen body = blockTableHeaderLen + zlen blocks * entry_len tv ∧
      Crc32.Checksum Crc32.IEEE body = BigEndian.get c ∧
      contiguous 0 0 blocks ∧ Forall ref_ok blocks.
Proof.
  unfold decodeBlockTable. change (blockTableHeaderLen + 4) with 10.
  destruct (zlen buf <? 10) eqn:E; [done|]. reflect_hyps.
  destruct (byte_at_total buf 0) as (m & -> & _); [lia|]. cbn [mbind outcome_bind].
  destruct (negb (m =? blockTableMagic)); [done|].
  destruct (byte_at_total buf 1) as (tv & -> & _); [lia|]. cbn [mbind outcome_bind].
  assert (T : (if tv =? blockTableVersion then Ok blockTableEntryLen
     else if tv =? 2 then Ok blockTableEntryLenV2
     else Fail (ErrBlockTableFormat "version")) = Fail (ErrBlockTableFormat "version") ∨
     (tv = blockTableVersion ∨ tv = 2) ∧
     (if tv =? blockTableVersion then Ok blockTableEntryLen
     else if tv =? 2 then Ok blockTableEntryLenV2
     else Fail (ErrBlockTableFormat "version")) = Ok (entry_len tv)).
  { unfold entry_len. destruct (tv =? blockTableVersion) eqn:E1; reflect_hyps; [by right; auto|].
    destruct (tv =? 2) eqn:E2; reflect_hyps; [by right; auto | by left]. }
  destruct T as [-> | [Htv ->]]; [done|]. cbn [mbind outcome_bind].
  destruct (uint32_at_total buf 2) as (n & -> & Hn); [lia|lia|]. cbn [mbind outcome_bind].
  destruct (negb (zlen buf =? _)) eqn:E1; [done|]. reflect_hyps.
  unfold slice_to. unfold in_uint in Hn.
  assert (HL : 13 ≤ entry_len tv).
  { unfold entry_len. destruct (tv =? blockTableVersion); by vm_compute. }
  assert (Hb : zlen buf - 4 = blockTableHeaderLen + n * entry_len tv) by lia.
  replace (blockTableHeaderLen + n * entry_len tv + 4 - 4) with (zlen buf - 4) by lia.
  rewrite slice_ok by lia. cbn [mbind outcome_bind].
  destruct (uint32_at_total buf (zlen buf - 4)) as (exp & Ex & _); [lia|lia|].
  rewrite Ex. cbn [mbind outcome_bind]. rewrite Z.sub_0_r. change (Z.to_nat 0) with O.
  rewrite drop_0. set (body := take _ buf). set (c := drop (Z.to_nat (zlen buf - 4)) buf).
  assert (Hs : buf = body ++ c) by (symmetry; apply take_drop).
  assert (Hc : length c = 4%nat) by (unfold c; rewrite length_drop; unfold zlen in *; lia).
  assert (Hlb : zlen body = zlen buf - 4).
  { unfold body, zlen in *. rewrite length_take. lia. }
  assert (Hex : exp = BigEndian.get c).
  { rewrite <- Hlb in Ex. clearbody body c. rewrite Hs in Ex. unfold uint32_at, uint_at in Ex.
    rewrite slice_from_app in Ex by done. simpl in Ex.
    rewrite <- (app_nil_r c), BigEndian.read_app in Ex by done. by injection Ex as <-. }
  destruct (negb (_ =? exp)) eqn:E2; [done|]. reflect_hyps.
  destruct (decode_entries_sound tv body (Z.to_nat n) 0 0 blockTableHeaderLen [])
    as [NP S]; [by vm_compute | lia |].
  split; [done|]. intros blocks Hbl. apply S in Hbl as (new & -> & Hlen & Hcon & Hok).
  exists body, c, tv. split; [done|]. split; [done|]. split; [done|].
  split; [|split; [congruence|done]]. simpl. unfold zlen at 2. rewrite Hlen. lia.
Qed.

Lemma table_version_2 blocks :
  Forall flags_ok blocks → table_version blocks ≠ blockTableVersion →
  Forall (λ b, version b = BlockFormatVersion ∧ flags b = 0) blocks.
Proof.
  unfold table_version. destruct (existsb _ blocks) eqn:E; [done|]. intros Hf _.
  rewrite Forall_forall in *. intros b Hb.
  assert (version b = BlockFormatVersion).
  { destruct (version b =? BlockFormatVersion) eqn:Ev; [by reflect_hyps|].
    exfalso. apply not_true_iff_false in E. apply E. apply existsb_exists.
    exists b. rewrite <- list_elem_of_In. by rewrite Ev. }
  split; [done|]. by apply Hf.
Qed.

Lemma zlen_concat_entries tv blocks :
  zlen (concat (encode_entry tv <$> blocks)) = zlen blocks * entry_len tv.
Proof.
  induction blocks as [|b bs IH]; [done|]. cbn [fmap list_fmap concat].
  rewrite zlen_app, zlen_encode_entry, zlen_cons, IH. lia.
Qed.

Lemma decode_encode_table blocks :
  Forall ref_ok blocks → Forall flags_ok blocks → contiguous 0 0 blocks →
  zlen blocks < 2 ^ 32 → decodeBlockTable (encodeBlockTable blocks) = Ok blocks.
Proof.
  intros Hok Hf Hc Hn. unfold decodeBlockTable, encodeBlockTable.
  set (tv := table_version blocks). set (es := concat _).
  assert (He : zlen es = zlen blocks * entry_len tv) by apply zlen_concat_entries.
  set (h := [byte.of_Z blockTableMagic; byte.of_Z tv]).
  set (body := h ++ BigEndian.put 4 (zlen blocks) ++ es).
  set (crc := BigEndian.put 4 (Crc32.Checksum Crc32.IEEE body)).
  assert (Hb : zlen body = 6 + zlen blocks * entry_len tv).
  { unfold body. rewrite !zlen_app, BigEndian.zlen_put, He. change (zlen h) with 2. lia. }
  assert (Htv : tv = blockTableVersion ∨ tv = 2).
  { unfold tv, table_version. destruct (existsb _ _); auto. }
  pose proof (zlen_nonneg blocks).
  assert (HL : 13 ≤ entry_len tv) by (by destruct Htv as [-> | ->]; vm_compute).
  assert (Hz : zlen (body ++ crc) = zlen body + 4)
    by (unfold crc; by rewrite zlen_app, BigEndian.zlen_put).
  change (blockTableHeaderLen + 4) with 10. rewrite (proj2 (Z.ltb_ge _ _)) by nia.
  rewrite (byte_at_lookup _ 0 (byte.of_Z blockTableMagic)) by done. cbn [mbind outcome_bind].
  replace (byte.unsigned (byte.of_Z blockTableMagic)) with blockTableMagic by done.
  rewrite Z.eqb_refl. cbn [negb]. rewrite (byte_at_lookup _ 1 (byte.of_Z tv)) by done. cbn [mbind outcome_bind].
  rewrite unsigned_of_Z_small by (by destruct Htv as [-> | ->]; vm_compute).
  replace (if tv =? blockTableVersion then _ else _) with (Ok (entry_len tv))
    by (by destruct Htv as [-> | ->]).
  cbn [mbind outcome_bind].
  assert (U : uint32_at (body ++ crc) 2 = Ok (zlen blocks)).
  { unfold body. rewrite <- !app_assoc, uint32_at_app by done.
    rewrite uint_small by (unfold in_uint; lia). done. }
  rewrite U. cbn [mbind outcome_bind].
  rewrite Hz, Hb. change blockTableHeaderLen with 6. rewrite Z.eqb_refl. cbn [negb].
  replace (6 + zlen blocks * entry_len tv + 4 - 4) with (zlen body) by lia.
  rewrite slice_to_app by done. cbn [mbind outcome_bind].
  unfold crc. rewrite <- (app_nil_r (BigEndian.put 4 _)), uint32_at_app by done.
  cbn [mbind outcome_bind]. rewrite uint_small by auto with commitlog.
  rewrite Z.eqb_refl. cbn [negb]. rewrite to_nat_zlen.
  change 6 with (zlen (h ++ BigEndian.put 4 (zlen blocks))).
  unfold body. rewrite app_assoc. apply (decode_encode_entries tv blocks _ 0 0 []); try done.
  by apply table_version_2.
Qed.

(** ** Theorems *)

(** A version-2 block header parses back to the codec, lengths and record
    count it was written with, whatever bytes follow it. *)
Theorem block_header_roundtrip c u p r rest
    (Hc : 0 ≤ c) (Hv : Valid c = true) (Hu : in_uint 32 u) (Hp : in_uint 32 p)
    (Hr : 0 < r < 2 ^ 32) :
  parseBlockHeader (encodeBlockHeader c u p r ++ rest) = Ok (c, u, p, r).
Proof. by apply parse_encode_header. Qed.

(** [parseBlockHeader] never panics, and it answers [ErrBlockFormat] for
    exactly one reason: a whole header with the block magic and a version byte
    this build does not write.  Every other refusal is reported as damage. *)
Theorem block_header_refusals hdr :
  parseBlockHeader hdr ≠ Panic ∧
  (parseBlockHeader hdr = Fail ErrBlockFormat ↔
     blockHeaderLen ≤ zlen hdr ∧ byte_at hdr 0 = Ok blockMagic ∧
     ∃ v, byte_at hdr 1 = Ok v ∧ v ≠ BlockFormatVersion).
Proof. apply parseBlockHeader_shape. Qed.

(** Decoding an encoded block table returns the table, starts included,
    though only lengths are stored: in the version-2 layout when every block is
    version 2, in the version-4 layout otherwise. *)
Theorem block_table_roundtrip blocks
    (Hok : Forall ref_ok blocks) (Hf : Forall flags_ok blocks)
    (Hc : contiguous 0 0 blocks) (Hn : zlen blocks < 2 ^ 32) :
  decodeBlockTable (encodeBlockTable blocks) = Ok blocks.
Proof. by apply decode_encode_table. Qed.

(** On any bytes at all [decodeBlockTable] does not panic, and a table it
    accepts is consistent: its blocks tile the logical and the physical space
    from zero, each has room for a header and at least one record, its extent
    is the sum of its lengths, and its encoding is no longer than
    [maxBlockTableBytes] allows for that extent. *)
Theorem block_table_sound buf :
  decodeBlockTable buf ≠ Panic ∧
  ∀ blocks, decodeBlockTable buf = Ok blocks →
    contiguous 0 0 blocks ∧ Forall ref_ok blocks ∧
    blockTableExtent blocks = (sum_logical blocks, sum_phys blocks) ∧
    zlen buf ≤ maxBlockTableBytes (sum_phys blocks).
Proof.
  destruct (decodeBlockTable_body buf) as [NP S]. split; [done|]. intros blocks H.
  apply S in H as (body & c & tv & -> & Hc & Htv & Hz & _ & Hcon & Hok).
  split; [done|]. split; [done|]. split; [by apply blockTableExtent_sums|].
  apply sum_phys_lower in Hok. unfold maxBlockTableBytes.
  assert (zlen blocks ≤ sum_phys blocks / blockHeaderLen).
  { apply Z.div_le_lower_bound; [done|lia]. }
  rewrite zlen_app, Hz. unfold zlen at 2. rewrite Hc. pose proof (zlen_nonneg blocks).
  assert (entry_len tv ≤ blockTableEntryLen) by (by destruct Htv as [-> | ->]; vm_compute).
  unfold blockTableEntryLen in *. nia.
Qed.

(** A block table that decodes stops decoding when any one of its bytes is
    replaced by a different byte. *)
Theorem block_table_corruption_detected buf blocks i x y
    (H : decodeBlockTable buf = Ok blocks) (Hi : buf !! i = Some y) (Hne : x ≠ y) :
  ∃ e, decodeBlockTable (<[i:=x]> buf) = Fail e.
Proof.
  destruct (decodeBlockTable_body buf) as [_ S].
  apply S in H as (body & c & tv & E & Hc & _ & _ & Hcrc & _).
  destruct (decodeBlockTable_body (<[i:=x]> buf)) as [NP S'].
  destruct (decodeBlockTable (<[i:=x]> buf)) as [blocks'|e|]; [|by eexists|done].
  destruct (S' blocks' eq_refl) as (body' & c' & tv' & E' & Hc' & _ & _ & Hcrc' & _).
  exfalso. subst buf. destruct (insert_app_cases _ _ _ x _ Hi) as [[Hi' Ei]|[Hi' Ei]];
    rewrite Ei in E'; apply app_inj_2 in E' as [<- <-]; rewrite ?length_insert; try congruence.
  - revert Hcrc'. by eapply Crc32.seal_body; [apply Crc32.IEEE_ok|..].
  - revert Hcrc'. by eapply Crc32.seal_crc.
Qed.

(** A block table kept beside a local segment is used only if it decodes
    and accounts for exactly the bytes of the log file; then the logical size
    it reports is the sum of its blocks.  Missing, damaged and stale tables all
    fall back to the walk; nothing panics. *)
Theorem local_block_table_checked data physSize :
  loadLocalBlockTable data physSize ≠ Panic ∧
  ∀ blocks logical, loadLocalBlockTable data physSize = Ok (Some (blocks, logical)) →
    ∃ bs, data = Some bs ∧ decodeBlockTable bs = Ok blocks ∧
      sum_phys blocks = physSize ∧ logical = sum_logical blocks.
Proof.
  unfold loadLocalBlockTable. destruct data as [bs|]; [|done].
  destruct (decodeBlockTable_body bs) as [NP S].
  destruct (decodeBlockTable bs) as [blocks| |] eqn:E; [|done|done].
  destruct (S blocks eq_refl) as (_ & _ & _ & _ & _ & _ & _ & _ & Hcon & _).
  rewrite blockTableExtent_sums by done.
  destruct (negb (sum_phys blocks =? physSize)) eqn:Ep; [done|]. split; [done|].
  intros ? ? [= <- <-]. reflect_hyps. by exists bs.
Qed.

(** *** Witnesses *)

Definition sample_blocks : list blockRef := [
  {| logicalStart := 0; logicalLen := 9000; physStart := 0; physLen := 4100; codec := CZstd;
     records := 12; version := BlockFormatVersion; flags := 0 |};
  {| logicalStart := 9000; logicalLen := 500; physStart := 4100; physLen := 276;
     codec := CNone; records := 3; version := blockv3.Version; flags := blockv3.FlagStripped |} ].

Lemma sample_blocks_ok :
  Forall ref_ok sample_blocks ∧ Forall flags_ok sample_blocks ∧ contiguous 0 0 sample_blocks.
Proof.
  split; [|split; [|done]].
  - repeat (apply Forall_cons; split); [..|done];
      unfold ref_ok, in_uint, blockHeaderLen, BlockFormatVersion, blockv3.Version, CZstd, CNone,
        blockv3.FlagStripped; change (Z.shiftl 1 2) with 4; simpl; lia.
  - repeat constructor; intros H; vm_compute in H; congruence.
Qed.

Lemma block_table_roundtrip_witness :
  decodeBlockTable (encodeBlockTable sample_blocks) = Ok sample_blocks.
Proof. by apply (block_table_roundtrip sample_blocks); try apply sample_blocks_ok. Defined.

Lemma block_table_corruption_detected_witness :
  ∃ e, decodeBlockTable (<[9%nat := byte.of_Z 1]> (encodeBlockTable sample_blocks)) = Fail e.
Proof.
  apply (block_table_corruption_detected (encodeBlockTable sample_blocks) sample_blocks 9
    (byte.of_Z 1) (byte.of_Z 40)).
  - vm_compute. reflexivity.
  - vm_compute. reflexivity.
  - vm_compute. discriminate.
Defined.
