(* ===== verification/Framing.v ===== *)
(** * Version-3 blocks as frames: blockv3_read.go and the pure half of
    append_batch.go

    The logical bytes a version-3 block stands for, the producer identity its
    records carry, and the batches that become such blocks. *)

From Stdlib Require Import ZArith Lia.
From stdpp Require Import base list numbers strings gmap sorting.
From coqutil Require Import Byte.
From S2P Require Import Prelude GoStd Compress BlockV3 Wire.

Open Scope Z_scope.

Module Framing.

Definition str (l : list Z) : bytes := byte.of_Z <$> l.

(** The identity header names: pid, epoch, seq, nonce. *)
Definition hdrProducerID : bytes := str [112; 105; 100].
Definition hdrProducerEpoch : bytes := str [101; 112; 111; 99; 104].
Definition hdrSequence : bytes := str [115; 101; 113].
Definition hdrNonce : bytes := str [110; 111; 110; 99; 101].

Definition be64 (v : Z) : bytes := BigEndian.put 8 v.
Definition be32 (v : Z) : bytes := BigEndian.put 4 v.

Definition appendV1Bytes (dst : bytes) (b : option bytes) : bytes :=
  match b with
  | None => dst ++ BigEndian.put 4 0xffffffff
  | Some b => dst ++ BigEndian.put 4 (uint 32 (zlen b)) ++ b
  end.

(** The header loop of [encodeV1Message]. *)
Fixpoint encodeV1_headers (dst : bytes) (keys : list bytes)
    (headers : gmap bytes (option bytes)) : outcome bytes :=
  match keys with
  | [] => Ok dst
  | k :: keys =>
      if 2 ^ 15 - 1 <? zlen k then Fail (ErrText "header key")
      else
        let dst := dst ++ BigEndian.put 2 (uint 16 (zlen k)) ++ k in
        encodeV1_headers (appendV1Bytes dst (mjoin (headers !! k))) keys headers
  end.

Definition encodeV1Message (dst : bytes) (attrs : Z) (key value : option bytes)
    (keys : list bytes) (headers : gmap bytes (option bytes)) : outcome bytes :=
  let start := zlen dst in
  let dst := dst ++ replicate 4 (byte.of_Z 0) in
  let dst := dst ++ [byte.of_Z 0; byte.of_Z (uint 8 attrs)] in
  let dst := appendV1Bytes dst key in
  let dst := appendV1Bytes dst value in
  if 2 ^ 15 - 1 <? zlen keys then Fail (ErrText "headers")
  else
    let dst := dst ++ BigEndian.put 2 (uint 16 (zlen keys)) in
    dst ← encodeV1_headers dst keys headers;
    body ← slice_from dst (start + 4);
    BigEndian.put_at 4 dst start (Crc32.Checksum Crc32.Castagnoli body).

Definition has_flag (flags f : Z) : bool := negb (Z.land flags f =? 0).

(** The headers a block's identity adds to each of its records. *)
Definition id_headers (h : blockv3.Header) : gmap bytes (option bytes) :=
  let m := {[ hdrProducerID := Some (be64 (uint 64 (blockv3.ProducerID h)));
              hdrProducerEpoch := Some (be32 (uint 32 (blockv3.ProducerEpoch h))) ]} in
  if has_flag (blockv3.Flags h) blockv3.FlagTransactional
  then <[hdrNonce := Some (be64 (blockv3.TxNonce h))]> m else m.

Definition stamped_headers (h : blockv3.Header) (i : Z) (hs : gmap bytes (option bytes))
    : gmap bytes (option bytes) :=
  <[hdrSequence := Some (be32 (uint 32 (sint 32 (blockv3.BaseSequence h + sint 32 i))))]>
    (id_headers h ∪ hs).

Definition record_headers_of (h : blockv3.Header) (i : Z) (r : blockv3.Rec)
    : gmap bytes (option bytes) :=
  if has_flag (blockv3.Flags h) blockv3.FlagStripped then blockv3.Headers r
  else stamped_headers h i (blockv3.Headers r).

Definition record_attrs (h : blockv3.Header) (r : blockv3.Rec) : Z :=
  let attrs := if has_flag (blockv3.Flags h) blockv3.FlagControl then AttrControl else 0 in
  Z.lor attrs (Z.land (byte.unsigned (blockv3.Attributes r)) blockv3.AttrTombstone).

(** One turn of the loop: the frame header over the encoded message. *)
Definition append_frame (dst : bytes) (h : blockv3.Header) (r : blockv3.Rec) (msg : bytes)
    : outcome bytes :=
  let hdr := zlen dst in
  let dst := dst ++ BigEndian.put 8 (uint 64 (sint 64 (blockv3.BaseOffset h + blockv3.OffsetDelta r))) in
  let dst := dst ++ BigEndian.put 8 (uint 64 (blockv3.BaseTimestamp h)) in
  let dst := dst ++ BigEndian.put 8 (blockv3.LeaderEpoch h) in
  let dst := dst ++ BigEndian.put 4 (uint 32 (zlen msg)) in
  fields ← slice_from dst hdr;
  c ← headerCrc fields;
  Ok (dst ++ BigEndian.put 4 c ++ msg).

Fixpoint synthesize_loop (dst : bytes) (h : blockv3.Header) (i : Z) (recs : list blockv3.Rec)
    : outcome bytes :=
  match recs with
  | [] => Ok dst
  | r :: recs =>
      let headers := record_headers_of h i r in
      let keys := BytesOrd.sorted_keys headers in
      msg ← encodeV1Message [] (record_attrs h r) (blockv3.Key r) (blockv3.Value r) keys headers;
      dst ← append_frame dst h r msg;
      synthesize_loop dst h (i + 1) recs
  end.

Definition synthesizeFraming (dst : bytes) (h : blockv3.Header) (recs : list blockv3.Rec)
    : outcome bytes := synthesize_loop dst h 0 recs.

Definition decodeV3Block `{CodecLib} (block : bytes) : outcome bytes :=
  '(h, recs) ← blockv3.DecodeBlock block;
  synthesizeFraming [] h recs.

(** [identityFromHeaders]: [None] when ok is false. *)
Definition identityFromHeaders (headers : gmap bytes (option bytes))
    : option (Z * Z * Z * Z) :=
  match headers !! hdrProducerID, headers !! hdrProducerEpoch, headers !! hdrSequence with
  | Some p, Some e, Some s =>
      let p := default [] p in let e := default [] e in let s := default [] s in
      if negb (zlen p =? 8) || negb (zlen e =? 4) || negb (zlen s =? 4) then None
      else
        let n := default [] (mjoin (headers !! hdrNonce)) in
        let nonce := if zlen n =? 8 then BigEndian.get n else 0 in
        Some (BigEndian.get p, BigEndian.get e, sint 32 (BigEndian.get s), nonce)
  | _, _, _ => None
  end.

(** ** Batches *)

Record BatchMeta := { m_ProducerID : Z; m_ProducerEpoch : Z; m_BaseSequence : Z; m_Nonce : Z }.

#[export] Instance BatchMeta_eq_dec : EqDecision BatchMeta.
Proof. solve_decision. Defined.

Definition no_meta : BatchMeta :=
  {| m_ProducerID := 0; m_ProducerEpoch := 0; m_BaseSequence := 0; m_Nonce := 0 |}.

(** The headers [appendStamped] writes on message [i]. *)
Definition stamp_headers (meta : BatchMeta) (i : Z) (hs : gmap bytes (option bytes))
    : gmap bytes (option bytes) :=
  let hs := <[hdrProducerID := Some (be64 (m_ProducerID meta))]> hs in
  let hs := <[hdrProducerEpoch := Some (be32 (m_ProducerEpoch meta))]> hs in
  let hs := <[hdrSequence := Some (be32 (uint 32 (sint 32 (m_BaseSequence meta + sint 32 i))))]> hs in
  if negb (m_Nonce meta =? 0) then <[hdrNonce := Some (be64 (m_Nonce meta))]> hs else hs.

(** The header and the records of the block [AppendBatch] builds: [codec] is
    the log's, [base] the next offset, [stamp] the batch's timestamp. *)
Definition batch_header (codec base epoch stamp : Z) (meta : BatchMeta) (control : bool)
    : blockv3.Header :=
  let flags := 0 in
  let flags := if control then Z.lor flags blockv3.FlagControl else flags in
  let flags := if negb (m_Nonce meta =? 0) then Z.lor flags blockv3.FlagTransactional else flags in
  let flags := if bool_decide (meta = no_meta) then Z.lor flags blockv3.FlagStripped else flags in
  {| blockv3.Codec := codec; blockv3.Flags := flags; blockv3.BaseOffset := base;
     blockv3.LeaderEpoch := epoch; blockv3.BaseTimestamp := stamp;
     blockv3.ProducerID := sint 64 (m_ProducerID meta);
     blockv3.ProducerEpoch := sint 32 (m_ProducerEpoch meta);
     blockv3.BaseSequence := m_BaseSequence meta; blockv3.TxNonce := m_Nonce meta;
     blockv3.Records := 0; blockv3.LastOffsetDelta := 0; blockv3.UncompressedLen := 0;
     blockv3.CompressedLen := 0; blockv3.PayloadCRC := 0 |}.

Fixpoint batch_records (i : Z) (msgs : list Message) : list blockv3.Rec :=
  match msgs with
  | [] => []
  | m :: msgs =>
      {| blockv3.Attributes := byte.of_Z (Z.land (uint 8 (Attributes m)) blockv3.AttrTombstone);
         blockv3.OffsetDelta := uint 32 i; blockv3.Key := Key m; blockv3.Value := Value m;
         blockv3.Headers := Headers m |} :: batch_records (i + 1) msgs
  end.

Definition compressMinBlock : Z := Z.shiftl 4 10.

Definition encodeV3Block `{CodecLib} (h : blockv3.Header) (recs : list blockv3.Rec)
    : outcome (bytes * blockv3.Header) :=
  let logical := blockv3.EncodeRecords [] recs in
  let '(codec, payload) :=
    if zlen logical <? compressMinBlock then (CNone, logical)
    else if negb (blockv3.Codec h =? CNone) then
      let c := Compress (blockv3.Codec h) logical in
      if zlen c <? zlen logical then (blockv3.Codec h, c) else (CNone, logical)
    else (blockv3.Codec h, logical) in
  l ← index recs (zlen recs - 1);
  let h := blockv3.set_payload h codec (zlen recs) (blockv3.OffsetDelta l) logical payload in
  block ← blockv3.EncodeHeader [] h;
  Ok (block ++ payload, h).

(** The delta loop of [decodeV3ForAppend]. *)
Fixpoint deltas_by_index (i : Z) (recs : list blockv3.Rec) : bool :=
  match recs with
  | [] => true
  | r :: recs => (blockv3.OffsetDelta r =? uint 32 i) && deltas_by_index (i + 1) recs
  end.

Definition decodeV3ForAppend `{CodecLib} (block : bytes)
    : outcome (blockv3.Header * list blockv3.Rec) :=
  match blockv3.DecodeBlock block with
  | Panic => Panic
  | Fail _ => Fail (ErrMessageSetRefused "block")
  | Ok (h, recs) =>
      if negb (has_flag (blockv3.Flags h) blockv3.FlagStripped) && negb (deltas_by_index 0 recs)
      then Fail (ErrMessageSetRefused "offset delta")
      else if negb (Bool.eqb (has_flag (blockv3.Flags h) blockv3.FlagTransactional)
                             (negb (blockv3.TxNonce h =? 0)))
      then Fail (ErrMessageSetRefused "transactional flag")
      else Ok (h, recs)
  end.

(** ** The encoded message is the log's own *)

(** The headers of a map in key order. *)
Definition key_order (headers : gmap bytes (option bytes)) : headerOrder :=
  (λ k, (k, mjoin (headers !! k))) <$> BytesOrd.sorted_keys headers.

Definition v1_message (attrs : Z) (key value : option bytes)
    (headers : gmap bytes (option bytes)) (ts epoch : Z) : Message :=
  {| MagicByte := 0; Attributes := attrs; Key := key; Value := value; Headers := headers;
     Timestamp := ts; LeaderEpoch := epoch |}.

Lemma key_order_perm headers : key_order headers ≡ₚ map_to_list headers.
Proof.
  unfold key_order. rewrite BytesOrd.sorted_keys_perm, <- list_fmap_compose.
  rewrite <- (list_fmap_id (map_to_list headers)) at 2.
  erewrite list_fmap_ext; [done|]. intros i [k x] Hi.
  assert (H : headers !! k = Some x).
  { apply elem_of_map_to_list. by apply list_elem_of_lookup_2 in Hi. }
  simpl. by rewrite H.
Qed.

Lemma length_key_order headers : length (key_order headers) = size headers.
Proof. unfold key_order. by rewrite length_fmap, BytesOrd.length_sorted_keys. Qed.

Lemma zlen_sorted_keys (headers : gmap bytes (option bytes)) :
  zlen (BytesOrd.sorted_keys headers) = Z.of_nat (size headers).
Proof. unfold zlen. by rewrite BytesOrd.length_sorted_keys. Qed.

Lemma appendV1Bytes_field dst b : appendV1Bytes dst b = dst ++ field_bytes b.
Proof.
  destruct b as [b|]; simpl.
  - by rewrite BigEndian.put4_uint.
  - f_equal.
Qed.

Definition keys_fit (headers : gmap bytes (option bytes)) : Prop :=
  ∀ k, is_Some (headers !! k) → zlen k < 2 ^ 15.

Lemma encodeV1_headers_ok dst keys headers :
  Forall (λ k, zlen k < 2 ^ 15) keys →
  encodeV1_headers dst keys headers =
  Ok (dst ++ headers_bytes ((λ k, (k, mjoin (headers !! k))) <$> keys)).
Proof.
  intros Hk. revert dst. induction Hk as [|k keys Hk _ IH]; intros dst.
  { cbn. by rewrite app_nil_r. }
  cbn [encodeV1_headers]. rewrite (proj2 (Z.ltb_ge _ _)) by lia.
  rewrite IH, appendV1Bytes_field. unfold headers_bytes. cbn [fmap list_fmap concat].
  unfold header_bytes at 2. cbn [fst snd]. rewrite BigEndian.put2_uint.
  by rewrite <- !app_assoc.
Qed.

Lemma encodeV1_headers_fail dst keys headers :
  ¬ Forall (λ k, zlen k < 2 ^ 15) keys → ∃ e, encodeV1_headers dst keys headers = Fail e.
Proof.
  intros Hk. revert dst. induction keys as [|k keys IH]; intros dst; [by destruct Hk|].
  cbn [encodeV1_headers]. destruct (_ <? zlen k) eqn:E; [by eexists|]. reflect_hyps.
  apply IH. intros H. apply Hk. constructor; [lia|done].
Qed.

Lemma put1 z : BigEndian.put 1 z = [byte.of_Z (uint 8 z)].
Proof.
  rewrite BigEndian.put_mod. change (2 ^ (8 * Z.of_nat 1)) with (2 ^ 8).
  pose proof (BigEndian.get_put_uint 1 (z mod 2 ^ 8)) as G.
  pose proof (BigEndian.length_put 1 (z mod 2 ^ 8)) as L.
  destruct (BigEndian.put 1 (z mod 2 ^ 8)) as [|x [|]]; try done. f_equal.
  rewrite BigEndian.get_cons in G. change (zlen []) with 0 in G.
  change (BigEndian.get []) with 0 in G. apply byte.unsigned_inj.
  rewrite unsigned_of_Z_small by (by apply uint_range). unfold uint in *.
  rewrite <- G; [lia|]. apply uint_range. lia.
Qed.

Lemma keys_fit_sorted headers :
  keys_fit headers ↔ Forall (λ k, zlen k < 2 ^ 15) (BytesOrd.sorted_keys headers).
Proof.
  unfold keys_fit. rewrite Forall_forall.
  by setoid_rewrite BytesOrd.elem_of_sorted_keys.
Qed.

(** [encodeV1Message] is [Message.Encode] with the headers in key order. *)
Lemma encodeV1Message_ok attrs key value headers ts epoch :
  Z.of_nat (size headers) < 2 ^ 15 → keys_fit headers →
  encodeV1Message [] attrs key value (BytesOrd.sorted_keys headers) headers =
  Ok (record_bytes (v1_message attrs key value headers ts epoch) (key_order headers)).
Proof.
  intros Hs Hk. unfold encodeV1Message. rewrite zlen_sorted_keys.
  rewrite (proj2 (Z.ltb_ge _ _)) by lia.
  rewrite encodeV1_headers_ok by (by apply keys_fit_sorted). rewrite bind_Ok.
  fold (key_order headers). rewrite !appendV1Bytes_field, BigEndian.put2_uint, !app_nil_l.
  set (z := replicate 4 _). change (zlen [] + 4) with (zlen z).
  rewrite <- !app_assoc, slice_from_app, bind_Ok by done.
  set (body := [_; _] ++ _).
  assert (Hb : body = record_body (v1_message attrs key value headers ts epoch)
                        (key_order headers)).
  { unfold body, record_body. cbn [MagicByte Attributes Key Value Headers v1_message].
    by rewrite (put1 0), (put1 attrs). }
  rewrite <- (app_nil_l (z ++ body)), BigEndian.put_at_app by done.
  unfold record_bytes. by rewrite Hb.
Qed.

Lemma encodeV1Message_fail attrs key value headers :
  ¬ (Z.of_nat (size headers) < 2 ^ 15 ∧ keys_fit headers) →
  ∃ e, encodeV1Message [] attrs key value (BytesOrd.sorted_keys headers) headers = Fail e.
Proof.
  intros H. unfold encodeV1Message. rewrite zlen_sorted_keys.
  destruct (_ <? Z.of_nat _) eqn:E; [by eexists|]. reflect_hyps.
  destruct (encodeV1_headers_fail (appendV1Bytes (appendV1Bytes
    (([] ++ replicate 4 (byte.of_Z 0)) ++ [byte.of_Z 0; byte.of_Z (uint 8 attrs)]) key) value ++
    BigEndian.put 2 (uint 16 (Z.of_nat (size headers))))
    (BytesOrd.sorted_keys headers) headers) as [e He].
  { rewrite <- keys_fit_sorted. intros Hk. apply H. split; [lia|done]. }
  rewrite He. by eexists.
Qed.

Definition rec_offset (h : blockv3.Header) (r : blockv3.Rec) : Z :=
  sint 64 (blockv3.BaseOffset h + blockv3.OffsetDelta r).

Lemma append_frame_ok dst h r msg :
  append_frame dst h r msg =
  Ok (dst ++ frame_header (rec_offset h r) (blockv3.BaseTimestamp h)
              (blockv3.LeaderEpoch h) (zlen msg) ++ msg).
Proof.
  unfold append_frame, frame_header, rec_offset. rewrite <- !(app_assoc dst).
  rewrite slice_from_app, bind_Ok by done. rewrite <- !app_assoc.
  set (b := BigEndian.put 8 _ ++ BigEndian.put 8 _ ++ BigEndian.put 8 _ ++ BigEndian.put 4 _).
  unfold headerCrc. rewrite <- (app_nil_r b) at 1. rewrite slice_to_app, !bind_Ok.
  - unfold b. by rewrite <- !app_assoc.
  - unfold b. by rewrite !zlen_app, !BigEndian.zlen_put.
Qed.

(** The frame of record [i]. *)
Definition record_of (h : blockv3.Header) (i : Z) (r : blockv3.Rec) : Message :=
  v1_message (record_attrs h r) (blockv3.Key r) (blockv3.Value r) (record_headers_of h i r)
    (blockv3.BaseTimestamp h) (blockv3.LeaderEpoch h).

Definition record_data (h : blockv3.Header) (i : Z) (r : blockv3.Rec) : bytes :=
  record_bytes (record_of h i r) (key_order (record_headers_of h i r)).

Definition record_frame (h : blockv3.Header) (i : Z) (r : blockv3.Rec) : bytes :=
  frame_header (rec_offset h r) (blockv3.BaseTimestamp h) (blockv3.LeaderEpoch h)
    (zlen (record_data h i r)) ++ record_data h i r.

Fixpoint frames (h : blockv3.Header) (i : Z) (recs : list blockv3.Rec) : bytes :=
  match recs with
  | [] => []
  | r :: recs => record_frame h i r ++ frames h (i + 1) recs
  end.

Definition rec_fits (h : blockv3.Header) (i : Z) (r : blockv3.Rec) : Prop :=
  Z.of_nat (size (record_headers_of h i r)) < 2 ^ 15 ∧ keys_fit (record_headers_of h i r).

Fixpoint recs_fit (h : blockv3.Header) (i : Z) (recs : list blockv3.Rec) : Prop :=
  match recs with
  | [] => True
  | r :: recs => rec_fits h i r ∧ recs_fit h (i + 1) recs
  end.

#[export] Instance keys_fit_dec headers : Decision (keys_fit headers).
Proof.
  refine (cast_if (decide (Forall (λ k, zlen k < 2 ^ 15) (BytesOrd.sorted_keys headers))));
    abstract (by rewrite keys_fit_sorted).
Defined.

Lemma synthesize_loop_ok dst h i recs :
  recs_fit h i recs → synthesize_loop dst h i recs = Ok (dst ++ frames h i recs).
Proof.
  revert dst i. induction recs as [|r recs IH]; intros dst i Hf; [by rewrite app_nil_r|].
  destruct Hf as [[Hs Hk] Hf]. cbn [synthesize_loop frames].
  rewrite (encodeV1Message_ok _ _ _ _ (blockv3.BaseTimestamp h) (blockv3.LeaderEpoch h)),
    bind_Ok by done.
  fold (record_of h i r). fold (record_data h i r).
  rewrite append_frame_ok, bind_Ok, IH by done. unfold record_frame. by rewrite <- !app_assoc.
Qed.

Lemma synthesize_loop_inv dst h i recs ms :
  synthesize_loop dst h i recs = Ok ms → recs_fit h i recs ∧ ms = dst ++ frames h i recs.
Proof.
  revert dst i. induction recs as [|r recs IH]; intros dst i H; cbn [synthesize_loop] in H.
  { injection H as <-. cbn. by rewrite app_nil_r. }
  destruct (decide (rec_fits h i r)) as [Hr|Hr].
  - apply bind_Ok_inv in H as (msg & E & H). pose proof Hr as [Hs Hk].
    rewrite (encodeV1Message_ok _ _ _ _ (blockv3.BaseTimestamp h) (blockv3.LeaderEpoch h)) in E
      by done.
    injection E as <-. rewrite append_frame_ok, bind_Ok in H.
    apply IH in H as [Hf ->]. cbn [frames recs_fit]. split; [done|].
    unfold record_frame, record_data, record_of. by rewrite <- !app_assoc.
  - destruct (encodeV1Message_fail (record_attrs h r) (blockv3.Key r) (blockv3.Value r)
      (record_headers_of h i r) Hr) as [e He]. by rewrite He in H.
Qed.

(** ** Walking the frames *)

Fixpoint frame_entries (h : blockv3.Header) (i pos : Z) (recs : list blockv3.Rec)
    : list entry :=
  match recs with
  | [] => []
  | r :: recs =>
      frame_entry (rec_offset h r) (blockv3.BaseTimestamp h) (blockv3.LeaderEpoch h) pos
        (record_data h i r)
      :: frame_entries h (i + 1) (pos + 32 + zlen (record_data h i r)) recs
  end.

Lemma length_frame_entries h i pos recs : length (frame_entries h i pos recs) = length recs.
Proof. revert i pos. induction recs; intros; simpl; congruence. Qed.

Lemma total_frame_entries h i pos recs :
  total_size (frame_entries h i pos recs) = zlen (frames h i recs).
Proof.
  revert i pos. induction recs as [|r recs IH]; intros i pos; [done|].
  cbn [frame_entries frames total_size foldr]. fold (total_size (frame_entries h (i + 1)
    (pos + 32 + zlen (record_data h i r)) recs)). rewrite IH.
  unfold record_frame, frame_entry. cbn [e_Size]. rewrite !zlen_app, zlen_frame_header.
  unfold msgSetHeaderLen. lia.
Qed.

Lemma entries_frames h i recs fuel basePos n acc :
  in_sint 64 (blockv3.BaseTimestamp h) → in_uint 64 (blockv3.LeaderEpoch h) →
  zlen (frames h i recs) < 2 ^ 31 → (length recs < fuel)%nat →
  entries_loop fuel basePos n (frames h i recs) acc =
  Ok (acc ++ frame_entries h i (basePos + n) recs).
Proof.
  intros Ht He. revert i fuel n acc.
  induction recs as [|r recs IH]; intros i fuel n acc Hz Hf.
  { destruct fuel; [simpl in Hf; lia|]. cbn. by rewrite app_nil_r. }
  destruct fuel as [|fuel]; [lia|]. cbn [frames] in *. unfold record_frame in *.
  rewrite <- app_assoc in *. rewrite !zlen_app, zlen_frame_header in Hz.
  pose proof (zlen_nonneg (record_data h i r)). pose proof (zlen_nonneg (frames h (i + 1) recs)).
  rewrite entries_loop_frame by (done || lia || by apply sint_range).
  rewrite IH by (simpl in Hf; lia). cbn [frame_entries]. rewrite <- app_assoc.
  do 2 f_equal. cbn [app]. do 2 f_equal. lia.
Qed.

Lemma frames_pos h i recs : recs ≠ [] → 32 < zlen (frames h i recs).
Proof.
  destruct recs as [|r recs]; [done|]. intros _. cbn [frames]. unfold record_frame.
  rewrite !zlen_app, zlen_frame_header.
  pose proof (record_bytes_pos (record_of h i r) (key_order (record_headers_of h i r))).
  fold (record_data h i r) in H. len.
Qed.

Lemma length_frame_header o t e s : length (frame_header o t e s) = 32%nat.
Proof. pose proof (zlen_frame_header o t e s) as H. unfold zlen in H. lia. Qed.

Lemma length_frames h i recs : (length recs ≤ length (frames h i recs))%nat.
Proof.
  revert i. induction recs as [|r recs IH]; intros i; [simpl; lia|].
  cbn [frames length]. unfold record_frame. rewrite !length_app. specialize (IH (i + 1)).
  rewrite length_frame_header. lia.
Qed.

Lemma entries_of_frames h recs basePos :
  in_sint 64 (blockv3.BaseTimestamp h) → in_uint 64 (blockv3.LeaderEpoch h) →
  recs ≠ [] → zlen (frames h 0 recs) < 2 ^ 31 →
  entriesForMessageSet basePos (frames h 0 recs) = Ok (frame_entries h 0 basePos recs).
Proof.
  intros Ht He Hne Hz. unfold entriesForMessageSet, msgSetHeaderLen.
  rewrite (proj2 (Z.leb_gt _ _)) by (by apply frames_pos).
  assert (Hl : (length recs < length (frames h 0 recs))%nat).
  { destruct recs as [|r recs]; [done|]. cbn [frames]. unfold record_frame.
    rewrite !length_app. pose proof (length_frames h (0 + 1) recs).
    rewrite length_frame_header. simpl length. lia. }
  rewrite entries_frames by done. by rewrite Z.add_0_r.
Qed.

(** Frame [i] of the bytes is record [i]. *)
Lemma frame_lookup h k i recs r pos e :
  recs !! i = Some r → frame_entries h k pos recs !! i = Some e →
  let data := record_data h (k + Z.of_nat i) r in
  e_Offset e = rec_offset h r ∧ e_Timestamp e = blockv3.BaseTimestamp h ∧
  e_LeaderEpoch e = blockv3.LeaderEpoch h ∧ e_Size e = zlen data + 32 ∧
  ∃ p s, frames h k recs = p ++ data ++ s ∧ zlen p = e_Position e - pos + 32.
Proof.
  revert k i pos. induction recs as [|r0 recs IH]; intros k i pos Hr He; [done|].
  destruct i as [|i].
  - injection Hr as ->. injection He as <-. rewrite Z.add_0_r. split_and!; try done.
    cbn [frames]. unfold record_frame. eexists _, (frames h (k + 1) recs).
    rewrite <- app_assoc. split; [reflexivity|]. rewrite zlen_frame_header. simpl. lia.
  - cbn [frame_entries] in He. cbn [lookup list_lookup] in Hr, He.
    destruct (IH (k + 1) i _ Hr He) as (? & ? & ? & Hs & p & s & Hf & Hp).
    replace (k + Z.of_nat (S i)) with (k + 1 + Z.of_nat i) by lia. split_and!; try done.
    cbn [frames]. rewrite Hf, app_assoc. eexists (record_frame h k r0 ++ p), s.
    split; [done|]. unfold record_frame. rewrite !zlen_app, zlen_frame_header, Hp. lia.
Qed.

(** ** Reading the records back *)

Lemma field_fits x n : zlen (field_bytes x) ≤ n → n < 2 ^ 31 → fits x = true.
Proof.
  intros H Hn. destruct x as [x|]; [|done]. cbn [field_bytes] in H.
  rewrite zlen_app, BigEndian.zlen_put in H. apply Z.leb_le. unfold MaxInt32. lia.
Qed.

Lemma headers_bytes_le hs k x :
  (k, x) ∈ hs → zlen (field_bytes x) ≤ zlen (headers_bytes hs).
Proof.
  intros H. apply list_elem_of_split in H as (a & b & ->). unfold headers_bytes.
  rewrite fmap_app, concat_app. cbn [fmap list_fmap concat]. unfold header_bytes at 2. cbn [snd fst].
  len.
Qed.

Lemma order_encodable m :
  keys_fit (Headers m) → zlen (record_bytes m (key_order (Headers m))) < 2 ^ 31 →
  encodable m (key_order (Headers m)) = true.
Proof.
  intros Hk Hz. unfold record_bytes, record_body in Hz. rewrite !zlen_app in Hz.
  unfold encodable. rewrite !andb_true_iff. split_and!.
  - eapply field_fits; [reflexivity|len].
  - eapply field_fits; [reflexivity|len].
  - apply forallb_forall. intros [k x] Hin. apply list_elem_of_In in Hin.
    pose proof (headers_bytes_le _ _ _ Hin). unfold header_fits. cbn [fst snd].
    apply andb_true_iff. split; [|eapply field_fits; [reflexivity|len]].
    apply Z.leb_le. unfold MaxInt16. rewrite key_order_perm, elem_of_map_to_list in Hin.
    assert (zlen k < 2 ^ 15) by (apply Hk; by eexists). lia.
Qed.

Lemma present_order headers :
  blockv3.present headers → Forall (λ h, is_Some h.2) (key_order headers).
Proof.
  intros Hp. rewrite key_order_perm. apply Forall_forall. intros [k x] Hin.
  apply elem_of_map_to_list in Hin. by apply (Hp k).
Qed.

Lemma present_id h i r :
  blockv3.present (blockv3.Headers r) → blockv3.present (record_headers_of h i r).
Proof.
  intros Hp. unfold record_headers_of. destruct (has_flag _ _); [done|].
  unfold stamped_headers. apply map_Forall_insert_2; [done|].
  apply map_Forall_union_2; [|done]. unfold id_headers.
  assert (blockv3.present {[hdrProducerID := Some (be64 (uint 64 (blockv3.ProducerID h)));
    hdrProducerEpoch := Some (be32 (uint 32 (blockv3.ProducerEpoch h)))]}).
  { apply map_Forall_insert_2; [done|]. by apply map_Forall_singleton. }
  destruct (has_flag _ _); [|done]. by apply map_Forall_insert_2.
Qed.

Lemma record_attrs_range h r : in_sint 8 (record_attrs h r).
Proof.
  unfold record_attrs, blockv3.AttrTombstone, AttrControl.
  destruct (has_flag _ _), (blockv3.Attributes r); by vm_compute.
Qed.

Lemma record_of_readable h i r :
  rec_fits h i r → blockv3.present (blockv3.Headers r) → zlen (record_data h i r) < 2 ^ 31 →
  readable (record_of h i r) (key_order (record_headers_of h i r)).
Proof.
  intros [Hs Hk] Hp Hz. unfold readable. cbn [MagicByte Attributes Headers record_of v1_message].
  split_and!; [apply key_order_perm|by vm_compute|apply record_attrs_range| | | lia | done].
  - by apply (order_encodable (record_of h i r)).
  - by apply present_order, present_id.
Qed.

Lemma recs_fit_lookup h k recs i r :
  recs_fit h k recs → recs !! i = Some r → rec_fits h (k + Z.of_nat i) r.
Proof.
  revert k i. induction recs as [|r0 recs IH]; intros k i Hf Hi; [done|].
  destruct Hf as [H0 Hf]. destruct i as [|i]; [injection Hi as ->; by rewrite Z.add_0_r|].
  replace (k + Z.of_nat (S i)) with (k + 1 + Z.of_nat i) by lia. by apply IH.
Qed.

(** What a version-3 block reads as.  The framing [decodeV3Block] returns is
    walked by [entriesForMessageSet] into one entry per record that together
    account for every byte, with the block's offset, timestamp and epoch on
    each; and the frame of record [i] holds a checksummed message with that
    record's key, value and headers, the producer identity among them unless
    the block is stripped. *)
Theorem v3_framing_readable `{CodecLib} block h recs ms basePos :
  blockv3.DecodeBlock block = Ok (h, recs) → decodeV3Block block = Ok ms → zlen ms < 2 ^ 31 →
  ∃ es, entriesForMessageSet basePos ms = Ok es ∧ length es = length recs ∧
    total_size es = zlen ms ∧
    ∀ i r e, recs !! i = Some r → es !! i = Some e →
      e_Offset e = sint 64 (blockv3.BaseOffset h + blockv3.OffsetDelta r) ∧
      e_Timestamp e = blockv3.BaseTimestamp h ∧ e_LeaderEpoch e = blockv3.LeaderEpoch h ∧
      ∃ data hs, let pos := e_Position e - basePos in
        slice ms (pos + 32) (pos + e_Size e) = Ok data ∧
        SerializedMessage.crcMatches data = Ok true ∧
        SerializedMessage.Key data = Ok (blockv3.Key r) ∧
        SerializedMessage.Value data = Ok (blockv3.Value r) ∧
        SerializedMessage.Headers data = Ok hs ∧
        Some <$> hs = record_headers_of h (Z.of_nat i) r.
Proof.
  intros Hd Hm Hz. pose proof (blockv3.DecodeBlock_present _ _ _ Hd) as Hpres.
  unfold decodeV3Block in Hm. rewrite Hd, bind_Ok in Hm.
  apply synthesize_loop_inv in Hm as [Hfit ->]. rewrite app_nil_l in *.
  apply blockv3.DecodeBlock_inv in Hd as [Hok (p & _ & _ & _ & Hp)].
  apply blockv3.decode_payload_safe in Hp as [_ (l & Hl & _)]; [|done].
  destruct Hok as (_ & _ & _ & _ & He & Ht & _).
  exists (frame_entries h 0 basePos recs). split_and!.
  - apply entries_of_frames; [done..| |done]. by destruct recs.
  - apply length_frame_entries.
  - apply total_frame_entries.
  - intros i r e Hr Hei.
    destruct (frame_lookup h 0 i recs r basePos e Hr Hei) as (Ho & Hts & Hep & Hsz & q & s & Hf & Hq).
    cbv zeta in Hf. rewrite Z.add_0_l in *. split_and!; try done.
    set (data := record_data h (Z.of_nat i) r) in *.
    assert (Hrd : readable (record_of h (Z.of_nat i) r)
                    (key_order (record_headers_of h (Z.of_nat i) r))).
    { apply record_of_readable.
      - by apply (recs_fit_lookup h 0 recs).
      - eapply Forall_lookup_1 in Hpres; [exact Hpres|exact Hr].
      - fold data. rewrite Hf, !zlen_app in Hz. len. }
    destruct (record_headers _ _ Hrd) as (hs & Hh & Hhs).
    destruct (record_key_value _ _ Hrd) as [Hkey Hval].
    exists data, hs. cbv zeta. split_and!; try done.
    + rewrite Hf. apply slice_app_mid; lia.
    + apply crcMatches_record.
Qed.

(** ** The producer identity *)

Lemma hdr_names_distinct :
  hdrProducerID ≠ hdrProducerEpoch ∧ hdrProducerID ≠ hdrSequence ∧ hdrProducerID ≠ hdrNonce ∧
  hdrProducerEpoch ≠ hdrSequence ∧ hdrProducerEpoch ≠ hdrNonce ∧ hdrSequence ≠ hdrNonce.
Proof. split_and!; vm_compute; discriminate. Qed.

(** The identity headers as successive stores. *)
Definition store_identity (pid pe seq : Z) (nonce : option Z) (hs : gmap bytes (option bytes))
    : gmap bytes (option bytes) :=
  let hs := <[hdrProducerID := Some (be64 pid)]> hs in
  let hs := <[hdrProducerEpoch := Some (be32 pe)]> hs in
  let hs := <[hdrSequence := Some (be32 seq)]> hs in
  match nonce with Some n => <[hdrNonce := Some (be64 n)]> hs | None => hs end.

Lemma stamped_headers_store h i hs :
  stamped_headers h i hs =
  store_identity (uint 64 (blockv3.ProducerID h)) (uint 32 (blockv3.ProducerEpoch h))
    (uint 32 (sint 32 (blockv3.BaseSequence h + sint 32 i)))
    (if has_flag (blockv3.Flags h) blockv3.FlagTransactional
     then Some (blockv3.TxNonce h) else None) hs.
Proof.
  destruct hdr_names_distinct as (D1 & D2 & D3 & D4 & D5 & D6).
  unfold stamped_headers, id_headers, store_identity. destruct (has_flag _ _).
  - rewrite <- !insert_union_l, <- insert_union_singleton_l.
    rewrite (insert_insert_ne _ hdrSequence hdrNonce) by done. f_equal. f_equal.
    by rewrite insert_insert_ne.
  - rewrite <- !insert_union_l, <- insert_union_singleton_l.
    f_equal. by rewrite insert_insert_ne.
Qed.

Lemma store_identity_read pid pe seq nonce hs :
  in_uint 64 pid → in_uint 32 pe → in_uint 32 seq → (∀ n, nonce = Some n → in_uint 64 n) →
  (nonce = None → hs !! hdrNonce = None) →
  identityFromHeaders (store_identity pid pe seq nonce hs) =
    Some (pid, pe, sint 32 seq, default 0 nonce).
Proof.
  destruct hdr_names_distinct as (D1 & D2 & D3 & D4 & D5 & D6).
  intros Hp He Hs Hn Hh. unfold store_identity, identityFromHeaders, be64, be32.
  destruct nonce as [n|]; [specialize (Hn n eq_refl)|specialize (Hh eq_refl)];
    simplify_map_eq; rewrite ?Hh; cbn [default from_option id mjoin option_join];
    rewrite !BigEndian.zlen_put; change (zlen []) with 0; cbn [Z.eqb negb orb];
    by rewrite !BigEndian.get_put_uint.
Qed.

(** The identity of a version-3 block is on every record it reads as.
    Whatever the records' own headers are, unless one of them is named nonce,
    [identityFromHeaders] returns for record [i] the block's producer and
    epoch, the sequence [BaseSequence + i] in 32 bits, and the nonce exactly
    when the block is transactional. *)
Theorem v3_identity_visible h i r :
  blockv3.hdr_ok h → has_flag (blockv3.Flags h) blockv3.FlagStripped = false →
  0 ≤ i < 2 ^ 31 → blockv3.Headers r !! hdrNonce = None →
  identityFromHeaders (record_headers_of h i r) =
  Some (uint 64 (blockv3.ProducerID h), uint 32 (blockv3.ProducerEpoch h),
        sint 32 (blockv3.BaseSequence h + i),
        if has_flag (blockv3.Flags h) blockv3.FlagTransactional then blockv3.TxNonce h else 0).
Proof.
  intros (_ & _ & _ & _ & _ & _ & _ & _ & _ & Hn & _) Hs Hi Hh. unfold record_headers_of.
  rewrite Hs, stamped_headers_store, store_identity_read.
  - rewrite sint_uint; [|lia|by apply sint_range].
    rewrite (sint_nonneg 32 i) by lia. destruct (has_flag (blockv3.Flags h) blockv3.FlagTransactional); reflexivity.
  - by apply uint_range.
  - by apply uint_range.
  - by apply uint_range.
  - intros n. destruct (has_flag (blockv3.Flags h) blockv3.FlagTransactional); [|done]. by intros [= <-].
  - done.
Qed.

(** ** One batch, two formats *)

(** [appendStamped]'s copy of message [i]. *)
Definition stamp_message (meta : BatchMeta) (i : Z) (m : Message) : Message :=
  {| MagicByte := MagicByte m; Attributes := Attributes m; Key := Key m; Value := Value m;
     Headers := stamp_headers meta i (Headers m); Timestamp := Timestamp m;
     LeaderEpoch := LeaderEpoch m |}.

Definition meta_ok (meta : BatchMeta) : Prop :=
  in_uint 64 (m_ProducerID meta) ∧ in_uint 32 (m_ProducerEpoch meta) ∧
  in_sint 32 (m_BaseSequence meta) ∧ in_uint 64 (m_Nonce meta).

(** A message [AppendBatch] takes into a batch of this kind: current magic, no
    attribute but the two it knows, the batch's timestamp and epoch. *)
Definition batch_message (stamp epoch : Z) (control : bool) (m : Message) : Prop :=
  MagicByte m = 0 ∧ 0 ≤ Attributes m < 4 ∧ Z.odd (Attributes m) = control ∧
  Timestamp m = stamp ∧ LeaderEpoch m = epoch.

Lemma stamp_headers_store meta i hs :
  stamp_headers meta i hs =
  store_identity (m_ProducerID meta) (m_ProducerEpoch meta)
    (uint 32 (sint 32 (m_BaseSequence meta + sint 32 i)))
    (if negb (m_Nonce meta =? 0) then Some (m_Nonce meta) else None) hs.
Proof. unfold stamp_headers, store_identity. by destruct (negb _). Qed.

Lemma batch_flags codec base epoch stamp meta control :
  meta ≠ no_meta →
  let f := blockv3.Flags (batch_header codec base epoch stamp meta control) in
  has_flag f blockv3.FlagStripped = false ∧ has_flag f blockv3.FlagControl = control ∧
  has_flag f blockv3.FlagTransactional = negb (m_Nonce meta =? 0) ∧ in_uint 8 f.
Proof.
  intros Hm. cbv zeta. unfold batch_header. cbn [blockv3.Flags].
  rewrite bool_decide_eq_false_2 by done.
  destruct control, (negb (m_Nonce meta =? 0)); by vm_compute.
Qed.

Lemma batch_attrs h m control :
  has_flag (blockv3.Flags h) blockv3.FlagControl = control → 0 ≤ Attributes m < 4 →
  Z.odd (Attributes m) = control →
  ∀ r, blockv3.Attributes r = byte.of_Z (Z.land (uint 8 (Attributes m)) blockv3.AttrTombstone) →
  record_attrs h r = Attributes m.
Proof.
  intros Hc Ha Ho r Hr. unfold record_attrs. rewrite Hc, Hr, <- Ho.
  assert (Attributes m = 0 ∨ Attributes m = 1 ∨ Attributes m = 2 ∨ Attributes m = 3)
    as [E|[E|[E|E]]] by lia; rewrite E; by vm_compute.
Qed.

(** Record [i] of the block reads as the message the other format stamps. *)
Lemma batch_record_of codec base epoch stamp meta control h i m r :
  meta_ok meta → meta ≠ no_meta → batch_message stamp epoch control m →
  blockv3.same_stamp (batch_header codec base epoch stamp meta control) h →
  r = {| blockv3.Attributes := byte.of_Z (Z.land (uint 8 (Attributes m)) blockv3.AttrTombstone);
         blockv3.OffsetDelta := uint 32 i; blockv3.Key := Key m; blockv3.Value := Value m;
         blockv3.Headers := Headers m |} →
  record_of h i r = stamp_message meta i m.
Proof.
  intros (Hpid & Hpe & Hbs & Hn) Hm (Hmag & Ha & Ho & Hts & Hep) Hsame ->.
  destruct Hsame as (Ef & _ & Ele & Ebt & Epid & Epe & Ebs & Enon).
  destruct (batch_flags codec base epoch stamp meta control Hm) as (F1 & F2 & F3 & _).
  rewrite <- Ef in F1, F2, F3. unfold record_of, v1_message, stamp_message.
  rewrite (batch_attrs h m control) by done.
  unfold record_headers_of. cbn [blockv3.Key blockv3.Value blockv3.Headers].
  rewrite F1, stamped_headers_store, stamp_headers_store, F3, Epid, Epe, Ebs, Enon, Ebt, Ele.
  cbn [blockv3.ProducerID blockv3.ProducerEpoch blockv3.BaseSequence blockv3.TxNonce
    blockv3.BaseTimestamp blockv3.LeaderEpoch batch_header].
  by rewrite !uint_sint, Hmag, Hts, Hep by (done || lia).
Qed.

(** The framing depends on the fields of the header a payload leaves alone. *)
Lemma synthesize_same_stamp dst h h' i recs :
  blockv3.same_stamp h h' → synthesize_loop dst h i recs = synthesize_loop dst h' i recs.
Proof.
  intros (E1 & E2 & E3 & E4 & E5 & E6 & E7 & E8). revert dst i.
  induction recs as [|r recs IH]; intros dst i; [done|]. cbn [synthesize_loop].
  unfold record_headers_of, record_attrs, stamped_headers, id_headers, append_frame.
  rewrite E1, E2, E3, E4, E5, E6, E7, E8.
  destruct (encodeV1Message _ _ _ _ _ _) as [msg| |]; [|done|done]. rewrite !bind_Ok.
  destruct (slice_from _ _) as [f| |]; [|done|done]. rewrite !bind_Ok.
  destruct (headerCrc f) as [c| |]; [|done|done]. rewrite !bind_Ok. apply IH.
Qed.

(** *** The encoded batch *)

Lemma encodeV3Block_decodes `{CodecLaws} h recs :
  blockv3.stamp_ok h → recs ≠ [] → Forall (λ r, in_uint 32 (blockv3.OffsetDelta r)) recs →
  zlen (blockv3.EncodeRecords [] recs) < 2 ^ 32 →
  ∃ block h', encodeV3Block h recs = Ok (block, h') ∧
    blockv3.DecodeBlock block = Ok (h', blockv3.norm <$> recs) ∧ blockv3.same_stamp h h'.
Proof.
  intros Hs Hne Hd Hl. unfold encodeV3Block.
  destruct (last recs) as [l|] eqn:El; [|by apply last_None in El].
  set (logical := blockv3.EncodeRecords [] recs) in *.
  set (st := if zlen logical <? compressMinBlock then (CNone, logical)
             else blockv3.stored (blockv3.Codec h) logical).
  change (if zlen logical <? compressMinBlock then _ else _) with st.
  destruct st as [codec payload] eqn:Est.
  assert (Hst : 0 ≤ codec ∧ Valid codec = true ∧ zlen payload ≤ zlen logical ∧
    (if negb (codec =? CNone) then DecompressInto codec payload else Ok payload) = Ok logical).
  { unfold st in Est. destruct (_ <? compressMinBlock).
    - injection Est as <- <-. split_and!; try done; lia.
    - apply blockv3.stored_spec in Est as (_ & ? & ? & ? & ?); [done|apply Hs|apply Hs]. }
  destruct Hst as (Hc0 & Hcv & Hpl & Hdec).
  rewrite (blockv3.last_index _ l El), bind_Ok, blockv3.EncodeHeader_sealed, bind_Ok.
  eexists _, _. split; [reflexivity|]. split; [|by split_and!].
  pose proof (blockv3.zlen_recs_le recs) as Hrl. fold logical in Hrl.
  assert (0 < zlen recs) by (destruct recs; [done|rewrite zlen_cons; len]).
  assert (Hld : in_uint 32 (blockv3.OffsetDelta l)).
  { eapply Forall_forall in Hd; [exact Hd|]. apply last_Some_elem_of, El. }
  apply blockv3.DecodeBlock_ok.
  - apply blockv3.set_payload_ok; [done..|lia|done].
  - simpl. by rewrite uint_small by len.
  - done.
  - by apply blockv3.decode_payload_stored.
Qed.

Lemma batch_records_deltas i msgs :
  Forall (λ r, in_uint 32 (blockv3.OffsetDelta r)) (batch_records i msgs).
Proof.
  revert i. induction msgs as [|m msgs IH]; intros i; [by apply Forall_nil|].
  cbn [batch_records]. constructor; [by apply uint_range|apply IH].
Qed.

(** Records without a nil header value are their own normal form. *)
Lemma norm_present recs :
  Forall (λ r, blockv3.present (blockv3.Headers r)) recs → blockv3.norm <$> recs = recs.
Proof.
  induction 1 as [|r recs Hr _ IH]; [done|]. cbn [fmap list_fmap]. f_equal; [|exact IH].
  unfold blockv3.norm. destruct r as [a o k v hs]. simpl in *. f_equal.
  rewrite <- (map_fmap_id hs) at 2. apply map_fmap_ext. intros key x Hx.
  destruct (Hr key x Hx) as [y ->]. done.
Qed.

Lemma batch_records_present i msgs :
  Forall (λ m, blockv3.present (Headers m)) msgs →
  Forall (λ r, blockv3.present (blockv3.Headers r)) (batch_records i msgs).
Proof. intros H. revert i. induction H; intros i; cbn [batch_records]; constructor; auto. Qed.

Lemma length_batch_records i msgs : length (batch_records i msgs) = length msgs.
Proof. revert i. induction msgs; intros i; simpl; congruence. Qed.

Lemma batch_deltas_by_index i msgs : deltas_by_index i (batch_records i msgs) = true.
Proof.
  revert i. induction msgs as [|m msgs IH]; intros i; [done|].
  cbn [batch_records deltas_by_index blockv3.OffsetDelta]. by rewrite Z.eqb_refl, IH.
Qed.

Lemma decodeV3ForAppend_accepts `{CodecLib} block h recs :
  blockv3.DecodeBlock block = Ok (h, recs) → deltas_by_index 0 recs = true →
  has_flag (blockv3.Flags h) blockv3.FlagTransactional = negb (blockv3.TxNonce h =? 0) →
  decodeV3ForAppend block = Ok (h, recs).
Proof.
  intros Hd Hi Ht. unfold decodeV3ForAppend. rewrite Hd, Hi, Ht, andb_false_r.
  by rewrite Bool.eqb_reflx.
Qed.

Lemma deltas_by_index_spec k recs i r :
  deltas_by_index k recs = true → recs !! i = Some r →
  blockv3.OffsetDelta r = uint 32 (k + Z.of_nat i).
Proof.
  revert k i. induction recs as [|r0 recs IH]; intros k i H Hr; [done|].
  cbn [deltas_by_index] in H. apply andb_prop in H as [H0 H]. apply Z.eqb_eq in H0.
  destruct i as [|i]; [injection Hr as ->; by rewrite Z.add_0_r|].
  replace (k + Z.of_nat (S i)) with (k + 1 + Z.of_nat i) by lia. by apply IH.
Qed.

(** What [decodeV3ForAppend] lets into the log.  It never panics; every
    refusal is [ErrMessageSetRefused]; a block it accepts decodes to the
    records it returns, its records are numbered by their index unless it is
    stripped, and its transactional flag says whether it has a nonce. *)
Lemma decodeV3ForAppend_sound `{CodecLib} block :
  match decodeV3ForAppend block with
  | Ok (h, recs) =>
      blockv3.DecodeBlock block = Ok (h, recs) ∧
      (has_flag (blockv3.Flags h) blockv3.FlagStripped = false →
       ∀ i r, recs !! i = Some r → blockv3.OffsetDelta r = Z.of_nat i) ∧
      (has_flag (blockv3.Flags h) blockv3.FlagTransactional = true ↔ blockv3.TxNonce h ≠ 0)
  | Fail e => ∃ msg, e = ErrMessageSetRefused msg
  | Panic => False
  end.
Proof.
  unfold decodeV3ForAppend. pose proof (blockv3.DecodeBlock_safe block) as Hnp.
  destruct (blockv3.DecodeBlock block) as [[h recs]| |] eqn:Ed; [|by eexists|done].
  destruct (negb _ && negb _) eqn:E1; [by eexists|].
  destruct (negb (Bool.eqb _ _)) eqn:E2; [by eexists|]. split; [done|]. split.
  - intros Hs i r Hr. rewrite Hs in E1. cbn [negb andb] in E1. apply negb_false_iff in E1.
    apply (deltas_by_index_spec 0) with (i := i) (r := r) in E1; [|done..].
    rewrite E1. rewrite Z.add_0_l. apply uint_small. apply blockv3.DecodeBlock_count in Ed.
    apply lookup_lt_Some in Hr. unfold zlen, in_uint in *. lia.
  - apply negb_false_iff, Bool.eqb_prop in E2. rewrite E2, negb_true_iff. apply Z.eqb_neq.
Qed.

(** *** Witnesses *)

Definition sample_framing : bytes :=
  match @decodeV3Block half_lib blockv3.sample_block with Ok ms => ms | _ => [] end.

Lemma v3_framing_readable_witness :
  ∃ es, entriesForMessageSet 100 sample_framing = Ok es ∧ length es = 2%nat ∧
    total_size es = zlen sample_framing.
Proof.
  destruct (@v3_framing_readable half_lib blockv3.sample_block blockv3.sample_decoded.1
    blockv3.sample_decoded.2 sample_framing 100) as (es & H1 & H2 & H3 & _).
  - rewrite blockv3.sample_decodes. by destruct blockv3.sample_decoded.
  - vm_compute. reflexivity.
  - by vm_compute.
  - exists es. split_and!; [done| |done]. rewrite H2. vm_compute. reflexivity.
Defined.

Lemma v3_identity_visible_witness :
  identityFromHeaders (record_headers_of blockv3.sample_decoded.1 1
    {| blockv3.Attributes := byte.of_Z 0; blockv3.OffsetDelta := 3; blockv3.Key := None;
       blockv3.Value := None; blockv3.Headers := ∅ |}) = Some (12, 3, 91, 5).
Proof.
  assert (Hok : blockv3.hdr_ok blockv3.sample_decoded.1).
  { apply (@blockv3.DecodeBlock_inv half_lib blockv3.sample_block _ blockv3.sample_decoded.2).
    rewrite blockv3.sample_decodes. by destruct blockv3.sample_decoded. }
  rewrite (v3_identity_visible blockv3.sample_decoded.1 1 _ Hok).
  - vm_compute. reflexivity.
  - vm_compute. reflexivity.
  - lia.
  - reflexivity.
Defined.

Definition sample_meta : BatchMeta :=
  {| m_ProducerID := 77; m_ProducerEpoch := 2; m_BaseSequence := 2 ^ 31 - 1; m_Nonce := 6 |}.

Definition sample_msg (attrs : Z) (v : option bytes) : Message :=
  {| MagicByte := 0; Attributes := attrs; Key := Some (blockv3.sample_bytes [107]); Value := v;
     Headers := {[ blockv3.sample_bytes [104] := Some (blockv3.sample_bytes [1; 2]) ]};
     Timestamp := 1700000000; LeaderEpoch := 9 |}.

Definition sample_msgs : list Message :=
  [sample_msg 0 (Some (blockv3.sample_bytes [5])); sample_msg 2 None].

End Framing.
