(* ===== verification/EpochCache.v ===== *)
(** * The leader epoch cache: leader_epoch_cache.go

    The sparse history of leader epochs, its checkpoint file, and the probe a
    follower truncates by. *)

From Stdlib Require Import ZArith Lia.
From stdpp Require Import base list numbers strings gmap sorting.
From coqutil Require Import Byte.
From S2P Require Import Prelude GoStd Text.

Open Scope Z_scope.

Module EpochCache.

Definition leaderEpochFileV0 : Z := 0.

(** [Epoch]: [None] is the zero value, no epoch known. *)
Definition Epoch : Type := option Z.
Definition AtEpoch (e : Z) : Epoch := Some e.

Record epochOffset := { leaderEpoch : Z; assignedAtOffset : Z }.

(** How an atomic write of the checkpoint ends: done, refused with the old file
    in place, or replaced without the directory flushed. *)
Inductive write := Written | Unwritten | Unsynced.

(** The cache and the file it owns.  [checkpointFile] is false when the path is
    empty; [disk] is the content of the file, [None] when there is none. *)
Record leaderEpochCache := {
  epochOffsets : list epochOffset;
  checkpointFile : bool;
  disk : option bytes;
}.

Definition set_epochs (l : leaderEpochCache) (es : list epochOffset) : leaderEpochCache :=
  {| epochOffsets := es; checkpointFile := checkpointFile l; disk := disk l |}.

(** ** The checkpoint file *)

Definition newline : byte := byte.of_Z 10.
Definition space : byte := byte.of_Z 32.

Definition format_entry (e : epochOffset) : bytes :=
  Strconv.format (leaderEpoch e) ++ space :: Strconv.format (assignedAtOffset e) ++ [newline].

Definition format_checkpoint (es : list epochOffset) : bytes :=
  Strconv.format leaderEpochFileV0 ++ newline ::
  Strconv.format (zlen es) ++ newline :: concat (format_entry <$> es).

(** [flush]: the cache with the file as the write leaves it, and whether the
    write returned an error. *)
Definition flush (w : write) (l : leaderEpochCache) : leaderEpochCache * bool :=
  if checkpointFile l then
    let l' := {| epochOffsets := epochOffsets l; checkpointFile := true;
                 disk := Some (format_checkpoint (epochOffsets l)) |} in
    match w with
    | Written => (l', true)
    | Unwritten => (l, false)
    | Unsynced => (l', false)
    end
  else (l, true).

(** The entry loop of [readLeaderEpochOffsets]; [epochs] is the map of the
    epochs seen, of which only the keys matter. *)
Fixpoint read_entries (ws : list bytes) (epochs : list Z) (es : list epochOffset)
    : outcome (list epochOffset) :=
  match ws with
  | [] => Ok es
  | w :: ws =>
      match Strconv.ParseUint w with
      | None => Fail (ErrText "invalid leader epoch value")
      | Some leaderEpoch =>
          match ws with
          | [] => Fail (ErrText "missing start offset for epoch")
          | w :: ws =>
              match Strconv.ParseInt w with
              | None => Fail (ErrText "invalid epoch start offset value")
              | Some assignedAtOffset =>
                  if bool_decide (leaderEpoch ∈ epochs)
                  then Fail (ErrText "duplicate leader epoch")
                  else read_entries ws (epochs ++ [leaderEpoch])
                         (es ++ [{| leaderEpoch := leaderEpoch;
                                    assignedAtOffset := assignedAtOffset |}])
              end
          end
      end
  end.

Definition readLeaderEpochOffsets (file : bytes) : outcome (list epochOffset) :=
  match Bufio.ScanWords file with
  | [] => Fail (ErrText "missing version")
  | v :: ws =>
      match Strconv.Atoi v with
      | None => Fail (ErrText "invalid file version value")
      | Some version =>
          if negb (version =? leaderEpochFileV0) then Fail (ErrText "unknown version")
          else
            match ws with
            | [] => Fail (ErrText "missing number of entries")
            | n :: ws =>
                match Strconv.Atoi n with
                | None => Fail (ErrText "invalid entries count value")
                | Some numEntries =>
                    es ← read_entries ws [] [];
                    if negb (numEntries =? zlen es) then Fail (ErrText "expected entries")
                    else Ok es
                end
            end
      end
  end.

(** [newLeaderEpochCache] over a readable directory: [file] is the checkpoint,
    [None] when there is none. *)
Definition newLeaderEpochCache (file : option bytes) : outcome leaderEpochCache :=
  es ← match file with
       | Some b => readLeaderEpochOffsets b
       | None => Ok []
       end;
  Ok {| epochOffsets := es; checkpointFile := true; disk := file |}.

(** ** Operations *)

Definition earliestOffset (l : leaderEpochCache) : Z :=
  match epochOffsets l with [] => -1 | e :: _ => assignedAtOffset e end.

Definition latestEpoch (l : leaderEpochCache) : Z :=
  match last (epochOffsets l) with None => 0 | Some e => leaderEpoch e end.

Definition latestOffset (l : leaderEpochCache) : Z :=
  match last (epochOffsets l) with None => -1 | Some e => assignedAtOffset e end.

Definition findEpoch (l : leaderEpochCache) (epoch : Z) : option epochOffset :=
  let i := Sort.Search (zlen (epochOffsets l)) (λ i,
    match epochOffsets l !! Z.to_nat i with
    | Some e => epoch <=? leaderEpoch e
    | None => false
    end) in
  if i <? zlen (epochOffsets l) then epochOffsets l !! Z.to_nat i else None.

Definition assign (w : write) (l : leaderEpochCache) (epoch offset : Z)
    : leaderEpochCache * bool :=
  if bool_decide (epochOffsets l = []) ||
     ((latestEpoch l <? epoch) && (latestOffset l <=? offset))
  then flush w (set_epochs l (epochOffsets l ++
         [{| leaderEpoch := epoch; assignedAtOffset := offset |}]))
  else (l, true).

Definition Assign := assign.

(** [LastOffsetForLeaderEpoch]: [None] is the miss, [(-1, false)]. *)
Definition LastOffsetForLeaderEpoch (l : leaderEpochCache) (epoch : Z) : option Z :=
  assignedAtOffset <$> findEpoch l (uint 64 (epoch + 1)).

Definition LastLeaderEpoch (l : leaderEpochCache) : Z := latestEpoch l.

Definition ClearLatest (w : write) (l : leaderEpochCache) (offset : Z)
    : leaderEpochCache * bool :=
  if latestOffset l <? offset then (l, true)
  else flush w (set_epochs l
         (filter (λ e, assignedAtOffset e < offset) (epochOffsets l))).

Definition ClearEarliest (w : write) (l : leaderEpochCache) (offset : Z)
    : leaderEpochCache * bool :=
  if offset <=? 0 then (l, true)
  else if offset <=? earliestOffset l then (l, true)
  else
    let earliest := filter (λ e, assignedAtOffset e < offset) (epochOffsets l) in
    let removed := length earliest in
    match last earliest with
    | None => (l, true)
    | Some e =>
        let l1 := set_epochs l (drop removed (epochOffsets l)) in
        let l2 :=
          if (offset <? earliestOffset l1) || bool_decide (epochOffsets l1 = [])
          then set_epochs l1 ({| leaderEpoch := leaderEpoch e; assignedAtOffset := offset |}
                              :: epochOffsets l1)
          else l1 in
        flush w l2
    end.

#[export] Instance epochOffset_eq_dec : EqDecision epochOffset.
Proof. solve_decision. Defined.

(** ** The invariant *)

(** Epochs strictly increase and anchors never decrease. *)
Definition before (a b : epochOffset) : Prop :=
  leaderEpoch a < leaderEpoch b ∧ assignedAtOffset a ≤ assignedAtOffset b.

Definition entry_ok (e : epochOffset) : Prop :=
  in_uint 64 (leaderEpoch e) ∧ in_sint 64 (assignedAtOffset e).

Definition inv (es : list epochOffset) : Prop := StronglySorted before es ∧ Forall entry_ok es.

Inductive op := OpAssign (epoch offset : Z) | OpClearLatest (offset : Z) | OpClearEarliest (offset : Z).

Definition op_ok (o : op) : Prop :=
  match o with
  | OpAssign e off => in_uint 64 e ∧ in_sint 64 off
  | OpClearLatest off | OpClearEarliest off => in_sint 64 off
  end.

Definition apply_op (l : leaderEpochCache) (o : op * write) : leaderEpochCache :=
  match o with
  | (OpAssign e off, w) => (Assign w l e off).1
  | (OpClearLatest off, w) => (ClearLatest w l off).1
  | (OpClearEarliest off, w) => (ClearEarliest w l off).1
  end.

(** The cache a history of operations leaves, from an empty directory. *)
Definition history (ops : list (op * write)) : leaderEpochCache :=
  foldl apply_op {| epochOffsets := []; checkpointFile := true; disk := None |} ops.

Lemma flush_epochs w l : epochOffsets (flush w l).1 = epochOffsets l.
Proof. unfold flush. by destruct (checkpointFile l), w. Qed.

Lemma flush_file w l : checkpointFile (flush w l).1 = checkpointFile l.
Proof. unfold flush. by destruct (checkpointFile l) eqn:E, w; simpl; rewrite ?E. Qed.

#[export] Instance before_trans : Transitive before.
Proof. unfold before. intros a b c. lia. Qed.

Lemma inv_filter P `{∀ e, Decision (P e)} es : inv es → inv (filter P es).
Proof.
  intros [Hs Ho]. split; [|by apply Forall_filter].
  induction Hs as [|e es Hs IH He]; [constructor|]. apply Forall_cons in Ho as [_ Ho].
  rewrite filter_cons. destruct (decide (P e)); [|by apply IH].
  constructor; [by apply IH|]. by apply Forall_filter.
Qed.

Lemma inv_single e : entry_ok e → inv [e].
Proof. intros He. split; [by apply SSorted_cons; [constructor|]|by apply Forall_singleton]. Qed.

Lemma inv_cons es e :
  inv es → entry_ok e → (∀ x, head es = Some x → before e x) → inv (e :: es).
Proof.
  intros [Hs Ho] He Hh. split; [|by constructor]. constructor; [done|].
  destruct Hs as [|x es Hs Hx]; [done|]. specialize (Hh x eq_refl).
  constructor; [done|]. eapply Forall_impl; [exact Hx|]. intros y. by transitivity x.
Qed.

Lemma last_entry es a e :
  StronglySorted before es → a ∈ es → last es = Some e → a = e ∨ before a e.
Proof.
  intros Hs Ha El. apply list_elem_of_lookup in Ha as [i Hi]. rewrite last_lookup in El.
  destruct (decide (i = pred (length es))) as [->|Hne]; [left; congruence|right].
  eapply sorted_lookup; [exact Hs| |exact Hi|exact El]. apply lookup_lt_Some in Hi. lia.
Qed.

Lemma inv_snoc es e :
  inv es → entry_ok e → (∀ l, last es = Some l → before l e) → inv (es ++ [e]).
Proof.
  intros [Hs Ho] He Hl. split; [|by apply Forall_app_2; [|constructor]].
  apply StronglySorted_app_2; [|done|by repeat constructor].
  intros x y Hx ->%list_elem_of_singleton.
  destruct (last es) as [l|] eqn:El; [|apply last_None in El; subst es; by apply not_elem_of_nil in Hx].
  destruct (last_entry es x l) as [->|?]; [done..|by apply Hl|].
  transitivity l; [done|]. by apply Hl.
Qed.

(** Anchors below an offset are a prefix. *)
Lemma split_at es off :
  inv es → es = filter (λ e, assignedAtOffset e < off) es ++
                filter (λ e, ¬ assignedAtOffset e < off) es.
Proof. intros [Hs _]. eapply down_split; [done|]. unfold before. intros x y. lia. Qed.

Lemma drop_below es off :
  inv es → drop (length (filter (λ e, assignedAtOffset e < off) es)) es =
           filter (λ e, ¬ assignedAtOffset e < off) es.
Proof. intros Hi. rewrite (split_at es off Hi) at 2. apply drop_app_length. Qed.

(** ** What each operation leaves *)

Definition assigned (es : list epochOffset) (epoch offset : Z) : list epochOffset :=
  match last es with
  | Some l =>
      if (leaderEpoch l <? epoch) && (assignedAtOffset l <=? offset)
      then es ++ [{| leaderEpoch := epoch; assignedAtOffset := offset |}] else es
  | None => [{| leaderEpoch := epoch; assignedAtOffset := offset |}]
  end.

(** The entries anchored below the floor are replaced by the last of them,
    re-anchored at it, unless an entry is anchored there already. *)
Definition raised (es : list epochOffset) (offset : Z) : list epochOffset :=
  let kept := filter (λ e, ¬ assignedAtOffset e < offset) es in
  match last (filter (λ e, assignedAtOffset e < offset) es) with
  | None => es
  | Some e =>
      match kept with
      | k :: _ => if assignedAtOffset k =? offset then kept else
                  {| leaderEpoch := leaderEpoch e; assignedAtOffset := offset |} :: kept
      | [] => [{| leaderEpoch := leaderEpoch e; assignedAtOffset := offset |}]
      end
  end.

Lemma assign_epochs w l epoch offset :
  epochOffsets (assign w l epoch offset).1 = assigned (epochOffsets l) epoch offset.
Proof.
  unfold assign, assigned, latestEpoch, latestOffset.
  destruct (last (epochOffsets l)) as [e|] eqn:El.
  - rewrite bool_decide_eq_false_2.
    2: { intros E. by rewrite E in El. }
    cbn [orb]. destruct (_ && _); [|done]. by rewrite flush_epochs.
  - apply last_None in El. rewrite bool_decide_eq_true_2 by done. cbn [orb].
    rewrite flush_epochs. simpl. by rewrite El.
Qed.

Lemma latest_lt_filter es offset :
  inv es → match last es with Some e => assignedAtOffset e | None => -1 end < offset →
  filter (λ e, assignedAtOffset e < offset) es = es.
Proof.
  intros [Hs _] Hl. apply filter_all, Forall_forall. intros x Hx.
  destruct (last es) as [l|] eqn:El.
  - destruct (last_entry es x l) as [->|[? ?]]; [done..|lia].
  - apply last_None in El. subst es. by apply not_elem_of_nil in Hx.
Qed.

Lemma ClearLatest_epochs w l offset :
  inv (epochOffsets l) →
  epochOffsets (ClearLatest w l offset).1 =
  filter (λ e, assignedAtOffset e < offset) (epochOffsets l).
Proof.
  intros Hi. unfold ClearLatest. destruct (latestOffset l <? offset) eqn:E.
  - reflect_hyps. simpl. symmetry. by apply latest_lt_filter.
  - by rewrite flush_epochs.
Qed.

Lemma kept_ge (es : list epochOffset) offset x :
  x ∈ filter (λ e, ¬ assignedAtOffset e < offset) es → offset ≤ assignedAtOffset x.
Proof. intros [H _]%list_elem_of_filter. lia. Qed.

Lemma ClearEarliest_epochs w l offset :
  inv (epochOffsets l) →
  epochOffsets (ClearEarliest w l offset).1 =
  if offset <=? 0 then epochOffsets l else raised (epochOffsets l) offset.
Proof.
  intros Hi. unfold ClearEarliest. destruct (offset <=? 0) eqn:E0; [done|].
  unfold raised. set (below := filter (λ e, assignedAtOffset e < offset) _).
  destruct (offset <=? earliestOffset l) eqn:E1.
  - replace below with (@nil epochOffset); [done|]. symmetry. apply filter_none.
    unfold earliestOffset in E1. destruct Hi as [Hs _].
    destruct Hs as [|e es Hs He]; [constructor|]. reflect_hyps.
    constructor; [lia|]. eapply Forall_impl; [exact He|]. unfold before. intros x. lia.
  - destruct (last below) as [e|] eqn:El; [|done]. rewrite flush_epochs.
    unfold below. rewrite drop_below by done. unfold earliestOffset. simpl.
    destruct (filter (λ e0, ¬ _) _) as [|k kept] eqn:Ek; [by rewrite orb_true_r|].
    simpl. rewrite orb_false_r.
    assert (offset ≤ assignedAtOffset k).
    { apply (kept_ge (epochOffsets l)). rewrite Ek. left. }
    destruct (offset <? assignedAtOffset k) eqn:Ec, (assignedAtOffset k =? offset) eqn:Ed;
      reflect_hyps; try done; lia.
Qed.

Lemma inv_assigned es epoch offset :
  inv es → in_uint 64 epoch → in_sint 64 offset → inv (assigned es epoch offset).
Proof.
  intros Hi He Ho. unfold assigned. destruct (last es) as [l|] eqn:El.
  - destruct (_ && _) eqn:E; [|done]. reflect_hyps. apply inv_snoc; [done|by split|].
    rewrite El. intros ? [= <-]. unfold before. simpl. lia.
  - by apply inv_single.
Qed.

Lemma inv_raised es offset : inv es → in_sint 64 offset → inv (raised es offset).
Proof.
  intros Hi Ho. unfold raised. destruct (last _) as [e|] eqn:El; [|done].
  pose proof (inv_filter (λ e, ¬ assignedAtOffset e < offset) es Hi) as Hk.
  assert (He : e ∈ filter (λ e, assignedAtOffset e < offset) es) by (by apply last_Some_elem_of).
  assert (Hok : entry_ok {| leaderEpoch := leaderEpoch e; assignedAtOffset := offset |}).
  { split; [|done]. destruct Hi as [_ Hf]. rewrite Forall_forall in Hf.
    apply list_elem_of_filter in He as [_ He]. apply (Hf _ He). }
  pose proof (split_at es offset Hi) as Hs.
  destruct (filter (λ e, ¬ _) es) as [|k kept] eqn:Ek; [by apply inv_single|].
  destruct (_ =? offset) eqn:E; [done|]. apply inv_cons; [done|done|].
  intros ? [= <-]. destruct Hi as [Hi _]. rewrite Hs in Hi.
  eapply StronglySorted_app_1_elem_of in Hi; [|exact He|left].
  pose proof (kept_ge es offset k) as Hge. rewrite Ek in Hge.
  unfold before in *. simpl. specialize (Hge ltac:(left)). lia.
Qed.

Lemma inv_apply l o w :
  inv (epochOffsets l) → op_ok o → inv (epochOffsets (apply_op l (o, w))).
Proof.
  intros Hi Ho. destruct o as [e off|off|off]; simpl in *.
  - rewrite assign_epochs. destruct Ho. by apply inv_assigned.
  - rewrite ClearLatest_epochs by done. by apply inv_filter.
  - rewrite ClearEarliest_epochs by done. destruct (off <=? 0); [done|]. by apply inv_raised.
Qed.

(** ** The probe *)

Lemma findEpoch_ceiling l epoch :
  StronglySorted before (epochOffsets l) →
  findEpoch l epoch = head (filter (λ e, (epoch <=? leaderEpoch e) = true) (epochOffsets l)).
Proof.
  intros Hs. unfold findEpoch. set (i := Sort.Search _ _).
  destruct (Sort.Search_list before (λ e, epoch <=? leaderEpoch e) (epochOffsets l))
    as [Hr Hd]; [done| |].
  { unfold before. intros x y ??. reflect_hyps. apply Z.leb_le. lia. }
  fold i in Hr, Hd. rewrite <- Hd, head_lookup, lookup_drop, Nat.add_0_r.
  destruct (i <? _) eqn:E; [done|]. reflect_hyps. symmetry. apply lookup_ge_None.
  unfold zlen in *. lia.
Qed.

(** The anchor of the first entry of a later epoch. *)
Definition ceiling (es : list epochOffset) (epoch : Z) : option Z :=
  assignedAtOffset <$> head (filter (λ e, epoch < leaderEpoch e) es).

Lemma filter_later (es : list epochOffset) epoch :
  filter (λ e, (epoch + 1 <=? leaderEpoch e) = true) es =
  filter (λ e, epoch < leaderEpoch e) es.
Proof. apply list_filter_iff. intros e. rewrite Z.leb_le. lia. Qed.

Lemma probe_ceiling l epoch :
  StronglySorted before (epochOffsets l) → 0 ≤ epoch < 2 ^ 64 - 1 →
  LastOffsetForLeaderEpoch l epoch = ceiling (epochOffsets l) epoch.
Proof.
  intros Hs He. unfold LastOffsetForLeaderEpoch, ceiling.
  rewrite uint_small by (unfold in_uint; lia).
  by rewrite findEpoch_ceiling, filter_later by done.
Qed.

Lemma ceiling_app a b epoch :
  ceiling (a ++ b) epoch =
  match ceiling a epoch with Some x => Some x | None => ceiling b epoch end.
Proof.
  unfold ceiling. rewrite filter_app. by destruct (filter _ a).
Qed.

Lemma ceiling_cons e b epoch :
  ceiling (e :: b) epoch =
  if epoch <? leaderEpoch e then Some (assignedAtOffset e) else ceiling b epoch.
Proof.
  unfold ceiling. destruct (epoch <? leaderEpoch e) eqn:E; reflect_hyps.
  - by rewrite filter_cons_True.
  - rewrite filter_cons_False by lia. done.
Qed.

Lemma ceiling_None es epoch :
  ceiling es epoch = None ↔ Forall (λ e, leaderEpoch e ≤ epoch) es.
Proof.
  induction es as [|e es IH]; [by split|].
  rewrite ceiling_cons, Forall_cons, <- IH.
  destruct (epoch <? leaderEpoch e) eqn:E; reflect_hyps; [|by intuition].
  split; [done|lia].
Qed.

Lemma ceiling_Some es epoch x :
  ceiling es epoch = Some x → ∃ e, e ∈ es ∧ assignedAtOffset e = x ∧ epoch < leaderEpoch e.
Proof.
  induction es as [|e es IH]; [done|]. rewrite ceiling_cons.
  destruct (_ <? _) eqn:E; reflect_hyps.
  - intros [= <-]. exists e. split; [left|done].
  - intros (e' & ? & ?)%IH. exists e'. split; [by right|done].
Qed.

Lemma ceiling_first es epoch x :
  StronglySorted before es → ceiling es epoch = Some x →
  ∃ e, e ∈ es ∧ assignedAtOffset e = x ∧ epoch < leaderEpoch e ∧
    ∀ e', e' ∈ es → epoch < leaderEpoch e' → leaderEpoch e ≤ leaderEpoch e'.
Proof.
  induction 1 as [|e es Hs IH He]; [done|]. rewrite ceiling_cons. destruct (_ <? _) eqn:E; reflect_hyps.
  - intros [= <-]. exists e. split; [left|]. split; [done|]. split; [done|].
    intros e' [->|Hin]%elem_of_cons _; [lia|]. eapply Forall_forall in He; [|exact Hin]. destruct He. lia.
  - intros Hc. destruct (IH Hc) as (y & Hy & <- & Hlt & Hmin). exists y. split; [by right|]. split; [done|].
    split; [done|]. intros e' [->|Hin]%elem_of_cons Hlt'; [lia|by apply Hmin].
Qed.

(** The probe below a recorded epoch finds its entry. *)
Lemma ceiling_entry es e :
  StronglySorted before es → e ∈ es → ceiling es (leaderEpoch e - 1) = Some (assignedAtOffset e).
Proof.
  induction 1 as [|x es Hs IH Hx]; intros Hin; [by apply not_elem_of_nil in Hin|]. rewrite ceiling_cons.
  apply elem_of_cons in Hin as [<-|Hin]; [by rewrite (proj2 (Z.ltb_lt _ _)) by lia|].
  eapply Forall_forall in Hx; [|exact Hin]. destruct Hx. rewrite (proj2 (Z.ltb_ge _ _)) by lia. by apply IH.
Qed.

Lemma ceiling_filter_below es epoch offset :
  inv es →
  ceiling (filter (λ e, assignedAtOffset e < offset) es) epoch =
  match ceiling es epoch with Some x => if x <? offset then Some x else None | None => None end.
Proof.
  intros Hi. rewrite (split_at es offset Hi) at 2. rewrite ceiling_app.
  destruct (ceiling (filter _ es) epoch) as [x|] eqn:E.
  - apply ceiling_Some in E as (e & He & <- & _). apply list_elem_of_filter in He as [He _].
    by rewrite (proj2 (Z.ltb_lt _ _)).
  - destruct (ceiling (filter (λ e, ¬ _) es) epoch) as [x|] eqn:E2; [|done].
    apply ceiling_Some in E2 as (e & He & <- & _). apply kept_ge in He.
    by rewrite (proj2 (Z.ltb_ge _ _)) by lia.
Qed.

Lemma max_of_kept es epoch offset :
  Z.max offset <$> ceiling (filter (λ e, ¬ assignedAtOffset e < offset) es) epoch =
  ceiling (filter (λ e, ¬ assignedAtOffset e < offset) es) epoch.
Proof.
  destruct (ceiling _ _) as [x|] eqn:E; [|done].
  apply ceiling_Some in E as (e & He & <- & _). apply kept_ge in He. simpl. f_equal. lia.
Qed.

(** Raising the floor clamps every answer to it from below. *)
Lemma ceiling_raised es epoch offset :
  inv es → ceiling (raised es offset) epoch = Z.max offset <$> ceiling es epoch.
Proof.
  intros Hi. pose proof (split_at es offset Hi) as Hs. unfold raised.
  set (below := filter (λ e, assignedAtOffset e < offset) es) in *.
  pose proof (max_of_kept es epoch offset) as Hmax.
  set (kept := filter (λ e, ¬ assignedAtOffset e < offset) es) in *.
  destruct (last below) as [e|] eqn:El.
  2: { apply last_None in El. rewrite El in Hs. by rewrite Hs. }
  clearbody kept.
  rewrite Hs, ceiling_app. destruct Hi as [Hi _]. rewrite Hs in Hi.
  assert (He : e ∈ below) by (by apply last_Some_elem_of).
  (* the answer before came from the entries below the floor, or not *)
  destruct (ceiling below epoch) as [x|] eqn:Ec.
  - apply ceiling_Some in Ec as (a & Ha & <- & Hae).
    assert (assignedAtOffset a < offset) by (by apply list_elem_of_filter in Ha as [? _]).
    assert (epoch < leaderEpoch e).
    { destruct (last_entry below a e) as [->|[? _]]; [|done|done|done|lia].
      by apply StronglySorted_app_1_l in Hi. }
    simpl. rewrite Z.max_l by lia.
    destruct kept as [|k kept]; [rewrite ceiling_cons; by rewrite (proj2 (Z.ltb_lt _ _))|].
    destruct (_ =? offset) eqn:E; reflect_hyps.
    + rewrite ceiling_cons. eapply StronglySorted_app_1_elem_of in Hi as [? _]; [|exact He|left].
      rewrite (proj2 (Z.ltb_lt _ _)) by lia. by rewrite E.
    + rewrite ceiling_cons. by rewrite (proj2 (Z.ltb_lt _ _)).
  - rewrite Hmax. apply ceiling_None in Ec. rewrite Forall_forall in Ec. specialize (Ec _ He).
    destruct kept as [|k kept]; [rewrite ceiling_cons; by rewrite (proj2 (Z.ltb_ge _ _))|].
    destruct (_ =? offset); [done|]. rewrite (ceiling_cons {| leaderEpoch := _; assignedAtOffset := _ |}).
    by rewrite (proj2 (Z.ltb_ge _ _)).
Qed.

(** ** The checkpoint *)

Lemma read_entries_app es epochs acc :
  Forall entry_ok es → NoDup (leaderEpoch <$> es) →
  (∀ e, e ∈ es → leaderEpoch e ∉ epochs) →
  read_entries (Bufio.words_from (concat (format_entry <$> es)) O []) epochs acc = Ok (acc ++ es).
Proof.
  revert epochs acc. induction es as [|e es IH]; intros epochs acc Ho Hd Hn.
  { by rewrite app_nil_r. }
  apply Forall_cons in Ho as [[He1 He2] Ho]. apply NoDup_cons in Hd as [Hx Hd].
  cbn [fmap list_fmap concat]. unfold format_entry. rewrite <- !app_assoc. cbn [app].
  rewrite <- app_assoc. cbn [app].
  rewrite Bufio.words_format by done. rewrite Bufio.words_format by done.
  cbn [read_entries]. rewrite Strconv.ParseUint_format by done.
  rewrite Strconv.ParseInt_format by done.
  rewrite bool_decide_eq_false_2 by (apply Hn; left).
  rewrite IH; [| done | done |].
  - rewrite <- app_assoc. by destruct e.
  - intros e' He'. rewrite elem_of_app, list_elem_of_singleton. intros [?|E].
    + eapply (Hn e'); [by right|done].
    + apply Hx. rewrite <- E. by apply list_elem_of_fmap_2.
Qed.

Lemma inv_NoDup es : inv es → NoDup (leaderEpoch <$> es).
Proof.
  intros [Hs _]. induction Hs as [|e es Hs IH He]; [by apply NoDup_nil|].
  cbn [fmap list_fmap]. apply NoDup_cons. split; [|done].
  intros (x & Hx & Hxe)%list_elem_of_fmap. rewrite Forall_forall in He.
  destruct (He x Hxe). lia.
Qed.

Lemma read_format es :
  inv es → zlen es < 2 ^ 63 → readLeaderEpochOffsets (format_checkpoint es) = Ok es.
Proof.
  intros Hi Hl. unfold readLeaderEpochOffsets, Bufio.ScanWords, format_checkpoint.
  rewrite !Bufio.words_format by done. pose proof (zlen_nonneg es).
  unfold Strconv.Atoi. rewrite Strconv.ParseInt_format by (by vm_compute).
  cbn [Z.eqb negb leaderEpochFileV0].
  rewrite Strconv.ParseInt_format by (unfold in_sint; lia).
  rewrite read_entries_app, bind_Ok; [by rewrite Z.eqb_refl|apply Hi|by apply inv_NoDup|].
  intros e _. apply not_elem_of_nil.
Qed.

(** A cache whose file says what it holds. *)
Definition synced (l : leaderEpochCache) : Prop :=
  checkpointFile l = true ∧
  match disk l with
  | None => epochOffsets l = []
  | Some b => b = format_checkpoint (epochOffsets l)
  end.

Lemma flush_synced l : checkpointFile l = true → synced (flush Written l).1.
Proof. intros E. unfold flush. by rewrite E. Qed.

Lemma apply_synced l o : synced l → synced (apply_op l (o, Written)).
Proof.
  intros Hs. assert (Hf : checkpointFile l = true) by apply Hs.
  destruct o as [e off|off|off]; simpl.
  - unfold Assign, assign. destruct (_ || _); [by apply flush_synced|done].
  - unfold ClearLatest. destruct (_ <? _); [done|]. by apply flush_synced.
  - unfold ClearEarliest. destruct (off <=? 0); [done|]. destruct (off <=? _); [done|].
    destruct (last _); [|done]. apply flush_synced. by destruct (_ || _).
Qed.

Lemma history_snoc ops o : history (ops ++ [o]) = apply_op (history ops) o.
Proof. unfold history. by rewrite foldl_app. Qed.

Lemma history_inv ops : Forall (λ o, op_ok o.1) ops → inv (epochOffsets (history ops)).
Proof.
  induction ops as [|[o w] ops IH] using rev_ind; intros H; [by split; constructor|].
  rewrite history_snoc. apply Forall_app in H as [H1 H2].
  apply inv_apply; [by apply IH|]. by apply Forall_inv in H2.
Qed.

(** The invariant the binary search and the probe rest on: whatever
    sequence of assignments and trims a log makes, and however its checkpoint
    writes end, the recorded epochs stay strictly increasing and their anchors
    never decrease. *)
Theorem epoch_history_ordered ops :
  Forall (λ o, op_ok o.1) ops → StronglySorted before (epochOffsets (history ops)).
Proof. intros H. by apply history_inv. Qed.

(** C40: A history whose checkpoint writes succeed is durable: reopening the
    directory reads back exactly the entries in memory, after any sequence of
    assignments and trims. *)
Theorem epoch_history_durable ops :
  Forall (λ o, op_ok o.1 ∧ o.2 = Written) ops →
  zlen (epochOffsets (history ops)) < 2 ^ 63 →
  newLeaderEpochCache (disk (history ops)) = Ok (history ops).
Proof.
  intros H Hl.
  assert (Hi : inv (epochOffsets (history ops))).
  { apply history_inv. eapply Forall_impl; [exact H|]. by intros ? []. }
  assert (Hs : synced (history ops)).
  { clear Hl Hi. induction ops as [|[o w] ops IH] using rev_ind; [done|].
    rewrite history_snoc. apply Forall_app in H as [H1 [_ H2]%Forall_inv].
    simpl in H2. subst w. by apply apply_synced, IH. }
  destruct Hs as [Hf Hd]. unfold newLeaderEpochCache.
  destruct (history ops) as [es f d]. simpl in *. subst f.
  destruct d as [b|]; [subst b; by rewrite read_format|by subst es].
Qed.

(** The probe.  On an ordered history, for every epoch but the greatest
    64-bit one, the answer is the anchor of the first recorded later epoch, and
    a miss means that no later epoch is recorded: the ceiling rule, whether the
    probed epoch is recorded or falls into a gap. *)
Theorem epoch_probe_ceiling l epoch :
  StronglySorted before (epochOffsets l) → 0 ≤ epoch < 2 ^ 64 - 1 →
  match LastOffsetForLeaderEpoch l epoch with
  | Some off =>
      ∃ pre e post, epochOffsets l = pre ++ e :: post ∧ assignedAtOffset e = off ∧
        epoch < leaderEpoch e ∧ Forall (λ x, leaderEpoch x ≤ epoch) pre
  | None => Forall (λ x, leaderEpoch x ≤ epoch) (epochOffsets l)
  end.
Proof.
  intros Hs He. rewrite probe_ceiling by done. clear Hs.
  destruct (ceiling _ _) as [off|] eqn:E; [|by apply ceiling_None].
  induction (epochOffsets l) as [|x es IH]; [done|]. rewrite ceiling_cons in E.
  destruct (_ <? _) eqn:Ex; reflect_hyps.
  - injection E as <-. exists [], x, es. split_and!; try done; lia.
  - destruct (IH E) as (pre & e & post & -> & ? & ? & ?).
    exists (x :: pre), e, post. split_and!; try done. by constructor.
Qed.

(** Trimming the history.  After [ClearEarliest] to a positive floor every
    probe answers the greater of its former answer and the floor; after
    [ClearLatest] a probe keeps its answer when that lies below the offset and
    misses otherwise. *)
Theorem epoch_trims_probe w l offset epoch :
  inv (epochOffsets l) → in_sint 64 offset → 0 ≤ epoch < 2 ^ 64 - 1 →
  (0 < offset → LastOffsetForLeaderEpoch (ClearEarliest w l offset).1 epoch =
                Z.max offset <$> LastOffsetForLeaderEpoch l epoch) ∧
  LastOffsetForLeaderEpoch (ClearLatest w l offset).1 epoch =
    match LastOffsetForLeaderEpoch l epoch with
    | Some x => if x <? offset then Some x else None
    | None => None
    end.
Proof.
  intros Hi Ho He. split.
  - intros Hp. rewrite !probe_ceiling; [|apply Hi|done| |done].
    + rewrite ClearEarliest_epochs, (proj2 (Z.leb_gt _ _)) by done. by apply ceiling_raised.
    + by apply (inv_apply l (OpClearEarliest offset) w).
  - rewrite !probe_ceiling; [|apply Hi|done| |done].
    + rewrite ClearLatest_epochs by done. by apply ceiling_filter_below.
    + by apply (inv_apply l (OpClearLatest offset) w).
Qed.

(** The greatest epoch.  A probe for epoch 2^64-1 searches for epoch zero,
    because the successor is computed in 64 bits: on a history with any entry it
    answers the EARLIEST anchor, though no later epoch is recorded (or can be),
    where every other epoch that high misses. *)
Theorem epoch_probe_wraps l e es :
  epochOffsets l = e :: es → inv (epochOffsets l) →
  LastOffsetForLeaderEpoch l (2 ^ 64 - 1) = Some (assignedAtOffset e) ∧
  Forall (λ x, leaderEpoch x ≤ 2 ^ 64 - 1) (epochOffsets l).
Proof.
  intros He [Hs Ho]. split.
  - unfold LastOffsetForLeaderEpoch. change (uint 64 (2 ^ 64 - 1 + 1)) with 0.
    rewrite findEpoch_ceiling, He by done. rewrite He in Ho.
    apply Forall_cons in Ho as [[[H0 _] _] _].
    rewrite filter_cons_True; [done|]. by apply Z.leb_le.
  - eapply Forall_impl; [exact Ho|]. intros x [[_ H] _]. lia.
Qed.

(** *** Witnesses *)

Definition sample_ops : list (op * write) :=
  [(OpAssign 0 (-1), Written); (OpAssign 3 79, Written); (OpAssign 2 90, Written);
   (OpAssign 7 120, Written); (OpClearEarliest 100, Written); (OpClearLatest 500, Written)].

Lemma sample_ops_ok : Forall (λ o, op_ok o.1 ∧ o.2 = Written) sample_ops.
Proof.
  unfold sample_ops. repeat (apply Forall_cons; split); [..|by apply Forall_nil];
    simpl; unfold in_uint, in_sint; split; try done; lia.
Qed.

Lemma epoch_history_ordered_witness :
  StronglySorted before (epochOffsets (history sample_ops)).
Proof.
  apply (epoch_history_ordered sample_ops).
  eapply Forall_impl; [exact sample_ops_ok|]. by intros ? [? _].
Defined.

Lemma epoch_history_durable_witness :
  newLeaderEpochCache (disk (history sample_ops)) = Ok (history sample_ops).
Proof.
  apply (epoch_history_durable sample_ops); [exact sample_ops_ok|]. by vm_compute.
Defined.

Lemma sample_history :
  epochOffsets (history sample_ops) =
    [{| leaderEpoch := 3; assignedAtOffset := 100 |};
     {| leaderEpoch := 7; assignedAtOffset := 120 |}].
Proof. vm_compute. reflexivity. Qed.

Lemma sample_inv : inv (epochOffsets (history sample_ops)).
Proof.
  apply history_inv. eapply Forall_impl; [exact sample_ops_ok|]. by intros ? [? _].
Qed.

Lemma epoch_probe_ceiling_witness :
  match LastOffsetForLeaderEpoch (history sample_ops) 3 with
  | Some off =>
      ∃ pre e post, epochOffsets (history sample_ops) = pre ++ e :: post ∧
        assignedAtOffset e = off ∧ 3 < leaderEpoch e ∧ Forall (λ x, leaderEpoch x ≤ 3) pre
  | None => Forall (λ x, leaderEpoch x ≤ 3) (epochOffsets (history sample_ops))
  end.
Proof. apply (epoch_probe_ceiling (history sample_ops) 3); [apply sample_inv | lia]. Defined.

Lemma epoch_trims_probe_witness :
  (0 < 110 → LastOffsetForLeaderEpoch (ClearEarliest Written (history sample_ops) 110).1 1 =
             Z.max 110 <$> LastOffsetForLeaderEpoch (history sample_ops) 1) ∧
  LastOffsetForLeaderEpoch (ClearLatest Written (history sample_ops) 110).1 1 =
    match LastOffsetForLeaderEpoch (history sample_ops) 1 with
    | Some x => if x <? 110 then Some x else None
    | None => None
    end.
Proof.
  apply (epoch_trims_probe Written (history sample_ops) 110 1);
    [apply sample_inv | unfold in_sint; lia | lia].
Defined.

Lemma epoch_probe_wraps_witness :
  LastOffsetForLeaderEpoch (history sample_ops) (2 ^ 64 - 1) = Some 100 ∧
  Forall (λ x, leaderEpoch x ≤ 2 ^ 64 - 1) (epochOffsets (history sample_ops)).
Proof.
  apply (epoch_probe_wraps (history sample_ops)
    {| leaderEpoch := 3; assignedAtOffset := 100 |}
    [{| leaderEpoch := 7; assignedAtOffset := 120 |}]);
    [apply sample_history | apply sample_inv].
Defined.

End EpochCache.
