(* ===== verification/Index.v ===== *)
(** * The offset index: index.go, index_mmap_unix.go

    A file of fixed-width entries behind a memory mapping.  The file and the
    mapping have lengths of their own: an expansion truncates, unmaps and maps
    again, and each step may fail.  A slice bound out of range and an access
    beyond the end of the file (SIGBUS) are both [Panic]. *)

From Stdlib Require Import ZArith Lia.
From stdpp Require Import base list numbers strings sorting.
From coqutil Require Import Byte.
From S2P Require Import Prelude GoStd.

Open Scope Z_scope.

Module Index.

Definition offsetWidth : Z := 4.
Definition timestampWidth : Z := 8.
Definition positionWidth : Z := 4.
Definition sizeWidth : Z := 4.
Definition entryWidth : Z := offsetWidth + timestampWidth + positionWidth + sizeWidth.

(** Arithmetic with the entry width evaluated. *)
Ltac width_lia :=
  unfold entryWidth, offsetWidth, timestampWidth, positionWidth, sizeWidth in *; lia.

(** [entry], without the leader epoch, which the index does not store. *)
Record entry := { Offset : Z; Timestamp : Z; Position : Z; Size : Z }.

Record relEntry := { relOffset : Z; relTimestamp : Z; relPosition : Z; relSize : Z }.

Definition newRelEntry (e : entry) (baseOffset : Z) : relEntry :=
  {| relOffset := sint 32 (sint 64 (Offset e - baseOffset)); relTimestamp := Timestamp e;
     relPosition := sint 32 (Position e); relSize := Size e |}.

Definition fill (rel : relEntry) (baseOffset : Z) : entry :=
  {| Offset := sint 64 (baseOffset + relOffset rel); Timestamp := relTimestamp rel;
     Position := relPosition rel; Size := relSize rel |}.

Definition roundDown (total factor : Z) : Z := factor * (total ÷ factor).

(** [binary.Write] and [binary.Read] of a [relEntry], big-endian. *)
Definition rel_widths : list nat := [4; 8; 4; 4]%nat.

Definition write_rel (r : relEntry) : bytes :=
  Layout.put_fields rel_widths [relOffset r; relTimestamp r; relPosition r; relSize r].

Definition read_rel (p : bytes) : outcome relEntry :=
  o ← uint_at 4 p 0; t ← uint_at 8 p 4; pos ← uint_at 4 p 12; s ← uint_at 4 p 16;
  Ok {| relOffset := sint 32 o; relTimestamp := sint 64 t;
        relPosition := sint 32 pos; relSize := sint 32 s |}.

(** The index.  [file] is the content of the file; [mmap] the length of the
    mapping, whose bytes are the file's; [bytes_] the growth step. *)
Record index := {
  baseOffset : Z;
  bytes_ : Z;
  file : bytes;
  mmap : option Z;
  size : Z;
  position : Z;
  closed : bool;
}.

(** Which of the system calls of an operation fail. *)
Record faults := { truncate_fails : bool; unmap_fails : bool; map_fails : bool }.
Definition no_faults : faults :=
  {| truncate_fails := false; unmap_fails := false; map_fails := false |}.

Definition mapped (idx : index) : Z := default 0 (mmap idx).

(** [file.Truncate(n)]: cut, or extended with zeros. *)
Definition truncate (b : bytes) (n : Z) : bytes :=
  take (Z.to_nat n) b ++ replicate (Z.to_nat n - length b) (byte.of_Z 0).

Definition set_file (idx : index) (b : bytes) : index :=
  {| baseOffset := baseOffset idx; bytes_ := bytes_ idx; file := b; mmap := mmap idx;
     size := size idx; position := position idx; closed := closed idx |}.
Definition set_mmap (idx : index) (m : option Z) : index :=
  {| baseOffset := baseOffset idx; bytes_ := bytes_ idx; file := file idx; mmap := m;
     size := size idx; position := position idx; closed := closed idx |}.
Definition set_size (idx : index) (n : Z) : index :=
  {| baseOffset := baseOffset idx; bytes_ := bytes_ idx; file := file idx; mmap := mmap idx;
     size := n; position := position idx; closed := closed idx |}.
Definition set_position (idx : index) (n : Z) : index :=
  {| baseOffset := baseOffset idx; bytes_ := bytes_ idx; file := file idx; mmap := mmap idx;
     size := size idx; position := n; closed := closed idx |}.
Definition set_closed (idx : index) : index :=
  {| baseOffset := baseOffset idx; bytes_ := bytes_ idx; file := file idx; mmap := mmap idx;
     size := size idx; position := position idx; closed := true |}.

(** [newIndex] over a file of the given content, empty for a new one.  A
    zero-length file cannot be mapped. *)
Definition newIndex (f : faults) (base bytes0 : Z) (content : bytes) : outcome index :=
  let bytes0 := if bytes0 =? 0 then 10 * 1024 * 1024 else bytes0 in
  content ← (if zlen content =? 0 then
               if truncate_fails f then Fail (ErrText "pre-allocate index file")
               else Ok (truncate content (roundDown bytes0 entryWidth))
             else Ok content);
  if map_fails f || (zlen content =? 0) then Fail (ErrText "mmap file failed")
  else Ok {| baseOffset := base; bytes_ := bytes0; file := content;
             mmap := Some (zlen content); size := zlen content;
             position := zlen content; closed := false |}.

Definition CountEntries (idx : index) : Z := position idx ÷ entryWidth.
Definition numEntries (idx : index) : Z := position idx ÷ entryWidth.

(** [copy(mmap[offset:], p)]. *)
Definition map_store (idx : index) (p : bytes) (offset : Z) : outcome index :=
  if (0 <=? offset) && (offset <=? mapped idx) then
    let n := Z.min (zlen p) (mapped idx - offset) in
    if zlen (file idx) <? offset + n then Panic
    else Ok (set_file idx (take (Z.to_nat offset) (file idx) ++ take (Z.to_nat n) p ++
                           drop (Z.to_nat (offset + n)) (file idx)))
  else Panic.

(** [mmap[offset:offset+entryWidth]]. *)
Definition map_load (idx : index) (offset : Z) : outcome bytes :=
  if (0 <=? offset) && (offset + entryWidth <=? mapped idx) then
    if zlen (file idx) <? offset + entryWidth then Panic
    else slice (file idx) offset (offset + entryWidth)
  else Panic.

(** [writeAt]: the index it leaves, and its result. *)
Definition writeAt (f : faults) (idx : index) (p : bytes) (offset : Z)
    : index * outcome () :=
  let pSize := zlen p in
  let store idx :=
    match map_store idx p offset with
    | Ok idx => (idx, Ok ())
    | Fail e => (idx, Fail e)
    | Panic => (idx, Panic)
    end in
  if (size idx <=? offset + pSize) || (mapped idx <? offset + pSize) then
    let newSize := roundDown (size idx + bytes_ idx) entryWidth in
    let newSize := if newSize <? offset + pSize then size idx + pSize else newSize in
    if truncate_fails f then (idx, Fail (ErrText "failed to expand index file"))
    else
      let idx := set_file idx (truncate (file idx) newSize) in
      if bool_decide (mmap idx ≠ None) && unmap_fails f
      then (idx, Fail (ErrText "failed to unmap memory mapped index file"))
      else
        let idx := set_mmap idx None in
        if map_fails f then (idx, Fail (ErrText "failed to mmap expanded index file"))
        else
          let idx := set_mmap idx (Some (zlen (file idx))) in
          store (set_size idx newSize)
  else store idx.

Definition writeEntries (f : faults) (idx : index) (entries : list entry)
    : index * outcome () :=
  let b := concat ((λ e, write_rel (newRelEntry e (baseOffset idx))) <$> entries) in
  if closed idx then (idx, Fail ErrSegmentClosed)
  else
    match writeAt f idx b (position idx) with
    | (idx, Ok _) => (set_position idx (position idx + entryWidth * zlen entries), Ok ())
    | (idx, r) => (idx, r)
    end.

Definition ReadAt (idx : index) (offset : Z) : outcome bytes :=
  if closed idx then Fail ErrSegmentClosed
  else if position idx <? offset + entryWidth then Fail ErrEOF
  else if mapped idx <? offset + entryWidth then Fail ErrIndexCorrupt
  else map_load idx offset.

Definition ReadEntryAtFileOffset (idx : index) (fileOffset : Z) : outcome entry :=
  p ← ReadAt idx fileOffset;
  rel ← read_rel p;
  Ok (fill rel (baseOffset idx)).

Definition ReadEntryAtLogOffset (idx : index) (logOffset : Z) : outcome entry :=
  ReadEntryAtFileOffset idx (logOffset * entryWidth).

(** [searchEntries]: the ordinal of the first entry [pred] accepts, the number
    of entries, and the entry found. *)
Definition searchEntries (idx : index) (pred : entry → bool)
    : outcome (Z * Z * option entry) :=
  let n := CountEntries idx in
  '(i, serr) ← Sort.SearchErr n (λ i, e ← ReadEntryAtLogOffset idx i; Ok (pred e));
  match serr with
  | Some e => Fail e
  | None =>
      if i =? n then Ok (n, n, None)
      else e ← ReadEntryAtLogOffset idx i; Ok (i, n, Some e)
  end.

(** [Shrink] (on unix the mapping is left as it is). *)
Definition shrink (f : faults) (idx : index) : index * outcome () :=
  if truncate_fails f then (idx, Fail (ErrText "truncate"))
  else (set_size (set_file idx (truncate (file idx) (position idx))) (position idx), Ok ()).

(** [closeIndex]: every step runs, the first error is reported. *)
Definition closeIndex (f : faults) (sync_fails close_fails flush trim : bool) (idx : index)
    : index * outcome () :=
  if closed idx then (idx, Ok ())
  else
    let failed := (flush && sync_fails) || (bool_decide (mmap idx ≠ None) && unmap_fails f) in
    let idx := set_mmap idx None in
    let '(idx, failed) :=
      if trim && (position idx <? size idx) && negb failed
      then let '(idx, r) := shrink f idx in (idx, negb (is_ok r))
      else (idx, failed) in
    (set_closed idx,
     if failed || close_fails then Fail (ErrText "closing index") else Ok ()).

Definition Close (f : faults) (sf cf : bool) := closeIndex f sf cf true true.
Definition CloseFlushed (f : faults) (sf cf : bool) := closeIndex f sf cf false true.
Definition CloseDiscarding (f : faults) (sf cf : bool) := closeIndex f sf cf false false.

(** [reset]: zero the entries, forget the position. *)
Definition reset (idx : index) : index * outcome () :=
  if closed idx then (idx, Fail ErrSegmentClosed)
  else
    let n := Z.min (position idx) (mapped idx) in
    if zlen (file idx) <? n then (idx, Panic)
    else
      (set_position
         (set_file idx (replicate (Z.to_nat n) (byte.of_Z 0) ++ drop (Z.to_nat n) (file idx)))
         0, Ok ()).

(** [offloadReader]: the content bytes, read through the file. *)
Definition offloadReader (idx : index) : outcome (bytes * Z) :=
  if closed idx then Fail ErrSegmentClosed
  else Ok (take (Z.to_nat (position idx)) (file idx), position idx).

Definition empty_entry (e : entry) : bool :=
  (Position e =? 0) && (Timestamp e =? 0) && (Size e =? 0).

Definition InitializePosition (idx : index) : outcome (index * option entry) :=
  let n := size idx ÷ entryWidth in
  '(i, readErr) ← Sort.SearchErr n (λ i,
      e ← ReadEntryAtFileOffset idx (i * entryWidth); Ok (empty_entry e));
  match readErr with
  | Some e => Fail e
  | None =>
      let idx := set_position idx (i * entryWidth) in
      if i =? 0 then Ok (idx, None)
      else
        e ← ReadEntryAtFileOffset idx ((i - 1) * entryWidth);
        if Offset e <? baseOffset idx then Fail ErrIndexCorrupt
        else if negb (Z.rem (position idx) entryWidth =? 0) then Fail ErrIndexCorrupt
        else Ok (idx, Some e)
  end.

(** ** Entries *)

(** An entry the 32-bit relative fields can hold. *)
Definition representable (base : Z) (e : entry) : Prop :=
  in_sint 32 (Offset e - base) ∧ in_sint 64 (Offset e) ∧ in_sint 64 base ∧
  in_sint 64 (Timestamp e) ∧ in_sint 32 (Position e) ∧ in_sint 32 (Size e).

Lemma fill_newRelEntry base e : representable base e → fill (newRelEntry e base) base = e.
Proof.
  intros (Ho & Ho2 & Hb & Ht & Hp & Hs). unfold fill, newRelEntry.
  cbn [relOffset relTimestamp relPosition relSize].
  rewrite (sint_small 64 (Offset e - base)), (sint_small 32 (Offset e - base)),
    (sint_small 32 (Position e)) by (unfold in_sint in *; lia).
  replace (base + (Offset e - base)) with (Offset e) by lia.
  rewrite sint_small by (done || lia). by destruct e.
Qed.

Definition rel_ok (r : relEntry) : Prop :=
  in_sint 32 (relOffset r) ∧ in_sint 64 (relTimestamp r) ∧ in_sint 32 (relPosition r) ∧
  in_sint 32 (relSize r).

Lemma newRelEntry_ok base e : representable base e → rel_ok (newRelEntry e base).
Proof.
  intros (_ & _ & _ & Ht & _ & Hs). unfold rel_ok, newRelEntry.
  cbn [relOffset relTimestamp relPosition relSize].
  split_and!; try done; by apply sint_range.
Qed.

Lemma length_write_rel r : length (write_rel r) = 20%nat.
Proof. unfold write_rel. by rewrite Layout.length_put_fields. Qed.

Lemma zlen_write_rel r : zlen (write_rel r) = entryWidth.
Proof. unfold zlen. by rewrite length_write_rel. Qed.

Lemma write_rel_fields r :
  write_rel r = Layout.put_fields rel_widths
    [uint 32 (relOffset r); uint 64 (relTimestamp r); uint 32 (relPosition r);
     uint 32 (relSize r)].
Proof.
  unfold write_rel, rel_widths. cbn [Layout.put_fields].
  by rewrite <- (BigEndian.put_uint 4 (relOffset r)), <- (BigEndian.put_uint 8 (relTimestamp r)),
    <- (BigEndian.put_uint 4 (relPosition r)), <- (BigEndian.put_uint 4 (relSize r)).
Qed.

Lemma read_write_rel r : rel_ok r → read_rel (write_rel r) = Ok r.
Proof.
  intros (Ho & Ht & Hp & Hs). unfold read_rel. rewrite write_rel_fields.
  rewrite <- (app_nil_r (Layout.put_fields _ _)).
  assert (F : ∀ w z, 0 ≤ w → in_uint w (uint w z)) by (intros; by apply uint_range).
  rewrite (Layout.uint_at_field _ _ 0 4 (uint 32 (relOffset r)) 0),
    (Layout.uint_at_field _ _ 1 8 (uint 64 (relTimestamp r)) 4),
    (Layout.uint_at_field _ _ 2 4 (uint 32 (relPosition r)) 12),
    (Layout.uint_at_field _ _ 3 4 (uint 32 (relSize r)) 16)
    by (done || by apply F).
  cbn [mbind outcome_bind]. rewrite !sint_uint by done. by destruct r.
Qed.

(** ** The representation invariant *)

Definition content (rels : list relEntry) : bytes := concat (write_rel <$> rels).

Lemma zlen_content rels : zlen (content rels) = entryWidth * zlen rels.
Proof.
  unfold content. induction rels as [|r rels IH]; [done|].
  cbn [fmap list_fmap concat]. rewrite zlen_app, zlen_write_rel, zlen_cons, IH. lia.
Qed.

Lemma content_app a b : content (a ++ b) = content a ++ content b.
Proof. unfold content. by rewrite fmap_app, concat_app. Qed.

Lemma content_lookup rels k r :
  rels !! k = Some r →
  ∃ p s, content rels = p ++ write_rel r ++ s ∧ zlen p = entryWidth * Z.of_nat k.
Proof.
  intros Hk. exists (content (take k rels)), (content (drop (S k) rels)). split.
  - rewrite <- (take_drop_middle rels k r Hk) at 1. rewrite content_app. f_equal.
  - rewrite zlen_content. unfold zlen. rewrite length_take.
    apply lookup_lt_Some in Hk. by rewrite Nat.min_l by lia.
Qed.

(** [rep idx rels]: an open index that holds [rels].  The file is at least as
    long as [size] says and begins with the entries; the mapping may be shorter
    than that, or missing, after an expansion that failed half way. *)
Definition rep (idx : index) (rels : list relEntry) : Prop :=
  closed idx = false ∧ position idx = entryWidth * zlen rels ∧
  position idx ≤ size idx ≤ zlen (file idx) ∧
  (∃ t, file idx = content rels ++ t) ∧ entryWidth ≤ bytes_ idx ∧ Forall rel_ok rels.

(** The mapping covers what the index holds. *)
Definition covered (idx : index) : Prop := position idx ≤ mapped idx.

Lemma rep_read idx rels k r :
  rep idx rels → covered idx → rels !! k = Some r →
  ReadEntryAtLogOffset idx (Z.of_nat k) = Ok (fill r (baseOffset idx)).
Proof.
  intros (Hc & Hp & Hs & [t Ht] & _ & Hok) Hcov Hk. unfold covered in Hcov.
  unfold ReadEntryAtLogOffset, ReadEntryAtFileOffset, ReadAt, map_load. rewrite Hc.
  destruct (content_lookup rels k r Hk) as (p & s & Hcont & Hlp).
  assert (Hlt : Z.of_nat k < zlen rels) by (apply lookup_lt_Some in Hk; unfold zlen; lia).
  unfold entryWidth, offsetWidth, timestampWidth, positionWidth, sizeWidth in *.
  rewrite !(proj2 (Z.ltb_ge _ _)) by lia.
  rewrite (proj2 (Z.leb_le 0 _)), (proj2 (Z.leb_le _ (mapped idx))) by lia. cbn [andb].
  rewrite Ht, Hcont, <- !app_assoc.
  rewrite slice_app_mid, bind_Ok by (rewrite ?zlen_write_rel; width_lia).
  rewrite read_write_rel, bind_Ok; [done|].
  eapply Forall_lookup_1 in Hok; [exact Hok|exact Hk].
Qed.

Lemma quot_mul a n : a ≠ 0 → (a * n) ÷ a = n.
Proof. intros Ha. rewrite Z.mul_comm. by apply Z.quot_mul. Qed.

Lemma rep_count idx rels : rep idx rels → CountEntries idx = zlen rels.
Proof. intros (_ & Hp & _). unfold CountEntries. rewrite Hp. by apply quot_mul. Qed.

(** Reading what is not held: past the end, or behind a missing mapping. *)
Lemma rep_read_other idx rels k :
  rep idx rels → 0 ≤ k →
  (zlen rels ≤ k → ReadEntryAtLogOffset idx k = Fail ErrEOF) ∧
  (k < zlen rels → mapped idx < (k + 1) * entryWidth →
     ReadEntryAtLogOffset idx k = Fail ErrIndexCorrupt).
Proof.
  intros (Hc & Hp & _) Hk.
  unfold ReadEntryAtLogOffset, ReadEntryAtFileOffset, ReadAt. rewrite Hc.
  unfold entryWidth, offsetWidth, timestampWidth, positionWidth, sizeWidth in *. split.
  - intros H. by rewrite (proj2 (Z.ltb_lt _ _)) by lia.
  - intros H Hm. by rewrite (proj2 (Z.ltb_ge _ _)), (proj2 (Z.ltb_lt _ _)) by lia.
Qed.

(** ** Writing *)

Lemma roundDown_bounds t f : 0 ≤ t → 0 < f → t - f < roundDown t f ≤ t.
Proof.
  intros Ht Hf. unfold roundDown. rewrite Z.quot_div_nonneg by lia.
  pose proof (Z.div_mod t f ltac:(lia)). pose proof (Z.mod_pos_bound t f Hf). lia.
Qed.

Lemma zlen_truncate b n : 0 ≤ n → zlen (truncate b n) = n.
Proof.
  intros Hn. unfold truncate, zlen.
  rewrite length_app, length_take, length_replicate. lia.
Qed.

Lemma truncate_prefix p t n :
  zlen p ≤ n → ∃ t', truncate (p ++ t) n = p ++ t'.
Proof.
  intros Hn. unfold truncate. rewrite take_app_ge by (unfold zlen in Hn; lia).
  rewrite <- app_assoc. by eexists.
Qed.

(** The size an expansion asks for. *)
Definition grown (idx : index) (want : Z) (pSize : Z) : Z :=
  let newSize := roundDown (size idx + bytes_ idx) entryWidth in
  if newSize <? want then size idx + pSize else newSize.

Lemma grown_bounds idx rels pSize :
  rep idx rels → 0 ≤ pSize →
  position idx + pSize ≤ grown idx (position idx + pSize) pSize ∧
  size idx ≤ grown idx (position idx + pSize) pSize.
Proof.
  intros (_ & Hp & Hs & _ & Hb & _) Hz. unfold grown.
  pose proof (zlen_nonneg rels). assert (0 ≤ position idx) by width_lia.
  pose proof (roundDown_bounds (size idx + bytes_ idx) entryWidth) as Hr.
  destruct (_ <? _) eqn:E; reflect_hyps; width_lia.
Qed.

Lemma rep_truncate idx rels n :
  rep idx rels → position idx ≤ n → size idx ≤ n →
  rep (set_file idx (truncate (file idx) n)) rels.
Proof.
  intros (Hc & Hp & Hs & [t Ht] & Hb & Hok) Hn Hsn. unfold rep, set_file. cbn.
  pose proof (zlen_nonneg rels). rewrite zlen_truncate by width_lia.
  rewrite Ht. destruct (truncate_prefix (content rels) t n) as [t' ->];
    [rewrite zlen_content; lia|]. split_and!; try done; try lia. by exists t'.
Qed.

Lemma map_store_ok idx rels new :
  rep idx rels → Forall rel_ok new →
  position idx + zlen (content new) ≤ size idx → position idx + zlen (content new) ≤ mapped idx →
  ∃ idx', map_store idx (content new) (position idx) = Ok idx' ∧
    rep (set_position idx' (position idx' + entryWidth * zlen new)) (rels ++ new) ∧
    covered (set_position idx' (position idx' + entryWidth * zlen new)) ∧
    baseOffset idx' = baseOffset idx.
Proof.
  intros (Hc & Hp & Hs & [t Ht] & Hb & Hok) Hnew Hsz Hm. unfold map_store.
  pose proof (zlen_nonneg rels). pose proof (zlen_nonneg (content new)).
  assert (0 ≤ position idx) by width_lia.
  rewrite !(proj2 (Z.leb_le _ _)) by lia. cbn [andb].
  rewrite Z.min_l by lia. rewrite (proj2 (Z.ltb_ge _ _)) by lia.
  eexists. split; [reflexivity|].
  rewrite to_nat_zlen, firstn_all.
  replace (take (Z.to_nat (position idx)) (file idx)) with (content rels).
  2: { rewrite Ht, Hp, <- zlen_content, to_nat_zlen. by rewrite take_app_length. }
  unfold rep, covered, mapped in *. cbn [closed position size file bytes_ set_position
    set_file mmap baseOffset].
  rewrite !zlen_app, !zlen_content, content_app in *. split_and!; try done; try lia.
  - rewrite zlen_drop by width_lia. width_lia.
  - eexists. by rewrite <- app_assoc.
  - by apply Forall_app.
Qed.

Lemma map_store_not_Fail idx p offset e : map_store idx p offset ≠ Fail e.
Proof. unfold map_store. by repeat case_match. Qed.

(** What one write leaves, whichever of its steps fail. *)
Definition written (idx : index) (rels new : list relEntry) (r : index * outcome ()) : Prop :=
  match r with
  | (idx', Ok _) =>
      rep (set_position idx' (position idx' + entryWidth * zlen new)) (rels ++ new) ∧
      covered (set_position idx' (position idx' + entryWidth * zlen new)) ∧
      baseOffset idx' = baseOffset idx
  | (idx', Fail _) => rep idx' rels ∧ baseOffset idx' = baseOffset idx
  | (_, Panic) => False
  end.

Lemma store_written idx idx0 rels new :
  rep idx rels → Forall rel_ok new → baseOffset idx = baseOffset idx0 →
  position idx + zlen (content new) ≤ size idx → position idx + zlen (content new) ≤ mapped idx →
  written idx0 rels new
    match map_store idx (content new) (position idx) with
    | Ok idx => (idx, Ok ())
    | Fail e => (idx, Fail e)
    | Panic => (idx, Panic)
    end.
Proof.
  intros Hr Hn Hb Hs Hm. destruct (map_store_ok idx rels new) as (idx' & -> & ? & ? & ?);
    [done..|]. simpl. split_and!; try done. congruence.
Qed.

Lemma rep_set_mmap idx rels m : rep idx rels → rep (set_mmap idx m) rels.
Proof. done. Qed.

Lemma writeAt_written f idx rels new :
  rep idx rels → Forall rel_ok new →
  written idx rels new (writeAt f idx (content new) (position idx)).
Proof.
  intros Hr Hn. unfold writeAt. destruct (_ || _) eqn:E.
  - fold (grown idx (position idx + zlen (content new)) (zlen (content new))).
    destruct (grown_bounds idx rels (zlen (content new)) Hr (zlen_nonneg _)) as [Hg1 Hg2].
    set (n := grown _ _ _) in *.
    destruct (truncate_fails f); [done|].
    pose proof (rep_truncate idx rels n Hr ltac:(len) Hg2) as Hr1.
    set (idx1 := set_file _ _) in *.
    destruct (_ && _); [done|]. destruct (map_fails f); [done|].
    change (position idx) with (position (set_size (set_mmap (set_mmap idx1 None)
      (Some (zlen (file (set_mmap idx1 None))))) n)).
    assert (Hz : zlen (file idx1) = n).
    { apply zlen_truncate. destruct Hr as (_ & Hp & _). pose proof (zlen_nonneg rels).
      pose proof (zlen_nonneg (content new)). width_lia. }
    apply store_written; [|done|done| |].
    + destruct Hr1 as (? & ? & ? & ? & ? & ?). unfold rep.
      cbn [set_size set_mmap closed position size file bytes_]. rewrite Hz.
      pose proof (zlen_nonneg (content new)). split_and!; try done; lia.
    + done.
    + change (position idx + zlen (content new) ≤ zlen (file idx1)). lia.
  - reflect_hyps. apply store_written; [done..|lia|lia].
Qed.

Lemma writeEntries_spec f idx rels es :
  rep idx rels → Forall (representable (baseOffset idx)) es →
  let new := (λ e, newRelEntry e (baseOffset idx)) <$> es in
  match writeEntries f idx es with
  | (idx', Ok _) => rep idx' (rels ++ new) ∧ covered idx' ∧ baseOffset idx' = baseOffset idx
  | (idx', Fail _) => rep idx' rels ∧ baseOffset idx' = baseOffset idx
  | (_, Panic) => False
  end ∧
  (f = no_faults → (writeEntries f idx es).2 = Ok ()).
Proof.
  intros Hr He new.
  assert (Hn : Forall rel_ok new).
  { unfold new. apply Forall_fmap. eapply Forall_impl; [exact He|].
    intros e. apply newRelEntry_ok. }
  assert (Hc : concat ((λ e, write_rel (newRelEntry e (baseOffset idx))) <$> es) = content new).
  { unfold content, new. by rewrite <- list_fmap_compose. }
  assert (Hl : zlen es = zlen new) by (unfold new, zlen; by rewrite length_fmap).
  unfold writeEntries. rewrite Hc, (proj1 Hr), Hl.
  pose proof (writeAt_written f idx rels new Hr Hn) as Hw. split.
  - by destruct (writeAt f idx _ _) as [idx' [[]|e|]].
  - intros ->. unfold writeAt in *. cbn [truncate_fails unmap_fails map_fails no_faults] in *.
    rewrite andb_false_r in *.
    destruct (_ || _); destruct (map_store _ _ _) eqn:E; try done;
      by apply map_store_not_Fail in E.
Qed.

(** The index knows the size of its file. *)
Definition tight (idx : index) : Prop := size idx = zlen (file idx).

Lemma map_store_zlen idx p offset idx' :
  map_store idx p offset = Ok idx' → zlen (file idx') = zlen (file idx) ∧ size idx' = size idx.
Proof.
  unfold map_store. destruct (_ && _) eqn:E; [|done]. apply andb_true_iff in E as [E1 E2].
  apply Z.leb_le in E1, E2. destruct (Z.ltb_spec (zlen (file idx)) (offset + Z.min (zlen p) (mapped idx - offset)));
    [done|]. intros [= <-]. cbn [set_file file size]. split; [|done].
  pose proof (zlen_nonneg p). rewrite !zlen_app. unfold zlen in *. rewrite !length_take, length_drop. lia.
Qed.

Lemma writeEntries_tight idx rels es :
  rep idx rels → tight idx → tight (writeEntries no_faults idx es).1.
Proof.
  intros Hr Ht. unfold writeEntries. rewrite (proj1 Hr). unfold writeAt.
  cbn [truncate_fails unmap_fails map_fails no_faults]. rewrite andb_false_r.
  set (b := concat _). unfold tight in *. destruct (_ || _).
  - match goal with |- context [map_store ?i _ _] => set (idx1 := i) end.
    assert (H1 : size idx1 = zlen (file idx1)).
    { unfold idx1. cbn [set_size set_mmap set_file size file]. rewrite zlen_truncate; [done|].
      pose proof (grown_bounds idx rels (zlen b) Hr (zlen_nonneg b)) as [? _].
      change (0 ≤ grown idx (position idx + zlen b) (zlen b)).
      destruct Hr as (_ & Hp & _). pose proof (zlen_nonneg rels). pose proof (zlen_nonneg b).
      width_lia. }
    destruct (map_store idx1 b (position idx)) as [i| |] eqn:E; [|done|done].
    apply map_store_zlen in E as [E1 E2]. cbn [fst set_position size file]. by rewrite E1, E2.
  - destruct (map_store idx b (position idx)) as [i| |] eqn:E; [|done|done].
    apply map_store_zlen in E as [E1 E2]. cbn [fst set_position size file]. by rewrite E1, E2.
Qed.

Lemma opened_tight f base bytes0 content idx e :
  (idx ← newIndex f base bytes0 content; InitializePosition idx) = Ok (idx, e) → tight idx.
Proof.
  intros E. apply bind_Ok_inv in E as (idx0 & En & Ei).
  assert (H0 : tight idx0).
  { unfold newIndex in En. apply bind_Ok_inv in En as (b & _ & En).
    destruct (_ || _); [done|]. by injection En as <-. }
  unfold InitializePosition in Ei. apply bind_Ok_inv in Ei as ([i re] & _ & Ei).
  destruct re; [done|]. destruct (_ =? 0); [by injection Ei as <- _|].
  apply bind_Ok_inv in Ei as (x & _ & Ei). destruct (_ <? _); [done|].
  destruct (negb _); [done|]. by injection Ei as <- _.
Qed.

(** C34: Writing entries is atomic against every failure of the file system.
    Whatever of the expansion fails, [writeEntries] does not panic; if it
    returns nil the index holds the old entries followed by the new ones and
    its mapping covers them; if it returns an error it still holds exactly the
    old entries, so the write can be retried.  With no failure it succeeds. *)
Theorem index_write_atomic f idx rels es :
  rep idx rels → Forall (representable (baseOffset idx)) es →
  let new := (λ e, newRelEntry e (baseOffset idx)) <$> es in
  match writeEntries f idx es with
  | (idx', Ok _) => rep idx' (rels ++ new) ∧ covered idx' ∧ baseOffset idx' = baseOffset idx
  | (idx', Fail _) => rep idx' rels ∧ baseOffset idx' = baseOffset idx
  | (_, Panic) => False
  end ∧
  (f = no_faults → (writeEntries f idx es).2 = Ok ()).
Proof. apply writeEntries_spec. Qed.

Lemma writeEntries_one idx rels e :
  rep idx rels → representable (baseOffset idx) e →
  ∃ idx', writeEntries no_faults idx [e] = (idx', Ok ()) ∧
    rep idx' (rels ++ [newRelEntry e (baseOffset idx)]) ∧ covered idx' ∧
    baseOffset idx' = baseOffset idx.
Proof.
  intros Hr He. destruct (writeEntries_spec no_faults idx rels [e]) as [Hw Hok];
    [done|by apply Forall_singleton|]. specialize (Hok eq_refl).
  destruct (writeEntries no_faults idx [e]) as [idx' r]. simpl in Hok. subst r. by exists idx'.
Qed.

Lemma reset_spec idx rels :
  rep idx rels → covered idx →
  ∃ idx', reset idx = (idx', Ok ()) ∧ rep idx' [] ∧ covered idx' ∧ baseOffset idx' = baseOffset idx.
Proof.
  intros (Hc & Hp & Hs & [t Ht] & Hb & _) Hcov. unfold reset, covered in *. rewrite Hc.
  rewrite Z.min_l by lia. rewrite (proj2 (Z.ltb_ge _ _)) by lia.
  eexists. split; [done|]. unfold rep, covered, mapped in *.
  cbn [set_position set_file closed position size file bytes_ mmap baseOffset].
  pose proof (zlen_nonneg rels). assert (0 ≤ position idx) by width_lia.
  change (zlen (@nil relEntry)) with 0. rewrite Z.mul_0_r.
  split_and!; try done; try lia; [|by eexists].
  unfold zlen in *. rewrite length_app, length_replicate, length_drop. lia.
Qed.

(** ** Searching *)

Definition entries_of (idx : index) (rels : list relEntry) : list entry :=
  (λ r, fill r (baseOffset idx)) <$> rels.

(** Once true along the entries, [pred] stays true. *)
Definition upward (pred : entry → bool) (es : list entry) : Prop :=
  StronglySorted (λ x y, pred x = true → pred y = true) es.

Lemma search_reads idx rels pred :
  rep idx rels → covered idx → upward pred (entries_of idx rels) →
  ∃ i, Sort.SearchErr (zlen rels) (λ i, e ← ReadEntryAtLogOffset idx i; Ok (pred e)) =
         Ok (Z.of_nat i, None) ∧ (i ≤ length rels)%nat ∧
       Forall (λ e, pred e = false) (take i (entries_of idx rels)) ∧
       Forall (λ e, pred e = true) (drop i (entries_of idx rels)).
Proof.
  intros Hr Hc Hu. set (es := entries_of idx rels).
  assert (Hlen : zlen es = zlen rels) by (unfold es, entries_of, zlen; by rewrite length_fmap).
  rewrite <- Hlen.
  rewrite (Sort.SearchErr_total _ _
    (λ i, match es !! Z.to_nat i with Some e => pred e | None => false end)).
  2: { intros k Hk. destruct (lookup_lt_is_Some_2 rels (Z.to_nat k)) as [r Hk'];
         [unfold zlen in *; lia|].
       rewrite <- (Z2Nat.id k) at 1 by lia. rewrite (rep_read idx rels _ r) by done.
       rewrite bind_Ok. unfold es, entries_of. by rewrite list_lookup_fmap, Hk'. }
  destruct (Sort.Search_list (λ x y, pred x = true → pred y = true) pred es Hu) as [Hi Hd];
    [done|]. set (i := Sort.Search _ _) in *.
  exists (Z.to_nat i). rewrite Z2Nat.id by lia. split; [done|].
  split; [unfold zlen in *; lia|]. rewrite Hd. split.
  - assert (Ht : es = take (Z.to_nat i) es ++ filter (λ x, pred x = true) es)
      by (rewrite <- Hd; by rewrite take_drop).
    apply Forall_forall. intros x Hx. destruct (pred x) eqn:E; [|done]. exfalso.
    apply (f_equal (λ l, length (filter (λ x, pred x = true) l))) in Ht.
    rewrite filter_app, length_app in Ht.
    rewrite (filter_all _ (filter _ es)) in Ht
      by (apply Forall_forall; by intros y [? _]%list_elem_of_filter).
    assert (Hx' : x ∈ filter (λ x, pred x = true) (take (Z.to_nat i) es))
      by (by apply list_elem_of_filter).
    destruct (filter _ (take _ _)); [by apply not_elem_of_nil in Hx'|]. simpl in Ht. lia.
  - apply Forall_forall. by intros y [? _]%list_elem_of_filter.
Qed.

Lemma searchEntries_spec idx rels pred :
  rep idx rels → covered idx → upward pred (entries_of idx rels) →
  ∃ i, searchEntries idx pred =
         Ok (Z.of_nat i, zlen rels, entries_of idx rels !! i) ∧ (i ≤ length rels)%nat ∧
    Forall (λ e, pred e = false) (take i (entries_of idx rels)) ∧
    Forall (λ e, pred e = true) (drop i (entries_of idx rels)).
Proof.
  intros Hr Hc Hu. destruct (search_reads idx rels pred Hr Hc Hu) as (i & Hs & Hi & Hlo & Hhi).
  exists i. split; [|done]. unfold searchEntries. rewrite (rep_count _ _ Hr), Hs, bind_Ok.
  unfold entries_of. rewrite list_lookup_fmap.
  destruct (Z.of_nat i =? zlen rels) eqn:E; reflect_hyps.
  - rewrite lookup_ge_None_2 by (unfold zlen in E; lia). by rewrite E.
  - destruct (lookup_lt_is_Some_2 rels i) as [r Hk]; [unfold zlen in E; lia|].
    by rewrite (rep_read idx rels i r), Hk.
Qed.

(** The index search.  Over an index whose mapping covers its entries, for
    a predicate that stays true once true, [searchEntries] returns the ordinal
    of the first entry that satisfies it, the number of entries, and that very
    entry; the count when no entry does. *)
Theorem index_search_first idx rels pred :
  rep idx rels → covered idx → upward pred (entries_of idx rels) →
  ∃ i, searchEntries idx pred =
         Ok (Z.of_nat i, zlen rels, entries_of idx rels !! i) ∧
    Forall (λ e, pred e = false) (take i (entries_of idx rels)) ∧
    Forall (λ e, pred e = true) (drop i (entries_of idx rels)).
Proof.
  intros Hr Hc Hu. destruct (searchEntries_spec idx rels pred Hr Hc Hu) as (i & E & _ & Hs).
  by exists i.
Qed.

(** ** Reopening *)

Definition zero_rel : relEntry :=
  {| relOffset := 0; relTimestamp := 0; relPosition := 0; relSize := 0 |}.

Lemma write_zero_rel : write_rel zero_rel = replicate 20 (byte.of_Z 0).
Proof. vm_compute. reflexivity. Qed.

Lemma content_zeros k : content (replicate k zero_rel) = replicate (20 * k) (byte.of_Z 0).
Proof.
  unfold content. induction k as [|k IH]; [done|].
  cbn [replicate fmap list_fmap concat]. rewrite write_zero_rel.
  fold (@fmap list _ relEntry bytes write_rel (replicate k zero_rel)). rewrite IH.
  rewrite <- replicate_add. f_equal. lia.
Qed.

Lemma rep_opened base bytes0 rels k :
  entryWidth ≤ bytes0 → (0 < length rels + k)%nat → Forall rel_ok rels →
  ∃ idx, newIndex no_faults base bytes0 (content rels ++ replicate (20 * k) (byte.of_Z 0)) =
           Ok idx ∧ rep idx (rels ++ replicate k zero_rel) ∧ covered idx ∧
         baseOffset idx = base ∧ size idx = entryWidth * zlen (rels ++ replicate k zero_rel).
Proof.
  intros Hb Hk Hok. rewrite <- content_zeros, <- content_app.
  set (all := rels ++ replicate k zero_rel).
  assert (Hz : zlen (content all) = entryWidth * zlen all) by apply zlen_content.
  assert (0 < zlen all).
  { unfold all, zlen. rewrite length_app, length_replicate. lia. }
  unfold newIndex. rewrite (proj2 (Z.eqb_neq bytes0 0)) by width_lia.
  rewrite (proj2 (Z.eqb_neq (zlen (content all)) 0)) by width_lia.
  cbn [mbind outcome_bind no_faults map_fails orb].
  rewrite (proj2 (Z.eqb_neq (zlen (content all)) 0)) by width_lia.
  eexists. split; [reflexivity|]. unfold rep, covered, mapped.
  cbn [closed position size file bytes_ mmap baseOffset]. simpl default.
  split_and!; try done; try lia; [exists []; by rewrite app_nil_r|].
  apply Forall_app. split; [done|]. apply Forall_replicate. by vm_compute.
Qed.

Lemma rep_forget idx rels zs :
  rep idx (rels ++ zs) → covered idx →
  rep (set_position idx (zlen rels * entryWidth)) rels ∧
  covered (set_position idx (zlen rels * entryWidth)).
Proof.
  intros (Hc & Hp & Hs & [t Ht] & Hb & Hok) Hcov. unfold rep, covered, mapped in *.
  pose proof (zlen_nonneg zs). rewrite zlen_app in Hp.
  cbn [closed position size file bytes_ mmap set_position].
  apply Forall_app in Hok as [Hok _]. rewrite content_app, <- app_assoc in Ht.
  split_and!; try done; try width_lia. by eexists.
Qed.

Lemma upward_empty base rels k :
  Forall (λ r, empty_entry (fill r base) = false) rels →
  StronglySorted (λ x y, empty_entry x = true → empty_entry y = true)
    ((λ r, fill r base) <$> (rels ++ replicate k zero_rel)).
Proof.
  intros Hne. rewrite fmap_app. apply StronglySorted_app_2.
  - intros x y (r & -> & Hr)%list_elem_of_fmap _ E. rewrite Forall_forall in Hne.
    by rewrite (Hne r Hr) in E.
  - induction Hne as [|r rels Hr _ IH]; [constructor|]. cbn [fmap list_fmap].
    constructor; [exact IH|]. apply Forall_true. intros y E. by rewrite Hr in E.
  - induction k as [|k IH]; [constructor|]. cbn [replicate fmap list_fmap].
    constructor; [exact IH|]. apply Forall_forall. intros y (r & -> & Hr)%list_elem_of_fmap _.
    by apply elem_of_replicate_inv in Hr as ->.
Qed.

(** Where the entries end: the first empty one. *)
Lemma split_point base rels k i :
  Forall (λ r, empty_entry (fill r base) = false) rels → (i ≤ length rels + k)%nat →
  Forall (λ e, empty_entry e = false)
    (take i ((λ r, fill r base) <$> (rels ++ replicate k zero_rel))) →
  Forall (λ e, empty_entry e = true)
    (drop i ((λ r, fill r base) <$> (rels ++ replicate k zero_rel))) → i = length rels.
Proof.
  intros Hne Hi Hlo Hhi. rewrite fmap_app in Hlo, Hhi.
  destruct (Nat.lt_trichotomy i (length rels)) as [H|[H|H]]; [|done|].
  - exfalso. destruct (lookup_lt_is_Some_2 rels i H) as [r Hr].
    eapply (Forall_lookup_1 _ _ 0 (fill r base)) in Hhi.
    + eapply Forall_lookup_1 in Hne; [|exact Hr]. simpl in Hne. congruence.
    + rewrite lookup_drop, Nat.add_0_r, lookup_app_l by (by rewrite length_fmap).
      by rewrite list_lookup_fmap, Hr.
  - exfalso. eapply (Forall_lookup_1 _ _ (length rels) (fill zero_rel base)) in Hlo.
    + by vm_compute in Hlo.
    + rewrite lookup_take_lt by lia. rewrite lookup_app_r by (by rewrite length_fmap).
      rewrite length_fmap, Nat.sub_diag, list_lookup_fmap, lookup_replicate_2 by lia. done.
Qed.

Lemma InitializePosition_spec base bytes0 rels k :
  entryWidth ≤ bytes0 → (0 < length rels + k)%nat → Forall rel_ok rels →
  Forall (λ r, empty_entry (fill r base) = false) rels →
  (∀ r, last rels = Some r → base ≤ Offset (fill r base)) →
  ∃ idx idx',
    newIndex no_faults base bytes0 (content rels ++ replicate (20 * k) (byte.of_Z 0)) = Ok idx ∧
    InitializePosition idx = Ok (idx', (λ r, fill r base) <$> last rels) ∧
    rep idx' rels ∧ covered idx' ∧ baseOffset idx' = base ∧ numEntries idx' = zlen rels.
Proof.
  intros Hb Hk Hok Hne Hlast.
  destruct (rep_opened base bytes0 rels k Hb Hk Hok) as (idx & Hnew & Hr & Hc & Hbase & Hsz).
  exists idx, (set_position idx (zlen rels * entryWidth)).
  destruct (rep_forget idx rels _ Hr Hc) as [Hr' Hc']. split; [done|].
  split; [|split; [done|]; split; [done|]; split; [done|by apply (rep_count _ _ Hr')]].
  destruct (search_reads idx _ empty_entry Hr Hc) as (i & Hs & Hi & Hlo & Hhi).
  { unfold upward, entries_of. rewrite Hbase. by apply upward_empty. }
  assert (i = length rels) as ->.
  { unfold entries_of in *. rewrite Hbase in *. eapply split_point; [done| |done|done].
    by rewrite length_app, length_replicate in Hi. }
  unfold InitializePosition. rewrite Hsz, quot_mul by done.
  unfold ReadEntryAtLogOffset in Hs. rewrite Hs, bind_Ok. fold (zlen rels).
  destruct (zlen rels =? 0) eqn:E; reflect_hyps.
  { destruct rels; [done|]. rewrite zlen_cons in E. len. }
  destruct (last rels) as [r|] eqn:El; [|by apply last_None in El; subst rels].
  assert (Hkr : rels !! (length rels - 1)%nat = Some r).
  { rewrite last_lookup in El. by replace (length rels - 1)%nat with (pred (length rels)) by lia. }
  pose proof (rep_read _ _ _ _ Hr' Hc' Hkr) as Hread.
  unfold ReadEntryAtLogOffset in Hread.
  replace (Z.of_nat (length rels - 1)) with (zlen rels - 1) in Hread.
  2: { unfold zlen in *. lia. }
  rewrite Hread, bind_Ok. cbn [baseOffset set_position position]. rewrite Hbase.
  rewrite (proj2 (Z.ltb_ge _ _)) by (by apply Hlast).
  by rewrite Z.rem_mul.
Qed.

(** Reopening finds the end of the index.  From a file that holds entries
    followed by any number of zeroed ones, as pre-allocation or a crash leaves
    it, [newIndex] and [InitializePosition] recover an index that holds exactly
    those entries and return the last of them, provided no entry is itself all
    zero and the last one is not below the base offset. *)
Theorem index_recovers_position base bytes0 rels k :
  entryWidth ≤ bytes0 → (0 < length rels + k)%nat → Forall rel_ok rels →
  Forall (λ r, empty_entry (fill r base) = false) rels →
  (∀ r, last rels = Some r → base ≤ Offset (fill r base)) →
  ∃ idx idx',
    newIndex no_faults base bytes0 (content rels ++ replicate (20 * k) (byte.of_Z 0)) = Ok idx ∧
    InitializePosition idx = Ok (idx', (λ r, fill r base) <$> last rels) ∧
    rep idx' rels ∧ covered idx'.
Proof.
  intros. destruct (InitializePosition_spec base bytes0 rels k) as (idx & idx' & ? & ? & ? & ? & _);
    [done..|]. by exists idx, idx'.
Qed.

Lemma truncate_content idx rels :
  rep idx rels → truncate (file idx) (position idx) = content rels.
Proof.
  intros (_ & Hp & _ & [t Ht] & _). rewrite Hp, <- zlen_content. unfold truncate.
  rewrite Ht, to_nat_zlen, take_app_length, length_app.
  replace (length (content rels) - _)%nat with 0%nat by lia. apply app_nil_r.
Qed.

(** [Shrink] keeps the entries. *)
Lemma shrink_spec f idx rels :
  rep idx rels → covered idx →
  rep (shrink f idx).1 rels ∧ covered (shrink f idx).1 ∧
  baseOffset (shrink f idx).1 = baseOffset idx.
Proof.
  intros Hr Hc. unfold shrink. destruct (truncate_fails f); [done|].
  pose proof (truncate_content idx rels Hr) as E. destruct Hr as (Hcl & Hp & Hs & Ht & Hb & Hok).
  unfold rep, covered, mapped in *. cbn [fst set_size set_file closed position size file bytes_ mmap baseOffset].
  rewrite E, zlen_content. split_and!; try done; try lia. exists []. by rewrite app_nil_r.
Qed.

(** Closing always releases.  Whatever fails and whichever close it is, an
    open index ends closed with no mapping, and none of its entries is lost
    from the file; a trimming close with no failure leaves exactly the entries
    when the file was longer than them. *)
Theorem index_close_releases f sf cf flush trim idx rels :
  rep idx rels →
  let '(idx', r) := closeIndex f sf cf flush trim idx in
  closed idx' = true ∧ mmap idx' = None ∧ r ≠ Panic ∧
  (∃ t, file idx' = content rels ++ t) ∧
  (trim = true → r = Ok () → position idx < size idx → file idx' = content rels).
Proof.
  intros Hr. pose proof (truncate_content idx rels Hr) as Htr.
  destruct Hr as (Hc & Hp & Hs & [t Ht] & Hb & Hok). unfold closeIndex. rewrite Hc.
  set (failed := _ || _). cbn [position size set_mmap].
  destruct (trim && (position idx <? size idx) && negb failed) eqn:E.
  - unfold shrink. destruct (truncate_fails f);
      cbn [set_mmap set_size set_file set_closed closed mmap file position is_ok negb orb].
    + split_and!; try done. by eexists.
    + rewrite Htr. split_and!; try done; [by destruct cf|]. exists []. by rewrite app_nil_r.
  - cbn [set_closed closed mmap file set_mmap].
    split_and!; try done; [by destruct (failed || cf)|by eexists|].
    intros -> Hr Hlt. rewrite (proj2 (Z.ltb_lt _ _)) in E by done.
    destruct failed; [|done]. discriminate Hr.
Qed.

(** *** Witnesses *)

Definition sample_entries : list entry :=
  [{| Offset := 4100; Timestamp := 1700000000; Position := 0; Size := 120 |};
   {| Offset := 4101; Timestamp := 1700000000; Position := 120; Size := 99 |};
   {| Offset := 4107; Timestamp := 1700000009; Position := 219; Size := 64 |}].

Definition sample_rels : list relEntry := (λ e, newRelEntry e 4100) <$> sample_entries.

Definition sample_index : index :=
  {| baseOffset := 4100; bytes_ := 40; file := content sample_rels ++ replicate 20 (byte.of_Z 0);
     mmap := Some 80; size := 80; position := 60; closed := false |}.

Lemma sample_rels_ok : Forall rel_ok sample_rels.
Proof. repeat (apply Forall_cons; split); [by vm_compute..|]. by apply Forall_nil. Qed.

Lemma sample_rep : rep sample_index sample_rels ∧ covered sample_index.
Proof.
  split; [|by vm_compute]. split_and!; try done; [|apply sample_rels_ok].
  by eexists.
Qed.

Lemma index_write_atomic_witness :
  let new := (λ e, newRelEntry e 4100) <$> sample_entries in
  match writeEntries {| truncate_fails := false; unmap_fails := false; map_fails := true |}
          sample_index sample_entries with
  | (idx', Ok _) => rep idx' (sample_rels ++ new) ∧ covered idx' ∧ baseOffset idx' = 4100
  | (idx', Fail _) => rep idx' sample_rels ∧ baseOffset idx' = 4100
  | (_, Panic) => False
  end ∧
  ({| truncate_fails := false; unmap_fails := false; map_fails := true |} = no_faults →
   (writeEntries {| truncate_fails := false; unmap_fails := false; map_fails := true |}
      sample_index sample_entries).2 = Ok ()).
Proof.
  apply (index_write_atomic {| truncate_fails := false; unmap_fails := false; map_fails := true |}
    sample_index sample_rels sample_entries); [apply sample_rep|].
  repeat (apply Forall_cons; split); [by vm_compute..|]. by apply Forall_nil.
Defined.

Lemma index_search_first_witness :
  ∃ i, searchEntries sample_index (λ e, 4102 <=? Offset e) =
         Ok (Z.of_nat i, zlen sample_rels, entries_of sample_index sample_rels !! i) ∧
    Forall (λ e, (4102 <=? Offset e) = false) (take i (entries_of sample_index sample_rels)) ∧
    Forall (λ e, (4102 <=? Offset e) = true) (drop i (entries_of sample_index sample_rels)).
Proof.
  apply (index_search_first sample_index sample_rels (λ e, 4102 <=? Offset e));
    [apply sample_rep..|].
  unfold upward. vm_compute. repeat constructor; by intros.
Defined.

Lemma index_recovers_position_witness :
  ∃ idx idx',
    newIndex no_faults 4100 40 (content sample_rels ++ replicate (20 * 2) (byte.of_Z 0)) =
      Ok idx ∧
    InitializePosition idx = Ok (idx', (λ r, fill r 4100) <$> last sample_rels) ∧
    rep idx' sample_rels ∧ covered idx'.
Proof.
  apply (index_recovers_position 4100 40 sample_rels 2).
  - by vm_compute.
  - simpl. lia.
  - apply sample_rels_ok.
  - repeat (apply Forall_cons; split); [by vm_compute..|]. by apply Forall_nil.
  - intros r [= <-]. by vm_compute.
Defined.

End Index.
