(* ===== verification/SyncBarrier.v ===== *)
(** * Durability: the group-commit barrier of [commitLog.Sync]

    [Sync], [SyncAll] and [segment.sync] as threads that interleave with
    appends, rolls and truncations at the points where the code releases its
    locks.  Records are counted: a segment has [written] of them, [durable] of
    which are on stable storage, and offsets run through the segments from 0.
    What an fsync covers is what had been written when it started; the device
    may at any time have written more.  Segments closed by a maintenance pass
    while a flush runs are not part of this model. *)

From Stdlib Require Import ZArith Lia.
From stdpp Require Import base list numbers gmap.
From S2P Require Import Prelude.

Open Scope Z_scope.

Module SyncBarrier.

(** ** State *)

Record seg := { written : Z; durable : Z; dirtyData : bool }.

(** Where a thread is.  [off] is the offset [Sync] was called with and [n0] the
    number of records in the log at that moment; [target] the tail the flush
    leader read; [n] the segments of its snapshot, [i] the one it is at, and
    [w0] what that one held when the leader took its dirty mark. *)
Inductive pc :=
| SCheck (off n0 : Z)
| SWait (off n0 : Z) (flush : nat)
| SLead (off n0 : Z)
| STarget (off n0 target : Z)
| SSeg (off n0 target : Z) (n i : nat)
| SFsync (off n0 target : Z) (n i : nat) (w0 : Z)
| SEnd (off n0 target : Z) (ok : bool)
| SDone (off n0 : Z) (ok : bool)
| ASeg (n i : nat)
| AFsync (n i : nat) (w0 : Z)
| ADone (ok : bool).

Record state := {
  segs : list seg;
  syncDurable : Z;
  syncFlushing : bool;
  started : nat;   (** flushes begun: each has its own [syncDone] channel *)
  finished : nat;  (** flushes whose channel is closed *)
  threads : gmap nat pc;
}.

Definition total (l : list seg) : Z := foldr (λ s z, written s + z) 0 l.

Definition newestOffset (st : state) : Z := total (segs st) - 1.

Definition init : state :=
  {| segs := [{| written := 0; durable := 0; dirtyData := true |}]; syncDurable := -1;
     syncFlushing := false; started := 0; finished := 0; threads := ∅ |}.

Definition with_segs (st : state) (l : list seg) : state :=
  {| segs := l; syncDurable := syncDurable st; syncFlushing := syncFlushing st;
     started := started st; finished := finished st; threads := threads st |}.

Definition goto (st : state) (t : nat) (p : pc) : state :=
  {| segs := segs st; syncDurable := syncDurable st; syncFlushing := syncFlushing st;
     started := started st; finished := finished st; threads := <[t := p]> (threads st) |}.

(** ** Segments *)

Definition mark (s : seg) (d : bool) : seg :=
  {| written := written s; durable := durable s; dirtyData := d |}.

(** An append to the active segment: the mark, then the record. *)
Definition append1 (s : seg) : seg :=
  {| written := written s + 1; durable := durable s; dirtyData := true |}.

Definition flushed (s : seg) (w : Z) : seg :=
  {| written := written s; durable := Z.max (durable s) (Z.min w (written s));
     dirtyData := dirtyData s |}.

Definition append_last (l : list seg) : list seg :=
  match last l with
  | Some s => take (length l - 1) l ++ [append1 s]
  | None => l
  end.

(** [Truncate(n)] on the segments: those before the one that holds record [n]
    stay; that one is rewritten into a new file, or dropped if nothing of it
    is kept and it is not the first; the rest go. *)
Fixpoint truncate_segs (first : bool) (base : Z) (l : list seg) (n : Z) : list seg :=
  match l with
  | [] => []
  | s :: l =>
      if base + written s <=? n then s :: truncate_segs false (base + written s) l n
      else if (base =? n) && negb first then []
      else [{| written := n - base; durable := 0; dirtyData := true |}]
  end.

(** ** Steps *)

(** One step of thread [t]; [ok] is what an fsync that ends here returns. *)
Definition step_thread (st : state) (t : nat) (ok : bool) : option state :=
  match threads st !! t with
  | None => None
  | Some (SCheck off n0) =>
      if off <=? syncDurable st then Some (goto st t (SDone off n0 true))
      else if syncFlushing st then Some (goto st t (SWait off n0 (started st)))
      else Some (goto {| segs := segs st; syncDurable := syncDurable st; syncFlushing := true;
                         started := S (started st); finished := finished st;
                         threads := threads st |} t (SLead off n0))
  | Some (SWait off n0 flush) =>
      if (flush <=? finished st)%nat then Some (goto st t (SCheck off n0)) else None
  | Some (SLead off n0) => Some (goto st t (STarget off n0 (newestOffset st)))
  | Some (STarget off n0 target) => Some (goto st t (SSeg off n0 target (length (segs st)) 0))
  | Some (SSeg off n0 target n i) =>
      if (i <? n)%nat then
        match segs st !! i with
        | None => None
        | Some s =>
            if dirtyData s
            then Some (goto (with_segs st (<[i := mark s false]> (segs st))) t
                         (SFsync off n0 target n i (written s)))
            else Some (goto st t (SSeg off n0 target n (S i)))
        end
      else Some (goto st t (SEnd off n0 target true))
  | Some (SFsync off n0 target n i w0) =>
      match segs st !! i with
      | None => None
      | Some s =>
          if ok then Some (goto (with_segs st (<[i := flushed s w0]> (segs st))) t
                             (SSeg off n0 target n (S i)))
          else Some (goto (with_segs st (<[i := mark s true]> (segs st))) t
                       (SEnd off n0 target false))
      end
  | Some (SEnd off n0 target fok) =>
      let st := {| segs := segs st;
                   syncDurable := if fok && (syncDurable st <? target) then target
                                  else syncDurable st;
                   syncFlushing := false; started := started st; finished := started st;
                   threads := threads st |} in
      Some (goto st t (if negb fok then SDone off n0 false
                       else if target <? off then SDone off n0 true else SCheck off n0))
  | Some (SDone _ _ _) => None
  | Some (ASeg n i) =>
      if (i <? n)%nat then
        match segs st !! i with
        | None => None
        | Some s =>
            if dirtyData s
            then Some (goto (with_segs st (<[i := mark s false]> (segs st))) t
                         (AFsync n i (written s)))
            else Some (goto st t (ASeg n (S i)))
        end
      else Some (goto st t (ADone true))
  | Some (AFsync n i w0) =>
      match segs st !! i with
      | None => None
      | Some s =>
          if ok then Some (goto (with_segs st (<[i := flushed s w0]> (segs st))) t (ASeg n (S i)))
          else Some (goto (with_segs st (<[i := mark s true]> (segs st))) t (ADone false))
      end
  | Some (ADone _) => None
  end.

Inductive event :=
| EAppend
| ERoll
| EDevice (i : nat) (w : Z)         (** the device writes on its own *)
| ETruncate (n : Z)
| ESync (t : nat) (off : Z)         (** a call of [Sync(off)] *)
| ESyncAll (t : nat)
| EThread (t : nat) (ok : bool).

Definition flushing (p : pc) : bool :=
  match p with
  | SSeg _ _ _ _ _ | SFsync _ _ _ _ _ _ | STarget _ _ _ | ASeg _ _ | AFsync _ _ _ => true
  | _ => false
  end.

Definition step (st : state) (e : event) : option state :=
  match e with
  | EAppend => Some (with_segs st (append_last (segs st)))
  | ERoll => Some (with_segs st (segs st ++ [{| written := 0; durable := 0; dirtyData := true |}]))
  | EDevice i w =>
      match segs st !! i with
      | Some s => Some (with_segs st (<[i := flushed s w]> (segs st)))
      | None => None
      end
  | ETruncate n =>
      (* between flushes, and inside the log *)
      if forallb (λ p, negb (flushing p)) (map_to_list (threads st)).*2 &&
         (0 <=? n) && (n <? total (segs st))
      then Some (with_segs st (truncate_segs true 0 (segs st) n)) else None
  | ESync t off =>
      match threads st !! t with
      | None => Some (goto st t (SCheck off (total (segs st))))
      | Some _ => None
      end
  | ESyncAll t =>
      match threads st !! t with
      | None => Some (goto st t (ASeg (length (segs st)) 0))
      | Some _ => None
      end
  | EThread t ok => step_thread st t ok
  end.

Fixpoint run (st : state) (es : list event) : option state :=
  match es with
  | [] => Some st
  | e :: es => match step st e with Some st => run st es | None => None end
  end.

(** The offset segment [i] starts at. *)
Definition base (l : list seg) (i : nat) : Z := total (take i l).

(** Segment [i] has on stable storage what it holds of the records up to [o]. *)
Definition covered (o : Z) (l : list seg) (i : nat) : Prop :=
  ∀ s, l !! i = Some s → Z.min (written s) (o + 1 - base l i) ≤ durable s.

(** Every record with an offset up to [o] is on stable storage. *)
Definition durable_through (o : Z) (l : list seg) : Prop := ∀ i, covered o l i.

(** ** Segments only grow *)

Definition seg_ok (s : seg) : Prop := 0 ≤ durable s ≤ written s.

Definition evolve (l l' : list seg) : Prop :=
  Forall seg_ok l' ∧
  ∀ i s, l !! i = Some s → ∃ s', l' !! i = Some s' ∧ durable s ≤ durable s' ∧
    written s ≤ written s' ∧ (S i < length l → written s' = written s)%nat.

Lemma total_app a b : total (a ++ b) = total a + total b.
Proof. unfold total. induction a as [|s a IH]; simpl; lia. Qed.

Lemma total_nonneg l : Forall seg_ok l → 0 ≤ total l.
Proof. unfold total, seg_ok. induction 1; simpl; lia. Qed.

Lemma base_S l i s : l !! i = Some s → base l (S i) = base l i + written s.
Proof.
  intros Hi. unfold base. rewrite (take_S_r _ _ s) by done. rewrite total_app. simpl. lia.
Qed.

Lemma total_split l i : Forall seg_ok l → base l i ≤ total l.
Proof.
  intros Hl. rewrite <- (take_drop i l) at 2. rewrite total_app. fold (base l i).
  assert (0 ≤ total (drop i l)) by (by apply total_nonneg, Forall_drop). lia.
Qed.

Lemma base_all l : base l (length l) = total l.
Proof. unfold base. by rewrite firstn_all. Qed.

Lemma evolve_lookup l l' i s : evolve l l' → l !! i = Some s → is_Some (l' !! i).
Proof. intros [_ He] Hi. destruct (He i s Hi) as (s' & -> & _). done. Qed.

Lemma evolve_length l l' : evolve l l' → (length l ≤ length l')%nat.
Proof.
  intros He. destruct (length l) as [|n] eqn:En; [lia|].
  destruct (lookup_lt_is_Some_2 l n) as [s Hs]; [lia|].
  apply (evolve_lookup _ _ _ _ He), lookup_lt_is_Some in Hs. lia.
Qed.

Lemma evolve_base l l' i : evolve l l' → (i < length l)%nat → base l' i = base l i.
Proof.
  intros He Hi. induction i as [|i IH]; [done|].
  destruct (lookup_lt_is_Some_2 l i) as [s Hs]; [lia|].
  destruct (proj2 He i s Hs) as (s' & Hs' & _ & _ & Hw).
  rewrite (base_S _ _ _ Hs), (base_S _ _ _ Hs'), IH, Hw by lia. done.
Qed.

Lemma base_mono l i j : Forall seg_ok l → (i ≤ j)%nat → base l i ≤ base l j.
Proof.
  intros Hl Hij. pose proof (total_split (take j l) i (Forall_take _ _ _ Hl)) as Ht.
  unfold base in *. by rewrite take_take, Nat.min_l in Ht.
Qed.

Lemma evolve_base_end l l' : evolve l l' → total l ≤ base l' (length l).
Proof.
  intros He. destruct (length l) as [|n] eqn:En; [by apply nil_length_inv in En as ->|].
  destruct (lookup_lt_is_Some_2 l n) as [s Hs]; [lia|].
  destruct (proj2 He n s Hs) as (s' & Hs' & _ & Hw & _).
  rewrite <- base_all, En, (base_S _ _ _ Hs), (base_S _ _ _ Hs').
  rewrite (evolve_base l l' n) by (done || lia). lia.
Qed.

Lemma evolve_total l l' : evolve l l' → total l ≤ total l'.
Proof.
  intros He. pose proof (evolve_base_end _ _ He). pose proof (total_split l' (length l) (proj1 He)).
  lia.
Qed.

(** The part of segment [i] up to offset [o] does not grow with it. *)
Lemma evolve_part l l' i s s' o :
  evolve l l' → o + 1 ≤ total l → l !! i = Some s → l' !! i = Some s' →
  Z.min (written s') (o + 1 - base l' i) ≤ Z.min (written s) (o + 1 - base l i).
Proof.
  intros He Ho Hs Hs'. pose proof (lookup_lt_Some _ _ _ Hs) as Hlt.
  rewrite (evolve_base l l') by done.
  destruct (proj2 He i s Hs) as (s2 & E & _ & Hw & Heq). simplify_eq.
  destruct (decide (S i < length l)%nat) as [Hi|Hi]; [rewrite Heq by done; lia|].
  assert (base l (S i) = total l) by (rewrite <- base_all; f_equal; lia).
  rewrite (base_S _ _ _ Hs) in *. lia.
Qed.

Lemma evolve_covered l l' i o :
  evolve l l' → o + 1 ≤ total l → (i < length l)%nat → covered o l i → covered o l' i.
Proof.
  intros He Ho Hi Hc s' Hs'. destruct (lookup_lt_is_Some_2 l i Hi) as [s Hs].
  pose proof (evolve_part l l' i s s' o He Ho Hs Hs') as Hp.
  destruct (proj2 He i s Hs) as (s2 & E & Hd & _). simplify_eq. specialize (Hc s Hs). lia.
Qed.

Lemma evolve_durable l l' o :
  evolve l l' → o + 1 ≤ total l → durable_through o l → durable_through o l'.
Proof.
  intros He Ho Hd i. destruct (decide (i < length l)%nat) as [Hi|Hi]; [by eapply evolve_covered|].
  intros s' Hs'. pose proof (evolve_base_end _ _ He).
  pose proof (base_mono l' (length l) i (proj1 He) ltac:(lia)).
  pose proof (proj1 (Forall_lookup _ _) (proj1 He) i s' Hs') as [? ?]. lia.
Qed.

(** The ways segments change. *)
Lemma evolve_insert l i s s' :
  Forall seg_ok l → l !! i = Some s → seg_ok s' → durable s ≤ durable s' → written s' = written s →
  evolve l (<[i:=s']> l).
Proof.
  intros Hl Hs Hok Hd Hw. split; [by apply Forall_insert|]. intros j x Hj.
  destruct (decide (i = j)) as [->|Hne].
  - exists s'. simplify_eq. rewrite list_lookup_insert_eq by (by eapply lookup_lt_Some).
    split_and!; [done|lia|lia|done].
  - exists x. rewrite list_lookup_insert_ne by done. split_and!; done || lia.
Qed.

Lemma evolve_app l s : Forall seg_ok l → seg_ok s → evolve l (l ++ [s]).
Proof.
  intros Hl Hs. split; [by apply Forall_app_2, Forall_singleton|]. intros i x Hi. exists x.
  rewrite lookup_app_l by (by eapply lookup_lt_Some). split_and!; done || lia.
Qed.

Lemma evolve_append l : Forall seg_ok l → evolve l (append_last l).
Proof.
  intros Hl. unfold append_last. destruct (decide (l = [])) as [->|Hne]; [done|].
  destruct (exists_last Hne) as (l0 & s & ->). rewrite last_snoc, length_app.
  replace (length l0 + length [s] - 1)%nat with (length l0) by (simpl; lia).
  rewrite take_app_length. apply Forall_app in Hl as [Hl0 Hs]. apply Forall_cons in Hs as [[Hs1 Hs2] _].
  split.
  - apply Forall_app_2; [done|]. apply Forall_singleton. unfold seg_ok, append1. simpl. lia.
  - intros i x Hi. apply lookup_app_Some in Hi as [Hi|[Hi Hx]].
    + exists x. rewrite lookup_app_l by (by eapply lookup_lt_Some). split_and!; done || lia.
    + assert (i = length l0 ∧ x = s) as [-> ->].
      { destruct (i - length l0)%nat eqn:E; [|done]. injection Hx as ->. split; [lia|done]. }
      exists (append1 s). rewrite lookup_app_r, Nat.sub_diag by done. simpl.
      split_and!; [done|lia|lia|rewrite length_app; simpl; lia].
Qed.

(** ** The invariant of the barrier *)

Definition leads (p : pc) : bool :=
  match p with
  | SLead _ _ | STarget _ _ _ | SSeg _ _ _ _ _ | SFsync _ _ _ _ _ _ | SEnd _ _ _ _ => true
  | _ => false
  end.

Definition fsyncing (p : pc) : bool := match p with SFsync _ _ _ _ _ _ => true | _ => false end.

(** What a thread has established where it is. *)
Definition thread_ok (l : list seg) (p : pc) : Prop :=
  match p with
  | SCheck off n0 | SWait off n0 _ | SLead off n0 => n0 ≤ total l
  | STarget off n0 target => n0 - 1 ≤ target ∧ target + 1 ≤ total l
  | SSeg off n0 target n i =>
      n0 - 1 ≤ target ∧ target + 1 ≤ base l n ∧ (n ≤ length l)%nat ∧
      ∀ j, (j < i)%nat → (j < length l)%nat → covered target l j
  | SFsync off n0 target n i w0 =>
      n0 - 1 ≤ target ∧ target + 1 ≤ base l n ∧ (n ≤ length l)%nat ∧
      (∀ j, (j < i)%nat → (j < length l)%nat → covered target l j) ∧ (i < length l)%nat ∧
      ∀ s, l !! i = Some s → Z.min (written s) (target + 1 - base l i) ≤ w0 ≤ written s
  | SEnd off n0 target ok =>
      n0 - 1 ≤ target ∧ target + 1 ≤ total l ∧ (ok = true → durable_through target l)
  | SDone off n0 ok =>
      Z.min off (n0 - 1) + 1 ≤ total l ∧ (ok = true → durable_through (Z.min off (n0 - 1)) l)
  | ASeg _ _ | AFsync _ _ _ | ADone _ => False
  end.

(** One thread leads at a time, and [syncFlushing] says so. *)
Definition one_leader (fl : bool) (th : gmap nat pc) : Prop :=
  (∀ t p, th !! t = Some p → leads p = true → fl = true) ∧
  (∀ t t' p p', th !! t = Some p → th !! t' = Some p' → leads p = true → leads p' = true → t = t').

(** A segment whose mark is clear is on stable storage, or the fsync that will
    put it there is under way. *)
Definition marks_ok (l : list seg) (th : gmap nat pc) : Prop :=
  ∀ i s, l !! i = Some s → dirtyData s = false →
    durable s = written s ∨
    ∃ t off n0 target n, th !! t = Some (SFsync off n0 target n i (written s)).

Definition inv (st : state) : Prop :=
  Forall seg_ok (segs st) ∧ map_Forall (λ _ p, thread_ok (segs st) p) (threads st) ∧
  one_leader (syncFlushing st) (threads st) ∧ marks_ok (segs st) (threads st) ∧
  syncDurable st + 1 ≤ total (segs st) ∧ durable_through (syncDurable st) (segs st).

Lemma evolve_base_le l l' n : evolve l l' → (n ≤ length l)%nat → base l n ≤ base l' n.
Proof.
  intros He Hn. destruct (decide (n = length l)) as [->|].
  - rewrite base_all. by apply evolve_base_end.
  - rewrite (evolve_base l l' n) by (done || lia). lia.
Qed.

Lemma thread_ok_evolve l l' p :
  Forall seg_ok l → evolve l l' → thread_ok l p → thread_ok l' p.
Proof.
  intros Hl He. pose proof (evolve_total _ _ He). pose proof (evolve_length _ _ He).
  destruct p as [off n0|off n0 fl|off n0|off n0 tg|off n0 tg n i|off n0 tg n i w0|off n0 tg ok
                |off n0 ok| | |]; simpl; try (intros; lia).
  - intros (? & Hb & Hn & Hc). pose proof (evolve_base_le _ _ n He Hn). pose proof (total_split l n Hl).
    split_and!; try lia. intros j Hj Hj'. destruct (decide (j < length l)%nat).
    + apply (evolve_covered l); try done; [lia|]. by apply Hc.
    + intros s Hs. pose proof (base_mono l' n j (proj1 He) ltac:(lia)).
      pose proof (proj1 (Forall_lookup _ _) (proj1 He) j s Hs) as [? ?]. lia.
  - intros (? & Hb & Hn & Hc & Hi & Hw). pose proof (evolve_base_le _ _ n He Hn).
    pose proof (total_split l n Hl). split_and!; try lia.
    + intros j Hj Hj'. apply (evolve_covered l); try done; [lia|lia|]. apply Hc; lia.
    + intros s' Hs'. destruct (lookup_lt_is_Some_2 l i Hi) as [s Hs]. specialize (Hw s Hs).
      pose proof (evolve_part l l' i s s' tg He ltac:(lia) Hs Hs').
      destruct (proj2 He i s Hs) as (s2 & ? & _ & ? & _). simplify_eq. lia.
  - intros (? & ? & Hd). split_and!; try lia. intros Hok. apply (evolve_durable l); [done|lia|auto].
  - intros (? & Hd). split; [lia|]. intros Hok. apply (evolve_durable l); [done|lia|auto].
Qed.

Lemma one_leader_goto fl th t p p' :
  one_leader fl th → th !! t = Some p → (leads p' = true → leads p = true) →
  one_leader fl (<[t:=p']> th).
Proof.
  intros [Hf Hu] Ht Hp. split.
  - intros u q Hq Hl. apply lookup_insert_Some in Hq as [[<- <-]|[? Hq]]; eauto.
  - intros u u' q q' Hq Hq' Hl Hl'.
    apply lookup_insert_Some in Hq as [[<- <-]|[? Hq]], Hq' as [[<- <-]|[? Hq']]; eauto.
Qed.

Lemma one_leader_take th t p' : one_leader false th → one_leader true (<[t:=p']> th).
Proof.
  intros [Hf Hu]. split; [done|]. intros u u' q q' Hq Hq' Hl Hl'.
  apply lookup_insert_Some in Hq as [[<- <-]|[? Hq]], Hq' as [[<- <-]|[? Hq']]; try done.
  - by specialize (Hf _ _ Hq' Hl').
  - by specialize (Hf _ _ Hq Hl).
  - by specialize (Hf _ _ Hq Hl).
Qed.

Lemma one_leader_release fl th t p p' :
  one_leader fl th → th !! t = Some p → leads p = true → leads p' = false →
  one_leader false (<[t:=p']> th).
Proof.
  intros [Hf Hu] Ht Hp Hp'. assert (Hno : ∀ u q, (<[t:=p']> th) !! u = Some q → leads q = false).
  { intros u q Hq. apply lookup_insert_Some in Hq as [[<- <-]|[Hne Hq]]; [done|].
    destruct (leads q) eqn:E; [|done]. by specialize (Hu t u p q Ht Hq Hp E). }
  split.
  - intros u q Hq Hl. by rewrite (Hno _ _ Hq) in Hl.
  - intros u u' q q' Hq Hq' Hl. by rewrite (Hno _ _ Hq) in Hl.
Qed.

Lemma marks_goto l th t p p' :
  marks_ok l th → th !! t = Some p → fsyncing p = false → marks_ok l (<[t:=p']> th).
Proof.
  intros Hm Ht Hp i s Hs Hd. destruct (Hm i s Hs Hd) as [?|(u & off & n0 & tg & n & Hu)]; [by left|].
  right. exists u, off, n0, tg, n. rewrite lookup_insert_ne; [done|]. intros ->. by simplify_eq.
Qed.

Lemma marks_evolve l l' th :
  marks_ok l th → Forall seg_ok l' →
  (∀ i s', l' !! i = Some s' → dirtyData s' = false →
    ∃ s, l !! i = Some s ∧ dirtyData s = false ∧ written s' = written s ∧ durable s ≤ durable s') →
  marks_ok l' th.
Proof.
  intros Hm Hl' Hs i s' Hs' Hd. destruct (Hs i s' Hs' Hd) as (s & Hi & Hd' & Hw & Hdu).
  pose proof (proj1 (Forall_lookup _ _) Hl' i s' Hs') as [? ?].
  destruct (Hm i s Hi Hd') as [?|?]; [left; lia|right; by rewrite Hw].
Qed.

Lemma inv_evolve st l' :
  inv st → evolve (segs st) l' → marks_ok l' (threads st) → inv (with_segs st l').
Proof.
  intros (Hl & Ht & Ho & Hm & Hs & Hd) He Hm'. unfold inv. simpl.
  pose proof (evolve_total _ _ He). split_and!; try done.
  - apply He.
  - intros t p Hp. apply (thread_ok_evolve (segs st)); [done..|]. by apply (Ht t p).
  - lia.
  - by apply (evolve_durable (segs st)).
Qed.

Lemma durable_le l o o' : o' ≤ o → durable_through o l → durable_through o' l.
Proof. intros Ho Hd i s Hs. specialize (Hd i s Hs). lia. Qed.

Lemma inv_goto st t p p' :
  inv st → threads st !! t = Some p → thread_ok (segs st) p' → fsyncing p = false →
  (leads p' = true → leads p = true) → inv (goto st t p').
Proof.
  intros (Hl & Ht & Ho & Hm & Hs & Hd) Hp Hok Hf Hle. unfold inv. simpl. split_and!; try done.
  - by apply map_Forall_insert_2.
  - by eapply one_leader_goto.
  - by eapply marks_goto.
Qed.

Lemma seg_lookup_ok st i s : inv st → segs st !! i = Some s → seg_ok s.
Proof. intros [Hl _] Hi. by apply (proj1 (Forall_lookup _ _) Hl i). Qed.

(** Taking the mark of segment [i]: the fsync is under way from then on. *)
Lemma inv_take_mark st t off n0 tg n i s :
  inv st → threads st !! t = Some (SSeg off n0 tg n i) → segs st !! i = Some s →
  inv (goto (with_segs st (<[i := mark s false]> (segs st))) t (SFsync off n0 tg n i (written s))).
Proof.
  intros Hi Hp Hs. pose proof (seg_lookup_ok _ _ _ Hi Hs) as Hsk.
  pose proof Hi as (Hl & Ht & Ho & Hm & Hsd & Hd). pose proof (Ht t _ Hp) as Htk.
  assert (He : evolve (segs st) (<[i:=mark s false]> (segs st)))
    by (by apply (evolve_insert _ i s)).
  pose proof (thread_ok_evolve _ _ _ Hl He Htk) as Htk'. pose proof (evolve_total _ _ He).
  pose proof (lookup_lt_Some _ _ _ Hs) as Hlt. unfold inv. simpl. split_and!.
  - apply He.
  - apply map_Forall_insert_2.
    + destruct Htk' as (? & ? & ? & ?). split_and!; try done; [by rewrite length_insert|].
      rewrite list_lookup_insert_eq by done. intros s' [= <-]. simpl. lia.
    + intros u q Hq. apply (thread_ok_evolve (segs st)); [done..|]. by apply (Ht u q).
  - by eapply one_leader_goto.
  - intros j x Hj Hdx. destruct (decide (i = j)) as [<-|Hne].
    + rewrite list_lookup_insert_eq in Hj by done. injection Hj as <-. right.
      exists t, off, n0, tg, n. by rewrite lookup_insert_eq.
    + rewrite list_lookup_insert_ne in Hj by done. by apply (marks_goto _ _ t _ _ Hm Hp eq_refl j x).
  - lia.
  - by apply (evolve_durable (segs st)).
Qed.

(** The end of the fsync of segment [i], successful or not. *)
Lemma inv_fsync_done st t off n0 tg n i w0 s s' p' :
  inv st → threads st !! t = Some (SFsync off n0 tg n i w0) → segs st !! i = Some s →
  seg_ok s' → durable s ≤ durable s' → written s' = written s →
  (dirtyData s' = false → dirtyData s = false ∧ Z.min w0 (written s) ≤ durable s') →
  thread_ok (<[i := s']> (segs st)) p' →
  inv (goto (with_segs st (<[i := s']> (segs st))) t p').
Proof.
  intros Hi Hp Hs Hsk' Hdu Hw Hdirty Hp'. pose proof Hi as (Hl & Ht & Ho & Hm & Hsd & Hd).
  assert (He : evolve (segs st) (<[i:=s']> (segs st))) by (by apply (evolve_insert _ i s)).
  pose proof (evolve_total _ _ He). pose proof (lookup_lt_Some _ _ _ Hs) as Hlt.
  unfold inv. simpl. split_and!.
  - apply He.
  - apply map_Forall_insert_2; [done|]. intros u q Hq.
    apply (thread_ok_evolve (segs st)); [done..|]. by apply (Ht u q).
  - by eapply one_leader_goto.
  - intros j x Hj Hdx. destruct (decide (i = j)) as [<-|Hne].
    + rewrite list_lookup_insert_eq in Hj by done. injection Hj as ->. left.
      destruct (Hdirty Hdx) as [Hds Hw0]. destruct Hsk' as [? ?].
      destruct (Hm i s Hs Hds) as [?|(u & off' & n0' & tg' & n' & Hu)]; [lia|].
      assert (u = t) as -> by (by eapply (proj2 Ho)). simplify_eq. lia.
    + rewrite list_lookup_insert_ne in Hj by done.
      destruct (Hm j x Hj Hdx) as [?|(u & off' & n0' & tg' & n' & Hu)]; [by left|].
      assert (u = t) as -> by (by eapply (proj2 Ho)). by simplify_eq.
  - lia.
  - by apply (evolve_durable (segs st)).
Qed.

(** A segment whose mark is clear needs no fsync of ours. *)
Lemma clear_is_durable st t off n0 tg n i s :
  inv st → threads st !! t = Some (SSeg off n0 tg n i) → segs st !! i = Some s →
  dirtyData s = false → durable s = written s.
Proof.
  intros (_ & _ & Ho & Hm & _) Hp Hs Hd.
  destruct (Hm i s Hs Hd) as [?|(u & off' & n0' & tg' & n' & Hu)]; [done|].
  assert (u = t) as -> by (by eapply (proj2 Ho)). by simplify_eq.
Qed.

Lemma inv_seg st t ok off n0 tg n i st' :
  inv st → threads st !! t = Some (SSeg off n0 tg n i) → step_thread st t ok = Some st' → inv st'.
Proof.
  intros Hi Hp Hstep. pose proof Hi as (Hl & Ht & _). pose proof (Ht t _ Hp) as (Hn0 & Hb & Hn & Hc).
  unfold step_thread in Hstep. rewrite Hp in Hstep. destruct (Nat.ltb_spec i n).
  - destruct (segs st !! i) as [s|] eqn:Hs; [|done]. destruct (dirtyData s) eqn:Hd; injection Hstep as <-.
    + by apply inv_take_mark.
    + eapply inv_goto; [done|done| |done|done]. split_and!; try done. intros j Hj Hjl.
      destruct (decide (j = i)) as [->|]; [|apply Hc; lia]. intros s' Hs'. simplify_eq.
      rewrite (clear_is_durable st t off n0 tg n i s) by done. lia.
  - injection Hstep as <-. eapply inv_goto; [done|done| |done|done].
    pose proof (total_split (segs st) n Hl). split_and!; [done|lia|]. intros _ j s Hs.
    pose proof (lookup_lt_Some _ _ _ Hs) as Hjl. destruct (decide (j < n)%nat).
    + apply Hc; [lia|done..].
    + pose proof (base_mono (segs st) n j Hl ltac:(lia)).
      pose proof (seg_lookup_ok _ _ _ Hi Hs) as [? ?]. lia.
Qed.

Lemma inv_fsync st t ok off n0 tg n i w0 st' :
  inv st → threads st !! t = Some (SFsync off n0 tg n i w0) → step_thread st t ok = Some st' → inv st'.
Proof.
  intros Hi Hp Hstep. pose proof Hi as (Hl & Ht & _).
  pose proof (Ht t _ Hp) as (Hn0 & Hb & Hn & Hc & Hil & Hw).
  unfold step_thread in Hstep. rewrite Hp in Hstep.
  destruct (segs st !! i) as [s|] eqn:Hs; [|done].
  pose proof (seg_lookup_ok _ _ _ Hi Hs) as Hsk. unfold seg_ok in Hsk. specialize (Hw s eq_refl).
  pose proof (total_split (segs st) n Hl).
  destruct ok; injection Hstep as <-.
  - assert (Hfk : seg_ok (flushed s w0)) by (unfold seg_ok, flushed; simpl; lia).
    assert (He : evolve (segs st) (<[i:=flushed s w0]> (segs st)))
      by (apply (evolve_insert _ i s); simpl; done || lia).
    eapply inv_fsync_done; [done|done|done|done|simpl; lia|done| |].
    { simpl. intros ->. split; [done|lia]. }
    pose proof (evolve_base_le _ _ n He Hn). split_and!; [done|lia|by rewrite length_insert|].
    rewrite length_insert. intros j Hj Hjl. destruct (decide (j = i)) as [->|].
    + intros s' Hs'. rewrite list_lookup_insert_eq in Hs' by done. injection Hs' as <-.
      rewrite (evolve_base (segs st)) by done. simpl. lia.
    + apply (evolve_covered (segs st)); [done|lia|done|]. apply Hc; lia.
  - assert (He : evolve (segs st) (<[i:=mark s true]> (segs st)))
      by (apply (evolve_insert _ i s); simpl; done || lia).
    eapply inv_fsync_done; [done|done|done|done|simpl; lia|done|done|].
    pose proof (evolve_total _ _ He). split_and!; [done|lia|done].
Qed.

Lemma inv_end st t ok off n0 tg fok st' :
  inv st → threads st !! t = Some (SEnd off n0 tg fok) → step_thread st t ok = Some st' → inv st'.
Proof.
  intros Hi Hp Hstep. pose proof Hi as (Hl & Ht & Ho & Hm & Hs & Hd).
  pose proof (Ht t _ Hp) as (Hn0 & Htg & Hdt). unfold step_thread in Hstep. rewrite Hp in Hstep.
  injection Hstep as <-. unfold inv. simpl. split_and!; try done.
  - apply map_Forall_insert_2; [|done]. destruct fok; simpl; [|split; [lia|done]].
    destruct (Z.ltb_spec tg off); simpl; [|lia]. split; [lia|]. intros _.
    apply (durable_le _ tg); [lia|auto].
  - eapply one_leader_release; [done|done|done|]. by repeat case_match.
  - by eapply marks_goto.
  - destruct (fok && _); lia.
  - destruct fok; simpl; [|done]. destruct (_ <? _); auto.
Qed.

Lemma inv_thread st t ok st' : inv st → step_thread st t ok = Some st' → inv st'.
Proof.
  intros Hi Hstep. destruct (threads st !! t) as [p|] eqn:Hp;
    [|by unfold step_thread in Hstep; rewrite Hp in Hstep].
  pose proof Hi as (Hl & Ht & Ho & Hm & Hs & Hd). pose proof (Ht t _ Hp) as Htk.
  destruct p as [off n0|off n0 fl|off n0|off n0 tg|off n0 tg n i|off n0 tg n i w0|off n0 tg fok
                |off n0 fok| | |]; try done; [..|by unfold step_thread in Hstep; rewrite Hp in Hstep].
  - unfold step_thread in Hstep. rewrite Hp in Hstep. simpl in Htk.
    destruct (Z.leb_spec off (syncDurable st)).
    { injection Hstep as <-. eapply inv_goto; [done|done| |done|done]. split; [lia|]. intros _.
      apply (durable_le _ (syncDurable st)); [lia|done]. }
    destruct (syncFlushing st) eqn:Ef; injection Hstep as <-; [by eapply inv_goto|].
    unfold inv. simpl. split_and!; try done.
    + by apply map_Forall_insert_2.
    + by apply one_leader_take.
    + by eapply marks_goto.
  - unfold step_thread in Hstep. rewrite Hp in Hstep. destruct (_ <=? _)%nat; [|done].
    injection Hstep as <-. by eapply inv_goto.
  - unfold step_thread in Hstep. rewrite Hp in Hstep. injection Hstep as <-.
    eapply inv_goto; [done|done| |done|done]. simpl in *. unfold newestOffset. lia.
  - unfold step_thread in Hstep. rewrite Hp in Hstep. injection Hstep as <-.
    eapply inv_goto; [done|done| |done|done]. destruct Htk. simpl. rewrite base_all.
    split_and!; [lia|lia|done|lia].
  - by eapply inv_seg.
  - by eapply inv_fsync.
  - by eapply inv_end.
Qed.

Lemma inv_append st : inv st → inv (with_segs st (append_last (segs st))).
Proof.
  intros Hi. pose proof Hi as (Hl & _ & _ & Hm & _).
  pose proof (evolve_append _ Hl) as He. apply inv_evolve; [done|done|].
  apply (marks_evolve (segs st)); [done|apply He|]. intros i s' Hs' Hd. unfold append_last in Hs'.
  destruct (decide (segs st = [])) as [E|Hne]; [by rewrite E in Hs'|].
  destruct (exists_last Hne) as (l0 & s & E). rewrite E in *. rewrite last_snoc, length_app in Hs'.
  replace (length l0 + length [s] - 1)%nat with (length l0) in Hs' by (simpl; lia).
  rewrite take_app_length in Hs'. apply lookup_app_Some in Hs' as [Hs'|[Hge Hs']].
  - exists s'. rewrite lookup_app_l by (by eapply lookup_lt_Some). done.
  - destruct (i - length l0)%nat; [|done]. by injection Hs' as <-.
Qed.

(** The steps of a log on which only [Sync] flushes and nothing is truncated. *)
Definition plain (e : event) : bool :=
  match e with ESyncAll _ | ETruncate _ => false | _ => true end.

Lemma inv_step st e st' : plain e = true → inv st → step st e = Some st' → inv st'.
Proof.
  intros Hpl Hi Hstep. pose proof Hi as (Hl & Ht & Ho & Hm & Hs & Hd).
  destruct e as [| |i w|n|t off|t|t ok]; simpl in *; try done.
  - injection Hstep as <-. by apply inv_append.
  - injection Hstep as <-. set (s0 := {| written := 0 |}).
    assert (Hs0 : seg_ok s0) by (unfold seg_ok; simpl; lia).
    apply inv_evolve; [done|by apply evolve_app|].
    apply (marks_evolve (segs st)); [done|by apply Forall_app_2, Forall_singleton|].
    intros i s' Hs' Hds. apply lookup_app_Some in Hs' as [Hs'|[Hge Hs']]; [by exists s'|].
    destruct (i - length (segs st))%nat; [|done]. by injection Hs' as <-.
  - destruct (segs st !! i) as [s|] eqn:Hsi; [|done]. injection Hstep as <-.
    pose proof (seg_lookup_ok _ _ _ Hi Hsi) as Hsk. unfold seg_ok in Hsk.
    assert (Hfk : seg_ok (flushed s w)) by (unfold seg_ok, flushed; simpl; lia).
    apply inv_evolve; [done|apply (evolve_insert _ i s); simpl; done || lia|].
    apply (marks_evolve (segs st)); [done|by apply Forall_insert|].
    intros j s' Hs' Hds. destruct (decide (i = j)) as [<-|].
    + rewrite list_lookup_insert_eq in Hs' by (by eapply lookup_lt_Some). injection Hs' as <-.
      exists s. simpl in *. split_and!; [done|done|done|lia].
    + rewrite list_lookup_insert_ne in Hs' by done. by exists s'.
  - destruct (threads st !! t) eqn:Hp; [done|]. injection Hstep as <-. unfold inv. simpl.
    split_and!; try done.
    + apply map_Forall_insert_2; simpl; done || lia.
    + destruct Ho as [Hf Hu]. split.
      * intros u q Hq Hle. apply lookup_insert_Some in Hq as [[<- <-]|[? Hq]]; [done|eauto].
      * intros u u' q q' Hq Hq' Hle Hle'.
        apply lookup_insert_Some in Hq as [[<- <-]|[? Hq]], Hq' as [[<- <-]|[? Hq']]; try done; eauto.
    + intros i s Hsi Hds. destruct (Hm i s Hsi Hds) as [?|(u & off' & n0' & tg' & n' & Hu)]; [by left|].
      right. exists u, off', n0', tg', n'. rewrite lookup_insert_ne; [done|congruence].
  - by eapply inv_thread.
Qed.

Lemma inv_run st es st' : Forall (λ e, plain e = true) es → inv st → run st es = Some st' → inv st'.
Proof.
  intros Hes. revert st. induction Hes as [|e es He Hes IH]; intros st Hi Hr; simpl in Hr.
  - by injection Hr as <-.
  - destruct (step st e) as [st1|] eqn:E; [|done]. apply (IH st1); [|done]. by eapply inv_step.
Qed.

Lemma inv_init : inv init.
Proof.
  unfold inv, init. simpl. split_and!; try done.
  - apply Forall_singleton. unfold seg_ok. simpl. lia.
  - intros i s Hs. destruct i; [|done]. by injection Hs as <-.
  - intros [|i] s Hs; [|done]. injection Hs as <-. simpl. lia.
Qed.

(** C17: [Sync] keeps its promise under any interleaving with appends, segment
    rolls, other calls of [Sync] (as leaders, followers and stragglers), failed
    fsyncs and background writes of the device: when a call of [Sync(off)] has
    returned nil, every record up to [off] that was in the log when it was
    called is on stable storage. *)
Theorem sync_is_durable es st t off n0 :
  Forall (λ e, plain e = true) es → run init es = Some st →
  threads st !! t = Some (SDone off n0 true) →
  durable_through (Z.min off (n0 - 1)) (segs st).
Proof.
  intros Hes Hr Ht. destruct (inv_run _ _ _ Hes inv_init Hr) as (_ & Hth & _).
  by apply (Hth t _ Ht).
Qed.

Lemma run_app st es es' :
  run st (es ++ es') = match run st es with Some st' => run st' es' | None => None end.
Proof. revert st. induction es as [|e es IH]; intros st; simpl; [done|]. by destruct (step st e). Qed.

Definition alone (t k : nat) : list event := replicate k (EThread t true).

(** [st'] is reached from [st] by [t] running alone for at most [k] steps. *)
Definition reaches (t k : nat) (st st' : state) : Prop :=
  ∃ j, (j ≤ k)%nat ∧ run st (alone t j) = Some st'.

Lemma reaches_step t k st st1 st' :
  step_thread st t true = Some st1 → reaches t k st1 st' → reaches t (S k) st st'.
Proof. intros Hs (j & Hj & Hr). exists (S j). split; [lia|]. simpl. by rewrite Hs. Qed.

Lemma seg_loop m st t off n0 tg n i :
  (n - i = m)%nat → (n ≤ length (segs st))%nat → threads st !! t = Some (SSeg off n0 tg n i) →
  ∃ st', reaches t (2 * m + 1) st st' ∧ threads st' !! t = Some (SEnd off n0 tg true) ∧
    syncDurable st' = syncDurable st.
Proof.
  revert st i. induction m as [|m IH]; intros st i Hm Hn Hp.
  - exists (goto st t (SEnd off n0 tg true)). split; [|split; [apply lookup_insert_eq|done]].
    eapply reaches_step; [|exists 0%nat; split; [lia|reflexivity]].
    unfold step_thread. by rewrite Hp, (proj2 (Nat.ltb_ge _ _)) by lia.
  - destruct (lookup_lt_is_Some_2 (segs st) i) as [s Hs]; [lia|].
    assert (Hlt : (i <? n)%nat = true) by (apply Nat.ltb_lt; lia).
    replace (2 * S m + 1)%nat with (S (S (2 * m + 1))) by lia. destruct (dirtyData s) eqn:Hd.
    + set (st1 := goto (with_segs st (<[i := mark s false]> (segs st))) t
                    (SFsync off n0 tg n i (written s))).
      set (l1 := <[i := mark s false]> (segs st)).
      set (st2 := goto (with_segs st1 (<[i := flushed (mark s false) (written s)]> l1)) t
                    (SSeg off n0 tg n (S i))).
      destruct (IH st2 (S i)) as (st' & Hr & Ht & Hsd); [lia| |by apply lookup_insert_eq|].
      { unfold st2, l1. simpl. by rewrite !length_insert. }
      exists st'. split; [|done]. eapply (reaches_step _ _ _ st1); [|eapply (reaches_step _ _ _ st2)].
      * unfold step_thread. by rewrite Hp, Hlt, Hs, Hd.
      * unfold step_thread, st1. cbn [goto threads with_segs segs].
        rewrite lookup_insert_eq, list_lookup_insert_eq by (by eapply lookup_lt_Some). done.
      * done.
    + set (st1 := goto st t (SSeg off n0 tg n (S i))).
      destruct (IH st1 (S i)) as (st' & (j & Hj & Hr) & Ht & Hsd); [lia|done|by apply lookup_insert_eq|].
      exists st'. split; [|done]. eapply (reaches_step _ _ _ st1); [|by exists j; split; [lia|]].
      unfold step_thread. by rewrite Hp, Hlt, Hs, Hd.
Qed.

Lemma reaches_trans t k k' st st1 st' :
  reaches t k st st1 → reaches t k' st1 st' → reaches t (k + k') st st'.
Proof.
  intros (j & Hj & Hr) (j' & Hj' & Hr'). exists (j + j')%nat. split; [lia|].
  unfold alone. rewrite replicate_add, run_app. unfold alone in Hr. by rewrite Hr.
Qed.

(** A caller that finds the log idle and itself not covered leads one flush. *)
Lemma sync_leads st t off n0 :
  syncFlushing st = false → syncDurable st < off → threads st !! t = Some (SCheck off n0) →
  ∃ st', reaches t (2 * length (segs st) + 4) st st' ∧
    threads st' !! t = Some (SEnd off n0 (newestOffset st) true) ∧
    syncDurable st' = syncDurable st.
Proof.
  intros Hf Hgt Hp.
  set (st1 := goto {| segs := segs st; syncDurable := syncDurable st; syncFlushing := true;
                      started := S (started st); finished := finished st;
                      threads := threads st |} t (SLead off n0)).
  set (st2 := goto st1 t (STarget off n0 (newestOffset st))).
  set (st3 := goto st2 t (SSeg off n0 (newestOffset st) (length (segs st)) 0)).
  destruct (seg_loop (length (segs st)) st3 t off n0 (newestOffset st) (length (segs st)) 0)
    as (st4 & Hr4 & Hp4 & Hsd4); [lia|done|apply lookup_insert_eq|].
  exists st4. split; [|done].
  replace (2 * length (segs st) + 4)%nat with (S (S (S (2 * length (segs st) + 1)))) by lia.
  eapply (reaches_step _ _ _ st1); [|eapply (reaches_step _ _ _ st2);
    [|eapply (reaches_step _ _ _ st3); [|done]]]; unfold step_thread.
  - by rewrite Hp, (proj2 (Z.leb_gt _ _) Hgt), Hf.
  - unfold st1. cbn [goto threads]. by rewrite lookup_insert_eq.
  - unfold st2. cbn [goto threads]. by rewrite lookup_insert_eq.
Qed.

(** C39: [Sync] ends.  When no flush is in flight, a call whose fsyncs succeed
    returns nil by its own steps, in a number of them bounded by the number of
    segments: as a caller already covered, or by leading one flush, after which
    it never has to lead another. *)
Theorem sync_completes st t off n0 :
  syncFlushing st = false → threads st !! t = Some (SCheck off n0) →
  ∃ st', reaches t (2 * length (segs st) + 6) st st' ∧
    threads st' !! t = Some (SDone off n0 true).
Proof.
  intros Hf Hp. destruct (Z.leb_spec off (syncDurable st)) as [Hle|Hgt].
  { exists (goto st t (SDone off n0 true)). split; [|apply lookup_insert_eq]. exists 1%nat.
    split; [lia|]. simpl. unfold step_thread. by rewrite Hp, (proj2 (Z.leb_le _ _) Hle). }
  destruct (sync_leads st t off n0 Hf Hgt Hp) as (st4 & Hr & Hp4 & _).
  replace (2 * length (segs st) + 6)%nat with (2 * length (segs st) + 4 + 2)%nat by lia.
  destruct (step_thread st4 t true) as [st5|] eqn:Hs5;
    [|by unfold step_thread in Hs5; rewrite Hp4 in Hs5].
  pose proof Hs5 as E. unfold step_thread in E. rewrite Hp4 in E. injection E as E.
  destruct (Z.ltb_spec (newestOffset st) off) as [Ho|Ho]; cbn [negb] in E.
  - exists st5. split; [|rewrite <- E; apply lookup_insert_eq]. apply (reaches_trans _ _ _ _ _ _ Hr).
    exists 1%nat. split; [lia|]. simpl. by rewrite Hs5.
  - exists (goto st5 t (SDone off n0 true)). split; [|apply lookup_insert_eq].
    apply (reaches_trans _ _ _ _ _ _ Hr). exists 2%nat. split; [lia|]. simpl. rewrite Hs5.
    assert (Hp5 : threads st5 !! t = Some (SCheck off n0)) by (rewrite <- E; apply lookup_insert_eq).
    unfold step_thread. rewrite Hp5, (proj2 (Z.leb_le _ _)); [done|]. rewrite <- E. simpl.
    destruct (Z.ltb_spec (syncDurable st4) (newestOffset st)); simpl; lia.
Qed.

(** A [SyncAll] under way takes the promise away.  There is an interleaving
    of one append, one [SyncAll] and one [Sync] of the appended record in which
    [Sync] returns nil while the record is not on stable storage: [SyncAll] has
    taken the segment's dirty mark and its fsync is still running, so [Sync]
    finds nothing to flush and publishes the tail as durable. *)
Theorem sync_races_syncall :
  ∃ es st, run init es = Some st ∧ threads st !! 2%nat = Some (SDone 0 1 true) ∧
    threads st !! 1%nat = Some (AFsync 1 0 1) ∧ syncDurable st = 0 ∧
    ¬ durable_through 0 (segs st).
Proof.
  exists [EAppend; ESyncAll 1; EThread 1 true; ESync 2 0; EThread 2 true; EThread 2 true;
          EThread 2 true; EThread 2 true; EThread 2 true; EThread 2 true; EThread 2 true].
  eexists. split; [vm_compute; reflexivity|]. split; [reflexivity|]. split; [reflexivity|].
  split; [reflexivity|]. intros Hd. specialize (Hd 0%nat _ eq_refl). vm_compute in Hd. by apply Hd.
Qed.

(** A truncation leaves the barrier believing in records that are gone.
    After a record is appended and made durable, truncated away, and another is
    appended at the same offset, [Sync] of that offset returns nil at once
    without a flush: [syncDurable] still names the old record. *)
Theorem sync_stale_after_truncate :
  ∃ es st, run init es = Some st ∧ threads st !! 2%nat = Some (SDone 0 1 true) ∧
    started st = 1%nat ∧ total (segs st) = 1 ∧ ¬ durable_through 0 (segs st).
Proof.
  exists [EAppend; ESync 1 0; EThread 1 true; EThread 1 true; EThread 1 true; EThread 1 true;
          EThread 1 true; EThread 1 true; EThread 1 true; EThread 1 true;
          ETruncate 0; EAppend; ESync 2 0; EThread 2 true].
  eexists. split; [vm_compute; reflexivity|]. split; [reflexivity|]. split; [reflexivity|].
  split; [reflexivity|]. intros Hd. specialize (Hd 0%nat _ eq_refl). vm_compute in Hd. by apply Hd.
Qed.

(** A truncation takes back the durability of records it keeps.  After two
    records are appended and made durable and the second is truncated away, the
    first is in a rewritten file nothing has flushed, and [Sync] of it returns
    nil without a flush. *)
Theorem truncate_undoes_sync :
  ∃ es st0 st, run init es = Some st0 ∧ durable_through 1 (segs st0) ∧
    run st0 [ETruncate 1; ESync 2 0; EThread 2 true] = Some st ∧
    threads st !! 2%nat = Some (SDone 0 1 true) ∧ total (segs st) = 1 ∧
    ¬ durable_through 0 (segs st).
Proof.
  exists [EAppend; EAppend; ESync 1 1; EThread 1 true; EThread 1 true; EThread 1 true;
          EThread 1 true; EThread 1 true; EThread 1 true; EThread 1 true; EThread 1 true].
  eexists. eexists. split; [vm_compute; reflexivity|].
  split; [by intros [|i] s [= <-]|].
  split; [vm_compute; reflexivity|]. split; [reflexivity|].
  split; [reflexivity|]. intros Hd. specialize (Hd 0%nat _ eq_refl). vm_compute in Hd. by apply Hd.
Qed.

(** *** Witnesses *)

(** Two appends and a roll; a leader and a follower whose record the leader's
    flush covers. *)
Definition sample_run : list event :=
  [EAppend; ERoll; EAppend; ESync 1 1; ESync 2 0; EThread 1 true; EThread 2 true; EThread 1 true;
   EAppend; EThread 1 true; EThread 1 true; EThread 1 true; EThread 1 true; EThread 1 true;
   EThread 1 true; EThread 1 true; EThread 1 true; EThread 2 true; EThread 2 true].

Lemma sync_is_durable_witness :
  ∃ st, run init sample_run = Some st ∧ durable_through 0 (segs st).
Proof.
  destruct (run init sample_run) as [st|] eqn:E; [|by vm_compute in E].
  exists st. split; [reflexivity|].
  apply (sync_is_durable sample_run st 2 0 2).
  - repeat (apply Forall_cons; split); [reflexivity..|by apply Forall_nil].
  - exact E.
  - vm_compute in E. injection E as <-. reflexivity.
Defined.

Lemma sync_completes_witness :
  ∃ st', reaches 1 10 (default init (run init [EAppend; ERoll; EAppend; ESync 1 1])) st' ∧
    threads st' !! 1%nat = Some (SDone 1 2 true).
Proof.
  apply (sync_completes (default init (run init [EAppend; ERoll; EAppend; ESync 1 1])) 1 1 2).
  - reflexivity.
  - reflexivity.
Defined.

End SyncBarrier.
