(* ===== verification/Segment.v ===== *)
(** * Local segments: the write, read and recovery paths of segment.go

    A segment over a local file.  [backing] is the content of the log file and
    [Index] the index beside it; [sidecar] is the content of the block table
    file, if there is one.  A registered waiter's channel is open, so [waiters]
    is the set of the readers still parked.  Writes to the file may fail after
    some of the bytes have landed: [wfault]. *)

From Stdlib Require Import ZArith Lia.
From stdpp Require Import base list numbers strings gmap sorting.
From coqutil Require Import Byte.
From S2P Require Import Prelude GoStd Wire Compress BlockV3 Block Framing Index.

Open Scope Z_scope.

Module Segment.

(** ** The segment *)

(** The single-entry cache of decoded blocks.  [c_seg] is the segment the
    entry belongs to; a sweep shares one cache between segments. *)
Record blockCache := { c_seg : option Z; c_start : Z; c_data : bytes }.

Definition newBlockCache : blockCache := {| c_seg := None; c_start := -1; c_data := [] |}.

Record segment := {
  id : Z;
  backing : bytes;
  Index : Index.index;
  BaseOffset : Z;
  firstOffset : Z;
  lastOffset : Z;
  firstWriteTime : Z;
  lastWriteTime : Z;
  position : Z;
  maxBytes : Z;
  waiters : gset Z;
  sealed : bool;
  closed : bool;
  left : bool;
  blocksWalked : Z;
  dirtyData : bool;
  dirtyIndex : bool;
  codec : Z;
  format : Z;
  blockMode : bool;
  blocks : list blockRef;
  physPosition : Z;
  cache : blockCache;
  droppedTornTail : bool;
  sidecar : option bytes;
}.

Definition with_dirty (s : segment) (d i : bool) : segment :=
  {| id := id s; backing := backing s; Index := Index s; BaseOffset := BaseOffset s;
     firstOffset := firstOffset s; lastOffset := lastOffset s;
     firstWriteTime := firstWriteTime s; lastWriteTime := lastWriteTime s;
     position := position s; maxBytes := maxBytes s; waiters := waiters s; sealed := sealed s;
     closed := closed s; left := left s; blocksWalked := blocksWalked s; dirtyData := d;
     dirtyIndex := i; codec := codec s; format := format s; blockMode := blockMode s;
     blocks := blocks s; physPosition := physPosition s; cache := cache s;
     droppedTornTail := droppedTornTail s; sidecar := sidecar s |}.

Definition with_bounds (s : segment) (fo ft lo lt : Z) (ws : gset Z) : segment :=
  {| id := id s; backing := backing s; Index := Index s; BaseOffset := BaseOffset s;
     firstOffset := fo; lastOffset := lo; firstWriteTime := ft; lastWriteTime := lt;
     position := position s; maxBytes := maxBytes s; waiters := ws; sealed := sealed s;
     closed := closed s; left := left s; blocksWalked := blocksWalked s;
     dirtyData := dirtyData s; dirtyIndex := dirtyIndex s; codec := codec s;
     format := format s; blockMode := blockMode s; blocks := blocks s;
     physPosition := physPosition s; cache := cache s;
     droppedTornTail := droppedTornTail s; sidecar := sidecar s |}.

Definition with_waiters (s : segment) (ws : gset Z) : segment :=
  with_bounds s (firstOffset s) (firstWriteTime s) (lastOffset s) (lastWriteTime s) ws.

(** The log file and the description of it. *)
Definition with_log (s : segment) (file : bytes) (bs : list blockRef) (pos phys : Z) : segment :=
  {| id := id s; backing := file; Index := Index s; BaseOffset := BaseOffset s;
     firstOffset := firstOffset s; lastOffset := lastOffset s;
     firstWriteTime := firstWriteTime s; lastWriteTime := lastWriteTime s;
     position := pos; maxBytes := maxBytes s; waiters := waiters s; sealed := sealed s;
     closed := closed s; left := left s; blocksWalked := blocksWalked s;
     dirtyData := dirtyData s; dirtyIndex := dirtyIndex s; codec := codec s;
     format := format s; blockMode := blockMode s; blocks := bs; physPosition := phys;
     cache := cache s; droppedTornTail := droppedTornTail s; sidecar := sidecar s |}.

(** What opening establishes: the mode, an empty cache, what the walk found. *)
Definition with_opened (s : segment) (mode dropped : bool) (walked : Z) : segment :=
  {| id := id s; backing := backing s; Index := Index s; BaseOffset := BaseOffset s;
     firstOffset := firstOffset s; lastOffset := lastOffset s;
     firstWriteTime := firstWriteTime s; lastWriteTime := lastWriteTime s;
     position := position s; maxBytes := maxBytes s; waiters := waiters s; sealed := sealed s;
     closed := closed s; left := left s; blocksWalked := walked;
     dirtyData := dirtyData s; dirtyIndex := dirtyIndex s; codec := codec s;
     format := format s; blockMode := mode; blocks := blocks s;
     physPosition := physPosition s; cache := newBlockCache;
     droppedTornTail := dropped; sidecar := sidecar s |}.

Definition with_index (s : segment) (idx : Index.index) : segment :=
  {| id := id s; backing := backing s; Index := idx; BaseOffset := BaseOffset s;
     firstOffset := firstOffset s; lastOffset := lastOffset s;
     firstWriteTime := firstWriteTime s; lastWriteTime := lastWriteTime s;
     position := position s; maxBytes := maxBytes s; waiters := waiters s; sealed := sealed s;
     closed := closed s; left := left s; blocksWalked := blocksWalked s;
     dirtyData := dirtyData s; dirtyIndex := dirtyIndex s; codec := codec s;
     format := format s; blockMode := blockMode s; blocks := blocks s;
     physPosition := physPosition s; cache := cache s;
     droppedTornTail := droppedTornTail s; sidecar := sidecar s |}.

Definition with_cache (s : segment) (c : blockCache) : segment :=
  {| id := id s; backing := backing s; Index := Index s; BaseOffset := BaseOffset s;
     firstOffset := firstOffset s; lastOffset := lastOffset s;
     firstWriteTime := firstWriteTime s; lastWriteTime := lastWriteTime s;
     position := position s; maxBytes := maxBytes s; waiters := waiters s; sealed := sealed s;
     closed := closed s; left := left s; blocksWalked := blocksWalked s;
     dirtyData := dirtyData s; dirtyIndex := dirtyIndex s; codec := codec s;
     format := format s; blockMode := blockMode s; blocks := blocks s;
     physPosition := physPosition s; cache := c;
     droppedTornTail := droppedTornTail s; sidecar := sidecar s |}.

Definition with_state (s : segment) (sld cl lf : bool) (side : option bytes) : segment :=
  {| id := id s; backing := backing s; Index := Index s; BaseOffset := BaseOffset s;
     firstOffset := firstOffset s; lastOffset := lastOffset s;
     firstWriteTime := firstWriteTime s; lastWriteTime := lastWriteTime s;
     position := position s; maxBytes := maxBytes s; waiters := waiters s; sealed := sld;
     closed := cl; left := lf; blocksWalked := blocksWalked s;
     dirtyData := dirtyData s; dirtyIndex := dirtyIndex s; codec := codec s;
     format := format s; blockMode := blockMode s; blocks := blocks s;
     physPosition := physPosition s; cache := cache s;
     droppedTornTail := droppedTornTail s; sidecar := side |}.

(** ** Files *)

(** [f.ReadAt(p, off)] with [len(p) = n]: the bytes read and the error. *)
Definition read_at (file : bytes) (n off : Z) : bytes * option error :=
  if off <? 0 then ([], Some (ErrText "negative offset"))
  else
    let r := take (Z.to_nat n) (drop (Z.to_nat off) file) in
    (r, if zlen r <? n then Some ErrEOF else None).

(** A read that must be whole: [if _, err := ReadAt(...); err != nil]. *)
Definition read_full (file : bytes) (n off : Z) : outcome bytes :=
  match read_at file n off with
  | (r, None) => Ok r
  | (_, Some e) => Fail e
  end.

(** [f.Write(p)] on a file opened for appending.  [Some k]: the write fails
    after [k] bytes have landed. *)
Definition wfault := option Z.

Definition file_write (w : wfault) (file p : bytes) : bytes * outcome Z :=
  match w with
  | None => (file ++ p, Ok (zlen p))
  | Some k => (file ++ take (Z.to_nat k) p, Fail (ErrText "write"))
  end.

(** ** Opening *)

Definition emptySegment (i baseOffset maxB cdc : Z) (idx : Index.index) : segment :=
  {| id := i; backing := []; Index := idx; BaseOffset := baseOffset; firstOffset := -1;
     lastOffset := -1; firstWriteTime := 0; lastWriteTime := 0; position := 0;
     maxBytes := maxB; waiters := ∅; sealed := false; closed := false; left := false;
     blocksWalked := 0; dirtyData := false; dirtyIndex := false; codec := cdc;
     format := BlockFormatVersion; blockMode := false; blocks := []; physPosition := 0;
     cache := newBlockCache; droppedTornTail := false; sidecar := None |}.

Section codecs.
Context `{CodecLib}.

(** [scanV3Block]: [None] reports a torn tail. *)
Definition scanV3Block (file : bytes) (phys logical size : Z) : outcome (option blockRef) :=
  if size - phys <? blockv3.HeaderLen then Ok None
  else
    hdr ← read_full file blockv3.HeaderLen phys;
    h ← blockv3.DecodeHeader hdr;
    let pl := blockv3.HeaderLen + blockv3.CompressedLen h in
    if size <? phys + pl then Ok None
    else
      raw ← read_full file pl phys;
      framing ← Framing.decodeV3Block raw;
      Ok (Some {| logicalStart := logical; logicalLen := zlen framing; physStart := phys;
                  physLen := pl; Block.codec := blockv3.Codec h;
                  records := blockv3.Records h; version := blockv3.Version;
                  flags := blockv3.Flags h |}).

(** The loop of [scanBlocks]: the blocks found, and where the walk ended in
    physical and in logical bytes.  Every turn moves [phys] by a header at
    least, so as much fuel as the file has bytes is enough. *)
Fixpoint scan_loop (fuel : nat) (file : bytes) (size phys logical : Z) (acc : list blockRef)
    : outcome (list blockRef * Z * Z) :=
  match fuel with
  | O => Ok (acc, phys, logical)
  | S fuel =>
      if negb (phys <? size) then Ok (acc, phys, logical)
      else if size - phys <? blockHeaderLen then Ok (acc, phys, logical)
      else
        hdr ← read_full file blockHeaderLen phys;
        m ← byte_at hdr 0;
        v ← byte_at hdr 1;
        if (m =? blockMagic) && (v =? blockv3.Version) then
          r ← scanV3Block file phys logical size;
          match r with
          | None => Ok (acc, phys, logical)
          | Some b =>
              scan_loop fuel file size (phys + physLen b) (logical + logicalLen b) (acc ++ [b])
          end
        else
          '(c, uLen, cLen, r) ← parseBlockHeader hdr;
          let pl := blockHeaderLen + cLen in
          if size <? phys + pl then Ok (acc, phys, logical)
          else
            scan_loop fuel file size (phys + pl) (logical + uLen)
              (acc ++ [{| logicalStart := logical; logicalLen := uLen; physStart := phys;
                          physLen := pl; Block.codec := c; records := r;
                          version := BlockFormatVersion; flags := 0 |}])
  end.

(** [discardTornTail] of a local segment; [tf]: the truncation or the flush
    behind it fails, which the caller takes for the same refusal. *)
Definition discardTornTail (tf : bool) (file : bytes) (keep : Z) : outcome bytes :=
  if tf then Fail (ErrText "truncate torn tail") else Ok (take (Z.to_nat keep) file).

Definition scanBlocks (tf : bool) (s : segment) (size : Z) : outcome segment :=
  '(bs, phys, logical) ← scan_loop (S (length (backing s))) (backing s) size 0 0 [];
  if negb (phys =? size) then
    file ← discardTornTail tf (backing s) phys;
    Ok (with_opened (with_log s file bs logical phys) true true (zlen bs))
  else Ok (with_opened (with_log s (backing s) bs logical phys) true (droppedTornTail s) (zlen bs)).

Definition initPositions (tf : bool) (s : segment) : outcome segment :=
  let size := zlen (backing s) in
  if size =? 0 then
    let mode := negb (codec s =? CNone) || (format s =? blockv3.Version) in
    Ok (with_opened (with_log s (backing s) [] 0 size) mode (droppedTornTail s) (blocksWalked s))
  else
    magic ← byte_at (backing s) 0;
    if magic =? blockMagic then
      t ← loadLocalBlockTable (sidecar s) size;
      match t with
      | Some (bs, logical) =>
          Ok (with_opened (with_log s (backing s) bs logical size) true
                (droppedTornTail s) (blocksWalked s))
      | None => scanBlocks tf (with_log s (backing s) [] (position s) size) size
      end
    else
      Ok (with_opened (with_log s (backing s) [] size size) false
            (droppedTornTail s) (blocksWalked s)).

(** ** Reading *)

Definition findBlock (bs : list blockRef) (logical : Z) : option blockRef :=
  let i := Sort.Search (zlen bs) (λ i,
    match bs !! Z.to_nat i with
    | Some b => logical <? logicalStart b + logicalLen b
    | None => false
    end) in
  match bs !! Z.to_nat i with
  | Some b => if logical <? logicalStart b then None else Some b
  | None => None
  end.

Definition decodeBlock (file : bytes) (b : blockRef) : outcome bytes :=
  if version b =? blockv3.Version then
    raw ← read_full file (physLen b) (physStart b);
    data ← Framing.decodeV3Block raw;
    if negb (zlen data =? logicalLen b) then Fail (ErrText "block decoded to the wrong length")
    else Ok data
  else
    raw ← read_full file (payloadLen b) (payloadStart b);
    data ← DecompressInto (Block.codec b) raw;
    if negb (zlen data =? logicalLen b)
    then Fail (ErrText "block decompressed to the wrong length")
    else Ok data.

(** [blockCopyIntoCache]: the cache it leaves, and the bytes copied into a
    destination of [n] bytes. *)
Definition blockCopyIntoCache (i : Z) (file : bytes) (c : blockCache) (n : Z) (b : blockRef)
    (srcOff : Z) : blockCache * outcome bytes :=
  let serve (c : blockCache) :=
    (c, if zlen (c_data c) <=? srcOff then Fail ErrEOF
        else d ← slice_from (c_data c) srcOff; Ok (take (Z.to_nat n) d)) in
  if bool_decide (c_seg c = Some i) && (c_start c =? physStart b) then serve c
  else
    match decodeBlock file b with
    | Ok data => serve {| c_seg := Some i; c_start := physStart b; c_data := data |}
    | Fail e => ({| c_seg := None; c_start := -1; c_data := c_data c |}, Fail e)
    | Panic => (c, Panic)
    end.

(** The loop of [readBlocksCache]: [n] bytes are still wanted from logical
    offset [cur].  Every turn copies a byte at least, so [n] is enough fuel. *)
Fixpoint read_loop (fuel : nat) (i : Z) (file : bytes) (bs : list blockRef) (pos : Z)
    (c : blockCache) (n cur : Z) (acc : bytes) : blockCache * outcome (bytes * option error) :=
  match fuel with
  | O => (c, Ok (acc, None))
  | S fuel =>
      if n <=? 0 then (c, Ok (acc, None))
      else if pos <=? cur then (c, Ok (acc, Some ErrEOF))
      else
        match findBlock bs cur with
        | None => (c, Ok (acc, Some ErrEOF))
        | Some b =>
            match blockCopyIntoCache i file c n b (cur - logicalStart b) with
            | (c, Ok d) =>
                read_loop fuel i file bs pos c (n - zlen d) (cur + zlen d) (acc ++ d)
            | (c, Fail e) => (c, Ok (acc, Some e))
            | (c, Panic) => (c, Panic)
            end
        end
  end.

Definition readBlocksCache (s : segment) (c : blockCache) (n off : Z)
    : blockCache * outcome (bytes * option error) :=
  if off <? 0 then (c, Ok ([], Some (ErrText "negative read offset")))
  else if position s <=? off then (c, Ok ([], Some ErrEOF))
  else read_loop (Z.to_nat n) (id s) (backing s) (blocks s) (position s) c n off [].

Definition shutErrorLocked (s : segment) : option error :=
  if negb (closed s) then None
  else if left s then Some ErrSegmentReplaced else Some ErrSegmentClosed.

(** [ReadAt] through the segment's own cache. *)
Definition ReadAt (s : segment) (n off : Z) : segment * outcome (bytes * option error) :=
  match shutErrorLocked s with
  | Some e => (s, Ok ([], Some e))
  | None =>
      if negb (blockMode s) then (s, Ok (read_at (backing s) n off))
      else let '(c, r) := readBlocksCache s (cache s) n off in (with_cache s c, r)
  end.

(** [scanReadAt] without a stream: through the cache of the sweep. *)
Definition scanReadAt (s : segment) (c : blockCache) (n off : Z)
    : blockCache * outcome (bytes * option error) :=
  match shutErrorLocked s with
  | Some e => (c, Ok ([], Some e))
  | None =>
      if negb (blockMode s) then (c, Ok (read_at (backing s) n off))
      else readBlocksCache s c n off
  end.

(** ** Writing *)

Definition NextOffset (s : segment) : Z :=
  if lastOffset s =? -1 then BaseOffset s else sint 64 (lastOffset s + 1).

Definition IsEmpty (s : segment) : bool := firstOffset s =? -1.

Definition PhysicalSize (s : segment) : Z :=
  if blockMode s then physPosition s else position s.

(** What the index stores of an entry. *)
Definition index_entry (e : entry) : Index.entry :=
  {| Index.Offset := e_Offset e; Index.Timestamp := e_Timestamp e;
     Index.Position := e_Position e; Index.Size := e_Size e |}.

Definition notifyWaiters (s : segment) : segment := with_waiters s ∅.

Definition noteWrittenLocked (s : segment) (entries : list entry) : outcome segment :=
  first ← Prelude.index entries 0;
  let '(fo, ft) := if firstOffset s =? -1 then (e_Offset first, e_Timestamp first)
                   else (firstOffset s, firstWriteTime s) in
  last ← Prelude.index entries (zlen entries - 1);
  let '(lo, lt) := if lastOffset s <? e_Offset last then (e_Offset last, e_Timestamp last)
                   else (lastOffset s, lastWriteTime s) in
  Ok (notifyWaiters (with_bounds s fo ft lo lt (waiters s))).

Definition appendBlockBytes (w : wfault) (s : segment) (buf : bytes)
    (c logical recs v fl : Z) : segment * outcome () :=
  match file_write w (backing s) buf with
  | (file, Fail e) =>
      (with_log s file (blocks s) (position s) (physPosition s), Fail (ErrText "block write failed"))
  | (_, Panic) => (s, Panic)
  | (file, Ok n) =>
      let b := {| logicalStart := position s; logicalLen := logical;
                  physStart := physPosition s; physLen := n; Block.codec := c;
                  records := recs; version := v; flags := fl |} in
      (with_log s file (blocks s ++ [b]) (position s + logical) (physPosition s + n), Ok ())
  end.

(** The block [appendBlock] builds: the codec it is stored with and its bytes. *)
Definition block_of (cdc : Z) (p : bytes) (recs : Z) : Z * bytes :=
  let '(c, payload) :=
    if zlen p <? Framing.compressMinBlock then (CNone, p)
    else
      let payload := Compress cdc p in
      if zlen p <=? zlen payload then (CNone, p) else (cdc, payload) in
  (c, encodeBlockHeader c (uint 32 (zlen p)) (uint 32 (zlen payload)) (uint 32 recs) ++ payload).

Definition appendBlock (w : wfault) (s : segment) (p : bytes) (recs : Z) : segment * outcome () :=
  let '(c, buf) := block_of (codec s) p recs in
  appendBlockBytes w s buf c (zlen p) recs BlockFormatVersion 0.

Definition write (w : wfault) (s : segment) (p : bytes) (entries : list entry)
    : segment * outcome () :=
  if closed s then (s, Fail ErrSegmentClosed)
  else if zlen entries =? 0 then (s, Fail (ErrMessageSetRefused "write with no entries"))
  else
    let s := with_dirty s true true in
    let '(s, r) :=
      if blockMode s then appendBlock w s p (zlen entries)
      else
        match file_write w (backing s) p with
        | (file, Ok n) =>
            (with_log s file (blocks s) (position s + n) (physPosition s), Ok ())
        | (file, Fail e) =>
            (with_log s file (blocks s) (position s) (physPosition s),
             Fail (ErrText "log write failed"))
        | (_, Panic) => (s, Panic)
        end in
    match r with
    | Ok _ =>
        match noteWrittenLocked s entries with
        | Ok s => (s, Ok ())
        | Fail e => (s, Fail e)
        | Panic => (s, Panic)
        end
    | Fail e => (s, Fail e)
    | Panic => (s, Panic)
    end.

(** [s.Index.writeEntries(entries)]. *)
Definition index_write (f : Index.faults) (s : segment) (entries : list entry)
    : segment * outcome () :=
  let '(idx, r) := Index.writeEntries f (Index s) (index_entry <$> entries) in
  (with_index s idx, r).

Definition WriteMessageSet (w : wfault) (f : Index.faults) (s : segment) (ms : bytes)
    (entries : list entry) : segment * outcome () :=
  match write w s ms entries with
  | (s, Ok _) => index_write f s (if blockMode s then take 1 entries else entries)
  | (s, r) => (s, r)
  end.

(** [WriteBlock].  A block too short to name its version panics. *)
Definition WriteBlock (w : wfault) (f : Index.faults) (s : segment) (data : bytes)
    (c logical : Z) (entries : list entry) : segment * outcome () :=
  if closed s then (s, Fail ErrSegmentClosed)
  else if zlen entries =? 0 then (s, Fail (ErrMessageSetRefused "write with no entries"))
  else
    let s := with_dirty s true true in
    match byte_at data 1 with
    | Ok v =>
        let fl := if v =? blockv3.Version
                  then match blockv3.DecodeHeader data with
                       | Ok h => Ok (blockv3.Flags h)
                       | Fail _ => Fail (ErrMessageSetRefused "block header")
                       | Panic => Panic
                       end
                  else Ok 0 in
        match fl with
        | Ok fl =>
            match appendBlockBytes w s data c logical (zlen entries) v fl with
            | (s, Ok _) =>
                match noteWrittenLocked s entries with
                | Ok s => index_write f s (take 1 entries)
                | Fail e => (s, Fail e)
                | Panic => (s, Panic)
                end
            | (s, r) => (s, r)
            end
        | Fail e => (s, Fail e)
        | Panic => (s, Panic)
        end
    | Fail e => (s, Fail e)
    | Panic => (s, Panic)
    end.

(** [newSegmentWith] over the file, the sidecar and the index found on disk.
    [exists_]: the log file is there already; [tabf]: the block table cannot be
    written.  The index is opened by
    [setupIndex]; see [SegmentIndex]. *)
Definition open_log (tf tabf : bool) (i baseOffset maxB : Z) (isNew exists_ : bool) (cdc fmt : Z)
    (file : bytes) (side : option bytes) (idx : Index.index) : outcome segment :=
  let s0 := emptySegment i baseOffset maxB cdc idx in
  let s0 := {| id := id s0; backing := file; Index := Index s0; BaseOffset := BaseOffset s0;
     firstOffset := firstOffset s0; lastOffset := lastOffset s0;
     firstWriteTime := firstWriteTime s0; lastWriteTime := lastWriteTime s0;
     position := position s0; maxBytes := maxBytes s0; waiters := waiters s0;
     sealed := sealed s0; closed := closed s0; left := left s0;
     blocksWalked := blocksWalked s0; dirtyData := true; dirtyIndex := true;
     codec := codec s0; format := fmt; blockMode := blockMode s0; blocks := blocks s0;
     physPosition := physPosition s0; cache := cache s0;
     droppedTornTail := droppedTornTail s0; sidecar := side |} in
  if isNew && exists_ then Fail ErrSegmentExists
  else
    s ← initPositions tf s0;
    Ok (if (0 <? blocksWalked s) && negb tabf
        then with_state s (sealed s) (closed s) (left s) (Some (encodeBlockTable (blocks s)))
        else s).

(** ** Rolling, sealing, counting *)

Definition maxSegmentBlocks : Z := Z.shiftl 16 10.

Definition CheckSplit (s : segment) (logRollTime now : Z) : bool :=
  if maxBytes s <=? position s then true
  else if blockMode s && (maxSegmentBlocks <=? zlen (blocks s)) then true
  else if (logRollTime =? 0) || (firstWriteTime s =? 0) then false
  else logRollTime <=? sint 64 (now - firstWriteTime s).

(** [seal]; [f] and [sync_fails] are the index's faults, [table_fails] the
    block table's.  All three steps are best effort. *)
Definition seal (f : Index.faults) (sync_fails table_fails : bool) (s : segment) : segment :=
  if sealed s then s
  else
    let s := notifyWaiters (with_state s true (closed s) (left s) (sidecar s)) in
    let s := with_index s (if Index.closed (Index s) then Index s
                           else (Index.shrink f (Index s)).1) in
    let s := if negb sync_fails && negb (Index.closed (Index s))
             then with_dirty s (dirtyData s) false else s in
    if blockMode s && (0 <? zlen (blocks s)) && negb table_fails
    then with_state s (sealed s) (closed s) (left s) (Some (encodeBlockTable (blocks s)))
    else s.

Definition messageCountLocked (s : segment) : Z :=
  if negb (blockMode s) then Index.CountEntries (Index s) else sumBlockRecords (blocks s).

Definition cleanBlockTarget : Z := Z.shiftl 256 10.

Definition needsBlockConsolidation (s : segment) : bool :=
  if negb (blockMode s) || (zlen (blocks s) <? 1024) then false
  else
    let m := foldl (λ n b, if mergeable b then n + 1 else n) 0 (blocks s) in
    let targetBlocks := position s ÷ cleanBlockTarget + 1 in
    (1024 <=? m) && (4 * targetBlocks <? m).

(** [closeSegment]; [bf]: closing the file fails.  The segment is closed only
    when both halves are. *)
Definition closeSegment (bf : bool) (f : Index.faults) (sf cf tf durable : bool) (s : segment)
    : segment * outcome () :=
  if closed s then (s, Ok ())
  else
    let '(idx, r) :=
      if negb durable then Index.CloseDiscarding f sf cf (Index s)
      else if dirtyIndex s then Index.Close f sf cf (Index s)
      else Index.CloseFlushed f sf cf (Index s) in
    let s := with_index s idx in
    if bf then (s, Fail (ErrText "close"))
    else
      match r with
      | Fail e => (s, Fail e)
      | Panic => (s, Panic)
      | Ok _ => (seal f sf tf (with_state s (sealed s) true (left s) (sidecar s)), Ok ())
      end.

(** ** Waiting *)

(** [waitForData]: the segment, and whether the channel is closed already. *)
Definition waitForData (s : segment) (w pos : Z) : segment * bool :=
  if bool_decide (w ∈ waiters s) then (s, false)
  else if sealed s || (pos <? position s) || (maxBytes s <=? position s) then (s, true)
  else (with_waiters s ({[ w ]} ∪ waiters s), false).

Definition WaitForLEO (s : segment) (w expectedLEO actualLEO : Z) : segment * bool :=
  if negb (expectedLEO =? actualLEO) ||
     (negb (expectedLEO =? lastOffset s) && negb (lastOffset s =? -1))
  then (s, true)
  else waitForData s w (position s).

Definition removeWaiter (s : segment) (w : Z) : segment := with_waiters s (waiters s ∖ {[ w ]}).

End codecs.

(** ** Blocks on disk *)

(** A block as it lies in the file, its entry in the block table, and the
    logical bytes it stands for. *)
Record piece := { p_raw : bytes; p_ref : blockRef; p_data : bytes }.

Section pieces.
Context `{CodecLib}.

(** A version-2 block: header and payload as [appendBlock] writes them. *)
Definition v2_ok (p : piece) : Prop :=
  let b := p_ref p in
  version b = BlockFormatVersion ∧ flags b = 0 ∧ 0 ≤ Block.codec b ∧
  Valid (Block.codec b) = true ∧ 0 < records b < 2 ^ 32 ∧ zlen (p_data p) < 2 ^ 32 ∧
  ∃ payload, zlen payload < 2 ^ 32 ∧
    p_raw p = encodeBlockHeader (Block.codec b) (zlen (p_data p)) (zlen payload) (records b)
                ++ payload ∧
    DecompressInto (Block.codec b) payload = Ok (p_data p).

(** A version-3 block that decodes. *)
Definition v3_ok (p : piece) : Prop :=
  let b := p_ref p in
  version b = blockv3.Version ∧
  ∃ h payload, blockv3.hdr_ok h ∧ p_raw p = blockv3.sealed (blockv3.fields h) ++ payload ∧
    zlen payload = blockv3.CompressedLen h ∧ Block.codec b = blockv3.Codec h ∧
    records b = blockv3.Records h ∧ flags b = blockv3.Flags h ∧
    Framing.decodeV3Block (p_raw p) = Ok (p_data p).

Definition piece_ok (p : piece) : Prop :=
  physLen (p_ref p) = zlen (p_raw p) ∧ logicalLen (p_ref p) = zlen (p_data p) ∧
  0 < zlen (p_data p) ∧ (v2_ok p ∨ v3_ok p).

(** Blocks laid end to end from logical offset [l] and physical offset [q]. *)
Fixpoint chain (l q : Z) (ps : list piece) : Prop :=
  match ps with
  | [] => True
  | p :: ps => piece_ok p ∧ logicalStart (p_ref p) = l ∧ physStart (p_ref p) = q ∧
               chain (l + zlen (p_data p)) (q + zlen (p_raw p)) ps
  end.

Definition raws (ps : list piece) : bytes := concat (p_raw <$> ps).
Definition datas (ps : list piece) : bytes := concat (p_data <$> ps).

Lemma chain_app l q ps ps' :
  chain l q (ps ++ ps') ↔
  chain l q ps ∧ chain (l + zlen (datas ps)) (q + zlen (raws ps)) ps'.
Proof.
  revert l q. induction ps as [|p ps IH]; intros l q; cbn [app chain].
  - unfold datas, raws. simpl. rewrite zlen_nil, !Z.add_0_r. tauto.
  - rewrite IH. unfold datas, raws. cbn [fmap list_fmap concat].
    rewrite !zlen_app, !Z.add_assoc. tauto.
Qed.

Lemma raws_app a b : raws (a ++ b) = raws a ++ raws b.
Proof. unfold raws. by rewrite fmap_app, concat_app. Qed.

Lemma datas_app a b : datas (a ++ b) = datas a ++ datas b.
Proof. unfold datas. by rewrite fmap_app, concat_app. Qed.

Lemma raws_one p : raws [p] = p_raw p.
Proof. unfold raws. simpl. apply app_nil_r. Qed.

Lemma datas_one p : datas [p] = p_data p.
Proof. unfold datas. simpl. apply app_nil_r. Qed.

Lemma zlen_encodeBlockHeader c u k r : zlen (encodeBlockHeader c u k r) = blockHeaderLen.
Proof. reflexivity. Qed.

Lemma sealed_head h :
  ∃ rest, blockv3.sealed (blockv3.fields h) =
          byte.of_Z blockMagic :: byte.of_Z blockv3.Version :: rest.
Proof. by eexists. Qed.

Lemma read_full_mid (a m s : bytes) n off :
  n = zlen m → off = zlen a → read_full (a ++ m ++ s) n off = Ok m.
Proof.
  intros -> ->. unfold read_full, read_at. rewrite (proj2 (Z.ltb_ge _ 0)) by apply zlen_nonneg.
  rewrite !to_nat_zlen, drop_app_length, take_app_length. by rewrite Z.ltb_irrefl.
Qed.

Lemma read_full_app (a t : bytes) n :
  0 ≤ n ≤ zlen t → read_full (a ++ t) n (zlen a) = Ok (take (Z.to_nat n) t).
Proof.
  intros Hn. rewrite <- (take_drop (Z.to_nat n) t) at 1. apply read_full_mid; [|done].
  by rewrite zlen_take.
Qed.

(** *** The walk over the block headers *)

(** One turn of the walk, over a block that is all there or cut short: [t] is
    what is left of the file from the block's first byte on. *)
Definition turn (fuel : nat) (A t : bytes) (l : Z) (acc : list blockRef) :=
  scan_loop (S fuel) (A ++ t) (zlen (A ++ t)) (zlen A) l acc.

Lemma turn_short fuel A t l acc : zlen t < blockHeaderLen → turn fuel A t l acc = Ok (acc, zlen A, l).
Proof.
  intros Ht. unfold turn. cbn [scan_loop]. rewrite zlen_app.
  destruct (negb _); [done|]. by rewrite (proj2 (Z.ltb_lt _ _)) by lia.
Qed.

(** The header of a version-2 block is read whole. *)
Lemma turn_v2 fuel A c u k r l rest acc :
  0 ≤ c → Valid c = true → in_uint 32 u → in_uint 32 k → 0 < r < 2 ^ 32 →
  turn fuel A (encodeBlockHeader c u k r ++ rest) l acc =
  let file := A ++ encodeBlockHeader c u k r ++ rest in
  if zlen rest <? k then Ok (acc, zlen A, l)
  else scan_loop fuel file (zlen file) (zlen A + (blockHeaderLen + k)) (l + u)
         (acc ++ [{| logicalStart := l; logicalLen := u; physStart := zlen A;
                     physLen := blockHeaderLen + k; Block.codec := c; records := r;
                     version := BlockFormatVersion; flags := 0 |}]).
Proof.
  intros Hc Hv Hu Hk Hr. unfold turn. cbn [scan_loop]. cbv zeta.
  set (hdr := encodeBlockHeader c u k r). set (file := A ++ hdr ++ rest).
  assert (Hz : zlen file = zlen A + blockHeaderLen + zlen rest).
  { unfold file. rewrite !zlen_app. unfold hdr. rewrite zlen_encodeBlockHeader. lia. }
  pose proof (zlen_nonneg rest). assert (Hp : 0 < blockHeaderLen) by done.
  rewrite (proj2 (Z.ltb_lt _ _)) by lia. cbn [negb]. rewrite (proj2 (Z.ltb_ge _ blockHeaderLen)) by lia.
  assert (Hf : read_full file blockHeaderLen (zlen A) = Ok hdr) by (by apply read_full_mid).
  rewrite Hf, bind_Ok.
  replace (byte_at hdr 0) with (Ok blockMagic) by reflexivity. rewrite bind_Ok.
  replace (byte_at hdr 1) with (Ok BlockFormatVersion) by reflexivity. rewrite bind_Ok.
  replace ((blockMagic =? blockMagic) && (BlockFormatVersion =? blockv3.Version)) with false
    by reflexivity.
  unfold hdr at 1. rewrite <- (app_nil_r (encodeBlockHeader c u k r)), parse_encode_header, bind_Ok by done.
  replace (zlen file <? zlen A + (blockHeaderLen + k)) with (zlen rest <? k); [done|].
  rewrite Hz. destruct (Z.ltb_spec (zlen rest) k), (Z.ltb_spec (zlen A + blockHeaderLen + zlen rest) (zlen A + (blockHeaderLen + k))); (done || lia).
Qed.

(** A version-3 block is decoded. *)
Lemma v3_head A h payload t u :
  blockv3.sealed (blockv3.fields h) ++ payload = t ++ u → blockHeaderLen ≤ zlen t →
  ∃ hdr, read_full (A ++ t) blockHeaderLen (zlen A) = Ok hdr ∧
    byte_at hdr 0 = Ok blockMagic ∧ byte_at hdr 1 = Ok blockv3.Version.
Proof.
  intros Hu Ht. exists (take (Z.to_nat blockHeaderLen) t).
  rewrite read_full_app by (unfold blockHeaderLen in *; lia).
  rewrite <- (take_app_le t u), <- Hu by (unfold zlen, blockHeaderLen in *; lia).
  destruct (sealed_head h) as [rest ->]. done.
Qed.

Lemma v3_header A h payload t u :
  blockv3.hdr_ok h → blockv3.sealed (blockv3.fields h) ++ payload = t ++ u →
  blockv3.HeaderLen ≤ zlen t →
  (read_full (A ++ t) blockv3.HeaderLen (zlen A) ≫= blockv3.DecodeHeader) = Ok h.
Proof.
  intros Hok Hu Ht. rewrite read_full_app, bind_Ok by (unfold blockv3.HeaderLen in *; lia).
  rewrite <- (take_app_le t u), <- Hu by (unfold zlen, blockv3.HeaderLen in *; lia).
  rewrite take_app_le by (by rewrite blockv3.length_sealed).
  rewrite take_ge by (by rewrite blockv3.length_sealed).
  rewrite <- (app_nil_r (blockv3.sealed _)). by apply blockv3.decode_sealed.
Qed.

Lemma turn_v3_torn fuel A h payload t u l acc :
  blockv3.hdr_ok h → zlen payload = blockv3.CompressedLen h →
  blockv3.sealed (blockv3.fields h) ++ payload = t ++ u → u ≠ [] →
  turn fuel A t l acc = Ok (acc, zlen A, l).
Proof.
  intros Hok Hp Hu Hne.
  destruct (Z.lt_ge_cases (zlen t) blockHeaderLen) as [Ht|Ht]; [by apply turn_short|].
  assert (Hu0 : 0 < zlen u) by (destruct u; [done|]; rewrite zlen_cons; pose_zlen; lia).
  pose proof (f_equal zlen Hu) as Hz. rewrite !zlen_app, blockv3.zlen_sealed, Hp in Hz by done.
  destruct (v3_head A h payload t u Hu Ht) as (hdr & Hr & Hmg & Hvs).
  unfold turn. cbn [scan_loop]. cbv zeta. rewrite zlen_app.
  rewrite (proj2 (Z.ltb_lt _ _)) by (unfold blockHeaderLen in Ht; lia). cbn [negb].
  rewrite (proj2 (Z.ltb_ge _ blockHeaderLen)) by lia.
  rewrite Hr, bind_Ok, Hmg, bind_Ok, Hvs, bind_Ok, !Z.eqb_refl. cbn [andb]. unfold scanV3Block.
  replace (zlen A + zlen t - zlen A) with (zlen t) by lia.
  destruct (Z.ltb_spec (zlen t) blockv3.HeaderLen) as [Hl|Hl]; [by rewrite bind_Ok|].
  pose proof (v3_header A h payload t u Hok Hu Hl) as Hd. apply bind_Ok_inv in Hd as (b & Hb & Hd).
  rewrite Hb, bind_Ok, Hd, bind_Ok. by rewrite (proj2 (Z.ltb_lt _ _)) by lia.
Qed.

Lemma turn_v3 fuel A h payload rest d l acc :
  blockv3.hdr_ok h → zlen payload = blockv3.CompressedLen h →
  let raw := blockv3.sealed (blockv3.fields h) ++ payload in
  Framing.decodeV3Block raw = Ok d →
  turn fuel A (raw ++ rest) l acc =
  scan_loop fuel (A ++ raw ++ rest) (zlen (A ++ raw ++ rest)) (zlen A + zlen raw) (l + zlen d)
    (acc ++ [{| logicalStart := l; logicalLen := zlen d; physStart := zlen A;
                physLen := zlen raw; Block.codec := blockv3.Codec h;
                records := blockv3.Records h; version := blockv3.Version;
                flags := blockv3.Flags h |}]).
Proof.
  intros Hok Hp raw Hdec.
  assert (Hz : zlen raw = blockv3.HeaderLen + blockv3.CompressedLen h).
  { unfold raw. by rewrite zlen_app, blockv3.zlen_sealed, Hp by done. }
  assert (Hrest : zlen (raw ++ rest) = zlen raw + zlen rest) by apply zlen_app.
  pose proof (zlen_nonneg payload). pose proof (zlen_nonneg rest).
  assert (Hu : blockv3.sealed (blockv3.fields h) ++ (payload ++ rest) = (raw ++ rest) ++ [])
    by (by rewrite app_nil_r, app_assoc).
  destruct (v3_head A h _ _ _ Hu) as (hdr & Hr & Hmg & Hvs);
    [unfold blockHeaderLen, blockv3.HeaderLen in *; lia|].
  unfold turn. cbn [scan_loop]. cbv zeta. rewrite (zlen_app A), Hrest.
  rewrite (proj2 (Z.ltb_lt _ _)) by (unfold blockv3.HeaderLen in *; lia). cbn [negb].
  rewrite (proj2 (Z.ltb_ge _ blockHeaderLen)) by (unfold blockHeaderLen, blockv3.HeaderLen in *; lia).
  rewrite Hr, bind_Ok, Hmg, bind_Ok, Hvs, bind_Ok, !Z.eqb_refl. cbn [andb]. unfold scanV3Block.
  rewrite (proj2 (Z.ltb_ge _ blockv3.HeaderLen)) by lia.
  pose proof (v3_header A h _ _ _ Hok Hu ltac:(lia)) as Hd. apply bind_Ok_inv in Hd as (b & Hb & Hd).
  rewrite Hb, bind_Ok, Hd, bind_Ok. rewrite (proj2 (Z.ltb_ge _ _)) by lia.
  rewrite read_full_mid, bind_Ok, Hdec, !bind_Ok by lia. cbn [physLen logicalLen]. by rewrite <- Hz.
Qed.

Lemma turn_piece fuel A p rest acc :
  piece_ok p → physStart (p_ref p) = zlen A →
  turn fuel A (p_raw p ++ rest) (logicalStart (p_ref p)) acc =
  scan_loop fuel (A ++ p_raw p ++ rest) (zlen (A ++ p_raw p ++ rest)) (zlen A + zlen (p_raw p))
    (logicalStart (p_ref p) + zlen (p_data p)) (acc ++ [p_ref p]).
Proof.
  destruct p as [raw b d]. intros (Hpl & Hll & Hd & Hv) Hps. cbn [p_raw p_ref p_data] in *.
  destruct Hv as [(Hv & Hf & Hc & HV & Hr & Hz & pl & Hpz & Hraw & _)
                 |(Hv & h & pl & Hok & Hraw & Hpz & Hc & Hr & Hf & Hdec)];
    cbn [p_raw p_ref p_data] in *; destruct b as [ls ll bp bl cd rc vs fl];
    cbn [logicalStart logicalLen physStart physLen Block.codec records version flags] in *; subst.
  - pose_zlen. rewrite <- app_assoc, turn_v2 by (done || (unfold in_uint; lia)). cbv zeta.
    pose proof (zlen_nonneg rest). rewrite (zlen_app pl rest), (proj2 (Z.ltb_ge _ _)) by lia.
    rewrite (zlen_app (encodeBlockHeader _ _ _ _) pl), zlen_encodeBlockHeader. done.
  - by rewrite (turn_v3 _ _ _ _ _ d).
Qed.

Lemma turn_torn fuel A p t u l acc :
  piece_ok p → p_raw p = t ++ u → u ≠ [] → turn fuel A t l acc = Ok (acc, zlen A, l).
Proof.
  intros (_ & _ & _ & Hv) Ht Hu.
  destruct Hv as [(_ & _ & Hc & HV & Hr & Hz & pl & Hpz & Hraw & _)
                 |(_ & h & pl & Hok & Hraw & Hpz & _)].
  - destruct (Z.lt_ge_cases (zlen t) blockHeaderLen) as [Hs|Hs]; [by apply turn_short|].
    rewrite Hraw in Ht.
    assert (∃ k, t = encodeBlockHeader (Block.codec (p_ref p)) (zlen (p_data p)) (zlen pl)
      (records (p_ref p)) ++ k) as [k ->].
    { apply (f_equal (take 15)) in Ht. rewrite take_app_length' in Ht by done.
      rewrite take_app_le in Ht by (unfold zlen, blockHeaderLen in Hs; lia).
      exists (drop 15 t). by rewrite Ht, take_drop. }
    rewrite <- app_assoc in Ht. apply app_inv_head in Ht.
    assert (0 < zlen u) by (destruct u; [done|]; rewrite zlen_cons; pose_zlen; lia).
    pose_zlen. rewrite turn_v2 by (done || (unfold in_uint; lia)). cbv zeta.
    rewrite (proj2 (Z.ltb_lt _ _)); [done|]. rewrite Ht, zlen_app. lia.
  - rewrite Hraw in Ht. by apply (turn_v3_torn _ _ h pl _ u).
Qed.

(** What a crash leaves after whole blocks: nothing, or the first bytes of the
    block being written. *)
Definition torn (t : bytes) : Prop := t = [] ∨ ∃ p u, piece_ok p ∧ p_raw p = t ++ u ∧ u ≠ [].

Lemma piece_raw_pos p : piece_ok p → blockHeaderLen ≤ zlen (p_raw p).
Proof.
  intros (_ & _ & _ & [(_ & _ & _ & _ & _ & _ & pl & _ & -> & _)|(_ & h & pl & _ & -> & _)]);
    rewrite zlen_app; pose proof (zlen_nonneg pl).
  - rewrite zlen_encodeBlockHeader. lia.
  - rewrite blockv3.zlen_sealed by done. unfold blockHeaderLen, blockv3.HeaderLen. lia.
Qed.

Lemma scan_chain fuel A ps t l acc :
  chain l (zlen A) ps → torn t → (length ps < fuel)%nat →
  scan_loop fuel (A ++ raws ps ++ t) (zlen (A ++ raws ps ++ t)) (zlen A) l acc =
  Ok (acc ++ (p_ref <$> ps), zlen A + zlen (raws ps), l + zlen (datas ps)).
Proof.
  revert fuel A l acc. induction ps as [|p ps IH]; intros fuel A l acc Hc Ht Hf;
    (destruct fuel as [|fuel]; [simpl in Hf; lia|]).
  - unfold raws, datas. cbn [fmap list_fmap concat app]. rewrite zlen_nil, !Z.add_0_r, app_nil_r.
    fold (turn fuel A t l acc). destruct Ht as [->|(p & u & Hp & Hraw & Hu)].
    + by apply turn_short.
    + by eapply turn_torn.
  - destruct Hc as (Hp & <- & Hs & Hc).
    unfold raws, datas. cbn [fmap list_fmap concat]. fold (raws ps) (datas ps).
    rewrite <- app_assoc. fold (turn fuel A (p_raw p ++ raws ps ++ t) (logicalStart (p_ref p)) acc).
    rewrite turn_piece by done. rewrite !(app_assoc A), <- (zlen_app A), IH.
    + rewrite <- app_assoc, !zlen_app, !Z.add_assoc. done.
    + by rewrite zlen_app.
    + done.
    + simpl in Hf. lia.
Qed.

Lemma chain_length l q ps : chain l q ps → (length ps ≤ length (raws ps))%nat.
Proof.
  revert l q. induction ps as [|p ps IH]; intros l q Hc; [done|].
  destruct Hc as (Hp & _ & _ & Hc). apply IH in Hc. apply piece_raw_pos in Hp.
  unfold raws in *. cbn [fmap list_fmap concat length]. rewrite length_app.
  unfold zlen, blockHeaderLen in Hp. lia.
Qed.

(** *** A segment that describes its file *)

Definition refs (ps : list piece) : list blockRef := p_ref <$> ps.

Definition describes (s : segment) (ps : list piece) : Prop :=
  blockMode s = true ∧ chain 0 0 ps ∧ backing s = raws ps ∧ blocks s = refs ps ∧
  position s = zlen (datas ps) ∧ physPosition s = zlen (raws ps).

Lemma piece_head p : piece_ok p → ∃ r, p_raw p = byte.of_Z blockMagic :: r.
Proof.
  intros (_ & _ & _ & [(_ & _ & _ & _ & _ & _ & pl & _ & -> & _)|(_ & h & pl & _ & -> & _)]).
  - by eexists.
  - destruct (sealed_head h) as [r ->]. by eexists.
Qed.

Lemma log_head l q ps t :
  chain l q ps → torn t → raws ps ++ t ≠ [] → byte_at (raws ps ++ t) 0 = Ok blockMagic.
Proof.
  intros Hc Ht Hne.
  assert (∃ r, raws ps ++ t = byte.of_Z blockMagic :: r) as [r ->]; [|done].
  destruct ps as [|p ps].
  - destruct Ht as [->|(p & u & Hp & Hr & _)]; [done|]. unfold raws in *. simpl in *.
    apply piece_head in Hp as [r Hp]. rewrite Hp in Hr. destruct t as [|t0 t]; [done|].
    injection Hr as <- _. by eexists.
  - destruct Hc as (Hp & _). apply piece_head in Hp as [r Hp].
    unfold raws. cbn [fmap list_fmap concat]. rewrite Hp. by eexists.
Qed.

Lemma sum_phys_refs l q ps : chain l q ps → sum_phys (refs ps) = zlen (raws ps).
Proof.
  revert l q. induction ps as [|p ps IH]; intros l q Hc; [done|].
  destruct Hc as ((Hp & _) & _ & _ & Hc). apply IH in Hc.
  unfold refs, raws in *. cbn [fmap list_fmap concat]. rewrite zlen_app, <- Hc, <- Hp. done.
Qed.

Lemma sum_logical_refs l q ps : chain l q ps → sum_logical (refs ps) = zlen (datas ps).
Proof.
  revert l q. induction ps as [|p ps IH]; intros l q Hc; [done|].
  destruct Hc as ((_ & Hp & _) & _ & _ & Hc). apply IH in Hc.
  unfold refs, datas in *. cbn [fmap list_fmap concat]. rewrite zlen_app, <- Hc, <- Hp. done.
Qed.

Lemma chain_contiguous l q ps : chain l q ps → contiguous l q (refs ps).
Proof.
  revert l q. induction ps as [|p ps IH]; intros l q Hc; [done|].
  destruct Hc as ((Hp & Hl & _) & H1 & H2 & Hc). unfold refs. cbn [fmap list_fmap contiguous].
  rewrite Hp, Hl. split_and!; [done..|]. by apply IH.
Qed.

Lemma Valid_byte c : 0 ≤ c → Valid c = true → in_uint 8 c.
Proof. intros Hc HV. apply Valid_cases in HV; [|done]. by destruct HV as [->|[->|[->| ->]]]. Qed.

Lemma piece_ref_ok p :
  piece_ok p → zlen (p_data p) < 2 ^ 32 → zlen (p_raw p) < 2 ^ 32 →
  ref_ok (p_ref p) ∧ flags_ok (p_ref p).
Proof.
  intros Hp Hd Hr. pose proof (piece_raw_pos p Hp) as Hpos.
  destruct Hp as (Hpl & Hll & Hd0 & Hv). unfold ref_ok, flags_ok. rewrite Hpl, Hll.
  destruct Hv as [(Hv & Hf & Hc & HV & Hrec & _)|(Hv & h & pl & Hok & _ & _ & Hc & Hrec & Hf & _)].
  - pose proof (Valid_byte _ Hc HV). rewrite Hv, Hf. unfold in_uint in *.
    repeat split; try done; lia.
  - destruct Hok as (Hc0 & HV & Hfl & _ & _ & _ & _ & _ & _ & _ & Hrc & _).
    pose proof (Valid_byte _ Hc0 HV). rewrite Hv, Hc, Hrec, Hf. unfold in_uint in *.
    repeat split; try done; lia.
Qed.

Lemma chain_refs_ok l q ps :
  chain l q ps → zlen (datas ps) < 2 ^ 32 → zlen (raws ps) < 2 ^ 32 →
  Forall ref_ok (refs ps) ∧ Forall flags_ok (refs ps).
Proof.
  revert l q. induction ps as [|p ps IH]; intros l q Hc Hd Hr; [by split; apply Forall_nil|].
  destruct Hc as (Hp & _ & _ & Hc). unfold datas, raws, refs in *.
  cbn [fmap list_fmap concat] in *. rewrite zlen_app in *. pose_zlen.
  destruct (piece_ref_ok p) as [Hx Hy]; [done|lia..|].
  destruct (IH _ _ Hc) as [Hz Hw]; [lia..|]. by split; apply Forall_cons.
Qed.

(** The block table beside the log: none, or one written when the segment held
    the first [k] of its blocks. *)
Definition own_table (side : option bytes) (ps : list piece) : Prop :=
  side = None ∨ ∃ k, side = Some (encodeBlockTable (refs (take k ps))).

Lemma chain_take l q ps k : chain l q ps → chain l q (take k ps).
Proof. intros Hc. rewrite <- (take_drop k ps) in Hc. by apply chain_app in Hc as [Hc _]. Qed.

Lemma zlen_raws_nil l q ps : chain l q ps → zlen (raws ps) = 0 → ps = [].
Proof.
  intros Hc Hz. apply chain_length in Hc. destruct ps; [done|]. unfold zlen in Hz. simpl in Hc. lia.
Qed.

Lemma load_own_table side ps t :
  own_table side ps → chain 0 0 ps →
  (side ≠ None → zlen (datas ps) < 2 ^ 32 ∧ zlen (raws ps) < 2 ^ 32) →
  loadLocalBlockTable side (zlen (raws ps ++ t)) = Ok None ∨
  (loadLocalBlockTable side (zlen (raws ps ++ t)) = Ok (Some (refs ps, zlen (datas ps))) ∧ t = []).
Proof.
  intros [->|[k ->]] Hc Hdr; [by left|]. destruct (Hdr ltac:(done)) as [Hd Hr].
  pose proof (chain_take _ _ _ k Hc) as Hck.
  assert (Hsd : zlen (datas (take k ps)) ≤ zlen (datas ps)).
  { rewrite <- (take_drop k ps) at 2. rewrite datas_app, zlen_app. pose_zlen. lia. }
  assert (Hsr : zlen (raws ps) = zlen (raws (take k ps)) + zlen (raws (drop k ps))).
  { rewrite <- (take_drop k ps) at 1. by rewrite raws_app, zlen_app. }
  pose proof (zlen_nonneg (raws (drop k ps))). pose proof (zlen_nonneg t).
  destruct (chain_refs_ok _ _ _ Hck) as [Ho Hf]; [lia..|].
  unfold loadLocalBlockTable. rewrite decode_encode_table; [|done|done|by apply chain_contiguous|].
  2: { apply chain_length in Hck. unfold zlen, refs in *. rewrite length_fmap. lia. }
  rewrite blockTableExtent_sums by (by apply chain_contiguous).
  erewrite sum_phys_refs, sum_logical_refs by done. rewrite zlen_app.
  destruct (negb _) eqn:E; [by left|]. reflect_hyps. right.
  assert (Hn : drop k ps = []).
  { rewrite <- (take_drop k ps) in Hc. apply chain_app in Hc as [_ Hc].
    apply (zlen_raws_nil _ _ _ Hc). lia. }
  assert (t = []) as -> by (destruct t; [done|]; rewrite zlen_cons in *; pose_zlen; lia).
  split; [|done]. rewrite <- (take_drop k ps) at 3 4. rewrite Hn, app_nil_r. done.
Qed.

Lemma initPositions_recovers s ps t :
  chain 0 0 ps → torn t → raws ps ++ t ≠ [] →
  (sidecar s ≠ None → zlen (datas ps) < 2 ^ 32 ∧ zlen (raws ps) < 2 ^ 32) →
  own_table (sidecar s) ps → backing s = raws ps ++ t →
  ∃ s', initPositions false s = Ok s' ∧ describes s' ps ∧ cache s' = newBlockCache ∧
    droppedTornTail s' = droppedTornTail s || bool_decide (t ≠ []) ∧ lastOffset s' = lastOffset s ∧
    (sidecar s' = sidecar s) ∧ closed s' = closed s ∧ Index s' = Index s ∧ codec s' = codec s ∧
    (blocksWalked s' = blocksWalked s ∨ blocksWalked s' = zlen (refs ps)) ∧
    firstOffset s' = firstOffset s ∧ firstWriteTime s' = firstWriteTime s ∧
    lastWriteTime s' = lastWriteTime s ∧ id s' = id s ∧ BaseOffset s' = BaseOffset s ∧
    maxBytes s' = maxBytes s ∧ format s' = format s ∧ sealed s' = sealed s ∧ left s' = left s.
Proof.
  intros Hc Ht Hne Hdr Ho Hb. unfold initPositions. rewrite Hb.
  assert (Hz : 0 < zlen (raws ps ++ t)).
  { destruct (raws ps ++ t); [done|]. rewrite zlen_cons. pose_zlen. lia. }
  rewrite (proj2 (Z.eqb_neq _ 0)) by lia. rewrite (log_head _ _ _ _ Hc Ht Hne), bind_Ok, Z.eqb_refl.
  destruct (load_own_table _ _ t Ho Hc Hdr) as [->|[-> ->]]; rewrite bind_Ok.
  - unfold scanBlocks. cbn [with_log backing].
    rewrite (scan_chain _ [] ps t 0 [] Hc Ht); cbn [app zlen length Z.of_nat].
    2: { apply chain_length in Hc. rewrite length_app. lia. }
    rewrite bind_Ok, !Z.add_0_l. destruct (negb _) eqn:E; reflect_hyps.
    + unfold discardTornTail. rewrite bind_Ok, to_nat_zlen, take_app_length.
      eexists. split; [done|]. cbn. split_and!; try done.
      * rewrite bool_decide_eq_true_2; [by rewrite orb_true_r|]. intros ->. rewrite app_nil_r in E. done.
      * by right.
    + assert (t = []) as ->.
      { rewrite zlen_app in E. destruct t; [done|]. rewrite zlen_cons in E. pose_zlen. lia. }
      eexists. split; [done|]. rewrite app_nil_r. cbn. split_and!; try done; [by rewrite orb_false_r|by right].
  - rewrite app_nil_r. eexists. split; [done|]. cbn. split_and!; try done; [by rewrite orb_false_r|by left].
Qed.

(** *** Reading the logical bytes *)

Definition ends_after (off : Z) (p : piece) : bool :=
  off <? logicalStart (p_ref p) + logicalLen (p_ref p).

Lemma chain_ends l q ps p : chain l q ps → p ∈ ps → l < logicalStart (p_ref p) + logicalLen (p_ref p).
Proof.
  revert l q. induction ps as [|p' ps IH]; intros l q Hc Hp; [by apply not_elem_of_nil in Hp|].
  destruct Hc as ((_ & Hl & Hd & _) & Hs & _ & Hc).
  apply elem_of_cons in Hp as [->|Hp]; [lia|]. apply (IH _ _ Hc) in Hp. lia.
Qed.

Lemma chain_sorted l q ps :
  chain l q ps →
  StronglySorted (λ b c, logicalStart b + logicalLen b < logicalStart c + logicalLen c) (refs ps).
Proof.
  revert l q. induction ps as [|p ps IH]; intros l q Hc; [constructor|].
  destruct Hc as ((_ & Hl & Hd & _) & Hs & _ & Hc). constructor; [by eapply IH|].
  apply Forall_fmap, Forall_forall. intros p' Hp'. apply (chain_ends _ _ _ _ Hc) in Hp'. simpl. lia.
Qed.

(** The blocks from the one [findBlock] returns on. *)
Lemma chain_find l q ps off :
  chain l q ps → l ≤ off < l + zlen (datas ps) →
  ∃ ps1 p ps2, ps = ps1 ++ p :: ps2 ∧
    logicalStart (p_ref p) = l + zlen (datas ps1) ∧
    logicalStart (p_ref p) ≤ off < logicalStart (p_ref p) + zlen (p_data p) ∧
    filter (λ b, (off <? logicalStart b + logicalLen b) = true) (refs ps) = refs (p :: ps2).
Proof.
  revert l q. induction ps as [|p ps IH]; intros l q Hc Hoff;
    [unfold datas in Hoff; simpl in Hoff; change (zlen []) with 0 in Hoff; lia|].
  destruct Hc as ((Hp1 & Hl & Hd & Hv) & Hs & Hq & Hc).
  destruct (Z.lt_ge_cases off (l + zlen (p_data p))) as [Hlt|Hge].
  - exists [], p, ps. unfold datas at 1. simpl. change (zlen []) with 0.
    split_and!; try done; try lia. apply filter_all. apply Forall_cons. split.
    + apply Z.ltb_lt. lia.
    + apply Forall_fmap, Forall_forall. intros p' Hp'. apply (chain_ends _ _ _ _ Hc) in Hp'.
      simpl. apply Z.ltb_lt. lia.
  - destruct (IH _ _ Hc) as (ps1 & p' & ps2 & -> & Hst & Ho & Hf).
    { unfold datas in *. cbn [fmap list_fmap concat] in Hoff. rewrite zlen_app in Hoff. lia. }
    exists (p :: ps1), p', ps2. split; [done|].
    split; [unfold datas in *; cbn [fmap list_fmap concat]; rewrite zlen_app; lia|].
    split; [done|]. unfold refs in *. cbn [fmap list_fmap].
    rewrite filter_cons_False; [done|]. rewrite Z.ltb_lt. lia.
Qed.

Lemma findBlock_chain ps off :
  chain 0 0 ps → 0 ≤ off < zlen (datas ps) →
  ∃ ps1 p ps2, ps = ps1 ++ p :: ps2 ∧ findBlock (refs ps) off = Some (p_ref p) ∧
    logicalStart (p_ref p) = zlen (datas ps1) ∧
    0 ≤ off - logicalStart (p_ref p) < zlen (p_data p).
Proof.
  intros Hc Hoff. destruct (chain_find _ _ _ off Hc) as (ps1 & p & ps2 & Hps & Hs & Ho & Hf); [lia|].
  exists ps1, p, ps2. split; [done|]. split; [|lia].
  destruct (Sort.Search_list _ (λ b, off <? logicalStart b + logicalLen b) (refs ps)
    (chain_sorted _ _ _ Hc)) as [Hi Hdrop].
  { intros x y Hxy. rewrite !Z.ltb_lt. lia. }
  unfold findBlock. cbv zeta. set (i := Sort.Search _ _) in *.
  rewrite Hf in Hdrop. rewrite <- (Nat.add_0_r (Z.to_nat i)), <- lookup_drop, Hdrop.
  cbn. by rewrite (proj2 (Z.ltb_ge _ _)) by lia.
Qed.

Lemma decodeBlock_piece A p B :
  piece_ok p → physStart (p_ref p) = zlen A →
  decodeBlock (A ++ p_raw p ++ B) (p_ref p) = Ok (p_data p).
Proof.
  intros (Hpl & Hll & Hd & Hv) Hs. unfold decodeBlock.
  destruct Hv as [(Hv & _ & _ & _ & _ & _ & pl & Hpz & Hraw & Hdec)
                 |(Hv & h & pl & _ & Hraw & Hpz & _ & _ & _ & Hdec)]; rewrite Hv.
  - replace (BlockFormatVersion =? blockv3.Version) with false by done.
    unfold payloadLen, payloadStart, headerLen. rewrite Hv.
    replace (BlockFormatVersion =? blockv3.Version) with false by done.
    rewrite Hpl, Hs, Hraw, <- !app_assoc, (app_assoc A).
    rewrite read_full_mid, bind_Ok, Hdec, bind_Ok, Hll, Z.eqb_refl; [done| |];
      rewrite zlen_app, zlen_encodeBlockHeader; lia.
  - rewrite Z.eqb_refl, read_full_mid, bind_Ok, Hdec, bind_Ok, Hll, Z.eqb_refl by done. done.
Qed.

Lemma chain_mid l q ps1 p ps2 :
  chain l q (ps1 ++ p :: ps2) → piece_ok p ∧ physStart (p_ref p) = q + zlen (raws ps1).
Proof. intros Hc. apply chain_app in Hc as [_ (Hp & _ & Hq & _)]. done. Qed.

Lemma chain_starts l q ps p : chain l q ps → p ∈ ps → q ≤ physStart (p_ref p).
Proof.
  revert l q. induction ps as [|p' ps IH]; intros l q Hc Hp; [by apply not_elem_of_nil in Hp|].
  destruct Hc as (_ & _ & Hq & Hc). apply elem_of_cons in Hp as [->|Hp]; [lia|].
  apply (IH _ _ Hc) in Hp. pose_zlen. lia.
Qed.

Lemma chain_start_inj l q ps p p' :
  chain l q ps → p ∈ ps → p' ∈ ps → physStart (p_ref p) = physStart (p_ref p') → p = p'.
Proof.
  revert l q. induction ps as [|x ps IH]; intros l q Hc Hp Hp' E; [by apply not_elem_of_nil in Hp|].
  destruct Hc as (Hx & _ & Hq & Hc). apply piece_raw_pos in Hx. unfold blockHeaderLen in Hx.
  apply elem_of_cons in Hp as [->|Hp], Hp' as [->|Hp']; [done| | |by eapply IH].
  - apply (chain_starts _ _ _ _ Hc) in Hp'. lia.
  - apply (chain_starts _ _ _ _ Hc) in Hp. lia.
Qed.

(** A cache entry of this segment is a block of this segment. *)
Definition cache_ok (i : Z) (c : blockCache) (ps : list piece) : Prop :=
  c_seg c = Some i → ∃ p, p ∈ ps ∧ physStart (p_ref p) = c_start c ∧ c_data c = p_data p.

Lemma elem_of_middle (ps1 : list piece) p ps2 : p ∈ ps1 ++ p :: ps2.
Proof. apply elem_of_app. right. apply elem_of_cons. by left. Qed.

Lemma copy_piece i c n ps1 p ps2 k :
  let ps := ps1 ++ p :: ps2 in
  chain 0 0 ps → cache_ok i c ps → 0 ≤ k < zlen (p_data p) →
  ∃ c', blockCopyIntoCache i (raws ps) c n (p_ref p) k =
        (c', Ok (take (Z.to_nat n) (drop (Z.to_nat k) (p_data p)))) ∧ cache_ok i c' ps.
Proof.
  intros ps Hc Hok Hk. destruct (chain_mid _ _ _ _ _ Hc) as [Hp Hs]. rewrite Z.add_0_l in Hs.
  assert (Hsv : ∀ c', c_data c' = p_data p →
    (if zlen (c_data c') <=? k then Fail ErrEOF
     else d ← slice_from (c_data c') k; Ok (take (Z.to_nat n) d)) =
    Ok (take (Z.to_nat n) (drop (Z.to_nat k) (p_data p)))).
  { intros c' ->. rewrite (proj2 (Z.leb_gt _ _)) by lia. unfold slice_from.
    rewrite slice_ok, bind_Ok by lia. rewrite (take_ge (drop _ _)); [done|].
    rewrite length_drop. unfold zlen. lia. }
  unfold blockCopyIntoCache. destruct (bool_decide _ && _) eqn:E.
  - apply andb_prop in E as [E1 E2]. apply bool_decide_eq_true in E1. apply Z.eqb_eq in E2.
    exists c. split; [|done]. rewrite Hsv; [done|].
    destruct (Hok E1) as (p' & Hp' & Hst & ->). f_equal.
    apply (chain_start_inj _ _ _ _ _ Hc Hp'); [apply elem_of_middle|congruence].
  - unfold ps at 1. rewrite raws_app. change (p :: ps2) with ([p] ++ ps2).
    rewrite raws_app, raws_one, decodeBlock_piece by done.
    eexists. split; [by rewrite Hsv|]. intros _. exists p. split; [apply elem_of_middle|done].
Qed.

Lemma read_loop_chain fuel i ps c n cur acc :
  chain 0 0 ps → cache_ok i c ps → 0 ≤ n ≤ Z.of_nat fuel → 0 ≤ cur ≤ zlen (datas ps) →
  ∃ c', read_loop fuel i (raws ps) (refs ps) (zlen (datas ps)) c n cur acc =
        (c', Ok (acc ++ take (Z.to_nat n) (drop (Z.to_nat cur) (datas ps)),
                 if zlen (datas ps) <? cur + n then Some ErrEOF else None)) ∧ cache_ok i c' ps.
Proof.
  revert c n cur acc. induction fuel as [|fuel IH]; intros c n cur acc Hc Hok Hn Hcur.
  { exists c. assert (n = 0) as -> by lia. simpl.
    rewrite app_nil_r, (proj2 (Z.ltb_ge _ _)) by lia. done. }
  cbn [read_loop]. destruct (Z.leb_spec n 0).
  { exists c. assert (n = 0) as -> by lia.
    rewrite take_0, app_nil_r, (proj2 (Z.ltb_ge _ _)) by lia. done. }
  destruct (Z.leb_spec (zlen (datas ps)) cur).
  { exists c. rewrite (proj2 (Z.ltb_lt _ _)) by lia.
    rewrite drop_ge, take_nil, app_nil_r by (unfold zlen in *; lia). done. }
  destruct (findBlock_chain ps cur Hc) as (ps1 & p & ps2 & Hps & Hfb & Hst & Hk); [lia|].
  rewrite Hfb, Hps in *.
  destruct (copy_piece i c n ps1 p ps2 (cur - logicalStart (p_ref p)) Hc Hok Hk) as (c1 & Hcp & Hok1).
  rewrite Hcp. set (k := cur - logicalStart (p_ref p)) in *.
  set (d := take (Z.to_nat n) (drop (Z.to_nat k) (p_data p))).
  assert (Hsplit : drop (Z.to_nat cur) (datas (ps1 ++ p :: ps2)) =
    d ++ drop (Z.to_nat n) (drop (Z.to_nat k) (p_data p)) ++ datas ps2).
  { unfold d. rewrite app_assoc, take_drop. change (p :: ps2) with ([p] ++ ps2).
    rewrite !datas_app, datas_one.
    replace (Z.to_nat cur) with (length (datas ps1) + Z.to_nat k)%nat by (unfold k, zlen in *; lia).
    rewrite drop_app_add. apply drop_app_le. unfold zlen in Hk. lia. }
  assert (Hd : zlen d = Z.min n (zlen (p_data p) - k)).
  { unfold d, zlen. rewrite length_take, length_drop. unfold zlen in Hk. lia. }
  assert (Hle : cur + zlen (p_data p) - k ≤ zlen (datas (ps1 ++ p :: ps2))).
  { change (p :: ps2) with ([p] ++ ps2). rewrite !datas_app, datas_one, !zlen_app. pose_zlen. lia. }
  destruct (IH c1 (n - zlen d) (cur + zlen d) (acc ++ d) Hc Hok1) as (c' & -> & Hok'); [lia..|].
  exists c'. split; [|done]. f_equal. f_equal. f_equal.
  - rewrite <- app_assoc. f_equal.
    replace (Z.to_nat (cur + zlen d)) with (Z.to_nat cur + length d)%nat by (unfold zlen; lia).
    rewrite <- drop_drop, Hsplit, drop_app_length, (take_app d).
    rewrite (take_ge d) by (unfold zlen in *; lia). do 2 f_equal. unfold zlen. lia.
  - destruct (Z.ltb_spec (zlen (datas (ps1 ++ p :: ps2))) (cur + zlen d + (n - zlen d))),
      (Z.ltb_spec (zlen (datas (ps1 ++ p :: ps2))) (cur + n)); (done || lia).
Qed.

(** *** The logical bytes of a segment *)

(** [log_ok s d]: the segment's logical bytes are [d]. *)
Definition log_ok (s : segment) (d : bytes) : Prop :=
  if blockMode s then ∃ ps, describes s ps ∧ datas ps = d ∧ cache_ok (id s) (cache s) ps
  else backing s = d ∧ position s = zlen d.

(** What a read of [n] bytes at [off] returns from the bytes [d]. *)
Definition read_spec (d : bytes) (n off : Z) : bytes * option error :=
  (take (Z.to_nat n) (drop (Z.to_nat off) d),
   if zlen d <? off + n then Some ErrEOF else None).

Lemma read_at_spec d n off : 0 < n → 0 ≤ off → read_at d n off = read_spec d n off.
Proof.
  intros Hn Ho. unfold read_at, read_spec. rewrite (proj2 (Z.ltb_ge off 0)) by lia. f_equal.
  assert (Hz : zlen (take (Z.to_nat n) (drop (Z.to_nat off) d)) = Z.min n (Z.max 0 (zlen d - off))).
  { unfold zlen. rewrite length_take, length_drop. lia. }
  rewrite Hz. destruct (Z.ltb_spec (Z.min n (Z.max 0 (zlen d - off))) n),
    (Z.ltb_spec (zlen d) (off + n)); (done || lia).
Qed.

Lemma readBlocksCache_spec s ps c n off :
  describes s ps → cache_ok (id s) c ps → 0 < n → 0 ≤ off →
  ∃ c', readBlocksCache s c n off = (c', Ok (read_spec (datas ps) n off)) ∧
        cache_ok (id s) c' ps.
Proof.
  intros (Hm & Hc & Hb & Hbs & Hp & _) Hok Hn Ho. unfold readBlocksCache.
  rewrite (proj2 (Z.ltb_ge off 0)), Hb, Hbs, Hp by lia. unfold read_spec.
  destruct (Z.leb_spec (zlen (datas ps)) off).
  - exists c. rewrite (proj2 (Z.ltb_lt _ _)), drop_ge, take_nil by (unfold zlen in *; lia). done.
  - apply (read_loop_chain _ _ _ _ _ _ []); [done|done|lia|lia].
Qed.

Lemma ReadAt_spec s d n off :
  log_ok s d → closed s = false → 0 < n → 0 ≤ off →
  ∃ c, ReadAt s n off = (with_cache s c, Ok (read_spec d n off)) ∧ log_ok (with_cache s c) d.
Proof.
  intros Hs Hcl Hn Ho. unfold ReadAt, shutErrorLocked. rewrite Hcl. cbn [negb].
  unfold log_ok in *. cbn [with_cache blockMode]. destruct (blockMode s) eqn:Em; cbn [negb].
  - destruct Hs as (ps & Hd & <- & Hok).
    destruct (readBlocksCache_spec s ps (cache s) n off Hd Hok Hn Ho) as (c & -> & Hok').
    exists c. split; [done|]. exists ps. by destruct Hd as (? & ? & ? & ? & ? & ?).
  - destruct Hs as [<- Hp]. exists (cache s). rewrite read_at_spec by done.
    by destruct s.
Qed.

(** *** Appending *)

Lemma describes_append s ps p file :
  describes s ps → piece_ok p → physStart (p_ref p) = physPosition s →
  logicalStart (p_ref p) = position s → file = raws ps ++ p_raw p →
  describes (with_log s file (blocks s ++ [p_ref p]) (position s + zlen (p_data p))
               (physPosition s + zlen (p_raw p))) (ps ++ [p]).
Proof.
  intros (Hm & Hc & Hb & Hbs & Hp & Hph) Hpk Hps Hls ->. unfold describes.
  cbn [with_log blockMode backing blocks position physPosition].
  rewrite raws_app, datas_app, raws_one, datas_one, !zlen_app, <- Hp, <- Hph, Hbs.
  unfold refs. rewrite fmap_app. split_and!; try done. apply chain_app. split; [done|].
  simpl. rewrite !Z.add_0_l, <- Hp, <- Hph. done.
Qed.

Lemma cache_ok_more i c ps p : cache_ok i c ps → cache_ok i c (ps ++ [p]).
Proof. intros Hok E. destruct (Hok E) as (p' & Hp' & ?). exists p'. split; [apply elem_of_app; by left|done]. Qed.

Lemma noteWrittenLocked_ok s es :
  es ≠ [] →
  ∃ fo ft lo lt, noteWrittenLocked s es = Ok (with_bounds s fo ft lo lt ∅) ∧
    (firstOffset s ≠ -1 → fo = firstOffset s) ∧
    (∀ l, last es = Some l → lo = Z.max (lastOffset s) (e_Offset l)).
Proof.
  intros Hne. destruct es as [|e es]; [done|]. unfold noteWrittenLocked.
  replace (Prelude.index (e :: es) 0) with (Ok e) by done. rewrite bind_Ok.
  destruct (last (e :: es)) as [l|] eqn:El; [|by apply last_None in El].
  pose proof (blockv3.last_index _ _ El) as Hl.
  destruct (if firstOffset s =? -1 then _ else _) as [fo ft] eqn:E1. rewrite Hl, bind_Ok.
  destruct (if lastOffset s <? e_Offset l then _ else _) as [lo lt] eqn:E2.
  exists fo, ft, lo, lt. split; [done|]. split.
  - intros Hf. rewrite (proj2 (Z.eqb_neq _ _) Hf) in E1. by injection E1.
  - intros l' [= <-]. destruct (Z.ltb_spec (lastOffset s) (e_Offset l)); injection E2; lia.
Qed.

Lemma log_ok_bounds s d fo ft lo lt ws : log_ok s d → log_ok (with_bounds s fo ft lo lt ws) d.
Proof. done. Qed.

Lemma log_ok_dirty s d a b : log_ok s d → log_ok (with_dirty s a b) d.
Proof. done. Qed.

Lemma log_ok_index s d idx : log_ok s d → log_ok (with_index s idx) d.
Proof. done. Qed.

(** Appending the bytes of a block that decodes to [p_data p]. *)
Lemma appendBlockBytes_ok s d b p v fl :
  log_ok s d → blockMode s = true →
  let p := {| p_raw := b; p_ref := {| logicalStart := position s; logicalLen := zlen p;
                physStart := physPosition s; physLen := zlen b; Block.codec := v.1;
                records := v.2; version := fl.1; flags := fl.2 |}; p_data := p |} in
  piece_ok p →
  ∃ s', appendBlockBytes None s b v.1 (zlen (p_data p)) v.2 fl.1 fl.2 = (s', Ok ()) ∧
    log_ok s' (d ++ p_data p) ∧ blockMode s' = true ∧ closed s' = closed s ∧
    codec s' = codec s ∧ lastOffset s' = lastOffset s ∧ firstOffset s' = firstOffset s ∧
    sumBlockRecords (blocks s') = sumBlockRecords (blocks s) + v.2 ∧ Index s' = Index s ∧
    BaseOffset s' = BaseOffset s.
Proof.
  intros Hs Hm p0 Hp. unfold log_ok in Hs. rewrite Hm in Hs. destruct Hs as (ps & Hd & <- & Hok).
  unfold appendBlockBytes, file_write. eexists. split; [reflexivity|].
  split_and!; try done.
  - unfold log_ok. cbn [with_log blockMode]. rewrite Hm. exists (ps ++ [p0]). split_and!.
    + destruct Hd as (Hm' & Hc & Hb & Hbs & Hpos & Hph). rewrite Hb.
      by apply (describes_append s ps p0).
    + by rewrite datas_app, datas_one.
    + by apply cache_ok_more.
  - cbn [with_log blocks]. unfold sumBlockRecords. by rewrite foldl_app.
Qed.

End pieces.

Section laws.
Context `{CodecLaws}.

Definition codec_ok (s : segment) : Prop := 0 ≤ codec s ∧ Valid (codec s) = true.

Lemma block_of_ok c p r l q cc buf :
  0 ≤ c → Valid c = true → block_of c p r = (cc, buf) → 0 < zlen p < 2 ^ 32 → 0 < r < 2 ^ 32 →
  piece_ok {| p_raw := buf; p_ref := {| logicalStart := l; logicalLen := zlen p;
                physStart := q; physLen := zlen buf; Block.codec := cc; records := r;
                version := BlockFormatVersion; flags := 0 |}; p_data := p |}.
Proof.
  intros Hc HV Hb Hp Hr. unfold block_of in Hb.
  destruct (if zlen p <? Framing.compressMinBlock then _ else _) as [c' payload] eqn:E.
  injection Hb as <- <-. unfold piece_ok. cbn [p_raw p_ref p_data physLen logicalLen].
  split_and!; [done|done|lia|]. left. unfold v2_ok.
  cbn [p_raw p_ref p_data Block.codec records version flags].
  assert (Hst : 0 ≤ c' ∧ Valid c' = true ∧ zlen payload ≤ zlen p ∧ DecompressInto c' payload = Ok p).
  { destruct (zlen p <? _); [by injection E as <- <-|].
    destruct (zlen p <=? zlen (Compress c p)) eqn:E2; injection E as <- <-; [done|].
    reflect_hyps. split_and!; [done..|lia|]. by apply decompress_compress. }
  destruct Hst as (? & ? & ? & ?). pose proof (zlen_nonneg payload). split_and!; try done; try lia.
  exists payload. rewrite !uint_small by (unfold in_uint; lia). split_and!; [lia|done|done].
Qed.

Lemma write_ok s d ms es :
  log_ok s d → closed s = false → codec_ok s → es ≠ [] → zlen es < 2 ^ 32 → 0 < zlen ms < 2 ^ 32 →
  ∃ s', write None s ms es = (s', Ok ()) ∧ log_ok s' (d ++ ms) ∧ blockMode s' = blockMode s ∧
    closed s' = false ∧ codec s' = codec s ∧ Index s' = Index s ∧ waiters s' = ∅ ∧
    BaseOffset s' = BaseOffset s ∧
    (∀ l, last es = Some l → lastOffset s' = Z.max (lastOffset s) (e_Offset l)) ∧
    (firstOffset s ≠ -1 → firstOffset s' = firstOffset s) ∧
    (blockMode s = true → sumBlockRecords (blocks s') = sumBlockRecords (blocks s) + zlen es).
Proof.
  intros Hs Hcl Hcd Hne Hes Hms. unfold write. rewrite Hcl.
  assert (0 < zlen es) by (destruct es; [done|]; rewrite zlen_cons; pose_zlen; lia).
  rewrite (proj2 (Z.eqb_neq _ _)) by lia. cbv zeta. cbn [with_dirty blockMode].
  destruct (blockMode s) eqn:Em.
  - unfold appendBlock. destruct (block_of (codec _) ms (zlen es)) as [cc buf] eqn:Eb.
    destruct (appendBlockBytes_ok (with_dirty s true true) d buf ms (cc, zlen es)
      (BlockFormatVersion, 0)) as (s1 & Hw & Hl & Hm & Hc1 & Hc2 & Hlo & Hfo & Hsum & Hi & Hbo);
      [done|done|by eapply block_of_ok; [apply Hcd..|exact Eb|lia|cbn; lia]|].
    cbn [fst snd p_data] in *. rewrite Hw.
    destruct (noteWrittenLocked_ok s1 es Hne) as (fo & ft & lo & lt & -> & Hf & Hla).
    eexists. split; [done|]. cbn [with_bounds blockMode closed codec Index waiters BaseOffset lastOffset firstOffset blocks].
    rewrite Hm, Hc1, Hc2, Hi, Hbo, Hsum. rewrite Hlo in Hla. rewrite Hfo in Hf.
    split_and!; done.
  - unfold file_write. cbn [with_log with_dirty].
    unfold log_ok in Hs. rewrite Em in Hs. destruct Hs as [Hb Hp].
    edestruct (noteWrittenLocked_ok (with_log (with_dirty s true true) (backing s ++ ms) (blocks s)
      (position s + zlen ms) (physPosition s)) es Hne) as (fo & ft & lo & lt & E & Hf & Hla).
    cbn [with_log with_dirty backing blocks position physPosition] in E |- *. rewrite E.
    eexists. split; [done|].
    split_and!; try done. unfold log_ok. cbn. rewrite Em. by rewrite Hb, Hp, zlen_app.
Qed.

Lemma WriteMessageSet_ok f s d ms es :
  log_ok s d → closed s = false → codec_ok s → es ≠ [] → zlen es < 2 ^ 32 → 0 < zlen ms < 2 ^ 32 →
  let s' := (WriteMessageSet None f s ms es).1 in
  log_ok s' (d ++ ms) ∧ blockMode s' = blockMode s ∧ closed s' = false ∧ codec s' = codec s.
Proof.
  intros Hs Hcl Hcd Hne Hes Hms. unfold WriteMessageSet, index_write.
  destruct (write_ok s d ms es) as (s1 & -> & Hl & Hm & Hc1 & Hc2 & _); [done..|].
  destruct (Index.writeEntries _ _ _) as [idx r]. cbn [fst]. by rewrite <- Hm, <- Hc2.
Qed.

Lemma WriteMessageSet_refused f s d ms es :
  log_ok s d → closed s = false → es ≠ [] →
  let s' := (WriteMessageSet (Some 0) f s ms es).1 in
  log_ok s' d ∧ blockMode s' = blockMode s ∧ closed s' = false ∧ codec s' = codec s.
Proof.
  intros Hs Hcl Hne. unfold WriteMessageSet, write. rewrite Hcl.
  assert (zlen es ≠ 0) by (destruct es; [done|]; rewrite zlen_cons; pose_zlen; lia).
  rewrite (proj2 (Z.eqb_neq _ _)) by done. cbv zeta. cbn [with_dirty blockMode].
  unfold log_ok in *. destruct (blockMode s) eqn:Em.
  - unfold appendBlock, appendBlockBytes, file_write. destruct (block_of _ _ _) as [cc buf].
    cbn. rewrite app_nil_r, Em. done.
  - unfold file_write. cbn. by rewrite app_nil_r, Em.
Qed.

Lemma WriteBlock_ok f s d data h recs framing es :
  log_ok s d → closed s = false → blockMode s = true →
  blockv3.DecodeBlock data = Ok (h, recs) → Framing.decodeV3Block data = Ok framing →
  0 < zlen framing → es ≠ [] → zlen es = blockv3.Records h →
  let s' := (WriteBlock None f s data (blockv3.Codec h) (zlen framing) es).1 in
  log_ok s' (d ++ framing) ∧ blockMode s' = true ∧ closed s' = false ∧ codec s' = codec s.
Proof.
  intros Hs Hcl Hm Hdec Hfr Hz Hne Hr. unfold WriteBlock. rewrite Hcl.
  assert (zlen es ≠ 0) by (destruct es; [done|]; rewrite zlen_cons; pose_zlen; lia).
  rewrite (proj2 (Z.eqb_neq _ _)) by done. cbv zeta.
  apply blockv3.DecodeBlock_inv in Hdec as [Hok (p & -> & Hp & _)].
  assert (byte_at (blockv3.sealed (blockv3.fields h) ++ p) 1 = Ok blockv3.Version) as ->
    by (by destruct (sealed_head h) as [r ->]).
  rewrite Z.eqb_refl, blockv3.decode_sealed by done.
  destruct (appendBlockBytes_ok (with_dirty s true true) d (blockv3.sealed (blockv3.fields h) ++ p)
    framing (blockv3.Codec h, zlen es) (blockv3.Version, blockv3.Flags h))
    as (s1 & Hw & Hl & Hm1 & Hc1 & Hc2 & _); [done|done| |].
  { unfold piece_ok. cbn [p_raw p_ref p_data physLen logicalLen fst snd]. split_and!; try done.
    right. split; [done|]. exists h, p. by split_and!. }
  cbn [fst snd p_data] in *. rewrite Hw.
  destruct (noteWrittenLocked_ok s1 es Hne) as (fo & ft & lo & lt & -> & _).
  unfold index_write. destruct (Index.writeEntries _ _ _) as [idx r]. cbn. rewrite Hc1, Hc2.
  by split_and!.
Qed.

End laws.

(** ** What callers do with a segment *)

Inductive op :=
| OWrite (landed : bool) (f : Index.faults) (ms : bytes) (es : list entry)
| OWriteBlock (f : Index.faults) (data : bytes) (c logical : Z) (es : list entry)
| ORead (n off : Z).

Section ops.
Context `{CodecLib}.

(** The operations of the code.  A write lands whole or not at all here; the
    index write after it may fail. *)
Definition perform (s : segment) (o : op) : segment * list (bytes * option error) :=
  match o with
  | OWrite landed f ms es => ((WriteMessageSet (if landed then None else Some 0) f s ms es).1, [])
  | OWriteBlock f data c logical es => ((WriteBlock None f s data c logical es).1, [])
  | ORead n off =>
      match ReadAt s n off with
      | (s, Ok r) => (s, [r])
      | (s, _) => (s, [])
      end
  end.

Fixpoint perform_all (s : segment) (os : list op) : segment * list (bytes * option error) :=
  match os with
  | [] => (s, [])
  | o :: os => let '(s, r) := perform s o in
               let '(s, rs) := perform_all s os in (s, r ++ rs)
  end.

(** The abstract log: a byte string that writes extend and reads slice. *)
Definition spec (d : bytes) (o : op) : bytes * list (bytes * option error) :=
  match o with
  | OWrite landed _ ms _ => (if landed then d ++ ms else d, [])
  | OWriteBlock _ data _ _ _ =>
      (match Framing.decodeV3Block data with Ok framing => d ++ framing | _ => d end, [])
  | ORead n off => (d, [read_spec d n off])
  end.

Fixpoint spec_all (d : bytes) (os : list op) : bytes * list (bytes * option error) :=
  match os with
  | [] => (d, [])
  | o :: os => let '(d, r) := spec d o in
               let '(d, rs) := spec_all d os in (d, r ++ rs)
  end.

(** What the callers guarantee: sets and counts that fit their 32-bit fields,
    and version-3 blocks that decode, handed to a block segment with their own
    codec, length and record count. *)
Definition op_ok (mode : bool) (o : op) : Prop :=
  match o with
  | OWrite _ _ ms es => es ≠ [] ∧ zlen es < 2 ^ 32 ∧ 0 < zlen ms < 2 ^ 32
  | OWriteBlock _ data c logical es =>
      mode = true ∧ es ≠ [] ∧
      ∃ h recs framing, blockv3.DecodeBlock data = Ok (h, recs) ∧
        Framing.decodeV3Block data = Ok framing ∧ 0 < zlen framing ∧
        c = blockv3.Codec h ∧ logical = zlen framing ∧ zlen es = blockv3.Records h
  | ORead n off => 0 < n ∧ 0 ≤ off
  end.

End ops.

Lemma perform_refines `{CodecLaws} s d o :
  log_ok s d → closed s = false → codec_ok s → op_ok (blockMode s) o →
  (perform s o).2 = (spec d o).2 ∧ log_ok (perform s o).1 (spec d o).1 ∧
  blockMode (perform s o).1 = blockMode s ∧ closed (perform s o).1 = false ∧
  codec (perform s o).1 = codec s.
Proof.
  intros Hs Hcl Hcd Ho. destruct o as [[] f ms es|f data c logical es|n off]; simpl in Ho.
  - destruct Ho as (? & ? & ?). split; [done|]. by apply WriteMessageSet_ok.
  - destruct Ho as (? & _). split; [done|]. by apply WriteMessageSet_refused.
  - destruct Ho as (Hm & ? & h & recs & framing & Hd & Hf & ? & -> & -> & ?). split; [done|].
    cbn [perform spec fst]. rewrite Hf, Hm. by eapply WriteBlock_ok.
  - destruct Ho as [? ?]. cbn [perform spec fst snd].
    destruct (ReadAt_spec s d n off) as (c & -> & Hl); [done..|]. by split_and!.
Qed.

(** C14: A segment is a byte string.  For raw segments and for every codec, any
    sequence of appends (whose index write may fail), appends that fail before
    a byte lands, verbatim version-3 block appends and reads of any range
    returns for each read exactly the requested slice of the concatenation of
    the sets written so far, with io.EOF exactly when the slice is short; the
    block layout, the compression and the block cache are invisible. *)
Theorem segment_is_byte_string `{CodecLaws} s d os :
  log_ok s d → closed s = false → codec_ok s → Forall (op_ok (blockMode s)) os →
  (perform_all s os).2 = (spec_all d os).2 ∧ log_ok (perform_all s os).1 (spec_all d os).1.
Proof.
  revert s d. induction os as [|o os IH]; intros s d Hs Hcl Hcd Hos; [done|].
  apply Forall_cons in Hos as [Ho Hos].
  destruct (perform_refines s d o) as (Hr & Hl & Hm & Hc1 & Hc2); [done..|].
  cbn [perform_all spec_all]. destruct (perform s o) as [s1 r1], (spec d o) as [d1 r2].
  cbn [fst snd] in *. subst r2. destruct (IH s1 d1) as [Hrs Hl'];
    [done|done|unfold codec_ok in *; by rewrite Hc2|by rewrite Hm|].
  destruct (perform_all s1 os), (spec_all d1 os). cbn [fst snd] in *. by subst.
Qed.

(** Recovery after a crash in the middle of an append.  Opening a file that
    holds a block segment's blocks followed by any strict prefix of one more
    block (none of it, part of its header, part of its payload; version 2 or
    3) succeeds: the torn bytes are cut off, and the segment has the blocks,
    the sizes and the logical bytes it had before the append.  A block table
    beside the log is used or ignored without changing the answer, whether it
    is missing, current, or was written when the segment was shorter. *)
Theorem segment_reopens_after_crash `{CodecLib} s ps t side tabf i base maxB cdc fmt idx :
  describes s ps → torn t → backing s ++ t ≠ [] →
  zlen (datas ps) < 2 ^ 32 → zlen (raws ps) < 2 ^ 32 → own_table side ps →
  ∃ s', open_log false tabf i base maxB false true cdc fmt (backing s ++ t) side idx = Ok s' ∧
    blocks s' = blocks s ∧ backing s' = backing s ∧ position s' = position s ∧
    physPosition s' = physPosition s ∧ log_ok s' (datas ps) ∧
    droppedTornTail s' = bool_decide (t ≠ []).
Proof.
  intros (Hm & Hc & Hb & Hbs & Hp & Hph) Ht Hne Hd Hr Ho. rewrite Hb in *. unfold open_log.
  cbn [andb]. set (s0 := {| id := _ |}).
  destruct (initPositions_recovers s0 ps t) as (s1 & -> & Hs & Hca & Hdr & _); [done..|].
  rewrite bind_Ok. rewrite Hbs, Hp, Hph. destruct Hs as (Hm1 & Hc1 & Hb1 & Hbs1 & Hp1 & Hph1).
  eexists. split; [done|].
  assert (Hok : cache_ok (id s1) (cache s1) ps) by (by rewrite Hca).
  unfold log_ok. destruct (_ && _); cbn; rewrite Hm1; split_and!; try done; by exists ps.
Qed.

Lemma scan_damage `{CodecLib} fuel A ps x l acc e :
  chain l (zlen A) ps → (length ps < fuel)%nat → blockHeaderLen ≤ zlen x →
  byte_at x 1 ≠ Ok blockv3.Version → parseBlockHeader (take (Z.to_nat blockHeaderLen) x) = Fail e →
  scan_loop fuel (A ++ raws ps ++ x) (zlen (A ++ raws ps ++ x)) (zlen A) l acc = Fail e.
Proof.
  revert fuel A l acc. induction ps as [|p ps IH]; intros fuel A l acc Hc Hf Hx Hv He;
    (destruct fuel as [|fuel]; [simpl in Hf; lia|]).
  - unfold raws. cbn [fmap list_fmap concat app scan_loop]. rewrite zlen_app.
    rewrite (proj2 (Z.ltb_lt _ _)) by (unfold blockHeaderLen in *; lia). cbn [negb].
    rewrite (proj2 (Z.ltb_ge _ blockHeaderLen)) by lia.
    rewrite read_full_app, bind_Ok by (unfold blockHeaderLen in *; lia).
    destruct x as [|x0 [|x1 x]]; [done..|].
    replace (byte_at (take (Z.to_nat blockHeaderLen) (x0 :: x1 :: x)) 0)
      with (Ok (byte.unsigned x0)) by done.
    replace (byte_at (take (Z.to_nat blockHeaderLen) (x0 :: x1 :: x)) 1)
      with (Ok (byte.unsigned x1)) by done.
    rewrite !bind_Ok. replace (byte_at (x0 :: x1 :: x) 1) with (Ok (byte.unsigned x1)) in Hv by done.
    destruct (Z.eqb_spec (byte.unsigned x1) blockv3.Version); [congruence|].
    rewrite andb_false_r, He. done.
  - destruct Hc as (Hp & <- & Hs & Hc). unfold raws. cbn [fmap list_fmap concat]. fold (raws ps).
    rewrite <- app_assoc. fold (turn fuel A (p_raw p ++ raws ps ++ x) (logicalStart (p_ref p)) acc).
    rewrite turn_piece by done. rewrite !(app_assoc A), <- (zlen_app A). apply IH; try done.
    + by rewrite zlen_app.
    + simpl in Hf. lia.
Qed.

(** Damage is not mistaken for a torn append.  If after any number of whole
    blocks the file holds a complete block header that [parseBlockHeader]
    refuses, opening the segment fails with that refusal; nothing is cut off,
    however many bytes follow. *)
Theorem segment_refuses_damage `{CodecLib} ps x e tabf i base maxB cdc fmt idx :
  chain 0 0 ps → ps ≠ [] → blockHeaderLen ≤ zlen x → byte_at x 1 ≠ Ok blockv3.Version →
  parseBlockHeader (take (Z.to_nat blockHeaderLen) x) = Fail e →
  open_log false tabf i base maxB false true cdc fmt (raws ps ++ x) None idx = Fail e.
Proof.
  intros Hc Hne Hx Hv He. unfold open_log, initPositions. cbn [andb backing sidecar].
  destruct ps as [|p ps]; [done|]. pose proof (proj1 Hc) as Hp. apply piece_head in Hp as [r Hr].
  assert (E : raws (p :: ps) = byte.of_Z blockMagic :: (r ++ raws ps))
    by (unfold raws; cbn [fmap list_fmap concat]; by rewrite Hr).
  rewrite (proj2 (Z.eqb_neq _ 0)) by (rewrite zlen_app; unfold blockHeaderLen in *; pose_zlen; lia).
  replace (byte_at (raws (p :: ps) ++ x) 0) with (Ok blockMagic) by (by rewrite E).
  rewrite bind_Ok, Z.eqb_refl. cbn [loadLocalBlockTable]. rewrite bind_Ok.
  unfold scanBlocks. cbn [with_log backing].
  rewrite (scan_damage _ [] (p :: ps) x 0 [] e Hc); [done| |done..].
  apply chain_length in Hc. rewrite length_app. simpl in *. lia.
Qed.

Lemma zlen_entries_pos (es : list entry) : es ≠ [] → (zlen es =? 0) = false.
Proof.
  intros Hne. apply Z.eqb_neq. destruct es; [done|]. rewrite zlen_cons. pose_zlen. lia.
Qed.

Lemma write_raw `{CodecLib} s ms es :
  blockMode s = false → closed s = false → es ≠ [] →
  ∃ fo ft lo lt, write None s ms es =
    (with_bounds (with_log (with_dirty s true true) (backing s ++ ms) (blocks s)
                    (position s + zlen ms) (physPosition s)) fo ft lo lt ∅, Ok ()).
Proof.
  intros Hm Hcl Hne. unfold write. rewrite Hcl, zlen_entries_pos by done. cbv zeta.
  cbn [with_dirty blockMode]. rewrite Hm. cbn [file_write].
  cbn [with_dirty backing blocks position physPosition].
  edestruct noteWrittenLocked_ok as (fo & ft & lo & lt & E & _); [done|]. rewrite E.
  by exists fo, ft, lo, lt.
Qed.

Lemma write_raw_short `{CodecLib} s p k es :
  blockMode s = false → closed s = false → es ≠ [] →
  write (Some k) s p es =
  (with_log (with_dirty s true true) (backing s ++ take (Z.to_nat k) p) (blocks s)
     (position s) (physPosition s), Fail (ErrText "log write failed")).
Proof.
  intros Hm Hcl Hne. unfold write. rewrite Hcl, zlen_entries_pos by done. cbv zeta.
  cbn [with_dirty blockMode]. by rewrite Hm.
Qed.

(** A write that fails part way displaces everything after it.  When the
    file system takes the first [k] bytes of a set and then fails, the append
    is reported as failed and the raw segment's position stays; the next
    append succeeds, but its bytes lie [k] bytes further into the file than
    the position recorded for them, where the leftover of the failed append
    is read instead. *)
Theorem short_write_displaces_next_append `{CodecLib} s d p k es ms es' :
  log_ok s d → blockMode s = false → closed s = false → es ≠ [] → es' ≠ [] →
  0 < k ≤ zlen p → 0 < zlen ms →
  let r1 := write (Some k) s p es in
  let r2 := write None r1.1 ms es' in
  (∃ e, r1.2 = Fail e) ∧ r2.2 = Ok () ∧
  position r2.1 = zlen d + zlen ms ∧ backing r2.1 = d ++ take (Z.to_nat k) p ++ ms ∧
  (ReadAt r2.1 (zlen ms) (zlen d)).2 = Ok (take (length ms) (take (Z.to_nat k) p ++ ms), None).
Proof.
  intros Hs Hm Hcl He He' Hk Hms r1 r2. unfold log_ok in Hs. rewrite Hm in Hs.
  destruct Hs as [Hb Hp]. assert (E1 : r1 = _) by (by apply write_raw_short).
  destruct (write_raw r1.1 ms es') as (fo & ft & lo & lt & E2); [by rewrite E1..|done|].
  fold r2 in E2. rewrite E1 in E2. cbn [fst with_log with_dirty backing blocks position] in E2.
  rewrite E2, E1. cbn [fst snd with_bounds with_log with_dirty position backing].
  rewrite Hb, Hp, <- app_assoc.
  split_and!; try done; [by eexists|]. unfold ReadAt, shutErrorLocked. cbn. rewrite Hcl, Hm. cbn.
  rewrite read_at_spec by (done || apply zlen_nonneg). unfold read_spec.
  rewrite !to_nat_zlen, drop_app_length, !zlen_app.
  rewrite (proj2 (Z.ltb_ge _ _)); [done|]. pose_zlen. lia.
Qed.

(** *** Witnesses *)

Definition sample_idx : Index.index := Index.sample_index.

Definition fresh (cdc : Z) : segment :=
  match @open_log half_lib false false 7 4100 (Z.shiftl 1 20) true false cdc BlockFormatVersion
          [] None sample_idx with
  | Ok s => s
  | _ => emptySegment 7 4100 0 cdc sample_idx
  end.

Definition sample_entry (o pos size : Z) : entry :=
  {| e_Offset := o; e_Timestamp := 9; e_LeaderEpoch := 1; e_Position := pos; e_Size := size |}.

Definition sample_set : bytes := replicate 5000 (byte.of_Z 65).

Definition sample_ops : list op := [
  OWrite true Index.no_faults sample_set [sample_entry 4100 0 5000];
  ORead 10 4995;
  OWrite false Index.no_faults sample_set [sample_entry 4101 5000 5000];
  OWriteBlock Index.no_faults blockv3.sample_block (blockv3.Codec blockv3.sample_decoded.1)
    (zlen Framing.sample_framing) [sample_entry 4101 5000 40; sample_entry 4104 5040 40];
  ORead 4 4998; ORead 100 4990 ].

Lemma fresh_ok cdc : cdc = CZstd → @log_ok half_lib (fresh cdc) [] ∧ codec_ok (fresh cdc).
Proof. intros ->. split; [|done]. exists []. by split_and!. Qed.

Lemma segment_is_byte_string_witness :
  (@perform_all half_lib (fresh CZstd) sample_ops).2 =
  (@spec_all half_lib [] sample_ops).2.
Proof.
  refine (proj1 (@segment_is_byte_string half_lib half_laws (fresh CZstd) [] sample_ops _ _ _ _)).
  - by apply fresh_ok.
  - reflexivity.
  - by apply fresh_ok.
  - repeat (apply Forall_cons; split); [..|by apply Forall_nil].
    + split_and!; [done|by vm_compute..].
    + split; lia.
    + split_and!; [done|by vm_compute..].
    + split; [reflexivity|]. split; [done|].
      exists blockv3.sample_decoded.1, blockv3.sample_decoded.2, Framing.sample_framing.
      split; [rewrite blockv3.sample_decodes; by destruct blockv3.sample_decoded|].
      split; [by vm_compute|]. split; [by vm_compute|]. split; [done|]. split; [done|].
      by vm_compute.
    + split; lia.
    + split; lia.
Defined.

(** The block [appendBlock] stores for a set. *)
Definition piece_of `{CodecLib} (l q cdc r : Z) (ms : bytes) : piece :=
  {| p_raw := (block_of cdc ms r).2; p_data := ms;
     p_ref := {| logicalStart := l; logicalLen := zlen ms; physStart := q;
                 physLen := zlen (block_of cdc ms r).2; Block.codec := (block_of cdc ms r).1;
                 records := r; version := BlockFormatVersion; flags := 0 |} |}.

Lemma piece_of_ok `{CodecLaws} l q cdc r ms :
  0 ≤ cdc → Valid cdc = true → 0 < zlen ms < 2 ^ 32 → 0 < r < 2 ^ 32 →
  piece_ok (piece_of l q cdc r ms).
Proof. intros Hc HV Hm Hr. by apply (block_of_ok cdc); [..|apply surjective_pairing| |]. Qed.

Definition sample_piece : piece := @piece_of half_lib 0 0 CZstd 3 sample_set.

Lemma sample_piece_ok : @piece_ok half_lib sample_piece.
Proof. apply (@piece_of_ok half_lib half_laws); [done|done|by vm_compute|done]. Qed.

Lemma sample_chain : @chain half_lib 0 0 [sample_piece].
Proof. split; [apply sample_piece_ok|]. split; [done|]. split; [done|exact I]. Qed.

Definition sample_segment : segment :=
  with_log (fresh CZstd) (raws [sample_piece]) (refs [sample_piece])
    (zlen (datas [sample_piece])) (zlen (raws [sample_piece])).

Lemma segment_reopens_after_crash_witness :
  ∃ s', @open_log half_lib false true 8 4100 100 false true CZstd 2
          (backing sample_segment ++ take 20 (p_raw sample_piece)) (Some (encodeBlockTable []))
          sample_idx = Ok s' ∧
    blocks s' = blocks sample_segment ∧ backing s' = backing sample_segment ∧
    droppedTornTail s' = true.
Proof.
  destruct (@segment_reopens_after_crash half_lib sample_segment [sample_piece]
    (take 20 (p_raw sample_piece)) (Some (encodeBlockTable [])) true 8 4100 100 CZstd 2 sample_idx)
    as (s' & E & Hb & Hf & _ & _ & _ & Hd).
  - split_and!; try reflexivity. apply sample_chain.
  - right. exists sample_piece, (drop 20 (p_raw sample_piece)).
    split; [apply sample_piece_ok|]. split; [by rewrite take_drop|]. by vm_compute.
  - by vm_compute.
  - by vm_compute.
  - by vm_compute.
  - right. exists 0%nat. reflexivity.
  - exists s'. split; [exact E|]. split; [exact Hb|]. split; [exact Hf|].
    rewrite Hd. vm_compute. reflexivity.
Defined.

Lemma segment_refuses_damage_witness :
  @open_log half_lib false true 8 4100 100 false true CZstd 2
    (raws [sample_piece] ++ replicate 40 (byte.of_Z 193)) None sample_idx = Fail ErrBlockFormat.
Proof.
  apply (@segment_refuses_damage half_lib).
  - apply sample_chain.
  - done.
  - by vm_compute.
  - by vm_compute.
  - by vm_compute.
Defined.

Lemma short_write_displaces_next_append_witness :
  let d := Framing.sample_framing in
  let s := with_log (fresh CNone) d [] (zlen d) (zlen d) in
  let r1 := @write half_lib (Some 3) s (replicate 8 (byte.of_Z 1)) [sample_entry 4102 0 8] in
  let r2 := @write half_lib None r1.1 (replicate 8 (byte.of_Z 2)) [sample_entry 4102 0 8] in
  r2.2 = Ok () ∧
  (@ReadAt half_lib r2.1 8 (zlen d)).2 ≠ Ok (replicate 8 (byte.of_Z 2), None).
Proof.
  intros d s r1 r2.
  destruct (@short_write_displaces_next_append half_lib s d (replicate 8 (byte.of_Z 1)) 3
    [sample_entry 4102 0 8] (replicate 8 (byte.of_Z 2)) [sample_entry 4102 0 8])
    as (_ & H2 & _ & _ & Hr).
  - split; reflexivity.
  - reflexivity.
  - reflexivity.
  - done.
  - done.
  - split; [lia|by vm_compute].
  - by vm_compute.
  - split; [exact H2|]. change (zlen (replicate 8 (byte.of_Z 2))) with 8 in Hr.
    unfold r2, r1. rewrite Hr. vm_compute. discriminate.
Defined.

End Segment.
