(* ===== verification/SegmentIndex.v ===== *)
(** * Opening a segment's index: the second half of recovery in segment.go

    [setupIndex], the reconciliation of an index with the log beside it, and
    the frame walks they use.  The walks advance by a length read from the
    log, so they are given fuel; [None] is a walk that has not come to an end
    within it. *)

From Stdlib Require Import ZArith Lia.
From stdpp Require Import base list numbers strings gmap sorting.
From coqutil Require Import Byte.
From S2P Require Import Prelude GoStd Wire Compress BlockV3 Block Framing Index Segment.

Open Scope Z_scope.

Module SegmentIndex.
Import Segment.

(** The header fields every walk reads. *)
Definition frame_fields (hdr : bytes) : outcome (Z * Z * Z * Z) :=
  o ← messageSet.Offset hdr;
  t ← messageSet.Timestamp hdr;
  ep ← messageSet.LeaderEpoch hdr;
  size ← messageSet.Size hdr;
  Ok (o, t, ep, size).

(** ** The raw walk *)

(** The loop of [reconcileIndexTailRaw]: where it stopped, and whether inside
    a frame. *)
Fixpoint raw_walk (fuel : nat) (f : Index.faults) (s : segment) (startPos : Z)
    : option (outcome (segment * Z * bool)) :=
  match fuel with
  | O => None
  | S fuel =>
      if negb (startPos <? position s) then Some (Ok (s, startPos, false))
      else if position s <? startPos + msgSetHeaderLen then Some (Ok (s, startPos, true))
      else
        match (hdr ← read_full (backing s) msgSetHeaderLen startPos; frame_fields hdr) with
        | Fail e => Some (Fail e)
        | Panic => Some Panic
        | Ok (o, t, ep, size) =>
            let frameLen := msgSetHeaderLen + size in
            if position s <? startPos + frameLen then Some (Ok (s, startPos, true))
            else
              let e := {| e_Offset := o; e_Timestamp := t; e_LeaderEpoch := ep;
                          e_Position := startPos; e_Size := sint 32 frameLen |} in
              match index_write f s [e] with
              | (s, Ok _) =>
                  let '(fo, ft) := if firstOffset s =? -1 then (o, t)
                                   else (firstOffset s, firstWriteTime s) in
                  raw_walk fuel f (with_bounds s fo ft o t (waiters s)) (startPos + frameLen)
              | (_, Fail e) => Some (Fail e)
              | (_, Panic) => Some Panic
              end
        end
  end.

Definition reconcileIndexTailRaw (fuel : nat) (f : Index.faults) (tf : bool) (s : segment)
    (committedThrough : Z) : option (outcome segment) :=
  let n := Index.numEntries (Index s) in
  let start :=
    if 0 <? n
    then last ← Index.ReadEntryAtFileOffset (Index s) ((n - 1) * Index.entryWidth);
         Ok (Index.Position last + Index.Size last)
    else Ok 0 in
  match start with
  | Fail e => Some (Fail e)
  | Panic => Some Panic
  | Ok startPos =>
      match raw_walk fuel f s startPos with
      | None => None
      | Some (Fail e) => Some (Fail e)
      | Some Panic => Some Panic
      | Some (Ok (s, startPos, torn)) =>
          if negb torn then Some (Ok s)
          else if (BaseOffset s <=? committedThrough) && (lastOffset s <? committedThrough)
          then Some (Fail (ErrText "refusing to discard a torn tail below the high watermark"))
          else Some (file ← discardTornTail tf (backing s) startPos;
                     Ok (with_log s file (blocks s) startPos startPos))
      end
  end.

Section codecs.
Context `{CodecLib}.

(** ** Frames inside blocks *)

(** The loop of [lastFrameInBlock], [pos] bytes into the block. *)
Fixpoint last_frame (fuel : nat) (data : bytes) (start pos : Z) (last : option entry)
    : option (outcome (option entry)) :=
  match fuel with
  | O => None
  | S fuel =>
      if zlen data <? pos + msgSetHeaderLen then Some (Ok last)
      else
        match (m ← slice_from data pos; frame_fields m) with
        | Fail e => Some (Fail e)
        | Panic => Some Panic
        | Ok (o, t, ep, size) =>
            let e := {| e_Offset := o; e_Timestamp := t; e_LeaderEpoch := ep;
                        e_Position := start + pos;
                        e_Size := sint 32 (size + msgSetHeaderLen) |} in
            last_frame fuel data start (pos + msgSetHeaderLen + size) (Some e)
        end
  end.

Definition lastFrameInBlock (fuel : nat) (s : segment) (start : Z) : option (outcome entry) :=
  match findBlock (blocks s) start with
  | None => Some (Fail ErrIndexCorrupt)
  | Some blk =>
      match decodeBlock (backing s) blk with
      | Fail e => Some (Fail e)
      | Panic => Some Panic
      | Ok data =>
          match last_frame fuel data (logicalStart blk) (start - logicalStart blk) None with
          | None => None
          | Some (Ok (Some e)) => Some (Ok e)
          | Some (Ok None) => Some (Fail ErrIndexCorrupt)
          | Some (Fail e) => Some (Fail e)
          | Some Panic => Some Panic
          end
      end
  end.

(** The loop of [reconcileIndexTailBlocks] over the blocks without an anchor. *)
Fixpoint anchor_blocks (f : Index.faults) (s : segment) (bs : list blockRef) : outcome segment :=
  match bs with
  | [] => Ok s
  | blk :: bs =>
      data ← decodeBlock (backing s) blk;
      if zlen data <? msgSetHeaderLen then Ok s
      else
        '(o, t, ep, size) ← frame_fields data;
        let anchor := {| e_Offset := o; e_Timestamp := t; e_LeaderEpoch := ep;
                         e_Position := logicalStart blk;
                         e_Size := sint 32 (msgSetHeaderLen + size) |} in
        match index_write f s [anchor] with
        | (s, Ok _) =>
            let '(fo, ft) := if firstOffset s =? -1 then (o, t)
                             else (firstOffset s, firstWriteTime s) in
            anchor_blocks f (with_bounds s fo ft (lastOffset s) (lastWriteTime s) (waiters s)) bs
        | (_, Fail e) => Fail e
        | (_, Panic) => Panic
        end
  end.

Definition reconcileIndexTailBlocks (fuel : nat) (f : Index.faults) (s : segment)
    : option (outcome segment) :=
  let anchored := Index.numEntries (Index s) in
  if zlen (blocks s) <=? anchored then Some (Ok s)
  else
    match anchor_blocks f s (drop (Z.to_nat anchored) (blocks s)) with
    | Fail e => Some (Fail e)
    | Panic => Some Panic
    | Ok s =>
        match last (blocks s) with
        | None => Some Panic
        | Some b =>
            match lastFrameInBlock fuel s (logicalStart b) with
            | None => None
            | Some (Fail e) => Some (Fail e)
            | Some Panic => Some Panic
            | Some (Ok e) =>
                Some (Ok (with_bounds s (firstOffset s) (firstWriteTime s) (e_Offset e)
                            (e_Timestamp e) (waiters s)))
            end
        end
    end.

Definition reconcileIndexTail (fuel : nat) (f : Index.faults) (tf : bool) (s : segment)
    (committedThrough : Z) : option (outcome segment) :=
  let before := Index.numEntries (Index s) in
  let r := if blockMode s then reconcileIndexTailBlocks fuel f s
           else reconcileIndexTailRaw fuel f tf s committedThrough in
  match r with
  | Some (Ok s) =>
      Some (Ok (if Index.numEntries (Index s) =? before
                then with_dirty s (dirtyData s) false else s))
  | r => r
  end.

(** ** Opening the index *)

Definition indexOvershootsLog (s : segment) (last : Index.entry) : bool :=
  if blockMode s then position s <=? Index.Position last
  else position s <? Index.Position last + Index.Size last.

Definition frameOffsetAt (s : segment) (pos : Z) : option Z :=
  let hdr :=
    if blockMode s then
      match findBlock (blocks s) pos with
      | None => Fail ErrIndexCorrupt
      | Some blk =>
          data ← decodeBlock (backing s) blk;
          let at_ := pos - logicalStart blk in
          if (at_ <? 0) || (zlen data <? at_ + msgSetHeaderLen) then Fail ErrIndexCorrupt
          else slice data at_ (at_ + msgSetHeaderLen)
      end
    else read_full (backing s) msgSetHeaderLen pos in
  match (h ← hdr; messageSet.Offset h) with Ok o => Some o | _ => None end.

(** The loop of [indexDescribesLog] from entry [n - 1] down. *)
Fixpoint describes_from (n : nat) (s : segment) : bool :=
  match n with
  | O => false
  | S n =>
      match Index.ReadEntryAtFileOffset (Index s) (Z.of_nat n * Index.entryWidth) with
      | Ok e =>
          if position s <? Index.Position e + Index.Size e then describes_from n s
          else bool_decide (frameOffsetAt s (Index.Position e) = Some (Index.Offset e))
      | _ => false
      end
  end.

Definition indexDescribesLog (s : segment) : bool :=
  describes_from (Z.to_nat (Index.numEntries (Index s))) s.

Definition rebuildOverIndex (s : segment) : bool :=
  if droppedTornTail s then true
  else if negb (blockMode s) then true
  else negb (indexDescribesLog s).

Definition rebuildIndexFromLog (fuel : nat) (f : Index.faults) (tf : bool) (s : segment)
    : option (outcome segment) :=
  match Index.reset (Index s) with
  | (_, Fail e) => Some (Fail e)
  | (_, Panic) => Some Panic
  | (idx, Ok _) =>
      reconcileIndexTail fuel f tf (with_bounds (with_index s idx) (-1) 0 (-1) 0 (waiters s)) (-1)
  end.

(** [setupIndex] over the index file's content. *)
Definition setupIndex (fuel : nat) (f : Index.faults) (tf : bool) (s : segment) (content : bytes)
    : option (outcome segment) :=
  match (idx ← Index.newIndex f (BaseOffset s) 0 content; Index.InitializePosition idx) with
  | Fail e => Some (Fail e)
  | Panic => Some Panic
  | Ok (idx, lastEntry) =>
      let s := with_index s idx in
      match lastEntry with
      | None => Some (Ok s)
      | Some last =>
          if indexOvershootsLog s last && rebuildOverIndex s
          then rebuildIndexFromLog fuel f tf s
          else
            match Index.ReadEntryAtFileOffset idx 0 with
            | Fail e => Some (Fail e)
            | Panic => Some Panic
            | Ok first =>
                let bounds lo lt :=
                  with_bounds s (Index.Offset first) (Index.Timestamp first) lo lt (waiters s) in
                if blockMode s then
                  match lastFrameInBlock fuel s (Index.Position last) with
                  | None => None
                  | Some (Ok e) => Some (Ok (bounds (e_Offset e) (e_Timestamp e)))
                  | Some (Fail e) => Some (Fail e)
                  | Some Panic => Some Panic
                  end
                else Some (Ok (bounds (Index.Offset last) (Index.Timestamp last)))
            end
      end
  end.

(** What [open] does with a local segment: [newSegmentWith], then the
    reconciliation of its index tail. *)
Definition reopen (fuel : nat) (f : Index.faults) (tf tabf : bool) (i base maxB cdc fmt : Z)
    (file : bytes) (side : option bytes) (idx0 : Index.index) (content : bytes)
    (committedThrough : Z) : option (outcome segment) :=
  match open_log tf tabf i base maxB false true cdc fmt file side idx0 with
  | Fail e => Some (Fail e)
  | Panic => Some Panic
  | Ok s =>
      match setupIndex fuel f tf s content with
      | Some (Ok s) => reconcileIndexTail fuel f tf s committedThrough
      | r => r
      end
  end.

End codecs.

(** ** Frames *)

(** A frame of the log and the entry it is indexed with. *)
Record frm := { f_off : Z; f_ts : Z; f_ep : Z; f_data : bytes }.

Definition fbytes (f : frm) : bytes :=
  frame_header (f_off f) (f_ts f) (f_ep f) (zlen (f_data f)) ++ f_data f.

Definition fs_bytes (fs : list frm) : bytes := concat (fbytes <$> fs).

Definition fentry (pos : Z) (f : frm) : Index.entry :=
  {| Index.Offset := f_off f; Index.Timestamp := f_ts f; Index.Position := pos;
     Index.Size := zlen (fbytes f) |}.

Fixpoint fentries (pos : Z) (fs : list frm) : list Index.entry :=
  match fs with
  | [] => []
  | f :: fs => fentry pos f :: fentries (pos + zlen (fbytes f)) fs
  end.

Definition rels_of (base pos : Z) (fs : list frm) : list Index.relEntry :=
  (λ e, Index.newRelEntry e base) <$> fentries pos fs.

(** A frame of a segment with this base offset. *)
Definition frm_ok (base : Z) (f : frm) : Prop :=
  0 ≤ base ≤ f_off f ∧ f_off f - base < 2 ^ 31 ∧ f_off f < 2 ^ 63 ∧
  in_sint 64 (f_ts f) ∧ in_uint 64 (f_ep f) ∧ zlen (fbytes f) < 2 ^ 31.

(** What a crash leaves after whole frames. *)
Definition torn_frame (base : Z) (t : bytes) : Prop :=
  t = [] ∨ ∃ f u, frm_ok base f ∧ fbytes f = t ++ u ∧ u ≠ [].

Lemma zlen_fbytes f : zlen (fbytes f) = 32 + zlen (f_data f).
Proof. unfold fbytes. by rewrite zlen_app, zlen_frame_header. Qed.

Lemma frm_ok_fields base f rest :
  frm_ok base f →
  frame_fields (frame_header (f_off f) (f_ts f) (f_ep f) (zlen (f_data f)) ++ rest) =
  Ok (f_off f, f_ts f, f_ep f, zlen (f_data f)).
Proof.
  intros (Hb & Ho & Ho' & Ht & He & Hz). rewrite zlen_fbytes in Hz. pose proof (zlen_nonneg (f_data f)).
  destruct (frame_header_fields (f_off f) (f_ts f) (f_ep f) (zlen (f_data f)) rest)
    as (E1 & E2 & E3 & E4); [unfold in_sint; lia|done|done|unfold in_sint; lia|].
  unfold frame_fields. by rewrite E1, bind_Ok, E2, bind_Ok, E3, bind_Ok, E4, bind_Ok.
Qed.

Lemma fentry_representable base pos f :
  frm_ok base f → 0 ≤ pos < 2 ^ 31 → Index.representable base (fentry pos f).
Proof.
  intros (Hb & Ho & Ho' & Ht & He & Hz) Hp. unfold Index.representable, fentry.
  cbn [Index.Offset Index.Timestamp Index.Position Index.Size]. unfold in_sint in *.
  pose proof (zlen_nonneg (fbytes f)). repeat split; lia.
Qed.

Lemma fentries_app pos a b :
  fentries pos (a ++ b) = fentries pos a ++ fentries (pos + zlen (fs_bytes a)) b.
Proof.
  revert pos. induction a as [|f a IH]; intros pos.
  - unfold fs_bytes. simpl. by rewrite zlen_nil, Z.add_0_r.
  - cbn [app fentries]. rewrite IH. unfold fs_bytes. cbn [fmap list_fmap concat].
    by rewrite zlen_app, Z.add_assoc.
Qed.

Lemma length_fentries pos fs : length (fentries pos fs) = length fs.
Proof. revert pos. induction fs; intros pos; simpl; congruence. Qed.

Lemma rels_of_app base pos a b :
  rels_of base pos (a ++ b) = rels_of base pos a ++ rels_of base (pos + zlen (fs_bytes a)) b.
Proof. unfold rels_of. by rewrite fentries_app, fmap_app. Qed.

Lemma fs_bytes_app a b : fs_bytes (a ++ b) = fs_bytes a ++ fs_bytes b.
Proof. unfold fs_bytes. by rewrite fmap_app, concat_app. Qed.

Lemma fs_bytes_cons f fs : fs_bytes (f :: fs) = fbytes f ++ fs_bytes fs.
Proof. done. Qed.

Lemma length_fs_bytes fs : (length fs ≤ length (fs_bytes fs))%nat.
Proof.
  induction fs as [|f fs IH]; [done|]. rewrite fs_bytes_cons, length_app. simpl.
  pose proof (zlen_fbytes f). pose proof (zlen_nonneg (f_data f)). unfold zlen in *. lia.
Qed.

(** *** The raw walk reads frames *)

(** The header of the frame that starts at [zlen A]. *)
Lemma read_frame base A f t u :
  frm_ok base f → fbytes f = t ++ u → msgSetHeaderLen ≤ zlen t →
  (hdr ← read_full (A ++ t) msgSetHeaderLen (zlen A); frame_fields hdr) =
  Ok (f_off f, f_ts f, f_ep f, zlen (f_data f)).
Proof.
  intros Hf Hu Ht. unfold msgSetHeaderLen in *. rewrite read_full_app, bind_Ok by lia.
  change (Z.to_nat 32) with 32%nat. rewrite <- (take_app_le t u), <- Hu by (unfold zlen in Ht; lia).
  unfold fbytes. rewrite take_app_length' by (pose proof (zlen_frame_header (f_off f) (f_ts f)
    (f_ep f) (zlen (f_data f))); unfold zlen in *; lia).
  rewrite <- (app_nil_r (frame_header _ _ _ _)). by apply (frm_ok_fields base).
Qed.

Lemma raw_walk_torn fuel fl s A t base :
  backing s = A ++ t → position s = zlen (A ++ t) → torn_frame base t →
  raw_walk (S fuel) fl s (zlen A) = Some (Ok (s, zlen A, bool_decide (t ≠ []))).
Proof.
  intros Hb Hp Ht. cbn [raw_walk]. rewrite Hp, zlen_app. destruct (decide (t = [])) as [->|Hne].
  { by rewrite (proj2 (Z.ltb_ge _ _)) by (rewrite zlen_nil; lia). }
  destruct Ht as [->|(f & u & Hf & Hu & Hu0)]; [done|].
  rewrite bool_decide_eq_true_2 by done.
  assert (0 < zlen t) by (destruct t; [done|]; rewrite zlen_cons; pose_zlen; lia).
  assert (0 < zlen u) by (destruct u; [done|]; rewrite zlen_cons; pose_zlen; lia).
  rewrite (proj2 (Z.ltb_lt _ _)) by lia. cbn [negb].
  destruct (Z.ltb_spec (zlen A + zlen t) (zlen A + msgSetHeaderLen)); [done|].
  rewrite Hb, (read_frame base A f t u) by (done || lia).
  pose proof (f_equal zlen Hu) as Hz. rewrite zlen_fbytes, zlen_app in Hz. unfold msgSetHeaderLen.
  by rewrite (proj2 (Z.ltb_lt _ _)) by lia.
Qed.

(** The segment after indexing frames: an index and the offset bounds. *)
Definition indexed (s : segment) (idx : Index.index) (fo ft lo lt : Z) : segment :=
  with_bounds (with_index s idx) fo ft lo lt (waiters s).

Definition first_off (s : segment) (fs : list frm) : Z :=
  if firstOffset s =? -1 then default (-1) (f_off <$> head fs) else firstOffset s.

Definition last_off (s : segment) (fs : list frm) : Z :=
  default (lastOffset s) (f_off <$> last fs).

Definition first_ts (s : segment) (fs : list frm) : Z :=
  if firstOffset s =? -1 then default (firstWriteTime s) (f_ts <$> head fs) else firstWriteTime s.

Definition last_ts (s : segment) (fs : list frm) : Z :=
  default (lastWriteTime s) (f_ts <$> last fs).

(** What opening and recovery leave as it was. *)
Definition config (s : segment) : Z * Z * Z * Z * Z * bool * bool :=
  (id s, BaseOffset s, maxBytes s, codec s, format s, sealed s, left s).

Lemma indexed_twice s i a b c d i' a' b' c' d' :
  indexed (indexed s i a b c d) i' a' b' c' d' = indexed s i' a' b' c' d'.
Proof. done. Qed.

(** The bounds after indexing one frame. *)
Definition step_first (s : segment) (f : frm) : Z * Z :=
  if firstOffset s =? -1 then (f_off f, f_ts f) else (firstOffset s, firstWriteTime s).

Lemma first_step base s f fs idx lo lt :
  frm_ok base f →
  let s' := indexed s idx (step_first s f).1 (step_first s f).2 lo lt in
  first_off s' fs = first_off s (f :: fs) ∧ first_ts s' fs = first_ts s (f :: fs).
Proof.
  intros ((Hb & Ho) & _). unfold first_off, first_ts, step_first.
  cbn [indexed with_bounds firstOffset firstWriteTime].
  destruct (Z.eqb_spec (firstOffset s) (-1)) as [|Hn]; simpl.
  - by rewrite (proj2 (Z.eqb_neq _ _)) by lia.
  - by rewrite (proj2 (Z.eqb_neq _ _) Hn).
Qed.

Lemma last_step s f fs idx fo ft :
  let s' := indexed s idx fo ft (f_off f) (f_ts f) in
  last_off s' fs = last_off s (f :: fs) ∧ last_ts s' fs = last_ts s (f :: fs).
Proof.
  unfold last_off, last_ts. cbn [indexed with_bounds lastOffset lastWriteTime].
  destruct fs as [|f' fs]; [done|].
  rewrite last_cons_cons. destruct (last (f' :: fs)) eqn:El; [done|by apply last_None in El].
Qed.

Lemma raw_walk_step fuel s A f rest base rels :
  backing s = A ++ fbytes f ++ rest → position s = zlen (backing s) → frm_ok base f →
  zlen A < 2 ^ 31 → Index.rep (Index s) rels → Index.baseOffset (Index s) = base →
  ∃ idx, raw_walk (S fuel) Index.no_faults s (zlen A) =
      raw_walk fuel Index.no_faults
        (indexed s idx (step_first s f).1 (step_first s f).2 (f_off f) (f_ts f))
        (zlen A + zlen (fbytes f)) ∧
    Index.rep idx (rels ++ rels_of base (zlen A) [f]) ∧ Index.covered idx ∧
    Index.baseOffset idx = base.
Proof.
  intros Hb Hp Hf HA Hr Hbase. pose proof (zlen_fbytes f) as Hzf.
  assert (Hz : position s = zlen A + zlen (fbytes f) + zlen rest).
  { rewrite Hp, Hb, !zlen_app. lia. }
  pose proof (zlen_nonneg (f_data f)). pose proof (zlen_nonneg rest). pose proof (zlen_nonneg A).
  cbn [raw_walk]. unfold msgSetHeaderLen at 1 3.
  rewrite (proj2 (Z.ltb_lt _ _)) by lia. cbn [negb]. rewrite (proj2 (Z.ltb_ge _ _)) by lia.
  assert (Hread : (hdr ← read_full (backing s) msgSetHeaderLen (zlen A); frame_fields hdr) =
    Ok (f_off f, f_ts f, f_ep f, zlen (f_data f))).
  { rewrite Hb. unfold fbytes. rewrite <- app_assoc, read_full_mid, bind_Ok
      by (by rewrite ?zlen_frame_header).
    rewrite <- (app_nil_r (frame_header _ _ _ _)). by apply (frm_ok_fields base). }
  rewrite Hread. rewrite (proj2 (Z.ltb_ge _ _)) by (unfold msgSetHeaderLen; lia).
  unfold index_write. cbn [fmap list_fmap]. set (e := index_entry _).
  assert (He : e = fentry (zlen A) f).
  { unfold e, fentry, index_entry. cbn. f_equal. unfold msgSetHeaderLen. rewrite Hzf.
    apply sint_nonneg; [lia|]. destruct Hf as (_ & _ & _ & _ & _ & Hl). lia. }
  destruct (Index.writeEntries_one (Index s) rels e) as (idx & -> & Hrep & Hcov & Hbo);
    [done|rewrite He, Hbase; by apply fentry_representable|].
  exists idx. rewrite He, Hbase in Hrep. rewrite Hbase in Hbo. split; [|done].
  cbn [with_index firstOffset firstWriteTime]. unfold msgSetHeaderLen, step_first. rewrite <- Hzf.
  by destruct (firstOffset s =? -1).
Qed.

Lemma raw_walk_frames fuel s A fs t base rels :
  backing s = A ++ fs_bytes fs ++ t → position s = zlen (backing s) →
  Forall (frm_ok base) fs → torn_frame base t → zlen A + zlen (fs_bytes fs) < 2 ^ 31 →
  Index.rep (Index s) rels → Index.covered (Index s) → Index.baseOffset (Index s) = base →
  (length fs < fuel)%nat → 
  ∃ idx, raw_walk fuel Index.no_faults s (zlen A) =
      Some (Ok (indexed s idx (first_off s fs) (first_ts s fs) (last_off s fs) (last_ts s fs),
                zlen A + zlen (fs_bytes fs), bool_decide (t ≠ []))) ∧
    Index.rep idx (rels ++ rels_of base (zlen A) fs) ∧ Index.covered idx ∧
    Index.baseOffset idx = base.
Proof.
  revert fuel s A rels. induction fs as [|f fs IH]; intros fuel s A rels Hb Hp Hfs Ht Hz Hr Hc Hbase Hfuel;
    (destruct fuel as [|fuel]; [simpl in Hfuel; lia|]).
  - exists (Index s).
    assert (E0 : fs_bytes [] = []) by done. rewrite E0 in *. rewrite zlen_nil, Z.add_0_r.
    rewrite (raw_walk_torn fuel _ s A t base); [|done|by rewrite Hp, Hb|done].
    unfold rels_of. cbn [fentries fmap list_fmap]. rewrite app_nil_r. split; [|done].
    unfold first_off, last_off, first_ts, last_ts.
    cbn [head last default fmap option_fmap option_map].
    assert (E : (if firstOffset s =? -1 then -1 else firstOffset s) = firstOffset s).
    { destruct (Z.eqb_spec (firstOffset s) (-1)); [congruence|done]. }
    assert (E' : (if firstOffset s =? -1 then firstWriteTime s else firstWriteTime s) =
      firstWriteTime s) by (by destruct (_ =? _)).
    simpl. rewrite E, E'. unfold indexed, with_bounds, with_index. simpl. by destruct s.
  - apply Forall_cons in Hfs as [Hf Hfs]. rewrite fs_bytes_cons, <- app_assoc in *.
    rewrite zlen_app in *. pose proof (zlen_nonneg (fs_bytes fs)). pose proof (zlen_nonneg (fbytes f)).
    destruct (raw_walk_step fuel s A f (fs_bytes fs ++ t) base rels) as (idx1 & -> & Hr1 & Hc1 & Hb1);
      [done..|lia|done|done|].
    set (s1 := indexed s idx1 _ _ _ _). rewrite <- zlen_app.
    destruct (IH fuel s1 (A ++ fbytes f) (rels ++ rels_of base (zlen A) [f])) as (idx & -> & Hr' & Hc' & Hb');
      [by rewrite <- app_assoc|done|done|done|rewrite zlen_app; lia|done|done|done|simpl in Hfuel; lia|].
    exists idx. split; [|split; [|done]].
    + rewrite zlen_app, Z.add_assoc. do 4 f_equal.
      destruct (first_step base s f fs idx1 (f_off f) (f_ts f) Hf) as [E1 E2].
      destruct (last_step s f fs idx1 (step_first s f).1 (step_first s f).2) as [E3 E4].
      unfold s1. by rewrite indexed_twice, E1, E2, E3, E4.
    + rewrite <- app_assoc, zlen_app in Hr'. change (f :: fs) with ([f] ++ fs).
      rewrite rels_of_app. unfold fs_bytes at 1. cbn [fmap list_fmap concat]. by rewrite app_nil_r.
Qed.

Lemma last_rel idx base d f :
  Index.rep idx (rels_of base 0 (d ++ [f])) → Index.covered idx → Index.baseOffset idx = base →
  frm_ok base f → zlen (fs_bytes d) < 2 ^ 31 →
  Index.ReadEntryAtFileOffset idx ((Index.numEntries idx - 1) * Index.entryWidth) =
  Ok (fentry (zlen (fs_bytes d)) f).
Proof.
  intros Hr Hc Hb Hf Hz. pose proof (Index.rep_count _ _ Hr) as Hn.
  change (Index.CountEntries idx) with (Index.numEntries idx) in Hn. rewrite Hn.
  rewrite rels_of_app, Z.add_0_l in *. rewrite zlen_app.
  replace (zlen (rels_of base 0 d) + zlen (rels_of base (zlen (fs_bytes d)) [f]) - 1)
    with (Z.of_nat (length (rels_of base 0 d))).
  2: { change (zlen (rels_of base (zlen (fs_bytes d)) [f])) with 1. unfold zlen. lia. }
  fold (Index.ReadEntryAtLogOffset idx (Z.of_nat (length (rels_of base 0 d)))).
  rewrite (Index.rep_read idx _ _ (Index.newRelEntry (fentry (zlen (fs_bytes d)) f) base) Hr Hc).
  - rewrite Hb, Index.fill_newRelEntry; [done|]. apply fentry_representable; [done|].
    pose proof (zlen_nonneg (fs_bytes d)). lia.
  - by rewrite lookup_app_r, Nat.sub_diag by done.
Qed.

(** Where the walk starts: after the last indexed frame. *)
Lemma walk_start s base d :
  Index.rep (Index s) (rels_of base 0 d) → Index.covered (Index s) →
  Index.baseOffset (Index s) = base → Forall (frm_ok base) d → zlen (fs_bytes d) < 2 ^ 31 →
  (if 0 <? Index.numEntries (Index s)
   then last ← Index.ReadEntryAtFileOffset (Index s)
                 ((Index.numEntries (Index s) - 1) * Index.entryWidth);
        Ok (Index.Position last + Index.Size last)
   else Ok 0) = Ok (zlen (fs_bytes d)).
Proof.
  intros Hr Hc Hb Hd Hz. destruct (decide (d = [])) as [->|Hne].
  - pose proof (Index.rep_count _ _ Hr) as Hn. change (Index.CountEntries (Index s)) with
      (Index.numEntries (Index s)) in Hn. by rewrite Hn.
  - destruct (exists_last Hne) as (d' & f & ->). apply Forall_app in Hd as [_ Hf].
    apply Forall_cons in Hf as [Hf _]. rewrite fs_bytes_app, zlen_app in Hz.
    pose proof (zlen_nonneg (fs_bytes [f])).
    rewrite (last_rel _ base d' f), bind_Ok by (done || lia).
    pose proof (Index.rep_count _ _ Hr) as Hn. change (Index.CountEntries (Index s)) with
      (Index.numEntries (Index s)) in Hn. rewrite Hn, rels_of_app, zlen_app.
    change (zlen (rels_of base _ [f])) with 1. rewrite (proj2 (Z.ltb_lt _ _)) by (pose_zlen; lia).
    cbn [fentry Index.Position Index.Size]. rewrite fs_bytes_app, zlen_app. f_equal. f_equal.
    unfold fs_bytes. simpl. by rewrite app_nil_r.
Qed.

Lemma reconcileIndexTailRaw_frames fuel s base d fs t ct :
  backing s = fs_bytes (d ++ fs) ++ t → position s = zlen (backing s) →
  Forall (frm_ok base) (d ++ fs) → torn_frame base t → zlen (fs_bytes (d ++ fs)) < 2 ^ 31 →
  Index.rep (Index s) (rels_of base 0 d) → Index.covered (Index s) →
  Index.baseOffset (Index s) = base → BaseOffset s = base → (length fs < fuel)%nat →
  (t ≠ [] → base ≤ ct → ct ≤ last_off s fs) →
  ∃ idx n, reconcileIndexTailRaw fuel Index.no_faults false s ct =
      Some (Ok (with_log (indexed s idx (first_off s fs) (first_ts s fs) (last_off s fs) (last_ts s fs))
                  (fs_bytes (d ++ fs)) (blocks s) (zlen (fs_bytes (d ++ fs))) n)) ∧
    Index.rep idx (rels_of base 0 (d ++ fs)) ∧ Index.covered idx ∧ Index.baseOffset idx = base.
Proof.
  intros Hb Hp Hfs Ht Hz Hr Hc Hbase HB Hfuel Hct. apply Forall_app in Hfs as [Hd Hfs].
  rewrite fs_bytes_app, zlen_app in Hz. pose proof (zlen_nonneg (fs_bytes fs)).
  unfold reconcileIndexTailRaw. rewrite (walk_start s base d) by (done || lia).
  rewrite fs_bytes_app, <- app_assoc in Hb.
  destruct (raw_walk_frames fuel s (fs_bytes d) fs t base (rels_of base 0 d))
    as (idx & -> & Hr' & Hc' & Hb'); [done..|].
  exists idx. rewrite <- (Z.add_0_l (zlen (fs_bytes d))) in Hr'. rewrite <- rels_of_app in Hr'.
  rewrite fs_bytes_app, zlen_app. case_bool_decide as Htn; cbn [negb].
  - exists (zlen (fs_bytes d) + zlen (fs_bytes fs)). split; [|done].
    cbn [indexed with_bounds with_index BaseOffset lastOffset].
    destruct ((BaseOffset s <=? ct) && (last_off s fs <? ct)) eqn:E.
    { reflect_hyps. specialize (Hct Htn). lia. }
    unfold discardTornTail. rewrite bind_Ok. cbn [backing indexed with_bounds with_index].
    rewrite Hb, app_assoc, <- zlen_app, to_nat_zlen, take_app_length. done.
  - subst t. exists (physPosition s). split; [|done].
    rewrite app_nil_r in Hb. rewrite <- Hb, <- zlen_app, <- Hb, <- Hp. done.
Qed.

Lemma reconcileIndexTailRaw_refuses fuel s base d fs t ct :
  backing s = fs_bytes (d ++ fs) ++ t → position s = zlen (backing s) →
  Forall (frm_ok base) (d ++ fs) → torn_frame base t → zlen (fs_bytes (d ++ fs)) < 2 ^ 31 →
  Index.rep (Index s) (rels_of base 0 d) → Index.covered (Index s) →
  Index.baseOffset (Index s) = base → BaseOffset s = base → (length fs < fuel)%nat →
  t ≠ [] → base ≤ ct → last_off s fs < ct →
  reconcileIndexTailRaw fuel Index.no_faults false s ct =
  Some (Fail (ErrText "refusing to discard a torn tail below the high watermark")).
Proof.
  intros Hb Hp Hfs Ht Hz Hr Hc Hbase HB Hfuel Htn Hct Hlt. apply Forall_app in Hfs as [Hd Hfs].
  rewrite fs_bytes_app, zlen_app in Hz. pose proof (zlen_nonneg (fs_bytes fs)).
  unfold reconcileIndexTailRaw. rewrite (walk_start s base d) by (done || lia).
  rewrite fs_bytes_app, <- app_assoc in Hb.
  destruct (raw_walk_frames fuel s (fs_bytes d) fs t base (rels_of base 0 d))
    as (idx & -> & _); [done..|].
  rewrite bool_decide_eq_true_2 by done. cbn [negb indexed with_bounds with_index BaseOffset lastOffset].
  rewrite HB. by rewrite (proj2 (Z.leb_le _ _)), (proj2 (Z.ltb_lt _ _)) by lia.
Qed.

(** *** Opening a raw segment *)

Lemma frame_head base f : frm_ok base f →
  ∃ b r, fbytes f = b :: r ∧ byte.unsigned b ≠ blockMagic.
Proof.
  intros ((Hb & Ho) & _ & Hlt & _). unfold fbytes, frame_header. cbn [BigEndian.put app].
  eexists _, _. split; [reflexivity|]. rewrite uint_small by (unfold in_uint; lia).
  change (2 ^ (8 * Z.of_nat 7)) with (2 ^ 56).
  assert (Hq : 0 ≤ f_off f / 2 ^ 56 < 128).
  { split; [apply Z.div_pos; lia|]. apply Z.div_lt_upper_bound; lia. }
  rewrite unsigned_of_Z_small by (unfold in_uint; lia). unfold blockMagic. lia.
Qed.

Lemma raw_head base fs t :
  Forall (frm_ok base) fs → torn_frame base t → fs_bytes fs ++ t ≠ [] →
  ∃ b, byte_at (fs_bytes fs ++ t) 0 = Ok b ∧ b ≠ blockMagic.
Proof.
  intros Hfs Ht Hne.
  assert (∃ b r, fs_bytes fs ++ t = b :: r ∧ byte.unsigned b ≠ blockMagic) as (b & r & -> & Hb).
  { destruct fs as [|f fs].
    - destruct Ht as [->|(f & u & Hf & Hu & _)]; [done|]. change (fs_bytes []) with (@nil byte) in *.
      apply frame_head in Hf as (b & r & Hf & Hb). rewrite Hf in Hu.
      destruct t as [|b' t]; [done|]. injection Hu as <- _. by eexists _, _.
    - apply Forall_cons in Hfs as [Hf _]. apply frame_head in Hf as (b & r & Hf & Hb).
      rewrite fs_bytes_cons, Hf. by eexists _, _. }
  exists (byte.unsigned b). done.
Qed.

Lemma open_log_raw `{CodecLib} tf tabf i base maxB cdc fmt file side idx b :
  byte_at file 0 = Ok b → b ≠ blockMagic →
  ∃ s, open_log tf tabf i base maxB false true cdc fmt file side idx = Ok s ∧
    backing s = file ∧ position s = zlen file ∧ blockMode s = false ∧ BaseOffset s = base ∧
    firstOffset s = -1 ∧ lastOffset s = -1 ∧ droppedTornTail s = false ∧ closed s = false ∧
    blocks s = [] ∧ physPosition s = zlen file ∧ firstWriteTime s = 0 ∧ lastWriteTime s = 0 ∧
    config s = (i, base, maxB, cdc, fmt, false, false).
Proof.
  intros Hb Hm. unfold open_log, initPositions. cbn [andb backing].
  destruct (Z.eqb_spec (zlen file) 0) as [E|E]; [by destruct file|].
  rewrite Hb, bind_Ok, (proj2 (Z.eqb_neq _ _) Hm), bind_Ok. cbn. by eexists.
Qed.

Lemma fentry_not_empty base pos f :
  frm_ok base f → 0 ≤ pos < 2 ^ 31 →
  Index.empty_entry (Index.fill (Index.newRelEntry (fentry pos f) base) base) = false.
Proof.
  intros Hf Hp. rewrite Index.fill_newRelEntry by (by apply fentry_representable).
  unfold Index.empty_entry, fentry. cbn [Index.Position Index.Timestamp Index.Size].
  rewrite zlen_fbytes, (proj2 (Z.eqb_neq (32 + _) 0)) by (pose_zlen; lia). apply andb_false_r.
Qed.

Lemma rels_of_all (P : Index.relEntry → Prop) base pos fs :
  Forall (frm_ok base) fs → 0 ≤ pos → pos + zlen (fs_bytes fs) < 2 ^ 31 →
  (∀ q f, frm_ok base f → 0 ≤ q < 2 ^ 31 → P (Index.newRelEntry (fentry q f) base)) →
  Forall P (rels_of base pos fs).
Proof.
  intros Hfs Hp Hz HP. revert pos Hp Hz. induction Hfs as [|f fs Hf Hfs IH]; intros pos Hp Hz;
    [by apply Forall_nil|].
  rewrite fs_bytes_cons, zlen_app in Hz. pose proof (zlen_nonneg (fbytes f)).
  pose proof (zlen_nonneg (fs_bytes fs)). pose proof (zlen_fbytes f). pose proof (zlen_nonneg (f_data f)).
  unfold rels_of. cbn [fentries fmap list_fmap]. apply Forall_cons. split.
  - apply HP; [done|]. lia.
  - apply IH; lia.
Qed.

(** The index beside the log: entries for its first frames, then zeros. *)
Definition index_file (base : Z) (d : list frm) (k : nat) : bytes :=
  Index.content (rels_of base 0 d) ++ replicate (20 * k) (byte.of_Z 0).

Lemma last_rels_of base d :
  last (rels_of base 0 d) =
  match last d with
  | None => None
  | Some f => Some (Index.newRelEntry (fentry (zlen (fs_bytes d) - zlen (fbytes f)) f) base)
  end.
Proof.
  destruct (decide (d = [])) as [->|Hne]; [done|]. destruct (exists_last Hne) as (d' & f & ->).
  rewrite rels_of_app, last_snoc. change (rels_of base _ [f]) with
    [Index.newRelEntry (fentry (0 + zlen (fs_bytes d')) f) base]. rewrite last_snoc.
  rewrite fs_bytes_app, zlen_app. unfold fs_bytes at 3. cbn [fmap list_fmap concat].
  rewrite app_nil_r. do 3 f_equal. lia.
Qed.

Lemma last_frm base d :
  Forall (frm_ok base) d → zlen (fs_bytes d) < 2 ^ 31 →
  ∀ f, last d = Some f → frm_ok base f ∧ 0 ≤ zlen (fs_bytes d) - zlen (fbytes f) < 2 ^ 31.
Proof.
  intros Hd Hz f Hf. destruct (decide (d = [])) as [->|Hne]; [done|].
  destruct (exists_last Hne) as (d' & f' & ->). rewrite last_snoc in Hf. injection Hf as <-.
  apply Forall_app in Hd as [_ Hf]. apply Forall_cons in Hf as [Hf _]. split; [done|].
  rewrite fs_bytes_app, zlen_app in *. change (fs_bytes [f']) with (fbytes f' ++ []) in *.
  rewrite app_nil_r in *. pose proof (zlen_nonneg (fs_bytes d')).
  pose proof (zlen_nonneg (fbytes f')). lia.
Qed.

Lemma index_opens base d k :
  Forall (frm_ok base) d → zlen (fs_bytes d) < 2 ^ 31 → (0 < length d + k)%nat →
  ∃ idx, (idx ← Index.newIndex Index.no_faults base 0 (index_file base d k);
          Index.InitializePosition idx) =
         Ok (idx, match last d with
                  | None => None
                  | Some f => Some (fentry (zlen (fs_bytes d) - zlen (fbytes f)) f)
                  end) ∧
    Index.rep idx (rels_of base 0 d) ∧ Index.covered idx ∧ Index.baseOffset idx = base.
Proof.
  intros Hd Hz Hk.
  assert (Hok : Forall Index.rel_ok (rels_of base 0 d)).
  { apply rels_of_all; [done|lia|lia|]. intros q f Hf Hq.
    by apply Index.newRelEntry_ok, fentry_representable. }
  pose proof (last_rels_of base d) as Hl. pose proof (last_frm base d Hd Hz) as Hlast.
  destruct (Index.InitializePosition_spec base (10 * 1024 * 1024) (rels_of base 0 d) k)
    as (idx & idx' & Hnew & Hinit & Hr & Hc & Hb & _).
  - by vm_compute.
  - unfold rels_of. rewrite length_fmap, length_fentries. done.
  - done.
  - apply rels_of_all; [done|lia|lia|]. intros q f Hf Hq. by apply fentry_not_empty.
  - intros r Hr. rewrite Hl in Hr. destruct (last d) as [f|]; [|done]. injection Hr as <-.
    destruct (Hlast f eq_refl) as [Hf Hp].
    rewrite Index.fill_newRelEntry by (by apply fentry_representable).
    cbn [fentry Index.Offset]. apply Hf.
  - exists idx'. split; [|done].
    change (Index.newIndex Index.no_faults base 0 (index_file base d k)) with
      (Index.newIndex Index.no_faults base (10 * 1024 * 1024) (index_file base d k)).
    unfold index_file. rewrite Hnew, bind_Ok, Hinit, Hl. destruct (last d) as [f|]; [|done].
    destruct (Hlast f eq_refl) as [Hf Hp]. cbn [fmap option_fmap option_map].
    by rewrite Index.fill_newRelEntry by (by apply fentry_representable).
Qed.

(** ** Recovery of a raw segment *)

Definition head_off (fs : list frm) : Z := default (-1) (f_off <$> head fs).
Definition tail_off (fs : list frm) : Z := default (-1) (f_off <$> last fs).
Definition head_ts (fs : list frm) : Z := default 0 (f_ts <$> head fs).
Definition tail_ts (fs : list frm) : Z := default 0 (f_ts <$> last fs).

Definition bounds_hold (s : segment) (fs : list frm) : Prop :=
  firstOffset s = head_off fs ∧ lastOffset s = tail_off fs ∧
  firstWriteTime s = head_ts fs ∧ lastWriteTime s = tail_ts fs.

(** A raw segment that holds the frames [fs] and indexes every one of them. *)
Definition recovered (base : Z) (fs : list frm) (s : segment) : Prop :=
  backing s = fs_bytes fs ∧ position s = zlen (fs_bytes fs) ∧ blockMode s = false ∧
  closed s = false ∧ BaseOffset s = base ∧ bounds_hold s fs ∧
  Index.rep (Index s) (rels_of base 0 fs) ∧
  Index.covered (Index s) ∧ Index.baseOffset (Index s) = base.

(** A raw segment whose index covers its first frames [d]. *)
Definition behind (base : Z) (d : list frm) (file : bytes) (s : segment) : Prop :=
  backing s = file ∧ position s = zlen file ∧ blockMode s = false ∧ closed s = false ∧
  BaseOffset s = base ∧ bounds_hold s d ∧ Index.rep (Index s) (rels_of base 0 d) ∧ Index.covered (Index s) ∧
  Index.baseOffset (Index s) = base.

Lemma bounds_extend base s d fs :
  Forall (frm_ok base) d → bounds_hold s d →
  first_off s fs = head_off (d ++ fs) ∧ last_off s fs = tail_off (d ++ fs) ∧
  first_ts s fs = head_ts (d ++ fs) ∧ last_ts s fs = tail_ts (d ++ fs).
Proof.
  intros Hd (H1 & H2 & H3 & H4). unfold first_off, last_off, first_ts, last_ts.
  unfold head_off, tail_off, head_ts, tail_ts in *. rewrite H1, H2, H3, H4, last_app.
  destruct d as [|f d]; [by destruct (last fs)|].
  apply Forall_cons in Hd as [((? & ?) & _) _]. simpl.
  rewrite (proj2 (Z.eqb_neq _ _)) by lia. by destruct (last fs).
Qed.

Section codecs2.
Context `{CodecLib}.

Lemma reconcile_recovers fuel s base d fs t ct :
  behind base d (fs_bytes (d ++ fs) ++ t) s → Forall (frm_ok base) (d ++ fs) →
  torn_frame base t → zlen (fs_bytes (d ++ fs)) < 2 ^ 31 → (length fs < fuel)%nat →
  (t ≠ [] → base ≤ ct → ct ≤ tail_off (d ++ fs)) →
  ∃ s', reconcileIndexTail fuel Index.no_faults false s ct = Some (Ok s') ∧
    recovered base (d ++ fs) s' ∧ config s' = config s.
Proof.
  intros (Hb & Hp & Hm & Hcl & HB & Hbd & Hr & Hc & Hbase) Hfs Ht Hz Hfuel Hct.
  unfold reconcileIndexTail. rewrite Hm.
  assert (Hd : Forall (frm_ok base) d) by (by apply Forall_app in Hfs as [? _]).
  destruct (bounds_extend base s d fs Hd Hbd) as (E1 & E2 & E3 & E4).
  destruct (reconcileIndexTailRaw_frames fuel s base d fs t ct) as (idx & n & -> & Hr' & Hc' & Hb');
    [done|by rewrite Hp, Hb|done..|by rewrite E2|]. rewrite E1, E2, E3, E4.
  eexists. split; [done|]. unfold recovered. by destruct (_ =? _); split_and!.
Qed.

Lemma setupIndex_behind fuel s base d k file :
  backing s = file → position s = zlen file → blockMode s = false → closed s = false →
  BaseOffset s = base → (d = [] → bounds_hold s []) → Forall (frm_ok base) d →
  zlen (fs_bytes d) < 2 ^ 31 → zlen (fs_bytes d) ≤ zlen file → (0 < length d + k)%nat →
  ∃ s', setupIndex fuel Index.no_faults false s (index_file base d k) = Some (Ok s') ∧
    behind base d file s' ∧ config s' = config s.
Proof.
  intros Hb Hp Hm Hcl HB Hbd Hd Hz Hle Hk. unfold setupIndex. rewrite HB.
  destruct (index_opens base d k Hd Hz Hk) as (idx & -> & Hr & Hc & Hbase).
  destruct (last d) as [f|] eqn:El.
  - destruct (last_frm base d Hd Hz f El) as [Hf Hpos].
    assert (Eo : indexOvershootsLog (with_index s idx)
      (fentry (zlen (fs_bytes d) - zlen (fbytes f)) f) = false).
    { unfold indexOvershootsLog. cbn [with_index blockMode position fentry Index.Position Index.Size].
      rewrite Hm, Hp. apply Z.ltb_ge. lia. }
    rewrite Eo. cbn [andb]. destruct d as [|f0 d]; [done|].
    assert (Hf0 : frm_ok base f0) by (by apply Forall_cons in Hd as [? _]).
    change (Index.ReadEntryAtFileOffset idx 0) with (Index.ReadEntryAtLogOffset idx (Z.of_nat 0)).
    rewrite (Index.rep_read idx _ 0 _ Hr Hc eq_refl), Hbase, Index.fill_newRelEntry
      by (apply fentry_representable; [done|lia]).
    cbn [with_index blockMode]. rewrite Hm. eexists. split; [done|].
    unfold behind, bounds_hold, head_off, tail_off, head_ts, tail_ts. rewrite El. by split_and!.
  - apply last_None in El as ->. specialize (Hbd eq_refl). eexists. split; [done|]. by split_and!.
Qed.

(** An index that reaches past its log is thrown away and derived again. *)
Lemma setupIndex_rebuilds fuel s base fs g gs k t :
  let d := fs ++ g :: gs in
  backing s = fs_bytes fs ++ t → position s = zlen (fs_bytes fs ++ t) → blockMode s = false →
  closed s = false → BaseOffset s = base → Forall (frm_ok base) d → torn_frame base t →
  zlen (fs_bytes d) < 2 ^ 31 → zlen t < zlen (fbytes g) → (length fs < fuel)%nat →
  ∃ s', setupIndex fuel Index.no_faults false s (index_file base d k) = Some (Ok s') ∧
    recovered base fs s' ∧ config s' = config s.
Proof.
  intros d Hb Hp Hm Hcl HB Hd Ht Hz Hlt Hfuel. unfold setupIndex. rewrite HB.
  destruct (index_opens base d k Hd Hz) as (idx & -> & Hr & Hc & Hbase);
    [unfold d; rewrite length_app; simpl; lia|].
  destruct (last d) as [f|] eqn:El; [|apply last_None in El; by destruct fs].
  assert (Eo : indexOvershootsLog (with_index s idx)
    (fentry (zlen (fs_bytes d) - zlen (fbytes f)) f) = true).
  { unfold indexOvershootsLog. cbn [with_index blockMode position fentry Index.Position Index.Size].
    rewrite Hm, Hp. apply Z.ltb_lt. unfold d. rewrite fs_bytes_app, fs_bytes_cons, !zlen_app.
    pose proof (zlen_nonneg (fs_bytes gs)). lia. }
  assert (Er : rebuildOverIndex (with_index s idx) = true).
  { unfold rebuildOverIndex. cbn [with_index droppedTornTail blockMode]. rewrite Hm.
    by destruct (droppedTornTail s). }
  rewrite Eo, Er. cbn [andb]. unfold rebuildIndexFromLog. cbn [with_index Index].
  destruct (Index.reset_spec idx _ Hr Hc) as (idx' & -> & Hr' & Hc' & Hb').
  apply Forall_app in Hd as [Hfs Hg]. apply Forall_cons in Hg as [((Hg0 & _) & _) _].
  destruct (reconcile_recovers fuel (with_bounds (with_index (with_index s idx) idx') (-1) 0 (-1) 0
    (waiters s)) base [] fs t (-1)) as (s' & E & Hs' & Hcf).
  - split_and!; try done. cbn. congruence.
  - done.
  - done.
  - unfold d in Hz. rewrite fs_bytes_app, zlen_app in Hz.
    pose proof (zlen_nonneg (fs_bytes (g :: gs))). simpl. lia.
  - done.
  - intros _ ?. lia.
  - by exists s'.
Qed.

Lemma recovered_behind base fs s : recovered base fs s → behind base fs (fs_bytes (fs ++ []) ++ []) s.
Proof. unfold recovered, behind. by rewrite !app_nil_r. Qed.

(** Where the index names frames that the log has lost, a torn tail is cut
    whatever was committed: the index is derived again with no offset to protect. *)
Lemma overshoot_cuts_committed fuel tabf i base maxB cdc fmt fs g gs t k side idx0 ct :
  Forall (frm_ok base) (fs ++ g :: gs) → torn_frame base t → fs_bytes fs ++ t ≠ [] →
  zlen (fs_bytes (fs ++ g :: gs)) < 2 ^ 31 → zlen t < zlen (fbytes g) → (length fs < fuel)%nat →
  ∃ s, reopen fuel Index.no_faults false tabf i base maxB cdc fmt (fs_bytes fs ++ t) side idx0
         (index_file base (fs ++ g :: gs) k) ct = Some (Ok s) ∧ recovered base fs s ∧
       config s = (i, base, maxB, cdc, fmt, false, false).
Proof.
  intros Hd Ht Hne Hz Hlt Hfuel. unfold reopen.
  assert (Hfs : Forall (frm_ok base) fs) by (by apply Forall_app in Hd as [? _]).
  assert (Hzf : zlen (fs_bytes fs) < 2 ^ 31).
  { rewrite fs_bytes_app, zlen_app in Hz. pose proof (zlen_nonneg (fs_bytes (g :: gs))). lia. }
  destruct (raw_head base fs t Hfs Ht Hne) as (b & Hb & Hbm).
  destruct (open_log_raw false tabf i base maxB cdc fmt (fs_bytes fs ++ t) side idx0 b Hb Hbm)
    as (s & -> & Hbk & Hp & Hm & HB & _ & _ & _ & Hcl & _ & _ & _ & _ & Hcf).
  destruct (setupIndex_rebuilds fuel s base fs g gs k t) as (s1 & -> & Hs1 & Hcf1); [done..|].
  destruct (reconcile_recovers fuel s1 base fs [] [] ct) as (s2 & -> & Hs2 & Hcf2);
    [by apply recovered_behind|by rewrite app_nil_r|by left|by rewrite app_nil_r|simpl; lia|done|].
  exists s2. rewrite app_nil_r in Hs2. by rewrite Hcf2, Hcf1.
Qed.

End codecs2.


(** C38: The high watermark is a floor.  If the whole frames of a torn raw
    segment, the index of which describes some of the first of them and nothing
    else, end below an offset that was committed at or above the segment's base,
    opening fails instead of cutting the log.  An index that reaches past its log
    has no such protection: [overshoot_cuts_committed]. *)
Theorem committed_tail_not_discarded `{CodecLib}
    fuel tabf i base maxB cdc fmt d fs t k side idx0 ct :
  Forall (frm_ok base) (d ++ fs) → torn_frame base t → t ≠ [] →
  zlen (fs_bytes (d ++ fs)) < 2 ^ 31 → (0 < length d + k)%nat → (length fs < fuel)%nat →
  base ≤ ct → tail_off (d ++ fs) < ct →
  reopen fuel Index.no_faults false tabf i base maxB cdc fmt (fs_bytes (d ++ fs) ++ t) side idx0
    (index_file base d k) ct =
  Some (Fail (ErrText "refusing to discard a torn tail below the high watermark")).
Proof.
  intros Hfs Ht Htn Hz Hk Hfuel Hct Hlt. unfold reopen.
  assert (Hne : fs_bytes (d ++ fs) ++ t ≠ []) by (intros E; by apply app_nil in E as [_ ?]).
  destruct (raw_head base _ t Hfs Ht Hne) as (b & Hb & Hbm).
  destruct (open_log_raw false tabf i base maxB cdc fmt _ side idx0 b Hb Hbm)
    as (s & -> & Hbk & Hp & Hm & HB & Hfo & Hlo & _ & Hcl & _ & _ & Hft & Hlt' & Hcf).
  assert (Hd : Forall (frm_ok base) d) by (by apply Forall_app in Hfs as [? _]).
  assert (Hzd : zlen (fs_bytes d) ≤ zlen (fs_bytes (d ++ fs))).
  { rewrite fs_bytes_app, zlen_app. pose_zlen. lia. }
  destruct (setupIndex_behind fuel s base d k (fs_bytes (d ++ fs) ++ t)) as (s1 & -> & Hs1 & _);
    [done..|lia| |done|].
  { rewrite zlen_app. pose_zlen. lia. }
  destruct Hs1 as (Hb1 & Hp1 & Hm1 & Hcl1 & HB1 & Hbd1 & Hr1 & Hc1 & Hbase1).
  unfold reconcileIndexTail. rewrite Hm1.
  by rewrite (reconcileIndexTailRaw_refuses fuel s1 base d fs t ct)
    by (done || (by rewrite Hp1, Hb1) || (by destruct (bounds_extend base s1 d fs Hd Hbd1) as (_ & -> & _))).
Qed.

(** ** What the raw walk does not check *)

Definition zero_frame : bytes := replicate 32 (byte.of_Z 0).

Lemma zero_frame_fields : frame_fields zero_frame = Ok (0, 0, 0, 0).
Proof. vm_compute. reflexivity. Qed.

Lemma zero_frame_crc : headerCrc zero_frame ≠ storedHeaderCrc zero_frame.
Proof. vm_compute. discriminate. Qed.

Lemma frames_head base f fs t :
  frm_ok base f → ∃ b, byte_at (fs_bytes (f :: fs) ++ t) 0 = Ok b ∧ b ≠ blockMagic.
Proof.
  intros Hf. apply frame_head in Hf as (b & r & Hf & Hb). rewrite fs_bytes_cons, Hf.
  by exists (byte.unsigned b).
Qed.

(** One frame header, whatever its checksum says. *)
Lemma raw_walk_header fuel s A hdr rest o t ep size rels :
  backing s = A ++ hdr ++ rest → zlen hdr = msgSetHeaderLen → position s = zlen (backing s) →
  frame_fields hdr = Ok (o, t, ep, size) → -32 ≤ size ≤ zlen rest → in_sint 64 o → in_sint 64 t →
  Index.rep (Index s) rels → in_sint 64 (Index.baseOffset (Index s)) →
  in_sint 32 (o - Index.baseOffset (Index s)) → zlen (backing s) < 2 ^ 31 →
  ∃ idx rels' fo ft, raw_walk (S fuel) Index.no_faults s (zlen A) =
      raw_walk fuel Index.no_faults (indexed s idx fo ft o t) (zlen A + (32 + size)) ∧
    Index.rep idx rels' ∧ Index.covered idx ∧ Index.baseOffset idx = Index.baseOffset (Index s).
Proof.
  intros Hb Hh Hp Hf Hs Ho Ht Hr Hbase Hrel Hz. unfold msgSetHeaderLen in *.
  assert (Hpz : position s = zlen A + 32 + zlen rest) by (rewrite Hp, Hb, !zlen_app; lia).
  rewrite Hb, !zlen_app, Hh in Hz.
  pose proof (zlen_nonneg rest). pose proof (zlen_nonneg A). cbn [raw_walk]. unfold msgSetHeaderLen.
  rewrite (proj2 (Z.ltb_lt _ _)) by lia. cbn [negb]. rewrite (proj2 (Z.ltb_ge _ _)) by lia.
  assert (Hread : (hdr ← read_full (backing s) 32 (zlen A); frame_fields hdr) = Ok (o, t, ep, size)).
  { rewrite Hb, read_full_mid, bind_Ok by done. done. }
  rewrite Hread. rewrite (proj2 (Z.ltb_ge _ _)) by lia.
  unfold index_write. cbn [fmap list_fmap]. set (e := index_entry _).
  destruct (Index.writeEntries_one (Index s) rels e) as (idx & -> & Hrep & Hcov & Hbo).
  - done.
  - unfold e, Index.representable, index_entry. cbn. pose proof (sint_range 32 (32 + size)).
    unfold in_sint in *. repeat split; try lia; apply H1; lia.
  - eexists idx, _. destruct (if firstOffset (with_index s idx) =? -1 then _ else _) as [fo ft].
    by exists fo, ft.
Qed.

(** Recovery of a raw segment trusts bytes the read path refuses.  If the
    frames of a raw log are followed by 32 zero bytes, the reopened segment
    reports 0 as its last offset, and hands out offset 1 next, however many
    records it holds; the walk never compares the header with its checksum,
    which does not match. *)
Theorem raw_recovery_trusts_header `{CodecLib} fuel tabf i base maxB cdc fmt fs k side idx0 ct :
  Forall (frm_ok base) fs → fs ≠ [] → base < 2 ^ 31 → zlen (fs_bytes fs) + 32 < 2 ^ 31 →
  (1 < fuel)%nat →
  headerCrc zero_frame ≠ storedHeaderCrc zero_frame ∧
  ∃ s, reopen fuel Index.no_faults false tabf i base maxB cdc fmt (fs_bytes fs ++ zero_frame)
         side idx0 (index_file base fs k) ct = Some (Ok s) ∧
    lastOffset s = 0 ∧ NextOffset s = 1.
Proof.
  intros Hfs Hne Hbase Hz Hfuel. split; [apply zero_frame_crc|]. unfold reopen.
  destruct fs as [|f0 fs0] eqn:Ef; [done|]. rewrite <- Ef in *.
  assert (Hf0 : frm_ok base f0) by (rewrite Ef in Hfs; by apply Forall_cons in Hfs as [? _]).
  destruct (frames_head base f0 fs0 zero_frame Hf0) as (b & Hb & Hbm). rewrite <- Ef in Hb.
  destruct (open_log_raw false tabf i base maxB cdc fmt _ side idx0 b Hb Hbm)
    as (s & -> & Hbk & Hp & Hm & HB & Hfo & Hlo & _ & Hcl & _ & _ & Hft & Hlt' & Hcf).
  destruct (setupIndex_behind fuel s base fs k (fs_bytes fs ++ zero_frame)) as (s1 & -> & Hs1 & _);
    [done..|lia|rewrite zlen_app; pose_zlen; lia|rewrite Ef; simpl; lia|].
  destruct Hs1 as (Hb1 & Hp1 & Hm1 & Hcl1 & HB1 & Hbd1 & Hr1 & Hc1 & Hbase1).
  unfold reconcileIndexTail, reconcileIndexTailRaw. rewrite Hm1.
  rewrite (walk_start s1 base fs) by (done || lia).
  destruct fuel as [|fuel]; [lia|]. destruct Hf0 as ((? & ?) & ? & ? & _).
  destruct (raw_walk_header fuel s1 (fs_bytes fs) zero_frame [] 0 0 0 0 (rels_of base 0 fs))
    as (idx & rels' & fo & ft & -> & Hr' & _ & Hb'); try done;
    [by rewrite Hp1, Hb1|rewrite Hbase1; unfold in_sint; lia..
    |rewrite Hb1, zlen_app; change (zlen zero_frame) with 32; lia|].
  destruct fuel as [|fuel]; [lia|]. cbn [raw_walk]. cbn [indexed with_bounds with_index position].
  rewrite Hp1, zlen_app. change (zlen zero_frame) with 32.
  rewrite (proj2 (Z.ltb_ge _ _)) by lia. cbn [negb].
  eexists. split; [done|]. by destruct (_ =? _).
Qed.

(** A frame that says it is minus 32 bytes long stops recovery for good: the
    walk over a raw log that reaches such a header never ends, whatever the
    number of turns, writing one more index entry on every one. *)
Theorem raw_recovery_can_spin fuel s A hdr rest o t ep rels :
  backing s = A ++ hdr ++ rest → zlen hdr = msgSetHeaderLen → position s = zlen (backing s) →
  frame_fields hdr = Ok (o, t, ep, -32) → in_sint 64 o → in_sint 64 t →
  Index.rep (Index s) rels → in_sint 64 (Index.baseOffset (Index s)) →
  in_sint 32 (o - Index.baseOffset (Index s)) → zlen (backing s) < 2 ^ 31 →
  raw_walk fuel Index.no_faults s (zlen A) = None.
Proof.
  intros Hb Hh Hp Hf Ho Ht. revert s rels Hb Hp.
  induction fuel as [|fuel IH]; intros s rels Hb Hp Hr Hbase Hrel Hz; [done|].
  destruct (raw_walk_header fuel s A hdr rest o t ep (-32) rels)
    as (idx & rels' & fo & ft & -> & Hr' & _ & Hb'); try done; [pose_zlen; lia|].
  rewrite Z.add_0_r. apply (IH _ rels'); try done; cbn; by rewrite Hb'.
Qed.

(** *** Witnesses *)

Definition sample_frame (o : Z) : frm :=
  {| f_off := o; f_ts := 1700000000; f_ep := 3; f_data := blockv3.sample_bytes [7; 8; 9] |}.

Lemma sample_frame_ok o : 4100 ≤ o < 5000 → frm_ok 4100 (sample_frame o).
Proof.
  intros Ho. unfold frm_ok. rewrite zlen_fbytes. unfold in_sint, in_uint.
  cbn [sample_frame f_off f_ts f_ep f_data]. change (zlen (blockv3.sample_bytes _)) with 3.
  repeat split; lia.
Qed.

Lemma sample_torn : torn_frame 4100 (take 10 (fbytes (sample_frame 4102))).
Proof.
  right. exists (sample_frame 4102), (drop 10 (fbytes (sample_frame 4102))).
  split; [apply sample_frame_ok; lia|]. split; [by rewrite take_drop|]. by vm_compute.
Qed.


Lemma committed_tail_not_discarded_witness :
  @reopen half_lib 9 Index.no_faults false false 1 4100 (2 ^ 20) CNone 2
    (fs_bytes ([sample_frame 4100] ++ [sample_frame 4101]) ++ take 10 (fbytes (sample_frame 4102)))
    None sample_idx (index_file 4100 [sample_frame 4100] 4) 4102 =
  Some (Fail (ErrText "refusing to discard a torn tail below the high watermark")).
Proof.
  apply (@committed_tail_not_discarded half_lib).
  - repeat (apply Forall_cons; split); [apply sample_frame_ok; lia..|by apply Forall_nil].
  - apply sample_torn.
  - by vm_compute.
  - by vm_compute.
  - simpl. lia.
  - simpl. lia.
  - lia.
  - by vm_compute.
Defined.

Lemma raw_recovery_trusts_header_witness :
  ∃ s, @reopen half_lib 9 Index.no_faults false false 1 4100 (2 ^ 20) CNone 2
         (fs_bytes [sample_frame 4100; sample_frame 4101] ++ zero_frame) None sample_idx
         (index_file 4100 [sample_frame 4100; sample_frame 4101] 0) 4101 = Some (Ok s) ∧
    lastOffset s = 0 ∧ NextOffset s = 1.
Proof.
  refine (proj2 (@raw_recovery_trusts_header half_lib 9 false 1 4100 (2 ^ 20) CNone 2
    [sample_frame 4100; sample_frame 4101] 0 None sample_idx 4101 _ _ _ _ _)).
  - repeat (apply Forall_cons; split); [apply sample_frame_ok; lia..|by apply Forall_nil].
  - done.
  - lia.
  - by vm_compute.
  - lia.
Defined.

Lemma raw_recovery_can_spin_witness :
  let hdr := frame_header 4101 5 1 (-32) in
  let s := with_log (fresh CNone) (fbytes (sample_frame 4100) ++ hdr ++ []) [] 67 67 in
  raw_walk 1000 Index.no_faults s (zlen (fbytes (sample_frame 4100))) = None.
Proof.
  intros hdr s.
  apply (raw_recovery_can_spin 1000 s (fbytes (sample_frame 4100)) hdr [] 4101 5 1 Index.sample_rels).
  - reflexivity.
  - reflexivity.
  - vm_compute. reflexivity.
  - vm_compute. reflexivity.
  - by vm_compute.
  - by vm_compute.
  - apply Index.sample_rep.
  - by vm_compute.
  - by vm_compute.
  - by vm_compute.
Defined.

End SegmentIndex.
