(* ===== verification/SegmentSearch.v ===== *)
(** * Finding and scanning records: the seeks of segment.go

    [findEntry] and [findEntryByTimestamp] locate a record through the index: a
    raw segment has an entry for every record, a block segment one anchor per
    block, from which the frames are scanned forward.  [segmentScanner] reads
    the frames of a segment one after the other.  [holds s fs] says that an
    open segment stores exactly the frames [fs] and that its index and bounds
    describe them; appends keep it, and the searches and the scanner are
    correct under it.  The forward scan advances by a length read from the
    log, so it is given fuel; [None] is a scan that has not come to an end. *)

From Stdlib Require Import ZArith Lia.
From stdpp Require Import base list numbers strings gmap sorting.
From coqutil Require Import Byte.
From S2P Require Import Prelude GoStd Wire Compress BlockV3 Block Framing Index Segment SegmentIndex.

Open Scope Z_scope.

Module SegmentSearch.
Import Segment SegmentIndex.

(** ** Seeks *)

(** An entry as the index returns it: it stores no leader epoch. *)
Definition entry_of (e : Index.entry) : entry :=
  {| e_Offset := Index.Offset e; e_Timestamp := Index.Timestamp e; e_LeaderEpoch := 0;
     e_Position := Index.Position e; e_Size := Index.Size e |}.

(** A failure to read the index leaves the anchor at 0. *)
Definition anchorPosition (s : segment) (pred : Index.entry → bool) : outcome Z :=
  match Index.searchEntries (Index s) pred with
  | Panic => Panic
  | Fail _ => Ok 0
  | Ok (idx, n, e) =>
      if n =? 0 then Ok 0
      else if 0 <? idx then
        match Index.ReadEntryAtLogOffset (Index s) (idx - 1) with
        | Panic => Panic
        | Fail _ => Ok 0
        | Ok e => Ok (Index.Position e)
        end
      else Ok (default 0 (Index.Position <$> e))
  end.

Definition anchorPositionForOffset (s : segment) (offset : Z) : outcome Z :=
  anchorPosition s (λ e, offset <? Index.Offset e).

Definition anchorPositionForTimestamp (s : segment) (timestamp : Z) : outcome Z :=
  anchorPosition s (λ e, timestamp <=? Index.Timestamp e).

Section codecs.
Context `{CodecLib}.

(** [scanForward]; the predicate sees the offset and the timestamp of a frame. *)
Fixpoint scanForward (fuel : nat) (s : segment) (pos : Z) (pred : Z → Z → bool)
    : option (segment * outcome entry) :=
  match fuel with
  | O => None
  | S fuel =>
      match ReadAt s msgSetHeaderLen pos with
      | (s, Ok (_, Some ErrEOF)) => Some (s, Fail ErrEntryNotFound)
      | (s, Ok (_, Some e)) => Some (s, Fail e)
      | (s, Fail e) => Some (s, Fail e)
      | (s, Panic) => Some (s, Panic)
      | (s, Ok (hdr, None)) =>
          match frame_fields hdr with
          | Fail e => Some (s, Fail e)
          | Panic => Some (s, Panic)
          | Ok (o, t, ep, size) =>
              if pred o t then
                Some (s, Ok {| e_Offset := o; e_Timestamp := t; e_LeaderEpoch := ep;
                               e_Position := pos; e_Size := sint 32 (size + msgSetHeaderLen) |})
              else scanForward fuel s (pos + msgSetHeaderLen + size) pred
          end
      end
  end.

(** [findEntryBy]: the anchor lookup, and what is asked of a frame and of an
    index entry. *)
Definition findEntryBy (fuel : nat) (s : segment) (anchor : segment → outcome Z)
    (pred : Z → Z → bool) : option (segment * outcome entry) :=
  if left s then Some (s, Fail ErrSegmentReplaced)
  else if blockMode s then
    match anchor s with
    | Ok pos => scanForward fuel s pos pred
    | Fail e => Some (s, Fail e)
    | Panic => Some (s, Panic)
    end
  else
    Some (s, '(i, n, e) ← Index.searchEntries (Index s)
                            (λ e, pred (Index.Offset e) (Index.Timestamp e));
             if i =? n then Fail ErrEntryNotFound
             else match e with Some e => Ok (entry_of e) | None => Panic end).

Definition findEntry (fuel : nat) (s : segment) (offset : Z) : option (segment * outcome entry) :=
  findEntryBy fuel s (λ s, anchorPositionForOffset s offset) (λ o _, offset <=? o).

Definition findEntryByTimestamp (fuel : nat) (s : segment) (timestamp : Z)
    : option (segment * outcome entry) :=
  findEntryBy fuel s (λ s, anchorPositionForTimestamp s timestamp) (λ _ t, timestamp <=? t).

(** ** The scanner *)

(** A local segment is not streamed: the scanner is a position and its own
    block cache. *)
Record segmentScanner := { sc_pos : Z; sc_cache : blockCache }.

Definition newSegmentScanner : segmentScanner := {| sc_pos := 0; sc_cache := newBlockCache |}.

(** [Scan]: the frame at the scanner's position, header included. *)
Definition Scan (s : segment) (sc : segmentScanner) : segmentScanner * outcome (bytes * entry) :=
  let stay c r := ({| sc_pos := sc_pos sc; sc_cache := c |}, r) in
  match scanReadAt s (sc_cache sc) msgSetHeaderLen (sc_pos sc) with
  | (c, Panic) => stay c Panic
  | (c, Fail e) | (c, Ok (_, Some e)) => stay c (Fail e)
  | (c, Ok (header, None)) =>
      match (want ← storedHeaderCrc header; got ← headerCrc header;
             f ← frame_fields header; Ok (want, got, f)) with
      | Panic => stay c Panic
      | Fail e => stay c (Fail e)
      | Ok (want, got, (o, t, ep, size)) =>
          if negb (want =? got) then stay c (Fail ErrCorruptFrameHeader)
          else if position s - (sc_pos sc + msgSetHeaderLen) <? size
          then stay c (Fail ErrCorruptRecord)
          else if size <? 0 then stay c Panic
          else
            match scanReadAt s c size (sc_pos sc + msgSetHeaderLen) with
            | (c, Panic) => stay c Panic
            | (c, Fail e) | (c, Ok (_, Some e)) => stay c (Fail e)
            | (c, Ok (payload, None)) =>
                ({| sc_pos := sc_pos sc + msgSetHeaderLen + size; sc_cache := c |},
                 Ok (header ++ payload,
                     {| e_Offset := o; e_Timestamp := t; e_LeaderEpoch := ep;
                        e_Position := sc_pos sc;
                        e_Size := sint 32 (size + msgSetHeaderLen) |}))
            end
      end
  end.

(** A loop over a scanner: [for { ms, e, err := ss.Scan(); ... }].  The body
    goes on with a state or leaves with a result; [fin] is what the loop does
    with the error that ends the scan. *)
Fixpoint scanning {St R} (fuel : nat) (s : segment) (sc : segmentScanner)
    (body : St → bytes → entry → St + R) (fin : St → error → R) (st : St) : option (outcome R) :=
  match fuel with
  | O => None
  | S fuel =>
      match Scan s sc with
      | (_, Panic) => Some Panic
      | (_, Fail e) => Some (Ok (fin st e))
      | (sc, Ok (ms, e)) =>
          match body st ms e with
          | inl st => scanning fuel s sc body fin st
          | inr r => Some (Ok r)
          end
      end
  end.

End codecs.

(** ** Frames of a segment *)

(** The first frame that [p] accepts, and where it starts. *)
Fixpoint seek (pos : Z) (p : frm → bool) (fs : list frm) : option (Z * frm) :=
  match fs with
  | [] => None
  | f :: fs => if p f then Some (pos, f) else seek (pos + zlen (fbytes f)) p fs
  end.

(** The entry of a frame as a scan returns it. *)
Definition scanned (pos : Z) (f : frm) : entry :=
  {| e_Offset := f_off f; e_Timestamp := f_ts f; e_LeaderEpoch := f_ep f;
     e_Position := pos; e_Size := zlen (fbytes f) |}.

Lemma zlen_fs_snoc a f : zlen (fs_bytes (a ++ [f])) = zlen (fs_bytes a) + zlen (fbytes f).
Proof. rewrite fs_bytes_app, zlen_app. unfold fs_bytes at 2. simpl. by rewrite app_nil_r. Qed.

Lemma seek_skip pos p a b :
  Forall (λ f, p f = false) a → seek pos p (a ++ b) = seek (pos + zlen (fs_bytes a)) p b.
Proof.
  revert pos. induction a as [|f a IH]; intros pos Ha.
  - unfold fs_bytes. simpl. by rewrite zlen_nil, Z.add_0_r.
  - apply Forall_cons in Ha as [Hf Ha]. simpl. rewrite Hf, IH by done. f_equal.
    rewrite fs_bytes_cons, zlen_app. lia.
Qed.

Lemma seek_Some pos p fs q f :
  seek pos p fs = Some (q, f) →
  ∃ a b, fs = a ++ f :: b ∧ Forall (λ g, p g = false) a ∧ p f = true ∧ q = pos + zlen (fs_bytes a).
Proof.
  revert pos. induction fs as [|g fs IH]; intros pos Hs; [done|]. simpl in Hs.
  destruct (p g) eqn:E.
  - injection Hs as <- <-. exists [], fs. split_and!; [done|done|done|].
    unfold fs_bytes. simpl. rewrite zlen_nil. lia.
  - apply IH in Hs as (a & b & -> & Ha & Hf & ->). exists (g :: a), b.
    split_and!; [done|by apply Forall_cons|done|]. rewrite fs_bytes_cons, zlen_app. lia.
Qed.

Lemma seek_None pos p fs : seek pos p fs = None ↔ Forall (λ g, p g = false) fs.
Proof.
  revert pos. induction fs as [|g fs IH]; intros pos; simpl; [by split; [constructor|]|].
  rewrite Forall_cons. destruct (p g); [by split; [|intros [? _]]|]. rewrite IH. tauto.
Qed.

(** *** Reading frames *)

Section scan.
Context `{CodecLib}.

Lemma read_spec_mid (a m b : bytes) n off :
  n = zlen m → off = zlen a → read_spec (a ++ m ++ b) n off = (m, None).
Proof.
  intros -> ->. unfold read_spec. rewrite !to_nat_zlen, drop_app_length, take_app_length.
  rewrite (proj2 (Z.ltb_ge _ _)); [done|]. rewrite !zlen_app. pose_zlen. lia.
Qed.

Lemma read_spec_end (d : bytes) n : 0 < n → (read_spec d n (zlen d)).2 = Some ErrEOF.
Proof. intros Hn. unfold read_spec. by rewrite (proj2 (Z.ltb_lt _ _)) by lia. Qed.

(** The header of the frame after [a]. *)
Lemma read_header base a f b :
  frm_ok base f →
  ∃ hdr, read_spec (fs_bytes (a ++ f :: b)) msgSetHeaderLen (zlen (fs_bytes a)) = (hdr, None) ∧
    frame_fields hdr = Ok (f_off f, f_ts f, f_ep f, zlen (f_data f)) ∧
    (∃ x, storedHeaderCrc hdr = Ok x ∧ headerCrc hdr = Ok x) ∧ fbytes f = hdr ++ f_data f.
Proof.
  intros Hf. eexists. split_and!; [| | |reflexivity].
  - rewrite fs_bytes_app, fs_bytes_cons. unfold fbytes. rewrite <- app_assoc.
    apply read_spec_mid; [by rewrite zlen_frame_header|done].
  - rewrite <- (app_nil_r (frame_header _ _ _ _)). by apply (frm_ok_fields base).
  - rewrite <- (app_nil_r (frame_header _ _ _ _)), <- frame_header_crc, app_nil_r.
    unfold headerCrc, slice_to, headerCrcPos. rewrite slice_ok by (rewrite ?zlen_frame_header; lia).
    rewrite bind_Ok. by eexists.
Qed.

Lemma with_cache_same s c c' : with_cache (with_cache s c) c' = with_cache s c'.
Proof. done. Qed.

Lemma scanForward_spec base fuel s a b pred :
  log_ok s (fs_bytes (a ++ b)) → closed s = false → Forall (frm_ok base) b →
  (length b < fuel)%nat →
  ∃ c, scanForward fuel s (zlen (fs_bytes a)) pred =
         Some (with_cache s c,
               match seek (zlen (fs_bytes a)) (λ f, pred (f_off f) (f_ts f)) b with
               | Some (pos, f) => Ok (scanned pos f)
               | None => Fail ErrEntryNotFound
               end) ∧
       log_ok (with_cache s c) (fs_bytes (a ++ b)).
Proof.
  revert fuel s a. induction b as [|f b IH]; intros fuel s a Hs Hcl Hb Hfuel;
    (destruct fuel as [|fuel]; [simpl in Hfuel; lia|]); cbn [scanForward].
  - destruct (ReadAt_spec s _ msgSetHeaderLen (zlen (fs_bytes a)) Hs Hcl) as (c & -> & Hs');
      [unfold msgSetHeaderLen; lia|apply zlen_nonneg|].
    exists c. split; [|done]. rewrite app_nil_r.
    pose proof (read_spec_end (fs_bytes a) msgSetHeaderLen ltac:(unfold msgSetHeaderLen; lia)) as E.
    destruct (read_spec _ _ _) as [r e]. cbn in E. by subst e.
  - apply Forall_cons in Hb as [Hf Hb].
    destruct (ReadAt_spec s _ msgSetHeaderLen (zlen (fs_bytes a)) Hs Hcl) as (c & -> & Hs');
      [unfold msgSetHeaderLen; lia|apply zlen_nonneg|].
    destruct (read_header base a f b Hf) as (hdr & -> & -> & _). cbn [seek].
    pose proof Hf as (_ & _ & _ & _ & _ & Hz). rewrite zlen_fbytes in Hz.
    pose proof (zlen_nonneg (f_data f)). destruct (pred (f_off f) (f_ts f)).
    + exists c. split; [|done]. unfold scanned. rewrite zlen_fbytes, Z.add_comm.
      unfold msgSetHeaderLen. rewrite sint_nonneg by lia. done.
    + replace (zlen (fs_bytes a) + msgSetHeaderLen + zlen (f_data f))
        with (zlen (fs_bytes (a ++ [f]))).
      2: { rewrite zlen_fs_snoc, zlen_fbytes. unfold msgSetHeaderLen. lia. }
      destruct (IH fuel (with_cache s c) (a ++ [f])) as (c' & E & Hs'');
        [by rewrite <- app_assoc|done|done|simpl in Hfuel; lia|].
      exists c'. rewrite with_cache_same in E, Hs''. rewrite <- app_assoc in Hs''. split; [|done].
      by rewrite E, zlen_fs_snoc.
Qed.

End scan.

(** *** The index of a segment *)

(** The frames in groups, each indexed by an entry for its first frame: the
    blocks of a block segment, single frames of a raw one. *)
Fixpoint anchors (pos : Z) (gs : list (list frm)) : list Index.entry :=
  match gs with
  | [] => []
  | [] :: gs => anchors pos gs
  | (f :: g) :: gs => fentry pos f :: anchors (pos + zlen (fs_bytes (f :: g))) gs
  end.

Definition full (gs : list (list frm)) : Prop := Forall (λ g, g ≠ []) gs.

Definition singles (fs : list frm) : list (list frm) := (λ f, [f]) <$> fs.

Lemma concat_singles fs : concat (singles fs) = fs.
Proof. induction fs as [|f fs IH]; [done|]. cbn. f_equal. exact IH. Qed.

Lemma full_singles fs : full (singles fs).
Proof. apply Forall_fmap, Forall_forall. by intros. Qed.

Lemma fentries_singles pos fs : fentries pos fs = anchors pos (singles fs).
Proof.
  revert pos. induction fs as [|f fs IH]; intros pos; [done|].
  unfold singles in *. cbn [fentries fmap list_fmap anchors]. rewrite IH. do 2 f_equal.
  rewrite fs_bytes_cons. unfold fs_bytes. simpl. by rewrite app_nil_r.
Qed.

Lemma concat_cons {A} (g : list A) gs : concat (g :: gs) = g ++ concat gs.
Proof. done. Qed.

Lemma anchors_app pos a b :
  anchors pos (a ++ b) = anchors pos a ++ anchors (pos + zlen (fs_bytes (concat a))) b.
Proof.
  revert pos. induction a as [|g a IH]; intros pos.
  - unfold fs_bytes. simpl. by rewrite zlen_nil, Z.add_0_r.
  - rewrite concat_cons, fs_bytes_app, zlen_app. destruct g as [|f g]; cbn [app anchors].
    + rewrite IH. unfold fs_bytes at 2. simpl. by rewrite zlen_nil, Z.add_0_l.
    + rewrite IH, Z.add_assoc. done.
Qed.

Lemma length_anchors pos gs : full gs → length (anchors pos gs) = length gs.
Proof.
  intros Hg. revert pos. induction Hg as [|g gs Hg Hgs IH]; intros pos; [done|].
  destruct g; [done|]. simpl. by rewrite IH.
Qed.

Lemma anchors_lookup pos gs j e :
  full gs → anchors pos gs !! j = Some e →
  ∃ f g, gs = take j gs ++ (f :: g) :: drop (S j) gs ∧
         e = fentry (pos + zlen (fs_bytes (concat (take j gs)))) f.
Proof.
  intros Hg. revert pos j. induction Hg as [|g gs Hg Hgs IH]; intros pos j He; [done|].
  destruct g as [|f g]; [done|]. destruct j as [|j].
  - injection He as <-. exists f, g. split; [done|]. unfold fs_bytes. simpl.
    by rewrite zlen_nil, Z.add_0_r.
  - simpl in He. apply IH in He as (f' & g' & E & ->). exists f', g'. simpl.
    split; [by f_equal|]. f_equal. rewrite app_comm_cons, fs_bytes_app, zlen_app. lia.
Qed.

Lemma anchors_all (P : Index.entry → Prop) pos gs :
  (∀ q f, f ∈ concat gs → pos ≤ q < pos + zlen (fs_bytes (concat gs)) → P (fentry q f)) →
  Forall P (anchors pos gs).
Proof.
  revert pos. induction gs as [|g gs IH]; intros pos HP; [constructor|].
  rewrite concat_cons in HP. rewrite fs_bytes_app, zlen_app in HP.
  pose proof (zlen_nonneg (fs_bytes g)). pose proof (zlen_nonneg (fs_bytes (concat gs))).
  assert (Hrest : ∀ q f, f ∈ concat gs → pos + zlen (fs_bytes g) ≤ q <
    pos + zlen (fs_bytes g) + zlen (fs_bytes (concat gs)) → P (fentry q f)).
  { intros q f Hf Hq. apply HP; [|lia]. apply elem_of_app. by right. }
  destruct g as [|f g]; cbn [anchors].
  - apply IH. unfold fs_bytes at 1 2 in Hrest. simpl in Hrest. rewrite zlen_nil in Hrest.
    intros q f Hf Hq. apply Hrest; [done|lia].
  - apply Forall_cons. split; [|by apply IH]. apply HP; [apply elem_of_app; left; apply elem_of_cons; by left|].
    rewrite fs_bytes_cons, zlen_app, zlen_fbytes. pose_zlen. lia.
Qed.

Lemma anchors_representable base pos gs :
  Forall (frm_ok base) (concat gs) → 0 ≤ pos → pos + zlen (fs_bytes (concat gs)) < 2 ^ 31 →
  Forall (Index.representable base) (anchors pos gs).
Proof.
  intros Hf Hp Hz. apply anchors_all. intros q f Hin Hq. apply fentry_representable; [|lia].
  by eapply Forall_forall in Hin; [|exact Hf].
Qed.

(** What the index stores for groups of frames. *)
Definition group_rels (base : Z) (gs : list (list frm)) : list Index.relEntry :=
  (λ e, Index.newRelEntry e base) <$> anchors 0 gs.

Lemma entries_of_groups idx base gs :
  Forall (frm_ok base) (concat gs) → zlen (fs_bytes (concat gs)) < 2 ^ 31 →
  Index.baseOffset idx = base → Index.entries_of idx (group_rels base gs) = anchors 0 gs.
Proof.
  intros Hf Hz Hb. unfold Index.entries_of, group_rels. rewrite <- list_fmap_compose.
  rewrite <- (list_fmap_id (anchors 0 gs)) at 2. apply list_fmap_ext.
  intros i e He. cbn. rewrite Hb. apply Index.fill_newRelEntry.
  eapply (Forall_lookup_1 _ _ i); [apply anchors_representable; [exact Hf|done|lia]|done].
Qed.

(** Once true along the frames, true along the anchors. *)
Lemma anchors_upward (p : Index.entry → bool) pos gs (R : frm → frm → Prop) :
  StronglySorted R (concat gs) →
  (∀ q q' f g, R f g → p (fentry q f) = true → p (fentry q' g) = true) →
  Index.upward p (anchors pos gs).
Proof.
  intros Hs HR. revert pos. induction gs as [|g gs IH]; intros pos; [constructor|].
  rewrite concat_cons in Hs. apply StronglySorted_app in Hs as (Hx & _ & Hs2).
  destruct g as [|f g]; [by apply IH|]. cbn [anchors]. constructor; [by apply IH|].
  apply anchors_all. intros q f' Hf' _. apply HR, Hx; [by left|done].
Qed.

(** ** A segment that holds frames *)

Definition ascending (fs : list frm) : Prop := StronglySorted (λ f g, f_off f < f_off g) fs.

Lemma ascending_inj fs f g : ascending fs → f ∈ fs → g ∈ fs → f_off f = f_off g → f = g.
Proof.
  intros Ha [i Hi]%list_elem_of_lookup [j Hj]%list_elem_of_lookup E.
  destruct (Nat.lt_trichotomy i j) as [Hij|[->|Hij]]; [|congruence|].
  - pose proof (sorted_lookup _ _ _ _ _ _ Ha Hij Hi Hj) as Hx. cbn in Hx. lia.
  - pose proof (sorted_lookup _ _ _ _ _ _ Ha Hij Hj Hi) as Hx. cbn in Hx. lia.
Qed.

(** Timestamps that do not decrease. *)
Definition timely (fs : list frm) : Prop := StronglySorted (λ f g, f_ts f ≤ f_ts g) fs.

(** [gs] are the blocks of a block segment. *)
Definition index_holds (s : segment) (gs : list (list frm)) : Prop :=
  full gs ∧ Index.covered (Index s) ∧ Index.baseOffset (Index s) = BaseOffset s ∧
  Index.rep (Index s) (group_rels (BaseOffset s) gs) ∧
  (if blockMode s then logicalLen <$> blocks s = (λ g, zlen (fs_bytes g)) <$> gs
   else gs = singles (concat gs)).

Definition frames_ok (base : Z) (fs : list frm) : Prop :=
  0 ≤ base < 2 ^ 63 ∧ Forall (frm_ok base) fs ∧ Forall (λ f, 0 < zlen (f_data f)) fs ∧
  ascending fs ∧ zlen (fs_bytes fs) < 2 ^ 31.

(** An open segment that is part of the log stores exactly the frames [fs],
    and its index and bounds describe them. *)
Definition holds `{CodecLib} (s : segment) (fs : list frm) : Prop :=
  log_ok s (fs_bytes fs) ∧ closed s = false ∧ left s = false ∧
  frames_ok (BaseOffset s) fs ∧ bounds_hold s fs ∧
  ∃ gs, fs = concat gs ∧ index_holds s gs.

Section search.
Context `{CodecLib}.

Lemma holds_cache s c fs : holds s fs → log_ok (with_cache s c) (fs_bytes fs) → holds (with_cache s c) fs.
Proof. by intros (_ & Hr) Hl. Qed.

(** What a search asks of frames: [fp] of a frame, [ap] of an anchor to stop
    before. *)
Definition searchable (fp ap : Z → Z → bool) (fs : list frm) : Prop :=
  StronglySorted (λ f g, (fp (f_off f) (f_ts f) = true → fp (f_off g) (f_ts g) = true) ∧
    (ap (f_off f) (f_ts f) = true → ap (f_off g) (f_ts g) = true) ∧
    (ap (f_off g) (f_ts g) = false → fp (f_off f) (f_ts f) = false)) fs.

Lemma sorted_impl {A} (R S : A → A → Prop) l :
  (∀ x y, R x y → S x y) → StronglySorted R l → StronglySorted S l.
Proof.
  intros HRS. induction 1 as [|x l Hl IH Hx]; constructor; [done|].
  eapply Forall_impl; [exact Hx|]. intros y. apply HRS.
Qed.

Lemma ascending_searchable o fs :
  ascending fs → searchable (λ x _, o <=? x) (λ x _, o <? x) fs.
Proof.
  apply sorted_impl. intros f g Hfg. rewrite !Z.leb_le, !Z.ltb_lt, Z.ltb_ge, Z.leb_gt. lia.
Qed.

Lemma timely_searchable ts fs :
  timely fs → searchable (λ _ x, ts <=? x) (λ _ x, ts <=? x) fs.
Proof. apply sorted_impl. intros f g Hfg. rewrite !Z.leb_le, !Z.leb_gt. lia. Qed.

Definition entry_pred (p : Z → Z → bool) (e : Index.entry) : bool :=
  p (Index.Offset e) (Index.Timestamp e).

Lemma anchorPosition_spec s gs fp ap :
  index_holds s gs → frames_ok (BaseOffset s) (concat gs) → searchable fp ap (concat gs) →
  ∃ g0 g1, gs = g0 ++ g1 ∧
    anchorPosition s (entry_pred ap) = Ok (zlen (fs_bytes (concat g0))) ∧
    Forall (λ f, fp (f_off f) (f_ts f) = false) (concat g0).
Proof.
  intros (Hg & Hc & Hb & Hr & _) (_ & Hf & _ & _ & Hz) Hs.
  pose proof (entries_of_groups _ _ _ Hf Hz Hb) as He.
  destruct (Index.searchEntries_spec _ _ (entry_pred ap) Hr Hc) as (i & E & Hi & Hlo & _).
  { rewrite He. eapply anchors_upward; [exact Hs|]. by intros q q' f g (_ & ? & _). }
  unfold anchorPosition. rewrite E, He. rewrite He in Hlo. unfold group_rels in *.
  rewrite length_fmap, (length_anchors _ _ Hg) in Hi.
  replace (zlen _) with (zlen gs) by (unfold zlen; by rewrite length_fmap, length_anchors).
  destruct (Z.eqb_spec (zlen gs) 0) as [Hn|Hn].
  { destruct gs; [|rewrite zlen_cons in Hn; pose_zlen; lia]. exists [], []. split_and!; [done|done|by simpl]. }
  destruct i as [|i]; cbn [Z.of_nat Z.ltb Z.compare].
  { destruct gs as [|[|f g] gs]; [done|by apply Forall_cons in Hg as [? _]|].
    exists [], ((f :: g) :: gs). split_and!; [done|done|by simpl]. }
  rewrite (proj2 (Z.ltb_lt _ _)) by lia. replace (Z.of_nat (S i) - 1) with (Z.of_nat i) by lia.
  destruct (lookup_lt_is_Some_2 (anchors 0 gs) i) as [e Hei]; [rewrite length_anchors by done; lia|].
  destruct (anchors_lookup _ _ _ _ Hg Hei) as (f & g & Hgs & ->).
  rewrite (Index.rep_read _ _ i (Index.newRelEntry (fentry (0 + zlen (fs_bytes (concat (take i gs)))) f)
    (BaseOffset s)) Hr Hc) by (by rewrite list_lookup_fmap, Hei).
  rewrite Hb, Index.fill_newRelEntry.
  2: { eapply (Forall_lookup_1 _ _ i); [apply anchors_representable; [exact Hf|done|lia]|done]. }
  exists (take i gs), (drop i gs). rewrite take_drop. split_and!; [done|done|].
  assert (Ha : ap (f_off f) (f_ts f) = false).
  { refine (Forall_lookup_1 _ _ i (fentry _ f) Hlo _). rewrite lookup_take_lt by lia. exact Hei. }
  rewrite Hgs, concat_app in Hs. apply StronglySorted_app in Hs as (Hx & _ & _).
  apply Forall_forall. intros f' Hf'. eapply Hx; [exact Hf'|by left|exact Ha].
Qed.

(** The answer of a search. *)
Definition found (s : segment) (p : frm → bool) (fs : list frm) : outcome entry :=
  match seek 0 p fs with
  | Some (pos, f) => Ok (if blockMode s then scanned pos f else entry_of (fentry pos f))
  | None => Fail ErrEntryNotFound
  end.

Lemma fentries_lookup pos fs i e :
  fentries pos fs !! i = Some e →
  ∃ f, fs !! i = Some f ∧ e = fentry (pos + zlen (fs_bytes (take i fs))) f.
Proof.
  revert pos i. induction fs as [|f fs IH]; intros pos i He; [done|]. destruct i as [|i].
  - injection He as <-. exists f. split; [done|]. unfold fs_bytes. simpl.
    by rewrite zlen_nil, Z.add_0_r.
  - apply IH in He as (f' & Hf' & ->). exists f'. split; [done|]. f_equal. simpl.
    rewrite fs_bytes_cons, zlen_app. lia.
Qed.

Lemma raw_search s fs fp ap :
  blockMode s = false → index_holds s (singles fs) → frames_ok (BaseOffset s) fs →
  searchable fp ap fs →
  ('(i, n, e) ← Index.searchEntries (Index s) (entry_pred fp);
   if i =? n then Fail ErrEntryNotFound
   else match e with Some e => Ok (entry_of e) | None => Panic end) =
  found s (λ f, fp (f_off f) (f_ts f)) fs.
Proof.
  intros Hm (Hg & Hc & Hb & Hr & _) (_ & Hf & _ & _ & Hz) Hs.
  rewrite <- (concat_singles fs) in Hf, Hz.
  pose proof (entries_of_groups _ _ _ Hf Hz Hb) as He.
  destruct (Index.searchEntries_spec _ _ (entry_pred fp) Hr Hc) as (i & E & Hi & Hlo & Hhi).
  { rewrite He. eapply anchors_upward; [by rewrite concat_singles|]. by intros q q' f g (? & _). }
  rewrite E, bind_Ok, He. rewrite He, <- fentries_singles in Hlo, Hhi.
  unfold group_rels. rewrite <- fentries_singles.
  replace (zlen _) with (zlen fs) by (unfold zlen; by rewrite length_fmap, length_fentries).
  unfold group_rels in Hi. rewrite length_fmap, <- fentries_singles, length_fentries in Hi.
  assert (Hlow : Forall (λ f, fp (f_off f) (f_ts f) = false) (take i fs)).
  { apply Forall_lookup. intros j f Hj. apply lookup_take_Some in Hj as [Hj Hji].
    destruct (lookup_lt_is_Some_2 (fentries 0 fs) j) as [e Hej];
      [rewrite length_fentries; by apply lookup_lt_Some in Hj|].
    pose proof (Forall_lookup_1 _ _ j e Hlo) as Hp. rewrite lookup_take_lt in Hp by done.
    specialize (Hp Hej). apply fentries_lookup in Hej as (f' & Hf' & ->).
    rewrite Hj in Hf'. by injection Hf' as <-. }
  unfold found. rewrite Hm. destruct (Z.eqb_spec (Z.of_nat i) (zlen fs)) as [En|En].
  - rewrite (proj2 (seek_None 0 _ fs)); [done|]. rewrite take_ge in Hlow; [done|unfold zlen in En; lia].
  - destruct (lookup_lt_is_Some_2 (fentries 0 fs) i) as [e Hei];
      [rewrite length_fentries; unfold zlen in En; lia|].
    rewrite Hei. pose proof Hei as Hei'. apply fentries_lookup in Hei as (f & Hfi & ->).
    rewrite <- (take_drop_middle fs i f Hfi) at 2. rewrite seek_skip by done. cbn [seek].
    assert (fp (f_off f) (f_ts f) = true) as ->; [|done].
    refine (Forall_lookup_1 _ _ 0 (fentry _ f) Hhi _). rewrite lookup_drop, Nat.add_0_r. exact Hei'.
Qed.

Lemma findEntryBy_spec fuel s fs fp ap :
  holds s fs → searchable fp ap fs → (length fs < fuel)%nat →
  ∃ c, findEntryBy fuel s (λ s, anchorPosition s (entry_pred ap)) fp =
         Some (with_cache s c, found s (λ f, fp (f_off f) (f_ts f)) fs) ∧
       holds (with_cache s c) fs.
Proof.
  intros Hh Hs Hfuel. pose proof Hh as (Hl & Hcl & Hle & Hfs & Hb & gs & -> & Hi).
  unfold findEntryBy. rewrite Hle. destruct (blockMode s) eqn:Em.
  - destruct (anchorPosition_spec s gs fp ap Hi Hfs Hs) as (g0 & g1 & -> & -> & Hlow).
    rewrite concat_app in *. pose proof Hfs as (_ & Hf & _). apply Forall_app in Hf as [_ Hf].
    destruct (scanForward_spec (BaseOffset s) fuel s (concat g0) (concat g1) fp) as (c & -> & Hl');
      [done|done|done|rewrite length_app in Hfuel; lia|].
    exists c. split; [|by apply holds_cache]. unfold found. rewrite Em, seek_skip by done. done.
  - exists (cache s). replace (with_cache s (cache s)) with s by (by destruct s).
    split; [|done]. do 2 f_equal. pose proof Hi as (_ & _ & _ & _ & Hgs). rewrite Em in Hgs.
    rewrite Hgs in Hi. by apply (raw_search s (concat gs) fp ap).
Qed.

End search.

(** ** Scanning *)

Section scanner.
Context `{CodecLib}.

Lemma scanReadAt_spec s c d n off :
  log_ok (with_cache s c) d → closed s = false → 0 < n → 0 ≤ off →
  ∃ c', scanReadAt s c n off = (c', Ok (read_spec d n off)) ∧ log_ok (with_cache s c') d.
Proof.
  intros Hs Hcl Hn Ho. unfold scanReadAt, shutErrorLocked. rewrite Hcl. cbn [negb].
  unfold log_ok in *. cbn [with_cache blockMode] in *. destruct (blockMode s) eqn:Em; cbn [negb].
  - destruct Hs as (ps & Hd & <- & Hok).
    destruct (readBlocksCache_spec s ps c n off) as (c' & -> & Hok');
      [by destruct Hd as (? & ? & ? & ? & ? & ?)|done..|].
    exists c'. split; [done|]. exists ps. by destruct Hd as (? & ? & ? & ? & ? & ?).
  - destruct Hs as [<- Hp]. exists c. by rewrite read_at_spec.
Qed.

Lemma log_ok_position s d : log_ok s d → position s = zlen d.
Proof.
  unfold log_ok. destruct (blockMode s); [|tauto].
  intros (ps & (_ & _ & _ & _ & Hp & _) & <- & _). done.
Qed.

Definition at_frame (s : segment) (fs : list frm) (a : list frm) (sc : segmentScanner) : Prop :=
  log_ok (with_cache s (sc_cache sc)) (fs_bytes fs) ∧ closed s = false ∧
  sc_pos sc = zlen (fs_bytes a).

Lemma Scan_frame base s sc a f b :
  at_frame s (a ++ f :: b) a sc → frm_ok base f → 0 < zlen (f_data f) →
  ∃ sc', Scan s sc = (sc', Ok (fbytes f, scanned (zlen (fs_bytes a)) f)) ∧
         at_frame s (a ++ f :: b) (a ++ [f]) sc'.
Proof.
  intros (Hl & Hcl & Hp) Hf Hd. unfold Scan. rewrite Hp.
  destruct (scanReadAt_spec s (sc_cache sc) _ msgSetHeaderLen (zlen (fs_bytes a)) Hl Hcl)
    as (c & -> & Hl'); [unfold msgSetHeaderLen; lia|apply zlen_nonneg|].
  destruct (read_header base a f b Hf) as (hdr & -> & -> & (x & -> & ->) & Hfb).
  rewrite !bind_Ok, Z.eqb_refl. cbn [negb].
  pose proof (log_ok_position _ _ Hl) as Hpos. cbn [with_cache position] in Hpos. rewrite Hpos.
  assert (Hz : zlen (fs_bytes (a ++ f :: b)) =
    zlen (fs_bytes a) + msgSetHeaderLen + zlen (f_data f) + zlen (fs_bytes b)).
  { rewrite fs_bytes_app, fs_bytes_cons, !zlen_app, zlen_fbytes. unfold msgSetHeaderLen. lia. }
  rewrite Hz, !(proj2 (Z.ltb_ge _ _)) by (pose_zlen; lia).
  destruct (scanReadAt_spec s c _ (zlen (f_data f)) (zlen (fs_bytes a) + msgSetHeaderLen) Hl' Hcl)
    as (c' & -> & Hl''); [done|unfold msgSetHeaderLen; pose_zlen; lia|].
  rewrite fs_bytes_app, fs_bytes_cons, Hfb, <- app_assoc, app_assoc, read_spec_mid.
  2: done.
  2: { rewrite zlen_app. f_equal. pose proof (f_equal zlen Hfb) as E.
       rewrite zlen_fbytes, zlen_app in E. unfold msgSetHeaderLen. lia. }
  eexists. split.
  - do 3 f_equal. unfold scanned. rewrite zlen_fbytes, Z.add_comm. unfold msgSetHeaderLen.
    destruct Hf as (_ & _ & _ & _ & _ & Hf). rewrite zlen_fbytes in Hf. by rewrite sint_nonneg by lia.
  - split_and!; [done|done|]. cbn [sc_pos]. rewrite zlen_fs_snoc, zlen_fbytes.
    unfold msgSetHeaderLen. lia.
Qed.

Lemma Scan_end s sc fs : at_frame s fs fs sc → ∃ sc', Scan s sc = (sc', Fail ErrEOF).
Proof.
  intros (Hl & Hcl & Hp). unfold Scan. rewrite Hp.
  destruct (scanReadAt_spec s (sc_cache sc) _ msgSetHeaderLen (zlen (fs_bytes fs)) Hl Hcl)
    as (c & -> & Hl'); [unfold msgSetHeaderLen; lia|apply zlen_nonneg|].
  pose proof (read_spec_end (fs_bytes fs) msgSetHeaderLen ltac:(unfold msgSetHeaderLen; lia)) as E.
  destruct (read_spec _ _ _) as [r e]. cbn in E. subst e. by eexists.
Qed.

(** A loop over a scanner is a loop over the frames. *)
Fixpoint over_frames {St R} (body : St → bytes → entry → St + R) (fin : St → error → R)
    (st : St) (pos : Z) (fs : list frm) : R :=
  match fs with
  | [] => fin st ErrEOF
  | f :: fs =>
      match body st (fbytes f) (scanned pos f) with
      | inl st => over_frames body fin st (pos + zlen (fbytes f)) fs
      | inr r => r
      end
  end.

Lemma scanning_frames {St R} base fuel s sc a fs (body : St → bytes → entry → St + R) fin st :
  at_frame s (a ++ fs) a sc → Forall (frm_ok base) fs → Forall (λ f, 0 < zlen (f_data f)) fs →
  (length fs < fuel)%nat →
  scanning fuel s sc body fin st = Some (Ok (over_frames body fin st (zlen (fs_bytes a)) fs)).
Proof.
  revert fuel sc a st. induction fs as [|f fs IH]; intros fuel sc a st Ha Hf Hd Hfuel;
    (destruct fuel as [|fuel]; [simpl in Hfuel; lia|]); cbn [scanning over_frames].
  - rewrite app_nil_r in Ha. by destruct (Scan_end s sc a Ha) as [sc' ->].
  - apply Forall_cons in Hf as [Hf Hfs]. apply Forall_cons in Hd as [Hd Hds].
    destruct (Scan_frame base s sc a f fs Ha Hf Hd) as (sc' & -> & Ha').
    destruct (body _ _ _) as [st'|r]; [|done].
    rewrite (IH fuel sc' (a ++ [f])); [|by rewrite <- app_assoc|done|done|simpl in Hfuel; lia].
    by rewrite zlen_fs_snoc.
Qed.

Lemma fresh_cache s d : log_ok s d → log_ok (with_cache s newBlockCache) d.
Proof.
  unfold log_ok. cbn [with_cache blockMode]. destruct (blockMode s); [|done].
  intros (ps & Hd & <- & _). exists ps. split_and!; [|done|done].
  by destruct Hd as (? & ? & ? & ? & ? & ?).
Qed.

(** From the start of a segment. *)
Lemma scanning_holds {St R} fuel s fs (body : St → bytes → entry → St + R) fin st :
  holds s fs → (length fs < fuel)%nat →
  scanning fuel s newSegmentScanner body fin st = Some (Ok (over_frames body fin st 0 fs)).
Proof.
  intros (Hl & Hcl & _ & (_ & Hf & Hd & _) & _) Hfuel.
  apply (scanning_frames (BaseOffset s) fuel s newSegmentScanner [] fs); [|done..].
  split_and!; [by apply fresh_cache|done|done].
Qed.

End scanner.

(** ** Appending frames *)

(** The entries of frames that start at [pos], as the appender gets them. *)
Fixpoint entries_at (pos : Z) (fs : list frm) : list entry :=
  match fs with
  | [] => []
  | f :: fs => scanned pos f :: entries_at (pos + zlen (fbytes f)) fs
  end.

Lemma index_entries_at pos fs : index_entry <$> entries_at pos fs = fentries pos fs.
Proof. revert pos. induction fs as [|f fs IH]; intros pos; [done|]. simpl. by rewrite IH. Qed.

Lemma length_entries_at pos fs : length (entries_at pos fs) = length fs.
Proof. revert pos. induction fs as [|f fs IH]; intros pos; [done|]. simpl. by rewrite IH. Qed.

Lemma head_entries_at pos fs : head (entries_at pos fs) = scanned pos <$> head fs.
Proof. by destruct fs. Qed.

Lemma last_entries_at pos fs f :
  last fs = Some f → ∃ q, last (entries_at pos fs) = Some (scanned q f).
Proof.
  revert pos. induction fs as [|g fs IH]; intros pos Hl; [done|].
  destruct fs as [|g' fs]; [injection Hl as ->; by eexists|]. by apply IH.
Qed.

(** The bounds [noteWrittenLocked] leaves. *)
Definition noted (s : segment) (e0 el : entry) : segment :=
  let first := firstOffset s =? -1 in
  let later := lastOffset s <? e_Offset el in
  with_bounds s (if first then e_Offset e0 else firstOffset s)
    (if first then e_Timestamp e0 else firstWriteTime s)
    (if later then e_Offset el else lastOffset s)
    (if later then e_Timestamp el else lastWriteTime s) ∅.

(** The state [write] leaves. *)
Definition appended (s : segment) (file : bytes) (bs : list blockRef) (n phys : Z)
    (e0 el : entry) : segment :=
  noted (with_log (with_dirty s true true) file bs (position s + n) phys) e0 el.

Lemma noteWritten_eq s es e0 el :
  head es = Some e0 → last es = Some el → noteWrittenLocked s es = Ok (noted s e0 el).
Proof.
  intros H0 Hl. destruct es as [|e es]; [done|]. injection H0 as ->. unfold noteWrittenLocked, noted.
  replace (Prelude.index (e0 :: es) 0) with (Ok e0) by done. rewrite bind_Ok.
  destruct (firstOffset s =? -1); rewrite (blockv3.last_index _ _ Hl), bind_Ok;
    by destruct (lastOffset s <? _).
Qed.

Section writes.
Context `{CodecLaws}.

Lemma write_extends s d ms es e0 el :
  log_ok s d → closed s = false → codec_ok s → head es = Some e0 → last es = Some el →
  zlen es < 2 ^ 32 → 0 < zlen ms < 2 ^ 32 →
  ∃ file bs phys, write None s ms es = (appended s file bs (zlen ms) phys e0 el, Ok ()) ∧
    log_ok (appended s file bs (zlen ms) phys e0 el) (d ++ ms) ∧
    (blockMode s = true → logicalLen <$> bs = (logicalLen <$> blocks s) ++ [zlen ms]).
Proof.
  intros Hs Hcl Hcd H0 Hl Hes Hms. unfold write. rewrite Hcl.
  assert (0 < zlen es) by (destruct es; [done|]; rewrite zlen_cons; pose_zlen; lia).
  rewrite (proj2 (Z.eqb_neq _ _)) by lia. cbv zeta. cbn [with_dirty blockMode].
  unfold log_ok in Hs. destruct (blockMode s) eqn:Em.
  - destruct Hs as (ps & Hd & <- & Hok). unfold appendBlock.
    destruct (block_of (codec _) ms (zlen es)) as [cc buf] eqn:Eb.
    unfold appendBlockBytes, file_write. cbn [with_dirty backing position physPosition blocks].
    erewrite noteWritten_eq by done.
    set (b := {| logicalStart := position s; logicalLen := zlen ms; physStart := physPosition s;
      physLen := zlen buf; Block.codec := cc; records := zlen es; version := BlockFormatVersion;
      flags := 0 |}).
    exists (backing s ++ buf), (blocks s ++ [b]), (physPosition s + zlen buf). split_and!.
    + done.
    + set (p0 := {| p_raw := buf; p_ref := b; p_data := ms |}).
      assert (Hp0 : piece_ok p0) by (eapply block_of_ok; [apply Hcd..|exact Eb|lia|lia]).
      pose proof (describes_append s ps p0 (backing s ++ buf) Hd Hp0 eq_refl eq_refl) as Hd'.
      unfold log_ok, appended, noted. cbn [with_bounds with_log with_dirty blockMode]. rewrite Em. exists (ps ++ [p0]). split_and!.
      * destruct Hd as (_ & _ & Hb & _). rewrite Hb in *. by apply Hd'.
      * by rewrite datas_app, datas_one.
      * by apply cache_ok_more.
    + intros _. by rewrite fmap_app.
  - destruct Hs as [Hb Hp]. unfold file_write. cbn [with_dirty backing position physPosition blocks].
    erewrite noteWritten_eq by done. exists (backing s ++ ms), (blocks s), (physPosition s). split_and!.
    + done.
    + unfold log_ok, appended, noted. cbn. rewrite Em, Hb, Hp, zlen_app. done.
    + done.
Qed.

(** What an append leaves as it was. *)
Definition kept (s s' : segment) : Prop :=
  BaseOffset s' = BaseOffset s ∧ codec s' = codec s ∧ format s' = format s ∧
  blockMode s' = blockMode s ∧ maxBytes s' = maxBytes s ∧ sealed s' = sealed s ∧
  closed s' = closed s ∧ left s' = left s ∧ id s' = id s.

Lemma bounds_noted s fs new f0 fl q q' :
  bounds_hold s fs → ascending (fs ++ new) → Forall (λ f, 0 ≤ f_off f) (fs ++ new) →
  head new = Some f0 → last new = Some fl →
  bounds_hold (noted s (scanned q f0) (scanned q' fl)) (fs ++ new).
Proof.
  intros (Hfo & Hlo & Hft & Hlt) Ha Hp H0 Hl. unfold bounds_hold, noted. cbv zeta.
  cbn [with_bounds firstOffset lastOffset firstWriteTime lastWriteTime scanned e_Offset e_Timestamp].
  unfold head_off, tail_off, head_ts, tail_ts in *. rewrite Hfo, Hlo, Hft, Hlt, last_app, Hl.
  assert (Hin : fl ∈ new) by (by apply last_Some_elem_of).
  assert (Hl' : default (-1) (f_off <$> last fs) < f_off fl).
  { destruct (last fs) as [g|] eqn:Eg; cbn.
    - apply StronglySorted_app in Ha as (Hx & _). apply Hx; [|done]. by apply last_Some_elem_of.
    - apply Forall_app in Hp as [_ Hp]. eapply Forall_forall in Hp; [|exact Hin]. lia. }
  rewrite (proj2 (Z.ltb_lt _ _) Hl'). destruct fs as [|f fs]; cbn [head app fmap option_fmap default].
  - rewrite H0. by split_and!.
  - apply Forall_cons in Hp as [Hp _]. simpl. by rewrite (proj2 (Z.eqb_neq _ _)) by lia.
Qed.

Lemma group_rels_app base a b :
  group_rels base (a ++ b) =
  group_rels base a ++ ((λ e, Index.newRelEntry e base) <$> anchors (zlen (fs_bytes (concat a))) b).
Proof. unfold group_rels. by rewrite anchors_app, fmap_app. Qed.

(** Indexing frames that were just appended. *)
Lemma holds_indexed s fs new file bs phys f0 fl q' :
  holds s fs → new ≠ [] → frames_ok (BaseOffset s) (fs ++ new) →
  head new = Some f0 → last new = Some fl →
  (blockMode s = true → logicalLen <$> bs = (logicalLen <$> blocks s) ++ [zlen (fs_bytes new)]) →
  let s1 := appended s file bs (zlen (fs_bytes new)) phys (scanned (position s) f0) (scanned q' fl) in
  log_ok s1 (fs_bytes fs ++ fs_bytes new) →
  ∃ s', index_write Index.no_faults s1
          (if blockMode s then take 1 (entries_at (position s) new) else entries_at (position s) new) =
          (s', Ok ()) ∧ holds s' (fs ++ new) ∧ kept s s' ∧ waiters s' = ∅ ∧
          (Index.tight (Index s) → Index.tight (Index s')).
Proof.
  intros (Hl & Hcl & Hle & Hfs & Hb & gs & -> & Hi) Hne Hok H0 Hla Hbs s1 Hl'.
  pose proof Hok as (Hbase & Hf & Hd & Ha & Hz).
  assert (Hpos : position s = zlen (fs_bytes (concat gs))) by (by apply log_ok_position).
  (* the groups the index describes afterwards *)
  set (new_gs := if blockMode s then [new] else singles new).
  assert (Hcc : concat new_gs = new).
  { unfold new_gs. destruct (blockMode s); [apply app_nil_r|apply concat_singles]. }
  assert (Hes : index_entry <$> (if blockMode s then take 1 (entries_at (position s) new)
                                 else entries_at (position s) new) =
    anchors (zlen (fs_bytes (concat gs))) new_gs).
  { unfold new_gs. rewrite Hpos. destruct (blockMode s).
    - rewrite fmap_take, index_entries_at. destruct new; [done|]. done.
    - by rewrite index_entries_at, fentries_singles. }
  unfold index_write. rewrite Hes. destruct Hi as (Hg & Hcov & Hib & Hr & Hmode).
  change (Index s1) with (Index s).
  destruct (Index.writeEntries_spec Index.no_faults (Index s) _
    (anchors (zlen (fs_bytes (concat gs))) new_gs) Hr) as [Hspec Hok'].
  { rewrite Hib. apply Forall_app in Hf as [_ Hf]. rewrite <- Hcc in Hf.
    apply anchors_representable; [done|apply zlen_nonneg|]. rewrite Hcc, <- zlen_app, <- fs_bytes_app. done. }
  pose proof (Index.writeEntries_tight (Index s) _ (anchors (zlen (fs_bytes (concat gs))) new_gs) Hr) as Hti.
  specialize (Hok' eq_refl). destruct (Index.writeEntries _ _ _) as [idx r]. cbn in Hok', Hti. subst r.
  destruct Hspec as (Hr' & Hcov' & Hib'). eexists. split; [done|]. split; [|by split_and!].
  split_and!; [by rewrite fs_bytes_app|done|done|done| |].
  - apply (bounds_noted (with_log (with_dirty s true true) file bs
      (position s + zlen (fs_bytes new)) phys)); [done|done| |done|done].
    eapply Forall_impl; [exact Hf|]. intros f ((? & ?) & _). lia.
  - exists (gs ++ new_gs). rewrite concat_app, Hcc. split; [done|].
    unfold index_holds. cbn [with_index Index BaseOffset blockMode blocks].
    change (BaseOffset s1) with (BaseOffset s). change (blockMode s1) with (blockMode s).
    split_and!; [|done|by rewrite Hib'| |].
    + apply Forall_app. split; [done|]. unfold new_gs. destruct (blockMode s); [|apply full_singles].
      by apply Forall_singleton.
    + rewrite group_rels_app. by rewrite Hib in Hr'.
    + unfold new_gs. destruct (blockMode s).
      * rewrite fmap_app, <- Hmode. by apply Hbs.
      * rewrite concat_app, concat_singles. unfold singles at 2. rewrite fmap_app. by f_equal.
Qed.

(** The sizes of a set that fits. *)
Lemma new_sizes base fs new :
  new ≠ [] → frames_ok base (fs ++ new) →
  0 < zlen (fs_bytes new) < 2 ^ 32 ∧ zlen (entries_at 0 new) < 2 ^ 32.
Proof.
  intros Hne (_ & _ & _ & _ & Hz). rewrite fs_bytes_app, zlen_app in Hz.
  pose proof (zlen_nonneg (fs_bytes fs)). pose proof (length_fs_bytes new).
  split; [|unfold zlen in *; rewrite length_entries_at; lia].
  destruct new as [|f new]; [done|]. rewrite fs_bytes_cons, zlen_app, zlen_fbytes in *.
  pose_zlen. lia.
Qed.

Lemma holds_append s fs new :
  holds s fs → codec_ok s → new ≠ [] → frames_ok (BaseOffset s) (fs ++ new) →
  ∃ s', WriteMessageSet None Index.no_faults s (fs_bytes new) (entries_at (position s) new) =
          (s', Ok ()) ∧ holds s' (fs ++ new) ∧ kept s s' ∧ waiters s' = ∅ ∧
          (Index.tight (Index s) → Index.tight (Index s')).
Proof.
  intros Hh Hcd Hne Hok. pose proof Hh as (Hl & Hcl & _).
  destruct (head new) as [f0|] eqn:H0; [|by destruct new]. destruct (last new) as [fl|] eqn:Hla;
    [|by apply last_None in Hla].
  destruct (last_entries_at (position s) new fl Hla) as [q' Hlq].
  destruct (new_sizes _ _ _ Hne Hok) as [Hzn Hze].
  destruct (write_extends s (fs_bytes fs) (fs_bytes new) (entries_at (position s) new)
    (scanned (position s) f0) (scanned q' fl)) as (file & bs & phys & Hw & Hl' & Hbs);
    [done|done|done|by rewrite head_entries_at, H0|done| |done|].
  { unfold zlen in *. by rewrite length_entries_at in *. }
  unfold WriteMessageSet. rewrite Hw.
  change (blockMode (appended _ _ _ _ _ _ _)) with (blockMode s).
  by apply (holds_indexed s fs new).
Qed.

(** The header of a block names its version, and its flags. *)
Lemma piece_version p :
  piece_ok p → byte_at (p_raw p) 1 = Ok (version (p_ref p)) ∧
  (if version (p_ref p) =? blockv3.Version
   then ∃ h, blockv3.DecodeHeader (p_raw p) = Ok h ∧ flags (p_ref p) = blockv3.Flags h
   else flags (p_ref p) = 0).
Proof.
  intros (_ & _ & _ & [(-> & Hf & _ & _ & _ & _ & pl & _ & -> & _)|(-> & h & pl & Hok & -> & _ & _ & _ & Hf & _)]).
  - by split.
  - split; [by destruct (sealed_head h) as [r ->]|]. rewrite Z.eqb_refl. exists h. by rewrite blockv3.decode_sealed.
Qed.

(** A block whose logical bytes are the frames [new], written as it is. *)
Lemma holds_piece s fs new raw c v fl :
  let b := {| logicalStart := position s; logicalLen := zlen (fs_bytes new); physStart := physPosition s;
              physLen := zlen raw; Block.codec := c; records := zlen new; version := v; flags := fl |} in
  holds s fs → blockMode s = true → new ≠ [] → frames_ok (BaseOffset s) (fs ++ new) →
  piece_ok {| p_raw := raw; p_ref := b; p_data := fs_bytes new |} →
  ∃ s', WriteBlock None Index.no_faults s raw c (zlen (fs_bytes new))
          (entries_at (position s) new) = (s', Ok ()) ∧
        holds s' (fs ++ new) ∧ kept s s' ∧ waiters s' = ∅ ∧
        (Index.tight (Index s) → Index.tight (Index s')).
Proof.
  intros b Hh Hm Hne Hok Hp0. pose proof Hh as (Hl & Hcl & _).
  destruct (head new) as [f0|] eqn:H0; [|by destruct new]. destruct (last new) as [fl'|] eqn:Hla;
    [|by apply last_None in Hla].
  destruct (last_entries_at (position s) new fl' Hla) as [q' Hlq].
  destruct (new_sizes _ _ _ Hne Hok) as [Hzn Hze].
  assert (Hzl : zlen (entries_at (position s) new) = zlen new)
    by (unfold zlen; by rewrite length_entries_at).
  unfold WriteBlock. rewrite Hcl, (proj2 (Z.eqb_neq _ _)).
  2: { rewrite Hzl. destruct new; [done|]. rewrite zlen_cons. pose_zlen. lia. }
  destruct (piece_version _ Hp0) as [Ev Hfl]. cbn [p_raw p_ref b version flags] in Ev, Hfl.
  rewrite Ev. cbv zeta.
  assert ((if v =? blockv3.Version then match blockv3.DecodeHeader raw with
    | Ok h => Ok (blockv3.Flags h) | Fail _ => Fail (ErrMessageSetRefused "block header") | Panic => Panic end
    else Ok 0) = Ok fl) as ->.
  { destruct (v =? _); [by destruct Hfl as (h & -> & ->)|by rewrite Hfl]. }
  unfold appendBlockBytes, file_write. cbn [with_dirty backing position physPosition blocks].
  erewrite noteWritten_eq; [|by rewrite head_entries_at, H0|exact Hlq].
  unfold log_ok in Hl. rewrite Hm in Hl. destruct Hl as (ps & Hd & Hdt & Hca). rewrite Hzl. fold b.
  set (p0 := {| p_raw := raw; p_ref := b; p_data := fs_bytes new |}) in *.
  pose proof (describes_append s ps p0 (backing s ++ p_raw p0) Hd Hp0 eq_refl eq_refl) as Hd'.
  pose proof (holds_indexed s fs new (backing s ++ p_raw p0) (blocks s ++ [b])
    (physPosition s + zlen (p_raw p0)) f0 fl' q' Hh Hne Hok H0 Hla) as HI. rewrite Hm in HI.
  apply HI; [intros _; by rewrite fmap_app|].
  unfold log_ok. change (blockMode (appended _ _ _ _ _ _ _)) with (blockMode s). rewrite Hm.
  exists (ps ++ [p0]). split_and!.
  - destruct Hd as (_ & _ & Hbk & _). rewrite Hbk in *. by apply Hd'.
  - by rewrite datas_app, datas_one, Hdt.
  - by apply cache_ok_more.
Qed.

(** A version-3 block. *)
Lemma holds_block s fs new data h recs :
  holds s fs → blockMode s = true → new ≠ [] → frames_ok (BaseOffset s) (fs ++ new) →
  blockv3.DecodeBlock data = Ok (h, recs) → Framing.decodeV3Block data = Ok (fs_bytes new) →
  zlen new = blockv3.Records h →
  ∃ s', WriteBlock None Index.no_faults s data (blockv3.Codec h) (zlen (fs_bytes new))
          (entries_at (position s) new) = (s', Ok ()) ∧
        holds s' (fs ++ new) ∧ kept s s' ∧ waiters s' = ∅ ∧
        (Index.tight (Index s) → Index.tight (Index s')).
Proof.
  intros Hh Hm Hne Hok Hdec Hfr Hr. apply (holds_piece s fs new data _ blockv3.Version (blockv3.Flags h)); try done.
  destruct (new_sizes _ _ _ Hne Hok) as [Hzn _].
  apply blockv3.DecodeBlock_inv in Hdec as [Hhok (p & -> & Hp & _)].
  unfold piece_ok. split_and!; try done; [cbn; lia|]. right. split; [done|]. exists h, p. by split_and!.
Qed.

End writes.

(** Sealing keeps what a segment holds. *)
Lemma holds_seal `{CodecLib} f sf tf s fs :
  holds s fs → holds (seal f sf tf s) fs ∧ BaseOffset (seal f sf tf s) = BaseOffset s ∧
    codec (seal f sf tf s) = codec s ∧ maxBytes (seal f sf tf s) = maxBytes s.
Proof.
  intros Hh. unfold seal. destruct (sealed s); [done|].
  destruct Hh as (Hl & Hcl & Hle & Hfs & Hb & gs & -> & (Hg & Hc & Hib & Hr & Hm)).
  pose proof Hr as (Hic & _). cbn [notifyWaiters with_waiters with_bounds with_state Index]. rewrite Hic.
  destruct (Index.shrink_spec f (Index s) _ Hr Hc) as (Hr' & Hc' & Hb').
  set (s1 := with_index _ _). set (s2 := if negb sf && _ then with_dirty s1 _ _ else s1).
  assert (Hs2 : holds s2 (concat gs) ∧ BaseOffset s2 = BaseOffset s ∧ codec s2 = codec s ∧
    maxBytes s2 = maxBytes s).
  { unfold s2. destruct (negb sf && _); (split; [|done]); (split_and!; try done);
      exists gs; (split; [done|]); unfold index_holds; cbn; rewrite Hb'; by split_and!. }
  destruct (blockMode s2 && (0 <? zlen (blocks s2)) && negb tf); exact Hs2.
Qed.

(** C31: Seeks find the first record.  In an open segment, raw or block, that
    holds the frames [fs], [findEntry] returns the entry of the first frame
    whose offset is at least the one asked for, with its position and size, and
    [ErrEntryNotFound] exactly when there is none; when the timestamps do not
    decrease along the segment, [findEntryByTimestamp] does the same for
    timestamps ([falling_time_missed] has some that do).  Anchors, block
    boundaries and the block cache do not show. *)
Theorem seek_finds_first `{CodecLib} fuel s fs offset timestamp :
  holds s fs → (length fs < fuel)%nat →
  (∃ c, findEntry fuel s offset = Some (with_cache s c, found s (λ f, offset <=? f_off f) fs) ∧
        holds (with_cache s c) fs) ∧
  (timely fs →
   ∃ c, findEntryByTimestamp fuel s timestamp =
          Some (with_cache s c, found s (λ f, timestamp <=? f_ts f) fs) ∧
        holds (with_cache s c) fs).
Proof.
  intros Hh Hfuel. unfold findEntry, findEntryByTimestamp, anchorPositionForOffset,
    anchorPositionForTimestamp. split.
  - destruct (findEntryBy_spec fuel s fs (λ x _, offset <=? x) (λ x _, offset <? x))
      as (c & E & Hh'); [done| |done|by exists c].
    apply ascending_searchable. by destruct Hh as (_ & _ & _ & (_ & _ & _ & ? & _) & _).
  - intros Ht.
    destruct (findEntryBy_spec fuel s fs (λ _ x, timestamp <=? x) (λ _ x, timestamp <=? x))
      as (c & E & Hh'); [done|by apply timely_searchable|done|by exists c].
Qed.

(** Where the timestamps fall, the search of a raw segment may pass over the
    first frame at or after a time: of three frames the middle one of which is
    before it, the search finds the third. *)
Lemma falling_time_missed `{CodecLib} fuel s f g h timestamp :
  holds s [f; g; h] → blockMode s = false → f_ts g < timestamp → timestamp ≤ f_ts f → timestamp ≤ f_ts h →
  findEntryByTimestamp fuel s timestamp = Some (s, Ok (entry_of (fentry (zlen (fs_bytes [f; g])) h))).
Proof.
  intros (_ & _ & Hle & (_ & Hf & _ & _ & Hz) & _ & gs & Egs & Hi) Hm Hg Hff Hhh.
  pose proof Hi as (_ & Hc & Hb & Hr & Hgs). rewrite Hm, <- Egs in Hgs. subst gs.
  unfold findEntryByTimestamp, findEntryBy. rewrite Hle, Hm. do 2 f_equal. rewrite <- (concat_singles [f; g; h]) in Hf, Hz.
  pose proof (entries_of_groups _ _ _ Hf Hz Hb) as He. rewrite <- fentries_singles in He.
  set (rels := group_rels _ _) in *. assert (Hn : zlen rels = 3) by done.
  assert (Hrd : ∀ i e, fentries 0 [f; g; h] !! i = Some e → Index.ReadEntryAtLogOffset (Index s) (Z.of_nat i) = Ok e).
  { intros i e Ei. rewrite <- He in Ei. apply list_lookup_fmap_Some in Ei as (r & -> & Er). by apply (Index.rep_read (Index s) rels i r). }
  pose proof (Hrd 0%nat _ eq_refl) as Hrd0. pose proof (Hrd 1%nat _ eq_refl) as Hrd1. pose proof (Hrd 2%nat _ eq_refl) as Hrd2.
  unfold Index.searchEntries. rewrite (Index.rep_count _ _ Hr), Hn.
  rewrite (Sort.SearchErr_total 3 _ (λ i, negb (i =? 1))).
  2: { intros k Hk. assert (k = 0 ∨ k = 1 ∨ k = 2) as [-> | [-> | ->]] by lia.
    - rewrite (Hrd0 : Index.ReadEntryAtLogOffset _ 0 = _), bind_Ok. cbn. f_equal. by apply Z.leb_le.
    - rewrite (Hrd1 : Index.ReadEntryAtLogOffset _ 1 = _), bind_Ok. cbn. f_equal. by apply Z.leb_gt.
    - rewrite (Hrd2 : Index.ReadEntryAtLogOffset _ 2 = _), bind_Ok. cbn. f_equal. by apply Z.leb_le. }
  change (Sort.Search 3 _) with 2. rewrite bind_Ok. cbn [Z.eqb Pos.eqb]. rewrite (Hrd2 : Index.ReadEntryAtLogOffset _ 2 = _), !bind_Ok. cbn [Z.eqb Pos.eqb].
  do 3 f_equal. rewrite fs_bytes_cons, zlen_app, fs_bytes_cons, zlen_app. change (zlen (fs_bytes [])) with 0. lia.
Qed.

(** *** Witnesses *)

(** An empty compressed segment with room for four index entries. *)
Definition empty_sample : segment :=
  with_index (fresh CZstd)
    {| Index.baseOffset := 4100; Index.bytes_ := 40; Index.file := replicate 80 (byte.of_Z 0);
       Index.mmap := Some 80; Index.size := 80; Index.position := 0; Index.closed := false |}.

Definition sample_frames : list frm := [sample_frame 4100; sample_frame 4101; sample_frame 4103].

Lemma sample_frames_ok : frames_ok 4100 sample_frames.
Proof.
  split_and!; [lia|lia| | | |by vm_compute].
  - repeat (apply Forall_cons; split); [apply sample_frame_ok; lia..|by apply Forall_nil].
  - by repeat (apply Forall_cons; split); [..|apply Forall_nil].
  - repeat constructor; cbn; lia.
Qed.

Lemma empty_sample_holds : @holds half_lib empty_sample [].
Proof.
  split_and!; try done; [|split_and!; try done; try (by constructor)|].
  - exists []. by split_and!.
  - exists []. split; [done|]. split_and!; try done; [by constructor|].
    split_and!; try done. by eexists.
Qed.

Lemma sample_holds :
  ∃ s, @WriteMessageSet half_lib None Index.no_faults empty_sample (fs_bytes sample_frames)
         (entries_at 0 sample_frames) = (s, Ok ()) ∧
       @holds half_lib s sample_frames ∧ kept empty_sample s.
Proof.
  destruct (@holds_append half_lib half_laws empty_sample [] sample_frames) as (s & E & Hh & Hk & _).
  - apply empty_sample_holds.
  - done.
  - done.
  - apply sample_frames_ok.
  - by exists s.
Qed.

Lemma seek_finds_first_witness :
  ∃ s c, @WriteMessageSet half_lib None Index.no_faults empty_sample (fs_bytes sample_frames)
           (entries_at 0 sample_frames) = (s, Ok ()) ∧
         @findEntry half_lib 9 s 4102 = Some (with_cache s c, Ok (scanned 70 (sample_frame 4103))).
Proof.
  destruct sample_holds as (s & E & Hh & Hk).
  destruct (@seek_finds_first half_lib 9 s sample_frames 4102 0 Hh) as [(c & Ef & _) _]; [simpl; lia|].
  exists s, c. split; [exact E|]. rewrite Ef. unfold found.
  destruct Hk as (_ & _ & _ & -> & _). reflexivity.
Defined.

End SegmentSearch.
