(* ===== verification/SegmentReopen.v ===== *)
(** * Reopening block segments: the block half of recovery in segment.go

    [setupIndex] and [reconcileIndexTail] over a segment of blocks, whose index
    is sparse: one anchor per block, for the block's first frame.  Together with
    the raw recovery of [SegmentIndex] the result is stated as [holds]: the
    reopened segment stores exactly the frames found, and every search and scan
    of [SegmentSearch] is correct on it. *)

From Stdlib Require Import ZArith Lia.
From stdpp Require Import base list numbers strings gmap sorting.
From coqutil Require Import Byte.
From S2P Require Import Prelude GoStd Wire Compress BlockV3 Block Framing Index Segment SegmentIndex.
From S2P Require Import SegmentSearch.

Open Scope Z_scope.

Module SegmentReopen.
Import Segment SegmentIndex SegmentSearch.

Lemma rels_of_singles base fs : rels_of base 0 fs = group_rels base (singles fs).
Proof. unfold rels_of, group_rels. by rewrite fentries_singles. Qed.

(** A recovered raw segment. *)
Lemma recovered_holds `{CodecLib} base fs s :
  recovered base fs s → left s = false → frames_ok base fs → holds s fs.
Proof.
  intros (Hb & Hp & Hm & Hcl & HB & Hbd & Hr & Hc & Hib) Hl Hfs.
  split_and!; [unfold log_ok; by rewrite Hm|done|done|by rewrite HB|done|].
  exists (singles fs). rewrite concat_singles. split; [done|].
  unfold index_holds. rewrite Hm, HB, concat_singles, <- rels_of_singles.
  by split_and!; [apply full_singles|..].
Qed.

(** ** Blocks of frames *)

(** The blocks [ps] store the groups of frames [gs]. *)
Definition stores (ps : list piece) (gs : list (list frm)) : Prop :=
  Forall2 (λ p g, p_data p = fs_bytes g) ps gs.

Lemma stores_datas ps gs : stores ps gs → datas ps = fs_bytes (concat gs).
Proof.
  induction 1 as [|p g ps gs Hp _ IH]; [done|]. unfold datas in *. cbn [fmap list_fmap concat].
  by rewrite fs_bytes_app, Hp, IH.
Qed.

Lemma stores_lens `{CodecLib} l q ps gs :
  chain l q ps → stores ps gs → logicalLen <$> refs ps = (λ g, zlen (fs_bytes g)) <$> gs.
Proof.
  intros Hc Hs. revert l q Hc. induction Hs as [|p g ps gs Hp _ IH]; intros l q Hc; [done|].
  destruct Hc as ((_ & Hl & _) & _ & _ & Hc). unfold refs in *. cbn [fmap list_fmap].
  f_equal; [by rewrite Hl, Hp|by eapply IH].
Qed.

Lemma fs_bytes_pos fs : fs ≠ [] → 0 < zlen (fs_bytes fs).
Proof.
  destruct fs as [|f fs]; [done|]. intros _. rewrite fs_bytes_cons, zlen_app, zlen_fbytes.
  pose_zlen. lia.
Qed.

Section blocks.
Context `{CodecLib}.

Lemma findBlock_at ps1 p ps2 :
  chain 0 0 (ps1 ++ p :: ps2) →
  findBlock (refs (ps1 ++ p :: ps2)) (zlen (datas ps1)) = Some (p_ref p).
Proof.
  intros Hc. pose proof (chain_mid _ _ _ _ _ Hc) as [(_ & _ & Hd & _) _].
  destruct (findBlock_chain _ (zlen (datas ps1)) Hc) as (a & p' & b & E & -> & Hs & Ho).
  { rewrite datas_app, zlen_app. change (datas (p :: ps2)) with (p_data p ++ datas ps2).
    rewrite zlen_app. pose_zlen. lia. }
  rewrite Hs in Ho. apply app_eq_inv in E as [(k & -> & E)|(k & -> & E)]; destruct k as [|x k].
  - by injection E as -> _.
  - injection E as -> ->. rewrite datas_app, zlen_app in Ho.
    change (datas (x :: k)) with (p_data x ++ datas k) in Ho. rewrite zlen_app in Ho. pose_zlen. lia.
  - by injection E as -> _.
  - injection E as -> ->. rewrite datas_app, zlen_app in Ho.
    change (datas (x :: k)) with (p_data x ++ datas k) in Ho. rewrite zlen_app in Ho. pose_zlen. lia.
Qed.

(** Past the last block there is none. *)
Lemma findBlock_past ps off : chain 0 0 ps → zlen (datas ps) ≤ off → findBlock (refs ps) off = None.
Proof.
  intros Hc Hoff. destruct (Sort.Search_list _ (λ b, off <? logicalStart b + logicalLen b) (refs ps)
    (chain_sorted _ _ _ Hc)) as [Hi Hdrop].
  { intros x y Hxy. rewrite !Z.ltb_lt. lia. }
  unfold findBlock. cbv zeta. set (i := Sort.Search _ _) in *.
  rewrite <- (Nat.add_0_r (Z.to_nat i)), <- lookup_drop, Hdrop.
  assert (filter (λ b, (off <? logicalStart b + logicalLen b) = true) (refs ps) = []) as ->; [|done].
  apply filter_none, Forall_fmap, Forall_forall. intros p Hp. simpl.
  apply list_elem_of_split in Hp as (a & b & ->).
  apply chain_app in Hc as [_ ((_ & Hl & _) & Hs & _)]. rewrite Z.ltb_lt, Hl, Hs.
  rewrite datas_app, zlen_app in Hoff. change (datas (p :: b)) with (p_data p ++ datas b) in Hoff.
  rewrite zlen_app in Hoff. pose_zlen. lia.
Qed.

Lemma decodeBlock_at s ps1 p ps2 :
  describes s (ps1 ++ p :: ps2) → decodeBlock (backing s) (p_ref p) = Ok (p_data p).
Proof.
  intros (_ & Hc & -> & _). pose proof (chain_mid _ _ _ _ _ Hc) as [Hp Hq].
  rewrite raws_app. change (raws (p :: ps2)) with (p_raw p ++ raws ps2).
  apply decodeBlock_piece; [done|]. by rewrite Hq.
Qed.

(** *** The last frame of a block *)

Lemma last_frame_spec base fuel a b start acc :
  Forall (frm_ok base) b → (length b < fuel)%nat →
  ∃ q, last_frame fuel (fs_bytes (a ++ b)) start (zlen (fs_bytes a)) acc =
       Some (Ok (match last b with Some f => Some (scanned q f) | None => acc end)).
Proof.
  revert fuel a acc. induction b as [|f b IH]; intros fuel a acc Hb Hfuel;
    (destruct fuel as [|fuel]; [simpl in Hfuel; lia|]); cbn [last_frame].
  - exists 0. rewrite app_nil_r. by rewrite (proj2 (Z.ltb_lt _ _)) by (unfold msgSetHeaderLen; lia).
  - apply Forall_cons in Hb as [Hf Hb]. pose proof Hf as (_ & _ & _ & _ & _ & Hz).
    rewrite zlen_fbytes in Hz. pose proof (zlen_nonneg (f_data f)).
    rewrite fs_bytes_app, fs_bytes_cons, slice_from_app by done.
    rewrite (proj2 (Z.ltb_ge _ _)).
    2: { rewrite !zlen_app, zlen_fbytes. unfold msgSetHeaderLen. pose_zlen. lia. }
    unfold fbytes at 1. rewrite bind_Ok, <- app_assoc, (frm_ok_fields base f) by done.
    rewrite <- fs_bytes_cons, <- fs_bytes_app.
    replace (zlen (fs_bytes a) + msgSetHeaderLen + zlen (f_data f)) with (zlen (fs_bytes (a ++ [f])))
      by (rewrite zlen_fs_snoc, zlen_fbytes; unfold msgSetHeaderLen; lia).
    replace (a ++ f :: b) with ((a ++ [f]) ++ b) by (by rewrite <- app_assoc).
    set (e := {| e_Offset := _ |}).
    assert (He : e = scanned (start + zlen (fs_bytes a)) f).
    { unfold e, scanned, msgSetHeaderLen. f_equal. rewrite zlen_fbytes, sint_nonneg; lia. }
    rewrite He. simpl in Hfuel. destruct (IH fuel (a ++ [f]) (Some (scanned (start + zlen (fs_bytes a)) f)))
      as [q ->]; [done|lia|].
    destruct (last b) as [f'|] eqn:El.
    + exists q. destruct b; [done|]. by rewrite last_cons_cons, El.
    + apply last_None in El as ->. by eexists.
Qed.

Lemma lastFrameInBlock_spec base fuel s ps1 p ps2 g f :
  describes s (ps1 ++ p :: ps2) → p_data p = fs_bytes g → Forall (frm_ok base) g →
  last g = Some f → (length g < fuel)%nat →
  ∃ q, lastFrameInBlock fuel s (zlen (datas ps1)) = Some (Ok (scanned q f)).
Proof.
  intros Hd Hg Hf Hl Hfuel. unfold lastFrameInBlock.
  pose proof Hd as (_ & Hc & _ & -> & _). rewrite findBlock_at by done.
  rewrite (decodeBlock_at s ps1 p ps2 Hd), Hg.
  apply chain_app in Hc as [_ (_ & Hs & _)]. rewrite Hs, Z.add_0_l, Z.sub_diag.
  destruct (last_frame_spec base fuel [] g (zlen (datas ps1)) None Hf Hfuel) as [q E].
  change (zlen (fs_bytes [])) with 0 in E. rewrite app_nil_l in E. rewrite E, Hl. by exists q.
Qed.

(** *** Anchors for the blocks that have none *)

Lemma anchor_step base s pa p pb ga f g :
  describes s (pa ++ p :: pb) → stores pa ga → p_data p = fs_bytes (f :: g) → frm_ok base f →
  zlen (fs_bytes (concat ga)) < 2 ^ 31 → Index.rep (Index s) (group_rels base ga) →
  Index.baseOffset (Index s) = base →
  ∃ idx, anchor_blocks Index.no_faults s (refs (p :: pb)) =
      anchor_blocks Index.no_faults
        (indexed s idx (step_first s f).1 (step_first s f).2 (lastOffset s) (lastWriteTime s))
        (refs pb) ∧
    Index.rep idx (group_rels base (ga ++ [f :: g])) ∧ Index.covered idx ∧
    Index.baseOffset idx = base.
Proof.
  intros Hd Ha Hg Hf Hz Hr Hbase. unfold refs. cbn [fmap list_fmap anchor_blocks].
  rewrite (decodeBlock_at s pa p pb Hd), Hg, bind_Ok, fs_bytes_cons.
  pose proof (zlen_fbytes f) as Hzf. pose proof (zlen_nonneg (f_data f)).
  rewrite (proj2 (Z.ltb_ge _ _)).
  2: { rewrite zlen_app, Hzf. unfold msgSetHeaderLen. pose_zlen. lia. }
  unfold fbytes at 1. rewrite <- app_assoc, (frm_ok_fields base f), bind_Ok by done.
  pose proof Hd as (_ & Hch & _). apply chain_app in Hch as [_ (_ & Hs & _)].
  rewrite Z.add_0_l in Hs. rewrite Hs, (stores_datas pa ga Ha). set (e := {| e_Offset := _ |}).
  assert (He : index_entry e = fentry (zlen (fs_bytes (concat ga))) f).
  { unfold e, fentry, index_entry. cbn. f_equal. unfold msgSetHeaderLen. rewrite Hzf.
    apply sint_nonneg; [lia|]. destruct Hf as (_ & _ & _ & _ & _ & Hl). lia. }
  unfold index_write. cbn [fmap list_fmap]. rewrite He.
  destruct (Index.writeEntries_one (Index s) _ (fentry (zlen (fs_bytes (concat ga))) f) Hr)
    as (idx & -> & Hr1 & Hc1 & Hb1);
    [rewrite Hbase; apply fentry_representable; [done|]; pose_zlen; lia|].
  exists idx. rewrite Hbase in *. rewrite group_rels_app. split; [|done].
  cbn [with_index firstOffset firstWriteTime]. unfold step_first. by destruct (firstOffset s =? -1).
Qed.

Lemma anchor_blocks_spec base s pa pb ga gb :
  describes s (pa ++ pb) → stores pa ga → stores pb gb → full gb →
  Forall (frm_ok base) (concat gb) → zlen (fs_bytes (concat (ga ++ gb))) < 2 ^ 31 →
  Index.rep (Index s) (group_rels base ga) → Index.covered (Index s) →
  Index.baseOffset (Index s) = base →
  ∃ idx, anchor_blocks Index.no_faults s (refs pb) =
      Ok (indexed s idx (first_off s (concat gb)) (first_ts s (concat gb)) (lastOffset s)
            (lastWriteTime s)) ∧
    Index.rep idx (group_rels base (ga ++ gb)) ∧ Index.covered idx ∧ Index.baseOffset idx = base.
Proof.
  revert s pa ga gb. induction pb as [|p pb IH]; intros s pa ga gb Hd Ha Hb Hfull Hf Hz Hr Hc Hbase.
  - apply Forall2_nil_inv_l in Hb as ->. exists (Index s). rewrite app_nil_r. split; [|done].
    unfold first_off, first_ts. cbn.
    assert (E : (if firstOffset s =? -1 then -1 else firstOffset s) = firstOffset s).
    { destruct (Z.eqb_spec (firstOffset s) (-1)); [congruence|done]. }
    assert (E' : (if firstOffset s =? -1 then firstWriteTime s else firstWriteTime s) =
      firstWriteTime s) by (by destruct (_ =? _)).
    rewrite E, E'. unfold indexed, with_bounds, with_index. simpl. by destruct s.
  - apply Forall2_cons_inv_l in Hb as (g & gb' & Hg & Hb & ->).
    apply Forall_cons in Hfull as [Hne Hfull]. destruct g as [|f g]; [done|].
    rewrite concat_cons in Hf. apply Forall_app in Hf as [Hfg Hf].
    apply Forall_cons in Hfg as [Hff _].
    destruct (anchor_step base s pa p pb ga f g) as (idx1 & -> & Hr1 & Hc1 & Hb1); [done..| |done|done|].
    { rewrite concat_app, fs_bytes_app, zlen_app in Hz. pose_zlen. lia. }
    set (s1 := indexed s idx1 _ _ _ _).
    destruct (IH s1 (pa ++ [p]) (ga ++ [f :: g]) gb') as (idx & -> & Hr' & Hc' & Hb'); try done.
    + rewrite <- app_assoc. by destruct Hd as (? & ? & ? & ? & ? & ?).
    + apply Forall2_app; [done|]. by repeat constructor.
    + by rewrite <- app_assoc.
    + exists idx. rewrite <- app_assoc in Hr'. split; [|done].
      destruct (first_step base s f (concat gb') idx1 (lastOffset s) (lastWriteTime s) Hff)
        as [E1 E2]. fold s1 in E1, E2. by rewrite E1, E2.
Qed.

(** ** Reconciliation *)

(** An open block segment: its log is the blocks [ps]. *)
Definition opened (base : Z) (s : segment) (ps : list piece) : Prop :=
  describes s ps ∧ cache_ok (id s) (cache s) ps ∧ closed s = false ∧ left s = false ∧
  BaseOffset s = base.

(** Its index holds anchors for the groups [gs]. *)
Definition anchored (base : Z) (s : segment) (gs : list (list frm)) : Prop :=
  Index.rep (Index s) (group_rels base gs) ∧ Index.covered (Index s) ∧
  Index.baseOffset (Index s) = base.

Definition whole (base : Z) (s : segment) (ps : list piece) (gs : list (list frm)) : Prop :=
  opened base s ps ∧ anchored base s gs ∧ bounds_hold s (concat gs).

Definition fuel_for (fuel : nat) (gs : list (list frm)) : Prop :=
  Forall (λ g, (length g < fuel)%nat) gs.

Lemma whole_holds base s ps gs :
  whole base s ps gs → stores ps gs → full gs → frames_ok base (concat gs) → holds s (concat gs).
Proof.
  intros ((Hd & Hca & Hcl & Hle & HB) & (Hr & Hc & Hib) & Hbd) Hs Hfull Hok.
  pose proof Hd as (Hm & Hch & _ & Hbs & _).
  split_and!; [|done|done|by rewrite HB|done|].
  - unfold log_ok. rewrite Hm. exists ps. by rewrite (stores_datas ps gs Hs).
  - exists gs. split; [done|]. unfold index_holds. rewrite Hm, HB, Hbs, (stores_lens 0 0 ps gs) by done.
    by split_and!.
Qed.

Lemma group_count base s gs :
  anchored base s gs → full gs → Index.numEntries (Index s) = zlen gs.
Proof.
  intros (Hr & _) Hg. change (Index.numEntries (Index s)) with (Index.CountEntries (Index s)).
  rewrite (Index.rep_count _ _ Hr). unfold group_rels, zlen.
  by rewrite length_fmap, length_anchors.
Qed.

Lemma stores_length ps gs : stores ps gs → length ps = length gs.
Proof. apply Forall2_length. Qed.

(** The last frame of the blocks that [pa] is, looked up from their last
    anchor. *)
Lemma group_end base fuel s pa pb ga :
  describes s (pa ++ pb) → stores pa ga → full ga → ga ≠ [] → Forall (frm_ok base) (concat ga) →
  fuel_for fuel ga →
  ∃ e b q f, last (anchors 0 ga) = Some e ∧ last (refs pa) = Some b ∧
    logicalStart b = Index.Position e ∧ last (concat ga) = Some f ∧
    lastFrameInBlock fuel s (Index.Position e) = Some (Ok (scanned q f)) ∧
    Index.Position e < position s.
Proof.
  intros Hd Hs Hfull Hne Hf Hfuel. destruct (exists_last Hne) as (gs' & g & ->).
  apply Forall2_app_inv_r in Hs as (ps' & px & Hs' & Hx & ->).
  apply Forall2_cons_inv_r in Hx as (p & px' & Hp & Hx & ->). apply Forall2_nil_inv_r in Hx as ->.
  apply Forall_app in Hfull as [_ [Hg _]%Forall_cons]. apply Forall_app in Hfuel as [_ [Hfu _]%Forall_cons].
  rewrite concat_app in Hf. apply Forall_app in Hf as [_ Hf]. cbn in Hf. rewrite app_nil_r in Hf.
  destruct (last g) as [f|] eqn:El; [|apply last_None in El; by subst g].
  destruct g as [|f0 g]; [done|]. rewrite <- app_assoc in Hd.
  destruct (lastFrameInBlock_spec base fuel s ps' p pb (f0 :: g) f Hd Hp Hf El Hfu) as [q Hq].
  pose proof Hd as (_ & Hc & _ & Hbs & Hpos & _). apply chain_app in Hc as [_ (Hpk & Hl & _)].
  rewrite Z.add_0_l in Hl. rewrite (stores_datas ps' gs' Hs') in Hl, Hq.
  exists (fentry (zlen (fs_bytes (concat gs'))) f0), (p_ref p), q, f. split_and!.
  - rewrite anchors_app, Z.add_0_l. apply last_snoc.
  - unfold refs. rewrite fmap_app. apply last_snoc.
  - done.
  - rewrite concat_app, last_app. cbn [concat]. by rewrite app_nil_r, El.
  - done.
  - cbn [fentry Index.Position]. rewrite Hpos, datas_app, zlen_app, (stores_datas ps' gs' Hs').
    change (datas ([p] ++ pb)) with (p_data p ++ datas pb). rewrite zlen_app.
    destruct Hpk as (_ & _ & ? & _). pose_zlen. lia.
Qed.

(** The bounds and the index after the missing anchors are in. *)
Lemma reconcile_blocks fuel s base pa pb ga gb tf ct :
  whole base s (pa ++ pb) ga → stores pa ga → stores pb gb → full (ga ++ gb) →
  frames_ok base (concat (ga ++ gb)) → fuel_for fuel (ga ++ gb) →
  ∃ s', reconcileIndexTail fuel Index.no_faults tf s ct = Some (Ok s') ∧
    whole base s' (pa ++ pb) (ga ++ gb) ∧ config s' = config s.
Proof.
  intros (Ho & Han & Hbd) Ha Hb Hfull Hok Hfuel.
  pose proof Ho as (Hd & Hca & Hcl & Hle & HB). pose proof Hd as (Hm & _ & _ & Hbs & _).
  pose proof Hok as (_ & Hf & _ & _ & Hz).
  pose proof (proj1 (Forall_app _ _ _) Hfull) as [Hfa Hfb].
  unfold reconcileIndexTail, reconcileIndexTailBlocks. rewrite Hm, (group_count base s ga Han Hfa), Hbs.
  assert (Hzr : zlen (refs (pa ++ pb)) = zlen ga + zlen gb).
  { unfold zlen, refs. rewrite length_fmap, length_app, (stores_length _ _ Ha), (stores_length _ _ Hb). lia. }
  rewrite Hzr. destruct (decide (gb = [])) as [->|Hne].
  { rewrite (proj2 (Z.leb_le _ _)) by (rewrite zlen_nil; lia). apply Forall2_nil_inv_r in Hb as ->.
    rewrite !app_nil_r in *. rewrite (group_count base s ga Han Hfa), Z.eqb_refl. by eexists. }
  rewrite (proj2 (Z.leb_gt _ _)) by (destruct gb; [done|]; rewrite zlen_cons; pose_zlen; lia).
  replace (drop (Z.to_nat (zlen ga)) (refs (pa ++ pb))) with (refs pb).
  2: { unfold refs. rewrite to_nat_zlen, fmap_app, drop_app_length' by
         (by rewrite length_fmap, (stores_length _ _ Ha)). done. }
  pose proof Hf as Hf'. rewrite concat_app in Hf'. apply Forall_app in Hf' as [Hf1 Hf2].
  destruct Han as (Hr & Hc & Hib).
  destruct (anchor_blocks_spec base s pa pb ga gb) as (idx & -> & Hr' & Hc' & Hib'); [done..|].
  set (s1 := indexed s idx _ _ _ _).
  destruct (group_end base fuel s1 (pa ++ pb) [] (ga ++ gb)) as (e & b & q & f & _ & Hlb & Hls & Hlf & Hlast & _);
    [by rewrite app_nil_r|by apply Forall2_app|done|by destruct ga|done|done|].
  change (blocks s1) with (blocks s). rewrite Hbs, Hlb, Hls, Hlast.
  destruct (bounds_extend base s (concat ga) (concat gb) Hf1 Hbd) as (E1 & E2 & E3 & E4).
  eexists. split; [done|]. destruct (_ =? _); (split; [|done]); (split; [done|]; split; [done|]);
    unfold bounds_hold, tail_off, tail_ts; cbn; rewrite E1, E3, Hlf, concat_app; done.
Qed.

(** ** Opening the index *)

(** The index file beside a block segment: anchors, then zeroed space. *)
Definition anchor_file (base : Z) (gs : list (list frm)) (k : nat) : bytes :=
  Index.content (group_rels base gs) ++ replicate (20 * k) (byte.of_Z 0).

Lemma anchors_open base gs k :
  full gs → Forall (frm_ok base) (concat gs) → zlen (fs_bytes (concat gs)) < 2 ^ 31 →
  (0 < length gs + k)%nat →
  ∃ idx, (idx ← Index.newIndex Index.no_faults base 0 (anchor_file base gs k);
          Index.InitializePosition idx) = Ok (idx, last (anchors 0 gs)) ∧
    Index.rep idx (group_rels base gs) ∧ Index.covered idx ∧ Index.baseOffset idx = base.
Proof.
  intros Hg Hf Hz Hk.
  pose proof (anchors_representable base 0 gs Hf ltac:(lia) ltac:(lia)) as Hrep.
  assert (Hfill : ∀ e, e ∈ anchors 0 gs → Index.fill (Index.newRelEntry e base) base = e).
  { intros e He. apply Index.fill_newRelEntry. by eapply Forall_forall in He; [|exact Hrep]. }
  destruct (Index.InitializePosition_spec base (10 * 1024 * 1024) (group_rels base gs) k)
    as (idx & idx' & Hnew & Hinit & Hr & Hc & Hb & _).
  - by vm_compute.
  - unfold group_rels. by rewrite length_fmap, length_anchors.
  - apply Forall_fmap. eapply Forall_impl; [exact Hrep|]. intros e. apply Index.newRelEntry_ok.
  - apply Forall_fmap, anchors_all. intros q f Hf' Hq.
    eapply Forall_forall in Hf'; [|exact Hf]. apply fentry_not_empty; [done|lia].
  - intros r Hr. unfold group_rels in Hr. rewrite fmap_last in Hr.
    destruct (last (anchors 0 gs)) as [e|] eqn:El; [|done]. injection Hr as <-.
    apply last_Some_elem_of in El. rewrite Hfill by done.
    assert (HP : Forall (λ e, base ≤ Index.Offset e) (anchors 0 gs)).
    { apply anchors_all. intros q f Hin _. eapply Forall_forall in Hin; [|exact Hf]. apply Hin. }
    by eapply Forall_forall in El; [|exact HP].
  - exists idx'. split; [|done].
    change (Index.newIndex Index.no_faults base 0 (anchor_file base gs k)) with
      (Index.newIndex Index.no_faults base (10 * 1024 * 1024) (anchor_file base gs k)).
    unfold anchor_file. rewrite Hnew, bind_Ok, Hinit. unfold group_rels. rewrite fmap_last.
    destruct (last (anchors 0 gs)) as [e|] eqn:El; [|done]. cbn.
    by rewrite Hfill by (by apply last_Some_elem_of).
Qed.

Lemma anchor_read base s gs i e :
  anchored base s gs → Forall (frm_ok base) (concat gs) → zlen (fs_bytes (concat gs)) < 2 ^ 31 →
  anchors 0 gs !! i = Some e →
  Index.ReadEntryAtFileOffset (Index s) (Z.of_nat i * Index.entryWidth) = Ok e.
Proof.
  intros (Hr & Hc & Hb) Hf Hz He.
  change (Index.ReadEntryAtLogOffset (Index s) (Z.of_nat i) = Ok e).
  rewrite (Index.rep_read _ _ i (Index.newRelEntry e base) Hr Hc)
    by (unfold group_rels; by rewrite list_lookup_fmap, He).
  rewrite Hb, Index.fill_newRelEntry; [done|].
  eapply (Forall_lookup_1 _ _ i); [apply anchors_representable; [exact Hf|done|lia]|done].
Qed.

(** The last anchor of an index that is ahead lies past the log. *)
Lemma ahead_last gs x xs :
  full (gs ++ x :: xs) →
  ∃ e, last (anchors 0 (gs ++ x :: xs)) = Some e ∧ zlen (fs_bytes (concat gs)) ≤ Index.Position e.
Proof.
  intros Hfull. assert (Hne : x :: xs ≠ []) by done. destruct (exists_last Hne) as (ys & y & Ey).
  rewrite Ey in *. rewrite app_assoc in *. apply Forall_app in Hfull as [_ [Hy _]%Forall_cons].
  destruct y as [|f g]; [done|]. eexists. rewrite anchors_app. split; [apply last_snoc|].
  cbn [fentry Index.Position]. rewrite concat_app, fs_bytes_app, zlen_app. pose_zlen. lia.
Qed.

(** An index that is behind: the ordinary case. *)
Lemma setup_behind fuel tf s base pa pb ga k :
  opened base s (pa ++ pb) → stores pa ga → full ga → Forall (frm_ok base) (concat ga) →
  zlen (fs_bytes (concat ga)) < 2 ^ 31 → (ga = [] → bounds_hold s []) → fuel_for fuel ga →
  (0 < length ga + k)%nat →
  ∃ s', setupIndex fuel Index.no_faults tf s (anchor_file base ga k) = Some (Ok s') ∧
    whole base s' (pa ++ pb) ga ∧ config s' = config s.
Proof.
  intros Ho Hs Hfull Hf Hz Hbd Hfuel Hk. unfold setupIndex.
  pose proof Ho as (Hd & Hca & Hcl & Hle & HB). rewrite HB.
  destruct (anchors_open base ga k Hfull Hf Hz Hk) as (idx & -> & Hr & Hc & Hib).
  destruct (decide (ga = [])) as [->|Hne]; [specialize (Hbd eq_refl); by eexists|].
  destruct (group_end base fuel (with_index s idx) pa pb ga) as (e & b & q & f & -> & _ & _ & Hlf & Hlast & Hlt);
    [done..|].
  pose proof Hd as (Hm & _).
  assert (Eo : indexOvershootsLog (with_index s idx) e = false).
  { unfold indexOvershootsLog. cbn [with_index blockMode]. rewrite Hm. apply Z.leb_gt, Hlt. }
  rewrite Eo. cbn [andb]. destruct ga as [|[|f0 g0] ga]; [done|by apply Forall_cons in Hfull as [? _]|].
  pose proof (anchor_read base (with_index s idx) _ 0 _ (conj Hr (conj Hc Hib)) Hf Hz eq_refl) as E0.
  cbn [with_index Index] in E0. rewrite Z.mul_0_l in E0. rewrite E0.
  replace (blockMode (with_index s idx)) with true by (by rewrite <- Hm).
  rewrite Hlast. eexists. split; [done|]. split; [|done]. split; [by split_and!|split; [by split_and!|]].
  unfold bounds_hold, tail_off, tail_ts. rewrite Hlf. done.
Qed.

(** An index ahead of a log whose torn tail was dropped: it is derived again. *)
Lemma setup_rebuilds fuel tf s base ps gs x xs k :
  opened base s ps → stores ps gs → full (gs ++ x :: xs) → droppedTornTail s = true →
  frames_ok base (concat gs) → Forall (frm_ok base) (concat (gs ++ x :: xs)) →
  zlen (fs_bytes (concat (gs ++ x :: xs))) < 2 ^ 31 → fuel_for fuel gs →
  ∃ s', setupIndex fuel Index.no_faults tf s (anchor_file base (gs ++ x :: xs) k) = Some (Ok s') ∧
    whole base s' ps gs ∧ config s' = config s.
Proof.
  intros Ho Hs Hfull Hdt Hok Hf Hz Hfuel. unfold setupIndex.
  pose proof Ho as (Hd & Hca & Hcl & Hle & HB). rewrite HB.
  destruct (anchors_open base (gs ++ x :: xs) k Hfull Hf Hz) as (idx & -> & Hr & Hc & Hib);
    [rewrite length_app; simpl; lia|].
  destruct (ahead_last gs x xs Hfull) as (e & -> & He).
  assert (Eo : indexOvershootsLog (with_index s idx) e && rebuildOverIndex (with_index s idx) = true).
  { apply andb_true_intro. split.
    - unfold indexOvershootsLog. cbn [with_index blockMode position]. destruct Hd as (-> & _ & _ & _ & -> & _).
      rewrite (stores_datas _ _ Hs). by apply Z.leb_le.
    - unfold rebuildOverIndex. cbn [with_index droppedTornTail]. by rewrite Hdt. }
  rewrite Eo. unfold rebuildIndexFromLog. cbn [with_index Index].
  destruct (Index.reset_spec idx _ Hr Hc) as (idx' & -> & Hr' & Hc' & Hb').
  destruct (reconcile_blocks fuel (with_bounds (with_index (with_index s idx) idx') (-1) 0 (-1) 0
    (waiters s)) base [] ps [] gs tf (-1)) as (s' & E & Hh & Hcf); try done.
  - split; [done|]. split; [|done]. split_and!; [done|done|cbn; congruence].
  - by constructor.
  - by apply Forall_app in Hfull as [? _].
  - by exists s'.
Qed.

Lemma frameOffsetAt_anchor base s pa p pb f g :
  describes s (pa ++ p :: pb) → p_data p = fs_bytes (f :: g) → frm_ok base f →
  frameOffsetAt s (zlen (datas pa)) = Some (f_off f).
Proof.
  intros Hd Hg Hf. pose proof Hd as (Hm & Hc & _ & Hbs & _).
  unfold frameOffsetAt. rewrite Hm, Hbs, findBlock_at, (decodeBlock_at s pa p pb), bind_Ok by done.
  apply chain_app in Hc as [_ (_ & Hl & _)]. rewrite Hl, Z.add_0_l, Z.sub_diag, Hg, fs_bytes_cons.
  pose proof (zlen_nonneg (f_data f)). pose proof (zlen_nonneg (fs_bytes g)).
  replace (_ || _) with false.
  2: { symmetry. apply orb_false_intro; [done|]. apply Z.ltb_ge. rewrite zlen_app, zlen_fbytes.
       unfold msgSetHeaderLen. lia. }
  unfold fbytes. rewrite <- app_assoc.
  set (hdr := frame_header _ _ _ _).
  assert (Hsl : ∀ r, slice (hdr ++ r) 0 (0 + msgSetHeaderLen) = Ok hdr).
  { intros r. apply (slice_app_mid [] hdr); [done|]. unfold hdr. by rewrite zlen_frame_header. }
  rewrite Hsl, bind_Ok. unfold hdr.
  destruct Hf as (Hb & Ho & Ho' & Ht & He & Hz). rewrite zlen_fbytes in Hz.
  destruct (frame_header_fields (f_off f) (f_ts f) (f_ep f) (zlen (f_data f)) [])
    as (E1 & _); [unfold in_sint; lia|done|done|unfold in_sint; lia|].
  rewrite app_nil_r in E1. by rewrite E1.
Qed.

(** The index of a log that lost whole blocks describes it, as far as
    [indexDescribesLog] looks. *)
Lemma ahead_describes base s ps gs xs n :
  describes s ps → stores ps gs → gs ≠ [] → full (gs ++ xs) → anchored base s (gs ++ xs) →
  Forall (frm_ok base) (concat (gs ++ xs)) → zlen (fs_bytes (concat (gs ++ xs))) < 2 ^ 31 →
  (n ≤ length xs)%nat → describes_from (length gs + n) s = true.
Proof.
  intros Hd Hs Hne Hfull Han Hf Hz. pose proof Hd as (_ & _ & _ & _ & Hpos & _).
  rewrite (stores_datas ps gs Hs) in Hpos. induction n as [|n IH]; intros Hn.
  - rewrite Nat.add_0_r. destruct (exists_last Hne) as (gs' & g & ->).
    apply Forall2_app_inv_r in Hs as (ps' & px & Hs' & Hx & ->).
    apply Forall2_cons_inv_r in Hx as (p & px' & Hp & Hx & ->). apply Forall2_nil_inv_r in Hx as ->.
    pose proof Hfull as Hfull'. apply Forall_app in Hfull' as [[Hf1 [Hg _]%Forall_cons]%Forall_app _].
    destruct g as [|f g]; [done|].
    rewrite length_app, Nat.add_comm. cbn [length Nat.add describes_from].
    rewrite (anchor_read base s _ (length gs') (fentry (zlen (fs_bytes (concat gs'))) f) Han Hf Hz).
    2: { rewrite <- app_assoc, anchors_app, lookup_app_r by (by rewrite length_anchors).
         by rewrite length_anchors, Nat.sub_diag by done. }
    cbn [fentry Index.Position Index.Size Index.Offset].
    rewrite concat_app, fs_bytes_app, zlen_app in Hpos. cbn [concat] in Hpos.
    rewrite app_nil_r, fs_bytes_cons, zlen_app in Hpos.
    rewrite (proj2 (Z.ltb_ge _ _)) by (pose_zlen; lia).
    rewrite <- (stores_datas ps' gs' Hs'), (frameOffsetAt_anchor base s ps' p [] f g Hd Hp);
      [by apply bool_decide_eq_true|].
    rewrite !concat_app in Hf. apply Forall_app in Hf as [[_ Hf]%Forall_app _].
    by apply Forall_cons in Hf as [? _].
  - rewrite Nat.add_succ_r. cbn [describes_from].
    destruct (lookup_lt_is_Some_2 (anchors 0 (gs ++ xs)) (length gs + n)) as [e He];
      [rewrite length_anchors, length_app by done; lia|].
    rewrite (anchor_read base s _ _ e Han Hf Hz He).
    destruct (anchors_lookup _ _ _ _ Hfull He) as (f & g & _ & ->).
    cbn [fentry Index.Position Index.Size].
    rewrite (proj2 (Z.ltb_lt _ _)); [apply IH; lia|].
    rewrite Hpos, take_app, take_ge, concat_app, fs_bytes_app, zlen_app, zlen_fbytes by lia.
    pose_zlen. lia.
Qed.

(** [newSegmentWith] over a file of blocks with whatever a crash left behind
    them. *)
Lemma open_blocks tabf i base maxB cdc fmt ps t side idx :
  chain 0 0 ps → torn t → raws ps ++ t ≠ [] → zlen (datas ps) < 2 ^ 32 → zlen (raws ps) < 2 ^ 32 →
  own_table side ps →
  ∃ s, open_log false tabf i base maxB false true cdc fmt (raws ps ++ t) side idx = Ok s ∧
    opened base s ps ∧ bounds_hold s [] ∧ droppedTornTail s = bool_decide (t ≠ []) ∧
    config s = (i, base, maxB, cdc, fmt, false, false).
Proof.
  intros Hc Ht Hne Hd Hr Ho. unfold open_log. cbn [andb]. set (s0 := {| id := _ |}).
  destruct (initPositions_recovers s0 ps t) as (s1 & -> & Hs & Hca & Hdr & Hlo & _ & Hcl & _ & Hcd & _ &
    Hfo & Hft & Hlt & Hi & HB & HmB & Hfm & Hsl & Hle); [done..|].
  rewrite bind_Ok. destruct Hs as (Hm1 & Hc1 & Hb1 & Hbs1 & Hp1 & Hph1).
  assert (Hok : cache_ok (id s1) (cache s1) ps) by (by rewrite Hca).
  assert (Hcf : config s1 = config s0).
  { unfold config. by rewrite Hi, HB, HmB, Hcd, Hfm, Hsl, Hle. }
  eexists. split; [done|]. unfold opened, describes, bounds_hold.
  destruct (_ && _); split_and!; done.
Qed.

End blocks.

(** C22: Opening a block segment after a crash.  The log holds blocks, whose
    groups of frames are [gs], and possibly a strict prefix of one more block;
    the index file holds zeroed space behind either anchors for some of the
    first blocks (anchors are written after blocks), or anchors for all of them
    and for the block that was torn.  [newSegmentWith] and [reconcileIndexTail]
    then open a segment that holds exactly the frames of the whole blocks: the
    torn bytes are cut off, every block has its anchor, and the bounds are those
    of the first and the last frame. *)
Theorem block_segment_reopens `{CodecLib}
    fuel tabf i base maxB cdc fmt ps gs t ds k side idx0 ct :
  chain 0 0 ps → stores ps gs → torn t → raws ps ++ t ≠ [] → zlen (raws ps) < 2 ^ 32 →
  own_table side ps → full gs → frames_ok base (concat gs) → fuel_for fuel gs →
  full ds → Forall (frm_ok base) (concat ds) → zlen (fs_bytes (concat ds)) < 2 ^ 31 →
  (0 < length ds + k)%nat →
  (∃ gs', gs = ds ++ gs') ∨ (t ≠ [] ∧ ∃ x xs, ds = gs ++ x :: xs) →
  ∃ s, reopen fuel Index.no_faults false tabf i base maxB cdc fmt (raws ps ++ t) side idx0
         (anchor_file base ds k) ct = Some (Ok s) ∧
    holds s (concat gs) ∧ config s = (i, base, maxB, cdc, fmt, false, false).
Proof.
  intros Hc Hs Ht Hne Hr Hside Hfull Hok Hfuel Hfd Hd Hz Hk Hidx. unfold reopen.
  assert (Hzd : zlen (datas ps) < 2 ^ 32).
  { rewrite (stores_datas ps gs Hs). destruct Hok as (_ & _ & _ & _ & ?). lia. }
  destruct (open_blocks tabf i base maxB cdc fmt ps t side idx0 Hc Ht Hne Hzd Hr Hside)
    as (s0 & -> & Ho & Hbd & Hdt & Hcf).
  destruct Hidx as [(gs' & ->)|(Htn & x & xs & ->)].
  - apply Forall2_app_inv_r in Hs as (pa & pb & Ha & Hb & ->).
    pose proof (proj1 (Forall_app _ _ _) Hfuel) as [Hfu _].
    destruct (setup_behind fuel false s0 base pa pb ds k) as (s1 & -> & Hw1 & Hcf1); [done..|].
    destruct (reconcile_blocks fuel s1 base pa pb ds gs' false ct) as (s2 & -> & Hw2 & Hcf2); [done..|].
    exists s2. rewrite Hcf2, Hcf1. split; [done|]. split; [|done].
    apply (whole_holds base _ (pa ++ pb)); [done|by apply Forall2_app|done|done].
  - rewrite bool_decide_eq_true_2 in Hdt by done.
    destruct (setup_rebuilds fuel false s0 base ps gs x xs k) as (s1 & -> & Hw1 & Hcf1); [done..|].
    destruct (reconcile_blocks fuel s1 base ps [] gs [] false ct) as (s2 & -> & Hw2 & Hcf2);
      rewrite ?app_nil_r in *; try done; [by constructor|].
    exists s2. rewrite Hcf2, Hcf1. split; [done|]. split; [|done]. by apply (whole_holds base _ ps).
Qed.

(** A block segment whose log lost whole blocks cannot be opened.  When the
    file ends at the end of a block, nothing is torn; if the index still has
    anchors past that end, [indexDescribesLog] accepts it for its deepest anchor
    that fits, so it is not derived again, and the last anchor is then looked up
    in a block that is not there: opening the segment fails with
    [errIndexCorrupt], however often it is tried. *)
Theorem lost_block_unopenable `{CodecLib}
    fuel tabf i base maxB cdc fmt ps gs x xs k side idx0 ct :
  chain 0 0 ps → stores ps gs → gs ≠ [] → zlen (raws ps) < 2 ^ 32 → own_table side ps →
  full (gs ++ x :: xs) → Forall (frm_ok base) (concat (gs ++ x :: xs)) →
  zlen (fs_bytes (concat (gs ++ x :: xs))) < 2 ^ 31 →
  reopen fuel Index.no_faults false tabf i base maxB cdc fmt (raws ps) side idx0
    (anchor_file base (gs ++ x :: xs) k) ct = Some (Fail ErrIndexCorrupt).
Proof.
  intros Hc Hs Hne Hr Hside Hfull Hf Hz. unfold reopen.
  assert (Hzd : zlen (datas ps) < 2 ^ 32).
  { rewrite (stores_datas ps gs Hs). rewrite concat_app, fs_bytes_app, zlen_app in Hz. pose_zlen. lia. }
  rewrite <- (app_nil_r (raws ps)).
  destruct (open_blocks tabf i base maxB cdc fmt ps [] side idx0) as (s0 & -> & Ho & _ & Hdt & _);
    [done|by left| |done..|].
  { rewrite app_nil_r. intros E. apply (Forall2_length _ _ _) in Hs. rewrite (zlen_raws_nil 0 0 ps) in Hs;
      [by destruct gs|done|by rewrite E]. }
  pose proof Ho as (Hd & _ & _ & _ & HB). unfold setupIndex. rewrite HB.
  destruct (anchors_open base (gs ++ x :: xs) k Hfull Hf Hz) as (idx & -> & Hri & Hci & Hib);
    [rewrite length_app; simpl; lia|].
  destruct (ahead_last gs x xs Hfull) as (e & -> & He).
  pose proof Hd as (Hm & _ & _ & Hbs & _).
  assert (Er : rebuildOverIndex (with_index s0 idx) = false).
  { unfold rebuildOverIndex, indexDescribesLog. cbn [with_index droppedTornTail blockMode Index].
    rewrite Hdt, Hm, bool_decide_eq_false_2 by (by intros ?). cbn [negb]. apply negb_false_iff.
    pose proof (group_count base (with_index s0 idx) (gs ++ x :: xs)
      (conj Hri (conj Hci Hib)) Hfull) as En. cbn [with_index Index] in En.
    rewrite En, to_nat_zlen, length_app.
    by apply (ahead_describes base _ ps gs (x :: xs)). }
  rewrite Er, andb_false_r. destruct (gs ++ x :: xs) as [|[|f0 g0] gs0] eqn:Eg;
    [by destruct gs|by apply Forall_cons in Hfull as [? _]|].
  pose proof (anchor_read base (with_index s0 idx) _ 0 _ (conj Hri (conj Hci Hib)) Hf Hz eq_refl) as E0.
  cbn [with_index Index] in E0. rewrite Z.mul_0_l in E0. rewrite E0.
  replace (blockMode (with_index s0 idx)) with true by (by rewrite <- Hm).
  unfold lastFrameInBlock. change (blocks (with_index s0 idx)) with (blocks s0).
  by rewrite Hbs, findBlock_past by (rewrite ?(stores_datas ps gs Hs); done).
Qed.

(** ** A new segment *)

(** The index of a new segment: [newIndex] allocates zeroed space. *)
Lemma newIndex_empty base k :
  (0 < k)%nat → Z.of_nat (20 * k) = Index.roundDown (10 * 1024 * 1024) Index.entryWidth →
  Index.newIndex Index.no_faults base 0 [] =
  Index.newIndex Index.no_faults base 0 (replicate (20 * k) (byte.of_Z 0)).
Proof.
  intros Hk Hn. unfold Index.newIndex.
  change (if 0 =? 0 then 10 * 1024 * 1024 else 0) with (10 * 1024 * 1024). rewrite <- Hn.
  assert (Hz : zlen (replicate (20 * k) (byte.of_Z 0)) ≠ 0).
  { unfold zlen. rewrite length_replicate. lia. }
  assert (Et : Index.truncate [] (Z.of_nat (20 * k)) = replicate (20 * k) (byte.of_Z 0)).
  { unfold Index.truncate. rewrite take_nil, app_nil_l, Nat2Z.id. cbn [length]. by rewrite Nat.sub_0_r. }
  change (zlen [] =? 0) with true. pose proof (proj2 (Z.eqb_neq _ _) Hz) as E0. rewrite E0.
  cbn [Index.no_faults Index.truncate_fails Index.map_fails orb]. by rewrite Et, !bind_Ok, E0.
Qed.

Lemma new_index_opens base :
  ∃ idx, (idx ← Index.newIndex Index.no_faults base 0 []; Index.InitializePosition idx) =
           Ok (idx, None) ∧
    Index.rep idx [] ∧ Index.covered idx ∧ Index.baseOffset idx = base.
Proof.
  assert (∃ k, (0 < k)%nat ∧
    Z.of_nat (20 * k) = Index.roundDown (10 * 1024 * 1024) Index.entryWidth) as (k & Hk & Hn).
  { exists (Z.to_nat 524288). rewrite Nat2Z.inj_mul, Z2Nat.id by done.
    split; [by apply (Z2Nat.inj_lt 0)|by vm_compute]. }
  destruct (anchors_open base [] k) as (idx & E & Hr & Hc & Hbo); [by constructor..|done|lia|].
  exists idx. rewrite (newIndex_empty base k Hk Hn). split_and!; [exact E|exact Hr|exact Hc|exact Hbo].
Qed.

Lemma open_new `{CodecLib} tf i base maxB cdc fmt idx0 :
  ∃ s, open_log false tf i base maxB true false cdc fmt [] None idx0 = Ok s ∧ log_ok s [] ∧
    closed s = false ∧ bounds_hold s [] ∧ blocks s = [] ∧
    config s = (i, base, maxB, cdc, fmt, false, false) ∧ waiters s = ∅.
Proof.
  eexists. split; [reflexivity|]. split; [|done]. unfold log_ok. cbn [blockMode with_opened].
  destruct (negb _ || _); [|done]. exists []. by split_and!.
Qed.

(** [newSegmentWith] for a file that is not there yet. *)
Lemma new_segment_holds `{CodecLib} tf i base maxB cdc fmt idx0 :
  0 ≤ base < 2 ^ 63 →
  ∃ s0 s, open_log false tf i base maxB true false cdc fmt [] None idx0 = Ok s0 ∧
    setupIndex 1 Index.no_faults false s0 [] = Some (Ok s) ∧ holds s [] ∧
    config s = (i, base, maxB, cdc, fmt, false, false) ∧ waiters s = ∅ ∧ Index.tight (Index s).
Proof.
  intros Hb. destruct (new_index_opens base) as (idx & E & Hr & Hc & Hbo).
  pose proof (Index.opened_tight _ _ _ _ _ _ E) as Hti.
  destruct (open_new tf i base maxB cdc fmt idx0) as (s0 & Ho & Hl & Hcl & Hbd & Hbs & Hcf & Hw).
  pose proof Hcf as Hcf'. unfold config in Hcf'. injection Hcf' as _ HB _ _ _ _ Hle.
  exists s0, (with_index s0 idx). split; [exact Ho|]. split.
  { unfold setupIndex. rewrite HB, E. reflexivity. }
  clear E. split; [|by split_and!]. split_and!; try done; [|].
  - cbn [with_index BaseOffset]. rewrite HB. unfold frames_ok. by split_and!; [lia|lia|constructor..|].
  - exists []. split; [done|]. unfold index_holds. cbn [with_index Index BaseOffset blockMode blocks].
    rewrite HB, Hbs. split_and!; try done; [by constructor|]. by destruct (blockMode s0).
Qed.

(** *** Witnesses *)

(** Two compressed blocks, and the groups of frames they store. *)
Definition sample_groups : list (list frm) :=
  [[sample_frame 4100; sample_frame 4101]; [sample_frame 4103]].

Definition sample_pieces : list piece :=
  [@piece_of half_lib 0 0 CZstd 2 (fs_bytes [sample_frame 4100; sample_frame 4101]);
   @piece_of half_lib 70 (zlen (@block_of half_lib CZstd
                           (fs_bytes [sample_frame 4100; sample_frame 4101]) 2).2)
     CZstd 1 (fs_bytes [sample_frame 4103])].

Lemma sample_pieces_chain : @chain half_lib 0 0 sample_pieces.
Proof.
  split; [apply (@piece_of_ok half_lib half_laws); [done|done|by vm_compute|done]|].
  split; [done|]. split; [done|].
  split; [apply (@piece_of_ok half_lib half_laws); [done|done|by vm_compute|done]|].
  by split_and!.
Qed.

Lemma sample_pieces_store : stores sample_pieces sample_groups.
Proof. by repeat constructor. Qed.

Lemma sample_groups_full gs : gs = sample_groups → full gs.
Proof. intros ->. by repeat constructor. Qed.

Lemma block_segment_reopens_witness :
  ∃ s, @reopen half_lib 9 Index.no_faults false false 1 4100 (2 ^ 20) CZstd 2
         (raws sample_pieces ++ take 20 (p_raw sample_piece)) None sample_idx
         (anchor_file 4100 [[sample_frame 4100; sample_frame 4101]] 4) 4103 = Some (Ok s) ∧
    @holds half_lib s sample_frames ∧ NextOffset s = 4104.
Proof.
  destruct (@block_segment_reopens half_lib 9 false 1 4100 (2 ^ 20) CZstd 2 sample_pieces
    sample_groups (take 20 (p_raw sample_piece)) [[sample_frame 4100; sample_frame 4101]] 4 None
    sample_idx 4103) as (s & E & Hh & _).
  - apply sample_pieces_chain.
  - apply sample_pieces_store.
  - right. exists sample_piece, (drop 20 (p_raw sample_piece)).
    split; [apply sample_piece_ok|]. split; [by rewrite take_drop|]. by vm_compute.
  - by vm_compute.
  - by vm_compute.
  - by left.
  - by apply sample_groups_full.
  - apply sample_frames_ok.
  - repeat constructor; simpl; lia.
  - by repeat constructor.
  - repeat (apply Forall_cons; split); [apply sample_frame_ok; lia..|by apply Forall_nil].
  - by vm_compute.
  - simpl. lia.
  - left. by exists [[sample_frame 4103]].
  - exists s. split; [exact E|]. split; [exact Hh|].
    destruct Hh as (_ & _ & _ & _ & (Hfo & Hlo & _) & _). unfold NextOffset, IsEmpty.
    rewrite Hlo. reflexivity.
Defined.

Lemma lost_block_unopenable_witness :
  @reopen half_lib 9 Index.no_faults false false 1 4100 (2 ^ 20) CZstd 2 (raws sample_pieces) None
    sample_idx (anchor_file 4100 (sample_groups ++ [[sample_frame 4104]]) 4) 4103 =
  Some (Fail ErrIndexCorrupt).
Proof.
  apply (@lost_block_unopenable half_lib).
  - apply sample_pieces_chain.
  - apply sample_pieces_store.
  - done.
  - by vm_compute.
  - by left.
  - by repeat constructor.
  - repeat (apply Forall_cons; split); [apply sample_frame_ok; lia..|by apply Forall_nil].
  - by vm_compute.
Defined.

End SegmentReopen.
