(* ===== verification/Log.v ===== *)
(** * The commit log: commitlog.go over its segments

    The log is its list of segments, the last of which is active, with the high
    watermark, the leader-epoch history and the set of readers waiting for the
    watermark.  Appending rolls the active segment when it is full, writes the
    set, and records new leader epochs; it runs under [appendMu], so one append
    is one step.  The code keeps the active segment both as a pointer and as the
    end of the list; both change together under the log's lock, so the model
    stores the segments as [older] and [active].

    System calls fail as the [io] of an operation says.  A loop of the code that
    need not end takes fuel; [None] is a loop that has not come to an end. *)

From Stdlib Require Import ZArith Lia.
From stdpp Require Import base list numbers strings gmap sorting.
From coqutil Require Import Byte.
From S2P Require Import Prelude GoStd Text Wire Compress BlockV3 Block Framing EpochCache Index.
From S2P Require Import Segment SegmentIndex SegmentSearch SegmentReopen.

Open Scope Z_scope.

Module Log.
Import Segment SegmentIndex SegmentSearch SegmentReopen.

(** The options an append depends on. *)
Record Options := {
  MaxSegmentBytes : Z;
  MaxSegmentAge : Z;
  Compression : Z;
  BlockFormat : Z;
}.

(** [files]: the base offsets of the log files in the directory.  [hwFile]: the
    content of the watermark checkpoint.  [hwWaiters]: the readers registered
    for the watermark; [released]: what was sent to the readers that no longer
    are.  [nextId] names the next segment object. *)
Record commitLog := {
  readonly : bool;
  hw : Z;
  older : list segment;
  active : segment;
  epochs : EpochCache.leaderEpochCache;
  segmentsClosed : bool;
  deleted : bool;
  shut : bool;
  hwWaiters : gset Z;
  released : gmap Z bool;
  files : gset Z;
  hwFile : option bytes;
  nextId : Z;
  opts : Options;
}.

Definition segments (l : commitLog) : list segment := older l ++ [active l].
Definition activeSegment (l : commitLog) : segment := active l.

Definition with_segments (l : commitLog) (o : list segment) (a : segment) : commitLog :=
  {| readonly := readonly l; hw := hw l; older := o; active := a; epochs := epochs l;
     segmentsClosed := segmentsClosed l; deleted := deleted l; shut := shut l;
     hwWaiters := hwWaiters l; released := released l; files := files l; hwFile := hwFile l;
     nextId := nextId l; opts := opts l |}.

Definition with_active (l : commitLog) (a : segment) : commitLog := with_segments l (older l) a.

Definition with_epochs (l : commitLog) (c : EpochCache.leaderEpochCache) : commitLog :=
  {| readonly := readonly l; hw := hw l; older := older l; active := active l; epochs := c;
     segmentsClosed := segmentsClosed l; deleted := deleted l; shut := shut l;
     hwWaiters := hwWaiters l; released := released l; files := files l; hwFile := hwFile l;
     nextId := nextId l; opts := opts l |}.

Definition with_files (l : commitLog) (fs : gset Z) (i : Z) : commitLog :=
  {| readonly := readonly l; hw := hw l; older := older l; active := active l; epochs := epochs l;
     segmentsClosed := segmentsClosed l; deleted := deleted l; shut := shut l;
     hwWaiters := hwWaiters l; released := released l; files := fs; hwFile := hwFile l;
     nextId := i; opts := opts l |}.

Definition with_hw (l : commitLog) (h : Z) (ws : gset Z) (rel : gmap Z bool) : commitLog :=
  {| readonly := readonly l; hw := h; older := older l; active := active l; epochs := epochs l;
     segmentsClosed := segmentsClosed l; deleted := deleted l; shut := shut l;
     hwWaiters := ws; released := rel; files := files l; hwFile := hwFile l;
     nextId := nextId l; opts := opts l |}.

Definition with_readonly (l : commitLog) (b : bool) : commitLog :=
  {| readonly := b; hw := hw l; older := older l; active := active l; epochs := epochs l;
     segmentsClosed := segmentsClosed l; deleted := deleted l; shut := shut l;
     hwWaiters := hwWaiters l; released := released l; files := files l; hwFile := hwFile l;
     nextId := nextId l; opts := opts l |}.

(** What the outside does during one operation.  [io_now]: the clock;
    [io_create], [io_index]: the file and the index of a new segment;
    [io_seal], [io_sync], [io_table]: sealing the old one; [io_write],
    [io_entries]: the log write and the index write; [io_epoch]: the epoch
    checkpoint; [io_remove]: removing a file. *)
Record io := {
  io_now : Z;
  io_create : bool;
  io_index : Index.faults;
  io_seal : Index.faults;
  io_sync : bool;
  io_table : bool;
  io_write : wfault;
  io_entries : Index.faults;
  io_epoch : EpochCache.write;
  io_remove : bool;
}.

(** Nothing fails at time [t]. *)
Definition calm (t : Z) : io :=
  {| io_now := t; io_create := false; io_index := Index.no_faults; io_seal := Index.no_faults;
     io_sync := false; io_table := false; io_write := None; io_entries := Index.no_faults;
     io_epoch := EpochCache.Written; io_remove := false |}.

(** ** Offsets *)

Definition NewestOffset (l : commitLog) : Z := sint 64 (NextOffset (active l) - 1).

Definition ActiveSegmentBase (l : commitLog) : Z := BaseOffset (active l).

(** [current]: a local segment that left the log without a replacement. *)
Definition current (s : segment) : option segment := if left s then None else Some s.

Definition OldestOffset (l : commitLog) : Z :=
  match filter (λ s, left s = false) (segments l) with
  | s :: _ => firstOffset s
  | [] => firstOffset (active l)
  end.

Definition LocalBytes (l : commitLog) : Z :=
  foldl (λ n s, if left s then n else n + PhysicalSize s) 0 (segments l).

Definition SegmentBlockCounts (l : commitLog) : list Z := (λ s, zlen (blocks s)) <$> segments l.

(** ** The high watermark *)

Definition send (rs : gset Z) (b : bool) (rel : gmap Z bool) : gmap Z bool :=
  gset_to_gmap b rs ∪ rel.

Definition notifyHWChange (l : commitLog) : commitLog :=
  with_hw l (hw l) ∅ (send (hwWaiters l) false (released l)).

Definition notifyReadonly (l : commitLog) : commitLog :=
  if hw l <? NewestOffset l then l
  else with_hw l (hw l) ∅ (send (hwWaiters l) true (released l)).

Definition HighWatermark (l : commitLog) : Z := hw l.

Definition SetHighWatermark (l : commitLog) (h : Z) : commitLog :=
  if hw l <? h then notifyHWChange (with_hw l h (hwWaiters l) (released l)) else l.

Definition OverrideHighWatermark (l : commitLog) (h : Z) : commitLog :=
  notifyHWChange (with_hw l h (hwWaiters l) (released l)).

Definition IsReadonly (l : commitLog) : bool := readonly l.

Definition SetReadonly (l : commitLog) (b : bool) : commitLog :=
  let l := with_readonly l b in
  if b then notifyReadonly l else l.

(** [waitForHW]: the value that is in the channel at once, if any. *)
Definition waitForHW (l : commitLog) (r h : Z) : commitLog * option bool :=
  if negb (hw l =? h) then (l, Some false)
  else if (NewestOffset l <=? hw l) && IsReadonly l then (l, Some true)
  else (with_hw l (hw l) ({[ r ]} ∪ hwWaiters l) (delete r (released l)), None).

Definition removeHWWaiter (l : commitLog) (r : Z) : commitLog :=
  with_hw l (hw l) (hwWaiters l ∖ {[ r ]}) (released l).

Definition NotifyLEO (l : commitLog) (w expectedLEO : Z) : commitLog * bool :=
  let '(s, b) := WaitForLEO (active l) w expectedLEO (NewestOffset l) in (with_active l s, b).

(** ** Leader epochs *)

Definition NewLeaderEpoch (w : EpochCache.write) (l : commitLog) (epoch : Z)
    : commitLog * bool :=
  let '(c, ok) := EpochCache.Assign w (epochs l) epoch (NewestOffset l) in (with_epochs l c, ok).

Definition LastOffsetForLeaderEpoch (l : commitLog) (e : EpochCache.Epoch) : outcome Z :=
  match e with
  | None => Fail ErrUnknownLeaderEpoch
  | Some e =>
      match EpochCache.LastOffsetForLeaderEpoch (epochs l) e with
      | Some o => Ok o
      | None => Ok (sint 64 (NextOffset (active l) - 1))
      end
  end.

Definition LastLeaderEpoch (l : commitLog) : Z := EpochCache.LastLeaderEpoch (epochs l).

(** ** Rolling the active segment *)

(** The index field before [setupIndex] sets it. *)
Definition nil_index : Index.index :=
  {| Index.baseOffset := 0; Index.bytes_ := 0; Index.file := []; Index.mmap := None;
     Index.size := 0; Index.position := 0; Index.closed := true |}.

Section codecs.
Context `{CodecLib}.

(** [newSegmentFormat]: a failure after the log file is created leaves it. *)
Definition newSegmentFormat (f : io) (l : commitLog) (base : Z) : commitLog * outcome segment :=
  if bool_decide (base ∈ files l) then (l, Fail ErrSegmentExists)
  else if io_create f then (l, Fail (ErrText "open segment log file"))
  else
    (with_files l ({[ base ]} ∪ files l) (nextId l + 1),
     s ← open_log false false (nextId l) base (MaxSegmentBytes (opts l)) true false
           (Compression (opts l)) (BlockFormat (opts l)) [] None nil_index;
     match setupIndex 1 (io_index f) false s [] with Some r => r | None => Panic end).

(** The compare-and-swap on the active segment cannot fail: every caller holds
    [appendMu]. *)
Definition split (f : io) (l : commitLog) : commitLog * outcome () :=
  let offset := sint 64 (NewestOffset l + 1) in
  match newSegmentFormat f l offset with
  | (l, Ok s) =>
      if segmentsClosed l
      then (if io_remove f then l else with_files l (files l ∖ {[ offset ]}) (nextId l),
            Fail ErrCommitLogClosed)
      else (with_segments l (segments l) s, Ok ())
  | (l, Fail e) => (l, Fail e)
  | (l, Panic) => (l, Panic)
  end.

(** The segment just rolled is the last of [older]. *)
Definition seal_rolled (f : io) (l : commitLog) : commitLog :=
  match last (older l) with
  | Some s =>
      with_segments l (removelast (older l) ++ [seal (io_seal f) (io_sync f) (io_table f) s])
        (active l)
  | None => l
  end.

Fixpoint checkAndPerformSplit (fuel : nat) (f : io) (l : commitLog)
    : option (commitLog * outcome bool) :=
  match fuel with
  | O => None
  | S fuel =>
      if negb (CheckSplit (active l) (MaxSegmentAge (opts l)) (io_now f)) then Some (l, Ok false)
      else
        match split f l with
        | (l, Ok _) => Some (seal_rolled f l, Ok true)
        | (l, Fail ErrSegmentExists) => checkAndPerformSplit fuel f l
        | (l, Fail e) => Some (l, Fail e)
        | (l, Panic) => Some (l, Panic)
        end
  end.

(** ** Appending *)

(** The loop of [appendWith] over the entries: the epochs it assigns.  The
    write of the checkpoint fails as [w] says. *)
Fixpoint assign_epochs (w : EpochCache.write) (c : EpochCache.leaderEpochCache)
    (lastLeaderEpoch anchor : Z) (entries : list entry) : EpochCache.leaderEpochCache * bool :=
  match entries with
  | [] => (c, true)
  | e :: entries =>
      if lastLeaderEpoch <? e_LeaderEpoch e then
        match EpochCache.Assign w c (e_LeaderEpoch e) anchor with
        | (c, true) => assign_epochs w c (e_LeaderEpoch e) (e_Offset e) entries
        | (c, false) => (c, false)
        end
      else assign_epochs w c lastLeaderEpoch (e_Offset e) entries
  end.

(** [appendWith]: [wr] is the write, on the active segment. *)
Definition appendWith (f : io) (l : commitLog) (entries : list entry)
    (wr : segment → segment * outcome ()) : commitLog * outcome (list Z) :=
  let tailBeforeBatch := sint 64 (NextOffset (active l) - 1) in
  match wr (active l) with
  | (s, Fail e) => (with_active l s, Fail e)
  | (s, Panic) => (with_active l s, Panic)
  | (s, Ok _) =>
      let l := with_active l s in
      let '(c, ok) := assign_epochs (io_epoch f) (epochs l) (LastLeaderEpoch l)
                        tailBeforeBatch entries in
      let l := with_epochs l c in
      if negb ok then (l, Fail (ErrText "leader epoch checkpoint"))
      else
        let l := match entries with
                 | e :: _ => if e_Offset e <=? hw l then notifyHWChange l else l
                 | [] => l
                 end in
        (l, Ok (e_Offset <$> entries))
  end.

Definition append (f : io) (l : commitLog) (ms : bytes) (entries : list entry)
    : commitLog * outcome (list Z) :=
  appendWith f l entries (λ s, WriteMessageSet (io_write f) (io_entries f) s ms entries).

(** A message with the two orders its header map is ranged over. *)
Definition ordered : Type := Message * headerOrder * headerOrder.

Definition stamp (now : Z) (x : ordered) : ordered :=
  let '(m, hs1, hs2) := x in
  if Wire.Timestamp m =? 0 then
    ({| Wire.MagicByte := Wire.MagicByte m; Wire.Attributes := Wire.Attributes m;
        Wire.Key := Wire.Key m; Wire.Value := Wire.Value m; Wire.Headers := Wire.Headers m;
        Wire.Timestamp := now; Wire.LeaderEpoch := Wire.LeaderEpoch m |}, hs1, hs2)
  else x.

(** An operation behind the split check. *)
Definition after_split {A} (fuel : nat) (f : io) (l : commitLog)
    (k : commitLog → commitLog * outcome A) : option (commitLog * outcome A) :=
  match checkAndPerformSplit fuel f l with
  | None => None
  | Some (l, Fail e) => Some (l, Fail e)
  | Some (l, Panic) => Some (l, Panic)
  | Some (l, Ok _) => Some (k l)
  end.

Definition Append (fuel : nat) (f : io) (l : commitLog) (msgs : list ordered)
    : option (commitLog * outcome (list Z)) :=
  if IsReadonly l then Some (l, Fail ErrCommitLogReadonly)
  else
    after_split fuel f l (λ l,
      match newMessageSetFromProto (NextOffset (active l)) (position (active l))
              (stamp (io_now f) <$> msgs) with
      | Ok (ms, entries) => append f l ms entries
      | Fail e => (l, Fail e)
      | Panic => (l, Panic)
      end).

(** The ascending-offsets loop of [checkAppendedSet]. *)
Fixpoint offsets_ascend (prev : Z) (entries : list entry) : bool :=
  match entries with
  | [] => true
  | e :: entries => if e_Offset e <=? prev then false else offsets_ascend (e_Offset e) entries
  end.

Definition checkAppendedSet (tail : Z) (entries : list entry) (setLen : Z) : outcome () :=
  match entries with
  | [] => Fail (ErrMessageSetRefused "no whole frame in the set")
  | e :: rest =>
      if e_Offset e <=? tail
      then Fail (ErrMessageSetRefused "set starts at or below the log's newest")
      else if negb (offsets_ascend (e_Offset e) rest)
      then Fail (ErrMessageSetRefused "offset does not ascend")
      else
        let last := default e (last rest) in
        let framed := e_Position last + e_Size last - e_Position e in
        if negb (framed =? setLen)
        then Fail (ErrMessageSetRefused "the set ends inside a frame")
        else Ok ()
  end.

Definition AppendMessageSet (fuel : nat) (f : io) (l : commitLog) (ms : bytes)
    : option (commitLog * outcome (list Z)) :=
  after_split fuel f l (λ l,
    match (entries ← entriesForMessageSet (position (active l)) ms;
           _ ← checkAppendedSet (sint 64 (NextOffset (active l) - 1)) entries (zlen ms);
           Ok entries) with
    | Ok entries => append f l ms entries
    | Fail e => (l, Fail e)
    | Panic => (l, Panic)
    end).

(** ** Batches *)

#[local] Existing Instance Framing.BatchMeta_eq_dec.

(** [writeV3]: a version-3 block into the active segment; a raw segment gets
    its framing instead. *)
Definition writeV3 (f : io) (l : commitLog) (block : bytes) (h : blockv3.Header)
    (recs : list blockv3.Rec) : commitLog * outcome (list Z) :=
  match Framing.synthesizeFraming [] h recs with
  | Fail _ => (l, Fail (ErrMessageSetRefused "framing"))
  | Panic => (l, Panic)
  | Ok logical =>
      match (entries ← entriesForMessageSet (position (active l)) logical;
             _ ← checkAppendedSet (sint 64 (NextOffset (active l) - 1)) entries (zlen logical);
             Ok entries) with
      | Fail e => (l, Fail e)
      | Panic => (l, Panic)
      | Ok entries =>
          if negb (blockMode (active l)) then append f l logical entries
          else appendWith f l entries (λ s,
                 WriteBlock (io_write f) (io_entries f) s block (blockv3.Codec h)
                   (zlen logical) entries)
      end
  end.

(** A message carries a header the batch identity writes. *)
Definition identity_taken (m : Message) : bool :=
  existsb (λ k, bool_decide (is_Some (Wire.Headers m !! k)))
    [Framing.hdrProducerID; Framing.hdrProducerEpoch; Framing.hdrSequence; Framing.hdrNonce].

(** [appendStamped]'s copies. *)
Fixpoint stamped_copies (meta : Framing.BatchMeta) (i : Z) (msgs : list Message) : list Message :=
  match msgs with
  | [] => []
  | m :: msgs => Framing.stamp_message meta i m :: stamped_copies meta (i + 1) msgs
  end.

(** The orders in which the maps that are encoded are ranged over. *)
Definition in_orders (msgs : list Message) (os : list (headerOrder * headerOrder)) : list ordered :=
  zip_with (λ m o, (m, o.1, o.2)) msgs os.

Definition appendStamped (fuel : nat) (f : io) (l : commitLog) (meta : Framing.BatchMeta)
    (msgs : list Message) (os : list (headerOrder * headerOrder))
    : option (commitLog * outcome (list Z)) :=
  Append fuel f l (in_orders (stamped_copies meta 0 msgs) os).

Definition is_control (m : Message) : bool := negb (Z.land (Wire.Attributes m) AttrControl =? 0).

(** The checking loop of [AppendBatch]: the batch's timestamp, 0 for none. *)
Fixpoint batch_stamp (epoch : Z) (control : bool) (stamp : Z) (msgs : list Message) : outcome Z :=
  match msgs with
  | [] => Ok stamp
  | m :: msgs =>
      let t := Wire.Timestamp m in
      if negb (t =? 0) && negb (stamp =? 0) && negb (t =? stamp)
      then Fail (ErrMessageSetRefused "a batch carries one timestamp")
      else
        let stamp := if negb (t =? 0) then t else stamp in
        if negb (Wire.LeaderEpoch m =? epoch)
        then Fail (ErrMessageSetRefused "a batch carries one epoch")
        else if negb (Bool.eqb (is_control m) control)
        then Fail (ErrMessageSetRefused "mixes control and data records in one batch")
        else batch_stamp epoch control stamp msgs
  end.

Definition AppendBatch (fuel : nat) (f : io) (l : commitLog) (meta : Framing.BatchMeta)
    (msgs : list Message) (os : list (headerOrder * headerOrder))
    : option (commitLog * outcome (list Z)) :=
  if IsReadonly l then Some (l, Fail ErrCommitLogReadonly)
  else
    match msgs with
    | [] => Some (l, Fail (ErrMessageSetRefused "empty batch"))
    | m0 :: _ =>
        if existsb identity_taken msgs
        then Some (l, Fail (ErrMessageSetRefused "header which the batch identity writes"))
        else if negb (BlockFormat (opts l) =? blockv3.Version) then
          if bool_decide (meta = Framing.no_meta) then Append fuel f l (in_orders msgs os)
          else appendStamped fuel f l meta msgs os
        else
          match batch_stamp (Wire.LeaderEpoch m0) (is_control m0) 0 msgs with
          | Fail e => Some (l, Fail e)
          | Panic => Some (l, Panic)
          | Ok stamp =>
              let stamp := if stamp =? 0 then io_now f else stamp in
              after_split fuel f l (λ l,
                let h := Framing.batch_header (Compression (opts l)) (NextOffset (active l))
                           (Wire.LeaderEpoch m0) stamp meta (is_control m0) in
                let recs := Framing.batch_records 0 msgs in
                match Framing.encodeV3Block h recs with
                | Ok (block, h) => writeV3 f l block h recs
                | Fail e => (l, Fail e)
                | Panic => (l, Panic)
                end)
          end
    end.

Definition AppendPreframed (fuel : nat) (f : io) (l : commitLog) (block : bytes)
    : option (commitLog * outcome (list Z)) :=
  if IsReadonly l then Some (l, Fail ErrCommitLogReadonly)
  else if negb (BlockFormat (opts l) =? blockv3.Version)
  then Some (l, Fail (ErrMessageSetRefused "block format"))
  else
    match Framing.decodeV3ForAppend block with
    | Fail e => Some (l, Fail e)
    | Panic => Some (l, Panic)
    | Ok (h, recs) =>
        after_split fuel f l (λ l,
          let base := NextOffset (active l) in
          let epoch := LastLeaderEpoch l in
          match blockv3.Rewrite block base epoch (io_now f) with
          | Fail _ => (l, Fail (ErrMessageSetRefused "block"))
          | Panic => (l, Panic)
          | Ok block =>
              let h := {| blockv3.Codec := blockv3.Codec h; blockv3.Flags := blockv3.Flags h;
                          blockv3.BaseOffset := base; blockv3.LeaderEpoch := epoch;
                          blockv3.BaseTimestamp := io_now f;
                          blockv3.ProducerID := blockv3.ProducerID h;
                          blockv3.ProducerEpoch := blockv3.ProducerEpoch h;
                          blockv3.BaseSequence := blockv3.BaseSequence h;
                          blockv3.TxNonce := blockv3.TxNonce h;
                          blockv3.Records := blockv3.Records h;
                          blockv3.LastOffsetDelta := blockv3.LastOffsetDelta h;
                          blockv3.UncompressedLen := blockv3.UncompressedLen h;
                          blockv3.CompressedLen := blockv3.CompressedLen h;
                          blockv3.PayloadCRC := blockv3.PayloadCRC h |} in
              writeV3 f l block h recs
          end)
    end.

End codecs.

(** ** Messages as frames *)

(** The frames [newMessageSetFromProto] builds from offset [o] on. *)
Fixpoint batch_frames (o : Z) (msgs : list ordered) : list frm :=
  match msgs with
  | [] => []
  | (m, _, hs) :: msgs =>
      {| f_off := o; f_ts := Wire.Timestamp m; f_ep := Wire.LeaderEpoch m;
         f_data := record_bytes m hs |} :: batch_frames (o + 1) msgs
  end.

Definition encodable_batch (msgs : list ordered) : Prop :=
  Forall (λ '(m, _, hs), encodable m hs = true) msgs.

Lemma entries_at_app pos a b :
  entries_at pos (a ++ b) = entries_at pos a ++ entries_at (pos + zlen (fs_bytes a)) b.
Proof.
  revert pos. induction a as [|f a IH]; intros pos.
  - unfold fs_bytes. simpl. by rewrite zlen_nil, Z.add_0_r.
  - simpl. rewrite IH, fs_bytes_cons, zlen_app, Z.add_assoc. done.
Qed.

Lemma length_batch_frames o msgs : length (batch_frames o msgs) = length msgs.
Proof. revert o. induction msgs as [|[[m hs1] hs2] msgs IH]; intros o; [done|]. simpl. by rewrite IH. Qed.

Lemma messageSet_frames o pos i buf msgs es :
  batch_ok msgs → encodable_batch msgs → 0 ≤ i + o → i + o + zlen msgs ≤ 2 ^ 63 →
  zlen (fs_bytes (batch_frames (i + o) msgs)) < 2 ^ 31 →
  messageSet_loop o pos i buf msgs es =
  Ok (buf ++ fs_bytes (batch_frames (i + o) msgs),
      es ++ entries_at (pos + zlen buf) (batch_frames (i + o) msgs)).
Proof.
  revert i buf es. induction msgs as [|[[m hs1] hs2] msgs IH]; intros i buf es Hb He Ho Hn Hz.
  - unfold fs_bytes. simpl. by rewrite !app_nil_r.
  - apply Forall_cons in Hb as [(P1 & P2 & _) Hb]. apply Forall_cons in He as [He1 He].
    cbn [batch_frames messageSet_loop] in *. rewrite encode_ok, bind_Ok by (done || by rewrite P1, P2).
    rewrite fs_bytes_cons, zlen_app, zlen_fbytes in Hz. cbn [f_data] in Hz. rewrite zlen_cons in Hn.
    pose proof (zlen_nonneg (record_bytes m hs2)).
    pose proof (zlen_nonneg (fs_bytes (batch_frames (i + o + 1) msgs))).
    pose proof (zlen_nonneg msgs). unfold msgSetHeaderLen.
    rewrite (sint_nonneg 64), !(sint_nonneg 32) by lia.
    replace (i + o + 1) with (i + 1 + o) in * by lia. rewrite IH by (done || lia).
    rewrite fs_bytes_cons, <- !app_assoc. do 2 f_equal.
    cbn [entries_at app]. unfold scanned. cbn [f_off f_ts f_ep].
    rewrite zlen_fbytes, !zlen_app, zlen_frame_header. cbn [f_data].
    rewrite (Z.add_comm (zlen (record_bytes m hs2))). do 2 f_equal. f_equal. lia.
Qed.

Lemma newMessageSet_frames o pos msgs :
  batch_ok msgs → encodable_batch msgs → 0 ≤ o → o + zlen msgs ≤ 2 ^ 63 →
  zlen (fs_bytes (batch_frames o msgs)) < 2 ^ 31 →
  newMessageSetFromProto o pos msgs =
  Ok (fs_bytes (batch_frames o msgs), entries_at pos (batch_frames o msgs)).
Proof.
  intros Hb He Ho Hn Hz. unfold newMessageSetFromProto.
  pose proof (messageSet_frames o pos 0 [] msgs [] Hb He) as E. rewrite Z.add_0_l in E.
  rewrite E by (done || lia). change (zlen []) with 0. by rewrite Z.add_0_r.
Qed.

(** A frame whose fields fit their types. *)
Definition framed (f : frm) : Prop := frm_ok (f_off f) f.

Lemma frm_framed base fs : Forall (frm_ok base) fs → Forall framed fs.
Proof.
  intros Hf. eapply Forall_impl; [exact Hf|]. unfold framed, frm_ok. intros f. intuition lia.
Qed.

(** The entries [entriesForMessageSet] reads from frames. *)
Lemma entries_loop_frames fuel pos n new acc :
  Forall framed new → (length new ≤ fuel)%nat →
  entries_loop fuel pos n (fs_bytes new) acc = Ok (acc ++ entries_at (pos + n) new).
Proof.
  revert fuel n acc. induction new as [|f new IH]; intros fuel n acc Hf Hl.
  - cbn [entries_at]. rewrite app_nil_r. by destruct fuel.
  - apply Forall_cons in Hf as [Hf Hnew]. destruct fuel as [|fuel]; [simpl in Hl; lia|].
    destruct Hf as ((Hb & Ho) & _ & Hlt & Ht & He & Hz). rewrite zlen_fbytes in Hz.
    rewrite fs_bytes_cons. unfold fbytes. rewrite <- app_assoc.
    rewrite entries_loop_frame by (done || (unfold in_sint; lia) || lia).
    rewrite IH by (done || (simpl in Hl; lia)). rewrite <- app_assoc. cbn [entries_at app].
    unfold frame_entry, scanned, msgSetHeaderLen. rewrite zlen_fbytes.
    do 2 f_equal. f_equal; [f_equal; lia|f_equal; lia].
Qed.

Lemma set_entries pos new :
  Forall framed new → Forall (λ f, 0 < zlen (f_data f)) new →
  entriesForMessageSet pos (fs_bytes new) = Ok (entries_at pos new).
Proof.
  intros Hf Hd. unfold entriesForMessageSet. destruct new as [|f new]; [done|].
  apply Forall_cons in Hd as [Hd _]. rewrite (proj2 (Z.leb_gt _ _)).
  - rewrite entries_loop_frames by (done || apply length_fs_bytes). by rewrite Z.add_0_r.
  - rewrite fs_bytes_cons, zlen_app, zlen_fbytes. unfold msgSetHeaderLen. pose_zlen. lia.
Qed.

Lemma offsets_ascend_spec prev pos new :
  offsets_ascend prev (entries_at pos new) = true ↔
  Forall (λ f, prev < f_off f) new ∧ ascending new.
Proof.
  revert prev pos. induction new as [|f new IH]; intros prev pos; simpl.
  - split; [intros _; by split; constructor|done].
  - destruct (Z.leb_spec (f_off f) prev).
    + split; [done|]. intros [[? _]%Forall_cons _]. lia.
    + rewrite IH. unfold ascending. split.
      * intros [Hf Hs]. split; [|by constructor]. apply Forall_cons. split; [lia|].
        eapply Forall_impl; [exact Hf|]. simpl. lia.
      * intros [_ Hs]. by inversion Hs.
Qed.

(** [checkAppendedSet] on whole frames: it asks for ascending offsets above the
    tail. *)
Lemma checkAppendedSet_frames tail pos new :
  checkAppendedSet tail (entries_at pos new) (zlen (fs_bytes new)) = Ok () ↔
  new ≠ [] ∧ Forall (λ f, tail < f_off f) new ∧ ascending new.
Proof.
  destruct new as [|f new]; [by split; [|intros []]|]. cbn [entries_at checkAppendedSet scanned e_Offset].
  destruct (Z.leb_spec (f_off f) tail) as [Hle|Hlt].
  { split; [done|]. intros (_ & [? _]%Forall_cons & _). lia. }
  destruct (offsets_ascend _ _) eqn:Ea; cbn [negb].
  2: { split; [done|]. intros (_ & _ & Hs). apply not_true_iff_false in Ea. destruct Ea.
       apply offsets_ascend_spec. unfold ascending in *. by inversion Hs. }
  apply offsets_ascend_spec in Ea as [Hf Hs].
  set (l := default _ _).
  assert (El : e_Position l + e_Size l = pos + zlen (fs_bytes (f :: new))).
  { unfold l. destruct (exists_last (l := f :: new)) as (a & g & E); [done|].
    destruct new as [|f' new].
    - simpl. rewrite fs_bytes_cons. unfold fs_bytes. simpl. by rewrite app_nil_r.
    - destruct a as [|x a]; [done|]. injection E as -> E. rewrite E, entries_at_app.
      cbn [entries_at]. rewrite last_snoc. cbn [default from_option Datatypes.id scanned e_Position e_Size].
      rewrite fs_bytes_cons, zlen_app, zlen_fs_snoc. lia. }
  rewrite El. cbn [scanned e_Position]. replace (pos + _ - pos) with (zlen (fs_bytes (f :: new))) by lia.
  rewrite Z.eqb_refl. cbn [negb]. split; [intros _|done]. split; [done|]. split.
  - apply Forall_cons. split; [lia|]. eapply Forall_impl; [exact Hf|]. simpl. lia.
  - by constructor.
Qed.

(** ** The invariant *)

(** The offset after the frames of a segment with base offset [base]. *)
Definition next_of (base : Z) (fs : list frm) : Z :=
  match last fs with Some f => f_off f + 1 | None => base end.

(** Segments in offset order. *)
Definition linked (ss : list segment) : Prop :=
  StronglySorted (λ s s', NextOffset s ≤ BaseOffset s') ss.

Section log_inv.
Context `{CodecLib}.

(** A segment of a log with these options, storing the frames [fs]. *)
Definition seg_ok (o : Options) (s : segment) (fs : list frm) : Prop :=
  holds s fs ∧ codec_ok s ∧ maxBytes s = MaxSegmentBytes o ∧ next_of (BaseOffset s) fs < 2 ^ 63.

Definition opts_ok (o : Options) : Prop :=
  0 < MaxSegmentBytes o ∧ 0 ≤ Compression o ∧ Valid (Compression o) = true.

(** An open log whose segments store the frames [fss], one list per segment. *)
Definition inv (l : commitLog) (fss : list (list frm)) : Prop :=
  Forall2 (seg_ok (opts l)) (segments l) fss ∧ linked (segments l) ∧
  files l = list_to_set (BaseOffset <$> segments l) ∧ opts_ok (opts l) ∧
  segmentsClosed l = false ∧ Forall (λ fs, fs ≠ []) (removelast fss).

Lemma holds_frames s fs : holds s fs → frames_ok (BaseOffset s) fs.
Proof. by intros (_ & _ & _ & ? & _). Qed.

Lemma holds_ascending s fs : holds s fs → ascending fs.
Proof. intros Hh. apply holds_frames in Hh as (_ & _ & _ & ? & _). done. Qed.

Lemma frame_base base fs f : frames_ok base fs → f ∈ fs → 0 ≤ base ≤ f_off f ∧ f_off f < 2 ^ 63.
Proof.
  intros (_ & Hf & _) Hin. eapply Forall_forall in Hf; [|exact Hin].
  destruct Hf as (? & _ & ? & _). lia.
Qed.

Lemma next_of_app base a f : next_of base (a ++ [f]) = f_off f + 1.
Proof. unfold next_of. by rewrite last_snoc. Qed.

Lemma next_of_base base fs : frames_ok base fs → base ≤ next_of base fs.
Proof.
  intros Hf. unfold next_of. destruct (last fs) as [f|] eqn:El; [|lia].
  apply last_Some_elem_of in El. apply (frame_base _ _ _ Hf) in El. lia.
Qed.

Lemma NextOffset_holds s fs :
  holds s fs → next_of (BaseOffset s) fs < 2 ^ 63 → NextOffset s = next_of (BaseOffset s) fs.
Proof.
  intros Hh Hn. pose proof (holds_frames _ _ Hh) as Hf.
  destruct Hh as (_ & _ & _ & _ & (_ & Hlo & _) & _). unfold NextOffset, next_of in *.
  rewrite Hlo. unfold tail_off. destruct (last fs) as [f|] eqn:El; cbn; [|done].
  apply last_Some_elem_of in El. apply (frame_base _ _ _ Hf) in El.
  rewrite (proj2 (Z.eqb_neq _ _)) by lia. rewrite sint_nonneg by lia. done.
Qed.

Lemma seg_next o s fs : seg_ok o s fs → NextOffset s = next_of (BaseOffset s) fs.
Proof. intros (Hh & _ & _ & Hn). by apply NextOffset_holds. Qed.

(** Every frame of a segment lies between its base and its next offset. *)
Lemma seg_range o s fs f :
  seg_ok o s fs → f ∈ fs → 0 ≤ BaseOffset s ≤ f_off f ∧ f_off f < NextOffset s.
Proof.
  intros Hs Hin. rewrite (seg_next _ _ _ Hs). destruct Hs as (Hh & _).
  pose proof (frame_base _ _ _ (holds_frames _ _ Hh) Hin). split; [lia|].
  unfold next_of. destruct (last fs) as [g|] eqn:El.
  - apply last_Some in El as [a ->]. pose proof (holds_ascending _ _ Hh) as Ha.
    apply StronglySorted_app in Ha as (Hx & _). apply elem_of_app in Hin as [Hin|Hin].
    + specialize (Hx f g Hin). rewrite list_elem_of_singleton in Hx. specialize (Hx eq_refl). lia.
    + apply list_elem_of_singleton in Hin as ->. lia.
  - apply last_None in El as ->. by apply not_elem_of_nil in Hin.
Qed.

Lemma seg_base_next o s fs : seg_ok o s fs → BaseOffset s ≤ NextOffset s.
Proof.
  intros Hs. rewrite (seg_next _ _ _ Hs). apply next_of_base, holds_frames. apply Hs.
Qed.

Lemma inv_active l fss :
  inv l fss → ∃ gss fs, fss = gss ++ [fs] ∧ Forall2 (seg_ok (opts l)) (older l) gss ∧
    seg_ok (opts l) (active l) fs.
Proof.
  intros (Hs & _). apply Forall2_app_inv_l in Hs as (gss & k & Ho & Ha & ->).
  apply Forall2_cons_inv_l in Ha as (fs & k' & Ha & Hk & ->). apply Forall2_nil_inv_l in Hk as ->.
  by exists gss, fs.
Qed.

(** The base offsets in front of the active segment. *)
Lemma older_below l fss s :
  inv l fss → s ∈ older l → NextOffset s ≤ BaseOffset (active l).
Proof.
  intros (_ & Hl & _) Hs. unfold linked, segments in Hl.
  apply StronglySorted_app in Hl as (Hx & _). apply Hx; [done|by apply list_elem_of_singleton].
Qed.

Lemma bases_below l fss b :
  inv l fss → b ∈ files l → b ≤ BaseOffset (active l).
Proof.
  intros Hi Hb. pose proof Hi as (Hs & _ & Hf & _). rewrite Hf in Hb.
  apply elem_of_list_to_set, list_elem_of_fmap in Hb as (s & -> & Hin).
  apply elem_of_app in Hin as [Hin|Hin]; [|by apply list_elem_of_singleton in Hin as ->].
  pose proof (older_below l fss s Hi Hin). destruct (inv_active l fss Hi) as (gss & fs & _ & Ho & _).
  apply list_elem_of_lookup in Hin as [i Hin]. destruct (Forall2_lookup_l _ _ _ _ _ Ho Hin) as (g & _ & Hg).
  pose proof (seg_base_next _ _ _ Hg). lia.
Qed.

(** ** Rolling *)

(** What an append leaves alone in the log. *)
Definition same_log (l l' : commitLog) : Prop :=
  readonly l' = readonly l ∧ hw l' = hw l ∧ epochs l' = epochs l ∧
  segmentsClosed l' = segmentsClosed l ∧ deleted l' = deleted l ∧ shut l' = shut l ∧
  hwWaiters l' = hwWaiters l ∧ released l' = released l ∧ hwFile l' = hwFile l ∧ opts l' = opts l.

(** A segment with something in it is full or old; an empty one is neither. *)
Lemma empty_not_split o s t now :
  seg_ok o s [] → 0 < MaxSegmentBytes o → CheckSplit s t now = false.
Proof.
  intros (Hh & _ & Hm & _) Ho. destruct Hh as (Hl & _ & _ & _ & (_ & _ & Hft & _) & gs & Eg & Hi).
  pose proof (log_ok_position _ _ Hl) as Hp. change (zlen (fs_bytes [])) with 0 in Hp.
  unfold CheckSplit. rewrite Hp, Hm, (proj2 (Z.leb_gt _ _)), Hft by lia.
  change (head_ts []) with 0. change (0 =? 0) with true. rewrite orb_true_r.
  destruct (blockMode s) eqn:Em; [|done].
  destruct Hi as (Hg & _ & _ & _ & Hb). rewrite Em in Hb.
  assert (gs = []) as ->.
  { destruct gs as [|[|f g] gs]; [done|by apply Forall_cons in Hg as [? _]|done]. }
  apply fmap_nil_inv in Hb. by rewrite Hb.
Qed.

Lemma new_segment_ok l base :
  opts_ok (opts l) → base ∉ files l → 0 ≤ base < 2 ^ 63 →
  ∃ s, (∀ t, newSegmentFormat (calm t) l base =
          (with_files l ({[ base ]} ∪ files l) (nextId l + 1), Ok s)) ∧
    seg_ok (opts l) s [] ∧ BaseOffset s = base ∧ id s = nextId l.
Proof.
  intros (Hm & Hc & Hv) Hn Hb. unfold newSegmentFormat. rewrite bool_decide_eq_false_2 by done.
  destruct (new_segment_holds false (nextId l) base (MaxSegmentBytes (opts l)) (Compression (opts l))
    (BlockFormat (opts l)) nil_index Hb) as (s0 & s & E0 & E & Hh & Hcf & _).
  exists s. unfold config in Hcf. injection Hcf as Hid HB Hmx Hcd _ _ _. split.
  - intros t. cbn [calm io_create io_index]. rewrite E0, bind_Ok, E. reflexivity.
  - clear E E0. split; [|done]. split; [done|]. split; [unfold codec_ok; by rewrite Hcd|].
    split; [done|]. unfold next_of. cbn [last]. rewrite HB. lia.
Qed.

Lemma linked_snoc ss s :
  linked (ss ++ [s]) ↔ linked ss ∧ Forall (λ s', NextOffset s' ≤ BaseOffset s) ss.
Proof.
  unfold linked. split.
  - intros Hs. apply StronglySorted_app in Hs as (Hx & Hs & _). split; [done|].
    apply Forall_forall. intros s' Hs'. apply Hx; [done|by apply list_elem_of_singleton].
  - intros [Hs Hf]. apply StronglySorted_app_2; [|done|by repeat constructor].
    intros x y Hx ->%list_elem_of_singleton. by eapply Forall_forall in Hx; [|exact Hf].
Qed.

Lemma newest_ok l fss :
  inv l fss → 0 ≤ NextOffset (active l) < 2 ^ 63 ∧ NewestOffset l = NextOffset (active l) - 1 ∧
    sint 64 (NewestOffset l + 1) = NextOffset (active l).
Proof.
  intros Hi. destruct (inv_active l fss Hi) as (gss & fs & _ & _ & Hs).
  pose proof (seg_next _ _ _ Hs) as En. pose proof (seg_base_next _ _ _ Hs).
  assert (Hr : 0 ≤ NextOffset (active l) < 2 ^ 63).
  { destruct Hs as (Hh & _ & _ & Hn). pose proof (holds_frames _ _ Hh) as ((? & ?) & _). lia. }
  unfold NewestOffset. split; [done|]. rewrite (sint_small 64 (_ - 1)) by (unfold in_sint; lia).
  split; [done|]. rewrite Z.sub_add. apply sint_nonneg; lia.
Qed.

Lemma split_full l fss t now :
  inv l fss → CheckSplit (active l) t now = true → ∃ gss f fs, fss = gss ++ [f :: fs].
Proof.
  intros Hi Hc. destruct (inv_active l fss Hi) as (gss & fs & -> & _ & Hs).
  destruct Hi as (_ & _ & _ & (Hm & _) & _).
  destruct fs as [|f fs]; [by rewrite (empty_not_split _ _ _ _ Hs Hm) in Hc|]. by exists gss, f, fs.
Qed.

Lemma split_fresh l fss t now :
  inv l fss → CheckSplit (active l) t now = true → NextOffset (active l) ∉ files l.
Proof.
  intros Hi Hc Hin. pose proof (bases_below l fss _ Hi Hin) as Hb.
  destruct (split_full l fss t now Hi Hc) as (gss & f & fs & ->).
  destruct (inv_active _ _ Hi) as (gss' & fs' & E & _ & Hs). apply app_inj_tail in E as [_ <-].
  pose proof (seg_range _ _ _ f Hs ltac:(by left)). lia.
Qed.

Lemma seg_seal o s fs f sf tf :
  seg_ok o s fs → seg_ok o (seal f sf tf s) fs ∧ BaseOffset (seal f sf tf s) = BaseOffset s ∧
    NextOffset (seal f sf tf s) = NextOffset s.
Proof.
  intros Hs. pose proof Hs as (Hh & Hcd & Hm & Hn).
  destruct (holds_seal f sf tf s fs Hh) as (Hh' & HB & Hc & Hmx).
  assert (Hs' : seg_ok o (seal f sf tf s) fs).
  { split; [done|]. unfold codec_ok. by rewrite Hc, HB, Hmx. }
  split; [done|]. split; [done|]. by rewrite (seg_next _ _ _ Hs'), (seg_next _ _ _ Hs), HB.
Qed.

(** The new active segment: everything before it, and room for a set. *)
Definition rolled (l l' : commitLog) : Prop :=
  same_log l l' ∧ NextOffset (active l') = NextOffset (active l) ∧
  position (active l') < MaxSegmentBytes (opts l) ∧
  BaseOffset (active l) ≤ BaseOffset (active l') ≤ NextOffset (active l).

Lemma split_ok t l fss now :
  inv l fss → CheckSplit (active l) now t = true →
  ∃ l' s, split (calm t) l = (l', Ok ()) ∧ seg_ok (opts l) s [] ∧
    BaseOffset s = NextOffset (active l) ∧ id s = nextId l ∧
    l' = with_segments (with_files l ({[ NextOffset (active l) ]} ∪ files l) (nextId l + 1))
           (segments l) s.
Proof.
  intros Hi Hc. destruct (newest_ok l fss Hi) as (Hr & _ & En).
  pose proof (split_fresh l fss _ _ Hi Hc) as Hf. pose proof Hi as (_ & _ & _ & Ho & Hcl & _).
  destruct (new_segment_ok l (NextOffset (active l)) Ho Hf Hr) as (s & E & Hs & HB & Hid).
  unfold split. cbv zeta. rewrite En, E. cbn [with_files segmentsClosed]. rewrite Hcl.
  by eexists _, s.
Qed.

(** Every segment starts where the one before it ends. *)
Fixpoint seamless (ss : list segment) : Prop :=
  match ss with
  | s :: ss => match ss with s' :: _ => BaseOffset s' = NextOffset s | [] => True end ∧ seamless ss
  | [] => True
  end.

Lemma seamless_app a s b : seamless (a ++ s :: b) ↔ seamless (a ++ [s]) ∧ seamless (s :: b).
Proof.
  induction a as [|x a IH]; [cbn; tauto|]. cbn [app seamless] in *. rewrite IH. destruct a; cbn; tauto.
Qed.

(** Only where a segment starts matters for those before it, and only where it
    ends for those behind. *)
Lemma seamless_base a s x : BaseOffset x = BaseOffset s → seamless (a ++ [s]) → seamless (a ++ [x]).
Proof.
  intros E. induction a as [|y a IH]; [done|]. cbn [app seamless]. intros [Hy Ha]. split; [|by apply IH].
  destruct a; [|done]. cbn in *. by rewrite E.
Qed.

Lemma seamless_next s x b : NextOffset x = NextOffset s → seamless (s :: b) → seamless (x :: b).
Proof. cbn [seamless]. intros ->. done. Qed.

(** Records are only added at the end: to the last segment, or in new ones. *)
Definition stretches (fss fss' : list (list frm)) : Prop :=
  ∀ i fs, fss !! i = Some fs → ∃ new, fss' !! i = Some (fs ++ new) ∧ ((S i < length fss)%nat → new = []).

Lemma stretches_refl fss : stretches fss fss.
Proof. intros i fs Ei. exists []. by rewrite app_nil_r. Qed.

Lemma stretches_trans a b c : stretches a b → stretches b c → stretches a c.
Proof.
  intros H1 H2 i fs Ei. destruct (H1 i fs Ei) as (n1 & E1 & L1). destruct (H2 i _ E1) as (n2 & E2 & L2).
  exists (n1 ++ n2). rewrite app_assoc. split; [done|]. intros Hlt. rewrite L1 by done. rewrite L2; [done|].
  apply (lookup_lt_is_Some_2 a) in Hlt as [g Eg]. destruct (H1 _ _ Eg) as (n & E & _). by apply lookup_lt_Some in E.
Qed.

Lemma stretches_last gss fs new : stretches (gss ++ [fs]) (gss ++ [fs ++ new]).
Proof.
  intros i g Ei. destruct (decide (i < length gss)%nat) as [Hlt|Hge].
  - rewrite lookup_app_l in Ei by done. exists []. rewrite app_nil_r, lookup_app_l by done. done.
  - apply lookup_lt_Some in Ei as Hlt. rewrite length_app in Hlt. cbn in Hlt. assert (i = length gss) as -> by lia.
    rewrite list_lookup_middle in Ei by done. injection Ei as ->. exists new. rewrite list_lookup_middle by done.
    rewrite length_app. cbn. split; [done|lia].
Qed.

Lemma stretches_snoc fss fs : stretches fss (fss ++ [fs]).
Proof. intros i g Ei. exists []. rewrite app_nil_r. split; [by apply lookup_app_l_Some|done]. Qed.

(** Segment objects are distinct, and the next one is new. *)
Definition numbered (l : commitLog) : Prop :=
  NoDup (id <$> segments l) ∧ Forall (λ s, id s < nextId l) (segments l).

(** The objects there were, in their places. *)
Definition renumbers (l l' : commitLog) : Prop :=
  numbered l → numbered l' ∧ (id <$> segments l) `prefix_of` (id <$> segments l').

Lemma renumbers_trans l l1 l2 : renumbers l l1 → renumbers l1 l2 → renumbers l l2.
Proof.
  intros R1 R2 Hn. destruct (R1 Hn) as [Hn1 P1]. destruct (R2 Hn1) as [Hn2 P2]. split; [done|]. by transitivity (id <$> segments l1).
Qed.

(** The same segments, or the same objects. *)
Lemma renumbers_same l l' : id <$> segments l' = id <$> segments l → nextId l' = nextId l → renumbers l l'.
Proof.
  intros Ei En [Hd Hf]. unfold numbered. rewrite Ei, En. split; [|done]. split; [done|].
  assert (Hx : Forall (λ i, i < nextId l) (id <$> segments l')) by (rewrite Ei; by apply Forall_fmap). by apply Forall_fmap in Hx.
Qed.

(** Appends change the segment that is active and add others behind it. *)
Definition grown (l : commitLog) (fss : list (list frm)) (l' : commitLog) (fss' : list (list frm)) : Prop :=
  opts l' = opts l ∧ (∃ more, fss' = removelast fss ++ more ∧ more ≠ []) ∧
  (BaseOffset <$> segments l) `prefix_of` (BaseOffset <$> segments l') ∧
  (seamless (segments l) → seamless (segments l')) ∧ stretches fss fss' ∧ renumbers l l'.

Lemma grown_refl l fss : inv l fss → grown l fss l fss.
Proof.
  intros Hi. destruct (inv_active l fss Hi) as (gss & fs & -> & _). split; [done|]. split; [|].
  { rewrite removelast_last. by exists [fs]. }
  split; [done|]. split; [done|]. split; [apply stretches_refl|by apply renumbers_same].
Qed.

Lemma grown_trans l0 fss0 l1 fss1 l2 fss2 :
  grown l0 fss0 l1 fss1 → grown l1 fss1 l2 fss2 → grown l0 fss0 l2 fss2.
Proof.
  intros (O1 & (m1 & -> & N1) & B1 & S1 & X1 & Y1) (O2 & (m2 & -> & N2) & B2 & S2 & X2 & Y2). split; [by rewrite O2|].
  split; [|split; [by transitivity (BaseOffset <$> segments l1)|split; [by auto|split; [by eapply stretches_trans|by eapply renumbers_trans]]]].
  exists (removelast m1 ++ m2). rewrite removelast_app by done. rewrite app_assoc. split; [done|].
  by destruct (removelast m1).
Qed.

Lemma grown_active l fss l1 gss fs l2 new :
  grown l fss l1 (gss ++ [fs]) → older l2 = older l1 → BaseOffset (active l2) = BaseOffset (active l1) →
  id (active l2) = id (active l1) → nextId l2 = nextId l1 → opts l2 = opts l1 → grown l fss l2 (gss ++ [fs ++ new]).
Proof.
  intros (O1 & (m & E & Hm) & B & Hsm & Hst & Hnu) Eo Eb Ei En Ep. split; [by rewrite Ep|]. split; [|split; [|split; [|split]]].
  4: { by eapply stretches_trans, stretches_last. }
  4: { eapply renumbers_trans; [exact Hnu|]. apply renumbers_same; [|done]. unfold segments. rewrite !fmap_app, Eo. cbn. by rewrite Ei. }
  - destruct (exists_last Hm) as (m' & x & ->). rewrite app_assoc in E. apply app_inj_tail in E as [-> _].
    exists (m' ++ [fs ++ new]). rewrite app_assoc. by destruct m'.
  - etransitivity; [exact B|]. unfold segments. rewrite !fmap_app, Eo. cbn. by rewrite Eb.
  - intros Hs. specialize (Hsm Hs). unfold segments in *. rewrite Eo. by eapply seamless_base.
Qed.

Lemma id_seal f sf tf s : id (seal f sf tf s) = id s.
Proof.
  unfold seal. destruct (sealed s); [done|]. destruct (negb _ && negb _); (destruct (_ && _ && _); [done|done]).
Qed.

Lemma roll_ok fuel t l fss :
  inv l fss → (0 < fuel)%nat →
  ∃ l' b fss', checkAndPerformSplit fuel (calm t) l = Some (l', Ok b) ∧ inv l' fss' ∧
    (concat fss' = concat fss ∧ grown l fss l' fss') ∧ rolled l l' ∧
    b = CheckSplit (active l) (MaxSegmentAge (opts l)) t ∧
    (if b then fss' = fss ++ [[]] else l' = l ∧ fss' = fss).
Proof.
  intros Hi Hfuel. destruct fuel as [|fuel]; [lia|]. cbn [checkAndPerformSplit calm io_now].
  destruct (CheckSplit _ _ _) eqn:Ec; cbn [negb].
  2: { exists l, false, fss. split; [done|]. split; [done|]. split; [by split; [|apply grown_refl]|].
       split; [|done].
       destruct (inv_active l fss Hi) as (gss & fs & _ & _ & Ha). pose proof (seg_base_next _ _ _ Ha).
       split; [by split_and!|]. split; [done|]. split; [|lia]. destruct Ha as (_ & _ & <- & _).
       unfold CheckSplit in Ec.
       destruct (Z.leb_spec (maxBytes (active l)) (position (active l))); [done|lia]. }
  destruct (split_ok t l fss _ Hi Ec) as (l1 & s & -> & Hs & HB & Hid & ->).
  destruct (split_full l fss _ _ Hi Ec) as (gss & f & fs0 & ->). set (fs := f :: fs0) in *.
  destruct (inv_active _ _ Hi) as (gss' & fs' & E & Ho & Ha). apply app_inj_tail in E as [<- <-].
  destruct (seg_seal _ _ _ Index.no_faults false false Ha) as (Ha' & HBa & HNa).
  pose proof Hi as (_ & Hl & Hfl & Hop & Hcl & Hfu).
  unfold seal_rolled. cbn [with_segments older active]. unfold segments. rewrite last_snoc, removelast_last.
  cbn [calm io_seal io_sync io_table]. eexists _, true, ((gss ++ [fs]) ++ [[]]). split; [done|]. split; [|split].
  - unfold inv, segments. cbn [with_segments with_files older active opts files segmentsClosed].
    split_and!; try done; [|..].
    + apply Forall2_app; [apply Forall2_app; [done|]|]; by rewrite Forall2_cons, Forall2_nil.
    + apply linked_snoc. unfold segments in Hl. apply linked_snoc in Hl as [Hl1 Hl2]. split.
      * apply linked_snoc. by rewrite HBa.
      * rewrite HB. apply Forall_app. split; [|by rewrite Forall_singleton, HNa].
        eapply Forall_impl; [exact Hl2|]. simpl. pose proof (seg_base_next _ _ _ Ha). lia.
    + rewrite Hfl. unfold segments. rewrite !fmap_app, !list_to_set_app_L. cbn.
      rewrite HBa, HB, (right_id_L ∅ (∪) {[ NextOffset (active l) ]}). apply (comm_L (∪)).
    + rewrite removelast_last in *. apply Forall_app. by split; [|apply Forall_singleton].
  - rewrite !concat_app. cbn. rewrite !app_nil_r. split; [done|]. split; [done|]. split; [|split; [|split; [|split]]].
    4: { apply stretches_snoc. }
    4: { intros [Hd Hf]. unfold numbered, segments in *. cbn [with_segments with_files older active nextId].
      assert (Eid : id <$> (older l ++ [seal Index.no_faults false false (active l)]) ++ [s] = (id <$> older l ++ [active l]) ++ [nextId l]).
      { rewrite !fmap_app. cbn. by rewrite id_seal, Hid. }
      rewrite Eid. split; [split|by eexists].
      - apply NoDup_app. split; [done|]. split; [|apply NoDup_singleton]. intros i (x & -> & Hx)%list_elem_of_fmap Hin.
        apply list_elem_of_singleton in Hin. rewrite Forall_forall in Hf. specialize (Hf x Hx). cbn in Hf. lia.
      - assert (Hx : Forall (λ i, i < nextId l + 1) ((id <$> older l ++ [active l]) ++ [nextId l])).
        { apply Forall_app. split; [|constructor; [lia|constructor]]. apply Forall_fmap. eapply Forall_impl; [exact Hf|]. cbn. lia. }
        rewrite <- Eid in Hx. by apply Forall_fmap in Hx. }
    + rewrite removelast_last, <- app_assoc. by eexists.
    + unfold segments. cbn [with_segments older active]. rewrite !fmap_app. cbn. rewrite HBa.
      by apply prefix_app_r.
    + unfold segments. cbn [with_segments older active]. intros Hsm. rewrite <- app_assoc. apply seamless_app.
      split; [by eapply seamless_base|]. cbn. by rewrite HNa.
  - split; [|done]. split; [done|]. cbn [with_segments active]. rewrite (seg_next _ _ _ Hs), HB.
    pose proof Hs as (Hh & _). destruct Hh as (Hlk & _). rewrite (log_ok_position _ _ Hlk).
    change (zlen (fs_bytes [])) with 0. destruct Hop as (? & _).
    pose proof (seg_base_next _ _ _ Ha). unfold next_of. simpl. lia.
Qed.

(** ** Appending frames *)

Lemma assign_written c epoch off : (EpochCache.Assign EpochCache.Written c epoch off).2 = true.
Proof.
  unfold EpochCache.Assign, EpochCache.assign. destruct (_ || _); [|done].
  unfold EpochCache.flush. by destruct (EpochCache.checkpointFile _).
Qed.

Lemma assign_epochs_written c last anchor es :
  (assign_epochs EpochCache.Written c last anchor es).2 = true.
Proof.
  revert c last anchor. induction es as [|e es IH]; intros c last anchor; [done|]. cbn [assign_epochs].
  destruct (last <? _); [|apply IH].
  pose proof (assign_written c (e_LeaderEpoch e) anchor) as Hw.
  destruct (EpochCache.Assign _ _ _ _) as [c' b]. cbn in Hw. subst b. apply IH.
Qed.

(** The epoch history after appending the frames [new] to a log whose newest
    offset is [tail]. *)
Definition epochs_after (c : EpochCache.leaderEpochCache) (tail : Z) (new : list frm)
    : EpochCache.leaderEpochCache :=
  (assign_epochs EpochCache.Written c (EpochCache.LastLeaderEpoch c) tail (entries_at 0 new)).1.

Lemma assign_epochs_pos w c last anchor pos pos' new :
  assign_epochs w c last anchor (entries_at pos new) =
  assign_epochs w c last anchor (entries_at pos' new).
Proof.
  revert c last anchor pos pos'. induction new as [|f new IH]; intros c last anchor pos pos'; [done|].
  cbn [entries_at assign_epochs scanned e_LeaderEpoch e_Offset].
  destruct (last <? f_ep f); [|apply IH]. destruct (EpochCache.Assign _ _ _ _) as [c' []]; [apply IH|done].
Qed.

Lemma offsets_entries_at pos new : e_Offset <$> entries_at pos new = f_off <$> new.
Proof. revert pos. induction new as [|f new IH]; intros pos; [done|]. cbn. by rewrite IH. Qed.

(** The log after its active segment became [s]: new epochs recorded, and the
    waiting readers woken if the set reaches below the watermark. *)
Definition appended_log (l : commitLog) (s : segment) (new : list frm) : commitLog :=
  let l' := with_epochs (with_active l s) (epochs_after (epochs l) (NewestOffset l) new) in
  match new with
  | f :: _ => if f_off f <=? hw l then notifyHWChange l' else l'
  | [] => l'
  end.

Lemma appendWith_frames t l s new wr :
  wr (active l) = (s, Ok ()) →
  appendWith (calm t) l (entries_at (position (active l)) new) wr =
  (appended_log l s new, Ok (f_off <$> new)).
Proof.
  intros Hw. unfold appendWith. rewrite Hw. cbn [with_active with_segments epochs calm io_epoch].
  unfold LastLeaderEpoch. cbn [epochs with_active with_segments].
  rewrite (assign_epochs_pos _ _ _ _ (position (active l)) 0).
  pose proof (assign_epochs_written (epochs l) (EpochCache.LastLeaderEpoch (epochs l))
    (sint 64 (NextOffset (active l) - 1)) (entries_at 0 new)) as Ht.
  unfold appended_log, epochs_after, NewestOffset.
  destruct (assign_epochs _ _ _ _ _) as [c b]. cbn in Ht. subst b. cbn [negb].
  rewrite offsets_entries_at. by destruct new.
Qed.

(** What the log keeps when a set is appended to its active segment. *)
Definition extends (l : commitLog) (new : list frm) (l' : commitLog) : Prop :=
  readonly l' = readonly l ∧ hw l' = hw l ∧ opts l' = opts l ∧
  epochs l' = epochs_after (epochs l) (NewestOffset l) new ∧
  (∀ f, head new = Some f →
   if f_off f <=? hw l
   then hwWaiters l' = ∅ ∧ released l' = send (hwWaiters l) false (released l)
   else hwWaiters l' = hwWaiters l ∧ released l' = released l).

Lemma appended_inv l gss fs new s :
  inv l (gss ++ [fs]) → holds s (fs ++ new) → kept (active l) s → new ≠ [] →
  next_of (BaseOffset (active l)) (fs ++ new) < 2 ^ 63 →
  inv (appended_log l s new) (gss ++ [fs ++ new]) ∧ extends l new (appended_log l s new) ∧
  NextOffset (active (appended_log l s new)) = next_of (BaseOffset (active l)) (fs ++ new).
Proof.
  intros Hi Hh (HB & Hcd & _ & _ & Hmx & _ & _ & _ & _) Hne Hn.
  destruct (inv_active _ _ Hi) as (gss' & fs' & E & Ho & Ha).
  apply app_inj_tail in E as [<- <-]. pose proof Ha as (_ & Hcd' & Hm & _).
  assert (Hs : seg_ok (opts l) s (fs ++ new)).
  { split; [done|]. split; [unfold codec_ok; by rewrite Hcd|]. split; [by rewrite Hmx|]. by rewrite HB. }
  destruct Hi as (_ & Hl & Hfl & Hop & Hcl & Hfu). rewrite removelast_last in Hfu.
  assert (Hinv : ∀ l', older l' = older l → active l' = s → files l' = files l → opts l' = opts l →
    segmentsClosed l' = segmentsClosed l → inv l' (gss ++ [fs ++ new])).
  { intros l' E1 E2 E3 E4 E5. unfold inv, segments. rewrite E1, E2, E3, E4, E5. split_and!; try done.
    - apply Forall2_app; [done|]. by rewrite Forall2_cons, Forall2_nil.
    - apply linked_snoc. apply linked_snoc in Hl. by rewrite HB.
    - rewrite Hfl. unfold segments. rewrite !fmap_app. cbn. by rewrite HB.
    - by rewrite removelast_last. }
  rewrite <- HB, <- (seg_next _ _ _ Hs). unfold appended_log. destruct new as [|f new]; [done|].
  destruct (f_off f <=? hw l) eqn:Ef.
  - split; [by apply Hinv|]. split; [|done]. split_and!; try done. intros g [= <-]. by rewrite Ef.
  - split; [by apply Hinv|]. split; [|done]. split_and!; try done. intros g [= <-]. by rewrite Ef.
Qed.

End log_inv.

(** ** A log for the examples *)

(** An empty log at offset 4100 that writes blocks of the given format. *)
Definition sample_log (fmt : Z) : commitLog :=
  {| readonly := false; hw := 4099; older := []; active := empty_sample;
     epochs := {| EpochCache.epochOffsets := []; EpochCache.checkpointFile := true;
                  EpochCache.disk := None |};
     segmentsClosed := false; deleted := false; shut := false; hwWaiters := {[ 1 ]}; released := ∅;
     files := {[ 4100 ]}; hwFile := None; nextId := 8;
     opts := {| MaxSegmentBytes := Z.shiftl 1 20; MaxSegmentAge := 0; Compression := CZstd;
                BlockFormat := fmt |} |}.

Lemma sample_log_inv fmt : @inv half_lib (sample_log fmt) [[]].
Proof.
  split; [|split; [|split; [|split; [|split]]]]; try done.
  - cbn. rewrite Forall2_cons, Forall2_nil. split; [|done]. split; [apply empty_sample_holds|].
    by split_and!.
  - by repeat constructor.
Qed.

End Log.
