(* ===== verification/LogAppend.v ===== *)
(** * Appending to the log

    The append operations of Log.v against the log as a list of records. *)

From Stdlib Require Import ZArith Lia.
From stdpp Require Import base list numbers strings gmap sorting.
From coqutil Require Import Byte.
From S2P Require Import Prelude GoStd Text Wire Compress BlockV3 Block Framing EpochCache Index.
From S2P Require Import Segment SegmentIndex SegmentSearch SegmentReopen Log.

Open Scope Z_scope.

Module LogAppend.
Import Segment SegmentIndex SegmentSearch SegmentReopen Log.

Section log_append.
Context `{CodecLaws}.

(** Frames above what a segment holds. *)
Lemma frames_ok_app base fs new :
  frames_ok base fs → Forall (frm_ok base) new → Forall (λ f, 0 < zlen (f_data f)) new →
  ascending new → Forall (λ f, next_of base fs ≤ f_off f) new →
  zlen (fs_bytes fs) + zlen (fs_bytes new) < 2 ^ 31 → frames_ok base (fs ++ new).
Proof.
  intros Hok Hf Hd Ha Hn Hz. pose proof Hok as (Hb & Hf0 & Hd0 & Ha0 & _).
  split_and!; [lia|lia|by apply Forall_app|by apply Forall_app| |by rewrite fs_bytes_app, zlen_app].
  apply StronglySorted_app_2; [|done|done]. intros f g Hfi Hg.
  eapply Forall_forall in Hn; [|exact Hg]. unfold next_of in Hn. destruct (last fs) as [x|] eqn:El.
  - apply last_Some in El as [a ->]. apply StronglySorted_app in Ha0 as (Hx & _).
    apply elem_of_app in Hfi as [Hfi|Hfi]; [|apply list_elem_of_singleton in Hfi as ->; lia].
    specialize (Hx f x Hfi). rewrite list_elem_of_singleton in Hx. specialize (Hx eq_refl). lia.
  - apply last_None in El as ->. by apply not_elem_of_nil in Hfi.
Qed.

Lemma next_of_new base fs new : new ≠ [] → next_of base (fs ++ new) = next_of base new.
Proof.
  intros Hne. unfold next_of. rewrite last_app. by destruct (last new) eqn:E; [|apply last_None in E].
Qed.

Lemma fbytes_le f new : f ∈ new → zlen (fbytes f) ≤ zlen (fs_bytes new).
Proof.
  intros (a & b & ->)%list_elem_of_split. rewrite fs_bytes_app, fs_bytes_cons, !zlen_app. pose_zlen. lia.
Qed.

(** A set of frames fit for a log: room above the base of its active segment
    and within the bytes a segment may hold. *)
Definition fits_log (l : commitLog) (new : list frm) : Prop :=
  new ≠ [] ∧ Forall (λ f, 0 ≤ f_off f ∧ f_off f - BaseOffset (active l) < 2 ^ 31 ∧
    f_off f + 1 < 2 ^ 63 ∧ in_sint 64 (f_ts f) ∧ in_uint 64 (f_ep f) ∧ 0 < zlen (f_data f)) new ∧
  MaxSegmentBytes (opts l) + zlen (fs_bytes new) ≤ 2 ^ 31.

(** Frames that fit, above the tail of the log before it rolled. *)
Lemma fits_frames_ok l l' fs new :
  rolled l l' → opts_ok (opts l) → seg_ok (opts l) (active l') fs → fits_log l new → ascending new →
  Forall (λ f, NextOffset (active l) ≤ f_off f) new →
  frames_ok (BaseOffset (active l')) (fs ++ new) ∧
  next_of (BaseOffset (active l')) (fs ++ new) < 2 ^ 63 ∧
  Forall (frm_ok (BaseOffset (active l'))) new ∧ Forall (λ f, 0 < zlen (f_data f)) new.
Proof.
  intros (_ & En & Hp & Hb) (Hm & _) Hs (Hne & Hf & Hz) Ha Hab.
  pose proof Hs as (Hh & _). pose proof (holds_frames _ _ Hh) as Hok.
  destruct Hh as (Hl & _). rewrite (log_ok_position _ _ Hl) in Hp.
  pose proof (seg_base_next _ _ _ Hs). pose proof (seg_next _ _ _ Hs) as Eb.
  assert (Hfo : Forall (frm_ok (BaseOffset (active l'))) new).
  { apply Forall_forall. intros f Hin. pose proof (fbytes_le f new Hin).
    pose proof (proj1 (Forall_forall _ _) Hf f Hin) as (? & ? & ? & ? & ? & ?).
    pose proof (proj1 (Forall_forall _ _) Hab f Hin) as Hlow. cbv beta in Hlow. destruct Hok as ((? & ?) & _).
    unfold frm_ok. split; [lia|]. split; [lia|]. split; [lia|]. split; [done|]. split; [done|]. lia. }
  assert (Hd : Forall (λ f, 0 < zlen (f_data f)) new).
  { eapply Forall_impl; [exact Hf|]. intros f (_ & _ & _ & _ & _ & ?). done. }
  split; [|split; [|done]].
  - apply frames_ok_app; try done; [by rewrite <- Eb, En|lia].
  - rewrite next_of_new by done. unfold next_of. destruct (last new) as [f|] eqn:El.
    + apply last_Some_elem_of in El. eapply Forall_forall in El; [|exact Hf]. destruct El as (_ & _ & ? & _). lia.
    + by apply last_None in El.
Qed.

(** What a whole append leaves: the frames behind everything else. *)
Definition appended (l : commitLog) (fss : list (list frm)) (new : list frm) (l' : commitLog) : Prop :=
  ∃ fss', inv l' fss' ∧ (concat fss' = concat fss ++ new ∧ grown l fss l' fss') ∧ extends l new l' ∧
    BaseOffset (active l) ≤ BaseOffset (active l') ≤ NextOffset (active l) ∧ NextOffset (active l') = next_of 0 new.

(** A write of the frames into the active segment, after the log rolled. *)
Lemma rolled_appendWith t l fss l1 fss1 new wr :
  inv l1 fss1 → (concat fss1 = concat fss ∧ grown l fss l1 fss1) → rolled l l1 → fits_log l new → ascending new →
  Forall (λ f, NextOffset (active l) ≤ f_off f) new →
  (∀ fs, holds (active l1) fs → codec_ok (active l1) → new ≠ [] →
     frames_ok (BaseOffset (active l1)) (fs ++ new) →
     ∃ s, wr (active l1) = (s, Ok ()) ∧ holds s (fs ++ new) ∧ kept (active l1) s) →
  ∃ l', appendWith (calm t) l1 (entries_at (position (active l1)) new) wr =
          (l', Ok (f_off <$> new)) ∧ appended l fss new l'.
Proof.
  intros Hi [Ec Hg] Hr Hfit Ha Hab Hw. destruct (inv_active _ _ Hi) as (gss & fs & -> & Ho & Hs).
  pose proof Hr as ((R1 & R2 & R3 & R4 & R5 & R6 & R7 & R8 & R9 & R10) & En & _).
  pose proof Hi as (_ & _ & _ & Hop & _). rewrite R10 in Hs, Hop.
  destruct (fits_frames_ok l l1 fs new Hr Hop Hs Hfit Ha Hab) as (Hok & Hn & _).
  pose proof Hfit as (Hne & _). destruct Hs as (Hh & Hcd & _).
  destruct (Hw fs Hh Hcd Hne Hok) as (s & Hws & Hh' & Hk).
  destruct (appended_inv l1 gss fs new s Hi Hh' Hk Hne Hn) as (Hi' & He & HN).
  exists (appended_log l1 s new). split; [by apply appendWith_frames|].
  exists (gss ++ [fs ++ new]). split; [done|].
  assert (El : older (appended_log l1 s new) = older l1 ∧ active (appended_log l1 s new) = s ∧
    opts (appended_log l1 s new) = opts l1 ∧ nextId (appended_log l1 s new) = nextId l1).
  { unfold appended_log. destruct new as [|f new]; [done|]. by destruct (_ <=? _). }
  destruct El as (L1 & L2 & L3 & L4). split.
  { split; [|apply (grown_active l fss l1 gss fs); try done; rewrite L2; apply Hk].
    rewrite !concat_app in *. cbn in *. rewrite !app_nil_r in *. by rewrite <- Ec, app_assoc. }
  rewrite HN, next_of_new by done. split; [|split].
  - unfold extends, NewestOffset in *. by rewrite R1, R2, R3, R7, R8, R10, En in He.
  - pose proof Hr as (_ & _ & _ & Hb). destruct Hk as (HB & _).
    rewrite L2. lia.
  - unfold next_of. by destruct (last new) eqn:El; [|apply last_None in El].
Qed.

Lemma rolled_append t l fss l1 fss1 new :
  inv l1 fss1 → (concat fss1 = concat fss ∧ grown l fss l1 fss1) → rolled l l1 → fits_log l new → ascending new →
  Forall (λ f, NextOffset (active l) ≤ f_off f) new →
  ∃ l', append (calm t) l1 (fs_bytes new) (entries_at (position (active l1)) new) =
          (l', Ok (f_off <$> new)) ∧ appended l fss new l'.
Proof.
  intros Hi Ec Hr Hfit Ha Hab. eapply rolled_appendWith; try done.
  intros fs Hh Hcd Hne Hok.
  destruct (holds_append (active l1) fs new Hh Hcd Hne Hok) as (s & ? & ? & ? & _). by exists s.
Qed.

(** ** The messages of a batch *)

Lemma batch_frames_off o msgs : f_off <$> batch_frames o msgs = seqZ o (zlen msgs).
Proof.
  revert o. induction msgs as [|[[m hs1] hs2] msgs IH]; intros o; [done|].
  rewrite zlen_cons, seqZ_cons by (pose_zlen; lia). cbn. rewrite IH. f_equal. f_equal; lia.
Qed.

Lemma batch_frames_between o msgs :
  Forall (λ f, o ≤ f_off f < o + zlen msgs) (batch_frames o msgs) ∧ ascending (batch_frames o msgs).
Proof.
  revert o. induction msgs as [|[[m hs1] hs2] msgs IH]; intros o; [by repeat constructor|].
  destruct (IH (o + 1)) as [Hf Ha]. rewrite zlen_cons. pose proof (zlen_nonneg msgs). cbn [batch_frames]. split.
  - constructor; [cbn; lia|]. eapply Forall_impl; [exact Hf|]. cbn. lia.
  - constructor; [done|]. eapply Forall_impl; [exact Hf|]. cbn. lia.
Qed.

Lemma batch_frames_fields o msgs :
  batch_ok msgs →
  Forall (λ f, in_sint 64 (f_ts f) ∧ in_uint 64 (f_ep f) ∧ 0 < zlen (f_data f)) (batch_frames o msgs).
Proof.
  revert o. induction msgs as [|[[m hs1] hs2] msgs IH]; intros o; [constructor|].
  intros [(_ & _ & ? & ?) Hb]%Forall_cons. constructor; [|by apply IH]. split; [done|]. split; [done|].
  pose proof (record_bytes_pos m hs2). cbn [f_data]. lia.
Qed.

Lemma stamp_ok t msgs : in_sint 64 t → batch_ok msgs → batch_ok (stamp t <$> msgs).
Proof.
  intros Ht Hb. apply Forall_fmap. eapply Forall_impl; [exact Hb|]. intros [[m hs1] hs2] (? & ? & ? & ?).
  unfold compose, stamp. by destruct (_ =? _).
Qed.

Lemma stamp_encodable t msgs : encodable_batch msgs → encodable_batch (stamp t <$> msgs).
Proof.
  intros Hb. apply Forall_fmap. eapply Forall_impl; [exact Hb|]. intros [[m hs1] hs2] He.
  unfold compose, stamp. by destruct (_ =? _).
Qed.

Lemma zlen_stamp t msgs : zlen (stamp t <$> msgs) = zlen msgs.
Proof. unfold zlen. by rewrite length_fmap. Qed.

Lemma next_of_batch b o msgs : msgs ≠ [] → next_of b (batch_frames o msgs) = o + zlen msgs.
Proof.
  revert o. induction msgs as [|[[m hs1] hs2] msgs IH]; intros o; [done|]. intros _.
  rewrite zlen_cons. destruct msgs as [|x msgs]; [done|].
  replace (next_of b _) with (next_of b (batch_frames (o + 1) (x :: msgs))) by (by destruct x as [[? ?] ?]).
  rewrite IH by done. lia.
Qed.

(** ** Append *)

(** The messages a log can take: within the 31 bits an index entry has for the
    offset in the segment and for the position. *)
Definition batch_fits (t : Z) (l : commitLog) (msgs : list ordered) : Prop :=
  msgs ≠ [] ∧ batch_ok msgs ∧ encodable_batch msgs ∧ in_sint 64 t ∧
  NextOffset (active l) + zlen msgs < 2 ^ 63 ∧
  NextOffset (active l) + zlen msgs - BaseOffset (active l) ≤ 2 ^ 31 ∧
  MaxSegmentBytes (opts l) + zlen (fs_bytes (batch_frames (NextOffset (active l)) (stamp t <$> msgs)))
    ≤ 2 ^ 31.

Lemma batch_fits_log t l fss msgs :
  inv l fss → batch_fits t l msgs →
  fits_log l (batch_frames (NextOffset (active l)) (stamp t <$> msgs)).
Proof.
  intros Hi (Hne & Hb & He & Ht & Hn & Hsp & Hz). destruct (newest_ok l fss Hi) as (Hr & _).
  pose proof (batch_frames_between (NextOffset (active l)) (stamp t <$> msgs)) as [Hf Ha].
  pose proof (zlen_stamp t msgs) as Hl.
  rewrite Hl in Hf. split; [|split; [|done]].
  - intros E%(f_equal length). rewrite length_batch_frames, length_fmap in E. by destruct msgs.
  - pose proof (batch_frames_fields (NextOffset (active l)) _ (stamp_ok t _ Ht Hb)) as Hd.
    apply Forall_forall. intros f Hin.
    pose proof (proj1 (Forall_forall _ _) Hd f Hin) as (? & ? & ?).
    pose proof (proj1 (Forall_forall _ _) Hf f Hin) as [? ?]. by split_and!; try done; lia.
Qed.

Lemma Append_frames fuel t l fss msgs :
  let new := batch_frames (NextOffset (active l)) (stamp t <$> msgs) in
  inv l fss → readonly l = false → (0 < fuel)%nat → fits_log l new →
  batch_ok (stamp t <$> msgs) → encodable_batch (stamp t <$> msgs) →
  NextOffset (active l) + zlen msgs < 2 ^ 63 →
  ∃ l', Append fuel (calm t) l msgs = Some (l', Ok (seqZ (NextOffset (active l)) (zlen msgs))) ∧
    appended l fss new l'.
Proof.
  intros new Hi Hro Hfuel Hfit Hb He Hn.
  destruct (batch_frames_between (NextOffset (active l)) (stamp t <$> msgs)) as [Hab Ha].
  destruct (roll_ok fuel t l fss Hi Hfuel) as (l1 & b & fss1 & Es & Hi1 & Ec & Hr & _).
  destruct (rolled_append t l fss l1 fss1 new Hi1 Ec Hr Hfit Ha) as (l' & E & Hap).
  { eapply Forall_impl; [exact Hab|]. simpl. lia. }
  destruct (newest_ok l fss Hi) as (Hrg & _). pose proof Hi as (_ & _ & _ & (Hm & _) & _).
  pose proof Hfit as (_ & _ & Hz). exists l'. split; [|done].
  unfold Append, IsReadonly. rewrite Hro. unfold after_split. rewrite Es. cbn [calm io_now].
  pose proof Hr as (_ & -> & _).
  rewrite newMessageSet_frames by (rewrite ?zlen_stamp; (done || unfold new in *; lia)).
  fold new. rewrite E. unfold new. by rewrite batch_frames_off, zlen_stamp.
Qed.

(** C1: an append to an open, writable log returns, rolling the active segment
    when it is full, and refines appending to a list: the records of the log are
    those it had and behind them the messages, stamped with the time where they
    carry none, under the consecutive offsets it answers; its invariant holds
    again (every segment readable and indexed, segments in offset order, a file
    for each), the epoch history is extended by the batch, and readers waiting
    for the watermark are woken exactly when the batch starts at or below it. *)
Theorem append_refines fuel t l fss msgs :
  inv l fss → readonly l = false → (0 < fuel)%nat → batch_fits t l msgs →
  ∃ l', Append fuel (calm t) l msgs = Some (l', Ok (seqZ (NextOffset (active l)) (zlen msgs))) ∧
    appended l fss (batch_frames (NextOffset (active l)) (stamp t <$> msgs)) l' ∧
    NextOffset (active l') = NextOffset (active l) + zlen msgs.
Proof.
  intros Hi Hro Hfuel Hb. pose proof (batch_fits_log t l fss msgs Hi Hb) as Hfit.
  destruct Hb as (Hne & Hbo & He & Ht & Hn & _).
  destruct (Append_frames fuel t l fss msgs) as (l' & E & Hap); try done;
    [by apply stamp_ok|by apply stamp_encodable|].
  exists l'. split; [done|]. split; [done|]. destruct Hap as (_ & _ & _ & _ & _ & ->).
  rewrite next_of_batch, zlen_stamp; [done|]. by intros ?%fmap_nil_inv.
Qed.

Lemma fits_framed l new :
  fits_log l new → opts_ok (opts l) → Forall framed new ∧ Forall (λ f, 0 < zlen (f_data f)) new.
Proof.
  intros (_ & Hf & Hz) (Hm & _). split; apply Forall_forall; intros f Hin; pose proof (fbytes_le f new Hin);
    pose proof (proj1 (Forall_forall _ _) Hf f Hin) as (? & ? & ? & ? & ? & ?); [|done].
  split; [lia|]. split; [lia|]. split; [lia|]. split; [done|]. split; [done|]. lia.
Qed.

Lemma checkAppendedSet_refuses tail es n :
  checkAppendedSet tail es n = Ok () ∨ ∃ m, checkAppendedSet tail es n = Fail (ErrMessageSetRefused m).
Proof.
  unfold checkAppendedSet. destruct es; [by right; eexists|].
  repeat (destruct (_ <=? _) || destruct (negb _); [by right; eexists|]). by left.
Qed.

(** A set that passes the check. *)
Lemma AppendMessageSet_frames fuel t l fss new :
  inv l fss → (0 < fuel)%nat → fits_log l new → ascending new →
  Forall (λ f, NewestOffset l < f_off f) new →
  ∃ l', AppendMessageSet fuel (calm t) l (fs_bytes new) = Some (l', Ok (f_off <$> new)) ∧
    appended l fss new l'.
Proof.
  intros Hi Hfuel Hfit Ha Hab.
  destruct (roll_ok fuel t l fss Hi Hfuel) as (l1 & b & fss1 & Es & Hi1 & Ec & Hr & _).
  pose proof Hi as (_ & _ & _ & Hop & _). destruct (fits_framed l new Hfit Hop) as [Hf Hd].
  destruct (newest_ok l fss Hi) as (_ & En & _). pose proof Hr as (_ & EN & _).
  unfold AppendMessageSet, after_split. rewrite Es, EN, set_entries, bind_Ok by done.
  change (sint 64 (NextOffset (active l) - 1)) with (NewestOffset l).
  rewrite (proj2 (checkAppendedSet_frames _ _ _)), bind_Ok by (by pose proof Hfit as (? & _)).
  destruct (rolled_append t l fss l1 fss1 new Hi1 Ec Hr Hfit Ha) as (l' & -> & Hap); [|by exists l'].
  eapply Forall_impl; [exact Hab|]. simpl. lia.
Qed.

(** A set that does not: at most the active segment is rolled. *)
Lemma AppendMessageSet_refused fuel t l fss new :
  inv l fss → (0 < fuel)%nat → fits_log l new →
  ¬ (ascending new ∧ Forall (λ f, NewestOffset l < f_off f) new) →
  ∃ l' fss' m, AppendMessageSet fuel (calm t) l (fs_bytes new) = Some (l', Fail (ErrMessageSetRefused m)) ∧
    inv l' fss' ∧ (concat fss' = concat fss ∧ grown l fss l' fss') ∧ rolled l l'.
Proof.
  intros Hi Hfuel Hfit Hno.
  destruct (roll_ok fuel t l fss Hi Hfuel) as (l1 & b & fss1 & Es & Hi1 & Ec & Hr & _).
  pose proof Hi as (_ & _ & _ & Hop & _). destruct (fits_framed l new Hfit Hop) as [Hf Hd].
  pose proof Hr as (Hsame & EN & _). unfold AppendMessageSet, after_split. rewrite Es, EN.
  rewrite set_entries, bind_Ok by done. change (sint 64 (NextOffset (active l) - 1)) with (NewestOffset l).
  destruct (checkAppendedSet_refuses (NewestOffset l) (entries_at (position (active l1)) new)
    (zlen (fs_bytes new))) as [E|[m E]]; rewrite E.
  - apply checkAppendedSet_frames in E as (_ & Hab & Ha). by destruct Hno.
  - by exists l1, fss1, m.
Qed.

(** a set of whole frames read from another log is accepted exactly when its
    offsets ascend from above the newest offset.  Accepted,
    its records stand behind those of the log under their own offsets, with
    their own timestamps and epochs; refused, it changes no record (the active
    segment may have been rolled). *)
Theorem append_set_accepts fuel t l fss new :
  inv l fss → (0 < fuel)%nat → fits_log l new →
  (ascending new ∧ Forall (λ f, NewestOffset l < f_off f) new →
   ∃ l', AppendMessageSet fuel (calm t) l (fs_bytes new) = Some (l', Ok (f_off <$> new)) ∧
     appended l fss new l') ∧
  (¬ (ascending new ∧ Forall (λ f, NewestOffset l < f_off f) new) →
   ∃ l' fss' m, AppendMessageSet fuel (calm t) l (fs_bytes new) =
       Some (l', Fail (ErrMessageSetRefused m)) ∧
     inv l' fss' ∧ concat fss' = concat fss ∧ same_log l l').
Proof.
  intros Hi Hfuel Hfit. split; [intros [Ha Hab]; by apply AppendMessageSet_frames|]. intros Hno.
  destruct (AppendMessageSet_refused fuel t l fss new Hi Hfuel Hfit Hno) as (l' & fss' & m & E & Hi' & [Ec _] & Hs & _).
  by exists l', fss', m.
Qed.

(** ** Blocks *)

(** The records of a version-3 block as frames. *)
Fixpoint block_frames (h : blockv3.Header) (i : Z) (recs : list blockv3.Rec) : list frm :=
  match recs with
  | [] => []
  | r :: recs =>
      {| f_off := Framing.rec_offset h r; f_ts := blockv3.BaseTimestamp h;
         f_ep := blockv3.LeaderEpoch h; f_data := Framing.record_data h i r |}
      :: block_frames h (i + 1) recs
  end.

Lemma frames_block h i recs : Framing.frames h i recs = fs_bytes (block_frames h i recs).
Proof.
  revert i. induction recs as [|r recs IH]; intros i; [done|]. cbn [Framing.frames block_frames].
  by rewrite fs_bytes_cons, IH.
Qed.

Lemma zlen_block_frames h i recs : zlen (block_frames h i recs) = zlen recs.
Proof. revert i. induction recs as [|r recs IH]; intros i; [done|]. cbn. by rewrite !zlen_cons, IH. Qed.

(** [writeV3] of a block that decodes to the frames [new], into a raw segment or
    as it is. *)
Lemma writeV3_stored t l fss l1 fss1 block h recs new :
  inv l1 fss1 → (concat fss1 = concat fss ∧ grown l fss l1 fss1) → rolled l l1 → opts_ok (opts l) →
  blockv3.DecodeBlock block = Ok (h, recs) → Framing.decodeV3Block block = Ok (fs_bytes new) → zlen new = blockv3.Records h →
  fits_log l new → ascending new → Forall (λ f, NextOffset (active l) ≤ f_off f) new →
  0 ≤ NextOffset (active l) < 2 ^ 63 →
  ∃ l', writeV3 (calm t) l1 block h recs = (l', Ok (f_off <$> new)) ∧ appended l fss new l'.
Proof.
  intros Hi Ec Hr Hop Hd Hdec Hrec Hfit Ha Hab Hrg.
  assert (Hsyn : Framing.synthesizeFraming [] h recs = Ok (fs_bytes new)).
  { unfold Framing.decodeV3Block in Hdec. by rewrite Hd, bind_Ok in Hdec. }
  assert (Hck : checkAppendedSet (sint 64 (NextOffset (active l1) - 1))
    (entries_at (position (active l1)) new) (zlen (fs_bytes new)) = Ok ()).
  { apply checkAppendedSet_frames. pose proof Hfit as (Hne & _). pose proof Hr as (_ & -> & _).
    rewrite sint_small by (unfold in_sint; lia). split; [done|]. split; [|done].
    eapply Forall_impl; [exact Hab|]. simpl. lia. }
  destruct (fits_framed l new Hfit Hop) as [Hf Hfd].
  unfold writeV3. rewrite Hsyn, set_entries, bind_Ok, Hck, bind_Ok by done.
  destruct (blockMode (active l1)) eqn:Em; cbn [negb]; [|by apply (rolled_append t l fss l1 fss1)].
  eapply rolled_appendWith; try done. intros fs Hh Hcd Hne Hok.
  destruct (holds_block (active l1) fs new block h recs) as (s & ? & ? & ? & _); try done. by exists s.
Qed.

Lemma writeV3_frames t l fss l1 fss1 block h recs :
  let new := block_frames h 0 recs in
  inv l1 fss1 → (concat fss1 = concat fss ∧ grown l fss l1 fss1) → rolled l l1 → opts_ok (opts l) →
  blockv3.DecodeBlock block = Ok (h, recs) → Framing.recs_fit h 0 recs →
  fits_log l new → ascending new → Forall (λ f, NextOffset (active l) ≤ f_off f) new →
  0 ≤ NextOffset (active l) < 2 ^ 63 →
  ∃ l', writeV3 (calm t) l1 block h recs = (l', Ok (f_off <$> new)) ∧ appended l fss new l'.
Proof.
  intros new Hi Ec Hr Hop Hd Hrf Hfit Ha Hab Hrg. apply (writeV3_stored t l fss l1 fss1); try done.
  - unfold Framing.decodeV3Block. rewrite Hd, bind_Ok. unfold Framing.synthesizeFraming.
    rewrite Framing.synthesize_loop_ok by done. by rewrite app_nil_l, frames_block.
  - unfold new. rewrite zlen_block_frames.
    apply blockv3.DecodeBlock_inv in Hd as [Hok' (p & _ & _ & _ & Hp)].
    by apply blockv3.decode_payload_safe in Hp as [? _].
Qed.

Lemma decodeV3ForAppend_decodes block h recs :
  Framing.decodeV3ForAppend block = Ok (h, recs) → blockv3.DecodeBlock block = Ok (h, recs).
Proof.
  unfold Framing.decodeV3ForAppend. destruct (blockv3.DecodeBlock block) as [[h' recs']| |]; [|done|done].
  repeat (destruct (_ && _) || destruct (negb _); [done|]). done.
Qed.

(** C29: a block framed elsewhere, its offsets, epoch and timestamp left blank,
    is appended as it is: it gets the next offset, the newest epoch and the time,
    and its records stand behind those of the log as that block reads. *)
Theorem preframed_refines fuel t l fss block h recs :
  let h' := blockv3.rewritten h (NextOffset (active l)) (LastLeaderEpoch l) t in
  let new := block_frames h' 0 recs in
  inv l fss → readonly l = false → BlockFormat (opts l) = blockv3.Version → (0 < fuel)%nat →
  Framing.decodeV3ForAppend block = Ok (h, recs) →
  in_sint 64 t → in_uint 64 (LastLeaderEpoch l) →
  Framing.recs_fit h' 0 recs → fits_log l new → ascending new →
  Forall (λ f, NextOffset (active l) ≤ f_off f) new →
  ∃ l', AppendPreframed fuel (calm t) l block = Some (l', Ok (f_off <$> new)) ∧ appended l fss new l'.
Proof.
  intros h' new Hi Hro Hbf Hfuel Hd Ht He Hrf Hfit Ha Hab.
  destruct (roll_ok fuel t l fss Hi Hfuel) as (l1 & b & fss1 & Es & Hi1 & Ec & Hr & _).
  destruct (newest_ok l fss Hi) as (Hrg & _). pose proof Hi as (_ & _ & _ & Hop & _).
  pose proof Hr as ((_ & _ & Eep & _) & En & _).
  unfold AppendPreframed, IsReadonly. rewrite Hro, Hbf, Z.eqb_refl, Hd. cbn [negb].
  unfold after_split. rewrite Es. cbv zeta. cbn [calm io_now].
  assert (ELE : LastLeaderEpoch l1 = LastLeaderEpoch l) by (unfold LastLeaderEpoch; by rewrite Eep).
  rewrite ELE, En. apply decodeV3ForAppend_decodes in Hd.
  destruct (blockv3.v3_rewrite_keeps_records block h recs (NextOffset (active l)) (LastLeaderEpoch l) t Hd)
    as (block' & Erw & Hd' & _); [unfold in_sint; lia|done|done|]. rewrite Erw.
  destruct (writeV3_frames t l fss l1 fss1 block' h' recs) as (l' & E & Hap); try done.
  exists l'. split; [|done]. f_equal. exact E.
Qed.

(** Frames depend on the fields of the header a payload leaves alone. *)
Lemma block_frames_stamp h h' i recs :
  blockv3.same_stamp h h' → block_frames h' i recs = block_frames h i recs.
Proof.
  intros (E1 & E2 & E3 & E4 & E5 & E6 & E7 & E8). revert i.
  induction recs as [|r recs IH]; intros i; [done|]. cbn [block_frames]. rewrite IH.
  unfold Framing.rec_offset, Framing.record_data, Framing.record_of, Framing.record_headers_of,
    Framing.record_attrs, Framing.stamped_headers, Framing.id_headers.
  by rewrite E1, E2, E3, E4, E5, E6, E7, E8.
Qed.

Lemma recs_fit_stamp h h' i recs :
  blockv3.same_stamp h h' → Framing.recs_fit h i recs → Framing.recs_fit h' i recs.
Proof.
  intros (E1 & E2 & E3 & E4 & E5 & E6 & E7 & E8). revert i.
  induction recs as [|r recs IH]; intros i; [done|]. cbn [Framing.recs_fit]. intros [Hr Hf].
  split; [|by apply IH]. unfold Framing.rec_fits, Framing.record_headers_of,
    Framing.stamped_headers, Framing.id_headers in *. by rewrite E1, E5, E6, E7, E8.
Qed.

Lemma batch_block_frames h i msgs :
  0 ≤ i → 0 ≤ blockv3.BaseOffset h → i + zlen msgs ≤ 2 ^ 32 →
  blockv3.BaseOffset h + i + zlen msgs ≤ 2 ^ 63 →
  let new := block_frames h i (Framing.batch_records i msgs) in
  f_off <$> new = seqZ (blockv3.BaseOffset h + i) (zlen msgs) ∧ ascending new ∧
  Forall (λ f, blockv3.BaseOffset h + i ≤ f_off f) new.
Proof.
  intros Hi Hb. cbv zeta. revert i Hi. induction msgs as [|m msgs IH]; intros i Hi Hn Hz.
  { by repeat constructor. }
  rewrite zlen_cons in Hn, Hz. pose proof (zlen_nonneg msgs).
  destruct (IH (i + 1)) as (E & Ha & Hf); [lia..|]. cbn [Framing.batch_records block_frames].
  rewrite zlen_cons, seqZ_cons by lia. unfold Framing.rec_offset at 1 3. cbn [blockv3.OffsetDelta].
  assert (Eo : sint 64 (blockv3.BaseOffset h + uint 32 i) = blockv3.BaseOffset h + i).
  { rewrite uint_small by (unfold in_uint; lia). apply sint_nonneg; lia. }
  rewrite fmap_cons, E. cbn [f_off]. unfold Framing.rec_offset. cbn [blockv3.OffsetDelta]. rewrite Eo.
  split; [f_equal; f_equal; lia|]. split.
  - constructor; [done|]. eapply Forall_impl; [exact Hf|]. simpl. lia.
  - constructor; [simpl; lia|]. eapply Forall_impl; [exact Hf|]. simpl. lia.
Qed.

(** The header [AppendBatch] gives the block of a batch whose messages carry
    the timestamp [st], 0 for none. *)
Definition header_of (t : Z) (l : commitLog) (meta : Framing.BatchMeta) (m : Message) (st : Z)
    : blockv3.Header :=
  Framing.batch_header (Compression (opts l)) (NextOffset (active l)) (Wire.LeaderEpoch m)
    (if st =? 0 then t else st) meta (is_control m).

(** A batch [AppendBatch] can frame as one block of a log. *)
Definition batch_block (t : Z) (l : commitLog) (meta : Framing.BatchMeta) (m : Message)
    (msgs : list Message) (st : Z) : Prop :=
  Framing.meta_ok meta ∧ in_sint 64 t ∧ in_sint 64 st ∧ in_uint 64 (Wire.LeaderEpoch m) ∧
  existsb identity_taken (m :: msgs) = false ∧
  batch_stamp (Wire.LeaderEpoch m) (is_control m) 0 (m :: msgs) = Ok st ∧
  Forall (λ m, blockv3.present (Wire.Headers m)) (m :: msgs) ∧
  zlen (m :: msgs) < 2 ^ 32 ∧
  zlen (blockv3.EncodeRecords [] (Framing.batch_records 0 (m :: msgs))) < 2 ^ 32 ∧
  Framing.recs_fit (header_of t l meta m st) 0 (Framing.batch_records 0 (m :: msgs)) ∧
  NextOffset (active l) + zlen (m :: msgs) < 2 ^ 63 ∧
  fits_log l (block_frames (header_of t l meta m st) 0 (Framing.batch_records 0 (m :: msgs))).

Lemma header_stamp_ok t l fss meta m msgs st :
  inv l fss → batch_block t l meta m msgs st → blockv3.stamp_ok (header_of t l meta m st).
Proof.
  intros Hi ((? & ? & ? & ?) & Ht & Hst & He & _). destruct (newest_ok l fss Hi) as (Hrg & _).
  pose proof Hi as (_ & _ & _ & (_ & ? & ?) & _). unfold header_of, blockv3.stamp_ok.
  cbn [Framing.batch_header blockv3.Codec blockv3.Flags blockv3.BaseOffset blockv3.LeaderEpoch
    blockv3.BaseTimestamp blockv3.ProducerID blockv3.ProducerEpoch blockv3.BaseSequence blockv3.TxNonce].
  split; [done|]. split; [done|].
  split; [by destruct (is_control m), (negb (Framing.m_Nonce meta =? 0)), (bool_decide (meta = Framing.no_meta))|].
  split; [unfold in_sint; lia|]. split; [done|]. split; [by destruct (st =? 0)|].
  split; [by apply sint_range|]. split; [by apply sint_range|]. done.
Qed.

(** A batch given to a log that writes version-3 blocks becomes one block,
    whose records stand behind those of the log under consecutive offsets. *)
Lemma batch_append_v3 fuel t l fss meta m msgs os st :
  let new := block_frames (header_of t l meta m st) 0 (Framing.batch_records 0 (m :: msgs)) in
  inv l fss → readonly l = false → BlockFormat (opts l) = blockv3.Version → (0 < fuel)%nat →
  batch_block t l meta m msgs st →
  ∃ l', AppendBatch fuel (calm t) l meta (m :: msgs) os =
          Some (l', Ok (seqZ (NextOffset (active l)) (zlen (m :: msgs)))) ∧ appended l fss new l'.
Proof.
  intros new Hi Hro Hbf Hfuel Hb. pose proof (header_stamp_ok t l fss meta m msgs st Hi Hb) as Hso.
  destruct Hb as (Hm & Ht & Hst & He & Hid & Hbs & Hpr & Hn & Hrl & Hrf & Hz & Hfit).
  destruct (roll_ok fuel t l fss Hi Hfuel) as (l1 & b & fss1 & Es & Hi1 & Ec & Hr & _).
  destruct (newest_ok l fss Hi) as (Hrg & _). pose proof Hi as (_ & _ & _ & Hop & _).
  pose proof Hr as ((_ & _ & _ & _ & _ & _ & _ & _ & _ & Eop) & En & _).
  destruct (Framing.encodeV3Block_decodes (header_of t l meta m st) (Framing.batch_records 0 (m :: msgs)))
    as (block & h & Henc & Hdec & Hsame); [done|done|apply Framing.batch_records_deltas|done|].
  rewrite Framing.norm_present in Hdec by (by apply Framing.batch_records_present).
  destruct (batch_block_frames (header_of t l meta m st) 0 (m :: msgs)) as (Eo & Ha & Hab);
    [lia|cbn; lia|lia|cbn [blockv3.BaseOffset header_of Framing.batch_header]; lia|].
  rewrite Z.add_0_r in Eo, Hab. change (blockv3.BaseOffset (header_of t l meta m st)) with (NextOffset (active l)) in *.
  pose proof (block_frames_stamp _ _ 0 (Framing.batch_records 0 (m :: msgs)) Hsame) as Efr.
  destruct (writeV3_frames t l fss l1 fss1 block h (Framing.batch_records 0 (m :: msgs)))
    as (l' & E & Hap); rewrite ?Efr; try done; [by eapply recs_fit_stamp|].
  rewrite Efr in E, Hap. exists l'. split; [|done].
  unfold AppendBatch, IsReadonly. rewrite Hro, Hid, Hbf, Z.eqb_refl. cbn [negb].
  rewrite Hbs. unfold after_split. rewrite Es. cbn [calm io_now]. rewrite En, Eop.
  change (Framing.batch_header _ _ _ _ _ _) with (header_of t l meta m st). rewrite Henc, E. by rewrite <- Eo.
Qed.

(** ** The same batch in either format *)

(** The two passes of the encoder visit the headers of [m] in some order. *)
Definition visits (m : Message) (o : headerOrder * headerOrder) : Prop :=
  o.1 ≡ₚ map_to_list (Wire.Headers m) ∧ o.2 ≡ₚ map_to_list (Wire.Headers m).

(** In key order, as the framing of a version-3 block has them. *)
Definition sorted_orders (msgs : list Message) : list (headerOrder * headerOrder) :=
  (λ m, (Framing.key_order (Wire.Headers m), Framing.key_order (Wire.Headers m))) <$> msgs.

(** Frames of one length that read as the same record: offset, timestamp, epoch,
    attributes, key, value and header map. *)
Definition alike (f g : frm) : Prop :=
  f_off f = f_off g ∧ f_ts f = f_ts g ∧ f_ep f = f_ep g ∧ zlen (f_data f) = zlen (f_data g) ∧
  ∃ m, reads_as m (f_data f) ∧ reads_as m (f_data g).

Section stamped.
Context (codec base epoch st : Z) (meta : Framing.BatchMeta) (control : bool).
Context (Hm : Framing.meta_ok meta) (Hne : meta ≠ Framing.no_meta).
Abbreviation h := (Framing.batch_header codec base epoch st meta control).
Abbreviation frames_of i msgs := (block_frames h i (Framing.batch_records i msgs)).

(** The record a block has for a message. *)
Definition block_rec (i : Z) (m : Message) : blockv3.Rec :=
  {| blockv3.Attributes := byte.of_Z (Z.land (uint 8 (Wire.Attributes m)) blockv3.AttrTombstone);
     blockv3.OffsetDelta := uint 32 i; blockv3.Key := Wire.Key m; blockv3.Value := Wire.Value m;
     blockv3.Headers := Wire.Headers m |}.

(** It is the record of the stamped copy, the headers in key order. *)
Lemma block_rec_stamped i m :
  Framing.batch_message st epoch control m →
  Framing.record_of h i (block_rec i m) = Framing.stamp_message meta i m ∧
  Framing.record_headers_of h i (block_rec i m) = Wire.Headers (Framing.stamp_message meta i m).
Proof.
  intros Hmsg.
  pose proof (Framing.batch_record_of codec base epoch st meta control h i m _ Hm Hne Hmsg ltac:(by split_and!) eq_refl) as Hrec.
  split; [exact Hrec|]. by rewrite <- Hrec.
Qed.

Lemma block_frame_stamped i m :
  Framing.batch_message st epoch control m → 0 ≤ i < 2 ^ 32 → 0 ≤ base → base + i < 2 ^ 63 →
  {| f_off := Framing.rec_offset h (block_rec i m); f_ts := blockv3.BaseTimestamp h; f_ep := blockv3.LeaderEpoch h;
     f_data := Framing.record_data h i (block_rec i m) |} =
  {| f_off := base + i; f_ts := Wire.Timestamp m; f_ep := Wire.LeaderEpoch m;
     f_data := record_bytes (Framing.stamp_message meta i m) (Framing.key_order (Wire.Headers (Framing.stamp_message meta i m))) |}.
Proof.
  intros Hmsg Hi Hb Hz. destruct (block_rec_stamped i m Hmsg) as [Hrec Hh].
  unfold Framing.record_data, Framing.rec_offset. rewrite Hrec, Hh. cbn [block_rec blockv3.OffsetDelta].
  change (blockv3.BaseOffset h) with base. rewrite uint_small by (unfold in_uint; lia).
  rewrite sint_nonneg by lia. destruct Hmsg as (_ & _ & _ & -> & ->). done.
Qed.

(** Visited in key order, the copies are framed as the block reads. *)
Lemma block_batch_frames i msgs :
  Forall (Framing.batch_message st epoch control) msgs →
  0 ≤ i → 0 ≤ base → i + zlen msgs ≤ 2 ^ 32 → base + i + zlen msgs ≤ 2 ^ 63 →
  frames_of i msgs = batch_frames (base + i) (in_orders (stamped_copies meta i msgs) (sorted_orders (stamped_copies meta i msgs))).
Proof.
  intros Hf. revert i. induction Hf as [|m msgs Hmsg _ IH]; intros i Hi Hb Hn Hz; [done|].
  rewrite zlen_cons in Hn, Hz. pose proof (zlen_nonneg msgs).
  cbn [Framing.batch_records block_frames stamped_copies sorted_orders fmap list_fmap in_orders zip_with batch_frames fst snd].
  fold (block_rec i m). rewrite (block_frame_stamped i m) by (done || lia). f_equal.
  rewrite IH by lia. f_equal. lia.
Qed.

(** Visited in any order, they read alike. *)
Lemma block_batch_alike i msgs os :
  Forall (Framing.batch_message st epoch control) msgs → Forall (λ m, blockv3.present (Wire.Headers m)) msgs →
  0 ≤ i → 0 ≤ base → i + zlen msgs ≤ 2 ^ 32 → base + i + zlen msgs ≤ 2 ^ 63 →
  Framing.recs_fit h i (Framing.batch_records i msgs) → Forall (λ f, zlen (f_data f) < 2 ^ 31) (frames_of i msgs) →
  Forall2 visits (stamped_copies meta i msgs) os →
  Forall2 alike (frames_of i msgs) (batch_frames (base + i) (in_orders (stamped_copies meta i msgs) os)) ∧
  encodable_batch (in_orders (stamped_copies meta i msgs) os).
Proof.
  intros Hf. revert i os. induction Hf as [|m msgs Hmsg _ IH]; intros i os Hp Hi Hb Hn Hz Hr Hzf Hv.
  { apply Forall2_nil_inv_l in Hv as ->. by split; constructor. }
  rewrite zlen_cons in Hn, Hz. pose proof (zlen_nonneg msgs). apply Forall_cons in Hp as [Hpm Hp].
  cbn [Framing.batch_records block_frames Framing.recs_fit stamped_copies] in *. fold (block_rec i m) in *.
  destruct Hr as [Hrm Hr]. apply Forall_cons in Hzf as [Hzm Hzf]. apply Forall2_cons_inv_l in Hv as (o & os' & [Ho1 Ho2] & Hv & ->).
  destruct (IH (i + 1) os' Hp ltac:(lia) Hb ltac:(lia) ltac:(lia) Hr Hzf Hv) as [Ha He].
  pose proof (Framing.record_of_readable h i (block_rec i m) Hrm Hpm Hzm) as Hrd.
  destruct (block_rec_stamped i m Hmsg) as [Hrec Hh]. rewrite Hrec, Hh in Hrd.
  set (m' := Framing.stamp_message meta i m) in *.
  assert (Hord : Framing.key_order (Wire.Headers m') ≡ₚ o.2) by (by rewrite Framing.key_order_perm).
  pose proof (readable_perm _ _ _ Hord Hrd) as Hrd2. cbn [in_orders zip_with batch_frames]. split.
  - rewrite (block_frame_stamped i m) by (done || lia). constructor.
    + unfold alike. cbn [f_off f_ts f_ep f_data]. split_and!; try done.
      * unfold zlen. by rewrite (record_bytes_perm _ _ _ Hord).
      * exists m'. split; by apply record_reads_as.
    + by replace (base + i + 1) with (base + (i + 1)) by lia.
  - constructor; [|done]. by destruct Hrd2 as (_ & _ & _ & ? & _).
Qed.

End stamped.

Lemma visits_ok st epoch control meta i msgs os :
  in_sint 64 st → in_uint 64 epoch → Forall (Framing.batch_message st epoch control) msgs →
  Forall2 visits (stamped_copies meta i msgs) os → batch_ok (in_orders (stamped_copies meta i msgs) os).
Proof.
  intros Hst He Hf. revert i os. induction Hf as [|m msgs Hm _ IH]; intros i os Hv; [constructor|].
  cbn [stamped_copies] in *. apply Forall2_cons_inv_l in Hv as (o & os' & [Ho1 Ho2] & Hv & ->).
  cbn [in_orders zip_with]. constructor; [|by apply IH]. destruct Hm as (_ & _ & _ & Ht & Hep).
  cbn [Framing.stamp_message Wire.Headers Wire.Timestamp Wire.LeaderEpoch] in *. by rewrite Ht, Hep.
Qed.

Lemma sorted_visits msgs : Forall2 visits msgs (sorted_orders msgs).
Proof.
  unfold sorted_orders. induction msgs as [|m msgs IH]; [constructor|]. cbn. constructor; [|done].
  split; apply Framing.key_order_perm.
Qed.

Lemma length_stamped_copies meta i msgs : length (stamped_copies meta i msgs) = length msgs.
Proof. revert i. induction msgs as [|m msgs IH]; intros i; [done|]. cbn. by rewrite IH. Qed.

Lemma zlen_in_orders meta i msgs os :
  Forall2 visits (stamped_copies meta i msgs) os → zlen (in_orders (stamped_copies meta i msgs) os) = zlen msgs.
Proof.
  intros Hv. unfold zlen, in_orders. rewrite length_zip_with_l_eq, length_stamped_copies; [done|]. by eapply Forall2_length.
Qed.

Lemma alike_bytes fs gs : Forall2 alike fs gs → zlen (fs_bytes fs) = zlen (fs_bytes gs).
Proof.
  induction 1 as [|f g fs gs (_ & _ & _ & E & _) _ IH]; [done|]. by rewrite !fs_bytes_cons, !zlen_app, !zlen_fbytes, E, IH.
Qed.

(** A message under the batch's timestamp. *)
Definition timed (st : Z) (m : Message) : Message :=
  {| Wire.MagicByte := Wire.MagicByte m; Wire.Attributes := Wire.Attributes m;
     Wire.Key := Wire.Key m; Wire.Value := Wire.Value m; Wire.Headers := Wire.Headers m;
     Wire.Timestamp := st; Wire.LeaderEpoch := Wire.LeaderEpoch m |}.

Lemma timed_records st i msgs : Framing.batch_records i (timed st <$> msgs) = Framing.batch_records i msgs.
Proof. revert i. induction msgs as [|m msgs IH]; intros i; [done|]. cbn. by rewrite IH. Qed.

Lemma stamped_timed t st meta i msgs os :
  Forall (λ m, Wire.Timestamp m = st) msgs →
  stamp t <$> in_orders (stamped_copies meta i msgs) os =
  in_orders (stamped_copies meta i (timed (if st =? 0 then t else st) <$> msgs)) os.
Proof.
  intros Hf. revert i os. induction Hf as [|m msgs Hm _ IH]; intros i os; [done|]. destruct os as [|o os]; [done|].
  cbn [stamped_copies fmap list_fmap in_orders zip_with]. f_equal; [|apply IH].
  unfold stamp. cbn [fst snd]. destruct m. cbn in Hm. subst. cbn. by destruct (_ =? 0).
Qed.

Lemma visits_timed st meta i msgs os :
  Forall2 visits (stamped_copies meta i msgs) os → Forall2 visits (stamped_copies meta i (timed st <$> msgs)) os.
Proof.
  revert i os. induction msgs as [|m msgs IH]; intros i os Hv; [done|]. cbn [stamped_copies fmap list_fmap] in *.
  apply Forall2_cons_inv_l in Hv as (o & os' & Ho & Hv & ->). constructor; [exact Ho|by apply IH].
Qed.

Lemma sorted_timed st meta i msgs :
  sorted_orders (stamped_copies meta i (timed st <$> msgs)) = sorted_orders (stamped_copies meta i msgs).
Proof. revert i. induction msgs as [|m msgs IH]; intros i; [done|]. cbn. f_equal. apply IH. Qed.

(** The messages two logs of different formats store alike: one timestamp for
    all or none, and only the attributes a block keeps. *)
Definition uniform (st : Z) (m : Message) : Prop :=
  Wire.Timestamp m = st ∧ Wire.MagicByte m = 0 ∧ 0 ≤ Wire.Attributes m < 4.

Lemma batch_stamp_same epoch control st0 st msgs :
  batch_stamp epoch control st0 msgs = Ok st →
  Forall (λ m, Wire.LeaderEpoch m = epoch ∧ is_control m = control) msgs.
Proof.
  revert st0. induction msgs as [|m msgs IH]; intros st0 E; [constructor|]. cbn [batch_stamp] in E.
  destruct (_ && _); [done|]. destruct (Z.eqb_spec (Wire.LeaderEpoch m) epoch); [|done].
  destruct (Bool.eqb _ _) eqn:Eb; [|done]. apply Bool.eqb_prop in Eb.
  constructor; [done|]. by apply IH in E.
Qed.

Lemma odd_control m : Z.odd (Wire.Attributes m) = is_control m.
Proof.
  unfold is_control, AttrControl. change 1 with (Z.ones 1). rewrite Z.land_ones by lia.
  change (2 ^ 1) with 2. rewrite Zmod_odd. by destruct (Z.odd _).
Qed.

(** The version-2 copies of a uniform batch. *)
Lemma uniform_copies t l meta m msgs st os :
  let new := block_frames (header_of t l meta m st) 0 (Framing.batch_records 0 (m :: msgs)) in
  let copies := stamp t <$> in_orders (stamped_copies meta 0 (m :: msgs)) os in
  meta ≠ Framing.no_meta → batch_block t l meta m msgs st → Forall (uniform st) (m :: msgs) →
  0 ≤ NextOffset (active l) → opts_ok (opts l) → Forall2 visits (stamped_copies meta 0 (m :: msgs)) os →
  Forall2 alike new (batch_frames (NextOffset (active l)) copies) ∧ batch_ok copies ∧ encodable_batch copies ∧
  (os = sorted_orders (stamped_copies meta 0 (m :: msgs)) → batch_frames (NextOffset (active l)) copies = new).
Proof.
  intros new copies Hmeta Hb Hu Hrg (Hmx & _) Hv.
  destruct Hb as (Hm & Ht & Hst & He & Hid & Hbs & Hpr & Hn & _ & Hrf & Hz & Hfit).
  set (tm := if st =? 0 then t else st) in *. set (bm := timed tm <$> m :: msgs).
  assert (Htm : in_sint 64 tm) by (unfold tm; by destruct (st =? 0)).
  assert (Hbm : Forall (Framing.batch_message tm (Wire.LeaderEpoch m) (is_control m)) bm).
  { apply batch_stamp_same in Hbs. apply Forall_fmap, Forall_forall. intros x Hx.
    pose proof (proj1 (Forall_forall _ _) Hbs x Hx) as [Hxe Hxc].
    pose proof (proj1 (Forall_forall _ _) Hu x Hx) as (_ & Hmg & Hat).
    unfold compose, Framing.batch_message, timed. by rewrite <- Hxc, <- odd_control. }
  assert (Es : copies = in_orders (stamped_copies meta 0 bm) os).
  { apply stamped_timed. eapply Forall_impl; [exact Hu|]. by intros x (? & _). }
  assert (Ezb : zlen bm = zlen (m :: msgs)) by (unfold zlen, bm; by rewrite length_fmap).
  assert (En : new = block_frames (header_of t l meta m st) 0 (Framing.batch_records 0 bm))
    by (unfold new, bm; by rewrite timed_records).
  pose proof (visits_timed tm meta 0 (m :: msgs) os Hv) as Hvb. fold bm in Hvb.
  destruct (block_batch_alike (Compression (opts l)) (NextOffset (active l)) (Wire.LeaderEpoch m) tm meta (is_control m)
    Hm Hmeta 0 bm os) as [Ha Hec]; try done; try lia.
  { apply Forall_fmap. exact Hpr. }
  { unfold bm. by rewrite timed_records. }
  { unfold bm. rewrite timed_records. fold tm in new. change (block_frames _ _ _) with new. apply Forall_forall. intros f Hf.
    pose proof (fbytes_le f new Hf). destruct Hfit as (_ & _ & Hfz). change (block_frames _ _ _) with new in Hfz.
    rewrite zlen_fbytes in *. lia. }
  rewrite Z.add_0_r in Ha. rewrite Es. split; [by rewrite En|].
  split; [by apply (visits_ok tm (Wire.LeaderEpoch m) (is_control m))|]. split; [done|]. intros ->.
  rewrite En, <- (sorted_timed tm). fold bm. rewrite <- (Z.add_0_r (NextOffset (active l))) at 1. symmetry.
  apply (block_batch_frames (Compression (opts l)) (NextOffset (active l)) (Wire.LeaderEpoch m) tm meta (is_control m)); (done || lia).
Qed.

Lemma alike_fits l fs gs : Forall2 alike fs gs → fits_log l fs → fits_log l gs.
Proof.
  intros Ha (Hne & Hf & Hz). split; [|split; [|by rewrite <- (alike_bytes _ _ Ha)]].
  - intros ->. by apply Forall2_nil_inv_r in Ha.
  - clear Hne Hz. induction Ha as [|f g fs gs (E1 & E2 & E3 & E4 & _) _ IH]; [constructor|].
    apply Forall_cons in Hf as [Hf Hfs]. constructor; [|by apply IH]. by rewrite <- E1, <- E2, <- E3, <- E4.
Qed.

(** C28: a batch with a producer identity that fits one block, of messages with one
    epoch and kind, one timestamp for all or none, no attribute a block does not
    keep and no absent header value, leaves the same records in a log that writes version-3 blocks, where
    it is one block, and in a log that writes version-2 blocks, where each message
    is stamped and its headers are encoded in whatever order the map is ranged
    over: the same offsets are answered, and the frames behind the old ones agree
    one by one in offset, timestamp, epoch, size, attributes, key, value and
    headers; they are the same bytes when that order is the key order. *)
Theorem batch_append_formats fuel t l2 l3 fss2 fss3 meta m msgs os os3 st :
  let copies := stamped_copies meta 0 (m :: msgs) in
  let offsets := seqZ (NextOffset (active l3)) (zlen (m :: msgs)) in
  inv l2 fss2 → inv l3 fss3 → readonly l2 = false → readonly l3 = false →
  BlockFormat (opts l2) ≠ blockv3.Version → BlockFormat (opts l3) = blockv3.Version →
  NextOffset (active l2) = NextOffset (active l3) → (0 < fuel)%nat → meta ≠ Framing.no_meta →
  batch_block t l3 meta m msgs st → Forall (uniform st) (m :: msgs) →
  fits_log l2 (block_frames (header_of t l3 meta m st) 0 (Framing.batch_records 0 (m :: msgs))) →
  Forall2 visits copies os →
  ∃ l2' l3' new2 new3,
    AppendBatch fuel (calm t) l2 meta (m :: msgs) os = Some (l2', Ok offsets) ∧
    AppendBatch fuel (calm t) l3 meta (m :: msgs) os3 = Some (l3', Ok offsets) ∧
    appended l2 fss2 new2 l2' ∧ appended l3 fss3 new3 l3' ∧
    Forall2 alike new3 new2 ∧ (os = sorted_orders copies → new2 = new3).
Proof.
  intros copies offsets Hi2 Hi3 Hro2 Hro3 Hb2 Hb3 En Hfuel Hmeta Hb Hu Hfit Hv.
  destruct (batch_append_v3 fuel t l3 fss3 meta m msgs os3 st Hi3 Hro3 Hb3 Hfuel Hb) as (l3' & E3 & Hap3).
  pose proof Hb as (_ & _ & _ & _ & Hid & _ & _ & _ & _ & _ & Hz & _).
  destruct (newest_ok l3 fss3 Hi3) as (Hrg & _). pose proof Hi3 as (_ & _ & _ & Hop & _).
  destruct (uniform_copies t l3 meta m msgs st os Hmeta Hb Hu ltac:(lia) Hop Hv) as (Ha & Hbo & Hec & Hs).
  pose proof (zlen_in_orders meta 0 (m :: msgs) os Hv) as Ez. rewrite <- En in Ha, Hs.
  destruct (Append_frames fuel t l2 fss2 (in_orders copies os)) as (l2' & E2 & Hap2); try done;
    [by eapply alike_fits|unfold copies; rewrite Ez, En; lia|].
  unfold copies in E2. rewrite Ez, En in E2. eexists l2', l3', _, _. split; [|by split_and!].
  unfold AppendBatch, IsReadonly. rewrite Hro2, Hid, (proj2 (Z.eqb_neq _ _) Hb2). cbn [negb].
  rewrite bool_decide_eq_false_2 by done. exact E2.
Qed.

(** C33: The two block formats hold the same records.  For a batch with a producer
    identity that fits one block, of messages with one timestamp, epoch and kind,
    no attribute a block does not keep and no absent header value, the version-3 block [AppendBatch] builds reads as frames that agree,
    one by one, with those of the message set the version-2 path frames for the
    same batch at the same base offset, whatever order the header maps are ranged
    over there: offsets, timestamps, epochs, sizes, attributes, keys, values and
    headers, identity included; visited in key order, they are the same bytes.  A
    follower's [decodeV3ForAppend] accepts the block. *)
Theorem batch_formats_agree codec base epoch stamp meta control msgs os ms basePos :
  let h := Framing.batch_header codec base epoch stamp meta control in
  let copies := stamped_copies meta 0 msgs in
  0 ≤ codec → Valid codec = true → 0 ≤ base → base + zlen msgs ≤ 2 ^ 63 → in_uint 64 epoch → in_sint 64 stamp →
  Framing.meta_ok meta → meta ≠ Framing.no_meta → msgs ≠ [] → zlen msgs < 2 ^ 32 →
  Forall (Framing.batch_message stamp epoch control) msgs →
  Forall (λ m, blockv3.present (Wire.Headers m)) msgs → Forall2 visits copies os →
  zlen (blockv3.EncodeRecords [] (Framing.batch_records 0 msgs)) < 2 ^ 32 →
  Framing.synthesizeFraming [] h (Framing.batch_records 0 msgs) = Ok ms → zlen ms < 2 ^ 31 →
  ∃ block h' new3 new2 es,
    Framing.encodeV3Block h (Framing.batch_records 0 msgs) = Ok (block, h') ∧
    Framing.decodeV3ForAppend block = Ok (h', Framing.batch_records 0 msgs) ∧
    Framing.decodeV3Block block = Ok (fs_bytes new3) ∧
    newMessageSetFromProto base basePos (in_orders copies os) = Ok (fs_bytes new2, es) ∧
    Forall2 alike new3 new2 ∧ (os = sorted_orders copies → new2 = new3).
Proof.
  intros h copies Hc Hv Hb Hbn He Hst Hmeta Hm Hne Hlen Hmsgs Hpres Hvis Hrl Hsyn Hz.
  destruct (Framing.batch_flags codec base epoch stamp meta control Hm) as (_ & _ & Htx & Hf8).
  assert (0 < zlen msgs) by (destruct msgs; [done|]; rewrite zlen_cons; pose_zlen; lia).
  assert (Hst_ok : blockv3.stamp_ok h).
  { destruct Hmeta as (? & ? & ? & ?). split_and!; try done; [unfold in_sint; cbn; lia|by apply sint_range..]. }
  destruct (Framing.encodeV3Block_decodes h (Framing.batch_records 0 msgs)) as (block & h' & Henc & Hdec & Hsame);
    [done|by destruct msgs|apply Framing.batch_records_deltas|done|].
  rewrite Framing.norm_present in Hdec by (by apply Framing.batch_records_present).
  pose proof Hsyn as Hsyn'. apply Framing.synthesize_loop_inv in Hsyn' as [Hfit Hms]. rewrite app_nil_l, frames_block in Hms.
  destruct (block_batch_alike codec base epoch stamp meta control Hmeta Hm 0 msgs os) as [Ha Hec]; try done; try lia.
  { apply Forall_forall. intros f Hf. fold h in Hf. pose proof (fbytes_le f _ Hf). rewrite Hms in Hz. rewrite zlen_fbytes in *. lia. }
  rewrite Z.add_0_r in Ha. exists block, h', (block_frames h 0 (Framing.batch_records 0 msgs)), (batch_frames base (in_orders copies os)).
  eexists. split; [done|]. split; [|split; [|split; [|split; [done|]]]].
  - apply Framing.decodeV3ForAppend_accepts; [done|apply Framing.batch_deltas_by_index|].
    destruct Hsame as (-> & _ & _ & _ & _ & _ & _ & ->). exact Htx.
  - unfold Framing.decodeV3Block, Framing.synthesizeFraming in *. rewrite Hdec, bind_Ok.
    by rewrite <- (Framing.synthesize_same_stamp _ _ _ _ _ Hsame), Hsyn, Hms.
  - apply newMessageSet_frames; [by apply (visits_ok stamp epoch control)|done|done|by unfold copies; rewrite zlen_in_orders|].
    unfold copies. rewrite <- (alike_bytes _ _ Ha). fold h. by rewrite <- Hms.
  - intros ->. rewrite <- (Z.add_0_r base) at 1. symmetry.
    apply (block_batch_frames codec base epoch stamp meta control); (done || lia).
Qed.

(** ** A roll that fails *)

Lemma roll_spins fuel f l :
  CheckSplit (active l) (MaxSegmentAge (opts l)) (io_now f) = true →
  sint 64 (NewestOffset l + 1) ∈ files l → checkAndPerformSplit fuel f l = None.
Proof.
  intros Hc Hf. induction fuel as [|fuel IH]; [done|]. cbn [checkAndPerformSplit]. rewrite Hc. cbn [negb].
  unfold split. cbv zeta. unfold newSegmentFormat. by rewrite bool_decide_eq_true_2.
Qed.

(** when a roll fails after it created the new segment's file (no space left
    for the index, say), the append reports the error, but the file stays.  The
    next append finds it, takes it for the work of a competing roll and tries
    again: as long as the active segment is due, no number of turns of the loop
    ends it, and every append to the log hangs under the append lock. *)
Theorem failed_roll_spins f e l l' :
  checkAndPerformSplit 1 f l = Some (l', Fail e) → io_create f = false → segmentsClosed l = false →
  ∀ f', CheckSplit (active l) (MaxSegmentAge (opts l)) (io_now f') = true →
  ∀ fuel, (∀ ms, AppendMessageSet fuel f' l' ms = None) ∧
    (readonly l = false → ∀ msgs, Append fuel f' l' msgs = None).
Proof.
  intros E Hcr Hcl f' Hc' fuel.
  assert (Hl : active l' = active l ∧ opts l' = opts l ∧ readonly l' = readonly l ∧
    sint 64 (NewestOffset l + 1) ∈ files l').
  { cbn [checkAndPerformSplit] in E. destruct (negb _); [done|].
    unfold split in E. cbv zeta in E. unfold newSegmentFormat in E.
    destruct (bool_decide _); [done|]. rewrite Hcr in E.
    destruct (open_log _ _ _ _ _ _ _ _ _ _ _ _) as [s0|x|]; cbn [mbind outcome_bind] in E;
      [destruct (setupIndex _ _ _ _ _) as [[s1|x|]|]|..]; cbn [with_files segmentsClosed] in E;
      try rewrite Hcl in E; try done; destruct x; try done; injection E as <- _;
      cbn [with_files active opts readonly files]; (split; [done|]); (split; [done|]); (split; [done|]);
      apply elem_of_union_l, elem_of_singleton_2, eq_refl. }
  destruct Hl as (Ha & Ho & Hr & Hf).
  assert (Hs : checkAndPerformSplit fuel f' l' = None).
  { apply roll_spins; [by rewrite Ha, Ho|]. unfold NewestOffset in *. by rewrite Ha. }
  split.
  - intros ms. unfold AppendMessageSet, after_split. by rewrite Hs.
  - intros Hro msgs. unfold Append, IsReadonly, after_split. by rewrite Hr, Hro, Hs.
Qed.

End log_append.

(** ** Examples *)

Lemma append_refines_witness :
  ∃ l', @Append half_lib 1 (calm 5) (sample_log 2) sample_batch = Some (l', Ok [4100; 4101]) ∧
    NextOffset (active l') = 4102.
Proof.
  destruct (@append_refines half_lib half_laws 1 5 (sample_log 2) [[]] sample_batch) as (l' & E & _ & En).
  - apply sample_log_inv.
  - done.
  - lia.
  - split; [done|]. split; [apply sample_batch_ok|]. split; [by repeat constructor|].
    split; [by vm_compute|]. split; [by vm_compute|]. split; by vm_compute.
  - exists l'. split; [exact E|exact En].
Defined.

Lemma append_set_accepts_witness :
  ∃ l', @AppendMessageSet half_lib 1 (calm 5) (sample_log 2) (fs_bytes sample_frames) =
          Some (l', Ok [4100; 4101; 4103]) ∧ NextOffset (active l') = 4104.
Proof.
  destruct (@append_set_accepts half_lib half_laws 1 5 (sample_log 2) [[]] sample_frames) as [Ha _].
  - apply sample_log_inv.
  - lia.
  - split; [done|]. split; [|by vm_compute].
    repeat (apply Forall_cons; split); [..|by apply Forall_nil]; split_and!; by vm_compute.
  - destruct Ha as (l' & E & Hap).
    + split; [apply sample_frames_ok|].
      repeat (apply Forall_cons; split); [..|by apply Forall_nil]; by vm_compute.
    + exists l'. split; [exact E|]. destruct Hap as (_ & _ & _ & _ & _ & En). rewrite En. reflexivity.
Defined.

(** A block as a producer frames it, offset, epoch and timestamp zero. *)
Definition sample_preframed : bytes * blockv3.Header :=
  match @Framing.encodeV3Block half_lib (Framing.batch_header CZstd 0 0 0 Framing.sample_meta false)
          (Framing.batch_records 0 Framing.sample_msgs) with
  | Ok r => r
  | _ => ([], blockv3.sample_header)
  end.

Lemma preframed_refines_witness :
  ∃ l', @AppendPreframed half_lib 1 (calm 5) (sample_log 3) sample_preframed.1 =
          Some (l', Ok [4100; 4101]) ∧ NextOffset (active l') = 4102.
Proof.
  destruct (@preframed_refines half_lib half_laws 1 5 (sample_log 3) [[]] sample_preframed.1
    sample_preframed.2 (Framing.batch_records 0 Framing.sample_msgs)) as (l' & E & Hap).
  - apply sample_log_inv.
  - done.
  - done.
  - lia.
  - by vm_compute.
  - by vm_compute.
  - by vm_compute.
  - eapply (Framing.synthesize_loop_inv []); vm_compute; reflexivity.
  - split; [done|]. split; [|by vm_compute].
    repeat (apply Forall_cons; split); [..|by apply Forall_nil]; split_and!; by vm_compute.
  - by repeat constructor.
  - repeat (apply Forall_cons; split); [..|by apply Forall_nil]; by vm_compute.
  - exists l'. split; [exact E|]. destruct Hap as (_ & _ & _ & _ & _ & En). rewrite En. reflexivity.
Defined.

(** The headers sized in key order and written in reverse. *)
Definition reversed_orders (msgs : list Message) : list (headerOrder * headerOrder) :=
  (λ m, (Framing.key_order (Wire.Headers m), reverse (Framing.key_order (Wire.Headers m)))) <$> msgs.

Lemma reversed_visits msgs : Forall2 visits msgs (reversed_orders msgs).
Proof.
  unfold reversed_orders. induction msgs as [|m msgs IH]; [constructor|]. cbn. constructor; [|done].
  split; cbn [fst snd]; [|rewrite reverse_Permutation]; apply Framing.key_order_perm.
Qed.

Definition sample_orders : list (headerOrder * headerOrder) :=
  reversed_orders (stamped_copies Framing.sample_meta 0 Framing.sample_msgs).

Lemma batch_append_formats_witness :
  ∃ l2 l3 new2 new3,
    @AppendBatch half_lib 1 (calm 5) (sample_log 2) Framing.sample_meta Framing.sample_msgs sample_orders =
      Some (l2, Ok [4100; 4101]) ∧
    @AppendBatch half_lib 1 (calm 5) (sample_log 3) Framing.sample_meta Framing.sample_msgs [] =
      Some (l3, Ok [4100; 4101]) ∧
    @appended half_lib (sample_log 2) [[]] new2 l2 ∧ @appended half_lib (sample_log 3) [[]] new3 l3 ∧ Forall2 alike new3 new2.
Proof.
  destruct (@batch_append_formats half_lib half_laws 1 5 (sample_log 2) (sample_log 3) [[]] [[]]
    Framing.sample_meta (Framing.sample_msg 0 (Some (blockv3.sample_bytes [5])))
    [Framing.sample_msg 2 None] sample_orders [] 1700000000) as (l2 & l3 & new2 & new3 & E2 & E3 & H2 & H3 & Ha & _).
  - apply sample_log_inv.
  - apply sample_log_inv.
  - done.
  - done.
  - done.
  - done.
  - reflexivity.
  - lia.
  - done.
  - split; [by vm_compute|]. split; [by vm_compute|]. split; [by vm_compute|]. split; [by vm_compute|].
    split; [by vm_compute|]. split; [by vm_compute|].
    split; [repeat (apply Forall_cons; split); [| |by apply Forall_nil]; by apply map_Forall_singleton|].
    split; [by vm_compute|]. split; [by vm_compute|].
    split; [eapply (Framing.synthesize_loop_inv []); vm_compute; reflexivity|]. split; [by vm_compute|].
    split; [done|]. split; [|by vm_compute].
    repeat (apply Forall_cons; split); [..|by apply Forall_nil]; split_and!; by vm_compute.
  - repeat (apply Forall_cons; split); [..|by apply Forall_nil]; split_and!; by vm_compute.
  - split; [done|]. split; [|by vm_compute].
    repeat (apply Forall_cons; split); [..|by apply Forall_nil]; split_and!; by vm_compute.
  - apply reversed_visits.
  - exists l2, l3, new2, new3. split; [exact E2|]. split; [exact E3|]. split; [exact H2|]. split; [exact H3|exact Ha].
Defined.

Definition sample_ms : bytes :=
  match Framing.synthesizeFraming [] (Framing.batch_header CZstd 40 9 1700000000 Framing.sample_meta false)
          (Framing.batch_records 0 Framing.sample_msgs) with Ok ms => ms | _ => [] end.

Lemma batch_formats_agree_witness :
  ∃ block h new3 new2 es,
    @Framing.encodeV3Block half_lib (Framing.batch_header CZstd 40 9 1700000000 Framing.sample_meta false)
      (Framing.batch_records 0 Framing.sample_msgs) = Ok (block, h) ∧
    @Framing.decodeV3Block half_lib block = Ok (fs_bytes new3) ∧
    newMessageSetFromProto 40 0 (in_orders (stamped_copies Framing.sample_meta 0 Framing.sample_msgs) sample_orders) =
      Ok (fs_bytes new2, es) ∧ Forall2 alike new3 new2.
Proof.
  destruct (@batch_formats_agree half_lib half_laws CZstd 40 9 1700000000 Framing.sample_meta false Framing.sample_msgs
    sample_orders sample_ms 0) as (block & h & new3 & new2 & es & E1 & _ & E2 & E3 & Ha & _).
  1-8, 10: by vm_compute.
  - done.
  - repeat (apply Forall_cons; split); [| |by apply Forall_nil];
      unfold Framing.batch_message; split_and!; try done; by vm_compute.
  - repeat (apply Forall_cons; split); [| |by apply Forall_nil]; by apply map_Forall_singleton.
  - apply reversed_visits.
  - by vm_compute.
  - vm_compute. reflexivity.
  - by vm_compute.
  - exists block, h, new3, new2, es. split; [exact E1|]. split; [exact E2|]. split; [exact E3|exact Ha].
Defined.

(** A log whose active segment holds the frames [fs] and is due by age. *)
Definition log_of (fs : list frm) : commitLog :=
  {| readonly := false; hw := 4099; older := [];
     active := (@WriteMessageSet half_lib None Index.no_faults empty_sample (fs_bytes fs)
                  (entries_at 0 fs)).1;
     epochs := epochs (sample_log 2); segmentsClosed := false; deleted := false; shut := false;
     hwWaiters := ∅; released := ∅; files := {[ 4100 ]}; hwFile := None; nextId := 8;
     opts := {| MaxSegmentBytes := Z.shiftl 1 20; MaxSegmentAge := 1000; Compression := CZstd;
                BlockFormat := 2 |} |}.

Lemma log_of_inv fs :
  frames_ok 4100 fs → fs ≠ [] → next_of 4100 fs < 2 ^ 63 → @inv half_lib (log_of fs) [fs].
Proof.
  intros Hok Hne Hn.
  destruct (@holds_append half_lib half_laws empty_sample [] fs) as (s & E & Hh & Hk & _); [|done..|].
  { apply empty_sample_holds. }
  apply (f_equal fst) in E. cbn [fst] in E.
  assert (Ea : active (log_of fs) = s) by exact E. clear E.
  unfold inv, segments. rewrite Ea. change (older (log_of fs)) with (@nil segment). cbn [app].
  destruct Hk as (HB & Hc & _ & _ & Hm & _). split; [|split; [|split; [|split; [|split]]]].
  - rewrite Forall2_cons, Forall2_nil. split; [|done]. split; [done|]. unfold codec_ok. rewrite Hc, Hm, HB.
    by split_and!.
  - repeat constructor.
  - cbn [fmap list_fmap list_to_set]. rewrite HB, (right_id_L ∅ (∪)). done.
  - done.
  - done.
  - constructor.
Qed.

Lemma log_of_numbered fs :
  frames_ok 4100 fs → fs ≠ [] → numbered (log_of fs) ∧ BaseOffset (active (log_of fs)) = 4100.
Proof.
  intros Hok Hne. destruct (@holds_append half_lib half_laws empty_sample [] fs) as (s & E & _ & Hk & _); [apply empty_sample_holds|done..|].
  apply (f_equal fst) in E. cbn [fst] in E. assert (Ea : active (log_of fs) = s) by exact E. destruct Hk as (Hb & _ & _ & _ & _ & _ & _ & _ & Hid).
  unfold numbered, segments. rewrite Ea. cbn [log_of older app fmap list_fmap nextId]. split; [|by rewrite Hb].
  split; [apply NoDup_singleton|]. apply Forall_singleton. by rewrite Hid.
Qed.

Definition aged_log : commitLog := log_of sample_frames.

Lemma aged_log_inv : @inv half_lib aged_log [sample_frames].
Proof. apply log_of_inv; [apply sample_frames_ok|done|by vm_compute]. Qed.

(** No space for the index of a new segment. *)
Definition disk_full (now : Z) : io :=
  {| io_now := now;
     io_create := false;
     io_index := {| Index.truncate_fails := true; Index.unmap_fails := false; Index.map_fails := false |};
     io_seal := Index.no_faults; io_sync := false; io_table := false; io_write := None;
     io_entries := Index.no_faults; io_epoch := EpochCache.Written; io_remove := false |}.

Lemma failed_roll_spins_witness :
  ∃ l', @checkAndPerformSplit half_lib 1 (disk_full 1700002000) aged_log =
          Some (l', Fail (ErrText "pre-allocate index file")) ∧
    @Append half_lib 1000 (calm 1700002001) l' sample_batch = None.
Proof.
  eexists. split; [vm_compute; reflexivity|].
  apply (@failed_roll_spins half_lib (disk_full 1700002000) (ErrText "pre-allocate index file") aged_log).
  - vm_compute. reflexivity.
  - reflexivity.
  - reflexivity.
  - vm_compute. reflexivity.
  - reflexivity.
Defined.

End LogAppend.
