(* ===== verification/LogRead.v ===== *)
(** * Reading from the log: ReadMessageSet and the lookups by time

    The segment searches of util.go, [ReadMessageSet] of commitlog.go, which
    hands a follower whole frames, and the two lookups by timestamp.  A search
    in a block segment moves the segment's block cache, so a read returns the
    log it leaves.  The theorems are about the log as a list of records
    ([inv] of Log.v); the last section composes a leader's reads with a
    follower's appends.

    Loops over frames take fuel; [None] is a loop that has not come to an end. *)

From Stdlib Require Import ZArith Lia.
From stdpp Require Import base list numbers strings gmap sorting.
From coqutil Require Import Byte.
From S2P Require Import Prelude GoStd Text Wire Compress BlockV3 Block Framing EpochCache Index.
From S2P Require Import Segment SegmentIndex SegmentSearch SegmentReopen Log LogAppend.

Open Scope Z_scope.

Module LogRead.
Import Segment SegmentIndex SegmentSearch SegmentReopen Log LogAppend.

(** ** Finding a segment *)

(** The loop of [findSegment] from the index the search gave. *)
Fixpoint findSegment_from (segs : list segment) (idx : nat) (offset : Z) : option segment * nat :=
  match segs with
  | [] => (None, idx)
  | s :: segs =>
      match current s with
      | None => findSegment_from segs (S idx) offset
      | Some seg =>
          if NextOffset seg <=? offset then findSegment_from segs (S idx) offset
          else (Some seg, idx)
      end
  end.

Definition findSegment (segs : list segment) (offset : Z) : option segment * nat :=
  let idx := Z.to_nat (Sort.Search (zlen segs) (λ i,
    match segs !! Z.to_nat i with Some s => offset <? NextOffset s | None => false end)) in
  findSegment_from (drop idx segs) idx offset.

(** The segment with its place in the list, and whether the offset is in its
    bounds. *)
Definition findSegmentContains (segs : list segment) (offset : Z) : option (segment * nat * bool) :=
  match findSegment segs offset with
  | (None, _) => None
  | (Some seg, i) => Some (seg, i, BaseOffset seg <=? offset)
  end.

Definition findSegmentIndexByTimestamp (segs : list segment) (timestamp : Z) : Z :=
  Sort.Search (zlen segs) (λ i,
    match segs !! Z.to_nat i with
    | Some s => if 0 <=? firstOffset s then timestamp <? firstWriteTime s else true
    | None => false
    end).

(** Segments are objects: the answer is [None] also when the search gives back
    the segment it started from. *)
Definition findSegmentAfter (segs : list segment) (seg : segment) : option segment :=
  match findSegment segs (NextOffset seg) with
  | (None, _) => None
  | (Some next, _) => if id next =? id seg then None else Some next
  end.

(** Segment [i] of the log after its cache moved. *)
Definition put_segment (l : commitLog) (i : nat) (s : segment) : commitLog :=
  if (i <? length (older l))%nat then with_segments l (<[i:=s]> (older l)) (active l)
  else with_active l s.

Definition IsDeleted (l : commitLog) : bool := deleted l.
Definition IsClosed (l : commitLog) : bool := shut l.

Definition segmentSwapped (e : error) : bool :=
  match e with ErrSegmentClosed | ErrSegmentReplaced => true | _ => false end.

Definition readerResolveAttempts : nat := 8.

Section codecs.
Context `{CodecLib}.

(** ** ReadMessageSet *)

(** The loop of [readMessageSetFrom] over the frames, [out] read so far. *)
Definition take_frame (maxBytes : Z) (out ms : bytes) (_ : entry) : bytes + outcome bytes :=
  if (0 <? zlen out) && (maxBytes <? zlen out + zlen ms) then inr (Ok out)
  else
    let out := out ++ ms in
    if maxBytes <=? zlen out then inr (Ok out) else inl out.

Definition read_ends (out : bytes) (err : error) : outcome bytes :=
  if segmentSwapped err && (zlen out =? 0) then Fail err
  else if negb (match err with ErrEOF => true | _ => false end) && (zlen out =? 0)
  then Fail (ErrSegmentUnreadable "message set")
  else Ok out.

Definition read_frames (fuel : nat) (s : segment) (start maxBytes : Z) : option (outcome bytes) :=
  match scanning fuel s {| sc_pos := start; sc_cache := newBlockCache |}
          (take_frame maxBytes) read_ends [] with
  | None => None
  | Some r => Some (r ← r; r)
  end.

Definition readMessageSetFrom (fuel : nat) (s : segment) (contains : bool) (offset maxBytes : Z)
    : option (segment * outcome bytes) :=
  if contains then
    match findEntry fuel s offset with
    | None => None
    | Some (s, Fail e) => Some (s, Fail e)
    | Some (s, Panic) => Some (s, Panic)
    | Some (s, Ok e) => (λ r, (s, r)) <$> read_frames fuel s (e_Position e) maxBytes
    end
  else (λ r, (s, r)) <$> read_frames fuel s 0 maxBytes.

Definition readMessageSetOnce (fuel : nat) (l : commitLog) (offset maxBytes : Z)
    : option (commitLog * outcome bytes) :=
  match findSegmentContains (segments l) offset with
  | None => Some (l, Fail ErrSegmentNotFound)
  | Some (seg, i, contains) =>
      (λ '(s, r), (put_segment l i s, r)) <$> readMessageSetFrom fuel seg contains offset maxBytes
  end.

(** [readResolving]; [err] is the error of the attempt before. *)
Fixpoint readResolving {A} (attempts : nat) (attempt : commitLog → option (commitLog * outcome A))
    (l : commitLog) (err : error) : option (commitLog * outcome A) :=
  match attempts with
  | O => Some (l, Fail err)
  | S attempts =>
      match attempt l with
      | Some (l, Fail e) =>
          if IsDeleted l then Some (l, Fail ErrCommitLogDeleted)
          else if IsClosed l then Some (l, Fail ErrCommitLogClosed)
          else if negb (segmentSwapped e) then Some (l, Fail e)
          else readResolving attempts attempt l e
      | r => r
      end
  end.

Definition ReadMessageSet (fuel : nat) (l : commitLog) (offset maxBytes : Z)
    : option (commitLog * outcome bytes) :=
  if maxBytes <=? 0 then Some (l, Fail (ErrInvalidOptions "maxBytes must be positive"))
  else readResolving readerResolveAttempts (λ l, readMessageSetOnce fuel l offset maxBytes) l
         (ErrText "no attempt").

(** ** Lookups by timestamp *)

(** A local segment is its own replacement, so a search that fails is not
    resolved to another segment. *)
Fixpoint findEntryByTimestampResolving (attempts fuel : nat) (s : segment) (timestamp : Z)
    (err : error) : option (segment * outcome entry) :=
  match attempts with
  | O => Some (s, Fail err)
  | S attempts =>
      match current s with
      | None => Some (s, Fail ErrEntryNotFound)
      | Some seg =>
          match findEntryByTimestamp fuel seg timestamp with
          | Some (s, Fail e) =>
              if segmentSwapped e then findEntryByTimestampResolving attempts fuel s timestamp e
              else Some (s, Fail e)
          | r => r
          end
      end
  end.

(** The loop that walks back while the segment before ends at or after the
    target. *)
Fixpoint walk_back (segs : list segment) (at_ : nat) (timestamp : Z) : nat :=
  match at_ with
  | O => O
  | S k =>
      match segs !! k with
      | Some s => if timestamp <=? lastWriteTime s then walk_back segs k timestamp else S k
      | None => S k
      end
  end.

(** The forward loop from segment [i], [n] segments to go. *)
Fixpoint first_after (n fuel : nat) (l : commitLog) (i : nat) (timestamp : Z)
    : option (commitLog * outcome Z) :=
  match n with
  | O => Some (l, Ok (NextOffset (active l)))
  | S n =>
      match segments l !! i with
      | None => Some (l, Panic)
      | Some s =>
          match findEntryByTimestampResolving readerResolveAttempts fuel s timestamp (ErrText "no attempt") with
          | None => None
          | Some (s, Ok e) => Some (put_segment l i s, Ok (e_Offset e))
          | Some (s, Fail ErrEntryNotFound) => first_after n fuel (put_segment l i s) (S i) timestamp
          | Some (s, Fail e) =>
              let l := put_segment l i s in
              Some (l, Fail (if deleted l then ErrCommitLogDeleted
                             else if IsClosed l then ErrCommitLogClosed else e))
          | Some (s, Panic) => Some (put_segment l i s, Panic)
          end
      end
  end.

Definition earliestOffsetAfterTimestampLocked (fuel : nat) (l : commitLog) (timestamp : Z)
    : option (commitLog * outcome Z) :=
  let idx := Z.to_nat (findSegmentIndexByTimestamp (segments l) timestamp) in
  let at_ := walk_back (segments l) (if (0 <? idx)%nat then idx - 1 else 0)%nat timestamp in
  first_after (length (segments l) - at_) fuel l at_ timestamp.

Definition EarliestOffsetAfterTimestamp (fuel : nat) (l : commitLog) (timestamp : Z)
    : option (commitLog * outcome Z) := earliestOffsetAfterTimestampLocked fuel l timestamp.

Definition LatestOffsetBeforeTimestamp (fuel : nat) (l : commitLog) (timestamp : Z)
    : option (commitLog * outcome Z) :=
  match segments l with
  | [] => Some (l, Panic)
  | s0 :: _ =>
      if timestamp <? firstWriteTime s0 then Some (l, Fail ErrTimestampBeforeLog)
      else if timestamp =? 2 ^ 63 - 1 then Some (l, Ok (lastOffset (active l)))
      else
        match earliestOffsetAfterTimestampLocked fuel l (timestamp + 1) with
        | Some (l, Ok after) => Some (l, Ok (sint 64 (after - 1)))
        | r => r
        end
  end.

End codecs.

(** ** Segments in order *)

Lemma findSegment_from_skip a b idx o :
  Forall (λ s, left s = false ∧ NextOffset s ≤ o) a →
  findSegment_from (a ++ b) idx o = findSegment_from b (idx + length a) o.
Proof.
  revert idx. induction a as [|s a IH]; intros idx Ha; [simpl; by rewrite Nat.add_0_r|].
  apply Forall_cons in Ha as [[Hl Hn] Ha]. cbn [app findSegment_from]. unfold current. rewrite Hl.
  rewrite (proj2 (Z.leb_le _ _) Hn), IH by done. f_equal. simpl. lia.
Qed.

Lemma findSegment_spec segs o :
  StronglySorted (λ s s', NextOffset s ≤ NextOffset s') segs → Forall (λ s, left s = false) segs →
  (Forall (λ s, NextOffset s ≤ o) segs ∧ findSegment segs o = (None, length segs)) ∨
  ∃ a s b, segs = a ++ s :: b ∧ Forall (λ s, NextOffset s ≤ o) a ∧ o < NextOffset s ∧
    findSegment segs o = (Some s, length a).
Proof.
  intros Hs Hl. unfold findSegment. set (p := λ i : Z, _). pose proof (zlen_nonneg segs) as Hn.
  assert (Hp : ∀ i s, segs !! i = Some s → p (Z.of_nat i) = true ↔ Sort.Search (zlen segs) p ≤ Z.of_nat i).
  { intros i s Hi. apply Sort.Search_monotone; [done| |apply lookup_lt_Some in Hi; unfold zlen; lia].
    intros x y Hxy Hy. unfold p. destruct (segs !! Z.to_nat x) as [sx|] eqn:Ex; [|done].
    destruct (lookup_lt_is_Some_2 segs (Z.to_nat y)) as [sy Ey]; [unfold zlen in Hy; lia|].
    rewrite Ey, !Z.ltb_lt. destruct (decide (x = y)) as [->|]; [rewrite Ex in Ey; injection Ey as ->; done|].
    pose proof (sorted_lookup _ segs (Z.to_nat x) (Z.to_nat y) sx sy Hs ltac:(lia) Ex Ey) as Hr.
    cbv beta in Hr. lia. }
  destruct (Sort.Search_spec (zlen segs) p Hn) as ((H0 & Hle) & _).
  set (k := Z.to_nat (Sort.Search (zlen segs) p)) in *.
  assert (Hlow : Forall (λ s, NextOffset s ≤ o) (take k segs)).
  { apply Forall_lookup. intros i s Hi. apply lookup_take_Some in Hi as [Hi Hik].
    pose proof (Hp i s Hi) as Hps. unfold p at 1 in Hps. rewrite Nat2Z.id, Hi, Z.ltb_lt in Hps.
    unfold k in Hik. cbv beta. lia. }
  destruct (segs !! k) as [s|] eqn:Ek.
  - right. exists (take k segs), s, (drop (S k) segs).
    split; [by rewrite (take_drop_middle segs k s Ek)|]. split; [done|].
    pose proof (proj2 (Hp k s Ek) ltac:(unfold k; lia)) as Hps. unfold p in Hps.
    rewrite Nat2Z.id, Ek, Z.ltb_lt in Hps. split; [done|].
    rewrite (drop_S segs s k Ek). cbn [findSegment_from]. unfold current.
    rewrite (proj1 (Forall_lookup _ _) Hl k s Ek), (proj2 (Z.leb_gt _ _) Hps).
    rewrite length_take_le; [done|]. apply lookup_lt_Some in Ek. lia.
  - left. apply lookup_ge_None in Ek. rewrite take_ge in Hlow by done. split; [done|].
    rewrite drop_ge by done. cbn. f_equal. unfold zlen in *. lia.
Qed.

Lemma length_segments l : length (segments l) = S (length (older l)).
Proof. unfold segments. rewrite length_app. simpl. lia. Qed.

Lemma segments_put l i s :
  (i < length (segments l))%nat → segments (put_segment l i s) = <[i:=s]> (segments l).
Proof.
  intros Hi. rewrite length_segments in Hi. unfold put_segment, segments.
  destruct (Nat.ltb_spec i (length (older l))).
  - cbn [with_segments older active]. by rewrite insert_app_l.
  - cbn [with_active with_segments older active]. rewrite insert_app_r_alt by lia.
    by replace (i - length (older l))%nat with 0%nat by lia.
Qed.

Section reads.
Context `{CodecLib}.

Lemma inv_left l fss : inv l fss → Forall (λ s, left s = false) (segments l).
Proof.
  intros (Hs & _). induction Hs as [|s fs ss k Hh _ IH]; [constructor|]. constructor; [|done].
  by destruct Hh as ((_ & _ & ? & _) & _).
Qed.

Lemma inv_next_sorted l fss :
  inv l fss → StronglySorted (λ s s', NextOffset s ≤ NextOffset s') (segments l).
Proof.
  intros (Hs & Hl & _). unfold linked in Hl. revert fss Hs.
  induction Hl as [|s ss _ IH Hx]; intros fss Hs; [constructor|].
  apply Forall2_cons_inv_l in Hs as (fs & k & _ & Hk & ->). constructor; [by eapply IH|].
  apply Forall_forall. intros s' Hin. pose proof (proj1 (Forall_forall _ _) Hx s' Hin) as Hxs. cbv beta in Hxs.
  apply list_elem_of_lookup in Hin as [i Hi]. destruct (Forall2_lookup_l _ _ _ _ _ Hk Hi) as (g & _ & Hg).
  pose proof (seg_base_next _ _ _ Hg). lia.
Qed.

(** The same log but for what it keeps in memory of one segment. *)
Lemma linked_spans ss :
  linked ss ↔ StronglySorted (λ x y, x.2 ≤ y.1) ((λ s, (BaseOffset s, NextOffset s)) <$> ss).
Proof.
  unfold linked. induction ss as [|s ss IH]; [split; constructor|]. rewrite fmap_cons. split.
  - intros Hs. inversion Hs; subst. constructor; [by apply IH|]. by apply Forall_fmap.
  - intros Hs. inversion Hs as [|? ? Hs1 Hs2]; subst. constructor; [by apply IH|]. rewrite Forall_fmap in Hs2.
    exact Hs2.
Qed.

Lemma inv_put l fss i s s' fs :
  inv l fss → segments l !! i = Some s → fss !! i = Some fs → seg_ok (opts l) s' fs →
  BaseOffset s' = BaseOffset s → inv (put_segment l i s') fss.
Proof.
  intros Hi Hs Hf Hs' HB. pose proof (lookup_lt_Some _ _ _ Hs) as Hlt.
  destruct Hi as (Hsg & Hl & Hfl & Hop & Hcl & Hfu).
  assert (HN : NextOffset s' = NextOffset s).
  { destruct (Forall2_lookup_l _ _ _ _ _ Hsg Hs) as (g & Hg & Hsg'). rewrite Hf in Hg. injection Hg as <-.
    by rewrite (seg_next _ _ _ Hs'), (seg_next _ _ _ Hsg'), HB. }
  assert (Ho : opts (put_segment l i s') = opts l ∧ files (put_segment l i s') = files l ∧
    segmentsClosed (put_segment l i s') = segmentsClosed l)
    by (unfold put_segment; by destruct (_ <? _)%nat).
  destruct Ho as (E1 & E2 & E3). unfold inv. rewrite segments_put, E1, E2, E3 by done.
  split; [|split; [|split; [|done]]].
  - rewrite <- (list_insert_id fss i fs Hf). by apply Forall2_insert.
  - apply linked_spans. apply linked_spans in Hl. rewrite list_fmap_insert, list_insert_id; [done|].
    by rewrite list_lookup_fmap, Hs, HB, HN.
  - rewrite Hfl, list_fmap_insert, list_insert_id; [done|]. by rewrite list_lookup_fmap, Hs, HB.
Qed.

(** ** Whole frames within a budget *)

Lemma take_frames n out pos fs :
  0 < n → zlen out < n →
  ∃ p q, fs = p ++ q ∧ over_frames (take_frame n) read_ends out pos fs = Ok (out ++ fs_bytes p) ∧
    (q = [] ∨ ∃ f q', q = f :: q' ∧ n < zlen out + zlen (fs_bytes p) + zlen (fbytes f)) ∧
    (zlen out + zlen (fs_bytes p) ≤ n ∨ out = [] ∧ length p = 1%nat) ∧ (out = [] → fs ≠ [] → p ≠ []).
Proof.
  intros Hn. revert out pos. induction fs as [|f fs IH]; intros out pos Hout.
  - exists [], []. split; [done|]. change (fs_bytes []) with (@nil byte). rewrite app_nil_r. split; [done|].
    split; [by left|]. split; [|done]. left. change (zlen []) with 0. lia.
  - cbn [over_frames]. unfold take_frame at 1. pose proof (zlen_nonneg (f_data f)) as Hd.
    pose proof (zlen_nonneg out) as Ho. rewrite zlen_fbytes.
    assert (E1 : fs_bytes [f] = fbytes f) by (unfold fs_bytes; cbn; by rewrite app_nil_r).
    destruct ((0 <? zlen out) && _) eqn:Ec.
    { apply andb_true_iff in Ec as [Ez Ec]. apply Z.ltb_lt in Ez, Ec. exists [], (f :: fs).
      split; [done|]. change (fs_bytes []) with (@nil byte). rewrite app_nil_r. split; [done|].
      change (zlen []) with 0. split; [right; exists f, fs; split; [done|]; rewrite zlen_fbytes; lia|].
      split; [left; lia|]. intros ->. change (zlen []) with 0 in Ez. lia. }
    cbv zeta. destruct (Z.leb_spec n (zlen (out ++ fbytes f))) as [Hfull|Hroom];
      rewrite zlen_app, zlen_fbytes in *.
    + exists [f], fs. split; [done|]. rewrite E1. split; [done|]. rewrite zlen_fbytes. split; [|split; [|done]].
      * destruct fs as [|g fs]; [by left|]. right. exists g, fs. split; [done|]. rewrite zlen_fbytes.
        pose proof (zlen_nonneg (f_data g)). lia.
      * destruct out as [|x out]; [by right|]. left. rewrite zlen_cons in *.
        apply andb_false_iff in Ec as [Ec|Ec]; [apply Z.ltb_ge in Ec|apply Z.ltb_ge in Ec]; pose_zlen; lia.
    + destruct (IH (out ++ fbytes f) (pos + (32 + zlen (f_data f)))) as (p & q & -> & E & Hmax & Hb & _);
        [rewrite zlen_app, zlen_fbytes; lia|].
      exists (f :: p), q. split; [done|]. rewrite fs_bytes_cons, app_assoc. split; [exact E|].
      rewrite !zlen_app, zlen_fbytes in *. split; [|split; [|done]].
      * destruct Hmax as [->|(g & q' & -> & Hg)]; [by left|]. right. exists g, q'. split; [done|]. lia.
      * left. destruct Hb as [Hb|[Hb _]]; [lia|].
        apply (f_equal zlen) in Hb. rewrite zlen_app, zlen_fbytes in Hb. change (zlen []) with 0 in Hb. lia.
Qed.

Lemma read_frames_spec fuel s a b n :
  holds s (a ++ b) → 0 < n → (length (a ++ b) < fuel)%nat →
  ∃ p q, b = p ++ q ∧ read_frames fuel s (zlen (fs_bytes a)) n = Some (Ok (fs_bytes p)) ∧
    (q = [] ∨ ∃ f q', q = f :: q' ∧ n < zlen (fs_bytes p) + zlen (fbytes f)) ∧
    (zlen (fs_bytes p) ≤ n ∨ length p = 1%nat) ∧ (b ≠ [] → p ≠ []).
Proof.
  intros (Hl & Hcl & _ & (_ & Hf & Hd & _) & _) Hn Hfuel.
  destruct (take_frames n [] (zlen (fs_bytes a)) b Hn) as (p & q & -> & E & Hmax & Hb & Hne); [done|].
  exists p, q. split; [done|]. split; [|split; [done|split; [tauto|by apply Hne]]].
  unfold read_frames. apply Forall_app in Hf as [_ Hf]. apply Forall_app in Hd as [_ Hd].
  rewrite (scanning_frames (BaseOffset s) fuel s _ a (p ++ q)); [by rewrite E, bind_Ok| |done|done|].
  - split; [by apply fresh_cache|]. done.
  - rewrite length_app in Hfuel. lia.
Qed.

(** The frames from an offset on. *)
Definition from (o : Z) (fs : list frm) : list frm := filter (λ f, o ≤ f_off f) fs.

Lemma from_app o a b : from o (a ++ b) = from o a ++ from o b.
Proof. apply filter_app. Qed.

Lemma from_below o fs : Forall (λ f, f_off f < o) fs → from o fs = [].
Proof. intros Hf. apply filter_none. eapply Forall_impl; [exact Hf|]. simpl. lia. Qed.

Lemma from_above o fs : Forall (λ f, o ≤ f_off f) fs → from o fs = fs.
Proof. apply filter_all. Qed.

Lemma from_seek pos o fs q f :
  ascending fs → seek pos (λ f, o <=? f_off f) fs = Some (q, f) →
  ∃ a b, fs = a ++ f :: b ∧ from o fs = f :: b ∧ q = pos + zlen (fs_bytes a).
Proof.
  intros Ha (a & b & -> & Hlow & Hf & ->)%seek_Some. exists a, b.
  apply StronglySorted_app in Ha as (_ & _ & Hb). apply Z.leb_le in Hf. split; [done|]. split; [|done].
  rewrite from_app, from_below, from_above; [done| |].
  - constructor; [done|]. inversion Hb as [|? ? _ Hx]; subst. eapply Forall_impl; [exact Hx|]. simpl. lia.
  - eapply Forall_impl; [exact Hlow|]. simpl. intros g Hg. apply Z.leb_gt in Hg. done.
Qed.

Lemma frames_below op ss fss o :
  Forall2 (seg_ok op) ss fss → Forall (λ s, NextOffset s ≤ o) ss → from o (concat fss) = [].
Proof.
  intros Hs Ha. apply from_below. induction Hs as [|x g a ga Hx _ IH]; [constructor|].
  apply Forall_cons in Ha as [Hxo Ha]. cbn. apply Forall_app. split; [|by apply IH].
  apply Forall_forall. intros f Hf. pose proof (seg_range _ _ _ f Hx Hf). lia.
Qed.

(** One segment of the log, with the frames before and after it. *)
Lemma inv_split l fss a s b :
  inv l fss → segments l = a ++ s :: b →
  ∃ ga fs gb, fss = ga ++ fs :: gb ∧ length ga = length a ∧ seg_ok (opts l) s fs ∧
    (∀ o, Forall (λ s, NextOffset s ≤ o) a → from o (concat ga) = []) ∧
    (∀ o, o < NextOffset s → from o (concat gb) = concat gb) ∧ (fs = [] → gb = []).
Proof.
  intros (Hs & Hl & _ & _ & _ & Hfu) Eseg. rewrite Eseg in Hs, Hl.
  apply Forall2_app_inv_l in Hs as (ga & k & Hga & Hk & ->).
  apply Forall2_cons_inv_l in Hk as (fs & gb & Hfs & Hgb & ->). exists ga, fs, gb.
  split; [done|]. split; [by apply Forall2_length in Hga|]. split; [done|]. split; [|split].
  - intros o Ha. by eapply frames_below.
  - intros o Ho. apply from_above. apply StronglySorted_app in Hl as (_ & _ & Hl).
    inversion Hl as [|? ? _ Hx]; subst. clear Hfu Hl Eseg.
    induction Hgb as [|x g b gb Hxg _ IH]; [constructor|]. apply Forall_cons in Hx as [Hxb Hx].
    cbn. apply Forall_app. split; [|by apply IH]. apply Forall_forall. intros f Hf.
    pose proof (seg_range _ _ _ f Hxg Hf). lia.
  - intros ->. destruct gb as [|g gb]; [done|]. exfalso.
    rewrite removelast_app in Hfu by done. apply Forall_app in Hfu as [_ Hfu].
    cbn [removelast] in Hfu. by apply Forall_cons in Hfu as [? _].
Qed.

Lemma seg_cache o s c fs : seg_ok o s fs → holds (with_cache s c) fs → seg_ok o (with_cache s c) fs.
Proof. by intros (_ & Hr) Hh. Qed.

Lemma findEntry_seek fuel s fs o pos f :
  holds s fs → (length fs < fuel)%nat → seek 0 (λ f, o <=? f_off f) fs = Some (pos, f) →
  ∃ c e, findEntry fuel s o = Some (with_cache s c, Ok e) ∧ e_Position e = pos ∧ e_Offset e = f_off f ∧
    holds (with_cache s c) fs.
Proof.
  intros Hh Hfuel Hs.
  destruct (findEntryBy_spec fuel s fs (λ x _, o <=? x) (λ x _, o <? x)) as (c & E & Hh');
    [done|by apply ascending_searchable, (holds_ascending s)|done|].
  exists c. eexists. split; [|split; [|split; [|done]]].
  - unfold findEntry, anchorPositionForOffset. change (λ e, o <? Index.Offset e) with (entry_pred (λ x _, o <? x)).
    rewrite E. unfold found. rewrite Hs. done.
  - by destruct (blockMode s).
  - by destruct (blockMode s).
Qed.

(** What a read of whole frames from offset [o] on returns within [n] bytes:
    at least one frame, and no fewer than fit, all of one segment. *)
Definition a_run (fss : list (list frm)) (o n : Z) (p : list frm) : Prop :=
  ∃ q, from o (concat fss) = p ++ q ∧ p ≠ [] ∧ (zlen (fs_bytes p) ≤ n ∨ length p = 1%nat) ∧
    ((∃ i, q = concat (drop i fss)) ∨
     ∃ f q', q = f :: q' ∧ n < zlen (fs_bytes p) + zlen (fbytes f)) ∧
    ∃ fs, fs ∈ fss ∧ p `sublist_of` fs.

Definition read_spec_set (l : commitLog) (fss : list (list frm)) (o n : Z) (r : outcome bytes) : Prop :=
  match from o (concat fss) with
  | [] => r = if NextOffset (active l) <=? o then Fail ErrSegmentNotFound else Ok []
  | _ => ∃ p, a_run fss o n p ∧ r = Ok (fs_bytes p)
  end.

(** A read leaves the log as it is, block caches apart. *)
Definition same_segments (l l' : commitLog) : Prop :=
  same_log l l' ∧ BaseOffset <$> segments l' = BaseOffset <$> segments l ∧
  NextOffset <$> segments l' = NextOffset <$> segments l.

Lemma same_active l l' :
  same_segments l l' → BaseOffset (active l') = BaseOffset (active l) ∧
    NextOffset (active l') = NextOffset (active l).
Proof.
  intros (_ & Hb & Hn). unfold segments in Hb, Hn. rewrite !fmap_app in Hb, Hn.
  apply app_inj_tail in Hb as [_ Hb]. apply app_inj_tail in Hn as [_ Hn]. done.
Qed.

#[export] Instance same_segments_preorder : PreOrder same_segments.
Proof.
  split; [done|]. intros x y z (H1 & H2 & H3) (H4 & H5 & H6). unfold same_segments, same_log in *.
  split; [|by rewrite H5, H6]. destruct_and!. split_and!; congruence.
Qed.

Lemma put_cache l i s c :
  segments l !! i = Some s → same_segments l (put_segment l i (with_cache s c)).
Proof.
  intros Hs. unfold same_segments. rewrite segments_put by (by apply lookup_lt_Some in Hs).
  split; [unfold put_segment; by destruct (_ <? _)%nat|].
  by rewrite !list_fmap_insert, !list_insert_id by (by rewrite list_lookup_fmap, Hs).
Qed.

Lemma next_active l fss s : inv l fss → s ∈ segments l → NextOffset s ≤ NextOffset (active l).
Proof.
  intros Hi Hs. apply inv_next_sorted in Hi. unfold segments in *.
  apply StronglySorted_app in Hi as (Hx & _). apply elem_of_app in Hs as [Hs|Hs].
  - apply Hx; [done|by apply list_elem_of_singleton].
  - by apply list_elem_of_singleton in Hs as ->.
Qed.

Lemma from_reaches op s fs o : seg_ok op s fs → o < NextOffset s → fs ≠ [] → from o fs ≠ [].
Proof.
  intros Hs Ho Hne. rewrite (seg_next _ _ _ Hs) in Ho. unfold next_of in Ho.
  destruct (last fs) as [f|] eqn:El; [|by apply last_None in El].
  apply last_Some in El as [k ->]. rewrite from_app, (from_above o [f]); [by destruct (from o k)|].
  constructor; [lia|done].
Qed.

(** A run within one segment is a run of the log. *)
Lemma segment_run l a s b ga fs gb o n p q :
  inv l (ga ++ fs :: gb) → segments l = a ++ s :: b → seg_ok (opts l) s fs →
  from o (concat ga) = [] → from o (concat gb) = concat gb → (fs = [] → gb = []) → o < NextOffset s →
  from o fs = p ++ q → (from o fs ≠ [] → p ≠ []) → (zlen (fs_bytes p) ≤ n ∨ length p = 1%nat) →
  (q = [] ∨ ∃ f q', q = f :: q' ∧ n < zlen (fs_bytes p) + zlen (fbytes f)) →
  read_spec_set l (ga ++ fs :: gb) o n (Ok (fs_bytes p)).
Proof.
  intros Hi Eseg Hs Hga Hgb Hemp Ho Epq Hp Hb Hmax.
  assert (Efrom : from o (concat (ga ++ fs :: gb)) = from o fs ++ concat gb).
  { by rewrite concat_app, from_app, Hga, app_nil_l, concat_cons, from_app, Hgb. }
  unfold read_spec_set. rewrite Efrom.
  destruct fs as [|f0 fs].
  { rewrite Hemp in * by done. cbn in *. symmetry in Epq. apply app_eq_nil in Epq as [-> _].
    pose proof (next_active l _ s Hi ltac:(rewrite Eseg; apply elem_of_app; right; by left)).
    by rewrite (proj2 (Z.leb_gt _ _)) by lia. }
  pose proof (from_reaches _ _ _ o Hs Ho ltac:(done)) as Hne.
  assert (Hr : a_run (ga ++ (f0 :: fs) :: gb) o n p).
  { exists (q ++ concat gb). rewrite Efrom, Epq, <- app_assoc. split; [done|]. split; [by apply Hp|]. split; [done|]. split.
    2: { exists (f0 :: fs). split; [apply elem_of_app; right; by left|].
         transitivity (from o (f0 :: fs)); [|apply sublist_filter]. rewrite Epq. by apply sublist_inserts_r. }
    destruct Hmax as [->|(f & q' & -> & Hf)]; [left|right].
    - exists (S (length ga)). by rewrite drop_app_ge, Nat.sub_succ_l, Nat.sub_diag by lia.
    - by exists f, (q' ++ concat gb). }
  destruct (from o (f0 :: fs)); [done|]. cbn. by exists p.
Qed.

Lemma read_segment fuel l fss a s b o n :
  inv l fss → segments l = a ++ s :: b → Forall (λ s, NextOffset s ≤ o) a → o < NextOffset s → 0 < n →
  Forall (λ fs, (length fs < fuel)%nat) fss →
  ∃ c r, readMessageSetFrom fuel s (BaseOffset s <=? o) o n = Some (with_cache s c, r) ∧
    inv (put_segment l (length a) (with_cache s c)) fss ∧ read_spec_set l fss o n r.
Proof.
  intros Hi Eseg Hlow Ho Hn Hfuel.
  destruct (inv_split l fss a s b Hi Eseg) as (ga & fs & gb & -> & Hlen & Hs & Hga & Hgb & Hemp).
  specialize (Hga o Hlow). specialize (Hgb o Ho).
  apply Forall_app in Hfuel as [_ [Hfu _]%Forall_cons].
  assert (Hls : segments l !! length a = Some s) by (rewrite Eseg; by apply list_lookup_middle).
  assert (Hlf : (ga ++ fs :: gb) !! length a = Some fs) by (by apply list_lookup_middle).
  pose proof (segment_run l a s b ga fs gb o n) as Hrun. pose proof Hs as (Hh & _).
  unfold readMessageSetFrom. destruct (Z.leb_spec (BaseOffset s) o) as [Hc|Hc].
  - assert (Hne : fs ≠ []).
    { intros ->. rewrite (seg_next _ _ _ Hs) in Ho. unfold next_of in Ho. cbn in Ho. lia. }
    pose proof (from_reaches _ _ _ o Hs Ho Hne) as Hfr.
    destruct (seek 0 (λ f, o <=? f_off f) fs) as [[pos f]|] eqn:Es.
    2: { apply seek_None in Es. destruct Hfr. apply from_below. eapply Forall_impl; [exact Es|].
         simpl. intros g Hg. by apply Z.leb_gt in Hg. }
    destruct (findEntry_seek fuel s fs o pos f Hh Hfu Es) as (c & e & -> & Ep & _ & Hh').
    destruct (from_seek 0 o fs pos f (holds_ascending _ _ Hh) Es) as (x & y & -> & Efr & Epos).
    rewrite Ep, Epos, Z.add_0_l.
    destruct (read_frames_spec fuel (with_cache s c) x (f :: y) n Hh' Hn Hfu) as (p & q & Epq & -> & Hmax & Hb & Hp).
    exists c, (Ok (fs_bytes p)). split; [done|]. split; [by eapply inv_put; [done..|by apply seg_cache|done]|].
    apply (Hrun p q); try done; [by rewrite Efr|by rewrite Efr; intros _; apply Hp].
  - assert (Efr : from o fs = fs).
    { apply from_above, Forall_forall. intros f Hf. pose proof (seg_range _ _ _ f Hs Hf). lia. }
    destruct (read_frames_spec fuel s [] fs n Hh Hn Hfu) as (p & q & Epq & E & Hmax & Hb & Hp).
    change (zlen (fs_bytes [])) with 0 in E. rewrite E.
    exists (cache s), (Ok (fs_bytes p)). replace (with_cache s (cache s)) with s by (by destruct s).
    split; [done|]. split; [by eapply inv_put|]. apply (Hrun p q); try done; by rewrite Efr.
Qed.

(** One attempt of a read. *)
Lemma read_once fuel l fss o n :
  inv l fss → 0 < n → Forall (λ fs, (length fs < fuel)%nat) fss →
  ∃ l' r, readMessageSetOnce fuel l o n = Some (l', r) ∧ inv l' fss ∧ same_segments l l' ∧
    read_spec_set l fss o n r.
Proof.
  intros Hi Hn Hfuel. unfold readMessageSetOnce, findSegmentContains.
  destruct (findSegment_spec (segments l) o (inv_next_sorted l fss Hi) (inv_left l fss Hi))
    as [[Hall ->]|(a & s & b & Eseg & Hlow & Ho & ->)].
  - exists l, (Fail ErrSegmentNotFound). split; [done|]. split; [done|]. split; [done|].
    unfold read_spec_set. pose proof Hi as (Hsg & _). rewrite (frames_below _ _ _ _ Hsg Hall).
    apply Forall_app in Hall as [_ [Ha _]%Forall_cons]. by rewrite (proj2 (Z.leb_le _ _) Ha).
  - destruct (read_segment fuel l fss a s b o n Hi Eseg Hlow Ho Hn Hfuel) as (c & r & -> & Hi' & Hr).
    eexists _, r. split; [done|]. split; [done|]. split; [|done]. apply put_cache.
    rewrite Eseg. by apply list_lookup_middle.
Qed.

(** An answer that is not a swap is final. *)
Lemma read_resolves fuel l fss o n l' r :
  deleted l = false → shut l = false → 0 < n →
  readMessageSetOnce fuel l o n = Some (l', r) → same_segments l l' → read_spec_set l fss o n r →
  ReadMessageSet fuel l o n = Some (l', r).
Proof.
  intros Hde Hsh Hn E Hsame Hr. unfold ReadMessageSet. rewrite (proj2 (Z.leb_gt _ _)) by lia.
  cbn [readerResolveAttempts readResolving]. rewrite E. destruct r as [r|e|]; [done| |done].
  destruct Hsame as ((_ & _ & _ & _ & Ed & Es & _) & _). unfold IsDeleted, IsClosed. rewrite Ed, Es, Hde, Hsh.
  unfold read_spec_set in Hr. destruct (from _ _); [|by destruct Hr as (? & _ & ?)].
  destruct (_ <=? _); [by injection Hr as ->|done].
Qed.

(** C2: a read of a message set returns whole frames.  In an open log it is the
    encoding of a run of records that starts at the first record whose offset is
    at least the one asked for (the offset itself may be gone), holds as many as
    fit the budget within a segment and at least one; past the newest record it
    is [ErrSegmentNotFound], never a shorter or a damaged set.  The log is left
    as it was. *)
Theorem read_message_set fuel l fss o n :
  inv l fss → deleted l = false → shut l = false → 0 < n →
  Forall (λ fs, (length fs < fuel)%nat) fss →
  ∃ l' r, ReadMessageSet fuel l o n = Some (l', r) ∧ inv l' fss ∧ same_segments l l' ∧
    read_spec_set l fss o n r.
Proof.
  intros Hi Hde Hsh Hn Hfuel. destruct (read_once fuel l fss o n Hi Hn Hfuel) as (l' & r & E & Hi' & Hsame & Hr).
  exists l', r. split; [by eapply read_resolves|]. done.
Qed.

Lemma inv_all_frames l fss f :
  inv l fss → f ∈ concat fss →
  0 ≤ f_off f < NextOffset (active l) ∧ in_sint 64 (f_ts f) ∧ in_uint 64 (f_ep f) ∧ 0 < zlen (f_data f).
Proof.
  intros Hi Hf. apply list_elem_of_In, in_concat in Hf as (fs & Hfs & Hf).
  apply list_elem_of_In in Hfs, Hf. apply list_elem_of_lookup in Hfs as [i Hfs].
  pose proof Hi as (Hs & _). destruct (Forall2_lookup_r _ _ _ _ _ Hs Hfs) as (s & Hsi & Hs').
  pose proof (next_active l fss s Hi (list_elem_of_lookup_2 _ _ _ Hsi)).
  pose proof (seg_range _ _ _ f Hs' Hf). destruct Hs' as (Hh & _).
  apply holds_frames in Hh as (_ & Hfo & Hd & _).
  pose proof (proj1 (Forall_forall _ _) Hfo f Hf) as (_ & _ & _ & ? & ? & _).
  pose proof (proj1 (Forall_forall _ _) Hd f Hf). split; [lia|]. done.
Qed.

Lemma linked_ascending o ss fss : Forall2 (seg_ok o) ss fss → linked ss → ascending (concat fss).
Proof.
  intros Hs Hl. unfold linked in Hl. revert fss Hs.
  induction Hl as [|s ss _ IH Hx]; intros fss Hs.
  { apply Forall2_nil_inv_l in Hs as ->. constructor. }
  apply Forall2_cons_inv_l in Hs as (fs & k & Hfs & Hk & ->). rewrite concat_cons.
  apply StronglySorted_app_2; [|by apply (holds_ascending s), Hfs|by apply IH].
  intros f g Hf Hg. apply list_elem_of_In, in_concat in Hg as (gs & Hgs & Hg).
  apply list_elem_of_In in Hgs, Hg. apply list_elem_of_lookup in Hgs as [i Hgs].
  destruct (Forall2_lookup_r _ _ _ _ _ Hk Hgs) as (s' & Hsi & Hs').
  pose proof (proj1 (Forall_forall _ _) Hx s' (list_elem_of_lookup_2 _ _ _ Hsi)) as Hn. cbv beta in Hn.
  pose proof (seg_range _ _ _ f Hfs Hf). pose proof (seg_range _ _ _ g Hs' Hg). lia.
Qed.

Lemma inv_ascending l fss : inv l fss → ascending (concat fss).
Proof. intros (Hs & Hl & _). by eapply linked_ascending. Qed.

End reads.

(** ** Lookups by time *)

Section times.
Context `{CodecLib}.

(** The first record at or after a time. *)
Definition first_at (ts : Z) (fs : list frm) : option frm := head (filter (λ f, ts ≤ f_ts f) fs).

Lemma first_at_skip ts a b : Forall (λ f, f_ts f < ts) a → first_at ts (a ++ b) = first_at ts b.
Proof.
  intros Ha. unfold first_at. rewrite filter_app, filter_none; [done|].
  eapply Forall_impl; [exact Ha|]. simpl. lia.
Qed.

Lemma first_at_seek pos ts fs :
  snd <$> seek pos (λ f, ts <=? f_ts f) fs = first_at ts fs.
Proof.
  revert pos. induction fs as [|f fs IH]; intros pos; [done|]. unfold first_at. cbn [seek].
  destruct (Z.leb_spec ts (f_ts f)); [by rewrite filter_cons_True|].
  rewrite filter_cons_False by lia. apply IH.
Qed.

Lemma first_at_app ts a b :
  first_at ts (a ++ b) = match first_at ts a with Some f => Some f | None => first_at ts b end.
Proof. unfold first_at. rewrite filter_app. by destruct (filter _ a). Qed.

Lemma timely_app a b :
  timely (a ++ b) → timely a ∧ timely b ∧ ∀ f g, f ∈ a → g ∈ b → f_ts f ≤ f_ts g.
Proof. intros Ht. apply StronglySorted_app in Ht as (Hx & Ha & Hb). done. Qed.

(** The search by time in one segment. *)
Lemma findByTimestamp_segment attempts fuel s fs ts e0 :
  holds s fs → timely fs → (length fs < fuel)%nat →
  ∃ c, match first_at ts fs with
       | Some f => ∃ e, findEntryByTimestampResolving (S attempts) fuel s ts e0 = Some (with_cache s c, Ok e) ∧
                        e_Offset e = f_off f
       | None => findEntryByTimestampResolving (S attempts) fuel s ts e0 =
                   Some (with_cache s c, Fail ErrEntryNotFound)
       end ∧ holds (with_cache s c) fs.
Proof.
  intros Hh Ht Hfuel. cbn [findEntryByTimestampResolving]. unfold current.
  pose proof Hh as (_ & _ & Hle & _). rewrite Hle.
  destruct (findEntryBy_spec fuel s fs (λ _ x, ts <=? x) (λ _ x, ts <=? x)) as (c & E & Hh');
    [done|by apply timely_searchable|done|].
  exists c. split; [|done]. unfold findEntryByTimestamp, anchorPositionForTimestamp.
  change (λ e, ts <=? Index.Timestamp e) with (entry_pred (λ _ x, ts <=? x)). rewrite E. unfold found.
  rewrite <- (first_at_seek 0). destruct (seek _ _ _) as [[pos f]|]; cbn; [|done].
  eexists. split; [done|]. by destruct (blockMode s).
Qed.

Lemma drop_segment {A} (l : list A) i x : l !! i = Some x → drop i l = x :: drop (S i) l.
Proof. intros Hi. by apply drop_S. Qed.

Lemma first_after_spec n fuel l fss i ts :
  inv l fss → Forall timely fss → Forall (λ fs, (length fs < fuel)%nat) fss →
  (n + i = length (segments l))%nat →
  ∃ l', first_after n fuel l i ts =
      Some (l', Ok (match first_at ts (concat (drop i fss)) with
                    | Some f => f_off f | None => NextOffset (active l) end)) ∧
    inv l' fss ∧ same_segments l l'.
Proof.
  revert l i. induction n as [|n IH]; intros l i Hi Ht Hfuel Hn; cbn [first_after].
  - exists l. pose proof Hi as (Hs & _). apply Forall2_length in Hs.
    rewrite drop_ge by lia. done.
  - destruct (lookup_lt_is_Some_2 (segments l) i) as [s Hsi]; [lia|]. rewrite Hsi.
    pose proof Hi as (Hs & _). destruct (Forall2_lookup_l _ _ _ _ _ Hs Hsi) as (fs & Hfi & Hfs).
    pose proof (Forall_lookup_1 _ _ _ _ Ht Hfi) as Htf. pose proof (Forall_lookup_1 _ _ _ _ Hfuel Hfi) as Hff.
    rewrite (drop_segment fss i fs Hfi), concat_cons, first_at_app.
    destruct (findByTimestamp_segment 7 fuel s fs ts (ErrText "no attempt") ltac:(apply Hfs) Htf Hff)
      as (c & Hc & Hh').
    assert (Hi' : inv (put_segment l i (with_cache s c)) fss)
      by (eapply inv_put; [done|done|done|by apply seg_cache|done]).
    pose proof (put_cache l i s c Hsi) as Hsame.
    unfold readerResolveAttempts. destruct (first_at ts fs) as [f|].
    + destruct Hc as (e & -> & <-). by eexists.
    + rewrite Hc. destruct (IH (put_segment l i (with_cache s c)) (S i)) as (l' & E & Hi'' & Hsame'); try done.
      { rewrite segments_put, length_insert by (by apply lookup_lt_Some in Hsi). lia. }
      exists l'. destruct (same_active _ _ Hsame) as [_ EN]. rewrite E, EN.
      split; [done|]. split; [done|]. by etrans.
Qed.

(** The walk back stops at the first segment, or behind one that ends before
    the time. *)
Lemma walk_back_spec segs k ts :
  (k < length segs)%nat →
  (walk_back segs k ts ≤ k)%nat ∧
  (walk_back segs k ts = 0%nat ∨ ∃ s, segs !! (walk_back segs k ts - 1)%nat = Some s ∧ lastWriteTime s < ts).
Proof.
  induction k as [|k IH]; intros Hk; cbn [walk_back]; [split; [done|by left]|].
  destruct (lookup_lt_is_Some_2 segs k) as [s Hs]; [lia|]. rewrite Hs.
  destruct (Z.leb_spec ts (lastWriteTime s)).
  - destruct IH as [? ?]; [lia|]. split; [lia|done].
  - split; [done|]. right. exists s. by rewrite Nat.sub_succ, Nat.sub_0_r.
Qed.

(** Where the search starts, no record before is late enough. *)
Lemma start_early l fss k ts :
  inv l fss → timely (concat fss) → (k ≤ length (older l))%nat →
  k = 0%nat ∨ (∃ s, segments l !! (k - 1)%nat = Some s ∧ lastWriteTime s < ts) →
  first_at ts (concat fss) = first_at ts (concat (drop k fss)).
Proof.
  intros Hi Ht Hk [->|(s & Hs & Hlt)]; [by rewrite drop_0|].
  pose proof Hi as (Hsg & _ & _ & _ & _ & Hfu). pose proof (Forall2_length _ _ _ Hsg) as Hlen.
  rewrite length_segments in Hlen.
  destruct k as [|k]; [by rewrite drop_0|]. rewrite Nat.sub_succ, Nat.sub_0_r in Hs.
  destruct (Forall2_lookup_l _ _ _ _ _ Hsg Hs) as (fs & Hfi & (Hh & _)).
  assert (Hfne : fs ≠ []).
  { apply (proj1 (Forall_lookup _ _) Hfu k). rewrite removelast_firstn_len, lookup_take_lt by lia. done. }
  destruct (last fs) as [x|] eqn:El; [|by apply last_None in El].
  destruct Hh as (_ & _ & _ & _ & (_ & _ & _ & Hlw) & _). rewrite Hlw in Hlt. unfold tail_ts in Hlt.
  rewrite El in Hlt. cbn in Hlt. apply last_Some in El as [y ->].
  assert (Ec : concat fss = ((concat (take k fss) ++ y) ++ [x]) ++ concat (drop (S k) fss)).
  { rewrite <- (take_drop_middle fss k _ Hfi) at 1. by rewrite concat_app, concat_cons, <- !app_assoc. }
  rewrite Ec in Ht |- *. apply first_at_skip. apply timely_app in Ht as (Ht & _).
  apply timely_app in Ht as (_ & _ & Hx). apply Forall_app. split; [|by constructor].
  apply Forall_forall. intros f Hf. pose proof (Hx f x Hf ltac:(by left)). lia.
Qed.


Lemma Forall_timely fss : timely (concat fss) → Forall timely fss.
Proof.
  induction fss as [|fs fss IH]; intros Ht; [constructor|]. rewrite concat_cons in Ht.
  apply timely_app in Ht as (? & ? & _). constructor; auto.
Qed.

Lemma earliest_spec fuel l fss ts :
  inv l fss → timely (concat fss) → Forall (λ fs, (length fs < fuel)%nat) fss →
  ∃ l', earliestOffsetAfterTimestampLocked fuel l ts =
      Some (l', Ok (match first_at ts (concat fss) with
                    | Some f => f_off f | None => NextOffset (active l) end)) ∧
    inv l' fss ∧ same_segments l l'.
Proof.
  intros Hi Ht Hfuel. unfold earliestOffsetAfterTimestampLocked.
  set (idx := Z.to_nat _). set (at_ := if (0 <? idx)%nat then _ else _).
  assert (Hat : (at_ < length (segments l))%nat).
  { unfold at_, idx, findSegmentIndexByTimestamp.
    destruct (Sort.Search_spec (zlen (segments l)) (λ i, match segments l !! Z.to_nat i with
      | Some s => if 0 <=? firstOffset s then ts <? firstWriteTime s else true | None => false end)
      (zlen_nonneg _)) as ((? & Hle) & _).
    unfold zlen in Hle at 2. rewrite length_segments in *. destruct (_ <? _)%nat; lia. }
  destruct (walk_back_spec (segments l) at_ ts Hat) as [Hw Hstop].
  set (k := walk_back (segments l) at_ ts) in *.
  rewrite (start_early l fss k ts Hi Ht) by (done || (rewrite length_segments in Hat; lia)).
  apply first_after_spec; [done|by apply Forall_timely|done|lia].
Qed.

(** The last record at or before a time. *)
Definition last_at (ts : Z) (fs : list frm) : option frm := last (filter (λ f, f_ts f ≤ ts) fs).

(** Offsets without holes, up to the next one. *)
Definition dense (l : commitLog) (fs : list frm) : Prop :=
  (∀ i f g, fs !! i = Some f → fs !! S i = Some g → f_off g = f_off f + 1) ∧
  ∀ f, last fs = Some f → NextOffset (active l) = f_off f + 1.

(** The offset after those of the records at or before a time. *)
Definition offset_after (l : commitLog) (ts : Z) (fs : list frm) : Z :=
  match first_at (ts + 1) fs with Some f => f_off f | None => NextOffset (active l) end.

Lemma before_after l fss ts f0 :
  inv l fss → timely (concat fss) → head (concat fss) = Some f0 → f_ts f0 ≤ ts →
  ∃ x, last_at ts (concat fss) = Some x ∧ f_off x < offset_after l ts (concat fss) ∧
    (∀ g, g ∈ concat fss → f_off x < f_off g → offset_after l ts (concat fss) ≤ f_off g) ∧
    (dense l (concat fss) → offset_after l ts (concat fss) = f_off x + 1).
Proof.
  intros Hi Ht H0 Hle. pose proof (inv_ascending l fss Hi) as Hasc.
  assert (Hnx : ∀ f, f ∈ concat fss → f_off f < NextOffset (active l)) by (intros f Hf; by apply (inv_all_frames l fss)).
  set (fs := concat fss) in *. clearbody fs.
  assert (Hsp : ∃ a b, fs = a ++ b ∧ Forall (λ f, f_ts f ≤ ts) a ∧ Forall (λ f, ¬ f_ts f ≤ ts) b).
  { exists (filter (λ f, f_ts f ≤ ts) fs), (filter (λ f, ¬ f_ts f ≤ ts) fs).
    split; [apply (down_split _ _ fs Ht); simpl; lia|].
    split; apply Forall_forall; by intros f [? _]%list_elem_of_filter. }
  destruct Hsp as (a & b & -> & Ha & Hb).
  assert (Hane : a ≠ []).
  { intros ->. destruct b as [|g b]; [done|]. injection H0 as ->. apply Forall_cons in Hb as [Hb _]. done. }
  destruct (last a) as [x|] eqn:Ea; [|by apply last_None in Ea]. exists x. split.
  { unfold last_at. by rewrite filter_app, filter_all, filter_none, app_nil_r by done. }
  unfold offset_after. rewrite first_at_skip by (eapply Forall_impl; [exact Ha|]; simpl; lia).
  apply last_Some in Ea as [k ->]. rewrite <- app_assoc in *. cbn [app] in *.
  apply StronglySorted_app in Hasc as (Hk & _ & Hasc). apply StronglySorted_cons in Hasc as [Hx Hasc].
  assert (Hlow : ∀ g, g ∈ k ++ x :: b → f_off x < f_off g → g ∈ b).
  { intros g [Hg|[->|Hg]%elem_of_cons]%elem_of_app Hlt; [|lia|done]. specialize (Hk g x Hg ltac:(left)). cbn in Hk. lia. }
  destruct b as [|g b].
  - cbn. split; [apply Hnx, elem_of_app; right; left|]. split; [intros g Hg Hlt; by apply Hlow, not_elem_of_nil in Hlt|].
    intros [_ Hn]. apply Hn. by rewrite last_snoc.
  - apply Forall_cons in Hb as [Hg _]. unfold first_at. rewrite filter_cons_True by lia. cbn [head].
    apply Forall_cons in Hx as [Hxg _]. split; [done|]. apply StronglySorted_cons in Hasc as [Hgb _]. split.
    + intros h Hh Hlt. apply Hlow, elem_of_cons in Hlt as [->|Hin]; [done| |done]. rewrite Forall_forall in Hgb. specialize (Hgb h Hin). cbn in Hgb. lia.
    + intros [Hd _]. apply (Hd (length k)); [by apply list_lookup_middle|].
      rewrite lookup_app_r, Nat.sub_succ_l, Nat.sub_diag by lia. done.
Qed.

Lemma inv_first l fss f0 :
  inv l fss → head (concat fss) = Some f0 → ∃ s ss, segments l = s :: ss ∧ firstWriteTime s = f_ts f0.
Proof.
  intros (Hs & _ & _ & _ & _ & Hfu) H0. destruct Hs as [|s fs ss k Hfs Hk]; [done|]. exists s, ss.
  split; [done|]. destruct Hfs as ((_ & _ & _ & _ & (_ & _ & -> & _) & _) & _). unfold head_ts.
  destruct fs as [|f fs]; [|cbn in H0; by injection H0 as ->].
  destruct k as [|g k]; [done|]. cbn [removelast] in Hfu. by apply Forall_cons in Hfu as [? _].
Qed.

Lemma latest_spec fuel l fss ts f0 :
  inv l fss → timely (concat fss) → Forall (λ fs, (length fs < fuel)%nat) fss → head (concat fss) = Some f0 →
  f_ts f0 ≤ ts → ts < 2 ^ 63 - 1 →
  ∃ l', LatestOffsetBeforeTimestamp fuel l ts = Some (l', Ok (offset_after l ts (concat fss) - 1)) ∧
    inv l' fss ∧ same_segments l l'.
Proof.
  intros Hi Ht Hfuel H0 Hle Hts. destruct (inv_first l fss f0 Hi H0) as (s & ss & Eseg & Efw).
  unfold LatestOffsetBeforeTimestamp. rewrite Eseg, Efw, (proj2 (Z.ltb_ge _ _) Hle), (proj2 (Z.eqb_neq _ _)) by lia.
  destruct (earliest_spec fuel l fss (ts + 1) Hi Ht Hfuel) as (l' & -> & Hi' & Hsame). exists l'. split; [|done].
  fold (offset_after l ts (concat fss)). do 3 f_equal. destruct (newest_ok l fss Hi) as (Hn & _).
  destruct (before_after l fss ts f0 Hi Ht H0 Hle) as (x & Hx & Hlt & _).
  assert (Hin : x ∈ concat fss) by (unfold last_at in Hx; by apply last_Some_elem_of, list_elem_of_filter in Hx as [_ Hx]).
  destruct (inv_all_frames l fss x Hi Hin) as (Hr & _).
  assert (offset_after l ts (concat fss) ≤ NextOffset (active l)); [|by rewrite sint_nonneg by lia]. unfold offset_after.
  destruct (first_at (ts + 1) (concat fss)) as [y|] eqn:Ey; [|done].
  assert (Hy : y ∈ concat fss) by (unfold first_at in Ey; by apply head_Some_elem_of, list_elem_of_filter in Ey as [_ Ey]).
  destruct (inv_all_frames l fss y Hi Hy) as (Hry & _). lia.
Qed.

(** C32: lookups by time find the record.  When timestamps do not decrease along
    the log, the earliest offset at or after a time is that of the first such
    record, in whichever segment it is and however many records share its
    timestamp, or the next offset when there is none.  The latest offset at or
    before a time is at least that of the last such record and below that of every
    record behind it, and in a log without holes it is that of the last such
    record (with holes it may name none: [latest_names_hole]); the refusal is
    exactly for times before the first record. *)
Theorem lookups_by_time fuel l fss ts :
  inv l fss → timely (concat fss) → Forall (λ fs, (length fs < fuel)%nat) fss →
  (∃ l', EarliestOffsetAfterTimestamp fuel l ts =
      Some (l', Ok (match first_at ts (concat fss) with
                    | Some f => f_off f | None => NextOffset (active l) end)) ∧
    inv l' fss ∧ same_segments l l') ∧
  (∀ f0, head (concat fss) = Some f0 → ts < 2 ^ 63 - 1 →
   if ts <? f_ts f0 then LatestOffsetBeforeTimestamp fuel l ts = Some (l, Fail ErrTimestampBeforeLog)
   else ∃ l' x off, last_at ts (concat fss) = Some x ∧ LatestOffsetBeforeTimestamp fuel l ts = Some (l', Ok off) ∧
     f_off x ≤ off ∧ (∀ g, g ∈ concat fss → f_off x < f_off g → off < f_off g) ∧
     (dense l (concat fss) → off = f_off x) ∧ inv l' fss ∧ same_segments l l').
Proof.
  intros Hi Ht Hfuel. split; [by apply earliest_spec|]. intros f0 H0 Hts.
  destruct (Z.ltb_spec ts (f_ts f0)) as [Hlt|Hle].
  { destruct (inv_first l fss f0 Hi H0) as (s & ss & Eseg & Efw). unfold LatestOffsetBeforeTimestamp.
    by rewrite Eseg, Efw, (proj2 (Z.ltb_lt _ _) Hlt). }
  destruct (latest_spec fuel l fss ts f0 Hi Ht Hfuel H0 Hle Hts) as (l' & E & Hi' & Hsame).
  destruct (before_after l fss ts f0 Hi Ht H0 Hle) as (x & Hx & Hlt & Hup & Hd).
  exists l', x, (offset_after l ts (concat fss) - 1). split; [done|]. split; [done|]. split; [lia|].
  split; [intros g Hg Hxg; specialize (Hup g Hg Hxg); lia|]. split; [intros Hde; specialize (Hd Hde); lia|done].
Qed.

(** In a log with holes the answer may be an offset at which there is no record:
    it is the one before the first record after the time. *)
Lemma latest_names_hole fuel l fss ts f0 y :
  inv l fss → timely (concat fss) → Forall (λ fs, (length fs < fuel)%nat) fss → head (concat fss) = Some f0 →
  f_ts f0 ≤ ts → ts < 2 ^ 63 - 1 → first_at (ts + 1) (concat fss) = Some y → (∀ g, g ∈ concat fss → f_off g ≠ f_off y - 1) →
  ∃ l' off, LatestOffsetBeforeTimestamp fuel l ts = Some (l', Ok off) ∧ ∀ g, g ∈ concat fss → f_off g ≠ off.
Proof.
  intros Hi Ht Hfuel H0 Hle Hts Hy Hno. destruct (latest_spec fuel l fss ts f0 Hi Ht Hfuel H0 Hle Hts) as (l' & E & _).
  exists l', (f_off y - 1). split; [|done]. unfold offset_after in E. by rewrite Hy in E.
Qed.

(** the latest record before the largest time is read off the active
    segment alone.  When that segment is empty, as it is after a roll, the
    answer is -1 although the log has records. *)
Theorem latest_ignores_rolled fuel l gss f0 :
  inv l (gss ++ [[]]) → head (concat gss) = Some f0 →
  LatestOffsetBeforeTimestamp fuel l (2 ^ 63 - 1) = Some (l, Ok (-1)).
Proof.
  intros Hi H0. destruct (inv_active _ _ Hi) as (k & fs & E & _ & Hs). apply app_inj_tail in E as [<- <-].
  assert (H0' : head (concat (gss ++ [[]])) = Some f0).
  { rewrite concat_app. cbn. by rewrite app_nil_r. }
  destruct (inv_first l _ f0 Hi H0') as (s & ss & Eseg & Efw).
  assert (Hin : f0 ∈ concat (gss ++ [[]])) by (apply head_Some_elem_of; done).
  destruct (inv_all_frames l _ f0 Hi Hin) as (_ & Ht & _).
  unfold LatestOffsetBeforeTimestamp. rewrite Eseg, Efw, (proj2 (Z.ltb_ge _ _)), Z.eqb_refl.
  - destruct Hs as ((_ & _ & _ & _ & (_ & Hl & _) & _) & _). by rewrite Hl.
  - unfold in_sint in Ht. lia.
Qed.

End times.

(** ** A follower *)

Section replication.
Context `{CodecLaws}.

(** A follower's turn: it asks the leader for what follows its newest record
    and appends the answer. *)
Definition follow (fuel : nat) (t n : Z) (leader follower : commitLog)
    : option (commitLog * commitLog * outcome (list Z)) :=
  match ReadMessageSet fuel leader (NewestOffset follower + 1) n with
  | Some (leader, Ok ms) =>
      (λ '(follower, r), (leader, follower, r)) <$> AppendMessageSet 1 (calm t) follower ms
  | Some (leader, Fail e) => Some (leader, follower, Fail e)
  | Some (leader, Panic) => Some (leader, follower, Panic)
  | None => None
  end.

(** Turns that all succeed. *)
Fixpoint turns (k : nat) (fuel : nat) (t n : Z) (leader follower : commitLog)
    : option (commitLog * commitLog) :=
  match k with
  | O => Some (leader, follower)
  | S k =>
      match follow fuel t n leader follower with
      | Some (leader, follower, Ok _) => turns k fuel t n leader follower
      | _ => None
      end
  end.

(** What a follower can take of a leader's records [b], [n] bytes at a time. *)
Definition can_take (follower : commitLog) (n : Z) (b : list frm) : Prop :=
  MaxSegmentBytes (opts follower) + n ≤ 2 ^ 31 ∧
  Forall (λ f, f_off f - BaseOffset (active follower) < 2 ^ 31 ∧ f_off f + 1 < 2 ^ 63 ∧
    zlen (fbytes f) ≤ n) b.

(** The follower holds the first records of the leader, [b] are the rest. *)
Definition behind_by (leader follower : commitLog) (lss fss : list (list frm)) (b : list frm) : Prop :=
  inv leader lss ∧ inv follower fss ∧ concat lss = concat fss ++ b ∧
  Forall (λ f, NewestOffset follower < f_off f) b.

Lemma taken_fits flw n b p q :
  can_take flw n b → b = p ++ q → p ≠ [] → (zlen (fs_bytes p) ≤ n ∨ length p = 1%nat) →
  Forall (λ f, 0 ≤ f_off f ∧ in_sint 64 (f_ts f) ∧ in_uint 64 (f_ep f) ∧ 0 < zlen (f_data f)) b →
  fits_log flw p.
Proof.
  intros (Hm & Hc) -> Hne Hz Hf. apply Forall_app in Hc as [Hc _]. apply Forall_app in Hf as [Hf _].
  split; [done|]. split.
  - apply Forall_forall. intros f Hin. pose proof (proj1 (Forall_forall _ _) Hf f Hin) as (? & ? & ? & ?).
    by pose proof (proj1 (Forall_forall _ _) Hc f Hin) as (? & ? & _).
  - destruct Hz as [Hz|Hz]; [lia|]. destruct p as [|f [|]]; try done. apply Forall_cons in Hc as [(_ & _ & Hc) _].
    rewrite fs_bytes_cons, app_nil_r. lia.
Qed.

Lemma follow_ok fuel t n ldr flw lss fss b :
  behind_by ldr flw lss fss b → b ≠ [] → deleted ldr = false → shut ldr = false → 0 < n →
  Forall (λ fs, (length fs < fuel)%nat) lss → can_take flw n b →
  ∃ ldr' flw' fss' p q, follow fuel t n ldr flw = Some (ldr', flw', Ok (f_off <$> p)) ∧
    b = p ++ q ∧ p ≠ [] ∧ behind_by ldr' flw' lss fss' q ∧ can_take flw' n q ∧
    deleted ldr' = false ∧ shut ldr' = false.
Proof.
  intros (Hil & Hif & Ec & Hab) Hne Hde Hsh Hn Hfuel Hct.
  destruct (newest_ok flw fss Hif) as (Hrg & EN & _).
  assert (Hfr : from (NewestOffset flw + 1) (concat lss) = b).
  { rewrite Ec, from_app, from_below, from_above; [done| |].
    - eapply Forall_impl; [exact Hab|]. simpl. lia.
    - apply Forall_forall. intros f Hf. apply (inv_all_frames flw fss f Hif) in Hf. lia. }
  destruct (read_once fuel ldr lss (NewestOffset flw + 1) n Hil Hn Hfuel) as (ldr' & r & E & Hil' & Hsame & Hr).
  apply (read_resolves _ _ lss) in E; [|done..].
  destruct Hsame as ((_ & _ & _ & _ & Ed & Es & _) & _).
  unfold read_spec_set in Hr. rewrite Hfr in Hr. destruct b as [|f0 b0]; [done|]. set (b := f0 :: b0) in *.
  destruct Hr as (p & (q & Eq & Hp & Hb & _) & ->). rewrite Hfr in Eq.
  pose proof (inv_ascending ldr lss Hil) as Has. rewrite Ec in Has.
  apply StronglySorted_app in Has as (_ & _ & Has). fold b in Has. rewrite Eq in Has.
  apply StronglySorted_app in Has as (Hpq & Hasp & _).
  assert (Hfit : fits_log flw p).
  { eapply taken_fits; [exact Hct|exact Eq|done|done|]. apply Forall_forall. intros f Hf.
    destruct (inv_all_frames ldr lss f Hil) as (? & ? & ? & ?); [rewrite Ec; apply elem_of_app; by right|].
    split; [lia|done]. }
  destruct (AppendMessageSet_frames 1 t flw fss p Hif ltac:(lia) Hfit Hasp) as (flw' & Ea & Hap).
  { rewrite Eq in Hab. by apply Forall_app in Hab as [? _]. }
  destruct Hap as (fss' & Hif' & [Ec' _] & (_ & _ & Eo & _) & HB & HN).
  exists ldr', flw', fss', p, q. unfold follow. rewrite E, Ea. split; [done|]. split; [done|]. split; [done|].
  split; [|split; [|by rewrite Ed, Es]].
  - split; [done|]. split; [done|]. split; [by rewrite Ec', Ec, <- app_assoc, <- Eq|].
    destruct (newest_ok flw' fss' Hif') as (_ & -> & _). rewrite HN. unfold next_of.
    destruct (last p) as [x|] eqn:El; [|by apply last_None in El]. apply last_Some_elem_of in El.
    apply Forall_forall. intros g Hg. pose proof (Hpq x g El Hg). cbv beta in *. lia.
  - destruct Hct as [Hm Hc]. rewrite Eq in Hc. apply Forall_app in Hc as [_ Hc]. rewrite <- Eo in Hm.
    split; [done|]. eapply Forall_impl; [exact Hc|]. simpl. intros f (? & ? & ?). lia.
Qed.

(** C4: a follower that starts with the leader's first records and keeps asking
    for what follows its newest record ends up with all of them: every turn
    succeeds and makes progress, so no more turns are needed than records are
    missing, and what the follower then holds is the leader's log, frame for
    frame, whatever the segment sizes, codecs and formats of the two. *)
Theorem replication_converges fuel t n ldr flw lss fss b :
  behind_by ldr flw lss fss b → deleted ldr = false → shut ldr = false → 0 < n →
  Forall (λ fs, (length fs < fuel)%nat) lss → can_take flw n b →
  ∃ k ldr' flw' fss', (k ≤ length b)%nat ∧ turns k fuel t n ldr flw = Some (ldr', flw') ∧
    inv ldr' lss ∧ inv flw' fss' ∧ concat fss' = concat lss.
Proof.
  remember (length b) as m eqn:Em. revert ldr flw fss b Em.
  induction m as [m IH] using lt_wf_ind. intros ldr flw fss b Em Hb Hde Hsh Hn Hfuel Hct.
  destruct (decide (b = [])) as [->|Hne].
  { exists 0%nat, ldr, flw, fss. split; [lia|]. split; [done|]. destruct Hb as (? & ? & Ec & _).
    split; [done|]. split; [done|]. by rewrite Ec, app_nil_r. }
  destruct (follow_ok fuel t n ldr flw lss fss b) as (ldr1 & flw1 & fss1 & p & q & E & -> & Hp & Hb1 & Hct1 & Hd1 & Hs1);
    try done.
  assert (Hlt : (length q < m)%nat) by (rewrite Em, length_app; destruct p; [done|]; simpl; lia).
  destruct (IH (length q) Hlt ldr1 flw1 fss1 q) as (k & ldr' & flw' & fss' & Hk & Et & Hr); try done.
  exists (S k), ldr', flw', fss'. split; [lia|]. split; [|done]. cbn [turns]. by rewrite E.
Qed.

End replication.

(** ** Examples *)

Lemma sample_lengths : Forall (λ fs : list frm, (length fs < 9)%nat) [sample_frames].
Proof. repeat constructor. Qed.

Lemma read_message_set_witness :
  ∃ l' p, @ReadMessageSet half_lib 9 aged_log 4102 1000 = Some (l', Ok (fs_bytes p)) ∧
    a_run [sample_frames] 4102 1000 p.
Proof.
  destruct (@read_message_set half_lib 9 aged_log [sample_frames] 4102 1000) as (l' & r & E & _ & _ & Hr).
  - apply aged_log_inv.
  - reflexivity.
  - reflexivity.
  - lia.
  - apply sample_lengths.
  - destruct Hr as (p & Hp & ->). exists l', p. split; [exact E|exact Hp].
Defined.

Lemma lookups_by_time_witness :
  (∃ l', @EarliestOffsetAfterTimestamp half_lib 9 aged_log 1700000000 = Some (l', Ok 4100)) ∧
  ∃ l' off, @LatestOffsetBeforeTimestamp half_lib 9 aged_log 1700000000 = Some (l', Ok off) ∧ 4103 ≤ off.
Proof.
  destruct (@lookups_by_time half_lib 9 aged_log [sample_frames] 1700000000) as [(l' & E & _) Hl].
  - apply aged_log_inv.
  - repeat constructor; reflexivity || (intros; discriminate).
  - apply sample_lengths.
  - split; [exists l'; exact E|]. specialize (Hl (sample_frame 4100) eq_refl ltac:(lia)).
    destruct Hl as (l2 & x & off & Ex & El & Hx & _). injection Ex as <-. exists l2, off. exact (conj El Hx).
Defined.

Lemma latest_ignores_rolled_witness :
  ∃ l, @checkAndPerformSplit half_lib 1 (calm 1700002000) aged_log = Some (l, Ok true) ∧
    @LatestOffsetBeforeTimestamp half_lib 9 l (2 ^ 63 - 1) = Some (l, Ok (-1)).
Proof.
  destruct (@roll_ok half_lib 1 1700002000 aged_log [sample_frames]) as (l & b & fss & E & Hi & _ & _ & Eb & Hb).
  - apply aged_log_inv.
  - lia.
  - vm_compute in Eb. subst b fss. exists l. split; [exact E|]. clear E.
    apply (@latest_ignores_rolled half_lib 9 l [sample_frames] (sample_frame 4100)); [exact Hi|reflexivity].
Defined.

Lemma replication_converges_witness :
  ∃ k l f fss, @turns half_lib k 9 5 100 aged_log (sample_log 3) = Some (l, f) ∧
    @inv half_lib f fss ∧ concat fss = sample_frames.
Proof.
  destruct (@replication_converges half_lib half_laws 9 5 100 aged_log (sample_log 3) [sample_frames] [[]]
    sample_frames) as (k & l & f & fss & _ & E & _ & Hi & Ec).
  - split; [apply aged_log_inv|]. split; [apply sample_log_inv|]. split; [reflexivity|].
    repeat (apply Forall_cons; split); [..|by apply Forall_nil]; by vm_compute.
  - reflexivity.
  - reflexivity.
  - lia.
  - apply sample_lengths.
  - split; [by vm_compute|].
    repeat (apply Forall_cons; split); [..|by apply Forall_nil]; split_and!; by vm_compute.
  - exists k, l, f, fss. split; [exact E|]. split; [exact Hi|exact Ec].
Defined.

End LogRead.
