(* ===== verification/SegmentRewrite.v ===== *)
(** * Rewriting a segment: the working copies of segment.go

    A maintenance operation copies the records it keeps into a working segment
    beside the original ([newWorkingSegment]), closes both and renames the copy
    over it ([Replace]), or gives it a name of its own ([Finalize]); segments
    that are no longer needed are deleted ([Delete]).  Closing leaves the bytes
    of the log and of the index on disk; reopening reads them back.  The
    theorem of this file is that what a segment holds survives it. *)

From Stdlib Require Import ZArith Lia.
From stdpp Require Import base list numbers strings gmap sorting.
From coqutil Require Import Byte.
From S2P Require Import Prelude GoStd Text Wire Compress BlockV3 Block Framing EpochCache Index.
From S2P Require Import Segment SegmentIndex SegmentSearch SegmentReopen Log.

Open Scope Z_scope.

Module SegmentRewrite.
Import Segment SegmentIndex SegmentSearch SegmentReopen Log.

(** ** Faults *)

(** What fails when a segment is closed: the file, the index, its flush, its
    file, the block table. *)
Record close_io := {
  cl_file : bool;
  cl_index : Index.faults;
  cl_sync : bool;
  cl_close : bool;
  cl_table : bool;
}.

Definition close_calm : close_io :=
  {| cl_file := false; cl_index := Index.no_faults; cl_sync := false; cl_close := false;
     cl_table := false |}.

(** Opening the file, cutting a torn tail, and the index. *)
Record open_io := { op_open : bool; op_cut : bool; op_index : Index.faults }.

Definition open_calm : open_io :=
  {| op_open := false; op_cut := false; op_index := Index.no_faults |}.

(** Closing both segments, the two renames, renaming the log back, and the
    reopening at the end. *)
Record replace_io := {
  rp_old : close_io;
  rp_new : close_io;
  rp_log : bool;
  rp_index : bool;
  rp_back : bool;
  rp_reopen : open_io;
}.

Definition replace_calm : replace_io :=
  {| rp_old := close_calm; rp_new := close_calm; rp_log := false; rp_index := false;
     rp_back := false; rp_reopen := open_calm |}.

(** Removing a stale working copy, and creating a new one. *)
Record work_io := { wk_stale : bool; wk_open : bool; wk_index : Index.faults }.

Definition work_calm : work_io :=
  {| wk_stale := false; wk_open := false; wk_index := Index.no_faults |}.

(** Closing, and removing the log and the index file. *)
Record delete_io := { de_close : close_io; de_log : bool; de_index : bool }.

Definition delete_calm : delete_io := {| de_close := close_calm; de_log := false; de_index := false |}.

(** ** Closing and deleting *)

Definition close (c : close_io) (s : segment) : segment * outcome () :=
  closeSegment (cl_file c) (cl_index c) (cl_sync c) (cl_close c) (cl_table c) true s.

Definition closeDiscarding (c : close_io) (s : segment) : segment * outcome () :=
  closeSegment (cl_file c) (cl_index c) (cl_sync c) (cl_close c) (cl_table c) false s.

Definition with_left (s : segment) : segment :=
  with_state s (sealed s) (closed s) true (sidecar s).

Definition without_table (s : segment) : segment :=
  with_state s (sealed s) (closed s) (left s) None.

(** [Delete]: the segment, whether the log file is gone, and the error. *)
Definition Delete (d : delete_io) (s : segment) : segment * bool * outcome () :=
  match closeDiscarding (de_close d) s with
  | (s, Fail e) => (with_left s, false, Fail e)
  | (s, Panic) => (s, false, Panic)
  | (s, Ok _) =>
      let s := with_left s in
      if de_log d then (s, false, Fail (ErrText "remove"))
      else if de_index d then (s, true, Fail (ErrText "remove"))
      else (without_table s, true, Ok ())
  end.

Definition SupersededBy (s : segment) : segment := with_left s.

Definition Seal (f : Index.faults) (sf tf : bool) (s : segment) : segment := seal f sf tf s.

Section codecs.
Context `{CodecLib}.

(** ** Working copies *)

Definition newWorkingSegment (w : work_io) (i base maxB cdc fmt : Z) : outcome segment :=
  if wk_stale w then Fail (ErrText "remove stale rewrite working copy")
  else if wk_open w then Fail (ErrText "open segment log file")
  else
    s ← open_log false false i base maxB false false cdc fmt [] None nil_index;
    match setupIndex 1 (wk_index w) false s [] with Some r => r | None => Panic end.

Definition Truncated (w : work_io) (i : Z) (s : segment) : outcome segment :=
  newWorkingSegment w i (BaseOffset s) (maxBytes s) (codec s) (format s).

Definition Trimmed (w : work_io) (i : Z) (s : segment) (base : Z) : outcome segment :=
  newWorkingSegment w i base (maxBytes s) (codec s) (format s).

Definition Cleaned (w : work_io) (i : Z) (s : segment) : outcome segment :=
  newWorkingSegment w i (BaseOffset s) (maxBytes s) (codec s) (format s).

Definition Joined (w : work_io) (i : Z) (s : segment) : outcome segment :=
  newWorkingSegment w i (BaseOffset s) (maxBytes s) (codec s) (format s).

(** [reopenLocked]: the log and the index are the bytes closing left. *)
Definition reopenLocked (fuel : nat) (o : open_io) (s : segment) : option (segment * outcome ()) :=
  if op_open o then Some (s, Fail (ErrText "open backing"))
  else
    let s := with_state s (sealed s) false (left s) (sidecar s) in
    match initPositions (op_cut o) s with
    | Fail e => Some (s, Fail e)
    | Panic => Some (s, Panic)
    | Ok s =>
        match setupIndex fuel (op_index o) (op_cut o) s (Index.file (Index s)) with
        | None => None
        | Some (Ok s) => Some (s, Ok ())
        | Some (Fail e) => Some (s, Fail e)
        | Some Panic => Some (s, Panic)
        end
    end.

(** The way out of a failed [Replace]: the original is opened again. *)
Definition undo (fuel : nat) (o : open_io) (s old : segment) (e : error)
    : option (segment * segment * outcome ()) :=
  match reopenLocked fuel o old with
  | None => None
  | Some (old, Panic) => Some (s, old, Panic)
  | Some (old, _) => Some (s, old, Fail e)
  end.

(** [Replace]: the copy [s] takes the place of [old].  A failed rename of the
    index renames the log back; if that fails too, the original's name holds
    the copy's bytes. *)
Definition Replace (fuel : nat) (r : replace_io) (s old : segment)
    : option (segment * segment * outcome ()) :=
  match close (rp_old r) old with
  | (old, Panic) => Some (s, old, Panic)
  | (old, Fail e) => undo fuel (rp_reopen r) s old e
  | (old, Ok _) =>
      match close (rp_new r) s with
      | (s, Panic) => Some (s, old, Panic)
      | (s, Fail e) => undo fuel (rp_reopen r) s old e
      | (s, Ok _) =>
          if rp_log r then undo fuel (rp_reopen r) s old (ErrText "rename log")
          else if rp_index r then
            undo fuel (rp_reopen r) s
              (if rp_back r
               then with_log old (backing s) (blocks old) (position old) (physPosition old)
               else old) (ErrText "rename index")
          else
            let s := without_table s in
            let old := without_table old in
            match reopenLocked fuel (rp_reopen r) s with
            | None => None
            | Some (s, Ok _) => Some (s, with_left old, Ok ())
            | Some (s, Fail e) => Some (s, old, Fail e)
            | Some (s, Panic) => Some (s, old, Panic)
            end
      end
  end.

(** [Finalize]: the copy under its own name. *)
Definition Finalize (fuel : nat) (r : replace_io) (s : segment) : option (segment * outcome ()) :=
  match close (rp_new r) s with
  | (s, Panic) => Some (s, Panic)
  | (s, Fail e) => Some (s, Fail e)
  | (s, Ok _) =>
      if rp_log r then Some (s, Fail (ErrText "rename trimmed log failed"))
      else if rp_index r then Some (s, Fail (ErrText "rename trimmed index failed"))
      else reopenLocked fuel (rp_reopen r) (without_table s)
  end.

End codecs.

(** ** Closing leaves the bytes *)

Lemma closeIndex_ok flush trim idx rels :
  Index.rep idx rels →
  ∃ idx', Index.closeIndex Index.no_faults false false flush trim idx = (idx', Ok ()) ∧
    (trim = true → Index.tight idx → Index.file idx' = Index.content rels).
Proof.
  intros (Hc & Hp & Hs & [t Ht] & _ & _). unfold Index.closeIndex. rewrite Hc.
  cbn [Index.no_faults Index.unmap_fails]. rewrite !andb_false_r. cbn [orb negb].
  destruct trim; cbn [andb].
  2: { by eexists. }
  destruct (Z.ltb_spec (Index.position (Index.set_mmap idx None)) (Index.size (Index.set_mmap idx None))) as [Hlt|Hge];
    cbn [Index.set_mmap Index.position Index.size] in *; cbn [andb].
  - unfold Index.shrink. cbn [Index.no_faults Index.truncate_fails Index.set_mmap Index.file Index.position].
    eexists. split; [done|]. intros _ _. cbn [Index.set_closed Index.set_size Index.set_file Index.file].
    unfold Index.truncate. rewrite Ht, Hp, <- Index.zlen_content, to_nat_zlen, take_app_length, length_app.
    replace (length (Index.content rels) - _)%nat with 0%nat by lia. by rewrite app_nil_r.
  - eexists. split; [done|]. intros _ Hti. cbn [Index.set_closed Index.set_mmap Index.file].
    unfold Index.tight in Hti. rewrite Ht in Hti |- *. rewrite zlen_app, Index.zlen_content in Hti.
    destruct t; [by rewrite app_nil_r|]. rewrite zlen_cons in Hti. pose_zlen. lia.
Qed.

(** What sealing and closing do not touch. *)
Definition same_bytes (s s' : segment) : Prop :=
  config s' = (id s, BaseOffset s, maxBytes s, codec s, format s, true, left s) ∧
  backing s' = backing s ∧ blocks s' = blocks s ∧ blockMode s' = blockMode s ∧
  firstOffset s' = firstOffset s ∧ lastOffset s' = lastOffset s ∧
  firstWriteTime s' = firstWriteTime s ∧ lastWriteTime s' = lastWriteTime s.

Lemma seal_closed f sf tf s :
  Index.closed (Index s) = true →
  same_bytes s (seal f sf tf s) ∧ Index (seal f sf tf s) = Index s ∧
    closed (seal f sf tf s) = closed s.
Proof.
  intros Hc. unfold seal. destruct (sealed s) eqn:Es.
  { split; [|done]. unfold same_bytes, config. rewrite Es. by split_and!. }
  cbv zeta. cbn [notifyWaiters with_waiters with_bounds with_state with_index Index]. rewrite Hc.
  cbn [with_index Index]. rewrite Hc, andb_false_r. by destruct (_ && _ && _).
Qed.

Section rewrites.
Context `{CodecLib}.

Lemma close_holds s fs :
  holds s fs →
  ∃ s' gs, close close_calm s = (s', Ok ()) ∧ same_bytes s s' ∧ closed s' = true ∧
    fs = concat gs ∧ index_holds s gs ∧
    (Index.tight (Index s) → Index.file (Index s') = Index.content (group_rels (BaseOffset s) gs)).
Proof.
  intros (_ & Hcl & _ & _ & _ & gs & -> & Hi). pose proof Hi as (_ & _ & _ & Hr & _).
  unfold close, closeSegment. rewrite Hcl. cbn [close_calm cl_file cl_index cl_sync cl_close cl_table negb].
  destruct (closeIndex_ok true true (Index s) _ Hr) as (i1 & E1 & H1).
  destruct (closeIndex_ok false true (Index s) _ Hr) as (i2 & E2 & H2).
  assert (Hx : ∃ i, (if dirtyIndex s then Index.Close Index.no_faults false false (Index s)
      else Index.CloseFlushed Index.no_faults false false (Index s)) = (i, Ok ()) ∧
      Index.closed i = true ∧
      (Index.tight (Index s) → Index.file i = Index.content (group_rels (BaseOffset s) gs))).
  { unfold Index.Close, Index.CloseFlushed. rewrite E1, E2.
    destruct Hr as (Hic & _). unfold Index.closeIndex in E1, E2. rewrite Hic in E1, E2.
    cbn [Index.no_faults Index.unmap_fails] in E1, E2. rewrite !andb_false_r in E1, E2.
    cbn [orb negb] in E1, E2.
    destruct (dirtyIndex s); [exists i1|exists i2]; (split; [done|]); (split; [|by auto]).
    - destruct (_ && _) in E1; cbn in E1; by injection E1 as <-.
    - destruct (_ && _) in E2; cbn in E2; by injection E2 as <-. }
  destruct Hx as (i & -> & Hic & Hf).
  destruct (seal_closed Index.no_faults false false
    (with_state (with_index s i) (sealed (with_index s i)) true (left (with_index s i)) (sidecar (with_index s i))))
    as (Hsb & Hix & Hcl'); [done|].
  eexists _, gs. split; [done|]. split; [exact Hsb|]. split; [done|]. split; [done|]. split; [done|].
  intros Ht. rewrite Hix. by apply Hf.
Qed.

(** ** Reopening *)

Lemma stores_of_lens l q ps gs :
  chain l q ps → logicalLen <$> refs ps = (λ g, zlen (fs_bytes g)) <$> gs →
  datas ps = fs_bytes (concat gs) → stores ps gs.
Proof.
  revert l q gs. induction ps as [|p ps IH]; intros l q gs Hc Hl Hd.
  - symmetry in Hl. apply fmap_nil_inv in Hl as ->. constructor.
  - destruct gs as [|g gs]; [done|]. cbn in Hc. destruct Hc as ((_ & Hpl & _) & _ & _ & Hc).
    cbn in Hl. injection Hl as Hlp Hl. rewrite concat_cons, fs_bytes_app in Hd.
    unfold datas in Hd. cbn [fmap list_fmap concat] in Hd. rewrite Hpl in Hlp.
    apply app_inj_1 in Hd as [Hp Hd]; [|unfold zlen in Hlp; lia].
    constructor; [done|]. by eapply IH.
Qed.

(** The segment as closing and the removal of its block table leave it. *)
Definition at_rest (s x : segment) (gs : list (list frm)) : Prop :=
  same_bytes s x ∧ sidecar x = None ∧ Index.file (Index x) = Index.content (group_rels (BaseOffset s) gs).

Lemma reopen_empty fuel s x :
  holds s [] → at_rest s x [] →
  ∃ y, reopenLocked fuel open_calm x = Some (y, Ok ()) ∧ holds y [] ∧ config y = config x.
Proof.
  intros Hh ((Hcf & Hb & _ & _ & Hfo & Hlo & Hft & Hlt) & Hsd & Hix).
  assert (Hb0 : backing s = []).
  { destruct Hh as (Hl & _ & _ & _ & _ & gs & Eg & (Hg & _ & _ & _ & Hm)). unfold log_ok in Hl.
    destruct (blockMode s); [|by destruct Hl]. destruct Hl as (ps & (_ & Hch & -> & Hbs & _) & _).
    assert (gs = []) as ->.
    { destruct gs as [|[|f g] gs]; [done|by apply Forall_cons in Hg as [? _]|done]. }
    apply fmap_nil_inv in Hm. rewrite Hbs in Hm. apply fmap_nil_inv in Hm as ->. done. }
  unfold reopenLocked. cbn [open_calm op_open op_cut op_index].
  set (x1 := with_state x (sealed x) false (left x) (sidecar x)).
  assert (E1 : initPositions false x1 = Ok (with_opened (with_log x1 [] [] 0 0)
    (negb (codec x1 =? CNone) || (format x1 =? blockv3.Version)) (droppedTornTail x1) (blocksWalked x1))).
  { unfold initPositions. change (backing x1) with (backing x). by rewrite Hb, Hb0. }
  rewrite E1. set (x2 := with_opened _ _ _ _).
  change (Index.file (Index x2)) with (Index.file (Index x)). rewrite Hix.
  change (Index.content (group_rels (BaseOffset s) [])) with (@nil byte).
  destruct (new_index_opens (BaseOffset x2)) as (idx & E & Hr & Hc & Hib).
  exists (with_index x2 idx). unfold setupIndex. rewrite E. split; [reflexivity|]. clear E E1.
  split; [|done]. pose proof Hcf as Hcf'. unfold config in Hcf'. injection Hcf' as _ HB _ _ _ _ Hle.
  pose proof (holds_frames _ _ Hh) as Hfr. destruct Hh as (_ & _ & Hle' & _ & (B1 & B2 & B3 & B4) & _).
  split; [|split; [done|split; [|split; [|split]]]].
  - unfold log_ok. cbn [with_index blockMode x2 with_opened]. destruct (_ || _); [|done]. by exists [].
  - change (left x = false). by rewrite Hle.
  - change (frames_ok (BaseOffset x) []). by rewrite HB.
  - unfold bounds_hold. cbn. by rewrite Hfo, Hlo, Hft, Hlt, B1, B2, B3, B4.
  - exists []. split; [done|]. split; [constructor|]. split; [done|]. split; [exact Hib|]. split; [exact Hr|].
    by destruct (blockMode _).
Qed.

Lemma reopen_raw fuel s x fs :
  holds s fs → blockMode s = false → fs ≠ [] → at_rest s x (singles fs) →
  ∃ y, reopenLocked fuel open_calm x = Some (y, Ok ()) ∧ holds y fs ∧ config y = config x.
Proof.
  intros Hh Hm Hne ((Hcf & Hb & _ & _ & Hfo & Hlo & Hft & Hlt) & Hsd & Hix).
  pose proof (holds_frames _ _ Hh) as Hfr. pose proof Hfr as (_ & Hf & _ & _ & Hz).
  pose proof Hh as (Hl & _ & Hle' & _). unfold log_ok in Hl. rewrite Hm in Hl. destruct Hl as [Hbk _].
  pose proof Hcf as Hcf'. unfold config in Hcf'. injection Hcf' as _ HB _ _ _ _ Hle.
  unfold reopenLocked. cbn [open_calm op_open op_cut op_index].
  set (x1 := with_state x (sealed x) false (left x) (sidecar x)).
  destruct fs as [|f fs]; [done|]. apply Forall_cons in Hf as [Hf Hfs].
  destruct (frames_head (BaseOffset s) f fs [] Hf) as (b & Eb & Hbm). rewrite app_nil_r in Eb.
  assert (E1 : initPositions false x1 = Ok (with_opened (with_log x1 (fs_bytes (f :: fs)) []
    (zlen (fs_bytes (f :: fs))) (zlen (fs_bytes (f :: fs)))) false (droppedTornTail x1) (blocksWalked x1))).
  { unfold initPositions. change (backing x1) with (backing x). rewrite Hb, Hbk.
    rewrite (proj2 (Z.eqb_neq _ 0)) by (rewrite fs_bytes_cons, zlen_app, zlen_fbytes; pose_zlen; lia).
    rewrite Eb, bind_Ok. by rewrite (proj2 (Z.eqb_neq _ _) Hbm). }
  rewrite E1. set (x2 := with_opened _ _ _ _).
  change (Index.file (Index x2)) with (Index.file (Index x)). rewrite Hix, <- rels_of_singles.
  replace (Index.content (rels_of (BaseOffset s) 0 (f :: fs))) with (index_file (BaseOffset s) (f :: fs) 0)
    by (unfold index_file; apply app_nil_r).
  destruct (setupIndex_behind fuel x2 (BaseOffset s) (f :: fs) 0 (fs_bytes (f :: fs)))
    as (y & -> & Hy & Hcy); try done; [by apply Forall_cons|simpl; lia|].
  exists y. split; [done|]. split; [|by rewrite Hcy].
  assert (Hly : left y = false).
  { assert (E : left y = left x2) by (unfold config in Hcy; by injection Hcy). rewrite E.
    change (left x = false). by rewrite Hle. }
  by apply (recovered_holds (BaseOffset s)).
Qed.

Lemma reopen_blocks fuel s x gs :
  holds s (concat gs) → index_holds s gs → blockMode s = true → gs ≠ [] → at_rest s x gs →
  (length (concat gs) < fuel)%nat →
  ∃ y, reopenLocked fuel open_calm x = Some (y, Ok ()) ∧ holds y (concat gs) ∧ config y = config x.
Proof.
  intros Hh Hi Hm Hne ((Hcf & Hb & _ & _ & Hfo & Hlo & Hft & Hlt) & Hsd & Hix) Hfuel.
  pose proof (holds_frames _ _ Hh) as Hfr. pose proof Hfr as (_ & Hf & _ & _ & Hz).
  pose proof Hh as (Hl & _ & Hle' & _). unfold log_ok in Hl. rewrite Hm in Hl.
  destruct Hl as (ps & (_ & Hch & Hbk & Hbs & _) & Hdt & _).
  destruct Hi as (Hfull & _ & _ & _ & Hlen). rewrite Hm, Hbs in Hlen.
  pose proof (stores_of_lens _ _ _ _ Hch Hlen Hdt) as Hst.
  pose proof Hcf as Hcf'. unfold config in Hcf'. injection Hcf' as _ HB _ _ _ _ Hle.
  unfold reopenLocked. cbn [open_calm op_open op_cut op_index].
  set (x1 := with_state x (sealed x) false (left x) (sidecar x)).
  assert (Hrn : raws ps ++ [] ≠ []).
  { rewrite app_nil_r. intros E. apply (f_equal zlen), (zlen_raws_nil _ _ _ Hch) in E. subst ps.
    symmetry in Hlen. by apply fmap_nil_inv in Hlen. }
  destruct (initPositions_recovers x1 ps []) as (x2 & -> & Hd2 & Hca2 & _ & Hlo2 & _ & Hcl2 & Hix2 & Hcd2 & _ &
    Hfo2 & Hft2 & Hlt2 & Hi2 & HB2 & HmB2 & Hfm2 & Hsl2 & Hle2); [done|by left|done|intros Hn; by destruct Hn|by left| |].
  { rewrite app_nil_r. change (backing x = raws ps). by rewrite Hb. }
  assert (Hcf2 : config x2 = config x) by (unfold config; by rewrite Hi2, HB2, HmB2, Hcd2, Hfm2, Hsl2, Hle2).
  rewrite Hix2. change (Index x1) with (Index x). rewrite Hix.
  replace (Index.content (group_rels (BaseOffset s) gs)) with (anchor_file (BaseOffset s) gs 0)
    by (unfold anchor_file; apply app_nil_r).
  assert (Ho2 : opened (BaseOffset s) x2 (ps ++ [])).
  { rewrite app_nil_r. split; [done|]. split; [by rewrite Hca2|]. split; [by rewrite Hcl2|].
    split; [rewrite Hle2; change (left x = false); by rewrite Hle|by rewrite HB2]. }
  destruct (setup_behind fuel false x2 (BaseOffset s) ps [] gs 0 Ho2 Hst Hfull Hf Hz) as (y & -> & Hy & Hcy).
  - by intros ->.
  - apply Forall_forall. intros g Hg. apply list_elem_of_split in Hg as (a & b & ->).
    rewrite concat_app, concat_cons, !length_app in Hfuel. lia.
  - destruct gs; [done|]. simpl. lia.
  - exists y. split; [done|]. split; [|by rewrite Hcy]. rewrite app_nil_r in Hy.
    by apply (whole_holds (BaseOffset s) y ps gs).
Qed.

(** What a segment holds survives closing and opening again. *)
Lemma reopen_at_rest fuel s x fs gs :
  holds s fs → fs = concat gs → index_holds s gs → at_rest s x gs → (length fs < fuel)%nat →
  ∃ y, reopenLocked fuel open_calm x = Some (y, Ok ()) ∧ holds y fs ∧ config y = config x.
Proof.
  intros Hh -> Hi Hx Hfuel. pose proof Hi as (Hfull & _ & _ & _ & Hm).
  destruct (decide (gs = [])) as [->|Hne]; [by apply (reopen_empty fuel s)|].
  destruct (blockMode s) eqn:Em; [by apply (reopen_blocks fuel s)|].
  rewrite Hm in Hx. apply (reopen_raw fuel s); try done.
  destruct gs as [|[|f g] gs]; [done|by apply Forall_cons in Hfull as [? _]|done].
Qed.

Lemma close_at_rest s fs :
  holds s fs → Index.tight (Index s) →
  ∃ s' gs, close close_calm s = (s', Ok ()) ∧ fs = concat gs ∧ index_holds s gs ∧
    at_rest s (without_table s') gs.
Proof.
  intros Hh Ht. destruct (close_holds s fs Hh) as (s' & gs & E & Hsb & _ & -> & Hi & Hf).
  exists s', gs. split; [done|]. split; [done|]. split; [done|]. split; [exact Hsb|]. split; [done|]. by apply Hf.
Qed.

(** [Replace] with nothing failing: the copy takes the place of the original
    and holds what it held; it is left sealed, as closing left it. *)
Lemma Replace_holds fuel s old fs ofs :
  holds s fs → Index.tight (Index s) → holds old ofs → (length fs < fuel)%nat →
  ∃ y old', Replace fuel replace_calm s old = Some (y, old', Ok ()) ∧ holds y fs ∧
    config y = (id s, BaseOffset s, maxBytes s, codec s, format s, true, false) ∧ left old' = true.
Proof.
  intros Hh Ht Ho Hfuel. unfold Replace. cbn [replace_calm rp_old rp_new rp_log rp_index rp_back rp_reopen].
  destruct (close_holds old ofs Ho) as (old1 & _ & -> & _).
  destruct (close_at_rest s fs Hh Ht) as (s1 & gs & -> & Eg & Hi & Hr).
  destruct (reopen_at_rest fuel s (without_table s1) fs gs Hh Eg Hi Hr Hfuel) as (y & -> & Hy & Hcy).
  eexists y, _. split; [done|]. split; [done|]. split; [|done].
  rewrite Hcy. destruct Hr as ((-> & _) & _). by destruct Hh as (_ & _ & -> & _).
Qed.

Lemma Finalize_holds fuel s fs :
  holds s fs → Index.tight (Index s) → (length fs < fuel)%nat →
  ∃ y, Finalize fuel replace_calm s = Some (y, Ok ()) ∧ holds y fs ∧
    config y = (id s, BaseOffset s, maxBytes s, codec s, format s, true, false).
Proof.
  intros Hh Ht Hfuel. unfold Finalize. cbn [replace_calm rp_new rp_log rp_index rp_reopen].
  destruct (close_at_rest s fs Hh Ht) as (s1 & gs & -> & Eg & Hi & Hr).
  destruct (reopen_at_rest fuel s (without_table s1) fs gs Hh Eg Hi Hr Hfuel) as (y & -> & Hy & Hcy).
  exists y. split; [done|]. split; [done|].
  rewrite Hcy. destruct Hr as ((-> & _) & _). by destruct Hh as (_ & _ & -> & _).
Qed.

Lemma Delete_calm s fs : holds s fs → ∃ s', Delete delete_calm s = (s', true, Ok ()) ∧ left s' = true.
Proof.
  intros (_ & Hcl & _ & _ & _ & gs & -> & (_ & _ & _ & Hr & _)).
  unfold Delete, closeDiscarding, closeSegment. rewrite Hcl.
  cbn [delete_calm de_close de_log de_index close_calm cl_file cl_index cl_sync cl_close cl_table negb].
  unfold Index.CloseDiscarding. destruct (closeIndex_ok false false (Index s) _ Hr) as (i & -> & _).
  by eexists.
Qed.

(** ** Copying records *)

Lemma newWorking_holds i base maxB cdc fmt :
  0 ≤ base < 2 ^ 63 →
  ∃ w, newWorkingSegment work_calm i base maxB cdc fmt = Ok w ∧ holds w [] ∧
    config w = (i, base, maxB, cdc, fmt, false, false) ∧ Index.tight (Index w).
Proof.
  intros Hb. destruct (new_segment_holds false i base maxB cdc fmt nil_index Hb)
    as (s0 & w & E0 & E & Hh & Hcf & _ & Ht).
  exists w. split; [|by split_and!]. unfold newWorkingSegment. cbn [work_calm wk_stale wk_open wk_index].
  change (open_log false false i base maxB false false cdc fmt [] None nil_index) with
    (open_log false false i base maxB true false cdc fmt [] None nil_index).
  rewrite E0, bind_Ok, E. reflexivity.
Qed.

End rewrites.

Section copies.
Context `{CodecLaws}.

(** One record copied behind those the working segment holds. *)
Lemma copy_frame w a f :
  holds w a → codec_ok w → frames_ok (BaseOffset w) (a ++ [f]) → Index.tight (Index w) →
  ∃ w', WriteMessageSet None Index.no_faults w (fbytes f) [scanned (zlen (fs_bytes a)) f] = (w', Ok ()) ∧
    holds w' (a ++ [f]) ∧ kept w w' ∧ Index.tight (Index w').
Proof.
  intros Hh Hc Hok Ht. destruct (holds_append w a [f] Hh Hc ltac:(done) Hok) as (w' & E & Hh' & Hk & _ & Ht').
  exists w'. split; [|by auto]. destruct Hh as (Hl & _). rewrite (log_ok_position _ _ Hl) in E.
  cbn [entries_at] in E. rewrite fs_bytes_cons in E. change (fs_bytes []) with (@nil byte) in E.
  by rewrite app_nil_r in E.
Qed.

End copies.

End SegmentRewrite.
