(* ===== verification/LogTruncate.v ===== *)
(** * Cutting the log: Truncate and TruncateBefore of commitlog.go

    [Truncate] removes the records from an offset on: the segment that holds
    the offset is copied up to it, the segments behind are deleted, the copy
    takes the place of its source and the watermark and the epoch history are
    cut.  [TruncateBefore] removes the records below an offset: whole segments
    are dropped and the one that straddles the cut is trimmed.  Both run under
    the log's maintenance lock; [Truncate] holds the append lock too, so each is
    one step.  The tier manifest the operations republish is not modelled. *)

From Stdlib Require Import ZArith Lia.
From stdpp Require Import base list numbers strings gmap sorting.
From coqutil Require Import Byte.
From S2P Require Import Prelude GoStd Text Wire Compress BlockV3 Block Framing EpochCache Index.
From S2P Require Import Segment SegmentIndex SegmentSearch SegmentReopen Log LogAppend LogRead.
From S2P Require Import SegmentRewrite.

Open Scope Z_scope.

Module LogTruncate.
Import Segment SegmentIndex SegmentSearch SegmentReopen Log LogAppend LogRead SegmentRewrite.

(** What fails during a cut: creating the working copy, writing its [k]th
    record, deleting the [k]th segment of the log, installing the copy, the epoch
    checkpoint, and sealing the copy. *)
Record cut_io := {
  ct_work : work_io;
  ct_write : nat → wfault * Index.faults;
  ct_delete : nat → delete_io;
  ct_replace : replace_io;
  ct_epoch : EpochCache.write;
  ct_seal : Index.faults * bool * bool;
}.

Definition cut_calm : cut_io :=
  {| ct_work := work_calm; ct_write := λ _, (None, Index.no_faults); ct_delete := λ _, delete_calm;
     ct_replace := replace_calm; ct_epoch := EpochCache.Written;
     ct_seal := (Index.no_faults, false, false) |}.

(** The log with this list of segments. *)
Definition with_list (l : commitLog) (ss : list segment) : commitLog :=
  match last ss with Some a => with_segments l (removelast ss) a | None => l end.

Section codecs.
Context `{CodecLib}.

(** ** Truncate *)

(** The loop of [Truncate] that copies the records below the cut into the
    working segment; the number of records written so far goes along. *)
Definition copy_below (c : cut_io) (offset : Z) (st : nat * segment) (ms : bytes) (e : entry)
    : (nat * segment) + outcome segment :=
  let '(k, w) := st in
  if offset <=? e_Offset e then inr (Ok w)
  else
    match WriteMessageSet (ct_write c k).1 (ct_write c k).2 w ms [e] with
    | (w, Ok _) => inl (S k, w)
    | (_, Fail e) => inr (Fail e)
    | (_, Panic) => inr Panic
    end.

Definition copy_ends {A} (st : nat * A) (err : error) : outcome A :=
  match err with
  | ErrEOF => Ok st.2
  | _ => Fail (ErrSegmentUnreadable "truncate of segment")
  end.

(** The replacement of segment [seg]; [i] names it. *)
Definition truncated_copy (fuel : nat) (c : cut_io) (i : Z) (seg : segment) (offset : Z)
    : option (outcome segment) :=
  match Truncated (ct_work c) i seg with
  | Fail e => Some (Fail e)
  | Panic => Some Panic
  | Ok w =>
      match scanning fuel seg newSegmentScanner (copy_below c offset) copy_ends (O, w) with
      | None => None
      | Some r => Some (r ← r; r)
      end
  end.

(** The segments from the [k]th on, deleted up to the first failure, and the
    base offsets of the files that went. *)
Fixpoint delete_from (c : cut_io) (k : nat) (ss : list segment)
    : list segment * gset Z * outcome () :=
  match ss with
  | [] => ([], ∅, Ok ())
  | s :: ss =>
      let '(s', gone, r) := Delete (ct_delete c k) s in
      let bs := if gone then {[ BaseOffset s ]} else ∅ in
      match r with
      | Ok _ => let '(ss, bs', r) := delete_from c (S k) ss in (s' :: ss, bs ∪ bs', r)
      | _ => (s' :: ss, bs, r)
      end
  end.

(** The watermark after a cut. *)
Definition clamp_hw (l : commitLog) : commitLog :=
  let newest := sint 64 (NextOffset (active l) - 1) in
  if newest <? hw l then notifyHWChange (with_hw l newest (hwWaiters l) (released l)) else l.

(** The segments are those of [l] when the call starts; [seg] is segment [idx]. *)
Definition Truncate (fuel : nat) (c : cut_io) (l : commitLog) (offset : Z)
    : option (commitLog * outcome ()) :=
  if segmentsClosed l then Some (l, Fail ErrCommitLogClosed)
  else
    match findSegment (segments l) offset with
    | (None, _) => Some (l, Ok ())
    | (Some seg, idx) =>
        let replace := negb (BaseOffset seg =? offset) || (idx =? 0)%nat in
        let '(before, after) := (take idx (segments l), drop (S idx) (segments l)) in
        match (if replace then truncated_copy fuel c (nextId l) seg offset else Some (Ok seg)) with
        | None => None
        | Some (Fail e) => Some (l, Fail e)
        | Some Panic => Some (l, Panic)
        | Some (Ok w) =>
            let l := with_files l (files l) (nextId l + 1) in
            let '(after, gone, r) := delete_from c (S idx) after in
            let fail seg gone r := Some (with_list (with_files l (files l ∖ gone) (nextId l))
                                           (before ++ seg :: after), r) in
            match r with
            | Fail e => fail seg gone (Fail e)
            | Panic => fail seg gone Panic
            | Ok _ =>
                match (if replace
                       then '(w, seg, r) ← Replace fuel (ct_replace c) w seg; Some (seg, [w], gone, r)
                       else let '(seg', g, r) := Delete (ct_delete c idx) seg in
                            Some (seg', [], gone ∪ (if g then {[ BaseOffset seg ]} else ∅), r)) with
                | None => None
                | Some (seg, _, gone, Fail e) => fail seg gone (Fail e)
                | Some (seg, _, gone, Panic) => fail seg gone Panic
                | Some (_, kept, gone, Ok _) =>
                    let l := with_list (with_files l (files l ∖ gone) (nextId l)) (before ++ kept) in
                    let l := clamp_hw l in
                    let '(e, ok) := EpochCache.ClearLatest (ct_epoch c) (epochs l) offset in
                    Some (with_epochs l e,
                          if ok then Ok () else Fail (ErrText "failed to flush epoch offsets"))
                end
            end
        end
    end.

(** ** TruncateBefore *)

(** The first sealed segment whose last offset reaches [minOffset], or the
    active one. *)
Fixpoint boundary_index (ss : list segment) (minOffset : Z) : nat :=
  match ss with
  | [] | [_] => 0
  | s :: ss => if minOffset <=? lastOffset s then 0 else S (boundary_index ss minOffset)
  end.

(** The loop of [TruncateBefore] over the boundary segment: the working copy is
    created at the first record that is kept. *)
Definition copy_from (c : cut_io) (i : Z) (boundary : segment) (minOffset : Z)
    (st : nat * option segment) (ms : bytes) (e : entry)
    : (nat * option segment) + outcome (option segment) :=
  let '(k, t) := st in
  if e_Offset e <? minOffset then inl (k, t)
  else
    match (t ← match t with Some t => Ok t | None => Trimmed (ct_work c) i boundary (e_Offset e) end;
           es ← entriesForMessageSet (position t) ms;
           match WriteMessageSet (ct_write c k).1 (ct_write c k).2 t ms es with
           | (t, Ok _) => Ok t
           | (_, Fail e) => Fail e
           | (_, Panic) => Panic
           end) with
    | Ok t => inl (S k, Some t)
    | Fail e => inr (Fail e)
    | Panic => inr Panic
    end.

(** The rewrite of the boundary segment: [None] when none of it is kept. *)
Definition trimmed_copy (fuel : nat) (c : cut_io) (i : Z) (boundary : segment) (minOffset : Z)
    : option (outcome (option segment)) :=
  match scanning fuel boundary newSegmentScanner (copy_from c i boundary minOffset) copy_ends
          (O, None) with
  | None => None
  | Some (Fail e) | Some (Ok (Fail e)) => Some (Fail e)
  | Some Panic | Some (Ok Panic) => Some Panic
  | Some (Ok (Ok None)) => Some (Ok None)
  | Some (Ok (Ok (Some t))) =>
      match Finalize fuel (ct_replace c) t with
      | None => None
      | Some (t, Ok _) => Some (Ok (Some (Seal (ct_seal c).1.1 (ct_seal c).1.2 (ct_seal c).2 t)))
      | Some (_, Fail e) => Some (Fail e)
      | Some (_, Panic) => Some Panic
      end
  end.

(** What the first half of [TruncateBefore] settles: where the survivors start,
    and what stands in for the boundary segment, if it is rewritten. *)
Record trim_plan := { tp_boundary : nat; tp_rewrite : option (option segment) }.

(** The half that runs with the log open for appends; [None] in the plan means
    there is nothing to do. *)
Definition plan_trim (fuel : nat) (c : cut_io) (l : commitLog) (minOffset : Z)
    : option (outcome (option trim_plan)) :=
  if segmentsClosed l then Some (Fail ErrCommitLogClosed)
  else if minOffset <=? 0 then Some (Ok None)
  else
    let i := boundary_index (segments l) minOffset in
    match segments l !! i with
    | Some boundary =>
        if (i <? length (older l))%nat && (BaseOffset boundary <? minOffset) then
          match trimmed_copy fuel c (nextId l) boundary minOffset with
          | None => None
          | Some (Ok t) => Some (Ok (Some {| tp_boundary := i; tp_rewrite := Some t |}))
          | Some (Fail e) => Some (Fail e)
          | Some Panic => Some Panic
          end
        else Some (Ok (Some {| tp_boundary := i; tp_rewrite := None |}))
    | None => Some Panic
    end.

(** The segments that stay, those that go, and the files there are with the
    rewrite. *)
Definition survivors (p : trim_plan) (ss : list segment) : list segment :=
  match tp_rewrite p with
  | None => drop (tp_boundary p) ss
  | Some None => drop (S (tp_boundary p)) ss
  | Some (Some t) => t :: drop (S (tp_boundary p)) ss
  end.

Definition obsolete (p : trim_plan) (ss : list segment) : list segment :=
  take (match tp_rewrite p with Some _ => S (tp_boundary p) | None => tp_boundary p end) ss.

Definition named (p : trim_plan) (fl : gset Z) : gset Z :=
  match tp_rewrite p with Some (Some t) => {[ BaseOffset t ]} ∪ fl | _ => fl end.

(** The other half, from the log as it is by then: appends may have extended
    the active segment and rolled it.  The segments are shared, so the survivors
    of the snapshot are segments of the list as it is now. *)
Definition publish_trim (c : cut_io) (l : commitLog) (p : trim_plan) (minOffset : Z)
    : commitLog * outcome () :=
  let old := segments l in
  if segmentsClosed l then
    (match tp_rewrite p with
     | Some (Some t) =>
         let '(_, gone, _) := Delete (ct_delete c (length old)) t in
         with_files l (if gone then files l else named p (files l)) (nextId l + 1)
     | _ => l
     end, Fail ErrCommitLogClosed)
  else
    let l := with_list (with_files l (named p (files l)) (nextId l + 1)) (survivors p old) in
    let '(e, ok) := EpochCache.ClearEarliest (ct_epoch c) (epochs l) minOffset in
    let l := with_epochs l e in
    if negb ok then (l, Fail (ErrText "failed to flush epoch offsets"))
    else
      let '(_, gone, r) := delete_from c 0 (obsolete p old) in
      (with_files l (files l ∖ gone) (nextId l), r).

(** [TruncateBefore] with nothing else running. *)
Definition TruncateBefore (fuel : nat) (c : cut_io) (l : commitLog) (minOffset : Z)
    : option (commitLog * outcome ()) :=
  match plan_trim fuel c l minOffset with
  | None => None
  | Some (Fail e) => Some (l, Fail e)
  | Some Panic => Some (l, Panic)
  | Some (Ok None) => Some (l, Ok ())
  | Some (Ok (Some p)) => Some (publish_trim c l p minOffset)
  end.

End codecs.

(** ** Copying what is kept *)

(** The frames below an offset. *)
Definition below (o : Z) (fs : list frm) : list frm := filter (λ f, f_off f < o) fs.

Lemma below_app o a b : below o (a ++ b) = below o a ++ below o b.
Proof. apply filter_app. Qed.

Lemma below_all o fs : Forall (λ f, f_off f < o) fs → below o fs = fs.
Proof. apply filter_all. Qed.

Lemma below_none o fs : Forall (λ f, o ≤ f_off f) fs → below o fs = [].
Proof. intros Hf. apply filter_none. eapply Forall_impl; [exact Hf|]. simpl. lia. Qed.

Lemma from_nil o fs : from o fs = [] → Forall (λ f, f_off f < o) fs.
Proof.
  intros Hn. apply Forall_forall. intros f Hf. destruct (Z.lt_ge_cases (f_off f) o); [done|].
  assert (Hin : f ∈ from o fs) by (by apply list_elem_of_filter). rewrite Hn in Hin.
  by apply not_elem_of_nil in Hin.
Qed.

(** What lies below an offset comes first. *)
Lemma below_from o fs : ascending fs → fs = below o fs ++ from o fs.
Proof.
  induction fs as [|f fs IH]; intros Ha; [done|]. inversion Ha as [|? ? Ha' Hx]; subst.
  destruct (Z.lt_ge_cases (f_off f) o).
  - unfold below, from in *. rewrite filter_cons_True, filter_cons_False by lia. cbn. by f_equal; apply IH.
  - rewrite below_none, from_above; [done|..];
      (constructor; [lia|]; eapply Forall_impl; [exact Hx|]; simpl; lia).
Qed.

Lemma frames_ok_prefix base a b : frames_ok base (a ++ b) → frames_ok base a.
Proof.
  intros (Hb & Hf & Hd & Ha & Hz). apply Forall_app in Hf as [Hf _], Hd as [Hd _].
  apply StronglySorted_app in Ha as (_ & Ha & _). rewrite fs_bytes_app, zlen_app in Hz. pose_zlen.
  split_and!; try done; lia.
Qed.

Lemma next_of_prefix base a b : frames_ok base (a ++ b) → next_of base a ≤ next_of base (a ++ b).
Proof.
  intros Hok. destruct b as [|g b] using rev_ind; [rewrite app_nil_r; lia|]. clear IHb.
  rewrite app_assoc, next_of_app. unfold next_of. rewrite app_assoc in Hok. destruct (last a) as [f|] eqn:El.
  - destruct Hok as (_ & _ & _ & Ha & _). apply StronglySorted_app in Ha as (Hx & _).
    apply last_Some_elem_of in El. specialize (Hx f g). cbv beta in Hx.
    rewrite elem_of_app, list_elem_of_singleton in Hx. specialize (Hx ltac:(by left) eq_refl). lia.
  - assert (Hg : g ∈ (a ++ b) ++ [g]) by (apply elem_of_app; right; by left).
    pose proof (frame_base _ _ _ Hok Hg). lia.
Qed.

Lemma next_of_below base fs o : frames_ok base fs → next_of base (below o fs) ≤ next_of base fs.
Proof.
  intros Hok. pose proof Hok as (_ & _ & _ & Ha & _). rewrite (below_from o fs Ha) at 2.
  apply next_of_prefix. by rewrite <- below_from.
Qed.

Section copies.
Context `{CodecLaws}.

Lemma copy_below_frames o k w a fs :
  holds w a → codec_ok w → frames_ok (BaseOffset w) (a ++ fs) → Index.tight (Index w) →
  ∃ w', over_frames (copy_below cut_calm o) copy_ends (k, w) (zlen (fs_bytes a)) fs = Ok w' ∧
    holds w' (a ++ below o fs) ∧ kept w w' ∧ Index.tight (Index w').
Proof.
  revert k w a. induction fs as [|f fs IH]; intros k w a Hh Hc Hok Ht.
  { exists w. rewrite app_nil_r. by split_and!. }
  cbn [over_frames]. unfold copy_below at 1. cbn [scanned e_Offset].
  destruct (Z.leb_spec o (f_off f)) as [Hge|Hlt].
  - exists w. rewrite below_none, app_nil_r; [by split_and!|].
    destruct Hok as (_ & _ & _ & Ha & _). apply StronglySorted_app in Ha as (_ & _ & Ha).
    inversion Ha as [|? ? _ Hx]; subst. constructor; [done|]. eapply Forall_impl; [exact Hx|]. simpl. lia.
  - rewrite (cons_middle f a fs), app_assoc in Hok. pose proof (frames_ok_prefix _ _ _ Hok) as Hok1.
    destruct (copy_frame w a f Hh Hc Hok1 Ht) as (w1 & E & Hh1 & Hk & Ht1).
    cbn [cut_calm ct_write fst snd]. rewrite E, <- zlen_fs_snoc.
    pose proof Hk as (HB & Hcd & _).
    destruct (IH (S k) w1 (a ++ [f])) as (w2 & -> & Hh2 & Hk2 & Ht2);
      [done|unfold codec_ok; by rewrite Hcd|by rewrite HB|done|].
    exists w2. split; [done|]. unfold below in *. rewrite filter_cons_True by done.
    rewrite <- app_assoc in Hh2. split; [done|]. split; [|done]. unfold kept in *.
    destruct_and!. split_and!; congruence.
Qed.

(** The copy of a segment up to an offset. *)
Lemma truncated_holds fuel i s fs o :
  holds s fs → codec_ok s → (length fs < fuel)%nat →
  ∃ w, truncated_copy fuel cut_calm i s o = Some (Ok w) ∧ holds w (below o fs) ∧ Index.tight (Index w) ∧
    config w = (i, BaseOffset s, maxBytes s, codec s, format s, false, false).
Proof.
  intros Hh Hc Hfuel. pose proof (holds_frames _ _ Hh) as Hok. pose proof Hok as (Hb & _).
  unfold truncated_copy, Truncated. cbn [cut_calm ct_work].
  destruct (newWorking_holds i (BaseOffset s) (maxBytes s) (codec s) (format s) Hb) as (w & -> & Hw & Hcf & Ht).
  rewrite (scanning_holds fuel s fs _ _ _ Hh Hfuel). cbn [mbind option_bind].
  pose proof Hcf as E. unfold config in E. injection E as Ei EB Em Ec Ef Es El.
  destruct (copy_below_frames o 0 w [] fs) as (w' & E & Hh' & Hk & Ht');
    [done|unfold codec_ok; by rewrite Ec|by rewrite EB|done|].
  change (zlen (fs_bytes [])) with 0 in E. rewrite E. exists w'. split; [done|]. split; [done|].
  split; [done|]. destruct Hk as (K1 & K2 & K3 & K4 & K5 & K6 & K7 & K8 & K9).
  unfold config. by rewrite K1, K2, K3, K5, K6, K8, K9, Ei, EB, Em, Ec, Ef, Es, El.
Qed.

(** Segments that are deleted are gone. *)
Lemma delete_from_calm op k ss fss :
  Forall2 (seg_ok op) ss fss →
  ∃ ss', delete_from cut_calm k ss = (ss', list_to_set (BaseOffset <$> ss), Ok ()).
Proof.
  intros Hs. revert k. induction Hs as [|s fs ss fss (Hh & _) _ IH]; intros k; [by exists []|].
  cbn [delete_from]. destruct (Delete_calm s fs Hh) as (s' & E & _).
  cbn [cut_calm ct_delete]. rewrite E. destruct (IH (S k)) as (ss' & ->). by eexists.
Qed.

End copies.

(** ** The log after a cut *)

(** The base offset of the first segment. *)
Definition first_base (l : commitLog) : Z :=
  match segments l with s :: _ => BaseOffset s | [] => 0 end.

Lemma first_base_head l : head (BaseOffset <$> segments l) = Some (first_base l).
Proof. unfold first_base, segments. by destruct (older l). Qed.

Lemma same_start l l' :
  head (BaseOffset <$> segments l') = head (BaseOffset <$> segments l) → first_base l' = first_base l.
Proof. rewrite !first_base_head. by intros [= ->]. Qed.

Lemma with_list_snoc l a x : with_list l (a ++ [x]) = with_segments l a x.
Proof. unfold with_list. by rewrite last_snoc, removelast_last. Qed.

Section cuts.
Context `{CodecLaws}.

(** Every segment but the last has something in it, so the bases ascend. *)
Lemma bases_ascend l fss : inv l fss → StronglySorted Z.lt (BaseOffset <$> segments l).
Proof.
  intros (Hs & Hl & _ & _ & _ & Hfu). revert fss Hs Hfu.
  induction Hl as [|s ss _ IH Hx]; intros fss Hs Hfu; [constructor|].
  apply Forall2_cons_inv_l in Hs as (fs & k & Hfs & Hk & ->). rewrite fmap_cons.
  destruct Hk as [|s' fs' ss k Hs' Hk]; [by repeat constructor|].
  change (removelast (fs :: fs' :: k)) with (fs :: removelast (fs' :: k)) in Hfu.
  apply Forall_cons in Hfu as [Hne Hfu]. constructor; [by apply (IH (fs' :: k)); [constructor|]|].
  apply Forall_fmap. eapply Forall_impl; [exact Hx|]. intros t Ht. cbn in *.
  destruct fs as [|f fs]; [done|]. pose proof (seg_range _ _ _ f Hfs ltac:(left)). lia.
Qed.

Lemma bases_without l fss a b :
  inv l fss → segments l = a ++ b →
  (list_to_set (BaseOffset <$> segments l) ∖ list_to_set (BaseOffset <$> b) : gset Z) =
  list_to_set (BaseOffset <$> a).
Proof.
  intros Hi E. pose proof (bases_ascend l fss Hi) as Hs. rewrite E, fmap_app in *.
  apply StronglySorted_app in Hs as (Hx & _). rewrite list_to_set_app_L.
  assert (Hdis : list_to_set (BaseOffset <$> a) ## (list_to_set (BaseOffset <$> b) : gset Z)).
  { intros x Ha Hb. apply elem_of_list_to_set in Ha, Hb. specialize (Hx x x Ha Hb). lia. }
  apply set_eq. intros x. rewrite elem_of_difference, elem_of_union. specialize (Hdis x). tauto.
Qed.

(** A log that ends where segment [s] did, with [x] in its place. *)
Lemma log_end l l' ga fs gb a s b x fs' :
  inv l (ga ++ fs :: gb) → segments l = a ++ s :: b → length ga = length a →
  seg_ok (opts l) x fs' → BaseOffset x = BaseOffset s → segments l' = a ++ [x] →
  files l' = files l ∖ list_to_set (BaseOffset <$> b) → opts l' = opts l →
  segmentsClosed l' = segmentsClosed l → inv l' (ga ++ [fs']).
Proof.
  intros Hi E Hlen Hx HB E' Hfl Ho Hc. pose proof Hi as (Hs & Hl & Hf & Hop & Hcl & Hfu).
  rewrite E in Hs, Hl. unfold inv. rewrite E', Ho, Hc. rewrite (cons_middle s), app_assoc in Hl.
  apply Forall2_app_inv in Hs as [Ha _]; [|done]. unfold linked in Hl.
  apply StronglySorted_app in Hl as (_ & Hl & _). split_and!; try done.
  - apply Forall2_app; [done|]. by rewrite Forall2_cons, Forall2_nil.
  - apply linked_snoc. apply linked_snoc in Hl. by rewrite HB.
  - rewrite Hfl, Hf, (bases_without l _ (a ++ [s]) b Hi) by (by rewrite E, <- app_assoc).
    rewrite !fmap_app. cbn. by rewrite HB.
  - rewrite removelast_last. rewrite removelast_app in Hfu by done. by apply Forall_app in Hfu as [? _].
Qed.

Lemma clear_latest_written c o : (EpochCache.ClearLatest EpochCache.Written c o).2 = true.
Proof.
  unfold EpochCache.ClearLatest. destruct (_ <? _); [done|].
  unfold EpochCache.flush. by destruct (EpochCache.checkpointFile _).
Qed.

(** [l'] is the log [l] cut at offset [o], which lies below its end. *)
Definition cut_at (l : commitLog) (o : Z) (l' : commitLog) : Prop :=
  readonly l' = readonly l ∧ opts l' = opts l ∧ hwFile l' = hwFile l ∧
  epochs l' = (EpochCache.ClearLatest EpochCache.Written (epochs l) o).1 ∧
  hw l' = Z.min (hw l) (NewestOffset l') ∧
  (if NewestOffset l' <? hw l
   then hwWaiters l' = ∅ ∧ released l' = send (hwWaiters l) false (released l)
   else hwWaiters l' = hwWaiters l ∧ released l' = released l).

Definition cut_log (l : commitLog) (fl : gset Z) (a : list segment) (x : segment) (o : Z) : commitLog :=
  let l := clamp_hw (with_segments (with_files l fl (nextId l + 1)) a x) in
  with_epochs l (EpochCache.ClearLatest EpochCache.Written (epochs l) o).1.

Lemma cut_log_spec l fl a x o :
  cut_at l o (cut_log l fl a x o) ∧ older (cut_log l fl a x o) = a ∧ active (cut_log l fl a x o) = x ∧
  files (cut_log l fl a x o) = fl ∧ segmentsClosed (cut_log l fl a x o) = segmentsClosed l.
Proof.
  unfold cut_log, clamp_hw, cut_at, NewestOffset. cbn [with_segments with_files active hw].
  destruct (Z.ltb_spec (sint 64 (NextOffset x - 1)) (hw l)) as [Hlt|Hge]; cbn [notifyHWChange with_epochs
    with_hw readonly opts hwFile epochs hw hwWaiters released active older files segmentsClosed
    with_segments with_files].
  - rewrite (proj2 (Z.ltb_lt _ _) Hlt), Z.min_r by lia. by split_and!.
  - rewrite (proj2 (Z.ltb_ge _ _) Hge), Z.min_l by lia. by split_and!.
Qed.

(** The frames below an offset are those of the segments before it and a prefix
    of its own. *)
Lemma below_split l ga fs gb a s b o :
  inv l (ga ++ fs :: gb) → segments l = a ++ s :: b → length ga = length a →
  Forall (λ s, NextOffset s ≤ o) a → o < NextOffset s →
  below o (concat (ga ++ fs :: gb)) = concat ga ++ below o fs.
Proof.
  intros Hi E Hlen Hlow Ho. destruct (inv_split l _ a s b Hi E) as (ga' & fs' & gb' & E' & Hl & _ & Ha & Hb & _).
  apply app_inj_1 in E' as [<- [= <- <-]]; [|by rewrite Hlen].
  rewrite concat_app, concat_cons, !below_app.
  rewrite (below_none o (concat gb)), app_nil_r, (below_all o (concat ga)); [done|..].
  - by apply from_nil, Ha.
  - specialize (Hb o Ho). apply Forall_forall. intros f Hf. rewrite <- Hb in Hf.
    by apply list_elem_of_filter in Hf as [? _].
Qed.

(** Truncate inside a segment, or at the base of the first. *)
Lemma Truncate_replaces fuel l ga fs gb a s b o :
  inv l (ga ++ fs :: gb) → segments l = a ++ s :: b → length ga = length a → seg_ok (opts l) s fs →
  findSegment (segments l) o = (Some s, length a) → BaseOffset s ≠ o ∨ a = [] → (length fs < fuel)%nat →
  ∃ x, Truncate fuel cut_calm l o =
      Some (cut_log l (files l ∖ list_to_set (BaseOffset <$> b)) a x o, Ok ()) ∧
    seg_ok (opts l) x (below o fs) ∧ BaseOffset x = BaseOffset s ∧ sealed x = true.
Proof.
  intros Hi E Hlen Hs Ef Hrep Hfuel. pose proof Hs as (Hh & Hc & Hm & Hn).
  pose proof Hi as (Hsg & _ & _ & _ & Hcl & _). rewrite E in Hsg.
  apply Forall2_app_inv in Hsg as [_ Hsg]; [|done]. apply Forall2_cons in Hsg as [_ Hb].
  unfold Truncate. rewrite Hcl, Ef, E, take_app_length, drop_app_ge, Nat.sub_succ_l, Nat.sub_diag by lia.
  assert (Er : negb (BaseOffset s =? o) || (length a =? 0)%nat = true).
  { destruct Hrep as [Hrep| ->]; [by rewrite (proj2 (Z.eqb_neq _ _) Hrep)|by rewrite orb_true_r]. }
  rewrite Er. cbn [drop]. rewrite drop_0.
  destruct (truncated_holds fuel (nextId l) s fs o Hh Hc Hfuel) as (w & -> & Hw & Ht & Hcf).
  destruct (delete_from_calm (opts l) (S (length a)) b gb Hb) as (b' & ->).
  assert (Hlw : (length (below o fs) < fuel)%nat).
  { pose proof (length_filter (λ f, f_off f < o) fs). unfold below. lia. }
  cbn [cut_calm ct_replace]. destruct (Replace_holds fuel w s (below o fs) fs Hw Ht Hh Hlw)
    as (x & s' & -> & Hx & Hcx & _).
  cbn [mbind option_bind with_files files nextId]. rewrite with_list_snoc.
  exists x. unfold config in Hcf, Hcx. injection Hcf as F1 F2 F3 F4 F5 F6 F7. injection Hcx as X1 X2 X3 X4 X5 X6 X7.
  split.
  - cbn [ct_epoch]. fold (cut_log l (files l ∖ list_to_set (BaseOffset <$> b)) a x o).
    unfold cut_log. set (l2 := clamp_hw _).
    pose proof (clear_latest_written (epochs l2) o) as Hw2.
    change (with_files _ _ _) with (with_files l (files l ∖ list_to_set (BaseOffset <$> b)) (nextId l + 1)).
    fold l2. destruct (EpochCache.ClearLatest _ _ _) as [c ok]. cbn in Hw2. by subst ok.
  - split; [|by rewrite X2, F2]. split; [done|]. split; [unfold codec_ok; by rewrite X4, F4|].
    split; [by rewrite X3, F3|]. rewrite X2, F2. pose proof (next_of_below _ fs o (holds_frames _ _ Hh)). lia.
Qed.

(** Truncate at the base of a later segment. *)
Lemma Truncate_drops fuel l ga fs gb a p s b :
  inv l (ga ++ fs :: gb) → segments l = (a ++ [p]) ++ s :: b → length ga = S (length a) →
  seg_ok (opts l) s fs → findSegment (segments l) (BaseOffset s) = (Some s, S (length a)) →
  Truncate fuel cut_calm l (BaseOffset s) =
    Some (cut_log l (files l ∖ list_to_set (BaseOffset <$> s :: b)) a p (BaseOffset s), Ok ()).
Proof.
  intros Hi E Hlen (Hh & _) Ef. pose proof Hi as (Hsg & _ & _ & _ & Hcl & _). rewrite E in Hsg.
  assert (Hla : length (a ++ [p]) = S (length a)) by (rewrite length_app; simpl; lia).
  apply Forall2_app_inv in Hsg as [_ Hsg]; [|lia]. apply Forall2_cons in Hsg as [_ Hb].
  unfold Truncate. rewrite Hcl, Ef, E, <- Hla, take_app_length, drop_app_ge, Nat.sub_succ_l, Nat.sub_diag by lia.
  rewrite Z.eqb_refl, Hla. cbn [negb orb Nat.eqb drop]. rewrite drop_0.
  destruct (delete_from_calm (opts l) (S (S (length a))) b gb Hb) as (b' & ->).
  destruct (Delete_calm s fs Hh) as (s' & Ed & _). cbn [cut_calm ct_delete ct_epoch]. rewrite Ed.
  cbn [with_files files nextId]. rewrite app_nil_r, with_list_snoc.
  rewrite (comm_L (∪) (list_to_set _ : gset Z)).
  unfold cut_log. set (l2 := clamp_hw _). pose proof (clear_latest_written (epochs l2) (BaseOffset s)) as Hw2.
  change (with_files _ _ _) with (with_files l (files l ∖ list_to_set (BaseOffset <$> s :: b)) (nextId l + 1)).
  fold l2. destruct (EpochCache.ClearLatest _ _ _) as [c ok]. cbn in Hw2. by subst ok.
Qed.

Lemma next_of_cut base fs o : base ≤ o → next_of base (below o fs) ≤ o.
Proof.
  intros Hb. unfold next_of. destruct (last _) as [f|] eqn:El; [|done].
  apply last_Some_elem_of, list_elem_of_filter in El as [? _]. lia.
Qed.

(** The segment an offset is in is the one the search finds. *)
Lemma covering l fss a s b t o :
  inv l fss → segments l = a ++ s :: b → Forall (λ s, NextOffset s ≤ o) a → o < NextOffset s →
  t ∈ segments l → BaseOffset t ≤ o < NextOffset t → t = s.
Proof.
  intros (_ & Hl & _) E Ha Hs Ht Hr. rewrite E in *. apply elem_of_app in Ht as [Ht|Ht].
  - eapply Forall_forall in Ha; [|exact Ht]. cbv beta in Ha. lia.
  - apply elem_of_cons in Ht as [->|Ht]; [done|]. apply StronglySorted_app in Hl as (_ & _ & Hl).
    inversion Hl as [|? ? _ Hx]; subst. eapply Forall_forall in Hx; [|exact Ht]. cbv beta in Hx. lia.
Qed.

Lemma find_active l fss o :
  inv l fss → BaseOffset (active l) ≤ o < NextOffset (active l) →
  findSegment (segments l) o = (Some (active l), length (older l)).
Proof.
  intros Hi Ho. destruct (findSegment_spec (segments l) o (inv_next_sorted _ _ Hi) (inv_left _ _ Hi))
    as [[Hlow _]|(a & s & b & E & _ & Hos & ->)].
  - unfold segments in Hlow. apply Forall_app in Hlow as [_ Hlow]. rewrite Forall_singleton in Hlow. lia.
  - destruct (exists_last (l := s :: b)) as (b' & y & Eb); [done|]. rewrite Eb in E. unfold segments in E.
    rewrite app_assoc in E. apply app_inj_tail in E as [Eo Ey]. subst y.
    destruct b' as [|s' b']; [by injection Eb as -> _; rewrite Eo, app_nil_r|].
    injection Eb as <- _. pose proof (older_below l fss s Hi) as Hb. rewrite Eo, elem_of_app in Hb.
    specialize (Hb ltac:(right; left)). lia.
Qed.

Lemma Truncate_beyond fuel l fss o :
  inv l fss → Forall (λ s, NextOffset s ≤ o) (segments l) →
  findSegment (segments l) o = (None, length (segments l)) →
  Truncate fuel cut_calm l o = Some (l, Ok ()) ∧ concat fss = below o (concat fss) ∧
  NextOffset (active l) ≤ o.
Proof.
  intros (Hs & _ & _ & _ & Hcl & _) Hlow Ef. unfold Truncate. rewrite Hcl, Ef. split; [done|]. split.
  - symmetry. apply below_all, from_nil. by eapply frames_below.
  - unfold segments in Hlow. apply Forall_app in Hlow as [_ Hlow]. by rewrite Forall_singleton in Hlow.
Qed.

Lemma Truncate_frames fuel l fss o :
  inv l fss → Forall (λ fs, (length fs < fuel)%nat) fss →
  ∃ l' fss', Truncate fuel cut_calm l o = Some (l', Ok ()) ∧ inv l' fss' ∧
    concat fss' = below o (concat fss) ∧
    (if o <? NextOffset (active l) then cut_at l o l' else l' = l) ∧ first_base l' = first_base l ∧
    (seamless (segments l) → seamless (segments l')) ∧
    ((∃ s, s ∈ segments l ∧ BaseOffset s ≤ o < NextOffset s) → NextOffset (active l') ≤ o).
Proof.
  intros Hi Hfuel. destruct (findSegment_spec (segments l) o (inv_next_sorted _ _ Hi) (inv_left _ _ Hi))
    as [[Hlow Ef]|(a & s & b & E & Hlow & Ho & Ef)].
  - destruct (Truncate_beyond fuel l fss o Hi Hlow Ef) as (E & Ec & Hend). exists l, fss.
    split; [done|]. split; [done|]. split; [done|]. rewrite (proj2 (Z.ltb_ge _ _) Hend). split; [done|]. split; [done|]. split; [done|].
    intros (t & Ht & Hr). eapply Forall_forall in Hlow; [|exact Ht]. cbv beta in Hlow. lia.
  - destruct (inv_split l fss a s b Hi E) as (ga & fs & gb & -> & Hlen & Hs & _).
    pose proof (below_split l ga fs gb a s b o Hi E Hlen Hlow Ho) as Hbl.
    pose proof (next_active l _ s Hi ltac:(rewrite E; apply elem_of_app; right; by left)) as Hna.
    rewrite (proj2 (Z.ltb_lt o _)) by lia.
    apply Forall_app in Hfuel as [_ [Hfu _]%Forall_cons].
    destruct (decide (BaseOffset s ≠ o ∨ a = [])) as [Hrep|Hrep].
    + destruct (Truncate_replaces fuel l ga fs gb a s b o) as (x & -> & Hx & HB & _); try done.
      eexists _, (ga ++ [below o fs]). split; [done|].
      destruct (cut_log_spec l (files l ∖ list_to_set (BaseOffset <$> b)) a x o) as (Hcut & E1 & E2 & E3 & E4).
      split; [|split; [|split; [|split; [|split]]]].
      * eapply (log_end l _ ga fs gb a s b x); try done; [unfold segments; by rewrite E1, E2|by destruct Hcut as (_ & ? & _)].
      * rewrite Hbl, concat_app. cbn. by rewrite app_nil_r.
      * done.
      * apply same_start. rewrite E. unfold segments. rewrite E1, E2. destruct a; [|done]. cbn. by rewrite HB.
      * rewrite E. unfold segments. rewrite E1, E2. intros [Hsm _]%seamless_app. by eapply seamless_base.
      * intros (t & Ht & Hr). rewrite (covering l _ a s b t o Hi E Hlow Ho Ht Hr) in Hr.
        rewrite E2, (seg_next _ _ _ Hx), HB. apply next_of_cut. lia.
    + apply Decidable.not_or in Hrep as [HB Hne]. apply dec_stable in HB. subst o.
      destruct (exists_last Hne) as (a' & p & ->). rewrite length_app, Nat.add_1_r in Ef, Hlen.
      eexists _, ga. split; [by eapply Truncate_drops|].
      destruct (cut_log_spec l (files l ∖ list_to_set (BaseOffset <$> s :: b)) a' p (BaseOffset s)) as (Hcut & E1 & E2 & E3 & E4).
      destruct (exists_last (l := ga)) as (ga' & fp & ->); [by destruct ga|].
      rewrite <- app_assoc in Hi, E. rewrite length_app, Nat.add_1_r in Hlen.
      destruct (inv_split l _ a' p (s :: b) Hi E) as (ga1 & fp1 & gb1 & Eg & Hl1 & Hp & _).
      apply app_inj_1 in Eg as [<- [= <- <-]]; [|lia].
      split; [|split; [|split; [|split; [|split]]]].
      * eapply (log_end l _ ga' fp (fs :: gb) a' p (s :: b) p); try done; [unfold segments; by rewrite E1, E2|].
        by destruct Hcut as (_ & ? & _).
      * rewrite Hbl, (below_none _ fs), app_nil_r; [done|]. apply Forall_forall. intros f Hf.
        pose proof (seg_range _ _ _ f Hs Hf). lia.
      * done.
      * apply same_start. rewrite E. unfold segments. rewrite E1, E2. by destruct a'.
      * rewrite E. unfold segments. rewrite E1, E2. by intros [Hsm _]%seamless_app.
      * intros _. rewrite E2. apply Forall_app in Hlow as [_ Hlow]. by rewrite Forall_singleton in Hlow.
Qed.

End cuts.

(** ** Trimming the front *)

Lemma frames_ok_rebase base a f b : frames_ok base (a ++ f :: b) → frames_ok (f_off f) (f :: b).
Proof.
  intros (Hb & Hf & Hd & Ha & Hz). apply Forall_app in Hf as [_ Hf], Hd as [_ Hd].
  apply StronglySorted_app in Ha as (_ & _ & Ha). rewrite fs_bytes_app, zlen_app in Hz. pose_zlen.
  assert (Hf0 : frm_ok base f) by (by apply Forall_cons in Hf as [? _]). destruct Hf0 as (H1 & H2 & H3 & _).
  split; [lia|]. split; [|split; [done|split; [done|lia]]].
  assert (Hge : Forall (λ g, f_off f ≤ f_off g) (f :: b)).
  { inversion Ha as [|? ? _ Hx]; subst. constructor; [lia|]. eapply Forall_impl; [exact Hx|]. simpl. lia. }
  apply Forall_forall. intros g Hg. eapply Forall_forall in Hf; [|exact Hg]. eapply Forall_forall in Hge; [|exact Hg].
  unfold frm_ok in *. cbv beta in *. intuition lia.
Qed.

Lemma next_of_tail base base' a f b : next_of base (a ++ f :: b) = next_of base' (f :: b).
Proof.
  destruct (exists_last (l := f :: b)) as (k & g & ->); [done|]. by rewrite app_assoc, !next_of_app.
Qed.

Section trims.
Context `{CodecLaws}.

Lemma write_frame k w a f i s o pos :
  holds w a → codec_ok w → frames_ok (BaseOffset w) (a ++ [f]) → Index.tight (Index w) → o ≤ f_off f →
  ∃ w', copy_from cut_calm i s o (k, Some w) (fbytes f) (scanned pos f) = inl (S k, Some w') ∧
    holds w' (a ++ [f]) ∧ kept w w' ∧ Index.tight (Index w').
Proof.
  intros Hh Hc Hok Ht Ho. destruct (copy_frame w a f Hh Hc Hok Ht) as (w' & E & Hr). exists w'. split; [|done].
  unfold copy_from. cbn [scanned e_Offset]. rewrite (proj2 (Z.ltb_ge _ _) Ho), bind_Ok.
  destruct Hh as (Hl & _). rewrite (log_ok_position _ _ Hl).
  assert (E1 : fs_bytes [f] = fbytes f) by (unfold fs_bytes; cbn; by rewrite app_nil_r).
  destruct Hok as (_ & Hf & Hd & _). apply Forall_app in Hf as [_ Hf], Hd as [_ Hd].
  rewrite <- E1, set_entries by (done || by eapply frm_framed). rewrite bind_Ok, E1. cbn [entries_at].
  cbn [cut_calm ct_write fst snd]. by rewrite E.
Qed.

Lemma kept_trans (s1 s2 s3 : segment) : kept s1 s2 → kept s2 s3 → kept s1 s3.
Proof. unfold kept. intros. destruct_and!. split_and!; congruence. Qed.

Lemma copy_from_rest k w a fs i s o pos :
  holds w a → codec_ok w → frames_ok (BaseOffset w) (a ++ fs) → Index.tight (Index w) →
  Forall (λ f, o ≤ f_off f) fs →
  ∃ w', over_frames (copy_from cut_calm i s o) copy_ends (k, Some w) pos fs = Ok (Some w') ∧
    holds w' (a ++ fs) ∧ kept w w' ∧ Index.tight (Index w').
Proof.
  revert k w a pos. induction fs as [|f fs IH]; intros k w a pos Hh Hc Hok Ht Ho.
  { exists w. rewrite app_nil_r. by split_and!. }
  apply Forall_cons in Ho as [Hof Ho]. rewrite (cons_middle f a fs), app_assoc in Hok |- *.
  destruct (write_frame k w a f i s o pos Hh Hc (frames_ok_prefix _ _ _ Hok) Ht Hof) as (w1 & E & Hh1 & Hk & Ht1).
  cbn [over_frames]. rewrite E. pose proof Hk as (HB & Hcd & _).
  destruct (IH (S k) w1 (a ++ [f]) (pos + zlen (fbytes f))) as (w2 & E2 & Hh2 & Hk2 & Ht2);
    [done|unfold codec_ok; by rewrite Hcd|by rewrite HB|done|done|].
  exists w2. split; [exact E2|]. split; [done|]. split; [|done]. by eapply kept_trans.
Qed.

Lemma copy_from_skip i s o a b pos :
  Forall (λ f, f_off f < o) a →
  over_frames (copy_from cut_calm i s o) copy_ends (O, None) pos (a ++ b) =
  over_frames (copy_from cut_calm i s o) copy_ends (O, None) (pos + zlen (fs_bytes a)) b.
Proof.
  revert pos. induction a as [|f a IH]; intros pos Ha.
  - change (zlen (fs_bytes [])) with 0. by rewrite Z.add_0_r.
  - apply Forall_cons in Ha as [Hf Ha]. cbn [app over_frames]. unfold copy_from at 1. cbn [scanned e_Offset].
    rewrite (proj2 (Z.ltb_lt _ _) Hf), IH by done. by rewrite fs_bytes_cons, zlen_app, Z.add_assoc.
Qed.

(** The rewrite of a boundary segment whose last record stays. *)
Lemma trimmed_holds fuel i s fs o f rest :
  holds s fs → codec_ok s → from o fs = f :: rest → (length fs < fuel)%nat →
  ∃ t, trimmed_copy fuel cut_calm i s o = Some (Ok (Some t)) ∧ holds t (from o fs) ∧
    config t = (i, f_off f, maxBytes s, codec s, format s, true, false).
Proof.
  intros Hh Hc Efr Hfuel. pose proof (holds_frames _ _ Hh) as Hok. pose proof (holds_ascending _ _ Hh) as Ha.
  unfold trimmed_copy. rewrite (scanning_holds fuel s fs _ _ _ Hh Hfuel).
  pose proof (below_from o fs Ha) as Es. rewrite Efr in Es.
  assert (Hlow : Forall (λ f, f_off f < o) (below o fs)).
  { apply Forall_forall. intros g Hg. by apply list_elem_of_filter in Hg as [? _]. }
  assert (Hge : Forall (λ f, o ≤ f_off f) (f :: rest)).
  { rewrite <- Efr. apply Forall_forall. intros g Hg. by apply list_elem_of_filter in Hg as [? _]. }
  rewrite Es in Hok. pose proof (frames_ok_rebase _ _ _ _ Hok) as Hok'.
  pose proof (copy_from_skip i s o (below o fs) (f :: rest) 0 Hlow) as Esk. rewrite <- Es in Esk. rewrite Esk.
  set (pos := 0 + _). pose proof Hok' as (Hb & _).
  destruct (newWorking_holds i (f_off f) (maxBytes s) (codec s) (format s) Hb) as (w & Ew & Hw & Hcf & Ht).
  pose proof Hcf as E. unfold config in E. injection E as Ei EB Em Ec Ef' Es' El.
  destruct (copy_from_rest 0 w [] (f :: rest) i s o pos) as (w' & E & Hh' & Hk & Ht');
    [done|unfold codec_ok; by rewrite Ec|by rewrite EB|done|done|].
  assert (E' : over_frames (copy_from cut_calm i s o) copy_ends (O, None) pos (f :: rest) = Ok (Some w')).
  { rewrite <- E. cbn [over_frames]. unfold copy_from at 1 3. cbn [scanned e_Offset].
    apply Forall_cons in Hge as [Hof _]. rewrite (proj2 (Z.ltb_ge _ _) Hof), bind_Ok.
    unfold Trimmed. cbn [cut_calm ct_work]. by rewrite Ew, bind_Ok. }
  rewrite E'. assert (Hlw : (length (f :: rest) < fuel)%nat).
  { rewrite <- Efr. pose proof (length_filter (λ f, o ≤ f_off f) fs). unfold from. lia. }
  cbn [cut_calm ct_replace ct_seal].
  destruct (Finalize_holds fuel w' (f :: rest) Hh' Ht' Hlw) as (t & -> & Htt & Hct).
  assert (Hsl : sealed t = true) by (unfold config in Hct; by injection Hct).
  exists t. split; [|split].
  - unfold Seal, seal. by rewrite Hsl.
  - by rewrite Efr.
  - rewrite Hct. destruct Hk as (K1 & K2 & K3 & K4 & K5 & K6 & K7 & K8 & K9). by rewrite K1, K2, K3, K5, K9, Ei, EB, Em, Ec, Ef'.
Qed.

(** A log that starts with [x] where segment [s] was. *)
Lemma inv_start l l' ga fs gb a s b x fs' :
  inv l (ga ++ fs :: gb) → segments l = a ++ s :: b → length ga = length a →
  seg_ok (opts l) x fs' → NextOffset x = NextOffset s → (gb ≠ [] → fs' ≠ []) → segments l' = x :: b →
  files l' = list_to_set (BaseOffset <$> x :: b) → opts l' = opts l →
  segmentsClosed l' = segmentsClosed l → inv l' (fs' :: gb).
Proof.
  intros Hi E Hlen Hx HN Hne E' Hfl Ho Hc. destruct Hi as (Hs & Hl & _ & Hop & Hcl & Hfu).
  rewrite E in Hs, Hl. unfold inv. rewrite E', Ho, Hc.
  apply Forall2_app_inv in Hs as [_ Hs]; [|done]. apply Forall2_cons in Hs as [_ Hb].
  apply StronglySorted_app in Hl as (_ & _ & Hl). inversion Hl as [|? ? Hl' Hxs]; subst.
  split_and!; try done.
  - by constructor.
  - constructor; [done|]. by rewrite HN.
  - rewrite removelast_app in Hfu by done. apply Forall_app in Hfu as [_ Hfu].
    destruct gb as [|g gb]; [constructor|].
    change (removelast (fs' :: g :: gb)) with (fs' :: removelast (g :: gb)).
    change (removelast (fs :: g :: gb)) with (fs :: removelast (g :: gb)) in Hfu.
    apply Forall_cons in Hfu as [_ Hfu]. apply Forall_cons. split; [by apply Hne|done].
Qed.

(** Where the survivors start. *)
Lemma boundary_spec l fss o :
  inv l fss →
  ∃ a s b ga fs gb, segments l = a ++ s :: b ∧ fss = ga ++ fs :: gb ∧ length ga = length a ∧
    seg_ok (opts l) s fs ∧ boundary_index (segments l) o = length a ∧
    Forall (λ f, f_off f < o) (concat ga) ∧ (b ≠ [] → ∃ k f, fs = k ++ [f] ∧ o ≤ f_off f).
Proof.
  intros (Hs & _ & _ & _ & _ & Hfu). revert fss Hs Hfu. unfold segments. generalize (older l) as ss.
  induction ss as [|s ss IH]; intros fss Hs Hfu.
  - apply Forall2_cons_inv_l in Hs as (fs & k & Hfs & Hk & ->). apply Forall2_nil_inv_l in Hk as ->.
    exists [], (active l), [], [], fs, []. by split_and!.
  - apply Forall2_cons_inv_l in Hs as (fs & k & Hfs & Hk & ->).
    assert (Hk0 : k ≠ []) by (intros ->; apply Forall2_length in Hk; rewrite length_app in Hk; simpl in Hk; lia).
    destruct k as [|g k]; [done|]. change (removelast (fs :: g :: k)) with (fs :: removelast (g :: k)) in Hfu.
    apply Forall_cons in Hfu as [Hne Hfu]. destruct (exists_last Hne) as (fk & f & ->).
    assert (Hlo : lastOffset s = f_off f).
    { destruct Hfs as ((_ & _ & _ & _ & (_ & -> & _) & _) & _). unfold tail_off. by rewrite last_snoc. }
    assert (Eb : boundary_index ((s :: ss) ++ [active l]) o =
      if o <=? lastOffset s then 0%nat else S (boundary_index (ss ++ [active l]) o)).
    { cbn [app boundary_index]. by destruct (ss ++ [active l]) eqn:E; [by apply app_nil in E as [_ ?]|]. }
    rewrite Eb, Hlo. destruct (Z.leb_spec o (f_off f)).
    + exists [], s, (ss ++ [active l]), [], (fk ++ [f]), (g :: k). split_and!; try done.
      intros _. by exists fk, f.
    + destruct (IH _ Hk Hfu) as (a & x & b & ga & fs & gb & E & Eg & Hlen & Hx & -> & Hlow & Hb).
      exists (s :: a), x, b, ((fk ++ [f]) :: ga), fs, gb. split_and!; try done; [by rewrite <- app_comm_cons, E|by rewrite Eg|simpl; lia|].
      cbn. apply Forall_app. split; [|done]. apply Forall_forall. intros h Hh.
      destruct Hfs as (Hh' & _). apply holds_ascending in Hh'. apply StronglySorted_app in Hh' as (Hx' & _).
      apply elem_of_app in Hh as [Hh|Hh]; [|apply list_elem_of_singleton in Hh as ->; done].
      specialize (Hx' h f Hh ltac:(by apply list_elem_of_singleton)). cbv beta in Hx'. lia.
Qed.

Lemma clear_earliest_written c o : (EpochCache.ClearEarliest EpochCache.Written c o).2 = true.
Proof.
  unfold EpochCache.ClearEarliest. destruct (_ <=? 0); [done|]. destruct (_ <=? _); [done|].
  destruct (last _); [|done]. unfold EpochCache.flush. by destruct (EpochCache.checkpointFile _).
Qed.

(** What dropping records at the front leaves alone. *)
Definition trim_fields (l : commitLog) (o : Z) (l' : commitLog) : Prop :=
  readonly l' = readonly l ∧ opts l' = opts l ∧ hwFile l' = hwFile l ∧ hw l' = hw l ∧
  epochs l' = (EpochCache.ClearEarliest EpochCache.Written (epochs l) o).1 ∧
  hwWaiters l' = hwWaiters l ∧ released l' = released l.

(** [l'] is the log [l] without records at its front. *)
Definition trimmed_at (l : commitLog) (o : Z) (l' : commitLog) : Prop :=
  trim_fields l o l' ∧ NewestOffset l' = NewestOffset l.

Lemma same_end l l' a s b x :
  segments l = a ++ s :: b → segments l' = x :: b → NextOffset x = NextOffset s →
  NewestOffset l' = NewestOffset l.
Proof.
  intros E E' HN. unfold NewestOffset.
  assert (Hend : ∀ k, last (NextOffset <$> segments k) = Some (NextOffset (active k))).
  { intros k. unfold segments. rewrite fmap_app. apply last_snoc. }
  pose proof (Hend l) as H1. pose proof (Hend l') as H2. rewrite E in H1. rewrite E' in H2.
  rewrite fmap_app in H1. rewrite !fmap_cons in *. rewrite last_app_cons in H1. rewrite HN, H1 in H2. injection H2 as ->. done.
Qed.

Lemma with_list_fields l ss x :
  segments (with_list l (x :: ss)) = x :: ss ∧ files (with_list l (x :: ss)) = files l ∧
  epochs (with_list l (x :: ss)) = epochs l ∧ nextId (with_list l (x :: ss)) = nextId l ∧
  ∀ fl i e o, epochs l = e → trim_fields l o
    (with_files (with_epochs (with_list l (x :: ss)) (EpochCache.ClearEarliest EpochCache.Written e o).1) fl i).
Proof.
  destruct (exists_last (l := x :: ss)) as (k & y & ->); [done|]. rewrite with_list_snoc.
  split_and!; try done. intros fl i e o <-. by split_and!.
Qed.

(** Publishing the survivors [x :: b]. *)
Lemma publish_survivors l p ga fs gb a s b x fs' gobs o :
  inv l (ga ++ fs :: gb) → segments l = a ++ s :: b → length ga = length a →
  seg_ok (opts l) x fs' → NextOffset x = NextOffset s → (gb ≠ [] → fs' ≠ []) →
  survivors p (segments l) = x :: b → Forall2 (seg_ok (opts l)) (obsolete p (segments l)) gobs →
  named p (files l) ∖ list_to_set (BaseOffset <$> obsolete p (segments l)) =
    list_to_set (BaseOffset <$> x :: b) →
  ∃ l', publish_trim cut_calm l p o = (l', Ok ()) ∧ inv l' (fs' :: gb) ∧ trimmed_at l o l'.
Proof.
  intros Hi E Hlen Hx HN Hne Esv Hobs Hfl. pose proof Hi as (_ & _ & _ & _ & Hcl & _).
  unfold publish_trim. rewrite Hcl, Esv. set (names := named p (files l)) in *.
  set (obs := obsolete p (segments l)) in *.
  destruct (with_list_fields (with_files l names (nextId l + 1)) b x) as (E1 & E2 & E3 & E4 & E5).
  cbn [cut_calm ct_epoch]. rewrite E3. pose proof (clear_earliest_written (epochs l) o) as Hw.
  change (epochs (with_files _ _ _)) with (epochs l).
  specialize (E5 (files (with_list (with_files l names (nextId l + 1)) (x :: b)) ∖ list_to_set (BaseOffset <$> obs))
    (nextId (with_list (with_files l names (nextId l + 1)) (x :: b))) (epochs l) o eq_refl).
  destruct (EpochCache.ClearEarliest _ _ _) as [c ok] eqn:Ec. cbn in Hw. subst ok. cbn [negb fst] in *.
  destruct (delete_from_calm (opts l) 0 obs gobs Hobs) as (obs' & ->).
  eexists. split; [done|]. split.
  - destruct E5 as (_ & Eo & _). eapply (inv_start l _ ga fs gb a s b x fs'); try done.
    + cbn [with_files with_epochs files]. by rewrite E2.
    + destruct (exists_last (l := x :: b)) as (k & y & ->); [done|]. by rewrite with_list_snoc.
  - split; [|by eapply same_end]. destruct E5 as (? & ? & ? & ? & E5 & ?). unfold trim_fields. rewrite Ec. done.
Qed.

Lemma publish_keeps l ga fs gb a s b o :
  inv l (ga ++ fs :: gb) → segments l = a ++ s :: b → length ga = length a →
  ∃ l', publish_trim cut_calm l {| tp_boundary := length a; tp_rewrite := None |} o = (l', Ok ()) ∧
    inv l' (fs :: gb) ∧ trimmed_at l o l'.
Proof.
  intros Hi E Hlen. pose proof Hi as (Hs & _ & Hf & _ & _ & Hfu). rewrite E in Hs.
  apply Forall2_app_inv in Hs as [Ha [Hx _]%Forall2_cons]; [|done].
  apply (publish_survivors l _ ga fs gb a s b s fs ga o); try done.
  - intros Hgb. rewrite removelast_app in Hfu by done. apply Forall_app in Hfu as [_ Hfu].
    destruct gb as [|g gb]; [done|]. by apply Forall_cons in Hfu as [? _].
  - unfold survivors. cbn [tp_rewrite tp_boundary]. by rewrite E, drop_app_length.
  - unfold obsolete. cbn [tp_rewrite tp_boundary]. by rewrite E, take_app_length.
  - unfold obsolete, named. cbn [tp_rewrite tp_boundary]. rewrite Hf, E, take_app_length, fmap_app.
    pose proof (bases_ascend l _ Hi) as Hb. rewrite E, fmap_app in Hb. apply StronglySorted_app in Hb as (Hdis & _).
    rewrite list_to_set_app_L. apply set_eq. intros z. rewrite elem_of_difference, elem_of_union.
    assert (z ∈ (list_to_set (BaseOffset <$> a) : gset Z) → z ∈ (list_to_set (BaseOffset <$> s :: b) : gset Z) → False).
    { rewrite !elem_of_list_to_set. intros H1 H2. specialize (Hdis z z H1 H2). lia. }
    tauto.
Qed.

Lemma publish_rewrites l ga fs gb a s b t fs' o :
  inv l (ga ++ fs :: gb) → segments l = a ++ s :: b → length ga = length a → seg_ok (opts l) t fs' →
  NextOffset t = NextOffset s → BaseOffset s < BaseOffset t → fs' ≠ [] →
  ∃ l', publish_trim cut_calm l {| tp_boundary := length a; tp_rewrite := Some (Some t) |} o = (l', Ok ()) ∧
    inv l' (fs' :: gb) ∧ trimmed_at l o l'.
Proof.
  intros Hi E Hlen Ht HN HB Hne. pose proof Hi as (Hs & _ & Hf & _ & _ & Hfu). rewrite E in Hs.
  rewrite (cons_middle s), (cons_middle fs), !app_assoc in Hs.
  apply Forall2_app_inv in Hs as [Ha _]; [|rewrite !length_app; simpl; lia].
  assert (Eo : obsolete {| tp_boundary := length a; tp_rewrite := Some (Some t) |} (segments l) = a ++ [s]).
  { unfold obsolete. cbn [tp_rewrite tp_boundary]. rewrite E, (cons_middle s), app_assoc.
    rewrite take_app_le by (rewrite length_app; simpl; lia). by rewrite take_ge by (rewrite length_app; simpl; lia). }
  apply (publish_survivors l _ ga fs gb a s b t fs' (ga ++ [fs]) o); try done.
  - unfold survivors. cbn [tp_rewrite tp_boundary]. rewrite E, (cons_middle s), app_assoc.
    rewrite drop_app_ge by (rewrite length_app; simpl; lia). rewrite length_app. cbn [length].
    by replace (S (length a) - (length a + 1))%nat with 0%nat by lia.
  - by rewrite Eo.
  - rewrite Eo. unfold named. cbn [tp_rewrite]. rewrite Hf, E.
    pose proof (bases_ascend l _ Hi) as Hb. rewrite E in Hb.
    rewrite (cons_middle s), app_assoc in Hb |- *. rewrite !fmap_app in Hb |- *.
    apply StronglySorted_app in Hb as (Hdis & Hb & _). apply StronglySorted_app in Hb as (Hlow & _).
    rewrite !list_to_set_app_L. cbn [fmap list_fmap list_to_set] in *.
    apply set_eq. intros z. rewrite elem_of_difference, !elem_of_union, !elem_of_list_to_set, !elem_of_singleton, elem_of_empty.
    assert (z ∈ BaseOffset <$> a → z < BaseOffset s).
    { intros Hz. apply (Hlow z (BaseOffset s) Hz). by apply list_elem_of_singleton. }
    assert (z ∈ BaseOffset <$> b → ¬ (z ∈ BaseOffset <$> a ∨ z = BaseOffset s)).
    { intros Hz Hz'. specialize (Hdis z z). rewrite elem_of_app, list_elem_of_singleton in Hdis. specialize (Hdis Hz' Hz). lia. }
    assert (z = BaseOffset t → ¬ (z ∈ BaseOffset <$> a ∨ z = BaseOffset s)) by (intros -> [?|?]; intuition lia).
    tauto.
Qed.

Lemma split_frames l ga fs gb :
  inv l (ga ++ fs :: gb) →
  ∃ a s b, segments l = a ++ s :: b ∧ length ga = length a ∧ length gb = length b ∧ seg_ok (opts l) s fs.
Proof.
  intros (Hs & _). apply Forall2_app_inv_r in Hs as (a & k & Ha & Hk & E).
  apply Forall2_cons_inv_r in Hk as (s & b & Hs & Hb & ->). apply Forall2_length in Ha, Hb.
  by exists a, s, b.
Qed.

(** Nothing is kept of the segments before the boundary. *)
Lemma from_boundary o ga k :
  Forall (λ f, f_off f < o) (concat ga) → from o (concat (ga ++ k)) = from o (concat k).
Proof. intros Hlow. by rewrite concat_app, from_app, from_below. Qed.

Lemma trim_keeps l1 ga fs gb o n :
  inv l1 (ga ++ fs :: gb) → Forall (λ f, f_off f < o) (concat ga) → (length ga ≤ n)%nat →
  ((length ga < n)%nat → ∃ s, segments l1 !! length ga = Some s ∧ o ≤ BaseOffset s) →
  ∃ l' fss', publish_trim cut_calm l1 {| tp_boundary := length ga; tp_rewrite := None |} o = (l', Ok ()) ∧
    inv l' fss' ∧ trimmed_at l1 o l' ∧
    concat fss' = from o (concat (take n (ga ++ fs :: gb))) ++ concat (drop n (ga ++ fs :: gb)).
Proof.
  intros Hi Hlow Hn Hb. destruct (split_frames l1 ga fs gb Hi) as (a & s & b & E & Hlen & Hlb & Hs).
  destruct (publish_keeps l1 ga fs gb a s b o Hi E Hlen) as (l' & Ep & Hi' & Ht). rewrite <- Hlen in Ep.
  exists l', (fs :: gb). split; [done|]. split; [done|]. split; [done|].
  rewrite take_app_ge, drop_app_ge, from_boundary by done.
  rewrite <- (take_drop (n - length ga) (fs :: gb)) at 1. rewrite concat_app. f_equal. symmetry.
  apply from_above. destruct (decide (length ga < n)%nat) as [Hlt|Hge].
  2: { replace (n - length ga)%nat with 0%nat by lia. constructor. }
  destruct (Hb Hlt) as (s' & Es & Hbs). rewrite E, Hlen, list_lookup_middle in Es by done. injection Es as ->.
  destruct Hi as (Hsg & Hl & _). rewrite E in Hsg, Hl. apply StronglySorted_app in Hl as (_ & _ & Hl).
  apply Forall2_app_inv in Hsg as [_ Hsg]; [|done]. inversion Hl as [|? ? _ Hx]; subst.
  assert (Hall : Forall (λ x, o ≤ BaseOffset x) (s' :: b)).
  { constructor; [done|]. eapply Forall_impl; [exact Hx|]. simpl. intros x.
    pose proof (seg_base_next _ _ _ Hs). lia. }
  assert (Hf : Forall (λ f, o ≤ f_off f) (concat (fs :: gb))).
  { clear -Hsg Hall. induction Hsg as [|x g ss k Hxg _ IH]; [constructor|].
    apply Forall_cons in Hall as [Hxo Hall]. cbn. apply Forall_app. split; [|by apply IH].
    apply Forall_forall. intros f Hf. pose proof (seg_range _ _ _ f Hxg Hf). lia. }
  rewrite <- (take_drop (n - length ga) (fs :: gb)), concat_app in Hf. by apply Forall_app in Hf as [? _].
Qed.

Lemma trim_rewrites l1 ga fs gb o n t :
  inv l1 (ga ++ fs :: gb) → Forall (λ f, f_off f < o) (concat ga) → (length ga < n)%nat →
  seg_ok (opts l1) t (from o fs) → from o fs ≠ [] →
  (∃ s, segments l1 !! length ga = Some s ∧ BaseOffset s < BaseOffset t) →
  ∃ l' fss', publish_trim cut_calm l1 {| tp_boundary := length ga; tp_rewrite := Some (Some t) |} o = (l', Ok ()) ∧
    inv l' fss' ∧ trimmed_at l1 o l' ∧
    concat fss' = from o (concat (take n (ga ++ fs :: gb))) ++ concat (drop n (ga ++ fs :: gb)).
Proof.
  intros Hi Hlow Hn Ht Hne (s' & Es & HB).
  destruct (split_frames l1 ga fs gb Hi) as (a & s & b & E & Hlen & _ & Hs).
  rewrite E, Hlen, list_lookup_middle in Es by done. injection Es as <-.
  assert (HN : NextOffset t = NextOffset s).
  { rewrite (seg_next _ _ _ Ht), (seg_next _ _ _ Hs). pose proof Hs as (Hh & _).
    rewrite (below_from o fs (holds_ascending _ _ Hh)) at 2. destruct (from o fs) as [|f r]; [done|].
    symmetry. apply next_of_tail. }
  destruct (publish_rewrites l1 ga fs gb a s b t (from o fs) o Hi E Hlen Ht HN HB Hne) as (l' & Ep & Hi' & Htr).
  rewrite <- Hlen in Ep. exists l', (from o fs :: gb). split; [done|]. split; [done|]. split; [done|].
  rewrite take_app_ge, drop_app_ge, from_boundary by (done || lia).
  destruct (n - length ga)%nat as [|k] eqn:Ek; [lia|]. cbn [take drop]. rewrite !concat_cons, from_app, <- app_assoc.
  f_equal. rewrite <- (take_drop k gb) at 1. rewrite concat_app. f_equal. symmetry.
  destruct (inv_split l1 _ a s b Hi E) as (ga' & fs' & gb' & E' & Hl' & _ & _ & Hgb & _).
  apply app_inj_1 in E' as [<- [= <- <-]]; [|by rewrite Hlen].
  assert (Ho : o < NextOffset s).
  { destruct (from o fs) as [|f r] eqn:Ef; [done|]. assert (Hf : f ∈ from o fs) by (rewrite Ef; left).
    apply list_elem_of_filter in Hf as [Hof Hf]. pose proof (seg_range _ _ _ f Hs Hf). lia. }
  apply from_above. specialize (Hgb o Ho). apply Forall_forall. intros f Hf.
  assert (Hin : f ∈ concat gb).
  { rewrite <- (take_drop k gb), concat_app. apply elem_of_app. by left. }
  rewrite <- Hgb in Hin. by apply list_elem_of_filter in Hin as [? _].
Qed.

Lemma boundary_copy op fuel i o s k f :
  seg_ok op s (k ++ [f]) → o ≤ f_off f → (length (k ++ [f]) < fuel)%nat →
  ∃ t, trimmed_copy fuel cut_calm i s o = Some (Ok (Some t)) ∧ seg_ok op t (from o (k ++ [f])) ∧
    from o (k ++ [f]) ≠ [] ∧ o ≤ BaseOffset t.
Proof.
  intros (Hh & Hc & Hmx & Hn) Hof Hfu. destruct (from o (k ++ [f])) as [|f0 r] eqn:Ef.
  { rewrite from_app, (from_above o [f]) in Ef by (by constructor). by apply app_nil in Ef as [_ ?]. }
  destruct (trimmed_holds fuel i s (k ++ [f]) o f0 r Hh Hc Ef Hfu) as (t & -> & Ht & Hcf).
  unfold config in Hcf. injection Hcf as F1 F2 F3 F4 F5 F6 F7. rewrite Ef in Ht. exists t. split; [done|].
  split; [|split; [done|]].
  - split; [done|]. split; [unfold codec_ok; by rewrite F4|]. split; [by rewrite F3|].
    rewrite <- (next_of_tail (BaseOffset s) _ (below o (k ++ [f])) f0 r), <- Ef, <- below_from; [done|].
    by eapply holds_ascending.
  - assert (Hf0 : f0 ∈ from o (k ++ [f])) by (rewrite Ef; left).
    apply list_elem_of_filter in Hf0 as [Hof0 _]. lia.
Qed.

(** The segment in the place of one there was before. *)
Lemma grown_base l fss l1 fss1 a s b s1 :
  grown l fss l1 fss1 → segments l = a ++ s :: b → segments l1 !! length a = Some s1 →
  BaseOffset s1 = BaseOffset s.
Proof.
  intros (_ & _ & Hb & _) E Es. apply (prefix_lookup_Some _ _ (length a) (BaseOffset s)) in Hb.
  - rewrite list_lookup_fmap, Es in Hb. cbn in Hb. by injection Hb.
  - by rewrite E, list_lookup_fmap, list_lookup_middle.
Qed.

Lemma TruncateBefore_frames fuel l fss l1 fss1 o :
  inv l fss → inv l1 fss1 → grown l fss l1 fss1 → Forall (λ fs, (length fs < fuel)%nat) fss → 0 < o →
  ∃ p l' fss', plan_trim fuel cut_calm l o = Some (Ok (Some p)) ∧
    publish_trim cut_calm l1 p o = (l', Ok ()) ∧ inv l' fss' ∧ trimmed_at l1 o l' ∧
    concat fss' = from o (concat (take (length (older l)) fss1)) ++ concat (drop (length (older l)) fss1).
Proof.
  intros Hi Hi1 Hg Hfuel Ho. pose proof Hg as (Eo & (more & Em & Hm) & _).
  destruct (boundary_spec l fss o Hi) as (a & s & b & ga & fs & gb & E & -> & Hlen & Hs & Eb & Hlow & Hlast).
  apply Forall_app in Hfuel as [_ [Hfu _]%Forall_cons]. set (n := length (older l)).
  assert (Hnl : (length a + length b)%nat = n).
  { unfold n. apply (f_equal length) in E. rewrite length_segments, length_app in E. simpl in E. lia. }
  unfold plan_trim. pose proof Hi as (_ & _ & _ & _ & -> & _).
  rewrite (proj2 (Z.leb_gt _ _) Ho), Eb, E, list_lookup_middle, <- Hlen by done. fold n.
  destruct (decide (b = [])) as [->|Hbne].
  { rewrite (proj2 (Nat.ltb_ge _ _)) by (simpl in Hnl; lia). cbn [andb].
    assert (gb = []) as ->.
    { destruct Hi as (Hsg & _). rewrite E in Hsg. apply Forall2_length in Hsg. rewrite !length_app in Hsg.
      simpl in Hsg. destruct gb; [done|simpl in Hsg; lia]. }
    rewrite removelast_last in Em. destruct more as [|m0 mm]; [done|]. subst fss1.
    destruct (trim_keeps l1 ga m0 mm o n Hi1 Hlow) as (l' & fss' & Ep & Hr); [simpl in Hnl; lia|simpl in Hnl; lia|].
    eexists _, l', fss'. by split. }
  assert (Hgb : ∃ gb', fss1 = ga ++ fs :: gb').
  { exists (removelast gb ++ more). rewrite Em, removelast_app by done. destruct gb as [|g gb].
    - destruct Hi as (Hsg & _). rewrite E in Hsg. apply Forall2_length in Hsg. rewrite !length_app in Hsg.
      destruct b; [done|]. simpl in Hsg. lia.
    - by rewrite <- app_assoc. }
  destruct Hgb as (gb' & ->). destruct (split_frames l1 ga fs gb' Hi1) as (a1 & s1 & b1 & E1 & Hlen1 & _ & Hs1).
  assert (Es1 : segments l1 !! length ga = Some s1) by (rewrite E1, Hlen1; by apply list_lookup_middle).
  assert (HB : BaseOffset s1 = BaseOffset s) by (rewrite Hlen in Es1; by eapply grown_base).
  assert (Hbl : length b ≠ 0%nat) by (by destruct b).
  rewrite (proj2 (Nat.ltb_lt _ _)) by lia. cbn [andb]. destruct (Z.ltb_spec (BaseOffset s) o) as [Hlt|Hge].
  - destruct (Hlast Hbne) as (k & f & -> & Hof).
    destruct (boundary_copy (opts l) fuel (nextId l) o s k f Hs Hof Hfu) as (t & -> & Ht & Hne & HBt).
    destruct (trim_rewrites l1 ga (k ++ [f]) gb' o n t Hi1 Hlow) as (l' & fss' & Ep & Hr);
      [lia|by rewrite Eo|done|exists s1; split; [done|lia]|].
    eexists _, l', fss'. by split.
  - destruct (trim_keeps l1 ga fs gb' o n Hi1 Hlow) as (l' & fss' & Ep & Hr); [lia| |].
    + intros _. exists s1. split; [done|]. lia.
    + eexists _, l', fss'. by split.
Qed.

(** C3: Truncation refines the removal of a suffix.  [Truncate] at an offset
    always succeeds when nothing fails: the log then holds exactly the records
    below the offset, every segment again stores and indexes what it should, the
    watermark is lowered to the new end with every waiting reader woken, and the
    epoch history is cut.  The log starts where it did, and has no gaps
    between segments if it had none.  An offset past the end
    changes nothing; where the offset lies in a segment's range, the log ends at or below it. *)
Theorem truncate_refines fuel l fss o :
  inv l fss → Forall (λ fs, (length fs < fuel)%nat) fss →
  ∃ l' fss', Truncate fuel cut_calm l o = Some (l', Ok ()) ∧ inv l' fss' ∧
    concat fss' = below o (concat fss) ∧
    (if o <? NextOffset (active l) then cut_at l o l' else l' = l) ∧ first_base l' = first_base l ∧
    (seamless (segments l) → seamless (segments l')) ∧
    ((∃ s, s ∈ segments l ∧ BaseOffset s ≤ o < NextOffset s) → NextOffset (active l') ≤ o).
Proof. apply Truncate_frames. Qed.

(** C26: Dropping the front while appends go on.  The two halves of
    [TruncateBefore] run with appends in between, which may extend the active
    segment and roll it.  What was appended meanwhile is kept whole; of the
    segments that were sealed when the call started exactly the records from the
    offset on remain, and the log is well formed again. *)
Theorem truncate_before_concurrent fuel l fss l1 fss1 o :
  inv l fss → inv l1 fss1 → grown l fss l1 fss1 → Forall (λ fs, (length fs < fuel)%nat) fss → 0 < o →
  ∃ p l' fss', plan_trim fuel cut_calm l o = Some (Ok (Some p)) ∧
    publish_trim cut_calm l1 p o = (l', Ok ()) ∧ inv l' fss' ∧ trimmed_at l1 o l' ∧
    concat fss' = from o (concat (take (length (older l)) fss1)) ++ concat (drop (length (older l)) fss1).
Proof. apply TruncateBefore_frames. Qed.

(** A truncation of the active segment leaves it sealed: the copy is closed
    before it is renamed, closing seals it, and reopening does not undo that.  So
    [NotifyLEO] reports new data at once to every reader that asks to wait at the
    end of the log, although nothing was appended. *)
Theorem truncate_seals_active fuel l gss fs o :
  inv l (gss ++ [fs]) → BaseOffset (active l) < o < NextOffset (active l) → (length fs < fuel)%nat →
  ∃ l', Truncate fuel cut_calm l o = Some (l', Ok ()) ∧ sealed (active l') = true ∧
    ∀ w, w ∉ waiters (active l') → (NotifyLEO l' w (NewestOffset l')).2 = true.
Proof.
  intros Hi Ho Hfu. destruct (inv_active _ _ Hi) as (gss' & fs' & E & Hold & Hs).
  apply app_inj_tail in E as [<- <-]. apply Forall2_length in Hold.
  destruct (Truncate_replaces fuel l gss fs [] (older l) (active l) [] o) as (x & -> & _ & _ & Hsl); try done.
  - apply (find_active l _ o Hi). lia.
  - left. lia.
  - eexists. split; [done|].
    destruct (cut_log_spec l (files l ∖ list_to_set (BaseOffset <$> [])) (older l) x o) as (_ & _ & Ex & _).
    unfold NotifyLEO. rewrite Ex. split; [done|]. intros w Hw. unfold WaitForLEO, waitForData.
    rewrite Hsl, bool_decide_eq_false_2 by done. by destruct (_ || _).
Qed.

End trims.

(** ** Examples *)

Lemma truncate_refines_witness :
  ∃ l' fss, @Truncate half_lib 9 cut_calm aged_log 4101 = Some (l', Ok ()) ∧ @inv half_lib l' fss ∧
    concat fss = [sample_frame 4100].
Proof.
  destruct (@truncate_refines half_lib half_laws 9 aged_log [sample_frames] 4101)
    as (l' & fss & E & Hi & Hc & _).
  - apply aged_log_inv.
  - apply sample_lengths.
  - exists l', fss. split; [exact E|]. split; [exact Hi|]. rewrite Hc. reflexivity.
Defined.

Lemma truncate_before_concurrent_witness :
  ∃ l p l' fss, @checkAndPerformSplit half_lib 1 (calm 1700002000) aged_log = Some (l, Ok true) ∧
    @plan_trim half_lib 9 cut_calm l 4102 = Some (Ok (Some p)) ∧
    publish_trim cut_calm l p 4102 = (l', Ok ()) ∧ @inv half_lib l' fss ∧
    concat fss = drop 2 sample_frames.
Proof.
  destruct (@roll_ok half_lib 1 1700002000 aged_log [sample_frames]) as (l & b & fss & E & Hi & _ & _ & Eb & Hb).
  - apply aged_log_inv.
  - lia.
  - vm_compute in Eb. subst b fss. exists l.
    destruct (@truncate_before_concurrent half_lib half_laws 9 l [sample_frames; []] l [sample_frames; []] 4102)
      as (p & l' & fss & Ep & El & Hi' & _ & Hc).
    + exact Hi.
    + exact Hi.
    + exact (@grown_refl half_lib _ _ Hi).
    + repeat constructor.
    + lia.
    + exists p, l', fss. split; [exact E|]. split; [exact Ep|]. split; [exact El|]. split; [exact Hi'|].
      assert (Hn : length (older l) = 1%nat).
      { destruct Hi as (Hs & _). apply Forall2_length in Hs. rewrite length_segments in Hs. cbn in Hs. lia. }
      rewrite Hc, Hn. reflexivity.
Defined.

Lemma truncate_seals_active_witness :
  ∃ l', @Truncate half_lib 9 cut_calm aged_log 4101 = Some (l', Ok ()) ∧ sealed (active l') = true.
Proof.
  destruct (@truncate_seals_active half_lib half_laws 9 aged_log [] sample_frames 4101) as (l' & E & Hs & _).
  - apply aged_log_inv.
  - vm_compute. done.
  - vm_compute. lia.
  - exists l'. split; [exact E|exact Hs].
Defined.

End LogTruncate.
