(* ===== verification/LogWait.v ===== *)
(** * Readers that wait for the high watermark

    A committed reader that has read up to the watermark it knows of asks
    [waitForHW]; it is answered at once when the watermark has moved or the log
    is read-only and has nothing more, and is registered otherwise.  The steps
    below are the operations that move the watermark, the end of the log or the
    read-only flag, each of which runs under the log's lock.  The theorems show
    that a registered reader has nothing to be told, and where that fails. *)

From Stdlib Require Import ZArith Lia.
From stdpp Require Import base list numbers strings gmap sorting.
From coqutil Require Import Byte.
From S2P Require Import Prelude GoStd Text Wire Compress BlockV3 Block Framing EpochCache Index.
From S2P Require Import Segment SegmentIndex SegmentSearch SegmentReopen Log LogAppend LogRead.
From S2P Require Import SegmentRewrite LogTruncate.

Open Scope Z_scope.

Module LogWait.
Import Segment SegmentIndex SegmentSearch SegmentReopen Log LogAppend LogRead SegmentRewrite LogTruncate.

(** ** Steps *)

(** The log, and the watermark each registered reader asked about. *)
Record state := { log : commitLog; asked : gmap Z Z }.

Section steps.
Context `{CodecLaws}.

(** The fuel suffices for every segment. *)
Definition enough (fuel : nat) (l : commitLog) : Prop :=
  ∃ fss, inv l fss ∧ Forall (λ fs, (length fs < fuel)%nat) fss.

(** The operations, with nothing failing and records that fit; [cuts] says
    whether [Truncate] is among them. *)
Inductive step (cuts : bool) : state → state → Prop :=
| step_set l g h : step cuts {| log := l; asked := g |} {| log := SetHighWatermark l h; asked := g |}
| step_override l g h :
    step cuts {| log := l; asked := g |} {| log := OverrideHighWatermark l h; asked := g |}
| step_readonly l g b : step cuts {| log := l; asked := g |} {| log := SetReadonly l b; asked := g |}
| step_wait l g r h l' b :
    waitForHW l r h = (l', b) →
    step cuts {| log := l; asked := g |}
      {| log := l'; asked := match b with None => <[ r := h ]> g | Some _ => g end |}
| step_leave l g r : step cuts {| log := l; asked := g |} {| log := removeHWWaiter l r; asked := g |}
| step_append l g fuel t msgs l' a :
    batch_fits t l msgs → Append fuel (calm t) l msgs = Some (l', a) →
    step cuts {| log := l; asked := g |} {| log := l'; asked := g |}
| step_append_set l g fuel t new l' a :
    fits_log l new → AppendMessageSet fuel (calm t) l (fs_bytes new) = Some (l', a) →
    step cuts {| log := l; asked := g |} {| log := l'; asked := g |}
| step_before l g fuel o l' a :
    enough fuel l → TruncateBefore fuel cut_calm l o = Some (l', a) →
    step cuts {| log := l; asked := g |} {| log := l'; asked := g |}
| step_truncate l g fuel o l' a :
    cuts = true → enough fuel l → Truncate fuel cut_calm l o = Some (l', a) →
    step cuts {| log := l; asked := g |} {| log := l'; asked := g |}.

Definition steps (cuts : bool) : state → state → Prop := rtc (step cuts).

(** The log is well formed and every registered reader knows the present
    watermark. *)
Definition informed (x : state) : Prop :=
  (∃ fss, inv (log x) fss) ∧ ∀ r, r ∈ hwWaiters (log x) → asked x !! r = Some (hw (log x)).

(** No reader waits on a read-only log that has nothing more to commit. *)
Definition settled (x : state) : Prop :=
  hwWaiters (log x) ≠ ∅ → readonly (log x) = true → hw (log x) < NewestOffset (log x).

(** ** What the steps do *)

(** A step on the log: the watermark stays for those still registered, the end
    of the log does not go back. *)
Definition quiet (l l' : commitLog) : Prop :=
  (∃ fss, inv l' fss) ∧ readonly l' = readonly l ∧
  (hwWaiters l' = ∅ ∨ hwWaiters l' = hwWaiters l ∧ hw l' = hw l) ∧ NewestOffset l ≤ NewestOffset l'.

Lemma quiet_rolled l l' fss' : inv l' fss' → rolled l l' → quiet l l'.
Proof.
  intros Hi ((Er & Eh & _ & _ & _ & _ & Ew & _) & En & _). split; [by exists fss'|]. split; [done|].
  split; [by right|]. unfold NewestOffset. by rewrite En.
Qed.

Lemma quiet_appended l fss l' new :
  inv l fss → appended l fss new l' → new ≠ [] → Forall (λ f, NextOffset (active l) ≤ f_off f) new → quiet l l'.
Proof.
  intros Hi (fss' & Hi' & _ & (Er & Eh & _ & _ & Ew) & _ & En) Hne Hab. split; [by exists fss'|]. split; [done|].
  split.
  - destruct new as [|f new]; [done|]. specialize (Ew f eq_refl).
    destruct (_ <=? _) in Ew; destruct Ew as [-> _]; [by left|by right].
  - destruct (newest_ok _ _ Hi) as (_ & -> & _), (newest_ok _ _ Hi') as (_ & -> & _). rewrite En.
    unfold next_of. destruct (last new) as [f|] eqn:El; [|by apply last_None in El].
    apply last_Some_elem_of in El. eapply Forall_forall in Hab; [|exact El]. cbv beta in Hab. lia.
Qed.

Lemma quiet_append l fss fuel t msgs l' a :
  inv l fss → batch_fits t l msgs → Append fuel (calm t) l msgs = Some (l', a) → quiet l l'.
Proof.
  intros Hi Hb E. destruct (readonly l) eqn:Er.
  - unfold Append, IsReadonly in E. rewrite Er in E. injection E as <- _. split; [by exists fss|].
    split; [done|]. split; [by right|lia].
  - destruct fuel as [|fuel].
    { unfold Append, IsReadonly in E. by rewrite Er in E. }
    pose proof (batch_fits_log t l fss msgs Hi Hb) as Hfit. destruct Hb as (Hne & Hbo & He & Ht & Hn & _).
    destruct (Append_frames (S fuel) t l fss msgs) as (l1 & E1 & Hap); try done;
      [lia|by apply stamp_ok|by apply stamp_encodable|].
    rewrite E1 in E. injection E as <- _. eapply quiet_appended; [done|done|by destruct Hfit|].
    destruct (batch_frames_between (NextOffset (active l)) (stamp t <$> msgs)) as [Hf _].
    eapply Forall_impl; [exact Hf|]. simpl. lia.
Qed.

Lemma quiet_append_set l fss fuel t new l' a :
  inv l fss → fits_log l new → AppendMessageSet fuel (calm t) l (fs_bytes new) = Some (l', a) → quiet l l'.
Proof.
  intros Hi Hfit E. destruct fuel as [|fuel]; [done|].
  destruct (newest_ok _ _ Hi) as (_ & En & _).
  destruct (checkAppendedSet_refuses (NewestOffset l) (entries_at 0 new) (zlen (fs_bytes new))) as [Ec|[m Ec]].
  - apply checkAppendedSet_frames in Ec as (_ & Hab & Ha).
    destruct (AppendMessageSet_frames (S fuel) t l fss new) as (l1 & E1 & Hap); try done; [lia|].
    rewrite E1 in E. injection E as <- _. eapply quiet_appended; [done|done|by destruct Hfit|].
    eapply Forall_impl; [exact Hab|]. simpl. lia.
  - destruct (AppendMessageSet_refused (S fuel) t l fss new) as (l1 & fss1 & m' & E1 & Hi1 & _ & Hr); try done; [lia| |].
    { intros [Ha Hab]. pose proof Hfit as (Hne & _).
      by rewrite (proj2 (checkAppendedSet_frames (NewestOffset l) 0 new)) in Ec. }
    rewrite E1 in E. injection E as <- _. by eapply quiet_rolled.
Qed.

Lemma quiet_before l fuel o l' a :
  enough fuel l → TruncateBefore fuel cut_calm l o = Some (l', a) → quiet l l'.
Proof.
  intros (fss & Hi & Hfuel) E. destruct (Z.leb_spec o 0) as [Ho|Ho].
  - unfold TruncateBefore, plan_trim in E. pose proof Hi as (_ & _ & _ & _ & Hcl & _).
    rewrite Hcl, (proj2 (Z.leb_le _ _) Ho) in E. injection E as <- _. split; [by exists fss|].
    split; [done|]. split; [by right|lia].
  - destruct (TruncateBefore_frames fuel l fss l fss o) as (p & l1 & fss1 & Ep & E1 & Hi1 & Ht & _); try done;
      [by apply grown_refl|].
    unfold TruncateBefore in E. rewrite Ep, E1 in E. injection E as <- _.
    destruct Ht as ((Er & _ & _ & Eh & _ & Ew & _) & En). split; [by exists fss1|]. split; [done|].
    split; [by right|lia].
Qed.

(** [Truncate] wakes the waiting readers when it moves the watermark; it may
    move the end of the log alone. *)
Lemma truncate_wakes l fuel o l' a :
  enough fuel l → Truncate fuel cut_calm l o = Some (l', a) →
  (∃ fss, inv l' fss) ∧ (hwWaiters l' = ∅ ∨ hwWaiters l' = hwWaiters l ∧ hw l' = hw l).
Proof.
  intros (fss & Hi & Hfuel) E. destruct (Truncate_frames fuel l fss o Hi Hfuel) as (l1 & fss1 & E1 & Hi1 & _ & Hc & _).
  rewrite E1 in E. injection E as <- _. split; [by exists fss1|]. destruct (o <? _); [|subst l1; by right].
  destruct Hc as (_ & _ & _ & _ & Eh & Hw). destruct (Z.ltb_spec (NewestOffset l1) (hw l)); destruct Hw as [-> _];
    [by left|]. right. split; [done|]. lia.
Qed.

Lemma waitForHW_log l r h l' b :
  waitForHW l r h = (l', b) →
  (∀ fss, inv l fss → inv l' fss) ∧ hw l' = hw l ∧ readonly l' = readonly l ∧ NewestOffset l' = NewestOffset l ∧
  match b with
  | Some _ => hwWaiters l' = hwWaiters l
  | None => hwWaiters l' = {[ r ]} ∪ hwWaiters l ∧ hw l = h ∧ (readonly l = true → hw l < NewestOffset l)
  end.
Proof.
  unfold waitForHW, IsReadonly. destruct (Z.eqb_spec (hw l) h) as [<-|Hh]; cbn [negb].
  2: { intros [= <- <-]. by split_and!. }
  destruct (Z.leb_spec (NewestOffset l) (hw l)); destruct (readonly l) eqn:Er; cbn [andb]; intros [= <- <-];
    cbn [with_hw hw readonly hwWaiters]; by split_and!.
Qed.

(** Every step but [waitForHW] keeps those still registered as they were. *)
Definition woken (l l' : commitLog) : Prop :=
  (∃ fss, inv l' fss) ∧ (hwWaiters l' = ∅ ∨ hwWaiters l' ⊆ hwWaiters l ∧ hw l' = hw l).

Lemma quiet_woken l l' : quiet l l' → woken l l'.
Proof. intros (Hi & _ & [Hw|[Hw Hh]] & _); (split; [done|]); [by left|right]. by rewrite Hw. Qed.

Lemma set_woken l fss h : inv l fss → woken l (SetHighWatermark l h).
Proof.
  intros Hi. unfold SetHighWatermark. destruct (hw l <? h); (split; [exists fss; exact Hi|]); [by left|by right].
Qed.

Lemma readonly_woken l fss b : inv l fss → woken l (SetReadonly l b).
Proof.
  intros Hi. unfold SetReadonly. destruct b; [|split; [exists fss; exact Hi|by right]].
  unfold notifyReadonly. destruct (_ <? _); (split; [exists fss; exact Hi|]); [by right|by left].
Qed.

Lemma leave_woken l fss r : inv l fss → woken l (removeHWWaiter l r).
Proof. intros Hi. split; [exists fss; exact Hi|]. right. split; [|done]. cbn. apply subseteq_difference_l. done. Qed.

Lemma woken_informed l l' g :
  woken l l' → informed {| log := l; asked := g |} → informed {| log := l'; asked := g |}.
Proof.
  intros (Hi & Hw) [_ Hx]. split; [done|]. intros r Hr. cbn [log asked] in *.
  destruct Hw as [Ew|[Hsub ->]]; [rewrite Ew in Hr; by apply elem_of_empty in Hr|]. by apply Hx, Hsub.
Qed.

Lemma step_informed cuts x y : step cuts x y → informed x → informed y.
Proof.
  intros Hs Hx. pose proof Hx as [[fss Hi] Hask].
  destruct Hs as [l g h|l g h|l g b|l g r h l' b E|l g r|l g fuel t msgs l' a Hb E
    |l g fuel t new l' a Hb E|l g fuel o l' a Hf E|l g fuel o l' a _ Hf E]; cbn [log asked] in *.
  4: { destruct (waitForHW_log _ _ _ _ _ E) as (Hinv & Eh & _ & _ & Hw). split; [exists fss; by apply Hinv|].
       intros q Hq. cbn [log asked] in *. rewrite Eh. destruct b; [rewrite Hw in Hq; by apply Hask|].
       destruct Hw as (Ew & <- & _). rewrite Ew, elem_of_union, elem_of_singleton in Hq.
       destruct (decide (q = r)) as [->|Hne]; [by rewrite lookup_insert_eq|].
       rewrite lookup_insert_ne by done. apply Hask. by destruct Hq. }
  all: apply (woken_informed l); [|done].
  - by eapply set_woken.
  - split; [exists fss; exact Hi|by left].
  - by eapply readonly_woken.
  - by eapply leave_woken.
  - by eapply quiet_woken, quiet_append.
  - by eapply quiet_woken, quiet_append_set.
  - by eapply quiet_woken, quiet_before.
  - destruct (truncate_wakes _ _ _ _ _ Hf E) as [Hi' [Hw|[Hw Hh]]]; (split; [done|]); [by left|right].
    by rewrite Hw.
Qed.

Lemma quiet_settled l l' g :
  quiet l l' → settled {| log := l; asked := g |} → settled {| log := l'; asked := g |}.
Proof.
  intros (_ & Er & Hw & Hn) Hx Hne Hro. cbn [log] in *. destruct Hw as [Hw|[Ew Eh]]; [done|].
  rewrite Ew in Hne. rewrite Er in Hro. specialize (Hx Hne Hro). cbn [log] in Hx. lia.
Qed.

Lemma step_settled x y : step false x y → informed x → settled x → settled y.
Proof.
  intros Hs [[fss Hi] _] Hx.
  destruct Hs as [l g h|l g h|l g b|l g r h l' b E|l g r|l g fuel t msgs l' a Hb E
    |l g fuel t new l' a Hb E|l g fuel o l' a Hf E|l g fuel o l' a Hc Hf E]; cbn [log] in *.
  - unfold settled, SetHighWatermark. cbn [log]. by destruct (hw l <? h).
  - by intros ?.
  - unfold settled, SetReadonly in *. cbn [log] in *. destruct b; [|done]. unfold notifyReadonly.
    destruct (Z.ltb_spec (hw (with_readonly l true)) (NewestOffset (with_readonly l true))); [done|by intros ?].
  - destruct (waitForHW_log _ _ _ _ _ E) as (_ & Eh & Er & En & Hw). unfold settled in *. cbn [log] in *.
    rewrite Eh, Er, En. destruct b; [by rewrite Hw|]. destruct Hw as (_ & _ & Hw). done.
  - unfold settled in *. cbn [log] in *. cbn [removeHWWaiter with_hw hwWaiters readonly hw]. intros Hne.
    apply Hx. intros E. apply Hne. rewrite E. apply set_eq. intros q. rewrite elem_of_difference, !elem_of_empty. tauto.
  - eapply quiet_settled; [by eapply quiet_append|done].
  - eapply quiet_settled; [by eapply quiet_append_set|done].
  - eapply quiet_settled; [by eapply quiet_before|done].
  - done.
Qed.

(** ** Properties *)

(** C6: The log stays well formed under its operations.  Whatever sequence of
    appends, watermark moves, waits, truncations of the tail and of the front is
    applied, every segment stores, indexes and bounds the records it should, the
    segments are in offset order with a file for each, and every reader still
    registered for the watermark asked about the value it has now. *)
Theorem log_well_formed x y : steps true x y → informed x → informed y.
Proof. induction 1 as [|x y z Hs _ IH]; [done|]. intros Hx. by eapply IH, step_informed. Qed.


(** A truncation strands readers of a read-only log.  Cutting the tail down
    to exactly the watermark leaves everything committed; the watermark does not
    move, so nobody is woken, although a reader that asks from now on is told at
    once that the log has ended. *)
Theorem truncate_strands_reader fuel l gss fs f r :
  inv l (gss ++ [fs]) → f ∈ fs → f_off f = hw l → hw l < NewestOffset l → readonly l = true →
  r ∈ hwWaiters l → Forall (λ fs, (length fs < fuel)%nat) (gss ++ [fs]) →
  ∃ l', Truncate fuel cut_calm l (hw l + 1) = Some (l', Ok ()) ∧ r ∈ hwWaiters l' ∧
    NewestOffset l' = hw l' ∧ ∀ q, waitForHW l' q (hw l') = (l', Some true).
Proof.
  intros Hi Hf Ef Hn Hro Hr Hfuel. destruct (newest_ok _ _ Hi) as (_ & En & _).
  destruct (inv_active _ _ Hi) as (gss' & fs' & E & _ & Hs). apply app_inj_tail in E as [<- <-].
  pose proof (seg_range _ _ _ f Hs Hf) as Hrg.
  destruct (Truncate_frames fuel l _ (hw l + 1) Hi Hfuel) as (l' & fss' & E & Hi' & Ec & Hc & _ & _ & Hend).
  rewrite (proj2 (Z.ltb_lt _ _)) in Hc by lia. destruct Hc as (Er & _ & _ & _ & Eh & Hw).
  assert (Hle : NextOffset (active l') ≤ hw l + 1).
  { apply Hend. exists (active l). split; [apply elem_of_app; right; by left|lia]. }
  destruct (newest_ok _ _ Hi') as (_ & En' & _).
  assert (Hge : hw l < NextOffset (active l')).
  { assert (Hin : f ∈ concat fss').
    { rewrite Ec, concat_app. apply list_elem_of_filter. split; [lia|]. apply elem_of_app. right. cbn. by rewrite app_nil_r. }
    destruct (inv_all_frames l' fss' f Hi' Hin) as (Hlt & _). lia. }
  exists l'. split; [done|]. rewrite (proj2 (Z.ltb_ge _ _)) in Hw by lia. destruct Hw as [-> _].
  split; [done|]. split; [lia|]. intros q. unfold waitForHW, IsReadonly. rewrite Z.eqb_refl, Er, Hro.
  by rewrite (proj2 (Z.leb_le _ _)) by lia.
Qed.

End steps.

(** ** Examples *)

Definition aged : state := {| log := aged_log; asked := ∅ |}.

Definition aged_waiting : state :=
  {| log := (waitForHW aged_log 1 4099).1; asked := <[ 1 := 4099 ]> ∅ |}.

Lemma aged_informed : @informed half_lib aged ∧ settled aged.
Proof.
  split; [|by intros ?]. split; [exists [sample_frames]; apply aged_log_inv|].
  intros r Hr. by apply elem_of_empty in Hr.
Qed.

Lemma aged_waits cuts : @steps half_lib cuts aged aged_waiting.
Proof. apply rtc_once. apply (step_wait cuts aged_log ∅ 1 4099 _ None). reflexivity. Qed.

Lemma log_well_formed_witness :
  @informed half_lib {| log := SetHighWatermark (log aged_waiting) 4101; asked := asked aged_waiting |}.
Proof.
  apply (@log_well_formed half_lib half_laws aged).
  - eapply rtc_r; [exact (aged_waits true)|]. exact (step_set true (log aged_waiting) (asked aged_waiting) 4101).
  - apply aged_informed.
Defined.


(** A read-only log with a record past the watermark and a reader waiting. *)
Definition ended_log : commitLog := with_readonly (with_hw aged_log 4101 {[ 1 ]} ∅) true.

Lemma truncate_strands_reader_witness :
  ∃ l', @Truncate half_lib 9 cut_calm ended_log 4102 = Some (l', Ok ()) ∧ 1 ∈ hwWaiters l' ∧
    NewestOffset l' = hw l'.
Proof.
  destruct (@truncate_strands_reader half_lib half_laws 9 ended_log [] sample_frames (sample_frame 4101) 1)
    as (l' & E & Hr & Hn & _).
  - exact aged_log_inv.
  - right. left.
  - reflexivity.
  - vm_compute. reflexivity.
  - reflexivity.
  - change (1 ∈ ({[ 1 ]} : gset Z)). by apply elem_of_singleton.
  - apply sample_lengths.
  - exists l'. split; [exact E|]. split; [exact Hr|exact Hn].
Defined.

End LogWait.
