(* ===== verification/LogEpochs.v ===== *)
(** * Leader epochs of the log

    An append records each new leader epoch with the offset before its first
    record; a follower asks [LastOffsetForLeaderEpoch] where the records of an
    epoch end, and truncates there.  This file relates the history to the records
    of the log: which answers are exact, and where the two truncations make them
    wrong. *)

From Stdlib Require Import ZArith Lia.
From stdpp Require Import base list numbers strings gmap sorting.
From coqutil Require Import Byte.
From S2P Require Import Prelude GoStd Text Wire Compress BlockV3 Block Framing EpochCache Index.
From S2P Require Import Segment SegmentIndex SegmentSearch SegmentReopen Log LogAppend LogRead.
From S2P Require Import SegmentRewrite LogTruncate.

Open Scope Z_scope.

Module LogEpochs.
Import Segment SegmentIndex SegmentSearch SegmentReopen Log LogAppend LogRead SegmentRewrite LogTruncate.

#[local] Abbreviation hist := (list EpochCache.epochOffset).
#[local] Abbreviation ep := EpochCache.leaderEpoch.
#[local] Abbreviation at_ := EpochCache.assignedAtOffset.

(** ** Exact histories *)

(** Each entry separates the records below its epoch from the others, at the
    offset of a record or before the log's first segment; the epoch of every
    record but 0 is recorded. *)
Definition exact (es : hist) (b : Z) (fs : list frm) : Prop :=
  (∀ e, e ∈ es → (∀ f, f ∈ fs → f_off f ≤ at_ e ↔ f_ep f < ep e) ∧
                 (at_ e < b ∨ ∃ f, f ∈ fs ∧ f_off f = at_ e)) ∧
  (∀ f, f ∈ fs → f_ep f = 0 ∨ ∃ e, e ∈ es ∧ ep e = f_ep f).

(** The newest recorded epoch. *)
Definition newest_epoch (es : hist) : Z := match last es with None => 0 | Some e => ep e end.

Lemma newest_epoch_ge es e : EpochCache.inv es → e ∈ es → ep e ≤ newest_epoch es.
Proof.
  intros [Hs _] He. unfold newest_epoch. destruct (last es) as [x|] eqn:El.
  - destruct (EpochCache.last_entry es e x Hs He El) as [->|[? _]]; lia.
  - apply last_None in El as ->. by apply not_elem_of_nil in He.
Qed.

Lemma exact_epoch_le es b fs f : EpochCache.inv es → exact es b fs → f ∈ fs → f_ep f ≤ newest_epoch es.
Proof.
  intros Hi [_ Hr] Hf. destruct (Hr f Hf) as [E|(e & He & <-)]; [|by apply newest_epoch_ge].
  rewrite E. unfold newest_epoch. destruct (last es) as [x|] eqn:El; [|done].
  apply last_Some_elem_of in El. destruct Hi as [_ Ho]. eapply Forall_forall in Ho; [|exact El].
  destruct Ho as [[? _] _]. done.
Qed.

(** One more record, of the newest epoch. *)
Lemma exact_same es b fs f :
  EpochCache.inv es → exact es b fs → f_ep f = newest_epoch es → (∀ e, e ∈ es → at_ e < f_off f) →
  exact es b (fs ++ [f]).
Proof.
  intros Hi Hex Ef Hat. pose proof Hex as [He Hr]. split.
  - intros e Hin. destruct (He e Hin) as [Hs Hw]. split.
    + intros g [Hg|Hg%list_elem_of_singleton]%elem_of_app; [by apply Hs|]. subst g.
      pose proof (Hat e Hin). pose proof (newest_epoch_ge es e Hi Hin). lia.
    + destruct Hw as [Hw|(g & Hg & Eg)]; [by left|right]. exists g. split; [apply elem_of_app; by left|done].
  - intros g [Hg|Hg%list_elem_of_singleton]%elem_of_app; [by apply Hr|]. subst g. rewrite Ef. unfold newest_epoch.
    destruct (last es) as [x|] eqn:El; [|by left]. right. exists x. by split; [apply last_Some_elem_of|].
Qed.

(** A new epoch from [anchor] on. *)
Lemma exact_entry es b fs epoch anchor :
  EpochCache.inv es → exact es b fs → newest_epoch es < epoch → (∀ g, g ∈ fs → f_off g ≤ anchor) →
  anchor < b ∨ (∃ g, g ∈ fs ∧ f_off g = anchor) →
  exact (es ++ [{| EpochCache.leaderEpoch := epoch; EpochCache.assignedAtOffset := anchor |}]) b fs.
Proof.
  intros Hi Hex Hlt Hfs Hw. pose proof Hex as [He Hr]. split.
  - intros e [Hin|Hin%list_elem_of_singleton]%elem_of_app; [by apply He|]. subst e.
    cbn [EpochCache.leaderEpoch EpochCache.assignedAtOffset]. split; [|done]. intros g Hg.
    pose proof (Hfs g Hg). pose proof (exact_epoch_le es b fs g Hi Hex Hg). lia.
  - intros g Hg. destruct (Hr g Hg) as [E|(e & Hin & E)]; [by left|right]. exists e.
    split; [apply elem_of_app; by left|done].
Qed.

Lemma assigned_new es epoch anchor :
  newest_epoch es < epoch → (∀ e, e ∈ es → at_ e ≤ anchor) →
  EpochCache.assigned es epoch anchor =
    es ++ [{| EpochCache.leaderEpoch := epoch; EpochCache.assignedAtOffset := anchor |}].
Proof.
  unfold EpochCache.assigned, newest_epoch. intros Hlt Hat. destruct (last es) as [e|] eqn:El.
  - rewrite (proj2 (Z.ltb_lt _ _) Hlt), (proj2 (Z.leb_le _ _)); [done|]. apply Hat. by apply last_Some_elem_of.
  - by apply last_None in El as ->.
Qed.

(** Cutting the tail. *)
Lemma exact_cut es b fs o :
  exact es b fs → exact (filter (λ e, at_ e < o) es) b (below o fs).
Proof.
  intros [He Hr]. split.
  - intros e [Hat Hin]%list_elem_of_filter. destruct (He e Hin) as [Hs Hw]. split.
    + intros f [_ Hf]%list_elem_of_filter. by apply Hs.
    + destruct Hw as [Hw|(g & Hg & Eg)]; [by left|right]. exists g. split; [|done].
      apply list_elem_of_filter. split; [lia|done].
  - intros f [Hof Hf]%list_elem_of_filter. destruct (Hr f Hf) as [E|(e & Hin & E)]; [by left|right].
    exists e. split; [|done]. apply list_elem_of_filter. split; [|done].
    destruct (He e Hin) as [Hs _]. specialize (Hs f Hf). rewrite E in Hs. lia.
Qed.

(** ** Appends *)

(** The epochs of a set do not go down, from [last] on. *)
Fixpoint epochs_rise (last : Z) (new : list frm) : Prop :=
  match new with
  | [] => True
  | f :: new => last ≤ f_ep f ∧ epochs_rise (f_ep f) new
  end.

(** The newest offset of a log that starts at [b] and holds [fs]. *)
Definition newest_at (b : Z) (fs : list frm) (anchor : Z) : Prop :=
  (∀ g, g ∈ fs → f_off g ≤ anchor) ∧ (anchor < b ∨ ∃ g, g ∈ fs ∧ f_off g = anchor).

Lemma newest_at_snoc b fs anchor f :
  newest_at b fs anchor → anchor < f_off f → newest_at b (fs ++ [f]) (f_off f).
Proof.
  intros [Hg _] Hf. split.
  - intros g [Hin|Hin%list_elem_of_singleton]%elem_of_app; [pose proof (Hg g Hin); lia|subst g; lia].
  - right. exists f. split; [apply elem_of_app; right; by apply list_elem_of_singleton|done].
Qed.

Lemma assign_exact c b fs anchor f pos new last :
  let es := EpochCache.epochOffsets c in
  EpochCache.inv es → exact es b fs → newest_at b fs anchor → (∀ e, e ∈ es → at_ e ≤ anchor) →
  last = newest_epoch es → epochs_rise last (f :: new) → ascending (f :: new) → anchor < f_off f →
  in_uint 64 (f_ep f) → in_sint 64 anchor →
  ∃ c', assign_epochs EpochCache.Written c last anchor (entries_at pos (f :: new)) =
        assign_epochs EpochCache.Written c' (newest_epoch (EpochCache.epochOffsets c')) (f_off f)
          (entries_at (pos + zlen (fbytes f)) new) ∧
    newest_epoch (EpochCache.epochOffsets c') = f_ep f ∧
    EpochCache.inv (EpochCache.epochOffsets c') ∧ exact (EpochCache.epochOffsets c') b (fs ++ [f]) ∧
    (∀ e, e ∈ EpochCache.epochOffsets c' → at_ e ≤ anchor).
Proof.
  intros es Hi Hex [Hfs Hw] Hat -> [Hle _] _ Hlt Hep Han. cbn [entries_at assign_epochs scanned e_LeaderEpoch e_Offset].
  destruct (Z.ltb_spec (newest_epoch es) (f_ep f)) as [Hnew|Hsame].
  - pose proof (EpochCache.assign_epochs EpochCache.Written c (f_ep f) anchor) as Ea.
    pose proof (assign_written c (f_ep f) anchor) as Ew. unfold EpochCache.Assign in *.
    destruct (EpochCache.assign _ _ _ _) as [c' ok]. cbn [fst snd] in *. subst ok.
    fold es in Ea. pose proof (EpochCache.inv_assigned es (f_ep f) anchor Hi Hep Han) as Hi'.
    rewrite <- Ea in Hi'. rewrite assigned_new in Ea by done.
    assert (En : newest_epoch (EpochCache.epochOffsets c') = f_ep f) by (rewrite Ea; unfold newest_epoch; by rewrite last_snoc).
    exists c'. rewrite En. split; [done|]. split; [done|]. split; [done|]. rewrite Ea in *.
    split; [apply exact_same; [done|by apply exact_entry|done|]|];
      intros e [Hin|Hin%list_elem_of_singleton]%elem_of_app; try (specialize (Hat e Hin); lia); subst e; simpl; lia.
  - exists c. assert (E : f_ep f = newest_epoch es) by lia. fold es. split; [done|]. split; [done|]. split; [done|].
    split; [|done]. apply exact_same; try done. intros e He. specialize (Hat e He). lia.
Qed.

Lemma assign_all_exact c b fs anchor pos new :
  let es := EpochCache.epochOffsets c in
  EpochCache.inv es → exact es b fs → newest_at b fs anchor → (∀ e, e ∈ es → at_ e ≤ anchor) →
  epochs_rise (newest_epoch es) new → ascending new → Forall (λ f, anchor < f_off f) new →
  Forall (λ f, in_uint 64 (f_ep f) ∧ in_sint 64 (f_off f)) new → in_sint 64 anchor →
  let es' := EpochCache.epochOffsets
    (assign_epochs EpochCache.Written c (newest_epoch es) anchor (entries_at pos new)).1 in
  EpochCache.inv es' ∧ exact es' b (fs ++ new) ∧ newest_epoch es ≤ newest_epoch es'.
Proof.
  revert c fs anchor pos. induction new as [|f new IH]; intros c fs anchor pos es Hi Hex Hn Hat Hr Ha Hab Hok Han.
  { cbn [entries_at assign_epochs fst]. rewrite app_nil_r. by split_and!. }
  apply Forall_cons in Hab as [Hf Hab], Hok as [[Hep Hof] Hok].
  destruct (assign_exact c b fs anchor f pos new (newest_epoch es)) as (c' & -> & En & Hi' & Hex' & Hat'); try done.
  destruct Hr as [Hle Hr]. inversion Ha as [|? ? Ha' Hx]; subst.
  rewrite (cons_middle f fs new), app_assoc. pose proof (newest_at_snoc b fs anchor f Hn Hf) as Hn'.
  destruct (IH c' (fs ++ [f]) (f_off f) (pos + zlen (fbytes f))) as (H1 & H2 & H3); try done.
  - intros e He. specialize (Hat' e He). lia.
  - by rewrite En.
  - split; [done|]. split; [done|]. lia.
Qed.

(** ** The log *)

Section logs.
Context `{CodecLaws}.

Definition epochs_exact (l : commitLog) (fss : list (list frm)) : Prop :=
  EpochCache.inv (EpochCache.epochOffsets (epochs l)) ∧
  exact (EpochCache.epochOffsets (epochs l)) (first_base l) (concat fss).

Lemma log_newest_at l fss :
  inv l fss → seamless (segments l) → newest_at (first_base l) (concat fss) (NewestOffset l).
Proof.
  intros Hi Hsm. destruct (newest_ok l fss Hi) as (_ & -> & _). split.
  { intros g Hg. destruct (inv_all_frames l fss g Hi Hg) as (? & _). lia. }
  destruct (inv_active l fss Hi) as (gss & fs & -> & Ho & Hs). rewrite (seg_next _ _ _ Hs). unfold next_of.
  rewrite concat_app. destruct (last fs) as [f|] eqn:El.
  { right. exists f. split; [|lia]. apply elem_of_app. right. cbn. rewrite app_nil_r. by apply last_Some_elem_of. }
  unfold first_base, segments in *. destruct (older l) as [|s0 ss0] eqn:Eo; [left; cbn; lia|right].
  destruct (exists_last (l := s0 :: ss0)) as (a & s & Ea); [done|]. rewrite Ea in *.
  rewrite <- app_assoc in Hsm. apply seamless_app in Hsm as (_ & Hb & _).
  apply Forall2_app_inv_l in Ho as (ga & k & Hga & Hk & ->).
  apply Forall2_cons_inv_l in Hk as (fs' & k' & Hfs' & Hk & ->). apply Forall2_nil_inv_l in Hk as ->.
  destruct Hi as (_ & _ & _ & _ & _ & Hfu). rewrite removelast_last in Hfu.
  apply Forall_app in Hfu as [_ [Hne _]%Forall_cons].
  rewrite (seg_next _ _ _ Hfs') in Hb. unfold next_of in Hb.
  destruct (last fs') as [f|] eqn:El'; [|by apply last_None in El'].
  exists f. split; [|lia]. apply elem_of_app. left. rewrite concat_app. apply elem_of_app. right. cbn.
  rewrite app_nil_r. by apply last_Some_elem_of.
Qed.

Lemma entries_below l fss e :
  inv l fss → epochs_exact l fss → e ∈ EpochCache.epochOffsets (epochs l) → at_ e ≤ NewestOffset l.
Proof.
  intros Hi [_ [He _]] Hin. destruct (newest_ok l fss Hi) as (_ & -> & _). destruct (He e Hin) as [_ Hw].
  destruct Hw as [Hw|(g & Hg & <-)].
  - assert (first_base l ≤ NextOffset (active l)); [|lia].
    unfold first_base. destruct (segments l) as [|s ss] eqn:Es; [unfold segments in Es; by destruct (older l)|].
    pose proof Hi as (Hs & _). rewrite Es in Hs. apply Forall2_cons_inv_l in Hs as (fs & k & Hs & _).
    pose proof (seg_base_next _ _ _ Hs). pose proof (next_active l fss s Hi ltac:(rewrite Es; left)). lia.
  - destruct (inv_all_frames l fss g Hi Hg) as (? & _). lia.
Qed.

(** The answer is exact. *)
Lemma answer_exact l fss epoch :
  inv l fss → epochs_exact l fss → 0 ≤ epoch < 2 ^ 64 - 1 →
  ∃ o, LastOffsetForLeaderEpoch l (Some epoch) = Ok o ∧
    ∀ f, f ∈ concat fss → f_off f ≤ o ↔ f_ep f ≤ epoch.
Proof.
  intros Hi [Hes [He Hr]] Hep. unfold LastOffsetForLeaderEpoch. destruct (newest_ok l fss Hi) as (_ & En & _).
  rewrite (EpochCache.probe_ceiling _ _ (proj1 Hes) Hep). set (es := EpochCache.epochOffsets (epochs l)) in *.
  destruct (EpochCache.ceiling es epoch) as [o|] eqn:Ec.
  - exists o. split; [done|]. pose proof (EpochCache.ceiling_first es epoch o (proj1 Hes) Ec) as (e & Hin & <- & Hlt & Hmin).
    intros f Hf. destruct (He e Hin) as [Hs _]. rewrite (Hs f Hf). split; [|lia]. intros Hfe.
    destruct (Hr f Hf) as [E|(x & Hx & E)]; [lia|]. destruct (Z.le_gt_cases (f_ep f) epoch); [done|].
    specialize (Hmin x Hx ltac:(lia)). lia.
  - exists (NewestOffset l). split; [done|]. apply EpochCache.ceiling_None in Ec. intros f Hf.
    destruct (inv_all_frames l fss f Hi Hf) as (? & _). split; [|lia]. intros _.
    destruct (Hr f Hf) as [E|(x & Hx & E)]; [lia|]. eapply Forall_forall in Ec; [|exact Hx]. cbv beta in Ec. lia.
Qed.

(** A log without gaps between segments, whose history is exact. *)
Definition tracked (l : commitLog) : Prop :=
  ∃ fss, inv l fss ∧ seamless (segments l) ∧ epochs_exact l fss.

Lemma grown_start l fss l' fss' : grown l fss l' fss' → first_base l' = first_base l.
Proof.
  intros (_ & _ & [k Hp] & _). apply same_start. rewrite Hp. unfold segments. by destruct (older l).
Qed.

Lemma appended_tracked l fss new l' :
  inv l fss → seamless (segments l) → epochs_exact l fss → appended l fss new l' →
  epochs_rise (LastLeaderEpoch l) new → ascending new → Forall (λ f, NextOffset (active l) ≤ f_off f) new →
  Forall (λ f, in_uint 64 (f_ep f) ∧ f_off f < 2 ^ 63) new → tracked l'.
Proof.
  intros Hi Hsm Hex (fss' & Hi' & [Ec Hg] & (_ & _ & _ & Ee & _) & _) Hr Ha Hab Hok. exists fss'.
  split; [done|]. split; [by apply Hg|]. destruct (newest_ok l fss Hi) as (Hrg & En & _).
  pose proof Hex as [Hes Hx]. unfold epochs_exact. rewrite Ee, Ec, (grown_start _ _ _ _ Hg).
  destruct (assign_all_exact (epochs l) (first_base l) (concat fss) (NewestOffset l) 0 new) as (H1 & H2 & _); try done.
  - by apply log_newest_at.
  - intros e He. by eapply entries_below.
  - eapply Forall_impl; [exact Hab|]. simpl. lia.
  - apply Forall_forall. intros f Hf. pose proof (proj1 (Forall_forall _ _) Hab f Hf) as Hlo.
    pose proof (proj1 (Forall_forall _ _) Hok f Hf) as [? ?]. cbv beta in *. split; [done|]. unfold in_sint. lia.
  - unfold in_sint. lia.
Qed.

Lemma rolled_tracked l fss l' fss' :
  inv l fss → seamless (segments l) → epochs_exact l fss → inv l' fss' → concat fss' = concat fss →
  grown l fss l' fss' → same_log l l' → tracked l'.
Proof.
  intros Hi Hsm Hex Hi' Ec Hg (_ & _ & Ee & _). exists fss'. split; [done|]. split; [by apply Hg|].
  unfold epochs_exact. by rewrite Ee, Ec, (grown_start _ _ _ _ Hg).
Qed.

Lemma truncated_tracked fuel l fss o l' a :
  inv l fss → seamless (segments l) → epochs_exact l fss → Forall (λ fs, (length fs < fuel)%nat) fss →
  Truncate fuel cut_calm l o = Some (l', a) → tracked l'.
Proof.
  intros Hi Hsm [Hes Hx] Hfuel E.
  destruct (Truncate_frames fuel l fss o Hi Hfuel) as (l1 & fss1 & E1 & Hi1 & Ec & Hc & Hb & Hs & _).
  rewrite E1 in E. injection E as <- _. exists fss1. split; [done|]. split; [by apply Hs|].
  destruct (o <? NextOffset (active l)) eqn:Eo.
  - destruct Hc as (_ & _ & _ & Ee & _). unfold epochs_exact. rewrite Ee, Ec, Hb.
    rewrite EpochCache.ClearLatest_epochs by done. split; [by apply EpochCache.inv_filter|]. by apply exact_cut.
  - subst l1. split; [done|]. rewrite Ec, below_all; [done|]. apply Forall_forall. intros f Hf.
    destruct (inv_all_frames l fss f Hi Hf) as (? & _). apply Z.ltb_ge in Eo. lia.
Qed.

Lemma new_epoch_tracked l fss epoch :
  inv l fss → seamless (segments l) → epochs_exact l fss → LastLeaderEpoch l < epoch → in_uint 64 epoch →
  tracked (NewLeaderEpoch EpochCache.Written l epoch).1.
Proof.
  intros Hi Hsm [Hes Hx] Hlt Hep. unfold NewLeaderEpoch.
  pose proof (EpochCache.assign_epochs EpochCache.Written (epochs l) epoch (NewestOffset l)) as Ea.
  unfold EpochCache.Assign. destruct (EpochCache.assign _ _ _ _) as [c ok]. cbn [fst] in *.
  exists fss. split; [exact Hi|]. split; [exact Hsm|]. unfold epochs_exact. cbn [with_epochs epochs].
  change (first_base (with_epochs l c)) with (first_base l). destruct (newest_ok l fss Hi) as (Hrg & En & _).
  rewrite Ea. split; [apply EpochCache.inv_assigned; [done|done|unfold in_sint; lia]|].
  destruct (log_newest_at l fss Hi Hsm) as [Hna Hnw].
  rewrite assigned_new; [by apply exact_entry|done|]. intros e He. by eapply entries_below.
Qed.

(** ** Histories of a log *)

(** The operations of a log whose leaders' epochs do not go back: appends of
    batches and of sets, truncation, a new leader. *)
Inductive lead : commitLog → commitLog → Prop :=
| lead_append l fuel t msgs l' a :
    readonly l = false → batch_fits t l msgs →
    epochs_rise (LastLeaderEpoch l) (batch_frames (NextOffset (active l)) (stamp t <$> msgs)) →
    Append fuel (calm t) l msgs = Some (l', a) → lead l l'
| lead_append_set l fuel t new l' a :
    fits_log l new → epochs_rise (LastLeaderEpoch l) new →
    AppendMessageSet fuel (calm t) l (fs_bytes new) = Some (l', a) → lead l l'
| lead_truncate l fuel o l' a :
    (∀ fss, inv l fss → Forall (λ fs, (length fs < fuel)%nat) fss) →
    Truncate fuel cut_calm l o = Some (l', a) → lead l l'
| lead_epoch l epoch :
    LastLeaderEpoch l < epoch → in_uint 64 epoch → lead l (NewLeaderEpoch EpochCache.Written l epoch).1.

Lemma fits_fields l new : fits_log l new → Forall (λ f, in_uint 64 (f_ep f) ∧ f_off f < 2 ^ 63) new.
Proof. intros (_ & Hf & _). eapply Forall_impl; [exact Hf|]. simpl. intros f. intuition lia. Qed.

Lemma lead_tracked l l' : lead l l' → tracked l → tracked l'.
Proof.
  intros Hl (fss & Hi & Hsm & Hex). destruct Hl as [l fuel t msgs l' a Hro Hb Hr E|l fuel t new l' a Hfit Hr E
    |l fuel o l' a Hf E|l epoch Hlt Hep].
  - destruct fuel as [|fuel]; [unfold Append, IsReadonly in E; by rewrite Hro in E|].
    pose proof (batch_fits_log t l fss msgs Hi Hb) as Hfit. destruct Hb as (Hne & Hbo & He & Ht & Hn & _).
    destruct (Append_frames (S fuel) t l fss msgs) as (l1 & E1 & Hap); try done;
      [lia|by apply stamp_ok|by apply stamp_encodable|].
    rewrite E1 in E. injection E as <- _.
    destruct (batch_frames_between (NextOffset (active l)) (stamp t <$> msgs)) as [Hf Ha].
    eapply appended_tracked; [exact Hi|done|done|exact Hap|done|done| |by apply (fits_fields l)].
    eapply Forall_impl; [exact Hf|]. simpl. lia.
  - destruct fuel as [|fuel]; [done|]. destruct (newest_ok _ _ Hi) as (_ & En & _).
    destruct (checkAppendedSet_refuses (NewestOffset l) (entries_at 0 new) (zlen (fs_bytes new))) as [Ec|[m Ec]].
    + apply checkAppendedSet_frames in Ec as (_ & Hab & Ha).
      destruct (AppendMessageSet_frames (S fuel) t l fss new) as (l1 & E1 & Hap); try done; [lia|].
      rewrite E1 in E. injection E as <- _.
      eapply appended_tracked; [exact Hi|done|done|exact Hap|done|done| |by apply (fits_fields l)].
      eapply Forall_impl; [exact Hab|]. simpl. lia.
    + destruct (AppendMessageSet_refused (S fuel) t l fss new) as (l1 & fss1 & m' & E1 & Hi1 & [Ecc Hg] & Hrl & _);
        try done; [lia| |].
      { intros [Ha Hab]. pose proof Hfit as (Hne & _).
        by rewrite (proj2 (checkAppendedSet_frames (NewestOffset l) 0 new)) in Ec. }
      rewrite E1 in E. injection E as <- _. by apply (rolled_tracked l fss l1 fss1).
  - eapply truncated_tracked; [exact Hi|done|done|by apply Hf|done].
  - by eapply new_epoch_tracked.
Qed.

(** C24: Epoch answers are exact.  As long as the epochs of appended records and
    of new leaders do not go back, in every state the log reaches through
    appends, truncations and leader changes [LastOffsetForLeaderEpoch] separates
    the records: those up to the answer are exactly those of the epoch asked
    about and earlier ones. *)
Theorem epoch_answers_exact l0 l :
  rtc lead l0 l → tracked l0 →
  ∃ fss, inv l fss ∧ ∀ epoch, 0 ≤ epoch < 2 ^ 64 - 1 →
    ∃ o, LastOffsetForLeaderEpoch l (Some epoch) = Ok o ∧
      ∀ f, f ∈ concat fss → f_off f ≤ o ↔ f_ep f ≤ epoch.
Proof.
  intros Hs H0. assert (Hl : tracked l).
  { induction Hs as [|x y z Hs _ IH]; [done|]. by eapply IH, lead_tracked. }
  destruct Hl as (fss & Hi & _ & Hex). exists fss. split; [done|]. intros epoch Hep. by apply answer_exact.
Qed.

(** ** Where truncation makes answers wrong *)

Lemma assign_none w c last anchor pos new :
  Forall (λ f, f_ep f ≤ last) new → assign_epochs w c last anchor (entries_at pos new) = (c, true).
Proof.
  revert anchor pos. induction new as [|f new IH]; intros anchor pos Hf; [done|].
  apply Forall_cons in Hf as [Hf Hnew]. cbn [entries_at assign_epochs scanned e_LeaderEpoch e_Offset].
  rewrite (proj2 (Z.ltb_ge _ _) Hf). by apply IH.
Qed.

(** Truncation keeps an epoch it removed.  An epoch is recorded under the
    offset before its first record, so [ClearLatest] at that record's offset does
    not remove it.  The log then still claims the epoch; records of a lower epoch
    that another leader wrote in their place are not recorded when they are
    replicated, and the log answers that their epoch ended before them. *)
Theorem truncated_epoch_remains fuel t l fss es e o l' new epoch :
  inv l fss → seamless (segments l) → epochs_exact l fss → Forall (λ fs, (length fs < fuel)%nat) fss →
  EpochCache.epochOffsets (epochs l) = es ++ [e] → at_ e < o →
  Truncate fuel cut_calm l o = Some (l', Ok ()) →
  fits_log l' new → ascending new → Forall (λ f, NewestOffset l' < f_off f ∧ f_ep f = epoch) new →
  Forall (λ x, ep x ≤ epoch) es → 0 ≤ epoch < ep e →
  LastLeaderEpoch l' = ep e ∧
  ∃ l2 fss2, AppendMessageSet 1 (calm t) l' (fs_bytes new) = Some (l2, Ok (f_off <$> new)) ∧
    inv l2 fss2 ∧ concat fss2 = below o (concat fss) ++ new ∧
    LastOffsetForLeaderEpoch l2 (Some epoch) = Ok (at_ e) ∧ Forall (λ f, at_ e < f_off f) new.
Proof.
  intros Hi Hsm Hex Hfuel Ees Hat E Hfit Ha Hnew Hlow Hep.
  destruct (Truncate_frames fuel l fss o Hi Hfuel) as (l1 & fss1 & E1 & Hi1 & Ec & Hc & _).
  rewrite E1 in E. injection E as <-.
  pose proof (truncated_tracked fuel l fss o l1 (Ok ()) Hi Hsm Hex Hfuel E1) as (fss1' & Hi1' & Hsm1 & Hex1).
  assert (Ee : EpochCache.epochOffsets (epochs l1) = es ++ [e]).
  { destruct (_ <? _); [|by subst l1]. destruct Hc as (_ & _ & _ & -> & _).
    rewrite EpochCache.ClearLatest_epochs, Ees by apply Hex. destruct Hex as [[Hs _] _]. rewrite Ees in Hs.
    apply filter_all, Forall_forall. intros x Hx.
    destruct (EpochCache.last_entry _ x e Hs Hx ltac:(by rewrite last_snoc)) as [->|[_ ?]]; lia. }
  assert (Hl1 : LastLeaderEpoch l1 = ep e).
  { unfold LastLeaderEpoch, EpochCache.LastLeaderEpoch, EpochCache.latestEpoch. by rewrite Ee, last_snoc. }
  split; [done|].
  destruct (AppendMessageSet_frames 1 t l1 fss1 new Hi1 ltac:(lia) Hfit Ha) as (l2 & E2 & Hap).
  { eapply Forall_impl; [exact Hnew|]. by intros f [? _]. }
  destruct Hap as (fss2 & Hi2 & [Ec2 _] & (_ & _ & _ & Ee2 & _) & _). exists l2, fss2.
  split; [done|]. split; [done|]. split; [by rewrite Ec2, Ec|]. split.
  - unfold LastOffsetForLeaderEpoch. rewrite Ee2. unfold epochs_after. rewrite assign_none.
    2: { fold (LastLeaderEpoch l1). rewrite Hl1. eapply Forall_impl; [exact Hnew|]. simpl. intros f [_ ->]. lia. }
    cbn [fst]. destruct Hex1 as [[Hs Hok] _]. rewrite EpochCache.probe_ceiling; [|done|].
    + rewrite Ee, EpochCache.ceiling_app, (proj2 (EpochCache.ceiling_None es epoch) Hlow), EpochCache.ceiling_cons.
      by rewrite (proj2 (Z.ltb_lt _ _)) by lia.
    + rewrite Ee in Hok. apply Forall_app in Hok as [_ [[[_ ?] _] _]%Forall_cons]. lia.
  - assert (Hle : at_ e ≤ NewestOffset l1).
    { apply (entries_below l1 fss1' e Hi1' Hex1). rewrite Ee. apply elem_of_app. right. by left. }
    eapply Forall_impl; [exact Hnew|]. simpl. lia.
Qed.

(** Dropping the front moves an epoch's start past its first record.  The
    epoch that spans the new start of the log is recorded under the start itself
    instead of the offset before it, so the log answers that the preceding epoch
    ends at the first record of the next one: a follower that has a record of the
    preceding epoch at that offset keeps it. *)
Theorem trimmed_epoch_shifted fuel l fss e o f :
  inv l fss → EpochCache.inv (EpochCache.epochOffsets (epochs l)) →
  e ∈ EpochCache.epochOffsets (epochs l) → at_ e < o → 0 < o → in_sint 64 o → 0 < ep e →
  f ∈ concat fss → f_off f = o → ep e ≤ f_ep f → Forall (λ fs, (length fs < fuel)%nat) fss →
  ∃ l' fss', TruncateBefore fuel cut_calm l o = Some (l', Ok ()) ∧ inv l' fss' ∧ f ∈ concat fss' ∧
    LastOffsetForLeaderEpoch l' (Some (ep e - 1)) = Ok (f_off f) ∧ ep e - 1 < f_ep f.
Proof.
  intros Hi Hes He Hat Ho Hos Hep Hf Ef Hfe Hfuel.
  destruct (TruncateBefore_frames fuel l fss l fss o) as (p & l1 & fss1 & Ep & E1 & Hi1 & Ht & Ec); try done;
    [by apply grown_refl|].
  exists l1, fss1. unfold TruncateBefore. rewrite Ep, E1. split; [done|]. split; [done|]. split.
  - rewrite Ec, elem_of_app. rewrite <- (take_drop (length (older l)) fss), concat_app, elem_of_app in Hf.
    destruct Hf as [Hf|Hf]; [left|by right]. apply list_elem_of_filter. split; [lia|done].
  - split; [|lia]. destruct Ht as ((_ & _ & _ & _ & Ee & _) & _). unfold LastOffsetForLeaderEpoch. rewrite Ee.
    pose proof Hes as [Hs Hok]. eapply Forall_forall in Hok; [|exact He]. destruct Hok as [[_ Hb] _].
    assert (Er : EpochCache.epochOffsets (EpochCache.ClearEarliest EpochCache.Written (epochs l) o).1 =
      EpochCache.raised (EpochCache.epochOffsets (epochs l)) o).
    { rewrite EpochCache.ClearEarliest_epochs by done. by rewrite (proj2 (Z.leb_gt _ _) Ho). }
    rewrite EpochCache.probe_ceiling; [|rewrite Er; by apply EpochCache.inv_raised|lia].
    rewrite Er, EpochCache.ceiling_raised by done. rewrite EpochCache.ceiling_entry by done. cbn. f_equal. lia.
Qed.

End logs.

(** ** Examples *)

Definition entry_at (epoch offset : Z) : EpochCache.epochOffset :=
  {| EpochCache.leaderEpoch := epoch; EpochCache.assignedAtOffset := offset |}.

(** A record of the given epoch. *)
Definition of_epoch (epoch offset : Z) : frm :=
  {| f_off := offset; f_ts := 1700000000; f_ep := epoch; f_data := blockv3.sample_bytes [7; 8; 9] |}.

(** Two records of epoch 3 and one of epoch 5. *)
Definition led_frames : list frm := [of_epoch 3 4100; of_epoch 3 4101; of_epoch 5 4103].

Definition led_log : commitLog :=
  with_epochs (log_of led_frames)
    {| EpochCache.epochOffsets := [entry_at 3 4099] ++ [entry_at 5 4101]; EpochCache.checkpointFile := true;
       EpochCache.disk := None |}.

Lemma of_epoch_ok epoch o : 0 ≤ epoch < 100 → 4100 ≤ o < 5000 → frm_ok 4100 (of_epoch epoch o).
Proof.
  intros He Ho. unfold frm_ok. rewrite zlen_fbytes. unfold in_sint, in_uint. cbn [of_epoch f_off f_ts f_ep f_data].
  change (zlen (blockv3.sample_bytes [7; 8; 9])) with 3. lia.
Qed.

Lemma led_log_inv : @inv half_lib led_log [led_frames].
Proof.
  apply (log_of_inv led_frames); [|done|by vm_compute].
  split_and!; [lia|lia| | | |by vm_compute].
  - repeat (apply Forall_cons; split); [apply of_epoch_ok; lia..|by apply Forall_nil].
  - by repeat (apply Forall_cons; split); [..|apply Forall_nil].
  - repeat constructor; cbn; lia.
Qed.

Lemma led_epochs : EpochCache.inv (EpochCache.epochOffsets (epochs led_log)).
Proof.
  apply EpochCache.inv_snoc; [apply EpochCache.inv_single|..]; [split; vm_compute; done..|].
  intros x [= <-]. vm_compute. done.
Qed.

Lemma led_log_exact : epochs_exact led_log [led_frames].
Proof.
  split; [apply led_epochs|]. change (concat [led_frames]) with led_frames. split.
  - intros e He. repeat (apply elem_of_cons in He as [->|He]; [|]); [..|by apply not_elem_of_nil in He].
    + split; [|left; vm_compute; done]. intros f Hf.
      repeat (apply elem_of_cons in Hf as [->|Hf]; [cbn; lia|]). by apply not_elem_of_nil in Hf.
    + split; [|right; exists (of_epoch 3 4101); split; [right; left|done]]. intros f Hf.
      repeat (apply elem_of_cons in Hf as [->|Hf]; [cbn; lia|]). by apply not_elem_of_nil in Hf.
  - intros f Hf. right. repeat (apply elem_of_cons in Hf as [->|Hf]; [|]); [..|by apply not_elem_of_nil in Hf].
    + exists (entry_at 3 4099). split; [left|done].
    + exists (entry_at 3 4099). split; [left|done].
    + exists (entry_at 5 4101). split; [right; left|done].
Qed.

Lemma led_tracked : @tracked half_lib led_log.
Proof. exists [led_frames]. split; [exact led_log_inv|]. split; [by split|apply led_log_exact]. Qed.

Lemma led_lengths : Forall (λ fs : list frm, (length fs < 9)%nat) [led_frames].
Proof. repeat constructor. Qed.

Lemma epoch_answers_exact_witness :
  ∃ fss o, @inv half_lib (NewLeaderEpoch EpochCache.Written led_log 9).1 fss ∧
    LastOffsetForLeaderEpoch (NewLeaderEpoch EpochCache.Written led_log 9).1 (Some 4) = Ok o ∧ o = 4101.
Proof.
  destruct (@epoch_answers_exact half_lib half_laws led_log (NewLeaderEpoch EpochCache.Written led_log 9).1)
    as (fss & Hi & Ha).
  - apply rtc_once. apply (lead_epoch led_log 9); [vm_compute; reflexivity|vm_compute; split; congruence].
  - exact led_tracked.
  - destruct (Ha 4 ltac:(lia)) as (o & E & _). exists fss, o. split; [exact Hi|]. split; [exact E|].
    vm_compute in E. by injection E.
Defined.

Lemma truncated_epoch_remains_witness :
  ∃ l' l2, @Truncate half_lib 9 cut_calm led_log 4102 = Some (l', Ok ()) ∧ LastLeaderEpoch l' = 5 ∧
    @AppendMessageSet half_lib 1 (calm 1700000001) l' (fs_bytes [of_epoch 4 4102]) = Some (l2, Ok [4102]) ∧
    LastOffsetForLeaderEpoch l2 (Some 4) = Ok 4101.
Proof.
  destruct (@Truncate_frames half_lib half_laws 9 led_log [led_frames] 4102 led_log_inv led_lengths)
    as (l' & fss' & E & Hi & _ & Hc & _ & _ & Hn). specialize (Hn ltac:(exists (active led_log); split;
      [left|vm_compute; split; congruence])).
  destruct (newest_ok l' fss' Hi) as (_ & En & _). exists l'.
  destruct (@truncated_epoch_remains half_lib half_laws 9 1700000001 led_log [led_frames] [entry_at 3 4099]
    (entry_at 5 4101) 4102 l' [of_epoch 4 4102] 4) as (H1 & l2 & fss2 & E2 & _ & _ & H2 & _).
  - exact led_log_inv.
  - by split.
  - exact led_log_exact.
  - exact led_lengths.
  - reflexivity.
  - reflexivity.
  - exact E.
  - assert (Ho : opts l' = opts led_log).
    { change (4102 <? NextOffset (active led_log)) with true in Hc. apply Hc. }
    destruct (@inv_active half_lib l' fss' Hi) as (gss & fs & _ & _ & Hs).
    destruct Hs as ((_ & _ & _ & ((Hb & _) & _) & _) & _). split; [done|].
    rewrite Ho. split; [|vm_compute; congruence]. apply Forall_singleton.
    cbn [of_epoch f_off f_ts f_ep f_data]. unfold in_sint, in_uint.
    change (zlen (blockv3.sample_bytes [7; 8; 9])) with 3. lia.
  - repeat constructor.
  - apply Forall_singleton. split; [|reflexivity]. cbn. lia.
  - apply Forall_singleton. cbn. lia.
  - cbn. lia.
  - exists l2. split; [exact E|]. split; [exact H1|]. split; [exact E2|exact H2].
Defined.

Lemma trimmed_epoch_shifted_witness :
  ∃ l' fss, @TruncateBefore half_lib 9 cut_calm led_log 4103 = Some (l', Ok ()) ∧ @inv half_lib l' fss ∧
    of_epoch 5 4103 ∈ concat fss ∧ LastOffsetForLeaderEpoch l' (Some 4) = Ok 4103.
Proof.
  destruct (@trimmed_epoch_shifted half_lib half_laws 9 led_log [led_frames] (entry_at 5 4101) 4103
    (of_epoch 5 4103)) as (l' & fss & E & Hi & Hf & Ho & _).
  - exact led_log_inv.
  - exact led_epochs.
  - right. left.
  - reflexivity.
  - reflexivity.
  - vm_compute. split; congruence.
  - reflexivity.
  - right. right. left.
  - reflexivity.
  - cbn. lia.
  - exact led_lengths.
  - exists l', fss. split; [exact E|]. split; [exact Hi|]. split; [exact Hf|exact Ho].
Defined.

End LogEpochs.
