(* ===== verification/Retention.v ===== *)
(** * Retention: delete_cleaner.go

    The cleaner that deletes whole segments, oldest first, by age, number of
    messages and bytes, on local disk and in each tier of a chain of stores, and
    never above a floor the caller gives.  It reads of a segment only what the
    class [Retained] states; the segments of Segment.v are an instance, all of
    them local.  Deleting a segment fails as the function [del] says. *)

From Stdlib Require Import ZArith Lia.
From stdpp Require Import base list numbers strings gmap sorting.
From S2P Require Import Prelude GoStd Text Wire Compress BlockV3 Block Framing EpochCache Index.
From S2P Require Import Segment.

Open Scope Z_scope.

Module Retention.

(** ** What the cleaner sees *)

(** [Tier] is [None] for a segment on local disk. *)
Class Retained (A : Type) := {
  Base : A → Z;
  MessageCount : A → Z;
  PhysicalSize : A → Z;
  LastWriteTime : A → Z;
  tier_of : A → option string;
}.

(** clean.go: an optional offset. *)
Definition Bound : Type := option Z.
Definition At (off : Z) : Bound := Some off.
Definition Or (b : Bound) (fallback : Z) : Z := match b with Some off => off | None => fallback end.

Record limits := { Bytes : Z; Messages : Z; Age : Z }.

(** tier.go, without the store. *)
Record Tier := { Name : string; MaxBytes : Z; MaxMessages : Z; MaxAge : Z; ReadOnly : bool }.

(** tier.go: [validateTiers]; whether a store is given is [stored]. *)
Fixpoint validateTiers (seen : gset string) (stored : Tier → bool) (tiers : list Tier) : outcome () :=
  match tiers with
  | [] => Ok ()
  | t :: tiers =>
      if String.eqb (Name t) "" then Fail (ErrText "a tier has no Name")
      else if bool_decide (Name t ∈ seen) then Fail (ErrText "tier named twice")
      else if negb (stored t) then Fail (ErrText "tier has no Store")
      else if (MaxBytes t <? 0) || (MaxMessages t <? 0) || (MaxAge t <? 0)
      then Fail (ErrText "negative retention limit")
      else validateTiers ({[ Name t ]} ∪ seen) stored tiers
  end.

Section cleaner.
Context {A : Type} `{Retained A} (del : A → option error) (now : Z).

Definition computeTTL (age : Z) : Z := sint 64 (now - age).

(** ** Deleting a prefix *)

Fixpoint delete_prefix (drop keep : list A) : list A * option error :=
  match drop with
  | [] => (keep, None)
  | s :: rest =>
      match del s with
      | Some e => (drop ++ keep, Some e)
      | None => delete_prefix rest keep
      end
  end.

Definition dropOldestPrefix (segments : list A) (idx maxDrop : nat) : list A * option error :=
  let idx := Nat.min idx maxDrop in
  delete_prefix (take idx segments) (drop idx segments).

(** The loop of [deletablePrefix] over the segments after the first. *)
Fixpoint prefix_below (f : Z) (segments : list A) : nat :=
  match segments with
  | [] => 0
  | s :: segments => if f <? Base s then 0 else S (prefix_below f segments)
  end.

Definition deletablePrefix (segments : list A) (floor : Bound) : nat :=
  match floor with
  | None => length segments
  | Some f => prefix_below f (tail segments)
  end.

(** ** Limits *)

Definition keepActiveSegment : nat := 1.
Definition keepNoSegment : nat := 0.

(** The loop of [applyTotalLimit] from the newest segment back: the index it
    stops at.  [n] is the number of segments. *)
Fixpoint total_walk (measure : A → Z) (limit : Z) (keepNewest n : nat) (total : Z) (newest : list A)
    : option nat :=
  match newest with
  | [] => None
  | s :: older =>
      let total := sint 64 (total + measure s) in
      if (limit <? total) && (length older <? n - keepNewest)%nat then Some (length older)
      else total_walk measure limit keepNewest n total older
  end.

Definition applyTotalLimit (segments : list A) (limit : Z) (measure : A → Z) (keepNewest maxDrop : nat)
    : list A * option error :=
  match total_walk measure limit keepNewest (length segments) 0 (reverse segments) with
  | Some i => dropOldestPrefix segments (S i) maxDrop
  | None => (segments, None)
  end.

(** The first segment that is young enough, or the end. *)
Fixpoint first_live (ttl : Z) (segments : list A) : nat :=
  match segments with
  | [] => 0
  | s :: segments => if ttl <=? LastWriteTime s then 0 else S (first_live ttl segments)
  end.

Definition applyAgeLimit (age : Z) (segments : list A) (maxDrop : nat) : list A * option error :=
  if (length segments <=? 1)%nat then (segments, None)
  else dropOldestPrefix segments (first_live (computeTTL age) (removelast segments)) maxDrop.

(** A limit applied when it is set. *)
Definition limited (limit : Z) (apply : list A → list A * option error) (r : list A * option error)
    : list A * option error :=
  match r with
  | (segments, None) => if 0 <? limit then apply segments else r
  | _ => r
  end.

Definition cleanLocal (l : limits) (segments : list A) (floor : Bound) : list A * option error :=
  let byAge segments := applyAgeLimit (Age l) segments (deletablePrefix segments floor) in
  let byMessages segments := applyTotalLimit segments (Messages l) MessageCount keepActiveSegment
                               (deletablePrefix segments floor) in
  let byBytes segments := applyTotalLimit segments (Bytes l) PhysicalSize keepActiveSegment
                            (deletablePrefix segments floor) in
  limited (Bytes l) byBytes (limited (Messages l) byMessages (limited (Age l) byAge (segments, None))).

Definition noRetentionLimits (l : limits) : bool :=
  (Bytes l <=? 0) && (Messages l <=? 0) && (Age l <=? 0).

Definition noTierLimits (tiers : list Tier) : bool :=
  forallb (λ t, (MaxBytes t =? 0) && (MaxMessages t =? 0) && (MaxAge t =? 0)) tiers.

(** ** Tiers *)

(** The allowance that is left after a limit. *)
Definition spent (maxDrop : nat) (before after : list A) : nat := maxDrop - (length before - length after).

Definition cleanTier (segments : list A) (t : Tier) (maxTierDrop : nat) : list A * option error :=
  let '(s1, e1) := if 0 <? MaxAge t
                   then dropOldestPrefix segments (first_live (computeTTL (MaxAge t)) segments) maxTierDrop
                   else (segments, None) in
  match e1 with
  | Some _ => (s1, e1)
  | None =>
      let m1 := spent maxTierDrop segments s1 in
      let '(s2, e2) := if 0 <? MaxMessages t
                       then applyTotalLimit s1 (MaxMessages t) MessageCount keepNoSegment m1
                       else (s1, None) in
      match e2 with
      | Some _ => (s2, e2)
      | None =>
          let m2 := spent m1 s1 s2 in
          if 0 <? MaxBytes t then applyTotalLimit s2 (MaxBytes t) PhysicalSize keepNoSegment m2
          else (s2, None)
      end
  end.

(** Adjacent segments of one tier, newest run last: the loop of [tierRuns] with
    the runs so far. *)
Fixpoint runs_from (runs : list (string * list A)) (segments : list A) : list (string * list A) :=
  match segments with
  | [] => runs
  | s :: segments =>
      let t := default "" (tier_of s) in
      match last runs with
      | Some (t', r) =>
          if String.eqb t' t then runs_from (removelast runs ++ [(t, r ++ [s])]) segments
          else runs_from (runs ++ [(t, [s])]) segments
      | None => runs_from [(t, [s])] segments
      end
  end.

Definition tierRuns (segments : list A) : list (string * list A) := runs_from [] segments.

Definition flattenRuns (runs : list (string * list A)) : list A := concat (snd <$> runs).

Definition find_tier (tiers : list Tier) (name : string) : option Tier :=
  head (filter (λ t, Name t = name) tiers).

Fixpoint clean_runs (tiers : list Tier) (skipTiers : gset string) (maxDrop : nat) (blocked : bool)
    (runs : list (string * list A)) : list A * option error :=
  match runs with
  | [] => ([], None)
  | (name, r) :: rest =>
      if blocked || bool_decide (name ∈ skipTiers) then
        let '(k, e) := clean_runs tiers skipTiers maxDrop true rest in (r ++ k, e)
      else
        match find_tier tiers name with
        | None => (flattenRuns runs, Some (ErrText "a segment names an unknown tier"))
        | Some t =>
            match cleanTier r t maxDrop with
            | (survivors, Some e) => (survivors ++ flattenRuns rest, Some e)
            | (survivors, None) =>
                let '(k, e) := clean_runs tiers skipTiers (spent maxDrop r survivors)
                                 (negb (bool_decide (survivors = []))) rest in
                (survivors ++ k, e)
            end
        end
  end.

Definition cleanTiers (tiers : list Tier) (segments : list A) (skipTiers : gset string) (maxDrop : nat)
    : list A * option error :=
  clean_runs tiers skipTiers maxDrop false (tierRuns segments).

Definition isOffloaded (s : A) : bool := bool_decide (tier_of s ≠ None).

Fixpoint splitOffloadedPrefix (segments : list A) : list A * list A :=
  match segments with
  | [] => ([], [])
  | s :: rest =>
      if isOffloaded s then let '(t, l) := splitOffloadedPrefix rest in (s :: t, l)
      else ([], segments)
  end.

Definition joinTiers (tiered local : list A) : list A := tiered ++ local.

Definition Clean (l : limits) (tiers : list Tier) (segments : list A) (skipTiers : gset string)
    (floor : Bound) : list A * option error :=
  if bool_decide (segments = []) || (noRetentionLimits l && noTierLimits tiers) then (segments, None)
  else
    let '(tiered, local) := splitOffloadedPrefix segments in
    let '(tiered, e) :=
      if bool_decide (tiered ≠ []) && negb (noTierLimits tiers)
      then cleanTiers tiers tiered skipTiers (Nat.min (deletablePrefix segments floor) (length tiered))
      else (tiered, None) in
    match e with
    | Some _ => (joinTiers tiered local, e)
    | None =>
        if noRetentionLimits l then (joinTiers tiered local, None)
        else let '(local, e) := cleanLocal l local floor in (joinTiers tiered local, e)
    end.

(** ** Only prefixes go *)

(** [r] is [segments] without its [n] oldest. *)
Lemma delete_prefix_spec d k r e :
  delete_prefix d k = (r, e) →
  ∃ j, r = drop j d ++ k ∧ (j ≤ length d)%nat ∧ (e = None ↔ j = length d).
Proof.
  revert r e. induction d as [|s d IH]; intros r e; cbn [delete_prefix].
  - intros [= <- <-]. by exists 0%nat.
  - destruct (del s) as [x|].
    + intros [= <- <-]. exists 0%nat. split; [done|]. split; [lia|done].
    + intros E. destruct (IH r e E) as (j & -> & Hj & He). exists (S j). cbn. split; [done|]. split; [lia|].
      rewrite He. lia.
Qed.

Definition trims (segments : list A) (maxDrop : nat) (r : list A) (n : nat) : Prop :=
  r = drop n segments ∧ (n ≤ maxDrop)%nat ∧ (n ≤ length segments)%nat.

Lemma dropOldestPrefix_spec segments idx maxDrop r e :
  dropOldestPrefix segments idx maxDrop = (r, e) →
  ∃ n, trims segments maxDrop r n ∧ (n ≤ idx)%nat ∧
    (e = None → n = Nat.min (Nat.min idx maxDrop) (length segments)).
Proof.
  unfold dropOldestPrefix. intros E. apply delete_prefix_spec in E as (j & -> & Hj & He).
  set (i := Nat.min idx maxDrop) in *. rewrite length_take in *. exists j. split; [|split; [lia|]].
  - split; [|lia]. rewrite <- (take_drop i segments) at 3. rewrite drop_app_le; [done|]. rewrite length_take. lia.
  - intros He'. apply He in He'. lia.
Qed.

Lemma total_walk_keeps measure limit keepNewest n total newest i :
  total_walk measure limit keepNewest n total newest = Some i → (i < n - keepNewest)%nat.
Proof.
  revert total. induction newest as [|s older IH]; intros total; [done|]. cbn [total_walk].
  destruct (limit <? _); [|by apply IH]. destruct (Nat.ltb_spec (length older) (n - keepNewest)); cbn [andb]; [|by apply IH].
  by intros [= <-].
Qed.

Lemma applyTotalLimit_trims segments limit measure keepNewest maxDrop r e :
  applyTotalLimit segments limit measure keepNewest maxDrop = (r, e) →
  ∃ n, trims segments maxDrop r n ∧ (n ≤ length segments - keepNewest)%nat.
Proof.
  unfold applyTotalLimit. destruct (total_walk _ _ _ _ _ _) as [i|] eqn:Ew.
  - apply total_walk_keeps in Ew. intros E. apply dropOldestPrefix_spec in E as (n & Ht & Hn & _).
    exists n. split; [done|lia].
  - intros [= <- <-]. exists 0%nat. split; [split; [done|lia]|lia].
Qed.

Lemma first_live_le ttl segments : (first_live ttl segments ≤ length segments)%nat.
Proof. induction segments as [|s segments IH]; cbn; [lia|]. destruct (_ <=? _); lia. Qed.

Lemma length_removelast {B} (l : list B) : length (removelast l) = pred (length l).
Proof.
  destruct l as [|x l] using rev_ind; [done|]. rewrite removelast_last, length_app. simpl. lia.
Qed.

Lemma applyAgeLimit_trims age segments maxDrop r e :
  applyAgeLimit age segments maxDrop = (r, e) →
  ∃ n, trims segments maxDrop r n ∧ (n ≤ length segments - 1)%nat.
Proof.
  unfold applyAgeLimit. destruct (Nat.leb_spec (length segments) 1).
  - intros [= <- <-]. exists 0%nat. split; [split; [done|lia]|lia].
  - intros E. apply dropOldestPrefix_spec in E as (n & Ht & Hn & _). exists n. split; [done|].
    pose proof (first_live_le (computeTTL age) (removelast segments)) as Hl. rewrite length_removelast in Hl. lia.
Qed.

(** What the floor allows after part of it was used. *)
Lemma prefix_below_drop f segments n :
  (n ≤ prefix_below f segments)%nat →
  prefix_below f segments = (n + prefix_below f (drop n segments))%nat.
Proof.
  revert n. induction segments as [|s segments IH]; intros n; cbn [prefix_below]; [destruct n; cbn; lia|].
  destruct n as [|n]; [done|]. destruct (f <? Base s); [lia|]. intros Hn. cbn [drop]. rewrite (IH n) by lia. lia.
Qed.

Lemma deletable_drop segments floor n :
  (n ≤ deletablePrefix segments floor)%nat →
  deletablePrefix segments floor = (n + deletablePrefix (drop n segments) floor)%nat.
Proof.
  unfold deletablePrefix. destruct floor as [f|]; [|rewrite length_drop; lia].
  intros Hn. rewrite (prefix_below_drop f (tail segments) n Hn). do 2 f_equal.
  assert (Et : ∀ l : list A, tail l = drop 1 l) by (by intros []).
  by rewrite !Et, !drop_drop, Nat.add_comm.
Qed.

Lemma trims_0 segments maxDrop : trims segments maxDrop segments 0.
Proof. split; [done|lia]. Qed.

(** Two limits in turn, each within what the floor allows. *)
Lemma trims_floor segments floor s1 n1 s2 n2 :
  trims segments (deletablePrefix segments floor) s1 n1 → trims s1 (deletablePrefix s1 floor) s2 n2 →
  trims segments (deletablePrefix segments floor) s2 (n1 + n2).
Proof.
  intros (-> & Hn1 & Hl1) (-> & Hn2 & Hl2). rewrite length_drop in Hl2. split; [by rewrite drop_drop|].
  rewrite (deletable_drop segments floor n1 Hn1). lia.
Qed.

(** A limit of the local half: within the floor, and never the last segment. *)
Definition local_limit (floor : Bound) (apply : list A → list A * option error) : Prop :=
  ∀ segments r e, apply segments = (r, e) →
    ∃ n, trims segments (deletablePrefix segments floor) r n ∧ (n ≤ length segments - 1)%nat.

Lemma limited_trims floor limit apply segments r e r' e' :
  local_limit floor apply → limited limit apply (r, e) = (r', e') →
  (∃ n, trims segments (deletablePrefix segments floor) r n ∧ (n ≤ length segments - 1)%nat) →
  ∃ n, trims segments (deletablePrefix segments floor) r' n ∧ (n ≤ length segments - 1)%nat.
Proof.
  intros Ha. unfold limited. destruct e; [by intros [= <- <-]|]. destruct (0 <? limit); [|by intros [= <- <-]].
  intros E (n & Ht & Hn). destruct (Ha r r' e' E) as (n' & Ht' & Hn'). exists (n + n')%nat.
  split; [by eapply trims_floor|]. destruct Ht as (-> & _ & ?). rewrite length_drop in Hn'. lia.
Qed.

Lemma cleanLocal_trims l segments floor r e :
  cleanLocal l segments floor = (r, e) →
  ∃ n, trims segments (deletablePrefix segments floor) r n ∧ (n ≤ length segments - 1)%nat.
Proof.
  unfold cleanLocal. set (by_age := λ segments, applyAgeLimit _ _ _).
  set (by_messages := λ segments, applyTotalLimit _ (Messages l) _ _ _).
  set (by_bytes := λ segments, applyTotalLimit _ (Bytes l) _ _ _).
  destruct (limited (Age l) _ _) as [r1 e1] eqn:E1. destruct (limited (Messages l) _ _) as [r2 e2] eqn:E2. intros E3.
  assert (Hage : local_limit floor by_age) by (intros ? ? ?; apply applyAgeLimit_trims).
  assert (Hmsg : local_limit floor by_messages) by (intros ? ? ?; apply applyTotalLimit_trims).
  assert (Hbyt : local_limit floor by_bytes) by (intros ? ? ?; apply applyTotalLimit_trims).
  eapply limited_trims; [exact Hbyt|exact E3|]. eapply limited_trims; [exact Hmsg|exact E2|].
  eapply limited_trims; [exact Hage|exact E1|]. exists 0%nat. split; [apply trims_0|lia].
Qed.

(** ** Tiers *)

Lemma spent_drop segments maxDrop r n : trims segments maxDrop r n → spent maxDrop segments r = (maxDrop - n)%nat.
Proof. intros (-> & _ & ?). unfold spent. rewrite length_drop. lia. Qed.

Lemma trims_spent segments maxDrop s1 n1 s2 n2 :
  trims segments maxDrop s1 n1 → trims s1 (maxDrop - n1) s2 n2 → trims segments maxDrop s2 (n1 + n2).
Proof.
  intros (-> & Hn1 & Hl1) (-> & Hn2 & Hl2). rewrite length_drop in Hl2. split; [by rewrite drop_drop|lia].
Qed.

Lemma cleanTier_trims segments t maxDrop r e :
  cleanTier segments t maxDrop = (r, e) → ∃ n, trims segments maxDrop r n.
Proof.
  unfold cleanTier. destruct (if 0 <? MaxAge t then _ else _) as [s1 e1] eqn:E1.
  assert (H1 : ∃ n, trims segments maxDrop s1 n).
  { destruct (0 <? MaxAge t); [apply dropOldestPrefix_spec in E1 as (n & ? & _); by exists n|].
    injection E1 as <- <-. exists 0%nat. apply trims_0. }
  destruct H1 as (n1 & H1). destruct e1; [intros [= <- <-]; by exists n1|]. rewrite (spent_drop _ _ _ _ H1).
  destruct (if 0 <? MaxMessages t then _ else _) as [s2 e2] eqn:E2.
  assert (H2 : ∃ n, trims s1 (maxDrop - n1) s2 n).
  { destruct (0 <? MaxMessages t); [apply applyTotalLimit_trims in E2 as (n & ? & _); by exists n|].
    injection E2 as <- <-. exists 0%nat. apply trims_0. }
  destruct H2 as (n2 & H2). pose proof (trims_spent _ _ _ _ _ _ H1 H2) as H12.
  destruct e2; [intros [= <- <-]; by exists (n1 + n2)%nat|]. rewrite (spent_drop _ _ _ _ H2).
  destruct (0 <? MaxBytes t); [|intros [= <- <-]; by exists (n1 + n2)%nat].
  intros E3. apply applyTotalLimit_trims in E3 as (n3 & H3 & _). exists (n1 + n2 + n3)%nat.
  eapply trims_spent; [exact H12|]. by rewrite Nat.sub_add_distr.
Qed.

Lemma clean_runs_trims tiers skip maxDrop blocked runs r e :
  clean_runs tiers skip maxDrop blocked runs = (r, e) →
  ∃ n, trims (flattenRuns runs) maxDrop r n ∧ (blocked = true → n = 0%nat).
Proof.
  revert maxDrop blocked r e. induction runs as [|[name s] runs IH]; intros maxDrop blocked r e; cbn [clean_runs].
  { intros [= <- <-]. exists 0%nat. split; [apply trims_0|done]. }
  change (flattenRuns ((name, s) :: runs)) with (s ++ flattenRuns runs).
  destruct (blocked || bool_decide (name ∈ skip)) eqn:Eb.
  { destruct (clean_runs _ _ _ true runs) as [k e'] eqn:Ek. intros [= <- <-].
    destruct (IH _ _ _ _ Ek) as (n & (-> & _) & Hn). rewrite Hn by done. exists 0%nat. split; [apply trims_0|done]. }
  apply orb_false_iff in Eb as [-> _]. destruct (find_tier tiers name) as [t|].
  2: { intros [= <- <-]. exists 0%nat. split; [apply trims_0|done]. }
  destruct (cleanTier s t maxDrop) as [sv [e'|]] eqn:Et; apply cleanTier_trims in Et as (n & Ht);
    pose proof Ht as (-> & Hn & Hl).
  { intros [= <- <-]. exists n. split; [|done]. split; [by rewrite drop_app_le|]. rewrite length_app. lia. }
  rewrite (spent_drop _ _ _ _ Ht). destruct (clean_runs _ _ _ _ runs) as [k e'] eqn:Ek. intros [= <- <-].
  destruct (IH _ _ _ _ Ek) as (n' & (-> & Hn' & Hl') & Hb). destruct (decide (drop n s = [])) as [E0|Hne].
  - rewrite E0. assert (n = length s).
    { apply (f_equal length) in E0. rewrite length_drop in E0. simpl in E0. lia. }
    subst n. exists (length s + n')%nat. split; [|done]. split; [|rewrite length_app; lia].
    by rewrite drop_app_add.
  - rewrite Hb by (by rewrite bool_decide_eq_false_2). exists n. split; [|done].
    split; [by rewrite drop_app_le|rewrite length_app; lia].
Qed.

Lemma runs_from_flatten runs segments : flattenRuns (runs_from runs segments) = flattenRuns runs ++ segments.
Proof.
  revert runs. induction segments as [|s segments IH]; intros runs; cbn [runs_from]; [by rewrite app_nil_r|].
  assert (Hf : ∀ a t x, flattenRuns (a ++ [(t, x)]) = flattenRuns a ++ x).
  { intros a t x. unfold flattenRuns. rewrite fmap_app, concat_app. cbn. by rewrite app_nil_r. }
  destruct (last runs) as [[t' x]|] eqn:El.
  - apply last_Some in El as [a ->]. rewrite removelast_last. destruct (String.eqb _ _); rewrite IH, !Hf;
      by rewrite <- ?app_assoc.
  - apply last_None in El as ->. rewrite IH. unfold flattenRuns. cbn. done.
Qed.

Lemma cleanTiers_trims tiers segments skip maxDrop r e :
  cleanTiers tiers segments skip maxDrop = (r, e) → ∃ n, trims segments maxDrop r n.
Proof.
  unfold cleanTiers. intros E. apply clean_runs_trims in E as (n & Ht & _).
  unfold tierRuns in Ht. rewrite runs_from_flatten in Ht. by exists n.
Qed.

Lemma split_offloaded segments tiered local :
  splitOffloadedPrefix segments = (tiered, local) → segments = tiered ++ local.
Proof.
  revert tiered local. induction segments as [|s segments IH]; intros tiered local; cbn [splitOffloadedPrefix].
  - by intros [= <- <-].
  - destruct (isOffloaded s); [|by intros [= <- <-]]. destruct (splitOffloadedPrefix segments) as [t l].
    intros [= <- <-]. by rewrite (IH t l).
Qed.

Lemma prefix_below_lookup f segments j :
  (j < prefix_below f segments)%nat → ∃ s, segments !! j = Some s ∧ Base s ≤ f.
Proof.
  revert j. induction segments as [|s segments IH]; intros j; cbn [prefix_below]; [lia|].
  destruct (Z.ltb_spec f (Base s)); [lia|]. destruct j as [|j]; [intros _; by exists s|].
  intros Hj. apply IH. lia.
Qed.

Lemma deletable_below segments f j :
  (j < deletablePrefix segments (Some f))%nat → ∃ s, segments !! S j = Some s ∧ Base s ≤ f.
Proof. intros Hj. apply prefix_below_lookup in Hj. by destruct segments. Qed.

(** What [Clean] removes of each half. *)
Lemma Clean_trims l tiers segments skip floor r e tiered local :
  Clean l tiers segments skip floor = (r, e) → splitOffloadedPrefix segments = (tiered, local) →
  ∃ nt nl, r = drop nt tiered ++ drop nl local ∧ (nt ≤ deletablePrefix segments floor)%nat ∧
    (nl ≤ deletablePrefix local floor)%nat ∧ (nl ≤ length local - 1)%nat.
Proof.
  intros E Es. pose proof (split_offloaded _ _ _ Es) as Eseg.
  assert (H0 : segments = drop 0 tiered ++ drop 0 local) by done.
  unfold Clean in E. destruct (_ || _) in E.
  { injection E as <- <-. exists 0%nat, 0%nat. split; [done|lia]. }
  rewrite Es in E. destruct (if _ && _ then _ else _) as [t' e'] eqn:Et in E.
  assert (Ht : ∃ nt, t' = drop nt tiered ∧ (nt ≤ deletablePrefix segments floor)%nat).
  { destruct (_ && _) in Et; [|injection Et as <- <-; exists 0%nat; split; [done|lia]].
    apply cleanTiers_trims in Et as (n & (-> & Hn & _)). exists n. split; [done|lia]. }
  destruct Ht as (nt & -> & Hnt). unfold joinTiers in E. destruct e' as [x|].
  { injection E as <- <-. exists nt, 0%nat. split; [done|lia]. }
  destruct (noRetentionLimits l); [injection E as <- <-; exists nt, 0%nat; split; [done|lia]|].
  destruct (cleanLocal _ _ _) as [k e'] eqn:Ek. injection E as <- <-.
  apply cleanLocal_trims in Ek as (nl & (-> & Hnl & _) & Hlast). exists nt, nl. done.
Qed.

(** On local segments whose deletions succeed nothing fails. *)
Section succeeds.
Context (Hdel : ∀ s, del s = None).

Lemma drop_ok segments idx maxDrop : (dropOldestPrefix segments idx maxDrop).2 = None.
Proof.
  unfold dropOldestPrefix. generalize (drop (Nat.min idx maxDrop) segments). generalize (take (Nat.min idx maxDrop) segments).
  intros d k. induction d as [|s d IH]; [done|]. cbn. by rewrite Hdel.
Qed.

Lemma limited_ok limit apply r :
  r.2 = None → (∀ segments, (apply segments).2 = None) → (limited limit apply r).2 = None.
Proof. destruct r as [segments e]. cbn. intros -> Ha. by destruct (0 <? limit). Qed.

Lemma total_ok segments limit measure keepNewest maxDrop : (applyTotalLimit segments limit measure keepNewest maxDrop).2 = None.
Proof. unfold applyTotalLimit. destruct (total_walk _ _ _ _ _ _); [apply drop_ok|done]. Qed.

Lemma Clean_local_ok l tiers segments skip floor :
  splitOffloadedPrefix segments = ([], segments) → (Clean l tiers segments skip floor).2 = None.
Proof.
  intros Es. unfold Clean. destruct (_ || _); [done|]. rewrite Es. cbn [bool_decide]. rewrite bool_decide_eq_false_2 by auto.
  cbn [andb]. destruct (noRetentionLimits l); [done|].
  assert (Hl : (cleanLocal l segments floor).2 = None); [|by destruct (cleanLocal l segments floor)].
  unfold cleanLocal. cbv zeta. repeat (apply limited_ok; [|intros; apply total_ok]). apply limited_ok; [done|].
  intros ss. unfold applyAgeLimit. destruct (_ <=? _)%nat; [done|apply drop_ok].
Qed.

End succeeds.

(** C30: Retention removes the oldest segments and nothing else.  Whatever the
    limits, the tiers, the floor and the deletions that fail, what [Clean] returns
    is a suffix of the offloaded segments followed by a suffix of the local ones;
    the last local segment always stays; and under a floor every removed segment
    is followed by one that starts at or below the floor, so it holds no record
    the floor protects. *)
Theorem clean_removes_oldest l tiers segments skip floor r e tiered local :
  Clean l tiers segments skip floor = (r, e) → splitOffloadedPrefix segments = (tiered, local) →
  ∃ nt nl, r = drop nt tiered ++ drop nl local ∧ (local ≠ [] → last r = last local) ∧
    ∀ f, floor = At f →
      (∀ j, (j < nt)%nat → ∃ s, segments !! S j = Some s ∧ Base s ≤ f) ∧
      (∀ j, (j < nl)%nat → ∃ s, local !! S j = Some s ∧ Base s ≤ f).
Proof.
  intros E Es. destruct (Clean_trims _ _ _ _ _ _ _ _ _ E Es) as (nt & nl & -> & Hnt & Hnl & Hlast). exists nt, nl. split; [done|]. split.
  - intros Hne. destruct (exists_last Hne) as (k & x & ->). rewrite length_app in Hlast. simpl in Hlast.
    rewrite drop_app_le by lia. by rewrite app_assoc, !last_snoc.
  - intros f ->. unfold At in *. split; intros j Hj; apply deletable_below; lia.
Qed.

(** ** What a limit keeps *)

Definition total (measure : A → Z) (segments : list A) : Z := foldr (λ s n, measure s + n) 0 segments.

Lemma total_of_app measure a b : total measure (a ++ b) = total measure a + total measure b.
Proof. unfold total. induction a as [|s a IH]; cbn; [done|]. rewrite IH. lia. Qed.

Lemma total_of_nonneg measure segments : Forall (λ s, 0 ≤ measure s) segments → 0 ≤ total measure segments.
Proof. unfold total. induction 1; cbn; lia. Qed.

Lemma total_walk_spec measure limit keepNewest n a b :
  Forall (λ s, 0 ≤ measure s) (a ++ b) → total measure (a ++ b) < 2 ^ 63 →
  match total_walk measure limit keepNewest n (total measure b) (reverse a) with
  | Some i => (i < length a)%nat ∧ limit < total measure (drop i (a ++ b)) ∧
      ∀ j, (i < j < length a)%nat → (j < n - keepNewest)%nat → total measure (drop j (a ++ b)) ≤ limit
  | None => ∀ j, (j < length a)%nat → (j < n - keepNewest)%nat → total measure (drop j (a ++ b)) ≤ limit
  end.
Proof.
  revert b. induction a as [|s a IH] using rev_ind; intros b Hp Ht;
    [intros j Hj; simpl in Hj; lia|].
  rewrite reverse_snoc. cbn [total_walk]. rewrite length_reverse, length_app. cbn [length].
  assert (Hd : drop (length a) ((a ++ [s]) ++ b) = s :: b) by (by rewrite <- app_assoc, drop_app_length).
  assert (Htb : sint 64 (total measure b + measure s) = total measure (s :: b)).
  { rewrite <- app_assoc in Hp, Ht. rewrite total_of_app in Ht. apply Forall_app in Hp as [Ha Hb].
    pose proof (total_of_nonneg measure a Ha). pose proof (total_of_nonneg measure _ Hb).
    change (total measure (s :: b)) with (measure s + total measure b).
    change (total measure ([s] ++ b)) with (measure s + total measure b) in *.
    rewrite sint_nonneg by lia. lia. }
  rewrite Htb. destruct (Z.ltb_spec limit (total measure (s :: b))) as [Hgt|Hle]; cbn [andb].
  - destruct (Nat.ltb_spec (length a) (n - keepNewest)) as [Hlt|Hge].
    + split; [lia|]. rewrite Hd. split; [done|]. lia.
    + rewrite <- app_assoc in Hp, Ht |- *. specialize (IH (s :: b) Hp Ht). cbn [app].
      destruct (total_walk _ _ _ _ _ _) as [i|].
      * destruct IH as (H1 & H2 & H3). split; [lia|]. split; [done|]. intros j Hj Hk. apply H3; lia.
      * intros j Hj Hk. apply IH; lia.
  - rewrite <- app_assoc in Hp, Ht |- *. specialize (IH (s :: b) Hp Ht). cbn [app] in *.
    assert (Hlen : ∀ j, (j < length a + 1)%nat → (j < length a)%nat ∨ j = length a) by lia.
    rewrite <- app_assoc in Hd. cbn [app] in Hd.
    destruct (total_walk _ _ _ _ _ _) as [i|].
    * destruct IH as (H1 & H2 & H3). split; [lia|]. split; [done|]. intros j Hj Hk.
      destruct (Hlen j ltac:(lia)) as [Hj'| ->]; [apply H3; lia|by rewrite Hd].
    * intros j Hj Hk. destruct (Hlen j ltac:(lia)) as [Hj'| ->]; [by apply IH|by rewrite Hd].
Qed.

Lemma total_limit segments limit measure keepNewest :
  (∀ s, del s = None) → Forall (λ s, 0 ≤ measure s) segments → total measure segments < 2 ^ 63 →
  ∃ n, applyTotalLimit segments limit measure keepNewest (length segments) = (drop n segments, None) ∧
    (total measure (drop n segments) ≤ limit ∨ (length (drop n segments) ≤ keepNewest)%nat) ∧
    ((0 < n)%nat → limit < total measure (drop (n - 1) segments)).
Proof.
  intros Hdel Hp Ht. unfold applyTotalLimit.
  pose proof (total_walk_spec measure limit keepNewest (length segments) segments []) as Hw.
  rewrite app_nil_r in Hw. specialize (Hw Hp Ht). change (total measure []) with 0 in Hw.
  destruct (total_walk _ _ _ _ _ _) as [i|] eqn:Ew.
  - destruct Hw as (Hi & Hgt & Hj). apply total_walk_keeps in Ew.
    destruct (dropOldestPrefix segments (S i) (length segments)) as [r e] eqn:E.
    assert (e = None) as ->.
    { revert E. unfold dropOldestPrefix. generalize (take (Nat.min (S i) (length segments)) segments).
      intros d. induction d as [|x d IH]; cbn [delete_prefix]; [by intros [= _ <-]|]. by rewrite Hdel. }
    apply dropOldestPrefix_spec in E as (n & (-> & _) & _ & Hn). specialize (Hn eq_refl).
    assert (n = S i) as -> by lia. exists (S i). split; [done|]. split.
    + destruct (decide (S i < length segments - keepNewest)%nat) as [Hlt|Hge].
      * left. apply Hj; lia.
      * right. rewrite length_drop. lia.
    + intros _. by rewrite Nat.sub_succ, Nat.sub_0_r.
  - exists 0%nat. split; [by rewrite drop_0|]. split; [|lia]. rewrite drop_0.
    destruct (decide (0 < length segments - keepNewest)%nat) as [Hlt|Hge]; [|right; lia].
    left. rewrite <- (drop_0 segments). apply Hw; lia.
Qed.

(** A budget keeps the most that fits.  When every deletion succeeds and no
    floor stands in the way, what remains fits the limit or is down to the
    segments that are always kept, and one more segment would not have fitted. *)
Theorem total_limit_exact segments limit measure keepNewest :
  (∀ s, del s = None) → Forall (λ s, 0 ≤ measure s) segments → total measure segments < 2 ^ 63 →
  ∃ n, applyTotalLimit segments limit measure keepNewest (length segments) = (drop n segments, None) ∧
    (total measure (drop n segments) ≤ limit ∨ (length (drop n segments) ≤ keepNewest)%nat) ∧
    ((0 < n)%nat → limit < total measure (drop (n - 1) segments)).
Proof. apply total_limit. Qed.

(** A local limit cuts a hole into a tiered log.  The local limits do not see
    the offloaded segments before the local ones; when the tiers keep theirs, a
    log over its local budget loses its oldest local segments and keeps every
    older record in the tiers. *)
Theorem local_limit_leaves_hole l tiers segments tiered local skip :
  splitOffloadedPrefix segments = (tiered, local) → tiered ≠ [] → noTierLimits tiers = true →
  (∀ s, del s = None) → Messages l = 0 → Age l = 0 → 0 < Bytes l →
  Forall (λ s, 0 ≤ PhysicalSize s) local → Bytes l < total PhysicalSize local < 2 ^ 63 → (1 < length local)%nat →
  ∃ n, Clean l tiers segments skip None = (tiered ++ drop n local, None) ∧ (0 < n < length local)%nat.
Proof.
  intros Es Hne Hnt Hdel Hm Ha Hb Hp Ht Hl.
  destruct (total_limit local (Bytes l) PhysicalSize keepActiveSegment Hdel Hp (proj2 Ht)) as (n & E & Hfit & _).
  exists n. assert (Hn : n ≠ 0%nat).
  { intros ->. rewrite drop_0 in Hfit. unfold keepActiveSegment in Hfit. lia. }
  split.
  - unfold Clean. rewrite Es, Hnt, andb_false_r. unfold noRetentionLimits. rewrite (proj2 (Z.leb_gt _ _) Hb).
    cbn [andb]. rewrite orb_false_r, bool_decide_eq_false_2.
    2: { intros ->. cbn in Es. by injection Es as <- <-. }
    unfold cleanLocal, limited. rewrite Hm, Ha, (proj2 (Z.ltb_lt _ _) Hb). cbn [Z.ltb Z.compare].
    change (deletablePrefix local None) with (length local). by rewrite E.
  - split; [lia|]. apply applyTotalLimit_trims in E as (n' & (E' & _ & Hl') & Hn').
    apply (f_equal length) in E'. rewrite !length_drop in E'. unfold keepActiveSegment in Hn'. lia.
Qed.

End cleaner.

(** ** The segments of the log *)

#[export] Instance segment_retained : Retained Segment.segment :=
  {| Base := Segment.BaseOffset; MessageCount := Segment.messageCountLocked; PhysicalSize := Segment.PhysicalSize;
     LastWriteTime := Segment.lastWriteTime; tier_of := λ _, None |}.

(** ** A log of five segments, the first two offloaded *)

Record card := { card_base : Z; card_size : Z; card_tier : option string }.

#[local] Instance card_retained : Retained card :=
  {| Base := card_base; MessageCount := λ _, 10; PhysicalSize := card_size; LastWriteTime := card_base;
     tier_of := card_tier |}.

Definition cold (base : Z) : card := {| card_base := base; card_size := 100; card_tier := Some "cold"%string |}.
Definition near (base : Z) : card := {| card_base := base; card_size := 100; card_tier := None |}.

Definition five : list card := [cold 0; cold 10; near 20; near 30; near 40].

Definition budget (n : Z) : limits := {| Bytes := n; Messages := 0; Age := 0 |}.

Lemma clean_removes_oldest_witness :
  ∃ r e, Clean (λ _, None) 1000 (budget 150) [] five ∅ (At 35) = (r, e) ∧
  ∃ nt nl, r = drop nt [cold 0; cold 10] ++ drop nl [near 20; near 30; near 40] ∧
    ([near 20; near 30; near 40] ≠ [] → last r = last [near 20; near 30; near 40]) ∧
    ∀ f, At 35 = At f →
      (∀ j, (j < nt)%nat → ∃ s, five !! S j = Some s ∧ Base s ≤ f) ∧
      (∀ j, (j < nl)%nat → ∃ s, [near 20; near 30; near 40] !! S j = Some s ∧ Base s ≤ f).
Proof.
  eexists _, _. split; [vm_compute; reflexivity|].
  apply (clean_removes_oldest (λ _, None) 1000 (budget 150) [] five ∅ (At 35) _ None); vm_compute; reflexivity.
Defined.

Lemma total_limit_exact_witness :
  ∃ n, applyTotalLimit (λ _, None) five 250 PhysicalSize 1 (length five) = (drop n five, None) ∧
    (total PhysicalSize (drop n five) ≤ 250 ∨ (length (drop n five) ≤ 1)%nat) ∧
    ((0 < n)%nat → 250 < total PhysicalSize (drop (n - 1) five)).
Proof.
  apply (total_limit_exact (λ _, None) five 250 PhysicalSize 1); [done| |vm_compute; reflexivity].
  repeat constructor; vm_compute; discriminate.
Defined.

Lemma local_limit_leaves_hole_witness :
  ∃ n, Clean (λ _, None) 1000 (budget 150) [] five ∅ None
      = ([cold 0; cold 10] ++ drop n [near 20; near 30; near 40], None) ∧
    (0 < n < length [near 20; near 30; near 40])%nat.
Proof.
  apply (local_limit_leaves_hole (λ _, None) 1000 (budget 150) [] five); try done.
  - repeat constructor; vm_compute; discriminate.
  - simpl. lia.
Defined.

End Retention.
