(* ===== verification/KeyDigest.v ===== *)
(** * Key digests: keydigest.go

    A digest summarizes a sealed segment for compaction: every keyed data
    record's offset, flags and timestamp under its key, in key order, and the
    offsets of unkeyed and of control records.  It is built by a scan, written
    to a file beside the segment and read back when its base offset and size
    still fit the segment; the keyed section is streamed.  A digest in memory
    and one read from its file differ in where that section comes from, so
    [keyed] is the input the iterator starts on: the section itself, or the
    file from the section on. *)

From Stdlib Require Import ZArith Lia.
From stdpp Require Import base list numbers strings gmap sorting.
From coqutil Require Import Byte.
From S2P Require Import Prelude GoStd Wire Compress BlockV3 Block Framing Index Segment.
From S2P Require Import SegmentIndex SegmentSearch.

Open Scope Z_scope.

Module KeyDigest.
Import Segment SegmentIndex SegmentSearch.

Definition digestMagic : Z := 0x434C4B44.
Definition digestVersion : Z := 2.
Definition digestFlagTombstone : Z := 1.
Definition digestFlagHasHeaders : Z := 2.

Record digestRec := { offset : Z; flags : Z; ts : Z }.

#[export] Instance digestRec_eq_dec : EqDecision digestRec.
Proof. solve_decision. Defined.

Record keyDigest := {
  base : Z;
  logSize : Z;
  baseTs : Z;
  stripVerifiedBelow : Z;
  stripHdrs : list bytes;
  keyed : bytes;
  nKeys : Z;
  unkeyed : list digestRec;
  control : list Z;
}.

Definition stripStampCovers (d : keyDigest) (boundary : Z) (hdrs : list bytes) : bool :=
  if stripVerifiedBelow d <? boundary then false else bool_decide (hdrs = stripHdrs d).

(** ** Encoding *)

(** [digestWriter.rec]. *)
Definition write_rec (b bTs : Z) (r : digestRec) : bytes :=
  Varint.append_uvarint (uint 64 (offset r - b)) ++ [byte.of_Z (flags r)] ++
  Varint.append_varint (sint 64 (ts r - bTs)).

Definition write_recs (b bTs : Z) (rs : list digestRec) : bytes := concat (write_rec b bTs <$> rs).

(** One key of the keyed section with its records. *)
Definition write_key (b bTs : Z) (k : bytes * list digestRec) : bytes :=
  Varint.append_uvarint (zlen k.1) ++ k.1 ++ Varint.append_uvarint (zlen k.2) ++ write_recs b bTs k.2.

Definition write_keys (b bTs : Z) (ks : list (bytes * list digestRec)) : bytes :=
  concat (write_key b bTs <$> ks).

Definition write_hdr (h : bytes) : bytes := Varint.append_uvarint (zlen h) ++ h.

Definition digest_body (d : keyDigest) : bytes :=
  BigEndian.put 4 digestMagic ++ [byte.of_Z digestVersion] ++
  BigEndian.put 8 (base d) ++ BigEndian.put 8 (logSize d) ++ BigEndian.put 8 (baseTs d) ++
  BigEndian.put 8 (stripVerifiedBelow d) ++
  Varint.append_uvarint (zlen (stripHdrs d)) ++ concat (write_hdr <$> stripHdrs d) ++
  Varint.append_uvarint (uint 64 (nKeys d)) ++ Varint.append_uvarint (zlen (keyed d)) ++ keyed d ++
  Varint.append_uvarint (zlen (unkeyed d)) ++ write_recs (base d) (baseTs d) (unkeyed d) ++
  Varint.append_uvarint (zlen (control d)) ++
  concat ((λ o, Varint.append_uvarint (uint 64 (o - base d))) <$> control d).

Definition encodeKeyDigest (d : keyDigest) : bytes :=
  digest_body d ++ BigEndian.put 4 (Crc32.Checksum Crc32.IEEE (digest_body d)).

(** ** Building *)

Record building := {
  byKey : gmap bytes (list digestRec);
  b_unkeyed : list digestRec;
  b_control : list Z;
}.

Definition rec_flags (attrs : Z) (headers : gmap bytes bytes) : Z :=
  Z.lor (if Z.land attrs AttrTombstone =? 0 then 0 else digestFlagTombstone)
        (if bool_decide (headers = ∅) then 0 else digestFlagHasHeaders).

(** The body of the scan of [buildKeyDigest]. *)
Definition digest_frame (b : building) (ms : bytes) : outcome building :=
  off ← messageSet.Offset ms;
  msg ← messageSet.Message ms;
  let msg := default [] msg in
  attrs ← SerializedMessage.Attributes msg;
  if negb (Z.land attrs AttrControl =? 0)
  then Ok {| byKey := byKey b; b_unkeyed := b_unkeyed b; b_control := b_control b ++ [off] |}
  else
    t ← messageSet.Timestamp ms;
    headers ← SerializedMessage.Headers msg;
    key ← SerializedMessage.Key msg;
    let r := {| offset := off; flags := rec_flags attrs headers; ts := t |} in
    match key with
    | None => Ok {| byKey := byKey b; b_unkeyed := b_unkeyed b ++ [r]; b_control := b_control b |}
    | Some k =>
        Ok {| byKey := <[k := default [] (byKey b !! k) ++ [r]]> (byKey b);
              b_unkeyed := b_unkeyed b; b_control := b_control b |}
    end.

Definition digest_scan (b : building) (ms : bytes) (_ : entry) : building + outcome building :=
  match digest_frame b ms with
  | Ok b => inl b
  | Fail e => inr (Fail e)
  | Panic => inr Panic
  end.

Definition digest_ends (b : building) (err : error) : outcome building :=
  match err with
  | ErrEOF => Ok b
  | _ => Fail (ErrSegmentUnreadable "digest for segment")
  end.

(** The keys in order, each with its records. *)
Definition key_list (m : gmap bytes (list digestRec)) : list (bytes * list digestRec) :=
  (λ k, (k, default [] (m !! k))) <$> BytesOrd.sorted_keys m.

Definition digest_of (b len bTs : Z) (x : building) : keyDigest :=
  {| base := b; logSize := len; baseTs := bTs; stripVerifiedBelow := -1; stripHdrs := [];
     keyed := write_keys b bTs (key_list (byKey x)); nKeys := Z.of_nat (size (byKey x));
     unkeyed := b_unkeyed x; control := b_control x |}.

Definition nothing_read : building := {| byKey := ∅; b_unkeyed := []; b_control := [] |}.

Definition buildKeyDigest `{CodecLib} (fuel : nat) (s : segment) : option (outcome keyDigest) :=
  match scanning fuel s newSegmentScanner digest_scan digest_ends nothing_read with
  | None => None
  | Some r => Some (r ← r; x ← r; Ok (digest_of (BaseOffset s) (position s) (firstWriteTime s) x))
  end.

(** ** Decoding *)

Record digestDecoder := { dd_data : bytes; dd_pos : Z; dd_err : bool }.

Definition dd_fail (r : digestDecoder) : digestDecoder :=
  {| dd_data := dd_data r; dd_pos := dd_pos r; dd_err := true |}.

Definition dd_advance (r : digestDecoder) (n : Z) : digestDecoder :=
  {| dd_data := dd_data r; dd_pos := dd_pos r + n; dd_err := false |}.

(** [uvarint] and [varint] differ in the decoder. *)
Definition dd_int (decode : bytes → Z * Z) (r : digestDecoder) : outcome (Z * digestDecoder) :=
  if dd_err r then Ok (0, r)
  else
    b ← slice_from (dd_data r) (dd_pos r);
    let '(v, n) := decode b in
    if n <=? 0 then Ok (0, dd_fail r) else Ok (v, dd_advance r n).

Definition dd_uvarint : digestDecoder → outcome (Z * digestDecoder) := dd_int Varint.uvarint.
Definition dd_varint : digestDecoder → outcome (Z * digestDecoder) := dd_int Varint.varint.

Definition dd_bytes (r : digestDecoder) (n : Z) : outcome (bytes * digestDecoder) :=
  if dd_err r then Ok ([], r)
  else
    let hi := sint 64 (dd_pos r + n) in
    if zlen (dd_data r) <? hi then Ok ([], dd_fail r)
    else b ← slice (dd_data r) (dd_pos r) hi; Ok (b, dd_advance r n).

Definition dd_uint (w : nat) (r : digestDecoder) : outcome (Z * digestDecoder) :=
  '(b, r) ← dd_bytes r (Z.of_nat w);
  if dd_err r then Ok (0, r) else v ← BigEndian.read w b; Ok (v, r).

Definition dd_u32 : digestDecoder → outcome (Z * digestDecoder) := dd_uint 4.

Definition dd_i64 (r : digestDecoder) : outcome (Z * digestDecoder) :=
  '(v, r) ← dd_uint 8 r; Ok (sint 64 v, r).

Definition dd_byte (r : digestDecoder) : outcome (Z * digestDecoder) := dd_uint 1 r.

(** The loops of [loadKeyDigest]. *)
Fixpoint load_hdrs (k : nat) (r : digestDecoder) : outcome (list bytes * digestDecoder) :=
  match k with
  | O => Ok ([], r)
  | S k =>
      '(hl, r) ← dd_uvarint r;
      '(h, r) ← dd_bytes r (sint 64 hl);
      '(hs, r) ← load_hdrs k r;
      Ok (h :: hs, r)
  end.

Fixpoint load_recs (k : nat) (b bTs : Z) (r : digestDecoder) : outcome (list digestRec * digestDecoder) :=
  match k with
  | O => Ok ([], r)
  | S k =>
      '(o, r) ← dd_uvarint r;
      '(f, r) ← dd_byte r;
      '(t, r) ← dd_varint r;
      '(rs, r) ← load_recs k b bTs r;
      Ok ({| offset := sint 64 (sint 64 o + b); flags := f; ts := sint 64 (t + bTs) |} :: rs, r)
  end.

Fixpoint load_control (k : nat) (b : Z) (r : digestDecoder) : outcome (list Z * digestDecoder) :=
  match k with
  | O => Ok ([], r)
  | S k =>
      '(o, r) ← dd_uvarint r;
      '(os, r) ← load_control k b r;
      Ok (sint 64 (sint 64 o + b) :: os, r)
  end.

(** The fields behind the fixed ones; [file] is the whole sidecar. *)
Definition load_tail (file : bytes) (r : digestDecoder) (b len bTs stamp : Z) : outcome (option keyDigest) :=
  let n := zlen (dd_data r) in
  '(nHdrs, r) ← dd_uvarint r;
  if 64 <? nHdrs then Ok None
  else
    '(hdrs, r) ← load_hdrs (Z.to_nat nHdrs) r;
    '(nk, r) ← dd_uvarint r;
    '(keyedLen, r) ← dd_uvarint r;
    if dd_err r || (n <? keyedLen) then Ok None
    else
      let section := drop (Z.to_nat (dd_pos r)) file in
      '(_, r) ← dd_bytes r (sint 64 keyedLen);
      '(nUnkeyed, r) ← dd_uvarint r;
      if dd_err r || (n <? nUnkeyed) then Ok None
      else
        '(unk, r) ← load_recs (Z.to_nat nUnkeyed) b bTs r;
        '(nControl, r) ← dd_uvarint r;
        if dd_err r || (n <? nControl) then Ok None
        else
          '(ctl, r) ← load_control (Z.to_nat nControl) b r;
          if dd_err r then Ok None
          else Ok (Some {| base := b; logSize := len; baseTs := bTs; stripVerifiedBelow := stamp;
                           stripHdrs := hdrs; keyed := section; nKeys := sint 64 nk;
                           unkeyed := unk; control := ctl |}).

(** [loadKeyDigest] for a segment at [segBase] of [position] bytes; [file] is
    the content of the sidecar, if it can be read. *)
Definition loadKeyDigest (segBase segPosition : Z) (file : option bytes) : outcome (option keyDigest) :=
  match file with
  | None => Ok None
  | Some data =>
      if zlen data <? 4 + 1 + 8 * 4 + 4 then Ok None
      else
        body ← slice_to data (zlen data - 4);
        crcBytes ← slice_from data (zlen data - 4);
        crc ← BigEndian.read 4 crcBytes;
        if negb (Crc32.Checksum Crc32.IEEE body =? crc) then Ok None
        else
          '(magic, r) ← dd_u32 {| dd_data := body; dd_pos := 0; dd_err := false |};
          if negb (magic =? digestMagic) then Ok None
          else
            '(version, r) ← dd_byte r;
            if negb (version =? digestVersion) then Ok None
            else
              '(b, r) ← dd_i64 r;
              '(len, r) ← dd_i64 r;
              '(bTs, r) ← dd_i64 r;
              '(stamp, r) ← dd_i64 r;
              if negb (b =? segBase) || negb (len =? segPosition) then Ok None
              else load_tail data r b len bTs stamp
  end.

(** ** Iterating over the keyed section *)

Record digestIter := {
  it_in : bytes;
  it_base : Z;
  it_bTs : Z;
  it_rem : Z;
  it_key : bytes;
  it_recs : list digestRec;
}.

Definition newDigestIter (d : keyDigest) : digestIter :=
  {| it_in := keyed d; it_base := base d; it_bTs := baseTs d; it_rem := nKeys d; it_key := [];
     it_recs := [] |}.

(** Go's [binary.ReadUvarint] and [binary.ReadVarint]: the value and the rest
    of the input. *)
Definition read_int (decode : bytes → Z * Z) (b : bytes) : outcome (Z * bytes) :=
  let '(v, n) := decode b in
  if n <=? 0 then Fail ErrEOF else Ok (v, drop (Z.to_nat n) b).

Definition readByte (b : bytes) : outcome (Z * bytes) :=
  match b with [] => Fail ErrEOF | x :: b => Ok (byte.unsigned x, b) end.

Definition readKey (b : bytes) (n : Z) : outcome (bytes * bytes) :=
  if zlen b <? n then Fail ErrEOF else Ok (take (Z.to_nat n) b, drop (Z.to_nat n) b).

Fixpoint read_recs (k : nat) (bs bTs : Z) (b : bytes) : outcome (list digestRec * bytes) :=
  match k with
  | O => Ok ([], b)
  | S k =>
      '(o, b) ← read_int Varint.uvarint b;
      '(f, b) ← readByte b;
      '(t, b) ← read_int Varint.varint b;
      '(rs, b) ← read_recs k bs bTs b;
      Ok ({| offset := sint 64 (sint 64 o + bs); flags := f; ts := sint 64 (t + bTs) |} :: rs, b)
  end.

(** [next]: the iterator at its next key, [None] when no key is left, or the
    error that [err] then reports. *)
Definition next (it : digestIter) : outcome (option digestIter) :=
  if it_rem it =? 0 then Ok None
  else
    '(klen, b) ← read_int Varint.uvarint (it_in it);
    if Z.shiftl 1 24 <? klen then Fail ErrIndexCorrupt
    else
      '(key, b) ← readKey b klen;
      '(n, b) ← read_int Varint.uvarint b;
      '(rs, b) ← read_recs (Z.to_nat n) (it_base it) (it_bTs it) b;
      Ok (Some {| it_in := b; it_base := it_base it; it_bTs := it_bTs it; it_rem := it_rem it - 1;
                  it_key := key; it_recs := rs |}).

(** ** What is written is read back *)

Definition rec_ok (r : digestRec) : Prop :=
  in_sint 64 (offset r) ∧ in_uint 8 (flags r) ∧ in_sint 64 (ts r).

(** A key the iterator accepts. *)
Definition key_ok (k : bytes * list digestRec) : Prop :=
  zlen k.1 ≤ Z.shiftl 1 24 ∧ zlen k.2 < 2 ^ 64 ∧ Forall rec_ok k.2.

(** Conversions change a number by a multiple of 2^64. *)
Lemma sint_shift z : ∃ k, sint 64 z = z + k * 2 ^ 64.
Proof.
  exists (- ((z + 2 ^ 63) / 2 ^ 64)). unfold sint. change (2 ^ (64 - 1)) with (2 ^ 63).
  pose proof (Z.div_mod (z + 2 ^ 63) (2 ^ 64)). lia.
Qed.

Lemma uint_shift z : ∃ k, uint 64 z = z + k * 2 ^ 64.
Proof. exists (- (z / 2 ^ 64)). unfold uint. pose proof (Z.div_mod z (2 ^ 64)). lia. Qed.

Lemma sint_unique z o k : in_sint 64 o → z = o + k * 2 ^ 64 → sint 64 z = o.
Proof.
  intros Ho ->. destruct (sint_shift (o + k * 2 ^ 64)) as [j E].
  pose proof (sint_range 64 (o + k * 2 ^ 64) ltac:(lia)) as Hr. unfold in_sint in *. lia.
Qed.

Lemma sint_back_uint o b : in_sint 64 o → sint 64 (sint 64 (uint 64 (o - b)) + b) = o.
Proof.
  intros Ho. destruct (uint_shift (o - b)) as [k ->]. destruct (sint_shift (o - b + k * 2 ^ 64)) as [j ->].
  apply (sint_unique _ _ (k + j)); [done|lia].
Qed.

Lemma sint_back o b : in_sint 64 o → sint 64 (sint 64 (o - b) + b) = o.
Proof. intros Ho. destruct (sint_shift (o - b)) as [k ->]. apply (sint_unique _ _ k); [done|lia]. Qed.

Lemma read_int_app decode x s v :
  decode (x ++ s) = (v, zlen x) → 0 < zlen x → read_int decode (x ++ s) = Ok (v, s).
Proof.
  intros E Hp. unfold read_int. rewrite E, (proj2 (Z.leb_gt _ _)) by lia.
  by rewrite to_nat_zlen, drop_app_length.
Qed.

Lemma read_uvarint_app x s : in_uint 64 x → read_int Varint.uvarint (Varint.append_uvarint x ++ s) = Ok (x, s).
Proof.
  intros Hx. apply read_int_app; [by apply Varint.uvarint_append|apply Varint.append_uvarint_pos].
Qed.

Lemma read_varint_app x s : in_sint 64 x → read_int Varint.varint (Varint.append_varint x ++ s) = Ok (x, s).
Proof.
  intros Hx. apply read_int_app; [by apply Varint.varint_append|apply Varint.append_varint_pos].
Qed.

Lemma readKey_app k s : readKey (k ++ s) (zlen k) = Ok (k, s).
Proof.
  unfold readKey. rewrite (proj2 (Z.ltb_ge _ _)) by (rewrite zlen_app; pose_zlen; lia).
  by rewrite to_nat_zlen, take_app_length, drop_app_length.
Qed.

Lemma in_uint_zlen {A} (l : list A) : zlen l < 2 ^ 64 → in_uint 64 (zlen l).
Proof. unfold in_uint. pose_zlen. lia. Qed.

Lemma read_recs_app b bTs rs s :
  Forall rec_ok rs → read_recs (length rs) b bTs (write_recs b bTs rs ++ s) = Ok (rs, s).
Proof.
  induction 1 as [|r rs (Ho & Hf & Ht) _ IH]; [done|]. unfold write_recs in *.
  cbn [length fmap list_fmap concat read_recs]. unfold write_rec at 1. rewrite <- !app_assoc.
  rewrite read_uvarint_app, bind_Ok by (apply uint_range; lia). cbn [app readByte]. rewrite bind_Ok.
  rewrite read_varint_app, bind_Ok by (apply sint_range; lia). rewrite IH, bind_Ok.
  rewrite sint_back_uint, sint_back, unsigned_of_Z_small by done. by destruct r.
Qed.

(** An iterator that stands before the keys [ks]. *)
Definition iterates (b bTs : Z) (it : digestIter) (ks : list (bytes * list digestRec)) : Prop :=
  it_base it = b ∧ it_bTs it = bTs ∧ it_rem it = zlen ks ∧ Forall key_ok ks ∧
  ∃ rest, it_in it = write_keys b bTs ks ++ rest.

Lemma next_nil b bTs it : iterates b bTs it [] → next it = Ok None.
Proof. intros (_ & _ & E & _). unfold next. by rewrite E. Qed.

Lemma next_cons b bTs it k rs ks :
  iterates b bTs it ((k, rs) :: ks) →
  ∃ it', next it = Ok (Some it') ∧ it_key it' = k ∧ it_recs it' = rs ∧ iterates b bTs it' ks.
Proof.
  intros (Eb & Et & Er & [(Hk & Hn & Hr) Hks]%Forall_cons & rest & Ei). cbn in Hk, Hn, Hr.
  unfold next. rewrite Er, Ei, Eb, Et, (proj2 (Z.eqb_neq _ _)) by (rewrite zlen_cons; pose_zlen; lia).
  unfold write_keys. cbn [fmap list_fmap concat]. unfold write_key at 1. cbn [fst snd]. rewrite <- !app_assoc.
  rewrite read_uvarint_app, bind_Ok by (apply in_uint_zlen; unfold Z.shiftl in Hk; cbn in Hk; lia).
  rewrite (proj2 (Z.ltb_ge _ _)) by done. rewrite readKey_app, bind_Ok.
  rewrite read_uvarint_app, bind_Ok by (by apply in_uint_zlen). rewrite to_nat_zlen.
  rewrite read_recs_app, bind_Ok by done. eexists. split; [done|]. split; [done|]. split; [done|].
  split; [done|]. split; [done|]. split; [|split; [done|by exists rest]]. cbn [it_rem]. rewrite zlen_cons. lia.
Qed.

(** A decoder that has read [p] and has [s] left. *)
Definition dd_at (p s : bytes) : digestDecoder := {| dd_data := p ++ s; dd_pos := zlen p; dd_err := false |}.

Lemma dd_at_data p s : dd_data (dd_at p s) = p ++ s.
Proof. done. Qed.

Lemma dd_at_pos p s : dd_pos (dd_at p s) = zlen p.
Proof. done. Qed.

Lemma dd_at_err p s : dd_err (dd_at p s) = false.
Proof. done. Qed.

Lemma dd_at_advance p x s n : n = zlen x → dd_advance (dd_at p (x ++ s)) n = dd_at (p ++ x) s.
Proof. intros ->. unfold dd_advance, dd_at. cbn. by rewrite zlen_app, <- app_assoc. Qed.

Lemma dd_int_app decode p x s v :
  decode (x ++ s) = (v, zlen x) → 0 < zlen x → dd_int decode (dd_at p (x ++ s)) = Ok (v, dd_at (p ++ x) s).
Proof.
  intros E Hp. unfold dd_int. cbn [dd_at dd_err dd_data dd_pos]. rewrite slice_from_app, bind_Ok, E by done.
  rewrite (proj2 (Z.leb_gt _ _)) by lia. by rewrite <- dd_at_advance with (n := zlen x).
Qed.

Lemma dd_uvarint_app p x s :
  in_uint 64 x → dd_uvarint (dd_at p (Varint.append_uvarint x ++ s)) = Ok (x, dd_at (p ++ Varint.append_uvarint x) s).
Proof.
  intros Hx. apply dd_int_app; [by apply Varint.uvarint_append|apply Varint.append_uvarint_pos].
Qed.

Lemma dd_varint_app p x s :
  in_sint 64 x → dd_varint (dd_at p (Varint.append_varint x ++ s)) = Ok (x, dd_at (p ++ Varint.append_varint x) s).
Proof.
  intros Hx. apply dd_int_app; [by apply Varint.varint_append|apply Varint.append_varint_pos].
Qed.

Lemma dd_bytes_app p x s :
  zlen (p ++ x ++ s) < 2 ^ 63 → dd_bytes (dd_at p (x ++ s)) (zlen x) = Ok (x, dd_at (p ++ x) s).
Proof.
  intros Hz. rewrite !zlen_app in Hz. unfold dd_bytes. cbn [dd_at dd_err dd_data dd_pos].
  rewrite sint_nonneg by (pose_zlen; lia). rewrite !zlen_app, (proj2 (Z.ltb_ge _ _)) by (pose_zlen; lia).
  rewrite slice_app_mid, bind_Ok by done. by rewrite <- dd_at_advance with (n := zlen x).
Qed.

Lemma dd_uint_app w p v s :
  zlen (p ++ BigEndian.put w v ++ s) < 2 ^ 63 →
  dd_uint w (dd_at p (BigEndian.put w v ++ s)) =
    Ok (v mod 2 ^ (8 * Z.of_nat w), dd_at (p ++ BigEndian.put w v) s).
Proof.
  intros Hz. unfold dd_uint. rewrite <- (BigEndian.zlen_put w v), dd_bytes_app, bind_Ok by done.
  cbn [dd_at dd_err]. rewrite <- (app_nil_r (BigEndian.put w v)) at 1. rewrite BigEndian.read_put, bind_Ok.
  by rewrite BigEndian.zlen_put.
Qed.

Lemma dd_i64_app p v s :
  in_sint 64 v → zlen (p ++ BigEndian.put 8 v ++ s) < 2 ^ 63 →
  dd_i64 (dd_at p (BigEndian.put 8 v ++ s)) = Ok (v, dd_at (p ++ BigEndian.put 8 v) s).
Proof.
  intros Hv Hz. unfold dd_i64. rewrite dd_uint_app, bind_Ok by done. do 2 f_equal.
  apply (sint_uint 64 v); [lia|done].
Qed.

Lemma dd_byte_app p x s :
  zlen (p ++ [x] ++ s) < 2 ^ 63 →
  dd_byte (dd_at p ([x] ++ s)) = Ok (byte.unsigned x, dd_at (p ++ [x]) s).
Proof.
  intros Hz. unfold dd_byte, dd_uint. change (Z.of_nat 1) with (zlen [x]). rewrite dd_bytes_app, bind_Ok by done.
  cbn [dd_at dd_err]. rewrite <- (app_nil_r [x]) at 1. rewrite (BigEndian.read_app 1 [x] []), bind_Ok by done.
  rewrite BigEndian.get_cons. change (BigEndian.get []) with 0. change (2 ^ (8 * zlen [])) with 1.
  by rewrite Z.mul_1_r, Z.add_0_r.
Qed.

Lemma load_hdrs_app p hs s :
  zlen (p ++ concat (write_hdr <$> hs) ++ s) < 2 ^ 63 →
  load_hdrs (length hs) (dd_at p (concat (write_hdr <$> hs) ++ s)) =
    Ok (hs, dd_at (p ++ concat (write_hdr <$> hs)) s).
Proof.
  revert p. induction hs as [|h hs IH]; intros p Hz; cbn [length fmap list_fmap concat load_hdrs] in *.
  { by rewrite app_nil_r. }
  unfold write_hdr in * at 1. unfold write_hdr at 2. rewrite <- !app_assoc in *.
  assert (Hh : zlen h < 2 ^ 63) by (rewrite !zlen_app in Hz; pose_zlen; lia).
  rewrite dd_uvarint_app, bind_Ok by (unfold in_uint; pose_zlen; lia).
  rewrite sint_nonneg by (pose_zlen; lia). rewrite dd_bytes_app, bind_Ok by (by rewrite <- app_assoc).
  rewrite IH, bind_Ok by (by rewrite <- !app_assoc). by rewrite <- !app_assoc.
Qed.

Lemma load_recs_app b bTs p rs s :
  Forall rec_ok rs → zlen (p ++ write_recs b bTs rs ++ s) < 2 ^ 63 →
  load_recs (length rs) b bTs (dd_at p (write_recs b bTs rs ++ s)) = Ok (rs, dd_at (p ++ write_recs b bTs rs) s).
Proof.
  intros Hr. revert p. unfold write_recs. induction Hr as [|r rs (Ho & Hf & Ht) _ IH]; intros p Hz;
    cbn [length fmap list_fmap concat load_recs] in *.
  { by rewrite app_nil_r. }
  unfold write_rec in * at 1. unfold write_rec at 2. rewrite <- !app_assoc in *.
  rewrite dd_uvarint_app, bind_Ok by (apply uint_range; lia).
  rewrite dd_byte_app, bind_Ok by (by rewrite <- app_assoc).
  rewrite dd_varint_app, bind_Ok by (apply sint_range; lia).
  rewrite IH, bind_Ok by (by rewrite <- !app_assoc).
  rewrite sint_back_uint, sint_back, unsigned_of_Z_small, <- !app_assoc by done. by destruct r.
Qed.

Lemma load_control_app b p os s :
  Forall (in_sint 64) os →
  load_control (length os) b (dd_at p (concat ((λ o, Varint.append_uvarint (uint 64 (o - b))) <$> os) ++ s)) =
    Ok (os, dd_at (p ++ concat ((λ o, Varint.append_uvarint (uint 64 (o - b))) <$> os)) s).
Proof.
  intros Ho. revert p. induction Ho as [|o os Ho _ IH]; intros p; cbn [length fmap list_fmap concat load_control].
  { by rewrite app_nil_r. }
  rewrite <- !app_assoc, dd_uvarint_app, bind_Ok by (apply uint_range; lia).
  rewrite IH, bind_Ok, sint_back_uint, <- app_assoc by done. done.
Qed.

Lemma load_control_end b p os :
  Forall (in_sint 64) os →
  load_control (length os) b (dd_at p (concat ((λ o, Varint.append_uvarint (uint 64 (o - b))) <$> os))) =
    Ok (os, dd_at (p ++ concat ((λ o, Varint.append_uvarint (uint 64 (o - b))) <$> os)) []).
Proof. intros Ho. pose proof (load_control_app b p os [] Ho) as E. by rewrite app_nil_r in E. Qed.

Definition digest_ok (d : keyDigest) : Prop :=
  in_sint 64 (base d) ∧ in_sint 64 (logSize d) ∧ in_sint 64 (baseTs d) ∧ in_sint 64 (stripVerifiedBelow d) ∧
  (length (stripHdrs d) ≤ 64)%nat ∧ 0 ≤ nKeys d < 2 ^ 63 ∧ Forall rec_ok (unkeyed d) ∧
  Forall (in_sint 64) (control d) ∧ zlen (encodeKeyDigest d) < 2 ^ 63.

(** The digest as it comes from a file: its keyed section is followed by the
    rest of the file. *)
Definition streamed (d : keyDigest) (rest : bytes) : keyDigest :=
  {| base := base d; logSize := logSize d; baseTs := baseTs d; stripVerifiedBelow := stripVerifiedBelow d;
     stripHdrs := stripHdrs d; keyed := keyed d ++ rest; nKeys := nKeys d; unkeyed := unkeyed d;
     control := control d |}.

Lemma zlen_write_recs b bTs rs : zlen rs ≤ zlen (write_recs b bTs rs).
Proof.
  apply zlen_concat_lower. intros r. unfold write_rec. rewrite zlen_app.
  pose proof (Varint.append_uvarint_pos (uint 64 (offset r - b))). pose_zlen. lia.
Qed.

(** What follows the fixed fields. *)
Definition tail_bytes (d : keyDigest) : bytes :=
  Varint.append_uvarint (zlen (stripHdrs d)) ++ concat (write_hdr <$> stripHdrs d) ++
  Varint.append_uvarint (uint 64 (nKeys d)) ++ Varint.append_uvarint (zlen (keyed d)) ++ keyed d ++
  Varint.append_uvarint (zlen (unkeyed d)) ++ write_recs (base d) (baseTs d) (unkeyed d) ++
  Varint.append_uvarint (zlen (control d)) ++
  concat ((λ o, Varint.append_uvarint (uint 64 (o - base d))) <$> control d).

Lemma load_tail_ok p d crc :
  digest_ok d → zlen (p ++ tail_bytes d) < 2 ^ 63 →
  ∃ rest, load_tail ((p ++ tail_bytes d) ++ crc) (dd_at p (tail_bytes d)) (base d) (logSize d) (baseTs d)
            (stripVerifiedBelow d) = Ok (Some (streamed d rest)).
Proof.
  intros (_ & _ & _ & _ & Hh & Hn & Hu & Hc & _) Hz.
  pose proof (zlen_write_recs (base d) (baseTs d) (unkeyed d)) as Hru.
  pose proof (zlen_concat_lower (λ o, Varint.append_uvarint (uint 64 (o - base d))) (control d)
    ltac:(intros; apply Varint.append_uvarint_pos)) as Hrc.
  pose proof Hz as Hz'. unfold tail_bytes in Hz'. rewrite !zlen_app in Hz'.
  unfold load_tail. rewrite dd_at_data. set (n := zlen (p ++ tail_bytes d)) in *.
  assert (Hzt : n = zlen p + zlen (tail_bytes d)) by apply zlen_app.
  unfold tail_bytes in Hzt at 1. rewrite !zlen_app in Hzt. set (file := _ ++ crc).
  unfold tail_bytes. rewrite dd_uvarint_app, bind_Ok by (unfold in_uint, zlen in *; lia).
  rewrite (proj2 (Z.ltb_ge _ _)) by (unfold zlen; lia). rewrite to_nat_zlen.
  rewrite load_hdrs_app, bind_Ok by (by rewrite <- app_assoc).
  rewrite dd_uvarint_app, bind_Ok by (apply uint_range; lia).
  rewrite dd_uvarint_app, bind_Ok by (unfold in_uint; pose_zlen; lia).
  rewrite dd_at_err, dd_at_pos. cbn [orb]. rewrite (proj2 (Z.ltb_ge _ _)) by (pose_zlen; lia).
  rewrite (sint_nonneg 64 (zlen (keyed d))) by (pose_zlen; lia).
  rewrite dd_bytes_app, bind_Ok by (by rewrite <- !app_assoc).
  rewrite dd_uvarint_app, bind_Ok by (unfold in_uint; pose_zlen; lia).
  rewrite dd_at_err. cbn [orb]. rewrite (proj2 (Z.ltb_ge _ _)), !to_nat_zlen by (pose_zlen; lia).
  rewrite load_recs_app, bind_Ok by (done || by rewrite <- !app_assoc).
  rewrite dd_uvarint_app, bind_Ok by (unfold in_uint; pose_zlen; lia).
  rewrite dd_at_err. cbn [orb]. rewrite (proj2 (Z.ltb_ge _ _)), !to_nat_zlen by (pose_zlen; lia).
  rewrite load_control_end, bind_Ok, dd_at_err by done.
  rewrite sint_uint by (unfold in_sint; lia).
  match goal with |- context [drop (length ?q) _] => set (P := q) end.
  assert (Ef : ∃ rest, file = P ++ keyed d ++ rest).
  { eexists. unfold file, P, tail_bytes. rewrite <- !app_assoc. reflexivity. }
  destruct Ef as [rest ->]. exists rest. by rewrite drop_app_length.
Qed.

Definition head_bytes (d : keyDigest) : bytes :=
  BigEndian.put 4 digestMagic ++ [byte.of_Z digestVersion] ++
  BigEndian.put 8 (base d) ++ BigEndian.put 8 (logSize d) ++ BigEndian.put 8 (baseTs d) ++
  BigEndian.put 8 (stripVerifiedBelow d).

Lemma digest_body_split d : digest_body d = head_bytes d ++ tail_bytes d.
Proof. unfold digest_body, head_bytes. by rewrite <- !app_assoc. Qed.

(** What was written loads for a segment of the same base and size. *)
Lemma load_encoded d :
  digest_ok d →
  ∃ rest, loadKeyDigest (base d) (logSize d) (Some (encodeKeyDigest d)) = Ok (Some (streamed d rest)).
Proof.
  intros Hd. pose proof Hd as (Hb & Hl & Ht & Hs & _ & _ & _ & _ & Hz).
  unfold encodeKeyDigest in *. set (crc := BigEndian.put 4 _) in *. rewrite zlen_app in Hz.
  assert (Hc : zlen crc = 4) by apply BigEndian.zlen_put. rewrite digest_body_split in *.
  destruct (load_tail_ok (head_bytes d) d crc Hd ltac:(lia)) as [rest E]. exists rest.
  assert (Hh : zlen (head_bytes d) = 37) by (unfold head_bytes; by rewrite !zlen_app, !BigEndian.zlen_put).
  unfold loadKeyDigest. rewrite (proj2 (Z.ltb_ge _ _)) by (rewrite !zlen_app; pose_zlen; lia).
  rewrite slice_to_app, bind_Ok by (rewrite !zlen_app; lia).
  rewrite slice_from_app, bind_Ok by (rewrite !zlen_app; lia).
  assert (Er : BigEndian.read 4 crc = Ok (Crc32.Checksum Crc32.IEEE (digest_body d))).
  { unfold crc. rewrite <- (app_nil_r (BigEndian.put 4 _)), BigEndian.read_put4, digest_body_split.
    by rewrite uint_small by (apply Crc32.ieee_range). }
  rewrite Er, bind_Ok, digest_body_split, Z.eqb_refl. cbn [negb].
  assert (Hz2 : zlen (head_bytes d ++ tail_bytes d) < 2 ^ 63) by lia. clear Hz.
  unfold head_bytes in E, Hz2 |- *. rewrite <- !app_assoc in E, Hz2 |- *.
  change {| dd_data := ?x; dd_pos := 0; dd_err := false |} with (dd_at [] x).
  repeat rewrite <- app_assoc. unfold dd_u32. rewrite dd_uint_app, bind_Ok by done.
  change (digestMagic mod 2 ^ (8 * Z.of_nat 4) =? digestMagic) with true. cbn [negb].
  rewrite dd_byte_app, bind_Ok by done.
  change (byte.unsigned (byte.of_Z digestVersion) =? digestVersion) with true. cbn [negb].
  do 4 (rewrite dd_i64_app, bind_Ok; [|done|by rewrite <- ?app_assoc]).
  rewrite !Z.eqb_refl. cbn [negb orb]. rewrite <- !app_assoc. exact E.
Qed.

(** ** The records of a segment *)

Definition f_attrs (f : frm) : Z := match SerializedMessage.Attributes (f_data f) with Ok a => a | _ => 0 end.
Definition f_key (f : frm) : option bytes := match SerializedMessage.Key (f_data f) with Ok k => k | _ => None end.
Definition f_value (f : frm) : option bytes :=
  match SerializedMessage.Value (f_data f) with Ok v => v | _ => None end.
Definition f_hdrs (f : frm) : gmap bytes bytes :=
  match SerializedMessage.Headers (f_data f) with Ok h => h | _ => ∅ end.

(** The accessors read the record. *)
Definition legible (f : frm) : Prop :=
  SerializedMessage.Attributes (f_data f) = Ok (f_attrs f) ∧ SerializedMessage.Key (f_data f) = Ok (f_key f) ∧
  SerializedMessage.Value (f_data f) = Ok (f_value f) ∧ SerializedMessage.Headers (f_data f) = Ok (f_hdrs f).

(** A record that [encode] wrote is legible. *)
Lemma legible_record f m hs :
  readable m hs → f_data f = record_bytes m hs →
  legible f ∧ f_attrs f = Attributes m ∧ f_key f = Key m ∧ f_value f = Value m ∧ Some <$> f_hdrs f = Headers m.
Proof.
  intros R E. destruct (record_flags m hs R) as [_ Ea]. destruct (record_key_value m hs R) as [Ek Ev].
  destruct (record_headers m hs R) as (h & Eh & <-).
  unfold legible, f_attrs, f_key, f_value, f_hdrs. rewrite E, Ea, Ek, Ev, Eh. done.
Qed.

Definition is_control (f : frm) : bool := negb (Z.land (f_attrs f) AttrControl =? 0).

Definition rec_of (f : frm) : digestRec :=
  {| offset := f_off f; flags := rec_flags (f_attrs f) (f_hdrs f); ts := f_ts f |}.

(** The data records under a key, and those without one. *)
Definition has_key (k : bytes) (f : frm) : Prop := is_control f = false ∧ f_key f = Some k.
Definition has_none (f : frm) : Prop := is_control f = false ∧ f_key f = None.

#[export] Instance has_key_dec k f : Decision (has_key k f) := _.
#[export] Instance has_none_dec f : Decision (has_none f) := _.

Definition keyed_in (k : bytes) (fs : list frm) : list digestRec := rec_of <$> filter (has_key k) fs.

(** One frame noted by [buildKeyDigest]. *)
Definition note (b : building) (f : frm) : building :=
  if is_control f
  then {| byKey := byKey b; b_unkeyed := b_unkeyed b; b_control := b_control b ++ [f_off f] |}
  else match f_key f with
       | None => {| byKey := byKey b; b_unkeyed := b_unkeyed b ++ [rec_of f]; b_control := b_control b |}
       | Some k =>
           {| byKey := <[k := default [] (byKey b !! k) ++ [rec_of f]]> (byKey b);
              b_unkeyed := b_unkeyed b; b_control := b_control b |}
       end.

Lemma frame_parts base0 f :
  frm_ok base0 f → 0 < zlen (f_data f) →
  messageSet.Offset (fbytes f) = Ok (f_off f) ∧ messageSet.Timestamp (fbytes f) = Ok (f_ts f) ∧
  messageSet.LeaderEpoch (fbytes f) = Ok (f_ep f) ∧ messageSet.Message (fbytes f) = Ok (Some (f_data f)).
Proof.
  intros (Hb & _ & Ho & Ht & He & Hz) Hd. rewrite zlen_fbytes in Hz.
  destruct (frame_header_fields (f_off f) (f_ts f) (f_ep f) (zlen (f_data f)) (f_data f)) as (E1 & E2 & E3 & E4);
    [unfold in_sint; lia|done|done|unfold in_sint; lia|].
  split; [done|]. split; [done|]. split; [done|]. unfold messageSet.Message, msgSetHeaderLen.
  rewrite zlen_fbytes, (proj2 (Z.leb_gt _ _)) by lia. unfold fbytes. rewrite E4, bind_Ok, sint_nonneg by lia.
  rewrite <- (app_nil_r (f_data f)) at 2. rewrite slice_app_mid, bind_Ok; [done| |];
    by rewrite zlen_frame_header.
Qed.

Lemma digest_frame_note base0 b f :
  frm_ok base0 f → 0 < zlen (f_data f) → legible f → digest_frame b (fbytes f) = Ok (note b f).
Proof.
  intros Hf Hd (Ea & Ek & _ & Eh). destruct (frame_parts base0 f Hf Hd) as (E1 & E2 & _ & E4).
  unfold digest_frame, note, is_control. rewrite E1, bind_Ok, E4, bind_Ok.
  change (default [] (Some (f_data f))) with (f_data f). cbv zeta.
  rewrite Ea, bind_Ok. destruct (negb _); [done|]. rewrite E2, bind_Ok, Eh, bind_Ok, Ek, bind_Ok.
  by destruct (f_key f).
Qed.

Lemma digest_scan_frames base0 fs b pos :
  Forall (frm_ok base0) fs → Forall (λ f, 0 < zlen (f_data f)) fs → Forall legible fs →
  over_frames digest_scan digest_ends b pos fs = Ok (foldl note b fs).
Proof.
  intros Hf Hd Hl. revert b pos. induction fs as [|f fs IH]; intros b pos; [done|].
  apply Forall_cons in Hf as [Hf Hfs], Hd as [Hd Hds], Hl as [Hl Hls]. cbn [over_frames foldl].
  unfold digest_scan. rewrite (digest_frame_note base0) by done. by apply IH.
Qed.

Lemma keyed_in_snoc k fs f :
  keyed_in k (fs ++ [f]) = keyed_in k fs ++ (if decide (has_key k f) then [rec_of f] else []).
Proof.
  unfold keyed_in. rewrite filter_app, fmap_app. f_equal. rewrite filter_cons, filter_nil.
  by destruct (decide _).
Qed.

Lemma note_snoc fs f : foldl note nothing_read (fs ++ [f]) = note (foldl note nothing_read fs) f.
Proof. by rewrite foldl_app. Qed.

Lemma noted_keys fs k :
  byKey (foldl note nothing_read fs) !! k = match keyed_in k fs with [] => None | rs => Some rs end.
Proof.
  induction fs as [|f fs IH] using rev_ind; [done|]. rewrite note_snoc, keyed_in_snoc.
  set (b := foldl note nothing_read fs) in *. unfold note.
  destruct (is_control f) eqn:Ec.
  { rewrite decide_False, app_nil_r by (by intros [? _]; congruence). done. }
  destruct (f_key f) as [k'|] eqn:Ek; cbn [byKey].
  2: { rewrite decide_False, app_nil_r by (by intros [_ ?]; congruence). done. }
  destruct (decide (k' = k)) as [->|Hne].
  - rewrite lookup_insert_eq, decide_True, IH by done. by destruct (keyed_in k fs).
  - rewrite lookup_insert_ne, decide_False, app_nil_r; [done| |done]. intros [_ ?]. congruence.
Qed.

Lemma noted_unkeyed fs : b_unkeyed (foldl note nothing_read fs) = rec_of <$> filter has_none fs.
Proof.
  induction fs as [|f fs IH] using rev_ind; [done|].
  rewrite note_snoc, filter_app, fmap_app, filter_cons, filter_nil, <- IH.
  set (b := foldl note nothing_read fs) in *. unfold note.
  destruct (is_control f) eqn:Ec; cbn [b_unkeyed].
  { by rewrite decide_False, app_nil_r by (by intros [? _]; congruence). }
  destruct (f_key f) as [k'|] eqn:Ek; cbn [b_unkeyed].
  - by rewrite decide_False, app_nil_r by (by intros [_ ?]; congruence).
  - by rewrite decide_True by done.
Qed.

Lemma noted_control fs :
  b_control (foldl note nothing_read fs) = f_off <$> filter (λ f, is_control f = true) fs.
Proof.
  induction fs as [|f fs IH] using rev_ind; [done|].
  rewrite note_snoc, filter_app, fmap_app, filter_cons, filter_nil, <- IH.
  set (b := foldl note nothing_read fs) in *. unfold note.
  destruct (is_control f) eqn:Ec; cbn [b_control].
  - by rewrite decide_True by done.
  - rewrite decide_False, app_nil_r by done. by destruct (f_key f).
Qed.

(** The keys in increasing order, each with its records. *)
Definition key_order (ks : list (bytes * list digestRec)) : Prop :=
  StronglySorted (λ a b, BytesOrd.Compare a.1 b.1 = Lt) ks.

Lemma key_list_order m : key_order (key_list m).
Proof.
  unfold key_order, key_list. apply (StronglySorted_fmap _ (λ a b, BytesOrd.Compare a b = Lt)); [done|].
  pose proof BytesOrd.le_trans. pose proof (Sorted_StronglySorted _ _ (BytesOrd.sorted_keys_sorted m)) as Hs. pose proof (BytesOrd.sorted_keys_NoDup m) as Hn.
  induction Hs as [|k ks Hs IH Hk]; [constructor|]. apply NoDup_cons in Hn as [Hk' Hn].
  constructor; [by apply IH|]. rewrite Forall_forall in Hk |- *. intros k2 Hin. specialize (Hk k2 Hin).
  unfold BytesOrd.le in Hk. destruct (BytesOrd.Compare k k2) eqn:E; [|done|done].
  apply BytesOrd.Compare_eq in E. by subst.
Qed.

Lemma elem_of_key_list m k rs : (k, rs) ∈ key_list m ↔ m !! k = Some rs.
Proof.
  unfold key_list. rewrite list_elem_of_fmap. split.
  - intros (k' & E & Hk%BytesOrd.elem_of_sorted_keys). injection E as -> ->. by destruct Hk as [rs ->].
  - intros E. exists k. rewrite E. split; [done|]. apply BytesOrd.elem_of_sorted_keys. by eexists.
Qed.

(** A digest says of a segment exactly which keys it holds, where, and which
    records have none. *)
Definition describes (d : keyDigest) (fs : list frm) : Prop :=
  (∃ ks rest, keyed d = write_keys (base d) (baseTs d) ks ++ rest ∧ nKeys d = zlen ks ∧ key_order ks ∧
     ∀ k rs, (k, rs) ∈ ks ↔ rs = keyed_in k fs ∧ rs ≠ []) ∧
  unkeyed d = rec_of <$> filter has_none fs ∧
  control d = f_off <$> filter (λ f, is_control f = true) fs.

Lemma describes_streamed d fs rest : describes d fs → describes (streamed d rest) fs.
Proof.
  intros ((ks & r & Ek & Hk) & Hu & Hc). split; [|done]. exists ks, (r ++ rest).
  split; [|done]. cbn [streamed keyed base baseTs]. by rewrite Ek, <- app_assoc.
Qed.

Lemma digest_of_describes b len bTs fs : describes (digest_of b len bTs (foldl note nothing_read fs)) fs.
Proof.
  split; [|split; [apply noted_unkeyed|apply noted_control]].
  exists (key_list (byKey (foldl note nothing_read fs))), []. cbn [digest_of keyed base baseTs nKeys].
  split; [by rewrite app_nil_r|]. split; [|split; [apply key_list_order|]].
  - unfold key_list, zlen. by rewrite length_fmap, BytesOrd.length_sorted_keys.
  - intros k rs. rewrite elem_of_key_list, noted_keys. destruct (keyed_in k fs) as [|r l].
    + split; [done|]. by intros [-> ?].
    + split; [by intros [= <-]|]. by intros [-> _].
Qed.

(** *** The size of a digest *)

Lemma zlen_concat_upper {A B} (g : A → list B) l c :
  (∀ x, x ∈ l → zlen (g x) ≤ c) → zlen (concat (g <$> l)) ≤ c * zlen l.
Proof.
  intros Hg. induction l as [|x l IH]; [change (0 ≤ c * 0); lia|]. cbn [fmap list_fmap concat].
  rewrite zlen_app, zlen_cons. pose proof (Hg x ltac:(by left)). 
  specialize (IH ltac:(intros y Hy; apply Hg; by right)). lia.
Qed.

Lemma write_recs_len b bTs rs : zlen (write_recs b bTs rs) ≤ 21 * zlen rs.
Proof.
  apply zlen_concat_upper. intros r _. unfold write_rec. rewrite !zlen_app.
  pose proof (Varint.append_uvarint_len (uint 64 (offset r - b))). pose proof (Varint.append_varint_len (sint 64 (ts r - bTs))).
  change (zlen [byte.of_Z (flags r)]) with 1. lia.
Qed.

Lemma f_key_len f k : f_key f = Some k → zlen k ≤ zlen (f_data f).
Proof.
  unfold f_key. destruct (SerializedMessage.Key (f_data f)) as [k'| |] eqn:E; try done. intros ->.
  unfold SerializedMessage.Key in E. apply bind_Ok_inv in E as ([[st en] sz] & _ & E).
  unfold SerializedMessage.field in E. destruct (_ =? _); [done|].
  apply bind_Ok_inv in E as (x & E & [= <-]). apply slice_Ok_inv in E as (? & ? & _ & ?). lia.
Qed.

Lemma elem_zlen f fs : f ∈ fs → zlen (f_data f) ≤ zlen (fs_bytes fs).
Proof.
  intros (a & b & ->)%list_elem_of_split. rewrite fs_bytes_app, fs_bytes_cons, !zlen_app, zlen_fbytes.
  pose_zlen. lia.
Qed.

Lemma zlen_frames fs : 32 * zlen fs ≤ zlen (fs_bytes fs).
Proof.
  induction fs as [|f fs IH]; [done|]. rewrite fs_bytes_cons, zlen_app, zlen_fbytes, zlen_cons. pose_zlen. lia.
Qed.

Lemma filter_len {A} (P : A → Prop) `{∀ x, Decision (P x)} l : zlen (filter P l) ≤ zlen l.
Proof. unfold zlen. pose proof (length_filter P l). lia. Qed.

Lemma noted_size fs : (size (byKey (foldl note nothing_read fs)) ≤ length fs)%nat.
Proof.
  induction fs as [|f fs IH] using rev_ind; [done|]. rewrite note_snoc, length_app. cbn [length].
  set (b := foldl note nothing_read fs) in *. unfold note. destruct (is_control f); cbn [byKey]; [lia|].
  destruct (f_key f) as [k|]; cbn [byKey]; [|lia]. rewrite map_size_insert. destruct (byKey b !! k); cbn; lia.
Qed.

Lemma keys_len b bTs fs :
  zlen (fs_bytes fs) < 2 ^ 31 →
  zlen (write_keys b bTs (key_list (byKey (foldl note nothing_read fs)))) ≤ 2 ^ 60.
Proof.
  intros Hz. pose proof (zlen_frames fs) as Hn. pose proof (noted_size fs) as Hs.
  etrans; [apply (zlen_concat_upper _ _ (2 ^ 33))|].
  - intros [k rs] Hk%elem_of_key_list. rewrite noted_keys in Hk. unfold write_key. cbn [fst snd]. rewrite !zlen_app.
    assert (E : rs = keyed_in k fs ∧ rs ≠ []) by (destruct (keyed_in k fs); [done|]; by injection Hk as <-).
    destruct E as [-> Hne]. pose proof (Varint.append_uvarint_len (zlen k)). pose proof (Varint.append_uvarint_len (zlen (keyed_in k fs))).
    pose proof (write_recs_len b bTs (keyed_in k fs)).
    assert (Hl : zlen (keyed_in k fs) ≤ zlen fs).
    { unfold keyed_in, zlen. rewrite length_fmap. pose proof (length_filter (has_key k) fs). lia. }
    assert (Hf : ∃ f, f ∈ fs ∧ f_key f = Some k).
    { unfold keyed_in in Hne. destruct (filter (has_key k) fs) as [|f l] eqn:Ef; [done|]. exists f.
      assert (Hin : f ∈ filter (has_key k) fs) by (rewrite Ef; by left).
      apply list_elem_of_filter in Hin as [[_ ?] ?]. done. }
    destruct Hf as (f & Hin & Hfk). apply f_key_len in Hfk. apply elem_zlen in Hin. lia.
  - unfold key_list, zlen. rewrite length_fmap, BytesOrd.length_sorted_keys. unfold zlen in Hn, Hz. lia.
Qed.

(** ** Building and reloading *)

Lemma rec_of_ok base0 f : frm_ok base0 f → rec_ok (rec_of f).
Proof.
  intros (Hb & _ & Ho & Ht & _). split; [unfold in_sint; cbn; lia|]. split; [|done].
  cbn [rec_of flags]. unfold rec_flags. destruct (_ =? _), (bool_decide _); by vm_compute.
Qed.

Lemma recs_ok base0 (P : frm → Prop) `{∀ f, Decision (P f)} fs :
  Forall (frm_ok base0) fs → Forall rec_ok (rec_of <$> filter P fs).
Proof.
  intros Hf. apply Forall_fmap, Forall_filter. eapply Forall_impl; [exact Hf|]. intros f. apply rec_of_ok.
Qed.

Lemma digest_of_ok base0 len bTs fs :
  frames_ok base0 fs → in_sint 64 len → in_sint 64 bTs →
  digest_ok (digest_of base0 len bTs (foldl note nothing_read fs)) ∧
  zlen (encodeKeyDigest (digest_of base0 len bTs (foldl note nothing_read fs))) < 2 ^ 62.
Proof.
  intros (Hb & Hf & _ & _ & Hz) Hl Ht. pose proof (keys_len base0 bTs fs Hz) as Hk.
  pose proof (zlen_frames fs) as Hn. pose proof (noted_size fs) as Hs.
  assert (Hnn : Z.of_nat (length fs) ≤ 2 ^ 26) by (unfold zlen in *; lia).
  assert (Hu : Forall rec_ok (b_unkeyed (foldl note nothing_read fs))).
  { rewrite noted_unkeyed. by apply (recs_ok base0). }
  assert (Hc : Forall (in_sint 64) (b_control (foldl note nothing_read fs))).
  { rewrite noted_control. apply Forall_fmap, Forall_filter. eapply Forall_impl; [exact Hf|].
    intros f (? & _ & ? & _). unfold in_sint. cbn. lia. }
  assert (Hul : zlen (b_unkeyed (foldl note nothing_read fs)) ≤ 2 ^ 26).
  { rewrite noted_unkeyed. unfold zlen. rewrite length_fmap. pose proof (length_filter has_none fs). lia. }
  assert (Hcl : zlen (b_control (foldl note nothing_read fs)) ≤ 2 ^ 26).
  { rewrite noted_control. unfold zlen. rewrite length_fmap.
    pose proof (length_filter (λ f, is_control f = true) fs). lia. }
  assert (Hlen : zlen (encodeKeyDigest (digest_of base0 len bTs (foldl note nothing_read fs))) < 2 ^ 62);
    [|split; [|done]; split; [cbn; unfold in_sint; lia|]; split; [done|]; split; [done|];
      split; [cbn; unfold in_sint; lia|]; split; [cbn; lia|]; split; [cbn [digest_of nKeys]; lia|];
      split; [done|]; split; [done|]; lia].
  unfold encodeKeyDigest, digest_body.
  cbn [digest_of base logSize baseTs stripVerifiedBelow stripHdrs keyed nKeys unkeyed control fmap list_fmap concat].
  rewrite !zlen_app, !BigEndian.zlen_put. set (x := foldl note nothing_read fs) in *.
  pose proof (write_recs_len base0 bTs (b_unkeyed x)).
  pose proof (zlen_concat_upper (λ o, Varint.append_uvarint (uint 64 (o - base0))) (b_control x) 10
    ltac:(intros; apply Varint.append_uvarint_len)).
  pose proof (Varint.append_uvarint_len (zlen (@nil bytes))).
  pose proof (Varint.append_uvarint_len (uint 64 (Z.of_nat (size (byKey x))))).
  pose proof (Varint.append_uvarint_len (zlen (write_keys base0 bTs (key_list (byKey x))))).
  pose proof (Varint.append_uvarint_len (zlen (b_unkeyed x))).
  pose proof (Varint.append_uvarint_len (zlen (b_control x))).
  change (zlen [byte.of_Z digestVersion]) with 1. change (zlen (@nil byte)) with 0. lia.
Qed.

Section build.
Context `{CodecLib}.

Lemma build_spec fuel s fs :
  holds s fs → Forall legible fs → (length fs < fuel)%nat →
  ∃ d, buildKeyDigest fuel s = Some (Ok d) ∧ describes d fs ∧ digest_ok d ∧
    base d = BaseOffset s ∧ logSize d = position s ∧ stripVerifiedBelow d = -1 ∧ stripHdrs d = [] ∧
    zlen (encodeKeyDigest d) < 2 ^ 62.
Proof.
  intros Hh Hl Hfuel. unfold buildKeyDigest. rewrite (scanning_holds fuel s fs) by done.
  pose proof Hh as (Hlk & _ & _ & Hfr & (_ & _ & Hft & _) & _). pose proof Hfr as (_ & Hf & Hd & _ & Hz).
  rewrite (digest_scan_frames (BaseOffset s)), !bind_Ok by done. eexists. split; [done|].
  split; [apply digest_of_describes|].
  assert (Hok : digest_ok (digest_of (BaseOffset s) (position s) (firstWriteTime s) (foldl note nothing_read fs)) ∧
    zlen (encodeKeyDigest (digest_of (BaseOffset s) (position s) (firstWriteTime s) (foldl note nothing_read fs))) < 2 ^ 62);
    [|destruct Hok; by split_and!].
  apply digest_of_ok; [done| |].
  - rewrite (log_ok_position _ _ Hlk). unfold in_sint. pose_zlen. lia.
  - rewrite Hft. unfold head_ts. destruct fs as [|f fs]; [cbn; unfold in_sint; lia|]. cbn.
    apply Forall_cons in Hf as [(_ & _ & _ & ? & _) _]. done.
Qed.

End build.

(** Keys the iterator accepts. *)
Definition short_keys (fs : list frm) : Prop :=
  Forall (λ f, ∀ k, f_key f = Some k → zlen k ≤ Z.shiftl 1 24) fs.

(** The digest with another stamp. *)
Definition restamp (d : keyDigest) (stamp : Z) (hdrs : list bytes) : keyDigest :=
  {| base := base d; logSize := logSize d; baseTs := baseTs d; stripVerifiedBelow := stamp;
     stripHdrs := hdrs; keyed := keyed d; nKeys := nKeys d; unkeyed := unkeyed d; control := control d |}.

(** Header names a digest has room for. *)
Definition short_names (hdrs : list bytes) : Prop := (length hdrs ≤ 64)%nat ∧ Forall (λ h, zlen h < 2 ^ 32) hdrs.

Lemma describes_restamp d fs stamp hdrs : describes d fs → describes (restamp d stamp hdrs) fs.
Proof. done. Qed.

Lemma restamp_ok d stamp hdrs :
  digest_ok d → zlen (encodeKeyDigest d) < 2 ^ 62 → in_sint 64 stamp → short_names hdrs → digest_ok (restamp d stamp hdrs).
Proof.
  intros (H1 & H2 & H3 & _ & _ & H6 & H7 & H8 & _) Hz Hs [Hn Hl]. do 8 (split; [done|]).
  unfold encodeKeyDigest, digest_body in *.
  cbn [restamp base logSize baseTs stripVerifiedBelow stripHdrs keyed nKeys unkeyed control] in *.
  rewrite !zlen_app, !BigEndian.zlen_put in *.
  assert (Hc : zlen (concat (write_hdr <$> hdrs)) ≤ zlen hdrs * (2 ^ 32 + 10)).
  { clear -Hl. induction Hl as [|h hdrs Hh _ IH]; [done|]. cbn [fmap list_fmap concat]. rewrite zlen_app, zlen_cons.
    unfold write_hdr at 1. rewrite zlen_app. pose proof (Varint.append_uvarint_len (zlen h)). lia. }
  pose proof (Varint.append_uvarint_len (zlen hdrs)). unfold zlen in Hc at 2. pose_zlen. lia.
Qed.

(** The iterator of a digest goes through the keys of the segment in order. *)
Lemma describes_iterates base0 d fs :
  describes d fs → frames_ok base0 fs → short_keys fs →
  ∃ ks, iterates (base d) (baseTs d) (newDigestIter d) ks ∧ key_order ks ∧
    ∀ k rs, (k, rs) ∈ ks ↔ rs = keyed_in k fs ∧ rs ≠ [].
Proof.
  intros ((ks & rest & Ek & En & Ho & Hks) & _) (_ & Hf & _ & _ & Hz) Hsk. exists ks.
  split; [|done]. split; [done|]. split; [done|]. split; [done|]. split; [|by exists rest].
  apply Forall_forall. intros [k rs] Hin. apply Hks in Hin as [-> Hne]. pose proof (zlen_frames fs) as Hn.
  split; [|split; [|by apply (recs_ok base0)]]; cbn [fst snd].
  - unfold keyed_in in Hne. destruct (filter (has_key k) fs) as [|f l] eqn:Ef; [done|].
    assert (Hin : f ∈ filter (has_key k) fs) by (rewrite Ef; by left).
    apply list_elem_of_filter in Hin as [[_ Hk] Hin]. unfold short_keys in Hsk. rewrite Forall_forall in Hsk.
    by apply (Hsk f).
  - unfold keyed_in, zlen in *. rewrite length_fmap. pose proof (length_filter (has_key k) fs). lia.
Qed.

Lemma load_unsealed b len body crc :
  zlen crc = 4 → ¬ Crc32.seals Crc32.IEEE crc body → loadKeyDigest b len (Some (body ++ crc)) = Ok None.
Proof.
  intros Hc Hs. unfold loadKeyDigest. destruct (_ <? _); [done|].
  rewrite slice_to_app, bind_Ok by (rewrite zlen_app; lia). rewrite slice_from_app, bind_Ok by (rewrite zlen_app; lia).
  rewrite <- (app_nil_r crc) at 1. rewrite BigEndian.read_app, bind_Ok by (unfold zlen in Hc; lia).
  by rewrite (proj2 (Z.eqb_neq _ _)) by done.
Qed.

Lemma load_damaged b len d i x y :
  encodeKeyDigest d !! i = Some y → x ≠ y →
  loadKeyDigest b len (Some (<[i := x]> (encodeKeyDigest d))) = Ok None.
Proof.
  intros Hi Hne. unfold encodeKeyDigest in *.
  assert (Hs : Crc32.seals Crc32.IEEE (BigEndian.put 4 (Crc32.Checksum Crc32.IEEE (digest_body d))) (digest_body d)).
  { unfold Crc32.seals. by rewrite BigEndian.get_put_uint by (apply Crc32.ieee_range). }
  destruct (insert_app_cases _ _ i x y Hi) as [[Hy ->]|[Hy ->]]; apply load_unsealed.
  - apply BigEndian.zlen_put.
  - by eapply Crc32.seal_body; [apply Crc32.IEEE_ok|..].
  - unfold zlen. rewrite length_insert. by rewrite BigEndian.length_put.
  - by eapply Crc32.seal_crc.
Qed.

(** C36: A digest survives its file.  The digest built by a scan says exactly which
    keys the segment holds and where; written to its file and loaded for a
    segment of the same base and size it is the same digest, streamed from the
    file; with one byte of the file changed it is not loaded. *)
Theorem digest_sidecar `{CodecLib} fuel s fs :
  holds s fs → Forall legible fs → (length fs < fuel)%nat →
  ∃ d rest, buildKeyDigest fuel s = Some (Ok d) ∧ describes d fs ∧
    loadKeyDigest (BaseOffset s) (position s) (Some (encodeKeyDigest d)) = Ok (Some (streamed d rest)) ∧
    describes (streamed d rest) fs ∧
    ∀ i x y, encodeKeyDigest d !! i = Some y → x ≠ y →
      loadKeyDigest (BaseOffset s) (position s) (Some (<[i := x]> (encodeKeyDigest d))) = Ok None.
Proof.
  intros Hh Hl Hfuel. destruct (build_spec fuel s fs Hh Hl Hfuel) as (d & E & Hd & Hok & Eb & Es & _).
  destruct (load_encoded d Hok) as [rest El]. exists d, rest. rewrite <- Eb, <- Es.
  split; [done|]. split; [done|]. split; [done|]. split; [by apply describes_streamed|].
  intros i x y. apply load_damaged.
Qed.

(** *** Sample records *)

(** A record without headers. *)
Definition plain (attrs : Z) (k v : option bytes) : Message :=
  {| MagicByte := 0; Attributes := attrs; Key := k; Value := v; Headers := ∅; Timestamp := 0; LeaderEpoch := 0 |}.

Definition plain_frame (o t attrs : Z) (k v : option bytes) : frm :=
  {| f_off := o; f_ts := t; f_ep := 0; f_data := record_bytes (plain attrs k v) [] |}.

Lemma plain_readable attrs k v :
  in_sint 8 attrs → zlen (field_bytes k) + zlen (field_bytes v) < 2 ^ 30 → readable (plain attrs k v) [].
Proof.
  intros Ha Hz. split; [cbn; by rewrite map_to_list_empty|]. split; [by vm_compute|]. split; [done|].
  assert (Hx : ∀ x, zlen (field_bytes x) < 2 ^ 30 → fits x = true).
  { intros [x|]; [|done]. cbn. rewrite zlen_app, BigEndian.zlen_put. intros. unfold MaxInt32. apply Z.leb_le. lia. }
  pose_zlen. split.
  { unfold encodable. cbn. rewrite !Hx by lia. done. }
  split; [constructor|]. split; [by vm_compute|]. unfold record_bytes, record_body. cbn [plain MagicByte Attributes Key Value Headers].
  rewrite !zlen_app, !BigEndian.zlen_put. change (zlen (headers_bytes [])) with 0. lia.
Qed.

Lemma plain_legible o t attrs k v :
  in_sint 8 attrs → zlen (field_bytes k) + zlen (field_bytes v) < 2 ^ 30 →
  legible (plain_frame o t attrs k v) ∧ f_attrs (plain_frame o t attrs k v) = attrs ∧
  f_key (plain_frame o t attrs k v) = k ∧ f_value (plain_frame o t attrs k v) = v ∧
  f_hdrs (plain_frame o t attrs k v) = ∅.
Proof.
  intros Ha Hz. destruct (legible_record (plain_frame o t attrs k v) _ [] (plain_readable attrs k v Ha Hz) eq_refl)
    as (Hl & Ea & Ek & Ev & Eh).
  split; [done|]. split; [done|]. split; [done|]. split; [done|]. cbn [plain Headers] in Eh. by apply fmap_empty_inv in Eh.
Qed.

Definition kv_frame (o k : Z) : frm :=
  plain_frame o 7 0 (Some (ascii_bytes [107; k])) (Some (ascii_bytes [118; o])).

Definition kv_frames : list frm := [kv_frame 4100 1; kv_frame 4101 2; kv_frame 4103 1].

Lemma kv_frames_ok : frames_ok 4100 kv_frames ∧ Forall legible kv_frames.
Proof.
  split.
  - split_and!; [lia|lia| | | |by vm_compute].
    + repeat (apply Forall_cons; split); [split_and!; try lia; by vm_compute..|by apply Forall_nil].
    + by repeat (apply Forall_cons; split); [..|apply Forall_nil].
    + repeat constructor; cbn; lia.
  - repeat (apply Forall_cons; split); [by apply plain_legible; vm_compute..|by apply Forall_nil].
Qed.

Lemma kv_holds :
  ∃ s, @WriteMessageSet half_lib None Index.no_faults empty_sample (fs_bytes kv_frames)
         (entries_at 0 kv_frames) = (s, Ok ()) ∧ @holds half_lib s kv_frames ∧ kept empty_sample s.
Proof.
  destruct (@holds_append half_lib half_laws empty_sample [] kv_frames) as (s & E & Hh & Hk & _); [|done|done| |].
  - apply empty_sample_holds.
  - apply kv_frames_ok.
  - by exists s.
Qed.

Lemma digest_sidecar_witness :
  ∃ s d rest, @WriteMessageSet half_lib None Index.no_faults empty_sample (fs_bytes kv_frames)
         (entries_at 0 kv_frames) = (s, Ok ()) ∧ @buildKeyDigest half_lib 9 s = Some (Ok d) ∧
    loadKeyDigest (BaseOffset s) (position s) (Some (encodeKeyDigest d)) = Ok (Some (streamed d rest)) ∧
    describes (streamed d rest) kv_frames.
Proof.
  destruct kv_holds as (s & E & Hh & _).
  destruct (@digest_sidecar half_lib 9 s kv_frames Hh (proj2 kv_frames_ok)) as (d & rest & Ed & _ & El & Hd & _);
    [simpl; lia|].
  exists s, d, rest. exact (conj E (conj Ed (conj El Hd))).
Defined.

End KeyDigest.
