(* ===== verification/Compaction.v ===== *)
(** * What a compaction removes: compact_cleaner.go, first half

    A pass decides from the key digests of all segments which records to drop:
    those superseded by a newer copy of their key, and expired tombstones.  The
    digests are merged in key order into one bitmap per segment ([dropSet],
    [mergeDigests]); [classify] then decides each record by its offset, its
    attributes and that bitmap, and [canSkip] tells from the digest alone that a
    segment has nothing to change.  The theorems state the decisions on the
    records of the log. *)

From Stdlib Require Import ZArith Lia.
From stdpp Require Import base list numbers strings gmap sorting.
From coqutil Require Import Byte.
From S2P Require Import Prelude GoStd Wire Compress BlockV3 Block Framing Index Segment.
From S2P Require Import SegmentIndex SegmentSearch KeyDigest.

#[local] Set Warnings "-clear-no-such-hyp".

Open Scope Z_scope.

Module Compaction.
Import Segment SegmentIndex SegmentSearch KeyDigest.

(** ** Drop bitmaps *)

Record dropSet := { ds_base : Z; ds_bits : list Z; ds_count : Z }.

Definition newDropSet (base next : Z) : dropSet :=
  let n := next - base in
  let n := if n <? 0 then 0 else n in
  {| ds_base := base; ds_bits := replicate (Z.to_nat ((n + 63) / 64)) 0; ds_count := 0 |}.

Definition ds_set (d : dropSet) (off : Z) : dropSet :=
  let i := off - ds_base d in
  if (i <? 0) || (zlen (ds_bits d) * 64 <=? i) then d
  else
    let w := Z.to_nat (i / 64) in
    let b := i mod 64 in
    let word := default 0 (ds_bits d !! w) in
    if Z.land word (Z.shiftl 1 b) =? 0
    then {| ds_base := ds_base d; ds_bits := <[w := Z.lor word (Z.shiftl 1 b)]> (ds_bits d);
            ds_count := ds_count d + 1 |}
    else d.

(** [None] is the nil pointer. *)
Definition ds_get (d : option dropSet) (off : Z) : bool :=
  match d with
  | None => false
  | Some d =>
      let i := off - ds_base d in
      if (i <? 0) || (zlen (ds_bits d) * 64 <=? i) then false
      else negb (Z.land (default 0 (ds_bits d !! Z.to_nat (i / 64))) (Z.shiftl 1 (i mod 64)) =? 0)
  end.

(** ** The spec of a pass *)

(** Of [CleanSpec] what the compaction reads; [ceiling] is resolved. *)
Record CleanSpec := {
  ceiling : Z;
  stripOnly : bool;
  StripBelow : Z;
  StripHeaders : list bytes;
  Aborted : option (Z → bool);
  TombstoneGCBelow : Z;
  TombstoneRetention : Z;
}.

Definition stripActive (spec : CleanSpec) : bool :=
  (0 <? StripBelow spec) && (0 <? zlen (StripHeaders spec)).

Definition aborts (spec : CleanSpec) (off : Z) : bool :=
  match Aborted spec with Some f => f off | None => false end.

(** ** The merge *)

Record mergeResult := {
  drops : list (option dropSet);
  abortedKeyed : list bool;
  stripKeyed : list bool;
  gcSegs : list bool;
}.

(** The closure [drop]; [bounds] are the base and next offsets of the segments. *)
Definition drop_at (bounds : list (Z * Z)) (res : mergeResult) (i : nat) (off : Z) : mergeResult :=
  let d := match drops res !! i with
           | Some (Some d) => d
           | _ => let '(b, n) := default (0, 0) (bounds !! i) in newDropSet b n
           end in
  {| drops := <[i := Some (ds_set d off)]> (drops res); abortedKeyed := abortedKeyed res;
     stripKeyed := stripKeyed res; gcSegs := gcSegs res |}.

Definition mark_aborted (res : mergeResult) (i : nat) : mergeResult :=
  {| drops := drops res; abortedKeyed := <[i := true]> (abortedKeyed res); stripKeyed := stripKeyed res;
     gcSegs := gcSegs res |}.

Definition mark_strip (res : mergeResult) (i : nat) : mergeResult :=
  {| drops := drops res; abortedKeyed := abortedKeyed res; stripKeyed := <[i := true]> (stripKeyed res);
     gcSegs := gcSegs res |}.

Definition mark_gc (res : mergeResult) (i : nat) : mergeResult :=
  {| drops := drops res; abortedKeyed := abortedKeyed res; stripKeyed := stripKeyed res;
     gcSegs := <[i := true]> (gcSegs res) |}.

(** The copies of the current key that compete, and the latest of them. *)
Record gathering := { parts : list (nat * digestRec); latest : option (nat * digestRec) }.

Definition gather_rec (spec : CleanSpec) (i : nat) (st : mergeResult * gathering) (r : digestRec)
    : mergeResult * gathering :=
  let '(res, g) := st in
  let res := if stripActive spec && (offset r <? StripBelow spec) &&
                negb (Z.land (flags r) digestFlagHasHeaders =? 0)
             then mark_strip res i else res in
  if ceiling spec <? offset r then (res, g)
  else if aborts spec (offset r) then
    (if offset r <? ceiling spec then mark_aborted res i else res, g)
  else
    (res, {| parts := parts g ++ [(i, r)];
             latest := if default (-1) ((λ x, offset x.2) <$> latest g) <? offset r
                       then Some (i, r) else latest g |}).

(** One turn over the iterators: those at the key are gathered and advanced. *)
Fixpoint gather (spec : CleanSpec) (key : bytes) (i : nat) (its : list (option digestIter))
    (st : mergeResult * gathering) : outcome (list (option digestIter) * (mergeResult * gathering)) :=
  match its with
  | [] => Ok ([], st)
  | None :: its =>
      '(its, st) ← gather spec key (S i) its st; Ok (None :: its, st)
  | Some it :: its =>
      if negb (bool_decide (it_key it = key)) then
        '(its, st) ← gather spec key (S i) its st; Ok (Some it :: its, st)
      else
        let st := foldl (gather_rec spec i) st (it_recs it) in
        it ← next it;
        '(its, st) ← gather spec key (S i) its st;
        Ok (it :: its, st)
  end.

(** The smallest current key. *)
Definition smaller (m : option bytes) (it : option digestIter) : option bytes :=
  match it, m with
  | None, _ => m
  | Some it, None => Some (it_key it)
  | Some it, Some k => match BytesOrd.Compare (it_key it) k with Lt => Some (it_key it) | _ => Some k end
  end.

Definition min_key (its : list (option digestIter)) : option bytes := foldl smaller None its.

(** What the pass does with a key once its copies are gathered. *)
Definition drop_superseded (spec : CleanSpec) (bounds : list (Z * Z)) (latestOff : Z) (res : mergeResult)
    (p : nat * digestRec) : mergeResult :=
  if negb (offset p.2 =? latestOff) && (offset p.2 <? ceiling spec) then drop_at bounds res p.1 (offset p.2) else res.

Definition expired_rec (spec : CleanSpec) (now : Z) (r : digestRec) : bool :=
  (0 <? TombstoneRetention spec) && negb (Z.land (flags r) digestFlagTombstone =? 0) &&
  (offset r <? TombstoneGCBelow spec) && (0 <? ts r) && (ts r <? sint 64 (now - TombstoneRetention spec)).

Definition settle (spec : CleanSpec) (now : Z) (bounds : list (Z * Z)) (st : mergeResult * gathering)
    : mergeResult :=
  let '(res, g) := st in
  match latest g with
  | None => res
  | Some (i, r) =>
      let res := foldl (drop_superseded spec bounds (offset r)) res (parts g) in
      if expired_rec spec now r then mark_gc (drop_at bounds res i (offset r)) i else res
  end.

Fixpoint merge_loop (fuel : nat) (spec : CleanSpec) (now : Z) (bounds : list (Z * Z))
    (its : list (option digestIter)) (res : mergeResult) : option (outcome mergeResult) :=
  match fuel with
  | O => None
  | S fuel =>
      match min_key its with
      | None => Some (Ok res)
      | Some key =>
          match gather spec key 0 its (res, {| parts := []; latest := None |}) with
          | Ok (its, st) => merge_loop fuel spec now bounds its (settle spec now bounds st)
          | Fail e => Some (Fail e)
          | Panic => Some Panic
          end
      end
  end.

Fixpoint start_iters (ds : list keyDigest) : outcome (list (option digestIter)) :=
  match ds with
  | [] => Ok []
  | d :: ds => it ← next (newDigestIter d); its ← start_iters ds; Ok (it :: its)
  end.

Definition nothing_merged (n : nat) : mergeResult :=
  {| drops := replicate n None; abortedKeyed := replicate n false; stripKeyed := replicate n false;
     gcSegs := replicate n false |}.

Definition mergeDigests (fuel : nat) (spec : CleanSpec) (now : Z) (bounds : list (Z * Z)) (ds : list keyDigest)
    : option (outcome mergeResult) :=
  match start_iters ds with
  | Ok its => merge_loop fuel spec now bounds its (nothing_merged (length ds))
  | Fail e => Some (Fail e)
  | Panic => Some Panic
  end.

(** ** Decisions *)

Definition canSkip (spec : CleanSpec) (d : keyDigest) (m : mergeResult) (i : nat) : bool :=
  if match drops m !! i with Some (Some s) => 0 <? ds_count s | _ => false end then false
  else if default false (abortedKeyed m !! i) then false
  else if stripActive spec &&
          (existsb (λ off, off <? StripBelow spec) (control d) ||
           (default false (stripKeyed m !! i) &&
              negb (stripStampCovers d (StripBelow spec) (StripHeaders spec))) ||
           existsb (λ r, (offset r <? StripBelow spec) && negb (Z.land (flags r) digestFlagHasHeaders =? 0) &&
                           negb (stripStampCovers d (StripBelow spec) (StripHeaders spec))) (unkeyed d))
  then false
  else negb (existsb (λ r, (offset r <? ceiling spec) && aborts spec (offset r)) (unkeyed d)).

Inductive disposition := dispRetain | dispRemove | dispStrip.

#[export] Instance disposition_eq_dec : EqDecision disposition.
Proof. solve_decision. Defined.

Definition classify (spec : CleanSpec) (off : Z) (msg : bytes) (d : option dropSet) : outcome disposition :=
  if ceiling spec <=? off then Ok dispRetain
  else
    attrs ← SerializedMessage.Attributes msg;
    let strips := (off <? StripBelow spec) && (0 <? zlen (StripHeaders spec)) in
    if negb (Z.land attrs AttrControl =? 0) then Ok (if strips then dispRemove else dispRetain)
    else if aborts spec off then Ok dispRemove
    else
      key ← SerializedMessage.Key msg;
      match key with
      | None => Ok (if strips then dispStrip else dispRetain)
      | Some _ =>
          if ds_get d off then Ok dispRemove
          else Ok (if strips then dispStrip else dispRetain)
      end.

(** ** Bitmaps are sets *)

Lemma land_bit w c : 0 ≤ c → (Z.land w (Z.shiftl 1 c) =? 0) = negb (Z.testbit w c).
Proof.
  intros Hc. rewrite Z.shiftl_1_l. destruct (Z.testbit w c) eqn:E; cbn [negb].
  - apply Z.eqb_neq. intros H0. apply (f_equal (λ z, Z.testbit z c)) in H0.
    by rewrite Z.land_spec, E, Z.pow2_bits_true, Z.bits_0 in H0 by lia.
  - apply Z.eqb_eq, Z.bits_inj_0. intros n. rewrite Z.land_spec.
    destruct (decide (n = c)) as [->|Hn]; [by rewrite E|]. by rewrite Z.pow2_bits_false, andb_false_r by lia.
Qed.

(** The offsets a bitmap has a bit for. *)
Definition in_reach (d : dropSet) (off : Z) : bool :=
  (0 <=? off - ds_base d) && (off - ds_base d <? zlen (ds_bits d) * 64).

Lemma ds_get_bit d off :
  ds_get (Some d) off = in_reach d off &&
    Z.testbit (default 0 (ds_bits d !! Z.to_nat ((off - ds_base d) / 64))) ((off - ds_base d) mod 64).
Proof.
  unfold ds_get, in_reach. rewrite land_bit, negb_involutive by (apply Z.mod_pos_bound; lia).
  destruct (Z.ltb_spec (off - ds_base d) 0), (Z.leb_spec (zlen (ds_bits d) * 64) (off - ds_base d)),
    (Z.leb_spec 0 (off - ds_base d)), (Z.ltb_spec (off - ds_base d) (zlen (ds_bits d) * 64)); done || lia.
Qed.

Lemma in_reach_set d off x : in_reach (ds_set d off) x = in_reach d x.
Proof.
  unfold ds_set. destruct (_ || _); [done|]. destruct (_ =? _); [|done]. unfold in_reach, zlen. cbn.
  by rewrite length_insert.
Qed.

Lemma ds_get_set d off x :
  ds_get (Some (ds_set d off)) x = ds_get (Some d) x || ((x =? off) && in_reach d off).
Proof.
  destruct (in_reach d off) eqn:Er.
  2: { unfold ds_set. rewrite andb_false_r, orb_false_r. unfold in_reach in Er.
       replace ((off - ds_base d <? 0) || (zlen (ds_bits d) * 64 <=? off - ds_base d)) with true; [done|].
       symmetry. apply andb_false_iff in Er as [Er|Er]; [apply Z.leb_gt in Er|apply Z.ltb_ge in Er];
         apply orb_true_iff; [left; by apply Z.ltb_lt|right; by apply Z.leb_le]. }
  rewrite andb_true_r, !ds_get_bit, in_reach_set.
  unfold in_reach in Er. apply andb_prop in Er as [E1%Z.leb_le E2%Z.ltb_lt].
  unfold ds_set. rewrite (proj2 (Z.ltb_ge _ _)), (proj2 (Z.leb_gt _ _)) by lia. cbn [orb].
  set (i := off - ds_base d) in *.
  assert (Hw : (Z.to_nat (i / 64) < length (ds_bits d))%nat).
  { unfold zlen in E2. pose proof (Z.div_lt_upper_bound i 64 (Z.of_nat (length (ds_bits d)))). 
    pose proof (Z.div_pos i 64). lia. }
  rewrite land_bit by (apply Z.mod_pos_bound; lia).
  assert (Hx : x = off → in_reach d x = true).
  { intros ->. unfold in_reach. fold i. by rewrite (proj2 (Z.leb_le _ _)), (proj2 (Z.ltb_lt _ _)). }
  destruct (Z.testbit (default 0 (ds_bits d !! Z.to_nat (i / 64))) (i mod 64)) eqn:Eb; cbn [negb].
  - destruct (Z.eqb_spec x off) as [->|Hne]; [|by rewrite orb_false_r]. fold i. by rewrite Hx, Eb.
  - cbn [ds_base ds_bits]. destruct (in_reach d x) eqn:Erx.
    2: { destruct (Z.eqb_spec x off) as [E|Hne]; [specialize (Hx E); congruence|done]. }
    cbn [andb]. unfold in_reach in Erx. apply andb_prop in Erx as [X1%Z.leb_le X2%Z.ltb_lt].
    pose proof (Z.div_pos i 64). pose proof (Z.div_pos (x - ds_base d) 64).
    destruct (decide ((x - ds_base d) / 64 = i / 64)) as [Eq|Hq].
    + rewrite Eq, list_lookup_insert_eq by done. change (default 0 (Some ?a)) with a.
      rewrite Z.lor_spec, Z.shiftl_1_l. f_equal. rewrite Z.pow2_bits_eqb by (apply Z.mod_pos_bound; lia).
      pose proof (Z.div_mod i 64). pose proof (Z.div_mod (x - ds_base d) 64). unfold i in *. lia.
    + rewrite list_lookup_insert_ne by lia. destruct (Z.eqb_spec x off) as [->|Hne]; [done|by rewrite orb_false_r].
Qed.

Lemma ds_get_new b n x : ds_get (Some (newDropSet b n)) x = false.
Proof.
  rewrite ds_get_bit. unfold newDropSet. cbn [ds_bits ds_base]. apply andb_false_iff. right.
  destruct (replicate _ 0 !! _) as [w|] eqn:E; cbn; [|apply Z.bits_0].
  apply lookup_replicate in E as [-> _]. apply Z.bits_0.
Qed.

Lemma in_reach_new b n x : b ≤ x < n → in_reach (newDropSet b n) x = true.
Proof.
  intros Hx. unfold in_reach, newDropSet. cbn [ds_bits ds_base]. rewrite (proj2 (Z.ltb_ge (n - b) 0)) by lia.
  unfold zlen. rewrite length_replicate. pose proof (Z.div_mod (n - b + 63) 64). pose proof (Z.mod_pos_bound (n - b + 63) 64).
  pose proof (Z.div_pos (n - b + 63) 64). apply andb_true_iff. split; [apply Z.leb_le|apply Z.ltb_lt]; lia.
Qed.

(** The count tells whether anything is in the set. *)
Definition ds_ok (d : dropSet) : Prop :=
  0 ≤ ds_count d ∧ (0 < ds_count d ↔ ∃ x, ds_get (Some d) x = true).

Lemma ds_ok_new b n : ds_ok (newDropSet b n).
Proof. split; [done|]. split; [done|]. intros [x Hx]. by rewrite ds_get_new in Hx. Qed.

Lemma ds_ok_set d off : ds_ok d → ds_ok (ds_set d off).
Proof.
  intros [Hc Hx]. pose proof (ds_get_set d off) as Hs. unfold ds_set in *.
  destruct (_ || _) eqn:Er; [done|]. destruct (_ =? 0) eqn:Eb; [|done].
  split; [cbn; lia|]. split; [|cbn; lia]. intros _. exists off. rewrite Hs, Z.eqb_refl.
  apply orb_false_iff in Er as [E1%Z.ltb_ge E2%Z.leb_gt]. unfold in_reach.
  rewrite (proj2 (Z.leb_le _ _)), (proj2 (Z.ltb_lt _ _)), orb_true_r by lia. done.
Qed.

(** ** What the merge computes *)

Definition flag (l : list bool) (i : nat) : bool := default false (l !! i).

Definition dget (res : mergeResult) (i : nat) (x : Z) : bool := ds_get (default None (drops res !! i)) x.

Lemma flag_insert l i j : (i < length l)%nat → flag (<[i := true]> l) j = flag l j || bool_decide (j = i).
Proof.
  intros Hi. unfold flag. destruct (decide (j = i)) as [->|Hne].
  - rewrite list_lookup_insert_eq, bool_decide_eq_true_2, orb_true_r by done. done.
  - by rewrite list_lookup_insert_ne, bool_decide_eq_false_2, orb_false_r by done.
Qed.

(** The result of a merge over segments with the given bounds. *)
Definition res_ok (bounds : list (Z * Z)) (res : mergeResult) : Prop :=
  length (drops res) = length bounds ∧ length (abortedKeyed res) = length bounds ∧
  length (stripKeyed res) = length bounds ∧ length (gcSegs res) = length bounds ∧
  ∀ i d b n, drops res !! i = Some (Some d) → bounds !! i = Some (b, n) →
    ds_ok d ∧ (0 < ds_count d) ∧ ∀ x, b ≤ x < n → in_reach d x = true.

Lemma drop_at_spec bounds res i off b n :
  res_ok bounds res → bounds !! i = Some (b, n) → b ≤ off < n →
  res_ok bounds (drop_at bounds res i off) ∧
  (∀ j x, dget (drop_at bounds res i off) j x = dget res j x || (bool_decide (j = i) && (x =? off))) ∧
  abortedKeyed (drop_at bounds res i off) = abortedKeyed res ∧
  stripKeyed (drop_at bounds res i off) = stripKeyed res ∧ gcSegs (drop_at bounds res i off) = gcSegs res.
Proof.
  intros (L1 & L2 & L3 & L4 & Hd) Hb Ho. unfold drop_at. rewrite Hb. change (default (0, 0) (Some ?a)) with a.
  cbn [abortedKeyed stripKeyed gcSegs]. pose proof (lookup_lt_Some _ _ _ Hb) as Hi. rewrite <- L1 in Hi.
  set (d := match drops res !! i with Some (Some d) => d | _ => newDropSet b n end).
  assert (Hds : ds_ok d ∧ (∀ x, b ≤ x < n → in_reach d x = true) ∧ ∀ x, ds_get (Some d) x = dget res i x).
  { unfold d, dget. destruct (drops res !! i) as [[d0|]|] eqn:E; cbn.
    - by destruct (Hd i d0 b n E Hb) as (? & _ & ?).
    - split; [apply ds_ok_new|]. split; [apply in_reach_new|]. intros x. apply ds_get_new.
    - split; [apply ds_ok_new|]. split; [apply in_reach_new|]. intros x. apply ds_get_new. }
  destruct Hds as (Hok & Hr & Hg). split; [|split; [|done]].
  - split; [cbn; by rewrite length_insert|]. split; [done|]. split; [done|]. split; [done|].
    cbn [drops]. intros j d' b' n' Ej Eb'. destruct (decide (j = i)) as [->|Hne].
    + rewrite list_lookup_insert_eq in Ej by done. injection Ej as <-. rewrite Hb in Eb'. injection Eb' as <- <-.
      pose proof (ds_ok_set d off Hok) as Hok'. split; [done|]. split.
      * apply Hok'. exists off. rewrite ds_get_set, Hr, Z.eqb_refl, orb_true_r by done. done.
      * intros x Hx. rewrite in_reach_set. by apply Hr.
    + rewrite list_lookup_insert_ne in Ej by done. by apply (Hd j).
  - intros j x. unfold dget. cbn [drops]. destruct (decide (j = i)) as [->|Hne].
    + rewrite list_lookup_insert_eq, bool_decide_eq_true_2 by done. change (default None (Some ?a)) with a.
      rewrite ds_get_set, Hr, andb_true_r, Hg by done. done.
    + by rewrite list_lookup_insert_ne, bool_decide_eq_false_2, orb_false_r by done.
Qed.

(** *** Iterators as lists of keys *)

Abbreviation keys := (list (bytes * list digestRec)).

(** An iterator of the merge, its current key being the first of [l]. *)
Definition stands (o : option digestIter) (l : keys) : Prop :=
  match l with
  | [] => o = None
  | (k, rs) :: l => ∃ it b bTs, o = Some it ∧ it_key it = k ∧ it_recs it = rs ∧ iterates b bTs it l
  end.

Lemma next_stands b bTs it l : iterates b bTs it l → ∃ o, next it = Ok o ∧ stands o l.
Proof.
  intros Hi. destruct l as [|[k rs] l].
  - exists None. split; [by eapply next_nil|done].
  - destruct (next_cons _ _ _ _ _ _ Hi) as (it' & E & Hk & Hr & Hi'). exists (Some it'). split; [done|].
    by exists it', b, bTs.
Qed.

(** The records under a key that can only come first, and what is left. *)
Definition hd_recs (k : bytes) (l : keys) : list digestRec :=
  match l with (k', rs) :: _ => if decide (k' = k) then rs else [] | [] => [] end.

Definition tl_keys (k : bytes) (l : keys) : keys :=
  match l with (k', _) :: l' => if decide (k' = k) then l' else l | [] => [] end.

Fixpoint gather_all (spec : CleanSpec) (k : bytes) (i : nat) (R : list keys) (st : mergeResult * gathering)
    : mergeResult * gathering :=
  match R with
  | [] => st
  | l :: R => gather_all spec k (S i) R (foldl (gather_rec spec i) st (hd_recs k l))
  end.

Lemma gather_stands spec k i its R st :
  Forall2 stands its R →
  ∃ its', gather spec k i its st = Ok (its', gather_all spec k i R st) ∧ Forall2 stands its' (tl_keys k <$> R).
Proof.
  intros HF. revert i st. induction HF as [|o l its R Ho HF IH]; intros i st; [by exists []|].
  destruct l as [|[k' rs] l]; cbn [stands] in Ho.
  - subst o. cbn [gather gather_all hd_recs foldl]. destruct (IH (S i) st) as (its' & -> & HF').
    exists (None :: its'). rewrite bind_Ok. split; [done|]. cbn. by constructor.
  - destruct Ho as (it & b & bTs & -> & Hk & Hr & Hi). cbn [gather gather_all hd_recs fmap list_fmap tl_keys].
    rewrite Hk. destruct (decide (k' = k)) as [->|Hne].
    + rewrite bool_decide_eq_true_2 by done. cbn [negb]. destruct (next_stands _ _ _ _ Hi) as (o & -> & Ho).
      rewrite bind_Ok, Hr. destruct (IH (S i) (foldl (gather_rec spec i) st rs)) as (its' & -> & HF').
      rewrite bind_Ok. exists (o :: its'). split; [done|]. by constructor.
    + rewrite bool_decide_eq_false_2 by done. cbn [negb foldl]. destruct (IH (S i) st) as (its' & -> & HF').
      rewrite bind_Ok. exists (Some it :: its'). split; [done|]. constructor; [|done].
      by exists it, b, bTs.
Qed.

(** The smallest key is in some list, and before every other key of a list. *)
Definition not_after (k : bytes) (l : keys) : Prop :=
  match l with [] => True | (k', _) :: _ => BytesOrd.Compare k' k ≠ Lt end.

Definition at_head (k : bytes) (l : keys) : Prop := match l with (k', _) :: _ => k' = k | [] => False end.

Lemma not_after_lt k k2 l : BytesOrd.Compare k2 k = Lt → not_after k l → not_after k2 l.
Proof.
  intros Hlt. destruct l as [|[k' rs] l]; [done|]. cbn. intros Hna Hc.
  apply Hna. by apply (BytesOrd.Compare_lt_trans _ k2).
Qed.

Lemma foldl_smaller its R m :
  Forall2 stands its R →
  match foldl smaller m its with
  | None => m = None ∧ Forall (λ l, l = []) R
  | Some k => Forall (not_after k) R ∧ (m = Some k ∨ Exists (at_head k) R) ∧
      (∀ k', m = Some k' → BytesOrd.Compare k' k ≠ Lt)
  end.
Proof.
  intros HF. revert m. induction HF as [|o l its R Ho HF IH]; intros m; cbn [foldl].
  { destruct m as [k|]; [|done]. split; [constructor|]. split; [by left|]. intros k' [= <-].
    by rewrite (proj2 (BytesOrd.Compare_eq k k)). }
  specialize (IH (smaller m o)). destruct (foldl smaller (smaller m o) its) as [k|].
  2: { destruct IH as [E1 E2]. destruct l as [|[k' rs] l]; cbn in Ho.
       - subst o. split; [by destruct m|]. by constructor.
       - destruct Ho as (it & _ & _ & -> & _). destruct m; cbn in E1; [by destruct (BytesOrd.Compare _ _)|done]. }
  destruct IH as (H1 & H2 & H3). destruct l as [|[k' rs] l]; cbn in Ho.
  { subst o. cbn [smaller] in *.
    split; [by constructor|]. split; [|done]. destruct H2; [by left|right; by right]. }
  destruct Ho as (it & b & bTs & -> & Hk & _). cbn [smaller] in *. rewrite Hk in *.
  destruct m as [m|].
  - destruct (BytesOrd.Compare k' m) eqn:Ec.
    + apply BytesOrd.Compare_eq in Ec. subst m. specialize (H3 _ eq_refl). split; [by constructor|].
      split; [|intros ? [= <-]; done]. destruct H2 as [[= ->]|?]; [by left|right; by right].
    + pose proof (H3 _ eq_refl) as H3'. split; [by constructor|]. split.
      * right. destruct H2 as [[= ->]|?]; [by left|by right].
      * intros ? [= <-] Hlt. apply H3'. by apply (BytesOrd.Compare_lt_trans _ m).
    + pose proof (H3 _ eq_refl) as H3'. split; [|split].
      * constructor; [|done]. cbn. intros Hlt. apply H3'. apply (BytesOrd.Compare_lt_trans _ k'); [|done].
        by rewrite BytesOrd.Compare_antisym, Ec.
      * destruct H2 as [[= ->]|?]; [by left|right; by right].
      * intros ? [= <-]. done.
  - pose proof (H3 _ eq_refl) as H3'. split; [by constructor|]. split; [|done].
    right. destruct H2 as [[= ->]|?]; [by left|by right].
Qed.

Lemma min_key_spec its R :
  Forall2 stands its R →
  match min_key its with
  | None => Forall (λ l, l = []) R
  | Some k => Forall (not_after k) R ∧ Exists (at_head k) R
  end.
Proof.
  intros HF. pose proof (foldl_smaller its R None HF) as H. unfold min_key.
  destruct (foldl smaller None its); [|by destruct H]. destruct H as (? & [?|?] & _); done.
Qed.

(** *** Gathering a key *)

(** A copy that the merge takes for the latest of its key if none is newer: it
    stops above the ceiling, so the record at the ceiling is one, also where the
    ceiling is the first undecided offset ([undecided_shadows]). *)
Definition competing (spec : CleanSpec) (r : digestRec) : bool :=
  (offset r <=? ceiling spec) && negb (aborts spec (offset r)).

Definition strip_work (spec : CleanSpec) (r : digestRec) : bool :=
  stripActive spec && (offset r <? StripBelow spec) && negb (Z.land (flags r) digestFlagHasHeaders =? 0).

Definition abort_work (spec : CleanSpec) (r : digestRec) : bool :=
  (offset r <? ceiling spec) && aborts spec (offset r).

Definition latest_ok (g : gathering) : Prop :=
  match latest g with
  | None => parts g = []
  | Some p => p ∈ parts g ∧ ∀ q, q ∈ parts g → offset q.2 ≤ offset p.2
  end.

(** What gathering records at index [i] changes. *)
Definition gathered (spec : CleanSpec) (P : nat → digestRec → Prop) (st st' : mergeResult * gathering) : Prop :=
  drops st'.1 = drops st.1 ∧ gcSegs st'.1 = gcSegs st.1 ∧
  length (stripKeyed st'.1) = length (stripKeyed st.1) ∧
  length (abortedKeyed st'.1) = length (abortedKeyed st.1) ∧
  (∀ j, flag (stripKeyed st'.1) j = true ↔ flag (stripKeyed st.1) j = true ∨ ∃ r, P j r ∧ strip_work spec r = true) ∧
  (∀ j, flag (abortedKeyed st'.1) j = true ↔
        flag (abortedKeyed st.1) j = true ∨ ∃ r, P j r ∧ abort_work spec r = true) ∧
  (∀ j r, (j, r) ∈ parts st'.2 ↔ (j, r) ∈ parts st.2 ∨ P j r ∧ competing spec r = true) ∧
  (latest_ok st.2 → latest_ok st'.2).

Lemma gathered_ext spec P Q st st' : (∀ j r, P j r ↔ Q j r) → gathered spec P st st' → gathered spec Q st st'.
Proof. intros E. unfold gathered. by setoid_rewrite E. Qed.

Lemma gathered_trans spec P Q st1 st2 st3 :
  gathered spec P st1 st2 → gathered spec Q st2 st3 → gathered spec (λ j r, P j r ∨ Q j r) st1 st3.
Proof.
  intros (A1 & A2 & A3 & A4 & A5 & A6 & A7 & A8) (B1 & B2 & B3 & B4 & B5 & B6 & B7 & B8).
  unfold gathered. rewrite B1, B2, B3, B4. split; [done|]. split; [done|]. split; [done|]. split; [done|].
  split; [intros j; rewrite B5, A5; naive_solver|]. split; [intros j; rewrite B6, A6; naive_solver|].
  split; [intros j r; rewrite B7, A7; naive_solver|]. auto.
Qed.

Lemma gathered_refl spec st : gathered spec (λ _ _, False) st st.
Proof. unfold gathered. naive_solver. Qed.

Lemma gather_rec_spec spec i st r :
  (i < length (stripKeyed st.1))%nat → (i < length (abortedKeyed st.1))%nat → 0 ≤ offset r →
  gathered spec (λ j r', j = i ∧ r' = r) st (gather_rec spec i st r).
Proof.
  intros Hs Ha Ho. destruct st as [res g]. cbn [fst snd] in *. unfold gather_rec. fold (strip_work spec r).
  set (res1 := if strip_work spec r then mark_strip res i else res).
  assert (E1 : drops res1 = drops res ∧ gcSegs res1 = gcSegs res ∧ abortedKeyed res1 = abortedKeyed res ∧
    length (stripKeyed res1) = length (stripKeyed res) ∧
    ∀ j, flag (stripKeyed res1) j = flag (stripKeyed res) j || (bool_decide (j = i) && strip_work spec r)).
  { unfold res1. destruct (strip_work spec r); cbn.
    - split_and!; try done; [by rewrite length_insert|]. intros j. by rewrite flag_insert, andb_true_r.
    - split_and!; try done. intros j. by rewrite andb_false_r, orb_false_r. }
  destruct E1 as (E1 & E2 & E3 & E4 & E5). clearbody res1.
  assert (Hst : ∀ res2, stripKeyed res2 = stripKeyed res1 → ∀ j,
    flag (stripKeyed res2) j = true ↔ flag (stripKeyed res) j = true ∨
      ∃ r0, (j = i ∧ r0 = r) ∧ strip_work spec r0 = true).
  { intros res2 -> j. rewrite E5, orb_true_iff, andb_true_iff, bool_decide_eq_true. naive_solver. }
  destruct (Z.ltb_spec (ceiling spec) (offset r)) as [Hc|Hc].
  { unfold gathered. cbn [fst snd]. rewrite E1, E2, E3, E4. split_and!; try done; [by apply Hst| |].
    - intros j. split; [by left|]. intros [?|(r0 & [-> ->] & Hw)]; [done|].
      apply andb_prop in Hw as [Hw%Z.ltb_lt _]. lia.
    - intros j r0. split; [by left|]. intros [?|[[-> ->] Hw]]; [done|].
      apply andb_prop in Hw as [Hw%Z.leb_le _]. lia. }
  destruct (aborts spec (offset r)) eqn:Eab.
  { destruct (Z.ltb_spec (offset r) (ceiling spec)) as [Hlt|Hge]; unfold gathered, mark_aborted; cbn [fst snd].
    - cbn [drops gcSegs stripKeyed abortedKeyed]. rewrite E1, E2, E3, E4, length_insert.
      split_and!; try done; [by apply Hst| |].
      + intros j. rewrite flag_insert, orb_true_iff, bool_decide_eq_true by done. split; [|naive_solver].
        intros [?| ->]; [by left|]. right. exists r. unfold abort_work. by rewrite (proj2 (Z.ltb_lt _ _)), Eab.
      + intros j r0. split; [by left|]. intros [?|[[-> ->] Hw]]; [done|]. unfold competing in Hw. by rewrite Eab, andb_false_r in Hw.
    - rewrite E1, E2, E3, E4. split_and!; try done; [by apply Hst| |].
      + intros j. split; [by left|]. intros [?|(r0 & [-> ->] & Hw)]; [done|].
        apply andb_prop in Hw as [Hw%Z.ltb_lt _]. lia.
      + intros j r0. split; [by left|]. intros [?|[[-> ->] Hw]]; [done|]. unfold competing in Hw. by rewrite Eab, andb_false_r in Hw. }
  unfold gathered. cbn [fst snd parts latest]. rewrite E1, E2, E3, E4. split_and!; try done; [by apply Hst|..].
  - intros j. split; [by left|]. intros [?|(r0 & [-> ->] & Hw)]; [done|]. unfold abort_work in Hw. by rewrite Eab, andb_false_r in Hw.
  - intros j r0. rewrite elem_of_app, list_elem_of_singleton. split.
    + intros [?|[= -> ->]]; [by left|right]. unfold competing. by rewrite Eab, (proj2 (Z.leb_le _ _)) by lia.
    + intros [?|[[-> ->] _]]; [by left|by right].
  - unfold latest_ok. cbn [parts latest]. destruct (latest g) as [p|] eqn:El; cbn.
    + intros [Hp Hm]. destruct (Z.ltb_spec (offset p.2) (offset r)) as [Hl|Hl]; cbn [fmap option_fmap option_map].
      * split; [apply elem_of_app; right; by left|]. intros q [Hq|Hq%list_elem_of_singleton]%elem_of_app; [|by subst q].
        specialize (Hm q Hq). cbn. lia.
      * split; [apply elem_of_app; by left|]. intros q [Hq|Hq%list_elem_of_singleton]%elem_of_app; [by apply Hm|by subst q].
    + intros ->. rewrite (proj2 (Z.ltb_lt _ _)) by lia. cbn. split; [by left|].
      intros q Hq%list_elem_of_singleton. by subst q.
Qed.

Lemma foldl_gather spec i rs st :
  (i < length (stripKeyed st.1))%nat → (i < length (abortedKeyed st.1))%nat → Forall (λ r, 0 ≤ offset r) rs →
  gathered spec (λ j r, j = i ∧ r ∈ rs) st (foldl (gather_rec spec i) st rs).
Proof.
  intros Hs Ha Hr. revert st Hs Ha. induction Hr as [|r rs Hr _ IH]; intros st Hs Ha; cbn [foldl].
  - eapply gathered_ext; [|apply gathered_refl]. intros j r. rewrite elem_of_nil. tauto.
  - pose proof (gather_rec_spec spec i st r Hs Ha Hr) as G. pose proof G as (_ & _ & L1 & L2 & _).
    eapply gathered_ext; [|eapply gathered_trans; [exact G|apply IH; lia]].
    intros j x. cbn. rewrite elem_of_cons. tauto.
Qed.

(** The records of segment [j] that stand first under [k]. *)
Definition heads (k : bytes) (R : list keys) (j : nat) (r : digestRec) : Prop :=
  ∃ l, R !! j = Some l ∧ r ∈ hd_recs k l.

Lemma gather_all_spec spec k i R st :
  (i + length R ≤ length (stripKeyed st.1))%nat → (i + length R ≤ length (abortedKeyed st.1))%nat →
  Forall (λ l, Forall (λ r, 0 ≤ offset r) (hd_recs k l)) R →
  gathered spec (λ j r, (i ≤ j)%nat ∧ heads k R (j - i) r) st (gather_all spec k i R st).
Proof.
  intros Hs Ha HR. revert i st Hs Ha. induction HR as [|l R Hl _ IH]; intros i st Hs Ha; cbn [gather_all length] in *.
  - eapply gathered_ext; [|apply gathered_refl]. intros j r. unfold heads. rewrite lookup_nil. naive_solver.
  - pose proof (foldl_gather spec i (hd_recs k l) st ltac:(lia) ltac:(lia) Hl) as G. pose proof G as (_ & _ & L1 & L2 & _).
    eapply gathered_ext; [|eapply gathered_trans; [exact G|apply IH; lia]].
    intros j r. cbn. unfold heads. split.
    + intros [[-> Hr]|[Hj (l' & E & Hr)]].
      * split; [done|]. exists l. by rewrite Nat.sub_diag.
      * split; [lia|]. exists l'. by replace (j - i)%nat with (S (j - S i)) by lia.
    + intros [Hj (l' & E & Hr)]. destruct (decide (j = i)) as [->|Hne].
      * left. rewrite Nat.sub_diag in E. injection E as <-. done.
      * right. split; [lia|]. exists l'. replace (j - i)%nat with (S (j - S i)) in E by lia. done.
Qed.

(** *** Settling a key *)

(** Every copy lies in its segment. *)
Definition in_bounds (bounds : list (Z * Z)) (j : nat) (r : digestRec) : Prop :=
  ∃ b n, bounds !! j = Some (b, n) ∧ b ≤ offset r < n.

Definition same_flags (res res' : mergeResult) : Prop :=
  abortedKeyed res' = abortedKeyed res ∧ stripKeyed res' = stripKeyed res ∧ gcSegs res' = gcSegs res.

Lemma drop_superseded_all spec bounds lo ps res :
  res_ok bounds res → Forall (λ p, in_bounds bounds p.1 p.2) ps →
  res_ok bounds (foldl (drop_superseded spec bounds lo) res ps) ∧
  same_flags res (foldl (drop_superseded spec bounds lo) res ps) ∧
  ∀ j x, dget (foldl (drop_superseded spec bounds lo) res ps) j x = true ↔
    dget res j x = true ∨ ∃ r, (j, r) ∈ ps ∧ offset r = x ∧ x ≠ lo ∧ x < ceiling spec.
Proof.
  intros Hok Hps. revert res Hok. induction Hps as [|[i r] ps (b & n & Hb & Ho) _ IH]; intros res Hok; cbn [foldl].
  { split; [done|]. split; [done|]. intros j x. split; [by left|]. intros [?|(r & Hr & _)]; [done|by apply elem_of_nil in Hr]. }
  cbn [fst snd] in *. unfold drop_superseded at 2 4 6. cbn [fst snd].
  destruct (negb (offset r =? lo) && (offset r <? ceiling spec)) eqn:E.
  - apply andb_prop in E as [E1%negb_true_iff%Z.eqb_neq E2%Z.ltb_lt].
    destruct (drop_at_spec bounds res i (offset r) b n Hok Hb Ho) as (Hok' & Hd & Fa & Fs & Fg).
    destruct (IH _ Hok') as (H1 & (A1 & A2 & A3) & H3). split; [done|]. split; [unfold same_flags; by rewrite A1, A2, A3|].
    intros j x. rewrite H3, Hd, orb_true_iff, andb_true_iff, bool_decide_eq_true, Z.eqb_eq. setoid_rewrite elem_of_cons.
    split.
    + intros [[?|[-> ->]]|(r' & Hr' & ?)]; [by left| |]; right; [exists r|exists r'];
        (split; [auto|]); [|done]. by split.
    + intros [?|(r' & [[= -> ->]|Hr'] & <- & ? & ?)]; [by left; left|by left; right|right; by exists r'].
  - destruct (IH _ Hok) as (H1 & H2 & H3). split; [done|]. split; [done|]. intros j x. rewrite H3.
    setoid_rewrite elem_of_cons. split.
    { intros [?|(r' & Hr' & ?)]; [by left|right]. exists r'. by split; [right|]. }
    intros [?|(r' & [[= -> ->]|Hr'] & <- & Hn & Hc)]; [by left| |].
    + exfalso. apply andb_false_iff in E as [E%negb_false_iff%Z.eqb_eq|E%Z.ltb_ge]; [done|lia].
    + right. by exists r'.
Qed.

Lemma settle_spec spec now bounds res g :
  res_ok bounds res → Forall (λ p, in_bounds bounds p.1 p.2) (parts g) → latest_ok g →
  let res' := settle spec now bounds (res, g) in
  res_ok bounds res' ∧ abortedKeyed res' = abortedKeyed res ∧ stripKeyed res' = stripKeyed res ∧
  (∀ j x, dget res' j x = true ↔ dget res j x = true ∨
     ∃ i r, latest g = Some (i, r) ∧
       ((∃ r', (j, r') ∈ parts g ∧ offset r' = x ∧ x ≠ offset r ∧ x < ceiling spec) ∨
        (j = i ∧ x = offset r ∧ expired_rec spec now r = true))) ∧
  (∀ j, flag (gcSegs res') j = true ↔ flag (gcSegs res) j = true ∨
     ∃ r, latest g = Some (j, r) ∧ expired_rec spec now r = true).
Proof.
  intros Hok Hp Hl. unfold settle. unfold latest_ok in Hl. destruct (latest g) as [[i r]|]; cbn zeta.
  2: { split; [done|]. split; [done|]. split; [done|]. split.
       - intros j x. split; [by left|]. by intros [?|(? & ? & ? & _)].
       - intros j. split; [by left|]. by intros [?|(? & ? & _)]. }
  destruct Hl as [Hin _]. rewrite Forall_forall in Hp. destruct (Hp _ Hin) as (b & n & Hb & Ho). cbn [fst snd] in *.
  rewrite <- Forall_forall in Hp.
  destruct (drop_superseded_all spec bounds (offset r) (parts g) res Hok Hp) as (Hok1 & (A1 & A2 & A3) & H1).
  set (res1 := foldl _ res (parts g)) in *. clearbody res1. destruct (expired_rec spec now r) eqn:Ee.
  - destruct (drop_at_spec bounds res1 i (offset r) b n Hok1 Hb Ho) as (Hok2 & H2 & B1 & B2 & B3).
    set (res2 := drop_at bounds res1 i (offset r)) in *. clearbody res2. unfold mark_gc. cbn [abortedKeyed stripKeyed].
    assert (Hi : (i < length (gcSegs res2))%nat).
    { destruct Hok2 as (_ & _ & _ & -> & _). by eapply lookup_lt_Some. }
    split; [|split; [by rewrite B1|split; [by rewrite B2|split]]].
    + destruct Hok2 as (L1 & L2 & L3 & L4 & Hd). split_and!; try done. cbn. by rewrite length_insert.
    + intros j x. change (dget {| drops := _; abortedKeyed := _; stripKeyed := _; gcSegs := _ |} j x) with (dget res2 j x).
      rewrite H2, orb_true_iff, andb_true_iff, bool_decide_eq_true, Z.eqb_eq, H1. split.
      * intros [[?|Hr]|[-> ->]]; [by left| |]; right; exists i, r; (split; [done|]); [by left|by right].
      * intros [?|(i' & r' & [= <- <-] & [Hr|(-> & -> & _)])]; [by left; left|by left; right|by right].
    + intros j. cbn [gcSegs]. rewrite flag_insert, orb_true_iff, bool_decide_eq_true, B3, A3 by done. split.
      * intros [?| ->]; [by left|right]. by exists r.
      * intros [?|(r' & [= <- <-] & _)]; [by left|by right].
  - split; [done|]. split; [done|]. split; [done|]. split.
    + intros j x. rewrite H1. split.
      * intros [?|Hr]; [by left|right]. exists i, r. split; [done|]. by left.
      * intros [?|(i' & r' & [= <- <-] & [Hr|(_ & _ & E)])]; [by left|by right|congruence].
    + intros j. rewrite A3. split; [by left|]. intros [?|(r' & [= <- <-] & E)]; [done|congruence].
Qed.

(** *** The loop *)

(** Segment [j] has the record [r] under [k]. *)
Definition under (R : list keys) (k : bytes) (j : nat) (r : digestRec) : Prop :=
  ∃ l rs, R !! j = Some l ∧ (k, rs) ∈ l ∧ r ∈ rs.

Definition mergeable_keys (bounds : list (Z * Z)) (R : list keys) : Prop :=
  length R = length bounds ∧ Forall key_order R ∧
  (∀ k j r, under R k j r → 0 ≤ offset r ∧ in_bounds bounds j r) ∧
  (∀ k j j' r r', under R k j r → under R k j' r' → offset r = offset r' → j = j' ∧ r = r').

Lemma head_under k l rs :
  key_order l → not_after k l → (k, rs) ∈ l → ∃ l', l = (k, rs) :: l'.
Proof.
  intros Ho Hn Hin. destruct l as [|[k' rs'] l]; [by apply elem_of_nil in Hin|].
  apply StronglySorted_inv in Ho as [_ Hk]. rewrite Forall_forall in Hk. cbn in Hn.
  apply elem_of_cons in Hin as [[= -> ->]|Hin]; [by eexists|]. by specialize (Hk _ Hin).
Qed.

Lemma heads_under k R j r :
  Forall key_order R → Forall (not_after k) R → heads k R j r ↔ under R k j r.
Proof.
  intros Ho Hn. unfold heads, under. split.
  - intros (l & E & Hr). destruct l as [|[k' rs] l]; cbn in Hr; [by apply elem_of_nil in Hr|].
    destruct (decide (k' = k)) as [->|]; [|by apply elem_of_nil in Hr]. exists ((k, rs) :: l), rs.
    split; [done|]. split; [by left|done].
  - intros (l & rs & E & Hin & Hr). exists l. split; [done|].
    destruct (head_under k l rs) as [l' ->]; [by eapply Forall_lookup_1|by eapply (Forall_lookup_1 _ R)|done|].
    cbn. by rewrite decide_True.
Qed.

Lemma tl_under k R j r k2 :
  Forall key_order R → Forall (not_after k) R →
  under (tl_keys k <$> R) k2 j r ↔ under R k2 j r ∧ k2 ≠ k.
Proof.
  intros Ho Hn. unfold under. split.
  - intros (l & rs & E & Hin & Hr). rewrite list_lookup_fmap in E.
    destruct (R !! j) as [l0|] eqn:Ej; [|done]. injection E as <-.
    pose proof (Forall_lookup_1 _ _ _ _ Ho Ej) as Hol. pose proof (Forall_lookup_1 _ _ _ _ Hn Ej) as Hnl.
    destruct l0 as [|[k' rs'] l0]; [by apply elem_of_nil in Hin|]. cbn in Hin.
    apply StronglySorted_inv in Hol as [_ Hk]. rewrite Forall_forall in Hk.
    destruct (decide (k' = k)) as [->|Hne].
    + split; [exists ((k, rs') :: l0), rs; split; [done|]; split; [by right|done]|].
      intros ->. specialize (Hk _ Hin). cbn in Hk. by rewrite (proj2 (BytesOrd.Compare_eq k k)) in Hk.
    + split; [by exists ((k', rs') :: l0), rs|]. intros ->. apply elem_of_cons in Hin as [[= <- <-]|Hin]; [done|].
      by specialize (Hk _ Hin).
  - intros [(l & rs & E & Hin & Hr) Hne]. exists (tl_keys k l), rs. rewrite list_lookup_fmap, E. split; [done|].
    split; [|done]. destruct l as [|[k' rs'] l]; [done|]. cbn. destruct (decide (k' = k)) as [->|]; [|done].
    apply elem_of_cons in Hin as [[= -> ->]|Hin]; done.
Qed.

Lemma tl_mergeable k bounds R :
  mergeable_keys bounds R → Forall (not_after k) R → mergeable_keys bounds (tl_keys k <$> R).
Proof.
  intros (L & Ho & Hb & Hu) Hn. split; [by rewrite length_fmap|]. split; [|split].
  - apply Forall_fmap. eapply Forall_impl; [exact Ho|]. intros [|[k' rs] l] Hl; [done|]. cbn.
    destruct (decide _); [by apply StronglySorted_inv in Hl as [? _]|done].
  - intros k2 j r [Hr _]%tl_under; [by eapply Hb|done..].
  - intros k2 j j' r r' [Hr _]%tl_under [Hr' _]%tl_under; [by eapply Hu|done..].
Qed.

Definition key_count (R : list keys) : nat := sum_list (length <$> R).

Lemma tl_count k R : Exists (at_head k) R → (key_count (tl_keys k <$> R) < key_count R)%nat.
Proof.
  intros He. unfold key_count.
  assert (Hle : ∀ l, (length (tl_keys k l) ≤ length l)%nat).
  { intros [|[k' rs] l]; cbn; [done|]. destruct (decide _); cbn; lia. }
  assert (Hall : ∀ R, (sum_list (length <$> (tl_keys k <$> R)) ≤ sum_list (length <$> R))%nat).
  { intros R0. induction R0 as [|l R0 IH]; [done|]. cbn. specialize (Hle l). unfold fmap in *. lia. }
  induction He as [l R Hl|l R _ IH]; cbn.
  - destruct l as [|[k' rs] l]; [done|]. cbn in Hl. subst k'. cbn. rewrite decide_True by done.
    specialize (Hall R). unfold fmap in *. lia.
  - specialize (Hle l). unfold fmap in *. lia.
Qed.

Definition copy (spec : CleanSpec) (R : list keys) (k : bytes) (j : nat) (r : digestRec) : Prop :=
  under R k j r ∧ competing spec r = true.

Definition newest (spec : CleanSpec) (R : list keys) (k : bytes) (r : digestRec) : Prop :=
  ∀ j' r', copy spec R k j' r' → offset r' ≤ offset r.

(** What a key contributes: its superseded copies and its expired tombstone. *)
Definition drops_of (spec : CleanSpec) (now : Z) (R : list keys) (k : bytes) (j : nat) (x : Z) : Prop :=
  ∃ r, copy spec R k j r ∧ offset r = x ∧
    ((∃ j' r', copy spec R k j' r' ∧ x < offset r') ∧ x < ceiling spec ∨
     newest spec R k r ∧ expired_rec spec now r = true).

Definition gc_of (spec : CleanSpec) (now : Z) (R : list keys) (k : bytes) (j : nat) : Prop :=
  ∃ r, copy spec R k j r ∧ newest spec R k r ∧ expired_rec spec now r = true.

(** What the merge of [R] adds to a result. *)
Definition merged (spec : CleanSpec) (now : Z) (bounds : list (Z * Z)) (R : list keys) (res res' : mergeResult)
    : Prop :=
  res_ok bounds res' ∧
  (∀ j x, dget res' j x = true ↔ dget res j x = true ∨ ∃ k, drops_of spec now R k j x) ∧
  (∀ j, flag (gcSegs res') j = true ↔ flag (gcSegs res) j = true ∨ ∃ k, gc_of spec now R k j) ∧
  (∀ j, flag (stripKeyed res') j = true ↔
        flag (stripKeyed res) j = true ∨ ∃ k r, under R k j r ∧ strip_work spec r = true) ∧
  (∀ j, flag (abortedKeyed res') j = true ↔
        flag (abortedKeyed res) j = true ∨ ∃ k r, under R k j r ∧ abort_work spec r = true).

Lemma merged_nil spec now bounds R res :
  res_ok bounds res → Forall (λ l, l = []) R → merged spec now bounds R res res.
Proof.
  intros Hok HR. assert (Hn : ∀ k j r, ¬ under R k j r).
  { intros k j r (l & rs & E & Hin & _). apply (Forall_lookup_1 _ _ _ _ HR) in E. subst l. by apply elem_of_nil in Hin. }
  split; [done|]. split; [|split; [|split]]; intros; (split; [by left|]).
  - intros [?|(k & r & [Hr _] & _)]; [done|by apply Hn in Hr].
  - intros [?|(k & r & [Hr _] & _)]; [done|by apply Hn in Hr].
  - intros [?|(k & r & Hr & _)]; [done|by apply Hn in Hr].
  - intros [?|(k & r & Hr & _)]; [done|by apply Hn in Hr].
Qed.

(** One key more. *)
Definition settled (spec : CleanSpec) (now : Z) (bounds : list (Z * Z)) (R : list keys) (k : bytes)
    (res res' : mergeResult) : Prop :=
  res_ok bounds res' ∧
  (∀ j x, dget res' j x = true ↔ dget res j x = true ∨ drops_of spec now R k j x) ∧
  (∀ j, flag (gcSegs res') j = true ↔ flag (gcSegs res) j = true ∨ gc_of spec now R k j) ∧
  (∀ j, flag (stripKeyed res') j = true ↔
        flag (stripKeyed res) j = true ∨ ∃ r, under R k j r ∧ strip_work spec r = true) ∧
  (∀ j, flag (abortedKeyed res') j = true ↔
        flag (abortedKeyed res) j = true ∨ ∃ r, under R k j r ∧ abort_work spec r = true).

Lemma settle_key spec now bounds R k res :
  mergeable_keys bounds R → res_ok bounds res → Forall (not_after k) R →
  settled spec now bounds R k res
    (settle spec now bounds (gather_all spec k 0 R (res, {| parts := []; latest := None |}))).
Proof.
  intros (L & Ho & Hb & Hu) Hok Hn. pose proof Hok as (L1 & L2 & L3 & L4 & Hd).
  pose proof (gather_all_spec spec k 0 R (res, {| parts := []; latest := None |})) as G. cbn [fst] in G.
  specialize (G ltac:(lia) ltac:(lia)).
  assert (Hhd : Forall (λ l, Forall (λ r, 0 ≤ offset r) (hd_recs k l)) R).
  { apply Forall_lookup. intros j l Hl. apply Forall_forall. intros r Hr.
    eapply Hb, heads_under; [done|done|by exists l]. }
  specialize (G Hhd). destruct (gather_all _ _ _ _ _) as [res1 g].
  apply (gathered_ext _ _ (λ j r, under R k j r)) in G.
  2: { intros j r. rewrite Nat.sub_0_r, heads_under by done. split; [by intros [_ ?]|]. intros Hr. split; [lia|done]. }
  destruct G as (G1 & G2 & G3 & G4 & G5 & G6 & G7 & G8). cbn [fst snd parts latest] in *.
  assert (Hp : ∀ j r, (j, r) ∈ parts g ↔ copy spec R k j r).
  { intros j r. rewrite G7, elem_of_nil. unfold copy. tauto. }
  assert (Hl : latest_ok g) by (by apply G8).
  assert (Hok1 : res_ok bounds res1).
  { split; [by rewrite G1|]. split; [by rewrite G4|]. split; [by rewrite G3|]. split; [by rewrite G2|]. by rewrite G1. }
  assert (Hib : Forall (λ p, in_bounds bounds p.1 p.2) (parts g)).
  { apply Forall_forall. intros [j r] Hin. apply Hp in Hin as [Hin _]. by eapply Hb. }
  destruct (settle_spec spec now bounds res1 g Hok1 Hib Hl) as (S1 & S2 & S3 & S4 & S5).
  set (res' := settle spec now bounds (res1, g)) in *. clearbody res'.
  assert (Hg1 : ∀ j x, dget res1 j x = dget res j x) by (intros; unfold dget; by rewrite G1).
  assert (Hlat : ∀ i r, latest g = Some (i, r) ↔ copy spec R k i r ∧ newest spec R k r).
  { intros i r. unfold latest_ok in Hl. split.
    - intros E. rewrite E in Hl. destruct Hl as [Hin Hm]. split; [by apply Hp|]. intros j' r' Hc.
      apply Hp in Hc. by apply (Hm (j', r')).
    - intros [Hc Hnw]. pose proof Hc as Hin. apply Hp in Hin. destruct (latest g) as [[i' r']|].
      + destruct Hl as [Hin' Hm]. specialize (Hm _ Hin). cbn in Hm. pose proof Hin' as Hc'. apply Hp in Hc'.
        specialize (Hnw _ _ Hc'). destruct (Hu k i' i r' r) as [-> ->]; [apply Hc'|apply Hc|lia|done].
      + rewrite Hl in Hin. by apply elem_of_nil in Hin. }
  split; [done|]. split; [|split; [|split]].
  - intros j x. rewrite S4, Hg1. unfold drops_of. split.
    + intros [?|(i & r & E & Hr)]; [by left|right]. apply Hlat in E as [Hc Hnw].
      destruct Hr as [(r' & Hin & <- & Hne & Hcl)|(-> & -> & He)].
      * apply Hp in Hin. exists r'. split; [done|]. split; [done|]. left. split; [|done]. exists i, r. split; [done|].
        specialize (Hnw _ _ Hin). lia.
      * exists r. split; [done|]. split; [done|]. by right.
    + intros [?|(r & Hc & <- & Hr)]; [by left|right]. pose proof Hc as Hin. apply Hp in Hin.
      unfold latest_ok in Hl. destruct (latest g) as [[i' r']|] eqn:El; [|rewrite Hl in Hin; by apply elem_of_nil in Hin].
      exists i', r'. split; [done|]. destruct Hr as [[(j2 & r2 & Hc2 & Hlt) Hcl]|[Hnw He]].
      * left. exists r. split; [done|]. split; [done|]. split; [|done]. intros E.
        destruct Hl as [_ Hm]. apply Hp in Hc2. specialize (Hm _ Hc2). cbn in Hm. lia.
      * right. assert (E : Some (i', r') = Some (j, r)) by (by apply Hlat). by simplify_eq.
  - intros j. rewrite S5, G2. unfold gc_of. setoid_rewrite Hlat. split.
    + intros [?|(r & [Hc Hnw] & He)]; [by left|right; by exists r].
    + intros [?|(r & Hc & Hnw & He)]; [by left|right; by exists r].
  - intros j. by rewrite S3, G5.
  - intros j. by rewrite S2, G6.
Qed.

Lemma merged_step spec now bounds R k res res1 res' :
  Forall key_order R → Forall (not_after k) R → settled spec now bounds R k res res1 →
  merged spec now bounds (tl_keys k <$> R) res1 res' → merged spec now bounds R res res'.
Proof.
  intros Ho Hn (_ & A1 & A2 & A3 & A4) (Hok & B1 & B2 & B3 & B4).
  assert (Hc : ∀ k2 j r, copy spec (tl_keys k <$> R) k2 j r ↔ copy spec R k2 j r ∧ k2 ≠ k).
  { intros. unfold copy. rewrite tl_under by done. tauto. }
  assert (Hw : ∀ k2 r, k2 ≠ k → newest spec (tl_keys k <$> R) k2 r ↔ newest spec R k2 r).
  { intros k2 r Hne. unfold newest. setoid_rewrite Hc. naive_solver. }
  assert (Hd : ∀ k2 j x, drops_of spec now (tl_keys k <$> R) k2 j x ↔ drops_of spec now R k2 j x ∧ k2 ≠ k).
  { intros k2 j x. unfold drops_of. setoid_rewrite Hc. split.
    - intros (r & [Hr Hne] & Ex & Hx). split; [|done]. exists r. split; [done|]. split; [done|].
      rewrite Hw in Hx by done. destruct Hx as [[(j' & r' & [? _] & ?) ?]|?]; [left; split; [by exists j', r'|done]|by right].
    - intros [(r & Hr & Ex & Hx) Hne]. exists r. split; [done|]. split; [done|]. rewrite Hw by done.
      destruct Hx as [[(j' & r' & ? & ?) ?]|?]; [left; split; [by exists j', r'|done]|by right]. }
  assert (Hg : ∀ k2 j, gc_of spec now (tl_keys k <$> R) k2 j ↔ gc_of spec now R k2 j ∧ k2 ≠ k).
  { intros k2 j. unfold gc_of. setoid_rewrite Hc. split.
    - intros (r & [Hr Hne] & Hx & ?). split; [|done]. exists r. by rewrite Hw in Hx.
    - intros [(r & Hr & Hx & ?) Hne]. exists r. by rewrite Hw. }
  split; [done|]. split; [|split; [|split]].
  - intros j x. rewrite B1, A1. setoid_rewrite Hd. split; [naive_solver|]. intros [?|(k2 & ?)]; [tauto|].
    destruct (decide (k2 = k)) as [->|]; [tauto|]. right. by exists k2.
  - intros j. rewrite B2, A2. setoid_rewrite Hg. split; [naive_solver|]. intros [?|(k2 & ?)]; [tauto|].
    destruct (decide (k2 = k)) as [->|]; [tauto|]. right. by exists k2.
  - intros j. rewrite B3, A3. setoid_rewrite tl_under; [|done..]. split; [naive_solver|]. intros [?|(k2 & r & ?)]; [tauto|].
    destruct (decide (k2 = k)) as [->|]; [left; right; by exists r|]. right. exists k2, r. tauto.
  - intros j. rewrite B4, A4. setoid_rewrite tl_under; [|done..]. split; [naive_solver|]. intros [?|(k2 & r & ?)]; [tauto|].
    destruct (decide (k2 = k)) as [->|]; [left; right; by exists r|]. right. exists k2, r. tauto.
Qed.

(** The loop ends, and has merged everything. *)
Lemma merge_loop_spec fuel spec now bounds its R res :
  Forall2 stands its R → mergeable_keys bounds R → res_ok bounds res → (key_count R < fuel)%nat →
  ∃ res', merge_loop fuel spec now bounds its res = Some (Ok res') ∧ merged spec now bounds R res res'.
Proof.
  revert its R res. induction fuel as [|fuel IH]; intros its R res HF Hm Hok Hk; [lia|]. cbn [merge_loop].
  pose proof (min_key_spec its R HF) as Hmin. destruct (min_key its) as [k|].
  - destruct Hmin as [Hn He]. destruct (gather_stands spec k 0 its R (res, {| parts := []; latest := None |}) HF) as (its' & -> & HF').
    pose proof (settle_key spec now bounds R k res Hm Hok Hn) as Hs.
    pose proof (tl_count k R He). destruct (IH its' _ _ HF' (tl_mergeable k bounds R Hm Hn) (proj1 Hs) ltac:(lia)) as (res' & E & Hr).
    exists res'. split; [done|]. eapply merged_step; [apply Hm|done|done|done].
  - exists res. split; [done|]. by apply merged_nil.
Qed.

Lemma nothing_ok bounds : res_ok bounds (nothing_merged (length bounds)).
Proof.
  unfold res_ok, nothing_merged. cbn. rewrite !length_replicate. do 4 (split; [done|]).
  intros i d b n E. by apply lookup_replicate in E as [? _].
Qed.

Lemma flag_nothing n j : flag (replicate n false) j = false.
Proof. unfold flag. destruct (replicate n false !! j) eqn:E; [|done]. by apply lookup_replicate in E as [-> _]. Qed.

Lemma dget_nothing n j x : dget (nothing_merged n) j x = false.
Proof.
  unfold dget. destruct (drops (nothing_merged n) !! j) as [o|] eqn:E; [|done].
  by apply lookup_replicate in E as [-> _].
Qed.

(** *** The merge on the records of the segments *)

Definition in_seg (fss : list (list frm)) (j : nat) (f : frm) : Prop := ∃ fs, fss !! j = Some fs ∧ f ∈ fs.

(** Segments in log order, each within its bounds. *)
Definition in_log_order (bounds : list (Z * Z)) (fss : list (list frm)) : Prop :=
  length fss = length bounds ∧
  (∀ j f, in_seg fss j f → 0 ≤ f_off f ∧ in_bounds bounds j (rec_of f)) ∧
  (∀ j j' f f', in_seg fss j f → in_seg fss j' f' → f_off f = f_off f' → j = j' ∧ f = f').

(** The digests of the segments. *)
Definition digests_of (ds : list keyDigest) (fss : list (list frm)) : Prop :=
  Forall2 (λ d fs, describes d fs ∧ short_keys fs ∧ ∃ b, frames_ok b fs) ds fss.

(** The copies of a key that compete, and what the pass makes of them. *)
Definition contends (spec : CleanSpec) (fss : list (list frm)) (k : bytes) (j : nat) (f : frm) : Prop :=
  in_seg fss j f ∧ has_key k f ∧ competing spec (rec_of f) = true.

Definition superseded (spec : CleanSpec) (fss : list (list frm)) (k : bytes) (f : frm) : Prop :=
  f_off f < ceiling spec ∧ ∃ j' f', contends spec fss k j' f' ∧ f_off f < f_off f'.

Definition expires (spec : CleanSpec) (now : Z) (fss : list (list frm)) (k : bytes) (f : frm) : Prop :=
  expired_rec spec now (rec_of f) = true ∧ ∀ j' f', contends spec fss k j' f' → f_off f' ≤ f_off f.

Definition dropped (spec : CleanSpec) (now : Z) (fss : list (list frm)) (j : nat) (f : frm) : Prop :=
  ∃ k, contends spec fss k j f ∧ (superseded spec fss k f ∨ expires spec now fss k f).

(** The outcome of the merge of [fss]. *)
Definition merge_of (spec : CleanSpec) (now : Z) (bounds : list (Z * Z)) (fss : list (list frm))
    (res : mergeResult) : Prop :=
  res_ok bounds res ∧
  (∀ j x, dget res j x = true ↔ ∃ f, f_off f = x ∧ dropped spec now fss j f) ∧
  (∀ j, flag (gcSegs res) j = true ↔ ∃ k f, contends spec fss k j f ∧ expires spec now fss k f) ∧
  (∀ j, flag (stripKeyed res) j = true ↔
     ∃ k f, in_seg fss j f ∧ has_key k f ∧ strip_work spec (rec_of f) = true) ∧
  (∀ j, flag (abortedKeyed res) j = true ↔
     ∃ k f, in_seg fss j f ∧ has_key k f ∧ abort_work spec (rec_of f) = true).

Definition keys_of (ks : keys) (fs : list frm) : Prop :=
  key_order ks ∧ ∀ k rs, (k, rs) ∈ ks ↔ rs = keyed_in k fs ∧ rs ≠ [].

Lemma start_iters_spec ds fss :
  digests_of ds fss →
  ∃ its R, start_iters ds = Ok its ∧ Forall2 stands its R ∧ Forall2 keys_of R fss.
Proof.
  induction 1 as [|d fs ds fss (Hd & Hk & b & Hf) _ (its & R & E & HF & HK)]; [by exists [], []|].
  destruct (describes_iterates b d fs Hd Hf Hk) as (ks & Hi & Ho & Hks).
  destruct (next_stands _ _ _ _ Hi) as (o & En & Hs). exists (o :: its), (ks :: R).
  cbn [start_iters]. rewrite En, bind_Ok, E, bind_Ok. split; [done|]. split; constructor; done.
Qed.

Lemma elem_of_keyed_in k fs r : r ∈ keyed_in k fs ↔ ∃ f, f ∈ fs ∧ has_key k f ∧ r = rec_of f.
Proof.
  unfold keyed_in. rewrite list_elem_of_fmap. setoid_rewrite list_elem_of_filter. naive_solver.
Qed.

Lemma under_frames R fss k j r :
  Forall2 keys_of R fss → under R k j r ↔ ∃ f, in_seg fss j f ∧ has_key k f ∧ r = rec_of f.
Proof.
  intros HF. unfold under, in_seg. split.
  - intros (l & rs & El & Hin & Hr). destruct (Forall2_lookup_l _ _ _ _ _ HF El) as (fs & Ef & _ & Hk).
    apply Hk in Hin as [-> _]. apply elem_of_keyed_in in Hr as (f & Hf & Hhk & ->). exists f. split; [by exists fs|done].
  - intros (f & (fs & Ef & Hf) & Hhk & ->). destruct (Forall2_lookup_r _ _ _ _ _ HF Ef) as (l & El & _ & Hk).
    assert (Hin : rec_of f ∈ keyed_in k fs) by (apply elem_of_keyed_in; by exists f).
    exists l, (keyed_in k fs). split; [done|]. split; [|done]. apply Hk. split; [done|].
    intros E. rewrite E in Hin. by apply elem_of_nil in Hin.
Qed.

Lemma key_order_NoDup (ks : keys) : key_order ks → NoDup (fst <$> ks).
Proof.
  induction 1 as [|[k rs] ks _ IH Hlt]; [constructor|]. cbn. constructor; [|done].
  rewrite list_elem_of_fmap. intros ([k2 rs2] & E & Hin). cbn in E. subst k2. rewrite Forall_forall in Hlt.
  specialize (Hlt _ Hin). cbn in Hlt. by rewrite (proj2 (BytesOrd.Compare_eq k k)) in Hlt.
Qed.

Lemma keys_of_length ks fs : keys_of ks fs → (length ks ≤ length fs)%nat.
Proof.
  intros [Ho Hk]. transitivity (length (omap f_key fs)).
  - rewrite <- (length_fmap fst ks). apply submseteq_length, NoDup_submseteq.
    + by apply key_order_NoDup.
    + intros k ([k' rs] & -> & Hin)%list_elem_of_fmap. apply Hk in Hin as [-> Hne]. cbn.
      destruct (keyed_in k' fs) as [|r rs] eqn:E; [done|].
      assert (Hr : r ∈ keyed_in k' fs) by (rewrite E; by left). apply elem_of_keyed_in in Hr as (f & Hf & [_ Hfk] & _).
      apply list_elem_of_omap. by exists f.
  - clear. induction fs as [|f fs IH]; [done|]. cbn. destruct (f_key f); cbn; lia.
Qed.

Lemma key_count_frames R fss : Forall2 keys_of R fss → (key_count R ≤ length (concat fss))%nat.
Proof.
  unfold key_count. induction 1 as [|ks fs R fss Hk _ IH]; [done|]. cbn. rewrite length_app.
  apply keys_of_length in Hk. by apply Nat.add_le_mono.
Qed.

Lemma mergeable_frames bounds R fss :
  in_log_order bounds fss → Forall2 keys_of R fss → mergeable_keys bounds R.
Proof.
  intros (L & Hb & Hu) HF. split; [by rewrite (Forall2_length _ _ _ HF)|]. split; [|split].
  - clear -HF. induction HF as [|ks fs R fss [? _] _ IH]; by constructor.
  - intros k j r. rewrite (under_frames R fss) by done. intros (f & Hf & _ & ->). by apply Hb in Hf.
  - intros k j j' r r'. rewrite !(under_frames R fss) by done. intros (f & Hf & _ & ->) (f' & Hf' & _ & ->) E.
    by destruct (Hu j j' f f' Hf Hf' E) as [-> ->].
Qed.

Lemma copy_frames spec R fss k j r :
  Forall2 keys_of R fss → copy spec R k j r ↔ ∃ f, contends spec fss k j f ∧ r = rec_of f.
Proof.
  intros HF. unfold copy, contends. rewrite (under_frames R fss) by done. split.
  - intros [(f & ? & ? & ->) ?]. by exists f.
  - intros (f & (? & ? & ?) & ->). split; [by exists f|done].
Qed.

(** The merge of the digests of the segments is the merge of the segments. *)
Lemma merge_spec fuel spec now bounds ds fss :
  digests_of ds fss → in_log_order bounds fss → (length (concat fss) < fuel)%nat →
  ∃ res, mergeDigests fuel spec now bounds ds = Some (Ok res) ∧ merge_of spec now bounds fss res.
Proof.
  intros Hd Hl Hfuel. destruct (start_iters_spec ds fss Hd) as (its & R & Es & HS & HK).
  unfold mergeDigests. rewrite Es, (Forall2_length _ _ _ Hd), (proj1 Hl).
  pose proof (key_count_frames R fss HK).
  destruct (merge_loop_spec fuel spec now bounds its R _ HS (mergeable_frames _ _ _ Hl HK) (nothing_ok bounds) ltac:(lia))
    as (res & -> & Hok & M1 & M2 & M3 & M4). exists res. split; [done|]. split; [done|].
  pose proof (λ k j r, copy_frames spec R fss k j r HK) as Hcf.
  pose proof (λ k j r, under_frames R fss k j r HK) as Huf.
  assert (Hn : ∀ k f, newest spec R k (rec_of f) ↔ ∀ j' f', contends spec fss k j' f' → f_off f' ≤ f_off f).
  { intros k f. unfold newest. setoid_rewrite Hcf. split.
    - intros Hx j' f' Hc. apply (Hx j' (rec_of f')). by exists f'.
    - intros Hx j' r' (f' & Hc & ->). by apply (Hx j'). }
  split; [|split; [|split]].
  - intros j x. rewrite M1, dget_nothing. unfold drops_of, dropped, superseded, expires.
    setoid_rewrite Hcf. split.
    + intros [?|(k & r & (f & Hc & ->) & <- & [[(j' & r' & (f' & Hc' & ->) & Hlt) Hx]|[Hw He]])]; [done| |];
        exists f; (split; [done|]); exists k; (split; [done|]); [left|right; by rewrite <- Hn].
      split; [done|]. by exists j', f'.
    + intros (f & <- & k & Hc & Hx). right. exists k, (rec_of f). split; [by exists f|]. split; [done|].
      rewrite Hn. destruct Hx as [(Hx & j' & f' & Hc' & Hlt)|[He Hw]]; [left|by right].
      split; [|done]. exists j', (rec_of f'). split; [by exists f'|done].
  - intros j. rewrite M2. cbn [nothing_merged gcSegs]. rewrite flag_nothing. unfold gc_of, expires.
    setoid_rewrite Hcf. split.
    + intros [?|(k & r & (f & Hc & ->) & Hw & He)]; [done|]. exists k, f. by rewrite <- Hn.
    + intros (k & f & Hc & He & Hw). right. exists k, (rec_of f). rewrite Hn. split; [by exists f|done].
  - intros j. rewrite M3. cbn [nothing_merged stripKeyed]. rewrite flag_nothing.
    split.
    + intros [?|(k & r & Hr & Hw)]; [done|]. apply Huf in Hr as (f & ? & ? & ->). by exists k, f.
    + intros (k & f & Hf & Hk & Hw). right. exists k, (rec_of f). split; [|done]. apply Huf. by exists f.
  - intros j. rewrite M4. cbn [nothing_merged abortedKeyed]. rewrite flag_nothing.
    split.
    + intros [?|(k & r & Hr & Hw)]; [done|]. apply Huf in Hr as (f & ? & ? & ->). by exists k, f.
    + intros (k & f & Hf & Hk & Hw). right. exists k, (rec_of f). split; [|done]. apply Huf. by exists f.
Qed.

End Compaction.
