(* ===== verification/CompactRecord.v ===== *)
(** * What a compaction does to records: compact_cleaner.go

    A rewrite keeps a record as it is, removes it, or re-encodes it without the
    headers to strip.  This file models the last ([stripFrame]) and states what
    a pass makes of the log when it rewrites some of the segments only: which
    values a reader of the newest copy of each key finds afterwards, that a
    segment the digest lets the pass skip would not have changed, and what
    stands in the way of a record at the ceiling. *)

From Stdlib Require Import ZArith Lia.
From stdpp Require Import base list numbers strings gmap sorting.
From coqutil Require Import Byte.
From S2P Require Import Prelude GoStd Wire Compress BlockV3 Block Framing Index Segment.
From S2P Require Import SegmentIndex SegmentSearch KeyDigest Compaction.

Open Scope Z_scope.

Module CompactRecord.
Import Segment SegmentIndex SegmentSearch KeyDigest Compaction.

(** ** Stripping *)

Definition has_any (have : gmap bytes bytes) (hdrs : list bytes) : bool :=
  existsb (λ h, bool_decide (is_Some (have !! h))) hdrs.

Definition hasAnyHeader (msg : bytes) (hdrs : list bytes) : outcome bool :=
  have ← SerializedMessage.Headers msg;
  Ok (if Nat.eqb (size have) 0 then false else has_any have hdrs).

(** The orders in which the two passes of [encode] visit a header map. *)
Definition ranges := gmap bytes (option bytes) → headerOrder * headerOrder.

Definition without (hdrs : list bytes) (have : gmap bytes bytes) : gmap bytes bytes :=
  foldl (λ m h, delete h m) have hdrs.

(** [stripFrame]: the new frame, when it differs. *)
Definition stripFrame (rg : ranges) (ms : bytes) (hdrs : list bytes) : outcome (option bytes) :=
  msg ← messageSet.Message ms;
  let msg := default [] msg in
  want ← SerializedMessage.Crc msg;
  rest ← slice_from msg 4;
  if negb (want =? Crc32.Checksum Crc32.Castagnoli rest) then Fail ErrCorruptRecord
  else
    have ← SerializedMessage.Headers msg;
    if negb (has_any have hdrs) then Ok None
    else
      magic ← SerializedMessage.MagicByte msg;
      attrs ← SerializedMessage.Attributes msg;
      key ← SerializedMessage.Key msg;
      value ← SerializedMessage.Value msg;
      let m := {| MagicByte := magic; Attributes := attrs; Key := key; Value := value;
                  Headers := Some <$> without hdrs have; Timestamp := 0; LeaderEpoch := 0 |} in
      data ← encode m (rg (Headers m)).1 (rg (Headers m)).2;
      off ← messageSet.Offset ms;
      t ← messageSet.Timestamp ms;
      ep ← messageSet.LeaderEpoch ms;
      Ok (Some (frame_header off t ep (sint 32 (zlen data)) ++ data)).

(** *** What stripping keeps *)

(** A record as [encode] wrote it, and one that fails its checksum. *)
Definition recorded (f : frm) : Prop := ∃ m hs, readable m hs ∧ f_data f = record_bytes m hs.
Definition corrupt (f : frm) : Prop := SerializedMessage.crcMatches (f_data f) = Ok false.

(** What a segment may hold: records that can be read, sound or damaged. *)
Definition sound (f : frm) : Prop := legible f ∧ (recorded f ∨ corrupt f).

(** Any order is a permutation of the map. *)
Definition fair (rg : ranges) : Prop :=
  ∀ m, (rg m).1 ≡ₚ map_to_list m ∧ (rg m).2 ≡ₚ map_to_list m.

Definition stripped (rg : ranges) (hdrs : list bytes) (f : frm) : frm :=
  {| f_off := f_off f; f_ts := f_ts f; f_ep := f_ep f;
     f_data := match stripFrame rg (fbytes f) hdrs with
               | Ok (Some ms) => drop 32 ms
               | _ => f_data f
               end |}.

Lemma without_sub hdrs have : without hdrs have ⊆ have.
Proof.
  unfold without. revert have. induction hdrs as [|h hdrs IH]; intros have; [done|]. cbn.
  etrans; [apply IH|]. apply delete_subseteq.
Qed.

Lemma lookup_without hdrs have h :
  without hdrs have !! h = if decide (h ∈ hdrs) then None else have !! h.
Proof.
  unfold without. revert have. induction hdrs as [|h' hdrs IH]; intros have; cbn; [done|].
  rewrite IH. destruct (decide (h = h')) as [->|Hne].
  - rewrite lookup_delete_eq. rewrite (decide_True (P := h' ∈ h' :: hdrs)) by (by left). by destruct (decide _).
  - rewrite lookup_delete_ne by done. destruct (decide (h ∈ hdrs)) as [Hin|Hin].
    + rewrite decide_True by (by right). done.
    + rewrite decide_False; [done|]. by intros [?|?]%elem_of_cons.
Qed.

Lemma has_any_false have hdrs : has_any have hdrs = false → without hdrs have = have.
Proof.
  unfold has_any, without. revert have. induction hdrs as [|h hdrs IH]; intros have; [done|]. cbn.
  intros [Hh Hr]%orb_false_iff. apply bool_decide_eq_false in Hh. apply eq_None_not_Some in Hh.
  rewrite delete_id by done. by apply IH.
Qed.

(** A record encoded with some of the headers of another is not larger. *)
Lemma headers_bytes_sub (a b : gmap bytes (option bytes)) hs ks :
  a ⊆ b → hs ≡ₚ map_to_list a → ks ≡ₚ map_to_list b → (length (headers_bytes hs) ≤ length (headers_bytes ks))%nat.
Proof.
  intros Hab Ha Hb. apply map_to_list_submseteq, submseteq_Permutation in Hab as [r Hr].
  rewrite <- Ha, <- Hb in Hr. rewrite (headers_bytes_perm _ _ Hr). unfold headers_bytes.
  rewrite fmap_app, concat_app, length_app. lia.
Qed.

Lemma stripped_readable rg hdrs m hs have :
  fair rg → readable m hs → Some <$> have = Headers m →
  let m' := {| MagicByte := MagicByte m; Attributes := Attributes m; Key := Key m; Value := Value m;
               Headers := Some <$> without hdrs have; Timestamp := 0; LeaderEpoch := 0 |} in
  readable m' (rg (Headers m')).2 ∧
  zlen (record_bytes m' (rg (Headers m')).2) ≤ zlen (record_bytes m hs).
Proof.
  intros Hf (Hp & H1 & H2 & He & Hs & Hn & Hz) Hh m'. destruct (Hf (Headers m')) as [_ Hr].
  assert (Hsub : Headers m' ⊆ Headers m).
  { rewrite <- Hh. cbn. apply map_fmap_mono, without_sub. }
  set (ks := (rg (Headers m')).2) in *. clearbody ks.
  assert (Hin : ∀ x, x ∈ ks → x ∈ hs).
  { intros [k v] Hk. rewrite Hp. rewrite Hr in Hk. apply elem_of_map_to_list in Hk. apply elem_of_map_to_list.
    by eapply lookup_weaken. }
  assert (Hlen : zlen (record_bytes m' ks) ≤ zlen (record_bytes m hs)).
  { unfold zlen, record_bytes, record_body. rewrite !length_app, !BigEndian.length_put.
    pose proof (headers_bytes_sub _ _ ks hs Hsub Hr Hp). cbn [Key Value m']. lia. }
  split; [|done]. split; [done|]. split; [done|]. split; [done|]. split.
  { unfold encodable in *. apply andb_prop in He as [He1 He2]. cbn [Key Value m']. rewrite He1. cbn [andb].
    rewrite forallb_forall in He2 |- *. setoid_rewrite <- list_elem_of_In in He2. setoid_rewrite <- list_elem_of_In. auto. }
  split. { rewrite Forall_forall in Hs |- *. auto. }
  split; [|lia]. pose proof (map_subseteq_size _ _ Hsub). lia.
Qed.

Lemma crcMatches_checked msg b :
  SerializedMessage.crcMatches msg = Ok b → 4 ≤ zlen msg →
  ∃ c r, SerializedMessage.Crc msg = Ok c ∧ slice_from msg 4 = Ok r ∧
    (c =? Crc32.Checksum Crc32.Castagnoli r) = b.
Proof.
  unfold SerializedMessage.crcMatches. intros E Hz. rewrite (proj2 (Z.ltb_ge _ _)) in E by lia.
  destruct (SerializedMessage.Crc msg) as [c|e|]; [|done|done]. rewrite bind_Ok in E.
  destruct (slice_from msg 4) as [r|e|]; [|done|done]. rewrite bind_Ok in E. exists c, r. by injection E.
Qed.

Lemma legible_long f : legible f → 6 ≤ zlen (f_data f).
Proof.
  intros (E & _). unfold SerializedMessage.Attributes, index in E.
  destruct (Z.le_gt_cases 6 (zlen (f_data f))) as [|Hlt]; [done|]. exfalso.
  destruct (f_data f !! Z.to_nat 5) as [x|] eqn:Ex.
  - apply lookup_lt_Some in Ex. unfold zlen in Hlt. lia.
  - done.
Qed.

Lemma recorded_crc f : recorded f → SerializedMessage.crcMatches (f_data f) = Ok true.
Proof. intros (m & hs & _ & ->). apply crcMatches_record. Qed.

Section strip.
Context (rg : ranges) (hdrs : list bytes) (Hrg : fair rg).

Lemma strip_corrupt base f :
  frm_ok base f → legible f → corrupt f → stripFrame rg (fbytes f) hdrs = Fail ErrCorruptRecord.
Proof.
  intros Hf Hl Hc. pose proof (legible_long f Hl). unfold stripFrame.
  destruct (frame_parts base f Hf ltac:(lia)) as (_ & _ & _ & ->). rewrite bind_Ok. cbv zeta.
  change (default [] (Some ?a)) with a.
  destruct (crcMatches_checked (f_data f) false Hc ltac:(lia)) as (c & r & -> & Er & Ec).
  rewrite bind_Ok, Er, bind_Ok, Ec. done.
Qed.

Lemma strip_recorded base f m hs :
  frm_ok base f → readable m hs → f_data f = record_bytes m hs →
  let m' := {| MagicByte := MagicByte m; Attributes := Attributes m; Key := Key m; Value := Value m;
               Headers := Some <$> without hdrs (f_hdrs f); Timestamp := 0; LeaderEpoch := 0 |} in
  stripFrame rg (fbytes f) hdrs =
    Ok (if has_any (f_hdrs f) hdrs
        then let data := record_bytes m' (rg (Headers m')).2 in
             Some (frame_header (f_off f) (f_ts f) (f_ep f) (zlen data) ++ data)
        else None).
Proof.
  intros Hf R Ed m'. destruct (legible_record f m hs R Ed) as (Hl & Ea & Ek & Ev & Eh).
  pose proof (legible_long f Hl). pose proof (recorded_crc f) as Hc. destruct Hl as (La & Lk & Lv & Lh).
  unfold stripFrame. destruct (frame_parts base f Hf ltac:(lia)) as (Fo & Ft & Fe & ->). rewrite bind_Ok. cbv zeta.
  change (default [] (Some ?a)) with a.
  destruct (crcMatches_checked (f_data f) true ltac:(apply Hc; by exists m, hs) ltac:(lia)) as (c & r & -> & Er & Ec).
  rewrite bind_Ok, Er, bind_Ok, Ec. cbn [negb]. rewrite Lh, bind_Ok. destruct (has_any (f_hdrs f) hdrs); [|done].
  cbn [negb]. assert (Em : SerializedMessage.MagicByte (f_data f) = Ok (MagicByte m)).
  { rewrite Ed. by destruct (record_flags m hs R). }
  rewrite Em, La, Lk, Lv, Ea, Ek, Ev, !bind_Ok. fold m'.
  destruct (stripped_readable rg hdrs m hs (f_hdrs f) Hrg R Eh) as [R' Hz]. fold m' in R', Hz.
  destruct (Hrg (Headers m')) as [P1 P2].
  rewrite encode_ok, bind_Ok by (first [by rewrite P1, P2|apply R']).
  rewrite Fo, Ft, Fe, !bind_Ok. rewrite <- Ed in Hz. destruct Hf as (_ & _ & _ & _ & _ & Hb).
  rewrite zlen_fbytes in Hb. rewrite sint32_small by (pose_zlen; lia). done.
Qed.

(** The stripped record keeps everything but those headers. *)
Lemma stripped_record base f :
  frm_ok base f → recorded f →
  recorded (stripped rg hdrs f) ∧ zlen (f_data (stripped rg hdrs f)) ≤ zlen (f_data f) ∧
  f_attrs (stripped rg hdrs f) = f_attrs f ∧ f_key (stripped rg hdrs f) = f_key f ∧
  f_value (stripped rg hdrs f) = f_value f ∧ f_hdrs (stripped rg hdrs f) = without hdrs (f_hdrs f) ∧
  stripFrame rg (fbytes f) hdrs =
    Ok (if has_any (f_hdrs f) hdrs then Some (fbytes (stripped rg hdrs f)) else None).
Proof.
  intros Hf (m & hs & R & Ed). destruct (legible_record f m hs R Ed) as (Hl & Ea & Ek & Ev & Eh).
  pose proof (strip_recorded base f m hs Hf R Ed) as E. cbv zeta in E.
  set (m' := {| MagicByte := _ |}) in E.
  destruct (stripped_readable rg hdrs m hs (f_hdrs f) Hrg R Eh) as [R' Hz]. fold m' in R', Hz.
  destruct (has_any (f_hdrs f) hdrs) eqn:Eany.
  - assert (Ed' : f_data (stripped rg hdrs f) = record_bytes m' (rg (Headers m')).2).
    { unfold stripped. cbn [f_data]. rewrite E.
      rewrite drop_app_length'; [done|]. symmetry. apply Framing.length_frame_header. }
    destruct (legible_record _ _ _ R' Ed') as (_ & Ea' & Ek' & Ev' & Eh').
    split; [by exists m', (rg (Headers m')).2|]. rewrite Ed'. split; [by rewrite Ed|].
    split; [by rewrite Ea', Ea|]. split; [by rewrite Ek', Ek|]. split; [by rewrite Ev', Ev|]. split.
    + cbn [m' Headers] in Eh'. by apply (inj (fmap Some)) in Eh'.
    + rewrite E. unfold fbytes. by rewrite Ed'.
  - assert (Es : stripped rg hdrs f = f).
    { unfold stripped. rewrite E. by destruct f. }
    rewrite Es, E. split; [by exists m, hs|]. do 4 (split; [done|]). split; [|done].
    by rewrite has_any_false.
Qed.

Lemma stripped_corrupt base f : frm_ok base f → legible f → corrupt f → stripped rg hdrs f = f.
Proof. intros Hf Hl Hc. unfold stripped. rewrite (strip_corrupt base) by done. by destruct f. Qed.

(** Whatever the record, stripping keeps its place, flags, key and value. *)
Lemma stripped_same base f :
  frm_ok base f → sound f →
  let g := stripped rg hdrs f in
  sound g ∧ frm_ok base g ∧ zlen (f_data g) ≤ zlen (f_data f) ∧ f_off g = f_off f ∧ f_ts g = f_ts f ∧ f_ep g = f_ep f ∧
  f_attrs g = f_attrs f ∧ f_key g = f_key f ∧ f_value g = f_value f.
Proof.
  intros Hf [Hl [Hr|Hc]] g.
  - destruct (stripped_record base f Hf Hr) as (R & Hz & Ea & Ek & Ev & _). fold g in R, Hz, Ea, Ek, Ev.
    split. { split; [|by left]. destruct R as (m & hs & R & Ed). by destruct (legible_record g m hs R Ed). }
    split; [|done]. destruct Hf as (H1 & H2 & H3 & H4 & H5 & H6). do 5 (split; [done|]).
    rewrite zlen_fbytes in H6 |- *. lia.
  - unfold g. rewrite (stripped_corrupt base) by done. split; [by split; [|right]|]. done.
Qed.

End strip.

(** ** Decisions on records *)

Definition strips (spec : CleanSpec) (f : frm) : bool :=
  (f_off f <? StripBelow spec) && (0 <? zlen (StripHeaders spec)).

(** [classify], by what the record holds. *)
Definition fate (spec : CleanSpec) (drop : bool) (f : frm) : disposition :=
  if ceiling spec <=? f_off f then dispRetain
  else if is_control f then (if strips spec f then dispRemove else dispRetain)
  else if aborts spec (f_off f) then dispRemove
  else if match f_key f with Some _ => drop | None => false end then dispRemove
  else if strips spec f then dispStrip else dispRetain.

Lemma classify_fate spec d f :
  legible f → classify spec (f_off f) (f_data f) d = Ok (fate spec (ds_get d (f_off f)) f).
Proof.
  intros (Ea & Ek & _). unfold classify, fate, strips, is_control. destruct (_ <=? _); [done|].
  rewrite Ea, bind_Ok. cbv zeta. destruct (negb (Z.land _ _ =? 0)); [done|]. destruct (aborts _ _); [done|].
  rewrite Ek, bind_Ok. destruct (f_key f) as [k|]; [|done]. by destruct (ds_get d (f_off f)).
Qed.

(** What a rewrite makes of a record, and of a segment. *)
Definition out (rg : ranges) (spec : CleanSpec) (d : option dropSet) (f : frm) : option frm :=
  match fate spec (ds_get d (f_off f)) f with
  | dispRetain => Some f
  | dispRemove => None
  | dispStrip => Some (stripped rg (StripHeaders spec) f)
  end.

Definition survivors (rg : ranges) (spec : CleanSpec) (d : option dropSet) (fs : list frm) : list frm :=
  omap (out rg spec d) fs.

(** The log after a pass that rewrote the segments in [W]. *)
Definition passed (rg : ranges) (spec : CleanSpec) (res : mergeResult) (W : nat → bool) (fss : list (list frm))
    : list (list frm) :=
  imap (λ j fs, if W j then survivors rg spec (default None (drops res !! j)) fs else fs) fss.

Lemma in_seg_passed rg spec res W fss j g :
  in_seg (passed rg spec res W fss) j g ↔
  ∃ f, in_seg fss j f ∧
    if W j then out rg spec (default None (drops res !! j)) f = Some g else g = f.
Proof.
  unfold in_seg, passed. setoid_rewrite list_lookup_imap. split.
  - intros (fs & E & Hg). destruct (fss !! j) as [fs0|]; [|done]. injection E as <-. destruct (W j).
    + apply list_elem_of_omap in Hg as (f & Hf & Ef). exists f. split; [by exists fs0|done].
    + exists g. split; [by exists fs0|done].
  - intros (f & (fs & -> & Hf) & E). eexists. split; [done|]. destruct (W j); [|by subst].
    apply list_elem_of_omap. by exists f.
Qed.

Section pass.
Context (rg : ranges) (spec : CleanSpec) (Hrg : fair rg).

(** The records of a log: each can be read and is within its segment. *)
Definition all_sound (fss : list (list frm)) : Prop :=
  ∀ j f, in_seg fss j f → sound f ∧ ∃ b, frm_ok b f.

(** A record that survives keeps its place, flags, key and value. *)
Definition same_record (f g : frm) : Prop :=
  f_off g = f_off f ∧ f_ts g = f_ts f ∧ f_ep g = f_ep f ∧
  f_attrs g = f_attrs f ∧ f_key g = f_key f ∧ f_value g = f_value f.

Lemma out_same base d f g : frm_ok base f → sound f → out rg spec d f = Some g → same_record f g.
Proof.
  intros Hf Hs. unfold out. destruct (fate _ _ _); intros [= <-]; [done|].
  by destruct (stripped_same rg (StripHeaders spec) Hrg base f Hf Hs) as (_ & _ & _ & ? & ? & ? & ? & ? & ?).
Qed.

Lemma same_contends k f g :
  same_record f g → has_key k f ∧ competing spec (rec_of f) = true → has_key k g ∧ competing spec (rec_of g) = true.
Proof.
  intros (Eo & _ & _ & Ea & Ek & _). unfold has_key, is_control, competing, rec_of. cbn. by rewrite Eo, Ea, Ek.
Qed.

(** What a reader of the newest copy of [k] finds: a value, unless that copy is
    a tombstone. *)
Definition tombstone (f : frm) : bool := negb (Z.land (f_attrs f) AttrTombstone =? 0).

Definition newest_copy (fss : list (list frm)) (k : bytes) (j : nat) (f : frm) : Prop :=
  contends spec fss k j f ∧ ∀ j' f', contends spec fss k j' f' → f_off f' ≤ f_off f.

Definition value_of (fss : list (list frm)) (k : bytes) (v : option bytes) : Prop :=
  ∃ j f, newest_copy fss k j f ∧ tombstone f = false ∧ f_value f = v.

Lemma expired_tombstone now f : expired_rec spec now (rec_of f) = true → tombstone f = true.
Proof.
  unfold expired_rec, tombstone, rec_of, rec_flags. cbn [flags offset ts]. rewrite !andb_true_iff.
  intros ((((_ & H) & _) & _) & _). destruct (Z.land (f_attrs f) AttrTombstone =? 0); [|done].
  by destruct (bool_decide _).
Qed.

(** *** The values a pass leaves *)

Lemma newest_in (P : nat → frm → Prop) `{∀ j f, Decision (P j f)} (l : list (nat * frm)) j f :
  (j, f) ∈ l → P j f →
  ∃ j' f', (j', f') ∈ l ∧ P j' f' ∧ ∀ i g, (i, g) ∈ l → P i g → f_off g ≤ f_off f'.
Proof.
  revert j f. induction l as [|[j0 f0] l IH]; intros j f Hin HP; [by apply elem_of_nil in Hin|].
  assert (Hex : (∃ i g, (i, g) ∈ l ∧ P i g) ∨ ¬ ∃ i g, (i, g) ∈ l ∧ P i g).
  { destruct (decide (Exists (λ p, P p.1 p.2) l)) as [He|He].
    - left. apply Exists_exists in He as ([i g] & ? & ?). by exists i, g.
    - right. intros (i & g & Hi & Hg). apply He, Exists_exists. by exists (i, g). }
  destruct Hex as [(i & g & Hi & Hg)|Hno].
  - destruct (IH i g Hi Hg) as (j' & f' & Hin' & HP' & Hmax).
    destruct (decide (P j0 f0)) as [H0|H0]; [destruct (Z_lt_ge_dec (f_off f') (f_off f0)) as [Hlt|Hge]|].
    + exists j0, f0. split; [by left|]. split; [done|].
      intros i2 g2 [[= -> ->]|Hi2]%elem_of_cons Hg2; [done|]. specialize (Hmax _ _ Hi2 Hg2). lia.
    + exists j', f'. split; [by right|]. split; [done|].
      intros i2 g2 [[= -> ->]|Hi2]%elem_of_cons Hg2; [lia|by apply (Hmax i2)].
    + exists j', f'. split; [by right|]. split; [done|].
      intros i2 g2 [[= -> ->]|Hi2]%elem_of_cons Hg2; [done|by apply (Hmax i2)].
  - apply elem_of_cons in Hin as [[= -> ->]|Hin]; [|destruct Hno; by exists j, f].
    exists j0, f0. split; [by left|]. split; [done|].
    intros i g [[= -> ->]|Hi]%elem_of_cons Hg; [done|]. destruct Hno. by exists i, g.
Qed.

Lemma in_seg_list fss : ∃ l : list (nat * frm), ∀ j f, (j, f) ∈ l ↔ in_seg fss j f.
Proof.
  exists (concat (imap (λ j fs, pair j <$> fs) fss)). intros j f. unfold in_seg.
  rewrite list_elem_of_In, in_concat. setoid_rewrite <- list_elem_of_In. split.
  - intros (x & Hx & Hin). apply elem_of_lookup_imap in Hx as (i & fs & -> & E).
    apply list_elem_of_fmap in Hin as (f' & [= -> ->] & Hf). by exists fs.
  - intros (fs & E & Hf). exists (pair j <$> fs). split; [apply elem_of_lookup_imap; by exists j, fs|].
    apply list_elem_of_fmap. by exists f.
Qed.

Lemma newest_exists fss k j f :
  contends spec fss k j f → ∃ j' f', newest_copy fss k j' f'.
Proof.
  intros (Hf & Hk & Hc). destruct (in_seg_list fss) as [l Hl].
  destruct (newest_in (λ _ g, has_key k g ∧ competing spec (rec_of g) = true) l j f) as (j' & f' & Hin & [? ?] & Hm);
    [by apply Hl|done|].
  exists j', f'. split; [split; [by apply Hl|done]|]. intros i g (Hg & ? & ?). apply (Hm i g); [by apply Hl|done].
Qed.

Section values.
Context (now : Z) (bounds : list (Z * Z)) (fss : list (list frm)) (res : mergeResult) (W : nat → bool).
Context (Hlog : in_log_order bounds fss) (Hsnd : all_sound fss) (Hres : merge_of spec now bounds fss res).

Lemma removed_dropped k j f :
  contends spec fss k j f → out rg spec (default None (drops res !! j)) f = None →
  f_off f < ceiling spec ∧ (superseded spec fss k f ∨ expires spec now fss k f).
Proof.
  intros (Hf & [Hctl Hk] & Hc) Ho. unfold out, fate in Ho. rewrite Hctl, Hk in Ho.
  unfold competing, rec_of in Hc. cbn [offset] in Hc. apply andb_prop in Hc as [_ Hab%negb_true_iff]. rewrite Hab in Ho.
  destruct (Z.leb_spec (ceiling spec) (f_off f)) as [|Hlt]; [done|]. split; [done|].
  destruct (ds_get (default None (drops res !! j)) (f_off f)) eqn:Ed; [|by destruct (strips spec f)].
  destruct Hres as (_ & Hd & _). apply (proj1 (Hd j (f_off f))) in Ed as (f' & Eo & k' & (Hf' & [_ Hk'] & Hc') & Hx).
  destruct Hlog as (_ & _ & Hu). destruct (Hu j j f' f Hf' Hf Eo) as [_ ->]. rewrite Hk in Hk'. by injection Hk' as <-.
Qed.

Lemma dropped_removed k j f :
  contends spec fss k j f → f_off f < ceiling spec → superseded spec fss k f ∨ expires spec now fss k f →
  out rg spec (default None (drops res !! j)) f = None.
Proof.
  intros Hf Hlt Hx. destruct Hres as (_ & Hd & _).
  assert (Ed : dget res j (f_off f) = true). { apply Hd. exists f. split; [done|]. by exists k. }
  unfold dget in Ed. unfold out, fate. rewrite Ed. destruct Hf as (_ & [Hctl Hk] & Hc). rewrite Hctl, Hk.
  rewrite (proj2 (Z.leb_gt _ _)) by done. by destruct (aborts spec (f_off f)).
Qed.

Lemma contends_passed k j g :
  contends spec (passed rg spec res W fss) k j g →
  ∃ f, contends spec fss k j f ∧ same_record f g ∧
    if W j then out rg spec (default None (drops res !! j)) f = Some g else g = f.
Proof.
  intros (Hg & Hkc). apply in_seg_passed in Hg as (f & Hf & E). exists f.
  destruct (Hsnd j f Hf) as (Hs & b & Hb).
  assert (Hsr : same_record f g). { destruct (W j); [by eapply out_same|by subst g]. }
  split; [|done]. split; [done|]. destruct Hsr as (Eo & Et & Ee & Ea & Ek & Ev).
  apply (same_contends k g f); [|done]. split_and!; done.
Qed.

Lemma survives_passed k j f g :
  contends spec fss k j f →
  (if W j then out rg spec (default None (drops res !! j)) f = Some g else g = f) →
  contends spec (passed rg spec res W fss) k j g ∧ same_record f g.
Proof.
  intros (Hf & Hkc) E. destruct (Hsnd j f Hf) as (Hs & b & Hb).
  assert (Hsr : same_record f g). { destruct (W j); [by eapply out_same|by subst g]. }
  split; [|done]. split; [apply in_seg_passed; by exists f|]. by apply (same_contends k f g).
Qed.

(** The segments a governor's removal depends on have been rewritten. *)
Definition governed : Prop :=
  ∀ i j x, W j = true → flag (gcSegs res) j = true → (i < j)%nat → dget res i x = true → W i = true.

Context (Hasc : ∀ i j f g, in_seg fss i f → in_seg fss j g → (i < j)%nat → f_off f < f_off g).
Context (Hgov : governed).

Lemma partial_pass k v : value_of (passed rg spec res W fss) k v ↔ value_of fss k v.
Proof.
  split.
  - intros (j & g & (Hg & Hmax) & Ht & Ev). destruct (contends_passed k j g Hg) as (f & Hf & Hsr & E).
    destruct (newest_exists fss k j f Hf) as (j2 & f2 & Hf2 & Hmax2). pose proof (Hmax2 _ _ Hf) as Hle.
    assert (Hsame : f_off f2 = f_off f).
    { destruct (W j2) eqn:Ew.
      - destruct (out rg spec (default None (drops res !! j2)) f2) as [g2|] eqn:E2.
        + destruct (survives_passed k j2 f2 g2 Hf2) as [Hg2 (Eo2 & _)]; [by rewrite Ew|].
          specialize (Hmax _ _ Hg2). destruct Hsr as (Eo & _). lia.
        + destruct (Z.eq_dec (f_off f2) (f_off f)) as [|Hne]; [done|exfalso].
          destruct (removed_dropped k j2 f2 Hf2 E2) as (Hlt & [(_ & j3 & f3 & Hf3 & Hn3)|He]).
          { specialize (Hmax2 _ _ Hf3). lia. }
          assert (Hsup : superseded spec fss k f). { split; [lia|]. exists j2, f2. split; [done|lia]. }
          assert (Wj : W j = true).
          { destruct (decide (j = j2)) as [->|Hj]; [done|]. destruct (decide (j < j2)%nat) as [Hlt2|Hge2].
            - apply (Hgov j j2 (f_off f)); [done| |done|].
              + destruct Hres as (_ & _ & Hgc & _). apply Hgc. by exists k, f2.
              + destruct Hres as (_ & Hd & _). apply Hd. exists f. split; [done|]. exists k. split; [done|by left].
            - pose proof (Hasc j2 j f2 f (proj1 Hf2) (proj1 Hf) ltac:(lia)). lia. }
          rewrite Wj in E. rewrite (dropped_removed k j f) in E; [done|done|lia|by left].
      - destruct (survives_passed k j2 f2 f2 Hf2) as [Hg2 _]; [by rewrite Ew|].
        specialize (Hmax _ _ Hg2). destruct Hsr as (Eo & _). lia. }
    destruct Hlog as (_ & _ & Hu). destruct (Hu j2 j f2 f (proj1 Hf2) (proj1 Hf) Hsame) as [-> ->].
    destruct Hsr as (_ & _ & _ & Ea & _ & Ev'). exists j, f. split; [done|].
    unfold tombstone in *. by rewrite <- Ea, <- Ev'.
  - intros (j & f & (Hf & Hmax) & Ht & Ev).
    assert (Hs : ∃ g, if W j then out rg spec (default None (drops res !! j)) f = Some g else g = f).
    { destruct (W j); [|by exists f]. destruct (out _ _ _ f) as [g|] eqn:E; [by exists g|exfalso].
      destruct (removed_dropped k j f Hf E) as (_ & [(_ & j2 & f2 & Hf2 & Hlt)|[He _]]).
      - specialize (Hmax _ _ Hf2). lia.
      - apply expired_tombstone in He. congruence. }
    destruct Hs as (g & E). destruct (survives_passed k j f g Hf E) as [Hg (Eo & _ & _ & Ea & _ & Ev')].
    exists j, g. split; [split; [done|]|unfold tombstone in *; by rewrite Ea, Ev'].
    intros j2 g2 Hg2. destruct (contends_passed k j2 g2 Hg2) as (f2 & Hf2 & (Eo2 & _) & _).
    specialize (Hmax _ _ Hf2). lia.
Qed.

End values.

(** ** Skipping a segment *)

(** The stamp of a digest is true: no sound data record below it carries one of
    its headers. *)
Definition stamp_holds (d : keyDigest) (fs : list frm) : Prop :=
  ∀ f, f ∈ fs → is_control f = false → recorded f → f_off f < stripVerifiedBelow d → has_any (f_hdrs f) (stripHdrs d) = false.

Lemma headers_flag a h : negb (Z.land (rec_flags a h) digestFlagHasHeaders =? 0) = negb (bool_decide (h = ∅)).
Proof. unfold rec_flags. by destruct (Z.land a AttrTombstone =? 0), (bool_decide (h = ∅)). Qed.

Lemma has_any_empty hdrs : has_any ∅ hdrs = false.
Proof. unfold has_any. induction hdrs as [|h hdrs IH]; [done|]. cbn. by rewrite lookup_empty. Qed.

Lemma strip_noop base f :
  frm_ok base f → sound f → (recorded f → has_any (f_hdrs f) (StripHeaders spec) = false) →
  stripped rg (StripHeaders spec) f = f.
Proof.
  intros Hf [Hl [Hr|Hc]] Ha; [|by apply (stripped_corrupt rg _ base)].
  destruct (stripped_record rg (StripHeaders spec) Hrg base f Hf Hr) as (_ & _ & _ & _ & _ & _ & E).
  rewrite Ha in E by done. unfold stripped. rewrite E. by destruct f.
Qed.

Lemma strips_active f : 0 ≤ f_off f → strips spec f = true → stripActive spec = true ∧ f_off f < StripBelow spec.
Proof.
  unfold strips, stripActive. intros H0 [H1%Z.ltb_lt H2]%andb_prop. rewrite H2, andb_true_r.
  split; [apply Z.ltb_lt; lia|done].
Qed.

Lemma not_existsb {A} (P : A → bool) l x : existsb P l = false → x ∈ l → P x = false.
Proof.
  intros E Hx. apply not_true_iff_false. intros Hp. rewrite <- not_true_iff_false in E. apply E, existsb_exists.
  exists x. split; [by apply list_elem_of_In|done].
Qed.

Lemma canSkip_facts d res j :
  canSkip spec d res j = true →
  (∀ s, drops res !! j = Some (Some s) → ds_count s ≤ 0) ∧ flag (abortedKeyed res) j = false ∧
  (stripActive spec = true →
     (∀ x, x ∈ control d → StripBelow spec ≤ x) ∧
     (stripStampCovers d (StripBelow spec) (StripHeaders spec) = true ∨
      flag (stripKeyed res) j = false ∧
      ∀ r, r ∈ unkeyed d → offset r < StripBelow spec → Z.land (flags r) digestFlagHasHeaders = 0)) ∧
  (∀ r, r ∈ unkeyed d → offset r < ceiling spec → aborts spec (offset r) = false).
Proof.
  unfold canSkip. intros Hsk. destruct (match drops res !! j with Some (Some s) => _ | _ => _ end) eqn:Ed; [done|].
  fold (flag (abortedKeyed res) j) in Hsk. destruct (flag (abortedKeyed res) j); [done|].
  fold (flag (stripKeyed res) j) in Hsk. destruct (stripActive spec && _) eqn:Est; [done|]. apply negb_true_iff in Hsk.
  split; [intros s E; rewrite E in Ed; by apply Z.ltb_ge|]. split; [done|]. split.
  - intros Hact. rewrite Hact in Est. cbn [andb] in Est. apply orb_false_iff in Est as [[Ec Ek]%orb_false_iff Eu]. split.
    + intros x Hx. apply (not_existsb _ _ _ Ec), Z.ltb_ge in Hx. done.
    + destruct (stripStampCovers _ _ _); [by left|right]. rewrite andb_true_r in Ek. split; [done|].
      intros r Hr Hlt. apply (not_existsb _ _ _ Eu) in Hr. apply Z.ltb_lt in Hlt. rewrite Hlt in Hr. cbn in Hr.
      rewrite andb_true_r in Hr. by apply negb_false_iff, Z.eqb_eq in Hr.
  - intros r Hr Hlt. apply (not_existsb _ _ _ Hsk) in Hr. apply Z.ltb_lt in Hlt. by rewrite Hlt in Hr.
Qed.

(** A segment [canSkip] accepts would come out of the rewrite as it is. *)
Lemma skip_unchanged now bounds fss res j fs d :
  merge_of spec now bounds fss res → in_log_order bounds fss → all_sound fss → fss !! j = Some fs → describes d fs →
  stamp_holds d fs → canSkip spec d res j = true →
  ∀ f, f ∈ fs → out rg spec (default None (drops res !! j)) f = Some f.
Proof.
  intros Hres Hlog Hs Hj (_ & Hu & Hctl) Hst Hsk f Hf. assert (Hin : in_seg fss j f) by (by exists fs).
  destruct (Hs j f Hin) as (Hsf & b & Hb). destruct Hlog as (_ & Hpos & _). destruct (Hpos j f Hin) as [H0 (bl & n & Hbn & _)].
  destruct (canSkip_facts d res j Hsk) as (Kd & Ka & Ks & Kb). destruct Hres as ((_ & _ & _ & _ & Hcnt) & _ & _ & Hstrip & Habt).
  unfold out, fate. destruct (Z.leb_spec (ceiling spec) (f_off f)) as [|Hlt]; [done|].
  destruct (is_control f) eqn:Ec.
  { destruct (strips spec f) eqn:Es; [exfalso|done]. apply strips_active in Es as [Hact Hb2]; [|done].
    apply Ks in Hact as [Hact _]. specialize (Hact (f_off f)). rewrite Hctl in Hact.
    ospecialize (Hact _); [|lia]. apply list_elem_of_fmap. exists f. split; [done|]. by apply list_elem_of_filter. }
  assert (Hkey : (∃ k, has_key k f) ∨ has_none f).
  { unfold has_key, has_none. rewrite Ec. destruct (f_key f) as [k|]; [left; by exists k|by right]. }
  assert (Hun : has_none f → rec_of f ∈ unkeyed d).
  { intros Hn. rewrite Hu. apply list_elem_of_fmap. exists f. split; [done|]. by apply list_elem_of_filter. }
  destruct (aborts spec (f_off f)) eqn:Eab.
  { exfalso. destruct Hkey as [[k Hk]|Hn].
    - apply not_true_iff_false in Ka. apply Ka, Habt. exists k, f. split; [done|]. split; [done|].
      unfold abort_work, rec_of. cbn [offset]. rewrite Eab, andb_true_r. by apply Z.ltb_lt.
    - pose proof (Kb (rec_of f) (Hun Hn) Hlt). unfold rec_of in *. cbn [offset] in *. congruence. }
  replace (match f_key f with Some _ => ds_get (default None (drops res !! j)) (f_off f) | None => false end) with false.
  2: { destruct (f_key f); [|done]. destruct (drops res !! j) as [[s|]|] eqn:Edj; [|done|done].
       destruct (Hcnt j s bl n Edj Hbn) as (_ & Hc & _). specialize (Kd s eq_refl). lia. }
  destruct (strips spec f) eqn:Es; [|done]. f_equal. apply strips_active in Es as [Hact Hb2]; [|done].
  apply (strip_noop b); [done|done|]. intros Hrec.
  destruct (decide (f_hdrs f = ∅)) as [->|Hne]; [apply has_any_empty|].
  assert (Hfl : negb (Z.land (flags (rec_of f)) digestFlagHasHeaders =? 0) = true).
  { unfold rec_of. cbn [flags]. rewrite headers_flag. by rewrite bool_decide_eq_false_2. }
  destruct (Ks Hact) as [_ [Hcov|[Kk Ku]]].
  - unfold stripStampCovers in Hcov. destruct (Z.ltb_spec (stripVerifiedBelow d) (StripBelow spec)); [done|].
    apply bool_decide_eq_true in Hcov. rewrite Hcov. apply Hst; [done|done|done|lia].
  - exfalso. destruct Hkey as [[k Hk]|Hn].
    + apply not_true_iff_false in Kk. apply Kk, Hstrip. exists k, f. split; [done|]. split; [done|].
      unfold strip_work. rewrite Hact, Hfl, andb_true_r. cbn. by apply Z.ltb_lt.
    + apply negb_true_iff, Z.eqb_neq in Hfl. by apply Hfl, Ku, Hb2; apply Hun.
Qed.

End pass.

Lemma has_any_without hdrs have : has_any (without hdrs have) hdrs = false.
Proof.
  unfold has_any. apply not_true_iff_false. intros (h & Hh & Hs)%existsb_exists. apply bool_decide_eq_true in Hs as [x Hx].
  rewrite lookup_without, decide_True in Hx; [done|]. by apply list_elem_of_In.
Qed.

(** Where stripping reaches, no survivor is a control record, an aborted one or
    one with a strip header. *)
Lemma out_clean rg spec base d f g :
  fair rg → frm_ok base f → sound f → strips spec f = true → f_off f < ceiling spec → out rg spec d f = Some g →
  is_control g = false ∧ aborts spec (f_off g) = false ∧
  (recorded g → has_any (f_hdrs g) (StripHeaders spec) = false).
Proof.
  intros Hrg Hf Hs Hst Hc Ho. destruct (out_same rg spec Hrg base d f g Hf Hs Ho) as (Eo & _ & _ & Ea & _).
  unfold is_control. rewrite Eo, Ea. fold (is_control f). unfold out, fate in Ho.
  rewrite (proj2 (Z.leb_gt _ _) Hc), Hst in Ho. destruct (is_control f); [done|].
  destruct (aborts spec (f_off f)); [done|]. split; [done|]. split; [done|].
  destruct (match f_key f with Some _ => _ | None => _ end); [done|]. injection Ho as <-. intros Hr.
  destruct Hs as [Hl [Hrf|Hcf]].
  - destruct (stripped_record rg (StripHeaders spec) Hrg base f Hf Hrf) as (_ & _ & _ & _ & _ & -> & _). apply has_any_without.
  - rewrite (stripped_corrupt rg _ base f Hf Hl Hcf) in Hr. apply recorded_crc in Hr. unfold corrupt in Hcf. congruence.
Qed.

End CompactRecord.
