(* ===== verification/CompactSegment.v ===== *)
(** * Rewriting a segment: compact_cleaner.go, second half

    A rewrite walks a segment's records, block by block where it has blocks,
    and hands each to a callback that drops it or adds it to the working copy
    through a [blockWriter], which gathers records into blocks of
    [cleanBlockTarget] bytes ([rewriteWalk]).  A block that keeps its producer's
    identity, or a control block, is carried over as its bytes when every record
    of it stays.  [cleanSegment] rewrites under a [CleanSpec], keeps the original
    when nothing changed, removes both when nothing is left, and refreshes the
    key digest with a stamp; [consolidateOne] copies everything into larger
    blocks.  Segments are local: the tiered install is not modelled. *)

From Stdlib Require Import ZArith Lia.
From stdpp Require Import base list numbers strings gmap sorting.
From coqutil Require Import Byte.
From S2P Require Import Prelude GoStd Wire Compress BlockV3 Block Framing EpochCache Index Segment.
From S2P Require Import SegmentIndex SegmentSearch SegmentReopen Log SegmentRewrite.
From S2P Require Import LogTruncate KeyDigest Compaction CompactRecord.

Open Scope Z_scope.

Module CompactSegment.
Import Segment SegmentIndex SegmentSearch SegmentReopen Log SegmentRewrite LogTruncate KeyDigest Compaction CompactRecord.

(** What fails during the rewrite of a segment: creating the copy, its [k]th
    write, removing the copy and the source, flushing the copy, installing it,
    and writing the digest. *)
Record clean_io := {
  cs_work : work_io;
  cs_write : nat → wfault * Index.faults;
  cs_drop : delete_io;
  cs_old : delete_io;
  cs_sync : bool;
  cs_replace : replace_io;
  cs_digest : bool;
}.

Definition calm_writes (k : nat) : wfault * Index.faults := (None, Index.no_faults).

Definition clean_calm : clean_io :=
  {| cs_work := work_calm; cs_write := calm_writes; cs_drop := delete_calm; cs_old := delete_calm;
     cs_sync := false; cs_replace := replace_calm; cs_digest := false |}.

Section codecs.
Context `{CodecLib}.

(** ** Gathering records into blocks *)

(** The copy, the bytes not yet written, and the number of writes made. *)
Record blockWriter := { w_seg : segment; w_buf : bytes; w_n : nat }.

Definition reset (seg : segment) (w : blockWriter) : blockWriter := {| w_seg := seg; w_buf := []; w_n := w_n w |}.

Definition newBlockWriter (seg : segment) : blockWriter := {| w_seg := seg; w_buf := []; w_n := O |}.

Definition wrote (r : segment * outcome ()) (w : blockWriter) : outcome blockWriter :=
  match r with
  | (s, Ok _) => Ok {| w_seg := s; w_buf := []; w_n := S (w_n w) |}
  | (_, Fail e) => Fail e
  | (_, Panic) => Panic
  end.

Definition flush (wr : nat → wfault * Index.faults) (w : blockWriter) : outcome blockWriter :=
  if zlen (w_buf w) =? 0 then Ok w
  else
    entries ← entriesForMessageSet (position (w_seg w)) (w_buf w);
    wrote (WriteMessageSet (wr (w_n w)).1 (wr (w_n w)).2 (w_seg w) (w_buf w) entries) w.

Definition add (wr : nat → wfault * Index.faults) (w : blockWriter) (ms : bytes) : outcome blockWriter :=
  let w := {| w_seg := w_seg w; w_buf := w_buf w ++ ms; w_n := w_n w |} in
  if cleanBlockTarget <=? zlen (w_buf w) then flush wr w else Ok w.

(** ** Walking the source *)

(** [blockTailFrom], the blocks only. *)
Definition blockTailFrom (s : segment) (pos : Z) : option (list blockRef) :=
  if negb (blockMode s) then None
  else
    let from := Sort.Search (zlen (blocks s)) (λ i,
      match blocks s !! Z.to_nat i with
      | Some b => pos <? logicalStart b + logicalLen b
      | None => false
      end) in
    Some (drop (Z.to_nat from) (blocks s)).

(** [blockReader.read]. *)
Definition read_block (s : segment) (b : blockRef) : outcome bytes :=
  match shutErrorLocked s with
  | Some e => Fail e
  | None =>
      if physLen b <? 0 then Panic
      else match read_at (backing s) (physLen b) (physStart b) with
           | (_, Some e) => Fail e
           | (buf, None) => Ok buf
           end
  end.

Definition unreadable {A} (r : outcome A) : outcome A :=
  match r with Fail _ => Fail (ErrSegmentUnreadable "rewrite of segment") | r => r end.

Section walk.
(** The callbacks' own state goes along with the writer. *)
Context {A : Type} (wr : nat → wfault * Index.faults) (keep : A * blockWriter → bytes → outcome (A * blockWriter))
  (whole : list bytes → outcome bool).

(** [for ss.pos < end]: the frames up to [stop], each handed to [f]. *)
Fixpoint scan_to {St} (fuel : nat) (s : segment) (stop : Z) (f : St → bytes → outcome St)
    (sc : segmentScanner) (st : St) : option (outcome (segmentScanner * St)) :=
  match fuel with
  | O => None
  | S fuel =>
      if sc_pos sc <? stop then
        match Scan s sc with
        | (_, Panic) => Some Panic
        | (_, Fail e) => Some (unreadable (Fail e))
        | (sc, Ok (ms, _)) =>
            match f st ms with
            | Ok st => scan_to fuel s stop f sc st
            | Fail e => Some (Fail e)
            | Panic => Some Panic
            end
        end
      else Some (Ok (sc, st))
  end.

Fixpoint keep_all (st : A * blockWriter) (frames : list bytes) : outcome (A * blockWriter) :=
  match frames with
  | [] => Ok st
  | ms :: frames => st ← keep st ms; keep_all st frames
  end.

Definition flushed (st : A * blockWriter) : outcome (A * blockWriter) :=
  w ← flush wr st.2; Ok (st.1, w).

(** A block that must not be folded in with its neighbours. *)
Definition apart (s : segment) (b : blockRef) (frames : list bytes) (st : A * blockWriter)
    : outcome (A * blockWriter) :=
  all ← whole frames;
  if all && blockMode (w_seg st.2) then
    '(a, w) ← flushed st;
    data ← unreadable (read_block s b);
    let framing := concat frames in
    entries ← entriesForMessageSet (position (w_seg w)) framing;
    w ← wrote (WriteBlock (wr (w_n w)).1 (wr (w_n w)).2 (w_seg w) data (Block.codec b)
                 (zlen framing) entries) w;
    Ok (a, w)
  else
    let control := negb (Z.land (Block.flags b) blockv3.FlagControl =? 0) in
    st ← (if control then flushed st else Ok st);
    st ← keep_all st frames;
    if control then flushed st else Ok st.

Fixpoint walk_blocks (fuel : nat) (s : segment) (bs : list blockRef) (sc : segmentScanner) (st : A * blockWriter)
    : option (outcome (A * blockWriter)) :=
  match bs with
  | [] => Some (Ok st)
  | b :: bs =>
      let stop := logicalStart b + logicalLen b in
      let step :=
        if mergeable b then scan_to fuel s stop keep sc st
        else
          match scan_to fuel s stop (λ frames ms, Ok (frames ++ [ms])) sc [] with
          | None => None
          | Some r => Some ('(sc, frames) ← r; st ← apart s b frames st; Ok (sc, st))
          end in
      match step with
      | None => None
      | Some (Ok (sc, st)) => walk_blocks fuel s bs sc st
      | Some (Fail e) => Some (Fail e)
      | Some Panic => Some Panic
      end
  end.

Definition walk_ends (st : A * blockWriter) (err : error) : outcome (A * blockWriter) :=
  match err with ErrEOF => Ok st | e => unreadable (Fail e) end.

Definition rewriteWalk (fuel : nat) (s : segment) (st : A * blockWriter) : option (outcome (A * blockWriter)) :=
  match blockTailFrom s 0 with
  | Some bs => walk_blocks fuel s bs newSegmentScanner st
  | None =>
      match scanning fuel s newSegmentScanner
              (λ st ms _, match keep st ms with Ok st => inl st | r => inr r end) walk_ends st with
      | None => None
      | Some r => Some (r ← r; r)
      end
  end.

End walk.

(** ** The rewrite of a segment *)

(** What the pass counts as it goes. *)
Record tally := { removed : Z; n_stripped : Z; n_corrupt : Z; residualStrippable : bool }.

Definition nothing_counted : tally :=
  {| removed := 0; n_stripped := 0; n_corrupt := 0; residualStrippable := false |}.

Definition count_removed (t : tally) : tally :=
  {| removed := removed t + 1; n_stripped := n_stripped t; n_corrupt := n_corrupt t;
     residualStrippable := residualStrippable t |}.

Definition count_stripped (t : tally) : tally :=
  {| removed := removed t; n_stripped := n_stripped t + 1; n_corrupt := n_corrupt t;
     residualStrippable := residualStrippable t |}.

Definition count_corrupt (t : tally) : tally :=
  {| removed := removed t; n_stripped := n_stripped t; n_corrupt := n_corrupt t + 1; residualStrippable := true |}.

Definition count_residual (t : tally) : tally :=
  {| removed := removed t; n_stripped := n_stripped t; n_corrupt := n_corrupt t; residualStrippable := true |}.

(** The callback [keep] of [cleanSegment]. *)
Definition clean_keep (wr : nat → wfault * Index.faults) (rg : ranges) (spec : CleanSpec) (d : option dropSet)
    (st : tally * blockWriter) (ms : bytes) : outcome (tally * blockWriter) :=
  let '(t, w) := st in
  off ← messageSet.Offset ms;
  msg ← messageSet.Message ms;
  let msg := default [] msg in
  disp ← classify spec off msg d;
  match disp with
  | dispRemove => Ok (count_removed t, w)
  | dispStrip =>
      '(t, out) ← match stripFrame rg ms (StripHeaders spec) with
                  | Fail ErrCorruptRecord => Ok (count_corrupt t, ms)
                  | Fail e => Fail e
                  | Panic => Panic
                  | Ok (Some sf) => Ok (count_stripped t, sf)
                  | Ok None => Ok (t, ms)
                  end;
      w ← add wr w out;
      Ok (t, w)
  | dispRetain =>
      t ← (if stripActive spec then
             attrs ← SerializedMessage.Attributes msg;
             if (Z.land attrs AttrControl =? 0) && (StripBelow spec <=? off) then
               any ← hasAnyHeader msg (StripHeaders spec);
               Ok (if (any : bool) then count_residual t else t)
             else Ok t
           else Ok t);
      w ← add wr w ms;
      Ok (t, w)
  end.

(** The callback [whole]. *)
Fixpoint clean_whole (spec : CleanSpec) (d : option dropSet) (frames : list bytes) : outcome bool :=
  match frames with
  | [] => Ok true
  | ms :: frames =>
      off ← messageSet.Offset ms;
      msg ← messageSet.Message ms;
      disp ← classify spec off (default [] msg) d;
      if bool_decide (disp = dispRetain) then clean_whole spec d frames else Ok false
  end.

(** [refreshDigest]: the file it leaves beside the segment. *)
Definition refreshDigest (io : clean_io) (fuel : nat) (s : segment) (stamp : Z) (hdrs : list bytes)
    (old : option bytes) : option (option bytes) :=
  match buildKeyDigest fuel s with
  | None => None
  | Some (Ok d) =>
      if cs_digest io then Some old else Some (Some (encodeKeyDigest (restamp d stamp hdrs)))
  | Some _ => Some old
  end.

Definition MaxInt64 : Z := 2 ^ 63 - 1.

(** The stamp of the refreshed digest. *)
Definition strip_stamp (spec : CleanSpec) (t : tally) : Z * list bytes :=
  if stripActive spec
  then (if residualStrippable t then StripBelow spec else MaxInt64, StripHeaders spec)
  else (-1, []).

(** What a rewrite leaves: the source, the records removed, the segment that
    stands in its place if any, the digest file, and the base offsets of the
    files that went. *)
Record rewrite := {
  rw_source : segment;
  rw_removed : Z;
  rw_result : outcome (option segment);
  rw_digest : option bytes;
  rw_gone : gset Z;
}.

Definition rewrite_fails (s : segment) (n : Z) (dg : option bytes) (gone : gset Z) {A} (r : outcome A) : rewrite :=
  {| rw_source := s; rw_removed := n;
     rw_result := match r with Fail e => Fail e | Panic => Panic | Ok _ => Panic end;
     rw_digest := dg; rw_gone := gone |}.

(** [cleanupEmptySegment]. *)
Definition cleanupEmptySegment (io : clean_io) (new old : segment) (n : Z) (dg : option bytes) : rewrite :=
  match Delete (cs_drop io) new with
  | (_, _, Ok _) =>
      let '(old', gone, r) := Delete (cs_old io) (with_left old) in
      {| rw_source := old'; rw_removed := n;
         rw_result := match r with Ok _ => Ok None | Fail e => Fail e | Panic => Panic end;
         rw_digest := None; rw_gone := if gone then {[ BaseOffset old ]} else ∅ |}
  | (_, _, r) => rewrite_fails old n dg ∅ r
  end.

Definition cleanSegment (fuel : nat) (io : clean_io) (rg : ranges) (i : Z) (spec : CleanSpec) (seg : segment)
    (d : option dropSet) (dg : option bytes) : option rewrite :=
  match Cleaned (cs_work io) i seg with
  | Ok cleaned =>
      match rewriteWalk (cs_write io) (clean_keep (cs_write io) rg spec d) (clean_whole spec d) fuel seg
              (nothing_counted, newBlockWriter cleaned) with
      | None => None
      | Some (Ok (t, w)) =>
          match flush (cs_write io) w with
          | Ok w =>
              let cleaned := w_seg w in
              if IsEmpty cleaned then Some (cleanupEmptySegment io cleaned seg (removed t) dg)
              else
                let '(stamp, hdrs) := strip_stamp spec t in
                if (removed t =? 0) && (n_stripped t =? 0) && negb (needsBlockConsolidation seg) then
                  match Delete (cs_drop io) cleaned with
                  | (_, _, Ok _) =>
                      dg ← refreshDigest io fuel seg stamp hdrs dg;
                      Some {| rw_source := seg; rw_removed := 0; rw_result := Ok (Some seg); rw_digest := dg;
                              rw_gone := ∅ |}
                  | (_, _, r) => Some (rewrite_fails seg 0 dg ∅ r)
                  end
                else if cs_sync io then Some (rewrite_fails seg (removed t) dg ∅ (A := ()) (Fail (ErrText "sync")))
                else
                  '(y, old, r) ← Replace fuel (cs_replace io) (with_dirty cleaned false false) seg;
                  match r with
                  | Ok _ =>
                      dg ← refreshDigest io fuel y stamp hdrs dg;
                      Some {| rw_source := old; rw_removed := removed t; rw_result := Ok (Some y); rw_digest := dg;
                              rw_gone := ∅ |}
                  | r => Some (rewrite_fails old (removed t) dg ∅ r)
                  end
          | r => Some (rewrite_fails seg (removed t) dg ∅ r)
          end
      | Some r => Some (rewrite_fails seg 0 dg ∅ r)
      end
  | r => Some (rewrite_fails seg 0 dg ∅ r)
  end.

(** [consolidateOne]. *)
Definition consolidateOne (fuel : nat) (io : clean_io) (i : Z) (seg : segment)
    : option (segment * outcome segment) :=
  match Cleaned (cs_work io) i seg with
  | Fail e => Some (seg, Fail e)
  | Panic => Some (seg, Panic)
  | Ok cleaned =>
      match rewriteWalk (cs_write io) (λ st ms, w ← add (cs_write io) st.2 ms; Ok (st.1, w)) (λ _, Ok true) fuel seg
              ((), newBlockWriter cleaned) with
      | None => None
      | Some (Fail e) => Some (seg, Fail e)
      | Some Panic => Some (seg, Panic)
      | Some (Ok (_, w)) =>
          match flush (cs_write io) w with
          | Fail e => Some (seg, Fail e)
          | Panic => Some (seg, Panic)
          | Ok w =>
              if cs_sync io then Some (seg, Fail (ErrText "sync"))
              else
                '(y, old, r) ← Replace fuel (cs_replace io) (with_dirty (w_seg w) false false) seg;
                Some (old, match r with Ok _ => Ok y | Fail e => Fail e | Panic => Panic end)
          end
      end
  end.

End codecs.

(** ** What a rewrite holds *)

Section rewriting.
Context `{CodecLaws}.

(** The writer has the frames [acc]: those in the copy and those not yet
    written. *)
Definition writing (s0 : segment) (w : blockWriter) (acc : list frm) : Prop :=
  ∃ a b, acc = a ++ b ∧ holds (w_seg w) a ∧ w_buf w = fs_bytes b ∧ kept s0 (w_seg w) ∧ codec_ok (w_seg w) ∧
    Index.tight (Index (w_seg w)).

Definition all_written (s0 : segment) (w : blockWriter) (acc : list frm) : Prop :=
  writing s0 w acc ∧ w_buf w = [] ∧ holds (w_seg w) acc.

Lemma kept_through a b c : kept a b → kept b c → kept a c.
Proof. unfold kept. intros (? & ? & ? & ? & ? & ? & ? & ? & ?) (? & ? & ? & ? & ? & ? & ? & ? & ?). split_and!; congruence. Qed.

Lemma kept_codec a b : kept a b → codec_ok a → codec_ok b.
Proof. intros (_ & E & _). unfold codec_ok. by rewrite E. Qed.

Lemma flush_spec s0 w acc :
  writing s0 w acc → frames_ok (BaseOffset s0) acc →
  ∃ w', flush calm_writes w = Ok w' ∧ all_written s0 w' acc.
Proof.
  intros (a & b & -> & Hh & Eb & Hk & Hc & Ht) Hok. unfold flush. destruct b as [|f b].
  - exists w. rewrite Eb. split; [done|]. rewrite app_nil_r. split; [|done].
    exists a, []. by rewrite app_nil_r.
  - pose proof (fs_bytes_pos (f :: b) ltac:(done)). rewrite Eb, (proj2 (Z.eqb_neq _ _)) by lia.
    pose proof Hok as (_ & Hfr & _). apply frm_framed in Hfr. apply Forall_app in Hfr as [_ Hfr].
    pose proof Hok as (_ & _ & Hd & _). apply Forall_app in Hd as [_ Hd]. rewrite set_entries, bind_Ok by done.
    pose proof Hk as (EB & _). rewrite <- EB in Hok.
    destruct (holds_append (w_seg w) a (f :: b) Hh Hc ltac:(done) Hok) as (s' & E & Hh' & Hk' & _ & Ht').
    unfold calm_writes; cbn [fst snd]. rewrite E. eexists. split; [done|]. split; [|done].
    exists (a ++ f :: b), []. rewrite app_nil_r. split; [done|]. split; [done|]. split; [done|].
    split; [by eapply kept_through|]. split; [by eapply kept_codec|]. by apply Ht'.
Qed.

Lemma add_spec s0 w acc f :
  writing s0 w acc → frames_ok (BaseOffset s0) (acc ++ [f]) →
  ∃ w', add calm_writes w (fbytes f) = Ok w' ∧ writing s0 w' (acc ++ [f]).
Proof.
  intros (a & b & -> & Hh & Eb & Hk & Hc & Ht) Hok. unfold add. cbv zeta.
  set (w1 := {| w_seg := w_seg w; w_buf := w_buf w ++ fbytes f; w_n := w_n w |}).
  assert (Hw : writing s0 w1 ((a ++ b) ++ [f])).
  { exists a, (b ++ [f]). rewrite <- app_assoc. split; [done|]. split; [done|]. split; [|done].
    unfold w1. cbn [w_buf]. rewrite Eb, fs_bytes_app. f_equal. unfold fs_bytes. cbn. by rewrite app_nil_r. }
  destruct (_ <=? _); [|by exists w1]. destruct (flush_spec s0 w1 _ Hw Hok) as (w' & E & Ha & _). by exists w'.
Qed.

(** *** The walk *)

Fixpoint each {St} (f : St → bytes → outcome St) (st : St) (fs : list frm) : outcome St :=
  match fs with
  | [] => Ok st
  | g :: fs => st ← f st (fbytes g); each f st fs
  end.

Lemma scan_to_frames {St} base fuel s sc a g b (f : St → bytes → outcome St) st st' :
  at_frame s (a ++ g ++ b) a sc → Forall (frm_ok base) g → Forall (λ x, 0 < zlen (f_data x)) g →
  (length g < fuel)%nat → each f st g = Ok st' →
  ∃ sc', scan_to fuel s (zlen (fs_bytes (a ++ g))) f sc st = Some (Ok (sc', st')) ∧ at_frame s (a ++ g ++ b) (a ++ g) sc'.
Proof.
  revert fuel sc a st. induction g as [|x g IH]; intros fuel sc a st Ha Hf Hd Hfuel He;
    (destruct fuel as [|fuel]; [simpl in Hfuel; lia|]); cbn [scan_to].
  - injection He as <-. rewrite app_nil_r in *. pose proof Ha as (_ & _ & ->). rewrite Z.ltb_irrefl. by exists sc.
  - apply Forall_cons in Hf as [Hx Hf]. apply Forall_cons in Hd as [Hdx Hd]. pose proof Ha as (_ & _ & Ep).
    rewrite Ep, (proj2 (Z.ltb_lt _ _)).
    2: { rewrite fs_bytes_app, zlen_app. pose proof (fs_bytes_pos (x :: g) ltac:(done)). lia. }
    destruct (Scan_frame base s sc a x (g ++ b) Ha Hx Hdx) as (sc1 & -> & Ha1). cbn [each] in He.
    destruct (f st (fbytes x)) as [st1|e|]; [|done|done]. rewrite bind_Ok in He.
    destruct (IH fuel sc1 (a ++ [x]) st1) as (sc2 & E & Ha2); try done; [by rewrite <- app_assoc|simpl in Hfuel; lia|].
    rewrite <- (app_assoc a [x] g) in E, Ha2. rewrite <- (app_assoc a [x]) in Ha2. exists sc2. by split.
Qed.

Lemma each_gather acc g :
  each (λ frames ms, Ok (frames ++ [ms])) acc g = Ok (acc ++ (fbytes <$> g)).
Proof.
  revert acc. induction g as [|x g IH]; intros acc; [by rewrite app_nil_r|]. cbn [each]. rewrite bind_Ok, IH.
  by rewrite <- app_assoc.
Qed.

(** A version-3 block counts the frames it stands for. *)
Lemma v3_count data h recs g :
  blockv3.DecodeBlock data = Ok (h, recs) → Framing.decodeV3Block data = Ok (fs_bytes g) →
  Forall framed g → Forall (λ f, 0 < zlen (f_data f)) g → zlen (fs_bytes g) < 2 ^ 31 → zlen g = blockv3.Records h.
Proof.
  intros Hd Hm Hf Hg Hz. unfold Framing.decodeV3Block in Hm. rewrite Hd, bind_Ok in Hm.
  apply Framing.synthesize_loop_inv in Hm as [_ Hm]. rewrite app_nil_l in Hm.
  apply blockv3.DecodeBlock_inv in Hd as [Hok (p & _ & _ & _ & Hp)].
  apply blockv3.decode_payload_safe in Hp as [Hn (l & Hl & _)]; [|done].
  destruct Hok as (_ & _ & _ & _ & He & Ht & _).
  pose proof (Framing.entries_of_frames h recs 0 Ht He ltac:(by destruct recs) ltac:(by rewrite <- Hm)) as E.
  rewrite <- Hm, set_entries in E by done. injection E as E. apply (f_equal length) in E.
  rewrite length_entries_at, Framing.length_frame_entries in E. unfold zlen in *. lia.
Qed.

(** A block carried over as its bytes. *)
Lemma carry_block w acc p g :
  holds w acc → codec_ok w → blockMode w = true → piece_ok p → v3_ok p → p_data p = fs_bytes g → g ≠ [] →
  frames_ok (BaseOffset w) (acc ++ g) →
  ∃ w', WriteBlock None Index.no_faults w (p_raw p) (Block.codec (p_ref p)) (zlen (fs_bytes g))
          (entries_at (position w) g) = (w', Ok ()) ∧
        holds w' (acc ++ g) ∧ kept w w' ∧ (Index.tight (Index w) → Index.tight (Index w')).
Proof.
  intros Hh Hc Hm Hp (_ & h & payload & Hok & Er & Hpl & Ec & En & _ & Hdec) Ed Hne Hfr.
  pose proof Hfr as (_ & Hf & Hd & _ & Hz). apply frm_framed, Forall_app in Hf as [_ Hf]. apply Forall_app in Hd as [_ Hd].
  rewrite fs_bytes_app, zlen_app in Hz. pose_zlen. rewrite Ed in Hdec.
  destruct (blockv3.DecodeBlock (p_raw p)) as [[h' recs]|e|] eqn:E.
  2, 3: unfold Framing.decodeV3Block in Hdec; by rewrite E in Hdec.
  assert (h' = h) as ->.
  { pose proof E as E'. apply blockv3.DecodeBlock_inv in E' as [Hok' (p' & Er' & _)].
    pose proof (blockv3.decode_sealed h payload Hok) as D. rewrite <- Er, Er', blockv3.decode_sealed in D by done.
    by injection D. }
  rewrite Ec. destruct (holds_block w acc g (p_raw p) h recs) as (w' & ? & ? & ? & _ & ?); try done; [|by exists w'].
  apply (v3_count (p_raw p) h recs g); try done; lia.
Qed.

Lemma read_piece s pa p pb :
  Segment.describes s (pa ++ p :: pb) → closed s = false → read_block s (p_ref p) = Ok (p_raw p).
Proof.
  intros (_ & Hc & Eb & _) Hcl. unfold read_block, shutErrorLocked. rewrite Hcl.
  pose proof (chain_mid _ _ _ _ _ Hc) as [(El & Hl & Hd & Hv) Eq]. rewrite El, (proj2 (Z.ltb_ge _ _)) by (pose_zlen; lia).
  rewrite Eb, raws_app. change (raws (p :: pb)) with (p_raw p ++ raws pb).
  assert (Hz : 0 < zlen (p_raw p)).
  { destruct (piece_head p (conj El (conj Hl (conj Hd Hv)))) as [r ->]. rewrite zlen_cons. pose_zlen. lia. }
  rewrite read_at_spec by (rewrite ?Eq; pose_zlen; lia). by rewrite Eq, read_spec_mid by (rewrite ?Z.add_0_l; done).
Qed.

(** Every block lies behind position 0. *)
Lemma blockTailFrom_all s ps : Segment.describes s ps → blockTailFrom s 0 = Some (refs ps).
Proof.
  intros (Hm & Hc & _ & Eb & _). unfold blockTailFrom. rewrite Hm, Eb. cbn [negb]. f_equal.
  destruct (Sort.Search_list _ (λ b, 0 <? logicalStart b + logicalLen b) (refs ps) (chain_sorted _ _ _ Hc)) as [_ ->].
  { intros x y Hxy. rewrite !Z.ltb_lt. lia. }
  apply filter_all, Forall_fmap, Forall_forall. intros p Hp. cbn. apply list_elem_of_split in Hp as (a & b & ->).
  apply chain_app in Hc as [_ ((_ & Hl & Hd & _) & Hs & _)]. rewrite Z.ltb_lt, Hl, Hs. pose_zlen. lia.
Qed.

Section walked.
Context {A : Type} (s0 : segment) (keep : A * blockWriter → bytes → outcome (A * blockWriter))
  (whole : list bytes → outcome bool).
(** What is kept of a record, what is counted for it, and which records a block
    carried over whole may hold. *)
Context (o : frm → option frm) (step : A → frm → A) (stays : frm → Prop) (all : list frm).
Context (Hall : frames_ok (BaseOffset s0) (omap o all)).
Context (Hkeep : ∀ t w acc f, f ∈ all → writing s0 w acc → frames_ok (BaseOffset s0) (acc ++ omap o [f]) →
  ∃ w', keep (t, w) (fbytes f) = Ok (step t f, w') ∧ writing s0 w' (acc ++ omap o [f])).
Context (Hwhole : ∀ g, g ⊆ all → ∃ b, whole (fbytes <$> g) = Ok b ∧ (b = true → Forall (λ f, stays f ∧ o f = Some f) g)).

Lemma omap_snoc acc g : omap o acc ++ omap o g = omap o (acc ++ g).
Proof. by rewrite omap_app. Qed.

Lemma keep_each t w done g rest :
  all = done ++ g ++ rest → writing s0 w (omap o done) →
  ∃ w', each keep (t, w) g = Ok (foldl step t g, w') ∧ writing s0 w' (omap o (done ++ g)).
Proof.
  revert t w done. induction g as [|f g IH]; intros t w d Ea Hw; [exists w; by rewrite app_nil_r|].
  assert (Hin : f ∈ all) by (rewrite Ea; set_solver).
  destruct (Hkeep t w (omap o d) f Hin Hw) as (w1 & E & Hw1).
  { rewrite omap_snoc. apply (frames_ok_prefix _ _ (omap o (g ++ rest))). rewrite omap_snoc, <- app_assoc.
    by rewrite Ea in Hall. }
  cbn [each foldl]. rewrite E, bind_Ok. rewrite omap_snoc in Hw1.
  destruct (IH (step t f) w1 (d ++ [f])) as (w2 & E2 & Hw2); [by rewrite <- app_assoc|done|].
  exists w2. rewrite <- app_assoc in Hw2. done.
Qed.

Lemma keep_all_each st g : keep_all keep st (fbytes <$> g) = each keep st g.
Proof. revert st. induction g as [|f g IH]; intros st; [done|]. cbn. destruct (keep st (fbytes f)); [apply IH|done|done]. Qed.

Lemma flushed_ok (t : A) w done rest :
  all = done ++ rest → writing s0 w (omap o done) →
  ∃ w', flushed calm_writes (t, w) = Ok (t, w') ∧ all_written s0 w' (omap o done).
Proof.
  intros Ea Hw. destruct (flush_spec s0 w (omap o done) Hw) as (w' & E & Hw').
  { apply (frames_ok_prefix _ _ (omap o rest)). rewrite omap_snoc. by rewrite Ea in Hall. }
  exists w'. unfold flushed. cbn [fst snd]. by rewrite E, bind_Ok.
Qed.

(** The counts after [fs]: of every record but those carried over whole. *)
Definition tallied (t : A) (fs : list frm) (t' : A) : Prop :=
  ∃ seen carried, t' = foldl step t seen ∧ fs ≡ₚ seen ++ carried ∧ Forall stays carried.

Lemma tallied_all t fs : tallied t fs (foldl step t fs).
Proof. exists fs, []. by rewrite app_nil_r. Qed.

Lemma tallied_none t fs : Forall stays fs → tallied t fs t.
Proof. intros Hs. by exists [], fs. Qed.

Lemma tallied_app t a t1 b t2 : tallied t a t1 → tallied t1 b t2 → tallied t (a ++ b) t2.
Proof.
  intros (s1 & c1 & -> & P1 & F1) (s2 & c2 & -> & P2 & F2). exists (s1 ++ s2), (c1 ++ c2).
  rewrite foldl_app, P1, P2. split; [done|]. split; [solve_Permutation|]. by apply Forall_app.
Qed.

Lemma omap_same g : Forall (λ f, o f = Some f) g → omap o g = g.
Proof. induction 1 as [|f g Hf _ IH]; [done|]. cbn. by rewrite Hf, IH. Qed.

Lemma apart_spec s pa p pb t w done g rest :
  Segment.describes s (pa ++ p :: pb) → closed s = false → p_data p = fs_bytes g → g ≠ [] →
  mergeable (p_ref p) = false → all = done ++ g ++ rest → Forall framed g → Forall (λ f, 0 < zlen (f_data f)) g →
  writing s0 w (omap o done) →
  ∃ t' w', apart calm_writes keep whole s (p_ref p) (fbytes <$> g) (t, w) = Ok (t', w') ∧
    writing s0 w' (omap o (done ++ g)) ∧ tallied t g t' ∧
    (blockMode s0 = true → whole (fbytes <$> g) = Ok true → t' = t).
Proof.
  intros Hd Hcl Ep Hne Hm Ea Hf Hz Hw. unfold apart.
  assert (Hsub : g ⊆ all) by (rewrite Ea; set_solver).
  destruct (Hwhole g Hsub) as (b & -> & Hb). rewrite bind_Ok. cbn [snd].
  assert (Hmode : blockMode (w_seg w) = blockMode s0) by (by destruct Hw as (? & ? & _ & _ & _ & (_ & _ & _ & ? & _) & _)).
  assert (Hok : frames_ok (BaseOffset s0) (omap o (done ++ g))).
  { apply (frames_ok_prefix _ _ (omap o rest)). rewrite omap_snoc, <- app_assoc. by rewrite Ea in Hall. }
  destruct (b && blockMode (w_seg w)) eqn:Ew.
  - apply andb_prop in Ew as [-> Ebm]. specialize (Hb eq_refl).
    destruct (flushed_ok t w done (g ++ rest) Ea Hw) as (w1 & -> & (a & c & Ec & Hh & Eb & Hk & Hcd & Ht) & Eb2 & Hh1).
    rewrite bind_Ok, (read_piece s pa p pb) by done. cbn [unreadable]. rewrite bind_Ok. cbv zeta.
    change (concat (fbytes <$> g)) with (fs_bytes g). rewrite set_entries, bind_Ok by done.
    assert (Hg : omap o g = g). { apply omap_same. eapply Forall_impl; [exact Hb|]. by intros f [_ ?]. }
    rewrite <- omap_snoc, Hg in Hok |- *. pose proof Hk as (EB & _ & _ & Em & _). rewrite <- EB in Hok.
    assert (Hbm : blockMode (w_seg w1) = true).
    { destruct Hw as (? & ? & _ & _ & _ & (_ & _ & _ & Em' & _) & _). congruence. }
    destruct Hd as (_ & Hch & _). pose proof (chain_mid _ _ _ _ _ Hch) as [Hp _].
    assert (Hv : v3_ok p).
    { destruct Hp as (_ & _ & _ & [(Hv & _)|?]); [|done]. unfold mergeable in Hm. rewrite Hv in Hm. done. }
    destruct (carry_block (w_seg w1) (omap o done) p g Hh1 Hcd Hbm Hp Hv Ep Hne Hok) as (y & E & Hy & Hky & Hty).
    unfold calm_writes; cbn [fst snd]. rewrite E. cbn [wrote]. rewrite bind_Ok. eexists t, _. split; [done|]. split; [|split; [|done]].
    + exists (omap o done ++ g), []. rewrite app_nil_r. split; [done|]. split; [done|]. split; [done|].
      split; [by eapply kept_through|]. split; [by eapply kept_codec|by apply Hty].
    + apply tallied_none. eapply Forall_impl; [exact Hb|]. by intros f [? _].
  - set (control := negb (Z.land (Block.flags (p_ref p)) blockv3.FlagControl =? 0)). clearbody control. cbv zeta.
    assert (H1 : ∃ w1, (if control then flushed calm_writes (t, w) else Ok (t, w)) = Ok (t, w1) ∧ writing s0 w1 (omap o done)).
    { destruct control; [|by exists w]. destruct (flushed_ok t w done (g ++ rest) Ea Hw) as (w1 & ? & ? & _). by exists w1. }
    destruct H1 as (w1 & -> & Hw1). rewrite bind_Ok, keep_all_each.
    destruct (keep_each t w1 done g rest Ea Hw1) as (w2 & -> & Hw2). rewrite bind_Ok.
    rewrite app_assoc in Ea.
    assert (Hno : blockMode s0 = true → Ok b = Ok true → foldl step t g = t).
    { intros Hm0 [= ->]. by rewrite Hmode, Hm0 in Ew. }
    destruct control; [|exists (foldl step t g), w2; split_and!; [done|done|apply tallied_all|done]].
    destruct (flushed_ok (foldl step t g) w2 (done ++ g) rest Ea Hw2) as (w3 & -> & Hw3 & _).
    exists (foldl step t g), w3. split_and!; [done|done|apply tallied_all|done].
Qed.

Lemma block_end s pa p pb ga g :
  Segment.describes s (pa ++ p :: pb) → stores pa ga → p_data p = fs_bytes g →
  logicalStart (p_ref p) + logicalLen (p_ref p) = zlen (fs_bytes (concat ga ++ g)).
Proof.
  intros (_ & Hc & _) Hs Ep. apply chain_app in Hc as [_ ((_ & Hl & _) & Hst & _)].
  rewrite Hl, Hst, (stores_datas _ _ Hs), Ep, fs_bytes_app, zlen_app. lia.
Qed.

Lemma walk_blocks_spec fuel s pa pb ga gb sc t w :
  Segment.describes s (pa ++ pb) → stores pa ga → stores pb gb → full gb → all = concat ga ++ concat gb →
  frames_ok (BaseOffset s) all → (length all < fuel)%nat →
  at_frame s all (concat ga) sc → writing s0 w (omap o (concat ga)) →
  ∃ t' w', walk_blocks calm_writes keep whole fuel s (refs pb) sc (t, w) = Some (Ok (t', w')) ∧
    writing s0 w' (omap o all) ∧ tallied t (concat gb) t' ∧
    (blockMode s0 = true → Forall (λ p, mergeable (p_ref p) = false) pb →
     Forall (λ g, whole (fbytes <$> g) = Ok true) gb → t' = t).
Proof.
  intros Hd Ha Hb. revert pa ga sc t w Hd Ha. induction Hb as [|p g pb gb Ep _ IH];
    intros pa ga sc t w Hd Ha Hf Eall Hok Hfuel Hat Hw.
  { exists t, w. split; [done|]. cbn in Eall. rewrite app_nil_r in Eall. rewrite Eall. split; [done|]. split; [by apply tallied_none|done]. }
  apply Forall_cons in Hf as [Hne Hf]. pose proof Hok as (_ & Hfo & Hdo & _). rewrite concat_cons in Eall.
  assert (Hfg : Forall (frm_ok (BaseOffset s)) g ∧ Forall (λ f, 0 < zlen (f_data f)) g).
  { rewrite Eall in Hfo, Hdo. apply Forall_app in Hfo as [_ [? _]%Forall_app], Hdo as [_ [? _]%Forall_app]. done. }
  destruct Hfg as [Hfg Hdg]. assert (Hlg : (length g < fuel)%nat) by (rewrite Eall, !length_app in Hfuel; lia).
  pose proof Hat as (_ & Hcl & _). rewrite Eall in Hat.
  unfold refs. cbn [fmap list_fmap walk_blocks]. rewrite (block_end s pa p pb ga g) by done.
  assert (Hstep : ∃ sc1 t1 w1,
    (if mergeable (p_ref p) then scan_to fuel s (zlen (fs_bytes (concat ga ++ g))) keep sc (t, w)
     else match scan_to fuel s (zlen (fs_bytes (concat ga ++ g))) (λ frames ms, Ok (frames ++ [ms])) sc [] with
          | None => None
          | Some r => Some ('(sc, frames) ← r; st ← apart calm_writes keep whole s (p_ref p) frames (t, w); Ok (sc, st))
          end) = Some (Ok (sc1, (t1, w1))) ∧
    at_frame s (concat ga ++ g ++ concat gb) (concat ga ++ g) sc1 ∧
    writing s0 w1 (omap o (concat ga ++ g)) ∧ tallied t g t1 ∧
    (blockMode s0 = true → mergeable (p_ref p) = false → whole (fbytes <$> g) = Ok true → t1 = t)).
  { destruct (mergeable (p_ref p)) eqn:Em.
    - destruct (keep_each t w (concat ga) g (concat gb) Eall Hw) as (w1 & E & Hw1).
      destruct (scan_to_frames (BaseOffset s) fuel s sc (concat ga) g (concat gb) keep (t, w) _ Hat Hfg Hdg Hlg E)
        as (sc1 & -> & Hat1). exists sc1, (foldl step t g), w1. split_and!; [done|done|done|apply tallied_all|done].
    - destruct (scan_to_frames (BaseOffset s) fuel s sc (concat ga) g (concat gb) (λ frames ms, Ok (frames ++ [ms])) [] _
        Hat Hfg Hdg Hlg (each_gather [] g)) as (sc1 & -> & Hat1). rewrite bind_Ok.
      destruct (apart_spec s pa p pb t w (concat ga) g (concat gb)) as (t1 & w1 & E & Hw1 & Ht1 & Hc1); try done;
        [by eapply frm_framed|]. rewrite app_nil_l, E, bind_Ok. exists sc1, t1, w1. split_and!; try done. auto. }
  destruct Hstep as (sc1 & t1 & w1 & -> & Hat1 & Hw1 & Ht1 & Hc1).
  destruct (IH (pa ++ [p]) (ga ++ [g]) sc1 t1 w1) as (t2 & w2 & E & Hw2 & Ht2 & Hc2); try done.
  - by rewrite <- app_assoc.
  - apply Forall2_app; [done|]. by constructor.
  - by rewrite concat_app, concat_cons, app_nil_r, <- app_assoc.
  - rewrite Eall, concat_app, concat_cons, app_nil_r. done.
  - by rewrite concat_app, concat_cons, app_nil_r.
  - exists t2, w2. split; [done|]. split; [done|]. rewrite concat_cons. split; [by eapply tallied_app|].
    intros Hm0 [Hmp Hmb]%Forall_cons [Hwp Hwb]%Forall_cons. rewrite Hc2 by done. auto.
Qed.

(** The walk of a segment that holds [all]. *)
Lemma rewriteWalk_spec fuel s t w :
  holds s all → (length all < fuel)%nat → writing s0 w [] →
  ∃ t' w', rewriteWalk calm_writes keep whole fuel s (t, w) = Some (Ok (t', w')) ∧
    writing s0 w' (omap o all) ∧ tallied t all t' ∧ (blockMode s = false → t' = foldl step t all) ∧
    (blockMode s = true → blockMode s0 = true → Forall (λ b, mergeable b = false) (blocks s) →
     (∀ g, g ⊆ all → whole (fbytes <$> g) = Ok true) → t' = t).
Proof.
  intros Hh Hfuel Hw. pose proof Hh as (Hl & Hcl & _ & Hok & _ & gs & Eg & (Hfull & _ & _ & _ & Hm)).
  unfold rewriteWalk. destruct (blockMode s) eqn:Em.
  - unfold log_ok in Hl. rewrite Em in Hl. destruct Hl as (ps & Hd & Eds & Hca).
    rewrite (blockTailFrom_all s ps Hd). pose proof Hd as (_ & Hch & _ & Ebs & _). rewrite Ebs in Hm.
    pose proof (stores_of_lens 0 0 ps gs Hch Hm ltac:(by rewrite <- Eg)) as Hst.
    destruct (walk_blocks_spec fuel s [] ps [] gs newSegmentScanner t w) as (t' & w' & E & Hw' & Ht' & Hc); try done.
    + constructor.
    + split_and!; [|done|done]. apply fresh_cache. destruct Hh as (Hl & _). done.
    + exists t', w'. split; [done|]. split; [done|]. split; [by rewrite Eg|]. split; [done|].
      intros _ Hm0 Hmg Hwh. apply Hc; [done| |].
      * rewrite Ebs in Hmg. unfold refs in Hmg. by rewrite Forall_fmap in Hmg.
      * apply Forall_forall. intros g Hg. apply Hwh. rewrite Eg. intros f Hf.
        apply list_elem_of_In, in_concat. exists g. split; by apply list_elem_of_In.
  - unfold blockTailFrom. rewrite Em. cbn [negb]. rewrite (scanning_holds fuel s all) by done.
    destruct (keep_each t w [] all [] ltac:(by rewrite app_nil_r) Hw) as (w' & E & Hw').
    exists (foldl step t all), w'. split_and!; [|done|apply tallied_all|done|done].
    assert (Hof : ∀ st pos fs st', each keep st fs = Ok st' →
      over_frames (λ st ms _, match keep st ms with Ok st => inl st | r => inr r end) walk_ends st pos fs = Ok st').
    { clear. intros st pos fs. revert st pos. induction fs as [|f fs IH]; intros st pos st' E; [done|]. cbn [each over_frames] in *.
      destruct (keep st (fbytes f)) as [st1|e|]; [|done|done]. by apply IH. }
    rewrite (Hof _ _ _ _ E), bind_Ok. done.
Qed.

End walked.

(** *** What a rewrite keeps *)

Lemma stripped_pos rg hdrs base f :
  fair rg → frm_ok base f → sound f → 0 < zlen (f_data (stripped rg hdrs f)).
Proof.
  intros Hr Hf Hs. destruct (stripped_same rg hdrs Hr base f Hf Hs) as ([Hl _] & _). apply legible_long in Hl. lia.
Qed.

Section cleaning.
Context (rg : ranges) (Hrg : fair rg) (spec : CleanSpec) (d : option dropSet).

#[local] Abbreviation o := (out rg spec d).
#[local] Abbreviation disp f := (fate spec (ds_get d (f_off f)) f).

(** What a surviving record is. *)
Lemma out_frame base f g :
  frm_ok base f → sound f → o f = Some g → frm_ok base g ∧ sound g ∧ f_off g = f_off f ∧ zlen (fbytes g) ≤ zlen (fbytes f) ∧
    (0 < zlen (f_data f) → 0 < zlen (f_data g)).
Proof.
  intros Hf Hs. unfold out. destruct (fate _ _ _); intros [= <-]; [done|].
  destruct (stripped_same rg (StripHeaders spec) Hrg base f Hf Hs) as (H1 & H2 & H3 & H4 & _).
  split; [done|]. split; [done|]. split; [done|]. rewrite !zlen_fbytes. split; [lia|].
  intros _. by eapply stripped_pos.
Qed.

Lemma survivors_in base fs g :
  Forall (frm_ok base) fs → Forall sound fs → g ∈ omap o fs → ∃ f, f ∈ fs ∧ o f = Some g ∧ f_off g = f_off f.
Proof.
  intros Hf Hs (f & Hin & E)%list_elem_of_omap. rewrite Forall_forall in Hf, Hs.
  exists f. split; [done|]. split; [done|]. by destruct (out_frame base f g (Hf f Hin) (Hs f Hin) E) as (_ & _ & ? & _).
Qed.

Lemma survivors_ok base fs : frames_ok base fs → Forall sound fs → frames_ok base (omap o fs).
Proof.
  intros (Hb & Hf & Hd & Ha & Hz) Hs. split; [done|].
  assert (Hall : Forall (frm_ok base) (omap o fs) ∧ Forall (λ f, 0 < zlen (f_data f)) (omap o fs) ∧
                 zlen (fs_bytes (omap o fs)) ≤ zlen (fs_bytes fs)).
  { clear Ha Hz. induction fs as [|f fs IH]; [done|]. apply Forall_cons in Hf as [Hf Hfs], Hd as [Hd Hds], Hs as [Hs Hss].
    destruct (IH Hfs Hds Hss) as (I1 & I2 & I3). cbn [omap list_omap]. rewrite fs_bytes_cons, zlen_app. pose_zlen.
    destruct (o f) as [g|] eqn:E; [|split_and!; [done|done|lia]].
    destruct (out_frame base f g Hf Hs E) as (G1 & _ & _ & G3 & G4). rewrite fs_bytes_cons, zlen_app.
    split; [by constructor|]. split; [constructor; auto|]. lia. }
  destruct Hall as (A1 & A2 & A3). split; [done|]. split; [done|]. split; [|lia].
  clear Hd Hz A1 A2 A3. unfold ascending in *. induction Ha as [|f fs Ha IH Hlt]; [constructor|].
  apply Forall_cons in Hf as [Hf Hfs], Hs as [Hs Hss]. cbn. destruct (o f) as [g|] eqn:E; [|by apply IH].
  constructor; [by apply IH|]. apply Forall_forall. intros x Hx.
  destruct (survivors_in base fs x Hfs Hss Hx) as (f' & Hin & _ & ->). rewrite Forall_forall in Hlt.
  destruct (out_frame base f g Hf Hs E) as (_ & _ & -> & _). by apply Hlt.
Qed.

(** What the callback counts. *)
Definition damaged (f : frm) : bool :=
  match SerializedMessage.crcMatches (f_data f) with Ok false => true | _ => false end.

Definition clean_step (t : tally) (f : frm) : tally :=
  match disp f with
  | dispRemove => count_removed t
  | dispStrip =>
      if damaged f then count_corrupt t
      else if has_any (f_hdrs f) (StripHeaders spec) then count_stripped t else t
  | dispRetain =>
      if stripActive spec && negb (is_control f) && (StripBelow spec <=? f_off f) && has_any (f_hdrs f) (StripHeaders spec)
      then count_residual t else t
  end.

Lemma hasAny_frame f hdrs : legible f → hasAnyHeader (f_data f) hdrs = Ok (has_any (f_hdrs f) hdrs).
Proof.
  intros (_ & _ & _ & E). unfold hasAnyHeader. rewrite E, bind_Ok. destruct (Nat.eqb_spec (size (f_hdrs f)) 0) as [Hz|]; [|done].
  apply map_size_empty_inv in Hz. by rewrite Hz, has_any_empty.
Qed.

Lemma clean_keep_spec base s0 t w acc f :
  frm_ok base f → sound f → writing s0 w acc → frames_ok (BaseOffset s0) (acc ++ omap o [f]) →
  ∃ w', clean_keep calm_writes rg spec d (t, w) (fbytes f) = Ok (clean_step t f, w') ∧
    writing s0 w' (acc ++ omap o [f]).
Proof.
  intros Hf Hs Hw Hok. pose proof Hs as [Hl Hrc]. pose proof (legible_long f Hl).
  unfold clean_keep. destruct (frame_parts base f Hf ltac:(lia)) as (-> & _ & _ & ->). rewrite !bind_Ok. cbv zeta.
  change (default [] (Some ?a)) with a. rewrite classify_fate, bind_Ok by done.
  unfold clean_step. cbn [omap list_omap] in *. unfold out in *.
  destruct (fate spec (ds_get d (f_off f)) f).
  - destruct (add_spec s0 w acc f Hw Hok) as (w' & E & Hw').
    assert (Et : (if stripActive spec then
        attrs ← SerializedMessage.Attributes (f_data f);
        if (Z.land attrs AttrControl =? 0) && (StripBelow spec <=? f_off f) then
          any ← hasAnyHeader (f_data f) (StripHeaders spec); Ok (if (any : bool) then count_residual t else t)
        else Ok t else Ok t) =
      Ok (if stripActive spec && negb (is_control f) && (StripBelow spec <=? f_off f) && has_any (f_hdrs f) (StripHeaders spec)
          then count_residual t else t)).
    { destruct (stripActive spec); [|done]. pose proof Hl as (-> & _). rewrite bind_Ok, hasAny_frame by done.
      unfold is_control. rewrite negb_involutive. cbn [andb]. by destruct (_ =? 0), (_ <=? _). }
    rewrite Et, bind_Ok, E, bind_Ok. by exists w'.
  - exists w. rewrite app_nil_r. done.
  - destruct (add_spec s0 w acc (stripped rg (StripHeaders spec) f) Hw Hok) as (w' & E & Hw'). exists w'. split; [|done].
    unfold damaged. destruct Hrc as [Hr|Hc].
    + rewrite (recorded_crc f Hr).
      destruct (stripped_record rg (StripHeaders spec) Hrg base f Hf Hr) as (_ & _ & _ & _ & _ & _ & Es). rewrite Es.
      destruct (has_any (f_hdrs f) (StripHeaders spec)) eqn:Ea; rewrite bind_Ok.
      * by rewrite E, bind_Ok.
      * rewrite (strip_noop rg spec Hrg base f) in E by done. by rewrite E, bind_Ok.
    + unfold corrupt in Hc. rewrite Hc, (strip_corrupt rg (StripHeaders spec) base f Hf Hl Hc), bind_Ok.
      rewrite (stripped_corrupt rg (StripHeaders spec) base f Hf Hl Hc) in E. by rewrite E, bind_Ok.
Qed.

Lemma clean_whole_spec base g :
  Forall (frm_ok base) g → Forall sound g →
  ∃ b, clean_whole spec d (fbytes <$> g) = Ok b ∧
    (b = true → Forall (λ f, disp f = dispRetain ∧ o f = Some f) g).
Proof.
  intros Hf Hs. induction g as [|f g IH]; [by exists true|].
  apply Forall_cons in Hf as [Hf Hfg], Hs as [Hs Hsg]. destruct (IH Hfg Hsg) as (b & E & Hb).
  cbn [fmap list_fmap clean_whole]. pose proof Hs as [Hl _]. pose proof (legible_long f Hl).
  destruct (frame_parts base f Hf ltac:(lia)) as (-> & _ & _ & ->). rewrite !bind_Ok.
  change (default [] (Some ?a)) with a. rewrite classify_fate, bind_Ok by done.
  case_bool_decide as Ed; [|by exists false]. exists b. split; [done|]. intros ->.
  constructor; [|by apply Hb]. split; [done|]. unfold out. by rewrite Ed.
Qed.

Lemma clean_whole_all base g :
  Forall (frm_ok base) g → Forall sound g → Forall (λ f, disp f = dispRetain) g →
  clean_whole spec d (fbytes <$> g) = Ok true.
Proof.
  intros Hf Hs Hr. induction g as [|f g IH]; [done|].
  apply Forall_cons in Hf as [Hf Hfg], Hs as [[Hl _] Hsg], Hr as [Hr Hrg'].
  cbn [fmap list_fmap clean_whole]. pose proof (legible_long f Hl).
  destruct (frame_parts base f Hf ltac:(lia)) as (-> & _ & _ & ->). rewrite !bind_Ok.
  change (default [] (Some ?a)) with a. rewrite classify_fate, bind_Ok by done.
  rewrite bool_decide_eq_true_2 by done. by apply IH.
Qed.

(** The counts. *)
Lemma steps_removed t seen :
  removed (foldl clean_step t seen) = removed t + zlen (filter (λ f, disp f = dispRemove) seen).
Proof.
  revert t. induction seen as [|f seen IH]; intros t; [rewrite filter_nil, zlen_nil; cbn [foldl]; lia|]. cbn [foldl]. rewrite IH. unfold clean_step.
  rewrite filter_cons. destruct (disp f) eqn:E.
  - rewrite decide_False by done. by destruct (_ && _).
  - rewrite decide_True by done. rewrite zlen_cons. cbn [count_removed removed]. lia.
  - rewrite decide_False by done. by destruct (damaged f), (has_any (f_hdrs f) (StripHeaders spec)).
Qed.

Lemma steps_stripped t seen :
  n_stripped t ≤ n_stripped (foldl clean_step t seen) ∧
  (n_stripped (foldl clean_step t seen) = n_stripped t →
   Forall (λ f, disp f = dispStrip → damaged f = false → has_any (f_hdrs f) (StripHeaders spec) = false) seen).
Proof.
  revert t. induction seen as [|f seen IH]; intros t; [done|]. cbn [foldl]. destruct (IH (clean_step t f)) as [I1 I2].
  assert (Hs : n_stripped (clean_step t f) = n_stripped t +
    match disp f with dispStrip => if damaged f then 0 else if has_any (f_hdrs f) (StripHeaders spec) then 1 else 0 | _ => 0 end).
  { unfold clean_step. destruct (disp f); [destruct (_ && _); cbn; lia|cbn; lia|].
    destruct (damaged f), (has_any (f_hdrs f) (StripHeaders spec)); cbn; lia. }
  rewrite Hs in I1, I2.
  destruct (disp f) eqn:E; [| |destruct (damaged f) eqn:Edm; [|destruct (has_any (f_hdrs f) (StripHeaders spec)) eqn:Ea]].
  - split; [lia|]. intros Eq. constructor; [congruence|]. apply I2. lia.
  - split; [lia|]. intros Eq. constructor; [congruence|]. apply I2. lia.
  - split; [lia|]. intros Eq. constructor; [congruence|]. apply I2. lia.
  - split; lia.
  - split; [lia|]. intros Eq. constructor; [done|]. apply I2. lia.
Qed.

Lemma nothing_changed base fs t :
  tallied clean_step (λ f, disp f = dispRetain) nothing_counted fs t →
  removed t = 0 → n_stripped t = 0 → Forall (frm_ok base) fs → Forall sound fs → omap o fs = fs.
Proof.
  intros (seen & carried & -> & HP & Hc) Hr Hst Hf Hs. apply omap_same. rewrite HP.
  rewrite HP in Hf, Hs. apply Forall_app in Hf as [Hf _], Hs as [Hs _]. apply Forall_app. split.
  - rewrite steps_removed in Hr. cbn [nothing_counted removed] in Hr.
    destruct (steps_stripped nothing_counted seen) as [_ Hn]. cbn [nothing_counted n_stripped] in Hn. specialize (Hn Hst).
    rewrite Forall_forall in *. intros f Hin. specialize (Hf f Hin). specialize (Hs f Hin). specialize (Hn f Hin).
    unfold out. destruct (disp f) eqn:E; [done| |].
    + assert (Hx : f ∈ filter (λ f, disp f = dispRemove) seen) by (by apply list_elem_of_filter).
      destruct (filter _ seen); [by apply elem_of_nil in Hx|]. rewrite zlen_cons in Hr. pose_zlen. lia.
    + f_equal. apply (strip_noop rg spec Hrg base); [done|done|]. intros Hrec. apply Hn; [done|].
      unfold damaged. by rewrite (recorded_crc f Hrec).
  - eapply Forall_impl; [exact Hc|]. intros f E. unfold out. by rewrite E.
Qed.

(** *** The whole rewrite *)

(** A segment standing where [s] stood. *)
Definition same_place (s y : segment) : Prop :=
  BaseOffset y = BaseOffset s ∧ maxBytes y = maxBytes s ∧ codec y = codec s ∧ format y = format s.

Lemma holds_dirty s fs x y : holds s fs → holds (with_dirty s x y) fs.
Proof. intros Hh. exact Hh. Qed.

Lemma IsEmpty_holds s fs : holds s fs → IsEmpty s = bool_decide (fs = []).
Proof.
  intros (_ & _ & _ & (_ & Hf & _) & (Hfo & _) & _). unfold IsEmpty. rewrite Hfo. unfold head_off.
  destruct fs as [|f fs]; [done|]. apply Forall_cons in Hf as [((? & ?) & _) _].
  rewrite bool_decide_eq_false_2 by done. apply Z.eqb_neq. cbn. lia.
Qed.

Lemma seal_ends f a b s : lastOffset (seal f a b s) = lastOffset s ∧ BaseOffset (seal f a b s) = BaseOffset s.
Proof.
  unfold seal. destruct (sealed s); [done|]. cbv zeta.
  repeat match goal with |- context [if ?c then _ else _] => destruct c end; done.
Qed.

Lemma Delete_left s fs :
  holds s fs → ∃ s', Delete delete_calm (with_left s) = (s', true, Ok ()) ∧ NextOffset s' = NextOffset s.
Proof.
  intros (_ & Hcl & _ & _ & _ & gs & -> & (_ & _ & _ & Hr & _)).
  unfold Delete, closeDiscarding, closeSegment. cbn [with_left with_state closed Index]. rewrite Hcl.
  cbn [delete_calm de_close de_log de_index close_calm cl_file cl_index cl_sync cl_close cl_table negb].
  unfold Index.CloseDiscarding. destruct (closeIndex_ok false false (Index s) _ Hr) as (i & -> & _).
  eexists. split; [reflexivity|]. unfold NextOffset. cbn [without_table with_left with_state lastOffset BaseOffset].
  destruct (seal_ends Index.no_faults false false (with_state (with_index (with_left s) i) (sealed s) true true (sidecar s)))
    as [E1 E2]. cbn in E1, E2 |- *. by rewrite E1, E2.
Qed.

Lemma Replace_old fuel s old fs y old' :
  holds old fs → Replace fuel replace_calm s old = Some (y, old', Ok ()) → NextOffset old' = NextOffset old.
Proof.
  intros Ho. unfold Replace. cbn [replace_calm rp_old rp_new rp_log rp_index rp_back rp_reopen].
  destruct (close_holds old fs Ho) as (o1 & _ & -> & ((Hcf & _ & _ & _ & _ & Hl & _) & _)).
  unfold config in Hcf. injection Hcf as _ EB _ _ _ _ _.
  assert (E1 : NextOffset (with_left (without_table o1)) = NextOffset old).
  { unfold NextOffset. cbn [with_left without_table with_state lastOffset BaseOffset]. by rewrite EB, Hl. }
  clear -E1. destruct (close close_calm s) as [s1 [u|e|]]; [|unfold undo; by destruct (reopenLocked _ _ _) as [[? [?|?|]]|]|done].
  destruct (reopenLocked _ _ _) as [[? [?|?|]]|]; [|done|done|done]. by intros [= <- <-].
Qed.

Lemma Cleaned_writing i seg fs :
  holds seg fs → codec_ok seg →
  ∃ c, Cleaned work_calm i seg = Ok c ∧ writing c (newBlockWriter c) [] ∧ same_place seg c.
Proof.
  intros Hh Hc. destruct (newWorking_holds i (BaseOffset seg) (maxBytes seg) (codec seg) (format seg))
    as (c & E & Hhc & Hcf & Ht); [by destruct Hh as (_ & _ & _ & (? & _) & _)|].
  unfold config in Hcf. injection Hcf as E1 E2 E3 E4 E5 E6 E7. exists c. split; [exact E|]. split; [|by split_and!].
  exists [], []. cbn [newBlockWriter w_seg w_buf]. split; [done|]. split; [exact Hhc|]. split; [done|].
  split; [by split_and!|]. split; [|exact Ht]. unfold codec_ok in *. by rewrite E4.
Qed.

Lemma Cleaned_mode i seg c :
  0 ≤ BaseOffset seg < 2 ^ 63 → Cleaned work_calm i seg = Ok c →
  blockMode c = negb (codec seg =? CNone) || (format seg =? blockv3.Version).
Proof.
  intros Hb. destruct (new_index_opens (BaseOffset seg)) as (idx & E & _).
  unfold Cleaned, newWorkingSegment. cbn [work_calm wk_stale wk_open wk_index].
  destruct (open_log _ _ _ _ _ _ _ _ _ _ _ _) as [s0|e|] eqn:Eo; [|done|done]. rewrite bind_Ok.
  unfold open_log in Eo. cbn in Eo. injection Eo as <-.
  unfold setupIndex. cbn [with_opened with_log BaseOffset emptySegment]. rewrite E. clear E. cbn. by intros [= <-].
Qed.

(** Every block keeps its producer's identity or is a control block, and the
    pass keeps every record. *)
Definition carried_only (seg : segment) (fs : list frm) : Prop :=
  blockMode seg = true ∧ (negb (codec seg =? CNone) || (format seg =? blockv3.Version)) = true ∧
  Forall (λ b, mergeable b = false) (blocks seg) ∧ Forall (λ f, disp f = dispRetain) fs.

(** A digest a refresh wrote for [fs]. *)
Definition fresh_digest (y : segment) (fs : list frm) (t : tally) (file : option bytes) : Prop :=
  ∃ dg, file = Some (encodeKeyDigest dg) ∧ KeyDigest.describes dg fs ∧ base dg = BaseOffset y ∧ logSize dg = position y ∧
    (stripVerifiedBelow dg, stripHdrs dg) = strip_stamp spec t ∧
    (in_sint 64 (StripBelow spec) → short_names (StripHeaders spec) → digest_ok dg).

Lemma refresh_spec fuel y fs t stamp hdrs dg :
  holds y fs → Forall sound fs → (length fs < fuel)%nat → strip_stamp spec t = (stamp, hdrs) →
  ∃ file, refreshDigest clean_calm fuel y stamp hdrs dg = Some file ∧ fresh_digest y fs t file.
Proof.
  intros Hh Hs Hfuel Est. unfold refreshDigest.
  destruct (build_spec fuel y fs Hh) as (dg' & -> & Hd & Hok & Eb & Ep & _ & _ & Hz);
    [eapply Forall_impl; [exact Hs|]; by intros f [? _]|done|].
  eexists. split; [done|]. exists (restamp dg' stamp hdrs). split; [done|]. split; [done|].
  split; [done|]. split; [done|]. split; [done|]. intros Hsb Hn. unfold strip_stamp in Est.
  apply restamp_ok; [done|done|..]; destruct (stripActive spec); injection Est as <- <-; try done.
  - destruct (residualStrippable t); [done|]. unfold in_sint, MaxInt64. lia.
  - split; [cbn; lia|done].
Qed.

Definition clean_tally (fs : list frm) (t : tally) : Prop :=
  tallied clean_step (λ f, disp f = dispRetain) nothing_counted fs t.

Lemma length_omap_le {X Y} (f : X → option Y) l : (length (omap f l) ≤ length l)%nat.
Proof. induction l as [|x l IH]; [done|]. cbn. destruct (f x); cbn; lia. Qed.

(** The copy before it is installed. *)
Lemma clean_walked fuel i seg fs :
  holds seg fs → codec_ok seg → Forall sound fs → (length fs < fuel)%nat →
  ∃ c t w w', Cleaned work_calm i seg = Ok c ∧
    rewriteWalk calm_writes (clean_keep calm_writes rg spec d) (clean_whole spec d) fuel seg
      (nothing_counted, newBlockWriter c) = Some (Ok (t, w)) ∧
    flush calm_writes w = Ok w' ∧ holds (w_seg w') (survivors rg spec d fs) ∧ Index.tight (Index (w_seg w')) ∧
    same_place seg (w_seg w') ∧ clean_tally fs t ∧ (blockMode seg = false → t = foldl clean_step nothing_counted fs) ∧
    (blockMode seg = true → blockMode c = true → Forall (λ b, mergeable b = false) (blocks seg) →
     Forall (λ f, disp f = dispRetain) fs → t = nothing_counted).
Proof.
  intros Hh Hcd Hs Hfuel. destruct (Cleaned_writing i seg fs Hh Hcd) as (c & Ec & Hw & Hpl).
  pose proof Hh as (_ & _ & _ & Hok & _). pose proof Hok as (_ & Hf & _). pose proof Hpl as (EB & _).
  pose proof (survivors_ok (BaseOffset seg) fs Hok Hs) as Hok'.
  destruct (rewriteWalk_spec c (clean_keep calm_writes rg spec d) (clean_whole spec d) o clean_step
    (λ f, disp f = dispRetain) fs) with (fuel := fuel) (s := seg) (t := nothing_counted) (w := newBlockWriter c)
    as (t & w & Ew & Hw' & Ht & Hraw & Hcar); [by rewrite EB| | |done|done|done|].
  { intros t w acc f Hin Hwr Hfr. rewrite Forall_forall in Hf, Hs.
    apply (clean_keep_spec (BaseOffset seg)); [by apply Hf|by apply Hs|done|done]. }
  { intros g Hg. apply (clean_whole_spec (BaseOffset seg)); apply Forall_forall; intros f Hin;
      [rewrite Forall_forall in Hf; by apply Hf, Hg|rewrite Forall_forall in Hs; by apply Hs, Hg]. }
  destruct (flush_spec c w _ Hw') as (w' & Ef & (a & b & _ & _ & _ & Hk & _ & Htg) & _ & Hhw); [by rewrite EB|].
  exists c, t, w, w'. do 5 (split; [done|]). split; [|split; [exact Ht|split; [exact Hraw|]]].
  2: { intros Hm Hmc Hmg Hret. apply Hcar; [done|done|done|]. intros g Hg. apply (clean_whole_all (BaseOffset seg));
         apply Forall_forall; intros f Hin; [rewrite Forall_forall in Hf; by apply Hf, Hg|
         rewrite Forall_forall in Hs; by apply Hs, Hg|rewrite Forall_forall in Hret; by apply Hret, Hg]. }
  destruct Hk as (K1 & K2 & K3 & _ & K5 & _). destruct Hpl as (P1 & P2 & P3 & P4). split_and!; congruence.
Qed.

(** Faults that leave the source and the copy alone: the copy cannot be created
    or flushed, the digest cannot be written. *)
Definition orderly (io : clean_io) : Prop :=
  wk_index (cs_work io) = Index.no_faults ∧ cs_write io = calm_writes ∧ cs_drop io = delete_calm ∧
  cs_old io = delete_calm ∧ cs_replace io = replace_calm.

Definition fails_early (io : clean_io) : bool := wk_stale (cs_work io) || wk_open (cs_work io) || cs_sync io.

Lemma Cleaned_orderly io i seg :
  orderly io → (∃ e, Cleaned (cs_work io) i seg = Fail e ∧ fails_early io = true) ∨
    Cleaned (cs_work io) i seg = Cleaned work_calm i seg.
Proof.
  intros (Hi & _). unfold Cleaned, newWorkingSegment, fails_early. destruct (wk_stale (cs_work io)); [left; by eexists|].
  destruct (wk_open (cs_work io)); [left; by eexists|]. right. cbn [work_calm wk_stale wk_open wk_index]. rewrite Hi. reflexivity.
Qed.

(** The rewrite did not happen. *)
Definition kept_source (io : clean_io) (seg : segment) (dg : option bytes) (r : rewrite) : Prop :=
  fails_early io = true ∧ (∃ e, rw_result r = Fail e) ∧ rw_source r = seg ∧ rw_digest r = dg ∧ rw_gone r = ∅.

Definition emptied (seg : segment) (r : rewrite) : Prop :=
  rw_result r = Ok None ∧ rw_digest r = None ∧ rw_gone r = {[ BaseOffset seg ]} ∧ NextOffset (rw_source r) = NextOffset seg.

Definition replaced (io : clean_io) (seg : segment) (fs : list frm) (dg : option bytes) (r : rewrite) : Prop :=
  ∃ y t, rw_result r = Ok (Some y) ∧ holds y (survivors rg spec d fs) ∧ same_place seg y ∧ rw_gone r = ∅ ∧
    NextOffset (rw_source r) = NextOffset seg ∧
    clean_tally fs t ∧ (blockMode seg = false → t = foldl clean_step nothing_counted fs) ∧
    (carried_only seg fs → t = nothing_counted) ∧
    (if cs_digest io then rw_digest r = dg else fresh_digest y (survivors rg spec d fs) t (rw_digest r)).

Lemma refresh_orderly io fuel y fs t stamp hdrs dg :
  holds y fs → Forall sound fs → (length fs < fuel)%nat → strip_stamp spec t = (stamp, hdrs) →
  ∃ file, refreshDigest io fuel y stamp hdrs dg = Some file ∧
    if cs_digest io then file = dg else fresh_digest y fs t file.
Proof.
  intros Hh Hs Hfuel Est. destruct (refresh_spec fuel y fs t stamp hdrs dg Hh Hs Hfuel Est) as (file & E & Hfd).
  unfold refreshDigest in *. destruct (buildKeyDigest fuel y) as [[dd|e|]|] eqn:Eb; [|by injection E as <-; exists dg; destruct (cs_digest io)..|done].
  destruct (cs_digest io); [by eexists|]. by exists file.
Qed.

(** What the rewrite of a segment holding [fs] leaves. *)
Lemma cleanSegment_spec fuel io i seg fs dg :
  orderly io → holds seg fs → codec_ok seg → Forall sound fs → (length fs < fuel)%nat →
  ∃ r, cleanSegment fuel io rg i spec seg d dg = Some r ∧
    (kept_source io seg dg r ∨ survivors rg spec d fs = [] ∧ emptied seg r ∨
     survivors rg spec d fs ≠ [] ∧ replaced io seg fs dg r).
Proof.
  intros Hio Hh Hcd Hs Hfuel. unfold cleanSegment.
  destruct (Cleaned_orderly io i seg Hio) as [(e & -> & Hfe)| ->].
  { eexists. split; [done|]. left. split; [done|]. split; [by eexists|done]. }
  destruct (clean_walked fuel i seg fs Hh Hcd Hs Hfuel) as (c & t & w & w' & Ec & Ew & Ef & Hhw & Htg & Hpl & Ht & Hraw & Hcar).
  pose proof Hh as (_ & _ & _ & (Hb0 & Hf & _) & _).
  assert (Hcar' : carried_only seg fs → t = nothing_counted).
  { intros (H1 & H2 & H3 & H4). apply Hcar; [done| |done|done]. by rewrite (Cleaned_mode i seg c Hb0 Ec). }
  rewrite Ec. clear Ec Hcar. pose proof Hio as (_ & -> & Hdr & Hdo & Hrp). rewrite Ew. cbn iota beta. rewrite Ef.
  cbv zeta. rewrite (IsEmpty_holds _ _ Hhw).
  case_bool_decide as Ee.
  - eexists. split; [done|]. right. left. split; [done|]. unfold cleanupEmptySegment.
    destruct (Delete_calm _ _ Hhw) as (x & Ex & _). rewrite Hdr, Hdo, Ex.
    destruct (Delete_left seg fs Hh) as (z & Ez & Enz). by rewrite Ez.
  - destruct (strip_stamp spec t) as [stamp hdrs] eqn:Est.
    assert (Hss : Forall sound (survivors rg spec d fs)).
    { apply Forall_forall. intros g (f & Hin & E)%list_elem_of_omap. rewrite Forall_forall in Hf, Hs.
      by destruct (out_frame _ f g (Hf f Hin) (Hs f Hin) E) as (_ & ? & _). }
    assert (Hlen : (length (survivors rg spec d fs) < fuel)%nat).
    { unfold survivors. pose proof (length_omap_le o fs). lia. }
    destruct ((removed t =? 0) && (n_stripped t =? 0) && negb (needsBlockConsolidation seg)) eqn:En.
    + apply andb_prop in En as [[E1%Z.eqb_eq E2%Z.eqb_eq]%andb_prop _].
      destruct (Delete_calm _ _ Hhw) as (x & Ex & _). rewrite Hdr, Ex.
      assert (Esame : survivors rg spec d fs = fs) by (by apply (nothing_changed (BaseOffset seg) fs t)).
      destruct (refresh_orderly io fuel seg fs t stamp hdrs dg Hh Hs Hfuel Est) as (file & -> & Hfd).
      eexists. split; [done|]. right. right. split; [done|]. exists seg, t. rewrite Esame. by split_and!.
    + destruct (cs_sync io) eqn:Esy.
      { eexists. split; [done|]. left. split; [unfold fails_early; by rewrite Esy, orb_true_r|]. split; [by eexists|done]. }
      rewrite Hrp.
      destruct (Replace_holds fuel (with_dirty (w_seg w') false false) seg _ fs (holds_dirty _ _ false false Hhw) Htg Hh Hlen)
        as (y & old & Er & Hy & Hcy & _). pose proof (Replace_old _ _ _ _ _ _ Hh Er) as Hno. rewrite Er.
      destruct (refresh_orderly io fuel y _ t stamp hdrs dg Hy Hss Hlen Est) as (file & E & Hfd). cbn. rewrite E. cbn.
      eexists. split; [done|]. right. right. split; [done|]. exists y, t. split; [done|]. split; [done|].
      split; [|by split_and!].
      unfold config in Hcy. injection Hcy as _ C1 C2 C3 C4 _ _.
      destruct Hpl as (P1 & P2 & P3 & P4). unfold same_place. split_and!; congruence.
Qed.

(** *** The stamp of the new digest *)

Lemma steps_residual t seen :
  residualStrippable (foldl clean_step t seen) = false →
  residualStrippable t = false ∧
  Forall (λ f, disp f = dispRetain → stripActive spec = true → is_control f = false → StripBelow spec ≤ f_off f →
    has_any (f_hdrs f) (StripHeaders spec) = false) seen.
Proof.
  revert t. induction seen as [|f seen IH]; intros t; [done|]. cbn [foldl]. intros Hr. destruct (IH _ Hr) as [I1 I2].
  assert (Hs : residualStrippable t = false ∧ (disp f = dispRetain → stripActive spec = true → is_control f = false →
    StripBelow spec ≤ f_off f → has_any (f_hdrs f) (StripHeaders spec) = false)).
  { unfold clean_step in I1. destruct (disp f); [|by split|].
    - destruct (_ && _) eqn:E; [done|]. split; [done|]. intros _ H1 H2 H3%Z.leb_le. by rewrite H1, H2, H3 in E.
    - split; [|done]. by destruct (damaged f), (has_any (f_hdrs f) (StripHeaders spec)). }
  destruct Hs as [H1 H2]. split; [done|]. by constructor.
Qed.

(** Where the stamp of a rewrite is true: no stripping, or a segment without
    blocks stripped below the ceiling only. *)
Definition stamps_ok (seg : segment) : Prop :=
  stripActive spec = false ∨ StripBelow spec ≤ ceiling spec ∧ blockMode seg = false.

Lemma stamp_sound base seg fs t dg :
  stamps_ok seg → Forall (frm_ok base) fs → Forall sound fs →
  (blockMode seg = false → t = foldl clean_step nothing_counted fs) →
  (stripVerifiedBelow dg, stripHdrs dg) = strip_stamp spec t → stamp_holds dg (survivors rg spec d fs).
Proof.
  intros Hst Hf Hs Ht E g Hg Hctl Hrec Hlt. unfold strip_stamp in E.
  apply list_elem_of_omap in Hg as (f & Hin & Eg). rewrite Forall_forall in Hf, Hs.
  destruct (out_same rg spec Hrg base d f g (Hf f Hin) (Hs f Hin) Eg) as (Eo & _ & _ & Ea & _).
  destruct (Hf f Hin) as ((H0 & H1) & _).
  destruct (stripActive spec) eqn:Hact; [|injection E as E1 _; lia].
  destruct Hst as [?|[Hce Hraw]]; [congruence|]. specialize (Ht Hraw).
  destruct (Z_lt_ge_dec (f_off f) (StripBelow spec)) as [Hb|Hb].
  { unfold stripActive in Hact. apply andb_prop in Hact as [_ Hh].
    assert (stripHdrs dg = StripHeaders spec) as -> by (by destruct (residualStrippable t); injection E).
    apply (out_clean rg spec base d f g Hrg (Hf f Hin) (Hs f Hin)); [|lia|done|done].
    unfold strips. rewrite Hh, andb_true_r. apply Z.ltb_lt. lia. }
  destruct (residualStrippable t) eqn:Er; injection E as E1 ->; [lia|]. rewrite Ht in Er.
  apply steps_residual in Er as [_ Hr]. rewrite Forall_forall in Hr. specialize (Hr f Hin).
  unfold out in Eg. destruct (disp f) as [| |] eqn:Ed; [|done|].
  - injection Eg as <-. by apply Hr; [| | |lia].
  - unfold disp, fate in Ed. destruct (_ <=? _); [done|]. destruct (is_control f); [by destruct (strips spec f)|].
    destruct (aborts _ _); [done|]. destruct (match f_key f with Some _ => _ | None => _ end); [done|].
    unfold strips in Ed. rewrite (proj2 (Z.ltb_ge _ _)) in Ed by lia. done.
Qed.

(** The digest a rewrite leaves is true of what it leaves. *)
Lemma replaced_digest io seg fs dg r :
  stamps_ok seg → holds seg fs → Forall sound fs → cs_digest io = false → in_sint 64 (StripBelow spec) →
  short_names (StripHeaders spec) → replaced io seg fs dg r →
  ∃ y dg', rw_result r = Ok (Some y) ∧ holds y (survivors rg spec d fs) ∧ same_place seg y ∧
    loadKeyDigest (BaseOffset y) (position y) (rw_digest r) = Ok (Some dg') ∧
    KeyDigest.describes dg' (survivors rg spec d fs) ∧ stamp_holds dg' (survivors rg spec d fs).
Proof.
  intros Hst Hh Hs Hcd Hsb Hsn (y & t & Er & Hy & Hpl & _ & _ & _ & Hraw & _ & Hdg). rewrite Hcd in Hdg.
  destruct Hdg as (x & Ex & Hd & Eb & Ep & Es & Hok). pose proof Hh as (_ & _ & _ & (_ & Hf & _) & _).
  destruct (load_encoded x (Hok Hsb Hsn)) as [rest El]. exists y, (streamed x rest).
  split; [done|]. split; [done|]. split; [done|]. split; [by rewrite Ex, <- Eb, <- Ep|].
  split; [by apply describes_streamed|]. by apply (stamp_sound (BaseOffset seg) seg fs t (streamed x rest)).
Qed.

End cleaning.

End rewriting.
End CompactSegment.
