(* ===== verification/BlockCopy.v ===== *)
(** * Replication by blocks: block_replication.go

    [ReadBlocks] hands out the blocks of a segment as they are stored, behind the
    rest of the block that the offset lies in as plain frames; [AppendBlock]
    stores such a block in another log.  What is done with one segment happens at
    once; segments are local, so a block table is always there. *)

From Stdlib Require Import ZArith Lia.
From stdpp Require Import base list numbers strings gmap sorting.
From coqutil Require Import Byte.
From S2P Require Import Prelude GoStd Wire Compress BlockV3 Block Framing EpochCache Index Segment.
From S2P Require Import SegmentIndex SegmentSearch SegmentReopen SegmentRewrite Log LogAppend LogRead LogTruncate CompactSegment.

Open Scope Z_scope.

Module BlockCopy.
Import Segment SegmentIndex SegmentSearch SegmentReopen Log LogAppend LogRead.

Record Block := { b_Data : bytes; b_FirstOffset : Z; b_LastOffset : Z; b_Records : Z; b_LogicalLen : Z }.

(** ** The index of a block segment *)

(** The anchor of the block that holds the offset, or the first. *)
Definition anchorEntryForOffset (s : segment) (offset : Z) : outcome Index.entry :=
  '(i, n, _) ← Index.searchEntries (Index s) (λ e, offset <? Index.Offset e);
  if n =? 0 then Fail (ErrSegmentUnreadable "no index anchors for the segment")
  else Index.ReadEntryAtLogOffset (Index s) (if 0 <? i then i - 1 else i).

(** The first offset of the block at the position. *)
Definition blockAnchor (s : segment) (pos : Z) : outcome Z :=
  '(i, n, e) ← Index.searchEntries (Index s) (λ e, pos <=? Index.Position e);
  match e with
  | Some e => if (i =? n) || negb (Index.Position e =? pos)
              then Fail (ErrSegmentUnreadable "no index anchor for the block") else Ok (Index.Offset e)
  | None => Fail (ErrSegmentUnreadable "no index anchor for the block")
  end.

(** ** Reading *)

Section codecs.
Context `{CodecLib}.

(** [readFramesBetween] from the position of the scanner, [out] read so far. *)
Fixpoint frames_between (fuel : nat) (s : segment) (stop : Z) (sc : segmentScanner) (out : bytes) : option (outcome bytes) :=
  match fuel with
  | O => None
  | S fuel =>
      if sc_pos sc <? stop then
        match Scan s sc with
        | (_, Panic) => Some Panic
        | (_, Fail e) =>
            Some (if segmentSwapped e then Fail e
                  else match e with ErrEOF => Ok out | _ => Fail (ErrSegmentUnreadable "message set") end)
        | (sc, Ok (ms, _)) => frames_between fuel s stop sc (out ++ ms)
        end
      else Some (Ok out)
  end.

Definition readFramesBetween (fuel : nat) (s : segment) (start stop : Z) : option (outcome bytes) :=
  frames_between fuel s stop {| sc_pos := start; sc_cache := newBlockCache |} [].

(** The blocks [bs] of the table, while the budget lasts; [any] says that
    something was read before, [next] is the first offset of the next block once
    it was looked up, and [last] the last offset of the segment. *)
Fixpoint take_blocks (s : segment) (last : Z) (any : bool) (next : option Z) (budget : Z) (bs : list blockRef)
    : outcome (list Block) :=
  match bs with
  | [] => Ok []
  | b :: bs =>
      if any && (budget <? physLen b) then Ok []
      else
        first ← match next with Some o => Ok o | None => blockAnchor s (logicalStart b) end;
        '(lastOffset, next) ← match bs with
                              | [] => Ok (last, None)
                              | b' :: _ => o ← blockAnchor s (logicalStart b'); Ok (sint 64 (o - 1), Some o)
                              end;
        data ← CompactSegment.read_block s b;
        rest ← take_blocks s last true next (budget - physLen b) bs;
        Ok ({| b_Data := data; b_FirstOffset := first; b_LastOffset := lastOffset; b_Records := records b;
               b_LogicalLen := logicalLen b |} :: rest)
  end.

(** The position to read from. *)
Definition read_start (fuel : nat) (s : segment) (contains : bool) (offset : Z) : option (segment * outcome Z) :=
  if contains then
    match anchorEntryForOffset s offset with
    | Fail e => Some (s, Fail e)
    | Panic => Some (s, Panic)
    | Ok a =>
        if Index.Offset a <? offset then
          '(s, r) ← findEntry fuel s offset;
          Some (s, e ← r; Ok (e_Position e))
        else Some (s, Ok (Index.Position a))
    end
  else Some (s, Ok 0).

(** What is read from the position: the rest of its block, and the blocks behind. *)
Definition read_from (fuel : nat) (s : segment) (start maxBytes : Z) : option (outcome (bytes * list Block)) :=
  match CompactSegment.blockTailFrom s start with
  | None => Some (Fail (ErrSegmentUnreadable "block table unavailable for the segment"))
  | Some [] => Some (Ok ([], []))
  | Some (first :: bs) =>
      if logicalStart first <? start then
        r ← readFramesBetween fuel s start (logicalStart first + logicalLen first);
        Some (head ← r; blocks ← take_blocks s (lastOffset s) (0 <? zlen head) None (maxBytes - zlen head) bs; Ok (head, blocks))
      else Some (blocks ← take_blocks s (lastOffset s) false None maxBytes (first :: bs); Ok ([], blocks))
  end.

Definition readBlocksFrom (fuel : nat) (s : segment) (contains : bool) (offset maxBytes : Z)
    : option (segment * outcome (bytes * list Block)) :=
  if negb (blockMode s) then
    '(s, r) ← readMessageSetFrom fuel s contains offset maxBytes;
    Some (s, head ← r; Ok (head, []))
  else
    '(s, r) ← read_start fuel s contains offset;
    match r with
    | Ok start => x ← read_from fuel s start maxBytes; Some (s, x)
    | Fail e => Some (s, Fail e)
    | Panic => Some (s, Panic)
    end.

Definition readBlocksOnce (fuel : nat) (l : commitLog) (offset maxBytes : Z) : option (commitLog * outcome (bytes * list Block)) :=
  match findSegmentContains (segments l) offset with
  | None => Some (l, Fail ErrSegmentNotFound)
  | Some (seg, i, contains) => (λ '(s, r), (put_segment l i s, r)) <$> readBlocksFrom fuel seg contains offset maxBytes
  end.

Definition ReadBlocks (fuel : nat) (l : commitLog) (offset maxBytes : Z) : option (commitLog * outcome (bytes * list Block)) :=
  if maxBytes <=? 0 then Some (l, Fail (ErrInvalidOptions "maxBytes must be positive"))
  else readResolving readerResolveAttempts (λ l, readBlocksOnce fuel l offset maxBytes) l (ErrText "no attempt").

(** ** Appending *)

(** The logical bytes of a version-2 block, with its codec and record count. *)
Definition decode_v2 (data : bytes) : outcome (Z * bytes * Z) :=
  match parseBlockHeader data with
  | Fail ErrBlockFormat => Fail ErrBlockFormat
  | Fail _ => Fail (ErrMessageSetRefused "block header")
  | Panic => Panic
  | Ok (codec, uLen, cLen, records) =>
      if negb (zlen data =? blockHeaderLen + cLen) then Fail (ErrMessageSetRefused "block length")
      else
        payload ← slice_from data blockHeaderLen;
        match DecompressInto codec payload with
        | Fail _ => Fail (ErrMessageSetRefused "block payload does not decode")
        | Panic => Panic
        | Ok logical =>
            if negb (zlen logical =? uLen) then Fail (ErrMessageSetRefused "block decodes to another length")
            else Ok (codec, logical, records)
        end
  end.

Definition is_v3 (data : bytes) : bool :=
  match byte_at data 0, byte_at data 1 with
  | Ok m, Ok v => (1 <? zlen data) && (m =? blockMagic) && (v =? blockv3.Version)
  | _, _ => false
  end.

Definition AppendBlock (fuel : nat) (f : io) (l : commitLog) (b : Block) : option (commitLog * outcome (list Z)) :=
  if is_v3 (b_Data b) then
    match Framing.decodeV3ForAppend (b_Data b) with
    | Fail e => Some (l, Fail e)
    | Panic => Some (l, Panic)
    | Ok (h, recs) => after_split fuel f l (λ l, writeV3 f l (b_Data b) h recs)
    end
  else
    match decode_v2 (b_Data b) with
    | Fail e => Some (l, Fail e)
    | Panic => Some (l, Panic)
    | Ok (codec, logical, records) =>
        after_split fuel f l (λ l,
          match (entries ← entriesForMessageSet (position (active l)) logical;
                 _ ← checkAppendedSet (sint 64 (NextOffset (active l) - 1)) entries (zlen logical);
                 if negb (zlen entries =? records) then Fail (ErrMessageSetRefused "block record count") else Ok entries) with
          | Fail e => (l, Fail e)
          | Panic => (l, Panic)
          | Ok entries =>
              if negb (blockMode (active l)) then append f l logical entries
              else appendWith f l entries (λ s, WriteBlock (io_write f) (io_entries f) s (b_Data b) codec (zlen logical) entries)
          end)
    end.

End codecs.
(** ** Appending a block *)

Section appends.
Context `{CodecLaws}.

(** A block that stands for the frames [g], counts them, and is one to append. *)
Definition block_for (p : piece) (g : list frm) : Prop :=
  piece_ok p ∧ p_data p = fs_bytes g ∧ records (p_ref p) = zlen g ∧
  (version (p_ref p) = blockv3.Version → ∃ x, Framing.decodeV3ForAppend (p_raw p) = Ok x).

Lemma is_v3_two a b r :
  is_v3 (a :: b :: r) = (byte.unsigned a =? blockMagic) && (byte.unsigned b =? blockv3.Version).
Proof.
  unfold is_v3. change (byte_at (a :: b :: r) 0) with (Ok (byte.unsigned a)).
  change (byte_at (a :: b :: r) 1) with (Ok (byte.unsigned b)). cbv iota. rewrite !zlen_cons.
  pose proof (zlen_nonneg r). by rewrite (proj2 (Z.ltb_lt _ _)) by lia.
Qed.

Lemma decode_v2_piece p :
  v2_ok p → is_v3 (p_raw p) = false ∧ decode_v2 (p_raw p) = Ok (Block.codec (p_ref p), p_data p, records (p_ref p)).
Proof.
  intros (_ & _ & Hc & Hv & Hr & Hu & pl & Hpl & -> & Hdec). pose proof (zlen_nonneg pl). pose proof (zlen_nonneg (p_data p)).
  split.
  { unfold encodeBlockHeader. cbn [app]. rewrite is_v3_two. apply andb_false_r. }
  unfold decode_v2. rewrite parse_encode_header by (done || (unfold in_uint; lia)).
  rewrite zlen_app, zlen_encodeBlockHeader, Z.eqb_refl. cbn [negb].
  rewrite slice_from_app, bind_Ok, Hdec by (by rewrite zlen_encodeBlockHeader). by rewrite Z.eqb_refl.
Qed.

Lemma is_v3_piece p : v3_ok p → is_v3 (p_raw p) = true.
Proof.
  intros (_ & h & pl & _ & -> & _). destruct (sealed_head h) as [r ->]. cbn [app]. by rewrite is_v3_two.
Qed.

(** A block is appended as the frames it stands for. *)
Lemma AppendBlock_frames fuel t l fss b p g :
  inv l fss → (0 < fuel)%nat → b_Data b = p_raw p → block_for p g → fits_log l g → ascending g →
  Forall (λ f, NewestOffset l < f_off f) g →
  ∃ l', AppendBlock fuel (calm t) l b = Some (l', Ok (f_off <$> g)) ∧ appended l fss g l'.
Proof.
  intros Hi Hfuel Eb (Hp & Ed & Er & Hv3) Hfit Ha Hab.
  destruct (roll_ok fuel t l fss Hi Hfuel) as (l1 & b1 & fss1 & Es & Hi1 & Ec & Hr & _).
  pose proof Hi as (_ & _ & _ & Hop & _). destruct (fits_framed l g Hfit Hop) as [Hf Hd].
  destruct (newest_ok l fss Hi) as (Hrg & En & _). pose proof Hr as (_ & EN & _).
  assert (Hab' : Forall (λ f, NextOffset (active l) ≤ f_off f) g)
    by (eapply Forall_impl; [exact Hab|]; simpl; lia).
  unfold AppendBlock, after_split. rewrite Eb. pose proof Hp as (_ & Hl & Hpos & [Hv|Hv]).
  - destruct (decode_v2_piece p Hv) as [-> ->]. rewrite Es, Ed, EN, set_entries, bind_Ok by done.
    change (sint 64 (NextOffset (active l) - 1)) with (NewestOffset l).
    rewrite (proj2 (checkAppendedSet_frames _ _ _)), bind_Ok by (by pose proof Hfit as (? & _)).
    replace (zlen (entries_at _ g)) with (zlen g) by (unfold zlen; by rewrite length_entries_at).
    rewrite Er, Z.eqb_refl. cbn [negb]. destruct (blockMode (active l1)) eqn:Em; cbn [negb].
    2: { destruct (rolled_append t l fss l1 fss1 g Hi1 Ec Hr Hfit Ha Hab') as (l' & -> & Hap). by exists l'. }
    destruct (rolled_appendWith t l fss l1 fss1 g
      (λ s, WriteBlock None Index.no_faults s (p_raw p) (Block.codec (p_ref p)) (zlen (fs_bytes g))
         (entries_at (position (active l1)) g)) Hi1 Ec Hr Hfit Ha Hab') as (l' & E & Hap).
    { intros fs Hh Hcd Hne Hok. destruct Hv as (Ev & Efl & Hc & Hva & Hrs & Hu & pl & Hpl & Eraw & Hdec).
      destruct (holds_piece (active l1) fs g (p_raw p) (Block.codec (p_ref p)) BlockFormatVersion 0)
        as (s & ? & ? & ? & _); try done; [|by exists s].
      unfold piece_ok, v2_ok. cbn. rewrite <- Ed, <- Er. split_and!; try done. left. split_and!; try done; try lia.
      by exists pl. }
    exists l'. split; [|done]. f_equal. exact E.
  - rewrite (is_v3_piece p Hv). pose proof Hv as (Ev & h & pl & Hok & Eraw & Epl & Ecd & Erec & Efl & Hdec).
    destruct (Hv3 Ev) as [[h' recs] Hap]. rewrite Hap, Es. apply decodeV3ForAppend_decodes in Hap.
    assert (h' = h) as ->.
    { pose proof Hap as (Hok' & p' & Er' & _)%blockv3.DecodeBlock_inv.
      pose proof (blockv3.decode_sealed h pl Hok) as D. rewrite <- Eraw, Er', blockv3.decode_sealed in D by done.
      by injection D. }
    destruct (writeV3_stored t l fss l1 fss1 (p_raw p) h recs g) as (l' & E & Hapd);
      try done; [by rewrite <- Ed|congruence|]. exists l'. split; [|done]. f_equal. exact E.
Qed.

End appends.

(** ** The anchors of the blocks *)

Section indexed.
Context (s : segment) (gs : list (list frm)).
Context (Hix : index_holds s gs) (Hfr : frames_ok (BaseOffset s) (concat gs)).

Lemma anchor_entries : Index.entries_of (Index s) (group_rels (BaseOffset s) gs) = anchors 0 gs.
Proof. destruct Hix as (_ & _ & Hb & _), Hfr as (_ & Hf & _ & _ & Hz). by apply entries_of_groups. Qed.

Lemma anchor_search pred :
  Index.upward pred (anchors 0 gs) →
  ∃ i, Index.searchEntries (Index s) pred = Ok (Z.of_nat i, zlen gs, anchors 0 gs !! i) ∧ (i ≤ length gs)%nat ∧
    Forall (λ e, pred e = false) (take i (anchors 0 gs)) ∧ Forall (λ e, pred e = true) (drop i (anchors 0 gs)).
Proof.
  intros Hu. pose proof Hix as (Hg & Hc & _ & Hr & _).
  destruct (Index.searchEntries_spec (Index s) _ pred Hr Hc) as (i & E & Hi & Hlo & Hhi); [by rewrite anchor_entries|].
  rewrite anchor_entries in *. unfold group_rels in E, Hi. rewrite length_fmap, length_anchors in Hi by done.
  exists i. split; [|done]. rewrite E. do 3 f_equal. unfold zlen. by rewrite length_fmap, length_anchors.
Qed.

Lemma anchorEntry_spec o :
  gs ≠ [] →
  ∃ g0 f g g1, gs = g0 ++ (f :: g) :: g1 ∧ anchorEntryForOffset s o = Ok (fentry (zlen (fs_bytes (concat g0))) f) ∧
    (o ≤ f_off f → Forall (λ x, f_off x < o) (concat g0)).
Proof.
  intros Hne. pose proof Hix as (Hg & _). pose proof Hfr as (_ & _ & _ & Ha & _).
  destruct (anchor_search (λ e, o <? Index.Offset e)) as (i & E & Hi & Hlo & Hhi).
  { eapply anchors_upward; [exact Ha|]. intros q q' f g. cbn. rewrite !Z.ltb_lt. lia. }
  unfold anchorEntryForOffset. rewrite E, bind_Ok, (proj2 (Z.eqb_neq _ _)).
  2: { destruct gs; [done|]. rewrite zlen_cons. pose_zlen. lia. }
  assert (Hk : (pred i < length gs)%nat) by (destruct gs; [done|simpl in *; lia]).
  destruct (lookup_lt_is_Some_2 (anchors 0 gs) (pred i)) as [e He]; [by rewrite length_anchors|].
  replace (if 0 <? Z.of_nat i then Z.of_nat i - 1 else Z.of_nat i) with (Z.of_nat (pred i))
    by (destruct (Z.ltb_spec 0 (Z.of_nat i)); lia).
  pose proof Hix as (_ & Hc & Hb & Hr & _). pose proof Hfr as (_ & Hf & _ & _ & Hz).
  change (Index.ReadEntryAtLogOffset (Index s) (Z.of_nat (pred i))) with
    (Index.ReadEntryAtFileOffset (Index s) (Z.of_nat (pred i) * Index.entryWidth)).
  rewrite (anchor_read (BaseOffset s) s gs _ e (conj Hr (conj Hc Hb)) Hf Hz He). destruct (anchors_lookup _ _ _ _ Hg He) as (f & g & Egs & ->).
  exists (take (pred i) gs), f, g, (drop (S (pred i)) gs). split; [done|]. split; [by rewrite Z.add_0_l|].
  intros Ho. destruct i as [|i]; [by constructor|]. cbn [pred] in *.
  assert (Hle : (o <? f_off f) = false).
  { refine (Forall_lookup_1 _ _ i (fentry _ f) Hlo _). rewrite lookup_take_lt by lia. exact He. }
  apply Z.ltb_ge in Hle. rewrite Egs, concat_app in Ha. apply StronglySorted_app in Ha as (Hx & _).
  apply Forall_forall. intros x Hin. specialize (Hx x f Hin ltac:(by left)). cbn in Hx. lia.
Qed.

Lemma anchors_positions pos ks : StronglySorted (λ e e', Index.Position e < Index.Position e') (anchors pos ks).
Proof.
  revert pos. induction ks as [|[|f g] ks IH]; intros pos; [constructor|apply IH|]. cbn [anchors].
  constructor; [apply IH|]. apply anchors_all. intros q f' _ Hq. cbn.
  pose proof (fs_bytes_pos (f :: g) ltac:(done)). lia.
Qed.

Lemma blockAnchor_spec g0 f g g1 :
  gs = g0 ++ (f :: g) :: g1 → blockAnchor s (zlen (fs_bytes (concat g0))) = Ok (f_off f).
Proof.
  intros Egs. set (pos := zlen _). pose proof Hix as (Hg & _).
  assert (He : anchors 0 gs !! length g0 = Some (fentry pos f)).
  { rewrite Egs, anchors_app. rewrite Egs in Hg. apply Forall_app in Hg as [Hg _].
    rewrite lookup_app_r, length_anchors, Nat.sub_diag by (by rewrite ?length_anchors). cbn. by rewrite ?Z.add_0_l. }
  destruct (anchor_search (λ e, pos <=? Index.Position e)) as (i & E & Hi & Hlo & Hhi).
  { eapply sorted_impl; [|apply (anchors_positions 0 gs)]. intros x y. cbn. rewrite !Z.leb_le. lia. }
  assert (i = length g0) as ->.
  { destruct (Nat.lt_trichotomy i (length g0)) as [Hlt|[->|Hlt]]; [|done|].
    - destruct (lookup_lt_is_Some_2 (anchors 0 gs) i) as [e Hei].
      { apply lookup_lt_Some in He. lia. }
      pose proof (sorted_lookup _ _ _ _ _ _ (anchors_positions 0 gs) Hlt Hei He) as Hp. cbn in Hp.
      assert (Hx : (pos <=? Index.Position e) = true).
      { refine (Forall_lookup_1 _ _ 0 e Hhi _). by rewrite lookup_drop, Nat.add_0_r. }
      apply Z.leb_le in Hx. lia.
    - assert (Hx : (pos <=? pos) = false).
      { refine (Forall_lookup_1 _ _ (length g0) (fentry pos f) Hlo _). by rewrite lookup_take_lt. }
      rewrite Z.leb_refl in Hx. done. }
  unfold blockAnchor. rewrite E, bind_Ok, He. cbn. rewrite Z.eqb_refl, orb_false_r.
  rewrite (proj2 (Z.eqb_neq _ _)); [done|]. rewrite Egs, zlen_app, zlen_cons. unfold zlen. lia.
Qed.

End indexed.

(** ** Reading blocks *)

(** The blocks [ps] that stand for the groups [gs], as they are handed out. *)
Fixpoint stored_blocks (last : Z) (ps : list piece) (gs : list (list frm)) : list Block :=
  match ps, gs with
  | p :: ps, g :: gs =>
      {| b_Data := p_raw p; b_FirstOffset := head_off g;
         b_LastOffset := match gs with [] => last | g' :: _ => head_off g' - 1 end;
         b_Records := records (p_ref p); b_LogicalLen := zlen (fs_bytes g) |} :: stored_blocks last ps gs
  | _, _ => []
  end.

Section block_reads.
Context `{CodecLib}.

Lemma blockTail_at s pa p pb pos :
  Segment.describes s (pa ++ p :: pb) → zlen (datas pa) ≤ pos < zlen (datas pa) + zlen (p_data p) →
  CompactSegment.blockTailFrom s pos = Some (refs (p :: pb)).
Proof.
  intros (Hm & Hc & _ & Eb & _) Hpos. unfold CompactSegment.blockTailFrom. rewrite Hm, Eb. cbn [negb]. f_equal.
  destruct (Sort.Search_list _ (λ b, pos <? logicalStart b + logicalLen b) (refs (pa ++ p :: pb)) (chain_sorted _ _ _ Hc))
    as [_ ->].
  { intros x y Hxy. rewrite !Z.ltb_lt. lia. }
  unfold refs. rewrite fmap_app, filter_app. pose proof Hc as [Hca ((_ & Hl & Hd & _) & Hs & _ & Hcb)]%chain_app.
  rewrite filter_none, filter_all; [done| |].
  - apply Forall_fmap, Forall_cons. cbn. split; [rewrite Z.ltb_lt, Hl, Hs; lia|]. apply Forall_forall. intros x Hx.
    pose proof (chain_ends _ _ _ _ Hcb Hx). cbn. rewrite Z.ltb_lt. lia.
  - apply Forall_fmap, Forall_forall. intros x Hx. cbn. rewrite Z.ltb_lt.
    apply list_elem_of_split in Hx as (a & b & ->). apply chain_app in Hca as [_ ((_ & Hl' & _) & Hs' & _)].
    rewrite datas_app, zlen_app in Hpos. unfold datas at 2 4 in Hpos. cbn [fmap list_fmap concat] in Hpos.
    rewrite zlen_app in Hpos. pose_zlen. lia.
Qed.

Lemma between_scans fuel s stop sc out sc' out' :
  CompactSegment.scan_to fuel s stop (λ out ms, Ok (out ++ ms)) sc out = Some (Ok (sc', out')) →
  frames_between fuel s stop sc out = Some (Ok out').
Proof.
  revert sc out. induction fuel as [|fuel IH]; intros sc out; [done|].
  cbn [CompactSegment.scan_to frames_between]. destruct (_ <? _); [|by intros [= _ <-]].
  destruct (Scan s sc) as [sc1 [[ms e]|e|]]; [apply IH|done|done].
Qed.

Lemma each_bytes out g : CompactSegment.each (λ out ms, Ok (out ++ ms)) out g = Ok (out ++ fs_bytes g).
Proof.
  revert out. induction g as [|f g IH]; intros out; cbn [CompactSegment.each].
  - unfold fs_bytes. by rewrite app_nil_r.
  - rewrite bind_Ok, IH, fs_bytes_cons. by rewrite <- app_assoc.
Qed.

Lemma readFramesBetween_spec fuel s a g b :
  holds s (a ++ g ++ b) → (length g < fuel)%nat →
  readFramesBetween fuel s (zlen (fs_bytes a)) (zlen (fs_bytes (a ++ g))) = Some (Ok (fs_bytes g)).
Proof.
  intros (Hl & Hcl & _ & (_ & Hf & Hd & _) & _) Hfuel.
  apply Forall_app in Hf as [_ [Hf _]%Forall_app]. apply Forall_app in Hd as [_ [Hd _]%Forall_app].
  destruct (CompactSegment.scan_to_frames (BaseOffset s) fuel s {| sc_pos := zlen (fs_bytes a); sc_cache := newBlockCache |}
    a g b (λ out ms, Ok (out ++ ms)) [] (fs_bytes g)) as (sc & E & _); try done.
  - split; [by apply fresh_cache|done].
  - apply each_bytes.
  - by eapply between_scans.
Qed.

(** What the walk over the blocks [ps] takes within the budget. *)
Definition taken (any : bool) (budget : Z) (ps : list piece) (k : nat) : Prop :=
  (k ≤ length ps)%nat ∧ (any = false → ps ≠ [] → (0 < k)%nat) ∧
  (zlen (raws (take k ps)) ≤ budget ∨ k = 0%nat ∨ (any = false ∧ k = 1%nat)).

Lemma taken_more p ps budget k any :
  taken true (budget - zlen (p_raw p)) ps k → (any = true → zlen (p_raw p) ≤ budget) → taken any budget (p :: ps) (S k).
Proof.
  intros (Hk & _ & Hz) Hb. split; [simpl; lia|]. split; [lia|]. cbn [take]. unfold raws in *. cbn [fmap list_fmap concat].
  rewrite zlen_app. destruct Hz as [Hz|[->|[? _]]]; [left; lia| |done].
  destruct any; [left; specialize (Hb eq_refl)|by right; right]. change (zlen (concat (p_raw <$> take 0 ps))) with 0. lia.
Qed.

Lemma take_blocks_spec s last pa ps ga gs any next budget :
  Segment.describes s (pa ++ ps) → closed s = false → stores pa ga → stores ps gs →
  index_holds s (ga ++ gs) → frames_ok (BaseOffset s) (concat (ga ++ gs)) →
  (∀ o g gs', next = Some o → gs = g :: gs' → o = head_off g) →
  ∃ k, take_blocks s last any next budget (refs ps) = Ok (take k (stored_blocks last ps gs)) ∧ taken any budget ps k.
Proof.
  intros Hd Hcl Ha Hs. revert pa ga Ha Hd any next budget.
  induction Hs as [|p g ps gs Ep Hs IH]; intros pa ga Ha Hd any next budget Hix Hfr Hnext.
  { exists 0%nat. split; [done|]. split; [done|]. split; [done|]. by right; left. }
  pose proof Hd as (_ & Hc & _). pose proof Hc as [_ ((Hpl & Hll & _) & Hst & _ & Hc')]%chain_app.
  change (refs (p :: ps)) with (p_ref p :: refs ps). cbn [take_blocks]. rewrite Hpl.
  destruct (any && (budget <? zlen (p_raw p))) eqn:Eb.
  { exists 0%nat. split; [done|]. split; [simpl; lia|]. split; [by destruct any|]. by right; left. }
  pose proof Hix as (Hfull & _). apply Forall_app in Hfull as [_ [Hg Hfull]%Forall_cons].
  destruct g as [|f g]; [done|]. pose proof (stores_datas _ _ Ha) as Eda.
  assert (match next with Some o => Ok o | None => blockAnchor s (logicalStart (p_ref p)) end = Ok (f_off f)) as ->.
  { destruct next as [o|]; [f_equal; exact (Hnext o _ _ eq_refl eq_refl)|].
    rewrite Hst, Z.add_0_l, Eda. by eapply (blockAnchor_spec s _ Hix Hfr ga f g gs). }
  rewrite bind_Ok.
  assert (Enext : ∃ nx, match refs ps with [] => Ok (last, None)
      | b' :: _ => o ← blockAnchor s (logicalStart b'); Ok (sint 64 (o - 1), Some o) end =
      Ok (match gs with [] => last | g' :: _ => head_off g' - 1 end, nx) ∧
      ∀ o g gs', nx = Some o → gs = g :: gs' → o = head_off g).
  { destruct Hs as [|p' g' ps gs Ep' Hs]; [by eexists|]. apply Forall_cons in Hfull as [Hg' _].
    destruct g' as [|f' g']; [done|]. cbn [refs fmap list_fmap]. pose proof Hc' as (_ & Hst' & _).
    assert (blockAnchor s (logicalStart (p_ref p')) = Ok (f_off f')) as ->.
    { rewrite Hst', Z.add_0_l, Eda, Ep.
      replace (zlen (fs_bytes (concat ga)) + zlen (fs_bytes (f :: g)))
        with (zlen (fs_bytes (concat (ga ++ [f :: g]))))
        by (rewrite concat_app, fs_bytes_app, zlen_app; cbn [concat]; by rewrite app_nil_r).
      eapply (blockAnchor_spec s _ Hix Hfr (ga ++ [f :: g]) f' g' gs). by rewrite <- app_assoc. }
    rewrite bind_Ok. exists (Some (f_off f')). split; [|by intros o ? ? [= <-] [= <- <-]].
    rewrite sint_small; [done|done|]. destruct Hfr as ((HB & _) & Hf & _).
    assert (Hin : f' ∈ concat (ga ++ (f :: g) :: (f' :: g') :: gs)).
    { rewrite concat_app. apply elem_of_app. right. cbn. apply elem_of_cons. right. apply elem_of_app. right. by left. }
    pose proof (proj1 (Forall_forall _ _) Hf f' Hin) as (? & ? & ? & _). unfold in_sint. lia. }
  destruct Enext as (nx & -> & Hnx). rewrite bind_Ok, (CompactSegment.read_piece s pa p ps), bind_Ok by done.
  rewrite (cons_middle p pa ps) in Hd. rewrite (cons_middle (f :: g) ga gs) in Hix, Hfr. rewrite app_assoc in Hd, Hix, Hfr.
  destruct (IH (pa ++ [p]) (ga ++ [f :: g]) ltac:(apply Forall2_app; [done|by constructor]) Hd true nx
    (budget - zlen (p_raw p)) Hix Hfr Hnx) as (k & -> & Hk).
  rewrite bind_Ok. exists (S k). cbn [stored_blocks take]. split.
  - rewrite Hll, Ep. done.
  - apply taken_more; [done|]. intros ->. cbn in Eb. by apply Z.ltb_ge.
Qed.

End block_reads.

(** ** One segment *)

Lemma split_groups {A} (gs : list (list A)) x y :
  concat gs = x ++ y → y ≠ [] →
  ∃ ga g1 g2 gb, gs = ga ++ (g1 ++ g2) :: gb ∧ x = concat ga ++ g1 ∧ y = g2 ++ concat gb ∧ g2 ≠ [].
Proof.
  revert x. induction gs as [|g gs IH]; intros x E Hy.
  { symmetry in E. by apply app_eq_nil in E as [_ ?]. }
  rewrite concat_cons in E. apply app_eq_app in E as (z & [[Eg Ey]|[Ex Eg]]).
  - destruct z as [|a z].
    + rewrite app_nil_r in Eg. cbn in Ey. subst x. destruct (IH [] (eq_sym Ey) Hy) as (ga & g1 & g2 & gb & -> & E1 & E2 & Hne).
      exists (g :: ga), g1, g2, gb. rewrite concat_cons. split; [done|]. symmetry in E1. apply app_eq_nil in E1 as [E1 ->].
      by rewrite E1, !app_nil_r.
    + exists [], x, (a :: z), gs. by rewrite Eg.
  - destruct (IH z Eg Hy) as (ga & g1 & g2 & gb & -> & -> & E2 & Hne).
    exists (g :: ga), g1, g2, gb. rewrite Ex, concat_cons, app_assoc. done.
Qed.

Section segment_reads.
Context `{CodecLib}.

(** What a segment whose blocks [ps] store [gs] answers: the frames [hd], and
    [k] blocks from the [i]-th on. *)
Definition answers (s : segment) (n : Z) (ps : list piece) (gs : list (list frm)) (y hd : list frm) (i k : nat)
    (bs : list Block) : Prop :=
  bs = take k (stored_blocks (lastOffset s) (drop i ps) (drop i gs)) ∧ y = hd ++ concat (drop i gs) ∧
  taken (0 <? zlen (fs_bytes hd)) (n - zlen (fs_bytes hd)) (drop i ps) k.

Lemma read_from_spec fuel s ps gs x y n :
  Segment.describes s ps → stores ps gs → holds s (concat gs) → index_holds s gs → (length (concat gs) < fuel)%nat →
  concat gs = x ++ y → y ≠ [] →
  ∃ hd i k bs, read_from fuel s (zlen (fs_bytes x)) n = Some (Ok (fs_bytes hd, bs)) ∧ answers s n ps gs y hd i k bs.
Proof.
  intros Hd Hst Hh Hix Hfuel Exy Hy. destruct (split_groups gs x y Exy Hy) as (ga & g1 & g2 & gb & -> & -> & -> & Hg2).
  apply Forall2_app_inv_r in Hst as (pa & pb' & Ha & Hb & ->). apply Forall2_cons_inv_r in Hb as (p & pb & Ep & Hb & ->).
  pose proof (stores_datas _ _ Ha) as Eda. pose proof Hh as (_ & Hcl & _ & Hfr & _).
  pose proof (fs_bytes_pos g2 Hg2) as Hpos. pose proof Hd as (_ & Hc & _).
  pose proof Hc as [_ ((_ & Hll & _) & Hls & _)]%chain_app. rewrite Z.add_0_l, Eda in Hls.
  unfold read_from. rewrite (blockTail_at s pa p pb) by
    (try done; rewrite Eda, Ep, !fs_bytes_app, !zlen_app; pose_zlen; lia).
  change (refs (p :: pb)) with (p_ref p :: refs pb). cbv beta iota. rewrite Hls, Hll, Ep.
  rewrite (fs_bytes_app (concat ga)), zlen_app.
  assert (Epa : length pa = length ga) by (by apply Forall2_length in Ha).
  destruct g1 as [|f1 g1].
  - change (zlen (fs_bytes [])) with 0. rewrite Z.add_0_r, Z.ltb_irrefl.
    destruct (take_blocks_spec s (lastOffset s) pa (p :: pb) ga (g2 :: gb) false None n) as (k & E & Hk); try done;
      [by constructor|].
    change (refs (p :: pb)) with (p_ref p :: refs pb) in E. rewrite E.
    exists [], (length ga), k. eexists. split; [done|]. unfold answers.
    rewrite (drop_app_length' pa), (drop_app_length' ga), Z.sub_0_r by done. done.
  - rewrite (proj2 (Z.ltb_lt _ _)) by (pose proof (fs_bytes_pos (f1 :: g1) ltac:(done)); lia).
    rewrite <- zlen_app, <- (fs_bytes_app (concat ga)).
    replace (zlen (fs_bytes (concat ga)) + zlen (fs_bytes ((f1 :: g1) ++ g2)))
      with (zlen (fs_bytes ((concat ga ++ f1 :: g1) ++ g2)))
      by (rewrite <- app_assoc, (fs_bytes_app (concat ga)), zlen_app; done).
    rewrite (readFramesBetween_spec fuel s (concat ga ++ f1 :: g1) g2 (concat gb)).
    2: { rewrite concat_app, concat_cons in Hh. by rewrite <- !app_assoc in *. }
    2: { rewrite concat_app, concat_cons, !length_app in Hfuel. lia. }
    cbn [mbind option_bind]. rewrite bind_Ok, (cons_middle p pa pb), (cons_middle _ ga gb), !app_assoc in *.
    destruct (take_blocks_spec s (lastOffset s) (pa ++ [p]) pb (ga ++ [(f1 :: g1) ++ g2]) gb (0 <? zlen (fs_bytes g2)) None
      (n - zlen (fs_bytes g2))) as (k & -> & Hk); try done; [apply Forall2_app; [done|by constructor]|].
    rewrite bind_Ok. exists g2, (length (ga ++ [(f1 :: g1) ++ g2])), k. eexists. split; [done|]. unfold answers.
    rewrite (drop_app_length' (pa ++ [p])), drop_app_length; [done|]. rewrite !length_app. simpl. lia.
Qed.

Lemma read_start_spec fuel s gs o :
  blockMode s = true → holds s (concat gs) → index_holds s gs → (length (concat gs) < fuel)%nat → from o (concat gs) ≠ [] →
  ∃ c x y, read_start fuel s true o = Some (with_cache s c, Ok (zlen (fs_bytes x))) ∧ holds (with_cache s c) (concat gs) ∧
    concat gs = x ++ y ∧ from o (concat gs) = y.
Proof.
  intros Hm Hh Hix Hfuel Hne. pose proof Hh as (_ & _ & _ & Hfr & _). pose proof Hfr as (_ & _ & _ & Ha & _).
  assert (Hgs : gs ≠ []) by (by intros ->).
  destruct (anchorEntry_spec s gs Hix Hfr o Hgs) as (g0 & f & g & g1 & Egs & E & Hlow).
  unfold read_start. rewrite E. cbn [Index.Offset Index.Position fentry]. destruct (Z.ltb_spec (f_off f) o) as [Hlt|Hge].
  - destruct (seek 0 (λ f, o <=? f_off f) (concat gs)) as [[pos f']|] eqn:Es.
    2: { apply seek_None in Es. destruct Hne. apply from_below. eapply Forall_impl; [exact Es|].
         simpl. intros k Hk. by apply Z.leb_gt in Hk. }
    destruct (findEntry_seek fuel s _ o pos f' Hh Hfuel Es) as (c & e & -> & Ep & _ & Hh').
    destruct (from_seek 0 o _ pos f' Ha Es) as (x & y & Exy & Efr & Epos).
    exists c, x, (f' :: y). cbn. rewrite Ep, Epos. done.
  - exists (cache s), (concat g0), (concat ((f :: g) :: g1)). replace (with_cache s (cache s)) with s by (by destruct s).
    split; [done|]. split; [done|]. rewrite Egs, concat_app in Ha |- *. split; [done|].
    rewrite from_app, from_below, from_above; [done| |by apply Hlow]. apply StronglySorted_app in Ha as (_ & _ & Ha).
    cbn in Ha |- *. inversion Ha as [|? ? _ Hx]; subst. constructor; [done|]. eapply Forall_impl; [exact Hx|].
    simpl. lia.
Qed.

End segment_reads.

(** ** The log *)

Lemma from_at A B f : ascending (A ++ B) → head B = Some f → from (f_off f) (A ++ B) = B.
Proof.
  intros Hs Hf. destruct B as [|f' B]; [done|]. injection Hf as ->. apply StronglySorted_app in Hs as (Hx & _ & Hb).
  rewrite from_app, from_below, from_above; [done| |].
  - inversion Hb as [|? ? _ Hy]; subst. constructor; [done|]. eapply Forall_impl; [exact Hy|]. simpl. lia.
  - apply Forall_forall. intros x Hin. by apply Hx; [|left].
Qed.

Lemma from_after A B f : ascending (A ++ B) → last A = Some f → from (f_off f + 1) (A ++ B) = B.
Proof.
  intros Hs Hf. apply last_Some in Hf as [A' ->]. apply StronglySorted_app in Hs as (Hx & Ha & _).
  apply StronglySorted_app in Ha as (Hy & _). rewrite from_app, from_below, from_above; [done| |].
  - apply Forall_forall. intros x Hin. specialize (Hx f x ltac:(apply elem_of_app; right; by left) Hin). cbn in Hx. lia.
  - apply Forall_app. split; [|constructor; [lia|done]]. apply Forall_forall. intros x Hin.
    specialize (Hy x f Hin ltac:(by left)). cbn in Hy. lia.
Qed.

Lemma stored_blocks_fmap last ps gs :
  stores ps gs →
  b_Data <$> stored_blocks last ps gs = p_raw <$> ps ∧
  b_Records <$> stored_blocks last ps gs = (λ p, records (p_ref p)) <$> ps ∧
  b_FirstOffset <$> stored_blocks last ps gs = head_off <$> gs ∧
  b_LogicalLen <$> stored_blocks last ps gs = (λ g, zlen (fs_bytes g)) <$> gs.
Proof.
  induction 1 as [|p g ps gs _ _ (E1 & E2 & E3 & E4)]; [done|]. cbn [stored_blocks fmap list_fmap].
  cbn. split_and!; f_equal; done.
Qed.

Lemma stored_blocks_last last ps gs j b :
  stored_blocks last ps gs !! j = Some b →
  b_LastOffset b = match drop (S j) gs with [] => last | g' :: _ => head_off g' - 1 end.
Proof.
  revert gs j. induction ps as [|p ps IH]; intros [|g gs] [|j] E; try done; [by injection E as <-|]. by apply (IH gs j).
Qed.

Section log_reads.
Context `{CodecLib}.

(** The blocks [ps] stand next to each other in a segment and store [gs]. *)
Definition lie_in (l : commitLog) (ps : list piece) (gs : list (list frm)) : Prop :=
  (ps = [] ∧ gs = []) ∨
  ∃ s pss gss i k, s ∈ segments l ∧ Segment.describes s pss ∧ stores pss gss ∧ full gss ∧
    frames_ok (BaseOffset s) (concat gss) ∧ ps = take k (drop i pss) ∧ gs = take k (drop i gss).

(** What is handed out from offset [o] on: the records [hd] as frames, and blocks
    of the log as they are, behind one another; a reader that goes on behind the
    last offset of a block misses none of the records that follow it. *)
Definition blocks_run (l : commitLog) (fss : list (list frm)) (o n : Z) (hd : list frm) (bs : list Block) : Prop :=
  ∃ ps gs q, lie_in l ps gs ∧ from o (concat fss) = hd ++ concat gs ++ q ∧ hd ++ concat gs ≠ [] ∧
    b_Data <$> bs = p_raw <$> ps ∧ b_Records <$> bs = (λ p, records (p_ref p)) <$> ps ∧
    b_FirstOffset <$> bs = head_off <$> gs ∧ b_LogicalLen <$> bs = (λ g, zlen (fs_bytes g)) <$> gs ∧
    (∀ i b, bs !! i = Some b → from (b_LastOffset b + 1) (concat fss) = concat (drop (S i) gs) ++ q) ∧
    (zlen (fs_bytes hd) + zlen (concat (b_Data <$> bs)) ≤ n ∨ bs = [] ∨ hd = [] ∧ length bs = 1%nat) ∧
    ∃ fs, fs ∈ fss ∧ hd ++ concat gs `sublist_of` fs.

Lemma full_take G j : full G → (j < length G)%nat → concat (take (S j) G) ≠ [].
Proof.
  intros Hg Hj. destruct G as [|g G]; [simpl in Hj; lia|]. apply Forall_cons in Hg as [Hg _]. cbn.
  by intros [? _]%app_eq_nil.
Qed.

Lemma block_resumes pre G post lo ps j b :
  ascending (pre ++ concat G ++ post) → full G → (j < length G)%nat → stored_blocks lo ps G !! j = Some b →
  lo = tail_off (concat G) → from (b_LastOffset b + 1) (pre ++ concat G ++ post) = concat (drop (S j) G) ++ post.
Proof.
  intros Ha Hg Hj Hb El. rewrite (stored_blocks_last _ _ _ _ _ Hb).
  pose proof (Forall_drop _ (S j) _ Hg) as Hg2.
  assert (EG : concat G = concat (take (S j) G) ++ concat (drop (S j) G)) by (by rewrite <- concat_app, take_drop).
  rewrite EG in El, Ha |- *. rewrite <- app_assoc, (app_assoc pre) in Ha |- *.
  destruct (drop (S j) G) as [|g' G'] eqn:Ed.
  - rewrite app_nil_r in El. cbn [concat app] in *. destruct (last (concat (take (S j) G))) as [f|] eqn:Ef.
    + rewrite El. unfold tail_off. rewrite Ef. cbn. apply from_after; [done|]. rewrite last_app, Ef. done.
    + apply last_None in Ef. by destruct (full_take G j).
  - apply Forall_cons in Hg2 as [Hg' _]. destruct g' as [|f' g']; [done|].
    replace (head_off (f' :: g') - 1 + 1) with (f_off f') by (cbn; lia). by apply from_at.
Qed.

Lemma answer_run l ga fs gb s ps gs x n o hd i k bs :
  inv l (ga ++ fs :: gb) → s ∈ segments l → holds s fs → Segment.describes s ps → stores ps gs → index_holds s gs →
  fs = concat gs → from o (concat ga) = [] → from o (concat gb) = concat gb → fs = x ++ from o fs → from o fs ≠ [] →
  answers s n ps gs (from o fs) hd i k bs → blocks_run l (ga ++ fs :: gb) o n hd bs.
Proof.
  intros Hi Hin Hh Hd Hst Hix Ef Hga Hgb Ex Hne (Ebs & Ey & (Hk & Hk0 & Hz)).
  set (G := drop i gs) in *. set (P := drop i ps) in *.
  assert (HstG : stores P G) by (by apply Forall2_drop). pose proof (Forall2_length _ _ _ HstG) as Hlen.
  pose proof Hix as (Hfull & _). assert (HfG : full G) by (by apply Forall_drop).
  destruct (stored_blocks_fmap (lastOffset s) P G HstG) as (E1 & E2 & E3 & E4).
  assert (EW : concat (ga ++ fs :: gb) = (concat ga ++ x ++ hd) ++ concat G ++ concat gb).
  { by rewrite concat_app, concat_cons, Ex, Ey, <- !app_assoc. }
  exists (take k P), (take k G), (concat (drop k G) ++ concat gb). split; [|split; [|split]].
  - right. exists s, ps, gs, i, k. rewrite <- Ef. by destruct Hh as (_ & _ & _ & ? & _).
  - rewrite concat_app, from_app, Hga, app_nil_l, concat_cons, from_app, Hgb, Ey.
    by rewrite <- (take_drop k G) at 1; rewrite concat_app, <- !app_assoc.
  - intros [-> Ec]%app_eq_nil. cbn in Hk0, Ey. destruct P as [|p P'].
    { destruct G; [by rewrite Ey in Hne|done]. }
    specialize (Hk0 eq_refl ltac:(done)). destruct k as [|k]; [lia|]. by apply full_take in Ec; [..|rewrite <- Hlen].
  - rewrite Ebs, !fmap_take, E1, E2, E3, E4. split_and!; try done.
    + intros j b [Hb Hj]%lookup_take_Some. rewrite app_assoc, <- concat_app, drop_take_drop, EW by lia.
      eapply block_resumes; try done; [rewrite <- EW; by eapply inv_ascending|lia|].
      destruct Hh as (_ & _ & _ & _ & (_ & El & _) & _). rewrite El. unfold tail_off. do 2 f_equal.
      rewrite Ex, Ey, !last_app. destruct (last (concat G)) eqn:EG; [done|]. apply last_None in EG.
      destruct (full_take G j); [done|lia|]. rewrite <- (take_drop (S j) G), concat_app in EG.
      by apply app_eq_nil in EG as [? _].
    + unfold raws in Hz. rewrite fmap_take in Hz. destruct Hz as [Hz|[->|[Hz ->]]]; [left; lia|by right; left|].
      right; right. split; [|apply (f_equal length) in E1; rewrite !length_fmap in E1; rewrite length_take; lia].
      destruct hd as [|f hd]; [done|]. pose proof (fs_bytes_pos (f :: hd) ltac:(done)). apply Z.ltb_ge in Hz. lia.
    + exists fs. split; [apply elem_of_app; right; by left|]. transitivity (from o fs); [|apply sublist_filter].
      rewrite Ey, <- (take_drop k G), concat_app, take_drop, app_assoc. by apply sublist_inserts_r.
Qed.

(** The answer to a read from offset [o] on. *)
Definition read_spec_blocks (l : commitLog) (fss : list (list frm)) (o n : Z) (r : outcome (bytes * list Block)) : Prop :=
  match from o (concat fss) with
  | [] => r = if NextOffset (active l) <=? o then Fail ErrSegmentNotFound else Ok ([], [])
  | _ => ∃ hd bs, blocks_run l fss o n hd bs ∧ r = Ok (fs_bytes hd, bs)
  end.

Lemma run_blocks l fss o n hd bs :
  from o (concat fss) ≠ [] → blocks_run l fss o n hd bs → read_spec_blocks l fss o n (Ok (fs_bytes hd, bs)).
Proof. intros Hne Hr. unfold read_spec_blocks. destruct (from o _); [done|]. by exists hd, bs. Qed.

(** A raw segment hands out frames only. *)
Lemma raw_blocks l fss o n r :
  read_spec_set l fss o n r → read_spec_blocks l fss o n (head ← r; Ok (head, [])).
Proof.
  unfold read_spec_set. intros Hr. unfold read_spec_blocks. destruct (from o (concat fss)) as [|f y] eqn:E.
  - rewrite Hr. by destruct (_ <=? _).
  - destruct Hr as (p & (q & Epq & Hp & _ & _ & Hin) & ->). exists p, []. split; [|done]. exists [], [], q.
    rewrite Epq. cbn. rewrite app_nil_r. split_and!; try done; [by left|by right; left].
Qed.

Lemma block_layout s fs :
  holds s fs → blockMode s = true →
  ∃ ps gs, fs = concat gs ∧ Segment.describes s ps ∧ stores ps gs ∧ index_holds s gs.
Proof.
  intros (Hl & _ & _ & _ & _ & gs & -> & Hix) Em. unfold log_ok in Hl. rewrite Em in Hl.
  destruct Hl as (ps & Hd & Hdt & _). exists ps, gs. split; [done|]. split; [done|]. split; [|done].
  pose proof Hix as (_ & _ & _ & _ & Hm). rewrite Em in Hm. pose proof Hd as (_ & Hch & _ & Eb & _). rewrite Eb in Hm.
  by eapply SegmentRewrite.stores_of_lens.
Qed.

(** Where a read starts in a segment. *)
Lemma read_place fuel s fs gs o :
  blockMode s = true → holds s fs → fs = concat gs → index_holds s gs → (length fs < fuel)%nat →
  (BaseOffset s ≤ o → from o fs ≠ []) → (o < BaseOffset s → from o fs = fs) →
  ∃ c x, read_start fuel s (BaseOffset s <=? o) o = Some (with_cache s c, Ok (zlen (fs_bytes x))) ∧
    holds (with_cache s c) fs ∧ fs = x ++ from o fs.
Proof.
  intros Hm Hh -> Hix Hfu Hin Hout. destruct (Z.leb_spec (BaseOffset s) o) as [Hc|Hc].
  - destruct (read_start_spec fuel s gs o) as (c & x & y & E & Hh' & Exy & <-); try done; [by apply Hin|]. by exists c, x.
  - exists (cache s), []. replace (with_cache s (cache s)) with s by (by destruct s). split; [done|]. split; [done|].
    by rewrite Hout.
Qed.

Lemma readBlocks_segment fuel l fss a s b o n :
  inv l fss → segments l = a ++ s :: b → Forall (λ s, NextOffset s ≤ o) a → o < NextOffset s → 0 < n →
  Forall (λ fs, (length fs < fuel)%nat) fss →
  ∃ c r, readBlocksFrom fuel s (BaseOffset s <=? o) o n = Some (with_cache s c, r) ∧
    inv (put_segment l (length a) (with_cache s c)) fss ∧ read_spec_blocks l fss o n r.
Proof.
  intros Hi Eseg Hlow Ho Hn Hfuel. unfold readBlocksFrom. destruct (blockMode s) eqn:Em; cbn [negb].
  2: { destruct (read_segment fuel l fss a s b o n Hi Eseg Hlow Ho Hn Hfuel) as (c & r & E & Hi' & Hr).
       rewrite E. eexists c, _. split; [done|]. split; [done|]. by apply raw_blocks. }
  destruct (inv_split l fss a s b Hi Eseg) as (ga & fs & gb & -> & Hlen & Hs & Hga & Hgb & Hemp).
  specialize (Hga o Hlow). specialize (Hgb o Ho). apply Forall_app in Hfuel as [_ [Hfu _]%Forall_cons].
  assert (Hls : segments l !! length a = Some s) by (rewrite Eseg; by apply list_lookup_middle).
  assert (Hlf : (ga ++ fs :: gb) !! length a = Some fs) by (by apply list_lookup_middle).
  pose proof Hs as (Hh & _). destruct (block_layout s fs Hh Em) as (ps & gs & Ef & Hd & Hst & Hix).
  assert (Hput : ∀ c, holds (with_cache s c) fs → inv (put_segment l (length a) (with_cache s c)) (ga ++ fs :: gb))
    by (intros c Hc; by eapply inv_put; [done..|by apply seg_cache|done]).
  destruct (read_place fuel s fs gs o) as (c & x & E & Hh' & Ex); try done.
  { intros Hc. eapply from_reaches; [exact Hs|done|]. intros ->. rewrite (seg_next _ _ _ Hs) in Ho.
    unfold next_of in Ho. cbn in Ho. lia. }
  { intros Hc. apply from_above, Forall_forall. intros f Hf. pose proof (seg_range _ _ _ f Hs Hf). lia. }
  rewrite E. cbn [mbind option_bind]. destruct (decide (from o fs = [])) as [Hnil|Hne].
  - assert (fs = []) as ->.
    { destruct fs as [|f fs]; [done|]. by destruct (from_reaches _ _ _ o Hs Ho ltac:(done)). }
    rewrite Hemp in * by done. assert (gs = []) as ->.
    { destruct gs as [|[|f g] gs]; [done|by destruct Hix as ([? _]%Forall_cons & _)|done]. }
    apply Forall2_nil_inv_r in Hst as ->. symmetry in Ex. apply app_eq_nil in Ex as [-> _].
    unfold read_from. change (zlen (fs_bytes [])) with 0.
    rewrite (CompactSegment.blockTailFrom_all (with_cache s c) [] Hd). eexists c, _. split; [done|]. split; [by apply Hput|].
    unfold read_spec_blocks. rewrite concat_app, from_app, Hga. cbn.
    pose proof (next_active l _ s Hi ltac:(rewrite Eseg; apply elem_of_app; right; by left)).
    by rewrite (proj2 (Z.leb_gt _ _)) by lia.
  - rewrite Ef in Hh', Hfu. destruct (read_from_spec fuel (with_cache s c) ps gs x (from o fs) n) as (hd & i & k & bs & -> & Hans);
      try done; [by rewrite <- Ef|].
    rewrite <- Ef in Hh'. eexists c, _. split; [done|]. split; [by apply Hput|].
    apply (run_blocks l _ o n hd bs); [|by eapply (answer_run l ga fs gb s ps gs x n o hd i k bs); try done; rewrite Eseg;
      apply elem_of_app; right; left].
    rewrite concat_app, from_app, Hga, app_nil_l, concat_cons, from_app. by intros [? _]%app_eq_nil.
Qed.

(** The same segments but for their block caches. *)
Definition recached (l l' : commitLog) : Prop :=
  Forall2 (λ s s', ∃ c, s' = with_cache s c) (segments l) (segments l').

Lemma recached_refl l : recached l l.
Proof. apply Forall2_same_length_lookup_2; [done|]. intros i s s' -> [= <-]. exists (cache s). by destruct s. Qed.

Lemma recached_put l i s c : segments l !! i = Some s → recached l (put_segment l i (with_cache s c)).
Proof.
  intros Hs. unfold recached. rewrite segments_put by (by eapply lookup_lt_Some).
  rewrite <- (list_insert_id (segments l) i s Hs) at 1. apply Forall2_insert; [apply recached_refl|by exists c].
Qed.

Lemma readBlocks_once fuel l fss o n :
  inv l fss → 0 < n → Forall (λ fs, (length fs < fuel)%nat) fss →
  ∃ l' r, readBlocksOnce fuel l o n = Some (l', r) ∧ inv l' fss ∧ same_segments l l' ∧ recached l l' ∧
    read_spec_blocks l fss o n r.
Proof.
  intros Hi Hn Hfuel. unfold readBlocksOnce, findSegmentContains.
  destruct (findSegment_spec (segments l) o (inv_next_sorted l fss Hi) (inv_left l fss Hi))
    as [[Hall ->]|(a & s & b & Eseg & Hlow & Ho & ->)].
  - exists l, (Fail ErrSegmentNotFound). split; [done|]. split; [done|]. split; [done|]. split; [apply recached_refl|].
    unfold read_spec_blocks. pose proof Hi as (Hsg & _). rewrite (frames_below _ _ _ _ Hsg Hall).
    apply Forall_app in Hall as [_ [Ha _]%Forall_cons]. by rewrite (proj2 (Z.leb_le _ _) Ha).
  - destruct (readBlocks_segment fuel l fss a s b o n Hi Eseg Hlow Ho Hn Hfuel) as (c & r & -> & Hi' & Hr).
    assert (Hls : segments l !! length a = Some s) by (rewrite Eseg; by apply list_lookup_middle).
    eexists _, r. split; [done|]. split; [done|]. split; [by apply put_cache|]. split; [by apply recached_put|done].
Qed.

Lemma ReadBlocks_spec fuel l fss o n :
  inv l fss → deleted l = false → shut l = false → 0 < n → Forall (λ fs, (length fs < fuel)%nat) fss →
  ∃ l' r, ReadBlocks fuel l o n = Some (l', r) ∧ inv l' fss ∧ same_segments l l' ∧ recached l l' ∧
    read_spec_blocks l fss o n r.
Proof.
  intros Hi Hde Hsh Hn Hfuel.
  destruct (readBlocks_once fuel l fss o n Hi Hn Hfuel) as (l' & r & E & Hi' & Hsame & Hre & Hr).
  exists l', r. split; [|done]. unfold ReadBlocks. rewrite (proj2 (Z.leb_gt _ _)) by lia.
  cbn [readerResolveAttempts readResolving]. rewrite E. destruct r as [r|e|]; [done| |done].
  destruct Hsame as ((_ & _ & _ & _ & Ed & Es & _) & _). unfold IsDeleted, IsClosed. rewrite Ed, Es, Hde, Hsh.
  unfold read_spec_blocks in Hr. destruct (from _ _); [|by destruct Hr as (? & ? & _ & ?)].
  destruct (_ <=? _); [by injection Hr as ->|done].
Qed.

(** C13: a read of blocks hands out the log's records from the first one at or
    behind the offset asked for, without a gap: the rest of the block that record
    lies in as frames, if it is not its first, and whole blocks behind it, byte
    for byte as they are stored, each with the offset of its first record, its
    logical length and record count; what is handed out is within the budget, or
    one unit.  Reading on behind the last offset of any of the blocks misses no
    record and repeats none.  Past the newest record it is [ErrSegmentNotFound],
    and the log is left as it was. *)
Theorem read_blocks_exact fuel l fss o n :
  inv l fss → deleted l = false → shut l = false → 0 < n → Forall (λ fs, (length fs < fuel)%nat) fss →
  ∃ l' r, ReadBlocks fuel l o n = Some (l', r) ∧ inv l' fss ∧ same_segments l l' ∧ read_spec_blocks l fss o n r.
Proof.
  intros Hi Hde Hsh Hn Hfuel. destruct (ReadBlocks_spec fuel l fss o n Hi Hde Hsh Hn Hfuel) as (l' & r & ? & ? & ? & _ & ?).
  by exists l', r.
Qed.

End log_reads.

(** ** A follower that copies blocks *)

Section copying.
Context `{CodecLaws}.

Fixpoint append_all (fuel : nat) (t : Z) (l : commitLog) (bs : list Block) : option (commitLog * outcome ()) :=
  match bs with
  | [] => Some (l, Ok ())
  | b :: bs =>
      match AppendBlock fuel (calm t) l b with
      | Some (l, Ok _) => append_all fuel t l bs
      | Some (l, Fail e) => Some (l, Fail e)
      | Some (l, Panic) => Some (l, Panic)
      | None => None
      end
  end.

(** A follower's turn: it asks for the blocks behind its newest record, appends
    the frames it is given, and then the blocks. *)
Definition copy_blocks (fuel : nat) (t n : Z) (leader follower : commitLog) : option (commitLog * commitLog * outcome ()) :=
  match ReadBlocks fuel leader (NewestOffset follower + 1) n with
  | Some (leader, Ok (head, bs)) =>
      match (if zlen head =? 0 then Some (follower, Ok []) else AppendMessageSet 1 (calm t) follower head) with
      | Some (follower, Ok _) => (λ '(follower, r), (leader, follower, r)) <$> append_all 1 t follower bs
      | Some (follower, Fail e) => Some (leader, follower, Fail e)
      | Some (follower, Panic) => Some (leader, follower, Panic)
      | None => None
      end
  | Some (leader, Fail e) => Some (leader, follower, Fail e)
  | Some (leader, Panic) => Some (leader, follower, Panic)
  | None => None
  end.

(** Turns that all succeed. *)
Fixpoint copies (k : nat) (fuel : nat) (t n : Z) (leader follower : commitLog) : option (commitLog * commitLog) :=
  match k with
  | O => Some (leader, follower)
  | S k =>
      match copy_blocks fuel t n leader follower with
      | Some (leader, follower, Ok _) => copies k fuel t n leader follower
      | _ => None
      end
  end.

(** The blocks of a segment count their records and are ones to append. *)
Definition sendable (s : segment) : Prop :=
  ∀ ps gs, Segment.describes s ps → stores ps gs → frames_ok (BaseOffset s) (concat gs) → Forall2 block_for ps gs.

(** A follower that has room for the records [b] of a leader's segments [lss]. *)
Definition can_copy (flw : commitLog) (lss : list (list frm)) (b : list frm) : Prop :=
  Forall (λ fs, MaxSegmentBytes (opts flw) + zlen (fs_bytes fs) ≤ 2 ^ 31) lss ∧
  Forall (λ f, f_off f - BaseOffset (active flw) < 2 ^ 31 ∧ f_off f + 1 < 2 ^ 63) b.

(** The follower holds the records [W] up to [b], and can take those. *)
Definition ready (flw : commitLog) (fss : list (list frm)) (W b : list frm) : Prop :=
  inv flw fss ∧ W = concat fss ++ b ∧ ascending b ∧
  Forall (λ f, NewestOffset flw < f_off f ∧ f_off f - BaseOffset (active flw) < 2 ^ 31 ∧ f_off f + 1 < 2 ^ 63 ∧
    in_sint 64 (f_ts f) ∧ in_uint 64 (f_ep f) ∧ 0 < zlen (f_data f)) b.

Lemma ready_step flw fss W p q :
  ready flw fss W (p ++ q) → p ≠ [] → MaxSegmentBytes (opts flw) + zlen (fs_bytes p) ≤ 2 ^ 31 →
  (fits_log flw p ∧ ascending p ∧ Forall (λ f, NewestOffset flw < f_off f) p) ∧
  ∀ flw', appended flw fss p flw' → ∃ fss', ready flw' fss' W q ∧ opts flw' = opts flw.
Proof.
  intros (Hi & EW & Ha & Hf) Hne Hz. destruct (newest_ok flw fss Hi) as (Hrg & EN & _).
  apply StronglySorted_app in Ha as (Hpq & Hap & Haq). apply Forall_app in Hf as [Hfp Hfq]. split; [split; [|split; [done|]]|].
  - split; [done|]. split; [|done]. eapply Forall_impl; [exact Hfp|]. cbn. intros f (? & ? & ? & ? & ? & ?).
    split_and!; (done || lia).
  - eapply Forall_impl; [exact Hfp|]. by intros f (? & _).
  - intros flw' (fss' & Hi' & [Ec _] & (_ & _ & Eo & _) & HB & HN). exists fss'. split; [|done].
    destruct (newest_ok flw' fss' Hi') as (_ & EN' & _). split; [done|]. split; [by rewrite Ec, <- app_assoc|]. split; [done|].
    apply Forall_forall. intros g Hg. pose proof (proj1 (Forall_forall _ _) Hfq g Hg) as (? & ? & ? & ? & ? & ?).
    split_and!; try done; [|lia]. rewrite EN', HN. unfold next_of.
    destruct (last p) as [x|] eqn:El; [|by apply last_None in El]. apply last_Some_elem_of in El.
    pose proof (Hpq x g El Hg) as Hx. cbv beta in Hx. lia.
Qed.

Lemma append_all_ok t flw fss W bs ps gs q :
  Forall2 block_for ps gs → full gs → b_Data <$> bs = p_raw <$> ps → ready flw fss W (concat gs ++ q) →
  Forall (λ g, MaxSegmentBytes (opts flw) + zlen (fs_bytes g) ≤ 2 ^ 31) gs →
  ∃ flw' fss', append_all 1 t flw bs = Some (flw', Ok ()) ∧ ready flw' fss' W q ∧ opts flw' = opts flw.
Proof.
  intros Hb. revert flw fss bs. induction Hb as [|p g ps gs Hp _ IH]; intros flw fss bs Hg Eb Hr Hz.
  { apply fmap_nil_inv in Eb as ->. by exists flw, fss. }
  destruct bs as [|b bs]; [done|]. injection Eb as Eb Ebs. apply Forall_cons in Hg as [Hg Hgs].
  apply Forall_cons in Hz as [Hz Hzs]. rewrite concat_cons, <- app_assoc in Hr.
  destruct (ready_step flw fss W g _ Hr Hg Hz) as [(Hfit & Ha & Hab) Hnext]. pose proof Hr as (Hi & _).
  destruct (AppendBlock_frames 1 t flw fss b p g Hi ltac:(lia) Eb Hp Hfit Ha Hab) as (flw1 & E & Hap).
  destruct (Hnext flw1 Hap) as (fss1 & Hr1 & Eo). rewrite <- Eo in Hzs.
  destruct (IH flw1 fss1 bs Hgs Ebs Hr1 Hzs) as (flw' & fss' & E' & Hr' & Eo').
  exists flw', fss'. cbn [append_all]. rewrite E. split; [done|]. split; [done|]. congruence.
Qed.

Lemma lie_in_sent l ps gs :
  lie_in l ps gs → Forall sendable (segments l) → Forall2 block_for ps gs ∧ full gs.
Proof.
  intros [[-> ->]|(s & pss & gss & i & k & Hin & Hd & Hst & Hg & Hok & -> & ->)] Hs; [by split; constructor|].
  pose proof (proj1 (Forall_forall _ _) Hs s Hin pss gss Hd Hst Hok) as Hb.
  split; [by apply Forall2_take, Forall2_drop|by apply Forall_take, Forall_drop].
Qed.

Lemma recached_sendable l l' : recached l l' → Forall sendable (segments l) → Forall sendable (segments l').
Proof.
  unfold recached. intros Hr. induction Hr as [|s s' ss ss' [c ->] _ IH]; intros Hs; [constructor|].
  apply Forall_cons in Hs as [Hs Hss]. constructor; [exact Hs|by apply IH].
Qed.

Lemma sublist_bytes a b : a `sublist_of` b → zlen (fs_bytes a) ≤ zlen (fs_bytes b).
Proof. induction 1; rewrite ?fs_bytes_cons, ?zlen_app; pose_zlen; lia. Qed.

Lemma group_sublist {A} (gs : list (list A)) g : g ∈ gs → g `sublist_of` concat gs.
Proof.
  intros (a & b & ->)%list_elem_of_split. rewrite concat_app, concat_cons.
  by apply sublist_inserts_l, sublist_inserts_r.
Qed.

(** One turn. *)
Lemma copy_ok fuel t n ldr flw lss fss b :
  inv ldr lss → ready flw fss (concat lss) b → b ≠ [] → deleted ldr = false → shut ldr = false → 0 < n →
  Forall (λ fs, (length fs < fuel)%nat) lss → Forall sendable (segments ldr) →
  Forall (λ fs, MaxSegmentBytes (opts flw) + zlen (fs_bytes fs) ≤ 2 ^ 31) lss →
  ∃ ldr' flw' fss' p q, copy_blocks fuel t n ldr flw = Some (ldr', flw', Ok ()) ∧ b = p ++ q ∧ p ≠ [] ∧
    inv ldr' lss ∧ ready flw' fss' (concat lss) q ∧ Forall sendable (segments ldr') ∧
    deleted ldr' = false ∧ shut ldr' = false ∧ opts flw' = opts flw.
Proof.
  intros Hil Hr Hne Hde Hsh Hn Hfuel Hs Hz. pose proof Hr as (Hif & EW & _ & Hab).
  destruct (newest_ok flw fss Hif) as (_ & EN & _).
  assert (Hfr : from (NewestOffset flw + 1) (concat lss) = b).
  { rewrite EW, from_app, from_below, from_above; [done| |].
    - eapply Forall_impl; [exact Hab|]. cbn. intros f (? & _). lia.
    - apply Forall_forall. intros f Hf. apply (inv_all_frames flw fss f Hif) in Hf. lia. }
  destruct (ReadBlocks_spec fuel ldr lss (NewestOffset flw + 1) n Hil Hde Hsh Hn Hfuel) as (ldr' & r & E & Hil' & Hsame & Hre & Hrd).
  destruct Hsame as ((_ & _ & _ & _ & Ed & Es & _) & _). unfold read_spec_blocks in Hrd. rewrite Hfr in Hrd.
  destruct b as [|f0 b0]; [done|]. set (b := f0 :: b0) in *.
  destruct Hrd as (hd & bs & (ps & gs & q & Hlie & Eq & Hun & Edat & _ & _ & _ & _ & _ & fs & Hin & Hsub) & ->).
  rewrite Hfr in Eq. destruct (lie_in_sent _ _ _ Hlie Hs) as [Hb Hg].
  assert (Hsz : ∀ x, x `sublist_of` hd ++ concat gs → MaxSegmentBytes (opts flw) + zlen (fs_bytes x) ≤ 2 ^ 31).
  { intros x Hx. pose proof (sublist_bytes x fs ltac:(by etrans)).
    pose proof (proj1 (Forall_forall _ _) Hz fs Hin) as Hzf. cbv beta in Hzf. lia. }
  rewrite Eq in Hr.
  assert (Hhead : ∃ flw1 fss1 r1, (if zlen (fs_bytes hd) =? 0 then Some (flw, Ok []) else AppendMessageSet 1 (calm t) flw (fs_bytes hd)) =
    Some (flw1, Ok r1) ∧ ready flw1 fss1 (concat lss) (concat gs ++ q) ∧ opts flw1 = opts flw).
  { destruct hd as [|fh hd]; [by exists flw, fss, []|]. pose proof (fs_bytes_pos (fh :: hd) ltac:(done)).
    rewrite (proj2 (Z.eqb_neq _ _)) by lia.
    destruct (ready_step flw fss _ (fh :: hd) _ Hr) as [(Hfit & Ha & Hlow) Hnext]; [done|by apply Hsz, sublist_inserts_r|].
    destruct (AppendMessageSet_frames 1 t flw fss _ Hif ltac:(lia) Hfit Ha Hlow) as (flw1 & -> & Hap).
    destruct (Hnext flw1 Hap) as (fss1 & ? & ?). by exists flw1, fss1, (f_off <$> fh :: hd). }
  destruct Hhead as (flw1 & fss1 & r1 & E1 & Hr1 & Eo1).
  destruct (append_all_ok t flw1 fss1 (concat lss) bs ps gs q Hb Hg Edat Hr1) as (flw' & fss' & E2 & Hr' & Eo2).
  { rewrite Eo1. apply Forall_forall. intros g Hgi. by apply Hsz, sublist_inserts_l, group_sublist. }
  exists ldr', flw', fss', (hd ++ concat gs), q. unfold copy_blocks. rewrite E, E1, E2. split_and!; try done; try congruence.
  - by rewrite <- app_assoc.
  - by eapply recached_sendable.
Qed.

(** *** What a log writes can be sent *)

Lemma piece_inj p p' : piece_ok p → piece_ok p' → p_ref p = p_ref p' → p_raw p = p_raw p' → p = p'.
Proof.
  destruct p as [raw r d], p' as [raw' r' d']. cbn. intros (_ & Hl & _ & Hv) (_ & Hl' & _ & Hv') <- <-. cbn [p_ref p_raw p_data] in *. f_equal.
  destruct Hv as [(Ev & _ & _ & _ & _ & _ & pl & _ & Er & Hd)|(Ev & _ & _ & _ & _ & _ & _ & _ & _ & Hd)],
    Hv' as [(Ev' & _ & _ & _ & _ & _ & pl' & _ & Er' & Hd')|(Ev' & _ & _ & _ & _ & _ & _ & _ & _ & Hd')];
    cbn [p_ref p_raw p_data] in *;
    try congruence; try (by rewrite Ev in Ev').
  rewrite Er in Er'. apply app_inj_1 in Er' as [_ ->]; [congruence|].
  apply Nat2Z.inj. change (zlen (encodeBlockHeader (Block.codec r) (zlen d) (zlen pl) (records r)) =
    zlen (encodeBlockHeader (Block.codec r) (zlen d') (zlen pl') (records r))). by rewrite !zlen_encodeBlockHeader.
Qed.

(** The file and the block table determine the blocks. *)
Lemma chain_inj l q ps ps' : chain l q ps → chain l q ps' → refs ps = refs ps' → raws ps = raws ps' → ps = ps'.
Proof.
  revert l q ps'. induction ps as [|p ps IH]; intros l q [|p' ps'] Hc Hc' Er Ew; try done.
  injection Er as Er Ers. destruct Hc as (Hp & _ & _ & Hc), Hc' as (Hp' & _ & _ & Hc').
  unfold raws in Ew. cbn [fmap list_fmap concat] in Ew. pose proof Hp as (Hpl & _). pose proof Hp' as (Hpl' & _).
  apply app_inj_1 in Ew as [Ew Ews]; [|rewrite Er in Hpl; unfold zlen in *; lia].
  assert (p = p') as <- by (by apply piece_inj). f_equal. by eapply IH.
Qed.

Lemma describes_inj s ps ps' : Segment.describes s ps → Segment.describes s ps' → ps = ps'.
Proof. intros (_ & Hc & Eb & Er & _) (_ & Hc' & Eb' & Er' & _). eapply chain_inj; [done..| |]; congruence. Qed.

(** Frames are told by their bytes. *)
Lemma same_count base g new :
  Forall (frm_ok base) g → Forall (λ f, 0 < zlen (f_data f)) g →
  Forall (frm_ok base) new → Forall (λ f, 0 < zlen (f_data f)) new → fs_bytes g = fs_bytes new → zlen g = zlen new.
Proof.
  intros Hg Hdg Hn Hdn E. pose proof (set_entries 0 g (frm_framed _ _ Hg) Hdg) as E1.
  pose proof (set_entries 0 new (frm_framed _ _ Hn) Hdn) as E2. rewrite E, E2 in E1. injection E1 as E1.
  apply (f_equal length) in E1. rewrite !length_entries_at in E1. unfold zlen. by rewrite E1.
Qed.

(** The block a write appends. *)
Lemma written_piece s ps new :
  Segment.describes s ps → closed s = false → codec_ok s → new ≠ [] →
  0 < zlen (fs_bytes new) < 2 ^ 32 → zlen (entries_at 0 new) < 2 ^ 32 →
  ∃ p, Segment.describes (WriteMessageSet None Index.no_faults s (fs_bytes new) (entries_at (position s) new)).1 (ps ++ [p]) ∧
    piece_ok p ∧ p_data p = fs_bytes new ∧ records (p_ref p) = zlen new ∧ version (p_ref p) = BlockFormatVersion.
Proof.
  intros Hd Hcl Hcd Hne Hz Hes. pose proof Hd as (Em & _ & Hbk & _).
  assert (Hzl : zlen (entries_at (position s) new) = zlen new) by (unfold zlen; by rewrite length_entries_at).
  assert (Hze : 0 < zlen new < 2 ^ 32).
  { split; [|unfold zlen in *; by rewrite length_entries_at in Hes]. destruct new; [done|]. rewrite zlen_cons. pose_zlen. lia. }
  destruct (head new) as [f0|] eqn:H0; [|by destruct new]. destruct (last new) as [fl|] eqn:Hla; [|by apply last_None in Hla].
  destruct (last_entries_at (position s) new fl Hla) as [q' Hlq].
  unfold WriteMessageSet, write. rewrite Hcl, Hzl, (proj2 (Z.eqb_neq _ _)) by lia. cbv zeta. cbn [with_dirty blockMode]. rewrite Em.
  unfold appendBlock. destruct (block_of (codec _) (fs_bytes new) (zlen new)) as [cc buf] eqn:Eb.
  unfold appendBlockBytes, file_write. cbn [with_dirty backing position physPosition blocks].
  erewrite noteWritten_eq; [|by rewrite head_entries_at, H0|exact Hlq].
  set (b := {| logicalStart := position s; logicalLen := zlen (fs_bytes new); physStart := physPosition s;
    physLen := zlen buf; Block.codec := cc; records := zlen new; version := BlockFormatVersion; flags := 0 |}).
  set (p0 := {| p_raw := buf; p_ref := b; p_data := fs_bytes new |}).
  assert (Hp0 : piece_ok p0) by (eapply block_of_ok; [apply Hcd..|exact Eb|lia|lia]).
  pose proof (describes_append s ps p0 (backing s ++ buf) Hd Hp0 eq_refl eq_refl) as Hd'.
  exists p0. split; [|done]. rewrite Hbk in *. unfold index_write. destruct (Index.writeEntries _ _ _). cbn [fst]. by apply Hd'.
Qed.

(** A segment that is written frames stays one whose blocks can be sent. *)
Lemma write_sendable s fs new :
  holds s fs → codec_ok s → new ≠ [] → frames_ok (BaseOffset s) (fs ++ new) → sendable s →
  sendable (WriteMessageSet None Index.no_faults s (fs_bytes new) (entries_at (position s) new)).1.
Proof.
  intros Hh Hcd Hne Hok Hs. pose proof Hh as (Hl & Hcl & _).
  destruct (holds_append s fs new Hh Hcd Hne Hok) as (s' & E & Hh' & (HB & _ & _ & Hm & _) & _). rewrite E. cbn [fst].
  intros ps' gs' Hd' Hst Hfr. rewrite HB in Hfr.
  assert (Em : blockMode s = true) by (rewrite <- Hm; apply Hd'). unfold log_ok in Hl. rewrite Em in Hl.
  destruct Hl as (ps & Hd & _). destruct (written_piece s ps new Hd Hcl Hcd Hne) as (p & Hd1 & Hp & Ed & Er & Ev);
    [by destruct (new_sizes _ _ _ Hne Hok)..|].
  rewrite E in Hd1. cbn [fst] in Hd1. rewrite (describes_inj _ _ _ Hd' Hd1) in Hst |- *.
  apply Forall2_app_inv_l in Hst as (g1 & g2 & Hst1 & Hst2 & ->).
  apply Forall2_cons_inv_l in Hst2 as (g & ? & Eg & Hnil & ->). apply Forall2_nil_inv_l in Hnil as ->.
  rewrite concat_app in Hfr. cbn in Hfr. rewrite app_nil_r in Hfr. apply Forall2_app.
  { apply Hs; [done..|]. by eapply LogTruncate.frames_ok_prefix. }
  constructor; [|done]. split; [done|]. split; [done|]. split; [|by rewrite Ev].
  rewrite Er. destruct Hfr as (_ & Hf & Hdt & _), Hok as (_ & Hf' & Hdt' & _).
  apply Forall_app in Hf as [_ Hf], Hdt as [_ Hdt], Hf' as [_ Hf'], Hdt' as [_ Hdt'].
  symmetry. eapply same_count; try done. congruence.
Qed.

(** C12: replication by blocks.  A follower that starts with the leader's first
    records and keeps asking for the blocks behind its newest record, appending
    what it is given, ends up with the leader's log, frame for frame: every turn
    succeeds and makes progress, so no more turns are needed than records are
    missing, whatever codec and block format each log writes itself. *)
Theorem block_replication_converges fuel t n ldr flw lss fss b :
  behind_by ldr flw lss fss b → deleted ldr = false → shut ldr = false → 0 < n →
  Forall (λ fs, (length fs < fuel)%nat) lss → Forall sendable (segments ldr) → can_copy flw lss b →
  ∃ k ldr' flw' fss', (k ≤ length b)%nat ∧ copies k fuel t n ldr flw = Some (ldr', flw') ∧
    inv ldr' lss ∧ inv flw' fss' ∧ concat fss' = concat lss.
Proof.
  intros (Hil & Hif & Ec & Hab) Hde Hsh Hn Hfuel Hs [Hz Hc].
  assert (Hr : ready flw fss (concat lss) b).
  { split; [done|]. split; [done|]. pose proof (inv_ascending ldr lss Hil) as Ha. rewrite Ec in Ha.
    apply StronglySorted_app in Ha as (_ & _ & Ha). split; [done|]. apply Forall_forall. intros f Hf.
    destruct (inv_all_frames ldr lss f Hil) as (? & ? & ? & ?); [rewrite Ec; apply elem_of_app; by right|].
    pose proof (proj1 (Forall_forall _ _) Hab f Hf) as Hn1. pose proof (proj1 (Forall_forall _ _) Hc f Hf) as [Hc1 Hc2]. done. }
  clear Hif Ec Hab Hc. remember (length b) as m eqn:Em. revert ldr flw fss b Em Hil Hde Hsh Hs Hz Hr.
  induction m as [m IH] using lt_wf_ind. intros ldr flw fss b Em Hil Hde Hsh Hs Hz Hr.
  destruct (decide (b = [])) as [->|Hne].
  { exists 0%nat, ldr, flw, fss. destruct Hr as (? & Ec & _). rewrite app_nil_r in Ec. split_and!; (done || lia). }
  destruct (copy_ok fuel t n ldr flw lss fss b) as (ldr1 & flw1 & fss1 & p & q & E & -> & Hp & Hi1 & Hr1 & Hs1 & Hd1 & Hc1 & Eo);
    try done.
  assert (Hlt : (length q < m)%nat) by (rewrite Em, length_app; destruct p; [done|]; simpl; lia).
  destruct (IH (length q) Hlt ldr1 flw1 fss1 q) as (k & ldr' & flw' & fss' & Hk & Et & Hrest); try done; [by rewrite Eo|].
  exists (S k), ldr', flw', fss'. split; [lia|]. split; [|done]. cbn [copies]. by rewrite E.
Qed.

End copying.

(** ** Examples *)

Lemma aged_sendable : Forall (@sendable half_lib) (segments aged_log).
Proof.
  apply Forall_cons. split; [|by apply Forall_nil].
  apply (@write_sendable half_lib half_laws empty_sample [] sample_frames); [apply empty_sample_holds|by split|done|apply sample_frames_ok|].
  intros ps gs (_ & _ & _ & Er & _) Hst _. symmetry in Er. apply fmap_nil_inv in Er as ->.
  apply Forall2_nil_inv_l in Hst as ->. constructor.
Qed.

(** A read inside a block. *)
Lemma read_blocks_exact_witness :
  ∃ l' hd bs, @ReadBlocks half_lib 9 aged_log 4101 1000 = Some (l', Ok (fs_bytes hd, bs)) ∧
    @blocks_run half_lib aged_log [sample_frames] 4101 1000 hd bs.
Proof.
  destruct (@read_blocks_exact half_lib 9 aged_log [sample_frames] 4101 1000) as (l' & r & E & _ & _ & Hr).
  - apply aged_log_inv.
  - reflexivity.
  - reflexivity.
  - lia.
  - apply sample_lengths.
  - destruct Hr as (hd & bs & Hb & ->). exists l', hd, bs. split; [exact E|exact Hb].
Defined.

Lemma block_replication_converges_witness :
  ∃ k l f fss, @copies half_lib k 9 5 100 aged_log (sample_log 3) = Some (l, f) ∧
    @inv half_lib f fss ∧ concat fss = sample_frames.
Proof.
  destruct (@block_replication_converges half_lib half_laws 9 5 100 aged_log (sample_log 3) [sample_frames] [[]]
    sample_frames) as (k & l & f & fss & _ & E & _ & Hi & Ec).
  - split; [apply aged_log_inv|]. split; [apply sample_log_inv|]. split; [reflexivity|].
    repeat (apply Forall_cons; split); [..|by apply Forall_nil]; by vm_compute.
  - reflexivity.
  - reflexivity.
  - lia.
  - apply sample_lengths.
  - apply aged_sendable.
  - split; [apply Forall_cons; split; [by vm_compute|by apply Forall_nil]|].
    repeat (apply Forall_cons; split); [..|by apply Forall_nil]; split_and!; by vm_compute.
  - exists k, l, f, fss. split; [exact E|]. split; [exact Hi|exact Ec].
Defined.

End BlockCopy.
