(* ===== verification/CompactLog.v ===== *)
(** * A compaction pass: compact_cleaner.go and clean.go

    A pass loads or rebuilds the key digests, merges them, decides for each
    sealed segment whether to keep it, skip it or rewrite it, and rewrites those
    it wants in the order that spends its budget best: the densest first, those
    that remove a record governing older ones last.  It may stop anywhere, when
    its budget is spent or a rewrite fails, and returns the list the log holds
    then together with a floor below which nothing is left to strip.

    Segments are local, so there is one budget.  Digest files are the map
    [keyFiles] from base offsets to bytes. *)

From Stdlib Require Import ZArith Lia.
From stdpp Require Import base list numbers strings gmap sorting.
From coqutil Require Import Byte.
From S2P Require Import Prelude GoStd Wire Compress BlockV3 Block Framing EpochCache Index Segment.
From S2P Require Import SegmentIndex SegmentSearch SegmentReopen Log SegmentRewrite.
From S2P Require Import LogTruncate KeyDigest Compaction CompactRecord CompactSegment.

Open Scope Z_scope.

Module CompactLog.
Import Segment SegmentIndex SegmentSearch SegmentReopen Log SegmentRewrite KeyDigest Compaction.
Import CompactRecord CompactSegment.

Abbreviation keyFiles := (gmap Z bytes).

(** The file of a base offset after an operation left [f] there. *)
Definition set_file (b : Z) (f : option bytes) (ks : keyFiles) : keyFiles :=
  match f with Some x => <[b := x]> ks | None => delete b ks end.

(** ** The budget *)

(** Whether there is a deadline; the clock answers when asked. *)
Record rewriteBudget := { b_max : Z; b_deadline : bool; b_spent : Z }.

Definition newRewriteBudget (max d : Z) : rewriteBudget :=
  {| b_max := max; b_deadline := 0 <? d; b_spent := 0 |}.

(** [after]: whether the deadline has passed at this call. *)
Definition allow (after : bool) (b : rewriteBudget) : bool :=
  if (0 <? b_max b) && (b_max b <=? b_spent b) then false
  else negb (b_deadline b) || (b_spent b =? 0) || negb after.

Definition note_rewrite (b : rewriteBudget) : rewriteBudget :=
  {| b_max := b_max b; b_deadline := b_deadline b; b_spent := b_spent b + 1 |}.

(** ** Sorting *)

(** [sort.SliceStable]. *)
Fixpoint insert_stable {A} (less : A → A → bool) (x : A) (l : list A) : list A :=
  match l with
  | [] => [x]
  | y :: l => if less y x then y :: insert_stable less x l else x :: y :: l
  end.

Definition SliceStable {A} (less : A → A → bool) (l : list A) : list A := foldr (insert_stable less) [] l.

(** ** What the environment does during a pass *)

(** Whether writing the digest of the [j]th segment fails, the clock of the
    merge and of the age limit, whether the deadline has passed at the [k]th
    question, and the faults of the rewrite of segment [i]. *)
Record pass_io := {
  ps_digest : nat → bool;
  ps_now : Z;
  ps_horizon : Z;
  ps_after : nat → bool;
  ps_clean : nat → clean_io;
  ps_ranges : ranges;
}.

Inductive segDisposition := keepProtected | keepConverged | wantRewrite.

#[export] Instance segDisposition_eq_dec : EqDecision segDisposition.
Proof. solve_decision. Defined.

Section codecs.
Context `{CodecLib}.

(** ** Digests *)

(** One segment of [loadOrBuildDigests]: its digest and the file beside it. *)
Definition load_or_build (fuel : nat) (fails sld : bool) (s : segment) (file : option bytes)
    : option (outcome keyDigest * option bytes) :=
  let build :=
    match buildKeyDigest fuel s with
    | None => None
    | Some (Ok d) =>
        if negb sld || fails then Some (Ok d, file)
        else
          let file := Some (encodeKeyDigest d) in
          Some (ld ← loadKeyDigest (BaseOffset s) (position s) file; Ok (default d ld), file)
    | Some r => Some (r, file)
    end in
  if sld then
    match loadKeyDigest (BaseOffset s) (position s) file with
    | Ok (Some d) => Some (Ok d, file)
    | Ok None => build
    | Fail e => Some (Fail e, file)
    | Panic => Some (Panic, file)
    end
  else build.

(** The digests of the segments from the [j]th on.  Every build runs; the first
    error is returned. *)
Fixpoint load_digests (fuel : nat) (io : pass_io) (j : nat) (ss : list segment) (ks : keyFiles)
    : option (outcome (list keyDigest) * keyFiles) :=
  match ss with
  | [] => Some (Ok [], ks)
  | s :: ss =>
      let sld := match ss with [] => false | _ => true end in
      '(d, file) ← load_or_build fuel (ps_digest io j) sld s (ks !! BaseOffset s);
      '(ds, ks) ← load_digests fuel io (S j) ss (set_file (BaseOffset s) file ks);
      Some (d ← d; ds ← ds; Ok (d :: ds), ks)
  end.

Definition loadOrBuildDigests (fuel : nat) (io : pass_io) (ss : list segment) (ks : keyFiles) :=
  load_digests fuel io 0 ss ks.

(** ** The plan *)

Definition bounds_of (ss : list segment) : list (Z * Z) := (λ s, (BaseOffset s, NextOffset s)) <$> ss.

(** A strip-only pass takes nothing for its key. *)
Definition strip_only (spec : CleanSpec) (m : mergeResult) : mergeResult :=
  if stripOnly spec
  then {| drops := (λ _, None) <$> drops m; abortedKeyed := abortedKeyed m; stripKeyed := stripKeyed m;
          gcSegs := (λ _, false) <$> gcSegs m |}
  else m.

Definition dispose (spec : CleanSpec) (horizon : Z) (m : mergeResult) (i : nat) (s : segment) (d : keyDigest)
    : segDisposition :=
  if (0 <? horizon) && (horizon <? lastWriteTime s) then keepProtected
  else if canSkip spec d m i && negb (needsBlockConsolidation s) then keepConverged
  else wantRewrite.

Definition dropCount (m : mergeResult) (i : nat) : Z :=
  match drops m !! i with Some (Some s) => ds_count s | _ => 0 end.

Definition lateRewrite (spec : CleanSpec) (m : mergeResult) (ds : list keyDigest) (i : nat) : bool :=
  if default false (gcSegs m !! i) then true
  else if negb (stripActive spec) then false
  else existsb (λ off, off <? StripBelow spec) (default [] (control <$> ds !! i)).

Definition rewrite_order (spec : CleanSpec) (m : mergeResult) (ds : list keyDigest) (disp : list segDisposition)
    : list nat :=
  let late i := lateRewrite spec m ds i in
  SliceStable (λ a b,
    if negb (Bool.eqb (late a) (late b)) then negb (late a)
    else if late a then (a <? b)%nat
    else dropCount m b <? dropCount m a)
    (filter (λ i, disp !! i = Some wantRewrite) (seq 0 (length disp))).

(** ** The rewrites *)

(** The pass so far: questions put to the clock, budget, whether a segment was
    skipped, the sources, what stands for those rewritten, the digest files,
    the log files that went, the records removed, and the next segment name. *)
Record progress := {
  pg_asked : nat;
  pg_budget : rewriteBudget;
  pg_skipped : bool;
  pg_sources : list segment;
  pg_done : list (option (option segment));
  pg_keys : keyFiles;
  pg_gone : gset Z;
  pg_removed : Z;
  pg_id : Z;
}.

Definition asked (n : nat) (p : progress) : progress :=
  {| pg_asked := (pg_asked p + n)%nat; pg_budget := pg_budget p; pg_skipped := pg_skipped p; pg_sources := pg_sources p;
     pg_done := pg_done p; pg_keys := pg_keys p; pg_gone := pg_gone p; pg_removed := pg_removed p; pg_id := pg_id p |}.

Definition skip (p : progress) : progress :=
  {| pg_asked := pg_asked p; pg_budget := pg_budget p; pg_skipped := true; pg_sources := pg_sources p;
     pg_done := pg_done p; pg_keys := pg_keys p; pg_gone := pg_gone p; pg_removed := pg_removed p; pg_id := pg_id p |}.

(** The rewrite of segment [i] done. *)
Definition noted (p : progress) (i : nat) (b : Z) (r : rewrite) : progress :=
  {| pg_asked := pg_asked p;
     pg_budget := match rw_result r with Ok _ => note_rewrite (pg_budget p) | _ => pg_budget p end;
     pg_skipped := pg_skipped p;
     pg_sources := <[i := rw_source r]> (pg_sources p);
     pg_done := match rw_result r with Ok y => <[i := Some y]> (pg_done p) | _ => pg_done p end;
     pg_keys := set_file b (rw_digest r) (pg_keys p);
     pg_gone := pg_gone p ∪ rw_gone r;
     pg_removed := match rw_result r with Ok _ => pg_removed p + rw_removed r | _ => pg_removed p end;
     pg_id := pg_id p + 1 |}.

(** One segment of the rewrite loop: it goes on, or it ends, with an error or
    without. *)
Definition rewrite_step (fuel : nat) (io : pass_io) (spec : CleanSpec) (m : mergeResult) (late : bool) (i : nat)
    (p : progress) : option (progress + (progress * outcome ())) :=
  let ask k := allow (ps_after io (pg_asked p + k)) (pg_budget p) in
  if late && (pg_skipped p || negb (ask O)) then Some (inr (asked (if pg_skipped p then 0 else 1) p, Ok ()))
  else
    let k := if late then 1%nat else O in
    if negb (ask k) then Some (inl (skip (asked (S k) p)))
    else
      match pg_sources p !! i with
      | None => Some (inr (p, Panic))
      | Some s =>
          r ← cleanSegment fuel (ps_clean io i) (ps_ranges io) (pg_id p) spec s (default None (drops m !! i))
                (pg_keys p !! BaseOffset s);
          let p := noted (asked (S k) p) i (BaseOffset s) r in
          Some (match rw_result r with
                | Ok _ => inl p
                | Fail e => inr (p, Fail e)
                | Panic => inr (p, Panic)
                end)
      end.

Fixpoint rewrite_loop (fuel : nat) (io : pass_io) (spec : CleanSpec) (m : mergeResult) (late : nat → bool)
    (order : list nat) (p : progress) : option (progress * outcome ()) :=
  match order with
  | [] => Some (p, Ok ())
  | i :: order =>
      r ← rewrite_step fuel io spec m (late i) i p;
      match r with
      | inl p => rewrite_loop fuel io spec m late order p
      | inr r => Some r
      end
  end.

(** ** The result *)

(** The segment list and the verified floor, in offset order. *)
Fixpoint assemble (disp : list segDisposition) (sources : list segment) (done_ : list (option (option segment)))
    (chain : bool) (verified : Z) : list segment * Z :=
  match disp, sources, done_ with
  | dp :: disp, s :: sources, dn :: done_ =>
      let segEnd := sint 64 (NextOffset s - 1) in
      let '(kept, chain, verified) :=
        match dp, dn with
        | keepProtected, _ => ([s], false, verified)
        | keepConverged, _ => ([s], chain, if chain then segEnd else verified)
        | wantRewrite, None => ([s], false, verified)
        | wantRewrite, Some y => (match y with Some y => [y] | None => [] end, chain, if chain then segEnd else verified)
        end in
      let '(rest, verified) := assemble disp sources done_ chain verified in
      (kept ++ rest, verified)
  | _, _, _ => ([], verified)
  end.

(** What a pass returns; [pr_list] is absent when it failed before any rewrite. *)
Record passResult := {
  pr_list : option (list segment);
  pr_removed : Z;
  pr_verified : Z;
  pr_keys : keyFiles;
  pr_gone : gset Z;
  pr_id : Z;
  pr_err : outcome ();
}.

Definition pass_fails (ks : keyFiles) (i : Z) {A} (r : outcome A) : passResult :=
  {| pr_list := None; pr_removed := 0; pr_verified := -1; pr_keys := ks; pr_gone := ∅; pr_id := i;
     pr_err := match r with Fail e => Fail e | Panic => Panic | Ok _ => Ok () end |}.

(** [compact]; [minAge] and [maxRewrites] and [budget] are the cleaner's and the
    spec's, [i] names the next segment. *)
Definition compact (fuel : nat) (io : pass_io) (minAge maxRewrites budget : Z) (spec : CleanSpec)
    (ss : list segment) (ks : keyFiles) (i : Z) : option passResult :=
  '(ds, ks) ← loadOrBuildDigests fuel io ss ks;
  match ds with
  | Ok ds =>
      m ← mergeDigests fuel spec (ps_now io) (bounds_of ss) ds;
      match m with
      | Ok m =>
          let m := strip_only spec m in
          let horizon := if 0 <? minAge then sint 64 (ps_horizon io - minAge) else 0 in
          match last ss with
          | None => Some (pass_fails ks i (A := ()) Panic)
          | Some lst =>
              let sealed := removelast ss in
              let disp := imap (λ j '(s, d), dispose spec horizon m j s d) (zip sealed ds) in
              p ← rewrite_loop fuel io spec m (lateRewrite spec m ds) (rewrite_order spec m ds disp)
                    {| pg_asked := O; pg_budget := newRewriteBudget maxRewrites budget; pg_skipped := false;
                       pg_sources := sealed; pg_done := replicate (length sealed) None; pg_keys := ks; pg_gone := ∅;
                       pg_removed := 0; pg_id := i |};
              let '(p, err) := p in
              let '(kept, verified) := assemble disp (pg_sources p) (pg_done p) true (-1) in
              let verified := match err with
                              | Ok _ => if sint 64 (StripBelow spec - 1) <? verified then sint 64 (StripBelow spec - 1) else verified
                              | _ => -1
                              end in
              Some {| pr_list := Some (kept ++ [lst]); pr_removed := pg_removed p; pr_verified := verified;
                      pr_keys := pg_keys p; pr_gone := pg_gone p; pr_id := pg_id p; pr_err := err |}
          end
      | r => Some (pass_fails ks i r)
      end
  | r => Some (pass_fails ks i r)
  end.

(** [CompactSpec]. *)
Definition CompactSpec (fuel : nat) (io : pass_io) (minAge maxRewrites budget : Z) (spec : CleanSpec)
    (ss : list segment) (ks : keyFiles) (i : Z) : option passResult :=
  if (length ss <=? 1)%nat
  then Some {| pr_list := Some ss; pr_removed := 0; pr_verified := -1; pr_keys := ks; pr_gone := ∅; pr_id := i;
               pr_err := Ok () |}
  else compact fuel io minAge maxRewrites budget spec ss ks i.

End codecs.

(** ** Sorted orders *)

Section sorting.
Context {A : Type} (less : A → A → bool).

(** [less] is the strict part of a total preorder. *)
Context (Hasym : ∀ a b, less a b = true → less b a = false)
  (Htrans : ∀ a b c, less b a = false → less c b = false → less c a = false).

#[local] Abbreviation R := (λ a b, less b a = false).

Lemma insert_stable_perm x l : insert_stable less x l ≡ₚ x :: l.
Proof.
  induction l as [|y l IH]; [done|]. cbn. destruct (less y x); [|done]. rewrite IH. apply Permutation_swap.
Qed.

Lemma SliceStable_perm l : SliceStable less l ≡ₚ l.
Proof. induction l as [|x l IH]; [done|]. cbn. rewrite insert_stable_perm. by f_equiv. Qed.

Lemma insert_stable_sorted x l : StronglySorted R l → StronglySorted R (insert_stable less x l).
Proof.
  induction 1 as [|y l Hl IH Hy]; cbn; [by repeat constructor|]. destruct (less y x) eqn:E.
  - constructor; [done|]. rewrite insert_stable_perm. constructor; [by apply Hasym|done].
  - constructor; [by constructor|]. constructor; [done|]. eapply Forall_impl; [exact Hy|].
    intros z Hz. by apply (Htrans x y z).
Qed.

Lemma SliceStable_sorted l : StronglySorted R (SliceStable less l).
Proof. induction l as [|x l IH]; [constructor|]. by apply insert_stable_sorted. Qed.

(** What must come first does. *)
Lemma sorted_before l a i b j :
  StronglySorted R l → l = a ++ j :: b → i ∈ l → less i j = true → i ∈ a.
Proof.
  intros Hs -> Hi Hless. apply elem_of_app in Hi as [Hi|Hi]; [done|]. exfalso.
  apply StronglySorted_app in Hs as (_ & _ & Hs). apply StronglySorted_inv in Hs as [_ Hs].
  apply elem_of_cons in Hi as [->|Hi]; [by rewrite (Hasym j j Hless) in Hless|].
  rewrite Forall_forall in Hs. specialize (Hs i Hi). cbn in Hs. congruence.
Qed.

End sorting.

Lemma rewrite_order_spec spec m ds disp :
  let order := rewrite_order spec m ds disp in
  (∀ i, i ∈ order ↔ disp !! i = Some wantRewrite) ∧ NoDup order ∧
  ∀ a j b i, order = a ++ j :: b → lateRewrite spec m ds j = true → i ∈ order → (i < j)%nat → i ∈ a.
Proof.
  cbv zeta. unfold rewrite_order. set (late := lateRewrite spec m ds).
  set (less := λ a b : nat, if negb (Bool.eqb (late a) (late b)) then negb (late a)
    else if late a then (a <? b)%nat else dropCount m b <? dropCount m a).
  set (l := filter _ _).
  assert (Hasym : ∀ a b, less a b = true → less b a = false).
  { intros a b. unfold less. destruct (late a), (late b); cbn; try done.
    - intros ?%Nat.ltb_lt. apply Nat.ltb_ge. lia.
    - intros ?%Z.ltb_lt. apply Z.ltb_ge. lia. }
  assert (Htrans : ∀ a b c, less b a = false → less c b = false → less c a = false).
  { intros a b c. unfold less. destruct (late a), (late b), (late c); cbn; try done.
    - intros ?%Nat.ltb_ge ?%Nat.ltb_ge. apply Nat.ltb_ge. lia.
    - intros ?%Z.ltb_ge ?%Z.ltb_ge. apply Z.ltb_ge. lia. }
  pose proof (SliceStable_perm less l) as Hp. split; [|split].
  - intros i. rewrite Hp. unfold l. rewrite list_elem_of_filter, elem_of_seq. split; [by intros [? _]|].
    intros E. split; [done|]. apply lookup_lt_Some in E. lia.
  - rewrite Hp. unfold l. apply NoDup_filter, NoDup_seq.
  - intros a j b i E Hl Hi Hij. eapply (sorted_before less Hasym); [by apply SliceStable_sorted|exact E|done|].
    unfold less. rewrite Hl. destruct (late i); cbn; [|done]. by apply Nat.ltb_lt.
Qed.

Section passes.
Context `{CodecLaws}.

(** ** The digests of a pass *)

(** What the pass works with for a segment. *)
Definition digest_true (d : keyDigest) (fs : list frm) : Prop := KeyDigest.describes d fs ∧ stamp_holds d fs.

(** A digest file that would be accepted for the segment, which holds [fs],
    describes the records [seen]. *)
Definition file_seen (s : segment) (fs seen : list frm) (file : option bytes) : Prop :=
  loadKeyDigest (BaseOffset s) (position s) file = Ok None ∧ seen = fs ∨
  ∃ d, loadKeyDigest (BaseOffset s) (position s) file = Ok (Some d) ∧ digest_true d seen.

(** It describes the segment. *)
Definition file_true (s : segment) (fs : list frm) (file : option bytes) : Prop := file_seen s fs fs file.

Lemma lookup_set_file b f ks b' : set_file b f ks !! b' = if decide (b = b') then f else ks !! b'.
Proof.
  unfold set_file. destruct f; case_decide; subst; [by rewrite lookup_insert_eq|by rewrite lookup_insert_ne|
    by rewrite lookup_delete_eq|by rewrite lookup_delete_ne].
Qed.

Lemma load_or_build_spec fuel fails sld s fs seen file :
  holds s fs → Forall sound fs → (length fs < fuel)%nat → file_seen s fs seen file →
  ∃ d file', load_or_build fuel fails sld s file = Some (Ok d, file') ∧ digest_true d (if sld then seen else fs) ∧
    file_seen s fs seen file'.
Proof.
  intros Hh Hs Hfuel Hft. unfold load_or_build.
  destruct (build_spec fuel s fs Hh) as (d & -> & Hd & Hok & Eb & Ep & Est & _);
    [eapply Forall_impl; [exact Hs|]; by intros f [? _]|done|].
  assert (Hbs : ∀ rest, digest_true (streamed d rest) fs).
  { intros rest. split; [by apply describes_streamed|]. intros f Hf _ _ Hlt. cbn [streamed stripVerifiedBelow] in Hlt.
    destruct Hh as (_ & _ & _ & (_ & Hfr & _) & _). rewrite Forall_forall in Hfr. destruct (Hfr f Hf) as ((? & ?) & _). lia. }
  assert (Hdt : digest_true d fs).
  { specialize (Hbs []). unfold streamed in Hbs. rewrite app_nil_r in Hbs. by destruct d. }
  destruct (load_encoded d Hok) as [rest El]. rewrite Eb, Ep in El.
  destruct sld; [|by eexists _, _].
  destruct Hft as [[E ->]|(d' & E & Hd')]; rewrite E; [|by eexists _, _; split_and!; [..|right; eexists]].
  cbn [negb orb]. destruct fails; [eexists _, _; split_and!; [done|done|by left]|]. cbv zeta. rewrite El, bind_Ok.
  eexists _, _. split; [done|]. split; [apply (Hbs rest)|]. right. by eexists.
Qed.

Lemma load_digests_spec fuel io j ss fss seen ks :
  Forall2 (λ s fs, holds s fs ∧ Forall sound fs ∧ (length fs < fuel)%nat) ss fss → NoDup (BaseOffset <$> ss) →
  Forall3 (λ s fs sn, file_seen s fs sn (ks !! BaseOffset s)) ss fss seen → last seen = last fss →
  ∃ ds ks', load_digests fuel io j ss ks = Some (Ok ds, ks') ∧ Forall2 digest_true ds seen ∧
    Forall3 (λ s fs sn, file_seen s fs sn (ks' !! BaseOffset s)) ss fss seen ∧
    ∀ b, b ∉ BaseOffset <$> ss → ks' !! b = ks !! b.
Proof.
  intros HF. revert j ks seen.
  induction HF as [|s fs ss fss (Hh & Hs & Hfuel) HF IH]; intros j ks seen Hn Hft Hla.
  { inversion Hft; subst. exists [], ks. split_and!; [done|constructor|constructor|done]. }
  inversion Hft as [|? ? sn ? ? seen' Hf Hft']; subst. cbn in Hn. apply NoDup_cons in Hn as [Hin Hn]. cbn [load_digests].
  set (sld := match ss with [] => false | _ => true end).
  destruct (load_or_build_spec fuel (ps_digest io j) sld s fs sn (ks !! BaseOffset s)) as (d & file & -> & Hd & Hfs); [done..|].
  assert (Hd' : digest_true d sn).
  { subst sld. destruct ss; [|done]. inversion HF; subst. inversion Hft'; subst. cbn in Hla. by injection Hla as ->. }
  destruct (IH (S j) (set_file (BaseOffset s) file ks) seen') as (ds & ks' & E & Hds & Hks & Hsame); [done| | |].
  - clear -Hft' Hin. induction Hft' as [|s' fs' sn' ss fss sns Hx _ IH]; [constructor|]. cbn in Hin.
    apply not_elem_of_cons in Hin as [Hne Hin]. constructor; [|by apply IH]. rewrite lookup_set_file, decide_False by done. done.
  - destruct HF; inversion Hft'; subst; done.
  - cbn. rewrite E. cbn. exists (d :: ds), ks'. split; [done|]. split; [by constructor|]. split.
    + constructor; [|done]. rewrite Hsame by done. rewrite lookup_set_file, decide_True by done. done.
    + intros b Hb. apply not_elem_of_cons in Hb as [Hne Hb]. rewrite Hsame by done. by rewrite lookup_set_file, decide_False by done.
Qed.

(** ** The rewrites of a pass *)

Lemma nodup_split {X} (x : X) a b a' b' :
  NoDup (a ++ x :: b) → a ++ x :: b = a' ++ x :: b' → a = a'.
Proof.
  revert a'. induction a as [|y a IH]; intros [|y' a'] Hn E; cbn in *; [done| | |].
  - injection E as -> ->. apply NoDup_cons in Hn as [Hx _]. destruct Hx. set_solver.
  - injection E as -> <-. apply NoDup_cons in Hn as [Hx _]. destruct Hx. set_solver.
  - injection E as -> E. apply NoDup_cons in Hn as [_ Hn]. f_equal. by apply IH.
Qed.

Section rewrites.
Context (fuel : nat) (io : pass_io) (spec : CleanSpec) (m : mergeResult) (ss : list segment) (fss : list (list frm)).
Context (Hio : ∀ i, orderly (ps_clean io i)) (Hrg : fair (ps_ranges io)).
Context (Hss : Forall2 (λ s fs, holds s fs ∧ codec_ok s ∧ Forall sound fs ∧ (length fs < fuel)%nat) ss fss).

(** What is left of the frames of segment [i] once it is rewritten. *)
Definition rest_of (i : nat) (fs : list frm) : list frm :=
  survivors (ps_ranges io) spec (default None (drops m !! i)) fs.

(** What stands for segment [i], rewritten or not. *)
Definition place_ok (i : nat) (s : segment) (fs : list frm) (src : option segment) (dn : option (option segment)) : Prop :=
  match dn with
  | None => src = Some s
  | Some None => rest_of i fs = [] ∧ ∃ s', src = Some s' ∧ NextOffset s' = NextOffset s
  | Some (Some y) => rest_of i fs ≠ [] ∧ holds y (rest_of i fs) ∧ same_place s y ∧
                     ∃ s', src = Some s' ∧ NextOffset s' = NextOffset s
  end.

Definition did (p : progress) (i : nat) : bool :=
  match pg_done p !! i with Some (Some _) => true | _ => false end.

(** The digest files tell the truth, where they are written and their stamps are
    true. *)
Definition faithful : Prop :=
  (∀ i, cs_digest (ps_clean io i) = false) ∧ (∀ s, s ∈ ss → stamps_ok spec s) ∧ in_sint 64 (StripBelow spec) ∧
  short_names (StripHeaders spec) ∧ NoDup (BaseOffset <$> ss).

Definition place_file (i : nat) (s : segment) (fs : list frm) (dn : option (option segment)) (file : option bytes) : Prop :=
  match dn with
  | None => file_true s fs file
  | Some None => True
  | Some (Some y) => file_true y (rest_of i fs) file
  end.

Definition files_ok (p : progress) : Prop :=
  ∀ i s fs dn, ss !! i = Some s → fss !! i = Some fs → pg_done p !! i = Some dn →
    place_file i s fs dn (pg_keys p !! BaseOffset s).

Definition advanced (p : progress) : Prop :=
  length (pg_sources p) = length ss ∧ length (pg_done p) = length ss ∧
  (∀ i s fs dn, ss !! i = Some s → fss !! i = Some fs → pg_done p !! i = Some dn →
     place_ok i s fs (pg_sources p !! i) dn) ∧
  (∀ b, b ∈ pg_gone p ↔ ∃ i s, ss !! i = Some s ∧ pg_done p !! i = Some (Some None) ∧ b = BaseOffset s).

(** Truth of the files is kept, and no other file is touched. *)
Definition keeps_files (p p' : progress) : Prop :=
  (∀ b, b ∉ BaseOffset <$> ss → pg_keys p' !! b = pg_keys p !! b) ∧ (faithful → files_ok p → files_ok p').

Lemma keeps_files_trans p1 p2 p3 : keeps_files p1 p2 → keeps_files p2 p3 → keeps_files p1 p3.
Proof. intros [H1 H2] [H3 H4]. split; [intros b Hb; rewrite H3, H1; done|auto]. Qed.

Lemma keeps_files_same p p' : pg_keys p' = pg_keys p → pg_done p' = pg_done p → keeps_files p p'.
Proof. intros E1 E2. unfold keeps_files, files_ok. by rewrite E1, E2. Qed.

Lemma asked_skip_same p n : advanced p → advanced (skip (asked n p)) ∧ did (skip (asked n p)) = did p.
Proof. done. Qed.

Lemma did_step p p1 i late (dn : option (option segment)) :
  is_Some dn → (i < length (pg_done p))%nat → pg_done p1 = <[i := dn]> (pg_done p) → pg_skipped p1 = pg_skipped p →
  (late = true → pg_skipped p = false) →
  pg_skipped p1 = pg_skipped p ∧ (late = true → pg_skipped p = false) ∧ ∀ j, did p1 j = bool_decide (j = i) || did p j.
Proof.
  intros [y ->] Hi E Es Hl. split; [done|]. split; [done|]. intros j. unfold did. rewrite E.
  destruct (decide (j = i)) as [->|Hj]; [by rewrite list_lookup_insert_eq, bool_decide_eq_true_2|].
  by rewrite list_lookup_insert_ne, bool_decide_eq_false_2.
Qed.

Lemma gone_step p p1 i s (dn : option (option segment)) :
  (∀ b, b ∈ pg_gone p ↔ ∃ i s, ss !! i = Some s ∧ pg_done p !! i = Some (Some None) ∧ b = BaseOffset s) →
  ss !! i = Some s → pg_done p !! i = Some None → pg_done p1 = <[i := dn]> (pg_done p) → is_Some dn →
  pg_gone p1 = pg_gone p ∪ (match dn with Some None => {[ BaseOffset s ]} | _ => ∅ end) →
  ∀ b, b ∈ pg_gone p1 ↔ ∃ i s, ss !! i = Some s ∧ pg_done p1 !! i = Some (Some None) ∧ b = BaseOffset s.
Proof.
  intros Hg Es Edn E [y ->] Eg b. assert (Hi : (i < length (pg_done p))%nat) by (by eapply lookup_lt_Some).
  rewrite Eg, elem_of_union, Hg, E. split.
  - intros [(j & s' & E1 & E2 & ->)|Hb].
    + exists j, s'. split; [done|]. split; [|done]. rewrite list_lookup_insert_ne; [done|]. intros ->. congruence.
    + destruct y as [y|]; [by apply elem_of_empty in Hb|]. apply elem_of_singleton in Hb. exists i, s.
      by rewrite list_lookup_insert_eq.
  - intros (j & s' & E1 & E2 & ->). destruct (decide (i = j)) as [->|Hj].
    + right. rewrite list_lookup_insert_eq in E2 by done. simplify_eq. set_solver.
    + left. rewrite list_lookup_insert_ne in E2 by done. by exists j, s'.
Qed.

Lemma files_step p p1 i s fs (dn : option (option segment)) file :
  NoDup (BaseOffset <$> ss) → files_ok p → ss !! i = Some s → fss !! i = Some fs →
  (∀ j, j ≠ i → pg_done p1 !! j = pg_done p !! j) → pg_done p1 !! i = Some dn →
  pg_keys p1 = set_file (BaseOffset s) file (pg_keys p) → place_file i s fs dn file → files_ok p1.
Proof.
  intros Hn Hf Es Ef Ho Ei Ek Hp j s' fs' dn' E1 E2 E3. rewrite Ek, lookup_set_file. destruct (decide (j = i)) as [->|Hj].
  - simplify_eq. by rewrite decide_True.
  - rewrite decide_False; [rewrite Ho in E3 by done; by apply Hf|]. intros Hb. apply Hj.
    eapply (NoDup_lookup (BaseOffset <$> ss)); [done|rewrite list_lookup_fmap, E1; done|]. by rewrite list_lookup_fmap, Es, <- Hb.
Qed.

(** Nothing is skipped, no limit is set and no rewrite fails. *)
Definition unhindered (p : progress) : Prop :=
  pg_skipped p = false ∧ b_max (pg_budget p) ≤ 0 ∧ b_deadline (pg_budget p) = false ∧
  ∀ j, fails_early (ps_clean io j) = false.

Lemma unhindered_allow p a : unhindered p → allow a (pg_budget p) = true.
Proof. intros (_ & H1 & H2 & _). unfold allow. by rewrite (proj2 (Z.ltb_ge 0 _)), H2 by lia. Qed.

Lemma unhindered_step p n i b r y :
  rw_result r = Ok y → unhindered p → unhindered (noted (asked n p) i b r).
Proof. intros E (H1 & H2 & H3 & H4). unfold unhindered, noted. cbn [pg_skipped pg_budget]. rewrite E. by split_and!. Qed.

(** One step from a segment not rewritten yet. *)
Lemma rewrite_step_spec late i p :
  advanced p → (i < length ss)%nat → did p i = false →
  ∃ r, rewrite_step fuel io spec m late i p = Some r ∧
    match r with
    | inl p' => (advanced p' ∧ keeps_files p p') ∧
        (pg_skipped p' = true ∧ (∀ j, did p' j = did p j) ∧ ¬ unhindered p ∨
         (pg_skipped p' = pg_skipped p ∧ (late = true → pg_skipped p = false) ∧
          ∀ j, did p' j = bool_decide (j = i) || did p j) ∧ (unhindered p → unhindered p'))
    | inr (p', e) => (advanced p' ∧ keeps_files p p') ∧ (∀ j, did p' j = did p j) ∧ e ≠ Panic ∧ ¬ unhindered p
    end.
Proof.
  intros Ha Hi Hd. unfold rewrite_step. cbv zeta.
  destruct (late && (pg_skipped p || negb _)) eqn:El.
  { eexists. split; [reflexivity|]. split; [split; [exact Ha|by apply keeps_files_same]|].
    split; [done|]. split; [done|]. intros Hu. destruct late; [|done].
    rewrite (unhindered_allow p _ Hu), orb_false_r in El. destruct Hu as (Hu & _). cbn in El. congruence. }
  destruct (negb (allow (ps_after io (pg_asked p + (if late then 1%nat else 0%nat))) (pg_budget p))) eqn:Eal.
  { eexists. split; [reflexivity|]. split; [split; [exact Ha|by apply keeps_files_same]|]. left. split; [done|]. split; [done|]. intros Hu.
    by rewrite (unhindered_allow p _ Hu) in Eal. }
  pose proof Ha as (L1 & L2 & Hp & Hg). destruct (lookup_lt_is_Some_2 ss i Hi) as [s Es].
  destruct (Forall2_lookup_l _ _ _ _ _ Hss Es) as (fs & Ef & Hh & Hc & Hs & Hf).
  destruct (lookup_lt_is_Some_2 (pg_done p) i) as [dn Edn]; [lia|].
  assert (dn = None) as -> by (unfold did in Hd; rewrite Edn in Hd; by destruct dn).
  pose proof (Hp i s fs None Es Ef Edn) as Esrc. cbn in Esrc. rewrite Esrc.
  destruct (cleanSegment_spec (ps_ranges io) Hrg spec (default None (drops m !! i)) fuel (ps_clean io i) (pg_id p) s fs
    (pg_keys p !! BaseOffset s) (Hio i) Hh Hc Hs Hf) as (r & -> & Hr). cbn.
  assert (Hlt : (i < length (pg_done p))%nat) by lia. assert (Hls : (i < length (pg_sources p))%nat) by lia.
  set (p1 := noted (asked _ p) i (BaseOffset s) r).
  assert (Hold : ∀ j, j ≠ i → pg_done p1 !! j = pg_done p !! j ∧ pg_sources p1 !! j = pg_sources p !! j).
  { intros j Hj. unfold p1, noted, asked. cbn [pg_done pg_sources]. rewrite list_lookup_insert_ne by done.
    split; [|done]. destruct (rw_result r); [|done|done]. by rewrite list_lookup_insert_ne. }
  assert (Hlen : length (pg_sources p1) = length ss ∧ length (pg_done p1) = length ss).
  { unfold p1, noted, asked. cbn [pg_done pg_sources]. rewrite length_insert. split; [done|].
    destruct (rw_result r); [by rewrite length_insert|done|done]. }
  assert (Hother : ∀ b, b ∉ BaseOffset <$> ss → pg_keys p1 !! b = pg_keys p !! b).
  { intros b Hb. unfold p1, noted. cbn [pg_keys asked]. rewrite lookup_set_file, decide_False; [done|]. intros <-. apply Hb.
    apply list_elem_of_fmap. exists s. split; [done|]. by eapply list_elem_of_lookup_2. }
  assert (Hsrc : pg_sources p1 !! i = Some (rw_source r)) by (by apply list_lookup_insert_eq).
  assert (Hat : ∀ dn, pg_done p1 !! i = Some dn → place_ok i s fs (Some (rw_source r)) dn →
    ∀ j s' fs' dn', ss !! j = Some s' → fss !! j = Some fs' → pg_done p1 !! j = Some dn' →
      place_ok j s' fs' (pg_sources p1 !! j) dn').
  { intros dn E Hpl j s' fs' dn' E1 E2 E3. destruct (decide (j = i)) as [->|Hj]; [|destruct (Hold j Hj) as [O1 O2]].
    - rewrite Hsrc. simplify_eq. done.
    - rewrite O2. rewrite O1 in E3. by apply Hp. }
  destruct Hr as [(Hfe & [e Ee] & Esr & Edg & Eg)|[[Er (Eres & _ & Eg & En)]|[Er Hrep]]].
  - (* the rewrite did not happen *)
    assert (Edone : pg_done p1 = pg_done p) by (unfold p1, noted, asked; cbn [pg_done]; by rewrite Ee).
    eexists. split; [by rewrite Ee|]. split; [|split; [|split; [done|intros (_ & _ & _ & Hu); specialize (Hu i); congruence]]].
    + destruct Hlen. split; [split; [done|split; [done|split]]|].
      * apply (Hat None); [by rewrite Edone|]. cbn. by rewrite Esr.
      * intros b. rewrite Edone, <- Hg. unfold p1, noted, asked. cbn [pg_gone]. by rewrite Eg, union_empty_r_L.
      * split; [exact Hother|]. intros Hfa Hfk. eapply (files_step p p1 i s fs None); try done; [by apply Hfa|by intros; rewrite Edone|by rewrite Edone|].
        rewrite Edg. by apply (Hfk i s fs None).
    + intros j. unfold did. by rewrite Edone.
  - (* nothing is left *)
    assert (Edone : pg_done p1 = <[i := Some None]> (pg_done p)) by (unfold p1, noted, asked; cbn [pg_done]; by rewrite Eres).
    eexists. split; [by rewrite Eres|]. split.
    + destruct Hlen. split; [split; [done|split; [done|split]]|].
      * apply (Hat (Some None)); [rewrite Edone; by apply list_lookup_insert_eq|]. split; [done|]. by eexists.
      * apply (gone_step p p1 i s (Some None)); try done. unfold p1, noted, asked. cbn [pg_gone]. by rewrite Eg.
      * split; [exact Hother|]. intros Hfa Hfk. eapply (files_step p p1 i s fs (Some None)); try done; [by apply Hfa|apply Hold|].
        rewrite Edone. by apply list_lookup_insert_eq.
    + right. split; [|by apply (unhindered_step p _ i _ r None)]. apply (did_step p p1 i late (Some None)); try done. intros ->. by apply orb_false_iff in El as [? _].
  - (* a rewrite is installed *)
    pose proof Hrep as (y & t & Eres & Hy & Hpl & Eg & En & _).
    assert (Edone : pg_done p1 = <[i := Some (Some y)]> (pg_done p)) by (unfold p1, noted, asked; cbn [pg_done]; by rewrite Eres).
    eexists. split; [by rewrite Eres|]. split.
    + destruct Hlen. split; [split; [done|split; [done|split]]|].
      * apply (Hat (Some (Some y))); [rewrite Edone; by apply list_lookup_insert_eq|]. split_and!; try done. by eexists.
      * apply (gone_step p p1 i s (Some (Some y))); try done. unfold p1, noted, asked. cbn [pg_gone]. by rewrite Eg.
      * split; [exact Hother|]. intros Hfa Hfk. eapply (files_step p p1 i s fs (Some (Some y)) (rw_digest r)); try done;
          [by apply Hfa|apply Hold|rewrite Edone; by apply list_lookup_insert_eq|].
        destruct Hfa as (F1 & F2 & F3 & F4 & _). apply list_elem_of_lookup_2 in Es as Hin.
        destruct (replaced_digest (ps_ranges io) Hrg spec _ (ps_clean io i) s fs _ r (F2 s Hin) Hh Hs (F1 i) F3 F4 Hrep)
          as (y' & dg' & Ey & _ & _ & El' & Hd' & Hst').
        rewrite Eres in Ey. injection Ey as <-. right. by exists dg'.
    + right. split; [|by apply (unhindered_step p _ i _ r (Some y))]. apply (did_step p p1 i late (Some (Some y))); try done. intros ->. by apply orb_false_iff in El as [? _].
Qed.

(** A rewrite that removes a governing record comes after all those before it. *)
Definition in_order (late : nat → bool) (order : list nat) (p : progress) : Prop :=
  ∀ a j b, order = a ++ j :: b → did p j = true → late j = true → ∀ i, i ∈ a → did p i = true.

Lemma rewrite_loop_spec late order before rest p :
  order = before ++ rest → NoDup order → (∀ i, i ∈ order → (i < length ss)%nat) →
  advanced p → (∀ i, did p i = true → i ∈ before) → (pg_skipped p = false → ∀ i, i ∈ before → did p i = true) →
  in_order late order p →
  ∃ p' e, rewrite_loop fuel io spec m late rest p = Some (p', e) ∧ advanced p' ∧ (∀ i, did p' i = true → i ∈ order) ∧
    in_order late order p' ∧ e ≠ Panic ∧ keeps_files p p' ∧ (unhindered p → e = Ok () ∧ ∀ i, i ∈ order → did p' i = true).
Proof.
  intros Eo Hn Hlt. revert before p Eo. induction rest as [|i rest IH]; intros before p Eo Ha Hb Hsk Hord; cbn [rewrite_loop].
  { exists p, (Ok ()). rewrite app_nil_r in Eo. subst order. do 5 (split; [done|]). split; [by apply keeps_files_same|].
    intros (Hu & _). split; [done|]. by apply Hsk. }
  assert (Hi : did p i = false).
  { apply not_true_iff_false. intros Hd%Hb. rewrite Eo in Hn. apply NoDup_app in Hn as (_ & Hx & _).
    apply (Hx i Hd). by left. }
  assert (Hin : i ∈ order) by (rewrite Eo; set_solver).
  destruct (rewrite_step_spec (late i) i p Ha (Hlt i Hin) Hi) as (r & -> & Hr). cbn.
  destruct r as [p1|[p1 e]].
  - destruct Hr as [[Ha1 Hk1] Hr].
    destruct (IH (before ++ [i]) p1) as (p2 & e & E2 & Ha2 & Hd2 & Ho2 & He2 & Hk2 & Hu2); [by rewrite <- app_assoc|done|..].
    + intros j Hj. apply elem_of_app. destruct Hr as [(_ & E & _)|((_ & _ & E) & _)]; rewrite E in Hj; [by left; apply Hb|].
      apply orb_true_iff in Hj as [->%bool_decide_eq_true|Hj]; [right; by left|left; by apply Hb].
    + intros Hf j Hj. destruct Hr as [[E _]|((Es & _ & E) & _)]; [congruence|]. rewrite E.
      apply elem_of_app in Hj as [Hj|Hj]; [rewrite Hsk, orb_true_r; [done|congruence|done]|].
      apply list_elem_of_singleton in Hj as ->. by rewrite bool_decide_eq_true_2.
    + intros a j b E Hj Hl k Hk. destruct Hr as [(_ & Ed & _)|((Es & Hls & Ed) & _)]; rewrite Ed in Hj |- *; [by eapply Hord|].
      apply orb_true_iff in Hj as [->%bool_decide_eq_true|Hj]; [|by rewrite (Hord a j b E Hj Hl k Hk), orb_true_r].
      assert (a = before) as -> by (eapply (nodup_split i); [rewrite <- E; exact Hn|rewrite <- E; exact Eo]).
      by rewrite Hsk, orb_true_r by auto.
    + exists p2, e. split; [done|]. split; [done|]. split; [done|]. split; [done|]. split; [done|].
      split; [by eapply keeps_files_trans|]. intros Hu. apply Hu2.
      destruct Hr as [(_ & _ & Hr)|(_ & Hr)]; [done|auto].
  - destruct Hr as ([Ha1 Hk1] & Ed & He & Hu). exists p1, e. split; [done|]. split; [done|]. split; [|split; [|done]].
    + intros j Hj. rewrite Ed in Hj. rewrite Eo. apply elem_of_app. left. by apply Hb.
    + intros a j b E Hj Hl k Hk. rewrite Ed in Hj |- *. by eapply Hord.
Qed.

End rewrites.

End passes.

End CompactLog.
