(* ===== verification/CompactPass.v ===== *)
(** * What a compaction pass leaves: compact of compact_cleaner.go

    The theorems about [CompactLog.compact], for any budget and any clock and
    for rewrites that may fail before they touch the log: what the pass returns
    is a list of segments that again make up a log, every key has the value of
    its newest decided copy as before, and the verified floor is true where strip
    headers are named, the strip bound does not exceed the ceiling and the digest
    files were true to begin with. *)

From Stdlib Require Import ZArith Lia.
From stdpp Require Import base list numbers strings gmap sorting.
From coqutil Require Import Byte.
From S2P Require Import Prelude GoStd Text Wire Compress BlockV3 Block Framing EpochCache Index Segment.
From S2P Require Import SegmentIndex SegmentSearch SegmentReopen Log SegmentRewrite.
From S2P Require Import LogTruncate KeyDigest Compaction CompactRecord CompactSegment CompactLog.

Open Scope Z_scope.
Set Warnings "-clear-no-such-hyp".

Module CompactPass.
Import Segment SegmentIndex SegmentSearch SegmentReopen Log SegmentRewrite KeyDigest Compaction.
Import CompactRecord CompactSegment CompactLog.

(** ** Reading the newest copy of a key *)

(** The copies of a key that the merge weighs: those up to the ceiling, the
    record at it among them. *)
Definition counts (spec : CleanSpec) (k : bytes) (f : frm) : Prop := has_key k f ∧ competing spec (rec_of f) = true.

(** The newest of them has the value [v] and is no tombstone. *)
Definition reads (spec : CleanSpec) (recs : list frm) (k : bytes) (v : option bytes) : Prop :=
  ∃ f, f ∈ recs ∧ counts spec k f ∧ (∀ g, g ∈ recs → counts spec k g → f_off g ≤ f_off f) ∧
    tombstone f = false ∧ f_value f = v.

Lemma in_seg_concat fss f : f ∈ concat fss ↔ ∃ j, in_seg fss j f.
Proof. rewrite elem_of_concat. done. Qed.

Lemma value_of_reads spec fss k v : value_of spec fss k v ↔ reads spec (concat fss) k v.
Proof.
  unfold value_of, newest_copy, contends, reads, counts. split.
  - intros (j & f & ((Hf & Hk) & Hmax) & Ht & Hv). exists f. split; [apply in_seg_concat; by exists j|]. split; [done|].
    split; [|done]. intros g Hg Hkg. apply in_seg_concat in Hg as [i Hg]. by apply (Hmax i g).
  - intros (f & Hf & Hk & Hmax & Ht & Hv). apply in_seg_concat in Hf as [j Hf]. exists j, f. split; [|done].
    split; [done|]. intros i g (Hg & Hkg). apply Hmax; [|done]. apply in_seg_concat. by exists i.
Qed.

(** *** What is decided *)

(** The copies of a key that are decided when [b] is the last decided offset,
    and the value that the newest of them gives it. *)
Definition decided (spec : CleanSpec) (b : Z) (k : bytes) (f : frm) : Prop :=
  has_key k f ∧ f_off f ≤ b ∧ aborts spec (f_off f) = false.

Definition value_at (spec : CleanSpec) (b : Z) (recs : list frm) (k : bytes) (v : option bytes) : Prop :=
  ∃ f, f ∈ recs ∧ decided spec b k f ∧ (∀ g, g ∈ recs → decided spec b k g → f_off g ≤ f_off f) ∧
    tombstone f = false ∧ f_value f = v.

(** The last decided offset.  Where the ceiling is the high watermark it is the
    ceiling itself.  A caller's [Ceiling] is the first offset that is not
    decided, so the last decided one is the offset before it; the merge weighs
    the record at the ceiling all the same, so no record with a key may stand
    there ([undecided_shadows] has one). *)
Definition last_decided (spec : CleanSpec) (recs : list frm) (b : Z) : Prop :=
  b = ceiling spec ∨
  b = ceiling spec - 1 ∧ ∀ f k, f ∈ recs → has_key k f → f_off f ≠ ceiling spec.

Lemma decided_counts spec recs b k f :
  last_decided spec recs b → f ∈ recs → decided spec b k f ↔ counts spec k f.
Proof.
  unfold decided, counts, competing, rec_of. cbn [offset]. rewrite andb_true_iff, negb_true_iff, Z.leb_le.
  intros [->|[-> Hb]] Hf; [done|]. split; intros (Hk & Hx & ?); (split; [done|]); (split; [|done]); [lia|].
  specialize (Hb f k Hf Hk). lia.
Qed.

Lemma value_at_reads spec recs b k v : last_decided spec recs b → value_at spec b recs k v ↔ reads spec recs k v.
Proof.
  intros Hb. unfold value_at, reads. split; intros (f & Hf & Hk & Hm & Hv); exists f; (split; [done|]);
    (split; [by eapply decided_counts|]); (split; [|done]); intros g Hg Hkg; apply Hm; [done| |done|]; by eapply decided_counts.
Qed.

(** Records that come from those of a log are decided with them. *)
Lemma last_decided_origin spec recs after b :
  (∀ g, g ∈ after → ∃ f, f ∈ recs ∧ same_record f g) → last_decided spec recs b → last_decided spec after b.
Proof.
  intros Ho [->|[-> Hb]]; [by left|right]. split; [done|]. intros g k Hg [Hc Hk].
  destruct (Ho g Hg) as (f & Hf & Eo & _ & _ & Ea & Ek & _). rewrite Eo. apply (Hb f k Hf).
  unfold has_key, is_control in *. rewrite <- Ea, <- Ek. done.
Qed.

Lemma value_at_kept spec recs after b k v :
  (∀ g, g ∈ after → ∃ f, f ∈ recs ∧ same_record f g) → last_decided spec recs b →
  reads spec after k v ↔ reads spec recs k v → value_at spec b after k v ↔ value_at spec b recs k v.
Proof.
  intros Ho Hb E. rewrite (value_at_reads spec recs b k v Hb), <- E. apply value_at_reads. by eapply last_decided_origin.
Qed.

Section pass.
Context `{CodecLaws}.

(** ** The governors *)

Section governors.
Context (spec : CleanSpec) (now horizon : Z) (m : mergeResult) (sealed : list segment) (ds : list keyDigest)
  (fss : list (list frm)) (bounds : list (Z * Z)).

Definition plan : list segDisposition := imap (λ j '(s, d), dispose spec horizon m j s d) (zip sealed ds).

(** Protected segments come last. *)
Definition protects_tail : Prop :=
  ∀ i j, (i < j)%nat → plan !! i = Some keepProtected → is_Some (plan !! j) → plan !! j = Some keepProtected.

Lemma plan_converged i :
  plan !! i = Some keepConverged → ∃ d, ds !! i = Some d ∧ canSkip spec d m i = true.
Proof.
  unfold plan. rewrite list_lookup_imap. destruct (zip sealed ds !! i) as [[s d]|] eqn:E; [|done].
  intros [= Hd]. apply lookup_zip_Some in E as [_ E]. exists d. split; [done|]. unfold dispose in Hd.
  destruct (_ && _); [done|]. destruct (canSkip spec d m i); [done|]. done.
Qed.

Lemma pass_governed p :
  merge_of spec now bounds fss m → protects_tail →
  (∀ i, did p i = true → i ∈ rewrite_order spec m ds plan) →
  in_order (lateRewrite spec m ds) (rewrite_order spec m ds plan) p →
  governed m (did p).
Proof.
  intros Hm Ht Hd Ho i j x Hj Hgc Hij Hx. destruct (rewrite_order_spec spec m ds plan) as (Hin & Hn & Hlate).
  pose proof (Hd j Hj) as Hjo. apply Hin in Hjo as Hjp.
  assert (Hip : is_Some (plan !! i)). { apply lookup_lt_is_Some. apply lookup_lt_Some in Hjp. lia. }
  destruct Hip as [[| |] Hip].
  - rewrite (Ht i j Hij Hip) in Hjp; [done|by eexists].
  - destruct (plan_converged i Hip) as (d & _ & Hsk). destruct (canSkip_facts spec d m i Hsk) as (Kd & _).
    destruct Hm as ((L1 & _ & _ & _ & Hcnt) & _). unfold dget in Hx.
    destruct (drops m !! i) as [[s|]|] eqn:Ed; [|done|done].
    destruct (lookup_lt_is_Some_2 bounds i) as [[b n] Eb]; [rewrite <- L1; by eapply lookup_lt_Some|].
    destruct (Hcnt i s b n Ed Eb) as (_ & Hc & _). specialize (Kd s eq_refl). lia.
  - apply Hin in Hip. apply list_elem_of_split in Hjo as (a & b & E).
    assert (Hl : lateRewrite spec m ds j = true) by (unfold lateRewrite; unfold flag in Hgc; by rewrite Hgc).
    apply (Ho a j b); [exact E|done|done|]. by apply (Hlate a j b).
Qed.

End governors.

(** ** The list a pass returns *)

Section result.
Context (o : Options) (io : pass_io) (spec : CleanSpec) (m : mergeResult) (Hrg : fair (ps_ranges io)).

(** The frames of the segments from the [k]th on, rewritten where [dn] says. *)
Fixpoint left_over (k : nat) (fss : list (list frm)) (dn : list (option (option segment))) : list (list frm) :=
  match fss, dn with
  | fs :: fss, d :: dn => (match d with Some _ => rest_of io spec m k fs | None => fs end) :: left_over (S k) fss dn
  | _, _ => []
  end.

Lemma rest_next i base fs :
  frames_ok base fs → Forall sound fs → next_of base (rest_of io spec m i fs) ≤ next_of base fs.
Proof.
  intros Hok Hs. pose proof Hok as (_ & Hf & _ & Ha & _). unfold next_of at 1.
  destruct (last (rest_of io spec m i fs)) as [g|] eqn:El; [|by apply next_of_base].
  apply last_Some_elem_of in El. destruct (survivors_in (ps_ranges io) Hrg spec _ base fs g Hf Hs El) as (f & Hin & _ & ->).
  unfold next_of. destruct (last fs) as [x|] eqn:Ex; [|apply last_None in Ex; subst; by apply elem_of_nil in Hin].
  apply last_Some in Ex as [l' ->]. apply StronglySorted_app in Ha as (Hx & _ & _).
  apply elem_of_app in Hin as [Hin|Hin%list_elem_of_singleton]; [|subst; lia].
  specialize (Hx f x Hin ltac:(by left)). cbn in Hx. lia.
Qed.

Lemma rest_seg_ok i s fs y :
  seg_ok o s fs → Forall sound fs → holds y (rest_of io spec m i fs) → same_place s y →
  seg_ok o y (rest_of io spec m i fs) ∧ BaseOffset y = BaseOffset s ∧ NextOffset y ≤ NextOffset s.
Proof.
  intros Hs Hsd Hy (E1 & E2 & E3 & E4). pose proof Hs as (Hh & Hc & Hm & Hn).
  pose proof (rest_next i (BaseOffset s) fs (holds_frames _ _ Hh) Hsd) as Hr.
  assert (Hso : seg_ok o y (rest_of io spec m i fs)).
  { split; [done|]. split; [unfold codec_ok in *; by rewrite E3|]. split; [by rewrite E2|]. rewrite E1. lia. }
  split; [done|]. split; [done|]. rewrite (seg_next o y _ Hso), (seg_next o s _ Hs), E1. done.
Qed.

(** [y] stands where a segment of [ss] stood. *)
Definition stands_in (ss : list segment) (y : segment) : Prop :=
  ∃ s, s ∈ ss ∧ BaseOffset y = BaseOffset s ∧ NextOffset y ≤ NextOffset s.

Lemma linked_cons s ss l ys :
  linked (s :: ss) → Forall (stands_in [s]) ys → (length ys ≤ 1)%nat → Forall (stands_in ss) l → linked l → linked (ys ++ l).
Proof.
  intros Hl Hys Hlen Hin Hll. apply StronglySorted_inv in Hl as [_ Hl].
  destruct ys as [|y [|]]; cbn in Hlen; [done| |lia]. cbn. constructor; [done|].
  apply Forall_cons in Hys as [(s' & Hs' & _ & Hn) _]. apply list_elem_of_singleton in Hs' as ->.
  eapply Forall_impl; [exact Hin|]. intros z (s2 & Hs2 & Eb & _). rewrite Forall_forall in Hl. specialize (Hl s2 Hs2).
  cbn in Hl. lia.
Qed.

Lemma assemble_spec (Q : segment → list frm → Prop) k disp ss fss src dn chain v :
  length disp = length ss → length src = length ss → length dn = length ss →
  Forall2 (seg_ok o) ss fss → Forall (λ fs, fs ≠ []) fss → Forall (Forall sound) fss → linked ss →
  (∀ i s fs d, ss !! i = Some s → fss !! i = Some fs → dn !! i = Some d →
     place_ok io spec m (k + i) s fs (src !! i) d) →
  (∀ i y, dn !! i = Some (Some y) → disp !! i = Some wantRewrite) →
  (∀ i s fs d, ss !! i = Some s → fss !! i = Some fs → dn !! i = Some d →
     match d with None => Q s fs | Some None => True | Some (Some y) => Q y (rest_of io spec m (k + i) fs) end) →
  ∃ fss', Forall2 (λ s fs, seg_ok o s fs ∧ Q s fs) (assemble disp src dn chain v).1 fss' ∧ concat fss' = concat (left_over k fss dn) ∧
    Forall (λ fs, fs ≠ []) fss' ∧ Forall (stands_in ss) (assemble disp src dn chain v).1 ∧
    linked (assemble disp src dn chain v).1.
Proof.
  intros L1 L2 L3 HF. revert k disp src dn chain v L1 L2 L3. induction HF as [|s fs ss fss Hs HF IH];
    intros k disp src dn chain v L1 L2 L3 Hne Hsd Hl Hp Hw HQ.
  { destruct disp; [|done]. exists []. split_and!; constructor. }
  destruct disp as [|dp disp], src as [|s1 src], dn as [|d dn]; try done. cbn in L1, L2, L3.
  apply Forall_cons in Hne as [Hne1 Hne]. apply Forall_cons in Hsd as [Hsd1 Hsd].
  pose proof (Hp 0%nat s fs d eq_refl eq_refl eq_refl) as Hp0. rewrite Nat.add_0_r in Hp0.
  pose proof (HQ 0%nat s fs d eq_refl eq_refl eq_refl) as HQ0. rewrite Nat.add_0_r in HQ0.
  assert (Hkept : ∃ ys xs c' v', (assemble (dp :: disp) (s1 :: src) (d :: dn) chain v) =
      (ys ++ (assemble disp src dn c' v').1, (assemble disp src dn c' v').2) ∧ Forall2 (λ s fs, seg_ok o s fs ∧ Q s fs) ys xs ∧
      concat xs = match d with Some _ => rest_of io spec m k fs | None => fs end ∧ Forall (λ fs, fs ≠ []) xs ∧
      Forall (stands_in [s]) ys ∧ (length ys ≤ 1)%nat).
  { assert (Hself : stands_in [s] s) by (exists s; split; [by left|]; split; [done|lia]).
    destruct d as [[y|]|].
    - destruct Hp0 as (Hr & Hy & Hpl & _). pose proof (Hw 0%nat (Some y) eq_refl) as [= ->].
      destruct (rest_seg_ok k s fs y Hs Hsd1 Hy Hpl) as (Hso & Eb & En). cbn [assemble].
      destruct (assemble disp src dn chain _) as [rest vv] eqn:E. eexists [y], [rest_of io spec m k fs], chain, _. rewrite E.
      split; [done|]. split; [constructor; [done|constructor]|]. split; [cbn; by rewrite app_nil_r|]. split; [constructor; [done|constructor]|].
      split; [|done]. constructor; [|constructor]. exists s. split; [by left|done].
    - destruct Hp0 as (Hr & _). pose proof (Hw 0%nat None eq_refl) as [= ->]. cbn [assemble].
      destruct (assemble disp src dn chain _) as [rest vv] eqn:E. eexists [], [], chain, _. rewrite E.
      split; [done|]. split; [constructor|]. split; [by rewrite Hr|]. split; [constructor|]. split; [constructor|cbn; lia].
    - cbn in Hp0. injection Hp0 as ->. cbn [assemble].
      assert (Hx : ∀ c' v', ∃ ys xs c v0, (let '(rest, verified) := assemble disp src dn c' v' in ([s] ++ rest, verified)) =
        (ys ++ (assemble disp src dn c v0).1, (assemble disp src dn c v0).2) ∧ Forall2 (λ s fs, seg_ok o s fs ∧ Q s fs) ys xs ∧
        concat xs = fs ∧ Forall (λ fs, fs ≠ []) xs ∧ Forall (stands_in [s]) ys ∧ (length ys ≤ 1)%nat).
      { intros c' v'. exists [s], [fs], c', v'. destruct (assemble disp src dn c' v').
        split; [done|]. split; [constructor; [done|constructor]|]. split; [cbn; by rewrite app_nil_r|]. split; [constructor; [done|constructor]|].
        split; [constructor; [done|constructor]|done]. }
      destruct dp; apply Hx. }
  destruct Hkept as (ys & xs & c' & v' & -> & Hys & Exs & Hxs & Hst & Hlen). cbn [fst].
  destruct (IH (S k) disp src dn c' v') as (fss' & H1 & H2 & H3 & H4 & H5); try done; [lia|lia|lia| | | | |].
  - by apply StronglySorted_inv in Hl as [? _].
  - intros i s' fs' d' E1 E2 E3. replace (S k + i)%nat with (k + S i)%nat by lia. by apply Hp.
  - intros i y E. by apply (Hw (S i) y).
  - intros i s' fs' d' E1 E2 E3. replace (S k + i)%nat with (k + S i)%nat by lia. by apply (HQ (S i) s').
  - exists (xs ++ fss'). split; [by apply Forall2_app|]. rewrite concat_app, Exs, H2. split; [done|].
    split; [by apply Forall_app|]. split.
    + apply Forall_app. split.
      * eapply Forall_impl; [exact Hst|]. intros y (s' & Hs' & ?). apply list_elem_of_singleton in Hs' as ->.
        exists s. split; [by left|done].
      * eapply Forall_impl; [exact H4|]. intros y (s' & Hs' & ?). exists s'. split; [by right|done].
    + by eapply linked_cons.
Qed.

(** The bases of what is left. *)
Lemma assemble_bases disp ss src dn chain v :
  length disp = length ss → length src = length ss → length dn = length ss →
  (∀ i s d, ss !! i = Some s → dn !! i = Some d →
     match d with None => src !! i = Some s | Some None => True | Some (Some y) => BaseOffset y = BaseOffset s end) →
  (∀ i y, dn !! i = Some (Some y) → disp !! i = Some wantRewrite) →
  ∀ b, b ∈ BaseOffset <$> (assemble disp src dn chain v).1 ↔
    ∃ i s, ss !! i = Some s ∧ dn !! i ≠ Some (Some None) ∧ b = BaseOffset s.
Proof.
  revert disp src dn chain v. induction ss as [|s ss IH]; intros [|dp disp] [|s1 src] [|d dn] chain v L1 L2 L3 Hp Hw b; try done.
  { cbn. split; [by intros ?%elem_of_nil|]. by intros (i & s & ? & _). }
  cbn in L1, L2, L3. pose proof (Hp 0%nat s d eq_refl eq_refl) as Hp0.
  assert (Hrest : ∀ chain v, b ∈ BaseOffset <$> (assemble disp src dn chain v).1 ↔
    ∃ i s', (s :: ss) !! S i = Some s' ∧ (d :: dn) !! S i ≠ Some (Some None) ∧ b = BaseOffset s').
  { intros c' v'. apply IH; [lia|lia|lia| |].
    - intros i s' d' E1 E2. by apply (Hp (S i)).
    - intros i y E. by apply (Hw (S i) y). }
  assert (Hsplit : (∃ i s', (s :: ss) !! i = Some s' ∧ (d :: dn) !! i ≠ Some (Some None) ∧ b = BaseOffset s') ↔
    (d ≠ Some None ∧ b = BaseOffset s) ∨ ∃ i s', (s :: ss) !! S i = Some s' ∧ (d :: dn) !! S i ≠ Some (Some None) ∧ b = BaseOffset s').
  { split.
    - intros ([|i] & s' & E & Hd & ->); [left; cbn in *; simplify_eq; split; [congruence|done]|right; by exists i, s'].
    - intros [[Hd ->]|(i & s' & ?)]; [exists 0%nat, s; cbn; split; [done|]; split; [congruence|done]|by exists (S i), s']. }
  rewrite Hsplit. clear Hsplit.
  assert (Hkept : ∃ ys c' v', (assemble (dp :: disp) (s1 :: src) (d :: dn) chain v).1 = ys ++ (assemble disp src dn c' v').1 ∧
    (b ∈ BaseOffset <$> ys ↔ d ≠ Some None ∧ b = BaseOffset s)).
  { destruct d as [[y|]|]; cbn [assemble].
    - pose proof (Hw 0%nat (Some y) eq_refl) as [= ->]. destruct (assemble disp src dn chain _) as [rest vv] eqn:E.
      exists [y], chain, (if chain then sint 64 (NextOffset s1 - 1) else v). rewrite E. split; [done|]. cbn. rewrite Hp0, list_elem_of_singleton.
      split; [intros ->; by split|by intros [_ ?]].
    - pose proof (Hw 0%nat None eq_refl) as [= ->]. destruct (assemble disp src dn chain _) as [rest vv] eqn:E.
      exists [], chain, (if chain then sint 64 (NextOffset s1 - 1) else v). rewrite E. split; [done|]. cbn. rewrite elem_of_nil.
      split; [done|by intros [? _]].
    - cbn in Hp0. injection Hp0 as ->.
      assert (Hx : ∀ c' v', ∃ ys c0 v0, (let '(rest, verified) := assemble disp src dn c' v' in ([s] ++ rest, verified)).1 =
        ys ++ (assemble disp src dn c0 v0).1 ∧ (b ∈ BaseOffset <$> ys ↔ @None (option segment) ≠ Some None ∧ b = BaseOffset s)).
      { intros c' v'. exists [s], c', v'. destruct (assemble disp src dn c' v'). split; [done|]. cbn.
        rewrite list_elem_of_singleton. split; [intros ->; by split|by intros [_ ?]]. }
      destruct dp; apply Hx. }
  destruct Hkept as (ys & c' & v' & -> & Hys). rewrite fmap_app, elem_of_app, Hys, Hrest. done.
Qed.

End result.

(** ** A log *)

(** The files there were are those left and those gone. *)
Definition parted (all left gone : gset Z) : Prop := all = left ∪ gone ∧ gone ## left.

Lemma parted_trans a b c g h : parted a b g → parted b c h → parted a c (g ∪ h).
Proof. unfold parted. set_solver. Qed.

Lemma parted_refl a : parted a a ∅.
Proof. unfold parted. set_solver. Qed.

(** Segments that make up a log. *)
Definition chain_ok (o : Options) (ss : list segment) (fss : list (list frm)) : Prop :=
  Forall2 (seg_ok o) ss fss ∧ linked ss ∧ Forall (λ fs, fs ≠ []) (removelast fss).

Lemma chain_order o ss fss i j f g :
  chain_ok o ss fss → in_seg fss i f → in_seg fss j g → (i < j)%nat → f_off f < f_off g.
Proof.
  intros (HF & Hl & _) (fs & Ei & Hf) (gs & Ej & Hg) Hij.
  destruct (Forall2_lookup_r _ _ _ _ _ HF Ei) as (s & Es & Hs).
  destruct (Forall2_lookup_r _ _ _ _ _ HF Ej) as (s' & Es' & Hs').
  pose proof (seg_range o s fs f Hs Hf). pose proof (seg_range o s' gs g Hs' Hg).
  pose proof (sorted_lookup _ _ _ _ _ _ Hl Hij Es Es') as Hx. cbn in Hx. lia.
Qed.

Lemma chain_in_order o ss fss : chain_ok o ss fss → in_log_order (bounds_of ss) fss.
Proof.
  intros Hc. pose proof Hc as (HF & Hl & _). split; [unfold bounds_of; by rewrite length_fmap, (Forall2_length _ _ _ HF)|]. split.
  - intros j f (fs & Ej & Hf). destruct (Forall2_lookup_r _ _ _ _ _ HF Ej) as (s & Es & Hs).
    pose proof (seg_range o s fs f Hs Hf). split; [lia|]. exists (BaseOffset s), (NextOffset s).
    unfold bounds_of. rewrite list_lookup_fmap, Es. split; [done|]. cbn. lia.
  - intros i j f g Hf Hg E. destruct (Nat.lt_trichotomy i j) as [Hij|[->|Hij]].
    + pose proof (chain_order o ss fss i j f g Hc Hf Hg Hij). lia.
    + split; [done|]. destruct Hf as (fs & Ej & Hf), Hg as (gs & Ej' & Hg). rewrite Ej in Ej'. injection Ej' as <-.
      destruct (Forall2_lookup_r _ _ _ _ _ HF Ej) as (s & _ & (Hh & _)). apply holds_ascending in Hh.
      by apply (ascending_inj fs).
    + pose proof (chain_order o ss fss j i g f Hc Hg Hf Hij). lia.
Qed.

Lemma chain_base_lt o ss fss i j s s' :
  chain_ok o ss fss → ss !! i = Some s → ss !! j = Some s' → (i < j)%nat → BaseOffset s < BaseOffset s'.
Proof.
  intros (HF & Hl & Hne) Ei Ej Hij. pose proof (sorted_lookup _ _ _ _ _ _ Hl Hij Ei Ej) as Hx. cbn in Hx.
  destruct (Forall2_lookup_l _ _ _ _ _ HF Ei) as (fs & Ef & Hs).
  assert (Hfn : fs ≠ []).
  { rewrite Forall_lookup in Hne. apply (Hne i). rewrite removelast_firstn_len, lookup_take_lt; [done|].
    apply lookup_lt_Some in Ej. rewrite <- (Forall2_length _ _ _ HF). lia. }
  destruct fs as [|f fs]; [done|]. pose proof (seg_range o s (f :: fs) f Hs ltac:(by left)). lia.
Qed.

Lemma chain_bases o ss fss : chain_ok o ss fss → NoDup (BaseOffset <$> ss).
Proof.
  intros Hc. apply NoDup_alt. intros i j b Hi Hj. rewrite !list_lookup_fmap in *.
  destruct (ss !! i) as [s|] eqn:Ei; [|done]. destruct (ss !! j) as [s'|] eqn:Ej; [|done].
  injection Hi as Hi. injection Hj as Hj. destruct (Nat.lt_trichotomy i j) as [Hij|[->|Hij]]; [|done|].
  - pose proof (chain_base_lt o ss fss i j s s' Hc Ei Ej Hij). lia.
  - pose proof (chain_base_lt o ss fss j i s' s Hc Ej Ei Hij). lia.
Qed.

Lemma chain_sound o ss fss : chain_ok o ss fss → Forall (Forall sound) fss → all_sound fss.
Proof.
  intros (HF & _) Hs j f (fs & Ej & Hf). destruct (Forall2_lookup_r _ _ _ _ _ HF Ej) as (s & _ & (Hh & _)).
  split; [|exists (BaseOffset s)].
  - rewrite Forall_lookup in Hs. specialize (Hs j fs Ej). rewrite Forall_forall in Hs. by apply Hs.
  - apply holds_frames in Hh as (_ & Hfr & _). rewrite Forall_forall in Hfr. by apply Hfr.
Qed.

(** ** The pass *)

(** What a pass starts from: a log whose records can be read, digest files that
    are true where they would be accepted, and faults that leave the log
    alone. *)
Definition ready (fuel : nat) (io : pass_io) (o : Options) (ss : list segment) (fss : list (list frm)) (ks : keyFiles)
    : Prop :=
  chain_ok o ss fss ∧ Forall (Forall sound) fss ∧ Forall short_keys fss ∧ (length (concat fss) < fuel)%nat ∧
  Forall2 (λ s fs, file_true s fs (ks !! BaseOffset s)) ss fss ∧ (∀ i, orderly (ps_clean io i)) ∧ fair (ps_ranges io).

(** The same where the digest files describe the records [seen]. *)
Definition ready_as (fuel : nat) (io : pass_io) (o : Options) (ss : list segment) (fss seen : list (list frm))
    (ks : keyFiles) : Prop :=
  chain_ok o ss fss ∧ Forall (Forall sound) fss ∧ (length (concat fss) < fuel)%nat ∧ (∀ i, orderly (ps_clean io i)) ∧
  fair (ps_ranges io) ∧ Forall3 (λ s fs sn, file_seen s fs sn (ks !! BaseOffset s)) ss fss seen ∧ last seen = last fss ∧
  Forall (λ fs, short_keys fs ∧ ∃ b, frames_ok b fs) seen ∧ (length (concat seen) < fuel)%nat ∧
  in_log_order (bounds_of ss) seen.

Lemma ready_seen fuel io o ss fss ks : ready fuel io o ss fss ks → ready_as fuel io o ss fss fss ks.
Proof.
  intros (Hc & Hs & Hk & Hl & Hf & Hio & Hrg). pose proof Hc as (HF & _). split_and!; try done; [| |by eapply chain_in_order].
  - clear -Hf. induction Hf; by constructor.
  - apply Forall_lookup. intros i fs Ef. split; [by eapply (Forall_lookup_1 _ fss)|].
    destruct (Forall2_lookup_r _ _ _ _ _ HF Ef) as (s & _ & (Hh & _)). exists (BaseOffset s). by apply holds_frames.
Qed.

Definition starting (maxRewrites budget : Z) (sealed : list segment) (ks : keyFiles) (i : Z) : progress :=
  {| pg_asked := O; pg_budget := newRewriteBudget maxRewrites budget; pg_skipped := false; pg_sources := sealed;
     pg_done := replicate (length sealed) None; pg_keys := ks; pg_gone := ∅; pg_removed := 0; pg_id := i |}.

Lemma starting_advanced io spec m mr bu ss fss ks i : advanced io spec m ss fss (starting mr bu ss ks i).
Proof.
  unfold starting. split; [done|]. split; [apply length_replicate|]. split; cbn [pg_done pg_sources pg_gone].
  - intros j s fs dn Es Ef [-> _]%lookup_replicate. done.
  - intros b. split; [by intros ?%elem_of_empty|]. by intros (j & s & _ & [? _]%lookup_replicate & _).
Qed.

Lemma starting_files io spec m mr bu ss fss ks i :
  Forall2 (λ s fs, file_true s fs (ks !! BaseOffset s)) ss fss → files_ok io spec m ss fss (starting mr bu ss ks i).
Proof.
  intros Hft j s fs dn Es Ef [-> _]%lookup_replicate. cbn. by apply (Forall2_lookup_lr _ _ _ _ _ _ Hft Es Ef).
Qed.

Lemma starting_did mr bu ss ks i j : did (starting mr bu ss ks i) j = false.
Proof.
  unfold did, starting. cbn [pg_done]. destruct (replicate _ None !! j) as [d|] eqn:E; [|done].
  by apply lookup_replicate in E as [-> _].
Qed.

Definition horizon_of (io : pass_io) (minAge : Z) : Z := if 0 <? minAge then sint 64 (ps_horizon io - minAge) else 0.

(** The parts of a pass over the segments [sealed] and the active one. *)
Record passing (fuel : nat) (io : pass_io) (spec : CleanSpec) (minAge : Z) (sealed : list segment) (act : segment)
    (fssn : list (list frm)) (lf : list frm) (seen : list (list frm)) (ds : list keyDigest) (m : mergeResult) (p : progress) : Prop := {
  pa_digests : Forall2 digest_true ds seen;
  pa_merge : if stripOnly spec then ∀ j, default None (drops m !! j) = None
             else merge_of spec (ps_now io) (bounds_of (sealed ++ [act])) seen m;
  pa_advanced : advanced io spec m sealed fssn p;
  pa_files : seen = fssn ++ [lf] → (faithful io spec sealed → files_ok io spec m sealed fssn p) ∧
    file_true act lf (pg_keys p !! BaseOffset act);
  pa_did : ∀ i, did p i = true → plan spec (horizon_of io minAge) m sealed ds !! i = Some wantRewrite;
  pa_order : in_order (lateRewrite spec m ds) (rewrite_order spec m ds (plan spec (horizon_of io minAge) m sealed ds)) p;
}.

Lemma digests_ready fuel o ss fss seen ds io ks :
  ready_as fuel io o ss fss seen ks → Forall2 digest_true ds seen → digests_of ds seen.
Proof.
  intros (_ & _ & _ & _ & _ & _ & _ & Hk & _) Hd. unfold digests_of.
  apply Forall2_same_length_lookup_2; [by eapply Forall2_length|].
  intros i d fs Ed Ef. destruct (Forall2_lookup_lr _ _ _ _ _ _ Hd Ed Ef) as [? _]. split; [done|].
  by apply (Forall_lookup_1 _ _ _ _ Hk Ef).
Qed.

Lemma ready_holds fuel io o ss fss seen ks :
  ready_as fuel io o ss fss seen ks →
  Forall2 (λ s fs, holds s fs ∧ codec_ok s ∧ Forall sound fs ∧ (length fs < fuel)%nat) ss fss.
Proof.
  intros ((HF & _) & Hs & Hfuel & _). apply Forall2_same_length_lookup_2; [by eapply Forall2_length|].
  intros i s fs Es Ef. destruct (Forall2_lookup_lr _ _ _ _ _ _ HF Es Ef) as (Hh & Hc & _). split; [done|]. split; [done|].
  split; [by eapply (Forall_lookup_1 _ fss)|].
  assert (Hle : (length fs ≤ length (concat fss))%nat); [|lia].
  clear -Ef. revert i Ef. induction fss as [|x fss IH]; intros i Ef; [done|]. cbn. rewrite length_app.
  destruct i as [|i]; [injection Ef as ->; lia|]. specialize (IH i Ef). lia.
Qed.

Lemma forall3_snoc (Q : segment → list frm → list frm → Prop) ss s fss fs :
  Forall3 Q (ss ++ [s]) (fss ++ [fs]) (fss ++ [fs]) → Forall2 (λ s fs, Q s fs fs) ss fss ∧ Q s fs fs.
Proof.
  revert fss. induction ss as [|s' ss IH]; intros [|fs' fss] Hq; inversion Hq as [|? ? ? ? ? ? H1 H2]; subst.
  - by split; [constructor|].
  - destruct fss; inversion H2.
  - destruct ss; inversion H2.
  - destruct (IH fss H2). split; [by constructor|done].
Qed.

(** A pass returns, whatever its budget. *)
Lemma compact_run fuel io o minAge mr bu spec sealed act fssn lf seen ks i :
  ready_as fuel io o (sealed ++ [act]) (fssn ++ [lf]) seen ks → length fssn = length sealed →
  ∃ ds m p err r, passing fuel io spec minAge sealed act fssn lf seen ds m p ∧
    compact fuel io minAge mr bu spec (sealed ++ [act]) ks i = Some r ∧
    let '(kept, v) := assemble (plan spec (horizon_of io minAge) m sealed ds) (pg_sources p) (pg_done p) true (-1) in
    pr_list r = Some (kept ++ [act]) ∧ pr_gone r = pg_gone p ∧ pr_keys r = pg_keys p ∧ pr_err r = err ∧ err ≠ Panic ∧
    pr_verified r = (match err with Ok _ => Z.min v (sint 64 (StripBelow spec - 1)) | _ => -1 end) ∧
    (mr ≤ 0 → bu ≤ 0 → (∀ j, fails_early (ps_clean io j) = false) →
     err = Ok () ∧ ∀ i, plan spec (horizon_of io minAge) m sealed ds !! i = Some wantRewrite → did p i = true).
Proof.
  intros Hrd Hlen. remember (sint 64 (StripBelow spec - 1)) as sb eqn:Esb.
  pose proof Hrd as (Hc & Hs & _ & Hio & Hrg & Hft & Hla & Hsn & Hfuel & Hlo).
  pose proof (ready_holds _ _ _ _ _ _ _ Hrd) as Hh.
  destruct (load_digests_spec fuel io 0 (sealed ++ [act]) (fssn ++ [lf]) seen ks) as (ds & ks' & Eds & Hds & Hks & _);
    [eapply Forall2_impl; [exact Hh|]; intros ? ? (? & _ & ? & ?); done|by eapply chain_bases|done|done|].
  destruct (merge_spec fuel spec (ps_now io) (bounds_of (sealed ++ [act])) ds seen
    (digests_ready _ _ _ _ _ _ _ _ Hrd Hds) Hlo Hfuel) as (m0 & Em & Hm0).
  remember (strip_only spec m0) as m eqn:Esm.
  assert (Hm : if stripOnly spec then ∀ j, default None (drops m !! j) = None
               else merge_of spec (ps_now io) (bounds_of (sealed ++ [act])) seen m).
  { subst m. unfold strip_only. destruct (stripOnly spec); [|exact Hm0]. intros j. cbn [drops]. rewrite list_lookup_fmap.
    by destruct (drops m0 !! j). }
  apply Forall2_app_inv in Hh as [Hhn _]; [|done].
  set (pl := plan spec (horizon_of io minAge) m sealed ds).
  destruct (rewrite_order_spec spec m ds pl) as (Hin & Hnd & _).
  assert (Hlp : length pl = length sealed).
  { unfold pl, plan. rewrite length_imap, length_zip_with. apply Forall2_length in Hds.
    apply Forall3_length_lr in Hft. rewrite Hds, <- Hft, length_app. cbn [length]. lia. }
  destruct (rewrite_loop_spec fuel io spec m sealed fssn Hio Hrg Hhn (lateRewrite spec m ds) (rewrite_order spec m ds pl)
    [] (rewrite_order spec m ds pl) (starting mr bu sealed ks' i)) as (p & err & El & Ha & Hd & Ho & Hne & Hkf & Hun);
    [done|done| |apply starting_advanced| | | |].
  { intros j Hj%Hin. apply lookup_lt_Some in Hj. lia. }
  { intros j Hj. by rewrite starting_did in Hj. }
  { by intros _ j ?%elem_of_nil. }
  { intros a j b _ Hj. by rewrite starting_did in Hj. }
  destruct (assemble pl (pg_sources p) (pg_done p) true (-1)) as [kept v] eqn:Eas.
  eexists ds, m, p, err, _. split.
  { split; [done|done|done| | |done]; [|intros j Hj; by apply Hin, Hd]. intros ->. destruct Hkf as [Hk1 Hk2].
    destruct (forall3_snoc _ _ _ _ _ Hks) as [Hks1 Hks2]. split; [intros Hfa; by apply (Hk2 Hfa), starting_files|].
    rewrite Hk1; [exact Hks2|]. apply chain_bases in Hc. rewrite fmap_app in Hc. apply NoDup_app in Hc as (_ & Hx & _).
    intros Hin'. apply (Hx _ Hin'). by left. }
  unfold compact, loadOrBuildDigests. rewrite Eds, <- Esb.
  cbn. rewrite Em. cbn.
  rewrite <- Esm, last_snoc, removelast_last.
  fold (horizon_of io minAge). change (imap _ (zip sealed ds)) with pl. fold (starting mr bu sealed ks' i).
  rewrite El. cbn. fold pl. rewrite Eas. split; [done|]. split; [done|]. split; [done|]. split; [done|]. split; [done|]. split; [done|]. split.
  - destruct err; [|done|done]. cbn [pr_verified]. destruct (Z.ltb_spec sb v); lia.
  - intros H1 H2 H3. destruct Hun as [He Hall]; [split; [done|]; split; [done|]; split; [by apply Z.ltb_ge|done]|].
    split; [done|]. intros j Hj. by apply Hall, Hin.
Qed.

(** Segments are written in order, where their newest write is what the horizon
    is measured against. *)
Definition written_in_order (sealed : list segment) : Prop :=
  ∀ i j s s', (i < j)%nat → sealed !! i = Some s → sealed !! j = Some s' → lastWriteTime s ≤ lastWriteTime s'.

Lemma plan_lookup spec hz m sealed ds j s d :
  sealed !! j = Some s → ds !! j = Some d → plan spec hz m sealed ds !! j = Some (dispose spec hz m j s d).
Proof.
  intros Es Ed. unfold plan. rewrite list_lookup_imap.
  by rewrite (proj2 (lookup_zip_Some sealed ds j s d) (conj Es Ed)).
Qed.

Lemma plan_inv spec hz m sealed ds j x :
  plan spec hz m sealed ds !! j = Some x →
  ∃ s d, sealed !! j = Some s ∧ ds !! j = Some d ∧ x = dispose spec hz m j s d.
Proof.
  unfold plan. rewrite list_lookup_imap. destruct (zip sealed ds !! j) as [[s d]|] eqn:E; [|done].
  intros [= <-]. apply lookup_zip_Some in E as [? ?]. by exists s, d.
Qed.

Lemma protected_tail spec hz m sealed ds :
  hz ≤ 0 ∨ written_in_order sealed → protects_tail spec hz m sealed ds.
Proof.
  intros Hw i j Hij Hi [x Hj]. rewrite Hj. apply plan_inv in Hi as (s & d & Es & Ed & E).
  apply plan_inv in Hj as (s' & d' & Es' & Ed' & ->). unfold dispose in *.
  destruct ((0 <? hz) && (hz <? lastWriteTime s)) eqn:Eh.
  - apply andb_true_iff in Eh as [Hp%Z.ltb_lt Hl%Z.ltb_lt]. destruct Hw as [?|Hw]; [lia|].
    specialize (Hw i j s s' Hij Es Es'). by rewrite (proj2 (Z.ltb_lt 0 hz)), (proj2 (Z.ltb_lt hz (lastWriteTime s'))) by lia.
  - by destruct (canSkip spec d m i && negb (needsBlockConsolidation s)).
Qed.

Lemma left_over_imap io spec m k fss dn :
  length dn = length fss →
  left_over io spec m k fss dn =
  imap (λ j fs, if match dn !! j with Some (Some _) => true | _ => false end then rest_of io spec m (k + j) fs else fs) fss.
Proof.
  revert k dn. induction fss as [|fs fss IH]; intros k [|d dn] Hd; try done. cbn [left_over imap]. cbn in Hd; apply Nat.succ_inj in Hd.
  rewrite IH by done. f_equal; [rewrite Nat.add_0_r; by destruct d|]. apply imap_ext. intros j x _. cbn.
  by rewrite Nat.add_succ_r.
Qed.

Lemma passed_left io spec m sealed fssn lf p :
  length fssn = length sealed → advanced io spec m sealed fssn p →
  passed (ps_ranges io) spec m (did p) fssn = left_over io spec m 0 fssn (pg_done p) ∧
  passed (ps_ranges io) spec m (did p) (fssn ++ [lf]) = passed (ps_ranges io) spec m (did p) fssn ++ [lf].
Proof.
  intros Hl (_ & L2 & _). unfold passed. rewrite imap_app, left_over_imap by congruence. split; [done|]. cbn.
  f_equal. unfold did. by rewrite Nat.add_0_r, lookup_ge_None_2 by lia.
Qed.

(** *** The log it leaves *)

Section outcome.
Context (fuel : nat) (io : pass_io) (o : Options) (spec : CleanSpec) (minAge : Z).
Context (sealed : list segment) (act : segment) (fssn : list (list frm)) (lf : list frm) (ks : keyFiles).
Context (seen : list (list frm)).
Context (Hrd : ready_as fuel io o (sealed ++ [act]) (fssn ++ [lf]) seen ks) (Hlen : length fssn = length sealed).
Context (ds : list keyDigest) (m : mergeResult) (p : progress).
Context (Hp : passing fuel io spec minAge sealed act fssn lf seen ds m p).

Lemma plan_length : length (plan spec (horizon_of io minAge) m sealed ds) = length sealed.
Proof.
  unfold plan. rewrite length_imap, length_zip_with. destruct Hp as [Hds _ _ _ _ _]. apply Forall2_length in Hds.
  destruct Hrd as (_ & _ & _ & _ & _ & Hft & _). apply Forall3_length_lr in Hft. rewrite Hds, <- Hft, length_app. cbn [length]. lia.
Qed.

(** The files where they are true. *)
Definition true_at (y : segment) (fs : list frm) : Prop :=
  seen = fssn ++ [lf] → faithful io spec sealed → file_true y fs (pg_keys p !! BaseOffset y).

Lemma true_places i s fs d :
  sealed !! i = Some s → fssn !! i = Some fs → pg_done p !! i = Some d →
  match d with None => true_at s fs | Some None => True | Some (Some y) => true_at y (rest_of io spec m (0 + i) fs) end.
Proof.
  destruct Hp as [_ _ (_ & _ & Hpl & _) Hfl _ _]. intros Es Ef Ed. specialize (Hpl i s fs d Es Ef Ed).
  assert (Hfk : seen = fssn ++ [lf] → faithful io spec sealed → place_file io spec m i s fs d (pg_keys p !! BaseOffset s)).
  { intros E1 E2. destruct (Hfl E1) as [Hx _]. by apply (Hx E2). }
  destruct d as [[y|]|]; [|done|done]. destruct Hpl as (_ & _ & (Eb & _) & _). intros E1 E2. rewrite Eb. by apply Hfk.
Qed.

Lemma pass_chain chain v :
  let kept := (assemble (plan spec (horizon_of io minAge) m sealed ds) (pg_sources p) (pg_done p) chain v).1 in
  ∃ fss', chain_ok o (kept ++ [act]) (fss' ++ [lf]) ∧
    concat fss' = concat (passed (ps_ranges io) spec m (did p) fssn) ∧
    concat (fss' ++ [lf]) = concat (passed (ps_ranges io) spec m (did p) (fssn ++ [lf])) ∧
    Forall2 true_at (kept ++ [act]) (fss' ++ [lf]).
Proof.
  destruct Hrd as ((HF & Hl & Hne) & Hs & _ & _ & Hrg & _). pose proof Hp as [_ _ Ha Hfl Hd _].
  rewrite removelast_last in Hne. apply Forall2_app_inv in HF as [HFn Hact]; [|done].
  apply Forall_app in Hs as [Hsn _]. apply StronglySorted_app in Hl as (Hx & Hln & _).
  pose proof Ha as (L1 & L2 & Hpl & _).
  destruct (assemble_spec o io spec m Hrg true_at 0 (plan spec (horizon_of io minAge) m sealed ds) sealed fssn (pg_sources p) (pg_done p)
    chain v) as (fss' & A1 & A2 & A3 & A4 & A5); [apply plan_length|done|done|done|done|done|done|by apply Hpl| |apply true_places|].
  { intros i y E. apply Hd. unfold did. by rewrite E. }
  destruct (passed_left io spec m sealed fssn lf p Hlen Ha) as [P1 P2].
  exists fss'. split; [split; [apply Forall2_app; [|done]; eapply Forall2_impl; [exact A1|]; by intros ? ? [? _]|split]|split; [|split]].
  - apply StronglySorted_app. split; [|split; [done|repeat constructor]].
    intros y s Hy Hs%list_elem_of_singleton. subst s. rewrite Forall_forall in A4. destruct (A4 y Hy) as (s & Hin & _ & Hn).
    specialize (Hx s act Hin ltac:(by left)). cbn in Hx |- *. lia.
  - by rewrite removelast_last.
  - by rewrite P1.
  - by rewrite P2, P1, !concat_app, A2.
  - apply Forall2_app; [eapply Forall2_impl; [exact A1|]; by intros ? ? [_ ?]|]. constructor; [|constructor].
    intros E _. by destruct (Hfl E).
Qed.

(** The log files that are left are those of the segments returned. *)
Lemma pass_bases chain v :
  let kept := (assemble (plan spec (horizon_of io minAge) m sealed ds) (pg_sources p) (pg_done p) chain v).1 in
  parted (list_to_set (BaseOffset <$> sealed ++ [act])) (list_to_set (BaseOffset <$> kept ++ [act])) (pg_gone p).
Proof.
  intros kept. pose proof Hrd as (Hc & _). pose proof Hc as (HF & _). apply Forall2_app_inv in HF as [HFn _]; [|done].
  pose proof (chain_bases _ _ _ Hc) as Hnd. pose proof Hp as [_ _ (L1 & L2 & Hpl & Hg) _ Hd _].
  assert (Hk : ∀ b, b ∈ BaseOffset <$> kept ↔ ∃ i s, sealed !! i = Some s ∧ pg_done p !! i ≠ Some (Some None) ∧ b = BaseOffset s).
  { apply assemble_bases; [apply plan_length|done|done| |].
    - intros i s d Es Ed. destruct (Forall2_lookup_l _ _ _ _ _ HFn Es) as (fs & Ef & _).
      specialize (Hpl i s fs d Es Ef Ed). destruct d as [[y|]|]; [|done|done]. by destruct Hpl as (_ & _ & (? & _) & _).
    - intros i y E. apply Hd. unfold did. by rewrite E. }
  assert (Hin : pg_gone p ⊆ list_to_set (BaseOffset <$> sealed ++ [act])).
  { intros b (i & s & Es & _ & ->)%Hg. apply elem_of_list_to_set, list_elem_of_fmap. exists s. split; [done|].
    apply elem_of_app. left. by eapply list_elem_of_lookup_2. }
  enough (E : list_to_set (BaseOffset <$> kept ++ [act]) = (list_to_set (BaseOffset <$> sealed ++ [act]) ∖ pg_gone p : gset Z)).
  { rewrite E. split; [by rewrite difference_union_L, (comm_L (∪)), subseteq_union_1_L|]. clear. set_solver. }
  apply set_eq. intros b. rewrite elem_of_difference, !elem_of_list_to_set, !fmap_app, !elem_of_app, Hk, Hg.
  assert (Hu : ∀ i j s s', (sealed ++ [act]) !! i = Some s → (sealed ++ [act]) !! j = Some s' → BaseOffset s = BaseOffset s' → i = j).
  { intros i j s s' Ei Ej E. eapply (NoDup_lookup (BaseOffset <$> sealed ++ [act])); [done|by rewrite list_lookup_fmap, Ei|].
    by rewrite list_lookup_fmap, Ej, E. }
  split.
  - intros [(i & s & Es & Hn & ->)|Hb].
    + split; [left; apply list_elem_of_fmap; exists s; split; [done|by eapply list_elem_of_lookup_2]|].
      intros (j & s' & Es' & Ej & E). assert (i = j) as <- by (eapply Hu; [by apply lookup_app_l_Some|by apply lookup_app_l_Some|done]). done.
    + split; [by right|]. apply list_elem_of_singleton in Hb as ->. intros (j & s' & Es' & Ej & E).
      assert (length sealed = j) as <- by (eapply Hu; [apply (list_lookup_middle sealed []); done|by apply lookup_app_l_Some|done]).
      apply lookup_lt_Some in Es'. lia.
  - intros [[Hb|Hb] Hn]; [|by right]. left. apply list_elem_of_fmap in Hb as (s & -> & [i Ei]%list_elem_of_lookup).
    exists i, s. split; [done|]. split; [|done]. intros E. apply Hn. by exists i, s.
Qed.

Context (Hw : minAge ≤ 0 ∨ written_in_order sealed).

Lemma pass_reads k v :
  seen = fssn ++ [lf] → stripOnly spec = false →
  reads spec (concat (passed (ps_ranges io) spec m (did p) (fssn ++ [lf]))) k v ↔ reads spec (concat (fssn ++ [lf])) k v.
Proof.
  intros Eseen Hso. pose proof Hrd as (Hc & Hs & _ & _ & Hrg & _). destruct Hp as [Hds Hm Ha _ Hd Ho]. rewrite Hso in Hm.
  rewrite <- !value_of_reads. apply (partial_pass (ps_ranges io) spec Hrg (ps_now io) (bounds_of (sealed ++ [act]))).
  - by apply (chain_in_order o).
  - by apply (chain_sound o (sealed ++ [act])).
  - by rewrite <- Eseen.
  - intros i j f g. by apply (chain_order o (sealed ++ [act])).
  - apply (pass_governed spec (ps_now io) (horizon_of io minAge) m sealed ds seen (bounds_of (sealed ++ [act]))); [done| | |done].
    + apply protected_tail. destruct Hw as [Hx|Hx]; [left|by right]. unfold horizon_of.
      by rewrite (proj2 (Z.ltb_ge 0 minAge)) by lia.
    + intros i Hi. apply (proj1 (rewrite_order_spec spec m ds (plan spec (horizon_of io minAge) m sealed ds))), Hd, Hi.
Qed.

Lemma pass_origin g :
  g ∈ concat (passed (ps_ranges io) spec m (did p) (fssn ++ [lf])) → ∃ f, f ∈ concat (fssn ++ [lf]) ∧ same_record f g.
Proof.
  pose proof Hrd as (Hc & Hs & _ & _ & Hrg & _). intros [j Hj]%in_seg_concat.
  apply in_seg_passed in Hj as (f & Hf & E). exists f. split; [apply in_seg_concat; by exists j|].
  destruct (chain_sound _ _ _ Hc Hs j f Hf) as (Hsf & b & Hb).
  destruct (did p j); [by eapply out_same|by subst g].
Qed.

Lemma pass_sound g :
  g ∈ concat (passed (ps_ranges io) spec m (did p) (fssn ++ [lf])) → sound g.
Proof.
  pose proof Hrd as (Hc & Hs & _ & _ & Hrg & _). intros [j Hj]%in_seg_concat.
  apply in_seg_passed in Hj as (f & Hf & E). destruct (chain_sound _ _ _ Hc Hs j f Hf) as (Hsf & b & Hb).
  destruct (did p j); [|by subst g]. by destruct (out_frame (ps_ranges io) Hrg spec _ b f g Hb Hsf E) as (_ & ? & _).
Qed.

Lemma passed_length fss :
  (length (concat (passed (ps_ranges io) spec m (did p) fss)) ≤ length (concat fss))%nat.
Proof.
  assert (Hx : ∀ (d : nat → option dropSet) W,
    (length (concat (imap (λ j fs, if W j : bool then survivors (ps_ranges io) spec (d j) fs else fs) fss)) ≤ length (concat fss))%nat);
    [|apply (Hx (λ j, default None (drops m !! j)) (did p))].
  induction fss as [|fs fss IH]; intros d W; [done|]. cbn [imap]. rewrite !concat_cons, !length_app.
  specialize (IH (λ j, d (S j)) (λ j, W (S j))). unfold compose.
  assert ((length (if W 0%nat then survivors (ps_ranges io) spec (d 0%nat) fs else fs) ≤ length fs)%nat); [|lia].
  destruct (W 0%nat); [apply length_omap_le|done].
Qed.

(** A record no pass may touch. *)
Definition untouchable (f : frm) : Prop :=
  is_control f = false ∧ aborts spec (f_off f) = false ∧ f_key f = None.

Lemma pass_keeps f :
  f ∈ concat (fssn ++ [lf]) → ceiling spec ≤ f_off f ∨ untouchable f →
  ∃ g, g ∈ concat (passed (ps_ranges io) spec m (did p) (fssn ++ [lf])) ∧ same_record f g ∧ (ceiling spec ≤ f_off f → g = f).
Proof.
  pose proof Hrd as (Hc & Hs & _ & _ & Hrg & _). intros [j Hj]%in_seg_concat Hf.
  destruct (chain_sound _ _ _ Hc Hs j f Hj) as (Hsf & b & Hb).
  assert (Ho : ∃ g, out (ps_ranges io) spec (default None (drops m !! j)) f = Some g ∧ (ceiling spec ≤ f_off f → g = f)).
  { unfold out, fate. destruct (Z.leb_spec (ceiling spec) (f_off f)) as [|Hlt]; [by exists f|].
    destruct Hf as [?|(-> & -> & ->)]; [lia|]. destruct (strips spec f); eexists; (split; [done|lia]). }
  destruct Ho as (g & Eg & Hg). destruct (did p j) eqn:Ed.
  - exists g. split; [|split; [by eapply out_same|done]]. apply in_seg_concat. exists j. apply in_seg_passed.
    exists f. by rewrite Ed.
  - exists f. split; [|done]. apply in_seg_concat. exists j. apply in_seg_passed. exists f. by rewrite Ed.
Qed.

End outcome.

(** C5: A compaction pass over a well-formed log whose digest files, where it
    has any, describe the segments they are taken for, and in which segments are
    protected by age only where they were written in order, returns, whatever its
    budget, its clock and the rewrites that fail before they replace anything, and
    what it returns is again a well-formed log: its segments hold frames in order,
    the active segment is the one it had, every key has the value it had before
    (that of its newest decided copy, none under a tombstone), every record at
    or above the ceiling and every record with no key that is neither control nor
    aborted is still there, and every record of the result is one of the old log,
    in place and with its timestamp, epoch, key and value.  Decided are the
    records up to the ceiling where it is the watermark, and those below it where
    it is the caller's and no record with a key stands at it. *)
Theorem compact_keeps_values fuel io o minAge mr bu spec sealed act fssn lf ks i :
  ready fuel io o (sealed ++ [act]) (fssn ++ [lf]) ks → length fssn = length sealed → stripOnly spec = false →
  minAge ≤ 0 ∨ written_in_order sealed →
  ∃ r kept fss', compact fuel io minAge mr bu spec (sealed ++ [act]) ks i = Some r ∧ pr_err r ≠ Panic ∧
    pr_list r = Some (kept ++ [act]) ∧ chain_ok o (kept ++ [act]) fss' ∧
    (∀ b k v, last_decided spec (concat (fssn ++ [lf])) b →
       value_at spec b (concat fss') k v ↔ value_at spec b (concat (fssn ++ [lf])) k v) ∧
    (∀ f, f ∈ concat (fssn ++ [lf]) → ceiling spec ≤ f_off f → f ∈ concat fss') ∧
    (∀ f, f ∈ concat (fssn ++ [lf]) → untouchable spec f → ∃ g, g ∈ concat fss' ∧ same_record f g) ∧
    (∀ g, g ∈ concat fss' → ∃ f, f ∈ concat (fssn ++ [lf]) ∧ same_record f g).
Proof.
  intros Hrd Hlen Hso Hw.
  destruct (compact_run fuel io o minAge mr bu spec sealed act fssn lf (fssn ++ [lf]) ks i (ready_seen _ _ _ _ _ _ Hrd) Hlen) as (ds & m & p & err & r & Hp & E & Hr).
  destruct (pass_chain fuel io o spec minAge sealed act fssn lf ks _ (ready_seen _ _ _ _ _ _ Hrd) Hlen ds m p Hp true (-1)) as (fss' & Hch & _ & Ec & _).
  destruct (assemble _ _ _ _ _) as [kept v]. destruct Hr as (El & _ & _ & Ee & Hne & _). subst err.
  exists r, kept, (fss' ++ [lf]). split; [done|]. split; [done|]. split; [done|]. split; [done|]. rewrite Ec. split; [|split; [|split]].
  - intros b k x Hb. apply value_at_kept; [intros g Hg; eapply pass_origin; [by apply ready_seen|done]|done|].
    eapply pass_reads; [by apply ready_seen|done|done|done|done|done].
  - intros f Hf Hce. destruct (pass_keeps fuel io o spec sealed act fssn lf ks _ (ready_seen _ _ _ _ _ _ Hrd) Hlen m p f Hf) as (g & Hg & _ & Hx); [by left|].
    by rewrite <- Hx.
  - intros f Hf Hu. destruct (pass_keeps fuel io o spec sealed act fssn lf ks _ (ready_seen _ _ _ _ _ _ Hrd) Hlen m p f Hf) as (g & Hg & Hx & _); [by right|].
    by exists g.
  - intros g Hg. eapply pass_origin; [by apply ready_seen|done].
Qed.

(** What a pass leaves is ready for the next one. *)
Lemma passed_ready fuel io o minAge spec sealed act fssn lf ks ds m p kept fss' :
  ready fuel io o (sealed ++ [act]) (fssn ++ [lf]) ks → length fssn = length sealed →
  passing fuel io spec minAge sealed act fssn lf (fssn ++ [lf]) ds m p → faithful io spec sealed →
  chain_ok o (kept ++ [act]) (fss' ++ [lf]) →
  concat (fss' ++ [lf]) = concat (passed (ps_ranges io) spec m (did p) (fssn ++ [lf])) →
  Forall2 (true_at io spec sealed fssn lf (fssn ++ [lf]) p) (kept ++ [act]) (fss' ++ [lf]) →
  ready fuel io o (kept ++ [act]) (fss' ++ [lf]) (pg_keys p).
Proof.
  intros Hrd Hlen Hp Hfa Hch Ec Ht. pose proof (ready_seen _ _ _ _ _ _ Hrd) as Hra.
  pose proof Hrd as (_ & _ & Hsk & Hfuel & _ & Hio & Hrg).
  assert (Hall : ∀ g, g ∈ concat (fss' ++ [lf]) → sound g ∧ ∃ f, f ∈ concat (fssn ++ [lf]) ∧ same_record f g).
  { intros g Hg. rewrite Ec in Hg. split; [by eapply pass_sound|by eapply pass_origin]. }
  split; [done|]. split; [|split; [|split; [|split; [|done]]]].
  - apply Forall_lookup. intros j fs Ef. apply Forall_forall. intros g Hg. apply Hall, elem_of_concat. by exists j, fs.
  - apply Forall_lookup. intros j fs Ef. apply Forall_forall. intros g Hg k Hk.
    destruct (Hall g) as (_ & f & Hf & Hsr); [apply elem_of_concat; by exists j, fs|].
    apply elem_of_concat in Hf as (i' & fs0 & Ef0 & Hf). pose proof (Forall_lookup_1 _ _ _ _ Hsk Ef0) as Hx.
    unfold short_keys in Hx. rewrite Forall_forall in Hx. apply (Hx f Hf). destruct Hsr as (_ & _ & _ & _ & <- & _). done.
  - rewrite Ec. eapply Nat.le_lt_trans; [by eapply passed_length|done].
  - eapply Forall2_impl; [exact Ht|]. intros y fs Hy. by apply Hy.
Qed.

(** C18: A pass over a log that is ready for it, whose digest files are written
    and whose stamps are true (it strips nothing, or strips raw segments only and
    below the ceiling; [stamp_overclaims] has others), leaves a log that is ready
    for the next pass, whatever its budget and clock and the rewrites that fail
    before they replace anything: well-formed segments, records that can be read,
    and a digest file for each segment that describes what the segment now
    holds, or none that would be accepted. *)
Theorem pass_stays_ready fuel io o minAge mr bu spec sealed act fssn lf ks i :
  ready fuel io o (sealed ++ [act]) (fssn ++ [lf]) ks → length fssn = length sealed → faithful io spec sealed →
  ∃ r kept fss', compact fuel io minAge mr bu spec (sealed ++ [act]) ks i = Some r ∧
    pr_list r = Some (kept ++ [act]) ∧ ready fuel io o (kept ++ [act]) (fss' ++ [lf]) (pr_keys r).
Proof.
  intros Hrd Hlen Hfa. pose proof (ready_seen _ _ _ _ _ _ Hrd) as Hra.
  destruct (compact_run fuel io o minAge mr bu spec sealed act fssn lf (fssn ++ [lf]) ks i Hra Hlen)
    as (ds & m & p & err & r & Hp & E & Hr).
  destruct (pass_chain fuel io o spec minAge sealed act fssn lf ks _ Hra Hlen ds m p Hp true (-1)) as (fss' & Hch & _ & Ec & Ht).
  destruct (assemble _ _ _ _ _) as [kept v]. destruct Hr as (El & _ & Ek & _). exists r, kept, fss'.
  split; [done|]. split; [done|]. rewrite Ek. by eapply passed_ready.
Qed.

(** *** What an unhindered pass makes of each record *)

(** The records a pass is to remove, from the log as it was and the last decided
    offset [b]: control records that it strips, aborted ones, copies of a key with
    a decided newer copy, and expired tombstones without one. *)
Definition removable (spec : CleanSpec) (b now : Z) (recs : list frm) (f : frm) : Prop :=
  f_off f < ceiling spec ∧
  (is_control f = true ∧ strips spec f = true ∨
   is_control f = false ∧
   (aborts spec (f_off f) = true ∨
    ∃ k, f_key f = Some k ∧
      ((∃ g, g ∈ recs ∧ decided spec b k g ∧ f_off f < f_off g) ∨
       expired_rec spec now (rec_of f) = true ∧ ∀ g, g ∈ recs → decided spec b k g → f_off g ≤ f_off f))).

(** The same of what the merge weighs. *)
Definition to_drop (spec : CleanSpec) (now : Z) (fss : list (list frm)) (f : frm) : Prop :=
  f_off f < ceiling spec ∧
  (is_control f = true ∧ strips spec f = true ∨
   is_control f = false ∧
   (aborts spec (f_off f) = true ∨ ∃ k, f_key f = Some k ∧ (superseded spec fss k f ∨ expires spec now fss k f))).

Lemma removable_to_drop spec b now fss f :
  last_decided spec (concat fss) b → removable spec b now (concat fss) f ↔ to_drop spec now fss f.
Proof.
  intros Hb.
  assert (Hx : ∀ k g, (∃ j, contends spec fss k j g) ↔ g ∈ concat fss ∧ decided spec b k g).
  { intros k g. split.
    - intros (j & Hg & Hk). assert (g ∈ concat fss) by (apply in_seg_concat; by exists j). split; [done|].
      by eapply decided_counts.
    - intros [Hg Hk]. pose proof Hg as [j Hj]%in_seg_concat. exists j. split; [done|]. by eapply decided_counts. }
  assert (Hs : f_off f < ceiling spec → ∀ k, (∃ g, g ∈ concat fss ∧ decided spec b k g ∧ f_off f < f_off g) ↔ superseded spec fss k f).
  { intros Hce k. unfold superseded. split.
    - intros (g & Hg & Hk & Hlt). destruct (proj2 (Hx k g) (conj Hg Hk)) as [j Hj]. split; [done|]. by exists j, g.
    - intros (_ & j & g & Hg & Hlt). exists g. destruct (proj1 (Hx k g) (ex_intro _ j Hg)) as [? ?]. by split_and!. }
  assert (He : ∀ k, (expired_rec spec now (rec_of f) = true ∧ ∀ g, g ∈ concat fss → decided spec b k g → f_off g ≤ f_off f) ↔
    expires spec now fss k f).
  { intros k. unfold expires. split; intros [? Hm]; (split; [done|]).
    - intros j g Hg. destruct (proj1 (Hx k g) (ex_intro _ j Hg)) as [? ?]. by apply Hm.
    - intros g Hg Hk. destruct (proj2 (Hx k g) (conj Hg Hk)) as [j Hj]. by apply (Hm j). }
  unfold removable, to_drop. setoid_rewrite He. split; intros [Hce Hr]; (split; [done|]); specialize (Hs Hce);
    by setoid_rewrite Hs in Hr || setoid_rewrite <- Hs in Hr.
Qed.

(** What is to stand for one that stays. *)
Definition kept_as (spec : CleanSpec) (f g : frm) : Prop :=
  same_record f g ∧
  (f_off f < ceiling spec → is_control f = false → strips spec f = true → recorded f →
   f_hdrs g = without (StripHeaders spec) (f_hdrs f)) ∧
  (ceiling spec ≤ f_off f ∨ is_control f = true ∨ strips spec f = false → g = f).

Section record.
Context (rg : ranges) (spec : CleanSpec) (Hrg : fair rg).
Context (now : Z) (bounds : list (Z * Z)) (fss : list (list frm)) (m : mergeResult).
Context (Hlog : in_log_order bounds fss) (Hsnd : all_sound fss) (Hm : merge_of spec now bounds fss m).

Lemma out_to_drop j f :
  in_seg fss j f → out rg spec (default None (drops m !! j)) f = None ↔ to_drop spec now fss f.
Proof.
  intros Hf. unfold to_drop. destruct (is_control f) eqn:Ec.
  - unfold out, fate. rewrite Ec. destruct (Z.leb_spec (ceiling spec) (f_off f)) as [Hc|Hc];
      [split; [done|intros [? _]; lia]|]. destruct (strips spec f); split; try done; [by auto|]. by intros (_ & [[_ ?]|[? _]]).
  - destruct (aborts spec (f_off f)) eqn:Ea.
    { unfold out, fate. rewrite Ec, Ea. destruct (Z.leb_spec (ceiling spec) (f_off f)) as [Hc|Hc];
        [split; [done|intros [? _]; lia]|]. split; [auto|done]. }
    destruct (f_key f) as [k|] eqn:Ek.
    2: { unfold out, fate. rewrite Ec, Ea, Ek. split; [|by intros (_ & [[? _]|[_ [?|(k & ? & _)]]])].
         destruct (_ <=? _); [done|]. by destruct (strips spec f). }
    split.
    + intros Ho. destruct (Z.leb_spec (ceiling spec) (f_off f)) as [Hc|Hc].
      { unfold out, fate in Ho. by rewrite (proj2 (Z.leb_le _ _) Hc) in Ho. }
      destruct (removed_dropped rg spec now bounds fss m Hlog Hm k j f) as [_ Hx]; [|done|].
      { split; [done|]. split; [done|]. unfold competing, rec_of. cbn [offset]. rewrite Ea, (proj2 (Z.leb_le _ _)) by lia. done. }
      split; [done|]. right. split; [done|]. right. by exists k.
    + intros [Hc [[? _]|[_ [?|(k' & [= <-] & Hx)]]]]; [done|done|].
      apply (dropped_removed rg spec now bounds fss m Hm k j f); [|done|done].
      split; [done|]. split; [done|]. unfold competing, rec_of. cbn [offset]. rewrite Ea, (proj2 (Z.leb_le _ _)) by lia. done.
Qed.

Lemma out_kept j f g : in_seg fss j f → out rg spec (default None (drops m !! j)) f = Some g → kept_as spec f g.
Proof.
  intros Hf Ho. destruct (Hsnd j f Hf) as (Hsf & b & Hb). split; [by eapply out_same|]. unfold out, fate in Ho. split.
  - intros Hc Hct Hst Hr. rewrite (proj2 (Z.leb_gt _ _) Hc), Hct, Hst in Ho.
    assert (g = stripped rg (StripHeaders spec) f) as ->.
    { destruct (aborts spec (f_off f)); [done|]. destruct (match f_key f with Some _ => _ | None => _ end); [done|]. by injection Ho as <-. }
    by destruct (stripped_record rg (StripHeaders spec) Hrg b f Hb Hr) as (_ & _ & _ & _ & _ & ? & _).
  - intros Hc. destruct (Z.leb_spec (ceiling spec) (f_off f)) as [|Hlt]; [by injection Ho|].
    destruct (is_control f); [destruct (strips spec f); [done|by injection Ho]|].
    destruct Hc as [?|[?|Hc]]; [lia|done|]. rewrite Hc in Ho. destruct (aborts spec (f_off f)); [done|].
    destruct (match f_key f with Some _ => _ | None => _ end); [done|]. by injection Ho.
Qed.

End record.

(** The parts of a pass that no fault, age or budget stops. *)
Lemma full_run fuel io o minAge mr bu spec sealed act fssn lf seen ks i :
  ready_as fuel io o (sealed ++ [act]) (fssn ++ [lf]) seen ks → length fssn = length sealed → stripOnly spec = false →
  mr ≤ 0 → bu ≤ 0 → (∀ j, fails_early (ps_clean io j) = false) →
  ∃ ds m p r kept fss', passing fuel io spec minAge sealed act fssn lf seen ds m p ∧
    compact fuel io minAge mr bu spec (sealed ++ [act]) ks i = Some r ∧ pr_err r = Ok () ∧
    pr_list r = Some (kept ++ [act]) ∧ chain_ok o (kept ++ [act]) (fss' ++ [lf]) ∧
    concat fss' = concat (passed (ps_ranges io) spec m (did p) fssn) ∧
    (∀ i, plan spec (horizon_of io minAge) m sealed ds !! i = Some wantRewrite → did p i = true) ∧
    pr_verified r =
      Z.min (assemble (plan spec (horizon_of io minAge) m sealed ds) (pg_sources p) (pg_done p) true (-1)).2
        (sint 64 (StripBelow spec - 1)).
Proof.
  intros Hrd Hlen Hso Hmr Hbu Hio.
  destruct (compact_run fuel io o minAge mr bu spec sealed act fssn lf seen ks i Hrd Hlen) as (ds & m & p & err & r & Hp & E & Hr).
  destruct (pass_chain fuel io o spec minAge sealed act fssn lf ks seen Hrd Hlen ds m p Hp true (-1)) as (fss' & Hch & Ec & _).
  exists ds, m, p, r. destruct (assemble _ _ _ _ _) as [kept v]. destruct Hr as (El & _ & _ & Ee & _ & Ev & Hfull).
  destruct (Hfull Hmr Hbu Hio) as [-> Hall]. exists kept, fss'. by split_and!.
Qed.

Section full.
Context (fuel : nat) (io : pass_io) (o : Options) (spec : CleanSpec) (minAge : Z).
Context (sealed : list segment) (act : segment) (fssn : list (list frm)) (lf : list frm) (ks : keyFiles).
Context (Hrd : ready fuel io o (sealed ++ [act]) (fssn ++ [lf]) ks) (Hlen : length fssn = length sealed).
Context (ds : list keyDigest) (m : mergeResult) (p : progress).
Context (Hp : passing fuel io spec minAge sealed act fssn lf (fssn ++ [lf]) ds m p) (Hso : stripOnly spec = false).

(** The places the pass has settled: rewritten, or as a rewrite would leave
    them. *)
Definition settled_at (j : nat) : Prop :=
  did p j = true ∨ plan spec (horizon_of io minAge) m sealed ds !! j = Some keepConverged.

Lemma settled_out j g :
  settled_at j → in_seg (passed (ps_ranges io) spec m (did p) fssn) j g ↔
    ∃ f, in_seg fssn j f ∧ out (ps_ranges io) spec (default None (drops m !! j)) f = Some g.
Proof.
  intros Hj. rewrite in_seg_passed. destruct (did p j) eqn:Ed; [done|].
  destruct Hj as [?|Hj]; [congruence|]. destruct (plan_converged _ _ _ _ _ _ Hj) as (d & Edj & Hsk).
  pose proof Hrd as (Hc & Hs & _ & _ & _ & _ & Hrg). destruct Hp as [Hds Hm _ _ _ _]. rewrite Hso in Hm.
  assert (Hout : ∀ f, in_seg fssn j f → out (ps_ranges io) spec (default None (drops m !! j)) f = Some f).
  { intros f (fs & Ef & Hf). assert (Ef' : (fssn ++ [lf]) !! j = Some fs) by (by apply lookup_app_l_Some).
    destruct (Forall2_lookup_lr _ _ _ _ _ _ Hds Edj Ef') as [H1 H2].
    by eapply (skip_unchanged (ps_ranges io) spec Hrg _ _ (fssn ++ [lf]) m j fs d Hm (chain_in_order _ _ _ Hc) (chain_sound _ _ _ Hc Hs)). }
  split; intros (f & Hf & E); exists f; (split; [done|]).
  - subst g. by apply Hout.
  - rewrite Hout in E by done. by injection E as <-.
Qed.

(** With no age limit and every planned rewrite done, all places are settled. *)
Lemma all_settled j :
  minAge ≤ 0 → (∀ i, plan spec (horizon_of io minAge) m sealed ds !! i = Some wantRewrite → did p i = true) →
  (j < length sealed)%nat → settled_at j.
Proof.
  intros Hma Hall Hj. destruct (lookup_lt_is_Some_2 (plan spec (horizon_of io minAge) m sealed ds) j) as [x Hx].
  { erewrite plan_length; [done|by apply ready_seen|done|done]. }
  destruct x; [exfalso|by right|left; by apply Hall].
  apply plan_inv in Hx as (s & d & _ & _ & E). unfold dispose, horizon_of in E.
  rewrite (proj2 (Z.ltb_ge 0 minAge) Hma) in E. cbn in E. by destruct (canSkip spec d m j && negb (needsBlockConsolidation s)).
Qed.

End full.

(** C15: A pass with no age limit, no budget and no fault, over a log whose
    digest files are true, removes exactly the records it is to remove from the
    sealed segments - below the ceiling, the control records that are also below
    the strip bound where strip headers are given, the aborted ones, copies of a
    key with a decided newer copy anywhere in the log, and newest copies that are
    expired tombstones - and keeps all others, the strip headers gone from those
    below the strip bound and every other byte as it was.  Decided are the records
    up to the ceiling where it is the watermark, and those below it where it is
    the caller's and no record with a key stands at it. *)
Theorem compact_exact fuel io o minAge mr bu spec sealed act fssn lf ks i :
  ready fuel io o (sealed ++ [act]) (fssn ++ [lf]) ks → length fssn = length sealed → stripOnly spec = false →
  minAge ≤ 0 → mr ≤ 0 → bu ≤ 0 → (∀ j, fails_early (ps_clean io j) = false) →
  ∃ r kept fss', compact fuel io minAge mr bu spec (sealed ++ [act]) ks i = Some r ∧ pr_err r = Ok () ∧
    pr_list r = Some (kept ++ [act]) ∧ chain_ok o (kept ++ [act]) (fss' ++ [lf]) ∧
    ∀ b, last_decided spec (concat (fssn ++ [lf])) b →
      (∀ f, f ∈ concat fssn → ¬ removable spec b (ps_now io) (concat (fssn ++ [lf])) f → ∃ g, g ∈ concat fss' ∧ kept_as spec f g) ∧
      (∀ g, g ∈ concat fss' →
         ∃ f, f ∈ concat fssn ∧ ¬ removable spec b (ps_now io) (concat (fssn ++ [lf])) f ∧ kept_as spec f g).
Proof.
  intros Hrd Hlen Hso Hma Hmr Hbu Hio.
  destruct (full_run fuel io o minAge mr bu spec sealed act fssn lf _ ks i (ready_seen _ _ _ _ _ _ Hrd) Hlen Hso Hmr Hbu Hio)
    as (ds & m & p & r & kept & fss' & Hp & E & Ee & El & Hch & Ec & Hall & _).
  exists r, kept, fss'. split; [done|]. split; [done|]. split; [done|]. split; [done|].
  pose proof Hrd as (Hc & Hs & _ & _ & _ & _ & Hrg). pose proof Hp as [_ Hm _ _ _ _]. rewrite Hso in Hm.
  assert (Hj : ∀ j f, in_seg fssn j f → in_seg (fssn ++ [lf]) j f ∧ settled_at io spec minAge sealed ds m p j).
  { intros j f (fs & Ef & Hf). split; [exists fs; split; [by apply lookup_app_l_Some|done]|].
    eapply all_settled; try done. apply lookup_lt_Some in Ef. lia. }
  rewrite Ec. intros b Hb. split.
  - intros f [j Hf]%in_seg_concat Hr. destruct (Hj j f Hf) as [Hf' Hst]. rewrite removable_to_drop in Hr by done.
    rewrite <- (out_to_drop (ps_ranges io) spec (ps_now io) _ _ m (chain_in_order _ _ _ Hc) Hm j f Hf') in Hr.
    destruct (out (ps_ranges io) spec (default None (drops m !! j)) f) as [g|] eqn:Eg; [|done]. exists g. split.
    + apply in_seg_concat. exists j. eapply settled_out; [done..|]. by exists f.
    + by eapply (out_kept (ps_ranges io) spec Hrg (fssn ++ [lf]) m (chain_sound _ _ _ Hc Hs)).
  - intros g [j Hg]%in_seg_concat. assert (Hst : settled_at io spec minAge sealed ds m p j).
    { destruct Hg as (gs & Egs & _). eapply all_settled; try done.
      apply lookup_lt_Some in Egs. unfold passed in Egs. rewrite length_imap in Egs. lia. }
    eapply settled_out in Hg as (f & Hf & Eg); [|done..].
    destruct (Hj j f Hf) as [Hf' _]. exists f. split; [apply in_seg_concat; by exists j|].
    split; [|by eapply (out_kept (ps_ranges io) spec Hrg (fssn ++ [lf]) m (chain_sound _ _ _ Hc Hs))]. rewrite removable_to_drop by done.
    rewrite <- (out_to_drop (ps_ranges io) spec (ps_now io) _ _ m (chain_in_order _ _ _ Hc) Hm j f Hf'). congruence.
Qed.

(** ** The verified floor *)

(** A place the floor runs over. *)
Definition passes (disp : list segDisposition) (dn : list (option (option segment))) (j : nat) : Prop :=
  disp !! j = Some keepConverged ∨ disp !! j = Some wantRewrite ∧ ∃ y, dn !! j = Some (Some y).

Lemma assemble_broken disp src dn v : (assemble disp src dn false v).2 = v.
Proof.
  revert src dn v. induction disp as [|d disp IH]; intros [|s src] [|n dn] v; try done. cbn [assemble].
  specialize (IH src dn v). destruct (assemble disp src dn false v) as [rest v'] eqn:E. cbn in IH. subst v'.
  destruct d, n as [[?|]|]; cbn; by rewrite ?E.
Qed.

Lemma assemble_floor disp ss src dn v :
  length disp = length ss → length src = length ss → length dn = length ss → linked ss →
  Forall (λ s, 0 ≤ BaseOffset s ≤ NextOffset s ∧ NextOffset s < 2 ^ 63) ss →
  (∀ i s s', ss !! i = Some s → src !! i = Some s' → NextOffset s' = NextOffset s) →
  Forall (λ s, v < BaseOffset s) ss →
  let v' := (assemble disp src dn true v).2 in
  (∀ b, v < b → Forall (λ s, NextOffset s ≤ b) ss → v' < b) ∧
  (∀ j s, ss !! j = Some s → BaseOffset s ≤ v' → passes disp dn j).
Proof.
  revert disp src dn v. induction ss as [|s ss IH]; intros [|d disp] [|s1 src] [|n dn] v; try done.
  cbn [length]. intros L1 L2 L3 Hl Hr Hn Hv. apply StronglySorted_inv in Hl as [Hl Hx].
  apply Forall_cons in Hr as [Hr0 Hr]. apply Forall_cons in Hv as [Hv0 Hv].
  assert (Hse : sint 64 (NextOffset s1 - 1) = NextOffset s - 1).
  { rewrite (Hn 0%nat s s1) by done. apply sint_small; [done|]. unfold in_sint. change (2 ^ (64 - 1)) with (2 ^ 63). lia. }
  assert (Hstop : let v' := v in (∀ b, v < b → Forall (λ s, NextOffset s ≤ b) (s :: ss) → v' < b) ∧
    (∀ j s0, (s :: ss) !! j = Some s0 → BaseOffset s0 ≤ v' → passes (d :: disp) (n :: dn) j)).
  { split; [done|]. intros j s0 E Hle. exfalso. destruct j as [|j]; [injection E as <-; lia|].
    rewrite Forall_lookup in Hv. specialize (Hv j s0 E). cbn in Hv. lia. }
  assert (Hgo : passes (d :: disp) (n :: dn) 0 →
    let v' := (assemble disp src dn true (NextOffset s - 1)).2 in
    (∀ b, v < b → Forall (λ s, NextOffset s ≤ b) (s :: ss) → v' < b) ∧
    (∀ j s0, (s :: ss) !! j = Some s0 → BaseOffset s0 ≤ v' → passes (d :: disp) (n :: dn) j)).
  { intros H0. destruct (IH disp src dn (NextOffset s - 1)) as [I1 I2]; [lia|lia|lia|done|done| | |].
    - intros i. apply (Hn (S i)).
    - eapply Forall_impl; [exact Hx|]. intros s2. cbn. lia.
    - split; [intros b Hb [? ?]%Forall_cons; apply I1; [lia|done]|].
      intros [|j] s0 E Hle; [done|]. by apply (I2 j s0). }
  cbn [assemble]. rewrite Hse.
  destruct d.
  - pose proof (assemble_broken disp src dn v) as E. destruct (assemble disp src dn false v). cbn in E. by subst.
  - specialize (Hgo ltac:(by left)). cbv zeta in Hgo. by destruct (assemble disp src dn true (NextOffset s - 1)).
  - destruct n as [y|].
    + specialize (Hgo ltac:(right; split; [done|by exists y])). cbv zeta in Hgo.
      by destruct (assemble disp src dn true (NextOffset s - 1)).
    + pose proof (assemble_broken disp src dn v) as E. destruct (assemble disp src dn false v). cbn in E. by subst.
Qed.

Section floor.
Context (fuel : nat) (io : pass_io) (o : Options) (spec : CleanSpec) (minAge : Z).
Context (sealed : list segment) (act : segment) (fssn : list (list frm)) (lf : list frm) (ks : keyFiles).
Context (Hrd : ready fuel io o (sealed ++ [act]) (fssn ++ [lf]) ks) (Hlen : length fssn = length sealed).
Context (ds : list keyDigest) (m : mergeResult) (p : progress).
Context (Hp : passing fuel io spec minAge sealed act fssn lf (fssn ++ [lf]) ds m p) (Hso : stripOnly spec = false).

Definition floor_of : Z :=
  (assemble (plan spec (horizon_of io minAge) m sealed ds) (pg_sources p) (pg_done p) true (-1)).2.

Lemma floor_spec :
  floor_of < BaseOffset act ∧
  ∀ j s, sealed !! j = Some s → BaseOffset s ≤ floor_of → settled_at io spec minAge sealed ds m p j.
Proof.
  destruct Hrd as ((HF & Hl & _) & _). apply StronglySorted_app in Hl as (Hx & Hl & _).
  pose proof Hp as [_ _ Ha _ _ _]. pose proof Ha as (L1 & L2 & Hpl & _).
  apply Forall2_app_inv in HF as [HFn HFa]; [|done]. apply Forall2_cons in HFa as [Hact _].
  assert (Hr : Forall (λ s, 0 ≤ BaseOffset s ≤ NextOffset s ∧ NextOffset s < 2 ^ 63) sealed).
  { apply Forall_lookup. intros i s Es. destruct (Forall2_lookup_l _ _ _ _ _ HFn Es) as (fs & _ & Hs).
    rewrite (seg_next o s fs Hs). destruct Hs as (Hh & _ & _ & Hn). apply holds_frames in Hh.
    pose proof (next_of_base _ _ Hh). destruct Hh as (? & _). lia. }
  destruct (assemble_floor (plan spec (horizon_of io minAge) m sealed ds) sealed (pg_sources p) (pg_done p) (-1)) as [F1 F2];
    [erewrite plan_length; [done|by apply ready_seen|done|done]|done|done|done|done| | |].
  - intros i s s' Es Es'. destruct (Forall2_lookup_l _ _ _ _ _ HFn Es) as (fs & Ef & _).
    destruct (lookup_lt_is_Some_2 (pg_done p) i) as [dn Edn]; [apply lookup_lt_Some in Es; lia|].
    specialize (Hpl i s fs dn Es Ef Edn). rewrite Es' in Hpl. destruct dn as [[y|]|]; cbn in Hpl.
    + destruct Hpl as (_ & _ & _ & s2 & [= <-] & ?). done.
    + destruct Hpl as (_ & s2 & [= <-] & ?). done.
    + by injection Hpl as ->.
  - eapply Forall_impl; [exact Hr|]. cbn. intros s. lia.
  - split.
    + apply F1; [destruct Hact as (Hh & _); apply holds_frames in Hh as (? & _); lia|].
      apply Forall_forall. intros s Hs. by apply (Hx s act Hs ltac:(by left)).
    + intros j s Es Hle. destruct (F2 j s Es Hle) as [?|[_ [y Hy]]]; [by right|left]. unfold did. by rewrite Hy.
Qed.

(** A record of the result under the floor comes from a settled place. *)
Lemma under_floor g :
  g ∈ concat (passed (ps_ranges io) spec m (did p) (fssn ++ [lf])) → f_off g ≤ floor_of →
  ∃ j f, in_seg fssn j f ∧ out (ps_ranges io) spec (default None (drops m !! j)) f = Some g ∧ f_off g = f_off f.
Proof.
  pose proof Hrd as (Hc & Hs & _ & _ & _ & _ & Hrg). pose proof Hc as (HF & _). pose proof Hp as [_ _ Ha _ _ _].
  destruct (passed_left io spec m sealed fssn lf p Hlen Ha) as [_ ->]. destruct floor_spec as [Hlt Hset].
  apply Forall2_app_inv in HF as [HFn HFa]; [|done]. apply Forall2_cons in HFa as [Hact _].
  rewrite concat_app. cbn. rewrite app_nil_r. intros [Hg|Hg]%elem_of_app Hle.
  2: { pose proof (seg_range o act lf g Hact Hg). lia. }
  apply in_seg_concat in Hg as [j Hg]. pose proof Hg as Hg'. apply in_seg_passed in Hg as (f0 & (fs & Ef & Hf0) & E0).
  destruct (Forall2_lookup_r _ _ _ _ _ HFn Ef) as (s & Es & Hsg). pose proof (seg_range o s fs f0 Hsg Hf0).
  assert (Hi : ∀ f, in_seg fssn j f → in_seg (fssn ++ [lf]) j f).
  { intros f (fs' & Ef' & ?). exists fs'. split; [by apply lookup_app_l_Some|done]. }
  assert (Eo : f_off g = f_off f0).
  { destruct (chain_sound _ _ _ Hc Hs j f0) as (Hsf & b & Hb); [apply Hi; by exists fs|].
    destruct (did p j); [|by subst]. by destruct (out_same (ps_ranges io) spec Hrg b _ f0 g Hb Hsf E0). }
  eapply settled_out in Hg' as (f & Hf & Eg); [|done..|apply (Hset j s Es); lia].
  destruct (chain_sound _ _ _ Hc Hs j f) as (Hsf & b & Hb); [by apply Hi|].
  exists j, f. split; [done|]. split; [done|]. by destruct (out_same (ps_ranges io) spec Hrg b _ f g Hb Hsf Eg).
Qed.

End floor.

(** C27: Where strip headers are named and the strip bound does not exceed the
    ceiling ([floor_overclaims] has both otherwise), and the digest files, stamps
    included, are true of the log to begin with ([stamp_overclaims] makes one that
    is not), the floor a pass reports is true of the log it leaves, whatever it
    had time to rewrite: no record at or below the floor is a control record or
    an aborted one, and none that passes its checksum carries one of the strip
    headers. *)
Theorem floor_sound fuel io o minAge mr bu spec sealed act fssn lf ks i :
  ready fuel io o (sealed ++ [act]) (fssn ++ [lf]) ks → length fssn = length sealed → stripOnly spec = false →
  stripActive spec = true → StripBelow spec ≤ ceiling spec → StripBelow spec < 2 ^ 63 →
  ∃ r kept fss', compact fuel io minAge mr bu spec (sealed ++ [act]) ks i = Some r ∧
    pr_list r = Some (kept ++ [act]) ∧ chain_ok o (kept ++ [act]) fss' ∧
    ∀ g, g ∈ concat fss' → f_off g ≤ pr_verified r →
      is_control g = false ∧ aborts spec (f_off g) = false ∧
      (recorded g → has_any (f_hdrs g) (StripHeaders spec) = false).
Proof.
  intros Hrd Hlen Hso Hact Hce Hsb. pose proof Hrd as (Hc & Hs & _ & _ & _ & _ & Hrg).
  destruct (compact_run fuel io o minAge mr bu spec sealed act fssn lf (fssn ++ [lf]) ks i (ready_seen _ _ _ _ _ _ Hrd) Hlen) as (ds & m & p & err & r & Hp & E & Hr).
  destruct (pass_chain fuel io o spec minAge sealed act fssn lf ks _ (ready_seen _ _ _ _ _ _ Hrd) Hlen ds m p Hp true (-1)) as (fss' & Hch & _ & Ec & _).
  pose proof (under_floor fuel io o spec minAge sealed act fssn lf ks Hrd Hlen ds m p Hp Hso) as Huf. unfold floor_of in Huf.
  destruct (assemble _ _ _ _ _) as [kept v]. destruct Hr as (El & _ & _ & _ & _ & Ev & _). cbn in Huf.
  exists r, kept, (fss' ++ [lf]). split; [done|]. split; [done|]. split; [done|]. intros g Hg Hle.
  unfold stripActive in Hact. apply andb_prop in Hact as [H0%Z.ltb_lt Hh].
  rewrite sint_small in Ev; [|done|unfold in_sint; change (2 ^ (64 - 1)) with (2 ^ 63); lia].
  assert (Hg0 : 0 ≤ f_off g).
  { apply in_seg_concat in Hg as (j & Hg). by apply (chain_in_order _ _ _ Hch) in Hg as [? _]. }
  assert (Hx : pr_verified r = Z.min v (StripBelow spec - 1)) by (destruct err; [done|lia|lia]).
  rewrite Ec in Hg. destruct (Huf g Hg ltac:(lia)) as (j & f & (fs & Ef & Hf) & Eg & Eo).
  destruct (chain_sound _ _ _ Hc Hs j f) as (Hsf & b & Hb); [exists fs; split; [by apply lookup_app_l_Some|done]|].
  eapply (out_clean _ spec b _ f g Hrg Hb Hsf); [|lia|done].
  unfold strips. rewrite Hh, andb_true_r. apply Z.ltb_lt. lia.
Qed.

(** ** Samples *)

(** A raw segment that stores the frames [fs]. *)
Lemma stored o base fs :
  0 ≤ base < 2 ^ 63 → (fs ≠ [] → frames_ok base fs) → next_of base fs < 2 ^ 63 →
  ∃ s, seg_ok o s fs ∧ BaseOffset s = base ∧ blockMode s = false ∧ NextOffset s = next_of base fs ∧
    position s = zlen (fs_bytes fs) ∧ lastWriteTime s = tail_ts fs.
Proof.
  intros Hb Hf Hn. set (t := emptySegment 0 base (MaxSegmentBytes o) CNone nil_index).
  destruct (newWorking_holds 0 base (MaxSegmentBytes o) CNone BlockFormatVersion Hb) as (w & Ew & Hw & Hcf & _).
  assert (Ec : Cleaned work_calm 0 t = Ok w) by (unfold Cleaned, t; cbn [emptySegment BaseOffset maxBytes codec format]; exact Ew).
  pose proof (Cleaned_mode 0 t w Hb Ec) as Hm. clear Ew Ec.
  unfold config in Hcf. injection Hcf as _ C2 C3 C4 C5 _ _.
  assert (Hcd : codec_ok w) by (split; rewrite C4; [done|by vm_compute]).
  assert (Hs : ∃ s, holds s fs ∧ kept w s).
  { destruct fs as [|f fs]; [exists w; split; [done|by split_and!]|].
    destruct (holds_append w [] (f :: fs) Hw Hcd ltac:(done)) as (s & _ & Hs & Hk & _); [rewrite C2; by apply Hf|by exists s]. }
  destruct Hs as (s & Hs & (K1 & K2 & K3 & K4 & K5 & _)). exists s.
  assert (Hso : seg_ok o s fs).
  { split; [done|]. split; [unfold codec_ok; by rewrite K2|]. split; [congruence|]. by rewrite K1, C2. }
  split; [done|]. split; [congruence|]. split; [by rewrite K4, Hm|]. split; [rewrite (seg_next o s fs Hso); congruence|].
  destruct Hs as (Hl & _ & _ & _ & (_ & _ & _ & ?) & _). split; [by apply log_ok_position|done].
Qed.

(** Nothing fails; the clocks stand still. *)
Definition pass_calm (now horizon : Z) : pass_io :=
  {| ps_digest := λ _, false; ps_now := now; ps_horizon := horizon; ps_after := λ _, false;
     ps_clean := λ _, clean_calm; ps_ranges := λ m, (map_to_list m, map_to_list m) |}.

Definition small : Options :=
  {| MaxSegmentBytes := Z.shiftl 1 20; MaxSegmentAge := 0; Compression := CNone; BlockFormat := BlockFormatVersion |}.

(** A segment's worth of records for a sample. *)
Definition piece_fit (b : Z) (fs : list frm) : Prop :=
  0 ≤ b < 2 ^ 63 ∧ (fs ≠ [] → frames_ok b fs) ∧ next_of b fs < 2 ^ 63 ∧ Forall sound fs ∧ short_keys fs.

Lemma sample_segments (bs : list (Z * list frm)) :
  Forall (λ '(b, fs), piece_fit b fs) bs →
  ∃ ss, Forall2 (λ s '(b, fs), seg_ok small s fs ∧ BaseOffset s = b ∧ blockMode s = false ∧
    NextOffset s = next_of b fs ∧ position s = zlen (fs_bytes fs) ∧ lastWriteTime s = tail_ts fs) ss bs.
Proof.
  induction 1 as [|[b fs] bs (Hb & Hf & Hn & _) _ [ss IH]]; [by exists []|].
  destruct (stored small b fs Hb Hf Hn) as (s & Hs). exists (s :: ss). by constructor.
Qed.

Lemma sample_ready fuel now hz (bs : list (Z * list frm)) :
  Forall (λ '(b, fs), piece_fit b fs) bs →
  StronglySorted (λ x y, next_of x.1 x.2 ≤ y.1) bs → Forall (λ x, x.2 ≠ []) (removelast bs) →
  (length (concat bs.*2) < fuel)%nat →
  ∃ ss, ready fuel (pass_calm now hz) small ss bs.*2 ∅ ∧
    Forall2 (λ s '(b, fs), BaseOffset s = b ∧ blockMode s = false ∧ NextOffset s = next_of b fs ∧
      position s = zlen (fs_bytes fs) ∧ lastWriteTime s = tail_ts fs) ss bs.
Proof.
  intros Hbs Hso Hne Hfuel. destruct (sample_segments bs Hbs) as [ss Hss]. exists ss. split.
  - split; [split; [|split]|split; [|split; [|split; [done|split; [|split]]]]].
    + clear -Hss. induction Hss as [|s [b fs] ss bs [? _] _ IH]; by constructor.
    + clear -Hss Hso. unfold linked. revert Hso. induction Hss as [|s [b fs] ss bs (_ & Hb & _ & Hn & _) Hss IH]; intros Hso; [constructor|].
      apply StronglySorted_inv in Hso as [Hso Hx]. constructor; [by apply IH|]. rewrite Hn.
      clear -Hss Hx. induction Hss as [|s' [b' fs'] ss bs (_ & <- & _) _ IH]; [constructor|].
      apply Forall_cons in Hx as [? ?]. constructor; [done|by apply IH].
    + replace (removelast bs.*2) with (removelast bs).*2; [by apply Forall_fmap|].
      rewrite !removelast_firstn_len, length_fmap. by rewrite fmap_take.
    + clear -Hbs. induction Hbs as [|[b fs] bs (_ & _ & _ & ? & _) _ IH]; by constructor.
    + clear -Hbs. induction Hbs as [|[b fs] bs (_ & _ & _ & _ & ?) _ IH]; by constructor.
    + clear -Hss. induction Hss as [|s [b fs] ss bs _ _ IH]; constructor; [|done]. left. by rewrite lookup_empty.
    + intros j. by split_and!.
    + by intros m.
  - eapply Forall2_impl; [exact Hss|]. by intros s [b fs] (_ & ?).
Qed.

(** The sealed segments and the active one. *)
Lemma sample_pass fuel now hz (bs : list (Z * list frm)) b fs :
  Forall (λ '(b, fs), piece_fit b fs) (bs ++ [(b, fs)]) →
  StronglySorted (λ x y, next_of x.1 x.2 ≤ y.1) (bs ++ [(b, fs)]) → Forall (λ x, x.2 ≠ []) bs →
  (length (concat (bs.*2 ++ [fs])) < fuel)%nat →
  ∃ sealed act, ready fuel (pass_calm now hz) small (sealed ++ [act]) (bs.*2 ++ [fs]) ∅ ∧ length bs.*2 = length sealed ∧
    Forall2 (λ s '(b, fs), BaseOffset s = b ∧ blockMode s = false ∧ NextOffset s = next_of b fs ∧
      position s = zlen (fs_bytes fs) ∧ lastWriteTime s = tail_ts fs) (sealed ++ [act]) (bs ++ [(b, fs)]).
Proof.
  intros H1 H2 H3 H4. destruct (sample_ready fuel now hz (bs ++ [(b, fs)]) H1 H2) as (ss & Hr & HF); [by rewrite removelast_last|
    by rewrite fmap_app|].
  rewrite fmap_app in Hr. pose proof HF as HF'. apply Forall2_app_inv_r in HF as (sealed & l & HF & Hl & ->).
  apply Forall2_cons_inv_r in Hl as (act & l' & _ & Hl & ->).
  apply Forall2_nil_inv_r in Hl as ->. exists sealed, act. split; [exact Hr|]. split; [|done].
  rewrite length_fmap. symmetry. by eapply Forall2_length.
Qed.

End pass.

(** A record under the key [k], a byte. *)
Definition keyed_sample (o t attrs k : Z) : frm :=
  plain_frame o t attrs (Some (ascii_bytes [k])) (Some (ascii_bytes [118; o])).

Lemma keyed_sound o t attrs k :
  in_sint 8 attrs → sound (keyed_sample o t attrs k) ∧ f_attrs (keyed_sample o t attrs k) = attrs ∧
    f_key (keyed_sample o t attrs k) = Some (ascii_bytes [k]) ∧ f_hdrs (keyed_sample o t attrs k) = ∅.
Proof.
  intros Ha. assert (Hz : zlen (field_bytes (Some (ascii_bytes [k]))) + zlen (field_bytes (Some (ascii_bytes [118; o]))) < 2 ^ 30).
  { by vm_compute. }
  destruct (plain_legible o t attrs _ _ Ha Hz) as (Hl & Ea & Ek & _ & Eh). split; [|by split_and!].
  split; [done|]. left. exists (plain attrs (Some (ascii_bytes [k])) (Some (ascii_bytes [118; o]))), []. split; [by apply plain_readable|done].
Qed.

Ltac fit :=
  split_and!; [lia|lia|intros _; split_and!; [lia|lia| | | |by vm_compute]|by vm_compute| |];
  [repeat (apply Forall_cons; split); [split_and!; try lia; by vm_compute..|by apply Forall_nil]
  |by repeat (apply Forall_cons; split); [..|apply Forall_nil]
  |repeat constructor; cbn; lia
  |repeat (apply Forall_cons; split); [by apply keyed_sound..|by apply Forall_nil]
  |repeat (apply Forall_cons; split); [intros x Hx; vm_compute in Hx; injection Hx as <-; by vm_compute..|by apply Forall_nil]].

(** Two sealed segments, a key with copies in both and in the active one. *)
Definition two_keys : list (Z * list frm) :=
  [(0, [keyed_sample 0 7 0 1; keyed_sample 1 7 0 2]); (2, [keyed_sample 2 8 0 1]); (3, [keyed_sample 3 9 0 2])].

Lemma two_keys_fit : Forall (λ '(b, fs), piece_fit b fs) two_keys.
Proof. repeat (apply Forall_cons; split); [fit..|by apply Forall_nil]. Qed.

(** A pass that keeps only the newest copies below [c]. *)
Definition newest_below (c : Z) : CleanSpec :=
  {| ceiling := c; stripOnly := false; StripBelow := 0; StripHeaders := []; Aborted := None;
     TombstoneGCBelow := 0; TombstoneRetention := 0 |}.

Definition sealed_keys : list (list frm) := (removelast two_keys).*2.
Definition active_keys : list frm := [keyed_sample 3 9 0 2].

Lemma two_keys_log :
  ∃ sealed act, @ready half_lib 9 (pass_calm 1000 0) small (sealed ++ [act]) (sealed_keys ++ [active_keys]) ∅ ∧
    length sealed_keys = length sealed ∧ Forall (λ s, blockMode s = false) sealed.
Proof.
  destruct (@sample_pass half_lib half_laws 9 1000 0 (removelast two_keys) 3 active_keys) as (sealed & act & Hr & Hl & HF).
  - exact two_keys_fit.
  - repeat constructor; vm_compute; discriminate.
  - by repeat constructor.
  - cbn. lia.
  - exists sealed, act. split; [exact Hr|]. split; [exact Hl|]. apply Forall2_app_inv in HF as [HF _]; [|by rewrite <- Hl, length_fmap].
    clear -HF. induction HF as [|s [b fs] ss bs (_ & ? & _) _ IH]; by constructor.
Qed.

Lemma compact_keeps_values_witness :
  ∃ sealed act r kept fss', @compact half_lib 9 (pass_calm 1000 0) 0 0 0 (newest_below 3) (sealed ++ [act]) ∅ 1 = Some r ∧
    pr_list r = Some (kept ++ [act]) ∧
    (∀ k v, value_at (newest_below 3) 3 (concat fss') k v ↔
       value_at (newest_below 3) 3 (concat (sealed_keys ++ [active_keys])) k v) ∧
    keyed_sample 3 9 0 2 ∈ concat fss'.
Proof.
  destruct two_keys_log as (sealed & act & Hr & Hl & _). exists sealed, act.
  destruct (@compact_keeps_values half_lib half_laws 9 (pass_calm 1000 0) small 0 0 0 (newest_below 3) sealed act
    sealed_keys active_keys ∅ 1 Hr Hl eq_refl (or_introl (Z.le_refl 0))) as (r & kept & fss' & E & _ & El & _ & Hrd & Hce & _).
  exists r, kept, fss'. split; [exact E|]. split; [exact El|]. split; [intros k v; apply Hrd; by left|].
  apply Hce; [|vm_compute; discriminate]. cbn. do 3 right. by left.
Defined.

Lemma pass_stays_ready_witness :
  ∃ sealed act r kept fss', @compact half_lib 9 (pass_calm 1000 0) 0 0 0 (newest_below 3) (sealed ++ [act]) ∅ 1 = Some r ∧
    pr_list r = Some (kept ++ [act]) ∧
    @ready half_lib 9 (pass_calm 1000 0) small (kept ++ [act]) (fss' ++ [active_keys]) (pr_keys r).
Proof.
  destruct two_keys_log as (sealed & act & Hr & Hl & _). exists sealed, act.
  apply (@pass_stays_ready half_lib half_laws 9 (pass_calm 1000 0) small 0 0 0 (newest_below 3) sealed act
    sealed_keys active_keys ∅ 1 Hr Hl).
  split; [done|]. split; [intros s _; by left|]. split; [by vm_compute|]. split; [split; [cbn; lia|constructor]|].
  destruct Hr as (Hc & _). apply (@chain_bases half_lib) in Hc. rewrite fmap_app in Hc. by apply NoDup_app in Hc as [? _].
Defined.

Lemma compact_exact_witness :
  ∃ sealed act r kept fss', @compact half_lib 9 (pass_calm 1000 0) 0 0 0 (newest_below 3) (sealed ++ [act]) ∅ 1 = Some r ∧
    pr_list r = Some (kept ++ [act]) ∧ pr_err r = Ok () ∧
    ∀ g, g ∈ concat fss' → ∃ f, f ∈ concat sealed_keys ∧
      ¬ removable (newest_below 3) 3 1000 (concat (sealed_keys ++ [active_keys])) f ∧ kept_as (newest_below 3) f g.
Proof.
  destruct two_keys_log as (sealed & act & Hr & Hl & _). exists sealed, act.
  destruct (@compact_exact half_lib half_laws 9 (pass_calm 1000 0) small 0 0 0 (newest_below 3) sealed act
    sealed_keys active_keys ∅ 1 Hr Hl eq_refl) as (r & kept & fss' & E & Ee & El & _ & Hg); [lia|lia|lia|done|].
  destruct (Hg 3 (or_introl eq_refl)) as [_ Hg']. exists r, kept, fss'. exact (conj E (conj El (conj Ee Hg'))).
Defined.

(** Headers called [h] are stripped below [b]. *)
Definition stripping (c b : Z) : CleanSpec :=
  {| ceiling := c; stripOnly := false; StripBelow := b; StripHeaders := [ascii_bytes [104]]; Aborted := None;
     TombstoneGCBelow := 0; TombstoneRetention := 0 |}.

Lemma floor_sound_witness :
  ∃ sealed act r kept fss', @compact half_lib 9 (pass_calm 1000 0) 0 0 0 (stripping 3 3) (sealed ++ [act]) ∅ 1 = Some r ∧
    pr_list r = Some (kept ++ [act]) ∧
    ∀ g, g ∈ concat fss' → f_off g ≤ pr_verified r →
      is_control g = false ∧ (recorded g → has_any (f_hdrs g) [ascii_bytes [104]] = false).
Proof.
  destruct two_keys_log as (sealed & act & Hr & Hl & _). exists sealed, act.
  destruct (@floor_sound half_lib half_laws 9 (pass_calm 1000 0) small 0 0 0 (stripping 3 3) sealed act
    sealed_keys active_keys ∅ 1 Hr Hl eq_refl eq_refl) as (r & kept & fss' & E & El & _ & Hg); [cbn; lia|cbn; lia|].
  exists r, kept, fss'. split; [exact E|]. split; [exact El|]. intros g Hin Hle. destruct (Hg g Hin Hle) as (H1 & _ & H2).
  exact (conj H1 H2).
Defined.

End CompactPass.
