(* ===== verification/CompactLimits.v ===== *)
(** * Where a compaction pass departs from what is documented

    Theorems about [CompactLog.compact] and [CompactSegment.cleanSegment] whose
    conclusions a caller would not expect from the documentation: a record at the
    ceiling shadows the committed copies below it, the verified floor and the
    stamp of a digest cover records the pass did not strip, a segment protected by
    age brings a deleted value back, and a digest file left from before a
    truncation decides for records it does not describe. *)

From Stdlib Require Import ZArith Lia.
From stdpp Require Import base list numbers strings gmap sorting.
From coqutil Require Import Byte.
From S2P Require Import Prelude GoStd Text Wire Compress BlockV3 Block Framing EpochCache Index Segment.
From S2P Require Import SegmentIndex SegmentSearch SegmentReopen Log SegmentRewrite.
From S2P Require Import LogTruncate KeyDigest Compaction CompactRecord CompactSegment CompactLog CompactPass.

Open Scope Z_scope.

Module CompactLimits.
Import Segment SegmentIndex SegmentSearch SegmentReopen Log SegmentRewrite KeyDigest Compaction.
Import CompactRecord CompactSegment CompactLog CompactPass.

Section limits.
Context `{CodecLaws}.

(** ** What a pass removes *)

(** A place with a copy to drop is rewritten unless its age protects it. *)
Lemma drop_rewrites fuel io o spec minAge sealed act fssn lf seen ks ds m p j s x :
  ready_as fuel io o (sealed ++ [act]) (fssn ++ [lf]) seen ks →
  passing fuel io spec minAge sealed act fssn lf seen ds m p → stripOnly spec = false →
  (∀ i, plan spec (horizon_of io minAge) m sealed ds !! i = Some wantRewrite → did p i = true) →
  sealed !! j = Some s → horizon_of io minAge ≤ 0 ∨ lastWriteTime s ≤ horizon_of io minAge →
  dget m j x = true → did p j = true.
Proof.
  intros Hrd [Hds Hm _ _ _ _] Hso Hall Es Hage Hx. rewrite Hso in Hm. apply Hall.
  destruct (lookup_lt_is_Some_2 ds j) as [d Ed].
  { destruct Hrd as (_ & _ & _ & _ & _ & Hft & _). apply Forall3_length_lr in Hft. apply Forall2_length in Hds.
    rewrite Hds, <- Hft, length_app. apply lookup_lt_Some in Es. lia. }
  rewrite (plan_lookup _ _ _ _ _ _ _ _ Es Ed). unfold dispose.
  replace ((0 <? horizon_of io minAge) && (horizon_of io minAge <? lastWriteTime s)) with false.
  2: { symmetry. apply andb_false_iff. destruct Hage; [left; by apply Z.ltb_ge|right; by apply Z.ltb_ge]. }
  destruct (canSkip spec d m j) eqn:Hsk; [exfalso|done]. destruct (canSkip_facts spec d m j Hsk) as (Kd & _).
  destruct Hm as ((L1 & _ & _ & _ & Hcnt) & _). unfold dget in Hx. destruct (drops m !! j) as [[ss|]|] eqn:Edj; [|done|done].
  destruct (lookup_lt_is_Some_2 (bounds_of (sealed ++ [act])) j) as [[b n] Eb]; [rewrite <- L1; by eapply lookup_lt_Some|].
  destruct (Hcnt j ss b n Edj Eb) as (_ & Hc & _). specialize (Kd ss eq_refl). lia.
Qed.

(** A keyed record below the ceiling at an offset to drop does not survive. *)
Lemma dropped_gone fuel io o spec minAge sealed act fssn lf seen ks ds m p j f k :
  ready_as fuel io o (sealed ++ [act]) (fssn ++ [lf]) seen ks →
  passing fuel io spec minAge sealed act fssn lf seen ds m p →
  did p j = true → in_seg fssn j f → has_key k f → f_off f < ceiling spec → dget m j (f_off f) = true →
  ∀ g, g ∈ concat (passed (ps_ranges io) spec m (did p) (fssn ++ [lf])) → f_off g ≠ f_off f.
Proof.
  intros (Hc & Hs & _ & _ & Hrg & _) _ Hd Hf [Hctl Hk] Hlt Hx g [i Hg]%in_seg_concat E.
  assert (Hf' : in_seg (fssn ++ [lf]) j f) by (destruct Hf as (fs & Ef & ?); exists fs; split; [by apply lookup_app_l_Some|done]).
  apply in_seg_passed in Hg as (f' & Hf2 & Eg). destruct (chain_in_order _ _ _ Hc) as (_ & _ & Hu).
  destruct (chain_sound _ _ _ Hc Hs i f' Hf2) as (Hsf & b & Hb).
  assert (f_off g = f_off f') as E'.
  { destruct (did p i); [|by subst]. by destruct (out_same (ps_ranges io) spec Hrg b _ f' g Hb Hsf Eg). }
  destruct (Hu i j f' f Hf2 Hf') as [-> ->]; [congruence|]. rewrite Hd in Eg. unfold out, fate in Eg.
  unfold dget in Hx. rewrite (proj2 (Z.leb_gt _ _) Hlt), Hctl, Hk, Hx in Eg. by destruct (aborts spec (f_off f)).
Qed.

(** The record at the ceiling counts as the newest copy of its key.  A
    committed copy below the ceiling is removed when the record at the ceiling
    has its key, although the ceiling is the offset of the first record that may
    be undecided and such a record is documented never to count. *)
Theorem undecided_shadows fuel io o minAge mr bu spec sealed act fssn lf ks i j j' k f u :
  ready fuel io o (sealed ++ [act]) (fssn ++ [lf]) ks → length fssn = length sealed → stripOnly spec = false →
  minAge ≤ 0 → mr ≤ 0 → bu ≤ 0 → (∀ j, fails_early (ps_clean io j) = false) →
  in_seg fssn j f → has_key k f → f_off f < ceiling spec → aborts spec (f_off f) = false →
  in_seg (fssn ++ [lf]) j' u → has_key k u → f_off u = ceiling spec → aborts spec (f_off u) = false →
  ∃ r kept fss', compact fuel io minAge mr bu spec (sealed ++ [act]) ks i = Some r ∧
    pr_list r = Some (kept ++ [act]) ∧ chain_ok o (kept ++ [act]) fss' ∧ u ∈ concat fss' ∧
    ∀ g, g ∈ concat fss' → f_off g ≠ f_off f.
Proof.
  intros Hrd Hlen Hso Hma Hmr Hbu Hio Hf Hkf Hlt Haf Hu Hku Eu Hau. pose proof (ready_seen _ _ _ _ _ _ Hrd) as Hra.
  destruct (full_run fuel io o minAge mr bu spec sealed act fssn lf _ ks i Hra Hlen Hso Hmr Hbu Hio)
    as (ds & m & p & r & kept & fss' & Hp & E & _ & El & Hch & Ec & Hall & _).
  exists r, kept, (fss' ++ [lf]). split; [done|]. split; [done|]. split; [done|].
  assert (Hf' : in_seg (fssn ++ [lf]) j f) by (destruct Hf as (fs & Ef & ?); exists fs; split; [by apply lookup_app_l_Some|done]).
  assert (Hcf : ∀ i x, in_seg (fssn ++ [lf]) i x → has_key k x → f_off x ≤ ceiling spec → aborts spec (f_off x) = false →
    contends spec (fssn ++ [lf]) k i x).
  { intros i' x Hx Hkx Hle Ha. split; [done|]. split; [done|]. unfold competing, rec_of. cbn [offset].
    rewrite Ha, (proj2 (Z.leb_le _ _) Hle). done. }
  assert (Hx : dget m j (f_off f) = true).
  { destruct Hp as [_ Hm _ _ _ _]. rewrite Hso in Hm. destruct Hm as (_ & Hd & _). apply Hd. exists f. split; [done|]. exists k. split; [apply Hcf; [done|done|lia|done]|].
    left. split; [done|]. exists j', u. split; [apply Hcf; [done|done|lia|done]|lia]. }
  destruct (passed_left io spec m sealed fssn lf p Hlen (pa_advanced _ _ _ _ _ _ _ _ _ _ _ _ Hp)) as [_ P2].
  assert (Ec' : concat (fss' ++ [lf]) = concat (passed (ps_ranges io) spec m (did p) (fssn ++ [lf])))
    by (by rewrite P2, !concat_app, Ec).
  rewrite Ec'. split.
  - destruct (pass_keeps fuel io o spec sealed act fssn lf ks _ Hra Hlen m p u) as (g & Hg & _ & Hgu);
      [apply in_seg_concat; by exists j'|left; lia|]. by rewrite <- Hgu by lia.
  - destruct Hf as (fs & Ef & Hff). destruct (lookup_lt_is_Some_2 sealed j) as [s Es]; [apply lookup_lt_Some in Ef; lia|].
    eapply (dropped_gone _ _ _ _ _ _ _ _ _ _ _ _ _ _ j f k); try done; [|by exists fs].
    eapply drop_rewrites; try done. left. unfold horizon_of. by rewrite (proj2 (Z.ltb_ge 0 minAge)) by lia.
Qed.

(** ** The floor and the stamp *)

Lemma assemble_all disp ss src dn v s :
  length disp = length ss → length src = length ss → length dn = length ss →
  (∀ i s, ss !! i = Some s → 0 ≤ NextOffset s < 2 ^ 63) →
  (∀ i s s', ss !! i = Some s → src !! i = Some s' → NextOffset s' = NextOffset s) →
  (∀ j, (j < length ss)%nat → passes disp dn j) → last ss = Some s →
  (assemble disp src dn true v).2 = NextOffset s - 1.
Proof.
  revert disp src dn v. induction ss as [|s0 ss IH]; intros [|d disp] [|s1 src] [|n dn] v; try done.
  cbn [length]. intros L1 L2 L3 Hr Hn Hp Hl.
  assert (Hse : sint 64 (NextOffset s1 - 1) = NextOffset s0 - 1).
  { pose proof (Hr 0%nat s0 eq_refl). rewrite (Hn 0%nat s0 s1) by done. apply sint_small; [done|]. unfold in_sint.
    change (2 ^ (64 - 1)) with (2 ^ 63). lia. }
  assert (Hgo : (assemble disp src dn true (NextOffset s0 - 1)).2 = NextOffset s - 1).
  { destruct ss as [|s2 ss]; [destruct disp; [|done]; by injection Hl as ->|].
    apply IH; [lia|lia|lia|intros k; apply (Hr (S k))|intros k; apply (Hn (S k))| |done].
    intros j Hj. apply (Hp (S j)). lia. }
  cbn [assemble]. rewrite Hse. destruct (Hp 0%nat ltac:(lia)) as [[= ->]|[[= ->] [y [= ->]]]];
    by destruct (assemble disp src dn true (NextOffset s0 - 1)).
Qed.

(** The floor of a pass with no age limit, no budget and no fault is the end
    of the last sealed segment or the strip bound, whatever the pass could strip:
    it covers the records at or above the ceiling, which are kept as they are with
    their headers, and with no strip headers named it covers control records the
    pass leaves in place.  The floor is documented to say that no such record is
    left at or below it. *)
Theorem floor_overclaims fuel io o minAge mr bu spec sealed act fssn lf ks i s :
  ready fuel io o (sealed ++ [act]) (fssn ++ [lf]) ks → length fssn = length sealed → stripOnly spec = false →
  minAge ≤ 0 → mr ≤ 0 → bu ≤ 0 → (∀ j, fails_early (ps_clean io j) = false) →
  last sealed = Some s → 0 ≤ StripBelow spec < 2 ^ 63 →
  ∃ r kept fss', compact fuel io minAge mr bu spec (sealed ++ [act]) ks i = Some r ∧
    pr_list r = Some (kept ++ [act]) ∧ chain_ok o (kept ++ [act]) fss' ∧
    pr_verified r = Z.min (NextOffset s - 1) (StripBelow spec - 1) ∧
    ∀ f, f ∈ concat fssn → ceiling spec ≤ f_off f ∨ StripHeaders spec = [] ∧ is_control f = true → f ∈ concat fss'.
Proof.
  intros Hrd Hlen Hso Hma Hmr Hbu Hio Hl Hsb. pose proof (ready_seen _ _ _ _ _ _ Hrd) as Hra.
  destruct (full_run fuel io o minAge mr bu spec sealed act fssn lf _ ks i Hra Hlen Hso Hmr Hbu Hio)
    as (ds & m & p & r & kept & fss' & Hp & E & _ & El & Hch & Ec & Hall & Ev).
  exists r, kept, (fss' ++ [lf]). split; [done|]. split; [done|]. split; [done|].
  pose proof Hp as [Hds Hm (L1 & L2 & Hpl & _) _ _ _]. rewrite Hso in Hm. pose proof Hrd as ((HF & _) & Hs & _ & _ & _ & _ & Hrg).
  apply Forall2_app_inv in HF as [HFn _]; [|done].
  assert (Hset : ∀ j, (j < length sealed)%nat → settled_at io spec minAge sealed ds m p j) by (intros j Hj; by eapply all_settled).
  split.
  - rewrite Ev, sint_small; [|done|unfold in_sint; change (2 ^ (64 - 1)) with (2 ^ 63); lia]. f_equal.
    apply (assemble_all _ sealed); [erewrite plan_length; [done|exact Hra|done|done]|done|done| | | |done].
    + intros j s' Es'. destruct (Forall2_lookup_l _ _ _ _ _ HFn Es') as (fs & _ & Hso'). rewrite (seg_next o s' fs Hso').
      destruct Hso' as (Hh & _ & _ & Hn). apply holds_frames in Hh. pose proof (next_of_base _ _ Hh). destruct Hh as (? & _). lia.
    + intros j s' s2 Es' Es2. destruct (Forall2_lookup_l _ _ _ _ _ HFn Es') as (fs & Ef & _).
      destruct (lookup_lt_is_Some_2 (pg_done p) j) as [dn Edn]; [apply lookup_lt_Some in Es'; lia|].
      specialize (Hpl j s' fs dn Es' Ef Edn). rewrite Es2 in Hpl. destruct dn as [[y|]|]; cbn in Hpl.
      * destruct Hpl as (_ & _ & _ & s3 & [= <-] & ?). done.
      * destruct Hpl as (_ & s3 & [= <-] & ?). done.
      * by injection Hpl as ->.
    + intros j Hj. destruct (Hset j Hj) as [Hd|Hd]; [right|by left]. split; [by apply (pa_did _ _ _ _ _ _ _ _ _ _ _ _ Hp)|].
      unfold did in Hd. destruct (pg_done p !! j) as [[y|]|]; [by exists y|done|done].
  - intros f [j Hf]%in_seg_concat Hx. rewrite concat_app, Ec. apply elem_of_app. left. apply in_seg_concat. exists j.
    eapply settled_out; try done; [apply Hset; destruct Hf as (fs & Ef & _); apply lookup_lt_Some in Ef; lia|].
    exists f. split; [done|]. unfold out, fate. destruct (Z.leb_spec (ceiling spec) (f_off f)) as [|Hlt]; [done|].
    destruct Hx as [?|[Eh ->]]; [lia|]. unfold strips. rewrite Eh. change (0 <? zlen []) with false. by rewrite andb_false_r.
Qed.

(** The stamp a rewrite puts on the digest claims more than the rewrite
    established.  In a raw segment of undamaged records below the strip bound, or one
    whose blocks were all carried over whole, the stamp covers every later strip
    bound, although records at or above the ceiling, and those of a carried
    block, keep the headers they had.  So once the ceiling has passed them a later
    pass finds nothing to do in the segment, and they keep those headers. *)
Theorem stamp_overclaims rg spec d fuel io i seg fs dg spec' m' j :
  fair rg → orderly io → fails_early io = false → cs_digest io = false →
  holds seg fs → codec_ok seg → Forall sound fs → (length fs < fuel)%nat → survivors rg spec d fs ≠ [] →
  stripActive spec = true → in_sint 64 (StripBelow spec) → short_names (StripHeaders spec) →
  blockMode seg = false ∧ Forall (λ f, f_off f < StripBelow spec ∧ damaged f = false) fs ∨ carried_only spec d seg fs →
  StripHeaders spec' = StripHeaders spec → StripBelow spec' ≤ MaxInt64 →
  (∀ x, default None (drops m' !! j) = Some x → ds_count x ≤ 0) → default false (abortedKeyed m' !! j) = false →
  (∀ f, f ∈ survivors rg spec d fs → is_control f = false ∧ aborts spec' (f_off f) = false) →
  ∃ r y dg', cleanSegment fuel io rg i spec seg d dg = Some r ∧ rw_result r = Ok (Some y) ∧
    holds y (survivors rg spec d fs) ∧ loadKeyDigest (BaseOffset y) (position y) (rw_digest r) = Ok (Some dg') ∧
    stripStampCovers dg' (StripBelow spec') (StripHeaders spec') = true ∧ canSkip spec' dg' m' j = true.
Proof.
  intros Hrg Hio Hfe Hcd Hh Hc Hs Hfuel Hne Hact Hsb Hsn Hcase Eh Hmax Hdr Hab Hleft.
  destruct (cleanSegment_spec rg Hrg spec d fuel io i seg fs dg Hio Hh Hc Hs Hfuel) as (r & E & Hr).
  destruct Hr as [(? & _)|[[? _]|[_ (y & t & Er & Hy & _ & _ & _ & _ & Hraw & Hcar & Hdg)]]]; [congruence|done|].
  rewrite Hcd in Hdg. destruct Hdg as (x & Ex & Hd & Eb & Ep & Es & Hok).
  destruct (load_encoded x (Hok Hsb Hsn)) as [rest El].
  assert (Ht : residualStrippable t = false).
  { destruct Hcase as [[Hrw Hall]|Hco]; [|by rewrite (Hcar Hco)]. rewrite (Hraw Hrw). clear -Hall. revert Hall.
    assert (Hn : residualStrippable nothing_counted = false) by done. revert Hn. generalize nothing_counted as t0.
    induction fs as [|f fs IH]; intros t0 Hn Hall; [done|]. apply Forall_cons in Hall as [[Hf Hdm] Hall]. cbn [foldl].
    apply IH; [|done]. unfold clean_step. destruct (fate _ _ _); [|done|].
    - rewrite (proj2 (Z.leb_gt _ _)) by lia. by rewrite andb_false_r.
    - rewrite Hdm. by destruct (has_any (f_hdrs f) (StripHeaders spec)). }
  unfold strip_stamp in Es. rewrite Hact, Ht in Es. injection Es as Ev Eh2.
  assert (Hcov : stripStampCovers (streamed x rest) (StripBelow spec') (StripHeaders spec') = true).
  { unfold stripStampCovers. cbn [streamed stripVerifiedBelow stripHdrs]. rewrite Ev, (proj2 (Z.ltb_ge _ _)) by lia.
    apply bool_decide_eq_true. congruence. }
  exists r, y, (streamed x rest). split; [done|]. split; [done|]. split; [done|]. split; [by rewrite Ex, <- Eb, <- Ep|].
  split; [done|]. destruct (describes_streamed x _ rest Hd) as (_ & Hu & Hctl). unfold canSkip. rewrite Hcov, !andb_false_r, orb_false_r.
  replace (match drops m' !! j with Some (Some s) => 0 <? ds_count s | _ => false end) with false.
  2: { destruct (drops m' !! j) as [[z|]|] eqn:Ed; [|done|done]. symmetry. apply Z.ltb_ge. by apply Hdr. }
  rewrite Hab. replace (control (streamed x rest)) with (@nil Z).
  2: { symmetry. rewrite Hctl. apply elem_of_nil_inv. intros z (f & -> & Hin)%list_elem_of_fmap.
       apply list_elem_of_filter in Hin as [Hc1 Hin]. destruct (Hleft f Hin). congruence. }
  cbn [existsb orb].
  replace (existsb _ (unkeyed (streamed x rest))) with false.
  2: { symmetry. apply not_true_iff_false. intros (z & _ & Hz)%existsb_exists. by rewrite andb_false_r in Hz. }
  rewrite andb_false_r. apply negb_true_iff, not_true_iff_false. intros (z & Hz & Hz2)%existsb_exists.
  apply list_elem_of_In in Hz. rewrite Hu in Hz. apply list_elem_of_fmap in Hz as (f & -> & Hin).
  apply list_elem_of_filter in Hin as [_ Hin]. destruct (Hleft f Hin) as [_ Ha]. apply andb_prop in Hz2 as [_ Hz2].
  unfold rec_of in Hz2. cbn [offset] in Hz2. congruence.
Qed.

(** ** Age *)

(** A deleted value comes back when the segment that holds it is protected by
    its age and the one that holds the newer tombstone is not.  The pass removes
    the expired tombstone and leaves the value it covered, so the key reads the
    old value again.  Segments are not written in the order of their newest
    timestamps when those are the callers'. *)
Theorem age_brings_back fuel io o minAge mr bu spec sealed act fssn lf ks i a b sa sb k f t :
  ready fuel io o (sealed ++ [act]) (fssn ++ [lf]) ks → length fssn = length sealed → stripOnly spec = false →
  mr ≤ 0 → bu ≤ 0 → (∀ j, fails_early (ps_clean io j) = false) →
  sealed !! a = Some sa → sealed !! b = Some sb →
  0 < horizon_of io minAge < lastWriteTime sa → lastWriteTime sb ≤ horizon_of io minAge →
  in_seg fssn a f → counts spec k f → tombstone f = false →
  in_seg fssn b t → counts spec k t → f_off t < ceiling spec → expired_rec spec (ps_now io) (rec_of t) = true →
  (∀ g, g ∈ concat (fssn ++ [lf]) → counts spec k g → g = t ∨ f_off g ≤ f_off f) → f_off f < f_off t →
  (∀ v, ¬ reads spec (concat (fssn ++ [lf])) k v) ∧
  ∃ r kept fss', compact fuel io minAge mr bu spec (sealed ++ [act]) ks i = Some r ∧
    pr_list r = Some (kept ++ [act]) ∧ chain_ok o (kept ++ [act]) fss' ∧ reads spec (concat fss') k (f_value f).
Proof.
  intros Hrd Hlen Hso Hmr Hbu Hio Ea Eb Hza Hzb Hf Hkf Htf Ht Hkt Hlt Hex Hmax Hft. pose proof (ready_seen _ _ _ _ _ _ Hrd) as Hra.
  assert (Hup : ∀ j x, in_seg fssn j x → in_seg (fssn ++ [lf]) j x).
  { intros j x (fs & Ef & ?). exists fs. split; [by apply lookup_app_l_Some|done]. }
  pose proof (Hup _ _ Hf) as Hf'. pose proof (Hup _ _ Ht) as Ht'. split.
  { intros v (g & Hg & Hkg & Hm & Htg & _). assert (Hgt : f_off t ≤ f_off g) by (apply Hm; [apply in_seg_concat; by exists b|done]).
    destruct (Hmax g Hg Hkg) as [->|?]; [|lia]. apply expired_tombstone in Hex. congruence. }
  destruct (full_run fuel io o minAge mr bu spec sealed act fssn lf _ ks i Hra Hlen Hso Hmr Hbu Hio)
    as (ds & m & p & r & kept & fss' & Hp & E & _ & El & Hch & Ec & Hall & _).
  exists r, kept, (fss' ++ [lf]). split; [done|]. split; [done|]. split; [done|].
  destruct (passed_left io spec m sealed fssn lf p Hlen (pa_advanced _ _ _ _ _ _ _ _ _ _ _ _ Hp)) as [_ P2].
  assert (Ec' : concat (fss' ++ [lf]) = concat (passed (ps_ranges io) spec m (did p) (fssn ++ [lf]))) by (by rewrite P2, !concat_app, Ec).
  rewrite Ec'.
  assert (Hx : dget m b (f_off t) = true).
  { destruct Hp as [_ Hm _ _ _ _]. rewrite Hso in Hm. destruct Hm as (_ & Hd & _). apply Hd. exists t. split; [done|]. exists k. split; [split; [done|apply Hkt]|].
    right. split; [done|]. intros j g (Hg & Hkg). destruct (Hmax g) as [->|?]; [apply in_seg_concat; by exists j|done|done|lia]. }
  assert (Hdb : did p b = true) by (eapply drop_rewrites; try done; by right).
  assert (Hda : did p a = false).
  { apply not_true_iff_false. intros Hd. apply (pa_did _ _ _ _ _ _ _ _ _ _ _ _ Hp) in Hd.
    apply plan_inv in Hd as (s & d & Es & _ & Ed). rewrite Ea in Es. injection Es as <-. unfold dispose in Ed.
    by rewrite (proj2 (Z.ltb_lt 0 _)), (proj2 (Z.ltb_lt _ (lastWriteTime sa))) in Ed by lia. }
  exists f. split; [apply in_seg_concat; exists a; apply in_seg_passed; exists f; by rewrite Hda|]. split; [done|]. split; [|done].
  intros g Hg Hkg. destruct (pass_origin fuel io o spec sealed act fssn lf ks _ Hra m p g Hg) as (g0 & Hg0 & Hsr).
  assert (Hk0 : counts spec k g0).
  { apply (same_contends spec k g g0); [|done]. destruct Hsr as (? & ? & ? & ? & ? & ?). split_and!; done. }
  destruct (Hmax g0 Hg0 Hk0) as [->|?]; [exfalso|destruct Hsr as (-> & _); done].
  eapply (dropped_gone _ _ _ _ _ _ _ _ _ _ _ _ _ _ b t k Hra Hp Hdb Ht (proj1 Hkt) Hlt Hx g Hg). by destruct Hsr.
Qed.

(** ** A digest of something else *)

(** A digest file is taken for a segment's if it names the segment's base
    offset and size, so one left behind by a truncation is taken once the segment
    has grown to its old size.  Then a record is removed because of what the
    digest says of its offset: here the only copy of a key, which reads its value
    before the pass and nothing after it. *)
Theorem stale_digest_loses fuel io o minAge mr bu spec sealed act fssn lf seen ks i j k k' f f0 g0 j0 :
  ready_as fuel io o (sealed ++ [act]) (fssn ++ [lf]) seen ks → length fssn = length sealed → stripOnly spec = false →
  minAge ≤ 0 → mr ≤ 0 → bu ≤ 0 → (∀ j, fails_early (ps_clean io j) = false) →
  in_seg fssn j f → counts spec k f → tombstone f = false → f_off f < ceiling spec →
  (∀ g, g ∈ concat (fssn ++ [lf]) → counts spec k g → g = f) →
  contends spec seen k' j f0 → f_off f0 = f_off f → contends spec seen k' j0 g0 → f_off f0 < f_off g0 →
  reads spec (concat (fssn ++ [lf])) k (f_value f) ∧
  ∃ r kept fss', compact fuel io minAge mr bu spec (sealed ++ [act]) ks i = Some r ∧
    pr_list r = Some (kept ++ [act]) ∧ chain_ok o (kept ++ [act]) fss' ∧ ∀ v, ¬ reads spec (concat fss') k v.
Proof.
  intros Hra Hlen Hso Hma Hmr Hbu Hio Hf Hkf Htf Hlt Honly Hc0 E0 Hg0 Hog.
  assert (Hf' : in_seg (fssn ++ [lf]) j f) by (destruct Hf as (fs & Ef & ?); exists fs; split; [by apply lookup_app_l_Some|done]).
  split.
  { exists f. split; [apply in_seg_concat; by exists j|]. split; [done|]. split; [|done]. intros g Hg Hkg.
    by rewrite (Honly g Hg Hkg). }
  destruct (full_run fuel io o minAge mr bu spec sealed act fssn lf _ ks i Hra Hlen Hso Hmr Hbu Hio)
    as (ds & m & p & r & kept & fss' & Hp & E & _ & El & Hch & Ec & Hall & _).
  exists r, kept, (fss' ++ [lf]). split; [done|]. split; [done|]. split; [done|].
  destruct (passed_left io spec m sealed fssn lf p Hlen (pa_advanced _ _ _ _ _ _ _ _ _ _ _ _ Hp)) as [_ P2].
  assert (Ec' : concat (fss' ++ [lf]) = concat (passed (ps_ranges io) spec m (did p) (fssn ++ [lf]))) by (by rewrite P2, !concat_app, Ec).
  rewrite Ec'.
  assert (Hx : dget m j (f_off f) = true).
  { destruct Hp as [_ Hm _ _ _ _]. rewrite Hso in Hm. destruct Hm as (_ & Hd & _). apply Hd. exists f0. split; [done|]. exists k'. split; [done|]. left.
    split; [lia|]. by exists j0, g0. }
  assert (Hdj : did p j = true).
  { destruct Hf as (fs & Ef & _). destruct (lookup_lt_is_Some_2 sealed j) as [s Es]; [apply lookup_lt_Some in Ef; lia|].
    eapply drop_rewrites; try done. left. unfold horizon_of. by rewrite (proj2 (Z.ltb_ge 0 minAge)) by lia. }
  intros v (g & Hg & Hkg & _). destruct (pass_origin fuel io o spec sealed act fssn lf ks _ Hra m p g Hg) as (h & Hh & Hsr).
  assert (Hkh : counts spec k h).
  { apply (same_contends spec k g h); [|done]. destruct Hsr as (? & ? & ? & ? & ? & ?). split_and!; done. }
  rewrite (Honly h Hh Hkh) in Hsr.
  eapply (dropped_gone _ _ _ _ _ _ _ _ _ _ _ _ _ _ j f k Hra Hp Hdj Hf (proj1 Hkf) Hlt Hx g Hg). by destruct Hsr.
Qed.

End limits.

(** ** Witnesses *)

Lemma undecided_shadows_witness :
  ∃ sealed act r kept fss', @compact half_lib 9 (pass_calm 1000 0) 0 0 0 (newest_below 2) (sealed ++ [act]) ∅ 1 = Some r ∧
    pr_list r = Some (kept ++ [act]) ∧ keyed_sample 2 8 0 1 ∈ concat fss' ∧ ∀ g, g ∈ concat fss' → f_off g ≠ 0.
Proof.
  destruct two_keys_log as (sealed & act & Hr & Hl & _). exists sealed, act.
  destruct (@undecided_shadows half_lib half_laws 9 (pass_calm 1000 0) small 0 0 0 (newest_below 2) sealed act
    sealed_keys active_keys ∅ 1 0 1 (ascii_bytes [1]) (keyed_sample 0 7 0 1) (keyed_sample 2 8 0 1) Hr Hl eq_refl)
    as (r & kept & fss' & E & El & _ & Hu & Hg).
  1-3: lia.
  1: done.
  1: eexists; split; [reflexivity|by left].
  1: by split; vm_compute.
  1-2: done.
  1: eexists; split; [reflexivity|by left].
  1: by split; vm_compute.
  1-2: done.
  exists r, kept, fss'. exact (conj E (conj El (conj Hu Hg))).
Defined.

(** A control record among the sealed ones. *)
Definition marked : list (Z * list frm) := [(0, [keyed_sample 0 7 AttrControl 1; keyed_sample 1 7 0 2])].
Definition unmarked : list frm := [keyed_sample 2 8 0 3].

Lemma marked_fit : Forall (λ '(b, fs), piece_fit b fs) (marked ++ [(2, unmarked)]).
Proof. repeat (apply Forall_cons; split); [fit..|by apply Forall_nil]. Qed.

Definition no_headers : CleanSpec :=
  {| ceiling := 9; stripOnly := false; StripBelow := 9; StripHeaders := []; Aborted := None;
     TombstoneGCBelow := 0; TombstoneRetention := 0 |}.

Lemma floor_overclaims_witness :
  ∃ sealed act r kept fss', @compact half_lib 9 (pass_calm 1000 0) 0 0 0 no_headers (sealed ++ [act]) ∅ 1 = Some r ∧
    pr_list r = Some (kept ++ [act]) ∧ pr_verified r = 1 ∧
    keyed_sample 0 7 AttrControl 1 ∈ concat fss' ∧ is_control (keyed_sample 0 7 AttrControl 1) = true.
Proof.
  destruct (@sample_pass half_lib half_laws 9 1000 0 marked 2 unmarked marked_fit) as (sealed & act & Hr & Hl & HF).
  - repeat constructor; vm_compute; discriminate.
  - by repeat constructor.
  - cbn. lia.
  - apply Forall2_app_inv in HF as [HF _]; [|by rewrite <- Hl, length_fmap].
    apply Forall2_cons_inv_r in HF as (s & l & (_ & _ & En & _) & HF & ->). apply Forall2_nil_inv_r in HF as ->.
    exists [s], act.
    destruct (@floor_overclaims half_lib half_laws 9 (pass_calm 1000 0) small 0 0 0 no_headers [s] act
      marked.*2 unmarked ∅ 1 s Hr Hl eq_refl) as (r & kept & fss' & E & El & _ & Ev & Hf); [lia|lia|lia|done|done|cbn; lia|].
    exists r, kept, fss'. split; [exact E|]. split; [exact El|]. split; [rewrite Ev, En; by vm_compute|].
    split; [|by vm_compute]. apply Hf; [cbn; by left|]. right. split; [done|by vm_compute].
Defined.

(** An old value in a segment written late, under a tombstone in one written
    early. *)
Definition skewed : list (Z * list frm) :=
  [(0, [keyed_sample 0 100 0 1]); (1, [keyed_sample 1 5 AttrTombstone 1])].

Lemma skewed_fit : Forall (λ '(b, fs), piece_fit b fs) (skewed ++ [(2, unmarked)]).
Proof. repeat (apply Forall_cons; split); [fit..|by apply Forall_nil]. Qed.

Definition collecting : CleanSpec :=
  {| ceiling := 9; stripOnly := false; StripBelow := 0; StripHeaders := []; Aborted := None;
     TombstoneGCBelow := 9; TombstoneRetention := 100 |}.

Lemma age_brings_back_witness :
  ∃ sealed act r kept fss', @compact half_lib 9 (pass_calm 1000 60) 10 0 0 collecting (sealed ++ [act]) ∅ 1 = Some r ∧
    pr_list r = Some (kept ++ [act]) ∧ (∀ v, ¬ reads collecting (concat (skewed.*2 ++ [unmarked])) (ascii_bytes [1]) v) ∧
    reads collecting (concat fss') (ascii_bytes [1]) (Some (ascii_bytes [118; 0])).
Proof.
  destruct (@sample_pass half_lib half_laws 9 1000 60 skewed 2 unmarked skewed_fit) as (sealed & act & Hr & Hl & HF).
  - repeat constructor; vm_compute; discriminate.
  - by repeat constructor.
  - cbn. lia.
  - apply Forall2_app_inv in HF as [HF _]; [|by rewrite <- Hl, length_fmap].
    apply Forall2_cons_inv_r in HF as (sa & l & (_ & _ & _ & _ & Ta) & HF & ->).
    apply Forall2_cons_inv_r in HF as (sb & l' & (_ & _ & _ & _ & Tb) & HF & ->). apply Forall2_nil_inv_r in HF as ->.
    exists [sa; sb], act.
    destruct (@age_brings_back half_lib half_laws 9 (pass_calm 1000 60) small 10 0 0 collecting [sa; sb] act
      skewed.*2 unmarked ∅ 1 0 1 sa sb (ascii_bytes [1]) (keyed_sample 0 100 0 1) (keyed_sample 1 5 AttrTombstone 1)
      Hr Hl eq_refl) as (Hno & r & kept & fss' & E & El & _ & Hrd).
    1-2: lia.
    1-3: done.
    1: rewrite Ta; by vm_compute.
    1: rewrite Tb; vm_compute; discriminate.
    1: eexists; split; [reflexivity|by left].
    1: by split_and!; vm_compute.
    1: by vm_compute.
    1: eexists; split; [reflexivity|by left].
    1: by split_and!; vm_compute.
    1: done.
    1: by vm_compute.
    1: { intros g Hg Hk. cbn in Hg. apply elem_of_cons in Hg as [->|Hg]; [by right|].
         apply elem_of_cons in Hg as [->|Hg]; [by left|]. apply list_elem_of_singleton in Hg as ->.
         destruct Hk as [[_ Hk] _]. vm_compute in Hk. discriminate Hk. }
    1: done.
    exists r, kept, fss'. split; [exact E|]. split; [exact El|]. split; [exact Hno|]. exact Hrd.
Defined.

(** A record with the header [h]. *)
Definition headed : Message :=
  {| MagicByte := 0; Attributes := 0; Key := Some (ascii_bytes [1]); Value := None;
     Headers := {[ ascii_bytes [104] := Some (ascii_bytes [120]) ]}; Timestamp := 0; LeaderEpoch := 0 |}.

Definition headed_order : headerOrder := [(ascii_bytes [104], Some (ascii_bytes [120]))].

Definition headed_sample (o : Z) : frm :=
  {| f_off := o; f_ts := 7; f_ep := 0; f_data := record_bytes headed headed_order |}.

Lemma headed_sound o :
  sound (headed_sample o) ∧ is_control (headed_sample o) = false ∧ damaged (headed_sample o) = false ∧
  has_any (f_hdrs (headed_sample o)) [ascii_bytes [104]] = true.
Proof.
  assert (R : readable headed headed_order).
  { split; [unfold headed; cbn [Headers]; by rewrite map_to_list_singleton|]. split; [by vm_compute|]. split; [by vm_compute|].
    split; [by vm_compute|]. split; [by repeat constructor|]. split; by vm_compute. }
  destruct (legible_record (headed_sample o) headed headed_order R eq_refl) as (Hl & Ea & _ & _ & Eh).
  assert (Hr : recorded (headed_sample o)) by (by exists headed, headed_order).
  split; [split; [done|by left]|]. split; [unfold is_control; by rewrite Ea|].
  split; [unfold damaged; by rewrite (recorded_crc _ Hr)|]. unfold has_any. cbn [existsb]. rewrite orb_false_r.
  apply bool_decide_eq_true. destruct (f_hdrs (headed_sample o) !! ascii_bytes [104]) as [x|] eqn:E; [by eexists|exfalso].
  assert (Hx : (Some <$> f_hdrs (headed_sample o)) !! ascii_bytes [104] = None) by (by rewrite lookup_fmap, E).
  rewrite Eh in Hx. unfold headed in Hx. cbn [Headers] in Hx. by rewrite lookup_singleton_eq in Hx.
Qed.

Lemma headed_frames : frames_ok 0 [headed_sample 0].
Proof.
  split_and!; [lia|lia| | | |by vm_compute].
  - apply Forall_cons; split; [split_and!; try lia; by vm_compute|by apply Forall_nil].
  - by apply Forall_cons; split; [|apply Forall_nil].
  - repeat constructor.
Qed.

Lemma stamp_overclaims_witness :
  ∃ seg r y dg', @cleanSegment half_lib 9 clean_calm (ps_ranges (pass_calm 0 0)) 1 (stripping 0 5) seg None None = Some r ∧
    rw_result r = Ok (Some y) ∧ @holds half_lib y [headed_sample 0] ∧
    has_any (f_hdrs (headed_sample 0)) [ascii_bytes [104]] = true ∧
    loadKeyDigest (BaseOffset y) (position y) (rw_digest r) = Ok (Some dg') ∧
    canSkip (stripping 9 9) dg' {| drops := []; abortedKeyed := []; stripKeyed := []; gcSegs := [] |} 0 = true.
Proof.
  destruct (@stored half_lib half_laws small 0 [headed_sample 0]) as (seg & (Hh & Hc & _) & _ & Hm & _);
    [lia|intros _; apply headed_frames|by vm_compute|].
  destruct (headed_sound 0) as (Hs & Hct & Hdm & Hha). exists seg.
  assert (Esv : survivors (ps_ranges (pass_calm 0 0)) (stripping 0 5) None [headed_sample 0] = [headed_sample 0]) by reflexivity.
  destruct (@stamp_overclaims half_lib half_laws (ps_ranges (pass_calm 0 0)) (stripping 0 5) None 9 clean_calm 1 seg [headed_sample 0]
    None (stripping 9 9) {| drops := []; abortedKeyed := []; stripKeyed := []; gcSegs := [] |} 0)
    as (r & y & dg' & E & Er & Hy & El & _ & Hsk).
  1: intros m; split; reflexivity.
  1: split_and!; reflexivity.
  1-2: reflexivity.
  1: exact Hh.
  1: exact Hc.
  1: constructor; [exact Hs|constructor].
  1: simpl; lia.
  1: rewrite Esv; discriminate.
  1: reflexivity.
  1: vm_compute; split; [discriminate|reflexivity].
  1: split; [simpl; lia|constructor; [reflexivity|constructor]].
  1: left; split; [exact Hm|constructor; [split; [simpl; lia|exact Hdm]|constructor]].
  1: reflexivity.
  1: vm_compute; discriminate.
  1: intros x Hx; discriminate Hx.
  1: reflexivity.
  1: { intros f Hf. rewrite Esv in Hf. apply list_elem_of_singleton in Hf as ->. split; [exact Hct|reflexivity]. }
  rewrite Esv in Hy. exists r, y, dg'. exact (conj E (conj Er (conj Hy (conj Hha (conj El Hsk))))).
Defined.

(** A segment, the records it held when its digest was written, and a newer copy
    of the key they shared. *)
Definition refilled : list frm := [keyed_sample 0 7 0 1; keyed_sample 1 7 0 2].
Definition described : list frm := [keyed_sample 0 7 0 1; keyed_sample 1 7 0 1].
Definition newer_copy : list frm := [keyed_sample 2 8 0 1].

Lemma stale_fit :
  Forall (λ '(b, fs), piece_fit b fs) ([(0, refilled)] ++ [(2, newer_copy)]) ∧
  Forall (λ '(b, fs), piece_fit b fs) ([(0, described)] ++ [(2, newer_copy)]).
Proof. split; (repeat (apply Forall_cons; split); [fit..|by apply Forall_nil]). Qed.

Lemma stale_log :
  ∃ s act ks, @ready_as half_lib 9 (pass_calm 1000 0) small ([s] ++ [act]) ([refilled] ++ [newer_copy])
    ([described] ++ [newer_copy]) ks.
Proof.
  destruct stale_fit as [F1 F2].
  destruct (@sample_pass half_lib half_laws 9 1000 0 [(0, refilled)] 2 newer_copy F1) as (l & act & Hr & Hl & HF);
    [repeat constructor; vm_compute; discriminate|by repeat constructor|cbn; lia|].
  destruct (@sample_pass half_lib half_laws 9 1000 0 [(0, described)] 2 newer_copy F2) as (l0 & act0 & Hr0 & Hl0 & HF0);
    [repeat constructor; vm_compute; discriminate|by repeat constructor|cbn; lia|].
  destruct l as [|s [|]]; try done. destruct l0 as [|s0 [|]]; try done. clear Hl Hl0.
  apply Forall2_cons in HF as [(B1 & _ & N1 & P1 & _) HF]. apply Forall2_cons in HF as [(B2 & _ & N2 & _) _].
  apply Forall2_cons in HF0 as [(B3 & _ & N3 & P3 & _) HF0]. apply Forall2_cons in HF0 as [(B4 & _ & N4 & _) _].
  pose proof Hr as (Hc & Hs & Hk & Hf & Hft & Hio & Hrg). pose proof Hr0 as (Hc0 & Hs0 & Hk0 & Hf0 & _).
  pose proof Hc0 as (HF0 & _). apply Forall2_cons in HF0 as [(Hh0 & _) HF1]. apply Forall2_cons in HF1 as [(Hh1 & _) _].
  destruct (@build_spec half_lib 9 s0 described Hh0) as (d & _ & Hd & Hok & Eb & El & Est & _);
    [apply Forall_cons in Hs0 as [Hs0 _]; eapply Forall_impl; [exact Hs0|]; by intros f [? _]|cbn; lia|].
  destruct (load_encoded d Hok) as [rest Ed]. rewrite Eb, El, B3, P3 in Ed.
  exists s, act, {[ 0 := encodeKeyDigest d ]}. split; [exact Hc|]. split; [exact Hs|]. split; [exact Hf|]. split; [exact Hio|].
  split; [exact Hrg|]. split; [|split; [reflexivity|split; [|split; [exact Hf0|]]]].
  - constructor; [|constructor; [|constructor]].
    + right. exists (streamed d rest). split; [rewrite B1, P1, lookup_singleton_eq; exact Ed|]. split; [by apply describes_streamed|].
      intros f Hin _ _ Hlt. cbn [streamed stripVerifiedBelow] in Hlt. rewrite Est in Hlt.
      destruct Hh0 as (_ & _ & _ & (_ & Hfr & _) & _). rewrite Forall_forall in Hfr. destruct (Hfr f Hin) as ((? & ?) & _). lia.
    + left. split; [|reflexivity]. rewrite lookup_singleton_ne by (rewrite B2; discriminate). reflexivity.
  - apply Forall_cons in Hk0 as [K1 Hk0]. apply Forall_cons in Hk0 as [K2 _].
    constructor; [|constructor; [|constructor]]; (split; [done|]); eexists; eapply (@holds_frames half_lib); [exact Hh0|exact Hh1].
  - apply (@chain_in_order half_lib) in Hc0.
    assert (Eq : bounds_of ([s] ++ [act]) = bounds_of ([s0] ++ [act0])); [|by rewrite Eq].
    unfold bounds_of. cbn [fmap list_fmap app]. rewrite B1, B2, B3, B4, N1, N2, N3, N4. reflexivity.
Qed.

Lemma stale_digest_loses_witness :
  ∃ s act ks r kept fss', @compact half_lib 9 (pass_calm 1000 0) 0 0 0 (newest_below 9) ([s] ++ [act]) ks 1 = Some r ∧
    pr_list r = Some (kept ++ [act]) ∧
    reads (newest_below 9) (concat ([refilled] ++ [newer_copy])) (ascii_bytes [2]) (Some (ascii_bytes [118; 1])) ∧
    ∀ v, ¬ reads (newest_below 9) (concat fss') (ascii_bytes [2]) v.
Proof.
  destruct stale_log as (s & act & ks & Hra). exists s, act, ks.
  destruct (@stale_digest_loses half_lib half_laws 9 (pass_calm 1000 0) small 0 0 0 (newest_below 9) [s] act
    [refilled] newer_copy ([described] ++ [newer_copy]) ks 1 0 (ascii_bytes [2]) (ascii_bytes [1]) (keyed_sample 1 7 0 2)
    (keyed_sample 1 7 0 1) (keyed_sample 2 8 0 1) 1 Hra eq_refl eq_refl) as (Hb & r & kept & fss' & E & El & _ & Hno).
  1-3: lia.
  1: reflexivity.
  1: eexists; split; [reflexivity|right; by left].
  1: by split_and!; vm_compute.
  1: by vm_compute.
  1: reflexivity.
  1: { intros g Hg Hk. cbn in Hg. apply elem_of_cons in Hg as [->|Hg]; [destruct Hk as [[_ Hk] _]; vm_compute in Hk; discriminate Hk|].
       apply elem_of_cons in Hg as [->|Hg]; [reflexivity|]. apply list_elem_of_singleton in Hg as ->.
       destruct Hk as [[_ Hk] _]. vm_compute in Hk. discriminate Hk. }
  1: split; [eexists; split; [reflexivity|right; by left]|by split_and!; vm_compute].
  1: reflexivity.
  1: split; [eexists; split; [reflexivity|by left]|by split_and!; vm_compute].
  1: reflexivity.
  exists r, kept, fss'. split; [exact E|]. split; [exact El|]. split; [exact Hb|exact Hno].
Defined.

End CompactLimits.
