(* ===== verification/SegmentJoin.v ===== *)
(** * Fewer blocks and fewer segments: compact_cleaner.go and clean_join.go

    The two stages of a pass that change no record.  [consolidateSegments] is
    the pass of a log that does not compact: it copies a sealed segment of many
    small blocks into larger ones.  [joinSegments] replaces runs of adjacent
    sealed segments by one segment each, under the base offset of the first:
    [planJoins] picks the runs, [joinOne] copies the records, renames the copy
    over the first segment and removes the others.

    The plan is over whatever the class [Retained] describes, so it knows of
    tiers; the stages run on local segments, where a run commits by the
    rename. *)

From Stdlib Require Import ZArith Lia.
From stdpp Require Import base list numbers strings gmap sorting.
From coqutil Require Import Byte.
From S2P Require Import Prelude GoStd Wire Compress BlockV3 Block Framing EpochCache Index Segment.
From S2P Require Import SegmentIndex SegmentSearch SegmentReopen Log SegmentRewrite.
From S2P Require Import LogRead LogTruncate Retention KeyDigest Compaction CompactRecord CompactSegment CompactLog CompactPass.

Open Scope Z_scope.
Set Warnings "-clear-no-such-hyp".

Module SegmentJoin.
Import Segment SegmentIndex SegmentSearch SegmentReopen Log SegmentRewrite LogTruncate KeyDigest Compaction.
Import CompactRecord CompactSegment CompactLog CompactPass.

(** ** Planning joins *)

(** Of [CleanSpec] what the join reads. *)
Record joinSpec := { JoinBelow : Z; TierJoinBelow : gmap string Z }.

Record joinRun := { jr_first : nat; jr_last : nat; jr_tier : string; jr_tiered : bool; jr_bytes : Z }.

Definition run_len (r : joinRun) : Z := Z.of_nat (jr_last r) - Z.of_nat (jr_first r) + 1.

Definition joinCapFor (spec : joinSpec) (tier : string) (tiered : bool) : Z :=
  if negb tiered then JoinBelow spec else default 0 (TierJoinBelow spec !! tier).

(** The closure [flush]; [cur] is present while a run is open. *)
Definition flush_run (cur : option joinRun) (runs : list joinRun) : list joinRun :=
  match cur with
  | Some r => if 1 <? run_len r then runs ++ [r] else runs
  | None => runs
  end.

Section plan.
Context {A : Type} `{Retention.Retained A} (Position : A → Z).

Definition joinTier (s : A) : string * bool :=
  match Retention.tier_of s with None => (""%string, false) | Some name => (name, true) end.

(** The loop over the sealed segments from the [i]th on. *)
Fixpoint plan_loop (spec : joinSpec) (i : nat) (sealed : list A) (cur : option joinRun) (runs : list joinRun)
    : list joinRun :=
  match sealed with
  | [] => flush_run cur runs
  | s :: sealed =>
      let '(tier, tiered) := joinTier s in
      let cap := joinCapFor spec tier tiered in
      let size := Position s in
      let fresh := {| jr_first := i; jr_last := i; jr_tier := tier; jr_tiered := tiered; jr_bytes := size |} in
      if (cap <=? 0) || (cap <=? size) then plan_loop spec (S i) sealed None (flush_run cur runs)
      else
        match cur with
        | Some r =>
            let bytes := sint 64 (jr_bytes r + size) in
            if Bool.eqb (jr_tiered r) tiered && String.eqb (jr_tier r) tier && (bytes <=? cap)
            then plan_loop spec (S i) sealed
                   (Some {| jr_first := jr_first r; jr_last := i; jr_tier := jr_tier r; jr_tiered := jr_tiered r;
                            jr_bytes := bytes |}) runs
            else plan_loop spec (S i) sealed (Some fresh) (flush_run cur runs)
        | None => plan_loop spec (S i) sealed (Some fresh) runs
        end
  end.

Definition planJoins (segments : list A) (spec : joinSpec) : list joinRun :=
  if (length segments <? 3)%nat then [] else plan_loop spec 0 (removelast segments) None [].

End plan.

(** ** The stages *)

#[local] Existing Instance Retention.segment_retained.

(** What fails during a join: as in a rewrite, removing each input after the
    first, and removing the digest of the first. *)
Record join_io := { jn_clean : clean_io; jn_retire : nat → delete_io; jn_stale : bool }.

Section codecs.
Context `{CodecLib}.

(** The segments of [consolidateSegments] from the [j]th sealed one on, after
    [k] questions to the clock. *)
Fixpoint consolidate_loop (fuel : nat) (io : pass_io) (j k : nat) (b : rewriteBudget) (sealed : list segment) (i : Z)
    : option (list segment * Z * outcome ()) :=
  match sealed with
  | [] => Some ([], i, Ok ())
  | s :: sealed =>
      if negb (needsBlockConsolidation s) then
        '(out, i, r) ← consolidate_loop fuel io (S j) k b sealed i; Some (s :: out, i, r)
      else if negb (allow (ps_after io k) b) then
        '(out, i, r) ← consolidate_loop fuel io (S j) (S k) b sealed i; Some (s :: out, i, r)
      else
        '(old, y) ← consolidateOne fuel (ps_clean io j) i s;
        match y with
        | Ok y =>
            '(out, i, r) ← consolidate_loop fuel io (S j) (S k) (note_rewrite b) sealed (i + 1); Some (y :: out, i, r)
        | Fail e => Some (old :: sealed, i + 1, Fail e)
        | Panic => Some (old :: sealed, i + 1, Panic)
        end
  end.

(** The list the caller publishes, the next segment name and the error. *)
Definition consolidateSegments (fuel : nat) (io : pass_io) (maxRewrites budget : Z) (ss : list segment) (i : Z)
    : option (list segment * Z * outcome ()) :=
  if (length ss <=? 1)%nat then Some (ss, i, Ok ())
  else
    '(out, i, r) ← consolidate_loop fuel io 0 0 (newRewriteBudget maxRewrites budget) (removelast ss) i;
    Some (out ++ drop (length ss - 1) ss, i, r).

(** A scan that ends before the end of the segment. *)
Definition join_ends (w : blockWriter) (err : error) : outcome blockWriter :=
  match err with ErrEOF => Ok w | _ => Fail (ErrSegmentUnreadable "join of segment") end.

(** Every input copied in turn. *)
Fixpoint join_inputs (fuel : nat) (wr : nat → wfault * Index.faults) (inputs : list segment) (w : blockWriter)
    : option (outcome blockWriter) :=
  match inputs with
  | [] => Some (Ok w)
  | s :: inputs =>
      match scanning fuel s newSegmentScanner
              (λ w ms _, match add wr w ms with Ok w => inl w | r => inr r end) join_ends w with
      | None => None
      | Some (Ok (Ok w)) => join_inputs fuel wr inputs w
      | Some (Ok r) => Some r
      | Some (Fail e) => Some (Fail e)
      | Some Panic => Some Panic
      end
  end.

(** The digest files left, and the log files that went. *)
Fixpoint retireJoinedInputs (del : nat → delete_io) (k : nat) (inputs : list segment) (ks : keyFiles)
    : outcome (keyFiles * gset Z) :=
  match inputs with
  | [] => Ok (ks, ∅)
  | s :: inputs =>
      match Delete (del k) (SupersededBy s) with
      | (_, _, Panic) => Panic
      | (_, gone, r) =>
          let ks := match r with Ok _ => delete (BaseOffset s) ks | _ => ks end in
          '(ks, g) ← retireJoinedInputs del (S k) inputs ks;
          Ok (ks, (if gone then {[ BaseOffset s ]} else ∅) ∪ g)
      end
  end.

Definition refreshJoinedDigest (fuel : nat) (io : join_io) (joined : segment) (ks : keyFiles)
    : option (outcome keyFiles) :=
  if jn_stale io then Some (Ok ks)
  else
    let ks := delete (BaseOffset joined) ks in
    match buildKeyDigest fuel joined with
    | None => None
    | Some (Ok d) =>
        Some (Ok (if cs_digest (jn_clean io) then ks else <[BaseOffset joined := encodeKeyDigest d]> ks))
    | Some (Fail _) => Some (Ok ks)
    | Some Panic => Some Panic
    end.

(** What a join leaves: the first input, the segment that stands for the run,
    the digest files, and the log files that went. *)
Record joinResult := {
  jo_source : segment;
  jo_result : outcome segment;
  jo_keys : keyFiles;
  jo_gone : gset Z;
}.

Definition join_fails (s : segment) (ks : keyFiles) {A} (r : outcome A) : joinResult :=
  {| jo_source := s; jo_result := match r with Fail e => Fail e | _ => Panic end; jo_keys := ks; jo_gone := ∅ |}.

Definition joinOne (fuel : nat) (io : join_io) (i : Z) (first : segment) (rest : list segment) (ks : keyFiles)
    : option joinResult :=
  let wr := cs_write (jn_clean io) in
  match Joined (cs_work (jn_clean io)) i first with
  | Ok joined =>
      w ← join_inputs fuel wr (first :: rest) (newBlockWriter joined);
      match (w ← w; flush wr w) with
      | Ok w =>
          if cs_sync (jn_clean io) then Some (join_fails first ks (A := ()) (Fail (ErrText "sync")))
          else
            let wantDigest := bool_decide (is_Some (ks !! BaseOffset first)) in
            '(y, old, r) ← Replace fuel (cs_replace (jn_clean io)) (with_dirty (w_seg w) false false) first;
            match r with
            | Ok _ =>
                match retireJoinedInputs (jn_retire io) 0 rest ks with
                | Ok (ks, gone) =>
                    ks ← (if wantDigest then refreshJoinedDigest fuel io y ks else Some (Ok ks));
                    Some {| jo_source := old;
                            jo_result := match ks with Ok _ => Ok y | Fail e => Fail e | Panic => Panic end;
                            jo_keys := match ks with Ok ks => ks | _ => ∅ end; jo_gone := gone |}
                | r => Some (join_fails old ks r)
                end
            | r => Some (join_fails old ks r)
            end
      | r => Some (join_fails first ks r)
      end
  | r => Some (join_fails first ks r)
  end.

(** What the join stage returns. *)
Record joinStage := {
  js_list : list segment;
  js_keys : keyFiles;
  js_gone : gset Z;
  js_id : Z;
  js_err : outcome ();
}.

(** The runs left, after [k] of them; [out] is the list so far and [next] the
    first segment not in it. *)
Fixpoint join_loop (fuel : nat) (io : nat → join_io) (after : nat → bool) (k : nat) (b : rewriteBudget)
    (ss : list segment) (runs : list joinRun) (next : nat) (out : list segment) (ks : keyFiles) (gone : gset Z) (i : Z)
    : option joinStage :=
  match runs with
  | [] => Some {| js_list := out ++ drop next ss; js_keys := ks; js_gone := gone; js_id := i; js_err := Ok () |}
  | r :: runs =>
      if negb (allow (after k) b) then join_loop fuel io after (S k) b ss runs next out ks gone i
      else
        let out := out ++ take (jr_first r - next) (drop next ss) in
        match drop (jr_first r) ss with
        | [] => Some {| js_list := out; js_keys := ks; js_gone := gone; js_id := i; js_err := Panic |}
        | first :: rest =>
            j ← joinOne fuel (io k) i first (take (jr_last r - jr_first r) rest) ks;
            let gone := gone ∪ jo_gone j in
            match jo_result j with
            | Ok y => join_loop fuel io after (S k) (note_rewrite b) ss runs (S (jr_last r)) (out ++ [y]) (jo_keys j) gone (i + 1)
            | Fail e => Some {| js_list := out ++ jo_source j :: rest; js_keys := jo_keys j; js_gone := gone; js_id := i + 1;
                                js_err := Fail e |}
            | Panic => Some {| js_list := out ++ jo_source j :: rest; js_keys := jo_keys j; js_gone := gone; js_id := i + 1;
                               js_err := Panic |}
            end
        end
  end.

Definition joinSegments (fuel : nat) (io : nat → join_io) (after : nat → bool) (b : rewriteBudget) (spec : joinSpec)
    (ss : list segment) (ks : keyFiles) (i : Z) : option joinStage :=
  join_loop fuel io after 0 b ss (planJoins position ss spec) 0 [] ks ∅ i.

End codecs.

(** ** What the plan picks *)

Section planned.
Context {A : Type} `{Retention.Retained A} (Position : A → Z) (spec : joinSpec) (all : list A).
Context (Hsize : Forall (λ s, 0 ≤ Position s) all).
Context (Hcap : ∀ tier tiered, joinCapFor spec tier tiered < 2 ^ 62).

#[local] Abbreviation cap s := (joinCapFor spec (joinTier s).1 (joinTier s).2).

(** The segments of a run. *)
Definition inputs (r : joinRun) : list A := take (S (jr_last r) - jr_first r) (drop (jr_first r) all).

(** A run over segments before the [n]th: they share a store and fit its cap. *)
Definition fits (n : nat) (r : joinRun) : Prop :=
  (jr_first r ≤ jr_last r < n)%nat ∧ (n ≤ length all)%nat ∧
  Forall (λ s, joinTier s = (jr_tier r, jr_tiered r)) (inputs r) ∧
  jr_bytes r = Retention.total Position (inputs r) ∧ jr_bytes r ≤ joinCapFor spec (jr_tier r) (jr_tiered r).

(** Two adjacent segments that together fit. *)
Definition joinable (i : nat) : Prop :=
  ∃ s s', all !! i = Some s ∧ all !! S i = Some s' ∧ joinTier s = joinTier s' ∧ Position s < cap s ∧ Position s' < cap s ∧
    Position s + Position s' ≤ cap s.

Definition within (r : joinRun) (i : nat) : Prop := (jr_first r ≤ i ≤ jr_last r)%nat.

Definition ordered (n : nat) (runs : list joinRun) : Prop :=
  Forall (λ r, fits n r ∧ (jr_first r < jr_last r)%nat) runs ∧
  StronglySorted (λ r r', (jr_last r < jr_first r')%nat) runs.

Definition covered (n : nat) (runs : list joinRun) : Prop :=
  ∀ i, (S i < n)%nat → joinable i → ∃ r, r ∈ runs ∧ within r i.

(** The loop before the [n]th segment. *)
Definition planning (n : nat) (cur : option joinRun) (runs : list joinRun) : Prop :=
  ordered n runs ∧ covered n (flush_run cur runs) ∧
  match cur with
  | Some c => fits n c ∧ S (jr_last c) = n ∧ Forall (λ r, (jr_last r < jr_first c)%nat) runs
  | None => ∀ i, S i = n → ¬ joinable i
  end.

Lemma fits_later n r : fits n r → (S n ≤ length all)%nat → fits (S n) r.
Proof. intros (? & ? & ? & ? & ?) ?. split; [lia|]. split; [lia|]. done. Qed.

Lemma ordered_later n runs : ordered n runs → (S n ≤ length all)%nat → ordered (S n) runs.
Proof. intros [Hr Hs] Hn. split; [|done]. eapply Forall_impl; [exact Hr|]. intros r [? ?]. split; [by apply fits_later|done]. Qed.

Lemma run_len_long r : (1 <? run_len r) = bool_decide (jr_first r < jr_last r)%nat.
Proof. unfold run_len. case_bool_decide; [apply Z.ltb_lt|apply Z.ltb_ge]; lia. Qed.

Lemma flush_ordered n cur runs : planning n cur runs → ordered n (flush_run cur runs).
Proof.
  intros ([Hr Hs] & _ & Hc). destruct cur as [c|]; [|done]. destruct Hc as (Hf & Hl & Hb). unfold flush_run.
  rewrite run_len_long. case_bool_decide; [|done]. split; [apply Forall_app; split; [done|by constructor]|].
  apply StronglySorted_app_2; [|done|by repeat constructor]. intros r r' Hr' ->%list_elem_of_singleton.
  rewrite Forall_forall in Hb. by apply Hb.
Qed.

Lemma inputs_one n s : all !! n = Some s → take (S n - n) (drop n all) = [s].
Proof. intros E. replace (S n - n)%nat with 1%nat by lia. by rewrite (drop_S _ _ _ E). Qed.

Lemma inputs_more r n s :
  all !! n = Some s → S (jr_last r) = n → (jr_first r ≤ jr_last r)%nat →
  take (S n - jr_first r) (drop (jr_first r) all) = inputs r ++ [s].
Proof.
  intros E Hl Hf. unfold inputs. rewrite Hl. replace (S n - jr_first r)%nat with (S (n - jr_first r)) by lia.
  apply take_S_r. rewrite lookup_drop. by replace (jr_first r + (n - jr_first r))%nat with n by lia.
Qed.

(** A segment that cannot be joined. *)
Lemma not_joinable n s i :
  all !! n = Some s → (cap s <=? 0) || (cap s <=? Position s) = true → i = n ∨ S i = n → ¬ joinable i.
Proof.
  intros Es Hno Hi (x & y & Ex & Ey & Et & Hx & Hy & _). rewrite Forall_lookup in Hsize.
  pose proof (Hsize _ _ Es) as Hs. cbn in Hs.
  assert (Hlt : Position s < cap s).
  { destruct Hi as [->|<-]; [rewrite Es in Ex; by injection Ex as <-|]. rewrite Es in Ey. injection Ey as <-. by rewrite <- Et. }
  apply orb_true_iff in Hno as [?%Z.leb_le|?%Z.leb_le]; lia.
Qed.

Lemma plan_ends n cur runs s :
  all !! n = Some s → (cap s <=? 0) || (cap s <=? Position s) = true → planning n cur runs →
  planning (S n) None (flush_run cur runs).
Proof.
  intros Es Hno Hp. pose proof (lookup_lt_Some _ _ _ Es). pose proof Hp as (_ & Hcov & _).
  split; [by eapply ordered_later; [apply flush_ordered|]|]. split.
  - intros i Hi Hj. destruct (decide (S i = n)) as [E|]; [by destruct (not_joinable n s i Es Hno (or_intror E))|].
    apply Hcov; [lia|done].
  - intros i [= ->]. eapply not_joinable; [done|done|by left].
Qed.

Lemma plan_extends n c runs s :
  all !! n = Some s → Position s < cap s → planning n (Some c) runs → joinTier s = (jr_tier c, jr_tiered c) →
  jr_bytes c + Position s ≤ cap s →
  planning (S n) (Some {| jr_first := jr_first c; jr_last := n; jr_tier := jr_tier c; jr_tiered := jr_tiered c;
                          jr_bytes := jr_bytes c + Position s |}) runs.
Proof.
  intros Es Hlt (Ho & Hcov & Hf & Hl & Hb) Et Hfit. pose proof (lookup_lt_Some _ _ _ Es).
  pose proof Hf as ((Hle & Hln) & _ & Hti & Hby & _). rewrite Et in Hfit.
  split; [by apply ordered_later|]. split.
  - intros i Hi Hj. unfold flush_run. rewrite run_len_long. cbn [jr_first jr_last].
    rewrite bool_decide_eq_true_2 by lia. destruct (decide (S i = n)) as [E|].
    + eexists. split; [apply elem_of_app; right; by left|]. unfold within. cbn. lia.
    + destruct (Hcov i ltac:(lia) Hj) as (r & Hr & Hw). unfold flush_run in Hr. rewrite run_len_long in Hr.
      case_bool_decide; [|by exists r; split; [set_solver|]]. apply elem_of_app in Hr as [Hr|Hr]; [by exists r; split; [set_solver|]|].
      apply list_elem_of_singleton in Hr as ->. eexists. split; [apply elem_of_app; right; by left|].
      unfold within in *. cbn. lia.
  - split; [|done]. split; [cbn; lia|]. split; [lia|]. unfold inputs. cbn [jr_first jr_last jr_tier jr_tiered jr_bytes].
    rewrite (inputs_more c n s) by done. split; [apply Forall_app; split; [done|by constructor]|].
    rewrite Retention.total_of_app, <- Hby. cbn. split; [lia|done].
Qed.

(** The pair before a segment that starts a run is covered. *)
Lemma plan_starts n cur runs s :
  all !! n = Some s → Position s < cap s → planning n cur runs →
  (∀ c, cur = Some c → joinTier s = (jr_tier c, jr_tiered c) → cap s < jr_bytes c + Position s) →
  planning (S n) (Some {| jr_first := n; jr_last := n; jr_tier := (joinTier s).1; jr_tiered := (joinTier s).2;
                          jr_bytes := Position s |}) (flush_run cur runs).
Proof.
  intros Es Hlt Hp Hno. pose proof (lookup_lt_Some _ _ _ Es). pose proof Hp as (Ho & Hcov & Hc).
  pose proof (flush_ordered _ _ _ Hp) as Hfo.
  split; [by apply ordered_later|]. split; [|split; [|split; [done|]]].
  - intros i Hi Hj. unfold flush_run at 1. rewrite run_len_long. cbn [jr_first jr_last].
    rewrite bool_decide_eq_false_2 by lia. destruct (decide (S i = n)) as [E|]; [|apply Hcov; [lia|done]].
    destruct cur as [c|]; [|by destruct (Hc i E)]. destruct Hc as (Hf & Hl & _).
    unfold flush_run. rewrite run_len_long. case_bool_decide as Hlong.
    { exists c. split; [set_solver|]. unfold within. lia. }
    destruct Hj as (x & y & Ex & Ey & Et & Hx & Hy & Hxy). rewrite E, Es in Ey. injection Ey as <-.
    destruct Hf as ((Hle & _) & _ & Hti & Hby & _). unfold inputs in Hti, Hby.
    assert (jr_first c = i ∧ jr_last c = i) as [E1 E2] by lia. rewrite E1, E2, (inputs_one _ _ Ex) in Hti, Hby.
    apply Forall_cons in Hti as [Hti _]. cbn in Hby. rewrite Hti in Et, Hxy. rewrite <- Et in Hno.
    specialize (Hno c eq_refl eq_refl). cbn in Hno, Hxy. lia.
  - split; [cbn; lia|]. split; [lia|]. unfold inputs. cbn [jr_first jr_last jr_tier jr_tiered jr_bytes].
    rewrite (inputs_one _ _ Es). split; [constructor; [by destruct (joinTier s)|done]|]. cbn. split; [lia|]. lia.
  - destruct Hfo as [Hfo _]. eapply Forall_impl; [exact Hfo|]. intros r [((_ & ?) & _) _]. cbn. lia.
Qed.

Lemma plan_loop_spec rest n cur runs :
  drop n all = rest → (n ≤ length all)%nat → planning n cur runs →
  ordered (length all) (plan_loop Position spec n rest cur runs) ∧ covered (length all) (plan_loop Position spec n rest cur runs).
Proof.
  revert n cur runs. induction rest as [|s rest IH]; intros n cur runs Hd Hn Hp.
  - apply (f_equal length) in Hd. rewrite length_drop in Hd. cbn in Hd. assert (n = length all) as -> by lia.
    split; [by apply flush_ordered|]. by destruct Hp as (_ & ? & _).
  - assert (Es : all !! n = Some s) by (by rewrite <- (Nat.add_0_r n), <- lookup_drop, Hd).
    assert (Hd' : drop (S n) all = rest) by (rewrite (drop_S _ _ _ Es) in Hd; by injection Hd).
    pose proof (lookup_lt_Some _ _ _ Es). cbn [plan_loop]. destruct (joinTier s) as [tier tiered] eqn:Et. cbv zeta.
    assert (Ec : joinCapFor spec tier tiered = cap s) by (by rewrite Et). rewrite Ec.
    destruct ((cap s <=? 0) || (cap s <=? Position s)) eqn:Eo; [by apply IH; [done|lia|eapply plan_ends]|].
    apply orb_false_iff in Eo as [Hc0%Z.leb_gt Hlt%Z.leb_gt].
    assert (Hfresh : (∀ c, cur = Some c → joinTier s = (jr_tier c, jr_tiered c) → cap s < jr_bytes c + Position s) →
      ordered (length all) (plan_loop Position spec (S n) rest (Some {| jr_first := n; jr_last := n; jr_tier := tier;
        jr_tiered := tiered; jr_bytes := Position s |}) (flush_run cur runs)) ∧
      covered (length all) (plan_loop Position spec (S n) rest (Some {| jr_first := n; jr_last := n; jr_tier := tier;
        jr_tiered := tiered; jr_bytes := Position s |}) (flush_run cur runs))).
    { intros Hno. apply IH; [done|lia|]. pose proof (plan_starts n cur runs s Es Hlt Hp Hno) as Hs. by rewrite Et in Hs. }
    destruct cur as [c|]; [|by apply Hfresh].
    pose proof Hp as (_ & _ & (_ & _ & _ & Hby & Hbc) & _). pose proof (Hcap (jr_tier c) (jr_tiered c)).
    pose proof (Hcap tier tiered). pose proof Hsize as Hsz. rewrite Forall_lookup in Hsz. pose proof (Hsz _ _ Es) as Hs0. cbn in Hs0.
    assert (0 ≤ jr_bytes c).
    { rewrite Hby. apply Retention.total_of_nonneg, Forall_forall. intros x Hx. unfold inputs in Hx.
      apply list_elem_of_lookup in Hx as [j Hj]. apply lookup_take_Some in Hj as [Hj _]. rewrite lookup_drop in Hj.
      by apply (Hsz _ _ Hj). }
    rewrite (sint_small 64) by (unfold in_sint; lia).
    destruct (Bool.eqb _ _ && String.eqb _ _ && _) eqn:Ee.
    + apply andb_prop in Ee as [[E1%Bool.eqb_prop E2%String.eqb_eq]%andb_prop E3%Z.leb_le]. subst.
      apply IH; [done|lia|]. by apply plan_extends.
    + apply Hfresh. intros c' [= <-] E. rewrite Et in E. injection E as -> ->. rewrite Bool.eqb_reflx, String.eqb_refl in Ee.
      by apply Z.leb_gt.
Qed.

End planned.

Lemma inputs_sealed {A} (l : list A) r :
  (S (jr_last r) < length l)%nat → inputs (removelast l) r = inputs l r.
Proof.
  intros Hl. unfold inputs. rewrite removelast_firstn_len, skipn_firstn_comm, take_take. f_equal. lia.
Qed.

(** C21: the joins a pass plans.  The runs are disjoint and in order, each has
    at least two segments and leaves out the active one, its segments share a
    store, its size is the exact sum of theirs and within the cap of the store;
    and a sealed segment that fits together with the next is in some run. *)
Theorem plan_bounds {A} `{Retention.Retained A} (Position : A → Z) (segments : list A) (spec : joinSpec) :
  Forall (λ s, 0 ≤ Position s) segments → (∀ tier tiered, joinCapFor spec tier tiered < 2 ^ 62) →
  let runs := planJoins Position segments spec in
  StronglySorted (λ r r', (jr_last r < jr_first r')%nat) runs ∧
  Forall (λ r, (jr_first r < jr_last r)%nat ∧ (S (jr_last r) < length segments)%nat ∧
    Forall (λ s, joinTier s = (jr_tier r, jr_tiered r)) (inputs segments r) ∧
    jr_bytes r = Retention.total Position (inputs segments r) ∧
    jr_bytes r ≤ joinCapFor spec (jr_tier r) (jr_tiered r)) runs ∧
  ∀ i, (S (S i) < length segments)%nat → joinable Position spec segments i →
    ∃ r, r ∈ runs ∧ (jr_first r ≤ i ≤ jr_last r)%nat.
Proof.
  intros Hs Hc runs. unfold runs, planJoins. destruct (Nat.ltb_spec (length segments) 3) as [|Hl].
  { split; [constructor|]. split; [constructor|]. lia. }
  assert (Hlen : length (removelast segments) = pred (length segments)) by apply Retention.length_removelast.
  destruct (plan_loop_spec Position spec (removelast segments)) with (rest := removelast segments) (n := 0%nat)
    (cur := @None joinRun) (runs := @nil joinRun) as [[Ho Hsrt] Hcov]; [| |done|lia| |].
  - rewrite removelast_firstn_len. by apply Forall_take.
  - done.
  - split; [by split; constructor|]. split; [intros i; lia|]. intros i; lia.
  - split; [done|]. split.
    + eapply Forall_impl; [exact Ho|]. intros r ((Hb & _ & Hf) & Hlong). rewrite inputs_sealed in Hf by lia.
      split; [done|]. split; [lia|done].
    + intros i Hi (s & s' & E1 & E2 & Hrest). apply Hcov; [lia|]. exists s, s'.
      rewrite removelast_firstn_len, !lookup_take_lt by lia. done.
Qed.

(** ** Copies *)

Section copying.
Context `{CodecLaws}.

(** The copy a writer ends with takes the place of a segment. *)
Lemma install_spec fuel c w seg ofs fs :
  writing c w fs → frames_ok (BaseOffset c) fs → holds seg ofs → same_place seg c → (length fs < fuel)%nat →
  ∃ w' y old, flush calm_writes w = Ok w' ∧
    Replace fuel replace_calm (with_dirty (w_seg w') false false) seg = Some (y, old, Ok ()) ∧
    holds y fs ∧ same_place seg y.
Proof.
  intros Hw Hok Hseg (P1 & P2 & P3 & P4) Hfuel.
  destruct (flush_spec c w fs Hw Hok) as (w' & Ef & (a & b & _ & _ & _ & Hk & _ & Htg) & _ & Hhw).
  destruct (Replace_holds fuel (with_dirty (w_seg w') false false) seg fs ofs (holds_dirty _ _ false false Hhw) Htg Hseg Hfuel)
    as (y & old & Er & Hy & Hcy & _).
  exists w', y, old. do 3 (split; [done|]). unfold config in Hcy. injection Hcy as _ C1 C2 C3 C4 _ _.
  destruct Hk as (K1 & K2 & K3 & _ & K5 & _). unfold same_place. split_and!; congruence.
Qed.

(** The consolidation of a segment leaves it as it is, or stores the same
    records in its place. *)
Lemma consolidateOne_spec fuel io i seg fs :
  orderly io → holds seg fs → codec_ok seg → (length fs < fuel)%nat →
  ∃ old r, consolidateOne fuel io i seg = Some (old, r) ∧
    ((∃ e, r = Fail e) ∧ old = seg ∧ fails_early io = true ∨ ∃ y, r = Ok y ∧ holds y fs ∧ same_place seg y).
Proof.
  intros Hio Hh Hcd Hfuel. unfold consolidateOne.
  destruct (Cleaned_orderly io i seg Hio) as [(e & -> & Hfe)| ->]; [by eexists _, _; split; [|left; split; [eexists|]]|].
  destruct (Cleaned_writing i seg fs Hh Hcd) as (c & Ec & Hw & Hpl). rewrite Ec. clear Ec.
  pose proof Hh as (_ & _ & _ & Hok & _). pose proof Hpl as (EB & _). rewrite <- EB in Hok.
  destruct (rewriteWalk_spec c (λ (st : () * blockWriter) ms, w ← add calm_writes st.2 ms; Ok (st.1, w)) (λ _, Ok true) Some
    (λ t _, t) (λ _, True) fs) with (fuel := fuel) (s := seg) (t := tt) (w := newBlockWriter c)
    as (t & w & Ew & Hw' & _); [by rewrite omap_same by (by apply Forall_true)| | |done|done|done|].
  { intros t w acc f _ Hwr Hfr. destruct (add_spec c w acc f Hwr Hfr) as (w' & E & ?). exists w'. cbn [fst snd].
    by rewrite E, bind_Ok. }
  { intros g _. exists true. split; [done|]. intros _. by apply Forall_true. }
  rewrite omap_same in Hw' by (by apply Forall_true).
  destruct (install_spec fuel c w seg fs fs Hw' Hok Hh Hpl Hfuel) as (w2 & y & old & Ef & Er & Hy & Hp).
  destruct Hio as (_ & -> & _ & _ & Hrp). rewrite Ew, Ef.
  destruct (cs_sync io) eqn:Es.
  { eexists _, _. split; [done|]. left. split; [by eexists|]. split; [done|]. unfold fails_early. by rewrite Es, orb_true_r. }
  rewrite Hrp, Er. eexists _, _. split; [reflexivity|]. right. by exists y.
Qed.

Lemma same_place_ok o s y fs : seg_ok o s fs → holds y fs → same_place s y → seg_ok o y fs.
Proof.
  intros (_ & Hc & Hm & Hn) Hy (P1 & P2 & P3 & P4). split; [done|]. unfold codec_ok in *. rewrite P1, P2, P3. done.
Qed.

(** *** Consolidation *)

(** A segment that may stand where [s] stood. *)
Definition stands (s y : segment) : Prop := BaseOffset y = BaseOffset s ∧ NextOffset y = NextOffset s.

Lemma stands_same o s y fs : seg_ok o s fs → seg_ok o y fs → BaseOffset y = BaseOffset s → stands s y.
Proof. intros Hs Hy E. split; [done|]. by rewrite (seg_next o s fs Hs), (seg_next o y fs Hy), E. Qed.

Lemma stands_linked ss ys : Forall2 stands ss ys → linked ss → linked ys.
Proof.
  unfold linked. induction 1 as [|s y ss ys [Eb En] HF IH]; [constructor|]. intros [Hl Hs]%StronglySorted_inv.
  constructor; [by apply IH|]. rewrite En. clear -HF Hs. induction HF as [|s' y' ss ys [Eb _] _ IH]; [constructor|].
  apply Forall_cons in Hs as [? Hs]. constructor; [by rewrite Eb|by apply IH].
Qed.

Lemma stands_refl ss : Forall2 stands ss ss.
Proof. induction ss; by constructor. Qed.

Lemma consolidate_loop_spec o fuel io j k b ss fss i :
  (∀ n, orderly (ps_clean io n)) → Forall2 (seg_ok o) ss fss → Forall (λ fs, length fs < fuel)%nat fss →
  ∃ out i' r, consolidate_loop fuel io j k b ss i = Some (out, i', r) ∧ Forall2 (seg_ok o) out fss ∧ Forall2 stands ss out ∧
    r ≠ Panic ∧ ((∀ n, fails_early (ps_clean io n) = false) → r = Ok ()).
Proof.
  intros Hio HF. revert j k b i. induction HF as [|s fs ss fss Hs HF IH]; intros j k b i Hfuel; [by eexists _, _, _|].
  apply Forall_cons in Hfuel as [Hfs Hfuel]. cbn [consolidate_loop].
  assert (Hgo : ∀ k b i y, seg_ok o y fs → BaseOffset y = BaseOffset s → ∃ out i' r,
    ('(out, i, r) ← consolidate_loop fuel io (S j) k b ss i; Some (y :: out, i, r)) = Some (out, i', r) ∧
    Forall2 (seg_ok o) out (fs :: fss) ∧ Forall2 stands (s :: ss) out ∧ r ≠ Panic ∧
    ((∀ n, fails_early (ps_clean io n) = false) → r = Ok ())).
  { intros k' b' i' y Hy Eb. destruct (IH (S j) k' b' i' Hfuel) as (out & i2 & r & -> & Ho & Hst & Hr).
    exists (y :: out), i2, r. split; [done|]. split; [by constructor|]. split; [|done].
    constructor; [by eapply stands_same|done]. }
  destruct (needsBlockConsolidation s); [|by apply Hgo]. cbn [negb].
  destruct (allow _ _); [|by apply Hgo]. cbn [negb].
  pose proof Hs as (Hh & Hcd & _).
  destruct (consolidateOne_spec fuel (ps_clean io j) i s fs (Hio j) Hh Hcd Hfs) as (old & r & -> & Hr).
  destruct Hr as [((e & ->) & -> & Hfe)|(y & -> & Hy & Hp)].
  - exists (s :: ss), (i + 1), (Fail e). split; [done|]. split; [by constructor|]. split; [apply stands_refl|].
    split; [done|]. intros Hn. by rewrite Hn in Hfe.
  - cbn. apply Hgo; [by eapply same_place_ok|by destruct Hp].
Qed.

Lemma chain_split_last o ss fss :
  chain_ok o ss fss → (1 < length ss)%nat →
  ∃ sl act fsl lf, ss = sl ++ [act] ∧ fss = fsl ++ [lf] ∧ Forall2 (seg_ok o) sl fsl ∧ seg_ok o act lf.
Proof.
  intros (HF & _) Hl. destruct (exists_last (l := ss)) as (sl & act & ->); [intros ->; cbn in Hl; lia|].
  apply Forall2_app_inv_l in HF as (fsl & lfs & HF & Ha & ->). inversion Ha as [|? lf ? ? Hact Hn]; subst.
  inversion Hn; subst. by exists sl, act, fsl, lf.
Qed.

(** The files of a log's digests are true. *)
Definition true_files (ss : list segment) (fss : list (list frm)) (ks : keyFiles) : Prop :=
  Forall2 (λ s fs, file_true s fs (ks !! BaseOffset s)) ss fss.

Lemma file_true_moves s y fs file :
  holds s fs → holds y fs → BaseOffset y = BaseOffset s → file_true s fs file → file_true y fs file.
Proof.
  intros Hs Hy E. unfold file_true, file_seen. rewrite E. destruct Hs as (Hs & _), Hy as (Hy & _).
  by rewrite (log_ok_position _ _ Hs), (log_ok_position _ _ Hy).
Qed.

Lemma true_files_stand o ss ys fss ks :
  Forall2 (seg_ok o) ss fss → Forall2 (seg_ok o) ys fss → Forall2 stands ss ys → true_files ss fss ks → true_files ys fss ks.
Proof.
  unfold true_files. intros HF HY Hst. revert fss HF HY. induction Hst as [|s y ss ys [Eb _] _ IH]; intros fss HF HY Hk.
  - by inversion HY.
  - inversion HF as [|? fs ? ? Hs HF']; subst. inversion HY as [|? ? ? ? Hy HY']; subst. apply Forall2_cons in Hk as [Hf Hk].
    constructor; [|by apply IH]. rewrite Eb. destruct Hs, Hy. by apply (file_true_moves s y).
Qed.

(** Consolidation leaves the records of every segment, the active segment
    itself, and the digests. *)
Lemma consolidate_keeps o fuel io maxRewrites budget ss fss i :
  chain_ok o ss fss → (∀ n, orderly (ps_clean io n)) → (length (concat fss) < fuel)%nat →
  ∃ out i' r, consolidateSegments fuel io maxRewrites budget ss i = Some (out, i', r) ∧
    chain_ok o out fss ∧ last out = last ss ∧ BaseOffset <$> out = BaseOffset <$> ss ∧
    (∀ ks, true_files ss fss ks → true_files out fss ks) ∧
    r ≠ Panic ∧ ((∀ n, fails_early (ps_clean io n) = false) → r = Ok ()).
Proof.
  intros Hc Hio Hfuel. unfold consolidateSegments. destruct (Nat.leb_spec (length ss) 1) as [|Hl].
  { exists ss, i, (Ok ()). by split_and!. }
  destruct (chain_split_last o ss fss Hc Hl) as (sl & act & fsl & lf & -> & -> & HF & Ha).
  rewrite removelast_last, length_app, Nat.add_sub, drop_app_length.
  destruct (consolidate_loop_spec o fuel io 0 0 (newRewriteBudget maxRewrites budget) sl fsl i Hio HF)
    as (out & i' & r & -> & Ho & Hst & Hr).
  { apply Forall_forall. intros fs Hin. apply list_elem_of_split in Hin as (a & b & ->).
    rewrite !concat_app, concat_cons, !length_app in Hfuel. lia. }
  assert (Hall : Forall2 stands (sl ++ [act]) (out ++ [act])) by (apply Forall2_app; [done|apply stands_refl]).
  assert (Hok : Forall2 (seg_ok o) (out ++ [act]) (fsl ++ [lf])) by (apply Forall2_app; [done|constructor; [done|constructor]]).
  exists (out ++ [act]), i', r. split; [done|]. destruct Hc as (HF' & Hln & Hne).
  split; [split; [done|split; [by eapply stands_linked|done]]|]. split; [by rewrite !last_snoc|].
  split; [|split; [|done]].
  - clear -Hall. induction Hall as [|s y ss ys [E _] _ IH]; [done|]. cbn. by rewrite E, IH.
  - intros ks. by eapply true_files_stand.
Qed.

(** *** Joins *)

Lemma each_over fs w w' pos :
  each (add calm_writes) w fs = Ok w' →
  over_frames (λ w ms _, match add calm_writes w ms with Ok w => inl w | r => inr r end) join_ends w pos fs = Ok w'.
Proof.
  revert w pos. induction fs as [|f fs IH]; intros w pos E; [done|]. cbn [each over_frames] in *.
  destruct (add calm_writes w (fbytes f)) as [w1|e|]; [|done|done]. by apply IH.
Qed.

Lemma add_each c w acc fs :
  writing c w acc → frames_ok (BaseOffset c) (acc ++ fs) →
  ∃ w', each (add calm_writes) w fs = Ok w' ∧ writing c w' (acc ++ fs).
Proof.
  revert w acc. induction fs as [|f fs IH]; intros w acc Hw Hok; [exists w; by rewrite app_nil_r|].
  destruct (add_spec c w acc f Hw) as (w1 & E & Hw1).
  { apply (frames_ok_prefix _ _ fs). by rewrite <- app_assoc. }
  destruct (IH w1 (acc ++ [f]) Hw1) as (w2 & E2 & Hw2); [by rewrite <- app_assoc|].
  exists w2. cbn [each]. rewrite E, bind_Ok, E2. by rewrite <- app_assoc in Hw2.
Qed.

Lemma join_inputs_spec fuel c w acc ss fss :
  Forall2 holds ss fss → writing c w acc → frames_ok (BaseOffset c) (acc ++ concat fss) → (length (concat fss) < fuel)%nat →
  ∃ w', join_inputs fuel calm_writes ss w = Some (Ok w') ∧ writing c w' (acc ++ concat fss).
Proof.
  intros HF. revert w acc. induction HF as [|s fs ss fss Hs _ IH]; intros w acc Hw Hok Hfuel.
  { exists w. cbn. by rewrite app_nil_r. }
  rewrite concat_cons in *. rewrite length_app in Hfuel. cbn [join_inputs]. rewrite (scanning_holds fuel s fs) by (done || lia).
  destruct (add_each c w acc fs Hw) as (w1 & E & Hw1).
  { apply (frames_ok_prefix _ _ (concat fss)). by rewrite <- app_assoc. }
  rewrite (each_over _ _ _ _ E). destruct (IH w1 (acc ++ fs) Hw1) as (w2 & E2 & Hw2); [by rewrite <- app_assoc|lia|].
  exists w2. by rewrite <- app_assoc in Hw2.
Qed.

(** Closing, and so deleting, a segment does not panic. *)
Lemma Delete_safe d s : (Delete d s).2 ≠ Panic.
Proof.
  unfold Delete, closeDiscarding, closeSegment. destruct (closed s).
  { destruct (de_log d); [done|]. by destruct (de_index d). }
  cbn [negb]. unfold Index.CloseDiscarding, Index.closeIndex. destruct (Index.closed (Index s)).
  { destruct (cl_file (de_close d)); [done|]. destruct (de_log d); [done|]. by destruct (de_index d). }
  cbn [andb negb]. cbv zeta. destruct (cl_file (de_close d)); [done|].
  destruct (_ || _); [done|]. destruct (de_log d); [done|]. by destruct (de_index d).
Qed.

Lemma retire_spec del k ss ks :
  ∃ ks' g, retireJoinedInputs del k ss ks = Ok (ks', g) ∧ (∀ b, b ∉ BaseOffset <$> ss → ks' !! b = ks !! b) ∧
    g ⊆ list_to_set (BaseOffset <$> ss) ∧
    (Forall (λ s, ∃ fs, holds s fs) ss → (∀ n, del n = delete_calm) → g = list_to_set (BaseOffset <$> ss)).
Proof.
  revert k ks. induction ss as [|s ss IH]; intros k ks; [by exists ks, ∅|]. cbn [retireJoinedInputs].
  pose proof (Delete_safe (del k) (SupersededBy s)) as Hsafe.
  destruct (Delete (del k) (SupersededBy s)) as [[s' gone] r] eqn:Ed. cbn in Hsafe.
  assert (Hgo : ∃ ks' g, ('(ks, g) ← retireJoinedInputs del (S k) ss (match r with Ok _ => delete (BaseOffset s) ks | _ => ks end);
      Ok (ks, (if gone then {[ BaseOffset s ]} else ∅) ∪ g)) = Ok (ks', g) ∧
    (∀ b, b ∉ BaseOffset <$> s :: ss → ks' !! b = ks !! b) ∧ g ⊆ list_to_set (BaseOffset <$> s :: ss) ∧
    (Forall (λ s, ∃ fs, holds s fs) (s :: ss) → (∀ n, del n = delete_calm) → g = list_to_set (BaseOffset <$> s :: ss))).
  { destruct (IH (S k) (match r with Ok _ => delete (BaseOffset s) ks | _ => ks end)) as (ks' & g & -> & Hk & Hg & Hc).
    rewrite bind_Ok. eexists _, _. split; [done|]. split.
    { intros b [Hb1 Hb2]%not_elem_of_cons. rewrite Hk by done. destruct r; [by rewrite lookup_delete_ne|done|done]. }
    cbn [fmap list_fmap list_to_set]. split; [apply union_mono; [by destruct gone|done]|]. intros [(fs & Hs) Hss]%Forall_cons Hcalm. rewrite Hc by done.
    rewrite Hcalm in Ed. destruct (Delete_left s fs Hs) as (s1 & E & _). unfold SupersededBy in Ed. rewrite E in Ed.
    injection Ed as _ <- _. done. }
  by destruct r.
Qed.

(** A digest built from the segment is true. *)
Lemma built_true fuel y fs :
  holds y fs → Forall sound fs → (length fs < fuel)%nat →
  ∃ d, buildKeyDigest fuel y = Some (Ok d) ∧ file_true y fs (Some (encodeKeyDigest d)).
Proof.
  intros Hy Hs Hf. destruct (load_or_build_spec fuel false true y fs fs None Hy Hs Hf) as (d & file & E & _ & Hft); [by left|].
  unfold load_or_build in E. cbn [loadKeyDigest] in E. destruct (buildKeyDigest fuel y) as [[d'|e|]|]; [|done..].
  cbn [negb orb] in E. injection E as _ <-. by exists d'.
Qed.

Lemma refresh_joined fuel io y fs ks :
  holds y fs → Forall sound fs → (length fs < fuel)%nat →
  ∃ ks', refreshJoinedDigest fuel io y ks = Some (Ok ks') ∧ (∀ b, b ≠ BaseOffset y → ks' !! b = ks !! b) ∧
    (jn_stale io = false → file_true y fs (ks' !! BaseOffset y)).
Proof.
  intros Hy Hs Hf. unfold refreshJoinedDigest. destruct (jn_stale io); [by exists ks|].
  destruct (built_true fuel y fs Hy Hs Hf) as (d & -> & Hd). eexists. split; [done|].
  destruct (cs_digest (jn_clean io)).
  - split; [intros b ?; by rewrite lookup_delete_ne|]. intros _. rewrite lookup_delete_eq. by left.
  - split; [intros b ?; by rewrite lookup_insert_ne, lookup_delete_ne|]. intros _. by rewrite lookup_insert_eq.
Qed.

(** What a join leaves. *)
Definition join_kept (io : join_io) (first : segment) (ks : keyFiles) (j : joinResult) : Prop :=
  (∃ e, jo_result j = Fail e) ∧ jo_source j = first ∧ jo_keys j = ks ∧ jo_gone j = ∅ ∧ fails_early (jn_clean io) = true.

Definition join_made (io : join_io) (first : segment) (rest : list segment) (fs : list frm) (ks : keyFiles) (j : joinResult)
    : Prop :=
  ∃ y, jo_result j = Ok y ∧ holds y fs ∧ same_place first y ∧
    (∀ b, b ∉ BaseOffset <$> first :: rest → jo_keys j !! b = ks !! b) ∧
    (jn_stale io = false → file_true y fs (jo_keys j !! BaseOffset first)) ∧
    jo_gone j ⊆ list_to_set (BaseOffset <$> rest) ∧
    ((∀ n, jn_retire io n = delete_calm) → jo_gone j = list_to_set (BaseOffset <$> rest)).

Lemma joinOne_spec fuel io i first rest fss ks :
  orderly (jn_clean io) → Forall2 holds (first :: rest) fss → codec_ok first → BaseOffset first ∉ BaseOffset <$> rest →
  frames_ok (BaseOffset first) (concat fss) → Forall sound (concat fss) → (length (concat fss) < fuel)%nat →
  ∃ j, joinOne fuel io i first rest ks = Some j ∧ (join_kept io first ks j ∨ join_made io first rest (concat fss) ks j).
Proof.
  intros Hio HF Hcd Hnd Hok Hs Hfuel. unfold joinOne. cbv zeta. inversion HF as [|? fs ? frest Hh HR]; subst.
  change (Joined ?w i first) with (Cleaned w i first).
  destruct (Cleaned_orderly (jn_clean io) i first Hio) as [(e & -> & Hfe)| ->].
  { eexists. split; [done|]. left. split; [by eexists|done]. }
  destruct (Cleaned_writing i first fs Hh Hcd) as (c & Ec & Hw & Hpl). rewrite Ec. clear Ec. pose proof Hpl as (EB & _).
  destruct (join_inputs_spec fuel c (newBlockWriter c) [] (first :: rest) _ HF Hw) as (w & Ew & Hw'); [by rewrite EB|done|].
  rewrite app_nil_l in Hw'.
  destruct (install_spec fuel c w first fs _ Hw') as (w2 & y & old & Ef & Er & Hy & Hp); [by rewrite EB|done|done|done|].
  pose proof Hio as (_ & -> & _ & _ & Hrp). rewrite Ew. cbn [mbind option_bind]. rewrite bind_Ok, Ef.
  destruct (cs_sync (jn_clean io)) eqn:Es.
  { eexists. split; [done|]. left. split; [by eexists|]. split_and!; [done|done|done|]. unfold fails_early. by rewrite Es, orb_true_r. }
  rewrite Hrp, Er. cbn [mbind option_bind].
  destruct (retire_spec (jn_retire io) 0 rest ks) as (ks1 & g & -> & Hk1 & Hg & Hgc).
  assert (Hfin : ∃ ks2, (if bool_decide (is_Some (ks !! BaseOffset first)) then refreshJoinedDigest fuel io y ks1 else Some (Ok ks1))
    = Some (Ok ks2) ∧ (∀ b, b ≠ BaseOffset first → ks2 !! b = ks1 !! b) ∧
      (jn_stale io = false → file_true y (concat (fs :: frest)) (ks2 !! BaseOffset first))).
  { pose proof Hp as (EBy & _). case_bool_decide as Hw0.
    - destruct (refresh_joined fuel io y _ ks1 Hy Hs Hfuel) as (ks2 & -> & H1 & H2). rewrite EBy in H1, H2. by exists ks2.
    - exists ks1. split; [done|]. split; [done|]. intros _. rewrite Hk1 by done. left. split; [|done].
      destruct (ks !! BaseOffset first); [by destruct Hw0|done]. }
  destruct Hfin as (ks2 & -> & Hk2 & Ht). eexists. split; [done|]. right. exists y. split; [done|]. split; [done|]. split; [done|].
  split; [|split; [done|split; [done|]]].
  - intros b [Hb1 Hb2]%not_elem_of_cons. cbn [jo_keys]. rewrite Hk2 by done. by apply Hk1.
  - apply Hgc. clear -HR. induction HR; constructor; [by eexists|done].
Qed.

(** *** A run joined within a log *)

Lemma next_of_concat base base' fss lf :
  last fss = Some lf → lf ≠ [] → next_of base (concat fss) = next_of base' lf.
Proof.
  intros [l ->]%last_Some Hne. destruct (exists_last Hne) as (fs & f & ->).
  rewrite concat_app, concat_cons, app_nil_r, app_assoc. by rewrite !next_of_app.
Qed.

Lemma linked_app a b : linked (a ++ b) ↔ linked a ∧ linked b ∧ ∀ x y, x ∈ a → y ∈ b → NextOffset x ≤ BaseOffset y.
Proof. unfold linked. rewrite StronglySorted_app. tauto. Qed.

(** The frames of a run, from the base of its first segment. *)
Lemma run_frames o first rest fss :
  Forall2 (seg_ok o) (first :: rest) fss → linked (first :: rest) →
  (∀ f, f ∈ concat fss → f_off f - BaseOffset first < 2 ^ 31) → zlen (fs_bytes (concat fss)) < 2 ^ 31 →
  frames_ok (BaseOffset first) (concat fss).
Proof.
  intros HF Hl Hspan Hz. pose proof HF as HF0. inversion HF as [|? fs ? frest Hs _]; subst.
  pose proof Hs as (Hh & _). split; [by destruct (holds_frames _ _ Hh)|].
  assert (Hall : Forall (λ f, frm_ok (BaseOffset first) f ∧ 0 < zlen (f_data f)) (concat (fs :: frest))).
  { apply Forall_forall. intros f Hf. specialize (Hspan f Hf). apply elem_of_concat in Hf as (j & gs & Ej & Hf).
    destruct (Forall2_lookup_r _ _ _ _ _ HF0 Ej) as (s & Es & (Hhs & _)). apply holds_frames in Hhs as (_ & Hfr & Hd & _).
    rewrite Forall_forall in Hfr, Hd. specialize (Hfr f Hf). specialize (Hd f Hf). destruct Hfr as (H1 & _ & H3).
    split; [|done]. split; [|by split]. apply holds_frames in Hh as Hfs. pose proof (next_of_base _ _ Hfs). destruct Hfs as (? & _).
    destruct j as [|j]; [injection Es as ->; lia|].
    pose proof (sorted_lookup _ _ 0 (S j) first s Hl ltac:(lia) eq_refl Es) as Hx. cbn in Hx.
    rewrite (seg_next o first fs Hs) in Hx. lia. }
  apply Forall_and in Hall as [H1 H2]. split; [done|]. split; [done|]. split; [|done]. by eapply LogRead.linked_ascending.
Qed.

Lemma chain_join o a first rest b fa frun fb y :
  chain_ok o (a ++ (first :: rest) ++ b) (fa ++ frun ++ fb) → length a = length fa → length (first :: rest) = length frun →
  b ≠ [] → holds y (concat frun) → same_place first y →
  chain_ok o (a ++ [y] ++ b) (fa ++ [concat frun] ++ fb).
Proof.
  intros (HF & Hl & Hne) La Lr Hb Hy Hp. apply Forall2_app_inv in HF as [HFa HF]; [|done].
  apply Forall2_app_inv in HF as [HFr HFb]; [|done].
  assert (Hfb : fb ≠ []) by (intros ->; apply Forall2_nil_inv_r in HFb; done).
  rewrite !removelast_app in Hne by (try done; by destruct frun, fb).
  apply Forall_app in Hne as [Hna [Hnr Hnb]%Forall_app].
  destruct (exists_last (l := frun)) as (frl & lf & Ef); [by intros ->|]. rewrite Ef in HFr.
  pose proof HFr as HFr'. apply Forall2_app_inv_r in HFr' as (rl & ls & _ & Hlast & El). inversion Hlast as [|lst ? ? ? Hls Hn]; subst.
  apply Forall2_nil_inv_r in Hn as ->. apply Forall_app in Hnr as [_ [Hlf _]%Forall_cons].
  rewrite !linked_app in Hl. destruct Hl as (Hla & (Hlr & Hlb & Hrb) & Hab).
  apply Forall2_cons_inv_l in HFr as (f0 & frest & (Hh0 & Hc0 & Hm0 & _) & _ & _).
  destruct Hp as (P1 & P2 & P3 & P4).
  assert (Hnext : next_of (BaseOffset y) (concat (frl ++ [lf])) = NextOffset lst).
  { rewrite (seg_next o lst lf Hls). apply next_of_concat; [by rewrite last_snoc|done]. }
  assert (Hyo : seg_ok o y (concat (frl ++ [lf]))).
  { split; [done|]. split; [unfold codec_ok in *; by rewrite P3|]. split; [by rewrite P2|]. rewrite Hnext.
    pose proof Hls as (_ & _ & _ & ?). by rewrite (seg_next o lst lf Hls). }
  split; [|split].
  - apply Forall2_app; [done|]. by constructor.
  - rewrite !linked_app. split; [done|]. split; [split; [repeat constructor|split; [done|]]|].
    + intros x z ->%list_elem_of_singleton Hz. rewrite (seg_next o y _ Hyo), Hnext. apply Hrb; [|done]. rewrite El. set_solver.
    + intros x z Hx Hz. apply elem_of_app in Hz as [->%list_elem_of_singleton|Hz]; [rewrite P1|]; apply Hab; set_solver.
  - rewrite !removelast_app by (try done; by destruct fb). apply Forall_app. split; [done|]. apply Forall_app. split; [|done].
    constructor; [|done]. rewrite concat_app, concat_cons, app_nil_r. intros [_ ?]%app_eq_nil. done.
Qed.

End copying.

(** ** The join stage *)

Section stage.
Context `{CodecLaws}.
Context (o : Options) (io : nat → join_io) (ss : list segment) (fss : list (list frm)) (ks0 : keyFiles).

#[local] Abbreviation bases l := (list_to_set (BaseOffset <$> l) : gset Z).

(** Part way: the list [sl] holds the same records as the log did. *)
Definition regrouped (sl : list segment) (fl : list (list frm)) (ks : keyFiles) (gone : gset Z) : Prop :=
  chain_ok o sl fl ∧ concat fl = concat fss ∧ last sl = last ss ∧ last fl = last fss ∧
  ((∀ k, jn_stale (io k) = false) → true_files ss fss ks0 → true_files sl fl ks) ∧
  ((∀ k n, jn_retire (io k) n = delete_calm) → parted (bases ss) (bases sl) gone).

Lemma true_files_same sl fl ks ks' :
  (∀ b, b ∈ BaseOffset <$> sl → ks' !! b = ks !! b) → true_files sl fl ks → true_files sl fl ks'.
Proof.
  unfold true_files. intros Hs HF. induction HF as [|s fs sl fl Hf _ IH]; [constructor|].
  constructor; [by rewrite Hs by (by left)|]. apply IH. intros b Hb. apply Hs. by right.
Qed.

Lemma regroup_step k a first rest b fa frun fb ks gone j :
  regrouped (a ++ (first :: rest) ++ b) (fa ++ frun ++ fb) ks gone → length a = length fa →
  length (first :: rest) = length frun → b ≠ [] → join_made (io k) first rest (concat frun) ks j →
  ∃ y, jo_result j = Ok y ∧
    regrouped (a ++ [y] ++ b) (fa ++ [concat frun] ++ fb) (jo_keys j) (gone ∪ jo_gone j).
Proof.
  intros (Hc & Ec & El & Elf & Ht & Hg) La Lr Hb (y & Ey & Hy & Hp & Hks & Hft & Hgs & Hgc). exists y. split; [done|].
  pose proof (chain_bases _ _ _ Hc) as Hnd. pose proof Hp as (P1 & _).
  assert (Hfb : fb ≠ []).
  { destruct Hc as (HF & _). apply Forall2_length in HF. rewrite !length_app in HF. destruct b; [done|]. destruct fb; [cbn in *; lia|done]. }
  split; [by eapply chain_join|]. split.
  { rewrite <- Ec, !concat_app, concat_cons, app_nil_r. done. }
  assert (Hll : ∀ {X} (u v w w' : list X), w ≠ [] → last (u ++ v ++ w) = last (u ++ w' ++ w)).
  { intros X u v w w' Hw. destruct (exists_last Hw) as (l & x & ->). by rewrite !app_assoc, !last_snoc. }
  split; [rewrite <- El; by apply Hll|]. split; [rewrite <- Elf; by apply Hll|].
  rewrite !fmap_app in Hnd. apply NoDup_app in Hnd as (_ & Hna & (Hnr & Hnb & _)%NoDup_app).
  split.
  - intros Hst H0. specialize (Ht Hst H0). unfold true_files in *.
    apply Forall2_app_inv in Ht as [Ha Ht]; [|done]. apply Forall2_app_inv in Ht as [_ Htb]; [|done].
    apply Forall2_app; [|constructor; [by rewrite P1; apply Hft|]]; (eapply true_files_same; [|done]); intros x Hx; apply Hks; intros Hin.
    + apply (Hna x Hx). set_solver.
    + apply (Hnb x Hin Hx).
  - intros Hcalm. apply (parted_trans _ _ _ _ _ (Hg Hcalm)). rewrite Hgc by done. rewrite !fmap_app. cbn [fmap list_fmap].
    rewrite P1, !list_to_set_app_L. cbn [list_to_set]. apply NoDup_cons in Hnr as [Hfr _].
    assert (Hdj : ∀ x, x ∈ (BaseOffset <$> rest) → x ∉ (BaseOffset <$> a) ∧ x ≠ BaseOffset first ∧ x ∉ (BaseOffset <$> b)).
    { intros x Hx. split; [intros Hxa; apply (Hna x Hxa); set_solver|]. split; [by intros ->|]. apply (Hnb x). by right. }
    clear -Hdj. split; [set_solver|]. intros x. rewrite !elem_of_union, !elem_of_list_to_set, elem_of_singleton.
    intros Hx. destruct (Hdj x Hx) as (H1 & H2 & H3). set_solver.
Qed.

(** A run that fits one segment. *)
Definition run_ok (r : joinRun) : Prop :=
  (jr_first r < jr_last r)%nat ∧ (S (jr_last r) < length ss)%nat ∧
  ∀ s, ss !! jr_first r = Some s → frames_ok (BaseOffset s) (concat (inputs fss r)).

(** How many segments the runs save. *)
Definition saved (runs : list joinRun) : nat := foldr (λ r n, (jr_last r - jr_first r + n)%nat) 0%nat runs.

Definition unbounded (b : rewriteBudget) : Prop := b_max b ≤ 0 ∧ b_deadline b = false.

Lemma unbounded_allow after b : unbounded b → allow after b = true ∧ unbounded (note_rewrite b).
Proof.
  intros [H1 H2]. split; [|done]. unfold allow. rewrite (proj2 (Z.ltb_ge _ _)) by done. by rewrite H2.
Qed.

Lemma drop_run {A} (l : list A) (next first last : nat) x rest :
  drop first l = x :: rest → (next ≤ first ≤ last)%nat →
  drop next l = take (first - next) (drop next l) ++ (x :: take (last - first) rest) ++ drop (S last) l.
Proof.
  intros Hd Hn. rewrite <- (take_drop (first - next) (drop next l)) at 1. f_equal. rewrite drop_drop.
  replace (next + (first - next))%nat with first by lia. rewrite Hd. cbn. f_equal.
  rewrite <- (take_drop (last - first) rest) at 1. f_equal.
  replace (S last) with (first + S (last - first))%nat by lia. by rewrite <- drop_drop, Hd.
Qed.

Lemma inputs_cons {A} (l : list A) r x rest :
  drop (jr_first r) l = x :: rest → (jr_first r ≤ jr_last r)%nat → inputs l r = x :: take (jr_last r - jr_first r) rest.
Proof. intros Hd Hl. unfold inputs. rewrite Hd. by replace (S (jr_last r) - jr_first r)%nat with (S (jr_last r - jr_first r)) by lia. Qed.

Lemma concat_inputs_le (l : list (list frm)) r : (length (concat (inputs l r)) ≤ length (concat l))%nat.
Proof.
  unfold inputs. rewrite <- (take_drop (jr_first r) l) at 2. rewrite <- (take_drop (S (jr_last r) - jr_first r) (drop (jr_first r) l)) at 2.
  rewrite !concat_app, !length_app. lia.
Qed.

Context (fuel : nat) (after : nat → bool).
Context (Hc : chain_ok o ss fss) (Hs : Forall sound (concat fss)) (Hfuel : (length (concat fss) < fuel)%nat).
Context (Hio : ∀ k, orderly (jn_clean (io k))).

(** The join of one run of the log. *)
Lemma join_run k i r first rest ks :
  run_ok r → drop (jr_first r) ss = first :: rest →
  ∃ j, joinOne fuel (io k) i first (take (jr_last r - jr_first r) rest) ks = Some j ∧
    (join_kept (io k) first ks j ∨
     join_made (io k) first (take (jr_last r - jr_first r) rest) (concat (inputs fss r)) ks j).
Proof.
  intros (Hlt & Hlen & Hfr) Hd. pose proof Hc as (HF & _).
  assert (Ef : ss !! jr_first r = Some first) by (by rewrite <- (Nat.add_0_r (jr_first r)), <- lookup_drop, Hd).
  assert (Hin : Forall2 (seg_ok o) (inputs ss r) (inputs fss r)) by (unfold inputs; by apply Forall2_take, Forall2_drop).
  rewrite (inputs_cons ss r first rest Hd) in Hin by lia.
  assert (Hnd : NoDup (BaseOffset <$> inputs ss r)).
  { pose proof (chain_bases _ _ _ Hc) as Hn. unfold inputs. rewrite fmap_take, fmap_drop.
    rewrite <- (take_drop (jr_first r) (BaseOffset <$> ss)) in Hn. apply NoDup_app in Hn as (_ & _ & Hn).
    rewrite <- (take_drop (S (jr_last r) - jr_first r) (drop _ _)) in Hn. by apply NoDup_app in Hn as (? & _). }
  rewrite (inputs_cons ss r first rest Hd) in Hnd by lia. cbn in Hnd. apply NoDup_cons in Hnd as [Hnd _].
  assert (Hsd : Forall sound (concat (inputs fss r))).
  { rewrite Forall_forall in Hs |- *. intros f Hf. apply Hs. rewrite elem_of_concat in Hf |- *. destruct Hf as (n & l & E & Hl).
    unfold inputs in E. apply lookup_take_Some in E as [E _]. rewrite lookup_drop in E. eauto. }
  pose proof (concat_inputs_le fss r). apply joinOne_spec; [done| |by apply Forall2_cons_inv_l in Hin as (? & ? & (_ & ? & _) & _)|done|by apply Hfr|done|lia].
  eapply Forall2_impl; [exact Hin|]. by intros s fs (? & _).
Qed.

Lemma join_loop_spec runs k b next out fo ks gone i :
  Forall (λ r, (next ≤ jr_first r)%nat ∧ run_ok r) runs → StronglySorted (λ r r', (jr_last r < jr_first r')%nat) runs →
  length out = length fo → (next ≤ length ss)%nat → regrouped (out ++ drop next ss) (fo ++ drop next fss) ks gone →
  ∃ js fl, join_loop fuel io after k b ss runs next out ks gone i = Some js ∧
    regrouped (js_list js) fl (js_keys js) (js_gone js) ∧ js_err js ≠ Panic ∧
    ((∀ k, fails_early (jn_clean (io k)) = false) → js_err js = Ok () ∧
     (unbounded b → length (js_list js) + saved runs = length out + (length ss - next))%nat).
Proof.
  intros Hr Hsrt. revert k b next out fo ks gone i Hr.
  induction Hsrt as [|r runs Hsrt IH Hafter]; intros k b next out fo ks gone i Hr Hlen Hnx Hrg; cbn [join_loop].
  { eexists _, _. split; [done|]. split; [exact Hrg|]. split; [done|]. intros _. split; [done|]. intros _.
    cbn. rewrite length_app, length_drop. lia. }
  apply Forall_cons in Hr as [[Hn Hro] Hr]. pose proof Hro as (Hlt & Hle & _).
  destruct (allow (after k) b) eqn:Ea; cbn [negb].
  2: { destruct (IH (S k) b next out fo ks gone i Hr Hlen Hnx Hrg) as (js & fl & E & Hj & Hp & Hok).
       exists js, fl. split; [done|]. split; [done|]. split; [done|]. intros Hf. destruct (Hok Hf) as [? _]. split; [done|].
       intros Hu. destruct (unbounded_allow (after k) b Hu). congruence. }
  destruct (drop (jr_first r) ss) as [|first rest] eqn:Hd.
  { apply (f_equal length) in Hd. rewrite length_drop in Hd. cbn in Hd. lia. }
  destruct (join_run k i r first rest ks Hro Hd) as (j & -> & Hj). cbn [mbind option_bind]. cbv zeta.
  destruct Hj as [((e & ->) & -> & -> & -> & Hfe)|Hmade].
  { eexists _, _. split; [done|]. cbn [js_list js_keys js_gone js_err]. rewrite union_empty_r_L, <- app_assoc, <- Hd.
    replace (jr_first r) with (next + (jr_first r - next))%nat at 2 by lia. rewrite <- drop_drop, take_drop.
    split; [exact Hrg|]. split; [done|]. intros Hf. by rewrite Hf in Hfe. }
  pose proof Hc as (HF & _). pose proof (Forall2_length _ _ _ HF) as Lss.
  destruct (drop (jr_first r) fss) as [|f0 frest] eqn:Hdf.
  { apply (f_equal length) in Hdf. rewrite length_drop in Hdf. cbn in Hdf. lia. }
  rewrite (drop_run ss next (jr_first r) (jr_last r) first rest Hd), (drop_run fss next (jr_first r) (jr_last r) f0 frest Hdf),
    <- (inputs_cons fss r f0 frest Hdf), !(app_assoc out), !(app_assoc fo) in Hrg by lia.
  assert (Lr : length (first :: take (jr_last r - jr_first r) rest) = length (inputs fss r)).
  { rewrite <- (inputs_cons ss r first rest Hd) by lia. unfold inputs. rewrite !length_take, !length_drop. lia. }
  assert (Lo : length (out ++ take (jr_first r - next) (drop next ss)) = length (fo ++ take (jr_first r - next) (drop next fss))).
  { rewrite !length_app, !length_take, !length_drop. lia. }
  assert (Lb : drop (S (jr_last r)) ss ≠ []).
  { intros E%(f_equal length). rewrite length_drop in E. cbn in E. lia. }
  destruct (regroup_step k _ _ _ _ _ _ _ _ _ _ Hrg Lo Lr Lb Hmade) as (y & -> & Hrg').
  rewrite !(app_assoc _ [_]) in Hrg'.
  edestruct (λ A B C, IH (S k) (note_rewrite b) (S (jr_last r)) _ _ _ _ (i + 1) A B C Hrg') as (js & fl & E & Hj & Hp & Hok).
  - rewrite Forall_forall in Hr, Hafter |- *. intros r' Hr'. destruct (Hr r' Hr'). specialize (Hafter r' Hr'). split; [lia|done].
  - rewrite !(length_app _ [_]), Lo. done.
  - lia.
  - exists js, fl. split; [done|]. split; [done|]. split; [done|]. intros Hf. destruct (Hok Hf) as [? Hl]. split; [done|].
    intros Hu. destruct (unbounded_allow (after k) b Hu) as [_ Hu']. specialize (Hl Hu'). cbn [saved foldr]. fold (saved runs).
    rewrite !length_app, length_take, length_drop in Hl. cbn [length] in Hl. lia.
Qed.

End stage.

(** ** Joining a log *)

(** Local segments are planned by [JoinBelow] alone. *)
Definition local_only (spec : joinSpec) : joinSpec := {| JoinBelow := JoinBelow spec; TierJoinBelow := ∅ |}.

Lemma plan_local ss spec : planJoins position ss spec = planJoins position ss (local_only spec).
Proof.
  unfold planJoins. destruct (_ <? _)%nat; [done|]. generalize (@None joinRun), (@nil joinRun), 0%nat.
  induction (removelast ss) as [|s l IH]; intros cur runs n; [done|]. cbn [plan_loop joinTier Retention.tier_of Retention.segment_retained].
  change (joinCapFor (local_only spec) "" false) with (joinCapFor spec "" false). destruct (_ || _); [apply IH|].
  destruct cur as [c|]; [|apply IH]. destruct (_ && _); apply IH.
Qed.

Section joined.
Context `{CodecLaws}.

(** A planned run spans fewer offsets than a relative offset of the index can
    tell apart. *)
Definition spans_fit (ss : list segment) (fss : list (list frm)) (runs : list joinRun) : Prop :=
  Forall (λ r, ∀ s f, ss !! jr_first r = Some s → f ∈ concat (inputs fss r) → f_off f - BaseOffset s < 2 ^ 31) runs.

Lemma total_positions o ss fss :
  Forall2 (seg_ok o) ss fss → Retention.total position ss = zlen (fs_bytes (concat fss)).
Proof.
  induction 1 as [|s fs ss fss ((Hl & _) & _) _ IH]; [done|]. rewrite concat_cons, fs_bytes_app, zlen_app, <- IH.
  cbn. by rewrite (log_ok_position _ _ Hl).
Qed.

Lemma planned_runs o ss fss spec :
  chain_ok o ss fss → JoinBelow spec < 2 ^ 31 → spans_fit ss fss (planJoins position ss spec) →
  Forall (run_ok ss fss) (planJoins position ss spec) ∧
  StronglySorted (λ r r', (jr_last r < jr_first r')%nat) (planJoins position ss spec).
Proof.
  intros (HF & Hl & _) Hj Hsp. unfold spans_fit in Hsp. rewrite plan_local in *. unfold planJoins in *.
  destruct (Nat.ltb_spec (length ss) 3) as [|H3]; [by split; constructor|].
  assert (Hlen : length (removelast ss) = pred (length ss)) by apply Retention.length_removelast.
  destruct (plan_loop_spec position (local_only spec) (removelast ss)) with (rest := removelast ss) (n := 0%nat)
    (cur := @None joinRun) (runs := @nil joinRun) as [[Ho Hsrt] _]; [| |done|lia| |].
  - rewrite removelast_firstn_len. apply Forall_take, Forall_forall. intros s [n Hn]%list_elem_of_lookup.
    destruct (Forall2_lookup_l _ _ _ _ _ HF Hn) as (fs & _ & ((Hlo & _) & _)). rewrite (log_ok_position _ _ Hlo). pose_zlen. lia.
  - intros tier tiered. unfold joinCapFor, local_only. cbn [JoinBelow TierJoinBelow]. destruct tiered; cbn [negb]; [rewrite lookup_empty; cbn; lia|lia].
  - split; [by split; constructor|]. split; [intros i; lia|]. intros i; lia.
  - split; [|done]. rewrite Forall_forall in Ho, Hsp |- *. intros r Hr. specialize (Hsp r Hr).
    destruct (Ho r Hr) as ((Hb & _ & Htier & Hby & Hcap) & Hlong). rewrite inputs_sealed in Htier, Hby by lia.
    split; [done|]. split; [lia|]. intros s Es.
    assert (Hin : Forall2 (seg_ok o) (inputs ss r) (inputs fss r)) by (unfold inputs; by apply Forall2_take, Forall2_drop).
    rewrite (total_positions o _ _ Hin) in Hby.
    assert (Ecap : joinCapFor (local_only spec) (jr_tier r) (jr_tiered r) < 2 ^ 31).
    { unfold joinCapFor, local_only. cbn [JoinBelow TierJoinBelow]. destruct (jr_tiered r); cbn [negb]; [rewrite lookup_empty; cbn; lia|lia]. }
    pose proof (drop_S _ _ _ Es) as Ed. rewrite (inputs_cons _ _ _ _ Ed) in Hin by lia.
    eapply run_frames; [exact Hin| |intros f; by apply Hsp|lia].
    rewrite <- (take_drop (jr_first r) ss), Ed, linked_app in Hl. destruct Hl as (_ & Hl & _).
    rewrite <- (take_drop (jr_last r - jr_first r) (drop _ _)), app_comm_cons, linked_app in Hl. by destruct Hl.
Qed.

(** What the stage leaves. *)
Lemma joinSegments_spec o fuel io after b spec ss fss ks i :
  chain_ok o ss fss → Forall sound (concat fss) → (length (concat fss) < fuel)%nat → (∀ k, orderly (jn_clean (io k))) →
  JoinBelow spec < 2 ^ 31 → spans_fit ss fss (planJoins position ss spec) →
  ∃ js fss', joinSegments fuel io after b spec ss ks i = Some js ∧
    chain_ok o (js_list js) fss' ∧ concat fss' = concat fss ∧ last (js_list js) = last ss ∧ last fss' = last fss ∧
    ((∀ k, jn_stale (io k) = false) → true_files ss fss ks → true_files (js_list js) fss' (js_keys js)) ∧
    ((∀ k n, jn_retire (io k) n = delete_calm) →
     parted (list_to_set (BaseOffset <$> ss)) (list_to_set (BaseOffset <$> js_list js)) (js_gone js)) ∧
    js_err js ≠ Panic ∧
    ((∀ k, fails_early (jn_clean (io k)) = false) → js_err js = Ok () ∧
     (unbounded b → length (js_list js) + saved (planJoins position ss spec) = length ss)%nat).
Proof.
  intros Hc Hs Hfuel Hio Hj Hsp. destruct (planned_runs o ss fss spec Hc Hj Hsp) as [Hok Hsrt].
  destruct (join_loop_spec o io ss fss ks fuel after Hc Hs Hfuel Hio (planJoins position ss spec) 0 b 0 [] [] ks ∅ i)
    as (js & fl & E & (R1 & R2 & R3 & R4 & R5 & R6) & Hp & Hl); [|done|done|lia| |].
  - eapply Forall_impl; [exact Hok|]. intros r Hr. split; [lia|done].
  - cbn [app drop]. split; [done|]. do 4 (split; [done|]). intros _. apply parted_refl.
  - exists js, fl. split; [done|]. do 7 (split; [done|]).
    intros Hf. destruct (Hl Hf) as [? Hlen]. split; [done|]. intros Hu. specialize (Hlen Hu). cbn in Hlen. lia.
Qed.

(** C20: the join stage changes no record.  On a log whose runs span fewer than
    2^31 offsets ([join_outgrows_index] has one that does not), wherever the
    budget ends it, and if nothing fails but the creation or the flush of a joined
    copy, the writing of its digest, and the removal of an input it has already
    taken the place of, the list it returns holds the same records in the same
    order and ends in the same active segment; it has true digests where the log
    had them and no stale one stayed behind, and it lacks exactly the segments
    whose files went where those removals succeed; with no such failure and no
    budget it has one segment for each run. *)
Theorem join_keeps o fuel io after b spec ss fss ks i :
  chain_ok o ss fss → Forall sound (concat fss) → (length (concat fss) < fuel)%nat → (∀ k, orderly (jn_clean (io k))) →
  JoinBelow spec < 2 ^ 31 → spans_fit ss fss (planJoins position ss spec) →
  ∃ js fss', joinSegments fuel io after b spec ss ks i = Some js ∧
    chain_ok o (js_list js) fss' ∧ concat fss' = concat fss ∧ last (js_list js) = last ss ∧ last fss' = last fss ∧
    ((∀ k, jn_stale (io k) = false) → true_files ss fss ks → true_files (js_list js) fss' (js_keys js)) ∧
    ((∀ k n, jn_retire (io k) n = delete_calm) →
     parted (list_to_set (BaseOffset <$> ss)) (list_to_set (BaseOffset <$> js_list js)) (js_gone js)) ∧
    js_err js ≠ Panic ∧
    ((∀ k, fails_early (jn_clean (io k)) = false) → js_err js = Ok () ∧
     (unbounded b → length (js_list js) + saved (planJoins position ss spec) = length ss)%nat).
Proof. apply joinSegments_spec. Qed.

(** The plan bounds the bytes of a run and not its span: of two small segments
    2^31 offsets apart it makes one, and the entry that segment's index has for
    a record of the second reads back as an offset before the first. *)
Lemma join_outgrows_index o a b act fa fb lf f spec pos :
  chain_ok o [a; b; act] [fa; fb; lf] → position a + position b ≤ JoinBelow spec < 2 ^ 62 → f ∈ fb →
  2 ^ 31 ≤ f_off f - BaseOffset a < 2 ^ 32 →
  (∃ r, planJoins position [a; b; act] spec = [r] ∧ inputs [a; b; act] r = [a; b]) ∧
  Index.Offset (Index.fill (Index.newRelEntry (fentry pos f) (BaseOffset a)) (BaseOffset a)) = f_off f - 2 ^ 32.
Proof.
  intros (HF & Hl & Hne) Hj Hf Hsp.
  apply Forall2_cons in HF as [Ha HF]. apply Forall2_cons in HF as [Hb _].
  assert (Hpos : ∀ s fs, seg_ok o s fs → fs ≠ [] → 0 < position s).
  { intros s fs ((Hlo & _) & _) Hn. rewrite (log_ok_position _ _ Hlo). by apply fs_bytes_pos. }
  apply Forall_cons in Hne as [Hfa Hne]. apply Forall_cons in Hne as [Hfb _].
  pose proof (Hpos a fa Ha Hfa). pose proof (Hpos b fb Hb Hfb). split.
  - rewrite plan_local. unfold planJoins. cbn [length Nat.ltb Nat.leb removelast plan_loop joinTier Retention.tier_of Retention.segment_retained].
    unfold joinCapFor, local_only. cbn [negb JoinBelow]. rewrite !(proj2 (Z.leb_gt _ _)) by lia. cbn [orb jr_tiered jr_tier jr_bytes Bool.eqb String.eqb andb].
    rewrite (sint_small 64) by (unfold in_sint; lia). rewrite (proj2 (Z.leb_le _ _)) by lia.
    eexists. split; reflexivity.
  - destruct Ha as (Hh & _). apply holds_frames in Hh as (Hb0 & _). destruct Hb as (Hhb & _). apply holds_frames in Hhb as (_ & Hfr & _).
    rewrite Forall_forall in Hfr. destruct (Hfr f Hf) as (? & _ & ? & _).
    unfold Index.fill, Index.newRelEntry, fentry. cbn [Index.Offset Index.relOffset].
    rewrite (sint_small 64 (_ - _)) by (unfold in_sint; lia).
    assert (E32 : sint 32 (f_off f - BaseOffset a) = f_off f - BaseOffset a - 2 ^ 32).
    { unfold sint. rewrite (Z.mod_eq _ (2 ^ 32)) by lia. replace ((f_off f - BaseOffset a + 2 ^ (32 - 1)) / 2 ^ 32) with 1; [lia|].
      apply (Z.div_unique _ _ _ (f_off f - BaseOffset a + 2 ^ (32 - 1) - 2 ^ 32)); lia. }
    rewrite E32, sint_small by (unfold in_sint; lia). lia.
Qed.

End joined.

(** ** Two sealed segments become one *)

Definition join_calm : nat → join_io :=
  λ _, {| jn_clean := clean_calm; jn_retire := λ _, delete_calm; jn_stale := false |}.

Definition under (n : Z) : joinSpec := {| JoinBelow := n; TierJoinBelow := ∅ |}.

Definition two_caps : joinSpec := {| JoinBelow := 250; TierJoinBelow := {[ "cold"%string := 200 ]} |}.

Lemma plan_bounds_witness :
  ∃ runs, @planJoins Retention.card Retention.card_retained Retention.card_size Retention.five two_caps = runs ∧
    (λ r, (jr_first r, jr_last r, jr_bytes r)) <$> runs = [(0%nat, 1%nat, 200); (2%nat, 3%nat, 200)] ∧
    StronglySorted (λ r r', (jr_last r < jr_first r')%nat) runs.
Proof.
  eexists. split; [reflexivity|]. split; [by vm_compute|].
  apply (@plan_bounds Retention.card Retention.card_retained Retention.card_size Retention.five two_caps).
  - by repeat (constructor; [by vm_compute|]).
  - intros tier tiered. unfold joinCapFor, two_caps. cbn [negb JoinBelow TierJoinBelow]. destruct tiered; cbn [negb]; [|lia].
    destruct (decide (tier = "cold"%string)) as [->|]; [by rewrite lookup_singleton_eq|by rewrite lookup_singleton_ne].
Defined.

Lemma join_keeps_witness :
  ∃ ss js fss', length ss = 3%nat ∧
    @joinSegments half_lib 9 join_calm (λ _, false) (newRewriteBudget 0 0) (under 1000) ss ∅ 1 = Some js ∧
    @chain_ok half_lib small (js_list js) fss' ∧ concat fss' = concat (sealed_keys ++ [active_keys]) ∧ js_err js = Ok ().
Proof.
  destruct two_keys_log as (sealed & act & Hr & Hl & _). exists (sealed ++ [act]).
  destruct Hr as (Hc & Hs & _ & Hf & _).
  destruct (@join_keeps half_lib half_laws small 9 join_calm (λ _, false) (newRewriteBudget 0 0) (under 1000)
    (sealed ++ [act]) (sealed_keys ++ [active_keys]) ∅ 1 Hc) as (js & fss' & E & Hc' & Ec & _ & _ & _ & _ & _ & Hok).
  - apply Forall_concat. exact Hs.
  - exact Hf.
  - intros k. by split_and!.
  - cbn. lia.
  - apply Forall_forall. intros r _ s f Es Hin.
    assert (Hb : 0 ≤ BaseOffset s).
    { destruct Hc as (HF & _). destruct (Forall2_lookup_l _ _ _ _ _ HF Es) as (fs & _ & (Hh & _)).
      apply holds_frames in Hh as ((? & _) & _). done. }
    assert (Hin' : f ∈ concat (sealed_keys ++ [active_keys])).
    { rewrite elem_of_concat in Hin |- *. destruct Hin as (n & l & E & Hx). unfold inputs in E.
      apply lookup_take_Some in E as [E _]. rewrite lookup_drop in E. by eexists _, _. }
    assert (Hsmall : Forall (λ f, f_off f < 4) (concat (sealed_keys ++ [active_keys]))) by (by repeat constructor).
    rewrite Forall_forall in Hsmall. specialize (Hsmall f Hin'). cbn in Hsmall. lia.
  - exists js, fss'. split; [rewrite length_app, <- Hl; reflexivity|]. split; [exact E|]. split; [exact Hc'|]. split; [exact Ec|].
    by destruct (Hok (λ _, eq_refl)).
Defined.

End SegmentJoin.
