(* ===== verification/Cleaning.v ===== *)
(** * A cleaning pass: clean.go

    What the log does with its cleaners.  [clean] runs retention, then
    compaction - or, on a log that does not compact, the strip or the
    consolidation - then the joins, and hands back the list each stage got as
    far as.  [cleanPass] runs it on a snapshot of the segments with the log open
    for appends, then installs the list: what was rolled meanwhile comes behind
    it, and the epoch cache moves up to the first segment that is left.
    [CleanWithSpec] refuses specs it cannot honour, [Clean] is the automatic
    pass, [cleanerTick] a turn of the background loop.

    Segments are local: tiers, placement, manifests and the offload after a pass
    are not modelled.  A log's digest files are the map [keyFiles]. *)

From Stdlib Require Import ZArith Lia.
From stdpp Require Import base list numbers strings gmap sorting.
From coqutil Require Import Byte.
From S2P Require Import Prelude GoStd Wire Compress BlockV3 Block Framing EpochCache Index Segment.
From S2P Require Import SegmentIndex SegmentSearch SegmentReopen Log SegmentRewrite.
From S2P Require Import LogAppend LogRead LogTruncate Retention KeyDigest Compaction CompactRecord CompactSegment CompactLog CompactPass.
From S2P Require Import SegmentJoin.

Open Scope Z_scope.
Set Warnings "-clear-no-such-hyp".

Module Cleaning.
Import Segment SegmentIndex SegmentSearch SegmentReopen Log LogAppend SegmentRewrite LogTruncate KeyDigest Compaction.
Import CompactRecord CompactSegment CompactLog CompactPass SegmentJoin.

#[local] Existing Instance Retention.segment_retained.

(** Of [Options] what cleaning reads. *)
Record cleanOptions := {
  co_retention : Retention.limits;
  Compact : bool;
  CompactMinAge : Z;
  DisableAutoClean : bool;
  CleanRewriteBudget : Z;
  CompactTombstoneRetention : Z;
}.

(** [CleanSpec] as a caller writes it, without what concerns tiers only. *)
Record cleanRequest := {
  rq_Ceiling : Retention.Bound;
  rq_StripBelow : Z;
  rq_StripHeaders : list bytes;
  rq_StripUncompacted : bool;
  rq_Aborted : option (Z → bool);
  rq_TombstoneGCBelow : Z;
  rq_TombstoneRetention : Z;
  rq_maxRewrites : Z;
  rq_RewriteBudget : Z;
  rq_TierBudgets : list (string * Z);
  rq_join : joinSpec;
  rq_RetentionFloor : Retention.Bound;
}.

(** What happens around a pass: the clock retention reads, the removal of the
    segment at a base offset, the compaction and the joins, whether the join's
    deadline has passed, the checkpoint of the epochs, and a segment name that
    is free. *)
Record clean_env := {
  ce_now : Z;
  ce_delete : Z → delete_io;
  ce_pass : pass_io;
  ce_join : nat → join_io;
  ce_after : nat → bool;
  ce_epoch : EpochCache.write;
  ce_id : Z;
}.

(** What [clean] returns, with the digest files and the log files that went. *)
Record cleaned := {
  cn_list : list segment;
  cn_verified : Z;
  cn_keys : keyFiles;
  cn_gone : gset Z;
  cn_err : outcome ();
}.

Section codecs.
Context `{CodecLib}.

(** ** Retention *)

Definition delete_error (env : clean_env) (s : segment) : option error :=
  match Delete (ce_delete env (BaseOffset s)) s with
  | (_, _, Fail e) => Some e
  | _ => None
  end.

(** What retention leaves. *)
Definition retained (env : clean_env) (c : cleanOptions) (floor : Retention.Bound) (ss : list segment)
    : list segment * option error :=
  Retention.Clean (delete_error env) (ce_now env) (co_retention c) [] ss ∅ floor.

(** The delete stage.  The segments that went are a prefix; one whose removal
    failed stays in the list, as the removal left it. *)
Definition delete_stage (env : clean_env) (c : cleanOptions) (floor : Retention.Bound) (ss : list segment) (ks : keyFiles)
    : cleaned :=
  let '(r, e) := retained env c floor ss in
  let dropped := take (length ss - length r) ss in
  let ks := foldr (λ s ks, delete (BaseOffset s) ks) ks dropped in
  let gone : gset Z := list_to_set (BaseOffset <$> dropped) in
  match e, r with
  | Some e, s :: r =>
      let '(s', g, _) := Delete (ce_delete env (BaseOffset s)) s in
      {| cn_list := s' :: r; cn_verified := -1; cn_keys := ks;
         cn_gone := gone ∪ (if g then {[ BaseOffset s ]} else ∅); cn_err := Fail e |}
  | Some e, [] => {| cn_list := []; cn_verified := -1; cn_keys := ks; cn_gone := gone; cn_err := Fail e |}
  | None, _ => {| cn_list := r; cn_verified := -1; cn_keys := ks; cn_gone := gone; cn_err := Ok () |}
  end.

(** ** The stages *)

Definition strip_pass (c : cleanOptions) (q : cleanRequest) : bool :=
  negb (Compact c) && rq_StripUncompacted q && (0 <? rq_StripBelow q) && (0 <? zlen (rq_StripHeaders q)).

(** The spec with the ceiling resolved against the high watermark. *)
Definition resolved (c : cleanOptions) (hw : Z) (q : cleanRequest) : CleanSpec :=
  {| ceiling := Retention.Or (rq_Ceiling q) hw; stripOnly := strip_pass c q; StripBelow := rq_StripBelow q;
     StripHeaders := rq_StripHeaders q; Aborted := rq_Aborted q; TombstoneGCBelow := rq_TombstoneGCBelow q;
     TombstoneRetention := rq_TombstoneRetention q |}.

(** The two arms of [if l.Compact || stripOnly], with the next segment name. *)
Definition rewrite_stage (fuel : nat) (env : clean_env) (c : cleanOptions) (hw : Z) (q : cleanRequest) (ss : list segment)
    (ks : keyFiles) (i : Z) : option (cleaned * Z) :=
  if Compact c || strip_pass c q then
    r ← CompactSpec fuel (ce_pass env) (CompactMinAge c) (rq_maxRewrites q) (rq_RewriteBudget q) (resolved c hw q) ss ks i;
    Some ({| cn_list := default ss (pr_list r);
             cn_verified := match pr_err r with Ok _ => pr_verified r | _ => -1 end;
             cn_keys := pr_keys r; cn_gone := pr_gone r; cn_err := pr_err r |}, pr_id r)
  else
    '(out, i, r) ← consolidateSegments fuel (ce_pass env) (rq_maxRewrites q) (rq_RewriteBudget q) ss i;
    Some ({| cn_list := out; cn_verified := -1; cn_keys := ks; cn_gone := ∅; cn_err := r |}, i).

Definition clean (fuel : nat) (env : clean_env) (c : cleanOptions) (hw : Z) (q : cleanRequest) (ss : list segment)
    (ks : keyFiles) : option cleaned :=
  let d := delete_stage env c (rq_RetentionFloor q) ss ks in
  match cn_err d with
  | Ok _ =>
      '(r, i) ← rewrite_stage fuel env c hw q (cn_list d) (cn_keys d) (ce_id env);
      let gone := cn_gone d ∪ cn_gone r in
      match cn_err r with
      | Ok _ =>
          js ← joinSegments fuel (ce_join env) (ce_after env) (newRewriteBudget (rq_maxRewrites q) (rq_RewriteBudget q))
                 (rq_join q) (cn_list r) (cn_keys r) i;
          Some {| cn_list := js_list js; cn_verified := cn_verified r; cn_keys := js_keys js;
                  cn_gone := gone ∪ js_gone js; cn_err := js_err js |}
      | _ => Some {| cn_list := cn_list r; cn_verified := -1; cn_keys := cn_keys r; cn_gone := gone; cn_err := cn_err r |}
      end
  | _ => Some d
  end.

(** ** The pass *)

(** [rebaseSegments]. *)
Definition rebaseSegments (from to : list segment) : list segment := to ++ from.

(** The second half of [cleanPass], from the log as it is by then: appends may
    have extended the segment that was active when the pass started, the [n]th,
    and rolled it.  Every stage hands that segment on as it found it, so it is
    the one the log has now. *)
Definition install (env : clean_env) (l : commitLog) (n : nat) (r : cleaned) : commitLog * Z * outcome () :=
  match cn_list r with
  | [] => (l, -1, cn_err r)
  | _ =>
      if segmentsClosed l then (with_files l (files l ∖ cn_gone r) (nextId l), -1, Fail ErrCommitLogClosed)
      else
        let ss := rebaseSegments (drop (n - 1) (segments l)) (removelast (cn_list r)) in
        let l := with_list (with_files l (files l ∖ cn_gone r) (nextId l)) ss in
        match ss with
        | [] => (l, -1, Panic)
        | s :: _ =>
            let '(e, ok) := EpochCache.ClearEarliest (ce_epoch env) (epochs l) (BaseOffset s) in
            let l := with_epochs l e in
            match cn_err r with
            | Ok _ => (l, cn_verified r, if ok then Ok () else Fail (ErrText "failed to flush epoch offsets"))
            | err => (l, -1, err)
            end
        end
  end.

(** [cleanPass] with nothing else running: the log, its digest files, the
    verified floor and the error. *)
Definition cleanPass (fuel : nat) (env : clean_env) (c : cleanOptions) (l : commitLog) (ks : keyFiles) (q : cleanRequest)
    : option (commitLog * keyFiles * Z * outcome ()) :=
  r ← clean fuel env c (hw l) q (segments l) ks;
  let '(l', v, err) := install env l (length (segments l)) r in
  Some (l', cn_keys r, v, err).

(** The checks of [CleanWithSpec]. *)
Definition spec_refused (c : cleanOptions) (q : cleanRequest) : option error :=
  if bool_decide (is_Some (rq_Ceiling q)) && negb (DisableAutoClean c) then Some (ErrText "Ceiling with automatic cleaning")
  else if existsb (λ '(_, d), d =? 0) (rq_TierBudgets q) then Some (ErrText "tier budget of 0")
  else None.

(** [CleanWithSpec] on a log without tiers. *)
Definition CleanWithSpec (fuel : nat) (env : clean_env) (c : cleanOptions) (l : commitLog) (ks : keyFiles) (q : cleanRequest)
    : option (commitLog * keyFiles * Z * outcome ()) :=
  match spec_refused c q with
  | Some e => Some (l, ks, 0, Fail e)
  | None => cleanPass fuel env c l ks q
  end.

(** The spec of the automatic pass. *)
Definition auto_spec (c : cleanOptions) (hw : Z) : cleanRequest :=
  let gc := 0 <? CompactTombstoneRetention c in
  {| rq_Ceiling := None; rq_StripBelow := 0; rq_StripHeaders := []; rq_StripUncompacted := false; rq_Aborted := None;
     rq_TombstoneGCBelow := if gc then hw else 0;
     rq_TombstoneRetention := if gc then CompactTombstoneRetention c else 0;
     rq_maxRewrites := 0;
     rq_RewriteBudget := if 0 <? CleanRewriteBudget c then CleanRewriteBudget c else 0;
     rq_TierBudgets := []; rq_join := {| JoinBelow := 0; TierJoinBelow := ∅ |}; rq_RetentionFloor := None |}.

Definition Clean (fuel : nat) (env : clean_env) (c : cleanOptions) (l : commitLog) (ks : keyFiles)
    : option (commitLog * keyFiles * outcome ()) :=
  '(l, ks, _, err) ← CleanWithSpec fuel env c l ks (auto_spec c (hw l));
  Some (l, ks, err).

(** [cleanOnce]: errors are logged only. *)
Definition cleanOnce (fuel : nat) (env : clean_env) (c : cleanOptions) (l : commitLog) (ks : keyFiles)
    : option (commitLog * keyFiles) :=
  if DisableAutoClean c then Some (l, ks)
  else '(l, ks, _) ← Clean fuel env c l ks; Some (l, ks).

(** [cleanerTick]: a roll that fails ends the tick. *)
Definition cleanerTick (fuel : nat) (x : io) (env : clean_env) (c : cleanOptions) (l : commitLog) (ks : keyFiles)
    : option (commitLog * keyFiles) :=
  '(l, r) ← checkAndPerformSplit fuel x l;
  match r with
  | Ok _ => cleanOnce fuel env c l ks
  | _ => Some (l, ks)
  end.

End codecs.

(** ** What the stages leave *)

Section stages.
Context `{CodecLaws}.

#[local] Abbreviation bases l := (list_to_set (BaseOffset <$> l) : gset Z).

(** A log that can be cleaned: its records can be read and its digest files are
    true. *)
Definition cleanable (fuel : nat) (o : Options) (ss : list segment) (fss : list (list frm)) (ks : keyFiles) : Prop :=
  chain_ok o ss fss ∧ Forall (Forall sound) fss ∧ Forall short_keys fss ∧ (length (concat fss) < fuel)%nat ∧
  true_files ss fss ks.

Lemma cleanable_ready fuel io o ss fss ks :
  cleanable fuel o ss fss ks → (∀ i, orderly (ps_clean io i)) → fair (ps_ranges io) → ready fuel io o ss fss ks.
Proof. intros (H1 & H2 & H3 & H4 & H5) H6 H7. by split_and!. Qed.

Lemma removelast_drop {A} n (l : list A) : (n < length l)%nat → removelast (drop n l) = drop n (removelast l).
Proof.
  intros Hn. rewrite !removelast_firstn_len, length_drop, skipn_firstn_comm. f_equal. lia.
Qed.

Lemma chain_drop n o ss fss : chain_ok o ss fss → (n < length ss)%nat → chain_ok o (drop n ss) (drop n fss).
Proof.
  intros (HF & Hl & Hne) Hn. split; [by apply Forall2_drop|]. split.
  - rewrite <- (take_drop n ss), linked_app in Hl. by destruct Hl as (_ & ? & _).
  - rewrite removelast_drop by (rewrite <- (Forall2_length _ _ _ HF); done). by apply Forall_drop.
Qed.

Lemma cleanable_drop n fuel o ss fss ks ks' :
  cleanable fuel o ss fss ks → (n < length ss)%nat → (∀ b, b ∉ BaseOffset <$> take n ss → ks' !! b = ks !! b) →
  cleanable fuel o (drop n ss) (drop n fss) ks'.
Proof.
  intros (Hc & Hs & Hk & Hf & Ht) Hn Hks. split; [by apply chain_drop|]. split; [by apply Forall_drop|]. split; [by apply Forall_drop|].
  split; [rewrite <- (take_drop n fss), concat_app, length_app in Hf; lia|].
  apply (true_files_same _ _ ks); [|unfold true_files; by apply Forall2_drop].
  intros b Hb. apply Hks. intros Hb'. apply chain_bases in Hc. rewrite <- (take_drop n ss), fmap_app in Hc.
  apply NoDup_app in Hc as (_ & Hx & _). by apply (Hx b).
Qed.

Lemma local_split ss : Retention.splitOffloadedPrefix ss = ([], ss).
Proof. by destruct ss. Qed.

Lemma Delete_calm_any s : ∃ s', Delete delete_calm s = (s', true, Ok ()).
Proof.
  unfold Delete, closeDiscarding, closeSegment. destruct (closed s); [by eexists|].
  cbn [delete_calm de_close de_log de_index close_calm cl_file cl_index cl_sync cl_close cl_table negb].
  unfold Index.CloseDiscarding, Index.closeIndex. destruct (Index.closed (Index s)); [by eexists|].
  cbn [andb orb Index.no_faults Index.unmap_fails]. rewrite andb_false_r. by eexists.
Qed.

(** Retention drops the oldest segments, and no record the floor protects. *)
Lemma delete_stage_calm fuel o env c floor ss fss ks :
  (∀ b, ce_delete env b = delete_calm) → cleanable fuel o ss fss ks → ss ≠ [] →
  ∃ n ks', delete_stage env c floor ss ks =
      {| cn_list := drop n ss; cn_verified := -1; cn_keys := ks'; cn_gone := bases (take n ss); cn_err := Ok () |} ∧
    (n < length ss)%nat ∧ cleanable fuel o (drop n ss) (drop n fss) ks' ∧ (retained env c floor ss).1 = drop n ss ∧
    ∀ x f, floor = Some x → f ∈ concat (take n fss) → f_off f < x.
Proof.
  intros Hd Hc Hne. unfold delete_stage, retained.
  assert (Hdel : ∀ s, delete_error env s = None).
  { intros s. unfold delete_error. rewrite Hd. by destruct (Delete_calm_any s) as (s' & ->). }
  pose proof (Retention.Clean_local_ok (delete_error env) (ce_now env) Hdel (co_retention c) [] ss ∅ floor (local_split ss)) as He.
  destruct (Retention.Clean _ _ _ _ _ _ _) as [r e] eqn:E. cbn in He. subst e.
  destruct (Retention.Clean_trims _ _ _ _ _ _ _ _ _ _ _ E (local_split ss)) as (nt & n & -> & _ & Hfl & Hlen).
  rewrite drop_nil, app_nil_l.
  assert (Hn : (n < length ss)%nat) by (destruct ss; [done|cbn in *; lia]).
  rewrite length_drop. replace (length ss - (length ss - n))%nat with n by lia. eexists n, _. split; [reflexivity|].
  split; [done|]. split; [|split; [done|]].
  - apply (cleanable_drop n _ _ _ _ ks); [done|done|]. intros b Hb. clear -Hb.
    induction (take n ss) as [|s l IH]; [done|]. cbn in Hb |- *. apply not_elem_of_cons in Hb as [? Hb].
    rewrite lookup_delete_ne by done. by apply IH.
  - intros x f -> (j & fs & Ej & Hf)%elem_of_concat. apply lookup_take_Some in Ej as [Ej Hj].
    destruct (Retention.deletable_below ss x j) as (s' & Es' & Hb); [lia|]. destruct Hc as ((HF & Hl & _) & _).
    destruct (Forall2_lookup_r _ _ _ _ _ HF Ej) as (s & Es & Hs). pose proof (seg_range o s fs f Hs Hf).
    pose proof (sorted_lookup _ _ j (S j) s s' Hl ltac:(lia) Es Es') as Hx. cbn in Hx, Hb. lia.
Qed.

(** What a pass may do to the records: nothing at or above the ceiling changes,
    nothing is made up, and keys have the values they had before, those of their
    newest decided copies - or, where nothing is removed for its key, only control
    records and aborted ones may go. *)
Definition preserves (spec : CleanSpec) (before after : list frm) : Prop :=
  (∀ f, f ∈ before → ceiling spec ≤ f_off f → f ∈ after) ∧
  (∀ g, g ∈ after → ∃ f, f ∈ before ∧ same_record f g) ∧
  (if stripOnly spec then
     ∀ f, f ∈ before → is_control f = false → aborts spec (f_off f) = false → ∃ g, g ∈ after ∧ same_record f g
   else
     (∀ b k v, last_decided spec before b → value_at spec b after k v ↔ value_at spec b before k v) ∧
     ∀ f, f ∈ before → untouchable spec f → ∃ g, g ∈ after ∧ same_record f g).

Lemma same_record_refl f : same_record f f.
Proof. by repeat split. Qed.

Lemma preserves_refl spec fs : preserves spec fs fs.
Proof.
  assert (Hx : ∀ f, f ∈ fs → ∃ g, g ∈ fs ∧ same_record f g) by (intros f Hf; exists f; split; [done|apply same_record_refl]).
  split; [done|]. split; [intros g Hg; exists g; split; [done|apply same_record_refl]|].
  destruct (stripOnly spec); [by auto|]. split; [done|]. by auto.
Qed.

(** A pass with nothing to drop keeps every record it does not take for a
    transaction. *)
Lemma strip_keeps fuel io o spec minAge sealed act fssn lf ks seen ds m p f :
  ready_as fuel io o (sealed ++ [act]) (fssn ++ [lf]) seen ks →
  passing fuel io spec minAge sealed act fssn lf seen ds m p → stripOnly spec = true →
  f ∈ concat (fssn ++ [lf]) → is_control f = false → aborts spec (f_off f) = false →
  ∃ g, g ∈ concat (passed (ps_ranges io) spec m (did p) (fssn ++ [lf])) ∧ same_record f g.
Proof.
  intros (Hc & Hs & _ & _ & Hrg & _) [_ Hm _ _ _ _] Hso [j Hj]%in_seg_concat Hctl Hab. rewrite Hso in Hm.
  destruct (chain_sound _ _ _ Hc Hs j f Hj) as (Hsf & b & Hb).
  assert (Ho : ∃ g, out (ps_ranges io) spec (default None (drops m !! j)) f = Some g).
  { rewrite Hm. unfold out, fate. rewrite Hctl, Hab. destruct (_ <=? _); [by eexists|]. cbn [ds_get].
    destruct (f_key f); destruct (strips spec f); by eexists. }
  destruct Ho as (g & Eg). destruct (did p j) eqn:Ed.
  - exists g. split; [|by eapply out_same]. apply in_seg_concat. exists j. apply in_seg_passed. exists f. by rewrite Ed.
  - exists f. split; [|apply same_record_refl]. apply in_seg_concat. exists j. apply in_seg_passed. exists f. by rewrite Ed.
Qed.

Lemma compact_stage fuel io o minAge mr bu spec ss fss ks i :
  ready fuel io o ss fss ks → faithful io spec (removelast ss) → minAge ≤ 0 ∨ written_in_order (removelast ss) →
  ∃ r kept fss', CompactSpec fuel io minAge mr bu spec ss ks i = Some r ∧ pr_list r = Some kept ∧ pr_err r ≠ Panic ∧
    cleanable fuel o kept fss' (pr_keys r) ∧ last kept = last ss ∧ last fss' = last fss ∧
    parted (bases ss) (bases kept) (pr_gone r) ∧ preserves spec (concat fss) (concat fss').
Proof.
  intros Hrd Hfa Hw. unfold CompactSpec. destruct (Nat.leb_spec (length ss) 1) as [|Hl].
  { eexists _, ss, fss. split; [reflexivity|]. cbn [pr_list pr_err pr_keys pr_gone]. destruct Hrd as (H1 & H2 & H3 & H4 & H5 & _).
    split; [done|]. split; [done|]. split; [by split_and!|]. split; [done|]. split; [done|]. split; [apply parted_refl|apply preserves_refl]. }
  pose proof Hrd as (Hc & _). destruct (chain_split_last o ss fss Hc Hl) as (sealed & act & fssn & lf & -> & -> & HF & _).
  rewrite removelast_last in Hfa, Hw. assert (Hlen : length fssn = length sealed) by (symmetry; by eapply Forall2_length).
  pose proof (ready_seen _ _ _ _ _ _ Hrd) as Hra.
  destruct (compact_run fuel io o minAge mr bu spec sealed act fssn lf (fssn ++ [lf]) ks i Hra Hlen) as (ds & m & p & err & r & Hp & E & Hr).
  destruct (pass_chain fuel io o spec minAge sealed act fssn lf ks _ Hra Hlen ds m p Hp true (-1)) as (fss' & Hch & _ & Ec & Ht).
  pose proof (pass_bases fuel io o spec minAge sealed act fssn lf ks _ Hra Hlen ds m p Hp true (-1)) as Hb. cbv zeta in Hb.
  destruct (assemble _ _ _ _ _) as [kept v]. destruct Hr as (El & Eg & Ek & Ee & Hne & _). subst err. cbn [fst] in *.
  pose proof (passed_ready fuel io o minAge spec sealed act fssn lf ks ds m p kept fss' Hrd Hlen Hp Hfa Hch Ec Ht)
    as (H1 & H2 & H3 & H4 & H5 & _).
  exists r, (kept ++ [act]), (fss' ++ [lf]). split; [done|]. split; [done|]. split; [done|].
  split; [rewrite Ek; by split_and!|]. split; [by rewrite !last_snoc|]. split; [by rewrite !last_snoc|].
  split; [by rewrite Eg|]. rewrite Ec. split; [|split].
  - intros f Hf Hce. destruct (pass_keeps fuel io o spec sealed act fssn lf ks _ Hra Hlen m p f Hf) as (g & Hg & _ & Hx); [by left|].
    by rewrite <- Hx.
  - intros g Hg. by eapply pass_origin.
  - destruct (stripOnly spec) eqn:Hso; [intros; by eapply strip_keeps|]. split.
    + intros b k x Hdec. apply value_at_kept; [intros g Hg; by eapply pass_origin|done|by eapply pass_reads].
    + intros f Hf Hu. destruct (pass_keeps fuel io o spec sealed act fssn lf ks _ Hra Hlen m p f Hf) as (g & Hg & Hx & _); [by right|].
      by exists g.
Qed.

(** What a pass makes of the records retention left. *)
Definition cleans (c : cleanOptions) (hw : Z) (q : cleanRequest) (before after : list frm) : Prop :=
  if Compact c || strip_pass c q then preserves (resolved c hw q) before after else after = before.

(** What happens during a pass leaves the log alone: removals succeed, rewrites
    fail before they replace anything, digests are written, and the stamps are
    true. *)
Definition steady (env : clean_env) (c : cleanOptions) (hw : Z) (q : cleanRequest) (ss : list segment) : Prop :=
  (∀ b, ce_delete env b = delete_calm) ∧ (∀ i, orderly (ps_clean (ce_pass env) i)) ∧ fair (ps_ranges (ce_pass env)) ∧
  (∀ k, orderly (jn_clean (ce_join env k))) ∧ (∀ k, jn_stale (ce_join env k) = false) ∧
  (∀ k n, jn_retire (ce_join env k) n = delete_calm) ∧
  (Compact c || strip_pass c q = true →
   (∀ i, cs_digest (ps_clean (ce_pass env) i) = false) ∧ (∀ s, s ∈ removelast ss → stamps_ok (resolved c hw q) s) ∧
   in_sint 64 (rq_StripBelow q) ∧ short_names (rq_StripHeaders q) ∧
   (CompactMinAge c ≤ 0 ∨ written_in_order (removelast ss))).

(** Joins are off, or the log spans fewer offsets than one segment may. *)
Definition joins_fit (q : cleanRequest) (ss : list segment) (fss : list (list frm)) : Prop :=
  JoinBelow (rq_join q) ≤ 0 ∨
  JoinBelow (rq_join q) < 2 ^ 31 ∧ ∀ s f, s ∈ ss → f ∈ concat fss → f_off f - BaseOffset s < 2 ^ 31.

Lemma written_drop n ss : written_in_order ss → written_in_order (drop n ss).
Proof.
  intros Hw i j s s' Hij Ei Ej. rewrite lookup_drop in Ei, Ej. eapply (Hw (n + i)%nat (n + j)%nat); [lia|done|done].
Qed.

Lemma steady_drop env c hw q n ss : (n < length ss)%nat → steady env c hw q ss → steady env c hw q (drop n ss).
Proof.
  intros Hn (H1 & H2 & H3 & H4 & H5 & H6 & H7). do 6 (split; [done|]). intros Hx.
  destruct (H7 Hx) as (F1 & F2 & F3 & F4 & F5). rewrite removelast_drop by done. split; [done|]. split; [|split; [done|split; [done|]]].
  - intros s Hs. apply F2. rewrite <- (take_drop n (removelast ss)). set_solver.
  - destruct F5; [by left|right]. by apply written_drop.
Qed.

Lemma no_joins ss spec : JoinBelow spec ≤ 0 → planJoins position ss spec = [].
Proof.
  intros Hj. unfold planJoins. destruct (_ <? _)%nat; [done|].
  assert (Hx : ∀ n l, plan_loop position spec n l None [] = []); [|apply Hx].
  intros n l. revert n. induction l as [|s l IH]; intros n; [done|]. cbn [plan_loop joinTier Retention.tier_of Retention.segment_retained].
  unfold joinCapFor. cbn [negb]. rewrite (proj2 (Z.leb_le _ _)) by done. cbn [orb flush_run]. apply IH.
Qed.

Lemma joins_span o q ss fss :
  chain_ok o ss fss → joins_fit q ss fss →
  JoinBelow (rq_join q) < 2 ^ 31 ∧ spans_fit ss fss (planJoins position ss (rq_join q)).
Proof.
  intros Hc [Hj|[Hj Hs]]; [split; [lia|]; rewrite no_joins by done; constructor|]. split; [done|].
  apply Forall_forall. intros r _ s f Es Hf. apply Hs; [by eapply list_elem_of_lookup_2|].
  rewrite elem_of_concat in Hf |- *. destruct Hf as (n & l & E & Hx). unfold inputs in E.
  apply lookup_take_Some in E as [E _]. rewrite lookup_drop in E. by eexists _, _.
Qed.

Lemma rewrite_stage_spec fuel o env c hw q ss fss ks i :
  cleanable fuel o ss fss ks → steady env c hw q ss → joins_fit q ss fss →
  ∃ r i' fss', rewrite_stage fuel env c hw q ss ks i = Some (r, i') ∧ cn_err r ≠ Panic ∧
    cleanable fuel o (cn_list r) fss' (cn_keys r) ∧ last (cn_list r) = last ss ∧ last fss' = last fss ∧
    parted (bases ss) (bases (cn_list r)) (cn_gone r) ∧ cleans c hw q (concat fss) (concat fss') ∧ joins_fit q (cn_list r) fss'.
Proof.
  intros Hc (_ & Hio & Hrg & _ & _ & _ & Hfa) Hj. unfold rewrite_stage, cleans.
  destruct (Compact c || strip_pass c q) eqn:Em.
  - destruct (Hfa eq_refl) as (F1 & F2 & F3 & F4 & F5).
    assert (Hnd : NoDup (BaseOffset <$> removelast ss)).
    { destruct Hc as (Hc & _). apply chain_bases in Hc. rewrite removelast_firstn_len, fmap_take.
      rewrite <- (take_drop (pred (length ss)) (BaseOffset <$> ss)) in Hc. by apply NoDup_app in Hc as (? & _). }
    destruct (compact_stage fuel (ce_pass env) o (CompactMinAge c) (rq_maxRewrites q) (rq_RewriteBudget q) (resolved c hw q) ss fss ks i)
      as (r & kept & fss' & -> & Er & Hp & Hcl & Hl & Hlf & Hb & Hpr); [by apply cleanable_ready|by split_and!|done|].
    eexists _, _, fss'. split; [reflexivity|]. rewrite Er. cbn [cn_err cn_list cn_keys cn_gone default].
    do 6 (split; [done|]). destruct Hj as [?|[? Hj]]; [by left|right]. split; [done|]. intros s f Hs Hf.
    destruct Hpr as (_ & Ho & _). destruct (Ho f Hf) as (f' & Hf' & Hsame). 
    assert (Hbs : BaseOffset s ∈ bases ss).
    { assert (Hin : BaseOffset s ∈ bases kept) by (apply elem_of_list_to_set, list_elem_of_fmap; by exists s).
      destruct Hb as [-> _]. by apply elem_of_union_l. }
    apply elem_of_list_to_set, list_elem_of_fmap in Hbs as (s' & -> & Hs'). specialize (Hj s' f' Hs' Hf').
    destruct Hsame as (E & _). lia.
  - pose proof Hc as (Hch & H2 & H3 & H4 & H5).
    destruct (consolidate_keeps o fuel (ce_pass env) (rq_maxRewrites q) (rq_RewriteBudget q) ss fss i Hch Hio H4)
      as (out & i' & r & -> & Hco & Hl & Hb & Ht & Hp & _).
    eexists _, _, fss. split; [reflexivity|]. cbn [cn_err cn_list cn_keys cn_gone]. split; [done|].
    split; [split_and!; try done; by apply Ht|]. do 2 (split; [done|]). split; [rewrite Hb; apply parted_refl|]. split; [done|].
    destruct Hj as [?|[? Hj]]; [by left|right]. split; [done|]. intros s f Hs Hf.
    assert (Hbs : BaseOffset s ∈ BaseOffset <$> ss) by (rewrite <- Hb; apply list_elem_of_fmap; by exists s).
    apply list_elem_of_fmap in Hbs as (s' & -> & Hs'). by apply Hj.
Qed.

Lemma clean_spec fuel o env c hw q ss fss ks :
  cleanable fuel o ss fss ks → ss ≠ [] → steady env c hw q ss → joins_fit q ss fss →
  ∃ r n fss', clean fuel env c hw q ss ks = Some r ∧ cn_err r ≠ Panic ∧ (n < length ss)%nat ∧
    cleanable fuel o (cn_list r) fss' (cn_keys r) ∧ last (cn_list r) = last ss ∧ last fss' = last fss ∧
    parted (bases ss) (bases (cn_list r)) (cn_gone r) ∧ (retained env c (rq_RetentionFloor q) ss).1 = drop n ss ∧
    (∀ x f, rq_RetentionFloor q = Some x → f ∈ concat (take n fss) → f_off f < x) ∧
    cleans c hw q (concat (drop n fss)) (concat fss').
Proof.
  intros Hc Hne Hst Hj. unfold clean. cbv zeta.
  destruct (delete_stage_calm fuel o env c (rq_RetentionFloor q) ss fss ks) as (n & ks' & -> & Hn & Hcn & Hrt & Hfl); [by destruct Hst|done|done|].
  cbn [cn_err cn_list cn_keys cn_gone].
  assert (Ldn : ∀ {A} (l : list A), (n < length l)%nat → last (drop n l) = last l).
  { intros A l Hl. rewrite <- (take_drop n l) at 2. rewrite last_app. destruct (last (drop n l)) eqn:E; [done|].
    apply last_None, (f_equal length) in E. rewrite length_drop in E. cbn in E. lia. }
  pose proof Hc as ((HF & _) & _). pose proof (Forall2_length _ _ _ HF) as Lf.
  assert (Hbn : parted (bases ss) (bases (drop n ss)) (bases (take n ss))).
  { pose proof Hc as (Hch & _). apply chain_bases in Hch. rewrite <- (take_drop n ss) in Hch at 1. rewrite fmap_app in Hch.
    apply NoDup_app in Hch as (_ & Hx & _). rewrite <- (take_drop n ss) at 1. rewrite fmap_app, list_to_set_app_L.
    clear -Hx. unfold parted. set_solver. }
  destruct (rewrite_stage_spec fuel o env c hw q (drop n ss) (drop n fss) ks' (ce_id env) Hcn) as (r & i & fss1 & -> & Hp & Hc1 & Hl1 & Hlf1 & Hb1 & Hcl1 & Hj1);
    [by apply steady_drop| |].
  { destruct Hj as [?|[? Hj]]; [by left|right]. split; [done|]. intros s f Hs Hf. apply Hj.
    - rewrite <- (take_drop n ss). set_solver.
    - rewrite <- (take_drop n fss), concat_app. set_solver. }
  cbn [mbind option_bind]. rewrite (Ldn _ ss Hn) in Hl1. rewrite Ldn in Hlf1 by lia. pose proof (parted_trans _ _ _ _ _ Hbn Hb1) as Hb.
  destruct (cn_err r) as [[]|e|] eqn:Ee; [|eexists _, n, fss1; split; [reflexivity|]|done].
  2: { cbn [cn_err cn_list cn_keys cn_gone]. by split_and!. }
  pose proof Hst as (_ & _ & _ & Hjo & Hjs & Hjr & _). pose proof Hc1 as (Hch1 & Hs1 & Hk1 & Hf1 & Ht1).
  destruct (joins_span o q _ _ Hch1 Hj1) as [Hjb Hsp].
  destruct (joinSegments_spec o fuel (ce_join env) (ce_after env) (newRewriteBudget (rq_maxRewrites q) (rq_RewriteBudget q))
    (rq_join q) (cn_list r) fss1 (cn_keys r) i Hch1) as (js & fl & -> & R1 & R2 & R3 & R4 & R5 & R6 & Hpj & _);
    [by apply Forall_concat|done|done|done|done|].
  cbn [mbind option_bind]. eexists _, n, fl. split; [reflexivity|].
  cbn [cn_err cn_list cn_keys cn_gone]. split; [done|]. split; [done|]. split.
  { split; [done|]. unfold short_keys in *. rewrite <- Forall_concat in Hs1, Hk1 |- *. rewrite <- Forall_concat, R2.
    split_and!; try done. by apply R5. }
  split; [congruence|]. split; [congruence|]. split; [by apply (parted_trans _ _ _ _ _ Hb), R6|]. do 2 (split; [done|]). by rewrite R2.
Qed.

(** ** What a pass installs *)

(** What appends made of the segment that was active and put behind it. *)
Lemma grown_rest l fss l1 fss1 :
  inv l fss → inv l1 fss1 → grown l fss l1 fss1 →
  ∃ d rest more, drop (length (older l)) (segments l1) = d :: rest ∧ BaseOffset d = BaseOffset (active l) ∧
    fss1 = removelast fss ++ more ∧ more ≠ [] ∧ chain_ok (opts l) (d :: rest) more ∧
    (∀ x, x ∈ d :: rest → BaseOffset d ≤ BaseOffset x) ∧
    bases (segments l1) = bases (older l) ∪ bases (d :: rest) ∧ bases (older l) ## bases (d :: rest).
Proof.
  intros Hi Hi1 (Eo & (more & Em & Hm) & [suf Hb] & _). pose proof Hi1 as (HF & Hl & _ & _ & _ & Hne).
  assert (Hlen : length (removelast fss) = length (older l)).
  { destruct (inv_active l fss Hi) as (gss & fs & -> & HF' & _). rewrite removelast_last. symmetry. by eapply Forall2_length. }
  assert (Hch : chain_ok (opts l1) (segments l1) fss1) by done. pose proof (chain_bases _ _ _ Hch) as Hnd.
  unfold segments in Hb at 2. rewrite fmap_app, <- app_assoc in Hb. pose proof (f_equal (drop (length (older l))) Hb) as Hd.
  rewrite <- fmap_drop in Hd. rewrite <- (length_fmap BaseOffset (older l)) in Hd at 2. rewrite drop_app_length in Hd.
  pose proof (f_equal (take (length (older l))) Hb) as Ht. rewrite <- fmap_take in Ht.
  rewrite <- (length_fmap BaseOffset (older l)) in Ht at 2. rewrite take_app_length in Ht.
  assert (Hc1 : chain_ok (opts l1) (drop (length (older l)) (segments l1)) (drop (length (older l)) fss1)).
  { apply chain_drop; [done|]. apply (f_equal length) in Hd. rewrite length_fmap, length_drop in Hd. cbn in Hd. lia. }
  rewrite <- (take_drop (length (older l)) (segments l1)), fmap_app, Ht in Hnd.
  pose proof (f_equal (λ k, bases k) (take_drop (length (older l)) (segments l1))) as Hall. cbn beta in Hall.
  rewrite fmap_app, list_to_set_app_L, Ht in Hall. rewrite Em, <- Hlen, drop_app_length, Hlen, Eo in Hc1.
  destruct (drop (length (older l)) (segments l1)) as [|d rest]; [done|]. cbn in Hd. injection Hd as Hd _.
  exists d, rest, more. split; [done|]. split; [done|]. split; [done|]. split; [done|]. split; [done|]. split.
  - intros x [->|Hx]%elem_of_cons; [done|]. destruct Hc1 as (HF1 & Hl1 & _). apply StronglySorted_cons in Hl1 as [Hx1 _].
    rewrite Forall_forall in Hx1. specialize (Hx1 x Hx). destruct more as [|fs more]; [done|]. apply Forall2_cons in HF1 as [Hs1 _].
    pose proof (seg_base_next _ _ _ Hs1). cbn in Hx1. lia.
  - split; [done|]. apply NoDup_app in Hnd as (_ & Hx & _). set_solver.
Qed.

Lemma swap_sets (O K D G : gset Z) a :
  O ∪ {[ a ]} = K ∪ {[ a ]} ∪ G → G ## K ∪ {[ a ]} → O ## D → a ∈ D → (O ∪ D) ∖ G = K ∪ D.
Proof.
  intros H1 H2 H3 Ha. apply set_eq. intros x.
  assert (Hx : x ∈ O ∪ {[ a ]} ↔ x ∈ K ∪ {[ a ]} ∪ G) by (by rewrite H1). specialize (H2 x). specialize (H3 x).
  rewrite elem_of_difference, !elem_of_union, elem_of_singleton in *.
  destruct (decide (x = a)) as [->|]; [|destruct (decide (x ∈ G))]; tauto.
Qed.

(** Installing a list over a log that has grown. *)
Lemma install_over env l fss l1 fss1 r kept fss' :
  inv l fss → inv l1 fss1 → grown l fss l1 fss1 → ce_epoch env = EpochCache.Written →
  cn_list r = kept ++ [active l] → chain_ok (opts l) (cn_list r) fss' →
  parted (bases (segments l)) (bases (cn_list r)) (cn_gone r) → cn_err r ≠ Panic →
  ∃ l' v, install env l1 (length (segments l)) r = (l', v, cn_err r) ∧
    inv l' (removelast fss' ++ drop (length (older l)) fss1) ∧
    segments l' = kept ++ drop (length (older l)) (segments l1) ∧ trim_fields l1 (first_base l') l'.
Proof.
  intros Hi Hi1 Hg Hw Er Hc Hp Hpan. pose proof Hg as (Eo & _).
  destruct (grown_rest l fss l1 fss1 Hi Hi1 Hg) as (d & rest & more & Ed & Hb & Em & Hm & Hcd & Hle & Hall & Hdis).
  pose proof Hi1 as (_ & _ & Hfi & Hop & Hsc & _). unfold install. rewrite Er, Hsc, removelast_last.
  rewrite LogRead.length_segments, Nat.sub_succ, Nat.sub_0_r, Ed. unfold rebaseSegments.
  assert (Hk : ∃ x b, kept ++ d :: rest = x :: b) by (destruct kept; by eexists _, _). destruct Hk as (x & b & Ek).
  rewrite Er in Hc, Hp. destruct (kept ++ [active l]) eqn:Ee; [by apply app_nil in Ee as [_ ?]|]. rewrite <- Ee in Hc, Hp. clear Ee.
  rewrite Ek, Hw. set (l2 := with_files l1 (files l1 ∖ cn_gone r) (nextId l1)).
  destruct (with_list_fields l2 b x) as (F1 & F2 & F3 & F4 & F5).
  pose proof (clear_earliest_written (epochs (with_list l2 (x :: b))) (BaseOffset x)) as Hok.
  destruct (EpochCache.ClearEarliest _ _ _) as [e ok] eqn:Ece. cbn in Hok. subst ok.
  set (l' := with_epochs (with_list l2 (x :: b)) e).
  assert (Hfld : segments l' = x :: b ∧ opts l' = opts l1 ∧ files l' = files l1 ∖ cn_gone r ∧ segmentsClosed l' = false ∧
    trim_fields l1 (BaseOffset x) l').
  { rewrite F3 in Ece. change (epochs l2) with (epochs l1) in Ece. unfold l'. destruct (exists_last (l := x :: b)) as (k & y & Exb); [done|]. rewrite Exb, with_list_snoc in *.
    split_and!; try done. unfold trim_fields. rewrite Ece. by split_and!. }
  destruct Hfld as (L1 & L2 & L3 & L4 & L5).
  assert (Hinv : inv l' (removelast fss' ++ more)).
  { destruct Hc as (HF & Hl & Hne). destruct Hcd as (HFd & Hld & Hned).
    apply Forall2_app_inv_l in HF as (fk & fa & HFk & Ha & ->). apply Forall2_cons_inv_l in Ha as (af & fn & Ha & Hn & ->).
    apply Forall2_nil_inv_l in Hn as ->. rewrite removelast_last in *. apply linked_app in Hl as (Hlk & _ & Hbet).
    unfold inv. rewrite L1, L2, L3, L4, <- Ek, Eo. split; [by apply Forall2_app|]. split.
    { apply linked_app. split; [done|]. split; [done|]. intros y y' Hs Hs'. specialize (Hle y' Hs').
      specialize (Hbet y (active l) Hs ltac:(by apply list_elem_of_singleton)). lia. }
    split; [|split; [by rewrite <- Eo|split; [done|]]].
    - rewrite Hfi, Hall. unfold parted, segments in Hp. rewrite !fmap_app, !list_to_set_app_L in *. cbn [fmap list_fmap list_to_set] in *.
      rewrite union_empty_r_L in Hp. destruct Hp as [Hp1 Hp2]. apply (swap_sets _ _ _ _ (BaseOffset (active l))); [done..|].
      rewrite Hb. apply elem_of_union_l, elem_of_singleton. done.
    - rewrite removelast_app by done. by apply Forall_app. }
  assert (Hmore : drop (length (older l)) fss1 = more).
  { rewrite Em. destruct (inv_active l fss Hi) as (gss & fs & -> & HF' & _). rewrite removelast_last, (Forall2_length _ _ _ HF').
    apply drop_app_length. }
  assert (Hfb : first_base l' = BaseOffset x) by (unfold first_base; by rewrite L1).
  rewrite Hmore. exists l', (match cn_err r with Ok _ => cn_verified r | _ => -1 end).
  split; [by destruct (cn_err r) as [[]| |]|]. split; [done|]. split; [by rewrite L1|]. by rewrite Hfb.
Qed.

(** The list of a pass ends in the active segment and what that held. *)
Lemma clean_installs fuel env c q l fss ks :
  inv l fss → cleanable fuel (opts l) (segments l) fss ks → steady env c (hw l) q (segments l) → joins_fit q (segments l) fss →
  ∃ r n kept sealed fs, clean fuel env c (hw l) q (segments l) ks = Some r ∧ cn_err r ≠ Panic ∧
    cn_list r = kept ++ [active l] ∧ cleanable fuel (opts l) (cn_list r) (sealed ++ [fs]) (cn_keys r) ∧
    parted (bases (segments l)) (bases (cn_list r)) (cn_gone r) ∧ (n < length fss)%nat ∧
    (retained env c (rq_RetentionFloor q) (segments l)).1 = drop n (segments l) ∧
    (∀ x f, rq_RetentionFloor q = Some x → f ∈ concat (take n fss) → f_off f < x) ∧
    last fss = Some fs ∧ cleans c (hw l) q (concat (drop n fss)) (concat sealed ++ fs).
Proof.
  intros Hi Hc Hst Hj. destruct (clean_spec fuel (opts l) env c (hw l) q (segments l) fss ks Hc) as
    (r & n & fss' & E & Hp & Hn & Hcl & Hl & Hlf & Hb & Hrt & Hfl & Hcs); [unfold segments; by destruct (older l)|done|done|].
  destruct Hi as (HF & _). rewrite (Forall2_length _ _ _ HF) in Hn. unfold segments in Hl at 1. rewrite last_snoc in Hl.
  apply last_Some in Hl as (kept & Er). destruct (last fss) as [fs|] eqn:El; [|apply last_None in El as ->; cbn in Hn; lia].
  apply last_Some in Hlf as (sealed & ->). rewrite concat_app in Hcs. cbn in Hcs. rewrite app_nil_r in Hcs.
  by exists r, n, kept, sealed, fs.
Qed.

(** C16: A cleaning pass beside appends.  The pass cleans a snapshot while
    appends extend and roll the active segment; installing what it made gives a
    well formed log again: the records that were sealed when it started, less
    the oldest segments retention took - none of them at or above the floor -
    and cleaned as the options and the spec ask, then everything that was active
    or came since, whole.  The log's files are those of its segments, the pass
    reports exactly the cleaner's error, and the epoch history starts at the
    first segment that is left.  Of the log: its records can be read and its
    digest files are true.  Of the pass ([steady], [joins_fit]): files are removed
    and renamed and the epoch history is written when it asks for it, a rewrite
    or a join fails, if it does, before it replaces anything, and digest files
    that are to be written are; where it rewrites, it strips nothing, or strips
    raw segments only and below the ceiling, and age protects segments, if it
    does, in the order of their newest writes; joins are off, or the log spans
    fewer than 2^31 offsets. *)
Theorem clean_concurrent fuel env c q l fss ks l1 fss1 :
  inv l fss → cleanable fuel (opts l) (segments l) fss ks → steady env c (hw l) q (segments l) →
  joins_fit q (segments l) fss → ce_epoch env = EpochCache.Written → inv l1 fss1 → grown l fss l1 fss1 →
  ∃ r n sealed, clean fuel env c (hw l) q (segments l) ks = Some r ∧ cn_err r ≠ Panic ∧
    (∃ l' v, install env l1 (length (segments l)) r = (l', v, cn_err r) ∧
       inv l' (sealed ++ drop (length (older l)) fss1) ∧ trim_fields l1 (first_base l') l') ∧
    (retained env c (rq_RetentionFloor q) (segments l)).1 = drop n (segments l) ∧ (n < length fss)%nat ∧
    (∀ x f, rq_RetentionFloor q = Some x → f ∈ concat (take n fss) → f_off f < x) ∧
    ∃ fs, last fss = Some fs ∧ cleans c (hw l) q (concat (drop n fss)) (concat sealed ++ fs).
Proof.
  intros Hi Hc Hst Hj Hw Hi1 Hg.
  destruct (clean_installs fuel env c q l fss ks Hi Hc Hst Hj) as (r & n & kept & sealed & fs & E & Hp & Er & Hcl & Hb & Hn & Hrt & Hfl & El & Hcs).
  exists r, n, sealed. split; [done|]. split; [done|]. split; [|do 3 (split; [done|]); by exists fs].
  pose proof Hcl as (Hch & _).
  destruct (install_over env l fss l1 fss1 r kept _ Hi Hi1 Hg Hw Er Hch Hb Hp) as (l' & v & Ein & Hin & _ & Hx).
  rewrite removelast_last in Hin. by exists l', v.
Qed.

(** C19: A cleaning pass on its own, over a log with records that can be read
    and digest files that are true, leaves a log that can be cleaned again: well
    formed, with its records cleaned as asked, records that can be read and
    digest files that are true.  [steady] and [joins_fit] leave out failures to
    remove, rename or write, stripping of block segments or above the ceiling, age
    protection out of the order of writes, and joins across 2^31 offsets. *)
Theorem clean_pass fuel env c q l fss ks :
  inv l fss → cleanable fuel (opts l) (segments l) fss ks → steady env c (hw l) q (segments l) →
  joins_fit q (segments l) fss → ce_epoch env = EpochCache.Written →
  ∃ l' ks' v err n fss', cleanPass fuel env c l ks q = Some (l', ks', v, err) ∧ err ≠ Panic ∧
    inv l' fss' ∧ cleanable fuel (opts l') (segments l') fss' ks' ∧ (n < length fss)%nat ∧
    (retained env c (rq_RetentionFloor q) (segments l)).1 = drop n (segments l) ∧
    cleans c (hw l) q (concat (drop n fss)) (concat fss') ∧ NewestOffset l' = NewestOffset l ∧ last fss' = last fss.
Proof.
  intros Hi Hc Hst Hj Hw.
  destruct (clean_installs fuel env c q l fss ks Hi Hc Hst Hj) as (r & n & kept & sealed & fs & E & Hp & Er & Hcl & Hb & Hn & Hrt & Hfl & El & Hcs).
  pose proof Hcl as (Hch & _). pose proof (grown_refl l fss Hi) as Hg.
  destruct (install_over env l fss l fss r kept _ Hi Hi Hg Hw Er Hch Hb Hp) as (l' & v & Ein & Hin & Hsg & Hx).
  destruct (inv_active l fss Hi) as (gss & fa & -> & HF & _). rewrite last_snoc in El. injection El as ->.
  rewrite removelast_last, (Forall2_length _ _ _ HF), drop_app_length in Hin.
  assert (Hsl : segments l' = kept ++ [active l]).
  { rewrite Hsg. unfold segments at 1. by rewrite drop_app_length. }
  unfold cleanPass. rewrite E. cbn [mbind option_bind]. rewrite Ein.
  exists l', (cn_keys r), v, (cn_err r), n, (sealed ++ [fs]). do 3 (split; [done|]). split.
  { rewrite Hsl, <- Er. destruct Hx as (_ & -> & _). done. }
  do 2 (split; [done|]). split; [by rewrite concat_app; cbn; rewrite app_nil_r|]. split; [|by rewrite !last_snoc].
  unfold NewestOffset. unfold segments in Hsl. by apply app_inj_tail in Hsl as [_ ->].
Qed.

End stages.

(** ** A log of two sealed segments *)

Definition keys_log (sealed : list segment) (act : segment) : commitLog :=
  {| readonly := false; hw := 3; older := sealed; active := act; epochs := epochs aged_log; segmentsClosed := false;
     deleted := false; shut := false; hwWaiters := ∅; released := ∅; files := list_to_set (BaseOffset <$> sealed ++ [act]);
     hwFile := None; nextId := 8; opts := small |}.

Definition env_calm : clean_env :=
  {| ce_now := 1000; ce_delete := λ _, delete_calm; ce_pass := pass_calm 1000 0; ce_join := join_calm;
     ce_after := λ _, false; ce_epoch := EpochCache.Written; ce_id := 8 |}.

Definition compacting : cleanOptions :=
  {| co_retention := {| Retention.Bytes := 0; Retention.Messages := 0; Retention.Age := 0 |}; Compact := true;
     CompactMinAge := 0; DisableAutoClean := false; CleanRewriteBudget := 0; CompactTombstoneRetention := 0 |}.

Lemma keys_log_ready :
  ∃ l, @inv half_lib l (sealed_keys ++ [active_keys]) ∧ hw l = 3 ∧
    @cleanable half_lib 9 (opts l) (segments l) (sealed_keys ++ [active_keys]) ∅ ∧
    steady env_calm compacting 3 (auto_spec compacting 3) (segments l) ∧
    Forall (λ s, 0 ≤ BaseOffset s) (segments l).
Proof.
  destruct two_keys_log as (sealed & act & Hr & Hl & _). exists (keys_log sealed act).
  destruct Hr as (Hc & Hs & Hk & Hf & Ht & _). pose proof Hc as (HF & Hln & Hne).
  split; [split_and!; try done; exact Hne|]. split; [done|]. split; [by split_and!|]. split.
  2: { apply Forall_forall. intros s [j Ej]%list_elem_of_lookup. destruct (Forall2_lookup_l _ _ _ _ _ HF Ej) as (fs & _ & (Hh & _)).
    apply holds_frames in Hh as ((? & _) & _). done. }
  split_and!; try done; try (intros; by split_and!). intros _. split; [done|]. split; [intros s _; by left|].
  split; [by vm_compute|]. split; [split; [cbn; lia|constructor]|]. left. cbn. lia.
Qed.

Lemma clean_concurrent_witness :
  ∃ l r l' v sealed, @clean half_lib 9 env_calm compacting 3 (auto_spec compacting 3) (segments l) ∅ = Some r ∧
    install env_calm l 3 r = (l', v, cn_err r) ∧ @inv half_lib l' (sealed ++ [active_keys]) ∧
    ∀ k v, value_at (resolved compacting 3 (auto_spec compacting 3)) 3 (concat sealed ++ active_keys) k v ↔
      value_at (resolved compacting 3 (auto_spec compacting 3)) 3 (concat (sealed_keys ++ [active_keys])) k v.
Proof.
  destruct keys_log_ready as (l & Hi & Eh & Hc & Hst & _). exists l.
  assert (Hn : length (segments l) = 3%nat) by (destruct Hi as (HF & _); by apply Forall2_length in HF).
  assert (Ho : length (older l) = 2%nat) by (rewrite LogRead.length_segments in Hn; lia).
  destruct (@clean_concurrent half_lib half_laws 9 env_calm compacting (auto_spec compacting 3) l (sealed_keys ++ [active_keys]) ∅
    l (sealed_keys ++ [active_keys])) as (r & n & sealed & E & _ & (l' & v & Ei & Hi' & _) & Hret & _ & _ & fs & Ef & Hcl).
  - exact Hi.
  - exact Hc.
  - rewrite Eh. exact Hst.
  - left. cbn. lia.
  - reflexivity.
  - exact Hi.
  - exact (@grown_refl half_lib _ _ Hi).
  - rewrite Eh in E, Hcl. rewrite Hn in Ei. rewrite Ho in Hi'. injection Ef as <-.
    exists r, l', v, sealed. split; [exact E|]. split; [exact Ei|]. split; [exact Hi'|].
    assert (n = 0)%nat as ->.
    { apply (f_equal length) in Hret. rewrite length_drop, Hn in Hret.
      assert (Er : (retained env_calm compacting None (segments l)).1 = segments l) by (by destruct (segments l)).
      cbn [rq_RetentionFloor auto_spec] in Hret. rewrite Er, Hn in Hret. lia. }
    destruct Hcl as (_ & _ & Hrd & _). intros k w. apply Hrd. by left.
Defined.

(** A log that is not compacted, joined into larger segments. *)
Definition plain_options : cleanOptions :=
  {| co_retention := co_retention compacting; Compact := false; CompactMinAge := 0; DisableAutoClean := false;
     CleanRewriteBudget := 0; CompactTombstoneRetention := 0 |}.

Definition join_request : cleanRequest :=
  {| rq_Ceiling := None; rq_StripBelow := 0; rq_StripHeaders := []; rq_StripUncompacted := false; rq_Aborted := None;
     rq_TombstoneGCBelow := 0; rq_TombstoneRetention := 0; rq_maxRewrites := 0; rq_RewriteBudget := 0; rq_TierBudgets := [];
     rq_join := under 1000; rq_RetentionFloor := None |}.

Lemma clean_pass_witness :
  ∃ l l' ks' v err fss', @cleanPass half_lib 9 env_calm plain_options l ∅ join_request = Some (l', ks', v, err) ∧
    @inv half_lib l' fss' ∧ concat fss' = concat (sealed_keys ++ [active_keys]).
Proof.
  destruct keys_log_ready as (l & Hi & Eh & Hc & Hst & Hb). exists l.
  destruct (@clean_pass half_lib half_laws 9 env_calm plain_options join_request l (sealed_keys ++ [active_keys]) ∅)
    as (l' & ks' & v & err & n & fss' & E & _ & Hi' & _ & Hn & Hret & Hcl & _).
  - exact Hi.
  - exact Hc.
  - destruct Hst as (H1 & H2 & H3 & H4 & H5 & H6 & _). do 6 (split; [assumption|]). discriminate.
  - right. split; [cbn; lia|]. intros s f Hs Hf. rewrite Forall_forall in Hb. specialize (Hb s Hs).
    assert (Hx : Forall (λ f, f_off f < 4) (concat (sealed_keys ++ [active_keys]))) by (by repeat constructor).
    rewrite Forall_forall in Hx. specialize (Hx f Hf). lia.
  - reflexivity.
  - exists l', ks', v, err, fss'. split; [exact E|]. split; [exact Hi'|].
    assert (n = 0)%nat as ->.
    { apply (f_equal length) in Hret. rewrite length_drop in Hret.
      assert (Er : (retained env_calm plain_options None (segments l)).1 = segments l) by (by destruct (segments l)).
      destruct Hi as (HF & _). rewrite <- (Forall2_length _ _ _ HF) in Hn.
      cbn [rq_RetentionFloor join_request] in Hret. rewrite Er in Hret. lia. }
    exact Hcl.
Defined.

End Cleaning.
