(* ===== verification/ReadSource.v ===== *)
(** * The sequential readers: buf_reader.go, reader.go

    A reader holds a pointer to a segment and a position in it, and goes on from
    segment to segment; the log is appended to, rolled and compacted meanwhile.
    Segments are objects named by [id]: the log's are those in its list, [w_left]
    holds those that left it and that a reader may still hold.  What everything
    else does to the log is an argument, [o_step]: it runs before each access of
    a reader to the log or to a segment.  A reader that waits is woken, told that
    the log was closed, or cancelled ([o_wake], which also knows whether what the
    reader waits for had happened already).

    [uncommittedReader] reads to the end of the log, [committedReader] to the
    high watermark.  [newSourceReader] positions one; [readMessage] and
    [readMessageMetadata] read a record through it.  Loops take fuel; [None] is a
    loop that has not come to an end.  Wrapping of errors is left out: callers
    test them with errors.Is. *)

From Stdlib Require Import ZArith Lia.
From stdpp Require Import base list numbers strings gmap sorting.
From coqutil Require Import Byte.
From S2P Require Import Prelude GoStd Wire Compress BlockV3 Block Framing EpochCache Index Segment.
From S2P Require Import SegmentIndex SegmentSearch SegmentReopen Log LogRead.

Open Scope Z_scope.

Module ReadSource.
Import Segment SegmentIndex SegmentSearch SegmentReopen Log LogRead.

(** ** The log a reader sees *)

Record world := { w_log : commitLog; w_left : gmap Z segment; w_clock : nat }.

Definition object (w : world) (p : Z) : option segment :=
  match list_find (λ s, id s = p) (segments (w_log w)) with
  | Some (_, s) => Some s
  | None => w_left w !! p
  end.

(** The object with the name of [s] is now [s]. *)
Definition put_object (w : world) (s : segment) : world :=
  match list_find (λ x, id x = id s) (segments (w_log w)) with
  | Some (i, _) => {| w_log := put_segment (w_log w) i s; w_left := w_left w; w_clock := w_clock w |}
  | None => {| w_log := w_log w; w_left := <[id s := s]> (w_left w); w_clock := w_clock w |}
  end.

Definition put_log (w : world) (l : commitLog) : world :=
  {| w_log := l; w_left := w_left w; w_clock := w_clock w |}.

Inductive wake := Woken | LogShut | Cancelled (e : error).

Record others := {
  o_step : nat → commitLog → gmap Z segment → commitLog * gmap Z segment;
  o_wake : nat → bool → wake;
}.

Definition turn (o : others) (w : world) : world :=
  let '(l, gone) := o_step o (w_clock w) (w_log w) (w_left w) in
  {| w_log := l; w_left := gone; w_clock := S (w_clock w) |}.

(** The pointers of [segmentsSnapshot], and the objects behind some. *)
Definition snapshot (w : world) : list Z := id <$> segments (w_log w).
Definition objects (w : world) (ps : list Z) : list segment := omap (object w) ps.

(** ** buf_reader.go *)

Definition bufReadSize : Z := 64 * 1024.

Record bufReader := { b_seg : option Z; b_data : bytes; b_pos : Z; b_bufStart : Z }.

Definition advanceTo (b : bufReader) (pos : Z) : bufReader :=
  {| b_seg := b_seg b; b_data := b_data b; b_pos := pos; b_bufStart := b_bufStart b |}.

(** [reset] on a segment that may be nil. *)
Definition buf_reset (p : option Z) (pos : Z) : bufReader :=
  {| b_seg := p; b_data := []; b_pos := pos; b_bufStart := pos |}.

Section codecs.
Context `{CodecLib}.

(** [seg.ReadAt] of [n] bytes. *)
Definition object_read (o : others) (w : world) (p n off : Z) : world * outcome (bytes * option error) :=
  let w := turn o w in
  match object w p with
  | None => (w, Panic)
  | Some s => let '(s, r) := ReadAt s n off in (put_object w s, r)
  end.

Definition fill (o : others) (w : world) (b : bufReader) (p : Z) : world * bufReader * outcome (option error) :=
  match object_read o w p bufReadSize (b_pos b) with
  | (w, Ok (data, err)) => (w, {| b_seg := b_seg b; b_data := data; b_pos := b_pos b; b_bufStart := b_pos b |}, Ok err)
  | (w, Fail e) => (w, b, Fail e)
  | (w, Panic) => (w, b, Panic)
  end.

(** [bufReader.Read] of [n] bytes. *)
Definition buf_read (o : others) (w : world) (b : bufReader) (n : Z)
    : world * bufReader * outcome (bytes * option error) :=
  match b_seg b with
  | None => (w, b, Ok ([], Some (ErrText "bufReader read before being positioned on a segment")))
  | Some p =>
      if (b_bufStart b <=? b_pos b) && (b_pos b + n <=? b_bufStart b + zlen (b_data b)) then
        let bs := take (Z.to_nat n) (drop (Z.to_nat (b_pos b - b_bufStart b)) (b_data b)) in
        (w, advanceTo b (b_pos b + zlen bs), Ok (bs, None))
      else
        match fill o w b p with
        | (w, b, Ok err) =>
            match b_data b, err with
            | [], Some e => (w, b, Ok ([], Some e))
            | [], None => (w, b, Ok ([], Some (ErrText "segment read returned no bytes and no error")))
            | data, _ =>
                let bs := take (Z.to_nat n) data in
                (w, advanceTo b (b_pos b + zlen bs), Ok (bs, if zlen bs <? n then err else None))
            end
        | (w, b, Fail e) => (w, b, Fail e)
        | (w, b, Panic) => (w, b, Panic)
        end
  end.

End codecs.

(** ** reader.go: cursors *)

Record segmentCursor := { c_seg : option Z; c_pos : Z; c_br : bufReader }.

Definition seekTo (p : option Z) (pos : Z) : segmentCursor :=
  {| c_seg := p; c_pos := pos; c_br := buf_reset p pos |}.

Definition refill (c : segmentCursor) : segmentCursor := seekTo (c_seg c) (c_pos c).

(** [nil] is no bounds at all. *)
Definition segmentBounds (w : world) (c : segmentCursor) : option (Z * Z) :=
  s ← c_seg c ≫= object w; Some (BaseOffset s, NextOffset s).

(** [u_self], [cr_self]: the reader as a waiter. *)
Record uncommittedReader := { u_self : Z; u_cur : segmentCursor; u_noWait : bool }.

Record committedReader := {
  cr_self : Z;
  cr_cur : segmentCursor;
  hwSeg : option Z;
  hwPos : Z;
  cr_hw : Z;
  rawHW : Z;
  cr_noWait : bool;
}.

Inductive contextReader := Uncommitted (r : uncommittedReader) | Committed (r : committedReader).

Definition u_at (r : uncommittedReader) (c : segmentCursor) : uncommittedReader :=
  {| u_self := u_self r; u_cur := c; u_noWait := u_noWait r |}.

Definition cr_at (r : committedReader) (c : segmentCursor) : committedReader :=
  {| cr_self := cr_self r; cr_cur := c; hwSeg := hwSeg r; hwPos := hwPos r; cr_hw := cr_hw r; rawHW := rawHW r;
     cr_noWait := cr_noWait r |}.

Definition source_cursor (r : contextReader) : segmentCursor :=
  match r with Uncommitted r => u_cur r | Committed r => cr_cur r end.

Section readers.
Context `{CodecLib}.

(** ** The uncommitted reader *)

Definition u_waitForData (o : others) (w : world) (r : uncommittedReader) (p : Z) : world * outcome () :=
  if u_noWait r then (w, Fail ErrEOF)
  else
    let w := turn o w in
    match object w p with
    | None => (w, Panic)
    | Some s =>
        let '(s, ready) := waitForData s (u_self r) (c_pos (u_cur r)) in
        let w := put_object w s in
        let k := w_clock w in
        let w := turn o w in
        let leave := match object w p with Some s => put_object w (removeWaiter s (u_self r)) | None => w end in
        match o_wake o k ready with
        | Woken => (w, Ok ())
        | LogShut => (leave, Fail ErrEOF)
        | Cancelled e => (leave, Fail e)
        end
    end.

(** [Read] of [n] more bytes, [acc] read so far. *)
Fixpoint u_loop (fuel : nat) (o : others) (w : world) (r : uncommittedReader) (n : Z) (acc : bytes)
    : option (world * uncommittedReader * outcome bytes) :=
  match fuel with
  | O => None
  | S fuel =>
      match buf_read o w (c_br (u_cur r)) n with
      | (w, b, Ok (bs, err)) =>
          let r := u_at r {| c_seg := c_seg (u_cur r); c_pos := b_pos b; c_br := b |} in
          let acc := acc ++ bs in
          let n := n - zlen bs in
          match err with
          | Some ErrEOF | None =>
              if n =? 0 then Some (w, r, match err with Some e => Fail e | None => Ok acc end)
              else if (0 <? zlen bs) && bool_decide (err = None) then u_loop fuel o w r n acc
              else
                let w := turn o w in
                match c_seg (u_cur r) ≫= λ p, (p,.) <$> object w p with
                | None => Some (w, r, Panic)
                | Some (p, s) =>
                    match findSegmentAfter (objects w (snapshot w)) s with
                    | Some next => u_loop fuel o w (u_at r (seekTo (Some (id next)) 0)) n acc
                    | None =>
                        match u_waitForData o w r p with
                        | (w, Ok _) => u_loop fuel o w (u_at r (refill (u_cur r))) n acc
                        | (w, Fail e) => Some (w, r, Fail e)
                        | (w, Panic) => Some (w, r, Panic)
                        end
                    end
                end
          | Some e => Some (w, r, Fail e)
          end
      | (w, b, Fail e) => Some (w, r, Fail e)
      | (w, b, Panic) => Some (w, r, Panic)
      end
  end.

Definition u_read (fuel : nat) (o : others) (w : world) (r : uncommittedReader) (n : Z)
    : option (world * uncommittedReader * outcome bytes) :=
  let r := match b_seg (c_br (u_cur r)) with None => u_at r (refill (u_cur r)) | Some _ => r end in
  u_loop fuel o w r n [].

(** The search of an entry in the segment at [p]. *)
Definition object_find (fuel : nat) (o : others) (w : world) (p offset : Z) : option (world * outcome entry) :=
  let w := turn o w in
  match object w p with
  | None => Some (w, Panic)
  | Some s => '(s, r) ← findEntry fuel s offset; Some (put_object w s, r)
  end.

Fixpoint newReaderUncommitted (fuel : nat) (o : others) (w : world) (self offset : Z) (noWait : bool)
    : option (world * outcome contextReader) :=
  let made w p pos :=
    Some (w, Ok (Uncommitted {| u_self := self; u_cur := seekTo (Some p) pos; u_noWait := noWait |})) in
  match fuel with
  | O => None
  | S fuel =>
      let w := turn o w in
      match findSegmentContains (segments (w_log w)) offset with
      | None =>
          if noWait then Some (w, Fail ErrSegmentNotFound)
          else
            let w := turn o w in
            let p := id (activeSegment (w_log w)) in
            let pos := position (activeSegment (w_log w)) in
            let w := turn o w in
            match object w p with
            | None => Some (w, Panic)
            | Some s =>
                if NextOffset s =? offset then made w p pos
                else if offset <? NextOffset s then newReaderUncommitted fuel o w self offset noWait
                else Some (w, Fail ErrSegmentNotFound)
            end
      | Some (seg, _, true) =>
          match object_find fuel o w (id seg) offset with
          | None => None
          | Some (w, Ok e) => made w (id seg) (e_Position e)
          | Some (w, Fail e) => Some (w, Fail e)
          | Some (w, Panic) => Some (w, Panic)
          end
      | Some (seg, _, false) => made w (id seg) 0
      end
  end.

(** ** The committed reader *)

Definition clampHW (segs : list segment) (h : Z) : Z :=
  match last segs with
  | Some s => let tail := sint 64 (NextOffset s - 1) in if tail <? h then tail else h
  | None => h
  end.

(** The pointer to the segment that holds the watermark, and the position past
    it. *)
Definition getHWPos (fuel : nat) (o : others) (w : world) (ps : list Z) (h : Z) : option (world * outcome (Z * Z)) :=
  match (findSegment (objects w ps) h).1 with
  | None => Some (w, Fail ErrSegmentNotFound)
  | Some s =>
      match object_find fuel o w (id s) h with
      | None => None
      | Some (w, Ok e) => Some (w, Ok (id s, e_Position e + e_Size e))
      | Some (w, Fail e) => Some (w, Fail e)
      | Some (w, Panic) => Some (w, Panic)
      end
  end.

Definition cr_waitForHW (o : others) (w : world) (r : committedReader) (h : Z) : world * outcome () :=
  let w := turn o w in
  let '(l, got) := waitForHW (w_log w) (cr_self r) h in
  let w := put_log w l in
  let k := w_clock w in
  let w := turn o w in
  let leave := put_log w (removeHWWaiter (w_log w) (cr_self r)) in
  match o_wake o k (bool_decide (got ≠ None)) with
  | Woken =>
      let ro := match got with Some ro => ro | None => default false (released (w_log w) !! cr_self r) end in
      (w, if ro : bool then Fail ErrCommitLogReadonly else Ok ())
  | LogShut => (leave, Fail ErrEOF)
  | Cancelled e => (leave, Fail e)
  end.

(** The loop of [syncHW]: the watermark and the snapshot it ends with. *)
Fixpoint sync_loop (fuel : nat) (o : others) (w : world) (r : committedReader) : option (world * outcome (Z * list Z)) :=
  match fuel with
  | O => None
  | S fuel =>
      let w := turn o w in
      let raw := HighWatermark (w_log w) in
      let w := turn o w in
      let ps := snapshot w in
      if negb (clampHW (objects w ps) raw =? cr_hw r) then Some (w, Ok (raw, ps))
      else if cr_noWait r then Some (w, Fail ErrEOF)
      else
        match cr_waitForHW o w r raw with
        | (w, Ok _) => sync_loop fuel o w r
        | (w, Fail e) => Some (w, Fail e)
        | (w, Panic) => Some (w, Panic)
        end
  end.

Definition syncHW (fuel : nat) (o : others) (w : world) (r : committedReader)
    : option (world * committedReader * outcome (list Z)) :=
  '(w, x) ← sync_loop fuel o w r;
  match x with
  | Ok (raw, ps) =>
      let h := clampHW (objects w ps) raw in
      let r := {| cr_self := cr_self r; cr_cur := cr_cur r; hwSeg := hwSeg r; hwPos := hwPos r; cr_hw := h; rawHW := raw;
                  cr_noWait := cr_noWait r |} in
      '(w, x) ← getHWPos fuel o w ps h;
      match x with
      | Ok (p, pos) =>
          Some (w, {| cr_self := cr_self r; cr_cur := cr_cur r; hwSeg := Some p; hwPos := pos; cr_hw := h; rawHW := raw;
                      cr_noWait := cr_noWait r |}, Ok ps)
      | Fail e => Some (w, r, Fail e)
      | Panic => Some (w, r, Panic)
      end
  | Fail e => Some (w, r, Fail e)
  | Panic => Some (w, r, Panic)
  end.

(** One read of [readLoop], of [lim] bytes. *)
Definition cr_take (o : others) (w : world) (c : segmentCursor) (lim : Z)
    : world * segmentCursor * outcome (bytes * option error) :=
  match b_seg (c_br c), c_seg c with
  | None, None => (w, c, Panic)
  | None, Some p =>
      let '(w, x) := object_read o w p lim (c_pos c) in
      let got := match x with Ok (bs, _) => zlen bs | _ => 0 end in
      (w, {| c_seg := c_seg c; c_pos := c_pos c + got; c_br := advanceTo (c_br c) (c_pos c + got) |}, x)
  | Some _, q =>
      if lim <=? bufReadSize then
        let '(w, b, x) := buf_read o w (c_br c) lim in
        (w, {| c_seg := q; c_pos := b_pos b; c_br := b |}, x)
      else
        match q with
        | None => (w, c, Panic)
        | Some p =>
            let '(w, x) := object_read o w p lim (c_pos c) in
            let got := match x with Ok (bs, _) => zlen bs | _ => 0 end in
            (w, {| c_seg := c_seg c; c_pos := c_pos c + got; c_br := advanceTo (c_br c) (c_pos c + got) |}, x)
        end
  end.

Definition cr_lim (r : committedReader) (n : Z) : Z :=
  match hwSeg r with
  | None => Z.min n (hwPos r - c_pos (cr_cur r))
  | Some _ => if bool_decide (c_seg (cr_cur r) = hwSeg r) then Z.min n (hwPos r - c_pos (cr_cur r)) else n
  end.

(** [readLoop]: [n] more bytes, [acc] read so far, over the snapshot [ps]. *)
Fixpoint readLoop (fuel : nat) (o : others) (w : world) (r : committedReader) (ps : list Z) (n : Z) (acc : bytes)
    : option (world * committedReader * outcome bytes) :=
  match fuel with
  | O => None
  | S fuel =>
      let sync w r :=
        '(w, r, x) ← syncHW fuel o w r;
        match x with
        | Ok ps => readLoop fuel o w r ps n acc
        | Fail e => Some (w, r, Fail e)
        | Panic => Some (w, r, Panic)
        end in
      if cr_lim r n <=? 0 then sync w r
      else
        match cr_take o w (cr_cur r) (cr_lim r n) with
        | (w, c, Ok (bs, err)) =>
            let r := cr_at r c in
            let acc' := acc ++ bs in
            let n' := n - zlen bs in
            match err with
            | Some ErrEOF | None =>
                if n' =? 0 then Some (w, r, match err with Some e => Fail e | None => Ok acc' end)
                else if (0 <? zlen bs) && bool_decide (err = None) then readLoop fuel o w r ps n' acc'
                else
                  match err with
                  | Some _ =>
                      let w := turn o w in
                      match c_seg c ≫= object w with
                      | None => Some (w, r, Panic)
                      | Some s =>
                          match findSegmentAfter (objects w ps) s with
                          | None => Some (w, r, Fail (ErrText "no segment to consume"))
                          | Some next => readLoop fuel o w (cr_at r (seekTo (Some (id next)) 0)) ps n' acc'
                          end
                      end
                  | None => sync w r
                  end
            | Some e => Some (w, r, Fail e)
            end
        | (w, c, Fail e) => Some (w, cr_at r c, Fail e)
        | (w, c, Panic) => Some (w, cr_at r c, Panic)
        end
  end.

Definition cr_read (fuel : nat) (o : others) (w : world) (r : committedReader) (n : Z)
    : option (world * committedReader * outcome bytes) :=
  let w := turn o w in
  let ps := snapshot w in
  match c_seg (cr_cur r) with
  | Some _ => readLoop fuel o w r ps n []
  | None =>
      let offset := sint 64 (cr_hw r + 1) in
      '(w, r, x) ← syncHW fuel o w r;
      match x with
      | Ok ps =>
          match (findSegment (objects w ps) offset).1 with
          | None => Some (w, r, Fail ErrSegmentNotFound)
          | Some s =>
              let r := cr_at r {| c_seg := Some (id s); c_pos := c_pos (cr_cur r); c_br := c_br (cr_cur r) |} in
              '(w, x) ← object_find fuel o w (id s) offset;
              match x with
              | Ok e => readLoop fuel o w (cr_at r (seekTo (Some (id s)) (e_Position e))) ps n []
              | Fail e => Some (w, r, Fail e)
              | Panic => Some (w, r, Panic)
              end
          end
      | Fail e => Some (w, r, Fail e)
      | Panic => Some (w, r, Panic)
      end
  end.

Definition newReaderCommitted (fuel : nat) (o : others) (w : world) (self offset : Z) (noWait : bool)
    : option (world * outcome contextReader) :=
  let w := turn o w in
  let raw := HighWatermark (w_log w) in
  let w := turn o w in
  let ps := snapshot w in
  let h := clampHW (objects w ps) raw in
  let w := turn o w in
  if (h =? -1) || (h <? offset) || (OldestOffset (w_log w) =? -1) then
    Some (w, Ok (Committed {| cr_self := self;
                              cr_cur := {| c_seg := None; c_pos := -1; c_br := buf_reset None 0 |};
                              hwSeg := None; hwPos := -1; cr_hw := h; rawHW := raw; cr_noWait := noWait |}))
  else
    '(w, x) ← getHWPos fuel o w ps h;
    match x with
    | Ok (hp, hpos) =>
        let made w p pos :=
          Some (w, Ok (Committed {| cr_self := self; cr_cur := seekTo p pos; hwSeg := Some hp; hwPos := hpos; cr_hw := h;
                                    rawHW := 0; cr_noWait := noWait |})) in
        match findSegmentContains (objects w ps) offset with
        | None => made w None 0
        | Some (s, _, false) => made w (Some (id s)) 0
        | Some (s, _, true) =>
            '(w, x) ← object_find fuel o w (id s) offset;
            match x with
            | Ok e => made w (Some (id s)) (e_Position e)
            | Fail e => Some (w, Fail e)
            | Panic => Some (w, Panic)
            end
        end
    | Fail e => Some (w, Fail e)
    | Panic => Some (w, Panic)
    end.

End readers.

(** ** read_options.go *)

Record readSpec := {
  rs_offset : Z;
  rs_until : option Z;
  rs_follow : bool;
  rs_uncommitted : bool;
  rs_prefix : option bytes;
  rs_skipSuperseded : bool;
  rs_includeControl : bool;
}.

(** The options of a caller; [From] that is not called is [None]. *)
Record readOptions := {
  ro_from : option Z;
  ro_until : option Z;
  ro_follow : bool;
  ro_uncommitted : bool;
  ro_prefix : option bytes;
  ro_skipSuperseded : bool;
  ro_includeControl : bool;
}.

Definition resolve (l : commitLog) (ro : readOptions) : outcome readSpec :=
  let offset := match ro_from ro with
                | Some x => x
                | None => if OldestOffset l <? 0 then 0 else OldestOffset l
                end in
  if match ro_until ro with Some u => u <? offset | None => false end
  then Fail (ErrText "the range is empty")
  else if bool_decide (is_Some (ro_prefix ro)) && ro_uncommitted ro && bool_decide (ro_until ro = None) &&
          negb (ro_includeControl ro)
  then Fail (ErrText "KeyPrefix with Uncommitted")
  else Ok {| rs_offset := offset; rs_until := ro_until ro; rs_follow := ro_follow ro; rs_uncommitted := ro_uncommitted ro;
             rs_prefix := ro_prefix ro; rs_skipSuperseded := ro_skipSuperseded ro;
             rs_includeControl := ro_includeControl ro |}.

Definition specAt (s : readSpec) (offset : Z) : readSpec :=
  {| rs_offset := offset; rs_until := rs_until s; rs_follow := rs_follow s; rs_uncommitted := rs_uncommitted s;
     rs_prefix := rs_prefix s; rs_skipSuperseded := rs_skipSuperseded s; rs_includeControl := rs_includeControl s |}.

(** [bytes.HasPrefix]. *)
Definition HasPrefix (s prefix : bytes) : bool := bool_decide (take (length prefix) s = prefix).

Definition matchesPrefix (s : readSpec) (msg : bytes) : outcome bool :=
  match rs_prefix s with
  | None => Ok true
  | Some prefix =>
      attrs ← SerializedMessage.Attributes msg;
      if negb (Z.land attrs AttrControl =? 0) then Ok (rs_includeControl s)
      else
        key ← SerializedMessage.Key msg;
        Ok (match key with None => false | Some key => HasPrefix key prefix end)
  end.

(** ** Positioning and reading *)

Section messages.
Context `{CodecLib}.

(** The attempts of [newSourceReader] left; [err] is the error of the one
    before. *)
Fixpoint source_attempts (attempts fuel : nat) (o : others) (w : world) (self : Z) (spec : readSpec) (err : error)
    : option (world * outcome contextReader) :=
  match attempts with
  | O => Some (w, Fail err)
  | S attempts =>
      '(w, x) ← (if rs_uncommitted spec then newReaderUncommitted fuel o w self (rs_offset spec) (negb (rs_follow spec))
                 else newReaderCommitted fuel o w self (rs_offset spec) (negb (rs_follow spec)));
      match x with
      | Fail e =>
          let w := turn o w in
          if IsDeleted (w_log w) then Some (w, Fail ErrCommitLogDeleted)
          else if IsClosed (w_log w) then Some (w, Fail ErrCommitLogClosed)
          else if negb (segmentSwapped e) then Some (w, Fail e)
          else source_attempts attempts fuel o w self spec e
      | x => Some (w, x)
      end
  end.

Definition newSourceReader (fuel : nat) (o : others) (w : world) (self : Z) (spec : readSpec)
    : option (world * outcome contextReader) :=
  source_attempts readerResolveAttempts fuel o w self spec (ErrText "no attempt").

(** [Read] of either reader. *)
Definition source_read (fuel : nat) (o : others) (w : world) (r : contextReader) (n : Z)
    : option (world * contextReader * outcome bytes) :=
  match r with
  | Uncommitted r => '(w, r, x) ← u_read fuel o w r n; Some (w, Uncommitted r, x)
  | Committed r => '(w, r, x) ← cr_read fuel o w r n; Some (w, Committed r, x)
  end.

Definition maxPayloadChunk : Z := Z.shiftl 1 20.

(** [readPayload] with [buf] read so far. *)
Fixpoint readPayload (fuel : nat) (o : others) (w : world) (r : contextReader) (size : Z) (buf : bytes)
    : option (world * contextReader * outcome bytes) :=
  match fuel with
  | O => None
  | S fuel =>
      if size <=? zlen buf then Some (w, r, Ok buf)
      else
        '(w, r, x) ← source_read fuel o w r (Z.min (size - zlen buf) maxPayloadChunk);
        match x with
        | Ok bs => readPayload fuel o w r size (buf ++ bs)
        | Fail e => Some (w, r, Fail e)
        | Panic => Some (w, r, Panic)
        end
  end.

Record frameHeader := { fh_offset : Z; fh_timestamp : Z; fh_leaderEpoch : Z; fh_size : Z }.

(** What [readFrameHeader] makes of the bytes of a header. *)
Definition parse_header (hdr : bytes) : outcome frameHeader :=
  want ← storedHeaderCrc hdr;
  got ← headerCrc hdr;
  if negb (want =? got) then Fail ErrCorruptFrameHeader
  else
    off ← messageSet.Offset hdr;
    ts ← messageSet.Timestamp hdr;
    ep ← messageSet.LeaderEpoch hdr;
    size ← messageSet.Size hdr;
    Ok {| fh_offset := off; fh_timestamp := ts; fh_leaderEpoch := ep; fh_size := uint 32 size |}.

(** [readFrameHeader] with a buffer of [buflen] bytes. *)
Definition readFrameHeader (fuel : nat) (o : others) (w : world) (r : contextReader) (buflen : Z)
    : option (world * contextReader * outcome frameHeader) :=
  if buflen <? msgSetHeaderLen then Some (w, r, Fail (ErrText "headersBuf is too small"))
  else
    '(w, r, x) ← source_read fuel o w r msgSetHeaderLen;
    Some (w, r, x ≫= parse_header).

(** A record with its frame. *)
Record readRecord := { rr_msg : bytes; rr_offset : Z; rr_ts : Z; rr_epoch : Z }.

Definition readMessage (fuel : nat) (o : others) (w : world) (r : contextReader) (buflen : Z)
    : option (world * contextReader * outcome readRecord) :=
  '(w, r, x) ← readFrameHeader fuel o w r buflen;
  match x with
  | Ok fh =>
      '(w, r, x) ← readPayload fuel o w r (fh_size fh) [];
      Some (w, r,
        m ← x;
        if zlen m <? 4 then Fail ErrCorruptRecord
        else
          ok ← SerializedMessage.crcMatches m;
          if negb ok then Fail ErrCorruptRecord
          else Ok {| rr_msg := m; rr_offset := fh_offset fh; rr_ts := fh_timestamp fh; rr_epoch := fh_leaderEpoch fh |})
  | Fail e => Some (w, r, Fail e)
  | Panic => Some (w, r, Panic)
  end.

Record MessageMetadata := {
  mm_offset : Z;
  mm_ts : Z;
  mm_epoch : Z;
  mm_attributes : Z;
  mm_identity : option (Z * Z * Z * Z);
  mm_headers : gmap bytes bytes;
  mm_raw : bytes;
}.

(** [readMessageMetadata]; the buffer a caller passes is reused and has no
    effect on what is returned. *)
Definition readMessageMetadata (fuel : nat) (o : others) (w : world) (r : contextReader) (buflen : Z)
    : option (world * contextReader * outcome MessageMetadata) :=
  '(w, r, x) ← readFrameHeader fuel o w r buflen;
  match x with
  | Ok fh =>
      '(w, r, x) ← readPayload fuel o w r (fh_size fh) [];
      Some (w, r,
        m ← x;
        if zlen m <? 6 then Fail ErrCorruptRecord
        else
          match parseHeadersAfterValue m with
          | Ok headers =>
              attrs ← index m 5;
              Ok {| mm_offset := fh_offset fh; mm_ts := fh_timestamp fh; mm_epoch := fh_leaderEpoch fh;
                    mm_attributes := sint 8 (byte.unsigned attrs); mm_identity := Framing.identityFromHeaders (Some <$> headers);
                    mm_headers := headers; mm_raw := m |}
          | Fail _ => Fail ErrCorruptRecord
          | Panic => Panic
          end)
  | Fail e => Some (w, r, Fail e)
  | Panic => Some (w, r, Panic)
  end.

(** What a failed read means to a [Reader]. *)
Inductive readerErrorAction := readerFail | readerReresolve | readerLogDeleted | readerLogClosed | readerLogReadonly.

Definition classifyReadError (l : commitLog) (err : error) : readerErrorAction :=
  if IsDeleted l then readerLogDeleted
  else if IsClosed l then readerLogClosed
  else match err with
       | ErrCommitLogReadonly => if IsReadonly l then readerLogReadonly else readerFail
       | ErrSegmentReplaced => readerReresolve
       | _ => readerFail
       end.

End messages.
End ReadSource.
