(* ===== verification/ReadTail.v ===== *)
(** * A reader of the tail: the uncommitted reader beside appends

    What a sequential reader is told while the log grows under it.  [w_ok] is a
    well-formed log whose segments are distinct objects, [later] what appends and
    rolls do to one.  A cursor stands after some records of the log ([at_seen]);
    the theorems say that a record read is the one that follows. *)

From Stdlib Require Import ZArith Lia.
From stdpp Require Import base list numbers strings gmap sorting.
From coqutil Require Import Byte.
From S2P Require Import Prelude GoStd Wire Compress BlockV3 Block Framing EpochCache Index Segment.
From S2P Require Import SegmentIndex SegmentSearch SegmentReopen Log LogAppend LogRead KeyDigest ReadSource.

Open Scope Z_scope.

Module ReadTail.
Import Segment SegmentIndex SegmentSearch SegmentReopen Log LogAppend LogRead ReadSource.

(** ** Objects *)

Lemma list_find_named ss i s :
  NoDup (id <$> ss) → ss !! i = Some s → list_find (λ x, id x = id s) ss = Some (i, s).
Proof.
  intros Hnd Ei. apply list_find_Some. split; [done|]. split; [done|]. intros j x Ej Hj Ex.
  assert (j = i); [|lia]. eapply (NoDup_lookup (id <$> ss) j i (id s)); [done|..]; rewrite list_lookup_fmap.
  - by rewrite Ej, <- Ex.
  - by rewrite Ei.
Qed.

Section worlds.
Context `{CodecLib}.

(** A well-formed log of distinct segment objects. *)
Definition w_ok (w : world) (fss : list (list frm)) : Prop :=
  inv (w_log w) fss ∧ numbered (w_log w).

Lemma object_in w fss i s : w_ok w fss → segments (w_log w) !! i = Some s → object w (id s) = Some s.
Proof. intros [_ [Hnd _]] Ei. unfold object. by rewrite (list_find_named _ _ _ Hnd Ei). Qed.

(** The objects behind the pointers of the first segments. *)
Lemma objects_prefix w fss ps :
  w_ok w fss → ps `prefix_of` snapshot w → objects w ps = take (length ps) (segments (w_log w)).
Proof.
  intros Hw [k Ek]. assert (Eps : ps = id <$> take (length ps) (segments (w_log w))).
  { rewrite fmap_take. fold (snapshot w). by rewrite Ek, take_app_length. }
  unfold objects. rewrite Eps at 1.
  assert (Hx : ∀ ss : list segment, (∀ s, s ∈ ss → object w (id s) = Some s) → omap (object w) (id <$> ss) = ss).
  { induction ss as [|s ss IH]; intros Hs; [done|]. cbn. rewrite (Hs s) by left. f_equal. apply IH. intros x Hx. apply Hs. by right. }
  apply Hx. intros s [i Ei]%list_elem_of_lookup. apply lookup_take_Some in Ei as [Ei _]. by eapply object_in.
Qed.

Lemma objects_all w fss : w_ok w fss → objects w (snapshot w) = segments (w_log w).
Proof. intros Hw. rewrite (objects_prefix _ _ _ Hw) by done. apply take_ge. unfold snapshot. by rewrite length_fmap. Qed.

(** Every offset from [d] to the end of the log has its record, and the
    watermark is at or above [d]. *)
Definition solid (d : Z) (w : world) (fss : list (list frm)) : Prop :=
  0 ≤ d ≤ hw (w_log w) ∧ d < NextOffset (active (w_log w)) ∧
  ∀ h, d ≤ h < NextOffset (active (w_log w)) → ∃ f, f ∈ concat fss ∧ f_off f = h.

(** What happens to the log beside a reader.  A reader may need more than that
    it grows: that it is [solid] from an offset on, or that it stays as it is. *)
Inductive promise := Growing | Solid (d : Z) | Still (all : list frm) (h next : Z).

Definition promised (D : promise) (w : world) (fss : list (list frm)) : Prop :=
  match D with Growing => True | Solid d => solid d w fss | Still all h next => concat fss = all ∧ hw (w_log w) = h ∧ NextOffset (active (w_log w)) = next end.

Context {D : promise}.

Record later (w : world) (fss : list (list frm)) (w' : world) (fss' : list (list frm)) : Prop := {
  lt_ok : w_ok w' fss';
  lt_ids : (id <$> segments (w_log w)) `prefix_of` (id <$> segments (w_log w'));
  lt_bases : (BaseOffset <$> segments (w_log w)) `prefix_of` (BaseOffset <$> segments (w_log w'));
  lt_frames : stretches fss fss';
  lt_hw : hw (w_log w) ≤ hw (w_log w');
  lt_promise : promised D w fss → promised D w' fss';
}.

Lemma later_refl w fss : w_ok w fss → later w fss w fss.
Proof. intros Hw. split; [done|done|done|apply stretches_refl|lia|done]. Qed.

Lemma later_trans w0 f0 w1 f1 w2 f2 : later w0 f0 w1 f1 → later w1 f1 w2 f2 → later w0 f0 w2 f2.
Proof.
  intros [_ I1 B1 F1 H1 S1] [O2 I2 B2 F2 H2 S2].
  split; [done|by transitivity (id <$> segments (w_log w1))|by transitivity (BaseOffset <$> segments (w_log w1))|by eapply stretches_trans|lia|].
  intros Hd. by apply S2, S1.
Qed.

(** At most one append: a segment that was extended is still the last. *)
Definition one_append (fss fss' : list (list frm)) : Prop :=
  ∀ i fs new, fss !! i = Some fs → fss' !! i = Some (fs ++ new) → new ≠ [] → length fss' = S i.

(** Others append, at most once between two accesses of the reader. *)
Definition appending (o : others) : Prop :=
  ∀ w fss, w_ok w fss → ∃ fss', later w fss (turn o w) fss' ∧ one_append fss fss'.

(** Others append as much as they like. *)
Definition growing (o : others) : Prop := ∀ w fss, w_ok w fss → ∃ fss', later w fss (turn o w) fss'.

Lemma appending_growing o : appending o → growing o.
Proof. intros Ho w fss Hw. destruct (Ho w fss Hw) as (fss' & ? & _). by exists fss'. Qed.

(** Nobody else is there. *)
Definition alone : others := {| o_step := λ _ l gone, (l, gone); o_wake := λ _ _, LogShut |}.

Lemma alone_later w fss : w_ok w fss → later w fss (turn alone w) fss.
Proof. intros Hw. destruct D; (split; cbn; [done|done|done|apply stretches_refl|lia|done]). Qed.

Lemma alone_appending : appending alone.
Proof.
  intros w fss Hw. exists fss. split; [by apply alone_later|]. intros i fs new Ei Ei' Hx. rewrite Ei in Ei'.
  injection Ei' as E%(f_equal length). rewrite length_app in E. destruct new; [done|cbn in E; lia].
Qed.

Lemma later_object w fss w' fss' i s :
  w_ok w fss → later w fss w' fss' → segments (w_log w) !! i = Some s →
  ∃ s', segments (w_log w') !! i = Some s' ∧ id s' = id s.
Proof.
  intros Hw [_ Hids _ _ _ _] Ei. apply (prefix_lookup_Some _ _ i (id s)) in Hids.
  - rewrite list_lookup_fmap in Hids. destruct (segments (w_log w') !! i) as [s'|]; [|done]. injection Hids as ?. by exists s'.
  - by rewrite list_lookup_fmap, Ei.
Qed.

(** Putting back a segment that stores the same. *)
Lemma put_later w fss i s s' fs :
  w_ok w fss → segments (w_log w) !! i = Some s → fss !! i = Some fs → id s' = id s → BaseOffset s' = BaseOffset s →
  seg_ok (opts (w_log w)) s' fs → later w fss (put_object w s') fss.
Proof.
  intros Hw Ei Ef Hid Hb Hs. pose proof Hw as [Hi [Hnd Hnew]]. unfold put_object. rewrite Hid, (list_find_named _ _ _ Hnd Ei).
  assert (Hsg : id <$> segments (put_segment (w_log w) i s') = id <$> segments (w_log w)).
  { rewrite segments_put by (by apply lookup_lt_Some in Ei). rewrite list_fmap_insert, list_insert_id; [done|].
    by rewrite list_lookup_fmap, Ei, Hid. }
  assert (Hsb : BaseOffset <$> segments (put_segment (w_log w) i s') = BaseOffset <$> segments (w_log w)).
  { rewrite segments_put by (by apply lookup_lt_Some in Ei). rewrite list_fmap_insert, list_insert_id; [done|].
    by rewrite list_lookup_fmap, Ei, Hb. }
  assert (Hhw : hw (put_segment (w_log w) i s') = hw (w_log w)) by (unfold put_segment; by destruct (_ <? _)%nat).
  assert (Hnx : NextOffset (active (put_segment (w_log w) i s')) = NextOffset (active (w_log w))).
  { unfold put_segment. destruct (Nat.ltb_spec i (length (older (w_log w)))) as [|Hge]; [done|]. cbn [active].
    destruct Hi as (HF & _). destruct (Forall2_lookup_l _ _ _ _ _ HF Ei) as (fs' & Ef' & Hs'). rewrite Ef in Ef'. injection Ef' as <-.
    assert (E : i = length (older (w_log w))) by (apply lookup_lt_Some in Ei; unfold segments in Ei; rewrite length_app in Ei; cbn in Ei; lia).
    unfold segments in Ei. rewrite E, list_lookup_middle in Ei by done. injection Ei as ->.
    rewrite (seg_next _ _ _ Hs'). etransitivity; [apply (seg_next _ _ _ Hs)|]. by rewrite Hb. }
  split; cbn [w_log]; [split; cbn [w_log]|by rewrite Hsg|by rewrite Hsb|apply stretches_refl|lia|].
  - by eapply inv_put.
  - apply (renumbers_same (w_log w)); [done|unfold put_segment; by destruct (_ <? _)%nat|by split].
  - destruct D; cbn [promised]; try done; unfold solid; cbn [w_log]; by rewrite Hhw, Hnx.
Qed.

Lemma seg_waiters op s ws fs : seg_ok op s fs → seg_ok op (with_waiters s ws) fs.
Proof. intros (Hh & Hc & Hm & Hn). split; [exact Hh|]. by split_and!. Qed.

(** ** Reading bytes *)

Lemma object_read_spec o w fss i s n off :
  growing o → w_ok w fss → segments (w_log w) !! i = Some s → 0 < n → 0 ≤ off →
  ∃ w' fss' fs, object_read o w (id s) n off = (w', Ok (read_spec (fs_bytes fs) n off)) ∧ later w fss w' fss' ∧
    fss' !! i = Some fs.
Proof.
  intros Hg Hw Ei Hn Hoff. unfold object_read. destruct (Hg w fss Hw) as (f1 & L1). set (w1 := turn o w) in *.
  destruct (later_object _ _ _ _ _ _ Hw L1 Ei) as (s1 & E1 & Hid). pose proof (lt_ok _ _ _ _ L1) as Hw1.
  rewrite <- Hid, (object_in w1 f1 i s1 Hw1 E1). pose proof Hw1 as [(HF & _) _].
  destruct (Forall2_lookup_l _ _ _ _ _ HF E1) as (fs & Ef & Hs). pose proof Hs as ((Hlo & Hcl & _) & _).
  destruct (ReadAt_spec s1 (fs_bytes fs) n off Hlo Hcl Hn Hoff) as (c & -> & Hlo').
  exists (put_object w1 (with_cache s1 c)), f1, fs. split; [done|]. split; [|done].
  apply (later_trans _ _ _ _ _ _ L1). apply (put_later w1 f1 i s1 _ fs); try done.
  apply seg_cache; [done|]. apply holds_cache; [apply Hs|done].
Qed.

(** The buffer of a reader at [pos] of a segment with the content [d]. *)
Definition buffers (d : bytes) (b : bufReader) (p pos : Z) : Prop :=
  b_seg b = Some p ∧ b_pos b = pos ∧ 0 ≤ b_bufStart b ≤ zlen d ∧
  ∃ post, drop (Z.to_nat (b_bufStart b)) d = b_data b ++ post.

Lemma buffers_grow d e b p pos : buffers d b p pos → buffers (d ++ e) b p pos.
Proof.
  intros (E1 & E2 & Hs & post & Ed). split; [done|]. split; [done|]. pose proof (zlen_nonneg e). rewrite zlen_app. split; [lia|].
  exists (post ++ e). rewrite drop_app_le by (unfold zlen in Hs; lia). by rewrite Ed, app_assoc.
Qed.

Lemma buffers_reset d p pos : 0 ≤ pos ≤ zlen d → buffers d (buf_reset (Some p) pos) p pos.
Proof. intros Hp. do 2 (split; [done|]). split; [cbn; lia|]. by eexists. Qed.

(** Where a cursor is: in the [i]th segment, at [pos]. *)
Definition cursor_at (w : world) (fss : list (list frm)) (c : segmentCursor) (i : nat) (pos : Z) : Prop :=
  ∃ s fs, segments (w_log w) !! i = Some s ∧ fss !! i = Some fs ∧ c_seg c = Some (id s) ∧ c_pos c = pos ∧
    0 ≤ pos ≤ zlen (fs_bytes fs) ∧ buffers (fs_bytes fs) (c_br c) (id s) pos.

Lemma cursor_later w fss w' fss' c i pos :
  w_ok w fss → later w fss w' fss' → cursor_at w fss c i pos → cursor_at w' fss' c i pos.
Proof.
  intros Hw L (s & fs & Es & Ef & Ec & Ep & Hp & Hb). destruct (later_object _ _ _ _ _ _ Hw L Es) as (s' & Es' & Hid).
  destruct (lt_frames _ _ _ _ L i fs Ef) as (new & Ef' & _). exists s', (fs ++ new). rewrite Hid, fs_bytes_app, zlen_app.
  pose proof (zlen_nonneg (fs_bytes new)). do 4 (split; [done|]). split; [lia|]. by apply buffers_grow.
Qed.

Lemma cursor_pos w fss c i pos fs : cursor_at w fss c i pos → fss !! i = Some fs → 0 ≤ pos ≤ zlen (fs_bytes fs).
Proof. intros (s & fs' & _ & Ef & _ & _ & Hp & _) E. rewrite Ef in E. by injection E as <-. Qed.

Lemma cursor_seek w fss i s fs pos :
  segments (w_log w) !! i = Some s → fss !! i = Some fs → 0 ≤ pos ≤ zlen (fs_bytes fs) →
  cursor_at w fss (seekTo (Some (id s)) pos) i pos.
Proof. intros Es Ef Hp. exists s, fs. do 5 (split; [done|]). by apply buffers_reset. Qed.

Lemma cursor_refill w fss c i pos : cursor_at w fss c i pos → cursor_at w fss (refill c) i pos.
Proof.
  intros (s & fs & Es & Ef & Ec & Ep & Hp & _). unfold refill. rewrite Ec, Ep. by apply (cursor_seek _ _ _ _ fs).
Qed.

(** What a buffered read of [n] bytes gives: they, or some of them, or those
    there are and the end of the segment. *)
Definition got (d : bytes) (pos n : Z) (bs : bytes) (err : option error) : Prop :=
  bs = take (Z.to_nat (zlen bs)) (drop (Z.to_nat pos) d) ∧ zlen bs ≤ n ∧ pos + zlen bs ≤ zlen d ∧
  match err with
  | None => zlen bs = n ∨ bufReadSize ≤ zlen bs
  | Some e => e = ErrEOF ∧ zlen bs < n ∧ pos + zlen bs = zlen d
  end.

Lemma buf_read_spec o w fss c i pos n :
  growing o → w_ok w fss → cursor_at w fss c i pos → 0 < n →
  ∃ w' fss' fs b bs err, buf_read o w (c_br c) n = (w', b, Ok (bs, err)) ∧ later w fss w' fss' ∧ fss' !! i = Some fs ∧
    got (fs_bytes fs) pos n bs err ∧
    cursor_at w' fss' {| c_seg := c_seg c; c_pos := b_pos b; c_br := b |} i (pos + zlen bs).
Proof.
  intros Hg Hw Hc Hn. pose proof Hc as (s & fs & Es & Ef & Ec & Ep & Hp & E1 & E2 & Hs & post & Ed).
  unfold buf_read. rewrite E1. destruct (_ && _) eqn:Ein.
  - apply andb_true_iff in Ein as [H1%Z.leb_le H2%Z.leb_le]. rewrite E2 in *.
    set (bs := take _ _). assert (Hz : zlen bs = n).
    { unfold bs, zlen in *. rewrite length_take, length_drop. lia. }
    assert (Hbs : bs = take (Z.to_nat n) (drop (Z.to_nat pos) (fs_bytes fs))).
    { replace (Z.to_nat pos) with (Z.to_nat (b_bufStart (c_br c)) + Z.to_nat (pos - b_bufStart (c_br c)))%nat by lia.
      rewrite <- drop_drop, Ed, drop_app_le by (unfold zlen in *; lia). unfold bs. rewrite take_app_le; [done|].
      rewrite length_drop. unfold zlen in *. lia. }
    assert (Hle : pos + n ≤ zlen (fs_bytes fs)).
    { apply (f_equal zlen) in Hbs. rewrite Hz in Hbs. unfold zlen in *. rewrite length_take, length_drop in Hbs. lia. }
    exists w, fss, fs, (advanceTo (c_br c) (pos + zlen bs)), bs, None. split; [done|]. split; [by apply later_refl|].
    split; [done|]. split; [split_and!; rewrite ?Hz; [done|lia|lia|by left]|]. exists s, fs. cbn [advanceTo c_seg c_pos b_pos c_br].
    rewrite Hz. do 4 (split; [done|]). split; [lia|]. do 2 (split; [done|]). split; [done|]. by exists post.
  - unfold fill. rewrite E1, E2.
    destruct (object_read_spec o w fss i s bufReadSize pos Hg Hw Es) as (w' & fss' & fs' & -> & L & Ef'); [done|lia|].
    destruct (later_object _ _ _ _ _ _ Hw L Es) as (s' & Es' & Hid).
    assert (Hfs : pos ≤ zlen (fs_bytes fs')).
    { destruct (lt_frames _ _ _ _ L i fs Ef) as (new & E & _). rewrite E in Ef'. injection Ef' as <-. rewrite fs_bytes_app, zlen_app.
      pose proof (zlen_nonneg (fs_bytes new)). lia. }
    unfold read_spec. cbn [b_data b_pos]. set (data := take (Z.to_nat bufReadSize) _).
    assert (Hzd : zlen data = Z.min bufReadSize (zlen (fs_bytes fs') - pos)).
    { unfold data, zlen in *. rewrite length_take, length_drop. unfold bufReadSize. lia. }
    assert (Hcur : ∀ k, 0 ≤ k ≤ zlen data → cursor_at w' fss' {| c_seg := c_seg c; c_pos := pos + k;
      c_br := advanceTo {| b_seg := Some (id s); b_data := data; b_pos := pos; b_bufStart := pos |} (pos + k) |} i (pos + k)).
    { intros k Hk. exists s', fs'. cbn [advanceTo c_seg c_pos c_br]. rewrite Hid. do 4 (split; [done|]). split; [lia|]. do 2 (split; [done|]). split; [cbn; lia|].
      exists (drop (Z.to_nat bufReadSize) (drop (Z.to_nat pos) (fs_bytes fs'))). cbn [advanceTo b_bufStart b_data]. unfold data. by rewrite take_drop. }
    destruct (decide (data = [])) as [Hemp|Hne].
    + assert (Heof : zlen (fs_bytes fs') = pos) by (rewrite Hemp in Hzd; change (zlen []) with 0 in Hzd; unfold bufReadSize in Hzd; lia).
      rewrite (proj2 (Z.ltb_lt _ _)) by (unfold bufReadSize; lia). rewrite Hemp.
      exists w', fss', fs'. eexists _, [], (Some ErrEOF). split; [done|]. split; [done|]. split; [done|].
      split; [unfold got; change (zlen []) with 0; split_and!; try done; lia|]. specialize (Hcur 0 ltac:(pose proof (zlen_nonneg data); lia)).
      cbn [b_pos]. change (zlen []) with 0. rewrite Z.add_0_r in *. rewrite Hemp in Hcur. exact Hcur.
    + assert (Hpos : 0 < zlen data) by (destruct data; [done|unfold zlen; cbn; lia]).
      set (err := if zlen (fs_bytes fs') <? pos + bufReadSize then Some ErrEOF else None).
      set (bs := take (Z.to_nat n) data). assert (Hzb : zlen bs = Z.min n (zlen data)).
      { unfold bs, zlen. rewrite length_take. unfold zlen in Hpos. lia. }
      exists w', fss', fs', (advanceTo {| b_seg := Some (id s); b_data := data; b_pos := pos; b_bufStart := pos |} (pos + zlen bs)), bs,
        (if zlen bs <? n then err else None).
      split; [destruct data; [done|reflexivity]|]. split; [done|]. split; [done|]. split.
      * split; [|split; [lia|split; [lia|]]].
        -- unfold bs, data. rewrite take_take. symmetry. apply take_zlen.
        -- destruct (Z.ltb_spec (zlen bs) n); [|left; lia]. unfold err.
           destruct (Z.ltb_spec (zlen (fs_bytes fs')) (pos + bufReadSize)); [|right; lia].
           split; [done|]. split; [done|]. lia.
      * cbn [advanceTo b_pos]. apply Hcur. lia.
Qed.

(** The [n] bytes at [pos]. *)
Definition part (d : bytes) (pos n : Z) : bytes := take (Z.to_nat n) (drop (Z.to_nat pos) d).

Lemma part_grow d e pos n : 0 ≤ pos → 0 ≤ n → pos + n ≤ zlen d → part (d ++ e) pos n = part d pos n.
Proof.
  intros Hp Hn Hd. unfold part, zlen in *. rewrite drop_app_le by lia. apply take_app_le. rewrite length_drop. lia.
Qed.

Lemma part_split d pos k n : 0 ≤ pos → 0 ≤ k ≤ n → part d pos k ++ part d (pos + k) (n - k) = part d pos n.
Proof.
  intros Hp Hk. unfold part. replace (Z.to_nat (pos + k)) with (Z.to_nat pos + Z.to_nat k)%nat by lia.
  rewrite <- drop_drop. replace (Z.to_nat n) with (Z.to_nat k + Z.to_nat (n - k))%nat by lia.
  by rewrite take_take_drop.
Qed.

Lemma zlen_part d pos n : 0 ≤ pos → 0 ≤ n → pos + n ≤ zlen d → zlen (part d pos n) = n.
Proof. intros Hp Hn Hd. unfold part, zlen in *. rewrite length_take, length_drop. lia. Qed.

Lemma later_bytes w fss w' fss' i fs fs' :
  later w fss w' fss' → fss !! i = Some fs → fss' !! i = Some fs' → ∃ e, fs_bytes fs' = fs_bytes fs ++ e.
Proof.
  intros L Ef Ef'. destruct (lt_frames _ _ _ _ L i fs Ef) as (new & E & _). rewrite E in Ef'. injection Ef' as <-.
  exists (fs_bytes new). apply fs_bytes_app.
Qed.

(** Bytes that are there are read. *)
Lemma u_loop_here fuel o w fss r i pos n acc fs :
  growing o → w_ok w fss → cursor_at w fss (u_cur r) i pos → fss !! i = Some fs → 0 < n →
  pos + n ≤ zlen (fs_bytes fs) → n ≤ bufReadSize * Z.of_nat fuel →
  ∃ w' fss' c, u_loop fuel o w r n acc = Some (w', u_at r c, Ok (acc ++ part (fs_bytes fs) pos n)) ∧
    later w fss w' fss' ∧ cursor_at w' fss' c i (pos + n).
Proof.
  intros Hg. revert w fss r pos n acc fs. induction fuel as [|fuel IH]; intros w fss r pos n acc fs Hw Hc Ef Hn Hle Hfu; [lia|].
  destruct (buf_read_spec o w fss (u_cur r) i pos n Hg Hw Hc Hn) as (w1 & f1 & fs1 & b & bs & err & E & L & Ef1 & Hgot & Hc1).
  destruct (later_bytes _ _ _ _ _ _ _ L Ef Ef1) as (e & Ee). destruct Hgot as (Hbs & Hmax & Hend & Herr).
  pose proof (zlen_nonneg e). pose proof (zlen_nonneg bs). pose proof (cursor_pos _ _ _ _ _ _ Hc Ef).
  cbn [u_loop]. rewrite E. destruct err as [e'|].
  { destruct Herr as (_ & Hlt & Hz). rewrite Ee, zlen_app in Hz. lia. }
  fold (part (fs_bytes fs1) pos (zlen bs)) in Hbs. rewrite Ee, part_grow in Hbs by lia.
  assert (0 < zlen bs) by (unfold bufReadSize in Herr; lia).
  set (c1 := {| c_seg := c_seg (u_cur r); c_pos := b_pos b; c_br := b |}) in *. destruct (Z.eqb_spec (n - zlen bs) 0) as [Hz|Hz].
  - exists w1, f1, c1. assert (zlen bs = n) as Hzn by lia. rewrite Hzn in Hc1, Hbs. split; [by rewrite <- Hbs|]. done.
  - rewrite (proj2 (Z.ltb_lt 0 _)) by lia. rewrite bool_decide_eq_true_2 by done. cbn [andb].
    destruct (IH w1 f1 (u_at r c1) (pos + zlen bs) (n - zlen bs) (acc ++ bs) fs1 (lt_ok _ _ _ _ L) Hc1 Ef1) as (w2 & f2 & c2 & E2 & L2 & Hc2);
      [lia|rewrite Ee, zlen_app; lia|unfold bufReadSize in *; lia|].
    exists w2, f2, c2. rewrite E2. split; [|split; [by eapply later_trans|by replace (pos + n) with (pos + zlen bs + (n - zlen bs)) by lia]].
    rewrite Ee, part_grow by lia. do 3 f_equal. rewrite <- app_assoc. f_equal. rewrite Hbs at 1. apply part_split; lia.
Qed.

(** ** Standing after some records *)

(** The cursor is at the end of a record, and [seen] are those before it. *)
Definition at_seen (w : world) (fss : list (list frm)) (c : segmentCursor) (seen : list frm) : Prop :=
  ∃ i x y, fss !! i = Some (x ++ y) ∧ seen = concat (take i fss) ++ x ∧ cursor_at w fss c i (zlen (fs_bytes x)).

(** The cursor is at the end of the record [f], and [seen] are those before. *)
Definition at_after (w : world) (fss : list (list frm)) (c : segmentCursor) (seen : list frm) (f : frm) : Prop :=
  ∃ i x y, fss !! i = Some (x ++ f :: y) ∧ seen = concat (take i fss) ++ x ∧ cursor_at w fss c i (zlen (fs_bytes (x ++ [f]))).

Lemma at_after_seen w fss c seen f : at_after w fss c seen f → at_seen w fss c (seen ++ [f]).
Proof.
  intros (i & x & y & Ei & -> & Hc). exists i, (x ++ [f]), y. split; [by rewrite <- app_assoc|]. split; [by rewrite app_assoc|done].
Qed.

Lemma at_after_next w fss c seen f : at_after w fss c seen f → ∃ rest, concat fss = seen ++ f :: rest.
Proof.
  intros (i & x & y & Ei & -> & _). exists (y ++ concat (drop (S i) fss)). rewrite (concat_lookup _ _ _ Ei).
  by rewrite <- !app_assoc, <- !app_comm_cons.
Qed.

Lemma stretches_take fss fss' i : stretches fss fss' → (i < length fss)%nat → take i fss' = take i fss.
Proof.
  intros He Hi. apply list_eq. intros j. destruct (decide (j < i)%nat) as [Hj|Hj]; [|by rewrite !lookup_take_ge by lia].
  rewrite !lookup_take_lt by done. destruct (lookup_lt_is_Some_2 fss j) as [fs Ej]; [lia|].
  destruct (He j fs Ej) as (new & E & Hn). rewrite E, Ej, Hn by lia. by rewrite app_nil_r.
Qed.

Lemma stretches_concat fss fss' : stretches fss fss' → ∃ new, concat fss' = concat fss ++ new.
Proof.
  intros He. destruct (decide (fss = [])) as [->|Hne]; [by eexists|]. destruct (exists_last Hne) as (a & fs & ->).
  destruct (He (length a) fs) as (new & E & _); [by rewrite list_lookup_middle|].
  exists (new ++ concat (drop (S (length a)) fss')). rewrite <- (take_drop_middle _ _ _ E) at 1.
  rewrite (stretches_take _ _ _ He) by (rewrite length_app; cbn; lia). rewrite take_app_length, !concat_app. cbn.
  by rewrite app_nil_r, <- !app_assoc.
Qed.

Lemma seen_later w fss w' fss' c seen :
  w_ok w fss → later w fss w' fss' → at_seen w fss c seen → at_seen w' fss' c seen.
Proof.
  intros Hw L (i & x & y & Ei & -> & Hc). destruct (lt_frames _ _ _ _ L i _ Ei) as (new & E & _). exists i, x, (y ++ new).
  rewrite app_assoc. split; [done|]. split; [|by eapply cursor_later].
  by rewrite (stretches_take _ _ i (lt_frames _ _ _ _ L)) by (by apply lookup_lt_Some in Ei).
Qed.

(** The segment after the [i]th, if there is any record behind it. *)
Lemma find_after w fss i s :
  w_ok w fss → segments (w_log w) !! i = Some s →
  (∃ s', segments (w_log w) !! S i = Some s' ∧ findSegmentAfter (segments (w_log w)) s = Some s') ∨
  (findSegmentAfter (segments (w_log w)) s = None ∧ concat (drop (S i) fss) = []).
Proof.
  intros [Hi [Hnd _]] Es. pose proof Hi as (HF & Hl & _ & _ & _ & Hne). unfold findSegmentAfter.
  destruct (findSegment_spec (segments (w_log w)) (NextOffset s) (inv_next_sorted _ _ Hi) (inv_left _ _ Hi))
    as [[Hall ->]|(a & s' & b & Eseg & Hlow & Ho & ->)].
  - right. split; [done|]. destruct (concat (drop (S i) fss)) as [|f k] eqn:Ek; [done|].
    assert (Hf : f ∈ concat (drop (S i) fss)) by (rewrite Ek; left).
    apply elem_of_concat in Hf as (n & fs & En & Hf). rewrite lookup_drop in En.
    destruct (Forall2_lookup_r _ _ _ _ _ HF En) as (x & Ex & Hx). pose proof (seg_range _ _ _ f Hx Hf).
    rewrite Forall_lookup in Hall. specialize (Hall _ _ Ex). cbn in Hall.
    pose proof (sorted_lookup _ _ i (S i + n) s x Hl ltac:(lia) Es Ex) as Hy. cbn in Hy. lia.
  - left. assert (Es' : segments (w_log w) !! length a = Some s') by (rewrite Eseg; by apply list_lookup_middle).
    assert (Hlt : (i < length a)%nat).
    { destruct (Nat.lt_trichotomy i (length a)) as [?|[E|Hgt]]; [done| |].
      - rewrite E, Es' in Es. injection Es as ->. lia.
      - pose proof (sorted_lookup _ _ _ _ _ _ (inv_next_sorted _ _ Hi) Hgt Es' Es) as Hy. cbn in Hy. lia. }
    assert (length a = S i) as Hk.
    { destruct (decide (length a = S i)); [done|]. exfalso.
      destruct (lookup_lt_is_Some_2 a (S i)) as [x Ex]; [lia|].
      assert (Exs : segments (w_log w) !! S i = Some x) by (rewrite Eseg; by apply lookup_app_l_Some).
      rewrite Forall_lookup in Hlow. specialize (Hlow _ _ Ex). cbn in Hlow.
      destruct (Forall2_lookup_l _ _ _ _ _ HF Exs) as (g & Eg & Hg).
      pose proof (sorted_lookup _ _ i (S i) s x Hl ltac:(lia) Es Exs) as Hy. cbn in Hy.
      assert (Hgn : g ≠ []).
      { rewrite Forall_lookup in Hne. apply (Hne (S i)). rewrite removelast_firstn_len, lookup_take_lt; [done|].
        apply lookup_lt_Some in Es'. rewrite (Forall2_length _ _ _ HF) in Es'. lia. }
      destruct g as [|f g]; [done|]. pose proof (seg_range _ _ _ f Hg ltac:(left)). lia. }
    exists s'. rewrite Hk in Es'. split; [done|]. destruct (Z.eqb_spec (id s') (id s)) as [E|]; [|done].
    exfalso. assert (S i = i); [|lia]. eapply (NoDup_lookup (id <$> segments (w_log w)) _ _ (id s)); [done|..]; rewrite list_lookup_fmap;
      [by rewrite Es', <- E|by rewrite Es].
Qed.

(** ** Waiting *)

(** An error that ends a wait, or the end of what there is. *)
Definition ends_with (o : others) (e : error) : Prop :=
  e = ErrEOF ∨ e = ErrCommitLogReadonly ∨ ∃ k b, o_wake o k b = Cancelled e.

Lemma wait_later o w fss r i pos p x w' :
  growing o → w_ok w fss → cursor_at w fss (u_cur r) i pos → c_seg (u_cur r) = Some p →
  u_waitForData o w r p = (w', x) →
  x ≠ Panic ∧ (∃ fss', later w fss w' fss') ∧ (u_noWait r = true → x = Fail ErrEOF) ∧ (∀ e, x = Fail e → ends_with o e).
Proof.
  intros Hg Hw Hc Ep E. unfold u_waitForData in E. destruct (u_noWait r) eqn:Hnw.
  { injection E as <- <-. split; [done|]. split; [|split; [done|intros e [= <-]; by left]]. exists fss. by apply later_refl. }
  pose proof Hc as (s & fs & Es & _ & Ec & _). rewrite Ec in Ep. injection Ep as <-.
  destruct (Hg w fss Hw) as (f1 & L1). destruct (later_object _ _ _ _ _ _ Hw L1 Es) as (s1 & E1 & Hid).
  rewrite <- Hid, (object_in _ f1 i s1 (lt_ok _ _ _ _ L1) E1) in E.
  pose proof (lt_ok _ _ _ _ L1) as [(HF & _) _]. destruct (Forall2_lookup_l _ _ _ _ _ HF E1) as (fs1 & Ef1 & Hs1).
  assert (Hput : ∀ w2 f2 s2 fs2 ws, w_ok w2 f2 → segments (w_log w2) !! i = Some s2 → f2 !! i = Some fs2 →
    seg_ok (opts (w_log w2)) s2 fs2 → later w2 f2 (put_object w2 (with_waiters s2 ws)) f2).
  { intros. by eapply put_later. }
  assert (Hreg : ∃ ws, (waitForData s1 (u_self r) (c_pos (u_cur r))).1 = with_waiters s1 ws).
  { unfold waitForData. assert (Hself : s1 = with_waiters s1 (waiters s1)) by (by destruct s1).
    destruct (bool_decide _); [by exists (waiters s1)|]. destruct (_ || _); [by exists (waiters s1)|by eexists]. }
  destruct (waitForData _ _ _) as [s1' ready]. destruct Hreg as (ws & Hreg). cbn [fst] in Hreg. subst s1'.
  pose proof (Hput _ _ _ _ ws (lt_ok _ _ _ _ L1) E1 Ef1 Hs1) as L2. set (w2 := put_object _ _) in *.
  destruct (Hg w2 f1 (lt_ok _ _ _ _ L2)) as (f3 & L3). set (w3 := turn o w2) in *.
  pose proof (later_trans _ _ _ _ _ _ L1 (later_trans _ _ _ _ _ _ L2 L3)) as L.
  assert (Hleave : later w fss (match object w3 (id s1) with Some s => put_object w3 (removeWaiter s (u_self r)) | None => w3 end) f3).
  { destruct (later_object _ _ _ _ _ _ Hw L Es) as (s3 & E3 & Hid3). rewrite Hid, <- Hid3, (object_in _ f3 i s3 (lt_ok _ _ _ _ L) E3).
    pose proof (lt_ok _ _ _ _ L) as [(HF3 & _) _]. destruct (Forall2_lookup_l _ _ _ _ _ HF3 E3) as (fs3 & Ef3 & Hs3).
    apply (later_trans _ _ _ _ _ _ L). apply (Hput _ _ s3 fs3 (waiters s3 ∖ {[ u_self r ]}) (lt_ok _ _ _ _ L) E3 Ef3 Hs3). }
  destruct (o_wake _ _ _) eqn:Ewk; injection E as <- <-; (split; [done|]); (split; [by exists f3|]); (split; [done|]); intros e' [= <-].
  - by left.
  - right. right. by eexists _, _.
Qed.

(** ** The header of the next record *)

Definition header (f : frm) : bytes := frame_header (f_off f) (f_ts f) (f_ep f) (zlen (f_data f)).

Lemma header_part x f y : part (fs_bytes (x ++ f :: y)) (zlen (fs_bytes x)) 32 = header f.
Proof.
  unfold part. rewrite fs_bytes_app, fs_bytes_cons. unfold fbytes. fold (header f). rewrite to_nat_zlen, drop_app_length, <- app_assoc.
  assert (Hh : length (header f) = 32%nat).
  { pose proof (zlen_frame_header (f_off f) (f_ts f) (f_ep f) (zlen (f_data f))) as Hz. unfold header, zlen in *. lia. }
  change (Z.to_nat 32) with 32%nat. rewrite <- Hh. apply take_app_length.
Qed.

Lemma fits_header x f y : zlen (fs_bytes x) + 32 ≤ zlen (fs_bytes (x ++ f :: y)).
Proof.
  rewrite fs_bytes_app, fs_bytes_cons, !zlen_app, zlen_fbytes. pose proof (zlen_nonneg (f_data f)). pose proof (zlen_nonneg (fs_bytes y)). lia.
Qed.

Lemma stretches_empty fss fss' i : stretches fss fss' → concat (drop i fss') = [] → concat (drop i fss) = [].
Proof.
  intros He Hn. destruct (concat (drop i fss)) as [|f k] eqn:Ek; [done|]. assert (Hf : f ∈ concat (drop i fss)) by (rewrite Ek; left).
  apply elem_of_concat in Hf as (j & fs & Ej & Hf). rewrite lookup_drop in Ej. destruct (He _ _ Ej) as (new & E & _).
  assert (Hx : f ∈ concat (drop i fss')); [|rewrite Hn in Hx; by apply not_elem_of_nil in Hx].
  apply elem_of_concat. exists j, (fs ++ new). rewrite lookup_drop. split; [done|]. apply elem_of_app. by left.
Qed.

(** Where a read of a header can lead. *)
Definition header_read (o : others) (w : world) (fss : list (list frm)) (seen : list frm) (r : uncommittedReader)
    (res : world * uncommittedReader * outcome bytes) : Prop :=
  let '(w', r', x) := res in
  ∃ fss' c, later w fss w' fss' ∧ r' = u_at r c ∧
    match x with
    | Ok hdr => ∃ i a f b, fss' !! i = Some (a ++ f :: b) ∧ seen = concat (take i fss') ++ a ∧ hdr = header f ∧
        cursor_at w' fss' c i (zlen (fs_bytes a) + 32)
    | Fail e => at_seen w' fss' c seen ∧ ends_with o e ∧
        (u_noWait r = true → e = ErrEOF ∧ ∃ w1 fss1, later w fss w1 fss1 ∧ later w1 fss1 w' fss' ∧ concat fss1 = seen)
    | Panic => False
    end.

Lemma header_read_later o w0 f0 w fss seen r c res :
  later w0 f0 w fss → header_read o w fss seen (u_at r c) res → header_read o w0 f0 seen r res.
Proof.
  destruct res as [[w' r'] x]. intros L (fss' & c' & L' & -> & Hx). exists fss', c'. split; [by eapply later_trans|]. split; [done|].
  destruct x; [done| |done]. destruct Hx as (Ha & Hew & He). split; [done|]. split; [done|]. intros Hn. destruct (He Hn) as (-> & w1 & f1 & La & Lb & E).
  split; [done|]. exists w1, f1. split; [by eapply later_trans|]. done.
Qed.

(** One round of the loop at a frame boundary: the header is there, or the
    segment has ended and the reader goes on to the next one or waits. *)
Lemma u_round fuel o w fss r i x y :
  appending o → w_ok w fss → fss !! i = Some (x ++ y) → cursor_at w fss (u_cur r) i (zlen (fs_bytes x)) →
  (∃ w1 f1 c f q, u_loop (S fuel) o w r 32 [] = Some (w1, u_at r c, Ok (header f)) ∧ later w fss w1 f1 ∧
     f1 !! i = Some (x ++ f :: q) ∧ cursor_at w1 f1 c i (zlen (fs_bytes x) + 32)) ∨
  (y = [] ∧ ∃ w1 f1 w2 f2 c, later w fss w1 f1 ∧ f1 !! i = Some x ∧ later w1 f1 w2 f2 ∧ one_append f1 f2 ∧
     cursor_at w2 f2 c i (zlen (fs_bytes x)) ∧
     ((∃ s', segments (w_log w2) !! S i = Some s' ∧ f2 !! i = Some x ∧
         u_loop (S fuel) o w r 32 [] = u_loop fuel o w2 (u_at r (seekTo (Some (id s')) 0)) 32 []) ∨
      (∃ p, c_seg c = Some p ∧ concat (drop (S i) f2) = [] ∧
         u_loop (S fuel) o w r 32 [] =
         match u_waitForData o w2 (u_at r c) p with
         | (w, Ok _) => u_loop fuel o w (u_at r (refill c)) 32 []
         | (w, Fail e) => Some (w, u_at r c, Fail e)
         | (w, Panic) => Some (w, u_at r c, Panic)
         end))).
Proof.
  intros Ho Hw Ei Hc. pose proof (appending_growing o Ho) as Hg.
  destruct (buf_read_spec o w fss (u_cur r) i _ 32 Hg Hw Hc ltac:(lia)) as (w1 & f1 & fs1 & b & bs & err & Eb & L & Ef1 & Hgot & Hc1).
  destruct (lt_frames _ _ _ _ L i _ Ei) as (new & En & _). rewrite Ef1 in En. injection En as ->. rewrite <- app_assoc in *.
  destruct Hgot as (Hbs & Hmax & Hend & Herr). fold (part (fs_bytes (x ++ y ++ new)) (zlen (fs_bytes x)) (zlen bs)) in Hbs.
  cbn [u_loop]. rewrite Eb. set (c1 := {| c_seg := c_seg (u_cur r); c_pos := b_pos b; c_br := b |}) in *.
  destruct (y ++ new) as [|f q] eqn:Eq.
  - right. apply app_eq_nil in Eq as [-> ->]. rewrite !app_nil_r in *. destruct err as [e'|].
    2: { exfalso. pose proof (zlen_nonneg bs). unfold bufReadSize in Herr. lia. }
    destruct Herr as (-> & Hlt & Hz). assert (zlen bs = 0) as Hz0 by lia. rewrite Hz0, Z.sub_0_r, Z.add_0_r in *.
    rewrite (proj2 (Z.eqb_neq 32 0)) by done. cbn [Z.ltb Z.compare andb].
    assert (Hbn : bs = []) by (destruct bs; [done|unfold zlen in Hz0; cbn in Hz0; lia]). subst bs. rewrite Hbn.
    split; [done|]. destruct (Ho w1 f1 (lt_ok _ _ _ _ L)) as (f2 & L2 & Hone). set (w2 := turn o w1) in *.
    pose proof (lt_ok _ _ _ _ L2) as Hw2. pose proof (cursor_later _ _ _ _ _ _ _ (lt_ok _ _ _ _ L) L2 Hc1) as Hc2.
    exists w1, f1, w2, f2, c1. do 5 (split; [done|]). pose proof Hc2 as (s2 & fs2 & Es2 & Ef2 & Ec2 & _).
    destruct (lt_frames _ _ _ _ L2 i x Ef1) as (new2 & Ef2' & _). rewrite Ef2 in Ef2'. injection Ef2' as ->.
    cbn [u_at u_cur]. rewrite Ec2. cbn [mbind option_bind]. rewrite (object_in _ _ _ _ Hw2 Es2).
    cbn [fmap option_fmap option_map]. rewrite (objects_all _ _ Hw2).
    destruct (find_after w2 f2 i s2 Hw2 Es2) as [(s' & Es' & Ea)|[Ea Hemp]]; rewrite Ea; [left|right; by exists (id s2)].
    exists s'. split; [done|]. split; [|done]. pose proof Hw2 as [(HF2 & _) _]. apply lookup_lt_Some in Es'.
    destruct new2 as [|z new2]; [by rewrite app_nil_r in Ef2|]. pose proof (Hone i x (z :: new2) Ef1 Ef2 ltac:(done)).
    rewrite (Forall2_length _ _ _ HF2) in Es'. lia.
  - left. assert (Hfit : zlen (fs_bytes x) + 32 ≤ zlen (fs_bytes (x ++ f :: q))) by apply fits_header.
    destruct err as [e'|]; [destruct Herr as (_ & ? & ?); lia|].
    assert (zlen bs = 32) as Hz by (unfold bufReadSize in Herr; lia). rewrite Hz in *. cbn [Z.sub Z.opp Z.add Z.pos_sub Z.eqb].
    exists w1, f1, c1, f, q. split; [by rewrite Hbs, header_part|]. done.
Qed.

Lemma seen_next w fss i x s' :
  w_ok w fss → fss !! i = Some x → segments (w_log w) !! S i = Some s' →
  ∃ g, fss !! S i = Some g ∧ concat (take (S i) fss) = concat (take i fss) ++ x ∧
    cursor_at w fss (seekTo (Some (id s')) 0) (S i) (zlen (fs_bytes [])).
Proof.
  intros [(HF & _) _] Ei Es'. destruct (Forall2_lookup_l _ _ _ _ _ HF Es') as (g & Eg & _). exists g. split; [done|].
  split; [by rewrite (take_S_r _ _ _ Ei), concat_app; cbn; rewrite app_nil_r|]. change (zlen (fs_bytes [])) with 0.
  apply (cursor_seek _ _ _ _ g); [done|done|]. pose proof (zlen_nonneg (fs_bytes g)). lia.
Qed.

Lemma u_header fuel o w fss r seen res :
  appending o → w_ok w fss → at_seen w fss (u_cur r) seen → u_loop fuel o w r 32 [] = Some res →
  header_read o w fss seen r res.
Proof.
  intros Ho. revert w fss r. induction fuel as [|fuel IH]; intros w fss r Hw (i & x & y & Ei & Es & Hc) E; [done|].
  assert (Hseen : ∀ w1 f1, later w fss w1 f1 → seen = concat (take i f1) ++ x).
  { intros w1 f1 L1. by rewrite Es, (stretches_take _ _ i (lt_frames _ _ _ _ L1)) by (by apply lookup_lt_Some in Ei). }
  destruct (u_round fuel o w fss r i x y Ho Hw Ei Hc)
    as [(w1 & f1 & c & f & q & Eu & L & Ef & Hc1)|(-> & w1 & f1 & w2 & f2 & c & L & Ef & L2 & _ & Hc2 & Hr)].
  { rewrite Eu in E. injection E as <-. exists f1, c. split; [done|]. split; [done|]. exists i, x, f, q. by split_and!; try apply (Hseen w1). }
  pose proof (later_trans _ _ _ _ _ _ L L2) as L02. pose proof (lt_ok _ _ _ _ L2) as Hw2.
  destruct Hr as [(s' & Es' & Ef2 & Eu)|(p & Ep & Hemp & Eu)]; rewrite Eu in E.
  - apply (header_read_later o w fss w2 f2 seen r (seekTo (Some (id s')) 0) res L02).
    apply (IH w2 f2 (u_at r (seekTo (Some (id s')) 0)) Hw2); [|done].
    destruct (seen_next w2 f2 i x s' Hw2 Ef2 Es') as (g & Eg & Et & Hcn). exists (S i), [], g. split; [done|]. split; [|done].
    by rewrite Et, app_nil_r, (Hseen w2 f2 L02).
  - destruct (u_waitForData _ _ _ _) as [w3 z] eqn:Ew.
    destruct (wait_later o w2 f2 (u_at r c) i _ _ _ _ (appending_growing o Ho) Hw2 Hc2 Ep Ew) as (Hz3 & (f3 & L3) & Hnw & Hends).
    pose proof (later_trans _ _ _ _ _ _ L02 L3) as L03.
    assert (Hat : at_seen w3 f3 c seen).
    { apply (seen_later w2 f2 _ _ _ _ Hw2 L3). destruct (lt_frames _ _ _ _ L2 i x Ef) as (new & Ef2 & _).
      exists i, x, new. by split_and!; try apply (Hseen w2). }
    destruct z as [[]|e|]; [| |done].
    + apply (header_read_later o w fss w3 f3 seen r (refill c) res L03).
      apply (IH w3 f3 (u_at r (refill c)) (lt_ok _ _ _ _ L3)); [|done].
      destruct Hat as (j & x' & y' & Ej & Ese & Hcj). exists j, x', y'. split; [done|]. split; [done|]. by apply cursor_refill.
    + injection E as <-. exists f3, c. split; [done|]. split; [done|]. split; [done|]. split; [by apply Hends|]. intros Hn. split; [by injection (Hnw Hn)|].
      exists w1, f1. split; [done|]. split; [by eapply later_trans|].
      rewrite (concat_lookup _ _ _ Ef), (Hseen w1 f1 L), (stretches_empty _ _ _ (lt_frames _ _ _ _ L2) Hemp). by rewrite app_nil_r.
Qed.

(** A record that is there is found without waiting. *)
Lemma u_header_ahead fuel o w fss r seen :
  appending o → w_ok w fss → at_seen w fss (u_cur r) seen → concat fss ≠ seen →
  ∃ w' r' hdr, u_loop (S (S fuel)) o w r 32 [] = Some (w', r', Ok hdr).
Proof.
  intros Ho Hw (i & x & y & Ei & Es & Hc) Hne.
  destruct (u_round (S fuel) o w fss r i x y Ho Hw Ei Hc)
    as [(w1 & f1 & c & f & q & Eu & _)|(-> & w1 & f1 & w2 & f2 & c & L & Ef & L2 & _ & Hc2 & Hr)]; [rewrite Eu; by eexists _, _, _|].
  pose proof (later_trans _ _ _ _ _ _ L L2) as L02. pose proof (lt_ok _ _ _ _ L2) as Hw2. rewrite app_nil_r in *.
  assert (Hd : concat (drop (S i) fss) ≠ []).
  { intros Hx. apply Hne. by rewrite (concat_lookup _ _ _ Ei), Hx, app_nil_r. }
  destruct Hr as [(s' & Es' & Ef2 & Eu)|(p & _ & Hemp & _)]; [|by destruct Hd; eapply stretches_empty; [apply (lt_frames _ _ _ _ L02)|]].
  destruct (seen_next w2 f2 i x s' Hw2 Ef2 Es') as (g & Eg & _ & Hcn). rewrite Eu.
  destruct (u_round fuel o w2 f2 (u_at r (seekTo (Some (id s')) 0)) (S i) [] g Ho Hw2 Eg Hcn)
    as [(w3 & f3 & c3 & f & q & Eu3 & _)|(-> & _)]; [rewrite Eu3; by eexists _, _, _|].
  exfalso. assert (S i < length fss)%nat as Hlt.
  { destruct (decide (S i < length fss)%nat); [done|]. rewrite drop_ge in Hd by lia. done. }
  destruct (lookup_lt_is_Some_2 fss (S i) Hlt) as [g0 Eg0]. destruct (lt_frames _ _ _ _ L02 _ _ Eg0) as (new & E & _).
  rewrite Eg in E. injection E as E. symmetry in E. apply app_eq_nil in E as [-> _]. apply Hd.
  destruct Hw as [(_ & _ & _ & _ & _ & Hfull) _]. rewrite (drop_S _ _ _ Eg0). cbn.
  destruct (decide (S (S i) < length fss)%nat) as [Hl2|]; [|by rewrite drop_ge by lia].
  rewrite Forall_lookup in Hfull. exfalso. apply (Hfull (S i) []); [|done].
  rewrite removelast_firstn_len, lookup_take_lt by lia. done.
Qed.

(** A reader that does not wait comes to an end. *)
Lemma u_header_ends fuel o w fss r seen :
  appending o → w_ok w fss → at_seen w fss (u_cur r) seen → u_noWait r = true →
  ∃ res, u_loop (S (S fuel)) o w r 32 [] = Some res.
Proof.
  intros Ho Hw (i & x & y & Ei & Es & Hc) Hnw.
  assert (Hwait : ∀ fuel w c p, ∃ res, match u_waitForData o w (u_at r c) p with
      | (w, Ok _) => u_loop fuel o w (u_at r (refill c)) 32 []
      | (w, Fail e) => Some (w, u_at r c, Fail e)
      | (w, Panic) => Some (w, u_at r c, Panic)
      end = Some res) by (intros; unfold u_waitForData; cbn [u_at u_noWait]; rewrite Hnw; by eexists).
  destruct (u_round (S fuel) o w fss r i x y Ho Hw Ei Hc)
    as [(w1 & f1 & c & f & q & Eu & _)|(-> & w1 & f1 & w2 & f2 & c & L & Ef & L2 & _ & Hc2 & Hr)]; [rewrite Eu; by eexists|].
  pose proof (lt_ok _ _ _ _ L2) as Hw2. destruct Hr as [(s' & Es' & Ef2 & Eu)|(p & _ & _ & Eu)]; rewrite Eu; [|apply Hwait].
  destruct (seen_next w2 f2 i x s' Hw2 Ef2 Es') as (g & Eg & _ & Hcn).
  destruct (u_round fuel o w2 f2 (u_at r (seekTo (Some (id s')) 0)) (S i) [] g Ho Hw2 Eg Hcn)
    as [(w3 & f3 & c3 & f & q & Eu3 & _)|(-> & w3 & f3 & w4 & f4 & c3 & _ & Ef3 & L4 & _ & _ & Hr)]; [rewrite Eu3; by eexists|].
  destruct Hr as [(s'' & Es'' & Ef4 & _)|(p & _ & _ & Eu3)]; [|rewrite Eu3; apply Hwait]. exfalso.
  pose proof (lt_ok _ _ _ _ L4) as [(HF4 & _ & _ & _ & _ & Hfull) _]. apply lookup_lt_Some in Es''. rewrite (Forall2_length _ _ _ HF4) in Es''.
  rewrite Forall_lookup in Hfull. apply (Hfull (S i) []); [|done]. rewrite removelast_firstn_len, lookup_take_lt by lia. done.
Qed.

(** ** The payload *)

(** Any reader that can be asked for the bytes up to the end of the record. *)
Section payload.
Context (o : others) (P : world → list (list frm) → contextReader → Z → Prop) (d : bytes).
Context (Hread : ∀ fuel w fss r pos n, P w fss r pos → 0 < n → pos + n ≤ zlen d → n ≤ bufReadSize * Z.of_nat fuel →
  ∃ w' fss' r', source_read fuel o w r n = Some (w', r', Ok (part d pos n)) ∧ later w fss w' fss' ∧ P w' fss' r' (pos + n)).
Context (HP : ∀ w fss r pos, P w fss r pos → w_ok w fss).

Lemma readPayload_spec fuel w fss r pos start size :
  P w fss r pos → 0 ≤ start ≤ pos → pos ≤ zlen d → size = zlen d - start →
  zlen d - pos ≤ maxPayloadChunk * (Z.of_nat fuel - 17) →
  ∃ w' fss' r', readPayload fuel o w r size (part d start (pos - start)) = Some (w', r', Ok (part d start size)) ∧
    later w fss w' fss' ∧ P w' fss' r' (zlen d).
Proof.
  intros Hp Hs Hle ->. revert w fss r pos Hp Hs Hle. assert (Hch : maxPayloadChunk = 2 ^ 20) by done. induction fuel as [|fuel IH]; intros w fss r pos Hp Hs Hle Hfu; [lia|].
  cbn [readPayload]. rewrite zlen_part by lia. destruct (Z.leb_spec (zlen d - start) (pos - start)) as [Hd|Hd].
  - assert (pos = zlen d) as -> by lia. exists w, fss, r. split; [done|]. split; [|done]. by apply later_refl, (HP _ _ _ _ Hp).
  - set (n := Z.min (zlen d - start - (pos - start)) maxPayloadChunk). assert (Hn : 0 < n ≤ zlen d - pos).
    { lia. }
    destruct (Hread fuel w fss r pos n Hp) as (w1 & f1 & r1 & -> & L1 & Hp1); [lia|lia|unfold bufReadSize; lia|]. cbn [mbind option_bind].
    assert (Hadd : part d start (pos - start) ++ part d pos n = part d start (pos + n - start)).
    { rewrite <- (part_split d start (pos - start) (pos + n - start)) by lia. do 2 f_equal; lia. }
    rewrite Hadd. destruct (IH w1 f1 r1 (pos + n) Hp1) as (w2 & f2 & r2 & E2 & L2 & Hp2); [lia..|].
    exists w2, f2, r2. rewrite E2. split; [done|]. split; [by eapply later_trans|done].
Qed.

End payload.

(** ** A record *)

Definition record_of (f : frm) : readRecord :=
  {| rr_msg := f_data f; rr_offset := f_off f; rr_ts := f_ts f; rr_epoch := f_ep f |}.

(** Whether the checksum of a record is right. *)
Definition checks (f : frm) : bool :=
  match SerializedMessage.crcMatches (f_data f) with Ok b => b | _ => false end.

(** What a reader makes of a stored record. *)
Definition delivered (f : frm) : outcome readRecord := if checks f then Ok (record_of f) else Fail ErrCorruptRecord.

Lemma check_record f fh :
  fh = {| fh_offset := f_off f; fh_timestamp := f_ts f; fh_leaderEpoch := f_ep f; fh_size := zlen (f_data f) |} →
  (if zlen (f_data f) <? 4 then Fail ErrCorruptRecord
   else
     ok ← SerializedMessage.crcMatches (f_data f);
     if negb ok then Fail ErrCorruptRecord
     else Ok {| rr_msg := f_data f; rr_offset := fh_offset fh; rr_ts := fh_timestamp fh; rr_epoch := fh_leaderEpoch fh |}) =
  delivered f.
Proof.
  intros ->. unfold delivered, checks. unfold SerializedMessage.crcMatches. destruct (Z.ltb_spec (zlen (f_data f)) 4) as [|Hz]; [done|].
  assert (Hr : ∃ v, BigEndian.read 4 (f_data f) = Ok v).
  { eexists. rewrite <- (take_drop 4 (f_data f)). apply BigEndian.read_app. rewrite length_take. unfold zlen in Hz. lia. }
  destruct Hr as (v & Hr). unfold SerializedMessage.Crc, slice_from. rewrite Hr, slice_ok by lia. rewrite !bind_Ok. by destruct (_ =? _).
Qed.

Definition header_fields (f : frm) : frameHeader :=
  {| fh_offset := f_off f; fh_timestamp := f_ts f; fh_leaderEpoch := f_ep f; fh_size := zlen (f_data f) |}.

Lemma readMessage_eq fuel o w r buflen w1 r1 f w2 r2 :
  readFrameHeader fuel o w r buflen = Some (w1, r1, Ok (header_fields f)) →
  readPayload fuel o w1 r1 (zlen (f_data f)) [] = Some (w2, r2, Ok (f_data f)) →
  readMessage fuel o w r buflen = Some (w2, r2, delivered f).
Proof.
  intros E1 E2. unfold readMessage. rewrite E1. cbn [mbind option_bind]. change (fh_size (header_fields f)) with (zlen (f_data f)).
  rewrite E2. cbn [mbind option_bind]. rewrite bind_Ok. do 2 f_equal. by apply check_record.
Qed.

Lemma parse_header_spec base f : frm_ok base f → parse_header (header f) = Ok (header_fields f).
Proof.
  intros Hf. destruct (read_header base [] f [] Hf) as (hdr & _ & Hff & (x & E1 & E2) & Hfb).
  assert (Eh : hdr = header f) by (unfold fbytes in Hfb; fold (header f) in Hfb; by apply app_inv_tail in Hfb). subst hdr.
  unfold parse_header. rewrite E1, E2, !bind_Ok, Z.eqb_refl. cbn [negb]. unfold frame_fields in Hff. revert Hff.
  destruct (messageSet.Offset _); [|done..]. rewrite !bind_Ok. destruct (messageSet.Timestamp _); [|done..].
  rewrite !bind_Ok. destruct (messageSet.LeaderEpoch _); [|done..]. rewrite !bind_Ok.
  destruct (messageSet.Size _); [|done..]. rewrite !bind_Ok. intros Hff. injection Hff as -> -> -> ->.
  rewrite uint_small; [done|]. destruct Hf as (_ & _ & _ & _ & _ & Hz). rewrite zlen_fbytes in Hz. pose proof (zlen_nonneg (f_data f)).
  unfold in_uint. lia.
Qed.

Lemma payload_part a f : part (fs_bytes (a ++ [f])) (zlen (fs_bytes a) + 32) (zlen (f_data f)) = f_data f.
Proof.
  rewrite fs_bytes_app, fs_bytes_cons. change (fs_bytes []) with (@nil byte). rewrite app_nil_r. unfold fbytes. fold (header f).
  assert (Hh : zlen (header f) = 32) by apply zlen_frame_header. rewrite app_assoc, <- Hh, <- zlen_app. unfold part.
  by rewrite !to_nat_zlen, drop_app_length, take_ge.
Qed.

(** The frames of a segment are in order. *)
Lemma frame_ok_at w fss i a f b : w_ok w fss → fss !! i = Some (a ++ f :: b) → ∃ base, frm_ok base f.
Proof.
  intros [(HF & _) _] Ei. destruct (Forall2_lookup_r _ _ _ _ _ HF Ei) as (s & _ & (Hh & _)). apply holds_frames in Hh as (_ & Hf & _).
  exists (BaseOffset s). rewrite Forall_forall in Hf. apply Hf, elem_of_app. right. left.
Qed.

(** The reader at [pos] of a segment that holds [a ++ [f]]. *)
Definition u_within (i : nat) (a : list frm) (f : frm) (r0 : uncommittedReader)
    (w : world) (fss : list (list frm)) (r : contextReader) (pos : Z) : Prop :=
  w_ok w fss ∧ (∃ more, fss !! i = Some (a ++ f :: more)) ∧ ∃ c, r = Uncommitted (u_at r0 c) ∧ cursor_at w fss c i pos.

Lemma u_read_loop fuel o w fss r i pos n :
  cursor_at w fss (u_cur r) i pos → u_read fuel o w r n = u_loop fuel o w r n [].
Proof. intros (s & fs & _ & _ & _ & _ & _ & Eb & _). unfold u_read. by rewrite Eb. Qed.

Lemma u_within_read i a f r0 o fuel w fss r pos n :
  growing o → u_within i a f r0 w fss r pos → 0 < n → pos + n ≤ zlen (fs_bytes (a ++ [f])) → n ≤ bufReadSize * Z.of_nat fuel →
  ∃ w' fss' r', source_read fuel o w r n = Some (w', r', Ok (part (fs_bytes (a ++ [f])) pos n)) ∧ later w fss w' fss' ∧
    u_within i a f r0 w' fss' r' (pos + n).
Proof.
  intros Hg (Hw & (more & Ef) & c & -> & Hc) Hn Hle Hfu.
  assert (Efs : fs_bytes (a ++ f :: more) = fs_bytes (a ++ [f]) ++ fs_bytes more) by (by rewrite <- fs_bytes_app, <- app_assoc).
  pose proof (zlen_nonneg (fs_bytes more)). pose proof (cursor_pos _ _ _ _ _ _ Hc Ef).
  destruct (u_loop_here fuel o w fss (u_at r0 c) i pos n [] _ Hg Hw Hc Ef Hn) as (w' & f' & c' & E & L & Hc');
    [rewrite Efs, zlen_app; lia|done|].
  exists w', f', (Uncommitted (u_at r0 c')). cbn [source_read]. rewrite (u_read_loop _ _ _ _ (u_at r0 c) _ _ _ Hc), E. cbn [mbind option_bind app].
  rewrite Efs, part_grow by lia. split; [done|]. split; [done|]. split; [apply (lt_ok _ _ _ _ L)|].
  destruct (lt_frames _ _ _ _ L i _ Ef) as (new & Ef' & _). split; [exists (more ++ new); by rewrite Ef', <- app_assoc|]. by exists c'.
Qed.

(** What a read of a record may lead to, for a reader that has seen [seen]:
    the next record of the log, or an end with nothing read. *)
Definition next_read (o : others) (w : world) (fss : list (list frm)) (seen : list frm) (r : uncommittedReader)
    (res : world * contextReader * outcome readRecord) : Prop :=
  let '(w', r', x) := res in
  ∃ fss' c, later w fss w' fss' ∧ r' = Uncommitted (u_at r c) ∧
    ((∃ f, x = delivered f ∧ at_after w' fss' c seen f) ∨
     (∃ e, x = Fail e ∧ at_seen w' fss' c seen ∧ ends_with o e ∧
        (u_noWait r = true → e = ErrEOF ∧ ∃ w1 fss1, later w fss w1 fss1 ∧ later w1 fss1 w' fss' ∧ concat fss1 = seen))).

(** Rounds that are enough for every record: it comes in pieces of at most 2^20
    bytes, each in at most 16 rounds. *)
Definition read_fuel : nat := 2065.

(** After the header. *)
Lemma u_rest fuel o w0 f0 w fss r c seen i a f b :
  growing o → w_ok w fss → later w0 f0 w fss → fss !! i = Some (a ++ f :: b) → seen = concat (take i fss) ++ a →
  cursor_at w fss c i (zlen (fs_bytes a) + 32) → zlen (f_data f) < 2 ^ 31 → (read_fuel ≤ fuel)%nat →
  ∃ w' fss' c', readPayload fuel o w (Uncommitted (u_at r c)) (zlen (f_data f)) [] =
      Some (w', Uncommitted (u_at r c'), Ok (f_data f)) ∧
    later w0 f0 w' fss' ∧ at_after w' fss' c' seen f.
Proof.
  intros Hg Hw L0 Ei Es Hc Hz Hfu. set (d := fs_bytes (a ++ [f])).
  assert (Hd : zlen d = zlen (fs_bytes a) + 32 + zlen (f_data f)) by (unfold d; rewrite zlen_fs_snoc, zlen_fbytes; lia).
  pose proof (zlen_nonneg (f_data f)). pose proof (zlen_nonneg (fs_bytes a)).
  destruct (readPayload_spec o (u_within i a f r) d (λ fuel w fss r' pos n Hp, u_within_read i a f r o fuel w fss r' pos n Hg Hp)
    (λ w fss r' pos Hp, proj1 Hp) fuel w fss (Uncommitted (u_at r c)) (zlen (fs_bytes a) + 32) (zlen (fs_bytes a) + 32) (zlen (f_data f)))
    as (w' & f' & r' & E & L & (Hw' & (more & Ei') & c' & -> & Hc'));
    [|lia|lia|lia|change maxPayloadChunk with (2 ^ 20); unfold read_fuel in Hfu; lia|].
  { split; [done|]. split; [by exists b|]. by exists c. }
  rewrite Z.sub_diag in E. unfold part at 1 in E. cbn [Z.to_nat take] in E. unfold d in E. rewrite payload_part in E.
  assert (Es' : seen = concat (take i f') ++ a).
  { by rewrite Es, (stretches_take _ _ i (lt_frames _ _ _ _ L)) by (by apply lookup_lt_Some in Ei). }
  exists w', f', c'. split; [done|]. split; [by eapply later_trans|]. by exists i, a, more.
Qed.

Lemma u_frame_header fuel o w fss r seen buflen :
  at_seen w fss (u_cur r) seen → msgSetHeaderLen ≤ buflen →
  readFrameHeader fuel o w (Uncommitted r) buflen =
  '(w', r', x) ← u_loop fuel o w r 32 []; Some (w', Uncommitted r', x ≫= parse_header).
Proof.
  intros (i0 & x0 & y0 & _ & _ & Hc0) Hbl. unfold readFrameHeader. rewrite (proj2 (Z.ltb_ge _ _)) by done. cbn [source_read].
  rewrite (u_read_loop _ _ _ _ _ _ _ _ Hc0). change msgSetHeaderLen with 32. by destruct (u_loop _ _ _ _ _ _) as [[[??]?]|].
Qed.

(** The rest of [readMessage] once the header is there. *)
Lemma u_message fuel o w fss r seen buflen w1 r1 hdr :
  appending o → w_ok w fss → at_seen w fss (u_cur r) seen → msgSetHeaderLen ≤ buflen →
  (read_fuel ≤ fuel)%nat → u_loop fuel o w r 32 [] = Some (w1, r1, Ok hdr) →
  ∃ w' fss' c f, readMessage fuel o w (Uncommitted r) buflen = Some (w', Uncommitted (u_at r c), delivered f) ∧
    later w fss w' fss' ∧ at_after w' fss' c seen f.
Proof.
  intros Ho Hw Hat Hbl Hfu Eu. pose proof (u_frame_header fuel o w fss r seen buflen Hat Hbl) as Eh. rewrite Eu in Eh. cbn [mbind option_bind] in Eh.
  destruct (u_header _ _ _ _ _ _ _ Ho Hw Hat Eu) as (f1 & c1 & L1 & -> & i & a & f & b & Ei & Es & -> & Hc).
  pose proof (lt_ok _ _ _ _ L1) as Hw1. destruct (frame_ok_at _ _ _ _ _ _ Hw1 Ei) as (base & Hf).
  rewrite bind_Ok, (parse_header_spec base f Hf) in Eh.
  destruct (u_rest fuel o w fss w1 f1 r c1 seen i a f b (appending_growing o Ho) Hw1 L1 Ei Es Hc) as (w2 & f2 & c2 & E2 & L2 & Hat2).
  { destruct Hf as (_ & _ & _ & _ & _ & Hz). rewrite zlen_fbytes in Hz. lia. }
  { done. }
  exists w2, f2, c2, f. split; [by eapply readMessage_eq|]. done.
Qed.

Lemma uncommitted_next fuel o w fss r seen buflen res :
  appending o → w_ok w fss → at_seen w fss (u_cur r) seen → msgSetHeaderLen ≤ buflen →
  (read_fuel ≤ fuel)%nat → readMessage fuel o w (Uncommitted r) buflen = Some res → next_read o w fss seen r res.
Proof.
  intros Ho Hw Hat Hbl Hfu E. pose proof (u_frame_header fuel o w fss r seen buflen Hat Hbl) as Eh.
  destruct (u_loop fuel o w r 32 []) as [[[w1 r1] x1]|] eqn:Eu; [|unfold readMessage in E; by rewrite Eh in E].
  destruct (u_header _ _ _ _ _ _ _ Ho Hw Hat Eu) as (f1 & c1 & L1 & -> & Hx). destruct x1 as [hdr|e|]; [| |done].
  - destruct (u_message fuel o w fss r seen buflen _ _ _ Ho Hw Hat Hbl Hfu Eu) as (w2 & f2 & c2 & f & E2 & L2 & Hat2).
    rewrite E2 in E. injection E as <-. exists f2, c2. split; [done|]. split; [done|]. left. by exists f.
  - unfold readMessage in E. rewrite Eh in E. injection E as <-. exists f1, c1. split; [done|]. split; [done|]. right. exists e. by destruct Hx.
Qed.

(** A record that is there is given. *)
Lemma uncommitted_ahead fuel o w fss r seen buflen :
  appending o → w_ok w fss → at_seen w fss (u_cur r) seen → msgSetHeaderLen ≤ buflen → (read_fuel ≤ fuel)%nat → concat fss ≠ seen →
  ∃ w' fss' c f, readMessage fuel o w (Uncommitted r) buflen = Some (w', Uncommitted (u_at r c), delivered f) ∧
    later w fss w' fss' ∧ at_after w' fss' c seen f.
Proof.
  intros Ho Hw Hat Hbl Hfu Hne. destruct fuel as [|[|fuel]]; [unfold read_fuel in Hfu; lia|unfold read_fuel in Hfu; lia|].
  destruct (u_header_ahead fuel o w fss r seen Ho Hw Hat Hne) as (w1 & r1 & hdr & Eu). by eapply u_message.
Qed.

Lemma uncommitted_ends fuel o w fss r seen buflen :
  appending o → w_ok w fss → at_seen w fss (u_cur r) seen → msgSetHeaderLen ≤ buflen → (read_fuel ≤ fuel)%nat → u_noWait r = true →
  ∃ res, readMessage fuel o w (Uncommitted r) buflen = Some res.
Proof.
  intros Ho Hw Hat Hbl Hfu Hn. pose proof (u_frame_header fuel o w fss r seen buflen Hat Hbl) as Eh.
  destruct fuel as [|[|fuel]]; [unfold read_fuel in Hfu; lia|unfold read_fuel in Hfu; lia|].
  destruct (u_header_ends fuel o w fss r seen Ho Hw Hat Hn) as ([[w1 r1] [hdr|e|]] & Eu).
  - destruct (u_message _ o w fss r seen buflen _ _ _ Ho Hw Hat Hbl Hfu Eu) as (w2 & f2 & c2 & f & E2 & _). rewrite E2. by eexists.
  - unfold readMessage. rewrite Eh, Eu. by eexists.
  - by destruct (u_header _ _ _ _ _ _ _ Ho Hw Hat Eu) as (? & ? & _ & _ & []).
Qed.

(** ** Positioning *)

(** Fuel that is enough for any segment: its bytes are addressed with 31 bits,
    and a record has more than 32. *)
Definition ample (fuel : nat) : Prop := 2 ^ 27 ≤ Z.of_nat fuel.

Lemma ample_frames fuel s fs : 2 ^ 26 ≤ Z.of_nat fuel → holds s fs → (length fs < fuel)%nat.
Proof.
  intros Ha Hh. apply holds_frames in Hh as (_ & _ & _ & _ & Hz). pose proof (KeyDigest.zlen_frames fs). unfold zlen in *. lia.
Qed.

(** [seen] are the records below an offset. *)
Definition split_at (offset : Z) (seen all : list frm) : Prop :=
  Forall (λ f, f_off f < offset) seen ∧ ∃ rest, all = seen ++ rest ∧ Forall (λ f, offset ≤ f_off f) rest.

(** The records around a position in the [i]th segment. *)
Lemma split_segment w fss i s x y offset :
  w_ok w fss → segments (w_log w) !! i = Some s → fss !! i = Some (x ++ y) →
  Forall (λ f, f_off f < offset) (concat (take i fss)) → offset < NextOffset s →
  Forall (λ f, f_off f < offset) x → Forall (λ f, offset ≤ f_off f) y →
  split_at offset (concat (take i fss) ++ x) (concat fss).
Proof.
  intros [(HF & Hl & _) _] Es Ei Hlow Hn Hx Hy. split; [by apply Forall_app|]. exists (y ++ concat (drop (S i) fss)).
  rewrite (concat_lookup _ _ _ Ei), <- !app_assoc. split; [done|]. apply Forall_app. split; [done|].
  apply Forall_forall. intros f (j & fs & Ej & Hf)%elem_of_concat. rewrite lookup_drop in Ej.
  destruct (Forall2_lookup_r _ _ _ _ _ HF Ej) as (s' & Es' & Hs'). pose proof (seg_range _ _ _ f Hs' Hf).
  pose proof (sorted_lookup _ _ i (S i + j) s s' Hl ltac:(lia) Es Es') as Hz. cbn in Hz. lia.
Qed.

Lemma before_segment w fss a s b offset :
  w_ok w fss → segments (w_log w) = a ++ s :: b → Forall (λ s, NextOffset s ≤ offset) a →
  Forall (λ f, f_off f < offset) (concat (take (length a) fss)).
Proof.
  intros [(HF & _) _] E Ha. apply Forall_forall. intros f (j & fs & Ej & Hf)%elem_of_concat. apply lookup_take_Some in Ej as [Ej Hj].
  destruct (Forall2_lookup_r _ _ _ _ _ HF Ej) as (s' & Es' & Hs'). pose proof (seg_range _ _ _ f Hs' Hf).
  rewrite E, lookup_app_l in Es' by done. rewrite Forall_lookup in Ha. specialize (Ha _ _ Es'). cbn in Ha. lia.
Qed.

Lemma segment_next_grows w fss w' fss' i s s' :
  w_ok w fss → later w fss w' fss' → segments (w_log w) !! i = Some s → segments (w_log w') !! i = Some s' →
  NextOffset s ≤ NextOffset s' ∧ BaseOffset s' = BaseOffset s.
Proof.
  intros [(HF & _) _] L Es Es'. pose proof (lt_ok _ _ _ _ L) as [(HF' & _) _].
  assert (Hb : BaseOffset s' = BaseOffset s).
  { pose proof (lt_bases _ _ _ _ L) as Hp. apply (prefix_lookup_Some _ _ i (BaseOffset s)) in Hp; [|by rewrite list_lookup_fmap, Es].
    rewrite list_lookup_fmap, Es' in Hp. by injection Hp. }
  split; [|done]. destruct (Forall2_lookup_l _ _ _ _ _ HF Es) as (fs & Ef & Hs). destruct (lt_frames _ _ _ _ L _ _ Ef) as (new & Ef' & _).
  destruct (Forall2_lookup_l _ _ _ _ _ HF' Es') as (fs' & Ef'' & Hs'). rewrite Ef' in Ef''. injection Ef'' as <-.
  rewrite (seg_next _ _ _ Hs'), (seg_next _ _ _ Hs), Hb. destruct (last fs) as [f|] eqn:El.
  - apply last_Some in El as [k ->]. rewrite next_of_app.
    destruct (seg_range _ _ _ f Hs' ltac:(rewrite <- app_assoc; apply elem_of_app; right; left)) as [_ Hr].
    rewrite (seg_next _ _ _ Hs'), Hb in Hr. lia.
  - apply last_None in El as ->. unfold next_of at 1. cbn. rewrite <- Hb. apply next_of_base, holds_frames, Hs'.
Qed.

Lemma active_last w : segments (w_log w) !! length (older (w_log w)) = Some (active (w_log w)).
Proof. unfold segments. by apply list_lookup_middle. Qed.

Lemma below_next w fss i s : w_ok w fss → segments (w_log w) !! i = Some s → NextOffset s ≤ NextOffset (active (w_log w)).
Proof.
  intros [Hi _] Es. pose proof (active_last w) as Ea. destruct (Nat.lt_trichotomy i (length (older (w_log w)))) as [Hlt|[->|Hgt]].
  - pose proof (sorted_lookup _ _ _ _ _ _ (inv_next_sorted _ _ Hi) Hlt Es Ea) as Hx. by cbn in Hx.
  - rewrite Ea in Es. by injection Es as <-.
  - apply lookup_lt_Some in Es. unfold segments in Es. rewrite length_app in Es. cbn in Es. lia.
Qed.

Lemma record_below w fss f : w_ok w fss → f ∈ concat fss → f_off f < NextOffset (active (w_log w)).
Proof.
  intros Hw (i & fs & Ef & Hf)%elem_of_concat. pose proof Hw as [(HF & _) _].
  destruct (Forall2_lookup_r _ _ _ _ _ HF Ef) as (s & Es & Hs). pose proof (seg_range _ _ _ f Hs Hf). pose proof (below_next _ _ _ _ Hw Es). lia.
Qed.

Lemma next_grows w fss w' fss' :
  w_ok w fss → later w fss w' fss' → NextOffset (active (w_log w)) ≤ NextOffset (active (w_log w')).
Proof.
  intros Hw L. destruct (later_object _ _ _ _ _ _ Hw L (active_last w)) as (s' & Es' & _).
  destruct (segment_next_grows _ _ _ _ _ _ _ Hw L (active_last w) Es') as [Hn _]. pose proof (below_next _ _ _ _ (lt_ok _ _ _ _ L) Es'). lia.
Qed.

Lemma record_stays w fss w' fss' f : later w fss w' fss' → f ∈ concat fss → f ∈ concat fss'.
Proof. intros L Hf. destruct (stretches_concat _ _ (lt_frames _ _ _ _ L)) as (new & ->). apply elem_of_app. by left. Qed.

(** The search in the [i]th segment: the first record at or above an offset. *)
Lemma object_find_spec fuel o w fss i s offset :
  2 ^ 26 ≤ Z.of_nat fuel → growing o → w_ok w fss → segments (w_log w) !! i = Some s → BaseOffset s ≤ offset < NextOffset s →
  ∃ w' fss' x f y e, object_find fuel o w (id s) offset = Some (w', Ok e) ∧ later w fss w' fss' ∧ fss' !! i = Some (x ++ f :: y) ∧
    e_Position e = zlen (fs_bytes x) ∧ e_Offset e = f_off f ∧ e_Size e = zlen (fbytes f) ∧
    Forall (λ f, f_off f < offset) x ∧ Forall (λ f, offset ≤ f_off f) (f :: y).
Proof.
  intros Ha Hg Hw Es Ho. unfold object_find. destruct (Hg w fss Hw) as (f1 & L1). set (w1 := turn o w) in *.
  destruct (later_object _ _ _ _ _ _ Hw L1 Es) as (s1 & E1 & Hid). pose proof (lt_ok _ _ _ _ L1) as Hw1.
  destruct (segment_next_grows _ _ _ _ _ _ _ Hw L1 Es E1) as [Hn Hb].
  rewrite <- Hid, (object_in w1 f1 i s1 Hw1 E1). pose proof Hw1 as [(HF & _) _].
  destruct (Forall2_lookup_l _ _ _ _ _ HF E1) as (fs & Ef & Hs). pose proof Hs as (Hh & _).
  assert (Hne : from offset fs ≠ []).
  { apply (from_reaches _ _ _ _ Hs); [lia|]. intros ->. rewrite (seg_next _ _ _ Hs) in Hn. unfold next_of in Hn. cbn in Hn. lia. }
  destruct (findEntryBy_spec fuel s1 fs (λ x _, offset <=? x) (λ x _, offset <? x)) as (c & E & Hh');
    [done|by apply ascending_searchable, (holds_ascending s1)|by eapply ample_frames|].
  destruct (seek 0 (λ f, offset <=? f_off f) fs) as [[q f]|] eqn:Ek.
  2: { apply seek_None in Ek. destruct Hne. apply from_below. eapply Forall_impl; [exact Ek|]. cbn. intros g Hgx. by apply Z.leb_gt in Hgx. }
  pose proof (holds_ascending _ _ Hh) as Hasc. pose proof Ek as (x & y & -> & Hlow & Hof%Z.leb_le & ->)%seek_Some.
  assert (Hfe : findEntry fuel s1 offset = Some (with_cache s1 c, found s1 (λ f, offset <=? f_off f) (x ++ f :: y))).
  { unfold findEntry, anchorPositionForOffset. change (λ e, offset <? Index.Offset e) with (entry_pred (λ x _, offset <? x)). by rewrite E. }
  rewrite Hfe. unfold found. rewrite Ek. cbn [mbind option_bind].
  eexists _, f1, x, f, y, _. split; [reflexivity|]. split.
  - apply (later_trans _ _ _ _ _ _ L1). apply (put_later w1 f1 i s1 _ (x ++ f :: y)); try done. by apply seg_cache.
  - split; [done|]. split; [by destruct (blockMode s1)|]. split; [by destruct (blockMode s1)|]. split; [by destruct (blockMode s1)|].
    split; [eapply Forall_impl; [exact Hlow|]; cbn; intros g Hgx; by apply Z.leb_gt in Hgx|]. apply Forall_cons. split; [done|].
    apply StronglySorted_app in Hasc as (_ & _ & Hasc). apply StronglySorted_cons in Hasc as [Hx _].
    eapply Forall_impl; [exact Hx|]. cbn. lia.
Qed.

(** A reader from an offset the log has reached stands before the first record
    at or above it. *)
Lemma newUncommitted_spec fuel o w fss self offset noWait :
  ample fuel → appending o → w_ok w fss → offset < NextOffset (active (w_log w)) →
  ∃ w' fss' c seen, newReaderUncommitted fuel o w self offset noWait =
      Some (w', Ok (Uncommitted {| u_self := self; u_cur := c; u_noWait := noWait |})) ∧
    later w fss w' fss' ∧ at_seen w' fss' c seen ∧ split_at offset seen (concat fss').
Proof.
  intros Ha Ho Hw Hn. destruct fuel as [|fuel]; [unfold ample in Ha; lia|]. cbn [newReaderUncommitted].
  destruct (Ho w fss Hw) as (f1 & L1 & _). set (w1 := turn o w) in *. pose proof (lt_ok _ _ _ _ L1) as Hw1. pose proof Hw1 as [Hi1 _].
  assert (Hact : segments (w_log w) !! length (older (w_log w)) = Some (active (w_log w))) by (unfold segments; by apply list_lookup_middle).
  destruct (later_object _ _ _ _ _ _ Hw L1 Hact) as (sa & Esa & _). destruct (segment_next_grows _ _ _ _ _ _ _ Hw L1 Hact Esa) as [Hna _].
  unfold findSegmentContains.
  destruct (findSegment_spec (segments (w_log w1)) offset (inv_next_sorted _ _ Hi1) (inv_left _ _ Hi1))
    as [[Hall ->]|(a & s & b & Eseg & Hlow & Hlt & ->)].
  { exfalso. rewrite Forall_lookup in Hall. specialize (Hall _ _ Esa). cbn in Hall. lia. }
  assert (Es : segments (w_log w1) !! length a = Some s) by (rewrite Eseg; by apply list_lookup_middle).
  pose proof (before_segment w1 f1 a s b offset Hw1 Eseg Hlow) as Hbef.
  destruct (Z.leb_spec (BaseOffset s) offset) as [Hb|Hb].
  - destruct (object_find_spec fuel o w1 f1 (length a) s offset) as (w2 & f2 & x & f & y & e & E & L2 & Ei & Ep & _ & _ & Hx & Hy);
      [unfold ample in Ha; lia|by apply appending_growing|done|done|done|].
    rewrite E, Ep. pose proof (later_trans _ _ _ _ _ _ L1 L2) as L. destruct (later_object _ _ _ _ _ _ Hw1 L2 Es) as (s2 & Es2 & Hid).
    destruct (segment_next_grows _ _ _ _ _ _ _ Hw1 L2 Es Es2) as [Hn2 _]. rewrite <- Hid.
    eexists w2, f2, _, (concat (take (length a) f2) ++ x). split; [reflexivity|]. split; [done|]. split.
    + exists (length a), x, (f :: y). split; [done|]. split; [done|]. apply (cursor_seek _ _ _ _ (x ++ f :: y)); [done|done|].
      pose proof (fits_header x f y). pose proof (zlen_nonneg (fs_bytes x)). lia.
    + apply (split_segment w2 f2 (length a) s2 x (f :: y) offset); try done; [apply (lt_ok _ _ _ _ L2)| |lia].
      rewrite (stretches_take f1 f2); [done|apply (lt_frames _ _ _ _ L2)|].
      destruct Hw1 as [(HF & _) _]. rewrite <- (Forall2_length _ _ _ HF), Eseg, length_app. cbn. lia.
  - pose proof Hw1 as [(HF & _) _]. destruct (Forall2_lookup_l _ _ _ _ _ HF Es) as (fs & Ef & Hs).
    exists w1, f1, (seekTo (Some (id s)) 0), (concat (take (length a) f1) ++ []). split; [done|]. split; [done|]. split.
    + exists (length a), [], fs. split; [done|]. split; [done|]. change (zlen (fs_bytes [])) with 0.
      apply (cursor_seek _ _ _ _ fs); [done|done|]. pose proof (zlen_nonneg (fs_bytes fs)). lia.
    + apply (split_segment w1 f1 (length a) s [] fs offset); try done. apply Forall_forall. intros f Hf.
      pose proof (seg_range _ _ _ f Hs Hf). lia.
Qed.

End worlds.
End ReadTail.
