(* ===== verification/ReadCommitted.v ===== *)
(** * The committed reader beside appends

    [committedReader] of reader.go serves records up to the high watermark.  The
    log grows and its watermark rises under it; from some offset at or below the
    watermark on every record is there ([ReadTail.solid]), which is what a
    compaction leaves above the watermark it was given.  The lemmas say that the
    reader goes through the records in order, never past the watermark, and that
    a committed record that is there is read without waiting. *)

From Stdlib Require Import ZArith Lia.
From stdpp Require Import base list numbers strings gmap sorting.
From coqutil Require Import Byte.
From S2P Require Import Prelude GoStd Wire Compress BlockV3 Block Framing EpochCache Index Segment.
From S2P Require Import SegmentIndex SegmentSearch SegmentReopen Log LogAppend LogRead ReadSource ReadTail.

Open Scope Z_scope.

Module ReadCommitted.
Import Segment SegmentIndex SegmentSearch SegmentReopen Log LogAppend LogRead ReadSource ReadTail.

(** ** Records in order *)

Lemma ascending_below x f y a g b :
  ascending (x ++ f :: y) → x ++ f :: y = a ++ g :: b → f_off f ≤ f_off g → ∃ t, a ++ [g] = x ++ f :: t.
Proof.
  intros Hs E Hle. assert (Hl : (length x ≤ length a)%nat).
  { destruct (decide (length a < length x)%nat) as [Hlt|]; [|lia]. exfalso.
    assert (Hg : (x ++ f :: y) !! length a = Some g) by (rewrite E; by apply list_lookup_middle).
    assert (Hf : (x ++ f :: y) !! length x = Some f) by (by apply list_lookup_middle).
    pose proof (sorted_lookup _ _ _ _ _ _ Hs Hlt Hg Hf) as Hx. cbn in Hx. lia. }
  exists (take (length a - length x) y). apply (f_equal (take (S (length a)))) in E.
  rewrite take_app_ge in E by lia. replace (S (length a) - length x)%nat with (S (length a - length x)) in E by lia.
  cbn [take] in E. rewrite E, take_app_ge by lia. by replace (S (length a) - length a)%nat with 1%nat by lia.
Qed.

Lemma ascending_above x y a g b :
  ascending (x ++ y) → x ++ y = a ++ g :: b → Forall (λ f, f_off f ≤ f_off g) x → Forall (λ f, f_off g < f_off f) y →
  x = a ++ [g] ∧ y = b.
Proof.
  intros Hs E Hx Hy. assert (Hl : length x = S (length a)).
  { assert (Hg : (x ++ y) !! length a = Some g) by (rewrite E; by apply list_lookup_middle).
    destruct (decide (length x ≤ length a)%nat) as [Hle|Hgt].
    { exfalso. rewrite lookup_app_r in Hg by done. rewrite Forall_lookup in Hy. specialize (Hy _ _ Hg). cbn in Hy. lia. }
    destruct (decide (length x = S (length a))) as [|Hne]; [done|]. exfalso.
    destruct (lookup_lt_is_Some_2 x (S (length a))) as [f Ef]; [lia|].
    pose proof (sorted_lookup _ _ (length a) (S (length a)) g f Hs ltac:(lia) Hg ltac:(by apply lookup_app_l_Some)) as Hz. cbn in Hz.
    rewrite Forall_lookup in Hx. specialize (Hx _ _ Ef). cbn in Hx. lia. }
  apply app_inj_1; [by rewrite length_app; cbn; lia|]. by rewrite <- app_assoc.
Qed.

Section worlds.
Context `{CodecLib}.

(** ** Segments of a snapshot *)

Lemma named_apart w fss i j s s' :
  w_ok w fss → segments (w_log w) !! i = Some s → segments (w_log w) !! j = Some s' → id s = id s' → i = j.
Proof.
  intros [_ [Hnd _]] Es Es' E. eapply (NoDup_lookup (id <$> segments (w_log w)) i j (id s)); [done|..]; rewrite list_lookup_fmap;
    [by rewrite Es|by rewrite Es', E].
Qed.

Lemma find_at l fss k i s h :
  inv l fss → segments l !! i = Some s → (i < k)%nat → h < NextOffset s →
  (∀ j x, (j < i)%nat → segments l !! j = Some x → NextOffset x ≤ h) → findSegment (take k (segments l)) h = (Some s, i).
Proof.
  intros Hi Es Hk Hh Hlow. assert (Ek : take k (segments l) !! i = Some s) by (by rewrite lookup_take_lt).
  assert (Hso : StronglySorted (λ s s', NextOffset s ≤ NextOffset s') (take k (segments l))).
  { pose proof (inv_next_sorted _ _ Hi) as Hs. rewrite <- (take_drop k (segments l)) in Hs. by apply StronglySorted_app in Hs as (_ & ? & _). }
  destruct (findSegment_spec (take k (segments l)) h Hso) as [[Hall _]|(a & s' & b & E & Ha & Hs' & ->)].
  - apply Forall_take, (inv_left _ _ Hi).
  - exfalso. rewrite Forall_lookup in Hall. specialize (Hall _ _ Ek). cbn in Hall. lia.
  - assert (Es' : take k (segments l) !! length a = Some s') by (rewrite E; by apply list_lookup_middle).
    destruct (Nat.lt_trichotomy i (length a)) as [Hlt|[->|Hgt]].
    + exfalso. rewrite E, lookup_app_l in Ek by done. rewrite Forall_lookup in Ha. specialize (Ha _ _ Ek). cbn in Ha. lia.
    + rewrite Ek in Es'. injection Es' as <-. done.
    + exfalso. apply lookup_take_Some in Es' as [Es' _]. specialize (Hlow _ _ Hgt Es'). lia.
Qed.

(** The segment after the [i]th in a snapshot, when it has a record. *)
Lemma find_after_in l fss k i s s' f fs :
  inv l fss → NoDup (id <$> segments l) → segments l !! i = Some s → segments l !! S i = Some s' → (S i < k)%nat →
  fss !! S i = Some (f :: fs) → findSegmentAfter (take k (segments l)) s = Some s'.
Proof.
  intros Hi Hnd Es Es' Hk Ef. pose proof Hi as (HF & Hl & _). unfold findSegmentAfter.
  destruct (Forall2_lookup_l _ _ _ _ _ HF Es') as (fs' & Ef' & Hs'). rewrite Ef in Ef'. injection Ef' as <-.
  pose proof (seg_range _ _ _ f Hs' ltac:(left)). pose proof (sorted_lookup _ _ i (S i) s s' Hl ltac:(lia) Es Es') as Hx. cbn in Hx.
  rewrite (find_at l fss k (S i) s' (NextOffset s) Hi Es' Hk); [|lia|].
  - destruct (Z.eqb_spec (id s') (id s)) as [E|]; [|done]. exfalso. assert (S i = i); [|lia].
    eapply (NoDup_lookup (id <$> segments l) _ _ (id s)); [done|..]; rewrite list_lookup_fmap; [by rewrite Es', <- E|by rewrite Es].
  - intros j x Hj Ex. destruct (decide (j = i)) as [->|]; [rewrite Es in Ex; by injection Ex as <-|].
    pose proof (sorted_lookup _ _ j i x s (inv_next_sorted _ _ Hi) ltac:(lia) Ex Es) as Hz. by cbn in Hz.
Qed.

Lemma clamp_spec w fss raw :
  w_ok w fss → clampHW (objects w (snapshot w)) raw = Z.min raw (NextOffset (active (w_log w)) - 1).
Proof.
  intros Hw. rewrite (objects_all _ _ Hw). unfold clampHW, segments. rewrite last_snoc. destruct Hw as [(HF & _) _].
  destruct (Forall2_lookup_l _ _ _ _ _ HF (active_last w)) as (fs & _ & Hs).
  assert (Hr : 0 ≤ NextOffset (active (w_log w)) < 2 ^ 63).
  { rewrite (seg_next _ _ _ Hs). destruct Hs as (Hh & _ & _ & Hn). apply holds_frames in Hh as Hf. pose proof (next_of_base _ _ Hf). destruct Hf as (Hb & _). lia. }
  rewrite sint_small by (unfold in_sint; lia). destruct (Z.ltb_spec (NextOffset (active (w_log w)) - 1) raw); lia.
Qed.

(** ** Taking bytes *)

Context {d : Z} (o : others) (Hg : growing (D := Solid d) o).
Abbreviation later := (later (D := Solid d)).

(** A read of [n] bytes of a segment: all of them, or those there are. *)
Lemma cr_take_spec w fss c i pos n :
  w_ok w fss → cursor_at w fss c i pos → 0 < n →
  ∃ w' fss' fs c' bs err, cr_take o w c n = (w', c', Ok (bs, err)) ∧ later w fss w' fss' ∧ fss' !! i = Some fs ∧
    got (fs_bytes fs) pos n bs err ∧ (err = None → zlen bs = n) ∧ cursor_at w' fss' c' i (pos + zlen bs).
Proof.
  intros Hw Hc Hn. pose proof Hc as (s & fs & Es & Ef & Ec & Ep & Hp & E1 & E2 & Hs & post & Ed). unfold cr_take. rewrite E1, Ec.
  destruct (Z.leb_spec n bufReadSize) as [Hle|Hgt].
  - destruct (buf_read_spec o w fss c i pos n Hg Hw Hc Hn) as (w' & f' & fs' & b & bs & err & E & L & Ef' & Hgot & Hc'). rewrite E.
    eexists w', f', fs', _, bs, err. split; [reflexivity|]. split; [done|]. split; [done|]. split; [done|]. split; [|by rewrite Ec in Hc'].
    intros ->. destruct Hgot as (_ & Hm & _ & Hz). lia.
  - rewrite Ep. destruct (object_read_spec o w fss i s n pos Hg Hw Es Hn ltac:(lia)) as (w' & f' & fs' & E & L & Ef'). rewrite E.
    unfold read_spec. set (bs := take _ _). set (err := if _ <? _ then _ else _).
    destruct (later_bytes _ _ _ _ _ _ _ L Ef Ef') as (more & Em). pose proof (zlen_nonneg more).
    assert (Hzf : zlen (fs_bytes fs') = zlen (fs_bytes fs) + zlen more) by (by rewrite Em, zlen_app).
    assert (Hzb : zlen bs = Z.min n (zlen (fs_bytes fs') - pos)).
    { unfold bs, zlen in *. rewrite length_take, length_drop. lia. }
    eexists w', f', fs', _, bs, err. split; [reflexivity|]. split; [done|]. split; [done|]. split; [split|].
    + unfold bs. symmetry. apply take_zlen.
    + split; [lia|]. split; [lia|]. unfold err. destruct (Z.ltb_spec (zlen (fs_bytes fs')) (pos + n)); [|left; lia]. split; [done|]. lia.
    + split; [unfold err; destruct (Z.ltb_spec (zlen (fs_bytes fs')) (pos + n)); [done|lia]|].
      destruct (later_object _ _ _ _ _ _ Hw L Es) as (s' & Es' & Hid). exists s', fs'. cbn [c_seg c_pos c_br]. rewrite Hid.
      do 2 (split; [done|]). do 2 (split; [done|]). split; [lia|]. split; [done|]. split; [done|]. cbn [advanceTo b_bufStart b_data].
      split; [lia|]. exists (post ++ more). rewrite Em, drop_app_le by (unfold zlen in *; lia). by rewrite Ed, app_assoc.
Qed.

(** ** The mark of the watermark *)

(** The reader knows the watermark [cr_hw] as the end of the record [g] of the
    [j]th segment. *)
Definition marks (w : world) (fss : list (list frm)) (r : committedReader) (j : nat) (a : list frm) (g : frm) (b : list frm) : Prop :=
  ∃ s, segments (w_log w) !! j = Some s ∧ fss !! j = Some (a ++ g :: b) ∧ hwSeg r = Some (id s) ∧
    hwPos r = zlen (fs_bytes (a ++ [g])) ∧ f_off g = cr_hw r ∧ d ≤ cr_hw r ≤ hw (w_log w).

Lemma marks_later w fss w' fss' r j a g b :
  w_ok w fss → later w fss w' fss' → marks w fss r j a g b → ∃ b', marks w' fss' r j a g b'.
Proof.
  intros Hw L (s & Es & Ef & Eh & Ep & Eo & Hd). destruct (later_object _ _ _ _ _ _ Hw L Es) as (s' & Es' & Hid).
  destruct (lt_frames _ _ _ _ L _ _ Ef) as (new & Ef' & _). exists (b ++ new), s'. rewrite Hid. pose proof (lt_hw _ _ _ _ L).
  rewrite Ef', <- app_assoc. split; [done|]. do 4 (split; [done|]). lia.
Qed.

(** The end of a record that is there, by the segments of a snapshot. *)
Lemma getHWPos_at fuel w fss ps j fs f :
  2 ^ 26 ≤ Z.of_nat fuel → w_ok w fss → ps `prefix_of` snapshot w → (j < length ps)%nat → fss !! j = Some fs → f ∈ fs →
  ∃ w' fss' s a g b, getHWPos fuel o w ps (f_off f) = Some (w', Ok (id s, zlen (fs_bytes (a ++ [g])))) ∧
    later w fss w' fss' ∧ segments (w_log w') !! j = Some s ∧ fss' !! j = Some (a ++ g :: b) ∧ f_off g = f_off f.
Proof.
  intros Hfu Hw Hps Hj Ef Hin. unfold getHWPos. rewrite (objects_prefix _ _ _ Hw Hps). pose proof Hw as [Hi _]. pose proof Hi as (HF & Hl & _).
  destruct (Forall2_lookup_r _ _ _ _ _ HF Ef) as (s & Es & Hs). pose proof (seg_range _ _ _ f Hs Hin) as Hr.
  rewrite (find_at _ _ _ _ _ (f_off f) Hi Es Hj); [|lia|].
  2: { intros k x Hk Ex. pose proof (sorted_lookup _ _ k j x s Hl Hk Ex Es) as Hx. cbn in Hx. lia. }
  cbn [fst]. destruct (object_find_spec fuel o w fss j s (f_off f) Hfu Hg Hw Es) as (w' & f' & a & g & b & e & -> & L & Ef' & Ep & _ & Ez & Ha & Hb);
    [lia|].
  destruct (later_object _ _ _ _ _ _ Hw L Es) as (s' & Es' & Hid). exists w', f', s', a, g, b.
  split; [by rewrite Hid, Ep, Ez, zlen_fs_snoc|]. split; [done|]. split; [done|]. split; [done|].
  destruct (lt_frames _ _ _ _ L _ _ Ef) as (new & E & _). rewrite Ef' in E. injection E as E.
  assert (Hx : f ∈ a ++ g :: b) by (rewrite E; apply elem_of_app; by left). rewrite Forall_forall in Ha. apply Forall_cons in Hb as [Hg' _].
  apply elem_of_app in Hx as [Hx|Hx]; [specialize (Ha _ Hx); cbn in Ha; lia|]. apply elem_of_cons in Hx as [->|Hx]; [done|].
  pose proof (lt_ok _ _ _ _ L) as [(HF' & _) _]. destruct (Forall2_lookup_r _ _ _ _ _ HF' Ef') as (s2 & _ & Hs2).
  pose proof (holds_ascending _ _ (proj1 Hs2)) as Hasc. apply StronglySorted_app in Hasc as (_ & _ & Hasc).
  apply StronglySorted_cons in Hasc as [Hasc _]. rewrite Forall_forall in Hasc. specialize (Hasc _ Hx). cbn in Hasc. lia.
Qed.

Lemma getHWPos_spec fuel w fss h :
  2 ^ 26 ≤ Z.of_nat fuel → w_ok w fss → solid d w fss → d ≤ h < NextOffset (active (w_log w)) →
  ∃ w' fss' j s a g b, getHWPos fuel o w (snapshot w) h = Some (w', Ok (id s, zlen (fs_bytes (a ++ [g])))) ∧
    later w fss w' fss' ∧ segments (w_log w') !! j = Some s ∧ fss' !! j = Some (a ++ g :: b) ∧ f_off g = h ∧
    (j < length (snapshot w))%nat.
Proof.
  intros Hfu Hw (_ & _ & Hd) Hh. destruct (Hd h Hh) as (f & (j & fs & Ef & Hin)%elem_of_concat & <-).
  assert (Hj : (j < length (snapshot w))%nat).
  { pose proof Hw as [(HF & _) _]. apply lookup_lt_Some in Ef. unfold snapshot. by rewrite length_fmap, (Forall2_length _ _ _ HF). }
  destruct (getHWPos_at fuel w fss (snapshot w) j fs f Hfu Hw ltac:(done) Hj Ef Hin) as (w' & f' & s & a & g & b & E & L & Es & Ef' & Eo).
  by exists w', f', j, s, a, g, b.
Qed.

(** ** Waiting for the watermark *)

Lemma put_waiters_later w fss h ws rl :
  h = hw (w_log w) → w_ok w fss → later w fss (put_log w (with_hw (w_log w) h ws rl)) fss.
Proof.
  intros -> [Hi Hnd]. split; [split; [exact Hi|exact Hnd]|done|done|apply stretches_refl|done|done].
Qed.

Lemma waitHW_later w fss r h w' x :
  w_ok w fss → cr_waitForHW o w r h = (w', x) →
  x ≠ Panic ∧ (∀ e, x = Fail e → ends_with o e) ∧ ∃ fss', later w fss w' fss'.
Proof.
  intros Hw E. unfold cr_waitForHW in E. destruct (Hg w fss Hw) as (f1 & L1). set (w1 := turn o w) in *.
  pose proof (lt_ok _ _ _ _ L1) as Hw1.
  destruct (waitForHW (w_log w1) (cr_self r) h) as [l ans] eqn:Ea.
  assert (L2 : later w1 f1 (put_log w1 l) f1).
  { unfold waitForHW in Ea. destruct (negb _); [injection Ea as <- _; destruct w1; by apply later_refl|].
    destruct (_ && _); [injection Ea as <- _; destruct w1; by apply later_refl|]. injection Ea as <- _. by apply put_waiters_later. }
  destruct (Hg _ _ (lt_ok _ _ _ _ L2)) as (f3 & L3). set (w3 := turn o (put_log w1 l)) in *.
  pose proof (later_trans _ _ _ _ _ _ L1 (later_trans _ _ _ _ _ _ L2 L3)) as L.
  assert (L4 : later w fss (put_log w3 (removeHWWaiter (w_log w3) (cr_self r))) f3).
  { apply (later_trans _ _ _ _ _ _ L). apply put_waiters_later; [done|]. apply (lt_ok _ _ _ _ L). }
  destruct (o_wake _ _ _) eqn:Ewk; injection E as <- <-.
  - split; [by destruct (match ans with Some _ => _ | None => _ end)|]. split; [|by exists f3]. intros e.
    destruct (match ans with Some _ => _ | None => _ end); [|done]. intros [= <-]. right. by left.
  - split; [done|]. split; [|by exists f3]. intros e [= <-]. by left.
  - split; [done|]. split; [|by exists f3]. intros e' [= <-]. right. right. by eexists _, _.
Qed.

(** There was a moment at which every committed record was at or below [h]. *)
Definition caught_up (h : Z) (w : world) (fss : list (list frm)) (w' : world) (fss' : list (list frm)) : Prop :=
  ∃ w1 fss1, later w fss w1 fss1 ∧ later w1 fss1 w' fss' ∧ ∀ f, f ∈ concat fss1 → f_off f ≤ hw (w_log w1) → f_off f ≤ h.

Lemma caught_up_later h w0 f0 w fss w' fss' w2 f2 :
  later w0 f0 w fss → caught_up h w fss w' fss' → later w' fss' w2 f2 → caught_up h w0 f0 w2 f2.
Proof.
  intros L (w1 & f1 & La & Lb & Hf) L2. exists w1, f1. split; [by eapply later_trans|]. split; [by eapply later_trans|done].
Qed.

(** What the reader knows of the log. *)
Definition informed (w : world) (fss : list (list frm)) (r : committedReader) : Prop :=
  w_ok w fss ∧ solid d w fss ∧ d ≤ cr_hw r ≤ hw (w_log w) ∧ cr_hw r < NextOffset (active (w_log w)).

Lemma informed_later w fss w' fss' r : later w fss w' fss' → informed w fss r → informed w' fss' r.
Proof.
  intros L (Hw & Hs & Hr & Hn). pose proof (lt_hw _ _ _ _ L). pose proof (next_grows _ _ _ _ Hw L).
  split; [apply (lt_ok _ _ _ _ L)|]. split; [by apply (lt_promise _ _ _ _ L)|]. lia.
Qed.

(** One look at the watermark. *)
Lemma sync_round fuel w fss r :
  informed w fss r →
  ∃ w1 f1, later w fss w1 f1 ∧
    ((∃ raw, sync_loop (S fuel) o w r = Some (w1, Ok (raw, snapshot w1)) ∧ raw ≤ hw (w_log w1) ∧
        cr_hw r < Z.min raw (NextOffset (active (w_log w1)) - 1)) ∨
     (∃ raw, Z.min (hw (w_log w)) (NextOffset (active (w_log w)) - 1) = cr_hw r ∧ caught_up (cr_hw r) w fss w1 f1 ∧
        sync_loop (S fuel) o w r =
        if cr_noWait r then Some (w1, Fail ErrEOF)
        else match cr_waitForHW o w1 r raw with
             | (w, Ok _) => sync_loop fuel o w r
             | (w, Fail e) => Some (w, Fail e)
             | (w, Panic) => Some (w, Panic)
             end)).
Proof.
  intros Hi. pose proof Hi as (Hw & Hs & Hr & Hn). cbn [sync_loop].
  destruct (Hg w fss Hw) as (f1 & L1). set (w1 := turn o w) in *. pose proof (lt_ok _ _ _ _ L1) as Hw1.
  destruct (Hg w1 f1 Hw1) as (f2 & L2). set (w2 := turn o w1) in *. pose proof (lt_ok _ _ _ _ L2) as Hw2.
  pose proof (later_trans _ _ _ _ _ _ L1 L2) as L. pose proof (lt_hw _ _ _ _ L1) as Hh1. pose proof (lt_hw _ _ _ _ L2) as Hh2.
  pose proof (next_grows _ _ _ _ Hw L) as Hn2. exists w2, f2. split; [done|]. unfold HighWatermark in *. rewrite (clamp_spec w2 f2 _ Hw2).
  destruct (Z.eqb_spec (Z.min (hw (w_log w1)) (NextOffset (active (w_log w2)) - 1)) (cr_hw r)) as [E|E]; cbn [negb].
  - right. exists (hw (w_log w1)). split; [lia|]. split; [|done]. exists w1, f1. split; [done|]. split; [done|]. intros f Hf Hle.
    pose proof (record_below _ _ _ Hw2 (record_stays _ _ _ _ _ L2 Hf)). lia.
  - left. exists (hw (w_log w1)). split; [done|]. lia.
Qed.

Lemma sync_loop_spec fuel w fss r w' x :
  informed w fss r → sync_loop fuel o w r = Some (w', x) →
  ∃ fss', later w fss w' fss' ∧
    match x with
    | Ok (raw, ps) => ps = snapshot w' ∧ raw ≤ hw (w_log w') ∧ cr_hw r < Z.min raw (NextOffset (active (w_log w')) - 1)
    | Fail e => ends_with o e ∧ (cr_noWait r = true → e = ErrEOF ∧ caught_up (cr_hw r) w fss w' fss')
    | Panic => False
    end.
Proof.
  revert w fss. induction fuel as [|fuel IH]; intros w fss Hi E; [done|].
  destruct (sync_round fuel w fss r Hi) as (w1 & f1 & L1 & [(raw & E1 & Hr & Hm)|(raw & _ & Hc & E1)]); rewrite E1 in E.
  { injection E as <- <-. by exists f1. }
  destruct (cr_noWait r) eqn:Hnw; [injection E as <- <-; exists f1; split; [done|]; split; [by left|done]|].
  destruct (cr_waitForHW o w1 r raw) as [w2 y] eqn:Ew. destruct (waitHW_later _ _ _ _ _ _ (lt_ok _ _ _ _ L1) Ew) as (Hy & Hends & f2 & L2).
  pose proof (later_trans _ _ _ _ _ _ L1 L2) as L. destruct y as [[]|e|]; [|injection E as <- <-; exists f2; split; [done|]; split; [by apply Hends|done]|done].
  destruct (IH w2 f2 (informed_later _ _ _ _ _ L Hi) E) as (f3 & L3 & Hx). exists f3. split; [by eapply later_trans|].
  destruct x as [[raw' ps]|e|]; [done| |done]. by destruct Hx.
Qed.

(** The reader with a new mark. *)
Definition remarked (r : committedReader) (h raw : Z) (p : Z) (pos : Z) : committedReader :=
  {| cr_self := cr_self r; cr_cur := cr_cur r; hwSeg := Some p; hwPos := pos; cr_hw := h; rawHW := raw; cr_noWait := cr_noWait r |}.

(** The fuel of a watermark search. *)
Definition rounds (fuel : nat) : Prop := 2 ^ 26 < Z.of_nat fuel.

(** After the loop: the new mark. *)
Lemma remark fuel w fss r raw w1 f1 :
  rounds fuel → informed w fss r → later w fss w1 f1 → sync_loop fuel o w r = Some (w1, Ok (raw, snapshot w1)) →
  raw ≤ hw (w_log w1) → cr_hw r < Z.min raw (NextOffset (active (w_log w1)) - 1) →
  ∃ w' fss' h p pos j a g b, syncHW fuel o w r = Some (w', remarked r h raw p pos, Ok (snapshot w1)) ∧ later w fss w' fss' ∧
    marks w' fss' (remarked r h raw p pos) j a g b ∧ cr_hw r < h ∧ snapshot w1 `prefix_of` snapshot w' ∧ (j < length (snapshot w1))%nat.
Proof.
  intros Hfu Hi L E Hr Hm. pose proof (lt_ok _ _ _ _ L) as Hw1. destruct (informed_later _ _ _ _ _ L Hi) as (_ & Hs1 & Hh1 & _).
  unfold syncHW. rewrite E. cbn [mbind option_bind]. rewrite (clamp_spec w1 f1 _ Hw1). set (h := Z.min _ _) in *.
  destruct (getHWPos_spec fuel w1 f1 h) as (w2 & f2 & j & s & a & g & b & E2 & L2 & Es & Ef & Eo & Hj);
    [unfold rounds in Hfu; lia|done|done|lia|].
  rewrite E2. cbn [mbind option_bind]. eexists w2, f2, h, (id s), _, j, a, g, b. split; [reflexivity|].
  split; [by eapply later_trans|]. split; [|split; [lia|split; [apply (lt_ids _ _ _ _ L2)|done]]].
  exists s. pose proof (lt_hw _ _ _ _ L2). do 4 (split; [done|]). split; [done|]. cbn [remarked cr_hw]. lia.
Qed.

Lemma sync_spec fuel w fss r w' r' x :
  rounds fuel → informed w fss r → syncHW fuel o w r = Some (w', r', x) →
  ∃ fss', later w fss w' fss' ∧
    match x with
    | Ok ps => ∃ h raw p pos j a g b, r' = remarked r h raw p pos ∧ marks w' fss' r' j a g b ∧ cr_hw r < h ∧
        ps `prefix_of` snapshot w' ∧ (j < length ps)%nat
    | Fail e => r' = r ∧ ends_with o e ∧ (cr_noWait r = true → e = ErrEOF ∧ caught_up (cr_hw r) w fss w' fss')
    | Panic => False
    end.
Proof.
  intros Hfu Hi E. destruct (sync_loop fuel o w r) as [[w1 y]|] eqn:E1; [|unfold syncHW in E; by rewrite E1 in E].
  destruct (sync_loop_spec _ _ _ _ _ _ Hi E1) as (f1 & L1 & Hy). destruct y as [[raw ps]|e|]; [| |done].
  - destruct Hy as (-> & Hr & Hm).
    destruct (remark fuel w fss r raw w1 f1 Hfu Hi L1 E1 Hr Hm) as (w2 & f2 & h & p & pos & j & a & g & b & E2 & L2 & Hk & Hh & Hp & Hj).
    rewrite E2 in E. injection E as <- <- <-. exists f2. split; [done|]. by exists h, raw, p, pos, j, a, g, b.
  - unfold syncHW in E. rewrite E1 in E. injection E as <- <- <-. by exists f1.
Qed.

(** A committed record above the mark is noticed at once. *)
Lemma sync_ready fuel w fss r :
  rounds fuel → informed w fss r → cr_hw r < Z.min (hw (w_log w)) (NextOffset (active (w_log w)) - 1) →
  ∃ w' r' ps, syncHW fuel o w r = Some (w', r', Ok ps).
Proof.
  intros Hfu Hi Hlt. destruct fuel as [|fuel]; [unfold rounds in Hfu; lia|].
  destruct (sync_round fuel w fss r Hi) as (w1 & f1 & L1 & [(raw & E1 & Hr & Hm)|(raw & Hx & _)]); [|lia].
  destruct (remark (S fuel) w fss r raw w1 f1 Hfu Hi L1 E1 Hr Hm) as (w2 & f2 & h & p & pos & j & a & g & b & E2 & _).
  rewrite E2. by eexists _, _, _.
Qed.

Lemma sync_ends fuel w fss r :
  rounds fuel → informed w fss r → cr_noWait r = true → ∃ res, syncHW fuel o w r = Some res.
Proof.
  intros Hfu Hi Hnw. destruct fuel as [|fuel]; [unfold rounds in Hfu; lia|].
  destruct (sync_round fuel w fss r Hi) as (w1 & f1 & L1 & [(raw & E1 & Hr & Hm)|(raw & _ & _ & E1)]).
  - destruct (remark (S fuel) w fss r raw w1 f1 Hfu Hi L1 E1 Hr Hm) as (w2 & f2 & h & p & pos & j & a & g & b & E2 & _).
    rewrite E2. by eexists.
  - rewrite Hnw in E1. unfold syncHW. rewrite E1. by eexists.
Qed.

(** ** A round of the loop *)

(** The cursor after the records [x] of the [i]th segment, at or below the mark. *)
Definition stands (w : world) (fss : list (list frm)) (r : committedReader) (i : nat) (x y : list frm)
    (j : nat) (a : list frm) (g : frm) (b : list frm) : Prop :=
  fss !! i = Some (x ++ y) ∧ cursor_at w fss (cr_cur r) i (zlen (fs_bytes x)) ∧ marks w fss r j a g b ∧
  (i ≤ j)%nat ∧ Forall (λ f, f_off f ≤ cr_hw r) x.

Lemma marks_informed w fss r j a g b : w_ok w fss → solid d w fss → marks w fss r j a g b → informed w fss r.
Proof.
  intros Hw Hs (s & Es & Ef & _ & _ & Eo & Hd). split; [done|]. split; [done|]. split; [done|]. rewrite <- Eo. apply (record_below w fss g Hw).
  apply elem_of_concat. exists j, (a ++ g :: b). split; [done|]. apply elem_of_app. right. left.
Qed.

Lemma lim_at w fss r i pos j a g b n :
  w_ok w fss → cursor_at w fss (cr_cur r) i pos → marks w fss r j a g b →
  cr_lim r n = if decide (i = j) then Z.min n (hwPos r - pos) else n.
Proof.
  intros Hw (s & fs & Es & _ & Ec & Ep & _) (s' & Es' & _ & Eh & _). unfold cr_lim. rewrite Eh, Ec, Ep. case_decide as Hij.
  - subst j. rewrite Es in Es'. injection Es' as <-. by rewrite bool_decide_eq_true_2.
  - rewrite bool_decide_eq_false_2; [done|]. intros [=E]. by destruct Hij; eapply named_apart.
Qed.

Lemma segment_ascending w fss i fs : w_ok w fss → fss !! i = Some fs → ascending fs.
Proof. intros [(HF & _) _] Ef. destruct (Forall2_lookup_r _ _ _ _ _ HF Ef) as (s & _ & Hh & _). by eapply holds_ascending. Qed.

(** Records of an earlier segment come before. *)
Lemma earlier_segment w fss i j fs fs' f f' :
  w_ok w fss → (i < j)%nat → fss !! i = Some fs → fss !! j = Some fs' → f ∈ fs → f' ∈ fs' → f_off f < f_off f'.
Proof.
  intros [(HF & Hl & _) _] Hij Ef Ef' Hf Hf'. destruct (Forall2_lookup_r _ _ _ _ _ HF Ef) as (s & Es & Hs).
  destruct (Forall2_lookup_r _ _ _ _ _ HF Ef') as (s' & Es' & Hs').
  pose proof (seg_range _ _ _ f Hs Hf). pose proof (seg_range _ _ _ f' Hs' Hf').
  pose proof (sorted_lookup _ _ _ _ _ _ Hl Hij Es Es') as Hx. cbn in Hx. lia.
Qed.

(** What is before the reader: a record at or below the mark, the end of a
    segment before that of the mark, or the mark. *)
Lemma stands_cases w fss r i x y j a g b :
  w_ok w fss → stands w fss r i x y j a g b →
  (∃ f q, y = f :: q ∧ f_off f ≤ cr_hw r ∧ (i = j → zlen (fs_bytes (x ++ [f])) ≤ hwPos r)) ∨
  (y = [] ∧ (i < j)%nat) ∨ (i = j ∧ x = a ++ [g] ∧ y = b).
Proof.
  intros Hw (Ef & _ & (s & Es & Eg & _ & Ep & Eo & _) & Hij & Hx). destruct (decide (i = j)) as [->|Hne].
  - rewrite Ef in Eg. injection Eg as E. pose proof (segment_ascending _ _ _ _ Hw Ef) as Hasc.
    assert (Hhead : (∃ f q, y = f :: q ∧ f_off f ≤ cr_hw r) ∨ ∀ f q, y = f :: q → cr_hw r < f_off f).
    { destruct y as [|f q]; [by right|]. destruct (decide (f_off f ≤ cr_hw r)); [left; by exists f, q|right]. intros ? ? [=<- <-]. lia. }
    destruct Hhead as [(f & q & -> & Hle)|Hno].
    + left. exists f, q. split; [done|]. split; [done|]. intros _. destruct (ascending_below x f q a g b Hasc E) as (t & Et); [lia|].
      rewrite Ep, Et. replace (x ++ f :: t) with ((x ++ [f]) ++ t) by (by rewrite <- app_assoc). rewrite (fs_bytes_app (x ++ [f])), zlen_app. pose proof (zlen_nonneg (fs_bytes t)). lia.
    + right. right. split; [done|]. apply (ascending_above x y a g b Hasc E); rewrite Eo; [done|]. destruct y as [|f q]; [constructor|].
      pose proof (Hno f q eq_refl) as Hf.
      apply StronglySorted_app in Hasc as (_ & _ & Hasc). apply StronglySorted_cons in Hasc as [Hasc _]. constructor; [done|].
      eapply Forall_impl; [exact Hasc|]. cbn. lia.
  - destruct y as [|f q]; [right; left; split; [done|lia]|]. left. exists f, q. split; [done|]. split; [|done]. rewrite <- Eo.
    assert (f_off f < f_off g); [|lia]. apply (earlier_segment w fss i j _ _ f g Hw ltac:(lia) Ef Eg); apply elem_of_app; right; left.
Qed.

(** What the loop does when it looks for a new mark. *)
Definition sync_then (fuel : nat) (w : world) (r : committedReader) : option (world * committedReader * outcome bytes) :=
  '(w, r, x) ← syncHW fuel o w r;
  match x with
  | Ok ps => readLoop fuel o w r ps 32 []
  | Fail e => Some (w, r, Fail e)
  | Panic => Some (w, r, Panic)
  end.

Lemma take_here w fss c i pos n fs :
  w_ok w fss → cursor_at w fss c i pos → fss !! i = Some fs → 0 < n → pos + n ≤ zlen (fs_bytes fs) →
  ∃ w' fss' c', cr_take o w c n = (w', c', Ok (part (fs_bytes fs) pos n, None)) ∧ later w fss w' fss' ∧ cursor_at w' fss' c' i (pos + n).
Proof.
  intros Hw Hc Ef Hn Hle. pose proof (cursor_pos _ _ _ _ _ _ Hc Ef).
  destruct (cr_take_spec w fss c i pos n Hw Hc Hn) as (w1 & f1 & fs1 & c1 & bs & err & E & L & Ef1 & Hgot & Hall & Hc1).
  destruct (later_bytes _ _ _ _ _ _ _ L Ef Ef1) as (more & Em). pose proof (zlen_nonneg more). destruct Hgot as (Hbs & Hm & He & Herr).
  destruct err as [e|]; [destruct Herr as (_ & ? & Hz); rewrite Em, zlen_app in Hz; lia|]. rewrite (Hall eq_refl) in *.
  exists w1, f1, c1. rewrite E. split; [|done]. fold (part (fs_bytes fs1) pos n) in Hbs. rewrite Em, part_grow in Hbs by lia. by rewrite Hbs.
Qed.

Lemma loop_here fuel w fss r ps i pos n acc fs :
  w_ok w fss → cursor_at w fss (cr_cur r) i pos → fss !! i = Some fs → 0 < n → pos + n ≤ zlen (fs_bytes fs) → cr_lim r n = n →
  ∃ w' fss' c, readLoop (S fuel) o w r ps n acc = Some (w', cr_at r c, Ok (acc ++ part (fs_bytes fs) pos n)) ∧
    later w fss w' fss' ∧ cursor_at w' fss' c i (pos + n).
Proof.
  intros Hw Hc Ef Hn Hle Hl. pose proof (cursor_pos _ _ _ _ _ _ Hc Ef).
  destruct (take_here w fss (cr_cur r) i pos n fs Hw Hc Ef Hn Hle) as (w' & f' & c' & E & L & Hc'). exists w', f', c'. split; [|done].
  cbn [readLoop]. rewrite Hl, (proj2 (Z.leb_gt _ _)), E, zlen_part by lia. by rewrite Z.sub_diag.
Qed.

Lemma cr_round fuel w fss r ps i x y j a g b :
  w_ok w fss → stands w fss r i x y j a g b → ps `prefix_of` snapshot w → (j < length ps)%nat →
  (∃ w1 f1 c f q, readLoop (S fuel) o w r ps 32 [] = Some (w1, cr_at r c, Ok (header f)) ∧ later w fss w1 f1 ∧
     f1 !! i = Some (x ++ f :: q) ∧ cursor_at w1 f1 c i (zlen (fs_bytes x) + 32) ∧ f_off f ≤ cr_hw r ∧
     (i = j → zlen (fs_bytes (x ++ [f])) ≤ hwPos r)) ∨
  (y = [] ∧ (i < j)%nat ∧ ∃ w1 f1 s', later w fss w1 f1 ∧ f1 !! i = Some x ∧ segments (w_log w1) !! S i = Some s' ∧
     readLoop (S fuel) o w r ps 32 [] = readLoop fuel o w1 (cr_at r (seekTo (Some (id s')) 0)) ps 32 []) ∨
  (i = j ∧ x = a ++ [g] ∧ y = b ∧ readLoop (S fuel) o w r ps 32 [] = sync_then fuel w r).
Proof.
  intros Hw Hst Hps Hj. pose proof Hst as (Ef & Hc & Hm & Hij & Hx). pose proof (lim_at _ _ _ _ _ _ _ _ _ 32 Hw Hc Hm) as Hlim.
  destruct (stands_cases _ _ _ _ _ _ _ _ _ _ Hw Hst) as [(f & q & -> & Hle & Hend)|[[-> Hlt]|(-> & Ex & Ey)]].
  - left. assert (Hl : cr_lim r 32 = 32).
    { rewrite Hlim. case_decide as E; [|done]. specialize (Hend E). pose proof (fits_header x f []). lia. }
    destruct (loop_here fuel w fss r ps i _ 32 [] _ Hw Hc Ef ltac:(lia) (fits_header x f q) Hl) as (w1 & f1 & c & E & L & Hc1).
    destruct (lt_frames _ _ _ _ L _ _ Ef) as (new & Ef1 & _). exists w1, f1, c, f, (q ++ new).
    split; [rewrite E; cbn [app]; by rewrite header_part|]. split; [done|]. split; [by rewrite Ef1, <- app_assoc|]. done.
  - right. left. split; [done|]. split; [done|]. rewrite app_nil_r in Ef. case_decide as Hne; [lia|]. clear Hne.
    destruct (cr_take_spec w fss (cr_cur r) i _ 32 Hw Hc ltac:(lia)) as (w1 & f1 & fs1 & c1 & bs & err & E & L & Ef1 & Hgot & Hall & Hc1).
    destruct Hm as (sj & Esj & Eg & _). assert (Hlen : (j < length fss)%nat) by (by apply lookup_lt_Some in Eg).
    assert (Hstill : ∀ w' f', later w fss w' f' → f' !! i = Some x).
    { intros w' f' L'. destruct (lt_frames _ _ _ _ L' _ _ Ef) as (new & E' & Hn). rewrite E', Hn, app_nil_r by lia. done. }
    rewrite (Hstill _ _ L) in Ef1. injection Ef1 as <-. destruct Hgot as (Hbs & Hmx & Hend & Herr).
    destruct err as [e|]; [|specialize (Hall eq_refl); lia]. destruct Herr as (-> & _ & Hz). assert (zlen bs = 0) as Hz0 by lia.
    destruct (Hg w1 f1 (lt_ok _ _ _ _ L)) as (f2 & L2). set (w2 := turn o w1) in *. pose proof (later_trans _ _ _ _ _ _ L L2) as L02.
    pose proof (lt_ok _ _ _ _ L2) as Hw2. destruct (cursor_later _ _ _ _ _ _ _ (lt_ok _ _ _ _ L) L2 Hc1) as (s2 & _ & Es2 & _ & Ec2 & _).
    destruct (later_object _ _ _ _ _ _ Hw L02 Esj) as (sj2 & Esj2 & _).
    destruct (lookup_lt_is_Some_2 (segments (w_log w2)) (S i)) as [s' Es']; [apply lookup_lt_Some in Esj2; lia|].
    exists w2, f2, s'. split; [done|]. split; [by apply (Hstill w2)|]. split; [done|].
    assert (Hnext : ∃ h fs, f2 !! S i = Some (h :: fs)).
    { destruct (lookup_lt_is_Some_2 fss (S i) ltac:(lia)) as [fs0 E0]. assert (fs0 ≠ []) as Hfs0.
      { destruct (decide (S i = j)) as [<-|]; [rewrite E0 in Eg; injection Eg as ->; by destruct a|].
        destruct Hw as [(_ & _ & _ & _ & _ & Hfull) _]. rewrite Forall_lookup in Hfull. apply (Hfull (S i)).
        rewrite removelast_firstn_len, lookup_take_lt by lia. done. }
      destruct (lt_frames _ _ _ _ L02 _ _ E0) as (new & E2 & _). destruct fs0 as [|h fs0]; [done|]. by exists h, (fs0 ++ new). }
    destruct Hnext as (h & fs & Efn). cbn [readLoop]. rewrite Hlim, E, Hz0, Z.sub_0_r. cbn [Z.leb Z.compare Z.eqb Z.ltb andb].
    fold w2. cbn [cr_at cr_cur]. rewrite Ec2. cbn [mbind option_bind]. rewrite (object_in _ _ _ _ Hw2 Es2), (objects_prefix w2 f2 ps Hw2).
    2: { transitivity (snapshot w); [done|]. apply (lt_ids _ _ _ _ L02). }
    destruct Hw2 as [Hi2 [Hnd2 _]]. rewrite (find_after_in _ _ (length ps) _ _ _ _ _ Hi2 Hnd2 Es2 Es' ltac:(lia) Efn).
    assert (bs = []) as ->; [|done]. destruct bs; [done|]. unfold zlen in Hz0. cbn in Hz0. lia.
  - right. right. do 3 (split; [done|]). rewrite decide_True in Hlim by done. destruct Hm as (_ & _ & _ & _ & Ep & _).
    rewrite Ep, Ex, Z.sub_diag in Hlim. cbn [readLoop]. by rewrite Hlim.
Qed.

(** ** The header of the next record *)

(** The reader [r0] with its cursor at [pos], up to the end of the record [f]
    that is at or below the mark. *)
Definition c_within (i : nat) (a : list frm) (f : frm) (r0 : committedReader)
    (w : world) (fss : list (list frm)) (r : contextReader) (pos : Z) : Prop :=
  w_ok w fss ∧ solid d w fss ∧ (∃ more, fss !! i = Some (a ++ f :: more)) ∧
  (∃ c, r = Committed (cr_at r0 c) ∧ cursor_at w fss c i pos) ∧
  Forall (λ f, f_off f ≤ cr_hw r0) (a ++ [f]) ∧
  ∃ j a' g b', marks w fss r0 j a' g b' ∧ (i ≤ j)%nat ∧ (i = j → zlen (fs_bytes (a ++ [f])) ≤ hwPos r0).

(** Standing after [seen], all at or below the mark. *)
Definition cr_seen (w : world) (fss : list (list frm)) (r : committedReader) (seen : list frm) : Prop :=
  w_ok w fss ∧ solid d w fss ∧ ∃ i x y j a g b, stands w fss r i x y j a g b ∧ seen = concat (take i fss) ++ x.

Lemma seen_stays w fss w' fss' i fs x :
  later w fss w' fss' → fss !! i = Some fs → concat (take i fss') ++ x = concat (take i fss) ++ x.
Proof. intros L Ei. by rewrite (stretches_take _ _ i (lt_frames _ _ _ _ L)) by (by apply lookup_lt_Some in Ei). Qed.

Lemma cr_seen_later w fss w' fss' r seen : later w fss w' fss' → cr_seen w fss r seen → cr_seen w' fss' r seen.
Proof.
  intros L (Hw & Hs & i & x & y & j & a & g & b & (Ef & Hc & Hm & Hij & Hx) & ->).
  split; [apply (lt_ok _ _ _ _ L)|]. split; [by apply (lt_promise _ _ _ _ L)|]. destruct (lt_frames _ _ _ _ L _ _ Ef) as (new & Ef' & _).
  destruct (marks_later _ _ _ _ _ _ _ _ _ Hw L Hm) as (b' & Hm'). exists i, x, (y ++ new), j, a, g, b'.
  split; [|symmetry; by eapply seen_stays]. split; [by rewrite app_assoc|]. split; [by eapply cursor_later|]. done.
Qed.

(** What a header read leaves: the reader within the record that follows [seen]. *)
Definition header_of (w : world) (fss : list (list frm)) (seen : list frm) (r : committedReader)
    (res : option (world * committedReader * outcome bytes)) : Prop :=
  ∃ w' fss' c i a f, res = Some (w', cr_at r c, Ok (header f)) ∧ later w fss w' fss' ∧ seen = concat (take i fss') ++ a ∧
    c_within i a f r w' fss' (Committed (cr_at r c)) (zlen (fs_bytes a) + 32).

Lemma header_here w fss r i x y j a g b w1 f1 c f q :
  w_ok w fss → solid d w fss → stands w fss r i x y j a g b → later w fss w1 f1 → f1 !! i = Some (x ++ f :: q) →
  cursor_at w1 f1 c i (zlen (fs_bytes x) + 32) → f_off f ≤ cr_hw r → (i = j → zlen (fs_bytes (x ++ [f])) ≤ hwPos r) →
  header_of w fss (concat (take i fss) ++ x) r (Some (w1, cr_at r c, Ok (header f))).
Proof.
  intros Hw Hs (Ef & _ & Hm & Hij & Hx) L Ef1 Hc Hle Hend. exists w1, f1, c, i, x, f. split; [done|]. split; [done|].
  split; [symmetry; by eapply seen_stays|]. split; [apply (lt_ok _ _ _ _ L)|]. split; [by apply (lt_promise _ _ _ _ L)|].
  split; [by exists q|]. split; [by exists c|]. split; [by apply Forall_app; split; [|constructor]|].
  destruct (marks_later _ _ _ _ _ _ _ _ _ Hw L Hm) as (b' & Hm'). by exists j, a, g, b'.
Qed.

(** The reader moved on to the next segment. *)
Lemma stands_next w fss r i x j a g b w1 f1 s' :
  w_ok w fss → stands w fss r i x [] j a g b → (i < j)%nat → later w fss w1 f1 → f1 !! i = Some x →
  segments (w_log w1) !! S i = Some s' →
  ∃ y b', y ≠ [] ∧ stands w1 f1 (cr_at r (seekTo (Some (id s')) 0)) (S i) [] y j a g b' ∧
    concat (take (S i) f1) ++ [] = concat (take i fss) ++ x.
Proof.
  intros Hw (Ef & _ & Hm & _ & _) Hlt L Ef1 Es'. pose proof (lt_ok _ _ _ _ L) as Hw1.
  destruct (seen_next w1 f1 i x s' Hw1 Ef1 Es') as (y & Ey & Et & Hc). destruct (marks_later _ _ _ _ _ _ _ _ _ Hw L Hm) as (b' & Hm').
  exists y, b'. split; [|split].
  - destruct Hm' as (_ & _ & Eg & _). destruct (decide (S i = j)) as [<-|]; [rewrite Ey in Eg; injection Eg as ->; by destruct a|].
    destruct Hw1 as [(_ & _ & _ & _ & _ & Hfull) _]. rewrite Forall_lookup in Hfull. apply (Hfull (S i)).
    rewrite removelast_firstn_len, lookup_take_lt by (apply lookup_lt_Some in Eg; lia). done.
  - do 2 (split; [done|]). split; [done|]. split; [lia|constructor].
  - rewrite app_nil_r, Et. by eapply seen_stays.
Qed.

(** A record at or below the mark is found at once. *)
Lemma loop_ahead fuel w fss r ps i x y j a g b :
  w_ok w fss → solid d w fss → stands w fss r i x y j a g b → ps `prefix_of` snapshot w → (j < length ps)%nat →
  ¬ (i = j ∧ x = a ++ [g]) → header_of w fss (concat (take i fss) ++ x) r (readLoop (S (S fuel)) o w r ps 32 []).
Proof.
  intros Hw Hs Hst Hps Hj Hno.
  destruct (cr_round (S fuel) w fss r ps i x y j a g b Hw Hst Hps Hj)
    as [(w1 & f1 & c & f & q & -> & L & Ef1 & Hc & Hle & Hend)|[(-> & Hlt & w1 & f1 & s' & L & Ef1 & Es' & ->)|(? & ? & _)]].
  - by eapply header_here.
  - destruct (stands_next _ _ _ _ _ _ _ _ _ _ _ _ Hw Hst Hlt L Ef1 Es') as (y & b' & Hy & Hst1 & Eseen). set (r1 := cr_at r _) in *.
    assert (Hps1 : ps `prefix_of` snapshot w1) by (transitivity (snapshot w); [done|apply (lt_ids _ _ _ _ L)]).
    destruct (cr_round fuel w1 f1 r1 ps (S i) [] y j a g b' (lt_ok _ _ _ _ L) Hst1 Hps1 Hj)
      as [(w2 & f2 & c & f & q & -> & L2 & Ef2 & Hc & Hle & Hend)|[(-> & _)|(_ & Hx & _)]]; [|done|by destruct a].
    destruct (header_here w1 f1 r1 (S i) [] y j a g b' w2 f2 c f q (lt_ok _ _ _ _ L)) as (w3 & f3 & c3 & i3 & a3 & g3 & E & L3 & Es3 & Hin);
      [by apply (lt_promise _ _ _ _ L)|done..|].
    exists w3, f3, c3, i3, a3, g3. split; [exact E|]. split; [by eapply later_trans|]. split; [by rewrite <- Eseen|exact Hin].
  - by destruct Hno.
Qed.

(** All committed records of some moment between are among [seen]. *)
Definition all_given (w : world) (fss : list (list frm)) (seen : list frm) (w' : world) (fss' : list (list frm)) : Prop :=
  ∃ w1 fss1, later w fss w1 fss1 ∧ later w1 fss1 w' fss' ∧ ∀ f, f ∈ concat fss1 → f_off f ≤ hw (w_log w1) → f ∈ seen.

Lemma below_mark w fss j a g b f :
  w_ok w fss → fss !! j = Some (a ++ g :: b) → f ∈ concat fss → f_off f ≤ f_off g → f ∈ concat (take j fss) ++ a ++ [g].
Proof.
  intros Hw Ej (k & fs & Ek & Hf)%elem_of_concat Hle. apply elem_of_app.
  destruct (Nat.lt_trichotomy k j) as [Hlt|[->|Hgt]].
  - left. apply elem_of_concat. exists k, fs. by rewrite lookup_take_lt.
  - right. rewrite Ej in Ek. injection Ek as <-. apply elem_of_app. apply elem_of_app in Hf as [Hf|Hf]; [by left|right].
    apply elem_of_cons in Hf as [->|Hf]; [left|]. pose proof (segment_ascending _ _ _ _ Hw Ej) as Hasc.
    apply StronglySorted_app in Hasc as (_ & _ & Hasc). apply StronglySorted_cons in Hasc as [Hasc _].
    rewrite Forall_forall in Hasc. specialize (Hasc _ Hf). cbn in Hasc. lia.
  - exfalso. assert (f_off g < f_off f); [|lia]. apply (earlier_segment w fss j k _ _ g f Hw Hgt Ej Ek); [apply elem_of_app; right; left|done].
Qed.

Lemma caught_up_given w fss j a g b w' fss' :
  w_ok w fss → fss !! j = Some (a ++ g :: b) → caught_up (f_off g) w fss w' fss' →
  all_given w fss (concat (take j fss) ++ a ++ [g]) w' fss'.
Proof.
  intros Hw Ej (w1 & f1 & L1 & L2 & Hx). exists w1, f1. split; [done|]. split; [done|]. intros f Hf Hle.
  destruct (lt_frames _ _ _ _ L1 _ _ Ej) as (new & Ej1 & _). rewrite <- app_assoc in Ej1.
  rewrite <- (seen_stays _ _ _ _ _ _ (a ++ [g]) L1 Ej). apply (below_mark w1 f1 j a g (b ++ new) f (lt_ok _ _ _ _ L1) Ej1 Hf). by apply Hx.
Qed.

(** Where a read of a header can lead: into the next record, perhaps with a new
    mark, or to an end with nothing read. *)
Definition header_read (w : world) (fss : list (list frm)) (seen : list frm) (r : committedReader)
    (res : world * committedReader * outcome bytes) : Prop :=
  (∃ r1, cr_noWait r1 = cr_noWait r ∧ header_of w fss seen r1 (Some res)) ∨
  ∃ w' fss' e, res = (w', r, Fail e) ∧ later w fss w' fss' ∧ cr_seen w' fss' r seen ∧ ends_with o e ∧
    (cr_noWait r = true → e = ErrEOF ∧ all_given w fss seen w' fss').

(** The mark rose past everything seen. *)
Lemma stands_remarked w fss r j a g b w' fss' h raw p pos j' a' g' b' :
  w_ok w fss → stands w fss r j (a ++ [g]) b j a g b → later w fss w' fss' →
  marks w' fss' (remarked r h raw p pos) j' a' g' b' → cr_hw r < h →
  ∃ y, stands w' fss' (remarked r h raw p pos) j (a ++ [g]) y j' a' g' b' ∧ ¬ (j = j' ∧ a ++ [g] = a' ++ [g']).
Proof.
  intros Hw (Ef & Hc & (s & _ & _ & _ & _ & Eo & _) & _ & Hx) L Hm Hh. pose proof (lt_ok _ _ _ _ L) as Hw'.
  destruct (lt_frames _ _ _ _ L _ _ Ef) as (new & Ef' & _). rewrite <- app_assoc in Ef'. exists (b ++ new).
  pose proof Hm as (s' & _ & Eg' & _ & _ & Eo' & _). cbn [remarked cr_hw] in Eo'. split.
  - split; [done|]. split; [apply (cursor_later _ _ _ _ _ _ _ Hw L Hc)|]. split; [done|]. split.
    + destruct (decide (j ≤ j')%nat) as [|Hgt]; [done|]. exfalso.
      assert (f_off g' < f_off g); [|lia]. apply (earlier_segment w' fss' j' j _ _ g' g Hw' ltac:(lia) Eg' Ef'); apply elem_of_app; [right; left|].
      left. apply elem_of_app. right. left.
    + cbn [remarked cr_hw]. eapply Forall_impl; [exact Hx|]. cbn. lia.
  - intros [_ E]. apply app_inj_tail in E as [_ ->]. lia.
Qed.

Lemma sync_ahead fuel w fss r j a g b w1 r1 ps :
  rounds fuel → w_ok w fss → solid d w fss → stands w fss r j (a ++ [g]) b j a g b → syncHW fuel o w r = Some (w1, r1, Ok ps) →
  cr_noWait r1 = cr_noWait r ∧ header_of w fss (concat (take j fss) ++ a ++ [g]) r1 (sync_then fuel w r).
Proof.
  intros Hfu Hw Hs Hst Es. pose proof Hst as (Ef & _ & Hm & _ & _). pose proof (marks_informed _ _ _ _ _ _ _ Hw Hs Hm) as Hi.
  unfold sync_then. rewrite Es. cbn [mbind option_bind].
  destruct (sync_spec _ _ _ _ _ _ _ Hfu Hi Es) as (f1 & L & h & raw & p & pos & j' & a' & g' & b' & -> & Hm' & Hh & Hps & Hj).
  destruct (stands_remarked _ _ _ _ _ _ _ _ _ _ _ _ _ _ _ _ _ Hw Hst L Hm' Hh) as (y & Hst' & Hno). split; [done|].
  destruct fuel as [|[|fuel]]; [unfold rounds in Hfu; lia|unfold rounds in Hfu; lia|].
  destruct (loop_ahead fuel w1 f1 _ ps j (a ++ [g]) y j' a' g' b' (lt_ok _ _ _ _ L) ltac:(by apply (lt_promise _ _ _ _ L)) Hst' Hps Hj Hno)
    as (w2 & f2 & c & i2 & a2 & f & E2 & L2 & Eseen & Hin).
  exists w2, f2, c, i2, a2, f. split; [done|]. split; [by eapply later_trans|].
  split; [|done]. by rewrite <- Eseen, (seen_stays _ _ _ _ _ _ (a ++ [g]) L Ef).
Qed.

Lemma sync_header fuel w fss r j a g b res :
  rounds fuel → w_ok w fss → solid d w fss → stands w fss r j (a ++ [g]) b j a g b → sync_then fuel w r = Some res →
  header_read w fss (concat (take j fss) ++ a ++ [g]) r res.
Proof.
  intros Hfu Hw Hs Hst E. pose proof Hst as (Ef & _ & Hm & _ & _). pose proof (marks_informed _ _ _ _ _ _ _ Hw Hs Hm) as Hi.
  destruct (syncHW fuel o w r) as [[[w1 r1] x]|] eqn:Es; [|unfold sync_then in E; by rewrite Es in E].
  destruct (sync_spec _ _ _ _ _ _ _ Hfu Hi Es) as (f1 & L & Hx). destruct x as [ps|e|]; [| |done].
  - left. exists r1. rewrite <- E. by eapply sync_ahead.
  - unfold sync_then in E. rewrite Es in E. injection E as <-. destruct Hx as (-> & Hew & Hx). right. exists w1, f1, e. split; [done|]. split; [done|]. split; [|split; [done|]].
    + apply (cr_seen_later w fss); [done|]. split; [done|]. split; [done|]. by exists j, (a ++ [g]), b, j, a, g, b.
    + intros Hn. destruct (Hx Hn) as [-> Hc]. split; [done|]. destruct Hm as (_ & _ & Eg & _ & _ & Eo & _). rewrite <- Eo in Hc.
      by eapply caught_up_given.
Qed.

(** The loop at a boundary: the next record, or a look at the watermark. *)
Lemma loop_cases fuel w fss r seen :
  rounds fuel → cr_seen w fss r seen →
  header_of w fss seen r (readLoop (S fuel) o w r (snapshot w) 32 []) ∨
  ∃ j a g b, stands w fss r j (a ++ [g]) b j a g b ∧ seen = concat (take j fss) ++ a ++ [g] ∧
    readLoop (S fuel) o w r (snapshot w) 32 [] = sync_then fuel w r.
Proof.
  intros Hfu (Hw & Hs & i & x & y & j & a & g & b & Hst & ->). assert (Hj : (j < length (snapshot w))%nat).
  { destruct Hst as (_ & _ & (s & Es & _) & _). apply lookup_lt_Some in Es. unfold snapshot. by rewrite length_fmap. }
  destruct fuel as [|fuel]; [unfold rounds in Hfu; lia|].
  destruct (cr_round (S fuel) w fss r (snapshot w) i x y j a g b Hw Hst ltac:(done) Hj)
    as [(w1 & f1 & c & f & q & -> & L & Ef1 & Hc & Hle & Hend)|[(-> & Hlt & _)|(-> & -> & -> & E)]].
  - left. by eapply header_here.
  - left. eapply loop_ahead; try done. lia.
  - right. by exists j, a, g, b.
Qed.

Lemma cr_header fuel w fss r seen res :
  rounds fuel → cr_seen w fss r seen → readLoop (S fuel) o w r (snapshot w) 32 [] = Some res → header_read w fss seen r res.
Proof.
  intros Hfu Hcs E. destruct (loop_cases fuel w fss r seen Hfu Hcs) as [Hh|(j & a & g & b & Hst & -> & Eq)].
  - left. exists r. split; [done|]. by rewrite <- E.
  - rewrite Eq in E. destruct Hcs as (Hw & Hs & _). by eapply sync_header.
Qed.

(** A committed record that is there is found without waiting. *)
Lemma cr_header_ahead fuel w fss r seen f :
  rounds fuel → cr_seen w fss r seen → f ∈ concat fss → f ∉ seen → f_off f ≤ hw (w_log w) →
  ∃ r1, cr_noWait r1 = cr_noWait r ∧ header_of w fss seen r1 (readLoop (S fuel) o w r (snapshot w) 32 []).
Proof.
  intros Hfu Hcs Hf Hns Hle. destruct (loop_cases fuel w fss r seen Hfu Hcs) as [Hh|(j & a & g & b & Hst & -> & ->)]; [by exists r|].
  destruct Hcs as (Hw & Hs & _). pose proof Hst as (_ & _ & Hm & _ & _). pose proof (marks_informed _ _ _ _ _ _ _ Hw Hs Hm) as Hi.
  assert (Habove : cr_hw r < f_off f).
  { destruct Hm as (_ & _ & Eg & _ & _ & Eo & _). destruct (decide (f_off f ≤ cr_hw r)); [|lia]. destruct Hns.
    apply (below_mark w fss j a g b f Hw Eg Hf). lia. }
  pose proof (record_below _ _ _ Hw Hf). destruct (sync_ready fuel w fss r Hfu Hi ltac:(lia)) as (w1 & r1 & ps & Es).
  exists r1. by eapply sync_ahead.
Qed.

(** A reader that does not wait comes to an end. *)
Lemma cr_header_ends fuel w fss r seen :
  rounds fuel → cr_seen w fss r seen → cr_noWait r = true → ∃ res, readLoop (S fuel) o w r (snapshot w) 32 [] = Some res.
Proof.
  intros Hfu Hcs Hn. destruct (loop_cases fuel w fss r seen Hfu Hcs) as [(w1 & f1 & c & i & a & f & -> & _)|(j & a & g & b & Hst & -> & ->)];
    [by eexists|].
  destruct Hcs as (Hw & Hs & _). pose proof Hst as (_ & _ & Hm & _ & _). pose proof (marks_informed _ _ _ _ _ _ _ Hw Hs Hm) as Hi.
  destruct (sync_ends fuel w fss r Hfu Hi Hn) as ([[w1 r1] [ps|e|]] & Es); [|unfold sync_then; rewrite Es; by eexists..].
  destruct (sync_ahead fuel w fss r j a g b w1 r1 ps Hfu Hw Hs Hst Es) as (_ & w2 & f2 & c & i & a2 & f & -> & _). by eexists.
Qed.

(** ** A record *)

Lemma c_within_read i a f r0 fuel w fss r pos n :
  c_within i a f r0 w fss r pos → 0 < n → pos + n ≤ zlen (fs_bytes (a ++ [f])) → n ≤ bufReadSize * Z.of_nat fuel →
  ∃ w' fss' r', source_read fuel o w r n = Some (w', r', Ok (part (fs_bytes (a ++ [f])) pos n)) ∧ later w fss w' fss' ∧
    c_within i a f r0 w' fss' r' (pos + n).
Proof.
  intros (Hw & Hs & (more & Ef) & (c & -> & Hc) & Hall & j & a' & g & b & Hm & Hij & Hend) Hn Hle Hfu.
  destruct fuel as [|fuel]; [lia|]. destruct (Hg w fss Hw) as (f1 & L1). set (w1 := turn o w) in *. pose proof (lt_ok _ _ _ _ L1) as Hw1.
  destruct (lt_frames _ _ _ _ L1 _ _ Ef) as (new & Ef1 & _). rewrite <- app_assoc in Ef1. cbn in Ef1.
  pose proof (cursor_later _ _ _ _ _ _ _ Hw L1 Hc) as Hc1. destruct (marks_later _ _ _ _ _ _ _ _ _ Hw L1 Hm) as (b1 & Hm1).
  assert (Hl : cr_lim (cr_at r0 c) n = n).
  { rewrite (lim_at w1 f1 (cr_at r0 c) i pos j a' g b1 n Hw1 Hc1 Hm1). case_decide as E; [|done]. specialize (Hend E). cbn [cr_at hwPos]. lia. }
  assert (Efs : fs_bytes (a ++ f :: more ++ new) = fs_bytes (a ++ [f]) ++ fs_bytes (more ++ new)) by (by rewrite <- fs_bytes_app, <- app_assoc).
  pose proof (zlen_nonneg (fs_bytes (more ++ new))). pose proof (cursor_pos _ _ _ _ _ _ Hc Ef).
  destruct (loop_here fuel w1 f1 (cr_at r0 c) (snapshot w1) i pos n [] _ Hw1 Hc1 Ef1 Hn) as (w2 & f2 & c2 & E & L2 & Hc2);
    [rewrite Efs, zlen_app; lia|done|].
  pose proof (later_trans _ _ _ _ _ _ L1 L2) as L. exists w2, f2, (Committed (cr_at r0 c2)). cbn [source_read]. unfold cr_read. fold w1.
  pose proof Hc as (s & _ & _ & _ & Ec & _). cbn [cr_at cr_cur]. rewrite Ec.
  rewrite E. cbn [mbind option_bind app]. rewrite Efs, part_grow by lia. split; [done|]. split; [done|].
  split; [apply (lt_ok _ _ _ _ L2)|]. split; [by apply (lt_promise _ _ _ _ L)|].
  destruct (lt_frames _ _ _ _ L _ _ Ef) as (new2 & Ef2 & _). split; [exists (more ++ new2); by rewrite Ef2, <- app_assoc|].
  split; [by exists c2|]. split; [done|]. destruct (marks_later _ _ _ _ _ _ _ _ _ Hw L Hm) as (b2 & Hm2). by exists j, a', g, b2.
Qed.

(** After the header. *)
Lemma c_rest fuel w0 f0 w fss r c seen i a f :
  c_within i a f r w fss (Committed (cr_at r c)) (zlen (fs_bytes a) + 32) → later w0 f0 w fss → seen = concat (take i fss) ++ a →
  (read_fuel ≤ fuel)%nat →
  ∃ w' fss' c', readPayload fuel o w (Committed (cr_at r c)) (zlen (f_data f)) [] =
      Some (w', Committed (cr_at r c'), Ok (f_data f)) ∧
    later w0 f0 w' fss' ∧ at_after w' fss' c' seen f ∧ f_off f ≤ hw (w_log w') ∧ cr_seen w' fss' (cr_at r c') (seen ++ [f]).
Proof.
  intros Hin L0 Es Hfu. pose proof Hin as (Hw & _ & (b & Ei) & _). set (dd := fs_bytes (a ++ [f])).
  destruct (frame_ok_at _ _ _ _ _ _ Hw Ei) as (base & Hf). destruct Hf as (_ & _ & _ & _ & _ & Hz). rewrite zlen_fbytes in Hz.
  assert (Hd : zlen dd = zlen (fs_bytes a) + 32 + zlen (f_data f)) by (unfold dd; rewrite zlen_fs_snoc, zlen_fbytes; lia).
  pose proof (zlen_nonneg (f_data f)). pose proof (zlen_nonneg (fs_bytes a)).
  destruct (readPayload_spec o (c_within i a f r) dd (λ fuel w fss r' pos n, c_within_read i a f r fuel w fss r' pos n)
    (λ w fss r' pos Hp, proj1 Hp) fuel w fss (Committed (cr_at r c)) (zlen (fs_bytes a) + 32) (zlen (fs_bytes a) + 32) (zlen (f_data f)))
    as (w' & f' & r' & E & L & Hin'); [done|lia|lia|lia|change maxPayloadChunk with (2 ^ 20); unfold read_fuel in Hfu; lia|].
  rewrite Z.sub_diag in E. unfold part at 1 in E. cbn [Z.to_nat take] in E. unfold dd in E. rewrite payload_part in E.
  destruct Hin' as (Hw' & Hs' & (more & Ei') & (c' & -> & Hc') & Hall & j & a' & g & b' & Hm & Hij & Hend).
  assert (Es' : seen = concat (take i f') ++ a) by (rewrite Es; symmetry; by eapply seen_stays).
  exists w', f', c'. split; [done|]. split; [by eapply later_trans|]. split; [|split].
  - by exists i, a, more.
  - destruct Hm as (_ & _ & _ & _ & _ & _ & Hh). apply Forall_app in Hall as [_ Hall]. apply Forall_cons in Hall as [Hall _]. lia.
  - split; [done|]. split; [done|]. exists i, (a ++ [f]), more, j, a', g, b'. split; [|by rewrite Es', app_assoc].
    split; [by rewrite <- app_assoc|]. done.
Qed.

(** What a read of a record may lead to, for a reader that has given [seen]: the
    next record of the log, which is committed, or an end with nothing read. *)
Definition next_committed (w : world) (fss : list (list frm)) (seen : list frm) (r : committedReader)
    (res : world * contextReader * outcome readRecord) : Prop :=
  let '(w', r', x) := res in
  ∃ fss' rc, later w fss w' fss' ∧ r' = Committed rc ∧ cr_noWait rc = cr_noWait r ∧
    ((∃ f, at_after w' fss' (cr_cur rc) seen f ∧ f_off f ≤ hw (w_log w') ∧ x = delivered f ∧ cr_seen w' fss' rc (seen ++ [f])) ∨
     (∃ e, x = Fail e ∧ cr_seen w' fss' rc seen ∧ ends_with o e ∧ (cr_noWait r = true → e = ErrEOF ∧ all_given w fss seen w' fss'))).

Lemma read_boundary fuel w fss r seen buflen :
  cr_seen w fss r seen → msgSetHeaderLen ≤ buflen →
  ∃ w1 f1, later w fss w1 f1 ∧ cr_seen w1 f1 r seen ∧
    readFrameHeader fuel o w (Committed r) buflen =
    '(w', r', x) ← readLoop fuel o w1 r (snapshot w1) 32 []; Some (w', Committed r', x ≫= parse_header).
Proof.
  intros Hcs Hbl. pose proof Hcs as (Hw & _ & i & x & y & j & a & g & b & (_ & (s & _ & _ & _ & Ec & _) & _) & _).
  destruct (Hg w fss Hw) as (f1 & L1). exists (turn o w), f1. split; [done|]. split; [by eapply cr_seen_later|].
  unfold readFrameHeader. rewrite (proj2 (Z.ltb_ge _ _)) by done. cbn [source_read]. unfold cr_read. rewrite Ec.
  change msgSetHeaderLen with 32. by destruct (readLoop _ _ _ _ _ _ _) as [[[??]?]|].
Qed.

(** The rest of [readMessage] once the header is there. *)
Lemma message_of fuel w fss seen r r0 buflen w1 f1 :
  later w fss w1 f1 → cr_noWait r = cr_noWait r0 → (read_fuel ≤ fuel)%nat → header_of w1 f1 seen r (readLoop fuel o w1 r0 (snapshot w1) 32 []) →
  readFrameHeader fuel o w (Committed r0) buflen =
    ('(w', r', x) ← readLoop fuel o w1 r0 (snapshot w1) 32 []; Some (w', Committed r', x ≫= parse_header)) →
  ∃ w' fss' rc f, readMessage fuel o w (Committed r0) buflen = Some (w', Committed rc, delivered f) ∧ later w fss w' fss' ∧
    cr_noWait rc = cr_noWait r0 ∧ at_after w' fss' (cr_cur rc) seen f ∧ f_off f ≤ hw (w_log w') ∧ cr_seen w' fss' rc (seen ++ [f]).
Proof.
  intros L1 Hnw Hfu (w2 & f2 & c & i & a & f & E & L2 & Es & Hin) Eh. rewrite E in Eh. cbn [mbind option_bind] in Eh.
  pose proof Hin as (Hw2 & _ & (b & Ei) & _). destruct (frame_ok_at _ _ _ _ _ _ Hw2 Ei) as (base & Hf).
  rewrite bind_Ok, (parse_header_spec base f Hf) in Eh.
  destruct (c_rest fuel w fss w2 f2 r c seen i a f Hin (later_trans _ _ _ _ _ _ L1 L2) Es Hfu) as (w3 & f3 & c3 & E3 & L3 & Haf & Hh & Hcs).
  exists w3, f3, (cr_at r c3), f. split; [by eapply readMessage_eq|]. done.
Qed.

(** What is enough for every read. *)
Lemma ample_rounds fuel : ample fuel → ∃ fuel', fuel = S fuel' ∧ rounds fuel' ∧ (read_fuel ≤ fuel)%nat.
Proof. intros Ha. unfold ample in Ha. destruct fuel as [|fuel]; [lia|]. exists fuel. unfold rounds, read_fuel. split; [done|]. lia. Qed.

Lemma committed_next fuel w fss r seen buflen res :
  ample fuel → cr_seen w fss r seen → msgSetHeaderLen ≤ buflen →
  readMessage fuel o w (Committed r) buflen = Some res → next_committed w fss seen r res.
Proof.
  intros Ha Hcs Hbl E. destruct (ample_rounds _ Ha) as (fuel' & -> & Hfu & Hrf).
  destruct (read_boundary (S fuel') w fss r seen buflen Hcs Hbl) as (w1 & f1 & L1 & Hcs1 & Eh).
  destruct (readLoop (S fuel') o w1 r (snapshot w1) 32 []) as [res1|] eqn:E1; [|unfold readMessage in E; by rewrite Eh in E].
  destruct (cr_header fuel' w1 f1 r seen res1 Hfu Hcs1 E1) as [(r1 & Hn & Hh)|(w2 & f2 & e & -> & L2 & Hcs2 & Hew & Hend)].
  - rewrite <- E1 in Hh, Eh. destruct (message_of (S fuel') w fss seen r1 r buflen w1 f1 L1 Hn Hrf Hh Eh)
      as (w3 & f3 & rc & f & E3 & L3 & Hn3 & Haf & Hle & Hcs3).
    rewrite E3 in E. injection E as <-. exists f3, rc. do 3 (split; [done|]). left. by exists f.
  - unfold readMessage in E. rewrite Eh in E. injection E as <-. exists f2, r. pose proof (later_trans _ _ _ _ _ _ L1 L2) as L.
    do 3 (split; [done|]). right. exists e. split; [done|]. split; [done|]. split; [done|]. intros Hn. destruct (Hend Hn) as [-> (w3 & f3 & La & Lb & Hx)].
    split; [done|]. exists w3, f3. split; [apply (later_trans _ _ _ _ _ _ L1 La)|]. done.
Qed.

(** A committed record that is there is given. *)
Lemma committed_ahead fuel w fss r seen buflen f :
  ample fuel → cr_seen w fss r seen → msgSetHeaderLen ≤ buflen → f ∈ concat fss → f ∉ seen → f_off f ≤ hw (w_log w) →
  ∃ w' fss' rc f, readMessage fuel o w (Committed r) buflen = Some (w', Committed rc, delivered f) ∧ later w fss w' fss' ∧
    cr_noWait rc = cr_noWait r ∧ at_after w' fss' (cr_cur rc) seen f ∧ f_off f ≤ hw (w_log w') ∧ cr_seen w' fss' rc (seen ++ [f]).
Proof.
  intros Ha Hcs Hbl Hf Hns Hle. destruct (ample_rounds _ Ha) as (fuel' & -> & Hfu & Hrf).
  destruct (read_boundary (S fuel') w fss r seen buflen Hcs Hbl) as (w1 & f1 & L1 & Hcs1 & Eh). pose proof (lt_hw _ _ _ _ L1).
  destruct (cr_header_ahead fuel' w1 f1 r seen f Hfu Hcs1 (record_stays _ _ _ _ _ L1 Hf) Hns ltac:(lia)) as (r1 & Hn & Hh).
  by eapply message_of.
Qed.

Lemma committed_ends fuel w fss r seen buflen :
  ample fuel → cr_seen w fss r seen → msgSetHeaderLen ≤ buflen → cr_noWait r = true →
  ∃ res, readMessage fuel o w (Committed r) buflen = Some res.
Proof.
  intros Ha Hcs Hbl Hn. destruct (ample_rounds _ Ha) as (fuel' & -> & Hfu & Hrf).
  destruct (read_boundary (S fuel') w fss r seen buflen Hcs Hbl) as (w1 & f1 & L1 & Hcs1 & Eh).
  destruct (cr_header_ends fuel' w1 f1 r seen Hfu Hcs1 Hn) as (res & E1).
  destruct (cr_header fuel' w1 f1 r seen res Hfu Hcs1 E1) as [(r1 & Hnw & Hh)|(w2 & f2 & e & -> & _)].
  - rewrite <- E1 in Hh. destruct (message_of (S fuel') w fss seen r1 r buflen w1 f1 L1 Hnw Hrf Hh Eh) as (w3 & f3 & rc & f & E3 & _).
    rewrite E3. by eexists.
  - unfold readMessage. rewrite Eh, E1. by eexists.
Qed.

(** ** Positioning *)

Lemma oldest_first l fss : inv l fss → OldestOffset l = default (-1) (f_off <$> head (concat fss)).
Proof.
  intros Hi. pose proof Hi as (HF & _ & _ & _ & _ & Hne). unfold OldestOffset. pose proof (inv_left _ _ Hi) as Hleft.
  destruct (segments l) as [|s ss] eqn:Es; [unfold segments in Es; by destruct (older l)|]. apply Forall_cons in Hleft as [Hl _].
  rewrite filter_cons_True by done. destruct fss as [|fs k]; [by inversion HF|]. apply Forall2_cons in HF as [Hs HF].
  destruct Hs as ((_ & _ & _ & _ & (-> & _) & _) & _). destruct fs as [|f fs]; [|done].
  destruct k as [|k1 k]; [done|]. change (removelast ([] :: k1 :: k)) with ([] :: removelast (k1 :: k)) in Hne. by apply Forall_cons in Hne as [? _].
Qed.

Lemma oldest_there w fss f : w_ok w fss → f ∈ concat fss → OldestOffset (w_log w) ≠ -1.
Proof.
  intros [Hi _] Hf. rewrite (oldest_first _ _ Hi). destruct (concat fss) as [|g k] eqn:E; [by apply not_elem_of_nil in Hf|]. cbn.
  assert (Hgin : g ∈ concat fss) by (rewrite E; left). apply elem_of_concat in Hgin as (i & fs & Ei & Hgin). destruct Hi as (HF & _).
  destruct (Forall2_lookup_r _ _ _ _ _ HF Ei) as (s & _ & Hs). pose proof (seg_range _ _ _ g Hs Hgin). lia.
Qed.

(** Where the search of a start among the segments of a snapshot leads. *)
Lemma start_at fuel w fss ps offset j s h :
  2 ^ 26 ≤ Z.of_nat fuel → w_ok w fss → ps `prefix_of` snapshot w → (j < length ps)%nat → segments (w_log w) !! j = Some s →
  h < NextOffset s → offset ≤ h →
  ∃ w' fss' i x y t pos, later w fss w' fss' ∧ (i ≤ j)%nat ∧ fss' !! i = Some (x ++ y) ∧ Forall (λ f, f_off f < offset) x ∧
    segments (w_log w') !! i = Some t ∧ pos = zlen (fs_bytes x) ∧
    split_at offset (concat (take i fss') ++ x) (concat fss') ∧
    ∀ made : world → option Z → Z → option (world * outcome contextReader),
      match findSegmentContains (objects w ps) offset with
      | None => made w None 0
      | Some (s, _, false) => made w (Some (id s)) 0
      | Some (s, _, true) =>
          '(w, x) ← object_find fuel o w (id s) offset;
          match x with
          | Ok e => made w (Some (id s)) (e_Position e)
          | Fail e => Some (w, Fail e)
          | Panic => Some (w, Panic)
          end
      end = made w' (Some (id t)) pos.
Proof.
  intros Hfu Hw Hps Hj Es Hh Hle. rewrite (objects_prefix _ _ _ Hw Hps). pose proof Hw as [Hi _]. unfold findSegmentContains.
  set (segs := take (length ps) (segments (w_log w))). assert (Ej : segs !! j = Some s) by (unfold segs; by rewrite lookup_take_lt).
  assert (Hso : StronglySorted (λ s s', NextOffset s ≤ NextOffset s') segs).
  { pose proof (inv_next_sorted _ _ Hi) as Hs. rewrite <- (take_drop (length ps) (segments (w_log w))) in Hs. by apply StronglySorted_app in Hs as (_ & ? & _). }
  destruct (findSegment_spec segs offset Hso) as [[Hall _]|(a & t & b & Eseg & Hlow & Hlt & ->)];
    [apply Forall_take, (inv_left _ _ Hi)|rewrite Forall_lookup in Hall; specialize (Hall _ _ Ej); cbn in Hall; lia|].
  assert (Et : segments (w_log w) !! length a = Some t).
  { assert (segs !! length a = Some t) as E by (rewrite Eseg; by apply list_lookup_middle). by apply lookup_take_Some in E as [? _]. }
  assert (Haj : (length a ≤ j)%nat).
  { destruct (decide (length a ≤ j)%nat) as [|Hgt]; [done|]. rewrite Eseg, lookup_app_l in Ej by lia. rewrite Forall_lookup in Hlow.
    specialize (Hlow _ _ Ej). cbn in Hlow. lia. }
  assert (Hbef : Forall (λ f, f_off f < offset) (concat (take (length a) fss))).
  { apply (before_segment w fss a t (b ++ drop (length ps) (segments (w_log w))) offset Hw); [|done].
    rewrite <- (take_drop (length ps) (segments (w_log w))) at 1. fold segs. by rewrite Eseg, <- app_assoc. }
  pose proof Hw as [(HF & _) _]. destruct (Forall2_lookup_l _ _ _ _ _ HF Et) as (ft & Eft & Hst).
  destruct (Z.leb_spec (BaseOffset t) offset) as [Hb|Hb].
  - destruct (object_find_spec fuel o w fss (length a) t offset Hfu Hg Hw Et ltac:(lia)) as (w2 & f2 & x & f & y & e & E & L2 & Ei & Ep & _ & _ & Hx & Hy).
    destruct (later_object _ _ _ _ _ _ Hw L2 Et) as (t2 & Et2 & Hid). destruct (segment_next_grows _ _ _ _ _ _ _ Hw L2 Et Et2) as [Hn2 _].
    exists w2, f2, (length a), x, (f :: y), t2, (zlen (fs_bytes x)). do 6 (split; [done|]). split; [|intros made; by rewrite E, Hid, <- Ep].
    apply (split_segment w2 f2 (length a) t2 x (f :: y) offset); try done; [apply (lt_ok _ _ _ _ L2)| |lia].
    rewrite (stretches_take fss f2); [done|apply (lt_frames _ _ _ _ L2)|by apply lookup_lt_Some in Eft].
  - exists w, fss, (length a), [], ft, t, 0. split; [by apply later_refl|]. do 5 (split; [done|]). split; [|done].
    apply (split_segment w fss (length a) t [] ft offset); try done. apply Forall_forall. intros f Hf. pose proof (seg_range _ _ _ f Hst Hf). lia.
Qed.

(** A reader from a committed offset stands before the first record at or above
    it. *)
Lemma newCommitted_spec fuel w fss self offset noWait :
  ample fuel → w_ok w fss → solid d w fss → offset ≤ Z.min (hw (w_log w)) (NextOffset (active (w_log w)) - 1) →
  ∃ w' fss' rc seen, newReaderCommitted fuel o w self offset noWait = Some (w', Ok (Committed rc)) ∧ cr_noWait rc = noWait ∧
    later w fss w' fss' ∧ cr_seen w' fss' rc seen ∧ split_at offset seen (concat fss').
Proof.
  intros Ha Hw Hs Hoff. assert (Hfu : 2 ^ 26 ≤ Z.of_nat fuel) by (unfold ample in Ha; lia). unfold newReaderCommitted.
  destruct (Hg w fss Hw) as (f1 & L1). set (w1 := turn o w) in *. pose proof (lt_ok _ _ _ _ L1) as Hw1.
  destruct (Hg w1 f1 Hw1) as (f2 & L2). set (w2 := turn o w1) in *. pose proof (lt_ok _ _ _ _ L2) as Hw2.
  destruct (Hg w2 f2 Hw2) as (f3 & L3). set (w3 := turn o w2) in *. pose proof (lt_ok _ _ _ _ L3) as Hw3.
  pose proof (later_trans _ _ _ _ _ _ L1 L2) as L02. pose proof (later_trans _ _ _ _ _ _ L02 L3) as L03.
  pose proof (lt_hw _ _ _ _ L1). pose proof (lt_hw _ _ _ _ (later_trans _ _ _ _ _ _ L2 L3)). pose proof (next_grows _ _ _ _ Hw L02).
  destruct (lt_promise _ _ _ _ L02 Hs) as (Hd2 & Hn2 & Hrec). pose proof Hs as (Hd0 & Hn0 & _). unfold HighWatermark in *.
  rewrite (clamp_spec w2 f2 _ Hw2). set (h := Z.min (hw (w_log w1)) _) in *.
  destruct (Hrec h ltac:(lia)) as (f & Hf & Eh). pose proof (oldest_there w3 f3 f Hw3 (record_stays _ _ _ _ _ L3 Hf)).
  rewrite (proj2 (Z.eqb_neq h (-1))), (proj2 (Z.ltb_ge h offset)), (proj2 (Z.eqb_neq (OldestOffset (w_log w3)) (-1))) by lia. cbn [orb].
  apply elem_of_concat in Hf as (j & fs & Ef & Hin). assert (Hj : (j < length (snapshot w2))%nat).
  { pose proof Hw2 as [(HF & _) _]. apply lookup_lt_Some in Ef. unfold snapshot. by rewrite length_fmap, (Forall2_length _ _ _ HF). }
  destruct (lt_frames _ _ _ _ L3 _ _ Ef) as (new & Ef3 & _). rewrite <- Eh.
  destruct (getHWPos_at fuel w3 f3 (snapshot w2) j _ f Hfu Hw3 (lt_ids _ _ _ _ L3) Hj Ef3 ltac:(apply elem_of_app; by left))
    as (w4 & f4 & s & a & g & b & E4 & L4 & Es4 & Ef4 & Eo4).
  rewrite E4. cbn [mbind option_bind]. pose proof (lt_ok _ _ _ _ L4) as Hw4. pose proof (later_trans _ _ _ _ _ _ L03 L4) as L04.
  assert (Hps4 : snapshot w2 `prefix_of` snapshot w4) by (apply (lt_ids _ _ _ _ (later_trans _ _ _ _ _ _ L3 L4))).
  assert (Hns : h < NextOffset s).
  { pose proof Hw4 as [(HF & _) _]. destruct (Forall2_lookup_l _ _ _ _ _ HF Es4) as (? & E & Hs4). rewrite Ef4 in E. injection E as <-.
    pose proof (seg_range _ _ _ g Hs4 ltac:(apply elem_of_app; right; left)). lia. }
  destruct (start_at fuel w4 f4 (snapshot w2) offset j s h Hfu Hw4 Hps4 Hj Es4 Hns ltac:(lia))
    as (w5 & f5 & i & x & y & t & pos & L5 & Hij & Ei & Hx & Et & -> & Hsp & Hmade).
  specialize (Hmade (λ w p pos, Some (w, Ok (Committed {| cr_self := self; cr_cur := seekTo p pos; hwSeg := Some (id s);
    hwPos := zlen (fs_bytes (a ++ [g])); cr_hw := f_off f; rawHW := 0; cr_noWait := noWait |})))). cbv beta in Hmade. pose proof (later_trans _ _ _ _ _ _ L04 L5) as L05.
  eexists w5, f5, _, _. split; [exact Hmade|]. split; [done|]. split; [done|]. split; [|exact Hsp]. split; [apply (lt_ok _ _ _ _ L5)|].
  split; [by apply (lt_promise _ _ _ _ L05)|]. destruct (lt_frames _ _ _ _ L5 _ _ Ef4) as (new5 & Ef5 & _).
  destruct (later_object _ _ _ _ _ _ Hw4 L5 Es4) as (s5 & Es5 & Hid5). pose proof (lt_hw _ _ _ _ L5). pose proof (lt_hw _ _ _ _ L4).
  exists i, x, y, j, a, g, (b ++ new5). split; [|done]. split; [done|]. split; [|split; [|split; [done|]]].
  - apply (cursor_seek _ _ _ _ (x ++ y)); [done|done|]. rewrite fs_bytes_app, zlen_app. pose proof (zlen_nonneg (fs_bytes x)).
    pose proof (zlen_nonneg (fs_bytes y)). lia.
  - exists s5. cbn [hwSeg hwPos cr_hw]. rewrite Hid5. split; [done|]. split; [by rewrite Ef5, <- app_assoc|]. do 3 (split; [done|]). lia.
  - cbn [cr_hw]. eapply Forall_impl; [exact Hx|]. cbn. lia.
Qed.

End worlds.
End ReadCommitted.
