(* ===== verification/PrefixRead.v ===== *)
(** * Reads of a key prefix: prefix_read.go, prefix_source.go

    A filtered read goes through the sealed segments one at a time.  The records
    of a segment that the read wants come by one of two routes: from the offsets
    that the key digest of the segment names ([digestHits], [planRuns],
    [fetchRuns]), or, when the segment has no digest, from a scan of all of it
    ([scanSegmentFiltered]).

    What is done with one segment happens at once; between segments the log may
    change.  The workers of [fetchRuns] read each with a cache of its own and
    put what they found into one map: the order in which they come to it is an
    argument, and so are the files of the digests.  Segments are local. *)

From Stdlib Require Import ZArith Lia.
From stdpp Require Import base list numbers strings gmap sorting.
From coqutil Require Import Byte.
From S2P Require Import Prelude GoStd Wire Compress BlockV3 Block Framing EpochCache Index Segment.
From S2P Require Import SegmentIndex SegmentSearch SegmentReopen Log LogRead KeyDigest ReadSource.

Open Scope Z_scope.

Module PrefixRead.
Import Segment SegmentIndex SegmentSearch SegmentReopen Log LogRead KeyDigest ReadSource.

(** ** prefix_read.go *)

Definition defaultPrefixReadCoalesceBytes : Z := Z.shiftl 4 20.

Definition coalesceBudget (v def : Z) : Z := if v =? 0 then def else if v <? 0 then 0 else v.

Record prefixRun := { start : Z; offs : list Z }.

(** A fetched record waiting to be served: the fields of a record read. *)
Definition prefixQueued : Type := readRecord.

Definition blockAt (s : segment) (logical : Z) : option blockRef :=
  if blockMode s then findBlock (blocks s) logical else None.

(** What [planRuns] carries from offset to offset: the runs that ended, the
    current one, and where the record before ended. *)
Record planning := { pl_runs : list prefixRun; pl_cur : option prefixRun; pl_prev : option (Z * option blockRef) }.

Definition splits (s : segment) (prev : option (Z * option blockRef)) (pos coalesce : Z) : bool :=
  match prev with
  | None => true
  | Some (prevEnd, prevBlk) =>
      match blockAt s pos, prevBlk with
      | Some blk, Some prevBlk => coalesce <? physStart blk - (physStart prevBlk + physLen prevBlk)
      | _, _ => coalesce <? pos - prevEnd
      end
  end.

Definition plan_one (s : segment) (coalesce : Z) (pl : planning) (off : Z) (e : entry) : planning :=
  let prevEnd := e_Position e + e_Size e in
  let prev := Some (prevEnd, blockAt s (prevEnd - 1)) in
  match splits s (pl_prev pl) (e_Position e) coalesce, pl_cur pl with
  | false, Some cur =>
      {| pl_runs := pl_runs pl; pl_cur := Some {| start := start cur; offs := offs cur ++ [off] |}; pl_prev := prev |}
  | _, cur =>
      {| pl_runs := pl_runs pl ++ (match cur with Some c => [c] | None => [] end);
         pl_cur := Some {| start := e_Position e; offs := [off] |}; pl_prev := prev |}
  end.

Section codecs.
Context `{CodecLib}.

Fixpoint plan_offs (fuel : nat) (s : segment) (coalesce : Z) (pl : planning) (os : list Z)
    : option (segment * outcome (list prefixRun)) :=
  match os with
  | [] => Some (s, Ok (pl_runs pl ++ match pl_cur pl with Some c => [c] | None => [] end))
  | off :: os =>
      '(s, r) ← findEntry fuel s off;
      match r with
      | Ok e => plan_offs fuel s coalesce (plan_one s coalesce pl off e) os
      | Fail e => Some (s, Fail e)
      | Panic => Some (s, Panic)
      end
  end.

Definition planRuns (fuel : nat) (s : segment) (os : list Z) (coalesce : Z) : option (segment * outcome (list prefixRun)) :=
  plan_offs fuel s coalesce {| pl_runs := []; pl_cur := None; pl_prev := None |} os.

(** The copy of a record that is handed out, checked. *)
Definition copied (ms : bytes) : outcome prefixQueued :=
  off ← messageSet.Offset ms;
  msg ← messageSet.Message ms;
  let msg := default [] msg in
  want ← SerializedMessage.Crc msg;
  body ← slice_from msg 4;
  if negb (want =? Crc32.Checksum Crc32.Castagnoli body) then Fail ErrCorruptRecord
  else
    t ← messageSet.Timestamp ms;
    ep ← messageSet.LeaderEpoch ms;
    Ok {| rr_msg := msg; rr_offset := off; rr_ts := t; rr_epoch := ep |}.

(** The offsets of a run still to find, and the records found. *)
Definition collecting : Type := list Z * gmap Z prefixQueued.

Definition collect_frame (st : collecting) (ms : bytes) (_ : entry) : collecting + outcome (gmap Z prefixQueued) :=
  let '(want, out) := st in
  match messageSet.Offset ms, want with
  | Ok off, o :: rest =>
      if off <? o then inl (want, out)
      else if off =? o then
        match copied ms with
        | Ok rec => match rest with [] => inr (Ok (<[off := rec]> out)) | _ => inl (rest, <[off := rec]> out) end
        | Fail e => inr (Fail e)
        | Panic => inr Panic
        end
      else inr (Fail (ErrSegmentUnreadable "prefix read overshot an offset"))
  | Ok _, [] => inr (Ok out)
  | Fail e, _ => inr (Fail e)
  | Panic, _ => inr Panic
  end.

Definition collect_ends (st : collecting) (err : error) : outcome (gmap Z prefixQueued) :=
  match err with
  | ErrEOF => Fail (ErrSegmentUnreadable "prefix read reached the end of the segment")
  | _ => Fail (ErrSegmentUnreadable "prefix read")
  end.

Definition collectRun (fuel : nat) (s : segment) (run : prefixRun) : option (outcome (gmap Z prefixQueued)) :=
  match offs run with
  | [] => Some (Ok ∅)
  | os =>
      match scanning fuel s {| sc_pos := start run; sc_cache := newBlockCache |} collect_frame collect_ends (os, ∅) with
      | None => None
      | Some r => Some (r ← r; r)
      end
  end.

(** What the workers bring, in the order in which they come to the map; the
    error returned is that of the first run that has one. *)
Fixpoint all_fetched (rs : list (outcome (gmap Z prefixQueued))) : outcome (list (gmap Z prefixQueued)) :=
  match rs with
  | [] => Ok []
  | r :: rs => m ← r; ms ← all_fetched rs; Ok (m :: ms)
  end.

Definition merge_runs (rs : list (outcome (gmap Z prefixQueued))) (order : list nat) : outcome (gmap Z prefixQueued) :=
  if existsb (λ r, match r with Panic => true | _ => false end) rs then Panic
  else
    ms ← all_fetched rs;
    Ok (foldl (λ out n, default ∅ (ms !! n) ∪ out) ∅ order).

Definition fetchRuns (fuel : nat) (s : segment) (runs : list prefixRun) (order : list nat)
    : option (outcome (gmap Z prefixQueued)) :=
  rs ← mapM (collectRun fuel s) runs;
  Some (merge_runs rs order).

(** The first key after every key with the prefix: the bytes of the prefix from
    the last one back. *)
Fixpoint upper_back (back : bytes) : option bytes :=
  match back with
  | [] => None
  | x :: back =>
      if byte.unsigned x =? 0xFF then upper_back back else Some (reverse back ++ [byte.of_Z (byte.unsigned x + 1)])
  end.

Definition prefixUpperBound (prefix : bytes) : option bytes := upper_back (reverse prefix).

(** ** prefix_source.go *)

Record prefixSource := {
  ps_spec : readSpec;
  queue : list prefixQueued;
  qi : nat;
  ps_next : Z;
  servedThrough : Z;
  done_ : bool;
}.

Definition newPrefixSource (spec : readSpec) : prefixSource :=
  {| ps_spec := spec; queue := []; qi := 0; ps_next := rs_offset spec; servedThrough := 0; done_ := false |}.

Definition source_at (p : prefixSource) (q : list prefixQueued) (i : nat) (next served : Z) (d : bool) : prefixSource :=
  {| ps_spec := ps_spec p; queue := q; qi := i; ps_next := next; servedThrough := served; done_ := d |}.

(** The prefix of a filtered read. *)
Definition key_prefix (spec : readSpec) : bytes := default [] (rs_prefix spec).

Definition bound (spec : readSpec) (hw : Z) : Z :=
  let b := default (-1) (rs_until spec) in
  if rs_uncommitted spec then b else if (b <? 0) || (hw <? b) then hw else b.

Definition inWindow (from bound off : Z) : bool := (from <=? off) && ((bound <? 0) || (off <=? bound)).

(** *** By the digest *)

Definition key_hits (spec : readSpec) (from bound : Z) (recs : list digestRec) : list Z :=
  if rs_skipSuperseded spec then
    let best := foldl (λ best r, if inWindow from bound (offset r) && (best <? offset r) then offset r else best) (-1) recs in
    if 0 <=? best then [best] else []
  else filter (λ o, inWindow from bound o = true) (offset <$> recs).

Fixpoint hits_loop (fuel : nat) (it : digestIter) (spec : readSpec) (from bound : Z) (hits : list Z) : option (outcome (list Z)) :=
  match fuel with
  | O => None
  | S fuel =>
      match next it with
      | Fail e => Some (Fail e)
      | Panic => Some Panic
      | Ok None => Some (Ok hits)
      | Ok (Some it) =>
          if match prefixUpperBound (key_prefix spec) with
             | Some e => bool_decide (BytesOrd.Compare (it_key it) e ≠ Lt)
             | None => false
             end
          then Some (Ok hits)
          else if negb (HasPrefix (it_key it) (key_prefix spec)) then hits_loop fuel it spec from bound hits
          else hits_loop fuel it spec from bound (hits ++ key_hits spec from bound (it_recs it))
      end
  end.

Definition digestHits (fuel : nat) (d : keyDigest) (spec : readSpec) (from bound : Z) : option (outcome (list Z)) :=
  match hits_loop fuel (newDigestIter d) spec from bound [] with
  | Some (Ok hits) =>
      let hits := if rs_includeControl spec then hits ++ filter (λ o, inWindow from bound o = true) (control d) else hits in
      Some (Ok (merge_sort Z.le hits))
  | r => r
  end.

Fixpoint look_up (byOffset : gmap Z prefixQueued) (hits : list Z) : outcome (list prefixQueued) :=
  match hits with
  | [] => Ok []
  | off :: hits =>
      match byOffset !! off with
      | None => Fail (ErrText "prefix read lost a record")
      | Some rec => recs ← look_up byOffset hits; Ok (rec :: recs)
      end
  end.

(** [coalesceBytes]: the option PrefixReadCoalesceBytes. *)
Definition fetch (fuel : nat) (s : segment) (coalesceBytes : Z) (order : nat → list nat) (hits : list Z)
    : option (segment * outcome (list prefixQueued)) :=
  '(s, r) ← planRuns fuel s hits (coalesceBudget coalesceBytes defaultPrefixReadCoalesceBytes);
  match r with
  | Fail e => Some (s, Fail e)
  | Panic => Some (s, Panic)
  | Ok runs =>
      got ← fetchRuns fuel s runs (order (length runs));
      Some (s, byOffset ← got; look_up byOffset hits)
  end.

(** *** By a scan *)

(** [latest] is there for a read that skips superseded records. *)
Record scanning_ := { sf_out : list prefixQueued; sf_dead : list bool; sf_latest : option (gmap bytes nat) }.

(** Whether a record is wanted, and its key if it has one that counts. *)
Definition scan_wanted (spec : readSpec) (msg : bytes) : outcome (option (option bytes)) :=
  attrs ← SerializedMessage.Attributes msg;
  key ← SerializedMessage.Key msg;
  Ok (if negb (Z.land attrs AttrControl =? 0) then if rs_includeControl spec then Some None else None
      else match key with
           | None => None
           | Some k => if HasPrefix k (key_prefix spec) then Some (Some k) else None
           end).

Definition scan_keep (st : scanning_) (key : option bytes) (rec : prefixQueued) : scanning_ :=
  match sf_latest st with
  | None => {| sf_out := sf_out st ++ [rec]; sf_dead := sf_dead st; sf_latest := None |}
  | Some latest =>
      let dead := match key ≫= λ k, latest !! k with Some i => <[i := true]> (sf_dead st) | None => sf_dead st end in
      {| sf_out := sf_out st ++ [rec]; sf_dead := dead ++ [false];
         sf_latest := Some (match key with Some k => <[k := length (sf_out st)]> latest | None => latest end) |}
  end.

Definition filter_frame (spec : readSpec) (from bound : Z) (st : scanning_) (ms : bytes) (_ : entry)
    : scanning_ + outcome (list prefixQueued) :=
  match (off ← messageSet.Offset ms;
         if negb (inWindow from bound off) then Ok None
         else
           msg ← messageSet.Message ms;
           w ← scan_wanted spec (default [] msg);
           match w with
           | None => Ok None
           | Some key => rec ← copied ms; Ok (Some (key, rec))
           end) with
  | Ok None => inl st
  | Ok (Some (key, rec)) => inl (scan_keep st key rec)
  | Fail e => inr (Fail e)
  | Panic => inr Panic
  end.

(** The records that are not dead. *)
Fixpoint live_records (out : list prefixQueued) (dead : list bool) : list prefixQueued :=
  match out, dead with
  | rec :: out, d :: dead => if d : bool then live_records out dead else rec :: live_records out dead
  | _, _ => []
  end.

Definition filter_ends (st : scanning_) (err : error) : outcome (list prefixQueued) :=
  match err with
  | ErrEOF => Ok (match sf_latest st with None => sf_out st | Some _ => live_records (sf_out st) (sf_dead st) end)
  | _ => Fail (ErrSegmentUnreadable "prefix scan of segment")
  end.

Definition scanSegmentFiltered (fuel : nat) (s : segment) (spec : readSpec) (from bound : Z)
    : option (outcome (list prefixQueued)) :=
  let latest := if rs_skipSuperseded spec then Some ∅ else None in
  match scanning fuel s newSegmentScanner (filter_frame spec from bound) filter_ends
          {| sf_out := []; sf_dead := []; sf_latest := latest |} with
  | None => None
  | Some r => Some (r ← r; r)
  end.

(** *** Segment by segment *)

(** What a read takes from around the log: the files of the digests, the order
    in which workers finish, the option PrefixReadCoalesceBytes. *)
Record around := { a_digest : nat → Z → option bytes; a_order : nat → nat → list nat; a_coalesce : Z }.

Definition serveSegment (fuel : nat) (a : around) (clock : nat) (s : segment) (spec : readSpec) (from bound : Z)
    : option (segment * outcome (list prefixQueued)) :=
  match loadKeyDigest (BaseOffset s) (position s) (a_digest a clock (BaseOffset s)) with
  | Fail e => Some (s, Fail e)
  | Panic => Some (s, Panic)
  | Ok None => r ← scanSegmentFiltered fuel s spec from bound; Some (s, r)
  | Ok (Some d) =>
      r ← digestHits fuel d spec from bound;
      match r with
      | Fail e => Some (s, Fail e)
      | Panic => Some (s, Panic)
      | Ok [] => Some (s, Ok [])
      | Ok hits => fetch fuel s (a_coalesce a) (a_order a clock) hits
      end
  end.

(** The sealed segments from one on. *)
Fixpoint fill_segments (fuel : nat) (a : around) (o : others) (w : world) (p : prefixSource) (bnd : Z) (ptrs : list Z)
    : option (world * prefixSource * outcome ()) :=
  match ptrs with
  | [] => Some (w, source_at p [] 0 (ps_next p) (servedThrough p) true, Ok ())
  | ptr :: ptrs =>
      let w := turn o w in
      match object w ptr with
      | None => Some (w, p, Panic)
      | Some s =>
          if NextOffset s <=? ps_next p then fill_segments fuel a o w p bnd ptrs
          else if (0 <=? bnd) && (bnd <? BaseOffset s)
          then Some (w, source_at p [] 0 (ps_next p) (servedThrough p) true, Ok ())
          else
            '(s', r) ← serveSegment fuel a (w_clock w) s (ps_spec p) (ps_next p) bnd;
            let w := put_object w s' in
            match r with
            | Fail e => Some (w, p, Fail e)
            | Panic => Some (w, p, Panic)
            | Ok [] => fill_segments fuel a o w (source_at p [] 0 (NextOffset s) (servedThrough p) false) bnd ptrs
            | Ok recs => Some (w, source_at p recs 0 (NextOffset s) (NextOffset s) false, Ok ())
            end
      end
  end.

Definition fillFromNextSegment (fuel : nat) (a : around) (o : others) (w : world) (p : prefixSource)
    : option (world * prefixSource * outcome ()) :=
  let next := if ps_next p <? servedThrough p then servedThrough p else ps_next p in
  let p := source_at p [] 0 next (servedThrough p) (done_ p) in
  let w := turn o w in
  match snapshot w with
  | [] => Some (w, source_at p [] 0 next (servedThrough p) true, Ok ())
  | ptrs =>
      let w := turn o w in
      fill_segments fuel a o w p (bound (ps_spec p) (HighWatermark (w_log w))) (removelast ptrs)
  end.

Fixpoint pop (fuel : nat) (a : around) (o : others) (w : world) (p : prefixSource)
    : option (world * prefixSource * outcome (option prefixQueued)) :=
  match fuel with
  | O => None
  | S fuel =>
      match queue p !! qi p with
      | Some rec => Some (w, source_at p (queue p) (S (qi p)) (sint 64 (rr_offset rec + 1)) (servedThrough p) (done_ p), Ok (Some rec))
      | None =>
          if done_ p then Some (w, p, Ok None)
          else
            '(w, p, r) ← fillFromNextSegment fuel a o w p;
            match r with
            | Ok _ => pop fuel a o w p
            | Fail e => Some (w, p, Fail e)
            | Panic => Some (w, p, Panic)
            end
      end
  end.

End codecs.

(** ** What a read wants of a segment *)

Definition admits (spec : readSpec) (f : frm) : bool :=
  if is_control f then rs_includeControl spec
  else match f_key f with Some k => HasPrefix k (key_prefix spec) | None => false end.

(** A negative bound is none. *)
Definition candidate (spec : readSpec) (from bound : Z) (f : frm) : Prop :=
  (from ≤ f_off f ∧ (bound < 0 ∨ f_off f ≤ bound)) ∧ admits spec f = true.

#[export] Instance candidate_dec spec from bound f : Decision (candidate spec from bound f) := _.

Lemma candidate_eq spec from bound f :
  candidate spec from bound f ↔ inWindow from bound (f_off f) = true ∧ admits spec f = true.
Proof. unfold candidate, inWindow. by rewrite andb_true_iff, orb_true_iff, !Z.leb_le, Z.ltb_lt. Qed.

(** A later record has the key of a data record. *)
Definition superseded (f : frm) (later : list frm) : Prop :=
  is_control f = false ∧ Exists (λ g, is_control g = false ∧ f_key g = f_key f) later.

#[export] Instance superseded_dec f later : Decision (superseded f later) := _.

(** The last record of each key, and the control records. *)
Fixpoint last_copies (fs : list frm) : list frm :=
  match fs with
  | [] => []
  | f :: fs => if decide (superseded f fs) then last_copies fs else f :: last_copies fs
  end.

Definition wanted (spec : readSpec) (from bound : Z) (fs : list frm) : list frm :=
  let cs := filter (candidate spec from bound) fs in
  if rs_skipSuperseded spec then last_copies cs else cs.

(** A record as it is handed out. *)
Definition handed (f : frm) : prefixQueued :=
  {| rr_msg := f_data f; rr_offset := f_off f; rr_ts := f_ts f; rr_epoch := f_ep f |}.

(** Its checksum is right. *)
Definition intact (f : frm) : Prop := SerializedMessage.crcMatches (f_data f) = Ok true ∧ 4 ≤ zlen (f_data f).

Lemma copied_sound base0 f : frm_ok base0 f → intact f → copied (fbytes f) = Ok (handed f).
Proof.
  intros Hf [Hc Hz]. destruct (frame_parts base0 f Hf ltac:(lia)) as (E1 & E2 & E3 & E4). unfold copied.
  rewrite E1, bind_Ok, E4, bind_Ok. change (default [] (Some (f_data f))) with (f_data f). unfold SerializedMessage.crcMatches in Hc.
  rewrite (proj2 (Z.ltb_ge _ _)) in Hc by lia. destruct (SerializedMessage.Crc (f_data f)) as [c| |]; [|done|done].
  rewrite bind_Ok in *. destruct (slice_from (f_data f) 4) as [body| |]; [|done|done]. rewrite bind_Ok in *. injection Hc as ->.
  by rewrite E2, bind_Ok, E3, bind_Ok.
Qed.

(** ** The scan *)

(** What the scan makes of one record. *)
Definition scan_step (spec : readSpec) (from bound : Z) (st : scanning_) (f : frm) : scanning_ :=
  if decide (candidate spec from bound f) then scan_keep st (if is_control f then None else f_key f) (handed f) else st.

Lemma filter_frame_step base0 spec from bound st f e :
  frm_ok base0 f → legible f → intact f → filter_frame spec from bound st (fbytes f) e = inl (scan_step spec from bound st f).
Proof.
  intros Hf (Ea & Ek & _) Hs. pose proof Hs as [_ Hz]. destruct (frame_parts base0 f Hf ltac:(lia)) as (E1 & E2 & E3 & E4).
  unfold filter_frame, scan_step. rewrite E1, bind_Ok. destruct (inWindow from bound (f_off f)) eqn:Ew; cbn [negb].
  2: { by rewrite decide_False by (intros [? _]%candidate_eq; congruence). }
  rewrite E4, bind_Ok. change (default [] (Some (f_data f))) with (f_data f). unfold scan_wanted.
  rewrite Ea, bind_Ok, Ek, bind_Ok. fold (is_control f).
  destruct (admits spec f) eqn:Eadm.
  - rewrite decide_True by (by apply candidate_eq). unfold admits in Eadm. destruct (is_control f).
    + rewrite Eadm, bind_Ok, (copied_sound base0), bind_Ok by done. done.
    + destruct (f_key f) as [k|]; [|done]. rewrite Eadm, bind_Ok, (copied_sound base0), bind_Ok by done. done.
  - rewrite decide_False by (intros [_ ?]; congruence). unfold admits in Eadm. destruct (is_control f).
    + by rewrite Eadm, bind_Ok.
    + destruct (f_key f) as [k|]; [|by rewrite bind_Ok]. by rewrite Eadm, bind_Ok.
Qed.

Lemma filter_frames base0 spec from bound fs st pos :
  Forall (frm_ok base0) fs → Forall legible fs → Forall intact fs →
  over_frames (filter_frame spec from bound) filter_ends st pos fs = filter_ends (foldl (scan_step spec from bound) st fs) ErrEOF.
Proof.
  intros Hf Hl Hs. revert st pos. induction fs as [|f fs IH]; intros st pos; [done|].
  apply Forall_cons in Hf as [Hf Hfs], Hl as [Hl Hls], Hs as [Hs Hss]. cbn [over_frames foldl].
  rewrite (filter_frame_step base0) by done. by apply IH.
Qed.

(** Which records are superseded. *)
Fixpoint dead_of (cs : list frm) : list bool :=
  match cs with
  | [] => []
  | f :: cs => bool_decide (superseded f cs) :: dead_of cs
  end.

Lemma dead_of_lookup cs i f : cs !! i = Some f → dead_of cs !! i = Some (bool_decide (superseded f (drop (S i) cs))).
Proof.
  revert i. induction cs as [|g cs IH]; intros i E; [done|]. destruct i as [|i]; [by injection E as ->|]. cbn in *. by apply IH.
Qed.

Lemma length_dead_of cs : length (dead_of cs) = length cs.
Proof. induction cs as [|f cs IH]; [done|]. cbn. by rewrite IH. Qed.

Lemma kept_live cs : live_records (handed <$> cs) (dead_of cs) = handed <$> last_copies cs.
Proof.
  induction cs as [|f cs IH]; [done|]. cbn [fmap list_fmap dead_of live_records last_copies]. fold (handed <$> cs). rewrite IH.
  case_decide as Hd; [by rewrite bool_decide_eq_true_2|by rewrite bool_decide_eq_false_2].
Qed.

(** The last element with a property. *)
Lemma last_there {A} (P : A → Prop) `{∀ x, Decision (P x)} (l : list A) g :
  g ∈ l → P g → ∃ i x, l !! i = Some x ∧ P x ∧ Forall (λ y, ¬ P y) (drop (S i) l).
Proof.
  intros Hg HP. induction l as [|y l IH] using rev_ind; [by apply not_elem_of_nil in Hg|].
  destruct (decide (P y)) as [Hy|Hy].
  - exists (length l), y. rewrite list_lookup_middle by done. split; [done|]. split; [done|].
    rewrite drop_ge by (rewrite length_app; cbn; lia). constructor.
  - apply elem_of_app in Hg as [Hg|Hg]; [|apply list_elem_of_singleton in Hg as ->; done].
    destruct (IH Hg) as (i & x & Ei & Hx & Hl). exists i, x. apply lookup_lt_Some in Ei as Hlt.
    split; [by apply lookup_app_l_Some|]. split; [done|]. rewrite drop_app_le by lia. apply Forall_app. split; [done|]. by constructor.
Qed.

(** [latest] names the last record of each key. *)
Definition latest_of (latest : gmap bytes nat) (cs : list frm) : Prop :=
  ∀ k i, latest !! k = Some i ↔ ∃ f, cs !! i = Some f ∧ has_key k f ∧ Forall (λ g, ¬ has_key k g) (drop (S i) cs).

(** A data record of the read has a key. *)
Definition keyed_data (cs : list frm) : Prop := Forall (λ f, is_control f = false → is_Some (f_key f)) cs.

Lemma superseded_key f k later :
  has_key k f → superseded f later ↔ Exists (has_key k) later.
Proof.
  intros [Hc Hk]. unfold superseded. rewrite !Exists_exists. split.
  - intros [_ (g & Hg & Hgc & Hgk)]. exists g. split; [done|]. split; [done|congruence].
  - intros (g & Hg & Hgc & Hgk). split; [done|]. exists g. split; [done|]. split; [done|congruence].
Qed.

Lemma dead_snoc_other cs f :
  (∀ g, g ∈ cs → is_control g = false → f_key g = f_key f → is_control f = true) → dead_of (cs ++ [f]) = dead_of cs ++ [false].
Proof.
  induction cs as [|g cs IH]; intros Hno; cbn [dead_of app].
  - rewrite bool_decide_eq_false_2; [done|]. intros [_ He]. by apply Exists_nil in He.
  - rewrite IH by (intros x Hx; apply Hno; by right). f_equal. apply bool_decide_ext. unfold superseded. rewrite Exists_app, Exists_cons, Exists_nil.
    split; [|tauto]. intros [Hg [He|[[Hf Ek]|[]]]]; [done|]. specialize (Hno g ltac:(left) Hg (eq_sym Ek)). congruence.
Qed.

Lemma dead_snoc_key cs f k i g :
  has_key k f → cs !! i = Some g → has_key k g → Forall (λ g, ¬ has_key k g) (drop (S i) cs) →
  dead_of (cs ++ [f]) = <[i := true]> (dead_of cs) ++ [false].
Proof.
  intros Hf Ei Hg Hlast. apply list_eq. intros j. destruct (decide (j < length cs)%nat) as [Hj|Hj].
  - destruct (lookup_lt_is_Some_2 cs j Hj) as [x Ex]. rewrite lookup_app_l by (by rewrite length_insert, length_dead_of).
    rewrite (dead_of_lookup (cs ++ [f]) j x) by (by apply lookup_app_l_Some). rewrite drop_app_le by lia.
    destruct (decide (j = i)) as [->|Hne].
    + rewrite Ei in Ex. injection Ex as <-. rewrite list_lookup_insert_eq by (by rewrite length_dead_of). f_equal.
      apply bool_decide_eq_true_2. apply (superseded_key g k _ Hg). apply Exists_app. right. by apply Exists_cons_hd.
    + rewrite list_lookup_insert_ne by done. rewrite (dead_of_lookup cs j x Ex). f_equal. apply bool_decide_ext.
      unfold superseded. rewrite Exists_app, Exists_cons, Exists_nil. split; [|tauto]. intros [Hx [He|[[Hfc Ek]|[]]]]; [done|].
      assert (Hxk : has_key k x) by (split; [done|destruct Hf; congruence]). split; [done|].
      destruct (decide (j < i)%nat) as [Hlt|].
      * apply Exists_exists. exists g. split; [|destruct Hg, Hxk; split; [done|congruence]]. apply list_elem_of_lookup. exists (i - S j)%nat.
        rewrite lookup_drop. by replace (S j + (i - S j))%nat with i by lia.
      * exfalso. rewrite Forall_forall in Hlast. apply (Hlast x); [|done]. apply list_elem_of_lookup. exists (j - S i)%nat.
        rewrite lookup_drop. by replace (S i + (j - S i))%nat with j by lia.
  - rewrite (lookup_app_r (<[i:=true]> (dead_of cs))) by (rewrite length_insert, length_dead_of; lia). rewrite length_insert, length_dead_of.
    destruct (decide (j = length cs)) as [->|].
    + rewrite (dead_of_lookup (cs ++ [f]) (length cs) f) by (by apply list_lookup_middle). rewrite Nat.sub_diag, drop_ge by (rewrite length_app; cbn; lia).
      cbn. f_equal. apply bool_decide_eq_false_2. intros [_ He]. by apply Exists_nil in He.
    + rewrite !lookup_ge_None_2; [done| |rewrite length_dead_of, length_app]; cbn; lia.
Qed.

(** The last record of a key, when a record without it is added. *)
Lemma last_of_snoc cs f k i :
  ¬ has_key k f →
  (∃ x, cs !! i = Some x ∧ has_key k x ∧ Forall (λ g, ¬ has_key k g) (drop (S i) cs)) ↔
  (∃ x, (cs ++ [f]) !! i = Some x ∧ has_key k x ∧ Forall (λ g, ¬ has_key k g) (drop (S i) (cs ++ [f]))).
Proof.
  intros Hnf. split; intros (x & Ex & Hx & Hlast); exists x.
  - apply lookup_lt_Some in Ex as Hlt. split; [by apply lookup_app_l_Some|]. split; [done|]. rewrite drop_app_le by lia.
    apply Forall_app. split; [done|]. by constructor.
  - destruct (decide (i < length cs)%nat) as [Hlt|].
    + rewrite lookup_app_l in Ex by done. split; [done|]. split; [done|]. rewrite drop_app_le in Hlast by lia. by apply Forall_app in Hlast as [? _].
    + exfalso. apply lookup_lt_Some in Ex as Hlt. rewrite length_app in Hlt. cbn in Hlt. assert (i = length cs) as -> by lia.
      rewrite list_lookup_middle in Ex by done. injection Ex as <-. done.
Qed.

Lemma latest_snoc latest cs f k :
  latest_of latest cs → has_key k f → latest_of (<[k := length cs]> latest) (cs ++ [f]).
Proof.
  intros Hl Hf k' i. destruct (decide (k = k')) as [<-|Hne].
  - rewrite lookup_insert_eq. split.
    + intros [= <-]. exists f. rewrite list_lookup_middle by done. split; [done|]. split; [done|].
      rewrite drop_ge by (rewrite length_app; cbn; lia). constructor.
    + intros (x & Ex & Hx & Hlast). f_equal. apply lookup_lt_Some in Ex as Hlt. rewrite length_app in Hlt. cbn in Hlt.
      destruct (decide (i = length cs)) as [->|]; [done|]. exfalso. rewrite Forall_forall in Hlast. apply (Hlast f); [|done].
      rewrite drop_app_le by lia. apply elem_of_app. right. left.
  - rewrite lookup_insert_ne by done. rewrite (Hl k' i). apply last_of_snoc. intros [_ ?]. destruct Hf. congruence.
Qed.

Lemma latest_snoc_control latest cs f : latest_of latest cs → is_control f = true → latest_of latest (cs ++ [f]).
Proof. intros Hl Hc k i. rewrite (Hl k i). apply last_of_snoc. intros [? _]. congruence. Qed.

(** What a scan has after the records [fs]. *)
Lemma scan_fold spec from bound fs :
  let cs := filter (candidate spec from bound) fs in
  let st := foldl (scan_step spec from bound)
              {| sf_out := []; sf_dead := []; sf_latest := if rs_skipSuperseded spec then Some ∅ else None |} fs in
  sf_out st = handed <$> cs ∧
  (if rs_skipSuperseded spec then sf_dead st = dead_of cs ∧ ∃ latest, sf_latest st = Some latest ∧ latest_of latest cs
   else sf_latest st = None).
Proof.
  cbv zeta. induction fs as [|f fs IH] using rev_ind.
  { split; [done|]. destruct (rs_skipSuperseded spec); [|done]. split; [done|]. exists ∅. split; [done|]. intros k i. rewrite lookup_empty.
    split; [done|]. by intros (? & ? & _). }
  rewrite foldl_snoc, filter_app, filter_cons, filter_nil. set (st := foldl _ _ fs) in *. set (cs := filter _ fs) in *.
  destruct IH as [Eo IH]. clearbody st. unfold scan_step. case_decide as Hc; [|by rewrite app_nil_r].
  assert (Hz : length (sf_out st) = length cs) by (by rewrite Eo, length_fmap). unfold scan_keep.
  destruct (rs_skipSuperseded spec).
  2: { rewrite IH. cbn [sf_out sf_latest]. split; [by rewrite Eo, fmap_app|done]. }
  destruct IH as (Ed & latest & El & Hl). rewrite El. cbn [sf_out sf_dead sf_latest]. split; [by rewrite Eo, fmap_app|].
  destruct (is_control f) eqn:Ef.
  - split; [|exists latest; split; [done|by apply latest_snoc_control]]. cbn [mbind option_bind]. rewrite Ed. symmetry. by apply dead_snoc_other.
  - destruct Hc as [_ Ha]. unfold admits in Ha. rewrite Ef in Ha. destruct (f_key f) as [k|] eqn:Ek; [|done].
    assert (Hk : has_key k f) by done. cbn [mbind option_bind]. split; [|exists (<[k := length cs]> latest); rewrite Hz; split; [done|by apply latest_snoc]].
    rewrite Ed. destruct (latest !! k) as [i|] eqn:Ei.
    + apply Hl in Ei as (g & Eg & Hg & Hlast). symmetry. by eapply dead_snoc_key.
    + symmetry. apply dead_snoc_other. intros g Hg Hgc Hgk. exfalso. rewrite Ek in Hgk.
      assert (Hhas : ∃ i, latest !! k = Some i); [|destruct Hhas; congruence].
      destruct (last_there (has_key k) cs g Hg) as (i & x & Hx); [by split|]. exists i. apply Hl. by exists x.
Qed.

Section routes.
Context `{CodecLib}.

Lemma scan_route fuel s fs spec from bound :
  holds s fs → Forall legible fs → Forall intact fs → (length fs < fuel)%nat →
  scanSegmentFiltered fuel s spec from bound = Some (Ok (handed <$> wanted spec from bound fs)).
Proof.
  intros Hh Hl Hs Hfu. unfold scanSegmentFiltered. rewrite (scanning_holds fuel s fs) by done.
  pose proof (holds_frames s fs Hh) as (_ & Hf & _). rewrite (filter_frames (BaseOffset s)), bind_Ok by done.
  destruct (scan_fold spec from bound fs) as [Eo Hst]. set (st := foldl _ _ fs) in *. cbn [filter_ends]. unfold wanted.
  destruct (rs_skipSuperseded spec).
  - destruct Hst as (Ed & latest & El & _). by rewrite El, Eo, Ed, kept_live.
  - by rewrite Hst, Eo.
Qed.

End routes.

(** ** The digest *)

(** No key at or above the bound has the prefix. *)
Lemma upper_back_spec back e k :
  upper_back back = Some e → BytesOrd.Compare k e ≠ Lt → HasPrefix k (reverse back) = false.
Proof.
  revert e. induction back as [|x back IH]; intros e E Hk; [done|]. cbn [upper_back] in E. unfold HasPrefix. rewrite reverse_cons.
  apply bool_decide_eq_false. intros Hp.
  assert (Hpre : take (length (reverse back)) k = reverse back).
  { apply (f_equal (take (length (reverse back)))) in Hp. rewrite take_take, length_app, take_app_length in Hp. rewrite <- Hp at 2. f_equal. lia. }
  destruct (byte.unsigned x =? 255) eqn:Ex.
  - specialize (IH e E Hk). unfold HasPrefix in IH. by rewrite bool_decide_eq_true_2 in IH.
  - injection E as <-. apply Hk. assert (Ek : k = (reverse back ++ [x]) ++ drop (length (reverse back ++ [x])) k) by (rewrite <- Hp at 1; by rewrite take_drop).
    rewrite Ek, <- app_assoc. generalize (drop (length (reverse back ++ [x])) k). intros rest. clear -Ex.
    apply Z.eqb_neq in Ex. pose proof (byte.unsigned_range x).
    induction (reverse back) as [|y l IHl]; cbn [app BytesOrd.Compare].
    + rewrite byte.unsigned_of_Z. unfold byte.wrap. rewrite Z.mod_small by lia. rewrite (proj2 (Z.compare_lt_iff _ _)) by lia. done.
    + rewrite Z.compare_refl. exact IHl.
Qed.

Lemma prefixUpperBound_spec prefix e k :
  prefixUpperBound prefix = Some e → BytesOrd.Compare k e ≠ Lt → HasPrefix k prefix = false.
Proof. intros E Hk. rewrite <- (reverse_involutive prefix). by eapply upper_back_spec. Qed.

(** Keys after one at or above the bound are above it too. *)
Lemma above_bound k k' e : BytesOrd.Compare k e ≠ Lt → BytesOrd.Compare k k' = Lt → BytesOrd.Compare k' e ≠ Lt.
Proof. intros Hk Hlt Hlt'. apply Hk. by eapply BytesOrd.Compare_lt_trans. Qed.

(** The hits of the keys of a digest. *)
Definition hits_of (spec : readSpec) (from bound : Z) (ks : list (bytes * list digestRec)) : list Z :=
  ks ≫= λ k, if HasPrefix k.1 (key_prefix spec) then key_hits spec from bound k.2 else [].

Lemma hits_above spec from bound k rs ks e :
  prefixUpperBound (key_prefix spec) = Some e → BytesOrd.Compare k e ≠ Lt → key_order ((k, rs) :: ks) →
  hits_of spec from bound ((k, rs) :: ks) = [].
Proof.
  intros Ee Hk Ho. apply StronglySorted_cons in Ho as [Ho _]. unfold hits_of. cbn [mbind list_bind]. cbn [fst].
  rewrite (prefixUpperBound_spec _ _ _ Ee Hk). cbn [app]. induction Ho as [|[k' rs'] ks Hlt _ IH]; [done|]. cbn [mbind list_bind fst snd] in *.
  rewrite (prefixUpperBound_spec _ _ _ Ee (above_bound _ _ _ Hk Hlt)). exact IH.
Qed.

Lemma hits_loop_spec fuel b bTs it ks spec from bound hits :
  iterates b bTs it ks → key_order ks → (length ks < fuel)%nat →
  hits_loop fuel it spec from bound hits = Some (Ok (hits ++ hits_of spec from bound ks)).
Proof.
  revert it ks hits. induction fuel as [|fuel IH]; intros it ks hits Hit Ho Hfu; [lia|]. destruct ks as [|[k rs] ks]; cbn [hits_loop].
  - rewrite (next_nil _ _ _ Hit). by rewrite app_nil_r.
  - destruct (next_cons _ _ _ _ _ _ Hit) as (it' & -> & Ek & Er & Hit'). rewrite Ek, Er. pose proof Ho as [_ Ho']%StronglySorted_cons.
    cbn in Hfu. destruct (match prefixUpperBound _ with Some _ => _ | None => _ end) eqn:Eb.
    + destruct (prefixUpperBound (key_prefix spec)) as [e|] eqn:Ee; [|done]. apply bool_decide_eq_true in Eb.
      by rewrite (hits_above spec from bound k rs ks e Ee Eb Ho), app_nil_r.
    + unfold hits_of at 1. cbn [mbind list_bind fst snd]. fold (hits_of spec from bound ks).
      destruct (HasPrefix k (key_prefix spec)); cbn [negb]; rewrite (IH it' ks) by (try done; lia); [by rewrite <- app_assoc|done].
Qed.

(** *** The records wanted, by their offsets *)

Lemma elem_last_copies cs f :
  ascending cs →
  f ∈ last_copies cs ↔ f ∈ cs ∧ (is_control f = false → ∀ g, g ∈ cs → is_control g = false → f_key g = f_key f → f_off g ≤ f_off f).
Proof.
  induction cs as [|c cs IH]; intros Ha; [split; [by intros ?%not_elem_of_nil|by intros [?%not_elem_of_nil _]]|].
  apply StronglySorted_cons in Ha as [Hc Ha]. specialize (IH Ha). rewrite Forall_forall in Hc. cbn [last_copies].
  assert (Hrest : f ∈ last_copies cs ↔ f ∈ cs ∧
    (is_control f = false → ∀ g, g ∈ c :: cs → is_control g = false → f_key g = f_key f → f_off g ≤ f_off f)).
  { rewrite IH. split; intros [Hf Hx]; (split; [done|]); intros Hd g Hg; [|apply (Hx Hd); by right].
    apply elem_of_cons in Hg as [->|Hg]; [|by apply (Hx Hd)]. intros _ _. specialize (Hc f Hf). cbn in Hc. lia. }
  case_decide as Hs.
  - rewrite Hrest. split; intros [Hf Hx]; (split; [|done]); [by right|]. apply elem_of_cons in Hf as [->|Hf]; [|done]. exfalso.
    destruct Hs as [Hd (g & Hg & Hgc & Hgk)%Exists_exists]. specialize (Hx Hd g ltac:(by right) Hgc Hgk). specialize (Hc g Hg). cbn in Hc. lia.
  - rewrite elem_of_cons, Hrest. split.
    + intros [->|[Hf Hx]]; [|by split; [right|]]. split; [left|]. intros Hd g [->|Hg]%elem_of_cons Hgc Hgk; [lia|].
      destruct Hs. split; [done|]. apply Exists_exists. by exists g.
    + intros [Hf Hx]. apply elem_of_cons in Hf as [->|Hf]; [by left|right]. done.
Qed.

Lemma sublist_last_copies cs : last_copies cs `sublist_of` cs.
Proof. induction cs as [|c cs IH]; [done|]. cbn [last_copies]. case_decide; [by apply sublist_cons|by apply sublist_skip]. Qed.

Lemma ascending_sublist fs gs : gs `sublist_of` fs → ascending fs → ascending gs.
Proof.
  intros Hs. induction Hs as [|f gs fs Hs IH|f gs fs Hs IH]; intros Ha; [done|..].
  - apply StronglySorted_cons in Ha as [Hf Ha]. constructor; [by apply IH|]. rewrite Forall_forall in Hf |- *.
    intros g Hg. apply Hf. by eapply elem_of_sublist.
  - apply StronglySorted_cons in Ha as [_ Ha]. by apply IH.
Qed.

Lemma ascending_NoDup fs : ascending fs → NoDup (f_off <$> fs).
Proof.
  induction fs as [|f fs IH]; intros Ha; [constructor|]. apply StronglySorted_cons in Ha as [Hf Ha]. cbn [fmap list_fmap]. constructor; [|by apply IH].
  intros (g & Eg & Hg)%list_elem_of_fmap. rewrite Forall_forall in Hf. specialize (Hf g Hg). cbn in Hf. lia.
Qed.

Lemma wanted_sublist spec from bound fs : wanted spec from bound fs `sublist_of` fs.
Proof.
  unfold wanted. transitivity (filter (candidate spec from bound) fs); [|apply sublist_filter].
  destruct (rs_skipSuperseded spec); [apply sublist_last_copies|done].
Qed.

Lemma elem_wanted spec from bound fs f :
  ascending fs →
  f ∈ wanted spec from bound fs ↔ f ∈ fs ∧ candidate spec from bound f ∧
    (rs_skipSuperseded spec = true → is_control f = false → ∀ g, g ∈ fs → candidate spec from bound g → is_control g = false →
       f_key g = f_key f → f_off g ≤ f_off f).
Proof.
  intros Ha. unfold wanted. set (cs := filter (candidate spec from bound) fs).
  assert (Hcs : ∀ g, g ∈ cs ↔ candidate spec from bound g ∧ g ∈ fs) by (intros g; apply list_elem_of_filter).
  destruct (rs_skipSuperseded spec).
  - rewrite elem_last_copies by (eapply ascending_sublist; [apply sublist_filter|done]). rewrite Hcs. split.
    + intros [[Hc Hf] Hx]. split; [done|]. split; [done|]. intros _ Hd g Hg Hgc. apply (Hx Hd). by apply Hcs.
    + intros (Hf & Hc & Hx). split; [done|]. intros Hd g [Hgc Hg]%Hcs. by apply Hx.
  - rewrite Hcs. split; [intros [Hc Hf]; split; [done|]; by split|]. intros (Hf & Hc & _). done.
Qed.

(** The largest offset in the window. *)
Lemma best_spec from bound (rs : list digestRec) b0 :
  let best := foldl (λ best r, if inWindow from bound (offset r) && (best <? offset r) then offset r else best) b0 rs in
  b0 ≤ best ∧ (∀ r, r ∈ rs → inWindow from bound (offset r) = true → offset r ≤ best) ∧
  (best = b0 ∨ ∃ r, r ∈ rs ∧ inWindow from bound (offset r) = true ∧ offset r = best).
Proof.
  cbv zeta. revert b0. induction rs as [|r rs IH]; intros b0; cbn [foldl].
  { split; [lia|]. split; [|by left]. by intros r ?%not_elem_of_nil. }
  set (b1 := if _ && _ then offset r else b0). destruct (IH b1) as (H1 & H2 & H3).
  assert (Hb1 : b0 ≤ b1 ∧ (inWindow from bound (offset r) = true → offset r ≤ b1) ∧
    (b1 = b0 ∨ (inWindow from bound (offset r) = true ∧ offset r = b1))).
  { unfold b1. destruct (inWindow from bound (offset r)); cbn [andb].
    - destruct (Z.ltb_spec b0 (offset r)); (split; [lia|]); (split; [lia|]); [by right|by left].
    - split; [lia|]. split; [done|]. by left. }
  destruct Hb1 as (H4 & H5 & H6). split; [lia|]. split.
  - intros x [->|Hx]%elem_of_cons Hw; [specialize (H5 Hw); lia|by apply H2].
  - destruct H3 as [E|(x & Hx & Hw & E)]; [|right; exists x; split; [by right|done]].
    destruct H6 as [E6|[Hw E6]]; [left; congruence|]. right. exists r. split; [left|]. split; [done|congruence].
Qed.

(** The hits of one key are the records of that key that are wanted. *)
Lemma elem_key_hits base0 spec from bound k fs o :
  frames_ok base0 fs → HasPrefix k (key_prefix spec) = true →
  o ∈ key_hits spec from bound (keyed_in k fs) ↔ ∃ f, f ∈ wanted spec from bound fs ∧ has_key k f ∧ f_off f = o.
Proof.
  intros Hfr Hp. pose proof Hfr as (_ & _ & _ & Ha & _).
  assert (Hrec : ∀ r, r ∈ keyed_in k fs ↔ ∃ f, r = rec_of f ∧ has_key k f ∧ f ∈ fs).
  { intros r. unfold keyed_in. rewrite list_elem_of_fmap. setoid_rewrite list_elem_of_filter. done. }
  assert (Hcand : ∀ f, has_key k f → candidate spec from bound f ↔ inWindow from bound (f_off f) = true).
  { intros f [Hc Hk]. rewrite candidate_eq. unfold admits. rewrite Hc, Hk, Hp. tauto. }
  unfold key_hits. destruct (rs_skipSuperseded spec) eqn:Esk.
  - destruct (best_spec from bound (keyed_in k fs) (-1)) as (H1 & H2 & H3). set (best := foldl _ _ _) in *. split.
    + destruct (Z.leb_spec 0 best) as [Hb|Hb]; [|by intros ?%not_elem_of_nil]. intros ->%list_elem_of_singleton.
      destruct H3 as [?|(r & Hr & Hw & Er)]; [lia|]. apply Hrec in Hr as (f & -> & Hk & Hf). exists f. split; [|done].
      apply (elem_wanted _ _ _ _ _ Ha). split; [done|]. split; [by apply Hcand|]. intros _ _ g Hg Hgc Hgd Egk.
      assert (Hgk : has_key k g) by (split; [done|destruct Hk; congruence]).
      rewrite (eq_sym Er : best = f_off f) in H2. apply (H2 (rec_of g)); [apply Hrec; by exists g|apply (proj1 (Hcand g Hgk) Hgc)].
    + intros (f & Hf & Hk & <-). apply (elem_wanted _ _ _ _ _ Ha) in Hf as (Hf & Hc & Hx).
      pose proof (H2 (rec_of f) ltac:(apply Hrec; by exists f) (proj1 (Hcand f Hk) Hc)) as Hle. cbn in Hle.
      destruct (frame_base _ _ f Hfr Hf) as [Hb0 _].
      destruct H3 as [?|(r & Hr & Hw & Er)]; [lia|]. apply Hrec in Hr as (g & -> & Hgk & Hg). cbn in Er.
      assert (f_off g ≤ f_off f).
      { apply Hx; [done|apply Hk|done|apply (proj2 (Hcand g Hgk) Hw)|apply Hgk|]. destruct Hk, Hgk. congruence. }
      rewrite (proj2 (Z.leb_le _ _)) by lia. apply list_elem_of_singleton. lia.
  - rewrite list_elem_of_filter, list_elem_of_fmap. split.
    + intros [Hw (r & -> & (f & -> & Hk & Hf)%Hrec)]. exists f. split; [|done]. apply (elem_wanted _ _ _ _ _ Ha). split; [done|]. split; [by apply Hcand|]. congruence.
    + intros (f & Hf & Hk & <-). apply (elem_wanted _ _ _ _ _ Ha) in Hf as (Hf & Hc & _). split; [apply (proj1 (Hcand f Hk) Hc)|].
      exists (rec_of f). split; [done|]. apply Hrec. by exists f.
Qed.

Lemma NoDup_key_hits spec from bound k fs : ascending fs → NoDup (key_hits spec from bound (keyed_in k fs)).
Proof.
  intros Ha. unfold key_hits. destruct (rs_skipSuperseded spec); [destruct (0 <=? _); [apply NoDup_singleton|constructor]|].
  apply NoDup_filter. unfold keyed_in. rewrite <- list_fmap_compose. apply (ascending_NoDup (filter (has_key k) fs)).
  eapply ascending_sublist; [apply sublist_filter|done].
Qed.

(** A key the iterator meets is that of some record. *)
Lemma keys_of_records fs ks :
  key_order ks → (∀ k rs, (k, rs) ∈ ks ↔ rs = keyed_in k fs ∧ rs ≠ []) → (length ks ≤ length fs)%nat.
Proof.
  intros Ho Hks. assert (Hsub : ks.*1 ⊆+ omap f_key fs).
  { apply NoDup_submseteq.
    - clear Hks. induction Ho as [|[k rs] ks _ IH Hk]; [constructor|]. cbn. constructor; [|done].
      intros ([k' rs'] & -> & Hin)%list_elem_of_fmap. rewrite Forall_forall in Hk. specialize (Hk _ Hin). cbn in Hk.
      by rewrite (proj2 (BytesOrd.Compare_eq k' k') eq_refl) in Hk.
    - intros k ([k' rs] & -> & [-> Hne]%Hks)%list_elem_of_fmap. unfold keyed_in in Hne. destruct (filter (has_key k') fs) as [|f l] eqn:Ef; [done|].
      assert (Hf : f ∈ filter (has_key k') fs) by (rewrite Ef; left). apply list_elem_of_filter in Hf as [[_ Hk] Hf].
      apply list_elem_of_omap. by exists f. }
  apply submseteq_length in Hsub. rewrite length_fmap in Hsub. etransitivity; [exact Hsub|].
  clear. induction fs as [|f fs IH]; [done|]. cbn. destruct (f_key f); cbn; lia.
Qed.

(** The hits, keyed and control, are the offsets wanted, once each. *)
Lemma hits_wanted base0 spec from bound fs ks :
  frames_ok base0 fs → key_order ks → (∀ k rs, (k, rs) ∈ ks ↔ rs = keyed_in k fs ∧ rs ≠ []) →
  hits_of spec from bound ks ++
    (if rs_includeControl spec then filter (λ o, inWindow from bound o = true) (f_off <$> filter (λ f, is_control f = true) fs) else []) ≡ₚ
  f_off <$> wanted spec from bound fs.
Proof.
  intros Hfr Ho Hks. pose proof Hfr as (_ & _ & _ & Ha & _).
  assert (Hkeyed : ∀ o, o ∈ hits_of spec from bound ks ↔ ∃ f, f ∈ wanted spec from bound fs ∧ is_control f = false ∧ f_off f = o).
  { intros o. unfold hits_of. rewrite list_elem_of_bind. split.
    - intros ([k rs] & Ho' & [-> Hne]%Hks). cbn [fst snd] in Ho'. destruct (HasPrefix k _) eqn:Hp; [|by apply not_elem_of_nil in Ho'].
      apply (elem_key_hits base0) in Ho' as (f & Hf & [Hc _] & Eo); [|done|done]. by exists f.
    - intros (f & Hf & Hc & Eo). pose proof Hf as Hf'. apply (elem_wanted _ _ _ _ _ Ha) in Hf' as (Hin & [_ Hadm] & _).
      unfold admits in Hadm. rewrite Hc in Hadm. destruct (f_key f) as [k|] eqn:Ek; [|done]. exists (k, keyed_in k fs). cbn [fst snd]. rewrite Hadm.
      split; [apply (elem_key_hits base0); try done; by exists f|]. apply Hks. split; [done|]. intros En.
      assert (Hr : rec_of f ∈ keyed_in k fs) by (unfold keyed_in; apply list_elem_of_fmap_2, list_elem_of_filter; done).
      rewrite En in Hr. by apply not_elem_of_nil in Hr. }
  assert (Hctl : ∀ o, o ∈ (if rs_includeControl spec then filter (λ o, inWindow from bound o = true) (f_off <$> filter (λ f, is_control f = true) fs) else []) ↔
    ∃ f, f ∈ wanted spec from bound fs ∧ is_control f = true ∧ f_off f = o).
  { intros o. split.
    - destruct (rs_includeControl spec) eqn:Ei; [|by intros ?%not_elem_of_nil]. rewrite list_elem_of_filter, list_elem_of_fmap.
      intros [Hw (f & -> & [Hc Hf]%list_elem_of_filter)]. exists f. split; [|done]. apply (elem_wanted _ _ _ _ _ Ha).
      split; [done|]. split; [|congruence]. apply candidate_eq. split; [done|]. unfold admits. by rewrite Hc.
    - intros (f & Hf & Hc & <-). apply (elem_wanted _ _ _ _ _ Ha) in Hf as (Hin & [Hw Hadm]%candidate_eq & _). unfold admits in Hadm. rewrite Hc in Hadm.
      rewrite Hadm. apply list_elem_of_filter. split; [done|]. by apply list_elem_of_fmap_2, list_elem_of_filter. }
  apply NoDup_Permutation.
  - apply NoDup_app. split; [|split].
    + unfold hits_of. apply NoDup_bind.
      * intros [k1 r1] [k2 r2] o [-> _]%Hks [-> _]%Hks H1 H2. cbn [fst snd] in *.
        destruct (HasPrefix k1 _) eqn:P1; [|by apply not_elem_of_nil in H1]. destruct (HasPrefix k2 _) eqn:P2; [|by apply not_elem_of_nil in H2].
        apply (elem_key_hits base0) in H1 as (f1 & W1 & [_ K1] & E1), H2 as (f2 & W2 & [_ K2] & E2); [|done..].
        assert (f1 = f2) as <-; [|congruence].
        apply (ascending_inj fs); [done|by apply (elem_wanted _ _ _ _ _ Ha) in W1 as [? _]|by apply (elem_wanted _ _ _ _ _ Ha) in W2 as [? _]|lia].
      * intros [k rs] [-> _]%Hks. cbn [fst snd]. destruct (HasPrefix k _); [by apply NoDup_key_hits|constructor].
      * clear -Ho. induction Ho as [|[k rs] ks _ IH Hk]; [constructor|]. constructor; [|done]. intros Hin. rewrite Forall_forall in Hk.
        specialize (Hk _ Hin). cbn in Hk. by rewrite (proj2 (BytesOrd.Compare_eq k k) eq_refl) in Hk.
    + intros o (f & Hf & Hc & Eo)%Hkeyed (g & Hg & Hgc & Eg)%Hctl. assert (f = g) as <-; [|congruence].
      apply (ascending_inj fs); [done|by apply (elem_wanted _ _ _ _ _ Ha) in Hf as [? _]|by apply (elem_wanted _ _ _ _ _ Ha) in Hg as [? _]|lia].
    + destruct (rs_includeControl spec); [|constructor]. apply NoDup_filter, ascending_NoDup. eapply ascending_sublist; [apply sublist_filter|done].
  - apply ascending_NoDup. eapply ascending_sublist; [apply wanted_sublist|done].
  - intros o. rewrite elem_of_app, Hkeyed, Hctl, list_elem_of_fmap. split.
    + intros [(f & Hf & _ & Eo)|(f & Hf & _ & Eo)]; by exists f.
    + intros (f & -> & Hf). destruct (is_control f) eqn:Ec; [right|left]; by exists f.
Qed.

Lemma digestHits_spec base0 fuel d fs spec from bound :
  describes d fs → frames_ok base0 fs → short_keys fs → (length fs < fuel)%nat →
  digestHits fuel d spec from bound = Some (Ok (f_off <$> wanted spec from bound fs)).
Proof.
  intros Hd Hfr Hsk Hfu. destruct (describes_iterates base0 d fs Hd Hfr Hsk) as (ks & Hit & Ho & Hks).
  pose proof (keys_of_records fs ks Ho Hks) as Hlen. destruct Hd as (_ & _ & Hctl). unfold digestHits.
  rewrite (hits_loop_spec fuel _ _ _ ks spec from bound [] Hit Ho) by lia. cbn [app]. rewrite Hctl. do 2 f_equal.
  pose proof (hits_wanted base0 spec from bound fs ks Hfr Ho Hks) as Hp.
  apply (Sorted_unique Z.le).
  - apply Sorted_merge_sort, _.
  - apply StronglySorted_Sorted. destruct Hfr as (_ & _ & _ & Ha & _). pose proof (ascending_sublist _ _ (wanted_sublist spec from bound fs) Ha) as Hw.
    clear -Hw. induction Hw as [|f l _ IH Hf]; [constructor|]. cbn. constructor; [done|]. apply Forall_fmap. eapply Forall_impl; [exact Hf|]. cbn. lia.
  - rewrite merge_sort_Permutation, <- Hp. by destruct (rs_includeControl spec); rewrite ?app_nil_r.
Qed.

(** ** Fetching what a digest names *)

(** A run begins at the record of its first offset. *)
Definition run_ok (fs : list frm) (run : prefixRun) : Prop :=
  ∃ x y, fs = x ++ y ∧ start run = zlen (fs_bytes x) ∧ offs run ≠ [] ∧ offs run `sublist_of` (f_off <$> y).

(** The frames that remain hold the offsets wanted, the first of them first. *)
Lemma collect_frames base0 fs pos want out :
  Forall (frm_ok base0) fs → Forall intact fs → ascending fs → want `sublist_of` (f_off <$> fs) → want ≠ [] →
  ∃ m, over_frames collect_frame collect_ends (want, out) pos fs = Ok m ∧
    (∀ f, f ∈ fs → f_off f ∈ want → m !! f_off f = Some (handed f)) ∧ (∀ o, o ∉ want → m !! o = out !! o).
Proof.
  intros Hf Hs Ha Hsub Hne. revert pos want out Hsub Hne. induction fs as [|f fs IH]; intros pos want out Hsub Hne.
  { by apply sublist_nil_r in Hsub. }
  apply Forall_cons in Hf as [Hf Hfs], Hs as [Hs Hss]. apply StronglySorted_cons in Ha as [Hlt Ha]. specialize (IH Hfs Hss Ha).
  destruct (frame_parts base0 f Hf) as (E1 & _); [destruct Hs; lia|]. cbn [over_frames]. unfold collect_frame at 1. rewrite E1.
  destruct want as [|o want]; [done|]. rewrite Forall_forall in Hlt.
  assert (Hrest : ∀ w, w `sublist_of` (f_off <$> fs) → ∀ o, o ∈ w → f_off f < o).
  { intros w Hw o' Ho'. eapply elem_of_sublist in Ho'; [|exact Hw]. apply list_elem_of_fmap in Ho' as (g & -> & Hg). specialize (Hlt g Hg). by cbn in Hlt. }
  cbn [fmap list_fmap] in Hsub. apply sublist_cons_r in Hsub as [Hsub|(want' & [= -> ->] & Hsub)].
  - pose proof (Hrest _ Hsub o ltac:(left)) as Ho. rewrite (proj2 (Z.ltb_lt _ _)) by done.
    destruct (IH (pos + zlen (fbytes f)) (o :: want) out Hsub ltac:(done)) as (m & E & Hin & Hout). exists m. split; [done|]. split; [|done].
    intros g [->|Hg]%elem_of_cons Hw; [|by apply Hin]. specialize (Hrest _ Hsub _ Hw). lia.
  - rewrite Z.ltb_irrefl, Z.eqb_refl, (copied_sound base0) by done.
    assert (Hnot : f_off f ∉ want') by (intros Hin; specialize (Hrest _ Hsub _ Hin); lia). destruct want' as [|o' want'].
    + exists (<[f_off f := handed f]> out). split; [done|]. split.
      * intros g [->|Hg]%elem_of_cons Hw; [by rewrite lookup_insert_eq|]. apply list_elem_of_singleton in Hw. specialize (Hlt g Hg). cbn in Hlt. lia.
      * intros o Ho. rewrite lookup_insert_ne; [done|]. intros <-. apply Ho. left.
    + destruct (IH (pos + zlen (fbytes f)) (o' :: want') (<[f_off f := handed f]> out) Hsub ltac:(done)) as (m & E & Hin & Hout).
      exists m. split; [done|]. split.
      * intros g [->|Hg]%elem_of_cons Hw; [rewrite Hout by done; by rewrite lookup_insert_eq|]. apply elem_of_cons in Hw as [Hw|Hw].
        -- specialize (Hlt g Hg). cbn in Hlt. lia.
        -- by apply Hin.
      * intros o Ho. rewrite Hout by (intros ?; apply Ho; by right). rewrite lookup_insert_ne; [done|]. intros <-. apply Ho. left.
Qed.

Section fetch.
Context `{CodecLib}.

Lemma collectRun_spec fuel s fs run :
  holds s fs → Forall intact fs → run_ok fs run → (length fs < fuel)%nat →
  ∃ m, collectRun fuel s run = Some (Ok m) ∧ (∀ f, f ∈ fs → f_off f ∈ offs run → m !! f_off f = Some (handed f)) ∧
    (∀ o, o ∉ offs run → m !! o = None).
Proof.
  intros Hh Hs (x & y & -> & Es & Hne & Hsub) Hfu. pose proof Hh as (Hl & Hcl & _ & (_ & Hf & Hd & Ha & _) & _).
  apply Forall_app in Hf as [_ Hf], Hs as [_ Hs], Hd as [_ Hd]. pose proof Ha as (Hxy & _ & Hay)%StronglySorted_app.
  destruct (collect_frames (BaseOffset s) y (zlen (fs_bytes x)) (offs run) ∅ Hf Hs Hay Hsub Hne) as (m & E & Hin & Hout).
  exists m. split; [|split].
  - unfold collectRun. destruct (offs run) as [|o os] eqn:Eo; [done|].
    rewrite (scanning_frames (BaseOffset s) fuel s _ x y); [by rewrite E, bind_Ok| |done|done|rewrite length_app in Hfu; lia].
    split_and!; [by apply fresh_cache|done|done].
  - intros f [Hfx|Hfy]%elem_of_app Hw; [|by apply Hin]. exfalso. eapply elem_of_sublist in Hw; [|exact Hsub].
    apply list_elem_of_fmap in Hw as (g & Eg & Hg). specialize (Hxy f g Hfx Hg). cbn in Hxy. lia.
  - intros o Ho. rewrite Hout by done. apply lookup_empty.
Qed.

(** *** Runs *)

Lemma entry_at fuel s fs x f y :
  holds s fs → fs = x ++ f :: y → (length fs < fuel)%nat →
  ∃ c e, findEntry fuel s (f_off f) = Some (with_cache s c, Ok e) ∧ e_Position e = zlen (fs_bytes x) ∧ holds (with_cache s c) fs.
Proof.
  intros Hh Ef Hfu. pose proof (holds_ascending _ _ Hh) as Ha.
  destruct (findEntryBy_spec fuel s fs (λ z _, f_off f <=? z) (λ z _, f_off f <? z)) as (c & E & Hh');
    [done|by apply ascending_searchable|done|].
  assert (Hlow : Forall (λ g, (f_off f <=? f_off g) = false) x).
  { rewrite Ef in Ha. apply StronglySorted_app in Ha as (Hx & _). apply Forall_forall. intros g Hg. specialize (Hx g f Hg ltac:(left)). cbn in Hx.
    apply Z.leb_gt. lia. }
  assert (Ek : seek 0 (λ g, f_off f <=? f_off g) fs = Some (zlen (fs_bytes x), f)).
  { rewrite Ef, seek_skip by done. cbn. by rewrite Z.leb_refl. }
  exists c. eexists. split; [|split; [|exact Hh']].
  - unfold findEntry, anchorPositionForOffset. change (λ e, f_off f <? Index.Offset e) with (entry_pred (λ z _, f_off f <? z)).
    rewrite E. unfold found. by rewrite Ek.
  - by destruct (blockMode s).
Qed.

(** A run whose offsets are those of records at or after its start. *)
Definition run_at (fs : list frm) (run : prefixRun) : Prop :=
  ∃ x y, fs = x ++ y ∧ start run = zlen (fs_bytes x) ∧ offs run ≠ [] ∧ ∀ o, o ∈ offs run → o ∈ f_off <$> y.

Definition pl_all (pl : planning) : list prefixRun := pl_runs pl ++ match pl_cur pl with Some c => [c] | None => [] end.

(** The runs so far hold the offsets [os]. *)
Definition planned (fs : list frm) (pl : planning) (os : list Z) : Prop :=
  Forall (run_at fs) (pl_all pl) ∧ (pl_all pl ≫= offs) = os.

Lemma plan_one_planned s coalesce fs pl os x f y e :
  ascending fs → planned fs pl os → fs = x ++ f :: y → e_Position e = zlen (fs_bytes x) → Forall (λ o, o < f_off f) os →
  planned fs (plan_one s coalesce pl (f_off f) e) (os ++ [f_off f]).
Proof.
  intros Ha [Hr Eo] Ef Ep Hlow. unfold plan_one.
  assert (Hnew : planned fs {| pl_runs := pl_runs pl ++ match pl_cur pl with Some c => [c] | None => [] end;
      pl_cur := Some {| start := e_Position e; offs := [f_off f] |};
      pl_prev := Some (e_Position e + e_Size e, blockAt s (e_Position e + e_Size e - 1)) |} (os ++ [f_off f])).
  { split; unfold pl_all; cbn [pl_runs pl_cur]; fold (pl_all pl).
    - apply Forall_app. split; [done|]. constructor; [|constructor]. exists x, (f :: y). split; [done|]. split; [done|]. split; [done|].
      intros o ->%list_elem_of_singleton. cbn. left.
    - by rewrite bind_app, Eo. }
  destruct (splits _ _ _ _); [exact Hnew|]. destruct (pl_cur pl) as [cur|] eqn:Ec; [|exact Hnew]. unfold planned, pl_all in *. rewrite Ec in *.
  cbn [pl_runs pl_cur]. apply Forall_app in Hr as [Hr Hc]. apply Forall_cons in Hc as [(x0 & y0 & E0 & Es & Hne & Hin) _]. split.
  - apply Forall_app. split; [done|]. constructor; [|constructor]. exists x0, y0. split; [done|]. split; [done|]. cbn [offs].
    split; [by destruct (offs cur)|]. intros o [Ho|Ho]%elem_of_app; [by apply Hin|]. apply list_elem_of_singleton in Ho as ->.
    destruct (offs cur) as [|o0 l] eqn:El; [done|]. pose proof (Hin o0 ltac:(left)) as (g & Eg & Hg)%list_elem_of_fmap.
    assert (Hlt : o0 < f_off f).
    { rewrite Forall_forall in Hlow. apply Hlow. rewrite <- Eo, bind_app. apply elem_of_app. right. cbn. rewrite El. left. }
    apply list_elem_of_fmap. exists f. split; [done|]. assert (Hf : f ∈ x0 ++ y0) by (rewrite <- E0, Ef; apply elem_of_app; right; left).
    apply elem_of_app in Hf as [Hf|Hf]; [|done]. exfalso. rewrite E0 in Ha. apply StronglySorted_app in Ha as (Hx & _).
    specialize (Hx f g Hf Hg). cbn in Hx. lia.
  - rewrite bind_app in Eo |- *. cbn [mbind list_bind offs] in *. rewrite app_nil_r in *. by rewrite <- Eo, app_assoc.
Qed.

Lemma plan_offs_spec fuel s coalesce fs pl os ws :
  holds s fs → (length fs < fuel)%nat → planned fs pl os → ws `sublist_of` fs →
  Forall (λ w, Forall (λ o, o < f_off w) os) ws →
  ∃ c runs, plan_offs fuel s coalesce pl (f_off <$> ws) = Some (with_cache s c, Ok runs) ∧ holds (with_cache s c) fs ∧
    Forall (run_at fs) runs ∧ (runs ≫= offs) = os ++ (f_off <$> ws).
Proof.
  intros Hh Hfu. revert s pl os Hh. induction ws as [|f ws IH]; intros s pl os Hh Hpl Hsub Hlow.
  - exists (cache s), (pl_all pl). cbn [fmap list_fmap plan_offs]. destruct Hpl as [Hr Eo].
    split; [by destruct s|]. split; [by destruct s|]. split; [done|]. by rewrite app_nil_r.
  - cbn [fmap list_fmap plan_offs]. pose proof (holds_ascending _ _ Hh) as Ha.
    assert (Hf : f ∈ fs) by (eapply elem_of_sublist; [|exact Hsub]; left). apply list_elem_of_split in Hf as (x & y & Ef).
    destruct (entry_at fuel s fs x f y Hh Ef Hfu) as (c & e & -> & Ep & Hh'). cbn [mbind option_bind].
    apply Forall_cons in Hlow as [Hlf Hlow].
    destruct (IH (with_cache s c) (plan_one (with_cache s c) coalesce pl (f_off f) e) (os ++ [f_off f]) Hh') as (c2 & runs & E & Hh2 & Hr & Eo).
    + by eapply plan_one_planned.
    + etransitivity; [|exact Hsub]. by apply sublist_cons.
    + pose proof (ascending_sublist _ _ Hsub Ha) as [Hw _]%StronglySorted_cons. rewrite Forall_forall in Hw, Hlow |- *.
      intros w Hin. apply Forall_app. split; [by apply Hlow|]. constructor; [|constructor]. specialize (Hw w Hin). by cbn in Hw.
    + exists c2, runs. rewrite with_cache_same in *. split; [done|]. split; [done|]. split; [done|]. by rewrite Eo, <- app_assoc.
Qed.

(** *** All runs *)

Lemma sorted_sublist (os l : list Z) :
  StronglySorted Z.lt os → StronglySorted Z.lt l → (∀ o, o ∈ os → o ∈ l) → os `sublist_of` l.
Proof.
  intros Hos Hl. revert os Hos. induction Hl as [|z l Hl IH Hz]; intros os Hos Hin.
  - destruct os as [|o os]; [done|]. specialize (Hin o ltac:(left)). by apply not_elem_of_nil in Hin.
  - rewrite Forall_forall in Hz. destruct os as [|o os]; [apply sublist_nil_l|]. apply StronglySorted_cons in Hos as [Ho Hos]. rewrite Forall_forall in Ho.
    destruct (decide (o = z)) as [->|Hne].
    + apply sublist_skip, IH; [done|]. intros o' Ho'. specialize (Ho o' Ho'). specialize (Hin o' ltac:(by right)).
      apply elem_of_cons in Hin as [->|]; [lia|done].
    + apply sublist_cons, IH; [by constructor; [|apply Forall_forall]|]. intros o' Ho'.
      assert (Hoz : z < o) by (pose proof (Hin o ltac:(left)) as Hx; apply elem_of_cons in Hx as [?|Hx]; [done|by apply Hz]).
      pose proof (Hin o' Ho') as Hx. apply elem_of_cons in Hx as [->|]; [|done]. apply elem_of_cons in Ho' as [->|Ho']; [done|].
      specialize (Ho z Ho'). lia.
Qed.

Lemma ascending_offs fs : ascending fs → StronglySorted Z.lt (f_off <$> fs).
Proof. intros Ha. by apply (StronglySorted_fmap _ (λ f g, f_off f < f_off g)). Qed.

Lemma run_at_ok fs run : ascending fs → StronglySorted Z.lt (offs run) → run_at fs run → run_ok fs run.
Proof.
  intros Ha Hs (x & y & -> & Es & Hne & Hin). exists x, y. do 3 (split; [done|]). apply sorted_sublist; [done| |done].
  apply ascending_offs. by apply StronglySorted_app in Ha as (_ & _ & ?).
Qed.

(** What a map built from several that agree holds. *)
Lemma fold_union {V} (ms : list (gmap Z V)) order (m0 : gmap Z V) o (v : V) :
  (∀ n m r, ms !! n = Some m → m !! o = Some r → r = v) → (∀ r, m0 !! o = Some r → r = v) →
  (m0 !! o = Some v ∨ ∃ n m, n ∈ order ∧ ms !! n = Some m ∧ m !! o = Some v) →
  foldl (λ out n, default ∅ (ms !! n) ∪ out) m0 order !! o = Some v.
Proof.
  intros Hms. revert m0. induction order as [|n order IH]; intros m0 H0 Hex; cbn [foldl].
  - destruct Hex as [?|(n & m & Hn & _)]; [done|by apply not_elem_of_nil in Hn].
  - set (m1 := default ∅ (ms !! n) ∪ m0). apply IH.
    + unfold m1. intros r [Hr|[_ Hr]]%lookup_union_Some_raw; [|by apply H0]. destruct (ms !! n) as [m|] eqn:En; [by eapply Hms|done].
    + assert (Hm1 : ∀ w, m1 !! o = Some w → m1 !! o = Some v).
      { intros w Hw. rewrite Hw. f_equal. unfold m1 in Hw. apply lookup_union_Some_raw in Hw as [Hw|[_ Hw]]; [|by apply H0].
        destruct (ms !! n) as [m|] eqn:En; [by eapply Hms|done]. }
      destruct Hex as [Hex|(k & m & [->|Hk]%elem_of_cons & Ek & Em)]; [| |right; by exists k, m].
      * left. destruct (default ∅ (ms !! n) !! o) as [w|] eqn:Ew; [by apply (Hm1 w); unfold m1; apply lookup_union_Some_raw; left|].
        apply (Hm1 v). unfold m1. apply lookup_union_Some_raw. by right.
      * left. apply (Hm1 v). unfold m1. apply lookup_union_Some_raw. left. by rewrite Ek.
Qed.

(** What the workers bring together does not depend on their order. *)
Lemma fetchRuns_spec fuel s fs runs order :
  holds s fs → Forall intact fs → Forall (run_ok fs) runs → (length fs < fuel)%nat → order ≡ₚ seq 0 (length runs) →
  ∃ m, fetchRuns fuel s runs order = Some (Ok m) ∧ ∀ f, f ∈ fs → f_off f ∈ (runs ≫= offs) → m !! f_off f = Some (handed f).
Proof.
  intros Hh Hs Hr Hfu Hord.
  assert (Hall : ∃ ms, mapM (collectRun fuel s) runs = Some (Ok <$> ms) ∧ Forall2 (λ run m,
    (∀ f, f ∈ fs → f_off f ∈ offs run → m !! f_off f = Some (handed f)) ∧ (∀ o, o ∉ offs run → m !! o = None)) runs ms).
  { clear Hord. induction Hr as [|run runs Hrun Hr IH]; [by exists []|]. destruct IH as (ms & E & HF).
    destruct (collectRun_spec fuel s fs run Hh Hs Hrun Hfu) as (m & Em & Hm). exists (m :: ms). split; [|by constructor].
    cbn [mapM fmap list_fmap]. rewrite Em, E. done. }
  destruct Hall as (ms & E & HF). unfold fetchRuns. rewrite E. cbn [mbind option_bind]. unfold merge_runs.
  assert (Hp : existsb (λ r : outcome (gmap Z prefixQueued), match r with Panic => true | _ => false end) (Ok <$> ms) = false).
  { clear. induction ms as [|m ms IH]; [done|]. exact IH. }
  assert (Hf : all_fetched (Ok <$> ms) = Ok ms) by (clear; induction ms as [|m ms IH]; [done|]; cbn [fmap list_fmap all_fetched]; by rewrite bind_Ok, IH).
  rewrite Hp, Hf, bind_Ok. eexists. split; [done|]. intros f Hin Hoff. apply fold_union.
  - intros n m r En Er. destruct (Forall2_lookup_r _ _ _ _ _ HF En) as (run & Erun & H1 & H2).
    destruct (decide (f_off f ∈ offs run)) as [Ho|Ho]; [rewrite (H1 f Hin Ho) in Er; by injection Er|]. by rewrite (H2 _ Ho) in Er.
  - intros r. by rewrite lookup_empty.
  - right. apply list_elem_of_bind in Hoff as (run & Ho & Hrun). apply list_elem_of_lookup in Hrun as [n En].
    destruct (Forall2_lookup_l _ _ _ _ _ HF En) as (m & Em & H1 & _). exists n, m. split; [|by split; [|apply H1]].
    rewrite Hord. apply elem_of_seq. apply lookup_lt_Some in En. lia.
Qed.

Lemma look_up_all m ws : Forall (λ f, m !! f_off f = Some (handed f)) ws → look_up m (f_off <$> ws) = Ok (handed <$> ws).
Proof. induction 1 as [|f ws Hf _ IH]; [done|]. cbn [fmap list_fmap look_up]. by rewrite Hf, IH. Qed.

Lemma fetch_spec fuel s fs ws coalesce (order : nat → list nat) :
  holds s fs → Forall intact fs → ws `sublist_of` fs → (length fs < fuel)%nat → (∀ n, order n ≡ₚ seq 0 n) →
  ∃ c, fetch fuel s coalesce order (f_off <$> ws) = Some (with_cache s c, Ok (handed <$> ws)) ∧ holds (with_cache s c) fs.
Proof.
  intros Hh Hs Hsub Hfu Hord. pose proof (holds_ascending _ _ Hh) as Ha. unfold fetch, planRuns.
  destruct (plan_offs_spec fuel s (coalesceBudget coalesce defaultPrefixReadCoalesceBytes) fs {| pl_runs := []; pl_cur := None; pl_prev := None |} [] ws)
    as (c & runs & -> & Hh' & Hr & Eo); [done|done|done|done|by apply Forall_forall|].
  cbn [mbind option_bind]. cbn [app] in Eo. assert (Hok : Forall (run_ok fs) runs).
  { rewrite Forall_forall in Hr |- *. intros run Hrun. apply run_at_ok; [done| |by apply Hr].
    pose proof (ascending_offs _ (ascending_sublist _ _ Hsub Ha)) as Hsort. rewrite <- Eo in Hsort. clear -Hsort Hrun.
    induction runs as [|run' runs IH]; [by apply not_elem_of_nil in Hrun|]. cbn [mbind list_bind] in Hsort.
    apply StronglySorted_app in Hsort as (_ & H1 & H2). apply elem_of_cons in Hrun as [->|Hrun]; [done|by apply IH]. }
  destruct (fetchRuns_spec fuel (with_cache s c) fs runs (order (length runs)) Hh' Hs Hok Hfu (Hord _)) as (m & -> & Hm). cbn [mbind option_bind].
  exists c. split; [|done]. rewrite bind_Ok, look_up_all; [done|]. apply Forall_forall. intros f Hf. apply Hm; [by eapply elem_of_sublist|].
  rewrite Eo. by apply list_elem_of_fmap_2.
Qed.

(** ** A segment *)

(** The digest file of a segment is not loaded, or describes the segment. *)
Definition digest_true (file : option bytes) (s : segment) (fs : list frm) : Prop :=
  loadKeyDigest (BaseOffset s) (position s) file = Ok None ∨
  ∃ d, loadKeyDigest (BaseOffset s) (position s) file = Ok (Some d) ∧ describes d fs.

Lemma serveSegment_spec fuel a clock s fs spec from bound :
  holds s fs → Forall legible fs → Forall intact fs → short_keys fs → (length fs < fuel)%nat →
  (∀ n, a_order a clock n ≡ₚ seq 0 n) → digest_true (a_digest a clock (BaseOffset s)) s fs →
  ∃ c, serveSegment fuel a clock s spec from bound = Some (with_cache s c, Ok (handed <$> wanted spec from bound fs)) ∧
    holds (with_cache s c) fs.
Proof.
  intros Hh Hl Hs Hk Hfu Hord Hdig. unfold serveSegment. destruct Hdig as [->|(d & -> & Hd)].
  - exists (cache s). rewrite (scan_route fuel s fs) by done. split; by destruct s.
  - rewrite (digestHits_spec (BaseOffset s) fuel d fs) by (try done; by apply holds_frames). cbn [mbind option_bind].
    destruct (fetch_spec fuel s fs (wanted spec from bound fs) (a_coalesce a) (a_order a clock) Hh Hs (wanted_sublist _ _ _ _) Hfu Hord) as (c & E & Hh').
    destruct (wanted spec from bound fs) as [|w ws] eqn:Ew; [|by exists c]. exists (cache s). split; by destruct s.
Qed.

(** The file of a digest that was written for the segment, or is missing, or was
    damaged in one byte. *)
Definition digest_file (d : keyDigest) (file : option bytes) : Prop :=
  file = None ∨ file = Some (encodeKeyDigest d) ∨
  ∃ i x y, encodeKeyDigest d !! i = Some y ∧ x ≠ y ∧ file = Some (<[i := x]> (encodeKeyDigest d)).

Lemma digest_file_true fuel s fs d file :
  holds s fs → Forall legible fs → (length fs < fuel)%nat → buildKeyDigest fuel s = Some (Ok d) → digest_file d file → digest_true file s fs.
Proof.
  intros Hh Hl Hfu Hd Hfile. destruct (build_spec fuel s fs Hh Hl Hfu) as (d' & E & Hdesc & Hok & Eb & Es & _). rewrite E in Hd. injection Hd as ->.
  unfold digest_true. rewrite <- Eb, <- Es. destruct Hfile as [->|[->|(i & x & y & Ey & Hne & ->)]]; [by left| |left; by eapply load_damaged].
  right. destruct (load_encoded d Hok) as [rest El]. exists (streamed d rest). split; [done|]. by apply describes_streamed.
Qed.

(** C10: A filtered read finds exactly the records wanted, by either route.
    Whether the digest of a sealed segment is there, missing or damaged, whatever
    the gap budget and whichever worker finishes first, the segment serves in
    offset order the records of the window with a key of the prefix (and the
    control records, if asked for; only the last of each key, if superseded ones
    are skipped), each with its bytes, timestamp and epoch. *)
Theorem prefix_routes_agree fuel a clock s fs spec from bound d :
  holds s fs → Forall legible fs → Forall intact fs → short_keys fs → (length fs < fuel)%nat →
  (∀ n, a_order a clock n ≡ₚ seq 0 n) → buildKeyDigest fuel s = Some (Ok d) →
  digest_file d (a_digest a clock (BaseOffset s)) →
  ∃ c, serveSegment fuel a clock s spec from bound = Some (with_cache s c, Ok (handed <$> wanted spec from bound fs)) ∧
    holds (with_cache s c) fs.
Proof. intros. apply serveSegment_spec; try done. by eapply digest_file_true. Qed.

End fetch.

(** *** Witness *)

Lemma kv_intact : Forall intact kv_frames.
Proof.
  assert (Hk : ∀ o k, 4 ≤ zlen (f_data (kv_frame o k)) → intact (kv_frame o k)) by (intros o k Hz; split; [apply crcMatches_record|done]).
  apply Forall_forall. intros f Hf. unfold kv_frames in Hf. rewrite !elem_of_cons in Hf.
  destruct Hf as [->|[->|[->|Hf%not_elem_of_nil]]]; [apply Hk; by vm_compute..|done].
Qed.

Lemma kv_short : short_keys kv_frames.
Proof.
  assert (Hk : ∀ f, zlen (f_data f) ≤ 100 → ∀ k, f_key f = Some k → zlen k ≤ Z.shiftl 1 24).
  { intros f Hz k Ek. pose proof (f_key_len f k Ek). change (Z.shiftl 1 24) with (2 ^ 24). lia. }
  repeat (apply Forall_cons; split); [apply Hk; by vm_compute..|by apply Forall_nil].
Qed.

(** Keys that begin with the byte 107, the last of each. *)
Definition sample_prefix : readSpec :=
  {| rs_offset := 4100; rs_until := None; rs_follow := false; rs_uncommitted := false; rs_prefix := Some (ascii_bytes [107]);
     rs_skipSuperseded := true; rs_includeControl := false |}.

Lemma prefix_routes_agree_witness :
  ∃ s d c, @buildKeyDigest half_lib 9 s = Some (Ok d) ∧
    @serveSegment half_lib 9 {| a_digest := λ _ _, Some (encodeKeyDigest d); a_order := λ _ n, reverse (seq 0 n); a_coalesce := -1 |}
      0 s sample_prefix 4100 4103 = Some (with_cache s c, Ok (handed <$> wanted sample_prefix 4100 4103 kv_frames)) ∧
    f_off <$> wanted sample_prefix 4100 4103 kv_frames = [4101; 4103].
Proof.
  destruct kv_holds as (s & _ & Hh & _). destruct (@build_spec half_lib 9 s kv_frames Hh (proj2 kv_frames_ok)) as (d & Ed & _); [simpl; lia|].
  destruct (@prefix_routes_agree half_lib 9 {| a_digest := λ _ _, Some (encodeKeyDigest d); a_order := λ _ n, reverse (seq 0 n); a_coalesce := -1 |}
    0 s kv_frames sample_prefix 4100 4103 d Hh (proj2 kv_frames_ok) kv_intact kv_short) as (c & E & _);
    [simpl; lia|intros n; apply reverse_Permutation|done|right; left; done|].
  exists s, d, c. split; [done|]. split; [done|]. by vm_compute.
Defined.

End PrefixRead.
