(* ===== verification/PrefixDrain.v ===== *)
(** * What a filtered read takes from the sealed segments, beside appends

    [pop] hands out the records of one sealed segment after the other.  [due] is
    what the read wants of the sealed segments from an offset on; while the log
    grows, the records handed out are the first ones of it. *)

From Stdlib Require Import ZArith Lia.
From stdpp Require Import base list numbers strings gmap sorting.
From coqutil Require Import Byte.
From S2P Require Import Prelude GoStd Wire Compress BlockV3 Block Framing EpochCache Index Segment.
From S2P Require Import SegmentIndex SegmentSearch SegmentReopen Log LogAppend LogRead KeyDigest.
From S2P Require Import ReadSource ReadTail PrefixRead.

Open Scope Z_scope.

Module PrefixDrain.
Import Segment SegmentIndex SegmentSearch SegmentReopen Log LogAppend LogRead KeyDigest ReadSource ReadTail PrefixRead.

(** ** Windows *)

Lemma filter_same (P Q : frm → Prop) `{!∀ f, Decision (P f), !∀ f, Decision (Q f)} (fs : list frm) :
  (∀ f, f ∈ fs → P f ↔ Q f) → filter P fs = filter Q fs.
Proof.
  induction fs as [|f fs IH]; intros Hf; [done|]. rewrite !filter_cons, IH by (intros; apply Hf; by right).
  pose proof (Hf f ltac:(left)). by repeat case_decide; try tauto.
Qed.

Lemma wanted_window spec from from' bnd fs :
  (∀ f, f ∈ fs → inWindow from bnd (f_off f) = inWindow from' bnd (f_off f)) → wanted spec from bnd fs = wanted spec from' bnd fs.
Proof.
  intros Hf. unfold wanted. rewrite (filter_same (candidate spec from bnd) (candidate spec from' bnd)); [done|].
  intros f Hin. by rewrite !candidate_eq, (Hf f Hin).
Qed.

Lemma wanted_none spec from bnd fs : (∀ f, f ∈ fs → inWindow from bnd (f_off f) = false) → wanted spec from bnd fs = [].
Proof.
  intros Hf. unfold wanted. assert (filter (candidate spec from bnd) fs = []) as ->; [|by destruct (rs_skipSuperseded spec)].
  apply elem_of_nil_inv. intros f [[Hw _]%candidate_eq Hin]%list_elem_of_filter. by rewrite (Hf f Hin) in Hw.
Qed.

(** What a read wants of the segments in front of the last. *)
Definition due (spec : readSpec) (bnd from : Z) (fss : list (list frm)) : list frm :=
  concat (wanted spec from bnd <$> fss).

Lemma due_app spec bnd from fss gss : due spec bnd from (fss ++ gss) = due spec bnd from fss ++ due spec bnd from gss.
Proof. unfold due. by rewrite fmap_app, concat_app. Qed.

Lemma due_bounded spec bnd from fss : 0 ≤ bnd → Forall (λ f, f_off f ≤ bnd) (due spec bnd from fss).
Proof.
  intros Hb. apply Forall_forall. intros f Hf. unfold due in Hf. apply elem_of_concat in Hf as (j & fs & Ej & Hf).
  apply list_lookup_fmap_Some in Ej as (gs & -> & _). unfold wanted in Hf.
  assert (Hc : f ∈ filter (candidate spec from bnd) gs).
  { destruct (rs_skipSuperseded spec); [|done]. eapply elem_of_submseteq; [exact Hf|apply sublist_submseteq, sublist_last_copies]. }
  apply list_elem_of_filter in Hc as [[[_ ?] _] _]. lia.
Qed.

(** A committed read is bounded by the watermark. *)
Lemma bound_committed spec h : rs_uncommitted spec = false → bound spec h ≤ h.
Proof. intros Hu. unfold bound. rewrite Hu. destruct (_ <? 0); [done|]. cbn. destruct (Z.ltb_spec h (default (-1) (rs_until spec))); lia. Qed.

Lemma due_window spec from from' bnd fss :
  (∀ f, f ∈ concat fss → inWindow from bnd (f_off f) = inWindow from' bnd (f_off f)) → due spec bnd from fss = due spec bnd from' fss.
Proof.
  intros Hf. unfold due. f_equal. apply list_fmap_ext. intros i fs Ei. apply wanted_window. intros f Hin. apply Hf.
  apply elem_of_concat. by exists i, fs.
Qed.

Lemma due_none spec bnd from fss : (∀ f, f ∈ concat fss → inWindow from bnd (f_off f) = false) → due spec bnd from fss = [].
Proof.
  intros Hf. induction fss as [|fs fss IH]; [done|]. change (due spec bnd from (fs :: fss)) with (wanted spec from bnd fs ++ due spec bnd from fss).
  rewrite wanted_none, IH; [done|..]; intros f Hin; apply Hf; cbn; apply elem_of_app; auto.
Qed.

(** ** Sealed segments beside appends *)

Section drain.
Context `{CodecLib}.

(** The first records handed out, fewer if there are no more. *)
Fixpoint pop_n (k fuel : nat) (a : around) (o : others) (w : world) (p : prefixSource)
    : option (world * prefixSource * outcome (list prefixQueued)) :=
  match k with
  | O => Some (w, p, Ok [])
  | S k =>
      '(w, p, r) ← pop fuel a o w p;
      match r with
      | Ok None => Some (w, p, Ok [])
      | Ok (Some rec) => '(w, p, r) ← pop_n k fuel a o w p; Some (w, p, recs ← r; Ok (rec :: recs))
      | Fail e => Some (w, p, Fail e)
      | Panic => Some (w, p, Panic)
      end
  end.

(** The records of the sealed segments are sound, and so are their digests; [P]
    is something known of the watermark. *)
Context {P : Z → Prop}.

Record readable (a : around) (w : world) (fss : list (list frm)) : Prop := {
  rd_ok : w_ok w fss;
  rd_sound : ∀ i s fs, (S i < length fss)%nat → segments (w_log w) !! i = Some s → fss !! i = Some fs →
    Forall legible fs ∧ Forall intact fs ∧ short_keys fs ∧
    ∀ clock, digest_true (a_digest a clock (BaseOffset s)) s fs;
  rd_hw : P (hw (w_log w));
}.

(** Others append, and what they seal is sound. *)
Definition sealing (a : around) (o : others) : Prop :=
  ∀ w fss, readable a w fss → ∃ fss', later (D := Growing) w fss (turn o w) fss' ∧ readable a (turn o w) fss'.

Abbreviation later := (later (D := Growing)).

(** What follows a segment is above it. *)
Lemma behind w fss i s f :
  w_ok w fss → segments (w_log w) !! i = Some s → f ∈ concat (drop (S i) fss) → NextOffset s ≤ f_off f.
Proof.
  intros [(HF & Hl & _) _] Es Hf. apply elem_of_concat in Hf as (j & gs & Ej & Hf). rewrite lookup_drop in Ej.
  destruct (Forall2_lookup_r _ _ _ _ _ HF Ej) as (t & Et & Ht). pose proof (seg_range _ _ _ f Ht Hf).
  pose proof (sorted_lookup _ _ i (S i + j) s t Hl ltac:(lia) Es Et) as Hx. cbn in Hx. lia.
Qed.

(** One of the first [m] segments ends at or above [n]. *)
Definition passed (m : nat) (n : Z) (w : world) : Prop :=
  ∃ k s, (k < m)%nat ∧ segments (w_log w) !! k = Some s ∧ n ≤ NextOffset s.

Lemma sealed_later w fss w' fss' k s :
  w_ok w fss → later w fss w' fss' → (S k < length fss)%nat → segments (w_log w) !! k = Some s →
  ∃ s', segments (w_log w') !! k = Some s' ∧ NextOffset s' = NextOffset s.
Proof.
  intros [(HF & _) _] L Hk Es. destruct (Forall2_lookup_l _ _ _ _ _ HF Es) as (fs & Ef & Hs).
  pose proof (lt_bases _ _ _ _ L) as Hb. pose proof (lt_ok _ _ _ _ L) as [(HF' & _) _].
  destruct (lt_frames _ _ _ _ L k fs Ef) as (new & Ef' & Hnew). rewrite (Hnew Hk), app_nil_r in Ef'.
  destruct (Forall2_lookup_r _ _ _ _ _ HF' Ef') as (s' & Es' & Hs'). exists s'. split; [done|].
  rewrite (seg_next _ _ _ Hs), (seg_next _ _ _ Hs'). f_equal. apply (prefix_lookup_Some _ _ k (BaseOffset s)) in Hb.
  - rewrite list_lookup_fmap, Es' in Hb. by injection Hb.
  - by rewrite list_lookup_fmap, Es.
Qed.

(** What is sealed stays, and what is sealed later is above it. *)
Lemma sealed_grows w fss w' fss' :
  w_ok w fss → later w fss w' fss' →
  ∃ more, removelast fss' = removelast fss ++ more ∧ ∀ n f, passed (pred (length fss)) n w → f ∈ concat more → n ≤ f_off f.
Proof.
  intros Hw L. pose proof Hw as [Hi _]. destruct (inv_active _ _ Hi) as (gss & gs & Efss & _ & _).
  pose proof (lt_ok _ _ _ _ L) as Hw'. pose proof Hw' as [Hi' _]. destruct (inv_active _ _ Hi') as (hss & hs & Efss' & _ & _).
  destruct (lt_frames _ _ _ _ L (length gss) gs) as (new & Ef & _); [by rewrite Efss, list_lookup_middle|]. apply lookup_lt_Some in Ef.
  pose proof (stretches_take _ _ (length gss) (lt_frames _ _ _ _ L) ltac:(rewrite Efss, length_app; cbn; lia)) as Etk.
  rewrite Efss, Efss', !removelast_last. rewrite Efss, Efss' in Etk. rewrite Efss', length_app in Ef. cbn in Ef.
  rewrite take_app_length, take_app_le in Etk by lia. exists (drop (length gss) hss). split; [rewrite <- (take_drop (length gss) hss) at 1; by rewrite Etk|].
  intros n f (k & s & Hk & Es & Hn) Hf. rewrite <- Efss in Hk. destruct (sealed_later _ _ _ _ k s Hw L ltac:(lia) Es) as (s' & Es' & En).
  assert (Hin : f ∈ concat (drop (S k) fss')); [|pose proof (behind _ _ _ _ _ Hw' Es' Hin); lia].
  rewrite Efss, length_app in Hk. cbn in Hk. apply elem_of_concat in Hf as (j & x & Ej & Hf). rewrite lookup_drop in Ej.
  apply elem_of_concat. exists (length gss + j - S k)%nat, x. split; [|done]. rewrite lookup_drop.
  replace (S k + (length gss + j - S k))%nat with (length gss + j)%nat by lia. rewrite Efss'. by apply lookup_app_l_Some.
Qed.

(** *** Filling the queue *)

Section source.
Context (a : around) (fuel : nat) (o : others) (spec : readSpec) (bnd : Z).
Context (Hfuel : 2 ^ 26 ≤ Z.of_nat fuel) (Hord : ∀ clock n, a_order a clock n ≡ₚ seq 0 n) (Ho : sealing a o) (HP : ∀ h, P h → bound spec h = bnd).

Lemma cache_later w fss i s fs c :
  readable a w fss → segments (w_log w) !! i = Some s → fss !! i = Some fs → holds (with_cache s c) fs →
  later w fss (put_object w (with_cache s c)) fss ∧ readable a (put_object w (with_cache s c)) fss.
Proof.
  intros [Hw Hsound HPw] Es Ef Hh. pose proof Hw as [Hi [Hnd _]]. pose proof Hi as (HF & _).
  destruct (Forall2_lookup_l _ _ _ _ _ HF Es) as (fs' & Ef' & Hs). rewrite Ef in Ef'. injection Ef' as <-.
  assert (L : later w fss (put_object w (with_cache s c)) fss) by (eapply put_later; try done; by apply seg_cache).
  split; [done|]. split; [apply (lt_ok _ _ _ _ L)| |].
  2: { unfold put_object. destruct (list_find _ _) as [[n x]|]; [|done]. cbn [w_log]. unfold put_segment. by destruct (_ <? _)%nat. }
  intros j t gs Hj Et Eg.
  unfold put_object in Et. change (id (with_cache s c)) with (id s) in Et. rewrite (list_find_named _ _ _ Hnd Es) in Et. cbn [w_log] in Et.
  rewrite segments_put in Et by (by apply lookup_lt_Some in Es). destruct (decide (j = i)) as [->|Hne].
  - rewrite list_lookup_insert_eq in Et by (by apply lookup_lt_Some in Es). injection Et as <-. by apply (Hsound i s gs).
  - rewrite list_lookup_insert_ne in Et by done. by apply (Hsound j t gs).
Qed.

(** The queue after a search of the segments with the frames [gss]. *)
Definition filled (p p' : prefixSource) (m : nat) (w : world) (gss : list (list frm)) : Prop :=
  ps_spec p' = spec ∧ qi p' = 0%nat ∧ ps_next p ≤ ps_next p' ∧
  ((done_ p' = true ∧ queue p' = [] ∧ due spec bnd (ps_next p) gss = []) ∨
   (done_ p' = false ∧ ∃ q, q ≠ [] ∧ queue p' = handed <$> q ∧ servedThrough p' = ps_next p' ∧
      Forall (λ f, 0 ≤ f_off f < servedThrough p' ∧ servedThrough p' < 2 ^ 63) q ∧ passed m (ps_next p') w ∧
      due spec bnd (ps_next p) gss = q ++ due spec bnd (ps_next p') gss)).

Lemma wanted_below n fs : (∀ f, f ∈ fs → f_off f < n) → wanted spec n bnd fs = [].
Proof. intros Hb. apply wanted_none. intros f Hin. unfold inWindow. by rewrite (proj2 (Z.leb_gt n (f_off f))) by (by apply Hb). Qed.

Lemma due_above n n' gss : n ≤ n' → (∀ f, f ∈ concat gss → n' ≤ f_off f) → due spec bnd n gss = due spec bnd n' gss.
Proof.
  intros Hn Hab. apply due_window. intros f Hf. specialize (Hab f Hf). unfold inWindow. by rewrite !(proj2 (Z.leb_le _ (f_off f))) by lia.
Qed.

(** A segment that is done with. *)
Lemma filled_skip p p1 p' m w fs gss n :
  filled p1 p' m w gss → ps_next p ≤ ps_next p1 → n ≤ ps_next p1 → (∀ f, f ∈ fs → f_off f < n) →
  due spec bnd (ps_next p) (fs :: gss) = due spec bnd (ps_next p1) gss → filled p p' m w (fs :: gss).
Proof.
  intros (Hsp & Hqi & Hn & Hc) Hle Hn1 Hb E. split; [done|]. split; [done|]. split; [lia|]. rewrite E.
  destruct Hc as [Hc|(Hd & q & Hq & Eq & Es & Hf & Hp & Ed)]; [by left|]. right. split; [done|]. exists q. rewrite Ed. do 5 (split; [done|]).
  f_equal. change (due spec bnd (ps_next p') (fs :: gss)) with (wanted spec (ps_next p') bnd fs ++ due spec bnd (ps_next p') gss).
  rewrite wanted_below; [done|]. intros f Hin. specialize (Hb f Hin). lia.
Qed.

(** The next segment of a search, one access later. *)
Lemma fill_head w fss i n ptr :
  readable a w fss → (i + S n < length fss)%nat → (id <$> segments (w_log w)) !! i = Some ptr →
  ∃ f1 s fs, later w fss (turn o w) f1 ∧ readable a (turn o w) f1 ∧ (length fss ≤ length f1)%nat ∧
    segments (w_log (turn o w)) !! i = Some s ∧ object (turn o w) ptr = Some s ∧ f1 !! i = Some fs ∧
    seg_ok (opts (w_log (turn o w))) s fs ∧
    take (S n) (drop i fss) = fs :: take n (drop (S i) f1) ∧
    (∀ f, f ∈ fs → 0 ≤ BaseOffset s ≤ f_off f ∧ f_off f < NextOffset s) ∧
    (∀ f, f ∈ concat (take n (drop (S i) f1)) → NextOffset s ≤ f_off f).
Proof.
  intros Hr Hlen Hid. destruct (Ho w fss Hr) as (f1 & L & Hr1). set (w1 := turn o w) in *.
  pose proof (rd_ok _ _ _ Hr1) as Hw1. pose proof (stretches_take _ _ (i + S n) (lt_frames _ _ _ _ L) Hlen) as Etk.
  assert (Hlen1 : (length fss ≤ length f1)%nat).
  { pose proof (lt_ids _ _ _ _ L) as Hp%prefix_length. rewrite !length_fmap in Hp.
    pose proof (rd_ok _ _ _ Hr) as [(HF & _) _]. pose proof Hw1 as [(HF1 & _) _]. apply Forall2_length in HF, HF1. lia. }
  rewrite take_drop_commute, <- Etk, <- take_drop_commute.
  assert (Ei : (id <$> segments (w_log w1)) !! i = Some ptr) by (eapply prefix_lookup_Some; [done|apply (lt_ids _ _ _ _ L)]).
  rewrite list_lookup_fmap in Ei. destruct (segments (w_log w1) !! i) as [s|] eqn:Es; [|done]. injection Ei as <-.
  pose proof Hw1 as [(HF & _) _]. destruct (Forall2_lookup_l _ _ _ _ _ HF Es) as (fs & Ef & Hs). exists f1, s, fs.
  do 4 (split; [done|]). split; [by eapply object_in|]. split; [done|]. split; [done|]. split; [by rewrite (drop_S _ _ _ Ef)|].
  split; [intros; by eapply seg_range|]. intros f Hf. apply (behind w1 f1 i s f Hw1 Es).
  apply elem_of_concat in Hf as (j & gs & Ej & Hf). apply elem_of_concat. exists j, gs. split; [|done]. by apply lookup_take_Some in Ej as [? _].
Qed.

Lemma fill_spec ptrs w fss i p :
  readable a w fss → (i + length ptrs < length fss)%nat →
  (∀ j ptr, ptrs !! j = Some ptr → (id <$> segments (w_log w)) !! (i + j)%nat = Some ptr) →
  ps_spec p = spec → done_ p = false →
  ∃ w' fss' p', fill_segments fuel a o w p bnd ptrs = Some (w', p', Ok ()) ∧ later w fss w' fss' ∧ readable a w' fss' ∧
    filled p p' (i + length ptrs) w' (take (length ptrs) (drop i fss)).
Proof.
  revert w fss i p. induction ptrs as [|ptr ptrs IH]; intros w fss i p Hr Hlen Hids Hsp Hd.
  { exists w, fss. eexists. split; [done|]. split; [by apply later_refl, Hr|]. split; [done|]. split; [done|]. split; [done|]. split; [cbn; lia|].
    left. by rewrite take_0. }
  cbn [fill_segments length] in *. pose proof (Hids 0%nat ptr eq_refl) as Ei. rewrite Nat.add_0_r in Ei.
  destruct (fill_head w fss i (length ptrs) ptr Hr Hlen Ei) as (f1 & s & fs & L & Hr1 & Hlen1 & Es & -> & Ef & Hs & -> & Hin & Hab).
  set (w1 := turn o w) in *. set (gss := take (length ptrs) (drop (S i) f1)) in *. pose proof (seg_base_next _ _ _ Hs) as Hbn.
  assert (Hcons : ∀ n, due spec bnd n (fs :: gss) = wanted spec n bnd fs ++ due spec bnd n gss) by done.
  assert (Hrec : ∀ w2 p1, later w1 f1 w2 f1 → readable a w2 f1 → ps_spec p1 = spec → done_ p1 = false →
    ps_next p ≤ ps_next p1 → NextOffset s ≤ ps_next p1 → due spec bnd (ps_next p) (fs :: gss) = due spec bnd (ps_next p1) gss →
    ∃ w' fss' p', fill_segments fuel a o w2 p1 bnd ptrs = Some (w', p', Ok ()) ∧ later w fss w' fss' ∧ readable a w' fss' ∧
      filled p p' (i + S (length ptrs)) w' (fs :: gss)).
  { intros w2 p1 L2 Hr2 Hsp1 Hd1 Hle1 Hle2 Ed. destruct (IH w2 f1 (S i) p1 Hr2) as (w3 & f3 & p' & E3 & L3 & Hr3 & Hf); [lia| |done|done|].
    { intros j p0 Ej. specialize (Hids (S j) p0 Ej). rewrite <- plus_n_Sm in Hids.
      eapply prefix_lookup_Some; [done|]. etransitivity; [apply (lt_ids _ _ _ _ L)|apply (lt_ids _ _ _ _ L2)]. }
    exists w3, f3, p'. split; [done|]. split; [by eapply later_trans, later_trans|]. split; [done|].
    rewrite <- plus_n_Sm. apply (filled_skip p p1 p' (S (i + length ptrs)) w3 fs gss (NextOffset s)); try done. intros f Hx. by apply Hin. }
  destruct (Z.leb_spec (NextOffset s) (ps_next p)) as [Hle|Hlt].
  { apply Hrec; try done; [by apply later_refl, Hr1|]. rewrite Hcons, wanted_below; [done|]. intros f Hf. specialize (Hin f Hf). lia. }
  pose proof (due_above (ps_next p) (NextOffset s) gss ltac:(lia) Hab) as Hup.
  destruct ((0 <=? bnd) && (bnd <? BaseOffset s)) eqn:Eb.
  { apply andb_true_iff in Eb as [Eb1%Z.leb_le Eb2%Z.ltb_lt]. exists w1, f1. eexists. split; [done|]. split; [done|]. split; [done|].
    split; [done|]. split; [done|]. split; [cbn; lia|]. left. split; [done|]. split; [done|]. apply due_none. intros f Hf.
    assert (BaseOffset s ≤ f_off f) by (cbn in Hf; apply elem_of_app in Hf as [Hf%Hin|Hf%Hab]; lia).
    unfold inWindow. rewrite (proj2 (Z.ltb_ge bnd 0)), (proj2 (Z.leb_gt (f_off f) bnd)) by lia. by rewrite andb_false_r. }
  destruct (rd_sound _ _ _ Hr1 i s fs) as (Hleg & Hint & Hsh & Hdig); [lia|done|done|]. pose proof Hs as (Hh & _ & _ & Hnx).
  destruct (serveSegment_spec fuel a (w_clock w1) s fs spec (ps_next p) bnd Hh Hleg Hint Hsh (ample_frames _ _ _ Hfuel Hh) (Hord _) (Hdig _))
    as (c & E & Hhc).
  rewrite Hsp, E. cbn [mbind option_bind]. destruct (cache_later w1 f1 i s fs c Hr1 Es Ef Hhc) as [L2 Hr2].
  set (w2 := put_object w1 (with_cache s c)) in *. pose proof (later_trans _ _ _ _ _ _ L L2) as L02.
  destruct (wanted spec (ps_next p) bnd fs) as [|f0 q] eqn:Ew; cbn [fmap list_fmap].
  - apply Hrec; try done; cbn [source_at ps_next]; [lia|]. by rewrite Hcons, Ew, Hup.
  - exists w2, f1. eexists. split; [done|]. split; [done|]. split; [done|]. split; [done|]. split; [done|]. cbn [source_at ps_next servedThrough done_ queue].
    split; [lia|]. right. split; [done|]. exists (f0 :: q). split; [done|]. split; [done|]. split; [done|]. split; [|split].
    + apply Forall_forall. intros f Hf. rewrite <- Ew in Hf. pose proof (Hin f (elem_of_sublist _ _ _ Hf (wanted_sublist spec (ps_next p) bnd fs))).
      rewrite (seg_next _ _ _ Hs) in *. lia.
    + destruct (sealed_later _ _ _ _ i s (rd_ok _ _ _ Hr1) L2 ltac:(lia) Es) as (s2 & Es2 & En). exists i, s2. split; [lia|]. split; [done|]. lia.
    + rewrite !Hcons, Ew, Hup. f_equal. rewrite wanted_below; [done|]. intros f Hf. by apply Hin.
Qed.

(** *** Handing out *)

(** Where the search goes on. *)
Definition resume (p : prefixSource) : Z := if ps_next p <? servedThrough p then servedThrough p else ps_next p.

(** The records [given] were handed out; the rest of what is due from [n0] is in
    the queue, or due from where the search goes on. *)
Definition handing (n0 : Z) (w : world) (fss : list (list frm)) (p : prefixSource) (given : list frm) : Prop :=
  ps_spec p = spec ∧ done_ p = false ∧ ∃ q, drop (qi p) (queue p) = handed <$> q ∧ n0 ≤ resume p ∧
    (q ≠ [] → servedThrough p = resume p) ∧ Forall (λ f, 0 ≤ f_off f < resume p ∧ resume p < 2 ^ 63) q ∧
    (resume p = n0 ∨ passed (pred (length fss)) (resume p) w) ∧
    due spec bnd n0 (removelast fss) = given ++ q ++ due spec bnd (resume p) (removelast fss).

Lemma due_later n n' q w fss w' fss' :
  w_ok w fss → later w fss w' fss' → n ≤ n' → n' = n ∨ passed (pred (length fss)) n' w →
  due spec bnd n (removelast fss) = q ++ due spec bnd n' (removelast fss) →
  due spec bnd n (removelast fss') = q ++ due spec bnd n' (removelast fss').
Proof.
  intros Hw L Hn Hp E. destruct (sealed_grows _ _ _ _ Hw L) as (more & -> & Hab). rewrite !due_app, E, <- app_assoc. do 2 f_equal.
  destruct Hp as [->|Hp]; [done|]. apply due_above; [done|]. intros f Hf. by apply Hab.
Qed.

Lemma passed_later n w fss w' fss' :
  w_ok w fss → later w fss w' fss' → passed (pred (length fss)) n w → passed (pred (length fss')) n w'.
Proof.
  intros Hw L (k & s & Hk & Es & Hn). destruct (sealed_later _ _ _ _ k s Hw L ltac:(lia) Es) as (s' & Es' & En). exists k, s'.
  split; [|split; [done|lia]]. pose proof (lt_ids _ _ _ _ L) as Hp%prefix_length. rewrite !length_fmap in Hp.
  destruct Hw as [(HF & _) _]. pose proof (lt_ok _ _ _ _ L) as [(HF' & _) _]. apply Forall2_length in HF, HF'. lia.
Qed.

Lemma handing_later n0 w fss w' fss' p given :
  w_ok w fss → later w fss w' fss' → handing n0 w fss p given → handing n0 w' fss' p given.
Proof.
  intros Hw L (Hsp & Hd & q & Eq & Hn & Hs & Hf & Hp & E). split; [done|]. split; [done|]. exists q. do 4 (split; [done|]).
  split; [destruct Hp as [|Hp]; [by left|right; by eapply passed_later]|]. rewrite app_assoc in *. by eapply due_later.
Qed.

(** The search for the next segment with something wanted. *)
Lemma fillNext_spec w fss p :
  readable a w fss → ps_spec p = spec → done_ p = false →
  ∃ w1 f1 w' fss' p', fillFromNextSegment fuel a o w p = Some (w', p', Ok ()) ∧ later w fss w1 f1 ∧ later w1 f1 w' fss' ∧
    readable a w' fss' ∧ filled (source_at p [] 0 (resume p) (servedThrough p) (done_ p)) p' (pred (length f1)) w' (removelast f1).
Proof.
  intros Hr Hsp Hd. unfold fillFromNextSegment. fold (resume p). cbn zeta.
  destruct (Ho w fss Hr) as (f1 & L1 & Hr1). set (w1 := turn o w) in *. destruct (Ho w1 f1 Hr1) as (f2 & L2 & Hr2). set (w2 := turn o w1) in *.
  pose proof (rd_ok _ _ _ Hr1) as [Hi1 _]. destruct (inv_active _ _ Hi1) as (gss & gs & Ef1 & HF & _).
  assert (Esn : snapshot w1 = (id <$> older (w_log w1)) ++ [id (active (w_log w1))]) by (unfold snapshot, segments; by rewrite fmap_app).
  set (ptrs := id <$> older (w_log w1)) in *. rewrite Esn.
  assert (Hb : bound spec (HighWatermark (w_log w2)) = bnd) by apply HP, (rd_hw _ _ _ Hr2).
  assert (Hlp : length ptrs = length gss) by (unfold ptrs; rewrite length_fmap; by apply Forall2_length in HF).
  assert (Hlen : (length ptrs < length f1)%nat) by (rewrite Ef1, length_app; cbn; lia).
  pose proof (stretches_take _ _ _ (lt_frames _ _ _ _ L2) Hlen) as Etk. apply (f_equal length) in Etk as Hl. rewrite !length_take in Hl.
  assert (Hlen2 : (length ptrs < length f2)%nat).
  { destruct (lookup_lt_is_Some_2 f1 (length ptrs) Hlen) as [x Ex]. destruct (lt_frames _ _ _ _ L2 _ _ Ex) as (new & E & _). by apply lookup_lt_Some in E. }
  destruct (fill_spec ptrs w2 f2 0 (source_at p [] 0 (resume p) (servedThrough p) (done_ p)) Hr2) as (w' & fss' & p' & E & L' & Hr' & Hf); [done| |done|done|].
  { intros j ptr Ej. eapply prefix_lookup_Some; [|apply (lt_ids _ _ _ _ L2)]. change (id <$> segments (w_log w1)) with (snapshot w1). rewrite Esn.
    by apply lookup_app_l_Some. }
  exists w1, f1, w', fss', p'. split.
  { destruct (ptrs ++ _) eqn:En; [by destruct ptrs|]. cbn [source_at ps_spec]. by rewrite Hsp, Hb, <- En, removelast_last. }
  split; [done|]. split; [by eapply later_trans|]. split; [done|].
  rewrite drop_0, Etk, Hlp, Ef1, take_app_length in Hf. rewrite Ef1, removelast_last, length_app. cbn [length]. by rewrite Nat.add_1_r.
Qed.

(** What [pop] finds in the queue. *)
Lemma pop_queued k w fss p given n0 f q :
  ps_spec p = spec → done_ p = false → drop (qi p) (queue p) = handed <$> f :: q → n0 ≤ servedThrough p →
  ps_next p ≤ servedThrough p →
  Forall (λ f, 0 ≤ f_off f < servedThrough p ∧ servedThrough p < 2 ^ 63) (f :: q) →
  (servedThrough p = n0 ∨ passed (pred (length fss)) (servedThrough p) w) →
  due spec bnd n0 (removelast fss) = given ++ (f :: q) ++ due spec bnd (servedThrough p) (removelast fss) →
  ∃ p', pop (S k) a o w p = Some (w, p', Ok (Some (handed f))) ∧ handing n0 w fss p' (given ++ [f]).
Proof.
  intros Hsp Hd Eq Hn Hle Hf Hp E. cbn [pop].
  assert (El : queue p !! qi p = Some (handed f)).
  { pose proof (lookup_drop (queue p) (qi p) 0) as El. rewrite Eq, Nat.add_0_r in El. by rewrite <- El. }
  unfold prefixQueued in El |- *. rewrite El. eexists. split; [done|]. pose proof (Forall_inv Hf) as Hx. cbn in Hx. apply Forall_inv_tail in Hf.
  set (p' := source_at _ _ _ _ _ _). assert (Es : sint 64 (rr_offset (handed f) + 1) = f_off f + 1) by (apply sint_small; [lia|]; cbn [handed rr_offset]; unfold in_sint; lia).
  assert (Er : resume p' = servedThrough p).
  { unfold resume, p'. cbn [source_at ps_next servedThrough]. rewrite Es. destruct (Z.ltb_spec (f_off f + 1) (servedThrough p)); lia. }
  split; [done|]. split; [done|]. exists q. rewrite Er. cbn [p' source_at qi queue servedThrough]. split.
  { rewrite <- Nat.add_1_r, <- drop_drop, Eq. done. }
  split; [done|]. split; [done|]. split; [done|]. split; [done|]. by rewrite E, <- app_assoc.
Qed.

Lemma pop_step n0 w fss p given :
  readable a w fss → handing n0 w fss p given →
  ∃ w' fss' p', later w fss w' fss' ∧ readable a w' fss' ∧
    ((∃ f, pop (S fuel) a o w p = Some (w', p', Ok (Some (handed f))) ∧ handing n0 w' fss' p' (given ++ [f])) ∨
     (pop (S fuel) a o w p = Some (w', p', Ok None) ∧ done_ p' = true ∧
      ∃ w1 f1, later w fss w1 f1 ∧ later w1 f1 w' fss' ∧ due spec bnd n0 (removelast f1) = given)).
Proof.
  intros Hr Hh. pose proof (rd_ok _ _ _ Hr) as Hw. pose proof Hh as (Hsp & Hd & [|f q] & Eq & Hn & Hs & Hf & Hp & E).
  2: { specialize (Hs ltac:(done)). assert (Hle : ps_next p ≤ servedThrough p).
       { unfold resume in Hs. destruct (Z.ltb_spec (ps_next p) (servedThrough p)); lia. }
       rewrite <- Hs in Hn, Hf, Hp, E.
       destruct (pop_queued fuel w fss p given n0 f q Hsp Hd Eq Hn Hle Hf Hp E) as (p' & Ep & Hh').
       exists w, fss, p'. split; [by apply later_refl|]. split; [done|]. left. by exists f. }
  destruct (fillNext_spec w fss p Hr Hsp Hd) as (w1 & f1 & w' & fss' & p' & Ef & L1 & L2 & Hr' & Hsp' & Hqi & Hnx & Hc).
  pose proof (lt_ok _ _ _ _ L1) as Hw1. exists w', fss'. cbn [source_at ps_next] in Hnx, Hc.
  destruct (handing_later _ _ _ _ _ _ _ Hw L1 Hh) as (_ & _ & q1 & Eq1 & _ & _ & _ & Hp1 & E1).
  rewrite Eq in Eq1. symmetry in Eq1. apply fmap_nil_inv in Eq1 as ->. cbn [app] in E1.
  assert (El : queue p !! qi p = None) by (rewrite <- (Nat.add_0_r (qi p)), <- lookup_drop; by rewrite Eq).
  assert (Epop : pop (S fuel) a o w p = pop fuel a o w' p') by (cbn [pop]; unfold prefixQueued in El |- *; by rewrite El, Hd, Ef). rewrite Epop.
  destruct (Nat.lt_exists_pred 0 fuel ltac:(lia)) as (k & Ek & _).
  destruct Hc as [(Hd' & Eq' & Edue)|(Hd' & q & Hq & Eq' & Es' & Hf' & Hp' & Edue)].
  - exists p'. split; [by eapply later_trans|]. split; [done|]. right. rewrite Ek. cbn [pop]. rewrite Eq', Hqi, Hd'. split; [done|]. split; [done|].
    exists w1, f1. split; [done|]. split; [done|]. by rewrite E1, Edue, app_nil_r.
  - destruct q as [|f q]; [done|].
    assert (Hp1' : passed (pred (length f1)) (ps_next p') w1).
    { destruct Hp' as (j & s & Hj & Ej & Hjn). assert (Hj1 : (j < length f1)%nat) by lia.
      pose proof Hw1 as [(HF & _) _]. rewrite <- (Forall2_length _ _ _ HF) in Hj1. destruct (lookup_lt_is_Some_2 _ _ Hj1) as [t Et].
      destruct (sealed_later w1 f1 w' fss' j t Hw1 L2 ltac:(lia) Et) as (t' & Et' & En). rewrite Ej in Et'. injection Et' as <-. exists j, t. split; [done|]. split; [done|]. lia. }
    pose proof (due_later _ _ _ _ _ _ _ Hw1 L2 Hnx (or_intror Hp1') Edue) as E2.
    pose proof (due_later n0 (resume p) given _ _ _ _ Hw1 L2 Hn Hp1 E1) as E3.
    destruct (pop_queued k w' fss' p' given n0 f q) as (p2 & Ep & Hh2); rewrite ?Es', ?Hqi, ?drop_0; try done; [lia|by rewrite <- Es'| |by rewrite E3, E2|].
    { right. by eapply passed_later. }
    exists p2. split; [by eapply later_trans|]. split; [done|]. left. exists f. by rewrite Ek.
Qed.

Lemma pop_n_spec k n0 w fss p given :
  readable a w fss → handing n0 w fss p given →
  ∃ w1 f1 w' fss' p' fs, pop_n k (S fuel) a o w p = Some (w', p', Ok (handed <$> fs)) ∧ later w fss w1 f1 ∧ later w1 f1 w' fss' ∧
    ((length fs = k ∧ handing n0 w' fss' p' (given ++ fs)) ∨
     ((length fs < k)%nat ∧ done_ p' = true ∧ due spec bnd n0 (removelast f1) = given ++ fs)).
Proof.
  revert w fss p given. induction k as [|k IH]; intros w fss p given Hr Hh.
  { exists w, fss, w, fss, p, []. split; [done|]. pose proof (later_refl (D := Growing) _ _ (rd_ok _ _ _ Hr)). split; [done|]. split; [done|]. left. by rewrite app_nil_r. }
  destruct (pop_step n0 w fss p given Hr Hh) as (w1 & f1 & p1 & L1 & Hr1 & [(f & E & Hh1)|(E & Hd & w2 & f2 & La & Lb & Edue)]); cbn [pop_n]; rewrite E; cbn [mbind option_bind].
  - destruct (IH w1 f1 p1 (given ++ [f]) Hr1 Hh1) as (w2 & f2 & w' & fss' & p' & fs & En & L2 & L3 & Hc).
    rewrite En. cbn [mbind option_bind]. exists w2, f2, w', fss', p', (f :: fs). split; [done|]. split; [by eapply later_trans|]. split; [done|].
    rewrite <- app_assoc in Hc. destruct Hc as [[Hl Hc]|(Hl & Hc)]; [left|right]; (split; [cbn; lia|done]).
  - exists w2, f2, w1, f1, p1, []. split; [done|]. split; [done|]. split; [done|]. right. split; [cbn; lia|]. split; [done|]. by rewrite app_nil_r.
Qed.

End source.

(** A committed filtered read that meets the watermark inside a sealed segment
    passes over the rest of the segment: it continues behind the segment, and
    wants nothing of it any more, however far the watermark rises. *)
Lemma watermark_gap_skipped fuel a o w fss i ptr s fs p bnd f :
  2 ^ 26 ≤ Z.of_nat fuel → (∀ clock n, a_order a clock n ≡ₚ seq 0 n) → readable a (turn o w) fss → (S i < length fss)%nat →
  segments (w_log (turn o w)) !! i = Some s → fss !! i = Some fs → ptr = id s →
  ps_next p < NextOffset s → BaseOffset s ≤ bnd → f ∈ fs → bnd < f_off f →
  wanted (ps_spec p) (ps_next p) bnd fs ≠ [] →
  ∃ w' p', fill_segments fuel a o w p bnd [ptr] = Some (w', p', Ok ()) ∧ done_ p' = false ∧ (handed f ∉ queue p') ∧
    ∀ bnd', wanted (ps_spec p') (resume p') bnd' fs = [].
Proof.
  intros Hfu Hord Hr Hi Es Ef -> Hn Hb Hf Hlt Hne. cbn [fill_segments]. pose proof (rd_ok _ _ _ Hr) as Hw. rewrite (object_in _ _ _ _ Hw Es).
  pose proof Hw as [(HF & _) _]. destruct (Forall2_lookup_l _ _ _ _ _ HF Es) as (fs' & Ef' & Hs). rewrite Ef in Ef'. injection Ef' as <-.
  rewrite (proj2 (Z.leb_gt _ _) Hn), (proj2 (Z.ltb_ge _ _) Hb), andb_false_r.
  destruct (rd_sound _ _ _ Hr i s fs) as (Hleg & Hint & Hsh & Hdig); [lia|done|done|]. pose proof Hs as (Hh & _).
  destruct (serveSegment_spec fuel a (w_clock (turn o w)) s fs (ps_spec p) (ps_next p) bnd Hh Hleg Hint Hsh (ample_frames _ _ _ Hfu Hh) (Hord _) (Hdig _))
    as (c & E & _).
  rewrite E. cbn [mbind option_bind]. pose proof (seg_range _ _ _ f Hs Hf) as Hrange.
  assert (Hq : ¬ handed f ∈ (handed <$> wanted (ps_spec p) (ps_next p) bnd fs)).
  { intros (g & Eg & Hg)%list_elem_of_fmap. apply (f_equal rr_offset) in Eg. cbn in Eg.
    pose proof (holds_frames _ _ Hh) as (_ & _ & _ & Ha & _). apply (elem_wanted _ _ _ _ _ Ha) in Hg as (_ & [[_ Hg] _] & _). lia. }
  destruct (wanted _ _ _ _) as [|f0 q] eqn:Ew; [done|]. cbn [fmap list_fmap] in *. eexists _, _. split; [done|]. split; [done|]. split; [exact Hq|].
  intros bnd'. apply wanted_below. intros g Hg. pose proof (seg_range _ _ _ g Hs Hg). unfold resume. cbn [source_at ps_next servedThrough].
  rewrite Z.ltb_irrefl. lia.
Qed.


End drain.

(** ** Witness *)

Definition any_digest : around := {| a_digest := λ _ _, None; a_order := λ _ n, seq 0 n; a_coalesce := 0 |}.

Lemma alone_seals `{CodecLib} P a : sealing (P := P) a alone.
Proof.
  intros w fss [Hw Hs HP]. exists fss. split; [by apply alone_later|by split].
Qed.

(** The log of [kv_frames] rolled, and all of it committed. *)
Lemma rolled_kv :
  ∃ w, @readable half_lib (λ h, 4103 ≤ h) any_digest w [kv_frames; []].
Proof.
  assert (Hi0 : @inv half_lib (log_of kv_frames) [kv_frames]) by (apply log_of_inv; [apply kv_frames_ok|done|by vm_compute]).
  destruct (log_of_numbered kv_frames (proj1 kv_frames_ok) ltac:(done)) as [Hn0 _].
  destruct (@roll_ok half_lib 1 5000 (log_of kv_frames) [kv_frames]) as (l & b & fss & E & Hi & (_ & _ & _ & _ & _ & _ & Hren) & ((_ & Hhw & _) & _) & Eb & Hb).
  { done. } { lia. }
  assert (b = true) as -> by (rewrite Eb; by vm_compute). cbn in Hb. subst fss.
  exists {| w_log := SetHighWatermark l 4103; w_left := ∅; w_clock := 0 |}. unfold SetHighWatermark. rewrite Hhw. cbn [hw log_of].
  split; [split; [exact Hi|by apply Hren]| |done].
  intros i s fs Hlt _ Ef. cbn in Hlt. destruct i as [|i]; [|lia]. injection Ef as <-. split; [apply kv_frames_ok|]. split; [apply kv_intact|].
  split; [apply kv_short|]. intros clock. by left.
Qed.

Definition kv_prefix : readSpec :=
  {| rs_offset := 4101; rs_until := Some 4103; rs_follow := false; rs_uncommitted := false; rs_prefix := Some (ascii_bytes [107]);
     rs_skipSuperseded := false; rs_includeControl := true |}.




End PrefixDrain.
