(* ===== verification/Reader.v ===== *)
(** * Readers of the log: [Reader] of reader.go

    [NewReader] resolves the options of a caller and positions a sequential
    reader; [ReadMessage] reads record by record, through a filtered source
    first when a key prefix is asked for.  A segment that a compaction replaced
    is found again; the end of a read and the end of the log are told apart.

    The theorems follow a reader from the options to its records, beside appends
    and a rising watermark, and say where it departs from its documentation. *)

From Stdlib Require Import ZArith Lia.
From stdpp Require Import base list numbers strings gmap sorting.
From coqutil Require Import Byte.
From S2P Require Import Prelude GoStd Wire Compress BlockV3 Block Framing EpochCache Index Segment.
From S2P Require Import SegmentIndex SegmentSearch SegmentReopen Log LogAppend LogRead KeyDigest.
From S2P Require Import ReadSource ReadTail ReadCommitted PrefixRead.

Open Scope Z_scope.

Module Reader.
Import Segment SegmentIndex SegmentSearch SegmentReopen Log LogAppend LogRead ReadSource ReadTail ReadCommitted.
Import (hints) KeyDigest.

(** [r_self] is the reader as a waiter. *)
Record Reader := {
  r_self : Z;
  r_ctxReader : contextReader;
  r_offset : Z;
  r_spec : readSpec;
  r_prefix : option PrefixRead.prefixSource;
}.

Definition with_ctx (r : Reader) (c : contextReader) : Reader :=
  {| r_self := r_self r; r_ctxReader := c; r_offset := r_offset r; r_spec := r_spec r; r_prefix := r_prefix r |}.

Definition with_offset (r : Reader) (o : Z) : Reader :=
  {| r_self := r_self r; r_ctxReader := r_ctxReader r; r_offset := o; r_spec := r_spec r; r_prefix := r_prefix r |}.

Definition with_prefix (r : Reader) (p : option PrefixRead.prefixSource) : Reader :=
  {| r_self := r_self r; r_ctxReader := r_ctxReader r; r_offset := r_offset r; r_spec := r_spec r; r_prefix := p |}.

Section codecs.
Context `{CodecLib}.

Definition NewReader (fuel : nat) (o : others) (w : world) (self : Z) (opts : readOptions)
    : option (world * outcome Reader) :=
  let w := turn o w in
  match resolve (w_log w) opts with
  | Fail e => Some (w, Fail e)
  | Panic => Some (w, Panic)
  | Ok spec =>
      let prefix := if bool_decide (is_Some (rs_prefix spec)) then Some (PrefixRead.newPrefixSource spec) else None in
      '(w, x) ← newSourceReader fuel o w self spec;
      match x with
      | Ok c => Some (w, Ok {| r_self := self; r_ctxReader := c; r_offset := rs_offset spec; r_spec := spec; r_prefix := prefix |})
      | Fail e => Some (w, Fail e)
      | Panic => Some (w, Panic)
      end
  end.

(** The options of [newRecoveryReader]. *)
Definition recovery_options (offset : Z) : readOptions :=
  {| ro_from := Some offset; ro_until := None; ro_follow := false; ro_uncommitted := true; ro_prefix := None;
     ro_skipSuperseded := false; ro_includeControl := false |}.

Definition newRecoveryReader (fuel : nat) (o : others) (w : world) (self offset : Z) : option (world * outcome Reader) :=
  NewReader fuel o w self (recovery_options offset).

(** What a failed read comes to: an error for the caller, or a new source
    reader at the offset of the reader. *)
Definition reread (fuel : nat) (o : others) (w : world) (r : Reader) (err : error) : option (world * outcome contextReader) :=
  let w := turn o w in
  match classifyReadError (w_log w) err with
  | readerLogDeleted => Some (w, Fail ErrCommitLogDeleted)
  | readerLogClosed => Some (w, Fail ErrCommitLogClosed)
  | readerLogReadonly => Some (w, Fail ErrCommitLogReadonly)
  | readerReresolve => newSourceReader fuel o w (r_self r) (specAt (r_spec r) (r_offset r))
  | readerFail => Some (w, Fail err)
  end.

(** [readOne] from RETRY on. *)
Fixpoint read_seq (fuel : nat) (o : others) (w : world) (r : Reader) (buflen : Z) : option (world * Reader * outcome readRecord) :=
  match fuel with
  | O => None
  | S fuel' =>
      '(w, c, x) ← readMessage fuel o w (r_ctxReader r) buflen;
      let r := with_ctx r c in
      match x with
      | Panic => Some (w, r, Panic)
      | Fail e =>
          '(w, y) ← reread fuel o w r e;
          match y with
          | Ok c => read_seq fuel' o w (with_ctx r c) buflen
          | Fail e => Some (w, r, Fail e)
          | Panic => Some (w, r, Panic)
          end
      | Ok rec =>
          let w := turn o w in
          if match segmentBounds w (source_cursor c) with
             | Some (base, next) => (rr_offset rec <? base) || (next <=? rr_offset rec)
             | None => false
             end
          then Some (w, r, Fail ErrCorruptRecord)
          else Some (w, with_offset r (sint 64 (rr_offset rec + 1)), Ok rec)
      end
  end.

Definition readOne (fuel : nat) (a : PrefixRead.around) (o : others) (w : world) (r : Reader) (buflen : Z)
    : option (world * Reader * outcome readRecord) :=
  match r_prefix r with
  | None => read_seq fuel o w r buflen
  | Some p =>
      '(w, p, x) ← PrefixRead.pop fuel a o w p;
      let r := with_prefix r (Some p) in
      match x with
      | Fail e => Some (w, r, Fail e)
      | Panic => Some (w, r, Panic)
      | Ok (Some rec) => Some (w, with_offset r (sint 64 (rr_offset rec + 1)), Ok rec)
      | Ok None =>
          let r := with_prefix (with_offset r (if r_offset r <? PrefixRead.ps_next p then PrefixRead.ps_next p else r_offset r)) None in
          '(w, y) ← newSourceReader fuel o w (r_self r) (specAt (r_spec r) (r_offset r));
          match y with
          | Ok c => read_seq fuel o w (with_ctx r c) buflen
          | Fail e => Some (w, r, Fail e)
          | Panic => Some (w, r, Panic)
          end
      end
  end.

Fixpoint ReadMessage (fuel : nat) (a : PrefixRead.around) (o : others) (w : world) (r : Reader) (buflen : Z)
    : option (world * Reader * outcome readRecord) :=
  match fuel with
  | O => None
  | S fuel' =>
      '(w, r, x) ← readOne fuel a o w r buflen;
      match x with
      | Ok rec =>
          if match rs_until (r_spec r) with Some u => u <? rr_offset rec | None => false end
          then Some (w, with_offset r (rr_offset rec), Fail ErrEOF)
          else
            match matchesPrefix (r_spec r) (rr_msg rec) with
            | Ok true => Some (w, r, Ok rec)
            | Ok false => ReadMessage fuel' a o w r buflen
            | Fail e => Some (w, r, Fail e)
            | Panic => Some (w, r, Panic)
            end
      | x => Some (w, r, x)
      end
  end.

Fixpoint ReadMessageMetadata (fuel : nat) (o : others) (w : world) (r : Reader) (buflen : Z)
    : option (world * Reader * outcome MessageMetadata) :=
  match fuel with
  | O => None
  | S fuel' =>
      '(w, c, x) ← readMessageMetadata fuel o w (r_ctxReader r) buflen;
      let r := with_ctx r c in
      match x with
      | Panic => Some (w, r, Panic)
      | Fail e =>
          '(w, y) ← reread fuel o w r e;
          match y with
          | Ok c => ReadMessageMetadata fuel' o w (with_ctx r c) buflen
          | Fail e => Some (w, r, Fail e)
          | Panic => Some (w, r, Panic)
          end
      | Ok meta => Some (w, with_offset r (sint 64 (mm_offset meta + 1)), Ok meta)
      end
  end.

(** ** What is added to a log *)

Lemma later_above {D} w fss w' fss' :
  w_ok w fss → later (D := D) w fss w' fss' →
  ∃ new, concat fss' = concat fss ++ new ∧ Forall (λ f, NextOffset (active (w_log w)) ≤ f_off f) new.
Proof.
  intros Hw L. pose proof Hw as [(HF & _) _]. pose proof (lt_ok _ _ _ _ L) as Hw'. pose proof Hw' as [(HF' & Hl' & _) _].
  pose proof (active_last w) as Ea. set (n := length (older (w_log w))) in *.
  assert (Hn : length fss = S n) by (rewrite <- (Forall2_length _ _ _ HF); unfold segments, n; rewrite length_app; cbn; lia).
  destruct (Forall2_lookup_l _ _ _ _ _ HF Ea) as (fs & Ef & Hs). destruct (later_object _ _ _ _ _ _ Hw L Ea) as (s' & Es' & _).
  destruct (segment_next_grows _ _ _ _ _ _ _ Hw L Ea Es') as [Hng Hb]. destruct (lt_frames _ _ _ _ L _ _ Ef) as (new & Ef' & _).
  exists (new ++ concat (drop (S n) fss')). split.
  - rewrite (concat_lookup _ _ _ Ef'), (concat_lookup _ _ _ Ef), (stretches_take _ _ n (lt_frames _ _ _ _ L)) by lia.
    rewrite (drop_ge fss) by lia. cbn. by rewrite app_nil_r, <- !app_assoc.
  - apply Forall_app. split.
    + destruct (Forall2_lookup_l _ _ _ _ _ HF' Es') as (g & Eg & Hs'). rewrite Ef' in Eg. injection Eg as <-.
      apply Forall_forall. intros f Hf. rewrite (seg_next _ _ _ Hs). pose proof (seg_range _ _ _ f Hs' ltac:(apply elem_of_app; by right)) as [Hr _].
      unfold next_of. destruct (last fs) as [z|] eqn:El; [|lia]. apply last_Some in El as [k ->].
      pose proof (segment_ascending _ _ _ _ Hw' Ef') as Ha. apply StronglySorted_app in Ha as (Hx & _).
      specialize (Hx z f ltac:(apply elem_of_app; right; left) Hf). cbn in Hx. lia.
    + apply Forall_forall. intros f (j & fj & Ej & Hf)%elem_of_concat. rewrite lookup_drop in Ej.
      destruct (Forall2_lookup_r _ _ _ _ _ HF' Ej) as (sj & Esj & Hsj). pose proof (seg_range _ _ _ f Hsj Hf).
      pose proof (sorted_lookup _ _ n (S n + j) s' sj Hl' ltac:(lia) Es' Esj) as Hx. cbn in Hx. lia.
Qed.

(** The records from an offset on, as the log grows. *)
Lemma from_later {D} w fss w' fss' offset :
  w_ok w fss → later (D := D) w fss w' fss' → offset ≤ NextOffset (active (w_log w)) →
  ∃ new, from offset (concat fss') = from offset (concat fss) ++ new.
Proof.
  intros Hw L Ho. destruct (later_above _ _ _ _ Hw L) as (new & -> & Hn). exists new. rewrite from_app. f_equal. apply from_above.
  eapply Forall_impl; [exact Hn|]. cbn. lia.
Qed.

Lemma split_from offset seen all : split_at offset seen all → all = seen ++ from offset all.
Proof. intros (Hlow & rest & -> & Hup). by rewrite from_app, (from_below _ _ Hlow), (from_above _ _ Hup). Qed.

Lemma split_later {D} w fss w' fss' offset seen :
  w_ok w fss → later (D := D) w fss w' fss' → offset ≤ NextOffset (active (w_log w)) → split_at offset seen (concat fss) →
  split_at offset seen (concat fss').
Proof.
  intros Hw L Ho (Hlow & rest & E & Hup). destruct (later_above _ _ _ _ Hw L) as (new & -> & Hn). split; [done|]. exists (rest ++ new).
  rewrite E, <- app_assoc. split; [done|]. apply Forall_app. split; [done|]. eapply Forall_impl; [exact Hn|]. cbn. lia.
Qed.

(** Records given after [seen] are the first from the offset on. *)
Lemma first_from offset seen all fs k :
  split_at offset seen all → fs = [] ∨ (seen ++ fs) `prefix_of` all → length fs = k → fs = take k (from offset all).
Proof.
  intros Hsp%split_from [->|[rest E]] <-; [done|]. rewrite E, <- app_assoc in Hsp at 1. apply app_inv_head in Hsp. rewrite <- Hsp. by rewrite take_app_length.
Qed.

(** ** One record of an unfiltered read *)

(** A record just read lies within the bounds of its segment. *)
Lemma in_bounds {D} o w fss c seen f :
  growing (D := D) o → w_ok w fss → at_after w fss c seen f →
  match segmentBounds (turn o w) c with
  | Some (base, next) => (f_off f <? base) || (next <=? f_off f)
  | None => false
  end = false.
Proof.
  intros Hg Hw (i & x & y & Ei & _ & Hc). destruct (Hg w fss Hw) as (f1 & L). pose proof (lt_ok _ _ _ _ L) as Hw1.
  destruct (lt_frames _ _ _ _ L _ _ Ei) as (new & Ei1 & _). destruct (cursor_later _ _ _ _ _ _ _ Hw L Hc) as (s & fs & Es & Ef & Ec & _).
  unfold segmentBounds. rewrite Ec. cbn [mbind option_bind]. rewrite (object_in _ _ _ _ Hw1 Es). cbn [mbind option_bind].
  rewrite Ef in Ei1. injection Ei1 as ->. destruct Hw1 as [(HF & _) _]. destruct (Forall2_lookup_l _ _ _ _ _ HF Es) as (g & Eg & Hs).
  rewrite Ef in Eg. injection Eg as <-.
  pose proof (seg_range _ _ _ f Hs ltac:(apply elem_of_app; left; apply elem_of_app; right; left)).
  apply orb_false_iff. split; [apply Z.ltb_ge|apply Z.leb_gt]; lia.
Qed.

(** The reader after a record. *)
Definition advanced (r : Reader) (c : contextReader) (f : frm) : Reader := with_offset (with_ctx r c) (sint 64 (f_off f + 1)).

Lemma seq_record {D} fuel o w r buflen w1 f1 c seen f :
  growing (D := D) o → w_ok w1 f1 → (0 < fuel)%nat → readMessage fuel o w (r_ctxReader r) buflen = Some (w1, c, delivered f) →
  at_after w1 f1 (source_cursor c) seen f → checks f = true →
  read_seq fuel o w r buflen = Some (turn o w1, advanced r c f, Ok (record_of f)).
Proof.
  intros Hg Hw Hfu E Haf Hc. destruct fuel as [|fuel]; [lia|]. cbn [read_seq]. rewrite E. cbn [mbind option_bind]. unfold delivered.
  rewrite Hc. change (rr_offset (record_of f)) with (f_off f). by rewrite (in_bounds o w1 f1 _ seen f Hg Hw Haf).
Qed.

(** Reading [k] records. *)
Fixpoint read_n (k : nat) (fuel : nat) (a : PrefixRead.around) (o : others) (w : world) (r : Reader) (buflen : Z)
    : option (world * Reader * outcome (list readRecord)) :=
  match k with
  | O => Some (w, r, Ok [])
  | S k =>
      '(w, r, x) ← ReadMessage fuel a o w r buflen;
      match x with
      | Ok rec => '(w, r, y) ← read_n k fuel a o w r buflen; Some (w, r, recs ← y; Ok (rec :: recs))
      | Fail e => Some (w, r, Fail e)
      | Panic => Some (w, r, Panic)
      end
  end.

(** A kind of reader, by what holds of one that has given [seen], and the
    records it may give. *)
Section reads.
Context {D : promise} (fuel : nat) (a : PrefixRead.around) (o : others) (buflen : Z).
Context (P : world → list (list frm) → Reader → list frm → Prop) (A : world → frm → Prop).
Context (HA : ∀ w fss w' fss' f, later (D := D) w fss w' fss' → A w f → A w' f).
Context (Hstep : ∀ w fss r seen w' r' rec, P w fss r seen → ReadMessage fuel a o w r buflen = Some (w', r', Ok rec) →
  ∃ fss' f rest, later (D := D) w fss w' fss' ∧ rec = record_of f ∧ concat fss' = seen ++ f :: rest ∧ A w' f ∧ P w' fss' r' (seen ++ [f])).
Context (Hahead : ∀ w fss r seen f rest, P w fss r seen → concat fss = seen ++ f :: rest → A w f → checks f = true →
  ∃ w' r' rec, ReadMessage fuel a o w r buflen = Some (w', r', Ok rec)).
Context (Hok : ∀ w fss r seen, P w fss r seen → w_ok w fss).

Lemma read_n_ok k w fss r seen w' r' recs :
  P w fss r seen → read_n k fuel a o w r buflen = Some (w', r', Ok recs) →
  ∃ fss' fs, later (D := D) w fss w' fss' ∧ P w' fss' r' (seen ++ fs) ∧ (fs = [] ∨ (seen ++ fs) `prefix_of` concat fss') ∧
    length fs = k ∧ recs = record_of <$> fs ∧ Forall (A w') fs.
Proof.
  revert w fss r seen recs. induction k as [|k IH]; intros w fss r seen recs HP E; cbn [read_n] in E.
  - injection E as <- <- <-. exists fss, []. rewrite app_nil_r. split; [by apply later_refl, (Hok _ _ _ _ HP)|]. split; [done|].
    split; [by left|]. by split_and!.
  - destruct (ReadMessage fuel a o w r buflen) as [[[w1 r1] [rec|e|]]|] eqn:E1; [|done..]. cbn [mbind option_bind] in E.
    destruct (Hstep _ _ _ _ _ _ _ HP E1) as (f1 & f & rest & L1 & -> & Ec & HAf & HP1).
    destruct (read_n k fuel a o w1 r1 buflen) as [[[w2 r2] y]|] eqn:E2; [|done]. cbn [mbind option_bind] in E.
    destruct y as [recs'|e|]; [|done..]. rewrite bind_Ok in E. injection E as <- <- <-.
    destruct (IH _ _ _ _ _ HP1 E2) as (f2 & fs & L2 & HP2 & Hpre & Hk & -> & HAs). exists f2, (f :: fs).
    replace (seen ++ f :: fs) with ((seen ++ [f]) ++ fs) by (by rewrite <- app_assoc). split; [by eapply later_trans|]. split; [done|]. split; [right|].
    + destruct Hpre as [->|Hpre]; [|done]. destruct (stretches_concat _ _ (lt_frames _ _ _ _ L2)) as (new & ->). rewrite Ec.
      exists (rest ++ new). by rewrite <- !app_assoc.
    + split; [cbn; lia|]. split; [done|]. constructor; [by apply (HA _ _ _ _ _ L2)|done].
Qed.

Lemma read_n_ahead w fss r seen fs rest :
  P w fss r seen → concat fss = seen ++ fs ++ rest → Forall (A w) fs → Forall (λ f, checks f = true) fs →
  ∃ w' r', read_n (length fs) fuel a o w r buflen = Some (w', r', Ok (record_of <$> fs)).
Proof.
  revert w fss r seen rest. induction fs as [|f fs IH]; intros w fss r seen rest HP Ec HAs Hcs; [by exists w, r|].
  apply Forall_cons in HAs as [HAf HAs], Hcs as [Hcf Hcs]. cbn [length read_n].
  destruct (Hahead _ _ _ _ _ _ HP Ec HAf Hcf) as (w1 & r1 & rec & E1). rewrite E1. cbn [mbind option_bind].
  destruct (Hstep _ _ _ _ _ _ _ HP E1) as (f1 & g & rest1 & L1 & -> & Ec1 & _ & HP1).
  destruct (stretches_concat _ _ (lt_frames _ _ _ _ L1)) as (new & En). rewrite Ec1, Ec, <- app_assoc in En. apply app_inv_head in En.
  cbn [app] in En. injection En as -> En.
  destruct (IH w1 f1 r1 (seen ++ [f]) (rest ++ new) HP1) as (w2 & r2 & E2); [|by eapply Forall_impl; [exact HAs|]; intros; eapply HA|done|].
  - rewrite Ec1, En, <- !app_assoc. done.
  - exists w2, r2. rewrite E2. cbn [mbind option_bind]. by rewrite bind_Ok.
Qed.

End reads.

(** ** Unfiltered reads *)

Definition unfiltered (r : Reader) : Prop := r_prefix r = None ∧ rs_prefix (r_spec r) = None.

(** Below the bound of the caller. *)
Definition within (until : option Z) (f : frm) : Prop := match until with Some u => f_off f ≤ u | None => True end.

#[export] Instance within_dec until f : Decision (within until f).
Proof. destruct until; unfold within; apply _. Defined.

Lemma ReadMessage_unfiltered fuel a o w r buflen :
  unfiltered r → (0 < fuel)%nat →
  ReadMessage fuel a o w r buflen =
  '(w, r', x) ← read_seq fuel o w r buflen;
  match x with
  | Ok rec =>
      if match rs_until (r_spec r') with Some u => u <? rr_offset rec | None => false end
      then Some (w, with_offset r' (rr_offset rec), Fail ErrEOF)
      else match matchesPrefix (r_spec r') (rr_msg rec) with
           | Ok true => Some (w, r', Ok rec)
           | Ok false => ReadMessage (pred fuel) a o w r' buflen
           | Fail e => Some (w, r', Fail e)
           | Panic => Some (w, r', Panic)
           end
  | x => Some (w, r', x)
  end.
Proof. intros [Hp _] Hfu. destruct fuel as [|fuel]; [lia|]. cbn [ReadMessage pred]. unfold readOne. by rewrite Hp. Qed.

(** Contexts do not end with the error of a replaced segment. *)
Definition own_errors (o : others) : Prop := ∀ k b, o_wake o k b ≠ Cancelled ErrSegmentReplaced.

Lemma ends_not_replaced o e : own_errors o → ends_with o e → e ≠ ErrSegmentReplaced.
Proof. intros Ho [->|[->|(k & b & E)]]; [done|done|]. intros ->. by destruct (Ho k b). Qed.

Lemma reread_fails fuel o w r e :
  e ≠ ErrSegmentReplaced →
  ∃ e', reread fuel o w r e = Some (turn o w, Fail e') ∧ (e ≠ ErrCommitLogReadonly → e' ≠ ErrCommitLogReadonly).
Proof.
  intros He. unfold reread, classifyReadError. destruct (IsDeleted _); [by eexists|]. destruct (IsClosed _); [by eexists|].
  destruct e; try (by destruct He); try (eexists; by split). destruct (IsReadonly _); eexists; by split; [|intros []].
Qed.

Lemma seq_failed fuel o w r buflen w1 c e :
  (0 < fuel)%nat → readMessage fuel o w (r_ctxReader r) buflen = Some (w1, c, Fail e) → e ≠ ErrSegmentReplaced →
  ∃ e', read_seq fuel o w r buflen = Some (turn o w1, with_ctx r c, Fail e') ∧ (e ≠ ErrCommitLogReadonly → e' ≠ ErrCommitLogReadonly).
Proof.
  intros Hfu E He. destruct fuel as [|fuel]; [lia|]. cbn [read_seq]. rewrite E. cbn [mbind option_bind].
  destruct (reread_fails (S fuel) o w1 (with_ctx r c) e He) as (e' & -> & He'). cbn [mbind option_bind]. by exists e'.
Qed.

(** What an unfiltered reader returns after its source read the record [f]. *)
Lemma read_record {D} fuel a o w r buflen w1 f1 c seen f :
  growing (D := D) o → w_ok w1 f1 → (0 < fuel)%nat → unfiltered r → readMessage fuel o w (r_ctxReader r) buflen = Some (w1, c, delivered f) →
  at_after w1 f1 (source_cursor c) seen f →
  (checks f = true → within (rs_until (r_spec r)) f →
     ReadMessage fuel a o w r buflen = Some (turn o w1, advanced r c f, Ok (record_of f))) ∧
  (∀ w' r' rec, ReadMessage fuel a o w r buflen = Some (w', r', Ok rec) →
     checks f = true ∧ within (rs_until (r_spec r)) f).
Proof.
  intros Hg Hw Hfu Hu E Haf. rewrite (ReadMessage_unfiltered fuel a o w r buflen Hu Hfu). destruct Hu as [_ Hsp].
  destruct (checks f) eqn:Hc.
  - rewrite (seq_record fuel o w r buflen w1 f1 c seen f Hg Hw Hfu E Haf Hc). cbn [mbind option_bind].
    change (r_spec (advanced r c f)) with (r_spec r). change (rr_offset (record_of f)) with (f_off f). unfold matchesPrefix. rewrite Hsp.
    unfold within. destruct (rs_until (r_spec r)) as [u|]; [|by split; [|done]]. destruct (Z.ltb_spec u (f_off f)).
    + split; [lia|]. by intros ? ? ?.
    + split; [done|]. intros. split; [done|lia].
  - unfold delivered in E. rewrite Hc in E. destruct (seq_failed fuel o w r buflen w1 c _ Hfu E ltac:(done)) as (e & -> & _).
    split; [done|]. by intros ? ? ?.
Qed.

(** *** To the end of the log *)

Section uncommitted.
Context {D : promise} (fuel : nat) (a : PrefixRead.around) (o : others) (buflen : Z).
Context (Hfuel : ample fuel) (Ho : appending (D := D) o) (Hown : own_errors o) (Hbuf : msgSetHeaderLen ≤ buflen).

Definition u_reads (spec : readSpec) (w : world) (fss : list (list frm)) (r : Reader) (seen : list frm) : Prop :=
  w_ok w fss ∧ unfiltered r ∧ r_spec r = spec ∧ 
  ∃ u, r_ctxReader r = Uncommitted u ∧ u_noWait u = negb (rs_follow spec) ∧ at_seen w fss (u_cur u) seen.

Lemma u_step spec w fss r seen w' r' rec :
  u_reads spec w fss r seen → ReadMessage fuel a o w r buflen = Some (w', r', Ok rec) →
  ∃ fss' f rest, later (D := D) w fss w' fss' ∧ rec = record_of f ∧ concat fss' = seen ++ f :: rest ∧ within (rs_until spec) f ∧
    u_reads spec w' fss' r' (seen ++ [f]).
Proof.
  intros (Hw & Hu & Hsp & u & Ec & Hnw & Hat) E. assert (Hfu : (0 < fuel)%nat) by (unfold ample in Hfuel; lia).
  pose proof (appending_growing o Ho) as Hg. pose proof (ReadMessage_unfiltered fuel a o w r buflen Hu Hfu) as Eq.
  destruct (readMessage fuel o w (Uncommitted u) buflen) as [res|] eqn:E1.
  2: { rewrite Eq in E. destruct fuel as [|fuel']; [lia|]. cbn [read_seq] in E. by rewrite Ec, E1 in E. }
  pose proof (uncommitted_next fuel o w fss u seen buflen res Ho Hw Hat Hbuf ltac:(unfold ample, read_fuel in *; lia) E1) as Hn.
  destruct res as [[w1 c1] x]. destruct Hn as (f1 & c & L & -> & [(f & -> & Haf)|(e & -> & _ & Hew & _)]).
  - rewrite <- Ec in E1. destruct (read_record fuel a o w r buflen w1 f1 _ seen f Hg (lt_ok _ _ _ _ L) Hfu Hu E1 Haf) as [Hyes Hno].
    destruct (Hno _ _ _ E) as [Hc Hwi]. rewrite (Hyes Hc Hwi) in E. injection E as <- <- <-.
    destruct (Hg w1 f1 (lt_ok _ _ _ _ L)) as (f2 & L2). pose proof (seen_later _ _ _ _ _ _ (lt_ok _ _ _ _ L) L2 (at_after_seen _ _ _ _ _ Haf)) as Hat2.
    destruct (at_after_next _ _ _ _ _ Haf) as (rest & Er). destruct (stretches_concat _ _ (lt_frames _ _ _ _ L2)) as (new & En).
    exists f2, f, (rest ++ new). split; [by eapply later_trans|]. split; [done|]. split; [by rewrite En, Er, <- app_assoc|]. split; [by rewrite <- Hsp|].
    split; [apply (lt_ok _ _ _ _ L2)|]. split; [done|]. split; [done|]. by eexists.
  - rewrite <- Ec in E1. destruct (seq_failed fuel o w r buflen w1 _ e Hfu E1 (ends_not_replaced _ _ Hown Hew)) as (e' & E2 & _).
    rewrite Eq, E2 in E. done.
Qed.

Lemma u_ahead spec w fss r seen f rest :
  u_reads spec w fss r seen → concat fss = seen ++ f :: rest → within (rs_until spec) f → checks f = true →
  ∃ w' r' rec, ReadMessage fuel a o w r buflen = Some (w', r', Ok rec).
Proof.
  intros (Hw & Hu & Hsp & u & Ec & Hnw & Hat) Hcat Hwi Hc. assert (Hfu : (0 < fuel)%nat) by (unfold ample in Hfuel; lia).
  destruct (uncommitted_ahead fuel o w fss u seen buflen Ho Hw Hat Hbuf ltac:(unfold ample, read_fuel in *; lia)) as (w1 & f1 & c & g & E & L & Haf).
  { rewrite Hcat. intros Hx. apply (f_equal length) in Hx. rewrite length_app in Hx. cbn in Hx. lia. }
  destruct (at_after_next _ _ _ _ _ Haf) as (rest1 & Er). destruct (stretches_concat _ _ (lt_frames _ _ _ _ L)) as (new & En).
  rewrite Er, Hcat, <- app_assoc in En. apply app_inv_head in En. cbn in En. injection En as -> _. rewrite <- Ec in E.
  destruct (read_record fuel a o w r buflen w1 f1 _ seen f (appending_growing o Ho) (lt_ok _ _ _ _ L) Hfu Hu E Haf) as [Hyes _].
  eexists _, _, _. apply Hyes; [done|]. by rewrite Hsp.
Qed.

(** A source that fails makes the reader fail. *)
Lemma source_fails w fss r w1 f1 c e :
  unfiltered r → readMessage fuel o w (r_ctxReader r) buflen = Some (w1, c, Fail e) → later (D := D) w fss w1 f1 →
  e ≠ ErrSegmentReplaced → e ≠ ErrCommitLogReadonly →
  ∃ w' fss' r' e', ReadMessage fuel a o w r buflen = Some (w', r', Fail e') ∧ e' ≠ ErrCommitLogReadonly ∧ later (D := D) w fss w' fss'.
Proof.
  intros Hu E L He1 He2. assert (Hfu : (0 < fuel)%nat) by (unfold ample in Hfuel; lia). rewrite (ReadMessage_unfiltered fuel a o w r buflen Hu Hfu).
  destruct (seq_failed fuel o w r buflen w1 c e Hfu E He1) as (e' & -> & He').
  destruct (appending_growing o Ho w1 f1 (lt_ok _ _ _ _ L)) as (f2 & L2). cbn [mbind option_bind]. eexists _, f2, _, _. split; [done|].
  split; [by apply He'|]. by eapply later_trans.
Qed.

(** A reader that does not follow the log fails at its end, and any reader fails
    at a damaged record. *)
Lemma u_fails spec w fss r seen :
  u_reads spec w fss r seen →
  (∀ w' fss', later (D := D) w fss w' fss' → concat fss' = seen) ∧ rs_follow spec = false ∨
  (∃ f rest, concat fss = seen ++ f :: rest ∧ checks f = false) →
  ∃ w' fss' r' e, ReadMessage fuel a o w r buflen = Some (w', r', Fail e) ∧ e ≠ ErrCommitLogReadonly ∧ later (D := D) w fss w' fss'.
Proof.
  intros (Hw & Hu & Hsp & u & Ec & Hnw & Hat) Hc. assert (Hrf : (read_fuel ≤ fuel)%nat) by (unfold ample, read_fuel in *; lia).
  destruct Hc as [(Hend & Hfo)|(f & rest & Hcat & Hck)].
  - destruct (uncommitted_ends fuel o w fss u seen buflen Ho Hw Hat Hbuf Hrf) as ([[w1 c1] x] & E); [by rewrite Hnw, Hfo|].
    pose proof (uncommitted_next fuel o w fss u seen buflen _ Ho Hw Hat Hbuf Hrf E) as (f1 & c & L & -> & Hx). rewrite <- Ec in E.
    destruct Hx as [(f & -> & Haf)|(e & -> & _ & _ & He)].
    + destruct (at_after_next _ _ _ _ _ Haf) as (rest & Er). rewrite (Hend _ _ L) in Er.
      apply (f_equal length) in Er. rewrite length_app in Er. cbn in Er. lia.
    + destruct He as (-> & _); [by rewrite Hnw, Hfo|]. by eapply source_fails.
  - destruct (uncommitted_ahead fuel o w fss u seen buflen Ho Hw Hat Hbuf Hrf) as (w1 & f1 & c & g & E & L & Haf).
    { rewrite Hcat. intros Hx. apply (f_equal length) in Hx. rewrite length_app in Hx. cbn in Hx. lia. }
    destruct (at_after_next _ _ _ _ _ Haf) as (rest1 & Er). destruct (stretches_concat _ _ (lt_frames _ _ _ _ L)) as (new & En).
    rewrite Er, Hcat, <- app_assoc in En. apply app_inv_head in En. cbn in En. injection En as -> _. rewrite <- Ec in E.
    unfold delivered in E. rewrite Hck in E. by eapply source_fails.
Qed.

End uncommitted.

(** *** To the watermark *)

Section committed.
Context (d : Z) (fuel : nat) (a : PrefixRead.around) (o : others) (buflen : Z).
Context (Hfuel : ample fuel) (Hg : growing (D := Solid d) o) (Hown : own_errors o) (Hbuf : msgSetHeaderLen ≤ buflen).

Definition c_reads (spec : readSpec) (w : world) (fss : list (list frm)) (r : Reader) (seen : list frm) : Prop :=
  unfiltered r ∧ r_spec r = spec ∧ ∃ rc, r_ctxReader r = Committed rc ∧ cr_seen (d := d) w fss rc seen.

(** The records a committed reader may give. *)
Definition c_gives (spec : readSpec) (w : world) (f : frm) : Prop := within (rs_until spec) f ∧ f_off f ≤ hw (w_log w).

Lemma c_step spec w fss r seen w' r' rec :
  c_reads spec w fss r seen → ReadMessage fuel a o w r buflen = Some (w', r', Ok rec) →
  ∃ fss' f rest, later (D := Solid d) w fss w' fss' ∧ rec = record_of f ∧ concat fss' = seen ++ f :: rest ∧ c_gives spec w' f ∧
    c_reads spec w' fss' r' (seen ++ [f]).
Proof.
  intros (Hu & Hsp & rc & Ec & Hcs) E. assert (Hfu : (0 < fuel)%nat) by (unfold ample in Hfuel; lia).
  pose proof (ReadMessage_unfiltered fuel a o w r buflen Hu Hfu) as Eq.
  destruct (readMessage fuel o w (Committed rc) buflen) as [res|] eqn:E1.
  2: { rewrite Eq in E. destruct fuel as [|fuel']; [lia|]. cbn [read_seq] in E. by rewrite Ec, E1 in E. }
  pose proof (committed_next o Hg fuel w fss rc seen buflen res Hfuel Hcs Hbuf E1) as Hn.
  destruct res as [[w1 c1] x]. destruct Hn as (f1 & rc1 & L & -> & _ & [(f & Haf & Hle & -> & Hcs1)|(e & -> & _ & Hew & _)]).
  - rewrite <- Ec in E1. destruct (read_record fuel a o w r buflen w1 f1 _ seen f Hg (lt_ok _ _ _ _ L) Hfu Hu E1 Haf) as [Hyes Hno].
    destruct (Hno _ _ _ E) as [Hc Hwi]. rewrite (Hyes Hc Hwi) in E. injection E as <- <- <-.
    destruct (Hg w1 f1 (lt_ok _ _ _ _ L)) as (f2 & L2). pose proof (lt_hw _ _ _ _ L2).
    destruct (at_after_next _ _ _ _ _ Haf) as (rest & Er). destruct (stretches_concat _ _ (lt_frames _ _ _ _ L2)) as (new & En).
    exists f2, f, (rest ++ new). split; [by eapply later_trans|]. split; [done|]. split; [by rewrite En, Er, <- app_assoc|].
    split; [split; [by rewrite <- Hsp|lia]|]. split; [done|]. split; [done|]. exists rc1. split; [done|]. by eapply cr_seen_later.
  - rewrite <- Ec in E1. destruct (seq_failed fuel o w r buflen w1 _ e Hfu E1 (ends_not_replaced _ _ Hown Hew)) as (e' & E2 & _).
    rewrite Eq, E2 in E. done.
Qed.

Lemma c_ahead spec w fss r seen f rest :
  c_reads spec w fss r seen → concat fss = seen ++ f :: rest → c_gives spec w f → checks f = true →
  ∃ w' r' rec, ReadMessage fuel a o w r buflen = Some (w', r', Ok rec).
Proof.
  intros (Hu & Hsp & rc & Ec & Hcs) Hcat [Hwi Hle] Hc. assert (Hfu : (0 < fuel)%nat) by (unfold ample in Hfuel; lia). pose proof Hcs as (Hw & _).
  destruct (committed_ahead o Hg fuel w fss rc seen buflen f Hfuel Hcs Hbuf) as (w1 & f1 & rc1 & g & E & L & _ & Haf & _); [| |done|].
  { rewrite Hcat. apply elem_of_app. right. left. }
  { destruct Hw as [Hi _]. pose proof (inv_ascending _ _ Hi) as Ha. rewrite Hcat in Ha. apply StronglySorted_app in Ha as (Hx & _).
    intros Hin. specialize (Hx f f Hin ltac:(left)). cbn in Hx. lia. }
  destruct (at_after_next _ _ _ _ _ Haf) as (rest1 & Er). destruct (stretches_concat _ _ (lt_frames _ _ _ _ L)) as (new & En).
  rewrite Er, Hcat, <- app_assoc in En. apply app_inv_head in En. cbn in En. injection En as -> _. rewrite <- Ec in E.
  destruct (read_record fuel a o w r buflen w1 f1 _ seen f Hg (lt_ok _ _ _ _ L) Hfu Hu E Haf) as [Hyes _].
  eexists _, _, _. apply Hyes; [done|]. by rewrite Hsp.
Qed.

Lemma c_gives_later spec w fss w' fss' f : later (D := Solid d) w fss w' fss' → c_gives spec w f → c_gives spec w' f.
Proof. intros L [Hwi Hle]. split; [done|]. pose proof (lt_hw _ _ _ _ L). lia. Qed.

End committed.

(** ** A new reader *)

(** A read from an offset without a filter, and its specification. *)
Definition plain_read (opts : readOptions) (offset : Z) (uncommitted : bool) : Prop :=
  ro_from opts = Some offset ∧ ro_prefix opts = None ∧ ro_uncommitted opts = uncommitted ∧
  match ro_until opts with Some u => offset ≤ u | None => True end.

Definition spec_of (opts : readOptions) (offset : Z) : readSpec :=
  {| rs_offset := offset; rs_until := ro_until opts; rs_follow := ro_follow opts; rs_uncommitted := ro_uncommitted opts;
     rs_prefix := ro_prefix opts; rs_skipSuperseded := ro_skipSuperseded opts; rs_includeControl := ro_includeControl opts |}.

Lemma resolve_plain l opts offset b : plain_read opts offset b → resolve l opts = Ok (spec_of opts offset).
Proof.
  intros (Ef & Ep & Eu & Hu). unfold resolve. rewrite Ef, Ep. rewrite bool_decide_eq_false_2 by (by intros [? ?]). cbn [andb].
  destruct (ro_until opts) as [u|] eqn:Eo; [rewrite (proj2 (Z.ltb_ge _ _)) by lia|]; unfold spec_of; by rewrite Ep, Eo.
Qed.

Lemma NewReader_plain fuel o w self opts offset b w1 c :
  plain_read opts offset b →
  (if b then newReaderUncommitted fuel o (turn o w) self offset (negb (ro_follow opts))
   else newReaderCommitted fuel o (turn o w) self offset (negb (ro_follow opts))) = Some (w1, Ok c) →
  NewReader fuel o w self opts = Some (w1, Ok {| r_self := self; r_ctxReader := c; r_offset := offset; r_spec := spec_of opts offset; r_prefix := None |}).
Proof.
  intros Hp E. unfold NewReader. rewrite (resolve_plain _ _ _ _ Hp). destruct Hp as (_ & Ep & Eu & _).
  unfold newSourceReader, readerResolveAttempts. cbn [source_attempts spec_of rs_uncommitted rs_offset rs_follow rs_prefix]. rewrite Eu, Ep.
  destruct b; rewrite E; reflexivity.
Qed.

Lemma unfiltered_plain self opts offset c :
  ro_prefix opts = None →
  unfiltered {| r_self := self; r_ctxReader := c; r_offset := offset; r_spec := spec_of opts offset; r_prefix := None |}.
Proof. by intros Ep. Qed.

(** An uncommitted read that is opened. *)
Lemma opens_uncommitted {D} fuel o w fss self opts offset :
  ample fuel → appending (D := D) o → w_ok w fss → plain_read opts offset true → offset < NextOffset (active (w_log w)) →
  ∃ w1 f1 r seen, NewReader fuel o w self opts = Some (w1, Ok r) ∧ later (D := D) w fss w1 f1 ∧
    u_reads (spec_of opts offset) w1 f1 r seen ∧ split_at offset seen (concat f1).
Proof.
  intros Hfu Ho Hw Hp Hoff. destruct (appending_growing o Ho w fss Hw) as (f0 & L0). pose proof (next_grows _ _ _ _ Hw L0) as Hn0.
  destruct (newUncommitted_spec fuel o (turn o w) f0 self offset (negb (ro_follow opts)) Hfu Ho (lt_ok _ _ _ _ L0))
    as (w1 & f1 & c & seen & E & L1 & Hat & Hsp); [lia|].
  pose proof (NewReader_plain fuel o w self opts offset true _ _ Hp E) as En. eexists w1, f1, _, seen. split; [exact En|].
  split; [by eapply later_trans|]. split; [|done]. split; [apply (lt_ok _ _ _ _ L1)|]. split; [apply unfiltered_plain; apply Hp|].
  split; [done|]. eexists. split; [done|]. split; [done|done].
Qed.

End codecs.

(** C7: A reader of the tail misses nothing.  With at most one append, a roll
    included, between two accesses of the reader to the log, a reader of an
    unfiltered, uncommitted read that is positioned at an offset the log has
    reached returns, without waiting, the records from that offset on that were
    there when it was opened, are within the bound of the read and pass their
    checksums, in order; and the records it returns are always the first ones
    from that offset on, none missing and none repeated.  With an append and a
    roll more in between it may miss one: [rolled_record_skipped]. *)
Theorem tail_reader_exact `{CodecLib} fuel a o w fss self opts offset buflen :
  ample fuel → appending (D := Growing) o → own_errors o → msgSetHeaderLen ≤ buflen → w_ok w fss →
  plain_read opts offset true → offset < NextOffset (active (w_log w)) →
  ∃ w1 r, NewReader fuel o w self opts = Some (w1, Ok r) ∧
    (∀ fs rest, from offset (concat fss) = fs ++ rest → Forall (within (ro_until opts)) fs → Forall (λ f, checks f = true) fs →
       ∃ w2 r2, read_n (length fs) fuel a o w1 r buflen = Some (w2, r2, Ok (record_of <$> fs))) ∧
    (∀ k w2 r2 recs, read_n k fuel a o w1 r buflen = Some (w2, r2, Ok recs) →
       ∃ fss2, later (D := Growing) w fss w2 fss2 ∧ recs = record_of <$> take k (from offset (concat fss2)) ∧ length recs = k).
Proof.
  intros Hfu Ho Hown Hbuf Hw Hp Hoff.
  destruct (opens_uncommitted fuel o w fss self opts offset Hfu Ho Hw Hp Hoff) as (w1 & f1 & r & seen & En & L & Hr & Hsp).
  exists w1, r. split; [exact En|]. set (spec := spec_of opts offset) in *. pose proof (split_from _ _ _ Hsp) as Hcat. split.
  - intros fs rest Efs Hwi Hc. destruct (from_later _ _ _ _ offset Hw L ltac:(lia)) as (new & Ef). rewrite Ef, Efs, <- app_assoc in Hcat.
    apply (read_n_ahead (D := Growing) fuel a o buflen (u_reads spec) (λ _, within (rs_until spec))) with (fss := f1) (seen := seen) (rest := rest ++ new);
      try done; [intros; by eapply u_step|intros; by eapply u_ahead].
  - intros k w2 r2 recs Ek.
    destruct (read_n_ok (D := Growing) fuel a o buflen (u_reads spec) (λ _, within (rs_until spec))) with (k := k) (w := w1) (fss := f1) (r := r) (seen := seen) (w' := w2) (r' := r2) (recs := recs)
      as (f2 & fs & L2 & _ & Hpre & Hk & -> & _); try done; [intros; by eapply u_step|by intros ? ? ? ? (? & _)|].
    exists f2. split; [by eapply later_trans|]. rewrite length_fmap. split; [|done]. f_equal. eapply first_from; [|done|done].
    pose proof (next_grows _ _ _ _ Hw L). eapply split_later; [apply (lt_ok _ _ _ _ L)|exact L2|lia|done].
Qed.

(** C8: A committed reader gives the committed records.  While the log grows and
    its watermark rises, and as long as there is a record at every offset of the
    log from some offset at or below the watermark on, a reader of an unfiltered
    committed read from an offset at or below the watermark and the end of the log
    returns, without waiting, the records from that offset on that were committed
    when it was opened, are within the bound of the read and pass their checksums,
    in order; the records it returns are always the first ones from that offset
    on, and every one is at or below the watermark of the log.  With no record at
    the watermark it may read past it ([watermark_hole_overrun]), and from an
    offset above the watermark it forgets the offset
    ([above_watermark_forgotten]). *)
Theorem committed_reader_exact `{CodecLib} d fuel a o w fss self opts offset buflen :
  ample fuel → growing (D := Solid d) o → own_errors o → msgSetHeaderLen ≤ buflen → w_ok w fss → solid d w fss →
  plain_read opts offset false → offset ≤ Z.min (hw (w_log w)) (NextOffset (active (w_log w)) - 1) →
  ∃ w1 r, NewReader fuel o w self opts = Some (w1, Ok r) ∧
    (∀ fs rest, from offset (concat fss) = fs ++ rest → Forall (within (ro_until opts)) fs →
       Forall (λ f, f_off f ≤ hw (w_log w)) fs → Forall (λ f, checks f = true) fs →
       ∃ w2 r2, read_n (length fs) fuel a o w1 r buflen = Some (w2, r2, Ok (record_of <$> fs))) ∧
    (∀ k w2 r2 recs, read_n k fuel a o w1 r buflen = Some (w2, r2, Ok recs) →
       ∃ fss2, later (D := Solid d) w fss w2 fss2 ∧ recs = record_of <$> take k (from offset (concat fss2)) ∧ length recs = k ∧
         Forall (λ rec, rr_offset rec ≤ hw (w_log w2)) recs).
Proof.
  intros Hfu Hg Hown Hbuf Hw Hsol Hp Hoff. destruct (Hg w fss Hw) as (f0 & L0).
  pose proof (next_grows _ _ _ _ Hw L0) as Hn0. pose proof (lt_hw _ _ _ _ L0) as Hh0. pose proof (lt_ok _ _ _ _ L0) as Hw0.
  destruct (newCommitted_spec o Hg fuel (turn o w) f0 self offset (negb (ro_follow opts)) Hfu Hw0) as (w1 & f1 & rc & seen & E & _ & L1 & Hcs & Hsp);
    [by apply (lt_promise _ _ _ _ L0)|lia|].
  pose proof (later_trans _ _ _ _ _ _ L0 L1) as L. pose proof (NewReader_plain fuel o w self opts offset false _ _ Hp E) as En.
  set (r := {| r_self := self |}) in En. exists w1, r. split; [exact En|]. set (spec := spec_of opts offset).
  assert (Hr : c_reads d spec w1 f1 r seen).
  { split; [apply unfiltered_plain; apply Hp|]. split; [done|]. by eexists. }
  pose proof (split_from _ _ _ Hsp) as Hcat. split.
  - intros fs rest Efs Hwi Hle Hc. destruct (from_later _ _ _ _ offset Hw L ltac:(lia)) as (new & Ef). rewrite Ef, Efs, <- app_assoc in Hcat.
    apply (read_n_ahead (D := Solid d) fuel a o buflen (c_reads d spec) (c_gives spec)) with (fss := f1) (seen := seen) (rest := rest ++ new); try done.
    + intros; by eapply c_gives_later.
    + intros; by eapply c_step.
    + intros; by eapply c_ahead.
    + apply Forall_forall. intros f Hf. rewrite Forall_forall in Hwi, Hle. split; [by apply Hwi|]. specialize (Hle f Hf). pose proof (lt_hw _ _ _ _ L). lia.
  - intros k w2 r2 recs Ek.
    destruct (read_n_ok (D := Solid d) fuel a o buflen (c_reads d spec) (c_gives spec)) with (k := k) (w := w1) (fss := f1) (r := r) (seen := seen) (w' := w2) (r' := r2) (recs := recs)
      as (f2 & fs & L2 & _ & Hpre & Hk & -> & HA); try done;
      [intros; by eapply c_gives_later|intros; by eapply c_step|by intros ? ? ? ? (_ & _ & ? & _ & ? & _)|].
    exists f2. split; [by eapply later_trans|]. rewrite length_fmap. split; [f_equal; eapply first_from; [|done|done]|].
    + pose proof (next_grows _ _ _ _ Hw0 L1). eapply split_later; [apply (lt_ok _ _ _ _ L1)|exact L2|lia|done].
    + split; [done|]. apply Forall_fmap. eapply Forall_impl; [exact HA|]. by intros f [_ ?].
Qed.

(** ** Where the readers depart from their documentation *)

(** A committed reader positioned above the watermark does not keep the offset it
    was positioned at: it is the same reader for any two of them, one that begins
    behind the watermark. *)
Lemma above_watermark_forgotten `{CodecLib} fuel o w self x y noWait :
  let w1 := turn o w in let w2 := turn o w1 in
  clampHW (objects w2 (snapshot w2)) (HighWatermark (w_log w1)) < Z.min x y →
  newReaderCommitted fuel o w self x noWait = newReaderCommitted fuel o w self y noWait.
Proof.
  intros w1 w2 Hlt. unfold newReaderCommitted. fold w1. fold w2. set (h := clampHW _ _) in *.
  rewrite !(proj2 (Z.ltb_lt h _)) by lia. by rewrite !orb_true_r.
Qed.

(** With no record at the watermark, the position a committed reader may read up
    to is the end of the next record, which is above the watermark. *)
Lemma watermark_hole_overrun `{CodecLib} fuel o w fss j s h :
  2 ^ 26 ≤ Z.of_nat fuel → growing (D := Growing) o → w_ok w fss →
  segments (w_log w) !! j = Some s → BaseOffset s ≤ h < NextOffset s → (∀ f, f ∈ concat fss → f_off f ≠ h) →
  ∃ w' fss' x g y, getHWPos fuel o w (snapshot w) h = Some (w', Ok (id s, zlen (fs_bytes (x ++ [g])))) ∧
    later (D := Growing) w fss w' fss' ∧ fss' !! j = Some (x ++ g :: y) ∧ h < f_off g.
Proof.
  intros Hfu Hg Hw Es Hh Hhole. unfold getHWPos. rewrite (objects_prefix _ _ (snapshot w) Hw) by done.
  pose proof Hw as [Hi _]. pose proof Hi as (_ & Hl & _). pose proof (lookup_lt_Some _ _ _ Es) as Hj.
  rewrite (find_at _ _ _ _ _ h Hi Es); [|unfold snapshot; by rewrite length_fmap|lia|].
  2: { intros k x Hk Ex. pose proof (sorted_lookup _ _ k j x s Hl Hk Ex Es) as Hx. cbn in Hx. lia. }
  cbn [fst]. destruct (object_find_spec fuel o w fss j s h Hfu Hg Hw Es Hh) as (w' & f' & x & g & y & e & -> & L & Ef' & Ep & _ & Ez & _ & Hy).
  exists w', f', x, g, y. split; [by rewrite Ep, Ez, zlen_fs_snoc|]. split; [done|]. split; [done|].
  apply Forall_cons in Hy as [Hy _]. assert (f_off g ≠ h); [|lia].
  destruct (later_above _ _ _ _ Hw L) as (new & Ec & Hn).
  assert (Hin : g ∈ concat fss ++ new) by (rewrite <- Ec; apply elem_of_concat; exists j, (x ++ g :: y); split; [done|]; apply elem_of_app; right; left).
  apply elem_of_app in Hin as [Hin|Hin]; [by apply Hhole|]. rewrite Forall_forall in Hn. specialize (Hn g Hin). cbn in Hn.
  assert (NextOffset s ≤ NextOffset (active (w_log w))); [|lia].
  pose proof (inv_next_sorted _ _ Hi) as Hs. unfold segments in Hs, Es, Hj. rewrite length_app in Hj. cbn in Hj.
  destruct (decide (j < length (older (w_log w)))%nat) as [Hlt|Hge].
  - apply (sorted_lookup _ _ j (length (older (w_log w))) s (active (w_log w)) Hs Hlt Es). by rewrite list_lookup_middle.
  - replace j with (length (older (w_log w))) in Es by lia. rewrite list_lookup_middle in Es by done. by injection Es as ->.
Qed.

(** Without a watermark a committed filtered read has no bound, and its window
    takes in every record from its offset on. *)
Lemma unset_watermark_unbounded spec n off :
  rs_uncommitted spec = false → rs_until spec = None →
  PrefixRead.inWindow n (PrefixRead.bound spec (-1)) off = (n <=? off).
Proof. intros Hu He. unfold PrefixRead.bound, PrefixRead.inWindow. rewrite Hu, He. cbn. by rewrite andb_true_r. Qed.

(** An active segment that is full and not rolled yet never lets a reader at its
    end wait: it answers at once that there is more, although nothing is. *)
Lemma full_segment_never_parks s self :
  maxBytes s ≤ position s → self ∉ waiters s → waitForData s self (position s) = (s, true).
Proof.
  intros Hfull Hw. unfold waitForData. rewrite bool_decide_eq_false_2 by done.
  by rewrite (proj2 (Z.leb_le _ _) Hfull), orb_true_r.
Qed.

(** A record written to the segment between the read that found its end and the
    look at the list of segments is passed over when the segment has rolled by
    then: the reader goes on at the next segment. *)
Lemma rolled_record_skipped `{CodecLib} fuel o w r n w1 b fss i s s' x f q g gs :
  buf_read o w (c_br (u_cur r)) n = (w1, b, Ok ([], Some ErrEOF)) → n ≠ 0 →
  w_ok (turn o w1) fss → c_seg (u_cur r) = Some (id s) →
  segments (w_log (turn o w1)) !! i = Some s → segments (w_log (turn o w1)) !! S i = Some s' →
  fss !! i = Some (x ++ f :: q) → fss !! S i = Some (g :: gs) →
  f ∈ concat (take (S i) fss) ∧
  u_loop (S fuel) o w r n [] = u_loop fuel o (turn o w1) (u_at r (seekTo (Some (id s')) 0)) n [].
Proof.
  intros Eb Hn Hw Ec Es Es' Ef Eg. split.
  { apply elem_of_concat. exists i, (x ++ f :: q). split; [by rewrite lookup_take_lt by lia|]. apply elem_of_app. right. left. }
  cbn [u_loop]. rewrite Eb. change (zlen (@nil byte)) with 0. rewrite Z.sub_0_r, (proj2 (Z.eqb_neq n 0) Hn). cbn [Z.ltb Z.compare andb app u_at u_cur c_seg].
  rewrite Ec. cbn [mbind option_bind]. rewrite (object_in _ _ _ _ Hw Es). cbn [fmap option_fmap option_map]. rewrite (objects_all _ _ Hw).
  destruct (find_after _ _ _ _ Hw Es) as [(t & Et & ->)|[Ea Hemp]]; [by rewrite Es' in Et; injection Et as ->|].
  by rewrite (drop_S _ _ _ Eg) in Hemp.
Qed.

(** ** Appends beside a reader *)

Section beside.
Context `{Laws : CodecLaws}.

(** An append extends the last segment, or leaves it and extends a new one. *)
Lemma appended_once l fss fss' new l' :
  inv l' fss' → concat fss' = concat fss ++ new → stretches fss fss' →
  Forall (λ f, NextOffset (active l) ≤ f_off f) new → BaseOffset (active l') ≤ NextOffset (active l) →
  one_append fss fss'.
Proof.
  intros Hi' Hc Hst Hab Hb i fs [|f x] Ei Ei' Hx; [done|]. pose proof (lookup_lt_Some _ _ _ Ei) as Hlt.
  assert (Hi : length fss = S i).
  { destruct (Hst i fs Ei) as (y & E & Hy). rewrite Ei' in E. injection E as E. apply app_inv_head in E as <-.
    destruct (decide (S i < length fss)%nat) as [Hs|]; [by specialize (Hy Hs)|lia]. }
  assert (Hin : f ∈ new).
  { rewrite <- (take_drop_middle _ _ _ Ei'), <- (take_drop_middle _ _ _ Ei), (stretches_take _ _ i Hst Hlt) in Hc.
    rewrite (drop_ge fss) in Hc by lia. rewrite !concat_app, !concat_cons, <- !app_assoc in Hc. cbn in Hc.
    do 2 apply app_inv_head in Hc. rewrite <- Hc. left. }
  destruct (decide (length fss' = S i)) as [|Hlen]; [done|]. exfalso. apply lookup_lt_Some in Ei' as Hlt'.
  destruct (inv_active _ _ Hi') as (gss & gs & -> & Ho & Ha). rewrite length_app in Hlt', Hlen. cbn in Hlt', Hlen.
  rewrite lookup_app_l in Ei' by lia. destruct (Forall2_lookup_r _ _ _ _ _ Ho Ei') as (s & Es & Hs).
  assert (Hlow : NextOffset s ≤ BaseOffset (active l')).
  { pose proof Hi' as (_ & Hl & _). unfold segments in Hl. apply linked_snoc in Hl as [_ Hl].
    rewrite Forall_forall in Hl. apply Hl. by eapply list_elem_of_lookup_2. }
  pose proof (seg_range _ _ _ f Hs ltac:(apply elem_of_app; right; left)).
  rewrite Forall_forall in Hab. specialize (Hab f Hin). cbn in Hab. lia.
Qed.

(** A batch appended to the log, as a reader sees it. *)
Lemma appended_later D w fss n l' t msgs gone k :
  (∀ all h next, D ≠ Still all h next) →
  w_ok w fss → n = NextOffset (active (w_log w)) → msgs ≠ [] →
  appended (w_log w) fss (batch_frames n (stamp t <$> msgs)) l' →
  let w' := {| w_log := l'; w_left := gone; w_clock := k |} in
  ∃ fss', later (D := D) w fss w' fss' ∧ one_append fss fss'.
Proof.
  intros HD [Hi Hnum] -> Hne (fss' & Hi' & (Hc & _ & _ & Hbase & _ & Hst & Hren) & (_ & Hhw & _) & Hb & Hnx).
  destruct (Hren Hnum) as [Hnum' Hids]. rewrite next_of_batch, zlen_stamp in Hnx by (by intros ?%fmap_nil_inv).
  pose proof (batch_frames_between (NextOffset (active (w_log w))) (stamp t <$> msgs)) as [Hab _]. rewrite zlen_stamp in Hab.
  exists fss'. split; [|eapply (appended_once (w_log w)); [done|done|done| |lia]; eapply Forall_impl; [exact Hab|cbn; lia]].
  split; cbn [w_log]; [done|done|done|done|lia|].
  destruct D as [|d|all h next]; [done| |by destruct (HD all h next)]. intros (Hd & Hlt & Hall). unfold promised, solid. cbn [w_log]. rewrite Hhw, Hnx, Hc. pose_zlen. split; [done|]. split; [lia|].
  intros h Hh. destruct (decide (h < NextOffset (active (w_log w)))) as [Hlow|Hge].
  - destruct (Hall h) as (f & Hf & E); [lia|]. exists f. split; [|done]. apply elem_of_app. by left.
  - assert (Hin : h ∈ f_off <$> batch_frames (NextOffset (active (w_log w))) (stamp t <$> msgs)).
    { rewrite batch_frames_off, zlen_stamp. apply elem_of_seqZ. lia. }
    apply list_elem_of_fmap in Hin as (f & -> & Hf). exists f. split; [|done]. apply elem_of_app. by right.
Qed.

(** Room for the batch, as [batch_fits] has it. *)
Definition room (t : Z) (l : commitLog) (msgs : list ordered) : bool :=
  negb (readonly l) && (NextOffset (active l) + zlen msgs <? 2 ^ 63) &&
  (NextOffset (active l) + zlen msgs - BaseOffset (active l) <=? 2 ^ 31) &&
  (MaxSegmentBytes (opts l) + zlen (fs_bytes (batch_frames (NextOffset (active l)) (stamp t <$> msgs))) <=? 2 ^ 31).

(** Another thread that appends a batch at every turn, while there is room. *)
Definition writer (t : Z) (msgs : list ordered) : others := {|
  o_step _ l gone :=
    (if room t l msgs then match Append 1 (calm t) l msgs with Some (l', _) => l' | None => l end else l, gone);
  o_wake _ _ := LogShut;
|}.

(** Such a thread is one the theorems about readers speak of. *)
Lemma writer_appending D t msgs :
  (∀ all h next, D ≠ Still all h next) →
  msgs ≠ [] → batch_ok msgs → encodable_batch msgs → in_sint 64 t → appending (D := D) (writer t msgs).
Proof.
  intros HD Hne Hb He Ht w fss Hw. unfold turn, writer. cbn [o_step]. pose proof Hw as [Hi Hnum]. destruct (room t (w_log w) msgs) eqn:Er.
  - unfold room in Er. rewrite !andb_true_iff, negb_true_iff, Z.ltb_lt, !Z.leb_le in Er. destruct Er as (((Hro & Hn) & Hs) & Hz).
    assert (Hf : batch_fits t (w_log w) msgs) by (by split_and!).
    destruct (Append_frames 1 t (w_log w) fss msgs) as (l' & -> & Hap); try done; [lia|by eapply batch_fits_log|by apply stamp_ok|by apply stamp_encodable|].
    by eapply appended_later.
  - exists fss. split; [split; cbn [w_log]; [by split|done|done|apply stretches_refl|lia|done]|].
    intros i fs new Ei Ei' Hx. rewrite Ei in Ei'. injection Ei' as E%(f_equal length). rewrite length_app in E. destruct new; [done|cbn in E; lia].
Qed.

Lemma writer_own t msgs : own_errors (writer t msgs).
Proof. unfold own_errors. by intros. Qed.

End beside.

(** ** Witnesses *)

(** The log of [KeyDigest.kv_frames], its watermark at the last record, beside a thread
    that appends. *)
Definition world_of (fs : list frm) (h : Z) : world := {| w_log := with_hw (log_of fs) h ∅ ∅; w_left := ∅; w_clock := 0 |}.

Definition kv_world : world := world_of KeyDigest.kv_frames 4103.

Definition kv_read (uncommitted : bool) : readOptions :=
  {| ro_from := Some 4101; ro_until := Some 5000; ro_follow := true; ro_uncommitted := uncommitted; ro_prefix := None;
     ro_skipSuperseded := false; ro_includeControl := false |}.

Definition no_digest : PrefixRead.around :=
  {| PrefixRead.a_digest := λ _ _, None; PrefixRead.a_order := λ _ n, seq 0 n; PrefixRead.a_coalesce := -1 |}.

Lemma world_of_ok fs h :
  frames_ok 4100 fs → fs ≠ [] → next_of 4100 fs < 2 ^ 63 →
  @w_ok half_lib (world_of fs h) [fs] ∧ NextOffset (active (w_log (world_of fs h))) = next_of 4100 fs.
Proof.
  intros Hok Hne Hn. pose proof (log_of_inv fs Hok Hne Hn) as Hi. destruct (log_of_numbered fs Hok Hne) as [Hnum Hb].
  split; [by split|]. destruct (inv_active _ _ Hi) as ([|? gss] & gs & E & _ & Ha); [|by destruct gss]. injection E as <-.
  change (active (w_log (world_of fs h))) with (active (log_of fs)). by rewrite (seg_next _ _ _ Ha), Hb.
Qed.

Lemma kv_world_ok : @w_ok half_lib kv_world [KeyDigest.kv_frames] ∧ NextOffset (active (w_log kv_world)) = 4104.
Proof. apply world_of_ok; [apply KeyDigest.kv_frames_ok|done|by vm_compute]. Qed.

Lemma kv_solid : solid 4103 kv_world [KeyDigest.kv_frames].
Proof.
  destruct kv_world_ok as [_ En]. unfold solid. rewrite En. split; [cbn; lia|]. split; [lia|]. intros h Hh.
  assert (h = 4103) as -> by lia. exists (KeyDigest.kv_frame 4103 1). split; [|done]. do 2 right. left.
Qed.

Lemma kv_checks : Forall (λ f, checks f = true) KeyDigest.kv_frames.
Proof.
  assert (Hk : ∀ o k, checks (KeyDigest.kv_frame o k) = true).
  { intros o k. unfold checks. assert (E : SerializedMessage.crcMatches (f_data (KeyDigest.kv_frame o k)) = Ok true) by apply crcMatches_record. by rewrite E. }
  repeat (apply Forall_cons; split); [apply Hk..|by apply Forall_nil].
Qed.

Lemma tail_reader_exact_witness :
  ∃ fuel w1 r w2 r2, @NewReader half_lib fuel (@writer half_lib 5 sample_batch) kv_world 3 (kv_read true) = Some (w1, Ok r) ∧
    @read_n half_lib 2 fuel no_digest (@writer half_lib 5 sample_batch) w1 r 32 =
      Some (w2, r2, Ok (record_of <$> [KeyDigest.kv_frame 4101 2; KeyDigest.kv_frame 4103 1])).
Proof.
  exists (Z.to_nat (2 ^ 27)). destruct kv_world_ok as [Hw En].
  destruct (@tail_reader_exact half_lib (Z.to_nat (2 ^ 27)) no_digest (@writer half_lib 5 sample_batch) kv_world [KeyDigest.kv_frames] 3 (kv_read true) 4101 32)
    as (w1 & r & E & Hr & _).
  - unfold ample. rewrite Z2Nat.id by lia. lia.
  - apply (@writer_appending half_lib half_laws); [done|done|apply sample_batch_ok|by repeat constructor|by vm_compute].
  - apply writer_own.
  - by vm_compute.
  - exact Hw.
  - by split_and!.
  - rewrite En. lia.
  - destruct (Hr [KeyDigest.kv_frame 4101 2; KeyDigest.kv_frame 4103 1] []) as (w2 & r2 & E2).
    + reflexivity.
    + repeat (apply Forall_cons; split); [by vm_compute..|by apply Forall_nil].
    + pose proof kv_checks as Hc. apply Forall_cons in Hc as [_ Hc]. exact Hc.
    + exists w1, r, w2, r2. split; [exact E|exact E2].
Defined.

Lemma committed_reader_exact_witness :
  ∃ fuel w1 r w2 r2, @NewReader half_lib fuel (@writer half_lib 5 sample_batch) kv_world 3 (kv_read false) = Some (w1, Ok r) ∧
    @read_n half_lib 2 fuel no_digest (@writer half_lib 5 sample_batch) w1 r 32 =
      Some (w2, r2, Ok (record_of <$> [KeyDigest.kv_frame 4101 2; KeyDigest.kv_frame 4103 1])).
Proof.
  exists (Z.to_nat (2 ^ 27)). destruct kv_world_ok as [Hw En].
  destruct (@committed_reader_exact half_lib 4103 (Z.to_nat (2 ^ 27)) no_digest (@writer half_lib 5 sample_batch) kv_world [KeyDigest.kv_frames] 3 (kv_read false) 4101 32)
    as (w1 & r & E & Hr & _).
  - unfold ample. rewrite Z2Nat.id by lia. lia.
  - apply appending_growing, (@writer_appending half_lib half_laws); [done|done|apply sample_batch_ok|by repeat constructor|by vm_compute].
  - apply writer_own.
  - by vm_compute.
  - exact Hw.
  - exact kv_solid.
  - by split_and!.
  - rewrite En. cbn. lia.
  - destruct (Hr [KeyDigest.kv_frame 4101 2; KeyDigest.kv_frame 4103 1] []) as (w2 & r2 & E2).
    + reflexivity.
    + repeat (apply Forall_cons; split); [by vm_compute..|by apply Forall_nil].
    + repeat (apply Forall_cons; split); [by vm_compute..|by apply Forall_nil].
    + pose proof kv_checks as Hc. apply Forall_cons in Hc as [_ Hc]. exact Hc.
    + exists w1, r, w2, r2. split; [exact E|exact E2].
Defined.

End Reader.
