(* ===== verification/Repair.v ===== *)
(** * Recovery of the tail: RepairTail and RecoverTail of commitlog.go

    After a crash the log may hold records above the checkpoint of its watermark.
    [RepairTail] reads them and cuts the log in front of the first one that does
    not check; [RecoverTail] then takes what is left as committed. *)

From Stdlib Require Import ZArith Lia.
From stdpp Require Import base list numbers strings gmap sorting.
From coqutil Require Import Byte.
From S2P Require Import Prelude GoStd Wire Compress BlockV3 Block Framing EpochCache Index Segment.
From S2P Require Import SegmentIndex SegmentSearch SegmentReopen Log LogAppend LogRead SegmentRewrite LogTruncate KeyDigest.
From S2P Require Import ReadSource ReadTail ReadCommitted PrefixRead Reader.

Open Scope Z_scope.

Module Repair.
Import Segment SegmentIndex SegmentSearch SegmentReopen Log LogAppend LogRead LogTruncate ReadSource ReadTail ReadCommitted Reader.

Section codecs.
Context `{CodecLib}.

(** A truncation beside others. *)
Definition cut (fuel : nat) (c : cut_io) (o : others) (w : world) (offset : Z) : option (world * outcome ()) :=
  let w := turn o w in
  '(l, r) ← Truncate fuel c (w_log w) offset;
  Some (put_log w l, r).

(** The scan of [RepairTail]; [k] bounds the records it reads. *)
Fixpoint repair_loop (k fuel : nat) (a : PrefixRead.around) (c : cut_io) (o : others) (w : world) (r : Reader) (newest lastGood : Z)
    : option (world * outcome ()) :=
  match k with
  | O => None
  | S k =>
      '(w, r, x) ← ReadMessage fuel a o w r msgSetHeaderLen;
      match x with
      | Ok rec => if newest <=? rr_offset rec then Some (w, Ok ()) else repair_loop k fuel a c o w r newest (rr_offset rec)
      | Fail ErrCommitLogReadonly => Some (w, Ok ())
      | Fail _ => cut fuel c o w (sint 64 (lastGood + 1))
      | Panic => Some (w, Panic)
      end
  end.

(** The newest offset, with what happened before. *)
Definition answered (o : others) (w : world) (r : outcome ()) : option (world * Z * outcome ()) :=
  let w := turn o w in Some (w, NewestOffset (w_log w), r).

(** The first offset to read: above the watermark, or the oldest there is. *)
Definition repair_start (l : commitLog) (h : Z) : Z :=
  let start := sint 64 (h + 1) in
  let oldest := OldestOffset l in
  if (0 <=? oldest) && (start <? oldest) then oldest else start.

Definition RepairTail (k fuel : nat) (a : PrefixRead.around) (c : cut_io) (o : others) (w : world) (self : Z)
    : option (world * Z * outcome ()) :=
  let w := turn o w in
  let h := HighWatermark (w_log w) in
  let w := turn o w in
  let newest := NewestOffset (w_log w) in
  if newest <=? h then Some (w, newest, Ok ())
  else
    let w := turn o w in
    '(w, x) ← newRecoveryReader fuel o w self (repair_start (w_log w) h);
    match x with
    | Ok r => '(w, y) ← repair_loop k fuel a c o w r newest h; answered o w y
    | Fail ErrSegmentNotFound => '(w, y) ← cut fuel c o w (sint 64 (h + 1)); answered o w y
    | Fail e => answered o w (Fail e)
    | Panic => answered o w Panic
    end.

Definition RecoverTail (k fuel : nat) (a : PrefixRead.around) (c : cut_io) (o : others) (w : world) (self : Z)
    : option (world * outcome ()) :=
  let w := turn o w in
  let h := HighWatermark (w_log w) in
  '(w, tail, r) ← RepairTail k fuel a c o w self;
  match r with
  | Ok _ =>
      if h <? tail then let w := turn o w in Some (put_log w (SetHighWatermark (w_log w) tail), Ok ()) else Some (w, Ok ())
  | x => Some (w, x)
  end.

(** The scan cuts the log whatever it is that keeps it from reading, unless the
    log is read-only. *)
Lemma repair_cuts_on_any_error k fuel a c o w r newest lastGood w' r' e :
  ReadMessage fuel a o w r msgSetHeaderLen = Some (w', r', Fail e) → e ≠ ErrCommitLogReadonly →
  repair_loop (S k) fuel a c o w r newest lastGood = cut fuel c o w' (sint 64 (lastGood + 1)).
Proof. intros E He. cbn [repair_loop]. rewrite E. cbn [mbind option_bind]. by destruct e. Qed.

End codecs.

(** ** What recovery leaves *)

Section recovery.
Context {Lib : CodecLib} {Laws : CodecLaws Lib}.
Context (fuel : nat) (a : PrefixRead.around) (Hfuel : ample fuel).

(** The records [kept] are sound above the watermark, and the one behind them, if
    any, is above it and is not. *)
Definition sound_up_to (h : Z) (kept rest : list frm) : Prop :=
  Forall (λ f, h < f_off f → checks f = true) kept ∧
  match rest with [] => True | f :: _ => h < f_off f ∧ checks f = false end.

Lemma segments_fit w fss : w_ok w fss → Forall (λ fs, (length fs < fuel)%nat) fss.
Proof.
  intros [(HF & _) _]. apply Forall_forall. intros fs [i Ei]%list_elem_of_lookup. destruct (Forall2_lookup_r _ _ _ _ _ HF Ei) as (s & _ & Hs & _).
  apply (ample_frames fuel s fs); [unfold ample in Hfuel; lia|done].
Qed.

(** The state of the log after the scan: the records [kept], and the watermark
    lowered where the log now ends below it. *)
Definition repaired (h : Z) (kept : list frm) (w : world) : Prop :=
  ∃ fss, inv (w_log w) fss ∧ concat fss = kept ∧ hw (w_log w) = Z.min h (NewestOffset (w_log w)).

Lemma cut_spec w fss offset kept rest :
  w_ok w fss → concat fss = kept ++ rest → Forall (λ f, f_off f < offset) kept → Forall (λ f, offset ≤ f_off f) rest →
  hw (w_log w) ≤ NewestOffset (w_log w) →
  ∃ w', cut fuel cut_calm alone w offset = Some (w', Ok ()) ∧ repaired (hw (w_log w)) kept w'.
Proof.
  intros Hw Hcat Hlow Hup Hhw. pose proof Hw as [Hi _].
  destruct (Truncate_frames fuel (w_log w) fss offset Hi (segments_fit _ _ Hw)) as (l' & fss' & E & Hi' & Hc & Hl & _).
  unfold cut. change (w_log (turn alone w)) with (w_log w). rewrite E. cbn [mbind option_bind]. eexists. split; [done|]. exists fss'.
  split; [exact Hi'|]. split; [by rewrite Hc, Hcat, below_app, (below_all _ _ Hlow), (below_none _ _ Hup), app_nil_r|].
  cbn [put_log w_log]. destruct (offset <? _); [by destruct Hl as (_ & _ & _ & _ & ? & _)|]. subst l'. lia.
Qed.

(** The scan, standing after the records [seen]. *)
Lemma repair_scan k w fss r seen good rest spec lastGood :
  u_reads spec w fss r seen → rs_follow spec = false → rs_until spec = None →
  concat fss = seen ++ good ++ rest → Forall (λ f, checks f = true) good →
  match rest with [] => True | f :: _ => checks f = false end → (length good < k)%nat →
  Forall (λ f, f_off f ≤ lastGood) seen → Forall (λ f, lastGood < f_off f) (good ++ rest) → -1 ≤ lastGood ≤ NewestOffset (w_log w) →
  hw (w_log w) ≤ NewestOffset (w_log w) →
  ∃ w', repair_loop k fuel a cut_calm alone w r (NewestOffset (w_log w)) lastGood = Some (w', Ok ()) ∧ repaired (hw (w_log w)) (seen ++ good) w'.
Proof.
  revert w fss r seen good lastGood. induction k as [|k IH]; intros w fss r seen good lastGood Hr Hfo Hun Hcat Hck Hbad Hk Hlow Hup Hlg Hhw; [lia|].
  pose proof Hr as (Hw & _). pose proof Hw as [Hi _]. destruct (newest_ok _ _ Hi) as (Hnr & Enew & _).
  set (D := Still (concat fss) (hw (w_log w)) (NextOffset (active (w_log w)))).
  assert (Hpr : promised D w fss) by done. assert (Ho : appending (D := D) alone) by apply alone_appending.
  assert (Hown : own_errors alone) by done. assert (Hbuf : msgSetHeaderLen ≤ msgSetHeaderLen) by lia.
  assert (Hst : ∀ w1 f1, later (D := D) w fss w1 f1 → concat f1 = concat fss ∧ hw (w_log w1) = hw (w_log w) ∧ NewestOffset (w_log w1) = NewestOffset (w_log w)).
  { intros w1 f1 L. destruct (lt_promise _ _ _ _ L Hpr) as (? & ? & En). unfold NewestOffset. by rewrite En. }
  cbn [repair_loop]. destruct good as [|f good].
  - destruct (u_fails fuel a alone msgSetHeaderLen Hfuel Ho Hbuf spec w fss r seen Hr) as (w1 & f1 & r1 & e & E & He & L).
    { destruct rest as [|f rest]; [left|right; by exists f, rest]. split; [|done]. intros w1 f1 L. destruct (Hst _ _ L) as (-> & _). by rewrite Hcat, app_nil_r. }
    rewrite E. cbn [mbind option_bind]. destruct (Hst _ _ L) as (Ec & Eh & En).
    destruct (cut_spec w1 f1 (lastGood + 1) seen rest) as (w' & Ecut & Hrep).
    + apply (lt_ok _ _ _ _ L).
    + by rewrite Ec, Hcat.
    + eapply Forall_impl; [exact Hlow|]. cbn. lia.
    + eapply Forall_impl; [exact Hup|]. cbn. lia.
    + by rewrite Eh, En.
    + exists w'. rewrite app_nil_r, <- Eh. split; [|done]. rewrite (sint_small 64 (lastGood + 1)) by (unfold in_sint; lia). by destruct e.
  - apply Forall_cons in Hck as [Hcf Hck]. cbn [app] in Hcat, Hup. apply Forall_cons in Hup as [Hlf Hup].
    destruct (u_ahead fuel a alone msgSetHeaderLen Hfuel Ho Hbuf spec w fss r seen f (good ++ rest) Hr Hcat) as (w1 & r1 & rec & E); [by rewrite Hun|done|].
    destruct (u_step fuel a alone msgSetHeaderLen Hfuel Ho Hown Hbuf spec w fss r seen w1 r1 rec Hr E) as (f1 & g & rest1 & L & -> & Ec & _ & Hr1).
    destruct (Hst _ _ L) as (Ec' & Eh & En). rewrite Ec', Hcat in Ec. apply app_inv_head in Ec. injection Ec as <- <-.
    rewrite E. cbn [mbind option_bind]. change (rr_offset (record_of f)) with (f_off f).
    pose proof (inv_ascending _ _ Hi) as Hasc. rewrite Hcat in Hasc. apply StronglySorted_app in Hasc as (Hx & _ & Hasc).
    apply StronglySorted_inv in Hasc as [_ Hgt].
    assert (Hnew : Forall (λ g, f_off g ≤ NewestOffset (w_log w)) (f :: good ++ rest)).
    { apply Forall_forall. intros g Hg. pose proof (record_below w fss g Hw) as Hb. rewrite Hcat in Hb.
      specialize (Hb ltac:(apply elem_of_app; by right)). lia. }
    apply Forall_cons in Hnew as [Hnf Hnew]. destruct (Z.leb_spec (NewestOffset (w_log w)) (f_off f)) as [Hle|Hlt'].
    + exists w1. split; [done|]. exists f1. split; [apply (lt_ok _ _ _ _ L)|]. rewrite Ec', Hcat, Eh, En. split; [|lia].
      destruct (good ++ rest) as [|g k'] eqn:Eg.
      * apply app_eq_nil in Eg as [-> ->]. done.
      * exfalso. apply Forall_cons in Hgt as [Hg _], Hnew as [Hg' _]. lia.
    + destruct (IH w1 f1 r1 (seen ++ [f]) good (f_off f) Hr1 Hfo Hun) as (w' & E' & Hrep); rewrite ?En, ?Eh, ?Ec'; try done.
      * by rewrite Hcat, <- app_assoc.
      * cbn in Hk. lia.
      * apply Forall_app. split; [|by apply Forall_singleton]. eapply Forall_impl; [exact Hlow|]. cbn. lia.
      * lia.
      * exists w'. rewrite En in E'. rewrite Eh, <- app_assoc in Hrep. done.
Qed.


(** Where the scan starts, and what lies in front of it. *)
Lemma start_spec w fss h kept rest seen :
  let start := repair_start (w_log w) h in
  w_ok w fss → -1 ≤ h < NewestOffset (w_log w) → concat fss = kept ++ rest → sound_up_to h kept rest →
  start < NextOffset (active (w_log w)) ∧
  (split_at start seen (concat fss) →
   ∃ good, kept = seen ++ good ∧ Forall (λ f, checks f = true) good ∧ Forall (λ f, f_off f ≤ h) seen ∧ Forall (λ f, h < f_off f) (good ++ rest)).
Proof.
  intros start Hw Hh Hcat [Hck Hrest]. assert (Es : start = repair_start (w_log w) h) by done. unfold repair_start in Es. clearbody start. pose proof Hw as [Hi _]. destruct (newest_ok _ _ Hi) as (Hnr & Enew & _).
  rewrite (sint_small 64 (h + 1)) in Es by (unfold in_sint; lia). rewrite (oldest_first _ _ Hi) in Es.
  pose proof (inv_ascending _ _ Hi) as Hasc.
  assert (Hst : h < start ∧ (start = h + 1 ∨ ∃ f k, concat fss = f :: k ∧ start = f_off f)).
  { destruct (concat fss) as [|f k]; cbn in Es; [subst start; split; [lia|by left]|].
    destruct ((0 <=? f_off f) && (h + 1 <? f_off f)) eqn:E; subst start; [|split; [lia|by left]].
    apply andb_true_iff in E as [_ E%Z.ltb_lt]. split; [lia|]. right. by exists f, k. }
  destruct Hst as [Hlt Hst]. split.
  { destruct Hst as [->|(f & k & Ec & ->)]; [lia|]. apply (record_below _ fss); [done|]. rewrite Ec. left. }
  intros (Hlow & rest1 & Esp & Hup).
  assert (Hle : Forall (λ f, f_off f ≤ h) seen).
  { destruct Hst as [->|(f & k & Ec & ->)]; [eapply Forall_impl; [exact Hlow|cbn; lia]|]. rewrite Ec in Esp, Hasc.
    destruct seen as [|g seen]; [by apply Forall_nil|]. injection Esp as -> _. apply Forall_cons in Hlow as [? _]. lia. }
  assert (Hab : Forall (λ f, h < f_off f) rest).
  { rewrite Hcat in Hasc. apply StronglySorted_app in Hasc as (_ & _ & Hasc). destruct rest as [|f rest]; [by apply Forall_nil|].
    destruct Hrest as [Hf _]. apply StronglySorted_inv in Hasc as [_ Hgt]. constructor; [done|]. eapply Forall_impl; [exact Hgt|]. cbn. lia. }
  assert (Hpre : ∃ good, kept = seen ++ good ∧ rest1 = good ++ rest).
  { rewrite Hcat in Esp. clear - Esp Hle Hab. apply app_eq_inv in Esp as [(k & -> & ->)|(k & -> & ->)]; [by exists k|].
    destruct k as [|f k]; [by exists []; rewrite !app_nil_r|]. exfalso. apply Forall_app in Hle as [_ Hle]. cbn in Hab.
    apply Forall_cons in Hle as [? _], Hab as [? _]. lia. }
  destruct Hpre as (good & -> & ->). assert (Hup' : Forall (λ f, h < f_off f) (good ++ rest)) by (eapply Forall_impl; [exact Hup|cbn; lia]).
  exists good. split; [done|]. split; [|done]. apply Forall_app in Hck as [_ Hck]. apply Forall_app in Hup' as [Hup' _].
  rewrite Forall_forall in Hck, Hup' |- *. intros f Hf. apply Hck; [done|]. by apply Hup'.
Qed.

Lemma RepairTail_spec k w fss self kept rest :
  w_ok w fss → -1 ≤ hw (w_log w) < NewestOffset (w_log w) → concat fss = kept ++ rest → sound_up_to (hw (w_log w)) kept rest →
  (length kept < k)%nat →
  ∃ w', RepairTail k fuel a cut_calm alone w self = Some (w', NewestOffset (w_log w'), Ok ()) ∧ repaired (hw (w_log w)) kept w'.
Proof.
  intros Hw Hh Hcat Hsound Hk. unfold RepairTail, HighWatermark. cbn [turn alone o_step w_log].
  rewrite (proj2 (Z.leb_gt (NewestOffset (w_log w)) (hw (w_log w)))) by lia.
  set (w3 := {| w_log := w_log w; w_left := _; w_clock := _ |}). set (start := repair_start (w_log w) (hw (w_log w))).
  set (D := Still (concat fss) (hw (w_log w)) (NextOffset (active (w_log w)))).
  assert (Hw3 : w_ok w3 fss) by done. assert (Hpr : promised D w3 fss) by done.
  destruct (start_spec w3 fss (hw (w_log w)) kept rest [] Hw3 Hh Hcat Hsound) as [Hstart _].
  unfold newRecoveryReader.
  destruct (opens_uncommitted (D := D) fuel alone w3 fss self (recovery_options start) start Hfuel alone_appending Hw3) as (w4 & f4 & r & seen & E & L4 & Hr & Hsp);
    [by split_and!|done|].
  rewrite E. cbn [mbind option_bind]. destruct (lt_promise _ _ _ _ L4 Hpr) as (Ec & Eh & En).
  assert (Enew : NewestOffset (w_log w4) = NewestOffset (w_log w)) by (unfold NewestOffset; by rewrite En).
  rewrite Ec in Hsp. destruct (start_spec w3 fss (hw (w_log w)) kept rest seen Hw3 Hh Hcat Hsound) as [_ Hx].
  destruct (Hx Hsp) as (good & -> & Hck & Hlow & Hup). rewrite length_app in Hk.
  destruct (repair_scan k w4 f4 r seen good rest (spec_of (recovery_options start) start) (hw (w_log w)) Hr) as (w5 & E5 & Hrep); rewrite ?Ec, ?Eh, ?Enew;
    try done; [by rewrite Hcat, <- app_assoc|by destruct Hsound as [_ Hb]; destruct rest as [|f ?]; [|apply Hb]|lia|lia|lia|].
  rewrite Enew in E5. rewrite E5. cbn [mbind option_bind]. rewrite Eh in Hrep. eexists. split; [reflexivity|]. done.
Qed.

(** C11: Recovery after a crash keeps what it can read.  [RecoverTail] returns,
    and of the log remain exactly the records in front of the first one above the
    watermark that does not check, whole and in order; every record that remains
    is then committed, the watermark being the end of the log.  A log without
    records above its watermark is left alone. *)
Theorem recover_tail_exact k w fss self kept rest :
  w_ok w fss → -1 ≤ hw (w_log w) → concat fss = kept ++ rest → sound_up_to (hw (w_log w)) kept rest → (length kept < k)%nat →
  ∃ w', RecoverTail k fuel a cut_calm alone w self = Some (w', Ok ()) ∧
    if hw (w_log w) <? NewestOffset (w_log w)
    then ∃ fss', inv (w_log w') fss' ∧ concat fss' = kept ∧ hw (w_log w') = NewestOffset (w_log w')
    else w_log w' = w_log w.
Proof.
  intros Hw Hh Hcat Hsound Hk. unfold RecoverTail, HighWatermark. cbn [turn alone o_step w_log].
  set (w1 := {| w_log := w_log w; w_left := _; w_clock := _ |}). destruct (Z.ltb_spec (hw (w_log w)) (NewestOffset (w_log w))) as [Hlt|Hge].
  - destruct (RepairTail_spec k w1 fss self kept rest Hw (conj Hh Hlt) Hcat Hsound Hk) as (w2 & E & fss' & Hi' & Hc' & Hhw).
    rewrite E. cbn [mbind option_bind]. cbn [w1 w_log] in Hhw. destruct (Z.ltb_spec (hw (w_log w)) (NewestOffset (w_log w2))) as [Ht|Ht].
    + eexists. split; [done|]. exists fss'. cbn [put_log w_log turn alone o_step]. unfold SetHighWatermark.
      rewrite (proj2 (Z.ltb_lt (hw (w_log w2)) (NewestOffset (w_log w2)))) by lia. done.
    + eexists. split; [done|]. exists fss'. split; [done|]. split; [done|]. lia.
  - eexists. unfold RepairTail, HighWatermark. cbn [turn alone o_step w_log w1].
    rewrite (proj2 (Z.leb_le (NewestOffset (w_log w)) (hw (w_log w)))) by lia. cbn [mbind option_bind].
    rewrite (proj2 (Z.ltb_ge (hw (w_log w)) (NewestOffset (w_log w)))) by lia. done.
Qed.


End recovery.
(** ** Witness *)

(** A record whose checksum is wrong, behind the watermark and in front of a
    sound one. *)
Definition torn_frame : frm := {| f_off := 4101; f_ts := 7; f_ep := 0; f_data := replicate 10 Byte.x00 |}.

Definition torn_frames : list frm := [KeyDigest.kv_frame 4100 1; torn_frame; KeyDigest.kv_frame 4103 1].

Lemma torn_frames_ok : frames_ok 4100 torn_frames.
Proof.
  split_and!; [lia|lia| | | |by vm_compute].
  - repeat (apply Forall_cons; split); [split_and!; try lia; by vm_compute..|by apply Forall_nil].
  - by repeat (apply Forall_cons; split); [..|apply Forall_nil].
  - repeat constructor; cbn; lia.
Qed.

Lemma recover_tail_exact_witness :
  ∃ fuel w' fss, @RecoverTail half_lib 2 fuel no_digest cut_calm alone (world_of torn_frames 4100) 3 = Some (w', Ok ()) ∧
    @inv half_lib (w_log w') fss ∧ concat fss = [KeyDigest.kv_frame 4100 1] ∧ hw (w_log w') = NewestOffset (w_log w').
Proof.
  exists (Z.to_nat (2 ^ 27)). destruct (world_of_ok torn_frames 4100 torn_frames_ok ltac:(done) ltac:(by vm_compute)) as [Hw En].
  assert (Enew : NewestOffset (w_log (world_of torn_frames 4100)) = 4103) by (unfold NewestOffset; by rewrite En).
  destruct (@recover_tail_exact half_lib half_laws (Z.to_nat (2 ^ 27)) no_digest ltac:(unfold ample; rewrite Z2Nat.id by lia; lia)
    2 (world_of torn_frames 4100) [torn_frames] 3 [KeyDigest.kv_frame 4100 1] [torn_frame; KeyDigest.kv_frame 4103 1]) as (w' & E & Hx).
  - exact Hw.
  - cbn. lia.
  - reflexivity.
  - split; [|split; [cbn; lia|by vm_compute]]. apply Forall_singleton. cbn. lia.
  - cbn. lia.
  - rewrite Enew in Hx. destruct Hx as (fss & Hi & Hc & Hh). exists w', fss. split; [exact E|]. split; [exact Hi|]. split; [exact Hc|exact Hh].
Defined.


End Repair.
